(* ===== verification/_CoqProject ===== *)
-Q . S2P
Prelude.v
BitCount.v
BitField.v
Chars.v
ErrorOr.v
StringView.v
SmallVector.v
Path.v
RotatingLog.v
StringDistance.v
CommandUtil.v
CommandLine.v
CommandLineSpec.v
Romfs.v
Http.v
Query.v
Sha1.v
Sha1Spec.v
Varint.v
Uint128.v
Dump.v
DumpSpec.v
Uuid.v
Utf.v
Help.v
WebSocket.v
SparseArray.v
Broker.v
Gc.v
Pubsub.v
MessageQueue.v
IntrusiveList.v
Json.v
JsonLex.v
JsonString.v
JsonSpec.v
JsonGrammar.v
Checksum.v
Address.v
Region.v
Storage.v
FileHeader.v
HttpServer.v
HttpServerSpec.v
Memory.v
MemoryFile.v
PosixFile.v
Serialize.v
RepoSection.v
RepoSectionSpec.v
StoreIntf.v
Fragment.v
HamtTypes.v
HamtMap.v
HamtSpec.v
HamtOps.v
HamtInsert.v
HamtRefine.v
HamtIter.v
HamtFlush.v
HamtSet.v
Database.v
DatabaseSpec.v
Transaction.v
TransactionSpec.v
Archive.v
IndirectString.v
Compilation.v
Repository.v
Commit.v
Session.v
Vacuum.v
Examples.v
Properties.v
Diff.v
