(* ===== verification/Prelude.v ===== *)
(** * pstore: a persistent append-only store, modelled and verified

    pstore keeps indices, maps from keys to values, in a memory-mapped file that only ever
    grows. A transaction appends data and new trie nodes; its commit appends a trailer that
    records where the roots of all indices are and points back to the trailer before it, so
    every revision stays readable. Around the store there are encodings of identifiers and
    text, the containers of the program repository, a JSON parser, a small HTTP and WebSocket
    server with a read-only file system, and a broker process that runs the garbage collector.

    ** The parts of the program and the files that model them

    This file has what all others share: error codes (include/pstore/support/error.hpp), the
    [outcome] of a function that may throw, the state-and-exception monad [M] with its rule
    [wp], machine-width wrap-around and generic lemmas.

    The store, from the bottom up:

    - BitCount (support/bit_count.hpp, aligned.hpp, round2.hpp) and Checksum (lib/core/crc32.cpp,
      lib/support/fnv.cpp): bit operations, CRC-32 and FNV-1a.
    - Address (core/address.hpp): segment and offset of an address, typed addresses, extents.
    - Region (core/region.hpp): how a file is divided into memory-mapped regions.
    - Storage (core/storage.hpp, lib/core/storage.cpp): the segment address table, growing and
      shrinking, copies that span regions, page protection. State: [storage].
    - FileHeader (core/file_header.hpp, lib/core/file_header.cpp): header and trailer, their
      layout in octets, signatures and checksums.
    - Database, DatabaseSpec (lib/core/database.cpp, core/database.hpp,
      lib/core/generation_iterator.cpp): open, close, get, allocate, truncate, sync, revisions.
      State: [database], which contains the header, the memory and the storage.
    - StoreIntf: the interface between the index and the store, as the class
      [TransactionStore] with its laws [TransactionStoreLaws], and the template parameters of
      the index as [KeyTraits].
    - HamtTypes, HamtMap (core/hamt_map_types.hpp, lib/core/hamt_map_types.cpp,
      core/hamt_map.hpp, core/array_stack.hpp): the hash trie, whose nodes are on the heap until
      they are flushed. HamtSpec says what a trie in memory represents; HamtOps, HamtInsert,
      HamtRefine, HamtIter and HamtFlush prove the operations against StoreIntf.
    - Transaction, TransactionSpec (core/transaction.hpp, lib/core/transaction.cpp,
      lib/core/index_types.cpp): begin, allocate, commit, roll back, the cached indices, and
      the proof that a transaction provides StoreIntf. Commit: what a commit does to all of it.
    - Session: the abstract store (a family of finite maps and the history of its revisions)
      and the refinement of the client's operations. Examples: a concrete store that the
      definitions are run on. Properties: the guarantees, with their instances.

    Other components:

    - Varint (support/varint.hpp): integers of variable length. Serialize (serialize/archive.hpp,
      types.hpp, standard_types.hpp): archive-writers, archive-readers and serializers as instances
      of classes, with the classes of laws through which each relies on the others.
    - Uint128 (support/uint128.hpp, lib/support/uint128.cpp, lib/core/base32.hpp): the 128-bit
      digests as pairs of words.
    - Uuid (lib/core/uuid.cpp): generation, text and parsing of identifiers.
    - Utf (support/utf.hpp, lib/support/utf.cpp): the encoder and the table-driven decoder.
    - BitField (support/bit_field.hpp): fields of some of the bits of a word.
    - SparseArray (mcrepo/sparse_array.hpp): the array of the sections of a fragment.
    - Memory: memory as bytes, and the layouts of types in it. RepoSection (mcrepo/section.hpp,
      generic_section.hpp, bss_section.hpp, debug_line_section.hpp, dependents_section.hpp and
      their lib/mcrepo files): the sections of object code, constructed in such a memory;
      RepoSectionSpec: what the memory holds afterwards and that the accessors read it back.
    - Fragment (mcrepo/fragment.hpp, lib/mcrepo/fragment.cpp): allocation, checks and loading of
      fragments, against StoreIntf. Compilation (mcrepo/compilation.hpp, lib/mcrepo/compilation.cpp):
      the records that name the fragments of a compilation. Repository: the theorems on both.
    - Archive (core/db_archive.hpp, core/sstring_view_archive.hpp): writing to a transaction and
      reading from a database whose objects are octets. IndirectString (core/indirect_string.hpp,
      lib/core/indirect_string.cpp): strings that are referred to through a word.
    - HamtSet (core/hamt_set.hpp): the index as a set.
    - Json (json/json.hpp): the matchers, the parse stack and the loops of the JSON parser. JsonLex
      and JsonString prove what its keywords, numbers and strings recognise, JsonSpec that the parser
      follows the productions of the grammar, with what the matchers compute. JsonGrammar has the
      grammar of RFC 8259 by itself, what its tokens stand for, and the proof that the parser
      accepts it.
    - Broker (broker_intf/message_type.hpp, lib/broker_intf/send_message.cpp,
      lib/broker/parser.cpp, lib/broker/command.cpp, lib/broker/quit.cpp): packets, their reassembly,
      the command loop with its queue, and the orderly end that SUICIDE asks for.
    - Romfs (lib/romfs): the read-only file system from which the HTTP server takes its pages.
    - Http (http/buffered_reader.hpp, http/request.hpp, lib/http/headers.cpp): reading of requests
      through a buffer, with the headers that are undefined for characters outside ASCII. WebSocket (http/ws_server.hpp, lib/http/ws_server.cpp):
      frames and messages on top of it. Query (http/query_to_kvp.hpp) and Sha1 (lib/http/wskey.cpp):
      queries of URIs, and the hash that answers the key of a WebSocket; Sha1Spec: its definition.
      HttpServer (lib/http/server.cpp, media_type.cpp, http_date.cpp, serve_static_content.hpp,
      serve_dynamic_content.hpp): a connection from request to reply, composed of these; HttpServerSpec:
      the replies as a function of the request and of the file system.
    - Chars: the functions of the C library on characters. CommandLine (cmd_util/command_line.hpp,
      option.hpp, parser.hpp and their lib/cmd_util files): the options of a program and the parser
      of its arguments; CommandLineSpec: what a command line means. StringDistance and CommandUtil
      (lib/cmd_util/string_distance.cpp, csv.cpp, str_to_revision.cpp, word_wrapper.cpp): suggestions
      of names, lists of values, revision numbers and lines of text. Help (lib/cmd_util/help.cpp,
      cmd_util/help.hpp): the text of help.
    - Dump (lib/dump/value.cpp, line_splitter.hpp, digest_opt.cpp): the values of a dump and their
      text; DumpSpec: readers for that text and its layout.
    - ErrorOr (support/maybe.hpp, support/error_or.hpp): optional values and errors in raw storage.
      StringView (support/sstring_view.hpp): views of strings and their order.
    - Diff (diff/diff.hpp, diff/diff_value.hpp, lib/diff/revision.cpp): the keys of an index that
      are new since a revision, proved on top of Session.
    - Gc (broker/bimap.hpp, lib/broker/gc_common.cpp, lib/broker/gc_posix.cpp): the table of the
      running vacuum processes. Vacuum (lib/vacuum/copy.cpp, watch.cpp, quit.cpp): the threads of
      such a process, on the abstract store of Session; the copy it makes does not take the place of
      the store, because the renaming of PosixFile never replaces a file. IntrusiveList (broker/intrusive_list.hpp):
      the doubly linked list of the reads in progress, on a heap of links.
    - SmallVector (support/small_vector.hpp): the vector whose few elements are inside it. Path
      (lib/support/path.cpp): joining and splitting of paths, of POSIX and of Windows.
    - MemoryFile (os/file.hpp, lib/os/file.cpp): files as a class with laws, the file in memory
      that provides them, range locks, temporary names and deleters. RotatingLog
      (os/rotating_log.hpp, lib/os/logging.cpp): log files and their backups.
    - PosixFile (lib/os/file_posix.cpp, os/file.hpp): files of the operating system, whose calls
      are a class with laws; a small disk satisfies them.
    - MessageQueue (broker/message_queue.hpp, message_pool.hpp): the queue between the broker's
      threads, as steps that interleave, and the pool of its messages.
    - Pubsub (support/pubsub.hpp): the channels on which the broker and the server publish what
      they do, as steps of threads.

    ** How the code is translated

    A function that may throw returns an [outcome]; one that also changes an object is a
    computation in [M], whose state remains as it was when the exception left (C++ does not undo
    writes). A failed [assert], a dangling pointer and undefined behaviour are outcomes too, so a
    theorem that a function returns [Ok] says that none of them happens. Integers are [Z] with
    [wrap32], [wrap64] and [wrap] wherever the code's type can overflow. Memory of the store and
    of the heap is a finite map from addresses to the objects constructed there; the bytes that
    checksums cover are computed from the layout, and inside a fragment the memory is bytes. A
    template parameter, the operating system and the random generator are arguments.

    ** What the theorems show

    - C1 to C5, the store as a whole: look-ups, insertions, commits, reopening and checking out
      old revisions refine the operations on the abstract maps in every reachable state. Reopening
      is proved where uncommitted data does not reach beyond the region of the newest trailer,
      checking out for sessions with nothing uncommitted.
    - C6 to C12, transactions and the database: commits append and lose nothing, roll back
      restores the view and unmaps what lies behind it, every branch of get, the differences between two revisions, walking the
      revisions, damaged headers and trailers are rejected; the lemmas [sync_outcome] and
      [allocate_after_commit_extends] add the branches of sync and of an allocation that comes too late.
    - C13 to C16, the index: find, insert, iteration, flush and load against finite maps, with
      exact accounting of heap blocks; the lemmas [index_stale] and [index_clear_releases] add
      the errors of an old index and the release of the blocks.
    - C17 to C20, what is kept in the store: fragments, their checks, compilations and strings.
    - C21 and C22, the mapping: growth, translation and copies; the lemmas [storage_protects] and
      [factory_extends] are about page protection and the region factory.
    - C23 to C28, checksums, encodings, serializers and containers; for serializers, every type made
      of integers, strings and pairs, in either kind of writer.
    - C29 to C32, the broker and its processes: interleaved packets, each command executed once until
      a command ends the thread, the table of processes, what the copy of a vacuum contains, and
      that published messages arrive. The lemmas [insert_before_ok], [erase_ok],
      [elements_ok] and [check_ok] are the behaviour of intrusive lists; [queue_progress],
      [queue_messages] and [queue_fifo] that the queue of messages wakes its readers, loses nothing
      and keeps the order.
    - C33 to C36, the read-only file system and the HTTP server: paths, the reply to a request with
      the assertion that ends a connection whose input was not read to its end,
      the keys and the messages of WebSockets, whatever the pieces in which octets arrive; the
      lemmas [http_request_read] and [ws_frame_roundtrip] are the steps of requests and frames.
      Of the layers below, [value_roundtrip], [in_memory_laws], [mem_errors], [posix_laws],
      [rename_noreplace_ok] and [disk_value_roundtrip] are about files,
      [log_impl_ok] and [log_rotates] about logs, [push_back_ok] and [append_ok] about small vectors,
      [posix_split] and [win32_join_ok] about paths, [copy_assign_ok] and [maybe_copy_assign_ok]
      about the life of optional values, [operators_ok] about the order of views; [string_roundtrip],
      [number_roundtrip], [binary_roundtrip], [value_layout], [ls_append_app] and [digest_roundtrip]
      about dumps, [build_categories_ok] and [widest_option_ok] about help.
    - C37 and C38, command lines: the settings that arguments express, by the names of options or of
      their aliases, are the ones that are stored, and the distance that suggestions go by is the least number of edits.
    - C39 and C40, the JSON parser: it accepts the grammar of RFC 8259 and nothing else, on any
      division of the text into pieces, reports what the tokens stand for as long as no accumulator
      overflows, is undefined only behind a keyword, and reads integers exactly.

    ** Bounds and fuel

    Recursion that follows pointers takes fuel. The trie is at most 13 levels deep (a 64-bit hash
    in chunks of six bits and a linear node), and the functions get fuel from that depth
    ([max_internal_depth]); the specifications prove that it never runs out. Walking the revisions
    takes one step per trailer, with fuel for every trailer the file can hold; the loops of Region
    and Storage take one step per region and segment. In all of these the theorems state that the
    result is [Ok], which excludes [OutOfFuel]. The JSON parser may look at a character up to eight
    times before it takes it, and [input] has fuel for that. "Room" in C1 to C3 is that a store of 2^38 bytes
    has space for what the operation appends and that the index has fewer than 2^64 entries.

    ** Not modelled, and why

    Memory mapping, shared memory and processes (lib/os) are calls of the operating system; files are
    modelled on the calls of POSIX, which are parameters, and the Windows implementations are not
    modelled. Concurrency is modelled as the interleaving of packets and of turns of the command
    thread in Broker, of threads in Pubsub,
    MessageQueue and Vacuum, and as transactions that are
    serialised by the store's lock. The conversion of stores to dumped values and the tools are
    clients and output. Values in the store are seen either as objects (the index) or as octets
    (archives, strings); that a vacuum copies the octets of an extent is a step on the abstract
    store. *)

From stdpp Require Export base tactics numbers list gmap fin_maps.
From Stdlib Require Export ZArith Lia.

#[global] Open Scope Z_scope.

(** ** Errors *)

(** [pstore::error_code] (include/pstore/support/error.hpp). *)
Inductive error_code :=
  | err_none
  | unknown_revision
  | header_corrupt
  | header_version_mismatch
  | footer_corrupt
  | index_corrupt
  | bad_alignment
  | index_not_latest_revision
  | unknown_process_path
  | store_closed
  | cannot_allocate_after_commit
  | bad_address
  | read_only_address
  | did_not_read_number_of_bytes_requested
  | uuid_parse_error
  | bad_message_part_number
  | unable_to_open_named_pipe
  | pipe_write_timeout.

#[global] Instance error_code_eq_dec : EqDecision error_code.
Proof. solve_decision. Defined.

(** [pstore::repo::error_code] (include/pstore/mcrepo/repo_error.hpp) *)
Inductive repo_error_code :=
  | bad_fragment_record
  | bad_fragment_type
  | bad_compilation_record
  | too_many_members_in_compilation
  | bss_section_too_large.

#[global] Instance repo_error_code_eq_dec : EqDecision repo_error_code.
Proof. solve_decision. Defined.

(** The values of [std::errc] that the sources raise *)
Inductive errc := no_buffer_space | permission_denied | invalid_argument | bad_file_descriptor.

#[global] Instance errc_eq_dec : EqDecision errc.
Proof. solve_decision. Defined.

(** The values of [errno] that the sources test, and the others *)
Inductive errno :=
  | EPERM | ENOENT | EAGAIN | EACCES | EEXIST | EINVAL | ENOTTY | ENOSYS
  | other_errno (n : Z).

#[global] Instance errno_eq_dec : EqDecision errno.
Proof. solve_decision. Defined.

(** What leaves a C++ function other than a value: an exception raised with one
    of the library's error codes or those of the program repository, [std::out_of_range], one of the broker's own exceptions,
    one of the system's error codes or an [errno_erc], a failed [assert] (a debug build aborts),
    an access through a pointer that designates no live object, an operation whose
    behaviour the language leaves undefined, or, in the model only, a recursion that
    exhausted its fuel. *)
Inductive exn :=
  | Raise (e : error_code)
  | RaiseRepo (e : repo_error_code)
  | OutOfRange
  | PartNumberTooLarge
  | NumberOfPartsMismatch
  | RaiseErrc (e : errc)
  | RaiseErrno (e : errno)
  | Assert
  | Dangling
  | Undefined
  | OutOfFuel.

#[global] Instance exn_eq_dec : EqDecision exn.
Proof. solve_decision. Defined.

Inductive outcome (A : Type) :=
  | Ok (a : A)
  | Throw (e : exn).
Arguments Ok {A} _.
Arguments Throw {A} _.

#[global] Instance outcome_eq_dec {A} `{EqDecision A} : EqDecision (outcome A).
Proof. solve_decision. Defined.

Definition obind {A B} (o : outcome A) (f : A -> outcome B) : outcome B :=
  match o with
  | Ok a => f a
  | Throw e => Throw e
  end.

(** [assert (c)]. *)
Definition oassert (c : bool) : outcome unit := if c then Ok tt else Throw Assert.

(** ** Effectful code

    A computation over a state [S] either returns a value or throws; the state
    it leaves behind is kept in both cases, since a C++ exception does not undo
    the side effects that precede it. *)
Definition M (S A : Type) : Type := S -> outcome A * S.

Definition ret {S A} (a : A) : M S A := fun s => (Ok a, s).
Definition throw {S A} (e : exn) : M S A := fun s => (Throw e, s).
Definition bind {S A B} (m : M S A) (f : A -> M S B) : M S B :=
  fun s =>
    match m s with
    | (Ok a, s') => f a s'
    | (Throw e, s') => (Throw e, s')
    end.
Definition get {S} : M S S := fun s => (Ok s, s).
Definition put {S} (s' : S) : M S unit := fun _ => (Ok tt, s').
Definition modify {S} (f : S -> S) : M S unit := fun s => (Ok tt, f s).
Definition gets {S A} (f : S -> A) : M S A := fun s => (Ok (f s), s).
Definition lift {S A} (o : outcome A) : M S A := fun s => (o, s).
Definition massert {S} (c : bool) : M S unit := lift (oassert c).

Declare Scope pstore_scope.
Delimit Scope pstore_scope with pstore.
Notation "x <- c ;; k" := (bind c (fun x => k))
  (at level 20, c at level 99, k at level 200, right associativity) : pstore_scope.
Notation "' p <- c ;; k" := (bind c (fun p => k))
  (at level 20, p pattern, c at level 99, k at level 200, right associativity) : pstore_scope.
Notation "c ;;; k" := (bind c (fun _ => k))
  (at level 100, k at level 200, right associativity) : pstore_scope.
Notation "x <-? c ;; k" := (obind c (fun x => k))
  (at level 20, c at level 99, k at level 200, right associativity) : pstore_scope.
#[global] Open Scope pstore_scope.

Lemma bind_ok {S A B} (m : M S A) (f : A -> M S B) s a s' :
  m s = (Ok a, s') -> bind m f s = f a s'.
Proof. unfold bind. by intros ->. Qed.

Lemma bind_throw {S A B} (m : M S A) (f : A -> M S B) s e s' :
  m s = (Throw e, s') -> bind m f s = (Throw e, s').
Proof. unfold bind. by intros ->. Qed.

Lemma bind_ret {S A B} (a : A) (f : A -> M S B) s : bind (ret a) f s = f a s.
Proof. done. Qed.

Lemma bind_get {S B} (f : S -> M S B) s : bind get f s = f s s.
Proof. reflexivity. Qed.

Lemma bind_gets {S A B} (g : S -> A) (f : A -> M S B) s : bind (gets g) f s = f (g s) s.
Proof. done. Qed.

Lemma bind_modify {S B} (g : S -> S) (f : unit -> M S B) s :
  bind (modify g) f s = f tt (g s).
Proof. done. Qed.

Lemma bind_massert_true {S B} (c : bool) (f : unit -> M S B) s :
  c = true -> bind (massert c) f s = f tt s.
Proof. by intros ->. Qed.

Lemma bind_lift_ok {S A B} (o : outcome A) a (f : A -> M S B) s :
  o = Ok a -> bind (lift o) f s = f a s.
Proof. by intros ->. Qed.

Lemma bind_assoc {S A B C} (m : M S A) (f : A -> M S B) (g : B -> M S C) s :
  bind (bind m f) g s = bind m (fun a => bind (f a) g) s.
Proof. unfold bind. by destruct (m s) as [[a|e] s']. Qed.

(** Inverting a run that returned a value. *)
Lemma bind_ok_inv {S A B} (m : M S A) (f : A -> M S B) s b s'' :
  bind m f s = (Ok b, s'') -> exists a s', m s = (Ok a, s') /\ f a s' = (Ok b, s'').
Proof. unfold bind. destruct (m s) as [[a|e] s'] eqn:E; naive_solver. Qed.

(** *** Total-correctness specifications

    [wp m Q s]: run in [s], [m] returns a value (it neither throws nor fails an
    assertion), and value and final state satisfy [Q]. [owp] is its pure counterpart. *)
Definition owp {A} (o : outcome A) (Q : A -> Prop) : Prop :=
  match o with
  | Ok a => Q a
  | Throw _ => False
  end.

Definition wp {S A} (m : M S A) (Q : A -> S -> Prop) (s : S) : Prop :=
  match m s with
  | (Ok a, s') => Q a s'
  | (Throw _, _) => False
  end.

Section wp.
Context {S : Type}.

Lemma owp_ok {A} (a : A) (Q : A -> Prop) : Q a -> owp (Ok a) Q.
Proof. done. Qed.

Lemma owp_eq {A} (o : outcome A) a (Q : A -> Prop) : o = Ok a -> Q a -> owp o Q.
Proof. by intros ->. Qed.

Lemma owp_bind {A B} (o : outcome A) (f : A -> outcome B) Q :
  owp o (fun a => owp (f a) Q) -> owp (obind o f) Q.
Proof. by destruct o. Qed.

Lemma owp_assert (c : bool) (Q : unit -> Prop) : c = true -> Q tt -> owp (oassert c) Q.
Proof. by intros ->. Qed.

Lemma owp_mono {A} (o : outcome A) (P Q : A -> Prop) :
  owp o P -> (forall a, P a -> Q a) -> owp o Q.
Proof. destruct o; cbn; auto. Qed.

Lemma owp_elim {A} (o : outcome A) Q : owp o Q -> exists a, o = Ok a /\ Q a.
Proof. destruct o; cbn; naive_solver. Qed.

Lemma wp_ret {A} (a : A) (Q : A -> S -> Prop) s : Q a s -> wp (ret a) Q s.
Proof. done. Qed.

Lemma wp_eq {A} (m : M S A) a s s' (Q : A -> S -> Prop) :
  m s = (Ok a, s') -> Q a s' -> wp m Q s.
Proof. unfold wp. by intros ->. Qed.

Lemma wp_bind {A B} (m : M S A) (f : A -> M S B) Q s :
  wp m (fun a => wp (f a) Q) s -> wp (bind m f) Q s.
Proof. unfold wp, bind. by destruct (m s) as [[a|e] s']. Qed.

Lemma wp_gets {A} (f : S -> A) (Q : A -> S -> Prop) s : Q (f s) s -> wp (gets f) Q s.
Proof. done. Qed.

Lemma wp_modify (f : S -> S) (Q : unit -> S -> Prop) s : Q tt (f s) -> wp (modify f) Q s.
Proof. done. Qed.

Lemma wp_lift {A} (o : outcome A) (Q : A -> S -> Prop) s :
  owp o (fun a => Q a s) -> wp (lift o) Q s.
Proof. unfold wp, lift. by destruct o. Qed.

Lemma wp_massert (c : bool) (Q : unit -> S -> Prop) s : c = true -> Q tt s -> wp (massert c) Q s.
Proof. by intros ->. Qed.

Lemma wp_mono {A} (m : M S A) (P Q : A -> S -> Prop) s :
  wp m P s -> (forall a s', P a s' -> Q a s') -> wp m Q s.
Proof. unfold wp. destruct (m s) as [[a|e] s']; auto. Qed.

Lemma wp_elim {A} (m : M S A) Q s : wp m Q s -> exists a s', m s = (Ok a, s') /\ Q a s'.
Proof. unfold wp. destruct (m s) as [[a|e] s']; naive_solver. Qed.

Lemma wp_run {A} (m : M S A) Q s a s' : wp m Q s -> m s = (Ok a, s') -> Q a s'.
Proof. unfold wp. intros Hwp Hrun. by rewrite Hrun in Hwp. Qed.
End wp.

(** One step of a symbolic run: the specifications of the primitives are found in the
    database [wp]; side conditions are left to [wp_side]. *)
Create HintDb wp discriminated.
#[export] Hint Resolve owp_ok wp_ret wp_gets wp_modify wp_lift : wp.

Ltac wp_head :=
  cbn beta iota;
  lazymatch goal with
  | |- wp (bind _ _) _ _ => apply wp_bind
  | |- wp (ret _) _ _ => apply wp_ret
  | |- wp (gets _) _ _ => apply wp_gets
  | |- wp (modify _) _ _ => apply wp_modify
  | |- wp (lift _) _ _ => apply wp_lift
  | |- wp (massert _) _ _ => apply wp_massert
  | |- owp (obind _ _) _ => apply owp_bind
  | |- owp (Ok _) _ => apply owp_ok
  | |- owp (oassert _) _ => apply owp_assert
  end.

(** ** Machine integers *)

Definition wrap (w z : Z) : Z := z mod 2 ^ w.
Abbreviation wrap64 := (wrap 64).
Abbreviation wrap32 := (wrap 32).

(** [std::numeric_limits<std::uint64_t>::max ()] *)
Definition uint64_max : Z := 2 ^ 64 - 1.

(** A value of [std::uint8_t] or [char] *)
Definition octet (b : Z) : Prop := 0 <= b < 256.

Lemma wrap_small w z : 0 <= z < 2 ^ w -> wrap w z = z.
Proof. intros. by apply Z.mod_small. Qed.

Lemma wrap_range w z : 0 <= w -> 0 <= wrap w z < 2 ^ w.
Proof. intros. apply Z.mod_pos_bound. lia. Qed.

(** ** Lists *)

Lemma list_filter_ext {A} (P Q : A -> Prop) `{!forall x, Decision (P x)} `{!forall x, Decision (Q x)}
    (l : list A) :
  Forall (fun x => P x <-> Q x) l -> filter P l = filter Q l.
Proof.
  induction 1 as [|x l Hx _ IH]; [done|].
  rewrite !filter_cons, IH. repeat case_decide; tauto.
Qed.

Lemma list_filter_none {A} (P : A -> Prop) `{!forall x, Decision (P x)} (l : list A) :
  Forall (fun x => ~ P x) l -> filter P l = [].
Proof. induction 1; [done|]. rewrite filter_cons. by case_decide. Qed.

Lemma choose_below {A} `{Inhabited A} (n : nat) (P : nat -> A -> Prop) :
  (forall i, (i < n)%nat -> exists x, P i x) -> exists f, forall i, (i < n)%nat -> P i (f i).
Proof.
  induction n as [|n IH]; intros HP; [exists (fun _ => inhabitant); lia|].
  destruct IH as [f Hf]; [intros i Hi; apply HP; lia|]. destruct (HP n ltac:(lia)) as [x Hx].
  exists (fun i => if decide (i = n) then x else f i). intros i Hi. case_decide; [by subst|]. apply Hf. lia.
Qed.

Lemma fmap_list_bind {A B C} (f : B -> C) (g : A -> list B) (l : list A) :
  f <$> (l ≫= g) = l ≫= (fun x => f <$> g x).
Proof. induction l as [|x l IH]; [done|]. cbn. by rewrite fmap_app, IH. Qed.

(** ** Bits of a bounded integer *)

Lemma testbit_ge w x i : 0 <= x < 2 ^ w -> 0 <= w <= i -> Z.testbit x i = false.
Proof.
  intros Hx Hi. rewrite <- (Z.mod_small x (2 ^ w)) by done. by apply Z.mod_pow2_bits_high.
Qed.

Lemma land_ones_range w x m : 0 <= w -> 0 <= x -> 0 <= m < 2 ^ w -> 0 <= Z.land x m < 2 ^ w.
Proof.
  intros Hw Hx Hm. split; [apply Z.land_nonneg; lia|].
  rewrite <- (Z.mod_small m (2 ^ w)), <- Z.land_ones, Z.land_assoc, Z.land_ones by lia.
  apply Z.mod_pos_bound. lia.
Qed.

Lemma lor_range w x y : 0 <= w -> 0 <= x < 2 ^ w -> 0 <= y < 2 ^ w -> 0 <= Z.lor x y < 2 ^ w.
Proof.
  intros Hw Hx Hy. split; [apply Z.lor_nonneg; lia|].
  rewrite <- (Z.mod_small x (2 ^ w)), <- (Z.mod_small y (2 ^ w)), <- !Z.land_ones by lia.
  rewrite <- Z.land_lor_distr_l, Z.land_ones by lia. apply Z.mod_pos_bound. lia.
Qed.

(** A value below the lowest bit of another is merged into it by addition. *)
Lemma lxor_range w x y : 0 <= w -> 0 <= x < 2 ^ w -> 0 <= y < 2 ^ w -> 0 <= Z.lxor x y < 2 ^ w.
Proof.
  intros Hw Hx Hy. split; [apply Z.lxor_nonneg; lia|].
  destruct (decide (Z.lxor x y = 0)) as [->|]; [lia|].
  assert (0 < Z.lxor x y) by (pose proof (Z.lxor_nonneg x y); lia).
  apply Z.log2_lt_pow2; [done|].
  apply Z.lt_nge. intros Hge.
  assert (Z.testbit (Z.lxor x y) (Z.log2 (Z.lxor x y)) = true) as Hb by (by apply Z.bit_log2).
  by rewrite Z.lxor_spec, !(testbit_ge w) in Hb by lia.
Qed.

Lemma lor_add n a b : 0 <= n -> 0 <= b < 2 ^ n -> (2 ^ n | a) -> Z.lor a b = a + b.
Proof.
  intros Hn Hb [q ->]. symmetry. apply Z.add_nocarry_lor. apply Z.bits_inj'. intros i Hi.
  rewrite Z.land_spec, Z.bits_0. destruct (Z.lt_ge_cases i n).
  - rewrite Z.mul_pow2_bits_low by lia. done.
  - rewrite (testbit_ge n b i) by lia. apply andb_false_r.
Qed.

(** What a boolean computation shows of each of the 256 octets holds of every octet. *)
Lemma octet_forall (P : Z -> bool) : forallb P (seqZ 0 256) = true -> forall b, 0 <= b < 256 -> P b = true.
Proof. intros HP b Hb. apply (proj1 (forallb_forall P _) HP). apply list_elem_of_In, elem_of_seqZ. lia. Qed.
