(* ===== verification/BitCount.v ===== *)
(** * Bit twiddling: population count, zero counts, alignment, rounding

    Models include/pstore/support/bit_count.hpp (the compiler builtins
    [__builtin_popcount*], [__builtin_clz*] and [__builtin_ctz*] are given their
    meaning on integers), aligned.hpp and round2.hpp. *)

From stdpp Require Import list_numbers.
From S2P Require Import Prelude.

(** ** Counting bits *)

Fixpoint pos_pop_count (p : positive) : Z :=
  match p with
  | xH => 1
  | xO q => pos_pop_count q
  | xI q => 1 + pos_pop_count q
  end.

(** [bit_count::pop_count] *)
Definition pop_count (x : Z) : Z :=
  match x with
  | Zpos p => pos_pop_count p
  | _ => 0
  end.

(** [bit_count::clz] on a value of [w] bits: the argument must not be 0. *)
Definition clz (w x : Z) : outcome Z :=
  _ <-? oassert (negb (x =? 0)) ;; Ok (w - 1 - Z.log2 x).

Fixpoint pos_ctz (p : positive) : Z :=
  match p with
  | xO q => 1 + pos_ctz q
  | _ => 0
  end.

(** [bit_count::ctz] *)
Definition ctz (x : Z) : outcome Z :=
  match x with
  | Zpos p => Ok (pos_ctz p)
  | _ => Throw Assert
  end.

(** The positions of the one bits of [x] below bit [n], in increasing order. *)
Definition set_bits (n x : Z) : list Z := filter (fun i => Z.testbit x i = true) (seqZ 0 n).

Lemma pop_count_nonneg x : 0 <= pop_count x.
Proof.
  destruct x as [|p|p]; [done| |done].
  cbn [pop_count]. induction p; cbn [pos_pop_count]; lia.
Qed.

Lemma pop_count_double x b : 0 <= x -> pop_count (2 * x + Z.b2z b) = Z.b2z b + pop_count x.
Proof. intros. by destruct x as [|p|p], b. Qed.

Lemma pop_count_pos x : 0 < x -> 0 < pop_count x.
Proof.
  intros. destruct x as [|p|p]; [done| |done]. cbn [pop_count]. clear H.
  induction p; cbn [pos_pop_count]; lia.
Qed.

Lemma set_bits_succ n x : 0 <= n ->
  set_bits (Z.succ n) x =
    (if Z.testbit x 0 then [0] else []) ++ (Z.succ <$> set_bits n (x / 2)).
Proof.
  intros Hn. unfold set_bits.
  rewrite seqZ_cons by lia. rewrite Z.pred_succ.
  replace (seqZ (Z.succ 0) n) with (Z.succ <$> seqZ 0 n).
  2:{ apply list_eq. intros i. rewrite list_lookup_fmap.
      destruct (decide (Z.of_nat i < n)).
      - rewrite !lookup_seqZ_lt by lia. simpl. f_equal. lia.
      - rewrite !lookup_seqZ_ge by lia. done. }
  rewrite filter_cons.
  assert (filter (fun i => Z.testbit x i = true) (Z.succ <$> seqZ 0 n) =
          Z.succ <$> filter (fun i => Z.testbit (x / 2) i = true) (seqZ 0 n)) as ->.
  { assert (Forall (fun i => 0 <= i) (seqZ 0 n)) as Hall.
    { apply Forall_seqZ. lia. }
    induction Hall as [|i l Hi _ IH]; [done|].
    csimpl. rewrite !filter_cons.
    assert (Z.testbit x (Z.succ i) = Z.testbit (x / 2) i) as ->.
    { change 2 with (2 ^ 1). rewrite Z.div_pow2_bits by lia. f_equal; lia. }
    destruct (decide _); csimpl; by rewrite IH. }
  destruct (Z.testbit x 0); simpl; done.
Qed.

Lemma length_set_bits n x : 0 <= x < 2 ^ n -> Z.of_nat (length (set_bits n x)) = pop_count x.
Proof.
  intros Hx.
  assert (0 <= n) as Hn.
  { destruct (decide (0 <= n)); [done|]. rewrite Z.pow_neg_r in Hx by lia. lia. }
  revert x Hx. pattern n. apply natlike_ind; [| |exact Hn].
  - intros x Hx. change (2 ^ 0) with 1 in Hx. replace x with 0 by lia. done.
  - clear n Hn. intros n Hn IH x Hx.
    rewrite Z.pow_succ_r in Hx by lia.
    rewrite set_bits_succ, length_app, length_fmap by lia.
    rewrite Nat2Z.inj_add, IH by (split; [apply Z.div_pos; lia | apply Z.div_lt_upper_bound; lia]).
    rewrite (Z.div2_odd x) at 3. rewrite Z.div2_div.
    rewrite pop_count_double by (apply Z.div_pos; lia).
    rewrite <- Z.bit0_odd. by destruct (Z.testbit x 0).
Qed.

Lemma set_bits_ext n x y :
  (forall i, 0 <= i < n -> Z.testbit x i = Z.testbit y i) -> set_bits n x = set_bits n y.
Proof.
  intros H. apply list_filter_ext, Forall_seqZ. intros i Hi. by rewrite H by lia.
Qed.

(** Masking with [bit_pos - 1] keeps exactly the bits below [i]. *)
Lemma land_below x i : 0 <= i -> Z.land x (2 ^ i - 1) = x mod 2 ^ i.
Proof. intros. by rewrite <- Z.land_ones, Z.ones_equiv by lia. Qed.

Lemma pop_count_below x i : 0 <= i ->
  pop_count (Z.land x (2 ^ i - 1)) = Z.of_nat (length (set_bits i x)).
Proof.
  intros Hi. rewrite land_below by done.
  rewrite <- (length_set_bits i) by (apply Z.mod_pos_bound; lia).
  f_equal. f_equal. apply set_bits_ext. intros j Hj.
  by rewrite Z.mod_pow2_bits_low by lia.
Qed.

Definition set_bits_above (i n x : Z) : list Z :=
  filter (fun j => Z.testbit x j = true) (seqZ (i + 1) (n - i - 1)).

Lemma set_bits_split n x i : 0 <= i < n ->
  set_bits n x =
    set_bits i x ++ (if Z.testbit x i then [i] else []) ++ set_bits_above i n x.
Proof.
  intros Hi. unfold set_bits, set_bits_above.
  replace n with (i + (1 + (n - i - 1))) at 1 by lia.
  rewrite !seqZ_app, !filter_app by lia. do 2 f_equal.
  change (seqZ (0 + i) 1) with [0 + i]. rewrite filter_cons, filter_nil, Z.add_0_l.
  by destruct (Z.testbit x i).
Qed.

(** Bit [i], when set, is found at the position given by the number of one bits below it. *)
Lemma set_bits_lookup n x i : 0 <= i < n -> Z.testbit x i = true ->
  set_bits n x !! Z.to_nat (pop_count (Z.land x (2 ^ i - 1))) = Some i.
Proof.
  intros Hi Hb. rewrite pop_count_below, Nat2Z.id by lia.
  rewrite (set_bits_split n x i), Hb by done.
  by rewrite lookup_app_r, Nat.sub_diag by lia.
Qed.

(** Setting a clear bit inserts its position at the index given by the bits below. *)
Lemma set_bits_insert n x i : 0 <= i < n -> Z.testbit x i = false ->
  let idx := Z.to_nat (pop_count (Z.land x (2 ^ i - 1))) in
  set_bits n (Z.lor x (2 ^ i)) = take idx (set_bits n x) ++ i :: drop idx (set_bits n x).
Proof.
  intros Hi Hb idx. subst idx. rewrite pop_count_below, Nat2Z.id by lia.
  rewrite (set_bits_split n x i), (set_bits_split n (Z.lor x (2 ^ i)) i), Hb by done.
  rewrite take_app_length, drop_app_length.
  rewrite Z.lor_spec, Z.pow2_bits_true, orb_true_r by lia. simpl. f_equal.
  - apply set_bits_ext. intros j Hj.
    by rewrite Z.lor_spec, Z.pow2_bits_false, orb_false_r by lia.
  - f_equal. apply list_filter_ext, Forall_seqZ. intros j Hj.
    by rewrite Z.lor_spec, Z.pow2_bits_false, orb_false_r by lia.
Qed.

Lemma elem_of_set_bits n x i : i ∈ set_bits n x <-> Z.testbit x i = true /\ 0 <= i < n.
Proof. unfold set_bits. rewrite list_elem_of_filter, elem_of_seqZ. naive_solver lia. Qed.

Lemma NoDup_set_bits n x : NoDup (set_bits n x).
Proof. apply NoDup_filter, NoDup_seqZ. Qed.

Lemma set_bits_pow2 n i : 0 <= i < n -> set_bits n (2 ^ i) = [i].
Proof.
  intros Hi. rewrite (set_bits_split n _ i) by done.
  rewrite Z.pow2_bits_true by lia.
  assert (set_bits i (2 ^ i) = []) as ->.
  { rewrite (set_bits_ext i (2 ^ i) 0).
    - unfold set_bits. rewrite list_filter_none; [done|]. apply Forall_seqZ. intros.
      by rewrite Z.testbit_0_l.
    - intros j Hj. by rewrite Z.pow2_bits_false, Z.testbit_0_l by lia. }
  unfold set_bits_above. rewrite list_filter_none; [done|].
  apply Forall_seqZ. intros j Hj. by rewrite Z.pow2_bits_false by lia.
Qed.

Lemma land_pow2_zero x i : 0 <= i -> (Z.land x (2 ^ i) =? 0) = negb (Z.testbit x i).
Proof.
  intros Hi. destruct (Z.testbit x i) eqn:E; simpl.
  - apply Z.eqb_neq. intros H0. apply (f_equal (fun z => Z.testbit z i)) in H0.
    by rewrite Z.land_spec, E, Z.pow2_bits_true, Z.bits_0 in H0 by done.
  - apply Z.eqb_eq, Z.bits_inj'. intros j Hj. rewrite Z.land_spec, Z.bits_0.
    destruct (decide (j = i)) as [->|]; [by rewrite E|].
    by rewrite Z.pow2_bits_false, andb_false_r by done.
Qed.

(** ** Zero counts *)

Lemma clz_spec w x : 0 < x < 2 ^ w ->
  exists r, clz w x = Ok r /\ 0 <= r < w /\ 2 ^ (w - 1 - r) <= x < 2 ^ (w - r).
Proof.
  intros Hx.
  assert (0 < w) as Hw.
  { destruct (decide (0 < w)); [done|].
    assert (2 ^ w <= 1); [|lia].
    destruct (decide (w = 0)); [by subst|]. rewrite Z.pow_neg_r; lia. }
  pose proof (Z.log2_spec x ltac:(lia)) as [? ?].
  assert (Z.log2 x < w) by (apply Z.log2_lt_pow2; lia).
  pose proof (Z.log2_nonneg x).
  exists (w - 1 - Z.log2 x). unfold clz.
  destruct (Z.eqb_spec x 0); [lia|]. simpl. split_and!; [done|lia|lia| |].
  - by replace (w - 1 - (w - 1 - Z.log2 x)) with (Z.log2 x) by lia.
  - by replace (w - (w - 1 - Z.log2 x)) with (Z.succ (Z.log2 x)) by lia.
Qed.

Lemma pos_ctz_nonneg p : 0 <= pos_ctz p.
Proof. induction p; cbn [pos_ctz]; lia. Qed.

(** [ctz x] is the exponent of the largest power of two that divides [x]. *)
Lemma ctz_spec x : 0 < x ->
  exists r k, ctz x = Ok r /\ 0 <= r /\ 0 <= k /\ x = (2 * k + 1) * 2 ^ r.
Proof.
  destruct x as [|p|p]; [done|intros _|done].
  exists (pos_ctz p). pose proof (pos_ctz_nonneg p).
  induction p as [p IH|p IH|].
  - exists (Z.pos p). cbn [ctz pos_ctz]. split_and!; try lia. done.
  - pose proof (pos_ctz_nonneg p) as Hp. destruct (IH Hp) as (k & _ & _ & Hk & E).
    exists k. cbn [ctz pos_ctz]. split_and!; [done|lia|lia|].
    rewrite Z.pow_add_r by lia. rewrite Pos2Z.inj_xO, E. change (2 ^ 1) with 2. ring.
  - exists 0. by cbn.
Qed.

Lemma ctz_unique r k : 0 <= r -> 0 <= k -> ctz ((2 * k + 1) * 2 ^ r) = Ok r.
Proof.
  intros Hr Hk. pattern r. apply natlike_ind; [| |exact Hr].
  - rewrite Z.mul_1_r. destruct k; done.
  - clear r Hr. intros r Hr IH.
    rewrite Z.pow_succ_r by lia.
    replace ((2 * k + 1) * (2 * 2 ^ r)) with (2 * ((2 * k + 1) * 2 ^ r)) by ring.
    assert (0 < (2 * k + 1) * 2 ^ r) by (pose proof (Z.pow_pos_nonneg 2 r); nia).
    destruct ((2 * k + 1) * 2 ^ r) as [|p|p]; [done| |done].
    change (2 * Z.pos p) with (Z.pos p~0). cbn [ctz pos_ctz] in *.
    injection IH as ->. f_equal. lia.
Qed.

(** ** Alignment *)

(** [is_power_of_two] *)
Definition is_power_of_two (n : Z) : bool := (n >? 0) && (Z.land n (n - 1) =? 0).

(** [aligned (v, align)], on unsigned values of [w] bits. *)
Definition aligned (w v align : Z) : outcome Z :=
  _ <-? oassert (is_power_of_two align) ;;
  Ok (Z.land (wrap w (v + align - 1)) (2 ^ w - 1 - (align - 1))).

(** [calc_alignment (v, align)] for 64-bit [v] and [std::size_t] [align]. *)
Definition calc_alignment (v align : Z) : outcome Z :=
  _ <-? oassert (is_power_of_two align) ;;
  if align =? 0 then Ok 0
  else Ok (wrap64 (Z.land (wrap64 (v + align - 1)) (uint64_max - (align - 1)) - v)).

Lemma is_power_of_two_spec n : is_power_of_two n = true <-> exists k, 0 <= k /\ n = 2 ^ k.
Proof.
  unfold is_power_of_two. rewrite andb_true_iff, Z.eqb_eq.
  rewrite Z.gtb_ltb, Z.ltb_lt. split.
  - intros [Hn H]. exists (Z.log2 n). split; [apply Z.log2_nonneg|].
    pose proof (Z.log2_spec n Hn) as [Hl Hu].
    destruct (decide (n = 2 ^ Z.log2 n)) as [|Hne]; [done|exfalso].
    assert (Z.testbit (Z.land n (n - 1)) (Z.log2 n) = true) as Hb.
    { rewrite Z.land_spec, Z.bit_log2, andb_true_l by done.
      pose proof (Z.log2_nonneg n).
      assert (0 < 2 ^ Z.log2 n) by (apply Z.pow_pos_nonneg; lia).
      assert (Z.log2 (n - 1) = Z.log2 n) as <- by (apply Z.log2_unique; lia).
      apply Z.bit_log2. lia. }
    by rewrite H, Z.testbit_0_l in Hb.
  - intros (k & Hk & ->). split; [apply Z.pow_pos_nonneg; lia|].
    rewrite land_below, Z.mod_same by lia. done.
Qed.

Lemma align_down w k x : 0 <= k <= w -> 0 <= x < 2 ^ w ->
  Z.land x (2 ^ w - 1 - (2 ^ k - 1)) = x - x mod 2 ^ k.
Proof.
  intros Hk Hx.
  assert (Z.land x (2 ^ w - 1 - (2 ^ k - 1)) = Z.ldiff x (Z.ones k)) as ->.
  { apply Z.bits_inj'. intros i Hi. rewrite Z.land_spec, Z.ldiff_spec.
    replace (2 ^ w - 1 - (2 ^ k - 1)) with (Z.shiftl (Z.ones (w - k)) k).
    2:{ rewrite Z.shiftl_mul_pow2, Z.ones_equiv by lia.
        replace w with ((w - k) + k) at 2 by lia. rewrite Z.pow_add_r by lia. lia. }
    rewrite Z.shiftl_spec by done.
    destruct (decide (i < k)).
    - rewrite (Z.testbit_neg_r _ (i - k)), Z.ones_spec_low by lia. by rewrite !andb_false_r.
    - rewrite (Z.ones_spec_high k) by lia. rewrite andb_true_r.
      destruct (decide (i < w)).
      + by rewrite Z.ones_spec_low, andb_true_r by lia.
      + by rewrite (testbit_ge w x i), andb_false_l by lia. }
  rewrite Z.sub_nocarry_ldiff.
  - rewrite <- Z.land_ones by lia. apply Z.bits_inj'. intros i Hi.
    rewrite !Z.ldiff_spec, Z.land_spec. by destruct (Z.testbit x i), (Z.testbit _ i).
  - rewrite <- Z.land_ones by lia. apply Z.bits_inj'. intros i Hi.
    rewrite Z.ldiff_spec, Z.land_spec, Z.testbit_0_l.
    by destruct (Z.testbit x i), (Z.testbit _ i).
Qed.

Lemma round_up_value v a : 0 < a ->
  (v + a - 1) - (v + a - 1) mod a = v + (- v) mod a.
Proof.
  intros Ha. pose proof (Z.mod_pos_bound (-v) a Ha). pose proof (Z.mod_pos_bound (v + a - 1) a Ha).
  pose proof (Z.div_mod (- v) a ltac:(lia)). pose proof (Z.div_mod (v + a - 1) a ltac:(lia)).
  assert ((v + a - 1) / a = - (- v / a)); [|nia].
  assert (v = a * (- (- v / a)) - (- v) mod a) by lia.
  symmetry. apply (Z.div_unique _ _ _ (a - 1 - (- v) mod a)); lia.
Qed.

Lemma aligned_ok w v k : 0 <= k <= w -> 0 <= v -> v + 2 ^ k <= 2 ^ w ->
  aligned w v (2 ^ k) = Ok (v + (- v) mod 2 ^ k).
Proof.
  intros Hk Hv Hm. assert (0 < 2 ^ k) by (apply Z.pow_pos_nonneg; lia).
  unfold aligned. rewrite (proj2 (is_power_of_two_spec _)) by (exists k; lia). simpl.
  rewrite wrap_small, align_down by lia. by rewrite round_up_value.
Qed.

(** The padding is the least non-negative number that completes [v] to a multiple. *)
Lemma calc_alignment_ok v k : 0 <= k <= 64 -> 0 <= v -> v + 2 ^ k <= 2 ^ 64 ->
  calc_alignment v (2 ^ k) = Ok ((- v) mod 2 ^ k).
Proof.
  intros Hk Hv Hm. assert (0 < 2 ^ k) by (apply Z.pow_pos_nonneg; lia).
  unfold calc_alignment. rewrite (proj2 (is_power_of_two_spec _)) by (exists k; lia). simpl.
  destruct (Z.eqb_spec (2 ^ k) 0); [lia|].
  unfold uint64_max. rewrite (wrap_small 64 (v + _ - 1)), align_down by lia.
  rewrite round_up_value by done. f_equal.
  pose proof (Z.mod_pos_bound (- v) (2 ^ k)).
  rewrite wrap_small; lia.
Qed.

Lemma pad_divide v a : 0 < a -> (a | v + (- v) mod a).
Proof.
  intros Ha. apply Z.mod_divide; [lia|].
  rewrite Z.add_mod_idemp_r by lia. by rewrite Z.add_opp_diag_r, Z.mod_0_l by lia.
Qed.

(** ** Rounding up to a power of two (round2.hpp) *)

Definition smear (shifts : list Z) (v : Z) : Z :=
  fold_left (fun v s => Z.lor v (Z.shiftr v s)) shifts v.

Definition round_to_power_of_2_u8 (v : Z) : Z :=
  wrap 8 (smear [1; 2; 4] (wrap 8 (v - 1)) + 1).
Definition round_to_power_of_2_u16 (v : Z) : Z :=
  wrap 16 (smear [1; 2; 4; 8] (wrap 16 (v - 1)) + 1).
Definition round_to_power_of_2_u32 (v : Z) : Z :=
  wrap 32 (smear [1; 2; 4; 8; 16] (wrap 32 (v - 1)) + 1).
Definition round_to_power_of_2_u64 (v : Z) : Z :=
  wrap 64 (smear [1; 2; 4; 8; 16; 32] (wrap 64 (v - 1)) + 1).

(** The top [n] bits of a value whose highest one bit is [k] are all set. *)
Definition topped (k n y : Z) : Prop :=
  0 <= y < 2 ^ (k + 1) /\ forall i, 0 <= i -> k - n < i <= k -> Z.testbit y i = true.

Lemma topped_step k n y : 0 <= k -> 0 < n -> topped k n y ->
  topped k (2 * n) (Z.lor y (Z.shiftr y n)).
Proof.
  intros Hk Hn [Hy Ht]. split.
  - apply lor_range; [lia|done|]. rewrite Z.shiftr_div_pow2 by lia.
    assert (0 < 2 ^ n) by (apply Z.pow_pos_nonneg; lia).
    split; [apply Z.div_pos; lia|]. apply Z.div_lt_upper_bound; nia.
  - intros i Hi Hr. rewrite Z.lor_spec, Z.shiftr_spec by lia.
    destruct (decide (k - n < i)).
    + by rewrite Ht by lia.
    + rewrite (Ht (i + n)) by lia. apply orb_true_r.
Qed.

Lemma topped_log2 y : 0 < y -> topped (Z.log2 y) 1 y.
Proof.
  intros Hy. pose proof (Z.log2_spec y Hy). split.
  - rewrite Z.add_1_r. lia.
  - intros i Hi Hr. replace i with (Z.log2 y) by lia. by apply Z.bit_log2.
Qed.

Lemma topped_full k n y : 0 <= k < n -> topped k n y -> y = 2 ^ (k + 1) - 1.
Proof.
  intros Hk [Hy Ht]. replace (2 ^ (k + 1) - 1) with (Z.ones (k + 1)) by (rewrite Z.ones_equiv; lia).
  apply Z.bits_inj'. intros i Hi. destruct (decide (i <= k)).
  - by rewrite Ht, Z.ones_spec_low by lia.
  - by rewrite (testbit_ge (k + 1)), Z.ones_spec_high by lia.
Qed.

Lemma smear_full shifts k n y :
  0 <= k -> 0 < n -> topped k n y ->
  (forall i s, shifts !! i = Some s -> s = n * 2 ^ Z.of_nat i) ->
  k < n * 2 ^ Z.of_nat (length shifts) ->
  smear shifts y = 2 ^ (k + 1) - 1.
Proof.
  intros Hk. revert n y. induction shifts as [|s l IH]; intros n y Hn Ht Hs Hlen.
  - simpl in *. apply (topped_full k n); [lia|done].
  - assert (s = n) as -> by (rewrite (Hs 0%nat s eq_refl); lia).
    change (smear (n :: l) y) with (smear l (Z.lor y (Z.shiftr y n))).
    apply (IH (2 * n)); [lia|by apply topped_step| |].
    + intros i s Hi. rewrite (Hs (S i) s Hi), Nat2Z.inj_succ, Z.pow_succ_r; lia.
    + cbn [length] in Hlen. rewrite Nat2Z.inj_succ, Z.pow_succ_r in Hlen; lia.
Qed.

Lemma round_to_power_of_2_ok w m shifts v :
  0 < w -> (forall i s, shifts !! i = Some s -> s = 2 ^ Z.of_nat i) ->
  length shifts = m -> w = 2 ^ Z.of_nat m ->
  1 <= v <= 2 ^ (w - 1) ->
  let r := wrap w (smear shifts (wrap w (v - 1)) + 1) in
  (exists k, 0 <= k /\ r = 2 ^ k) /\ v <= r /\ r < 2 * v.
Proof.
  intros Hw Hs Hlen Hwm Hv r. subst r.
  assert (2 ^ w = 2 * 2 ^ (w - 1)) by (rewrite <- Z.pow_succ_r by lia; f_equal; lia).
  rewrite (wrap_small w (v - 1)) by lia.
  destruct (decide (v = 1)) as [->|].
  { assert (smear shifts (1 - 1) = 0) as ->.
    { clear. change (1 - 1) with 0. unfold smear. induction shifts; simpl; [done|].
      by rewrite Z.shiftr_0_l. }
    rewrite wrap_small by lia. split_and!; [exists 0; lia|lia|lia]. }
  pose proof (Z.log2_nonneg (v - 1)).
  pose proof (Z.log2_spec (v - 1) ltac:(lia)) as [Hl Hu].
  rewrite <- Z.add_1_r in Hu.
  assert (Z.log2 (v - 1) < w - 1) by (apply Z.log2_lt_pow2; lia).
  rewrite (smear_full shifts (Z.log2 (v - 1)) 1); first last.
  - rewrite Hlen, Z.mul_1_l. lia.
  - intros i s Hi. rewrite (Hs i s Hi). lia.
  - apply topped_log2. lia.
  - lia.
  - lia.
  - rewrite Z.sub_add.
    assert (2 ^ (Z.log2 (v - 1) + 1) <= 2 ^ (w - 1)) by (apply Z.pow_le_mono_r; lia).
    rewrite wrap_small by lia.
    split_and!; [eexists; split; [|done]; lia|lia|].
    rewrite Z.pow_add_r by lia. lia.
Qed.
