(* ===== verification/BitField.v ===== *)
(** * Bit fields

    Models include/pstore/support/bit_field.hpp: members of a union that give access to some of
    the bits of an unsigned word of [w] bits. A field is the number [bits] of its bits and the
    [index] of the lowest. *)

From S2P Require Import Prelude.

(** [bit_field_base::value] *)
Definition bit_field_value (index bits raw : Z) : Z := Z.land (Z.shiftr raw index) (2 ^ bits - 1).

(** [bit_field_base::assign] *)
Definition bit_field_assign (w index bits raw v : Z) : Z :=
  let mask := 2 ^ bits - 1 in
  Z.lor (wrap w (Z.land raw (Z.lnot (Z.shiftl mask index)))) (wrap w (Z.shiftl (Z.land v mask) index)).

(** [bit_field::operator+=] and [operator-=] *)
Definition bit_field_add (w index bits raw other : Z) : Z :=
  bit_field_assign w index bits raw (wrap w (bit_field_value index bits raw + other)).
Definition bit_field_sub (w index bits raw other : Z) : Z :=
  bit_field_assign w index bits raw (wrap w (bit_field_value index bits raw - other)).

(** [operator++] and [operator--], and what the postfix forms return *)
Definition bit_field_incr (w index bits raw : Z) : Z := bit_field_add w index bits raw 1.
Definition bit_field_decr (w index bits raw : Z) : Z := bit_field_sub w index bits raw 1.
Definition bit_field_post_incr (w index bits raw : Z) : Z * Z := (raw, bit_field_incr w index bits raw).
Definition bit_field_post_decr (w index bits raw : Z) : Z * Z := (raw, bit_field_decr w index bits raw).

(** ** Properties *)

Lemma bit_field_value_mod index bits raw : 0 <= index -> 0 <= bits ->
  bit_field_value index bits raw = (raw / 2 ^ index) mod 2 ^ bits.
Proof.
  intros Hi Hb. unfold bit_field_value. rewrite Z.shiftr_div_pow2 by done.
  replace (2 ^ bits - 1) with (Z.ones bits) by (rewrite Z.ones_equiv; lia). by apply Z.land_ones.
Qed.

Lemma mask_bits bits i : 0 <= bits -> 0 <= i -> Z.testbit (2 ^ bits - 1) i = bool_decide (i < bits).
Proof.
  intros Hb Hi. replace (2 ^ bits - 1) with (Z.ones bits) by (rewrite Z.ones_equiv; lia).
  case_bool_decide; [by apply Z.ones_spec_low|apply Z.ones_spec_high; lia].
Qed.

Lemma wrap_bits w x i : 0 <= w -> 0 <= i -> Z.testbit (wrap w x) i = bool_decide (i < w) && Z.testbit x i.
Proof.
  intros Hw Hi. unfold wrap. case_bool_decide; [by apply Z.mod_pow2_bits_low|].
  rewrite Z.mod_pow2_bits_high; [done|lia].
Qed.

(** The bits of the word after an assignment: those of the value inside the field, the old ones elsewhere *)
Lemma assign_bits w index bits raw v i :
  0 <= index -> 0 <= bits -> index + bits <= w -> 0 <= raw < 2 ^ w -> 0 <= i ->
  Z.testbit (bit_field_assign w index bits raw v) i =
    if bool_decide (index <= i < index + bits) then Z.testbit v (i - index) else Z.testbit raw i.
Proof.
  intros Hi Hb Hw Hr Hn. unfold bit_field_assign. rewrite Z.lor_spec, !wrap_bits, Z.land_spec, Z.lnot_spec by lia.
  rewrite !Z.shiftl_spec by done.
  destruct (Z.lt_ge_cases i index) as [Hlt|Hge].
  - rewrite (Z.testbit_neg_r _ (i - index)), (Z.testbit_neg_r (Z.land _ _)) by lia.
    rewrite (bool_decide_eq_false_2 (index <= i < _)), bool_decide_eq_true_2 by lia. by destruct (Z.testbit raw i).
  - rewrite Z.land_spec, mask_bits by lia. destruct (Z.lt_ge_cases i (index + bits)) as [Hlt|Hge'].
    + rewrite !bool_decide_eq_true_2 by lia. cbn. by rewrite andb_false_r, andb_true_r.
    + rewrite (bool_decide_eq_false_2 (i - index < bits)), (bool_decide_eq_false_2 (index <= i < _)) by lia. cbn.
      rewrite !andb_false_r, orb_false_r, andb_true_r. case_bool_decide; [done|].
      cbn. symmetry. apply (testbit_ge w); lia.
Qed.

Lemma assign_range w index bits raw v : 0 <= w -> 0 <= bit_field_assign w index bits raw v < 2 ^ w.
Proof. intros Hw. apply lor_range; [done|by apply wrap_range..]. Qed.

(** An assigned field has the value, cut to its bits; the fields beside it keep theirs. *)
Lemma value_assign w index bits raw v :
  0 <= index -> 0 <= bits -> index + bits <= w -> 0 <= raw < 2 ^ w ->
  bit_field_value index bits (bit_field_assign w index bits raw v) = v mod 2 ^ bits.
Proof.
  intros Hi Hb Hw Hr. apply Z.bits_inj'. intros n Hn. unfold bit_field_value.
  rewrite Z.land_spec, Z.shiftr_spec, mask_bits, assign_bits by lia.
  change (v mod 2 ^ bits) with (wrap bits v). rewrite wrap_bits by done.
  replace (n + index - index) with n by lia. destruct (Z.lt_ge_cases n bits).
  - rewrite !bool_decide_eq_true_2 by lia. by rewrite andb_true_r.
  - rewrite (bool_decide_eq_false_2 (n < bits)) by lia. by rewrite andb_false_r.
Qed.

Lemma value_assign_other w index bits raw v index' bits' :
  0 <= index -> 0 <= bits -> index + bits <= w -> 0 <= raw < 2 ^ w -> 0 <= index' -> 0 <= bits' ->
  index + bits <= index' \/ index' + bits' <= index ->
  bit_field_value index' bits' (bit_field_assign w index bits raw v) = bit_field_value index' bits' raw.
Proof.
  intros Hi Hb Hw Hr Hi' Hb' Hd. apply Z.bits_inj'. intros n Hn. unfold bit_field_value.
  rewrite !Z.land_spec, !Z.shiftr_spec, mask_bits, assign_bits by lia.
  destruct (Z.lt_ge_cases n bits').
  - rewrite (bool_decide_eq_false_2 (index <= n + index' < _)) by lia. done.
  - rewrite (bool_decide_eq_false_2 (n < bits')) by lia. by rewrite !andb_false_r.
Qed.

(** The arithmetic operators work modulo the size of the field. *)
Lemma value_add w index bits raw other :
  0 <= index -> 0 <= bits -> index + bits <= w -> 0 <= raw < 2 ^ w ->
  bit_field_value index bits (bit_field_add w index bits raw other) =
    (bit_field_value index bits raw + other) mod 2 ^ bits.
Proof.
  intros Hi Hb Hw Hr. unfold bit_field_add. rewrite value_assign by done. unfold wrap.
  replace (2 ^ w) with (2 ^ bits * 2 ^ (w - bits)) by (rewrite <- Z.pow_add_r by lia; f_equal; lia).
  assert (0 < 2 ^ bits) by (apply Z.pow_pos_nonneg; lia). assert (0 < 2 ^ (w - bits)) by (apply Z.pow_pos_nonneg; lia).
  rewrite Z.rem_mul_r by lia. rewrite Z.mul_comm, Z.mod_add by lia. by rewrite Z.mod_mod by lia.
Qed.
