(* ===== verification/Chars.v ===== *)
(** * Characters

    The functions of the C library on characters and strings that the sources use, in the default
    locale: they are part of the language's library. *)

From S2P Require Import Prelude.

(** [std::isspace] in the default locale *)
Definition isspace (c : Z) : bool := (c =? 32) || ((9 <=? c) && (c <=? 13)).

(** [std::tolower] in the default locale *)
Definition tolower (c : Z) : Z := if (65 <=? c) && (c <=? 90) then c + 32 else c.

(** [std::isdigit] *)
Definition isdigit (c : Z) : bool := (48 <=? c) && (c <=? 57).

(** The number that the digits at the front of a string denote *)
Fixpoint digits_value (s : list Z) (acc : Z) : Z * list Z :=
  match s with
  | c :: s' => if isdigit c then digits_value s' (10 * acc + (c - 48)) else (acc, s)
  | [] => (acc, [])
  end.

(** The white space at the front of a string is skipped. *)
Fixpoint skip_space (s : list Z) : list Z :=
  match s with
  | c :: s' => if isspace c then skip_space s' else s
  | [] => []
  end.

(** [std::strtol] in base 10: the value, what is behind it, and whether it was out of range *)
Definition strtol (s : list Z) : Z * list Z * bool :=
  let t := skip_space s in
  let '(neg, t) := match t with
                   | c :: t' => if c =? 45 then (true, t') else if c =? 43 then (false, t') else (false, t)
                   | [] => (false, [])
                   end in
  match t with
  | c :: _ =>
      if isdigit c then
        let '(v, rest) := digits_value t 0 in
        let v := if neg then - v else v in
        if v >? 2 ^ 63 - 1 then (2 ^ 63 - 1, rest, true)
        else if v <? - 2 ^ 63 then (- 2 ^ 63, rest, true)
        else (v, rest, false)
      else (0, s, false)
  | [] => (0, s, false)
  end.

(** [std::string::c_str], up to the null character that ends it *)
Fixpoint c_str (s : list Z) : list Z :=
  match s with
  | [] => []
  | c :: s => if c =? 0 then [] else c :: c_str s
  end.

(** The digits of a number *)
Fixpoint digits_of (fuel : nat) (n : Z) (acc : list Z) : list Z :=
  match fuel with
  | O => acc
  | S fuel => let acc := (48 + n mod 10) :: acc in if n <? 10 then acc else digits_of fuel (n / 10) acc
  end.
Definition to_digits (n : Z) : list Z := digits_of 20 n [].

Lemma digits_of_value fuel n acc : 0 <= n < 10 ^ Z.of_nat fuel -> digits_value (digits_of fuel n acc) 0 = digits_value acc n.
Proof.
  revert n acc. induction fuel as [|fuel IH]; intros n acc Hn; [change (10 ^ Z.of_nat 0) with 1 in Hn; by replace n with 0 by lia|].
  rewrite Nat2Z.inj_succ, Z.pow_succ_r in Hn by lia. pose proof (Z.mod_pos_bound n 10 ltac:(lia)). pose proof (Z.div_mod n 10 ltac:(lia)).
  assert (forall a, digits_value ((48 + n mod 10) :: acc) a = digits_value acc (10 * a + n mod 10)) as Hd.
  { intros a. cbn [digits_value]. unfold isdigit. rewrite !(proj2 (Z.leb_le _ _)) by lia. cbn [andb]. f_equal. lia. }
  cbn [digits_of]. destruct (Z.ltb_spec n 10).
  - rewrite Hd, Z.mod_small by lia. f_equal; lia.
  - rewrite IH by (split; [apply Z.div_pos; lia|apply Z.div_lt_upper_bound; lia]). rewrite Hd. f_equal; lia.
Qed.

Lemma digits_of_digits fuel n acc : Forall (fun c => isdigit c = true) acc -> Forall (fun c => isdigit c = true) (digits_of fuel n acc).
Proof.
  revert n acc. induction fuel as [|fuel IH]; intros n acc Ha; [done|]. cbn [digits_of].
  assert (isdigit (48 + n mod 10) = true).
  { pose proof (Z.mod_pos_bound n 10 ltac:(lia)). unfold isdigit. rewrite !(proj2 (Z.leb_le _ _)) by lia. done. }
  case_match; [by constructor|]. apply IH. by constructor.
Qed.

Lemma digits_of_nonempty fuel n acc : acc <> [] \/ (0 < fuel)%nat -> digits_of fuel n acc <> [].
Proof.
  revert n acc. induction fuel as [|fuel IH]; intros n acc Ha; [destruct Ha; [done|lia]|]. cbn [digits_of]. case_match; [done|]. apply IH. by left.
Qed.
