(* ===== verification/ErrorOr.v ===== *)
(** * Optional values and errors

    Models include/pstore/support/maybe.hpp and include/pstore/support/error_or.hpp: classes that keep an object in raw storage
    and construct and destroy it themselves. The storage says which object lives in it, so that constructing over a living
    object, reading one that does not live and destroying one twice are undefined, and a constructor of the value may throw. *)

From S2P Require Import Prelude.

(** Variables of a type are at locations, and a member function runs on one of them. *)
Definition at_ {O A} (l : nat) (m : M O A) : M (gmap nat O) A :=
  fun h => match h !! l with
           | None => (Throw Dangling, h)
           | Some o => let '(r, o') := m o in (r, <[l := o']> h)
           end.

(** ** maybe *)

Section maybe.
Context {T : Type} (copy_value : T -> outcome T) (moved : T -> T) (eq_value : T -> T -> bool).

(** [valid_] and the object that lives in [storage_] *)
Record maybe := mk_maybe { valid_ : bool; storage_ : option T }.
Definition nothing : maybe := mk_maybe false None.

(** [new (&storage_) T (...)], where the constructor may throw, and the destructor of [T] *)
Definition new_value (c : outcome T) : M maybe unit :=
  fun m => match storage_ m, c with
           | Some _, _ => (Throw Undefined, m)
           | None, Throw e => (Throw e, m)
           | None, Ok v => (Ok tt, mk_maybe (valid_ m) (Some v))
           end.
Definition destroy_value : M maybe unit :=
  fun m => match storage_ m with
           | None => (Throw Undefined, m)
           | Some _ => (Ok tt, mk_maybe (valid_ m) None)
           end.
Definition set_valid (b : bool) (m : maybe) : maybe := mk_maybe b (storage_ m).

(** The constructor from a value, of which [c] is the result of constructing the object *)
Definition maybe_ctor (c : outcome T) : M maybe unit := new_value c ;;; modify (set_valid true).

(** [operator->] and [value] *)
Definition maybe_value : M maybe T :=
  m <- get ;; massert (valid_ m) ;;; match storage_ m with Some v => ret v | None => throw Undefined end.
Definition has_value (m : maybe) : bool := valid_ m.

(** [reset], which is the destructor too *)
Definition maybe_reset : M maybe unit :=
  m <- get ;; if valid_ m then modify (set_valid false) ;;; destroy_value else ret tt.

(** [operator=] from a value: when there is a value already, a copy is made and exchanged with it, and the old one dies with
    the temporary. *)
Definition maybe_assign_value (c : outcome T) : M maybe unit :=
  m <- get ;;
  if valid_ m then
    temp <- lift c ;;
    maybe_value ;;;
    modify (fun m => mk_maybe (valid_ m) (Some temp))
  else new_value c ;;; modify (set_valid true).

(** The copy and move constructors, run on a new object *)
Definition maybe_copy (this other : nat) : M (gmap nat maybe) unit :=
  modify (fun h => <[this := nothing]> h) ;;;
  o <- at_ other get ;;
  if valid_ o then v <- at_ other maybe_value ;; at_ this (maybe_ctor (copy_value v)) else ret tt.
Definition take_value : M maybe T := v <- maybe_value ;; modify (fun m => mk_maybe (valid_ m) (Some (moved v))) ;;; ret v.
Definition maybe_move (this other : nat) : M (gmap nat maybe) unit :=
  modify (fun h => <[this := nothing]> h) ;;;
  o <- at_ other get ;;
  if valid_ o then v <- at_ other take_value ;; at_ this (maybe_ctor (Ok v)) else ret tt.

(** [operator=] from another object, copied or moved *)
Definition maybe_copy_assign (this other : nat) : M (gmap nat maybe) unit :=
  if (other =? this)%nat then ret tt
  else
    o <- at_ other get ;;
    if negb (has_value o) then at_ this maybe_reset
    else v <- at_ other maybe_value ;; at_ this (maybe_assign_value (copy_value v)).
Definition maybe_move_assign (this other : nat) : M (gmap nat maybe) unit :=
  if (other =? this)%nat then ret tt
  else
    o <- at_ other get ;;
    if negb (has_value o) then at_ this maybe_reset
    else v <- at_ other take_value ;; at_ this (maybe_assign_value (Ok v)).

(** [operator==], [value_or] and [operator>>=] *)
Definition maybe_eq (x y : maybe) : outcome bool :=
  if Bool.eqb (has_value x) (has_value y) then
    if negb (has_value x) then Ok true
    else a <-? (maybe_value x).1 ;; b <-? (maybe_value y).1 ;; Ok (eq_value a b)
  else Ok false.
Definition value_or (x : maybe) (default_value : T) : outcome T :=
  if has_value x then (maybe_value x).1 else Ok default_value.
Definition maybe_bind {U} (x : maybe) (f : T -> outcome (option U)) : outcome (option U) :=
  if valid_ x then v <-? (maybe_value x).1 ;; f v else Ok None.
End maybe.
Arguments maybe : clear implicits.

(** ** error_or *)

Section error_or.
Context {T E : Type} (copy_value : T -> outcome T) (moved : T -> T) (no_error : E) (eq_value : T -> T -> bool) (eq_error : E -> E -> bool).

(** The object that lives in the union, and [has_error_] *)
Inductive storage := Dead | Value (v : T) | Error (e : E).
Record error_or := mk_eo { union_ : storage; has_error_ : bool }.

Definition set_union (s : storage) (o : error_or) : error_or := mk_eo s (has_error_ o).

(** [get_storage] and [get_error_storage] with the object read through them *)
Definition read_value : M error_or T :=
  o <- get ;; massert (negb (has_error_ o)) ;;; match union_ o with Value v => ret v | _ => throw Undefined end.
Definition read_error : M error_or E :=
  o <- get ;; massert (has_error_ o) ;;; match union_ o with Error e => ret e | _ => throw Undefined end.

(** Construction in the storage *)
Definition construct_value (c : outcome T) : M error_or unit :=
  o <- get ;; massert (negb (has_error_ o)) ;;;
  match union_ o with Dead => v <- lift c ;; modify (set_union (Value v)) | _ => throw Undefined end.
Definition construct_error (e : E) : M error_or unit :=
  o <- get ;; massert (has_error_ o) ;;; match union_ o with Dead => modify (set_union (Error e)) | _ => throw Undefined end.

(** The constructors from an error and from a value *)
Definition eo_error (e : E) : M error_or unit := put (mk_eo Dead true) ;;; construct_error e.
Definition eo_value (c : outcome T) : M error_or unit := put (mk_eo Dead false) ;;; construct_value c.

(** [get_error] *)
Definition get_error (o : error_or) : outcome E := if has_error_ o then (read_error o).1 else Ok no_error.

(** The destructor *)
Definition eo_dtor : M error_or unit :=
  o <- get ;;
  (if negb (has_error_ o) then read_value ;;; ret tt else read_error ;;; ret tt) ;;;
  modify (set_union Dead).

(** [copy_construct] and [move_construct] *)
Definition copy_construct (rhs : error_or) : M error_or unit :=
  modify (fun o => mk_eo (union_ o) (has_error_ rhs)) ;;;
  if has_error_ rhs then e <- lift (get_error rhs) ;; construct_error e
  else v <- lift (read_value rhs).1 ;; construct_value (copy_value v).
Definition take_eo_value : M error_or T := v <- read_value ;; modify (set_union (Value (moved v))) ;;; ret v.
Definition move_construct (this rhs : nat) : M (gmap nat error_or) unit :=
  o <- at_ rhs get ;;
  at_ this (modify (fun o' => mk_eo (union_ o') (has_error_ o))) ;;;
  if has_error_ o then e <- lift (get_error o) ;; at_ this (construct_error e)
  else v <- at_ rhs take_eo_value ;; at_ this (construct_value (Ok v)).

(** [copy_assign]; assignment of a value replaces it and may throw as its copy may. *)
Definition copy_assign (this rhs : nat) : M (gmap nat error_or) unit :=
  if (this =? rhs)%nat then ret tt
  else
    a <- at_ this get ;; b <- at_ rhs get ;;
    if has_error_ a && has_error_ b then
      e <- at_ rhs read_error ;; at_ this (read_error ;;; modify (set_union (Error e)))
    else if negb (has_error_ a) && negb (has_error_ b) then
      v <- at_ rhs read_value ;; at_ this (read_value ;;; v <- lift (copy_value v) ;; modify (set_union (Value v)))
    else
      at_ this (eo_dtor ;;; modify (fun o => mk_eo (union_ o) true) ;;; copy_construct b).

Definition move_assign (this rhs : nat) : M (gmap nat error_or) unit :=
  if (this =? rhs)%nat then ret tt
  else
    a <- at_ this get ;; b <- at_ rhs get ;;
    if has_error_ a && has_error_ b then
      e <- at_ rhs read_error ;; at_ this (read_error ;;; modify (set_union (Error e)))
    else if negb (has_error_ a) && negb (has_error_ b) then
      v <- at_ rhs take_eo_value ;; at_ this (read_value ;;; modify (set_union (Value v)))
    else
      at_ this (eo_dtor ;;; modify (fun o => mk_eo (union_ o) true)) ;;; move_construct this rhs.

(** [operator==] on a value, an error and another object *)
Definition eq_to_value (o : error_or) (rhs : T) : outcome bool :=
  if negb (has_error_ o) then v <-? (read_value o).1 ;; Ok (eq_value v rhs) else Ok false.
Definition eq_to_error (o : error_or) (rhs : E) : outcome bool := e <-? get_error o ;; Ok (eq_error e rhs).
Definition eo_eq (x y : error_or) : outcome bool :=
  if negb (Bool.eqb (has_error_ x) (has_error_ y)) then Ok false
  else if has_error_ x then e <-? get_error y ;; eq_to_error x e
  else v <-? (read_value y).1 ;; eq_to_value x v.

(** [operator>>=] *)
Definition eo_bind {U} (t : error_or) (f : T -> outcome (U + E)) : outcome (U + E) :=
  if negb (has_error_ t) then v <-? (read_value t).1 ;; f v else e <-? get_error t ;; Ok (inr e).
End error_or.
Arguments error_or : clear implicits.

(** ** Running on variables *)

Lemma at_run {O A} (l : nat) (m : M O A) (h : gmap nat O) o r o' : h !! l = Some o -> m o = (r, o') -> at_ l m h = (r, <[l := o']> h).
Proof. intros Hl Hm. unfold at_. by rewrite Hl, Hm. Qed.

Lemma at_read {O A} (l : nat) (m : M O A) (h : gmap nat O) o r : h !! l = Some o -> m o = (r, o) -> at_ l m h = (r, h).
Proof. intros Hl Hm. rewrite (at_run l m h o r o Hl Hm). by rewrite insert_id. Qed.

(** ** What a maybe stands for *)

Section maybe_spec.
Context {T : Type} (copy_value : T -> outcome T) (moved : T -> T) (eq_value : T -> T -> bool).

(** An object lives in the storage exactly when [valid_] is set. *)
Definition of_option (x : option T) : maybe T := mk_maybe (match x with Some _ => true | None => false end) x.

Lemma maybe_value_ok v : maybe_value (of_option (Some v)) = (Ok v, of_option (Some v)).
Proof. done. Qed.

Lemma maybe_ctor_ok c : maybe_ctor c nothing = match c with Ok v => (Ok tt, of_option (Some v)) | Throw e => (Throw e, of_option None) end.
Proof. by destruct c. Qed.

Lemma maybe_reset_ok x : maybe_reset (of_option x) = (Ok tt, of_option None).
Proof. by destruct x. Qed.

(** Assignment has the value, or, when its construction throws, what it had. *)
Lemma maybe_assign_value_ok c x : maybe_assign_value c (of_option x) =
  match c with Ok v => (Ok tt, of_option (Some v)) | Throw e => (Throw e, of_option x) end.
Proof. by destruct c, x. Qed.

Lemma take_value_ok v : take_value moved (of_option (Some v)) = (Ok v, of_option (Some (moved v))).
Proof. done. Qed.

Lemma maybe_copy_ok (h : gmap nat (maybe T)) this other x : h !! other = Some (of_option x) -> this <> other ->
  maybe_copy copy_value this other h =
    match x with
    | None => (Ok tt, <[this := of_option None]> h)
    | Some v => match copy_value v with
                | Ok v => (Ok tt, <[this := of_option (Some v)]> h)
                | Throw e => (Throw e, <[this := of_option None]> h)
                end
    end.
Proof.
  intros Ho Hne. unfold maybe_copy. rewrite bind_modify. assert (<[this := nothing]> h !! other = Some (of_option x)) as Ho' by (by rewrite lookup_insert_ne).
  rewrite (bind_ok _ _ _ _ _ (at_read other get _ _ _ Ho' eq_refl)). destruct x as [v|]; cbn [of_option valid_]; [|done].
  rewrite (bind_ok _ _ _ _ _ (at_read other maybe_value _ _ _ Ho' (maybe_value_ok v))).
  rewrite (at_run this _ _ nothing _ _ (lookup_insert_eq _ _ _) (surjective_pairing _)), maybe_ctor_ok. destruct (copy_value v); by rewrite insert_insert_eq.
Qed.

Lemma maybe_move_ok (h : gmap nat (maybe T)) this other x : h !! other = Some (of_option x) -> this <> other ->
  maybe_move moved this other h = (Ok tt, <[other := of_option (moved <$> x)]> (<[this := of_option x]> h)).
Proof.
  intros Ho Hne. unfold maybe_move. rewrite bind_modify. assert (<[this := nothing]> h !! other = Some (of_option x)) as Ho' by (by rewrite lookup_insert_ne).
  rewrite (bind_ok _ _ _ _ _ (at_read other get _ _ _ Ho' eq_refl)). destruct x as [v|]; cbn [of_option valid_].
  - rewrite (bind_ok _ _ _ _ _ (at_run other _ _ _ _ _ Ho' (take_value_ok v))).
    rewrite (at_run this _ _ nothing _ _ ltac:(by rewrite lookup_insert_ne, lookup_insert_eq) (maybe_ctor_ok (Ok v))).
    by rewrite (insert_insert_ne _ this other), insert_insert_eq.
  - unfold ret. f_equal. symmetry. apply insert_id. by rewrite lookup_insert_ne.
Qed.

(** Copy assignment copies what the other has, and leaves both objects alone when the copy throws. *)
Lemma maybe_copy_assign_ok (h : gmap nat (maybe T)) this other x y : h !! other = Some (of_option x) -> h !! this = Some (of_option y) -> this <> other ->
  maybe_copy_assign copy_value this other h =
    match x with
    | None => (Ok tt, <[this := of_option None]> h)
    | Some v => match copy_value v with Ok v => (Ok tt, <[this := of_option (Some v)]> h) | Throw e => (Throw e, h) end
    end.
Proof.
  intros Ho Ht Hne. unfold maybe_copy_assign. rewrite (proj2 (Nat.eqb_neq _ _)) by done.
  rewrite (bind_ok _ _ _ _ _ (at_read other get _ _ _ Ho eq_refl)). destruct x as [v|]; cbn [of_option has_value valid_ negb].
  - rewrite (bind_ok _ _ _ _ _ (at_read other maybe_value _ _ _ Ho (maybe_value_ok v))).
    rewrite (at_run this _ _ _ _ _ Ht (surjective_pairing _)), maybe_assign_value_ok. destruct (copy_value v); cbn [fst snd]; [done|by rewrite insert_id].
  - by rewrite (at_run this _ _ _ _ _ Ht (maybe_reset_ok y)).
Qed.

Lemma maybe_move_assign_ok (h : gmap nat (maybe T)) this other x y : h !! other = Some (of_option x) -> h !! this = Some (of_option y) -> this <> other ->
  maybe_move_assign moved this other h = (Ok tt, <[this := of_option x]> (<[other := of_option (moved <$> x)]> h)).
Proof.
  intros Ho Ht Hne. unfold maybe_move_assign. rewrite (proj2 (Nat.eqb_neq _ _)) by done.
  rewrite (bind_ok _ _ _ _ _ (at_read other get _ _ _ Ho eq_refl)). destruct x as [v|]; cbn [of_option has_value valid_ negb].
  - rewrite (bind_ok _ _ _ _ _ (at_run other _ _ _ _ _ Ho (take_value_ok v))).
    by rewrite (at_run this _ _ _ _ _ ltac:(by rewrite lookup_insert_ne) (maybe_assign_value_ok (Ok v) y)).
  - rewrite (at_run this _ _ _ _ _ Ht (maybe_reset_ok y)). cbn [fmap option_fmap option_map]. f_equal. by rewrite (insert_id h other).
Qed.

Lemma maybe_eq_ok x y : maybe_eq eq_value (of_option x) (of_option y) =
  Ok (match x, y with Some a, Some b => eq_value a b | None, None => true | _, _ => false end).
Proof. by destruct x, y. Qed.

(** [operator>>=] is the bind of options, with its laws. *)
Lemma maybe_bind_ok {U} x (f : T -> outcome (option U)) : maybe_bind (of_option x) f = match x with Some v => f v | None => Ok None end.
Proof. by destruct x. Qed.
End maybe_spec.

(** ** What an error_or stands for *)

Section error_or_spec.
Context {T E : Type} (copy_value : T -> outcome T) (moved : T -> T) (no_error : E) (eq_value : T -> T -> bool) (eq_error : E -> E -> bool).

Definition of_sum (x : T + E) : error_or T E := match x with inl v => mk_eo (Value v) false | inr e => mk_eo (Error e) true end.
Notation obj := (error_or T E).

Lemma read_value_ok v : read_value (of_sum (inl v)) = (Ok v, of_sum (inl v)).
Proof. done. Qed.
Lemma read_error_ok e : read_error (of_sum (inr e)) = (Ok e, of_sum (inr e)).
Proof. done. Qed.
Lemma eo_ctors (o : obj) c e : eo_error e o = (Ok tt, of_sum (inr e)) /\
  eo_value c o = match c with Ok v => (Ok tt, of_sum (inl v)) | Throw x => (Throw x, mk_eo Dead false) end.
Proof. split; [done|by destruct c]. Qed.

(** The destructor ends the life of the object that is there. *)
Lemma eo_dtor_ok x : eo_dtor (of_sum x) = (Ok tt, mk_eo Dead (match x with inl _ => false | inr _ => true end)).
Proof. by destruct x. Qed.

Definition copy_sum (x : T + E) : outcome (T + E) := match x with inl v => v <-? copy_value v ;; Ok (inl v) | inr e => Ok (inr e) end.

Lemma copy_construct_ok b x : copy_construct copy_value no_error (of_sum x) (mk_eo Dead b) =
  match copy_sum x with Ok x => (Ok tt, of_sum x) | Throw e => (Throw e, mk_eo Dead false) end.
Proof. destruct x as [v|e]; [|done]. cbn. by destruct (copy_value v). Qed.

(** Copy assignment, when the copy of a value does not throw or a value is replaced by a value *)
Lemma copy_assign_ok (h : gmap nat obj) this rhs x y : h !! this = Some (of_sum x) -> h !! rhs = Some (of_sum y) -> this <> rhs ->
  match copy_sum y with
  | Ok y' => copy_assign copy_value no_error this rhs h = (Ok tt, <[this := of_sum y']> h)
  | Throw e => copy_assign copy_value no_error this rhs h =
                 (Throw e, match x with inl _ => h | inr _ => <[this := mk_eo Dead false]> h end)
  end.
Proof.
  intros Ht Hr Hne. unfold copy_assign. rewrite (proj2 (Nat.eqb_neq _ _)) by done.
  rewrite (bind_ok _ _ _ _ _ (at_read this get _ _ _ Ht eq_refl)), (bind_ok _ _ _ _ _ (at_read rhs get _ _ _ Hr eq_refl)).
  destruct x as [v|e], y as [w|f]; cbn [of_sum has_error_ andb negb copy_sum].
  - rewrite (bind_ok _ _ _ _ _ (at_read rhs _ _ _ _ Hr (read_value_ok w))). destruct (copy_value w) eqn:Ec; cbn [obind].
    + by eapply at_run.
    + by eapply at_read.
  - by eapply at_run.
  - pose proof (copy_construct_ok true (inl w)) as Hc. cbn [copy_sum of_sum] in Hc. destruct (copy_value w) eqn:Ec; cbn [obind] in *; by eapply at_run.
  - rewrite (bind_ok _ _ _ _ _ (at_read rhs _ _ _ _ Hr (read_error_ok f))). by eapply at_run.
Qed.

(** Assignment of an object to itself leaves it. *)
Lemma copy_assign_self (h : gmap nat obj) this : copy_assign copy_value no_error this this h = (Ok tt, h).
Proof. unfold copy_assign. by rewrite Nat.eqb_refl. Qed.

(** After a copy that threw, an object that had an error is not alive, and its own destructor is undefined. *)
Lemma copy_assign_unsafe (h : gmap nat obj) this rhs e w x : h !! this = Some (of_sum (inr e)) -> h !! rhs = Some (of_sum (inl w)) ->
  copy_value w = Throw x ->
  exists h', copy_assign copy_value no_error this rhs h = (Throw x, h') /\ (at_ this eo_dtor h').1 = Throw Undefined.
Proof.
  intros Ht Hr Hx. assert (this <> rhs) as Hne by (intros ->; by rewrite Ht in Hr). pose proof (copy_assign_ok h this rhs _ _ Ht Hr Hne) as H.
  cbn [copy_sum] in H. rewrite Hx in H. cbn [obind] in H. eexists. split; [exact H|]. unfold at_. by rewrite lookup_insert_eq.
Qed.

(** Move assignment: the other object keeps a value that was moved from. *)
Lemma move_assign_ok (h : gmap nat obj) this rhs x y : h !! this = Some (of_sum x) -> h !! rhs = Some (of_sum y) -> this <> rhs ->
  move_assign moved no_error this rhs h =
    (Ok tt, <[this := of_sum y]> (<[rhs := of_sum (match y with inl v => inl (moved v) | inr e => inr e end)]> h)).
Proof.
  intros Ht Hr Hne. unfold move_assign. rewrite (proj2 (Nat.eqb_neq _ _)) by done.
  rewrite (bind_ok _ _ _ _ _ (at_read this get _ _ _ Ht eq_refl)), (bind_ok _ _ _ _ _ (at_read rhs get _ _ _ Hr eq_refl)).
  assert (forall w, take_eo_value moved (of_sum (inl w)) = (Ok w, of_sum (inl (moved w) : T + E))) as Htake by done.
  destruct x as [v|e], y as [w|f]; cbn [of_sum has_error_ andb negb].
  - rewrite (bind_ok _ _ _ _ _ (at_run rhs _ _ _ _ _ Hr (Htake w))). eapply at_run; [by rewrite lookup_insert_ne|done].
  - rewrite (bind_ok _ _ _ tt (<[this := mk_eo Dead true]> h)) by (by eapply at_run). unfold move_construct.
    assert (<[this := mk_eo Dead true]> h !! rhs = Some (of_sum (inr f))) as Hr' by (by rewrite lookup_insert_ne).
    rewrite (bind_ok _ _ _ _ _ (at_read rhs get _ _ _ Hr' eq_refl)). cbn [of_sum has_error_].
    rewrite (bind_ok _ _ _ tt (<[this := mk_eo Dead true]> h)) by (eapply at_read; [apply lookup_insert_eq|done]).
    rewrite (bind_lift_ok _ f) by done. rewrite (at_run this _ _ (mk_eo Dead true) (Ok tt) (of_sum (inr f))); [|apply lookup_insert_eq|done].
    rewrite insert_insert_eq.
    by rewrite (insert_id h rhs).
  - rewrite (bind_ok _ _ _ tt (<[this := mk_eo Dead true]> h)) by (by eapply at_run). unfold move_construct.
    assert (<[this := mk_eo Dead true]> h !! rhs = Some (of_sum (inl w))) as Hr' by (by rewrite lookup_insert_ne).
    rewrite (bind_ok _ _ _ _ _ (at_read rhs get _ _ _ Hr' eq_refl)). cbn [of_sum has_error_].
    rewrite (bind_ok _ _ _ tt (<[this := mk_eo Dead false]> h)) by (rewrite <- (insert_insert_eq h this (mk_eo Dead false) (mk_eo Dead true)); eapply at_run; [apply lookup_insert_eq|done]).
    assert (<[this := mk_eo Dead false]> h !! rhs = Some (of_sum (inl w))) as Hr2 by (by rewrite lookup_insert_ne).
    rewrite (bind_ok _ _ _ _ _ (at_run rhs _ _ _ _ _ Hr2 (Htake w))).
    rewrite (at_run this _ _ (mk_eo Dead false) (Ok tt) (of_sum (inl w))); [|by rewrite lookup_insert_ne, lookup_insert_eq|done].
    by rewrite (insert_insert_ne _ rhs this), insert_insert_eq.
  - rewrite (bind_ok _ _ _ _ _ (at_read rhs _ _ _ _ Hr (read_error_ok f))). rewrite (insert_id h rhs) by done. by eapply at_run.
Qed.

Lemma get_error_ok x : get_error no_error (of_sum x) = Ok (match x with inl _ => no_error | inr e => e end).
Proof. by destruct x. Qed.

Lemma eo_eq_ok x y : eo_eq no_error eq_value eq_error (of_sum x) (of_sum y) =
  Ok (match x, y with inl a, inl b => eq_value a b | inr a, inr b => eq_error a b | _, _ => false end).
Proof. by destruct x, y. Qed.

Lemma eo_bind_ok {U} x (f : T -> outcome (U + E)) : eo_bind no_error (of_sum x) f = match x with inl v => f v | inr e => Ok (inr e) end.
Proof. by destruct x. Qed.
End error_or_spec.
