(* ===== verification/StringView.v ===== *)
(** * Views of strings

    Models include/pstore/support/sstring_view.hpp: a pointer and a size, with comparison against any type of string that has
    [string_traits], which are a class here. What a pointer designates is the list of the characters from there to the end of
    its buffer; reading beyond that is undefined. The order of characters is that of [std::char_traits], of which only the
    laws of a total order are used. *)

From S2P Require Import Prelude Chars.

(** [string_traits]: a length and the characters that [data] designates *)
Class StringTraits (S : Type) := { str_length : S -> nat; str_data : S -> list Z }.

(** [std::string], whose characters are followed by a null, and a string of the C language *)
Record std_string := mk_std { chars_ : list Z }.
#[export] Instance std_string_traits : StringTraits std_string := {| str_length s := length (chars_ s); str_data s := chars_ s ++ [0] |}.
Record czstring := mk_cz { cz_chars_ : list Z }.
#[export] Instance czstring_traits : StringTraits czstring :=
  {| str_length s := length (c_str (cz_chars_ s)); str_data s := cz_chars_ s ++ [0] |}.

(** [sstring_view] *)
Record sstring_view := mk_view { ptr_ : list Z; size_ : nat }.
#[export] Instance view_traits : StringTraits sstring_view := {| str_length := size_; str_data := ptr_ |}.

(** [char_traits::compare] over the first characters *)
Fixpoint chars_compare (lt : Z -> Z -> bool) (n : nat) (a b : list Z) : outcome Z :=
  match n with
  | O => Ok 0
  | S n =>
      match a, b with
      | x :: a, y :: b => if lt x y then Ok (-1) else if lt y x then Ok 1 else chars_compare lt n a b
      | _, _ => Throw Undefined
      end
  end.

Section view.
Context (lt : Z -> Z -> bool).

Definition view_empty (v : sstring_view) : bool := (size_ v =? 0)%nat.

(** [operator[]], [at], [front] and [back] *)
Definition view_index (v : sstring_view) (pos : nat) : outcome Z :=
  _ <-? oassert (pos <? size_ v)%nat ;;
  match ptr_ v !! pos with Some c => Ok c | None => Throw Undefined end.
Definition view_at (v : sstring_view) (pos : nat) : outcome Z :=
  if (size_ v <=? pos)%nat then Throw OutOfRange else view_index v pos.
Definition view_front (v : sstring_view) : outcome Z := _ <-? oassert (0 <? size_ v)%nat ;; view_index v 0.
Definition view_back (v : sstring_view) : outcome Z := _ <-? oassert (0 <? size_ v)%nat ;; view_index v (size_ v - 1).

Definition view_clear (v : sstring_view) : sstring_view := mk_view (ptr_ v) 0.

(** [to_string] *)
Definition to_string (v : sstring_view) : outcome (list Z) :=
  if (size_ v <=? length (ptr_ v))%nat then Ok (take (size_ v) (ptr_ v)) else Throw Undefined.

(** [substr]; a count of [npos] is [None]. *)
Definition substr (v : sstring_view) (pos : nat) (n : option nat) : sstring_view :=
  let pos := Nat.min pos (size_ v) in
  mk_view (drop pos (ptr_ v)) (match n with Some n => Nat.min n (size_ v - pos) | None => size_ v - pos end).

(** [find]; [npos] is [None]. *)
Fixpoint find_loop (fuel : nat) (v : sstring_view) (ch : Z) (pos : nat) : outcome (option nat) :=
  match fuel with
  | O => Throw OutOfFuel
  | S fuel =>
      if (pos <? size_ v)%nat then
        match ptr_ v !! pos with
        | None => Throw Undefined
        | Some c => if c =? ch then Ok (Some pos) else find_loop fuel v ch (S pos)
        end
      else Ok None
  end.
Definition find (v : sstring_view) (ch : Z) (pos : nat) : outcome (option nat) := find_loop (S (size_ v)) v ch pos.

(** [compare] *)
Definition compare {S} `{StringTraits S} (v : sstring_view) (s : S) : outcome Z :=
  let slen := str_length s in
  let common_len := Nat.min (size_ v) slen in
  result <-? chars_compare lt common_len (ptr_ v) (str_data s) ;;
  if result =? 0 then
    Ok (if (size_ v =? slen)%nat then 0 else if (size_ v <? slen)%nat then -1 else 1)
  else Ok result.

(** The comparison operators with a string of any type on the right and on the left *)
Definition view_eq {S} `{StringTraits S} (lhs : sstring_view) (rhs : S) : outcome bool :=
  if negb (size_ lhs =? str_length rhs)%nat then Ok false else c <-? compare lhs rhs ;; Ok (c =? 0).
Definition eq_view {S} `{StringTraits S} (lhs : S) (rhs : sstring_view) : outcome bool :=
  if negb (str_length lhs =? size_ rhs)%nat then Ok false else c <-? compare rhs lhs ;; Ok (c =? 0).
Definition view_ne {S} `{StringTraits S} (lhs : sstring_view) (rhs : S) : outcome bool := b <-? view_eq lhs rhs ;; Ok (negb b).
Definition view_ge {S} `{StringTraits S} (lhs : sstring_view) (rhs : S) : outcome bool := c <-? compare lhs rhs ;; Ok (c >=? 0).
Definition ge_view {S} `{StringTraits S} (lhs : S) (rhs : sstring_view) : outcome bool := c <-? compare rhs lhs ;; Ok (c <=? 0).
Definition view_gt {S} `{StringTraits S} (lhs : sstring_view) (rhs : S) : outcome bool := c <-? compare lhs rhs ;; Ok (c >? 0).
Definition gt_view {S} `{StringTraits S} (lhs : S) (rhs : sstring_view) : outcome bool := c <-? compare rhs lhs ;; Ok (c <? 0).
Definition view_le {S} `{StringTraits S} (lhs : sstring_view) (rhs : S) : outcome bool := c <-? compare lhs rhs ;; Ok (c <=? 0).
Definition le_view {S} `{StringTraits S} (lhs : S) (rhs : sstring_view) : outcome bool := c <-? compare rhs lhs ;; Ok (c >=? 0).
Definition view_lt {S} `{StringTraits S} (lhs : sstring_view) (rhs : S) : outcome bool := c <-? compare lhs rhs ;; Ok (c <? 0).
Definition lt_view {S} `{StringTraits S} (lhs : S) (rhs : sstring_view) : outcome bool := c <-? compare rhs lhs ;; Ok (c >? 0).

(** ** What a view stands for *)

(** The text of a string: as many characters of its data as its length says *)
Definition text {S} `{StringTraits S} (s : S) : list Z := take (str_length s) (str_data s).
Definition readable {S} `{StringTraits S} (s : S) : Prop := (str_length s <= length (str_data s))%nat.

(** Texts in the order of a dictionary *)
Fixpoint lex (a b : list Z) : comparison :=
  match a, b with
  | [], [] => Eq
  | [], _ => Lt
  | _, [] => Gt
  | x :: a, y :: b => if lt x y then Lt else if lt y x then Gt else lex a b
  end.
Definition sign (c : comparison) : Z := match c with Eq => 0 | Lt => -1 | Gt => 1 end.

Hypothesis lt_asym : forall x y, lt x y = true -> lt y x = false.
Hypothesis lt_total : forall x y, lt x y = false -> lt y x = false -> x = y.

Lemma lt_irrefl x : lt x x = false.
Proof using lt_asym. destruct (lt x x) eqn:E; [|done]. pose proof (lt_asym x x E). congruence. Qed.

Lemma lex_eq a b : lex a b = Eq <-> a = b.
Proof using lt_asym lt_total.
  revert b. induction a as [|x a IH]; intros [|y b]; cbn [lex]; try done. destruct (lt x y) eqn:E1.
  - split; [done|]. intros [= -> ->]. by rewrite lt_irrefl in E1.
  - destruct (lt y x) eqn:E2.
    + split; [done|]. intros [= -> ->]. by rewrite lt_irrefl in E2.
    + rewrite IH. rewrite (lt_total x y E1 E2). split; [by intros ->|by intros [= ->]].
Qed.

Lemma lex_opp a b : lex b a = CompOpp (lex a b).
Proof using lt_asym.
  revert b. induction a as [|x a IH]; intros [|y b]; cbn [lex]; try done. destruct (lt x y) eqn:E1; [by rewrite (lt_asym x y E1)|].
  by destruct (lt y x).
Qed.

(** The comparison of views is that of their texts. *)
Lemma compare_ok {Str} `{StringTraits Str} v (s : Str) : readable v -> readable s -> compare v s = Ok (sign (lex (text v) (text s))).
Proof using.
  unfold compare, text, readable. cbn [str_length str_data view_traits]. generalize (str_length s) as m. generalize (str_data s) as b.
  destruct v as [a n]. cbn [ptr_ size_]. intros b m. revert n m b. induction a as [|x a IH]; intros n m b Hn Hm.
  - assert (n = 0)%nat as -> by (cbn in Hn; lia). destruct m as [|m]; [done|]. destruct b; [cbn in Hm; lia|done].
  - destruct n as [|n]; [destruct m as [|m]; [done|]; destruct b; [cbn in Hm; lia|done]|].
    destruct m as [|m]; [done|]. destruct b as [|y b]; [cbn in Hm; lia|]. cbn [Nat.min chars_compare take lex length] in *.
    destruct (lt x y); [done|]. destruct (lt y x); [done|]. change (S n =? S m)%nat with (n =? m)%nat. change (S n <? S m)%nat with (n <? m)%nat.
    apply IH; lia.
Qed.

Lemma sign_spec c : (sign c =? 0 = match c with Eq => true | _ => false end) /\ (sign c <? 0 = match c with Lt => true | _ => false end) /\
  (sign c >? 0 = match c with Gt => true | _ => false end) /\ (sign c <=? 0 = match c with Gt => false | _ => true end) /\
  (sign c >=? 0 = match c with Lt => false | _ => true end).
Proof using. by destruct c. Qed.

(** The operators order strings by their texts, whichever side the view is on. *)
Lemma operators_ok {Str} `{StringTraits Str} v (s : Str) : readable v -> readable s ->
  view_eq v s = Ok (bool_decide (text v = text s)) /\ eq_view s v = Ok (bool_decide (text s = text v)) /\
  view_ne v s = Ok (negb (bool_decide (text v = text s))) /\
  view_lt v s = Ok (match lex (text v) (text s) with Lt => true | _ => false end) /\
  lt_view s v = Ok (match lex (text s) (text v) with Lt => true | _ => false end) /\
  view_gt v s = Ok (match lex (text v) (text s) with Gt => true | _ => false end) /\
  gt_view s v = Ok (match lex (text s) (text v) with Gt => true | _ => false end) /\
  view_le v s = Ok (match lex (text v) (text s) with Gt => false | _ => true end) /\
  le_view s v = Ok (match lex (text s) (text v) with Gt => false | _ => true end) /\
  view_ge v s = Ok (match lex (text v) (text s) with Lt => false | _ => true end) /\
  ge_view s v = Ok (match lex (text s) (text v) with Lt => false | _ => true end).
Proof using lt_asym lt_total.
  intros Hv Hs. assert (length (text v) = size_ v) as Hlv by (unfold text; rewrite length_take; cbn in *; unfold readable in *; cbn in *; lia).
  assert (length (text s) = str_length s) as Hls by (unfold text; rewrite length_take; unfold readable in *; lia).
  assert (Heq : view_eq v s = Ok (bool_decide (text v = text s))).
  { unfold view_eq. destruct (Nat.eqb_spec (size_ v) (str_length s)) as [E|E]; cbn [negb].
    - rewrite compare_ok by done. cbn [obind]. f_equal. rewrite (proj1 (sign_spec _)). destruct (lex (text v) (text s)) eqn:El.
      + apply lex_eq in El. by rewrite bool_decide_true.
      + rewrite bool_decide_false; [done|]. intros E'. apply lex_eq in E'. congruence.
      + rewrite bool_decide_false; [done|]. intros E'. apply lex_eq in E'. congruence.
    - rewrite bool_decide_false; [done|]. congruence. }
  split; [done|]. split.
  { assert (eq_view s v = view_eq v s) as -> by (unfold eq_view, view_eq; by rewrite Nat.eqb_sym). rewrite Heq. f_equal. by apply bool_decide_ext. }
  split; [unfold view_ne; by rewrite Heq|]. unfold view_lt, lt_view, view_gt, gt_view, view_le, le_view, view_ge, ge_view.
  rewrite compare_ok by done. cbn [obind]. rewrite (lex_opp (text v) (text s)). by destruct (lex (text v) (text s)).
Qed.

Lemma substr_ok v pos n : readable v -> readable (substr v pos n) /\
  text (substr v pos n) = match n with Some n => take n (drop pos (text v)) | None => drop pos (text v) end.
Proof using.
  unfold readable, text, substr. cbn [str_length str_data view_traits ptr_ size_]. intros Hv. split.
  - rewrite length_drop. destruct n; lia.
  - assert (drop pos (take (size_ v) (ptr_ v)) = take (size_ v - Nat.min pos (size_ v)) (drop (Nat.min pos (size_ v)) (ptr_ v))) as ->.
    { destruct (decide (pos <= size_ v)%nat) as [Hp|Hp].
      - rewrite Nat.min_l by done. by rewrite <- skipn_firstn_comm.
      - rewrite Nat.min_r, Nat.sub_diag by lia. rewrite drop_ge by (rewrite length_take; lia). done. }
    destruct n as [n|]; [|done]. by rewrite take_take.
Qed.

(** [find] gives the first position of the character at or after a position. *)
Lemma find_ok v ch pos : readable v ->
  match find v ch pos with
  | Ok (Some i) => (pos <= i)%nat /\ text v !! i = Some ch /\ forall j, (pos <= j < i)%nat -> text v !! j <> Some ch
  | Ok None => forall j, (pos <= j)%nat -> text v !! j <> Some ch
  | Throw _ => False
  end.
Proof using.
  unfold readable, text, find. cbn [str_length str_data view_traits]. intros Hv.
  assert (size_ v - pos < S (size_ v))%nat as Hf by lia. revert Hf. generalize (S (size_ v)) as fuel. intros fuel. revert pos.
  induction fuel as [|fuel IH]; intros pos Hf; cbn [find_loop].
  - lia.
  - destruct (Nat.ltb_spec pos (size_ v)) as [Hp|Hp].
    + destruct (lookup_lt_is_Some_2 (ptr_ v) pos ltac:(lia)) as [c Hc]. rewrite Hc.
      assert (take (size_ v) (ptr_ v) !! pos = Some c) as Hc' by (by rewrite lookup_take_lt).
      destruct (Z.eqb_spec c ch) as [->|Hne]; [split_and!; [done|done|lia]|]. specialize (IH (S pos) ltac:(lia)).
      assert (forall j, (pos <= j)%nat -> j <> pos -> (S pos <= j)%nat) as Hs by lia.
      destruct (find_loop fuel v ch (S pos)) as [[i|]|]; [|intros j Hj; destruct (decide (j = pos)) as [->|]; [congruence|apply IH; lia]|done].
      destruct IH as (Hi & Hich & Hno). split_and!; [lia|done|]. intros j Hj. destruct (decide (j = pos)) as [->|]; [congruence|apply Hno; lia].
    + intros j Hj. rewrite lookup_ge_None_2; [done|]. rewrite length_take. lia.
Qed.
End view.
