(* ===== verification/SmallVector.v ===== *)
(** * Vectors with a small buffer of their own

    Models include/pstore/support/small_vector.hpp: a vector that keeps its elements inside the
    object while they are few and in a [std::vector] when they are many. The two buffers are lists,
    and [buffer_] says which of them is in use; writing or reading beyond the end of a buffer is
    undefined. *)

From S2P Require Import Prelude.

Section small_vector.
Context {T : Type} (default_value : T) (body_elements : nat).

(** [buffer_] points to one of the two buffers. *)
Inductive buffer_ptr := Small | Big.

(** [small_vector] *)
Record small_vector := mk_sv {
  elements_ : nat; small_buffer_ : list T; big_buffer_ : list T; buffer_ : buffer_ptr }.

(** [is_small] and [set_buffer_ptr] *)
Definition is_small (elements : nat) : bool := (elements <=? body_elements)%nat.
#[local] Arguments is_small _ : simpl never.
Definition buffer_ptr_for (required : nat) : buffer_ptr := if is_small required then Small else Big.
Definition set_buffer_ptr (required : nat) (v : small_vector) : small_vector :=
  mk_sv (elements_ v) (small_buffer_ v) (big_buffer_ v) (buffer_ptr_for required).

(** The memory that a pointer designates *)
Definition pointed (p : buffer_ptr) (v : small_vector) : list T :=
  match p with Small => small_buffer_ v | Big => big_buffer_ v end.
Definition set_pointed (p : buffer_ptr) (l : list T) (v : small_vector) : small_vector :=
  match p with
  | Small => mk_sv (elements_ v) l (big_buffer_ v) (buffer_ v)
  | Big => mk_sv (elements_ v) (small_buffer_ v) l (buffer_ v)
  end.

(** [std::copy] of [n] elements from a buffer, and of a list to the start of a buffer *)
Definition load (n : nat) (src : list T) : outcome (list T) :=
  if (n <=? length src)%nat then Ok (take n src) else Throw Undefined.
Definition store (l dst : list T) : outcome (list T) :=
  if (length l <=? length dst)%nat then Ok (l ++ drop (length l) dst) else Throw Undefined.

(** [std::vector::resize] *)
Definition vector_resize (n : nat) (l : list T) : list T := take n l ++ replicate (n - length l) default_value.

Definition empty_body : list T := replicate body_elements default_value.

(** The constructors *)
Definition sv_default : small_vector := mk_sv 0 empty_body [] (buffer_ptr_for 0).
Definition sv_sized (required : nat) : small_vector :=
  mk_sv required empty_body (if is_small required then [] else vector_resize required []) (buffer_ptr_for required).
Definition sv_init (init : list T) : outcome small_vector :=
  let v := mk_sv (length init) empty_body [] (buffer_ptr_for (length init)) in
  l <-? store init (pointed (buffer_ v) v) ;;
  Ok (set_pointed (buffer_ v) l v).

(** [std::begin] to [std::end] *)
Definition range (v : small_vector) : outcome (list T) := load (elements_ v) (pointed (buffer_ v) v).

Definition sv_copy (rhs : small_vector) : outcome small_vector :=
  let v := sv_sized (elements_ rhs) in
  l <-? range rhs ;;
  l <-? store l (pointed (buffer_ v) v) ;;
  Ok (set_pointed (buffer_ v) l v).

(** The constructor that moves; what it leaves is given up. *)
Definition sv_move (other : small_vector) : small_vector :=
  set_buffer_ptr (elements_ other) (mk_sv (elements_ other) (small_buffer_ other) (big_buffer_ other) Small).

(** [clear] *)
Definition clear (v : small_vector) : small_vector := mk_sv 0 (small_buffer_ v) [] (buffer_ptr_for 0).

(** [resize] *)
Definition resize (new_elements : nat) (v : small_vector) : outcome small_vector :=
  if (new_elements =? elements_ v)%nat then Ok v
  else
    let is_small_before := is_small (elements_ v) in
    let is_small_after := is_small new_elements in
    let big := vector_resize (if is_small_after then 0 else new_elements) (big_buffer_ v) in
    let old_buffer := buffer_ v in
    let v1 := mk_sv (elements_ v) (small_buffer_ v) big (buffer_ptr_for new_elements) in
    v2 <-? (if eqb is_small_before is_small_after then Ok v1
            else
              l <-? load (elements_ v) (pointed old_buffer v1) ;;
              l <-? store l (pointed (buffer_ v1) v1) ;;
              Ok (set_pointed (buffer_ v1) l v1)) ;;
    Ok (mk_sv new_elements (small_buffer_ v2) (big_buffer_ v2) (buffer_ v2)).

(** [operator=] from another object *)
Definition sv_assign (v rhs : small_vector) : outcome small_vector :=
  v <-? resize (elements_ rhs) (clear v) ;;
  l <-? range rhs ;;
  l <-? store l (pointed (buffer_ v) v) ;;
  Ok (set_pointed (buffer_ v) l v).

(** [push_back] *)
Definition push_back (x : T) (v : small_vector) : outcome small_vector :=
  let new_elements := S (elements_ v) in
  let is_small_before := is_small (elements_ v) in
  let is_small_after := is_small new_elements in
  v <-? (if is_small_after then
           if (elements_ v <? length (small_buffer_ v))%nat
           then Ok (mk_sv (elements_ v) (<[elements_ v := x]> (small_buffer_ v)) (big_buffer_ v) (buffer_ v))
           else Throw Undefined
         else
           big <-? (if eqb is_small_before is_small_after then Ok (big_buffer_ v)
                    else load (elements_ v) (pointed (buffer_ v) v)) ;;
           Ok (set_buffer_ptr new_elements (mk_sv (elements_ v) (small_buffer_ v) (big ++ [x]) (buffer_ v)))) ;;
  Ok (mk_sv (S (elements_ v)) (small_buffer_ v) (big_buffer_ v) (buffer_ v)).

(** [append] and [assign] *)
Fixpoint append (l : list T) (v : small_vector) : outcome small_vector :=
  match l with
  | [] => Ok v
  | x :: l => v <-? push_back x v ;; append l v
  end.
Definition assign (l : list T) (v : small_vector) : outcome small_vector := append l (clear v).

(** [operator[]], [back], [size], [empty], [capacity] *)
Definition index (n : nat) (v : small_vector) : outcome T :=
  _ <-? oassert (n <? elements_ v)%nat ;;
  match pointed (buffer_ v) v !! n with Some x => Ok x | None => Throw Undefined end.
Definition back (v : small_vector) : outcome T :=
  (* 0 - 1 is a number too large for the assertion *)
  if (elements_ v =? 0)%nat then Throw Assert else index (elements_ v - 1) v.
Definition sv_size (v : small_vector) : nat := elements_ v.
Definition sv_empty (v : small_vector) : bool := (elements_ v =? 0)%nat.

(** ** What a vector holds *)

Record sv_holds (v : small_vector) (l : list T) : Prop := {
  sv_elements : elements_ v = length l;
  sv_body : length (small_buffer_ v) = body_elements;
  sv_ptr : buffer_ v = buffer_ptr_for (length l);
  sv_small : is_small (length l) = true -> take (length l) (small_buffer_ v) = l;
  sv_big : is_small (length l) = false -> big_buffer_ v = l }.

Lemma is_small_spec n : reflect (n <= body_elements)%nat (is_small n).
Proof. unfold is_small. apply Nat.leb_spec0. Qed.

Lemma default_holds : sv_holds sv_default [].
Proof. split; cbn; [done|apply length_replicate|done|done|]. unfold is_small. cbn. done. Qed.

Lemma clear_holds v l : sv_holds v l -> sv_holds (clear v) [].
Proof. intros []. by split. Qed.

Lemma range_ok v l : sv_holds v l -> range v = Ok l.
Proof.
  intros [He Hb Hp Hs Hg]. unfold range, load. rewrite Hp, He. unfold buffer_ptr_for.
  destruct (is_small_spec (length l)); cbn [pointed].
  - rewrite (proj2 (Nat.leb_le _ _)) by lia. by rewrite Hs by (by destruct (is_small_spec (length l))).
  - rewrite Hg by (by destruct (is_small_spec (length l))). rewrite Nat.leb_refl. by rewrite take_ge.
Qed.

Lemma push_back_ok v l x : sv_holds v l -> exists v', push_back x v = Ok v' /\ sv_holds v' (l ++ [x]).
Proof.
  intros Hv. pose proof (range_ok v l Hv) as Hr. destruct Hv as [He Hb Hp Hs Hg].
  unfold push_back. rewrite He. destruct (is_small_spec (S (length l))) as [Ha|Ha].
  - rewrite (proj2 (Nat.ltb_lt _ _)) by lia. cbn [obind]. eexists. split; [done|].
    assert (is_small (length l) = true) as Hsm by (destruct (is_small_spec (length l)); [done|lia]).
    split; cbn; rewrite ?length_app; cbn.
    + lia.
    + by rewrite length_insert.
    + rewrite Hp. unfold buffer_ptr_for. rewrite Hsm. destruct (is_small_spec (length l + 1)); [done|lia].
    + intros _. replace (length l + 1)%nat with (S (length l)) by lia.
      rewrite (take_S_r _ _ x), take_insert_ge by (try apply list_lookup_insert_eq; lia). by rewrite Hs.
    + intros Hf. destruct (is_small_spec (length l + 1)); [done|lia].
  - assert ((if eqb (is_small (length l)) false then Ok (big_buffer_ v) else load (length l) (pointed (buffer_ v) v)) = Ok l) as ->.
    { destruct (is_small (length l)) eqn:Hsm; cbn [eqb]; [unfold range in Hr; by rewrite He in Hr|by rewrite Hg]. }
    cbn [obind]. eexists. split; [done|].
    split; cbn; rewrite ?length_app; cbn; [lia|done| | |done].
    + by rewrite Nat.add_1_r.
    + intros Hf. destruct (is_small_spec (length l + 1)); [lia|done].
Qed.

Lemma append_ok v l xs : sv_holds v l -> exists v', append xs v = Ok v' /\ sv_holds v' (l ++ xs).
Proof.
  revert v l. induction xs as [|x xs IH]; intros v l Hv; cbn [append].
  - exists v. by rewrite app_nil_r.
  - destruct (push_back_ok v l x Hv) as (v1 & -> & Hv1). cbn [obind].
    destruct (IH _ _ Hv1) as (v' & -> & Hv'). exists v'. split; [done|]. by rewrite <- app_assoc in Hv'.
Qed.

Lemma assign_ok v l xs : sv_holds v l -> exists v', assign xs v = Ok v' /\ sv_holds v' xs.
Proof. intros Hv. destruct (append_ok _ _ xs (clear_holds v l Hv)) as (v' & E & Hv'). by exists v'. Qed.

(** A vector that has the right buffers holds what it is filled with. *)
Lemma store_holds v l l' : sv_holds v l -> length l' = length l ->
  exists b, store l' (pointed (buffer_ v) v) = Ok b /\ sv_holds (set_pointed (buffer_ v) b v) l'.
Proof.
  intros [He Hb Hp Hs Hg] Hl. unfold store. rewrite Hp. unfold buffer_ptr_for.
  destruct (is_small_spec (length l)) as [Hsm|Hsm]; cbn [pointed].
  - rewrite (proj2 (Nat.leb_le _ _)) by lia. eexists. split; [done|]. split; cbn; rewrite ?Hl; try done.
    + rewrite length_app, length_drop. lia.
    + intros _. rewrite <- Hl. by rewrite take_app_length.
    + destruct (is_small_spec (length l)); done.
  - rewrite Hg by (by destruct (is_small_spec (length l))). rewrite Hl, Nat.leb_refl. eexists. split; [done|].
    split; cbn; rewrite ?Hl; try done.
    + destruct (is_small_spec (length l)); done.
    + intros _. by rewrite drop_ge, app_nil_r by lia.
Qed.

Lemma sized_holds n : sv_holds (sv_sized n) (replicate n default_value).
Proof.
  split; cbn; rewrite ?length_replicate; try done.
  - apply length_replicate.
  - destruct (is_small_spec n); [|done]. intros _. unfold empty_body. rewrite take_replicate. f_equal. lia.
  - intros ->. unfold vector_resize. by rewrite take_nil, Nat.sub_0_r.
Qed.

Lemma sv_copy_ok v l : sv_holds v l -> exists v', sv_copy v = Ok v' /\ sv_holds v' l.
Proof.
  intros Hv. unfold sv_copy. rewrite (range_ok v l Hv), (sv_elements _ _ Hv). cbn [obind].
  destruct (store_holds _ _ l (sized_holds (length l))) as (b & -> & Hb); [by rewrite length_replicate|]. eauto.
Qed.

Lemma move_ok v l : sv_holds v l -> sv_holds (sv_move v) l.
Proof. intros [He Hb Hp Hs Hg]. split; cbn; try done. by rewrite He. Qed.

(** Elements remain when a vector is resized, except from the large buffer to the small one. *)
Lemma resize_ok v l n : sv_holds v l -> is_small (length l) = true \/ is_small n = false ->
  exists v' l', resize n v = Ok v' /\ sv_holds v' l' /\ length l' = n /\
    take (Nat.min n (length l)) l' = take (Nat.min n (length l)) l.
Proof.
  intros Hv Hc. pose proof (range_ok v l Hv) as Hr. pose proof Hv as [He Hb Hp Hs Hg]. unfold resize. rewrite He.
  destruct (Nat.eqb_spec n (length l)) as [->|Hn]; [by exists v, l|].
  destruct (is_small (length l)) eqn:Hsm, (is_small n) eqn:Hsn; [| |by destruct Hc|]; cbn [eqb obind pointed].
  - destruct (is_small_spec n) as [Hle|]; [|done]. specialize (Hs eq_refl).
    eexists _, (take n (small_buffer_ v)). split; [done|]. split_and!.
    + assert (length (take n (small_buffer_ v)) = n) as Hlt by (rewrite length_take; lia).
      split; cbn; rewrite ?Hlt; [done|done|done|done|intros Hf; by destruct (is_small_spec n)].
    + rewrite length_take. lia.
    + rewrite take_take, (Nat.min_l (Nat.min n (length l)) n) by lia.
      trans (take (Nat.min n (length l)) (take (length l) (small_buffer_ v))); [|by rewrite Hs]. rewrite take_take. f_equal. lia.
  - pose proof (proj1 (Nat.leb_le _ _) Hsm). pose proof (proj1 (Nat.leb_gt _ _) Hsn).
    unfold range in Hr. rewrite He, Hp in Hr. unfold buffer_ptr_for in *. rewrite Hsm in Hp, Hr. rewrite Hp, Hsn. cbn [pointed small_buffer_ big_buffer_ buffer_] in *.
    rewrite Hr. cbn [obind]. unfold store, vector_resize. rewrite length_app, length_take, length_replicate.
    rewrite (proj2 (Nat.leb_le _ _)) by lia. cbn [obind]. set (b := l ++ _). eexists _, b. split; [done|].
    assert (length b = n) as Hlb.
    { subst b. rewrite length_app, length_drop, length_app, length_take, length_replicate. lia. }
    split_and!.
    + split; cbn [elements_ small_buffer_ big_buffer_ buffer_ set_pointed]; rewrite ?Hlb; unfold buffer_ptr_for; by rewrite ?Hsn.
    + done.
    + subst b. rewrite take_app_le by lia. done.
  - eexists _, (vector_resize n (big_buffer_ v)). split; [done|]. rewrite Hg by done.
    assert (length (vector_resize n l) = n) as Hlv.
    { unfold vector_resize. rewrite length_app, length_take, length_replicate. lia. }
    split_and!; [|done|].
    + split; cbn [elements_ small_buffer_ big_buffer_ buffer_]; rewrite ?Hlv, ?Hg by done; unfold buffer_ptr_for; by rewrite ?Hsn.
    + unfold vector_resize. rewrite take_app_le by (rewrite length_take; lia). rewrite take_take. f_equal. lia.
Qed.

(** From the large buffer to the small one the copy runs over the ends of both. *)
Lemma resize_overruns v l n : sv_holds v l -> is_small (length l) = false -> is_small n = true ->
  resize n v = Throw Undefined.
Proof.
  intros [He Hb Hp Hs Hg] Hl Hn. unfold resize. rewrite He, Hl, Hn.
  destruct (Nat.eqb_spec n (length l)) as [->|]; [congruence|]. cbn [eqb]. rewrite Hp. unfold buffer_ptr_for. rewrite Hl.
  change (vector_resize 0 (big_buffer_ v)) with (@nil T). unfold load. cbn [pointed big_buffer_ length].
  pose proof (proj1 (Nat.leb_gt _ _) Hl). rewrite (proj2 (Nat.leb_gt (length l) 0)) by lia. done.
Qed.

(** An initializer list is written to the large buffer before that has any room. *)
Lemma init_outcome init : 
  (is_small (length init) = true -> exists v, sv_init init = Ok v /\ sv_holds v init) /\
  (is_small (length init) = false -> sv_init init = Throw Undefined).
Proof.
  unfold sv_init, buffer_ptr_for. split; intros Hi; rewrite Hi; cbn [buffer_ pointed].
  - pose proof (proj1 (Nat.leb_le _ _) Hi). unfold store. cbn [small_buffer_].
    assert (length empty_body = body_elements) as He by apply length_replicate.
    rewrite (proj2 (Nat.leb_le _ _)) by lia. cbn [obind]. eexists. split; [done|].
    split; cbn [elements_ small_buffer_ big_buffer_ buffer_ set_pointed];
      [done| |unfold buffer_ptr_for; by rewrite Hi|by rewrite take_app_length|by rewrite Hi].
    rewrite length_app, length_drop. lia.
  - pose proof (proj1 (Nat.leb_gt _ _) Hi). unfold store. cbn [length big_buffer_].
    by rewrite (proj2 (Nat.leb_gt (length init) 0)) by lia.
Qed.

Lemma sv_assign_ok v l rhs lr : sv_holds v l -> sv_holds rhs lr ->
  exists v', sv_assign v rhs = Ok v' /\ sv_holds v' lr.
Proof.
  intros Hv Hr. unfold sv_assign. rewrite (sv_elements _ _ Hr), (range_ok rhs lr Hr).
  destruct (resize_ok (clear v) [] (length lr) (clear_holds v l Hv)) as (v1 & l1 & -> & Hv1 & Hl1 & _); [by left|].
  cbn [obind]. destruct (store_holds v1 l1 lr Hv1) as (b & -> & Hb); [done|]. eauto.
Qed.

Lemma index_ok v l n : sv_holds v l ->
  index n v = match l !! n with Some x => Ok x | None => Throw Assert end.
Proof.
  intros [He Hb Hp Hs Hg]. unfold index. rewrite He. destruct (Nat.ltb_spec n (length l)) as [Hn|Hn]; cbn [oassert obind].
  - destruct (lookup_lt_is_Some_2 l n Hn) as [x Hx]. rewrite Hx, Hp. unfold buffer_ptr_for.
    destruct (is_small (length l)) eqn:Hsm; cbn [pointed].
    + rewrite <- (Hs eq_refl) in Hx. rewrite lookup_take_lt in Hx by done. by rewrite Hx.
    + by rewrite (Hg eq_refl), Hx.
  - by rewrite lookup_ge_None_2 by done.
Qed.

Lemma back_ok v l : sv_holds v l -> back v = match list.last l with Some x => Ok x | None => Throw Assert end.
Proof.
  intros Hv. unfold back. rewrite (sv_elements _ _ Hv), (index_ok v l _ Hv), last_lookup.
  destruct l as [|x l]; [done|]. cbn [length Nat.eqb]. by replace (S (length l) - 1)%nat with (Nat.pred (S (length l))) by lia.
Qed.
End small_vector.
