(* ===== verification/Path.v ===== *)
(** * Paths

    Models include/pstore/support/path.hpp and lib/support/path.cpp: joining paths and taking them
    apart, by the rules of POSIX and by those of Windows, with drive letters and UNC names. *)

From S2P Require Import Prelude Chars.

Definition slash : Z := 47.
Definition backslash : Z := 92.
Definition colon : Z := 58.

(** [starts_with] and [ends_with] *)
Definition starts_with (s : list Z) (c : Z) : bool := match s with [] => false | x :: _ => x =? c end.
Definition ends_with (s : list Z) (c : Z) : bool := match list.last s with None => false | Some x => x =? c end.

(** [std::string::find] from a position, and [find_last_of] *)
Fixpoint find_from (c : Z) (s : list Z) (pos : nat) : option nat :=
  match s with
  | [] => None
  | x :: s =>
      match pos with
      | S pos => S <$> find_from c s pos
      | O => if x =? c then Some 0%nat else S <$> find_from c s 0
      end
  end.
Fixpoint find_last (p : Z -> bool) (s : list Z) : option nat :=
  match s with
  | [] => None
  | x :: s => match find_last p s with Some i => Some (S i) | None => if p x then Some 0%nat else None end
  end.

(** What follows the last character of a kind begins here. *)
Definition after_last (p : Z -> bool) (s : list Z) : nat := match find_last p s with None => 0 | Some pos => S pos end.

Definition posix_split_drive (p : list Z) : list Z * list Z := ([], p).

Definition posix_join_step (path b : list Z) : list Z :=
  if starts_with b slash then b
  else match path with
       | [] => path ++ b
       | _ => if ends_with path slash then path ++ b else path ++ [slash] ++ b
       end.
Definition posix_join (a : list Z) (p : list (list Z)) : list Z := foldl posix_join_step a p.

Definition is_sep (c : Z) : bool := c =? slash.
Definition posix_dir_name (path : list Z) : list Z := take (after_last is_sep path) path.
Definition posix_base_name (path : list Z) : list Z := drop (after_last is_sep path) path.

Definition is_path_sep (c : Z) : bool := (c =? slash) || (c =? backslash).

Definition normalize (c : Z) : Z := if c =? backslash then slash else c.

Definition win32_split_drive (path : list Z) : list Z * list Z :=
  if (length path <=? 1)%nat then ([], path)
  else
    let normp := normalize <$> path in
    match normp with
    | c0 :: c1 :: rest =>
        if (c0 =? slash) && (c1 =? slash) && (match rest with c2 :: _ :: _ => negb (c2 =? slash) | _ => false end) then
          (* a UNC path *)
          match find_from slash normp 2 with
          | None => ([], path)
          | Some index =>
              match find_from slash normp (index + 1) with
              | Some index2 =>
                  if (index2 =? index + 1)%nat then ([], path) else (take index2 path, drop index2 path)
              | None => (take (length path) path, drop (length path) path)
              end
          end
        else if c1 =? colon then (take 2 path, drop 2 path)
        else ([], path)
    | _ => ([], path)
    end.

(** [length () == 2 && [1] == ':'] *)
Definition is_drive_letter (d : list Z) : bool := match d with [_; c] => c =? colon | _ => false end.
Definition front_is_sep (s : list Z) : bool := match s with [] => false | c :: _ => is_path_sep c end.
Definition back_is_sep (s : list Z) : bool := match list.last s with None => false | Some c => is_path_sep c end.

(** A turn of the loop of [join] *)
Definition win32_join_step (result : list Z * list Z) (p : list Z) : outcome (list Z * list Z) :=
  let '(result_drive, result_path) := result in
  let '(p_drive, p_path) := win32_split_drive p in
  if front_is_sep p_path then
    (* The second path is absolute *)
    let result_drive := if negb (bool_decide (p_drive = [])) || bool_decide (result_drive = []) then p_drive else result_drive in
    Ok (result_drive, p_path)
  else
    let relative result_drive :=
      let sep := if negb (bool_decide (result_path = [])) && negb (back_is_sep result_path) then [backslash] else [] in
      Ok (result_drive, result_path ++ sep ++ p_path) in
    if negb (bool_decide (p_drive = [])) && negb (bool_decide (p_drive = result_drive)) then
      _ <-? oassert (is_drive_letter p_drive) ;;
      _ <-? oassert (bool_decide (result_drive = []) || is_drive_letter result_drive) ;;
      if bool_decide (result_drive = []) || negb (tolower (hd 0 p_drive) =? tolower (hd 0 result_drive)) then
        Ok (p_drive, p_path) (* Different drives so ignore the first path entirely *)
      else relative p_drive (* Same drive in different case *)
    else relative result_drive.

Fixpoint win32_join_loop (result : list Z * list Z) (paths : list (list Z)) : outcome (list Z * list Z) :=
  match paths with
  | [] => Ok result
  | p :: paths => r <-? win32_join_step result p ;; win32_join_loop r paths
  end.

Definition win32_join (path : list Z) (paths : list (list Z)) : outcome (list Z) :=
  r <-? win32_join_loop (win32_split_drive path) paths ;;
  let '(result_drive, result_path) := r in
  if negb (bool_decide (result_path = [])) && negb (front_is_sep result_path) &&
     negb (bool_decide (result_drive = [])) && negb (ends_with result_drive colon)
  then Ok (result_drive ++ [backslash] ++ result_path)
  else Ok (result_drive ++ result_path).

Definition win32_dir_name (src_path : list Z) : outcome (list Z) :=
  let '(drive, p) := win32_split_drive src_path in
  win32_join drive [take (after_last is_path_sep p) p].
Definition win32_base_name (path : list Z) : list Z :=
  let '(_, p) := win32_split_drive path in drop (after_last is_path_sep p) p.

(** ** Finding characters *)

Lemma find_last_None p s : find_last p s = None <-> Forall (fun c => p c = false) s.
Proof.
  induction s as [|x s IH]; cbn [find_last]; [done|]. rewrite Forall_cons. destruct (find_last p s).
  - split; [done|]. intros [_ Hs]. by apply IH in Hs.
  - destruct (p x); [by split; [|intros []]|]. split; [|done]. intros _. by split; [|apply IH].
Qed.

(** The last character of a kind divides a string. *)
Lemma find_last_Some p s i : find_last p s = Some i ->
  exists l c r, s = l ++ c :: r /\ length l = i /\ p c = true /\ Forall (fun c => p c = false) r.
Proof.
  revert i. induction s as [|x s IH]; intros i; cbn [find_last]; [done|].
  destruct (find_last p s) as [j|] eqn:E.
  - intros [= <-]. destruct (IH j eq_refl) as (l & c & r & -> & Hl & Hc & Hr). exists (x :: l), c, r.
    cbn. auto.
  - apply find_last_None in E. destruct (p x) eqn:Hx; [|done]. intros [= <-]. by exists [], x, s.
Qed.

Lemma after_last_spec p s : let k := after_last p s in
  (k <= length s)%nat /\ Forall (fun c => p c = false) (drop k s) /\
  (take k s = [] \/ exists l c, take k s = l ++ [c] /\ p c = true).
Proof.
  unfold after_last. destruct (find_last p s) as [i|] eqn:E.
  - apply find_last_Some in E as (l & c & r & -> & <- & Hc & Hr).
    rewrite length_app. cbn [length]. split; [lia|].
    replace (l ++ c :: r) with ((l ++ [c]) ++ r) by (by rewrite <- app_assoc).
    rewrite drop_app_length', take_app_length' by (rewrite length_app; cbn; lia).
    split; [done|]. right. eauto.
  - apply find_last_None in E. split; [lia|]. by split; [|left].
Qed.

(** ** POSIX *)

(** A path is its directory followed by its base name, which has no slash, and joining the two
    gives the path again. *)
Lemma posix_split path :
  posix_dir_name path ++ posix_base_name path = path /\ Forall (fun c => c <> slash) (posix_base_name path) /\
  (posix_dir_name path = [] \/ ends_with (posix_dir_name path) slash = true) /\
  posix_join (posix_dir_name path) [posix_base_name path] = path.
Proof.
  pose proof (after_last_spec is_sep path) as (Hk & Hr & Hd). unfold posix_dir_name, posix_base_name.
  set (k := after_last is_sep path) in *. pose proof (take_drop k path) as Htd.
  assert (Forall (fun c => c <> slash) (drop k path)) as Hns.
  { eapply Forall_impl; [done|]. cbn. intros c Hc. by apply Z.eqb_neq. }
  assert (take k path = [] \/ ends_with (take k path) slash = true) as Hd'.
  { destruct Hd as [->|(l & c & -> & Hc)]; [by left|right]. unfold ends_with. by rewrite last_snoc. }
  split_and!; [done|done|done|]. unfold posix_join. cbn [foldl]. unfold posix_join_step.
  assert (starts_with (drop k path) slash = false) as ->.
  { destruct (drop k path) as [|c r]; [done|]. cbn. apply Forall_cons in Hns as [Hc _]. by apply Z.eqb_neq. }
  destruct Hd' as [Hd'|Hd']; [rewrite Hd' in Htd |- *; exact Htd|].
  rewrite Hd'. by case_match.
Qed.

(** An absolute path replaces what precedes it. *)
Lemma posix_join_absolute a ps b : starts_with b slash = true -> posix_join a (ps ++ [b]) = b.
Proof. intros Hb. unfold posix_join. rewrite foldl_app. cbn [foldl]. unfold posix_join_step. by rewrite Hb. Qed.

(** Relative paths are joined with one slash. *)
Lemma posix_join_relative a b : a <> [] -> ends_with a slash = false -> starts_with b slash = false ->
  posix_join a [b] = a ++ [slash] ++ b.
Proof. intros Ha He Hb. unfold posix_join. cbn [foldl]. unfold posix_join_step. rewrite Hb, He. by destruct a. Qed.

(** ** Windows *)

(** A path is its drive followed by the rest. *)
Lemma win32_split_drive_ok path : let '(d, p) := win32_split_drive path in d ++ p = path.
Proof.
  destruct (win32_split_drive path) as [d p] eqn:E. unfold win32_split_drive in E.
  repeat case_match; simplify_eq; by rewrite ?take_drop.
Qed.

(** The base name has no separators. *)
Lemma win32_base_name_ok path : Forall (fun c => is_path_sep c = false) (win32_base_name path).
Proof. unfold win32_base_name. destruct (win32_split_drive path) as [d p]. apply after_last_spec. Qed.

(** Joining ends in a failed assertion only where a UNC name without a directory, or anything
    after one, meets another drive. *)
Lemma win32_join_step_ok d r p : 
  (let '(pd, _) := win32_split_drive p in pd = [] \/ is_drive_letter pd = true) ->
  d = [] \/ is_drive_letter d = true ->
  exists d' r', win32_join_step (d, r) p = Ok (d', r') /\ (d' = [] \/ is_drive_letter d' = true).
Proof.
  unfold win32_join_step. destruct (win32_split_drive p) as [pd pp]. intros Hp Hd.
  assert (bool_decide (d = []) || is_drive_letter d = true) as Hd'.
  { destruct Hd as [->|Hd]; [done|]. by rewrite Hd, orb_true_r. }
  destruct (front_is_sep pp).
  - eexists _, _. split; [done|]. by case_match.
  - destruct (bool_decide_reflect (pd = [])) as [->|Hpd]; cbn [negb andb]; [by eexists _, _|].
    destruct Hp as [->|Hp]; [done|]. case_match; [|by eexists _, _]. rewrite Hp, Hd'. cbn [oassert obind].
    case_match; eexists _, _; (split; [done|by right]).
Qed.

Lemma win32_join_ok path paths :
  Forall (fun p => let '(pd, _) := win32_split_drive p in pd = [] \/ is_drive_letter pd = true) (path :: paths) ->
  exists p, win32_join path paths = Ok p.
Proof.
  intros [H0 Hps]%Forall_cons. unfold win32_join. destruct (win32_split_drive path) as [d r].
  assert (exists d' r', win32_join_loop (d, r) paths = Ok (d', r')) as (d' & r' & ->).
  { revert d r H0. induction Hps as [|p ps Hp Hps IH]; intros d r Hd; cbn [win32_join_loop]; [by eexists _, _|].
    destruct (win32_join_step_ok d r p Hp Hd) as (d1 & r1 & -> & Hd1). cbn [obind]. by apply IH. }
  cbn [obind]. case_match; eauto.
Qed.

(** A path c:\a joined with \\h\s fails an assertion. *)
Lemma win32_join_unc_asserts :
  win32_join [99; 58; 92; 97] [[92; 92; 104; 92; 115]] = Throw Assert.
Proof. reflexivity. Qed.

(** The directory of c://x/y/z loses its drive. *)
Lemma win32_dir_name_drops_drive :
  win32_dir_name [99; 58; 47; 47; 120; 47; 121; 47; 122] = Ok [47; 47; 120; 47; 121; 47].
Proof. reflexivity. Qed.
