(* ===== verification/RotatingLog.v ===== *)
(** * The rotating log

    Models include/pstore/os/rotating_log.hpp on files, and the messages that
    lib/os/logging.cpp writes to such a log: a log is written to a file until a message would make
    the file too long; the file is then renamed to the first of a number of backups, the backups to
    the next ones, and the last is dropped. A file system is a map from names to contents; the
    stream to which the log writes appends to the file of its name. *)

From S2P Require Import Prelude Chars.

(** [basic_rotating_log], and the file system *)
Record rotating_log := mk_rlog { max_size_ : Z; base_name_ : list Z; num_backups_ : nat; is_open_ : bool }.
Record log_state := mk_ls { fs : gmap (list Z) (list Z); rl : rotating_log }.

(** The constructor *)
Definition new_log (base_name : list Z) (max_size : Z) (num_backups : nat) : rotating_log :=
  mk_rlog (Z.max max_size 0) base_name num_backups false.

Definition set_open (b : bool) (s : log_state) : log_state :=
  let r := rl s in mk_ls (fs s) (mk_rlog (max_size_ r) (base_name_ r) (num_backups_ r) b).

(** [make_file_name] *)
Definition make_file_name (r : rotating_log) (index : nat) : list Z :=
  base_name_ r ++ (if (0 <? index)%nat then 46 :: to_digits (Z.of_nat index) else []).

(** [open]: with [std::ofstream::app] a file is created where there is none and its contents kept
    where there is one. *)
Definition log_open (s : log_state) : log_state :=
  if is_open_ (rl s) then s
  else
    let name := base_name_ (rl s) in
    set_open true (mk_ls (<[name := default [] (fs s !! name)]> (fs s)) (rl s)).

(** [close] *)
Definition log_close (s : log_state) : log_state := if is_open_ (rl s) then set_open false s else s.

(** A turn of the loop of [do_rollover] *)
Definition shift_file (index : nat) (s : log_state) : log_state :=
  let source := make_file_name (rl s) (index - 1) in
  let dest := make_file_name (rl s) index in
  match fs s !! source with
  | Some contents => mk_ls (<[dest := contents]> (delete source (delete dest (fs s)))) (rl s)
  | None => s
  end.
Fixpoint rollover_loop (index : nat) (s : log_state) : log_state :=
  match index with
  | O => s
  | S i => rollover_loop i (shift_file index s)
  end.
(** [do_rollover] *)
Definition do_rollover (s : log_state) : log_state :=
  let s := log_close s in rollover_loop (num_backups_ (rl s)) s.

(** [stream_.tellp ()]: the end of the file, or -1 where the stream is not open *)
Definition tellp (s : log_state) : Z :=
  if is_open_ (rl s) then Z.of_nat (length (default [] (fs s !! base_name_ (rl s)))) else -1.

(** [should_rollover] *)
Definition should_rollover (message : list Z) (s : log_state) : bool :=
  let r := rl s in
  if (0 <? num_backups_ r)%nat && (max_size_ r >? 0) then
    let pos := tellp s in
    if pos >=? 0 then
      let remaining := max_size_ r - pos in
      (remaining <? 0) || (Z.of_nat (length message) >? remaining)
    else false
  else false.

(** [stream_ << message] *)
Definition log_write (message : list Z) (s : log_state) : log_state :=
  let name := base_name_ (rl s) in
  mk_ls (<[name := default [] (fs s !! name) ++ message]> (fs s)) (rl s).

(** [log_impl] *)
Definition log_impl (message : list Z) (s : log_state) : log_state :=
  let s := if should_rollover message s then do_rollover s else s in
  log_write message (log_open s).

(** ** Messages *)

(** [priority] and [priority_string] *)
Inductive priority := emergency | alert | critical | error_priority | warning | notice | info | debug.
Definition priority_string (p : priority) : list Z :=
  match p with
  | emergency => [101; 109; 101; 114; 103; 101; 110; 99; 121]
  | alert => [97; 108; 101; 114; 116]
  | critical => [99; 114; 105; 116; 105; 99; 97; 108]
  | error_priority => [101; 114; 114; 111; 114]
  | warning => [119; 97; 114; 110; 105; 110; 103]
  | notice => [110; 111; 116; 105; 99; 101]
  | info => [105; 110; 102; 111]
  | debug => [100; 101; 98; 117; 103]
  end.

(** [get_current_thread_name] *)
Definition get_current_thread_name (name id : list Z) : list Z :=
  match name with [] => [40] ++ id ++ [41] | _ => name end.

(** [basic_logger::log]: the line of a message, and its way to a rotating log *)
Definition log_line (time_str thread_name : list Z) (p : priority) (message : list Z) : list Z :=
  let sep := [32; 45; 32] in
  time_str ++ sep ++ thread_name ++ sep ++ priority_string p ++ sep ++ message ++ [10].
Definition basic_log (time_str thread_name : list Z) (p : priority) (message : list Z) (s : log_state) : log_state :=
  log_impl (log_line time_str thread_name p message) s.

(** [logger::log] of a message with a number, two parts, or a quoted part *)
Definition log_number (message : list Z) (d : Z) : list Z := message ++ (if d <? 0 then 45 :: to_digits (- d) else to_digits d).
Definition log_quoted (part1 part2 : list Z) : list Z := part1 ++ [34] ++ part2 ++ [34].

(** ** The log as a list of files *)

(** The contents of the files, the newest first, and whether the newest is open *)
Definition spec_log (max_size : Z) (num_backups : nat) (message : list Z) (l : list (list Z)) (opened : bool) : list (list Z) :=
  let newest := default [] (head l) in
  if opened && (0 <? num_backups)%nat && (max_size >? 0) && (Z.of_nat (length newest + length message) >? max_size)
  then take (S num_backups) (message :: l)
  else (newest ++ message) :: tail l.

(** The files of the log, and no others of such names *)
Definition holds_log (s : log_state) (l : list (list Z)) : Prop :=
  (length l <= S (num_backups_ (rl s)))%nat /\ Z.of_nat (num_backups_ (rl s)) < 2 ^ 32 /\
  (is_open_ (rl s) = true -> l <> []) /\
  forall i, (i <= num_backups_ (rl s))%nat -> fs s !! make_file_name (rl s) i = l !! i.

Lemma to_digits_inj a b : 0 <= a < 10 ^ 20 -> 0 <= b < 10 ^ 20 -> to_digits a = to_digits b -> a = b.
Proof.
  intros Ha Hb E. pose proof (digits_of_value 20 a [] Ha) as H1. pose proof (digits_of_value 20 b [] Hb) as H2.
  unfold to_digits in E. rewrite E in H1. rewrite H1 in H2. cbn in H2. by injection H2.
Qed.

Lemma make_file_name_inj r i j : Z.of_nat i < 2 ^ 32 -> Z.of_nat j < 2 ^ 32 ->
  make_file_name r i = make_file_name r j -> i = j.
Proof.
  unfold make_file_name. intros Hi Hj E. apply app_inv_head in E.
  destruct i as [|i], j as [|j]; cbn [Nat.ltb Nat.leb] in E; try done.
  injection E as E. apply to_digits_inj in E; lia.
Qed.

Lemma make_file_name_base r : make_file_name r 0 = base_name_ r.
Proof. apply app_nil_r. Qed.

(** Between the turns of the loop: the files from [k] on have moved. *)
Definition shifted (l : list (list Z)) (k : nat) (s : log_state) : Prop :=
  let n := num_backups_ (rl s) in
  (forall i, (i < k)%nat -> fs s !! make_file_name (rl s) i = l !! i) /\
  (forall i, (k < i <= n)%nat -> fs s !! make_file_name (rl s) i = l !! (i - 1)%nat) /\
  (l !! (k - 1)%nat = None \/ (k < n)%nat -> fs s !! make_file_name (rl s) k = None).

Lemma shift_file_ok l k s : (S k <= num_backups_ (rl s))%nat -> Z.of_nat (num_backups_ (rl s)) < 2 ^ 32 ->
  shifted l (S k) s -> shifted l k (shift_file (S k) s) /\ rl (shift_file (S k) s) = rl s.
Proof.
  intros Hk Hn (H1 & H2 & H3). unfold shift_file. replace (S k - 1)%nat with k in * by lia.
  rewrite (H1 k) by lia. destruct (l !! k) as [c|] eqn:Hl; (split; [|done]); unfold shifted; cbn [fs rl].
  - assert (forall i j, (i <= num_backups_ (rl s))%nat -> (j <= num_backups_ (rl s))%nat -> i <> j ->
              make_file_name (rl s) i <> make_file_name (rl s) j) as Hne.
    { intros i j Hi Hj Hij E. apply make_file_name_inj in E; lia. }
    split_and!.
    + intros i Hi. rewrite lookup_insert_ne by (apply Hne; lia). rewrite !lookup_delete_ne by (apply Hne; lia).
      apply H1. lia.
    + intros i Hi. destruct (decide (i = S k)) as [->|].
      * rewrite lookup_insert_eq. by replace (S k - 1)%nat with k by lia.
      * rewrite lookup_insert_ne by (apply Hne; lia). rewrite !lookup_delete_ne by (apply Hne; lia). apply H2. lia.
    + intros _. rewrite lookup_insert_ne by (apply Hne; lia). apply lookup_delete_eq.
  - split_and!.
    + intros i Hi. apply H1. lia.
    + intros i Hi. destruct (decide (i = S k)) as [->|]; [|apply H2; lia].
      replace (S k - 1)%nat with k by lia. rewrite Hl. auto.
    + intros _. rewrite (H1 k) by lia. done.
Qed.

Lemma rollover_loop_ok l k s : (k <= num_backups_ (rl s))%nat -> Z.of_nat (num_backups_ (rl s)) < 2 ^ 32 ->
  shifted l k s -> shifted l 0 (rollover_loop k s) /\ rl (rollover_loop k s) = rl s.
Proof.
  revert s. induction k as [|k IH]; intros s Hk Hn Hs; [done|]. cbn [rollover_loop].
  destruct (shift_file_ok l k s Hk Hn Hs) as [Hs' E].
  destruct (IH (shift_file (S k) s)) as [Hd E']; [rewrite E; lia|by rewrite E|done|]. split; [done|congruence].
Qed.

Lemma holds_shifted s l : holds_log s l -> shifted l (num_backups_ (rl s)) s.
Proof.
  intros (Hl & _ & _ & Hs). split_and!; [intros; apply Hs; lia|lia|]. intros [Hn|]; [|lia].
  rewrite Hs by lia. apply lookup_ge_None. apply lookup_ge_None in Hn. lia.
Qed.

(** Writing to the newest file, whether or not it was open *)
Lemma write_open_ok s m name : name <> base_name_ (rl s) ->
  let s' := log_write m (log_open s) in
  fs s' !! name = fs s !! name /\
  fs s' !! base_name_ (rl s) = Some (default [] (fs s !! base_name_ (rl s)) ++ m) /\
  rl s' = rl (set_open true s).
Proof.
  intros Hne. unfold log_write, log_open. destruct (rl s) as [mx b n o] eqn:E. destruct o; cbn; rewrite ?E; cbn.
  - rewrite lookup_insert_ne, lookup_insert_eq by done. done.
  - rewrite !lookup_insert_ne, !lookup_insert_eq by done. done.
Qed.

Lemma should_rollover_spec m s l : holds_log s l ->
  should_rollover m s =
  is_open_ (rl s) && (0 <? num_backups_ (rl s))%nat && (max_size_ (rl s) >? 0) &&
    (Z.of_nat (length (default [] (head l)) + length m) >? max_size_ (rl s)).
Proof.
  intros (_ & _ & Ho & Hs). pose proof (Hs 0%nat ltac:(lia)) as H0. rewrite make_file_name_base in H0.
  unfold should_rollover, tellp. destruct (0 <? num_backups_ (rl s))%nat, (max_size_ (rl s) >? 0);
    cbn [andb]; rewrite ?andb_false_r; try done.
  destruct (is_open_ (rl s)); [|done]. rewrite H0.
  replace (default [] (l !! 0%nat)) with (default [] (head l)) by (by destruct l).
  cbn [andb]. set (x := length _). rewrite Z.geb_leb, (proj2 (Z.leb_le _ _)) by lia.
  rewrite !Z.gtb_ltb, Nat2Z.inj_add.
  destruct (Z.ltb_spec (max_size_ (rl s) - Z.of_nat x) 0), (Z.ltb_spec (max_size_ (rl s) - Z.of_nat x) (Z.of_nat (length m))),
    (Z.ltb_spec (max_size_ (rl s)) (Z.of_nat x + Z.of_nat (length m))); try done; lia.
Qed.

Lemma holds_log_intro s s' b l : rl s' = rl (set_open b s) -> (length l <= S (num_backups_ (rl s)))%nat ->
  Z.of_nat (num_backups_ (rl s)) < 2 ^ 32 -> (b = true -> l <> []) ->
  (forall i, (i <= num_backups_ (rl s))%nat -> fs s' !! make_file_name (rl s) i = l !! i) -> holds_log s' l.
Proof. intros E Hl Hn Hb Hs. unfold holds_log. by rewrite E. Qed.

(** After the loop every file has the next name. *)
Lemma do_rollover_ok s l : holds_log s l -> (0 < num_backups_ (rl s))%nat ->
  rl (do_rollover s) = rl (set_open false s) /\ fs (do_rollover s) !! base_name_ (rl s) = None /\
  forall i, (i < num_backups_ (rl s))%nat -> fs (do_rollover s) !! make_file_name (rl s) (S i) = l !! i.
Proof.
  intros (Hlen & Hn & Ho & Hs) Hpos.
  assert (rl (log_close s) = rl (set_open false s) /\ fs (log_close s) = fs s) as [Ec Ef].
  { unfold log_close, set_open. destruct s as [f [mx b n o]]. by destruct o. }
  assert (holds_log (log_close s) l) as Hc by (apply (holds_log_intro s _ false); try done; by rewrite Ef).
  destruct (rollover_loop_ok l (num_backups_ (rl (log_close s))) (log_close s)) as [(_ & H2 & H3) Er];
    [done|by rewrite Ec|by apply holds_shifted|].
  unfold do_rollover. cbn beta zeta. set (s1 := rollover_loop _ _) in *. rewrite Ec in Er. rewrite Er in H2, H3.
  split_and!; [done| |].
  - rewrite <- make_file_name_base. apply H3. by right.
  - intros i Hi. specialize (H2 (S i)). replace (S i - 1)%nat with i in H2 by lia. apply H2. cbn. lia.
Qed.

(** Logging a message does to the files what [spec_log] does to the list, and touches no others. *)
Lemma log_impl_ok m s l : holds_log s l ->
  let s' := log_impl m s in
  holds_log s' (spec_log (max_size_ (rl s)) (num_backups_ (rl s)) m l (is_open_ (rl s))) /\
  rl s' = rl (set_open true s).
Proof.
  intros Hl s'. pose proof (should_rollover_spec m s l Hl) as Hr. pose proof Hl as (Hlen & Hn & Ho & Hs).
  unfold spec_log. rewrite <- Hr. subst s'. unfold log_impl.
  assert (forall i, (S i <= num_backups_ (rl s))%nat -> make_file_name (rl s) (S i) <> base_name_ (rl s)) as Hne.
  { intros i Hi. rewrite <- make_file_name_base. intros E. apply make_file_name_inj in E; lia. }
  destruct (should_rollover m s).
  - assert (0 < num_backups_ (rl s))%nat as Hpos.
    { symmetry in Hr. do 2 apply andb_prop in Hr as [Hr _]. apply andb_prop in Hr as [_ Hr]. by apply Nat.ltb_lt. }
    destruct (do_rollover_ok s l Hl Hpos) as (Er & H0 & H1). set (s1 := do_rollover s) in *.
    assert (base_name_ (rl s1) = base_name_ (rl s)) as Eb by (by rewrite Er).
    destruct (write_open_ok s1 m (make_file_name (rl s) 1)) as (_ & Hb & El); [by rewrite Eb; apply Hne|].
    rewrite Eb, H0 in Hb. assert (rl (set_open true s1) = rl (set_open true s)) as Es by (cbn; by rewrite Er).
    rewrite Es in El. split; [|done].
    apply (holds_log_intro s _ true); [done|rewrite length_take; lia|done|done|]. intros i Hi.
    rewrite lookup_take_lt by lia. destruct i as [|i]; [by rewrite make_file_name_base, Hb|].
    destruct (write_open_ok s1 m (make_file_name (rl s) (S i))) as (-> & _ & _); [by rewrite Eb; apply Hne|].
    apply H1. lia.
  - destruct (write_open_ok s m (base_name_ (rl s) ++ [0])) as (_ & Hb & El).
    { intros E. apply (f_equal length) in E. rewrite !length_app in E. cbn in E. lia. }
    split; [|done]. apply (holds_log_intro s _ true); [done|destruct l; cbn in *; lia|done|done|]. intros i Hi.
    destruct i as [|i].
    + rewrite make_file_name_base, Hb. specialize (Hs 0%nat ltac:(lia)). rewrite make_file_name_base in Hs.
      rewrite Hs. by destruct l.
    + destruct (write_open_ok s m (make_file_name (rl s) (S i))) as (-> & _ & _); [by apply Hne|].
      rewrite Hs by lia. by destruct l.
Qed.

(** ** A series of messages *)

Definition run_log (s : log_state) (ms : list (list Z)) : log_state := foldl (fun s m => log_impl m s) s ms.

(** The text of all files, the oldest first *)
Definition text (l : list (list Z)) : list Z := concat (rev l).

Lemma text_cons x l : text (x :: l) = text l ++ x.
Proof. unfold text. cbn [rev]. rewrite concat_app. cbn. by rewrite app_nil_r. Qed.
Lemma text_app l1 l2 : text (l1 ++ l2) = text l2 ++ text l1.
Proof. unfold text. by rewrite rev_app_distr, concat_app. Qed.

Lemma spec_log_text mx n m l o : exists lost, text l ++ m = lost ++ text (spec_log mx n m l o) /\
  ((length l <= n)%nat -> lost = []).
Proof.
  unfold spec_log. case_match.
  - cbn [take]. exists (text (drop n l)). rewrite text_cons, app_assoc, <- text_app, take_drop. split; [done|].
    intros Hl. by rewrite drop_ge.
  - exists []. split; [|done]. cbn [app]. destruct l as [|h t]; cbn [head default tail].
    + by rewrite text_cons.
    + rewrite !text_cons, app_assoc. done.
Qed.

(** A file that is no longer than allowed, or is one message *)
Definition file_ok (mx : Z) (ms : list (list Z)) (f : list Z) : Prop := Z.of_nat (length f) <= mx \/ f ∈ ms.

Lemma spec_log_sizes mx n m l ms : (0 < n)%nat -> 0 < mx -> m ∈ ms ->
  Forall (file_ok mx ms) l -> Forall (file_ok mx ms) (spec_log mx n m l true).
Proof.
  intros Hn Hm Hin Hl. unfold spec_log. rewrite (proj2 (Nat.ltb_lt _ _) Hn), (proj2 (Z.gtb_lt _ _) Hm). cbn [andb].
  destruct (Z.gtb_spec (Z.of_nat (length (default [] (head l)) + length m)) mx).
  - apply Forall_take. constructor; [by right|done].
  - constructor; [left; rewrite length_app; lia|]. by apply Forall_tail.
Qed.

Section series.
Context (mx : Z) (n : nat).
Local Abbreviation spec_logs := (foldl (fun l m => spec_log mx n m l true)).

Lemma run_log_spec s l ms : holds_log s l -> max_size_ (rl s) = mx -> num_backups_ (rl s) = n -> is_open_ (rl s) = true ->
  holds_log (run_log s ms) (spec_logs l ms).
Proof.
  revert s l. induction ms as [|m ms IH]; intros s l Hl Hm Hn Ho; [done|]. cbn [run_log foldl].
  destruct (log_impl_ok m s l Hl) as [Hh Er]. rewrite Hm, Hn, Ho in Hh.
  apply IH; [done|rewrite Er; done..].
Qed.

Lemma spec_logs_text l ms : exists lost, text l ++ concat ms = lost ++ text (spec_logs l ms) /\
  ((length l + length ms <= S n)%nat -> lost = []).
Proof.
  revert l. induction ms as [|m ms IH]; intros l; cbn [foldl concat].
  - exists []. by rewrite app_nil_r.
  - destruct (spec_log_text mx n m l true) as (lost1 & E1 & L1).
    destruct (IH (spec_log mx n m l true)) as (lost2 & E2 & L2). exists (lost1 ++ lost2).
    rewrite app_assoc, E1, <- !app_assoc, E2. split; [done|]. cbn [length]. intros Hlen.
    rewrite L1 by lia. apply L2. unfold spec_log. case_match.
    + rewrite length_take. cbn [length]. lia.
    + destruct l; cbn [tail length] in *; lia.
Qed.

Lemma spec_logs_sizes l ms0 ms : (0 < n)%nat -> 0 < mx -> ms ⊆ ms0 -> Forall (file_ok mx ms0) l ->
  Forall (file_ok mx ms0) (spec_logs l ms).
Proof.
  intros Hn Hm. revert l. induction ms as [|m ms IH]; intros l Hsub Hl; [done|]. cbn [foldl].
  apply IH; [set_solver|]. apply spec_log_sizes; [done|done|set_solver|done].
Qed.
End series.

(** A new log, over the files [l0] of an earlier one: the files hold the end of all that was
    written, nothing is lost while there are fewer messages than files, and each file that the log
    began is no longer than allowed, or is a single message. What was there when the log was opened
    is first continued by one message, whatever its size. *)
Lemma log_rotates base mx n files l0 m ms :
  let s := mk_ls files (new_log base mx n) in
  holds_log s l0 ->
  let first := (default [] (head l0) ++ m) :: tail l0 in
  exists l, holds_log (run_log s (m :: ms)) l /\
    (exists lost, text l0 ++ m ++ concat ms = lost ++ text l /\ ((length first + length ms <= S n)%nat -> lost = [])) /\
    ((0 < n)%nat -> 0 < mx -> Forall (file_ok mx ms) first -> Forall (file_ok mx ms) l).
Proof.
  intros s Hs first. destruct (log_impl_ok m s l0 Hs) as [Hh Er].
  change (spec_log (max_size_ (rl s)) (num_backups_ (rl s)) m l0 (is_open_ (rl s))) with first in Hh.
  exists (foldl (fun l m => spec_log (Z.max mx 0) n m l true) first ms).
  cbn [run_log foldl]. split_and!.
  - apply (run_log_spec (Z.max mx 0) n (log_impl m s) first ms); [done|by rewrite Er..].
  - destruct (spec_logs_text (Z.max mx 0) n first ms) as (lost & E & L). exists lost. split; [|done].
    rewrite <- E, app_assoc. f_equal. subst first. rewrite text_cons. destruct l0 as [|h t]; [done|].
    cbn [head default tail]. by rewrite text_cons, <- app_assoc.
  - intros Hn Hm Hf. rewrite Z.max_l by lia. by apply spec_logs_sizes.
Qed.

(** The file that is there when a log is opened may be as long as allowed: the first message goes
    to its end all the same. *)
Lemma first_message_exceeds :
  let s := mk_ls {[ [108] := [1; 2; 3] ]} (new_log [108] 3 2) in
  fs (log_impl [4; 5] s) !! [108] = Some [1; 2; 3; 4; 5] /\
  fs (log_impl [6] (log_impl [4; 5] s)) !! [108; 46; 49] = Some [1; 2; 3; 4; 5].
Proof. by vm_compute. Qed.
