(* ===== verification/StringDistance.v ===== *)
(** * The distance of strings

    Models lib/cmd_util/string_distance.cpp, which computes how many characters have to be
    inserted, removed or replaced to turn one string into another, with one column of the table of
    distances at a time. It is used to suggest the name of an option. *)

From S2P Require Import Prelude.

(** The inner loop, over the characters [from] of the first string from position [y] on: [column] is
    the rest of the column before, [above] the entry that was computed last *)
Fixpoint column_loop (from : list Z) (b : Z) (column : list Z) (above last_diagonal best_this_column : Z) : list Z * Z :=
  match from, column with
  | a :: from, old_diagonal :: column =>
      let v := Z.min (old_diagonal + 1) (Z.min (above + 1) (last_diagonal + (if a =? b then 0 else 1))) in
      let '(rest, best) := column_loop from b column v old_diagonal (Z.min best_this_column v) in
      (v :: rest, best)
  | _, _ => ([], best_this_column)
  end.

(** The outer loop, over the characters of the second string from position [x] on *)
Fixpoint row_loop (from to : list Z) (x : Z) (column : list Z) (max_edit_distance : Z) : Z :=
  match to with
  | [] => List.last column 0
  | b :: to =>
      let '(rest, best_this_column) := column_loop from b (tail column) x (x - 1) x in
      if negb (max_edit_distance =? 0) && (best_this_column >? max_edit_distance) then wrap64 (max_edit_distance + 1)
      else row_loop from to (x + 1) (x :: rest) max_edit_distance
  end.

(** [string_distance] *)
Definition string_distance (from to : list Z) (max_edit_distance : Z) : Z :=
  row_loop from to 1 (Z.of_nat <$> seq 0 (length from + 1)) max_edit_distance.

(** ** Edits *)

(** [n] insertions, removals and replacements turn one string into another. *)
Inductive edits : nat -> list Z -> list Z -> Prop :=
  | edits_nil : edits 0 [] []
  | edits_keep n a s t : edits n s t -> edits n (a :: s) (a :: t)
  | edits_replace n a b s t : edits n s t -> edits (S n) (a :: s) (b :: t)
  | edits_insert n b s t : edits n s t -> edits (S n) s (b :: t)
  | edits_remove n a s t : edits n s t -> edits (S n) (a :: s) t.

Lemma edits_snoc n a b s t : edits n s t ->
  edits n (s ++ [a]) (t ++ [a]) /\ edits (S n) (s ++ [a]) (t ++ [b]) /\
  edits (S n) s (t ++ [b]) /\ edits (S n) (s ++ [a]) t.
Proof.
  induction 1 as [|n c s t _ IH|n c d s t _ IH|n d s t _ IH|n c s t _ IH]; cbn.
  - repeat (split || constructor).
  - destruct IH as (? & ? & ? & ?). split_and!; by constructor.
  - destruct IH as (? & ? & ? & ?). split_and!; by constructor.
  - destruct IH as (? & ? & ? & ?). split_and!; by constructor.
  - destruct IH as (? & ? & ? & ?). split_and!; by constructor.
Qed.

Lemma edits_rev n s t : edits n s t -> edits n (rev s) (rev t).
Proof.
  induction 1 as [|n a s t _ IH|n a b s t _ IH|n b s t _ IH|n a s t _ IH]; cbn [rev].
  - constructor.
  - exact (proj1 (edits_snoc n a a _ _ IH)).
  - exact (proj1 (proj2 (edits_snoc n a b _ _ IH))).
  - exact (proj1 (proj2 (proj2 (edits_snoc n b b _ _ IH)))).
  - exact (proj2 (proj2 (proj2 (edits_snoc n a a _ _ IH)))).
Qed.

(** The least number of edits, by recursion on both strings *)
Fixpoint lev (s : list Z) : list Z -> Z :=
  match s with
  | [] => fun t => Z.of_nat (length t)
  | a :: s' => fix lev_inner (t : list Z) : Z :=
      match t with
      | [] => Z.of_nat (S (length s'))
      | b :: t' => Z.min (lev_inner t' + 1) (Z.min (lev s' (b :: t') + 1) (lev s' t' + (if a =? b then 0 else 1)))
      end
  end.

Lemma lev_nil_r s : lev s [] = Z.of_nat (length s).
Proof. by destruct s. Qed.

Lemma lev_cons a s b t :
  lev (a :: s) (b :: t) = Z.min (lev (a :: s) t + 1) (Z.min (lev s (b :: t) + 1) (lev s t + (if a =? b then 0 else 1))).
Proof. done. Qed.

Lemma lev_nonneg s t : 0 <= lev s t.
Proof.
  revert t. induction s as [|a s IH]; intros t; [cbn; lia|]. induction t as [|b t IHt]; [rewrite lev_nil_r; lia|].
  rewrite lev_cons. pose proof (IH (b :: t)). pose proof (IH t). destruct (a =? b); lia.
Qed.

Lemma lev_insert s b t : lev s (b :: t) <= lev s t + 1.
Proof. destruct s as [|a s]; [cbn [lev length]; lia|]. rewrite lev_cons. lia. Qed.

Lemma lev_remove a s t : lev (a :: s) t <= lev s t + 1.
Proof. destruct t as [|b t]; [rewrite !lev_nil_r; cbn [length]; lia|]. rewrite lev_cons. lia. Qed.

Lemma lev_diag a s b t : lev (a :: s) (b :: t) <= lev s t + (if a =? b then 0 else 1).
Proof. rewrite lev_cons. lia. Qed.

(** No sequence of edits is shorter, *)
Lemma lev_least n s t : edits n s t -> lev s t <= Z.of_nat n.
Proof.
  induction 1 as [|n a s t _ IH|n a b s t _ IH|n b s t _ IH|n a s t _ IH]; [done|..].
  - pose proof (lev_diag a s a t). rewrite Z.eqb_refl in *. lia.
  - pose proof (lev_diag a s b t). destruct (a =? b); lia.
  - pose proof (lev_insert s b t). lia.
  - pose proof (lev_remove a s t). lia.
Qed.

Lemma edits_all_inserted t : edits (length t) [] t.
Proof. induction t; cbn; by constructor. Qed.
Lemma edits_all_removed s : edits (length s) s [].
Proof. induction s; cbn; by constructor. Qed.

(** and there is one of that length. *)
Lemma lev_edits s t : edits (Z.to_nat (lev s t)) s t.
Proof.
  revert t. induction s as [|a s IH]; intros t; [cbn; rewrite Nat2Z.id; apply edits_all_inserted|].
  induction t as [|b t IHt]; [rewrite lev_nil_r, Nat2Z.id; apply edits_all_removed|].
  rewrite lev_cons. pose proof (lev_nonneg (a :: s) t). pose proof (lev_nonneg s (b :: t)). pose proof (lev_nonneg s t).
  set (p := lev (a :: s) t) in *. set (q := lev s (b :: t)) in *. set (r := lev s t) in *.
  destruct (Z.min_dec (p + 1) (Z.min (q + 1) (r + (if a =? b then 0 else 1)))) as [->| ->].
  { replace (Z.to_nat (p + 1)) with (S (Z.to_nat p)) by lia. by apply edits_insert. }
  destruct (Z.min_dec (q + 1) (r + (if a =? b then 0 else 1))) as [->| ->].
  { replace (Z.to_nat (q + 1)) with (S (Z.to_nat q)) by lia. apply edits_remove, IH. }
  destruct (Z.eqb_spec a b) as [->|].
  - rewrite Z.add_0_r. apply edits_keep, IH.
  - replace (Z.to_nat (r + 1)) with (S (Z.to_nat r)) by lia. apply edits_replace, IH.
Qed.

Lemma lev_le_length s t : lev s t <= Z.of_nat (length s + length t).
Proof.
  revert t. induction s as [|a s IH]; intros t; [cbn; lia|]. pose proof (lev_remove a s t). pose proof (IH t). cbn [length]. lia.
Qed.

(** ** The loops *)

(** The distances of the prefixes of a string from [t]; [p] is the prefix before it, reversed *)
Fixpoint prefix_levs (p from t : list Z) : list Z :=
  match from with
  | [] => []
  | a :: from => lev (a :: p) t :: prefix_levs (a :: p) from t
  end.

Definition least (l : list Z) (best : Z) : Z := foldr Z.min best l.

Lemma least_min v l best : least l (Z.min best v) = Z.min v (least l best).
Proof. unfold least. induction l as [|x l IH]; cbn [foldr]; [lia|]. rewrite IH. lia. Qed.

Lemma column_loop_ok from b t p best :
  column_loop from b (prefix_levs p from t) (lev p (b :: t)) (lev p t) best =
    (prefix_levs p from (b :: t), least (prefix_levs p from (b :: t)) best).
Proof.
  revert p best. induction from as [|a from IH]; intros p best; [done|]. cbn [column_loop prefix_levs].
  rewrite <- lev_cons, IH. f_equal. cbn [least foldr]. apply least_min.
Qed.

(** A column whose least entry is [n] leads to distances of at least [n]. *)
Lemma column_least from b t p n : n <= lev p (b :: t) -> n <= lev p t -> Forall (Z.le n) (prefix_levs p from t) ->
  Forall (Z.le n) (prefix_levs p from (b :: t)).
Proof.
  revert p. induction from as [|a from IH]; intros p H1 H2 Hf; [constructor|]. cbn [prefix_levs] in *.
  apply Forall_cons in Hf as [Ha Hf]. assert (n <= lev (a :: p) (b :: t)) by (rewrite lev_cons; destruct (a =? b); lia).
  constructor; [done|]. by apply IH.
Qed.

Lemma columns_least from to t n : n <= lev [] t -> Forall (Z.le n) (prefix_levs [] from t) ->
  n <= lev [] (rev to ++ t) /\ Forall (Z.le n) (prefix_levs [] from (rev to ++ t)).
Proof.
  revert t. induction to as [|b to IH]; intros t Hn Hf; [done|]. cbn [rev]. rewrite <- app_assoc. cbn [app].
  assert (n <= lev [] (b :: t)) by (cbn in *; lia). apply IH; [done|]. by apply column_least.
Qed.

Lemma least_ge n l best : n <= least l best <-> n <= best /\ Forall (Z.le n) l.
Proof.
  unfold least. induction l as [|x l IH]; cbn [foldr]; [rewrite Forall_nil; tauto|]. rewrite Forall_cons, Z.min_glb_iff, IH. tauto.
Qed.

Lemma last_prefix_levs from p t : List.last (lev p t :: prefix_levs p from t) 0 = lev (rev from ++ p) t.
Proof.
  revert p. induction from as [|a from IH]; intros p; [done|]. cbn [prefix_levs rev]. rewrite <- app_assoc. cbn [app].
  rewrite <- IH. done.
Qed.

Lemma prefix_levs_elem from p t : lev (rev from ++ p) t ∈ lev p t :: prefix_levs p from t.
Proof.
  revert p. induction from as [|a from IH]; intros p; [by left|]. cbn [prefix_levs rev]. rewrite <- app_assoc. right. apply IH.
Qed.

(** The loop from a column on: the distance when it is within the limit, and otherwise a number
    between the limit and the distance *)
Lemma row_loop_ok from to t limit : 0 <= limit -> Z.of_nat (length from + length (rev to ++ t)) < 2 ^ 64 ->
  let d := lev (rev from) (rev to ++ t) in
  let r := row_loop from to (Z.of_nat (length t) + 1) (lev [] t :: prefix_levs [] from t) limit in
  r = d \/ 0 < limit /\ r = limit + 1 /\ limit < d.
Proof.
  intros Hl. revert t. induction to as [|b to IH]; intros t Hlen; cbn [row_loop].
  { left. rewrite last_prefix_levs. by rewrite app_nil_r. }
  cbn [tail]. cbn zeta. pose proof (column_loop_ok from b t [] (Z.of_nat (length t) + 1)) as E.
  replace (lev [] (b :: t)) with (Z.of_nat (length t) + 1) in E by (cbn [lev length]; lia).
  change (lev [] t) with (Z.of_nat (length t)) in E. replace (Z.of_nat (length t) + 1 - 1) with (Z.of_nat (length t)) by lia.
  rewrite E. cbn [rev] in *. rewrite <- app_assoc in *. cbn [app] in *.
  set (best := least _ _). destruct (negb (limit =? 0) && (best >? limit)) eqn:Hc.
  - apply andb_true_iff in Hc as [H0 H1]. rewrite negb_true_iff, Z.eqb_neq in H0. rewrite Z.gtb_ltb, Z.ltb_lt in H1.
    assert (limit + 1 <= lev (rev from) (rev to ++ b :: t)) as Hd.
    { assert (limit + 1 <= best) as Hb by lia. apply least_ge in Hb as [Hb1 Hb2].
      destruct (columns_least from to (b :: t) (limit + 1)) as [G1 G2]; [cbn [lev length]; lia|done|].
      pose proof (prefix_levs_elem from [] (rev to ++ b :: t)) as Hin. rewrite app_nil_r in Hin.
      apply elem_of_cons in Hin as [->|Hin]; [done|]. rewrite Forall_forall in G2. by apply G2. }
    right. pose proof (lev_le_length (rev from) (rev to ++ b :: t)) as Hle. rewrite length_rev in Hle.
    rewrite wrap_small by lia. lia.
  - specialize (IH (b :: t) Hlen). cbn [length] in IH.
    replace (Z.of_nat (S (length t)) + 1) with (Z.of_nat (length t) + 1 + 1) in IH by lia.
    replace (lev [] (b :: t)) with (Z.of_nat (length t) + 1) in IH by (cbn [lev length]; lia). exact IH.
Qed.

Lemma first_column from k : Z.of_nat <$> seq k (length from + 1) = Z.of_nat k :: prefix_levs (replicate k 0) from [].
Proof.
  revert k. induction from as [|a from IH]; intros k; [done|]. cbn [length Nat.add seq fmap list_fmap prefix_levs].
  fold (Z.of_nat <$> seq (S k) (length from + 1)). rewrite (IH (S k)), lev_nil_r. cbn [length replicate]. rewrite length_replicate.
  do 2 f_equal. clear IH. assert (forall p q, length p = length q -> prefix_levs p from [] = prefix_levs q from []) as Hpq; [|by apply Hpq].
  induction from as [|c from IH]; intros p q Hpq; [done|]. cbn [prefix_levs]. rewrite !lev_nil_r. cbn [length]. rewrite Hpq. f_equal.
  apply IH. cbn. lia.
Qed.

(** C38: the distance is the least number of insertions, removals and replacements that turn the one
    string into the other, when that is within the limit or there is no limit; otherwise the
    result exceeds the limit and is not greater than that number. *)
Theorem string_distance_exact (from to : list Z) (limit : Z) :
  0 <= limit -> Z.of_nat (length from + length to) < 2 ^ 64 ->
  exists d : nat, edits d from to /\ (forall n, edits n from to -> (d <= n)%nat) /\
    (limit = 0 \/ Z.of_nat d <= limit -> string_distance from to limit = Z.of_nat d) /\
    (0 < limit < Z.of_nat d -> limit < string_distance from to limit <= Z.of_nat d).
Proof.
  intros Hl Hlen. set (d := lev (rev from) (rev to)). pose proof (lev_nonneg (rev from) (rev to)) as Hd.
  exists (Z.to_nat d). rewrite Z2Nat.id by done. split; [|split].
  - rewrite <- (rev_involutive from), <- (rev_involutive to). apply edits_rev, lev_edits.
  - intros n Hn. apply edits_rev, lev_least in Hn. unfold d. lia.
  - pose proof (row_loop_ok from to [] limit Hl) as Hr. rewrite app_nil_r, length_rev in Hr. specialize (Hr Hlen).
    unfold string_distance. rewrite (first_column from 0). cbn [length replicate lev] in Hr |- *. change (Z.of_nat 0) with 0 in Hr |- *.
    rewrite Z.add_0_l in Hr. fold d in Hr. lia.
Qed.

Lemma string_distance_exact_witness : string_distance [104; 101; 108; 112] [104; 101; 112] 0 = 1.
Proof.
  destruct (string_distance_exact [104; 101; 108; 112] [104; 101; 112] 0) as (d & Hd & Hmin & He & _); [lia|cbn; lia|].
  rewrite He by (by left). assert (d <= 1)%nat by (apply Hmin; apply edits_keep, edits_keep, edits_remove, edits_keep, edits_nil).
  destruct d as [|d]; [|lia]. inversion Hd as [|? ? ? ? H1| | |]; subst. inversion H1 as [|? ? ? ? H2| | |]; subst. inversion H2.
Defined.

(** The limit that is exceeded need not be the result. *)
Example distance_beyond_limit : string_distance [97; 97; 97; 97] [97] 1 = 3.
Proof. reflexivity. Qed.
