(* ===== verification/CommandUtil.v ===== *)
(** * Texts of command lines

    Models lib/cmd_util/csv.cpp, str_to_revision.cpp and word_wrapper.cpp: lists of values that are
    separated by commas, the numbers of revisions, and the lines of the text of [help]. *)

From S2P Require Import Prelude Chars.
Implicit Types (s text : list Z).

(** ** Lists of values *)

(** [std::string::find]: the part before the first [c] and the part behind it *)
Fixpoint find_char (c : Z) s : option (list Z * list Z) :=
  match s with
  | [] => None
  | x :: s => if x =? c then Some ([], s) else '(a, b) ← find_char c s; Some (x :: a, b)
  end.

(** [csv]: the loop, on what is left of the string *)
Fixpoint csv_loop (fuel : nat) s : outcome (list (list Z)) :=
  match fuel with
  | O => Throw OutOfFuel
  | S fuel =>
      match find_char 44 s with
      | None => Ok [s]
      | Some (field, rest) => l <-? csv_loop fuel rest ;; Ok (field :: l)
      end
  end.
Definition csv s : outcome (list (list Z)) := csv_loop (length s + 1) s.

Fixpoint join (l : list (list Z)) : list Z :=
  match l with
  | [] => []
  | [x] => x
  | x :: l => x ++ [44] ++ join l
  end.

Lemma find_char_none c s : find_char c s = None <-> c ∉ s.
Proof.
  induction s as [|x s IH]; cbn; [split; [intros _; apply not_elem_of_nil|done]|]. rewrite not_elem_of_cons.
  destruct (Z.eqb_spec x c) as [->|]; [split; [done|tauto]|]. destruct (find_char c s) as [[]|]; cbn; naive_solver.
Qed.
Lemma find_char_some c s a b : find_char c s = Some (a, b) -> s = a ++ c :: b /\ c ∉ a.
Proof.
  revert a. induction s as [|x s IH]; intros a; cbn; [done|]. destruct (Z.eqb_spec x c) as [->|].
  - intros [= <- <-]. split; [done|apply not_elem_of_nil].
  - destruct (find_char c s) as [[a' b']|]; cbn; [|done]. intros [= <- <-]. destruct (IH a' eq_refl) as [-> ?].
    split; [done|]. by apply not_elem_of_cons.
Qed.

(** [csv] returns the fields, none of which has a comma, that give the string when they are joined. *)
Lemma csv_loop_ok fuel s : (length s < fuel)%nat -> exists l, csv_loop fuel s = Ok l /\ l <> [] /\ Forall (fun x => 44 ∉ x) l /\ join l = s.
Proof.
  revert s. induction fuel as [|fuel IH]; intros s Hf; [lia|]. cbn. destruct (find_char 44 s) as [[a b]|] eqn:E.
  - apply find_char_some in E as [-> Ha]. rewrite length_app in Hf. cbn in Hf. destruct (IH b ltac:(lia)) as (l & -> & Hne & Hl & <-).
    exists (a :: l). split; [done|]. split; [done|]. split; [by constructor|]. by destruct l.
  - apply find_char_none in E. exists [s]. by repeat constructor.
Qed.

Lemma join_fields l l' : l <> [] -> l' <> [] -> Forall (fun x => 44 ∉ x) l -> Forall (fun x => 44 ∉ x) l' -> join l = join l' -> l = l'.
Proof.
  assert (forall x y s t, 44 ∉ x -> 44 ∉ y -> x ++ 44 :: s = y ++ 44 :: t -> x = y /\ s = t) as Hsplit.
  { induction x as [|a x IH]; intros [|b y] s t Hx Hy H; simplify_eq/=; rewrite ?not_elem_of_cons in *; [done|tauto..|].
    destruct (IH y s t); [tauto..|]. by subst. }
  assert (forall x y t, 44 ∉ x -> x <> y ++ 44 :: t) as Hno.
  { intros x y t Hx ->. apply Hx, elem_of_app. right. by left. }
  revert l'. induction l as [|x l IH]; intros l' Hl Hl' Hf Hf' E; [done|]. destruct l' as [|x' l']; [done|]. apply Forall_cons in Hf as [Hx Hf].
  apply Forall_cons in Hf' as [Hx' Hf']. destruct l as [|y l], l' as [|y' l']; cbn [join] in E.
  - by rewrite E.
  - by destruct (Hno _ _ _ Hx E).
  - by destruct (Hno _ _ _ Hx' (eq_sym E)).
  - apply Hsplit in E as [-> E]; [|done..]. f_equal. by apply IH.
Qed.

Lemma csv_join l : l <> [] -> Forall (fun x => 44 ∉ x) l -> csv (join l) = Ok l.
Proof.
  intros Hne Hl. destruct (csv_loop_ok (length (join l) + 1) (join l) ltac:(lia)) as (l' & E & Hne' & Hl' & Hj).
  unfold csv. rewrite E. f_equal. by apply join_fields.
Qed.

(** ** Revisions *)

Definition head_revision : Z := 2 ^ 32 - 1.

(** [trim_and_lowercase] *)
Definition trim_and_lowercase s : list Z := tolower <$> skip_space (reverse (skip_space (reverse s))).

(** [str_to_revision] *)
Definition str_to_revision s : option Z :=
  let arg := trim_and_lowercase s in
  if bool_decide (arg = [104; 101; 97; 100]) then Some head_revision
  else
    let cstr := c_str arg in
    let '(revision, endptr, _) := strtol cstr in
    if negb (length endptr =? length cstr)%nat && (length endptr =? 0)%nat && negb (revision =? 2 ^ 63 - 1) &&
       negb (revision =? - 2 ^ 63) && (revision >=? 0) && negb (revision =? head_revision) && (revision <? 2 ^ 32 - 1)
    then Some revision
    else None.

Lemma str_to_revision_range s r : str_to_revision s = Some r -> 0 <= r < 2 ^ 32.
Proof.
  unfold str_to_revision. case_bool_decide; [intros [= <-]; done|]. destruct (strtol _) as [[revision endptr] e].
  destruct (_ && _) eqn:E; [|done]. intros [= <-]. rewrite !andb_true_iff, Z.geb_leb, Z.leb_le, Z.ltb_lt in E. lia.
Qed.

Lemma skip_space_digits s : Forall (fun c => isdigit c = true) s -> skip_space s = s.
Proof.
  intros Hs. destruct Hs as [|c s Hc _]; [done|]. cbn. unfold isdigit, isspace in *.
  rewrite andb_true_iff, !Z.leb_le in Hc. destruct (Z.eqb_spec c 32); [lia|]. by rewrite (proj2 (Z.leb_gt c 13)), andb_false_r by lia.
Qed.
Lemma tolower_digits s : Forall (fun c => isdigit c = true) s -> tolower <$> s = s.
Proof.
  induction 1 as [|c s Hc _ IH]; [done|]. cbn. f_equal; [|done]. unfold isdigit, tolower in *. rewrite andb_true_iff, !Z.leb_le in Hc.
  by rewrite (proj2 (Z.leb_gt 65 c)) by lia.
Qed.
Lemma c_str_digits s : Forall (fun c => isdigit c = true) s -> c_str s = s.
Proof.
  induction 1 as [|c s Hc _ IH]; [done|]. cbn. unfold isdigit in Hc. rewrite andb_true_iff, !Z.leb_le in Hc.
  destruct (Z.eqb_spec c 0); [lia|]. by rewrite IH.
Qed.

(** The number of a revision is read back from its digits. *)
Lemma str_to_revision_digits n : 0 <= n < 2 ^ 32 - 1 -> str_to_revision (to_digits n) = Some n.
Proof.
  intros Hn. assert (Forall (fun c => isdigit c = true) (to_digits n)) as Hd by (apply digits_of_digits; constructor).
  assert (to_digits n <> []) as Hne by (apply digits_of_nonempty; right; lia).
  pose proof (digits_of_value 20 n [] ltac:(lia)) as Hv. fold (to_digits n) in Hv. unfold str_to_revision, trim_and_lowercase.
  rewrite (skip_space_digits (reverse (to_digits n))), reverse_involutive by (by rewrite Forall_reverse). rewrite skip_space_digits, tolower_digits by done.
  rewrite c_str_digits by done. destruct (to_digits n) as [|c s]; [done|]. apply Forall_cons in Hd as [Hc Hd].
  rewrite bool_decide_eq_false_2 by (intros E; injection E as ->; done). unfold strtol. rewrite skip_space_digits by (by constructor).
  pose proof Hc as Hc'. unfold isdigit in Hc'. rewrite andb_true_iff, !Z.leb_le in Hc'.
  destruct (Z.eqb_spec c 45); [lia|]. destruct (Z.eqb_spec c 43); [lia|]. rewrite Hc, Hv. cbn [digits_value].
  replace (n >? 2 ^ 63 - 1) with false by lia. replace (n <? - 2 ^ 63) with false by lia. unfold head_revision.
  replace (length (@nil Z) =? length (c :: s))%nat with false by done. cbn [length Nat.eqb negb andb].
  replace (n =? 2 ^ 63 - 1) with false by lia. replace (n =? - 2 ^ 63) with false by lia. replace (n >=? 0) with true by lia.
  replace (n =? 2 ^ 32 - 1) with false by lia. by replace (n <? 2 ^ 32 - 1) with true by lia.
Qed.

(** ** Lines of a text *)

Definition is_blank (c : Z) : bool := c =? 32.

(** The loops of [word_wrapper::next]: back to a space, on to a space, and over spaces *)
Fixpoint back_to_space text (end_pos : nat) : nat :=
  match end_pos with
  | O => O
  | S e => if negb (is_blank (default 0 (text !! end_pos))) then back_to_space text e else end_pos
  end.
Fixpoint on_to_space (rest : list Z) (end_pos : nat) : nat :=
  match rest with
  | c :: rest => if negb (is_blank c) then on_to_space rest (S end_pos) else end_pos
  | [] => end_pos
  end.
Fixpoint over_spaces (rest : list Z) (end_pos : nat) : nat :=
  match rest with
  | c :: rest => if is_blank c then over_spaces rest (S end_pos) else end_pos
  | [] => end_pos
  end.

(** The data members of [word_wrapper] that change *)
Record word_wrapper := WordWrapper { start_pos_ : nat; substr_ : list Z }.

(** [word_wrapper::next] *)
Definition next text (max_width start_pos : nat) : outcome word_wrapper :=
  let end_pos := Nat.min (start_pos + max_width) (length text) in
  let end_pos :=
    if (end_pos <? length text)%nat then
      let end_pos := back_to_space text end_pos in
      if (end_pos =? start_pos)%nat then on_to_space (drop end_pos text) end_pos else end_pos
    else end_pos in
  _ <-? oassert (start_pos <=? end_pos)%nat ;;
  Ok (WordWrapper (over_spaces (drop end_pos text) end_pos) (take (end_pos - start_pos) (drop start_pos text))).

(** The range from [word_wrapper (text, max_width)] to [word_wrapper::end (text, max_width)]: the lines of a
    text, from the object that is given on *)
Fixpoint wrap_loop (fuel : nat) text (max_width : nat) (w : word_wrapper) : outcome (list (list Z)) :=
  match fuel with
  | O => Throw OutOfFuel
  | S fuel =>
      if (start_pos_ w =? length text)%nat && (length (substr_ w) =? 0)%nat then Ok []
      else
        w' <-? next text max_width (start_pos_ w) ;;
        l <-? wrap_loop fuel text max_width w' ;;
        Ok (substr_ w :: l)
  end.
Definition wrap_text text (max_width : nat) : outcome (list (list Z)) :=
  w <-? next text max_width 0 ;; wrap_loop (length text + 2) text max_width w.

(** The text from position [p] on is empty or starts with a word. *)
Definition at_word text (p : nat) : Prop := (p <= length text)%nat /\ forall c, text !! p = Some c -> is_blank c = false.

(** No word is longer than a line. *)
Definition words_fit text (max_width : nat) : Prop :=
  forall p c, text !! p = Some c -> is_blank c = false -> (p + max_width < length text)%nat ->
    exists j b, (p < j <= p + max_width)%nat /\ text !! j = Some b /\ is_blank b = true.

Definition printed s : list Z := filter (fun c => is_blank c = false) s.

Lemma back_to_space_spec text e j b : text !! j = Some b -> is_blank b = true -> (j <= e)%nat ->
  (j <= back_to_space text e <= e)%nat.
Proof.
  intros Hj Hb. induction e as [|e IH]; intros Hje; cbn [back_to_space]; [lia|].
  destruct (decide (j = S e)) as [->|]; [rewrite Hj; cbn [from_option id]; rewrite Hb; cbn; lia|].
  destruct (negb _); [|lia]. specialize (IH ltac:(lia)). lia.
Qed.

Lemma over_spaces_spec rest e : exists k, over_spaces rest e = (e + k)%nat /\ printed (drop k rest) = printed rest /\ (k <= length rest)%nat /\
  forall c, rest !! k = Some c -> is_blank c = false.
Proof.
  revert e. induction rest as [|c rest IH]; intros e; cbn [over_spaces].
  { exists 0%nat. split_and!; [lia|done|lia|done]. }
  destruct (is_blank c) eqn:Hc.
  - destruct (IH (S e)) as (k & -> & Hp & Hk & Hw). exists (S k). cbn [drop length lookup list_lookup]. split_and!; [lia| |lia|done].
    rewrite Hp. unfold printed. rewrite filter_cons. case_decide; congruence.
  - exists 0%nat. split_and!; [lia|done|lia|]. intros c' [= <-]. done.
Qed.

(** [next] at a word: a line that is not too long, without loss *)
Lemma next_line_ok text w p : (0 < w)%nat -> words_fit text w -> at_word text p -> exists q sub,
  next text w p = Ok (WordWrapper q sub) /\ at_word text q /\ (length sub <= w)%nat /\
  (if decide (p = length text) then q = p /\ sub = [] else (p < q)%nat /\ sub <> []) /\
  printed (drop p text) = printed sub ++ printed (drop q text).
Proof.
  intros Hw Hfit [Hp Hat]. set (e := (let e := Nat.min (p + w) (length text) in
    if (e <? length text)%nat then
      let e := back_to_space text e in if (e =? p)%nat then on_to_space (drop e text) e else e
    else e)).
  assert ((p <= e <= p + w)%nat /\ (e <= length text)%nat /\ (if decide (p = length text) then e = p else (p < e)%nat)) as (He & Hel & Hpe).
  { subst e. cbn zeta. destruct (Nat.ltb_spec (Nat.min (p + w) (length text)) (length text)) as [Hlt|].
    - destruct (lookup_lt_is_Some_2 text p ltac:(lia)) as [c Hc]. destruct (Hfit p c Hc (Hat _ Hc) ltac:(lia)) as (j & b & Hj & Hb & Hbb).
      pose proof (back_to_space_spec _ (Nat.min (p + w) (length text)) _ _ Hb Hbb ltac:(lia)).
      destruct (Nat.eqb_spec (back_to_space text (Nat.min (p + w) (length text))) p); [lia|]. case_decide; lia.
    - case_decide; lia. }
  destruct (over_spaces_spec (drop e text) e) as (k & Ek & Hpk & Hk & Hwk). rewrite length_drop in Hk. rewrite drop_drop in Hpk.
  exists (e + k)%nat, (take (e - p) (drop p text)). unfold next. fold e. rewrite (proj2 (Nat.leb_le p e)) by lia. cbn [oassert obind].
  rewrite Ek. split; [done|]. rewrite lookup_drop in Hwk. split; [split; [lia|exact Hwk]|]. rewrite length_take, length_drop. split; [lia|]. split.
  - case_decide; [split; [lia|]; by replace (e - p)%nat with 0%nat by lia|]. split; [lia|].
    intros E. apply (f_equal length) in E. rewrite length_take, length_drop in E. cbn in E. lia.
  - rewrite Hpk. unfold printed. rewrite <- filter_app. f_equal. rewrite <- (take_drop (e - p) (drop p text)) at 1.
    rewrite drop_drop. by replace (p + (e - p))%nat with e by lia.
Qed.

(** A text whose words fit is broken into lines that fit, and all of its words are printed. *)
Lemma wrap_loop_ok fuel text w q sub : (0 < w)%nat -> words_fit text w -> at_word text q ->
  (length text - q + (if decide (sub = []) then 0 else 1) < fuel)%nat -> (sub = [] -> q = length text) -> (length sub <= w)%nat ->
  exists l, wrap_loop fuel text w (WordWrapper q sub) = Ok l /\ Forall (fun line => (length line <= w)%nat) l /\
    printed (concat l) = printed sub ++ printed (drop q text).
Proof.
  intros Hw Hfit. revert q sub. induction fuel as [|fuel IH]; intros q sub Hq Hf Hsub Hlen; [lia|]. cbn [wrap_loop start_pos_ substr_].
  destruct (Nat.eqb_spec q (length text)) as [->|Hne].
  - rewrite drop_all. destruct sub as [|c sub]; [by exists []|]. cbn [length Nat.eqb andb].
    destruct (next_line_ok text w (length text) Hw Hfit Hq) as (q & sub' & -> & Hq' & _ & He & _). rewrite decide_True in He by done. destruct He as [-> ->].
    cbn [obind]. destruct (IH (length text) []) as (l & -> & Hl & Hp); [done|rewrite decide_True by done; case_decide; [done|lia]|done|cbn; lia|].
    exists ((c :: sub) :: l). split; [done|]. split; [by constructor|]. rewrite drop_all in Hp. cbn [concat]. unfold printed in *.
    by rewrite filter_app, Hp.
  - cbn [andb]. destruct (next_line_ok text w q Hw Hfit Hq) as (q' & sub' & -> & Hq' & Hl' & He & Hp'). rewrite decide_False in He by done. cbn [obind].
    destruct He as [Hlt Hne']. assert (sub <> []) as Hs by (intros ->; by apply Hne, Hsub). rewrite decide_False in Hf by done.
    destruct Hq' as [Hq' Hqw']. destruct (IH q' sub') as (l & -> & Hl & Hp); [done|rewrite decide_False by done; lia|done|done|].
    exists (sub :: l). split; [done|]. split; [by constructor|]. cbn [concat]. rewrite Hp'. rewrite <- Hp. unfold printed. by rewrite filter_app.
Qed.

Lemma wrap_text_ok text w : (0 < w)%nat -> words_fit text w -> (forall c, text !! 0%nat = Some c -> is_blank c = false) ->
  exists l, wrap_text text w = Ok l /\ Forall (fun line => (length line <= w)%nat) l /\ printed (concat l) = printed text.
Proof.
  intros Hw Hfit H0. destruct (next_line_ok text w 0 Hw Hfit) as (q & sub & E & Hq & Hl & He & Hp); [by split; [lia|]|].
  destruct (wrap_loop_ok (length text + 2) text w q sub) as (l & E' & Hls & Hpl); [done|done|done| | |done|].
  - destruct (decide (sub = [])); lia.
  - intros ->. case_decide; [lia|]. by destruct He.
  - exists l. unfold wrap_text. rewrite E. cbn [obind]. rewrite E', Hpl. split; [done|]. split; [done|]. by rewrite <- Hp, drop_0.
Qed.

(** A word that is longer than a line and is not the first is a failed assertion: the search for a space does not
    stop at the start of the line. *)
Example long_word_asserts : wrap_text [97; 32; 98; 98; 98; 98] 3 = Throw Assert.
Proof. reflexivity. Qed.
