(* ===== verification/CommandLine.v ===== *)
(** * Command lines

    Models include/pstore/cmd_util/option.hpp, parser.hpp, command_line.hpp and help.hpp with the
    corresponding files of lib/cmd_util: the options of a program and the parser of its
    arguments. The options are objects that register themselves in one list ([option::all ()]); an
    option is designated by its position there, which is what an alias keeps of its original.
    Values are strings or of type [int] or an enumeration. The messages that are printed are
    values of type [message]. *)

From S2P Require Import Prelude Chars StringDistance.

(** ** Options *)

(** [num_occurrences_flag] *)
Inductive num_occurrences_flag := optional | zero_or_more | required | one_or_more.

#[global] Instance num_occurrences_flag_eq_dec : EqDecision num_occurrences_flag.
Proof. solve_decision. Defined.

(** A value of an option *)
Inductive cl_value := CString (s : list Z) | CInt (n : Z).

(** [parser]: for strings or for numbers, with its literals *)
Record cl_parser := Parser { for_strings : bool; literals : list (list Z * Z) }.

(** The subclasses of [option]: [opt], [opt<bool>], [list], [alias] and [help] *)
Inductive option_class :=
  | Opt (p : cl_parser) (value : cl_value)
  | OptBool (value : bool)
  | OptList (p : cl_parser) (values : list cl_value)
  | Alias (original : nat)
  | Help.

(** The data members of [option] *)
Record cl_option := Option {
  name_ : list Z;
  occurrences_ : num_occurrences_flag;
  positional_ : bool;
  num_occurrences_ : Z;
  class_ : option_class
}.

(** What is written to the error stream, and by [help] *)
Inductive message :=
  | UnknownArgument (name value : list Z) (nearest : option (list Z))
  | UnknownValue (value : list Z)
  | DoesNotTakeValue (name : list Z)
  | RequiresValue (name : list Z)
  | MustBeSpecified (name : list Z)
  | PositionalMissing (n : Z)
  | ShowHelp.

Record cl_state := ClState { all : list cl_option; errs : list message }.
Implicit Types os : list cl_option.

Definition write_message (m : message) : M cl_state unit := modify (fun s => ClState (all s) (errs s ++ [m])).
Definition set_all os : M cl_state unit := modify (fun s => ClState os (errs s)).

Definition get_option os (i : nat) : outcome cl_option :=
  match os !! i with
  | Some o => Ok o
  | None => Throw Dangling
  end.

(** The virtual functions of [alias] call those of its original; the fuel is the length of a chain of
    aliases. *)
Fixpoint resolve (fuel : nat) os (i : nat) : outcome cl_option :=
  o <-? get_option os i ;;
  match class_ o with
  | Alias original =>
      match fuel with
      | O => Throw OutOfFuel
      | S fuel => resolve fuel os original
      end
  | _ => Ok o
  end.

Definition get_num_occurrences_flag os i : outcome num_occurrences_flag :=
  o <-? resolve (length os) os i ;; Ok (occurrences_ o).
Definition get_num_occurrences os i : outcome Z := o <-? resolve (length os) os i ;; Ok (num_occurrences_ o).
Definition is_positional os i : outcome bool := o <-? resolve (length os) os i ;; Ok (positional_ o).
Definition takes_argument os i : outcome bool :=
  o <-? resolve (length os) os i ;;
  Ok match class_ o with OptBool _ | Help => false | _ => true end.

(** [is_satisfied] and [can_accept_another_occurrence]: the number of occurrences is the object's own *)
Definition is_satisfied os i : outcome bool :=
  o <-? get_option os i ;;
  f <-? get_num_occurrences_flag os i ;;
  Ok match f with
     | required => num_occurrences_ o >=? 1
     | one_or_more => num_occurrences_ o >? 1
     | optional | zero_or_more => true
     end.
Definition can_accept_another_occurrence os i : outcome bool :=
  o <-? get_option os i ;;
  f <-? get_num_occurrences_flag os i ;;
  Ok match f with
     | optional | required => num_occurrences_ o =? 0
     | zero_or_more | one_or_more => true
     end.

Definition set_class (c : option_class) (o : cl_option) : cl_option :=
  Option (name_ o) (occurrences_ o) (positional_ o) (num_occurrences_ o) c.
Definition count_occurrence (o : cl_option) : cl_option :=
  Option (name_ o) (occurrences_ o) (positional_ o) (wrap32 (num_occurrences_ o + 1)) (class_ o).

(** [add_occurrence], which [alias] inherits from [option] *)
Definition add_occurrence (i : nat) : M cl_state bool :=
  os <- gets all ;;
  o <- lift (get_option os i) ;;
  match class_ o with
  | Help => write_message ShowHelp ;;; ret false
  | OptBool b =>
      let o := count_occurrence o in
      let o := if num_occurrences_ o =? 1 then set_class (OptBool (negb b)) o else o in
      set_all (<[i := o]> os) ;;; ret true
  | _ => set_all (<[i := count_occurrence o]> os) ;;; ret true
  end.

(** ** Parsers of values *)

Definition find_literal (v : list Z) (l : list (list Z * Z)) : option (list Z * Z) :=
  List.find (fun lit => bool_decide (v = lit.1)) l.

(** [parser::operator()] and [parser<std::string>::operator()] *)
Definition parse_value (p : cl_parser) (v : list Z) : option cl_value :=
  if for_strings p then
    if negb (length (literals p) =? 0)%nat then
      match find_literal v (literals p) with
      | None => None
      | Some _ => Some (CString v)
      end
    else Some (CString v)
  else if (length (literals p) =? 0)%nat then
    if (length v =? 0)%nat then None
    else
      let '(res, str_end, erange) := strtol v in
      if negb (length str_end =? 0)%nat || erange || (res >? 2 ^ 31 - 1) || (res <? - 2 ^ 31) then None
      else Some (CInt res)
  else
    match find_literal v (literals p) with
    | None => None
    | Some lit => Some (CInt lit.2)
    end.

(** [value], on the option that the aliases lead to *)
Fixpoint set_value (fuel : nat) (i : nat) (v : list Z) : M cl_state bool :=
  os <- gets all ;;
  o <- lift (get_option os i) ;;
  match class_ o with
  | Opt p _ =>
      match parse_value p v with
      | Some x => set_all (<[i := set_class (Opt p x) o]> os) ;;; ret true
      | None => ret false
      end
  | OptBool _ | Help => ret false
  | OptList p l =>
      match parse_value p v with
      | Some x => set_all (<[i := set_class (OptList p (l ++ [x])) o]> os) ;;; ret true
      | None => ret false
      end
  | Alias original =>
      match fuel with
      | O => throw OutOfFuel
      | S fuel => set_value fuel original v
      end
  end.

Definition value (i : nat) (v : list Z) : M cl_state bool := os <- gets all ;; set_value (length os) i v.

(** ** The parser of arguments *)

(** [lookup_nearest_option] *)
Fixpoint nearest_loop os (arg : list Z) (best_option : option (list Z)) (best_distance : Z) : option (list Z) :=
  match os with
  | [] => best_option
  | opt :: os =>
      let distance := string_distance (name_ opt) arg best_distance in
      if distance <? best_distance then nearest_loop os arg (Some (name_ opt)) distance
      else nearest_loop os arg best_option best_distance
  end.
Definition lookup_nearest_option (arg : list Z) os : option (list Z) :=
  if (length arg =? 0)%nat then None else nearest_loop os arg None uint64_max.

(** [starts_with] *)
Fixpoint starts_with (s prefix : list Z) : bool :=
  match prefix, s with
  | [], _ => true
  | _ :: _, [] => false
  | p :: prefix, c :: s => if negb (c =? p) then false else starts_with s prefix
  end.

(** [find_handler] *)
Definition find_handler os (name : list Z) : option nat :=
  fst <$> list_find (fun o => name_ o = name) os.

(** [argument_is_positional] *)
Definition argument_is_positional (arg_name : list Z) : bool :=
  match arg_name with
  | [] => true
  | c :: _ => negb (c =? 45)
  end.

(** [handler_takes_argument] and [handler_set_value] *)
Definition handler_takes_argument os (handler : option nat) : outcome bool :=
  match handler with
  | None => Ok false
  | Some i => takes_argument os i
  end.
Definition handler_set_value (i : nat) (v : list Z) : M cl_state bool :=
  os <- gets all ;;
  t <- lift (takes_argument os i) ;;
  massert t ;;;
  b <- add_occurrence i ;;
  if negb b then ret false else value i v.

(** [get_option_and_value] *)
Fixpoint split_at_equals (s : list Z) : list Z * option (list Z) :=
  match s with
  | [] => ([], None)
  | c :: s =>
      if c =? 61 then ([], Some s)
      else let '(n, v) := split_at_equals s in (c :: n, v)
  end.
Definition get_option_and_value (arg : list Z) : outcome (list Z * option (list Z)) :=
  if starts_with arg [45; 45] then Ok (split_at_equals (drop 2 arg))
  else _ <-? oassert (starts_with arg [45]) ;; Ok (drop 1 arg, None).

(** [report_unknown_option] *)
Definition report_unknown_option (arg_name : list Z) (v : option (list Z)) : M cl_state unit :=
  os <- gets all ;;
  write_message (UnknownArgument arg_name (default [] v) (lookup_nearest_option arg_name os)).

(** [record_value_if_available] *)
Definition record_value_if_available (i : nat) (v : option (list Z)) : M cl_state (option nat * bool) :=
  os <- gets all ;;
  o <- lift (get_option os i) ;;
  t <- lift (takes_argument os i) ;;
  if t then
    match v with
    | Some v =>
        b <- handler_set_value i v ;;
        (if b then ret tt else write_message (UnknownValue v)) ;;;
        ret (None, b)
    | None => ret (Some i, true)
    end
  else
    match v with
    | Some _ => write_message (DoesNotTakeValue (name_ o)) ;;; ret (Some i, false)
    | None => b <- add_occurrence i ;; ret (None, b)
    end.

(** [process_single_dash]: the loop over the letters *)
Fixpoint single_dash_loop (arg_name : list Z) : M cl_state (option nat * bool) :=
  match arg_name with
  | [] => ret (None, true)
  | c :: arg_name =>
      os <- gets all ;;
      let handler := find_handler os [c] in
      match handler with
      | None => report_unknown_option [c] None ;;; ret (None, false)
      | Some i =>
          p <- lift (is_positional os i) ;;
          if p then report_unknown_option [c] None ;;; ret (Some i, false)
          else
            t <- lift (takes_argument os i) ;;
            if t then
              match arg_name with
              | [] => ret (Some i, true)
              | _ => b <- handler_set_value i arg_name ;; ret (None, b)
              end
            else
              b <- add_occurrence i ;;
              if b then single_dash_loop arg_name else ret (None, false)
      end
  end.
Definition process_single_dash (arg_name : list Z) : M cl_state (option nat * bool) :=
  massert (starts_with arg_name [45]) ;;;
  single_dash_loop (drop 1 arg_name).

(** [sticky_bool<false>]: an assignment to a variable that is false is ignored *)
Definition sticky (v b : bool) : bool := if eqb v false then v else b.

(** [parse_option_arguments]: the loop over the arguments, and the whole. The arguments that are left are
    the positional ones. *)
Fixpoint option_arguments_loop (args : list (list Z)) (handler : option nat) (ok : bool)
    : M cl_state (list (list Z) * option nat * bool) :=
  match args with
  | [] => ret ([], handler, ok)
  | arg_name :: rest =>
      os <- gets all ;;
      t <- lift (handler_takes_argument os handler) ;;
      match handler, t with
      | Some i, true =>
          b <- handler_set_value i arg_name ;;
          option_arguments_loop rest None (sticky ok b)
      | _, _ =>
          if bool_decide (arg_name = [45; 45]) then ret (rest, handler, ok)
          else if argument_is_positional arg_name then ret (args, handler, ok)
          else if starts_with arg_name [45; 45] then
            '(name, v) <- lift (get_option_and_value arg_name) ;;
            match find_handler os name with
            | None => report_unknown_option name v ;;; option_arguments_loop rest None (sticky ok false)
            | Some i =>
                p <- lift (is_positional os i) ;;
                if p then report_unknown_option name v ;;; option_arguments_loop rest (Some i) (sticky ok false)
                else
                  '(handler, b) <- record_value_if_available i v ;;
                  option_arguments_loop rest handler (sticky ok b)
            end
          else
            '(handler, b) <- process_single_dash arg_name ;;
            option_arguments_loop rest handler (sticky ok b)
      end
  end.

Definition parse_option_arguments (args : list (list Z)) : M cl_state (list (list Z) * bool) :=
  '(rest, handler, ok) <- option_arguments_loop args None true ;;
  os <- gets all ;;
  match handler with
  | None => ret (rest, ok)
  | Some i =>
      t <- lift (takes_argument os i) ;;
      if t then
        o <- lift (get_option os i) ;;
        write_message (RequiresValue (name_ o)) ;;; ret (rest, sticky ok false)
      else ret (rest, ok)
  end.

(** The first positional option from position [i] on *)
Fixpoint find_positional (fuel : nat) os (i : nat) : outcome (option nat) :=
  match fuel with
  | O => Ok None
  | S fuel =>
      p <-? is_positional os i ;;
      if p then Ok (Some i) else find_positional fuel os (S i)
  end.

(** [parse_positional_arguments]: the loop, and the whole *)
Fixpoint positional_loop (args : list (list Z)) (it : option nat) (ok : bool) : M cl_state bool :=
  match args, it with
  | arg :: args, Some i =>
      os <- gets all ;;
      p <- lift (is_positional os i) ;;
      massert p ;;;
      ok <- add_occurrence i ;;
      b <- value i arg ;;
      let ok := if negb b then false else ok in
      os <- gets all ;;
      more <- lift (can_accept_another_occurrence os i) ;;
      it <- (if negb more then lift (find_positional (length os - S i) os (S i)) else ret it) ;;
      positional_loop args it ok
  | _, _ => ret ok
  end.
Definition parse_positional_arguments (args : list (list Z)) : M cl_state bool :=
  os <- gets all ;;
  it <- lift (find_positional (length os) os 0) ;;
  positional_loop args it true.

(** [check_for_missing]: the loop over the options, and the whole *)
Fixpoint missing_loop (n : nat) (i : nat) (ok : bool) (positional_missing : Z) : M cl_state (bool * Z) :=
  match n with
  | O => ret (ok, positional_missing)
  | S n =>
      os <- gets all ;;
      f <- lift (get_num_occurrences_flag os i) ;;
      c <- lift (get_num_occurrences os i) ;;
      match f with
      | required | one_or_more =>
          if c =? 0 then
            p <- lift (is_positional os i) ;;
            o <- lift (get_option os i) ;;
            if p then missing_loop n (S i) false (positional_missing + 1)
            else write_message (MustBeSpecified (name_ o)) ;;; missing_loop n (S i) false positional_missing
          else missing_loop n (S i) ok positional_missing
      | optional | zero_or_more => missing_loop n (S i) ok positional_missing
      end
  end.
Definition check_for_missing : M cl_state bool :=
  os <- gets all ;;
  '(ok, positional_missing) <- missing_loop (length os) 0 true 0 ;;
  (if positional_missing =? 0 then ret tt else write_message (PositionalMissing positional_missing)) ;;;
  ret ok.

(** [parse_command_line_options], behind the name of the program; the option [help] registers itself *)
Definition help_option : cl_option := Option [104; 101; 108; 112] optional false 0 Help.
Definition parse_command_line_options (args : list (list Z)) : M cl_state bool :=
  modify (fun s => ClState (all s ++ [help_option]) (errs s)) ;;;
  '(rest, ok) <- parse_option_arguments args ;;
  if negb ok then ret false
  else
    ok <- parse_positional_arguments rest ;;
    if negb ok then ret false else check_for_missing.
