(* ===== verification/CommandLineSpec.v ===== *)
(** * What a command line means

    The settings of a command line, the arguments that express them, and what each of them does to
    the option that it names. The parser of CommandLine.v is shown to decode the arguments. *)

From S2P Require Import Prelude Chars StringDistance CommandLine.
Implicit Types (os : list cl_option) (i : nat) (v : list Z).

(** ** Effects on an option *)

(** An option without a value is given: the value changes at its first occurrence. An alias counts the
    occurrence itself, and its original does not learn of it. *)
Definition flag_given (o : cl_option) : cl_option :=
  match class_ o with
  | OptBool b =>
      let o := count_occurrence o in
      if num_occurrences_ o =? 1 then set_class (OptBool (negb b)) o else o
  | Alias _ => count_occurrence o
  | _ => o
  end.

(** An option gets a value, which a list appends. *)
Definition set_to v (o : cl_option) : cl_option :=
  match class_ o with
  | Opt p _ =>
      match parse_value p v with
      | Some x => set_class (Opt p x) o
      | None => o
      end
  | OptList p l =>
      match parse_value p v with
      | Some x => set_class (OptList p (l ++ [x])) o
      | None => o
      end
  | _ => o
  end.

(** The option that an option stands for: itself, or what the chain of its aliases leads to *)
Fixpoint target_from (fuel : nat) os i : nat :=
  match class_ <$> os !! i, fuel with
  | Some (Alias original), S fuel => target_from fuel os original
  | _, _ => i
  end.
Definition target os i : nat := target_from (length os) os i.
Definition resolved os i : option cl_option :=
  match resolve (length os) os i with Ok o => Some o | Throw _ => None end.

(** An option is given with a value: the occurrence is its own, the value is that of the option it stands for. *)
Definition assigned v i os : list cl_option := alter (set_to v) (target os i) (alter count_occurrence i os).

Definition is_flag (o : cl_option) : bool := match class_ o with OptBool _ => true | _ => false end.
Definition accepts v (o : cl_option) : bool :=
  match class_ o with
  | Opt p _ | OptList p _ => match parse_value p v with Some _ => true | None => false end
  | _ => false
  end.
Definition many (o : cl_option) : bool :=
  match occurrences_ o with zero_or_more | one_or_more => true | optional | required => false end.

(** ** Settings *)

(** The ways to give options: [--name], [--name=value], [--name value], [-abc], [-abcnvalue] and
    [-abcn value] *)
Inductive setting :=
  | LongFlag (i : nat)
  | LongEq (i : nat) (v : list Z)
  | LongSep (i : nat) (v : list Z)
  | Flags (fs : list nat)
  | ShortValue (fs : list nat) (i : nat) (v : list Z)
  | ShortSep (fs : list nat) (i : nat) (v : list Z).

Definition name_of os i : list Z := from_option name_ [] (os !! i).
Definition letters os (fs : list nat) : list Z := concat (name_of os <$> fs).

Definition arguments os (s : setting) : list (list Z) :=
  match s with
  | LongFlag i => [[45; 45] ++ name_of os i]
  | LongEq i v => [[45; 45] ++ name_of os i ++ [61] ++ v]
  | LongSep i v => [[45; 45] ++ name_of os i; v]
  | Flags fs => [[45] ++ letters os fs]
  | ShortValue fs i v => [[45] ++ letters os fs ++ name_of os i ++ v]
  | ShortSep fs i v => [[45] ++ letters os fs ++ name_of os i; v]
  end.

Definition flags_effect os (fs : list nat) : list cl_option := foldl (fun os i => alter flag_given i os) os fs.
Definition effect os (s : setting) : list cl_option :=
  match s with
  | LongFlag i => alter flag_given i os
  | LongEq i v | LongSep i v => assigned v i os
  | Flags fs => flags_effect os fs
  | ShortValue fs i v | ShortSep fs i v => assigned v i (flags_effect os fs)
  end.

(** The setting names options of the table that it can be applied to. *)
Definition usable (P : cl_option -> bool) os i : bool :=
  match os !! i, resolved os i with
  | Some o, Some t => P t && negb (positional_ t) && bool_decide (find_handler os (name_ o) = Some i)
  | _, _ => false
  end.
Definition long_name os i : bool := negb (bool_decide (name_of os i = [])) && negb (bool_decide (61 ∈ name_of os i)).
Definition short_name os i : bool := (length (name_of os i) =? 1)%nat.
Definition short_flag os i : bool := usable is_flag os i && short_name os i.
Definition dashless (s : list Z) : bool := match s with [] => false | c :: _ => negb (c =? 45) end.

Definition valid os (s : setting) : bool :=
  match s with
  | LongFlag i => usable is_flag os i && long_name os i
  | LongEq i v | LongSep i v => usable (accepts v) os i && long_name os i
  | Flags fs => forallb (short_flag os) fs && dashless (letters os fs)
  | ShortValue fs i v =>
      forallb (short_flag os) fs && usable (accepts v) os i && short_name os i &&
      dashless (letters os fs ++ name_of os i) && negb (bool_decide (v = []))
  | ShortSep fs i v =>
      forallb (short_flag os) fs && usable (accepts v) os i && short_name os i && dashless (letters os fs ++ name_of os i)
  end.

(** The positional arguments, behind [--] or not *)
Definition positional_arguments (explicit : bool) (args : list (list Z)) : list (list Z) :=
  if explicit then [45; 45] :: args else args.
Definition positional_ok (explicit : bool) (args : list (list Z)) : bool :=
  explicit || match args with [] => true | a :: _ => argument_is_positional a end.

(** The positional options in order, and the positional arguments one after the other: an option that can occur
    more than once takes all that are left, and those that no option is left for are ignored. *)
Definition positional_at os i : bool := from_option positional_ false (resolved os i).
Definition positionals os : list nat := filter (fun i => positional_at os i = true) (seq 0 (length os)).
Definition next_positionals os (ps : list nat) : list nat :=
  match ps with
  | i :: ps' => if from_option many false (resolved os i) then ps else ps'
  | [] => []
  end.
Fixpoint assign os (ps : list nat) (args : list (list Z)) : list cl_option :=
  match args, ps with
  | a :: args, i :: _ => assign (assigned a i os) (next_positionals os ps) args
  | _, _ => os
  end.
Fixpoint assignable os (ps : list nat) (args : list (list Z)) : bool :=
  match args, ps with
  | a :: args, i :: _ => from_option (accepts a) false (resolved os i) && assignable os (next_positionals os ps) args
  | _, _ => true
  end.

(** A mandatory option was given, to its own name. *)
Definition given os i : bool :=
  match resolved os i with
  | Some o =>
      match occurrences_ o with
      | required | one_or_more => negb (num_occurrences_ o =? 0)
      | optional | zero_or_more => true
      end
  | None => false
  end.
Definition all_given os : bool := forallb (given os) (seq 0 (length os)).

(** The options of a program that was just started: none has occurred, and aliases lead to an option. *)
Definition fresh (o : cl_option) : bool := num_occurrences_ o =? 0.
Definition rooted os : bool := forallb (fun i => bool_decide (is_Some (resolved os i))) (seq 0 (length os)).

(** ** Tables that differ in the values *)

(** What parsing does not change of an option *)
Definition shape (o : cl_option) : cl_option :=
  Option (name_ o) (occurrences_ o) (positional_ o) 0
    match class_ o with
    | Opt p _ => Opt p (CInt 0)
    | OptBool _ => OptBool false
    | OptList p _ => OptList p []
    | c => c
    end.
Definition similar os os' : Prop := shape <$> os = shape <$> os'.

#[global] Instance similar_equiv : Equivalence similar.
Proof. split; unfold similar; [intros ?|intros ? ?|intros ? ? ?]; congruence. Qed.

Lemma shape_flag_given o : shape (flag_given o) = shape o.
Proof. unfold flag_given, shape. destruct o as [n f p c k]. cbn. destruct k; try done. by destruct (_ =? 1). Qed.
Lemma shape_set_to v o : shape (set_to v o) = shape o.
Proof. unfold set_to, shape. destruct o as [n f p c k]. cbn. destruct k; try done; by destruct (parse_value _ v). Qed.
Lemma shape_count o : shape (count_occurrence o) = shape o.
Proof. done. Qed.

Lemma similar_alter f i os : (forall o, shape (f o) = shape o) -> similar (alter f i os) os.
Proof.
  intros Hf. unfold similar. revert i. induction os as [|o os IH]; intros [|i]; cbn; [done..| |].
  - by rewrite Hf.
  - unfold fmap in IH. f_equal. apply IH.
Qed.
Lemma similar_assigned v i os : similar (assigned v i os) os.
Proof. unfold assigned. etrans; apply similar_alter; [apply shape_set_to|apply shape_count]. Qed.
Lemma similar_flags os fs : similar (flags_effect os fs) os.
Proof.
  revert os. induction fs as [|i fs IH]; intros os; [done|]. cbn [flags_effect foldl]. etrans; [apply IH|].
  apply similar_alter, shape_flag_given.
Qed.
Lemma similar_effect os s : similar (effect os s) os.
Proof.
  destruct s; cbn [effect]; first [apply similar_flags | apply similar_alter, shape_flag_given | apply similar_assigned
    | etrans; [apply similar_assigned|apply similar_flags]].
Qed.

Section similar.
Context {os os' : list cl_option} (Hs : similar os os').

Lemma similar_length : length os = length os'.
Proof. apply (f_equal length) in Hs. by rewrite !length_fmap in Hs. Qed.
Lemma similar_lookup i : shape <$> os !! i = shape <$> os' !! i.
Proof. apply (f_equal (lookup i)) in Hs. by rewrite !list_lookup_fmap in Hs. Qed.
Lemma similar_name_of i : name_of os i = name_of os' i.
Proof.
  unfold name_of. pose proof (similar_lookup i) as H. destruct (os !! i), (os' !! i); try done. cbn in *.
  by injection H as ->.
Qed.
Lemma similar_letters fs : letters os fs = letters os' fs.
Proof. unfold letters. f_equal. apply list_fmap_ext. intros. apply similar_name_of. Qed.
Lemma similar_find_handler n : find_handler os n = find_handler os' n.
Proof.
  unfold find_handler. revert os' Hs. unfold similar. induction os as [|o l IH]; intros [|o' l'] H; try done.
  cbn in H. injection H as Hn _ _ _ Hl. cbn. rewrite Hn. case_decide; [done|]. specialize (IH _ Hl).
  destruct (list_find _ l) as [[]|], (list_find _ l') as [[]|]; cbn in *; congruence.
Qed.
Lemma similar_resolve fuel i :
  match resolve fuel os i, resolve fuel os' i with
  | Ok o, Ok o' => shape o = shape o'
  | Throw x, Throw x' => x = x'
  | _, _ => False
  end.
Proof.
  revert i. induction fuel as [|fuel IH]; intros i; cbn [resolve]; unfold get_option; pose proof (similar_lookup i) as H;
    destruct (os !! i) as [o|], (os' !! i) as [o'|]; try done; cbn [obind]; cbn in H;
    assert (shape o = shape o') as E by congruence; pose proof E as E'; unfold shape in E; injection E as _ _ _ E;
    destruct (class_ o), (class_ o'); try done. injection E as ->. apply IH.
Qed.
Lemma similar_resolved i : shape <$> resolved os i = shape <$> resolved os' i.
Proof.
  unfold resolved. rewrite <- similar_length. pose proof (similar_resolve (length os) i) as H.
  destruct (resolve _ os i), (resolve _ os' i); try done. cbn. by f_equal.
Qed.
Lemma similar_at {A} (f : cl_option -> A) (d : A) i : (forall o o', shape o = shape o' -> f o = f o') ->
  from_option f d (resolved os i) = from_option f d (resolved os' i).
Proof.
  intros Hf. pose proof (similar_resolved i) as H. destruct (resolved os i), (resolved os' i); try done. cbn in *. apply Hf. congruence.
Qed.
Lemma similar_target_from fuel i : target_from fuel os i = target_from fuel os' i.
Proof.
  revert i. induction fuel as [|fuel IH]; intros i; cbn [target_from]; pose proof (similar_lookup i) as H;
    destruct (os !! i) as [o|], (os' !! i) as [o'|]; try done; cbn in *; assert (shape o = shape o') as E by congruence;
    unfold shape in E; injection E as _ _ _ E; destruct (class_ o), (class_ o'); try done. injection E as ->. apply IH.
Qed.
Lemma similar_target i : target os i = target os' i.
Proof. unfold target. rewrite similar_length. apply similar_target_from. Qed.
Lemma similar_usable P i : (forall o o', shape o = shape o' -> P o = P o') -> usable P os i = usable P os' i.
Proof.
  intros HP. unfold usable. pose proof (similar_lookup i) as H. pose proof (similar_resolved i) as Hr.
  destruct (os !! i) as [o|], (os' !! i) as [o'|]; try done. destruct (resolved os i) as [t|], (resolved os' i) as [t'|]; try done.
  cbn in H, Hr. assert (shape o = shape o') as E by congruence. assert (shape t = shape t') as Et by congruence.
  rewrite (HP _ _ Et), similar_find_handler. injection E as -> _ _ _. by injection Et as _ _ -> _.
Qed.
End similar.

Lemma accepts_shape v o o' : shape o = shape o' -> accepts v o = accepts v o'.
Proof. unfold shape, accepts. intros [= _ _ _ H]. destruct (class_ o), (class_ o'); try done; by injection H as ->. Qed.
Lemma is_flag_shape o o' : shape o = shape o' -> is_flag o = is_flag o'.
Proof. unfold shape, is_flag. intros [= _ _ _ H]. by destruct (class_ o), (class_ o'). Qed.

Lemma similar_short_flag os os' i : similar os os' -> short_flag os i = short_flag os' i.
Proof. intros Hs. unfold short_flag, short_name. by rewrite (similar_usable Hs _ _ is_flag_shape), (similar_name_of Hs). Qed.
Lemma similar_flags_valid os os' fs : similar os os' -> forallb (short_flag os) fs = forallb (short_flag os') fs.
Proof. intros Hs. induction fs as [|i fs IH]; [done|]. cbn. by rewrite IH, (similar_short_flag _ _ _ Hs). Qed.
Lemma similar_valid os os' s : similar os os' -> valid os s = valid os' s.
Proof.
  intros Hs. destruct s; cbn [valid]; unfold long_name, short_name;
    rewrite ?(similar_flags_valid _ _ _ Hs), ?(similar_usable Hs _ _ is_flag_shape), ?(similar_usable Hs _ _ (accepts_shape _)),
      ?(similar_name_of Hs), ?(similar_letters Hs); done.
Qed.
Lemma similar_arguments os os' s : similar os os' -> arguments os s = arguments os' s.
Proof. intros Hs. destruct s; cbn [arguments]; by rewrite ?(similar_name_of Hs), ?(similar_letters Hs). Qed.

(** ** The parser on a setting *)

Lemma list_alter_lookup {A} (f : A -> A) (l : list A) i x : l !! i = Some x -> alter f i l = <[i := f x]> l.
Proof. revert i. induction l as [|y l IH]; intros [|i]; cbn; [done..|congruence|]. intros H. by rewrite <- IH. Qed.

(** What an option leads to *)
Lemma resolved_ok os i t : resolved os i = Some t -> resolve (length os) os i = Ok t.
Proof. unfold resolved. destruct (resolve _ os i); [|done]. congruence. Qed.
Lemma resolve_root fuel os i t : resolve fuel os i = Ok t -> (forall k, class_ t <> Alias k) /\ os !! target_from fuel os i = Some t.
Proof.
  revert i. induction fuel as [|fuel IH]; intros i; cbn [resolve target_from]; unfold get_option; destruct (os !! i) as [o|] eqn:Ho; try done;
    cbn; destruct (class_ o) eqn:E; try done; try (intros [= <-]; split; [by rewrite E|done]). apply IH.
Qed.
Lemma resolved_self os i o t : os !! i = Some o -> resolved os i = Some t -> (forall k, class_ o <> Alias k) -> t = o.
Proof.
  intros Ho Ht Hk. apply resolved_ok in Ht. destruct (length os); cbn in Ht; unfold get_option in Ht; rewrite Ho in Ht; cbn in Ht;
    destruct (class_ o) eqn:E; try congruence; by destruct (Hk original).
Qed.

(** What [usable] says of an option *)
Lemma usable_inv P os i : usable P os i = true ->
  exists o t, os !! i = Some o /\ resolved os i = Some t /\ P t = true /\ positional_ t = false /\ find_handler os (name_of os i) = Some i.
Proof.
  unfold usable, name_of. destruct (os !! i) as [o|] eqn:Ho; [|done]. destruct (resolved os i) as [t|]; [|done].
  intros H. apply andb_true_iff in H as [H Hf].
  apply andb_true_iff in H as [HP Hp]. exists o, t. apply bool_decide_eq_true in Hf. by rewrite negb_true_iff in Hp.
Qed.

Lemma takes_argument_flag os i t : resolved os i = Some t -> is_flag t = true -> takes_argument os i = Ok false.
Proof. intros Ht Hf. unfold takes_argument. rewrite (resolved_ok _ _ _ Ht). cbn. unfold is_flag in Hf. by destruct (class_ t). Qed.
Lemma takes_argument_accepts os i t v : resolved os i = Some t -> accepts v t = true -> takes_argument os i = Ok true.
Proof. intros Ht Hf. unfold takes_argument. rewrite (resolved_ok _ _ _ Ht). cbn. unfold accepts in Hf. by destruct (class_ t). Qed.
Lemma is_positional_resolved os i t : resolved os i = Some t -> is_positional os i = Ok (positional_ t).
Proof. intros Ht. unfold is_positional. by rewrite (resolved_ok _ _ _ Ht). Qed.

Lemma add_occurrence_flag os es i t : resolved os i = Some t -> is_flag t = true ->
  add_occurrence i (ClState os es) = (Ok true, ClState (alter flag_given i os) es).
Proof.
  intros Ht Hf. destruct (os !! i) as [o|] eqn:Ho.
  2: { apply resolved_ok in Ht. destruct (length os); cbn in Ht; unfold get_option in Ht; by rewrite Ho in Ht. }
  rewrite (list_alter_lookup _ _ _ _ Ho). unfold add_occurrence, bind, gets, lift, get_option. cbn. rewrite Ho.
  unfold flag_given. destruct (class_ o) eqn:E; try done; rewrite (resolved_self _ _ _ _ Ho Ht) in Hf by (by rewrite E);
    unfold is_flag in Hf; by rewrite E in Hf.
Qed.

Lemma add_occurrence_accepts os es i t v : resolved os i = Some t -> accepts v t = true ->
  add_occurrence i (ClState os es) = (Ok true, ClState (alter count_occurrence i os) es).
Proof.
  intros Ht Ha. destruct (os !! i) as [o|] eqn:Ho.
  2: { apply resolved_ok in Ht. destruct (length os); cbn in Ht; unfold get_option in Ht; by rewrite Ho in Ht. }
  rewrite (list_alter_lookup _ _ _ _ Ho). unfold add_occurrence, bind, gets, lift, get_option. cbn. rewrite Ho.
  destruct (class_ o) eqn:E; try done; rewrite (resolved_self _ _ _ _ Ho Ht) in Ha by (by rewrite E);
    unfold accepts in Ha; by rewrite E in Ha.
Qed.

(** [value] sets the option at the end of the chain. *)
Lemma set_value_ok fuel os es i t v : resolve fuel os i = Ok t -> accepts v t = true ->
  set_value fuel i v (ClState os es) = (Ok true, ClState (alter (set_to v) (target_from fuel os i) os) es).
Proof.
  intros Ht Ha. revert i Ht.
  assert (forall i o, os !! i = Some o -> (forall k, class_ o <> Alias k) -> accepts v o = true ->
    (match class_ o with
     | Opt p _ => match parse_value p v with Some x => set_all (<[i := set_class (Opt p x) o]> os) ;;; ret true | None => ret false end
     | OptList p l => match parse_value p v with Some x => set_all (<[i := set_class (OptList p (l ++ [x])) o]> os) ;;; ret true | None => ret false end
     | _ => ret false end) (ClState os es) = (Ok true, ClState (alter (set_to v) i os) es)) as Hset.
  { intros i o Ho Hk Hacc. rewrite (list_alter_lookup _ _ _ _ Ho). unfold accepts, set_to in *.
    destruct (class_ o) eqn:E; try done; by destruct (parse_value p v). }
  induction fuel as [|fuel IH]; intros i; cbn [resolve set_value target_from]; unfold bind at 1, gets at 1, bind at 1, lift at 1; cbn [all];
    unfold get_option; destruct (os !! i) as [o|] eqn:Ho; try done; cbn [obind fmap option_fmap option_map].
  - destruct (class_ o) eqn:E; try done; intros [= ->]; pose proof (Hset i t Ho ltac:(by rewrite E) Ha) as H; rewrite E in H; exact H.
  - destruct (class_ o) eqn:E; try (intros [= ->]; pose proof (Hset i t Ho ltac:(by rewrite E) Ha) as H; rewrite E in H; exact H). apply IH.
Qed.

Lemma resolved_similar os os' i t v : similar os' os -> resolved os i = Some t -> accepts v t = true ->
  exists t', resolved os' i = Some t' /\ accepts v t' = true.
Proof.
  intros Hs Ht Ha. pose proof (similar_resolved Hs i) as H. rewrite Ht in H. destruct (resolved os' i) as [t'|]; [|done]. exists t'. split; [done|].
  cbn in H. rewrite (accepts_shape v t' t); [done|congruence].
Qed.

Lemma value_after_occurrence os es i t v : resolved os i = Some t -> accepts v t = true ->
  value i v (ClState (alter count_occurrence i os) es) = (Ok true, ClState (assigned v i os) es).
Proof.
  intros Ht Ha. set (os1 := alter count_occurrence i os). assert (similar os1 os) as Hs by apply similar_alter, shape_count.
  destruct (resolved_similar os os1 i t v Hs Ht Ha) as (t' & Ht' & Ha'). unfold value. rewrite bind_gets. cbn [all].
  rewrite (set_value_ok _ _ _ _ _ _ (resolved_ok _ _ _ Ht') Ha'). unfold assigned. fold os1. fold (target os1 i). by rewrite (similar_target Hs).
Qed.

Lemma handler_set_value_ok os es i t v : resolved os i = Some t -> accepts v t = true ->
  handler_set_value i v (ClState os es) = (Ok true, ClState (assigned v i os) es).
Proof.
  intros Ht Ha. unfold handler_set_value. unfold bind at 1 2, gets at 1, lift at 1. cbn [all].
  rewrite (takes_argument_accepts _ _ _ _ Ht Ha). unfold bind, massert, oassert, lift.
  rewrite (add_occurrence_accepts _ _ _ _ _ Ht Ha). by apply (value_after_occurrence _ _ _ t).
Qed.

(** The letters of a cluster of options without values are consumed. *)
Lemma single_dash_flags fs os0 os es rest : similar os os0 -> forallb (short_flag os) fs = true ->
  single_dash_loop (letters os0 fs ++ rest) (ClState os es) = single_dash_loop rest (ClState (flags_effect os fs) es).
Proof.
  revert os. induction fs as [|i fs IH]; intros os Hs Hv; [done|]. cbn [forallb] in Hv. apply andb_true_iff in Hv as [Hi Hv].
  unfold short_flag, short_name in Hi. apply andb_true_iff in Hi as [Hu Hn].
  apply usable_inv in Hu as (o & t & Ho & Ht & Hf & Hp & Hh). rewrite (similar_name_of Hs) in Hn, Hh.
  unfold letters in *. cbn [fmap list_fmap concat]. destruct (name_of os0 i) as [|c [|]] eqn:En; try done. cbn [app single_dash_loop].
  unfold bind at 1, gets at 1. cbn [all]. rewrite Hh. unfold bind at 1, lift at 1.
  rewrite (is_positional_resolved _ _ _ Ht), Hp. unfold bind at 1, lift at 1.
  rewrite (takes_argument_flag _ _ _ Ht Hf). unfold bind at 1. rewrite (add_occurrence_flag _ _ _ _ Ht Hf).
  assert (similar (alter flag_given i os) os) as Ha by apply similar_alter, shape_flag_given. cbn [flags_effect foldl]. apply IH.
  - by etrans.
  - by rewrite (similar_flags_valid _ _ _ Ha).
Qed.

(** The letter of an option with a value ends the cluster. *)
Lemma single_dash_value os0 os es i v rest : similar os os0 -> usable (accepts v) os i = true -> short_name os i = true ->
  single_dash_loop (name_of os0 i ++ rest) (ClState os es) =
    match rest with
    | [] => (Ok (Some i, true), ClState os es)
    | _ => (b <- handler_set_value i rest ;; ret (None, b)) (ClState os es)
    end.
Proof.
  intros Hs Hu Hn. apply usable_inv in Hu as (o & t & Ho & Ht & Ha & Hp & Hh). unfold short_name in Hn. rewrite (similar_name_of Hs) in Hn, Hh.
  destruct (name_of os0 i) as [|c [|]]; try done. cbn [app single_dash_loop].
  unfold bind at 1, gets at 1. cbn [all]. rewrite Hh. unfold bind at 1, lift at 1.
  rewrite (is_positional_resolved _ _ _ Ht), Hp. unfold bind at 1, lift at 1.
  rewrite (takes_argument_accepts _ _ _ _ Ht Ha). by destruct rest.
Qed.

(** An argument that starts with one dash *)
Lemma loop_single_dash os es s args : dashless s = true ->
  option_arguments_loop (([45] ++ s) :: args) None true (ClState os es) =
    ('(handler, b) <- single_dash_loop s ;; option_arguments_loop args handler b) (ClState os es).
Proof.
  intros Hd. destruct s as [|c s]; [done|]. cbn in Hd. cbn [app option_arguments_loop]. unfold bind at 1, gets at 1.
  unfold bind at 1, lift at 1. cbn [handler_takes_argument]. rewrite bool_decide_eq_false_2 by (intros [= ->]; done).
  cbn [argument_is_positional Z.eqb Pos.eqb negb starts_with]. rewrite Hd. unfold process_single_dash. cbn. unfold bind.
  cbn. destruct (single_dash_loop (c :: s) (ClState os es)) as [[[h b]|] ?]; [|done]. by destruct b.
Qed.

Lemma split_at_equals_none s : 61 ∉ s -> split_at_equals s = (s, None).
Proof.
  induction s as [|c s IH]; intros Hs; [done|]. cbn. apply not_elem_of_cons in Hs as [Hc Hs].
  destruct (Z.eqb_spec c 61); [congruence|]. by rewrite IH.
Qed.
Lemma split_at_equals_some s v : 61 ∉ s -> split_at_equals (s ++ 61 :: v) = (s, Some v).
Proof.
  induction s as [|c s IH]; intros Hs; [done|]. cbn. apply not_elem_of_cons in Hs as [Hc Hs].
  destruct (Z.eqb_spec c 61); [congruence|]. by rewrite IH.
Qed.

(** An argument that starts with two *)
Lemma loop_double_dash P os0 os es i s (w : option (list Z)) args : similar os os0 -> usable P os i = true ->
  s <> [] -> split_at_equals s = (name_of os0 i, w) ->
  option_arguments_loop (([45; 45] ++ s) :: args) None true (ClState os es) =
    ('(handler, b) <- record_value_if_available i w ;; option_arguments_loop args handler b) (ClState os es).
Proof.
  intros Hs Hu Hne He. apply usable_inv in Hu as (o & t & Ho & Ht & Hok & Hp & Hh). rewrite (similar_name_of Hs) in Hh.
  cbn [app option_arguments_loop]. unfold bind at 1, gets at 1.
  unfold bind at 1, lift at 1. cbn [handler_takes_argument]. rewrite bool_decide_eq_false_2 by (intros [= ->]; done).
  cbn [argument_is_positional Z.eqb Pos.eqb negb starts_with]. unfold bind at 1, lift at 1, get_option_and_value.
  cbn [starts_with Z.eqb Pos.eqb negb drop]. rewrite drop_0, He.
  replace (starts_with s []) with true by (by destruct s). cbn [all].
  rewrite Hh. unfold bind at 1, lift at 1. rewrite (is_positional_resolved _ _ _ Ht), Hp. unfold bind.
  destruct (record_value_if_available i w (ClState os es)) as [[[h b]|] ?]; [|done]. by destruct b.
Qed.

Lemma record_flag os es i o t : os !! i = Some o -> resolved os i = Some t -> is_flag t = true ->
  record_value_if_available i None (ClState os es) = (Ok (None, true), ClState (alter flag_given i os) es).
Proof.
  intros Ho Ht Hf. unfold record_value_if_available, bind, gets, lift, get_option. cbn [all]. rewrite Ho, (takes_argument_flag _ _ _ Ht Hf).
  by rewrite (add_occurrence_flag _ _ _ _ Ht Hf).
Qed.
Lemma record_value os es i o t v (w : option (list Z)) : os !! i = Some o -> resolved os i = Some t -> accepts v t = true -> w = None \/ w = Some v ->
  record_value_if_available i w (ClState os es) =
    match w with
    | None => (Ok (Some i, true), ClState os es)
    | Some v => (Ok (None, true), ClState (assigned v i os) es)
    end.
Proof.
  intros Ho Ht Ha Hw. unfold record_value_if_available, bind, gets, lift, get_option. cbn [all].
  rewrite Ho, (takes_argument_accepts _ _ _ _ Ht Ha). destruct Hw as [->| ->]; [done|]. by rewrite (handler_set_value_ok _ _ _ _ _ Ht Ha).
Qed.

(** The argument behind an option that takes a value *)
Lemma loop_value os es i t v args : resolved os i = Some t -> accepts v t = true ->
  option_arguments_loop (v :: args) (Some i) true (ClState os es) =
    option_arguments_loop args None true (ClState (assigned v i os) es).
Proof.
  intros Ho Ha. cbn [option_arguments_loop handler_takes_argument]. unfold bind at 1, gets at 1. cbn [all]. unfold bind at 1, lift at 1.
  rewrite (takes_argument_accepts _ _ _ _ Ho Ha). unfold bind at 1. by rewrite (handler_set_value_ok _ _ _ _ _ Ho Ha).
Qed.

Ltac split_valid :=
  repeat match goal with
  | H : _ && _ = true |- _ => apply andb_true_iff in H as [? ?]
  | H : negb _ = true |- _ => rewrite negb_true_iff in H
  | H : bool_decide _ = false |- _ => apply bool_decide_eq_false in H
  end.

(** The arguments of a setting have its effect. *)
Lemma long_parsed os0 os es i v (w : option (list Z)) s args : similar os os0 -> usable (accepts v) os i = true ->
  w = None \/ w = Some v -> s <> [] -> split_at_equals s = (name_of os0 i, w) ->
  option_arguments_loop (([45; 45] ++ s) :: match w with None => [v] | Some _ => [] end ++ args) None true (ClState os es) =
    option_arguments_loop args None true (ClState (assigned v i os) es).
Proof.
  intros Hs Hu Hw Hne He. rewrite (loop_double_dash _ _ _ _ _ _ _ _ Hs Hu Hne He).
  destruct (usable_inv _ _ _ Hu) as (o & t & Ho & Ht & Ha & _). unfold bind. rewrite (record_value _ _ _ _ _ _ _ Ho Ht Ha Hw).
  destruct Hw as [->| ->]; [|done]. by apply (loop_value _ _ _ t).
Qed.

Lemma short_parsed os0 os es fs i v rest args : similar os os0 -> forallb (short_flag os) fs = true ->
  usable (accepts v) os i = true -> short_name os i = true -> dashless (letters os0 fs ++ name_of os0 i) = true ->
  rest = [] \/ rest = v ->
  option_arguments_loop (([45] ++ letters os0 fs ++ name_of os0 i ++ rest) :: match rest with [] => [v] | _ => [] end ++ args)
      None true (ClState os es) =
    option_arguments_loop args None true (ClState (assigned v i (flags_effect os fs)) es).
Proof.
  intros Hs Hf Hu Hn Hd Hr. rewrite loop_single_dash; [|by destruct (letters os0 fs); cbn in *; [destruct (name_of os0 i)|]].
  pose proof (similar_flags os fs) as Hs'. unfold bind at 1. rewrite (single_dash_flags _ _ _ _ _ Hs Hf), (single_dash_value os0 _ _ i v).
  2: by etrans. 2: by rewrite (similar_usable Hs' _ _ (accepts_shape v)). 2: by unfold short_name; rewrite (similar_name_of Hs').
  rewrite <- (similar_usable Hs' _ _ (accepts_shape v)) in Hu. destruct (usable_inv _ _ _ Hu) as (o & t & Ho & Ht & Ha & _).
  destruct rest as [|c rest]; [by apply (loop_value _ _ _ t)|]. destruct Hr as [|<-]; [done|].
  unfold bind. by rewrite (handler_set_value_ok _ _ _ _ _ Ht Ha).
Qed.

Lemma setting_parsed s os0 os es args : similar os os0 -> valid os s = true ->
  option_arguments_loop (arguments os0 s ++ args) None true (ClState os es) =
    option_arguments_loop args None true (ClState (effect os s) es).
Proof.
  intros Hs Hv. destruct s as [i|i v|i v|fs|fs i v|fs i v]; cbn [valid arguments effect] in *; unfold long_name in *; split_valid;
    rewrite ?(similar_name_of Hs), ?(similar_letters Hs) in *.
  - change ([?a] ++ args) with (a :: args). erewrite (loop_double_dash is_flag os0); [|done|done|done|by apply split_at_equals_none].
    destruct (usable_inv _ _ _ ltac:(eassumption)) as (o & t & Ho & Ht & Hf & _). unfold bind. by rewrite (record_flag _ _ _ _ _ Ho Ht Hf).
  - apply (long_parsed os0 os es i v (Some v)); [done..|by right|by destruct (name_of os0 i)|by apply split_at_equals_some].
  - apply (long_parsed os0 os es i v None); [done..|by left|done|by apply split_at_equals_none].
  - change ([?a] ++ args) with (a :: args). rewrite loop_single_dash by done. unfold bind. rewrite <- (app_nil_r (letters os0 fs)).
    by rewrite (single_dash_flags _ _ _ _ _ Hs).
  - pose proof (short_parsed os0 os es fs i v v args) as Hp. destruct v as [|c v]; [done|]. apply Hp; try done. by right.
  - pose proof (short_parsed os0 os es fs i v [] args) as Hp. rewrite app_nil_r in Hp. apply Hp; try done. by left.
Qed.

Lemma settings_parsed ss os0 os es args : similar os os0 -> forallb (valid os0) ss = true ->
  option_arguments_loop (concat (arguments os0 <$> ss) ++ args) None true (ClState os es) =
    option_arguments_loop args None true (ClState (foldl effect os ss) es).
Proof.
  revert os. induction ss as [|s ss IH]; intros os Hs Hv; [done|]. cbn [forallb] in Hv. apply andb_true_iff in Hv as [Hv Hvs].
  cbn [fmap list_fmap concat foldl]. rewrite <- app_assoc, setting_parsed; [|done|by rewrite (similar_valid _ _ _ Hs)].
  apply IH; [|done]. etrans; [apply similar_effect|done].
Qed.

(** The options of a command line are decoded, and what is left are the positional arguments. *)
Lemma options_parsed ss explicit rest os es : forallb (valid os) ss = true -> positional_ok explicit rest = true ->
  parse_option_arguments (concat (arguments os <$> ss) ++ positional_arguments explicit rest) (ClState os es) =
    (Ok (rest, true), ClState (foldl effect os ss) es).
Proof.
  intros Hv Hp. unfold parse_option_arguments. unfold bind at 1. rewrite settings_parsed by done.
  unfold positional_ok, positional_arguments in *. destruct explicit; cbn [orb] in Hp; [done|]. destruct rest as [|a rest]; [done|].
  cbn [option_arguments_loop]. unfold bind, gets, lift, handler_takes_argument.
  rewrite bool_decide_eq_false_2 by (by intros ->). by rewrite Hp.
Qed.

(** ** The positional arguments *)

Definition all_resolved os : Prop := forall i, (i < length os)%nat -> is_Some (resolved os i).

Lemma rooted_resolved os : rooted os = true -> all_resolved os.
Proof.
  unfold rooted. rewrite forallb_forall. intros H i Hi. apply (bool_decide_eq_true_1 (is_Some (resolved os i))), H, list_elem_of_In, elem_of_seq. lia.
Qed.

Lemma similar_all_resolved os os' : similar os os' -> all_resolved os -> all_resolved os'.
Proof.
  intros Hs Hr i Hi. rewrite <- (similar_length Hs) in Hi. destruct (Hr i Hi) as [t Ht]. pose proof (similar_resolved Hs i) as H. rewrite Ht in H.
  destruct (resolved os' i); [by eexists|done].
Qed.

Lemma is_positional_at os i : all_resolved os -> (i < length os)%nat -> is_positional os i = Ok (positional_at os i).
Proof.
  intros Hr Hi. destruct (Hr i Hi) as [t Ht]. rewrite (is_positional_resolved _ _ _ Ht). unfold positional_at. by rewrite Ht.
Qed.

Lemma find_positional_ok n os k : all_resolved os -> (k + n <= length os)%nat ->
  find_positional n os k = Ok (head (filter (fun i => positional_at os i = true) (seq k n))).
Proof.
  intros Hf. revert k. induction n as [|n IH]; intros k Hk; [done|]. cbn [find_positional seq]. rewrite is_positional_at by (done || lia).
  cbn [obind]. rewrite filter_cons. destruct (positional_at os k); [done|]. cbn. apply IH. lia.
Qed.

Lemma similar_positional os os' i : similar os os' -> positional_at os i = positional_at os' i.
Proof.
  intros Hs. unfold positional_at. apply (similar_at Hs). intros o o' E. by injection E.
Qed.
Lemma similar_positionals os os' : similar os os' -> positionals os = positionals os'.
Proof.
  intros Hs. unfold positionals. rewrite (similar_length Hs). apply list_filter_ext, Forall_forall. intros i _.
  by rewrite (similar_positional _ _ _ Hs).
Qed.
Lemma many_shape o o' : shape o = shape o' -> many o = many o'.
Proof. intros E. unfold many. by injection E as _ -> _ _. Qed.
Lemma similar_next os os' ps : similar os os' -> next_positionals os ps = next_positionals os' ps.
Proof.
  intros Hs. destruct ps as [|i ps]; [done|]. cbn [next_positionals]. by rewrite (similar_at Hs _ _ _ many_shape).
Qed.
Lemma similar_assignable os os' ps args : similar os os' -> assignable os ps args = assignable os' ps args.
Proof.
  intros Hs. revert ps. induction args as [|a args IH]; intros [|i ps]; try done. cbn [assignable].
  rewrite (similar_next _ _ _ Hs), IH. f_equal. apply (similar_at Hs), accepts_shape.
Qed.
Lemma similar_assign os ps args : similar (assign os ps args) os.
Proof.
  revert os ps. induction args as [|a args IH]; intros os [|i ps]; try done. cbn [assign]. etrans; [apply IH|].
  apply similar_assigned.
Qed.

(** The options that the arguments are assigned to: from position [k] on, the first one may have been used
    before when it takes more than one *)
Definition pending os (ps : list nat) : Prop :=
  (exists k, (k <= length os)%nat /\ ps = filter (fun i => positional_at os i = true) (seq k (length os - k))) /\
  Forall (fun i => forall o, os !! i = Some o -> num_occurrences_ o = 0 \/ from_option many false (resolved os i) = true) ps.

Lemma filter_seq_head os k n i ps : filter (fun i => positional_at os i = true) (seq k n) = i :: ps ->
  (k <= i < k + n)%nat /\ positional_at os i = true /\
  ps = filter (fun i => positional_at os i = true) (seq (S i) (k + n - S i)).
Proof.
  revert k. induction n as [|n IH]; intros k; [done|]. cbn [seq]. rewrite filter_cons. case_decide as Hk.
  - intros [= <- <-]. split; [lia|]. split; [done|]. by replace (k + S n - S k)%nat with n by lia.
  - intros H. apply IH in H as (? & ? & ->). split; [lia|]. split; [done|]. by replace (S k + n)%nat with (k + S n)%nat by lia.
Qed.

(** The occurrence of an option with a value is its own. *)
Lemma assigned_occurrences v i os j : num_occurrences_ <$> assigned v i os !! j =
  if decide (i = j) then (fun o => wrap32 (num_occurrences_ o + 1)) <$> os !! j else num_occurrences_ <$> os !! j.
Proof.
  unfold assigned. set (os1 := alter count_occurrence i os).
  assert (num_occurrences_ <$> alter (set_to v) (target os i) os1 !! j = num_occurrences_ <$> os1 !! j) as ->.
  { destruct (decide (target os i = j)) as [->|]; [rewrite list_lookup_alter_eq|by rewrite list_lookup_alter_ne].
    destruct (os1 !! j) as [o|]; [|done]. cbn. f_equal. unfold set_to. by repeat case_match. }
  unfold os1. case_decide as E; [subst; rewrite list_lookup_alter_eq|by rewrite list_lookup_alter_ne]. by destruct (os !! j).
Qed.

Lemma can_accept_resolved os i o t : os !! i = Some o -> resolved os i = Some t ->
  can_accept_another_occurrence os i = Ok (many t || (num_occurrences_ o =? 0)).
Proof.
  intros Ho Ht. unfold can_accept_another_occurrence, get_num_occurrences_flag, get_option. rewrite Ho. cbn [obind].
  rewrite (resolved_ok _ _ _ Ht). cbn. unfold many. by destruct (occurrences_ t).
Qed.

(** The options that are left after an argument was assigned *)
Lemma pending_next os i ps a : pending os (i :: ps) -> pending (assigned a i os) (next_positionals os (i :: ps)).
Proof.
  intros [(k & Hk & Hps) Hf]. pose proof (similar_assigned a i os) as Hs.
  assert (forall k n, filter (fun j => positional_at os j = true) (seq k n) =
    filter (fun j => positional_at (assigned a i os) j = true) (seq k n)) as Hext.
  { intros. apply list_filter_ext, Forall_forall. intros j _. by rewrite (similar_positional _ _ _ Hs). }
  symmetry in Hps. pose proof (filter_seq_head _ _ _ _ _ Hps) as (Hki & Hp & Hps').
  cbn [next_positionals]. apply Forall_cons in Hf as [_ Hf].
  assert (Forall (fun j => forall o', assigned a i os !! j = Some o' ->
    num_occurrences_ o' = 0 \/ from_option many false (resolved (assigned a i os) j) = true) ps) as Hf'.
  { apply Forall_forall. intros j Hj o' Ho'. rewrite Forall_forall in Hf. rewrite (similar_at Hs _ _ _ many_shape).
    pose proof (assigned_occurrences a i os j) as En. rewrite Ho', decide_False in En
      by (rewrite Hps', list_elem_of_filter, elem_of_seq in Hj; lia).
    destruct (os !! j) as [o|] eqn:Ho; [|done]. cbn in En. injection En as ->. by apply (Hf j). }
  unfold pending. rewrite (similar_length Hs). destruct (from_option many false (resolved os i)) eqn:Hm; split.
  - exists k. split; [done|]. by rewrite <- Hext.
  - constructor; [|done]. intros o' _. right. by rewrite (similar_at Hs _ _ _ many_shape).
  - exists (S i). split; [lia|]. rewrite <- Hext, Hps'. f_equal. f_equal. lia.
  - done.
Qed.

Lemma positional_loop_ok args ps os es : all_resolved os -> pending os ps -> assignable os ps args = true ->
  positional_loop args (head ps) true (ClState os es) = (Ok true, ClState (assign os ps args) es).
Proof.
  revert ps os. induction args as [|a args IH]; intros ps os Hna Hp Hv; [by destruct ps|]. destruct ps as [|i ps]; [done|].
  cbn [assignable] in Hv. apply andb_true_iff in Hv as [Ha Hv]. destruct (resolved os i) as [t|] eqn:Ht; [|done]. cbn in Ha.
  cbn [assign]. set (os' := assigned a i os). assert (similar os' os) as Hs by apply similar_assigned.
  pose proof (similar_all_resolved _ _ (symmetry Hs) Hna) as Hna'. pose proof (pending_next _ _ _ a Hp) as Hp'. fold os' in Hp'.
  destruct Hp as [(k & Hk & Hps) Hf]. symmetry in Hps. pose proof (filter_seq_head _ _ _ _ _ Hps) as (Hki & Hpi & Hps').
  assert (i < length os)%nat as Hi by lia. destruct (lookup_lt_is_Some_2 os i Hi) as [o Ho].
  cbn [head positional_loop]. unfold bind at 1, gets at 1, bind at 1, lift at 1. cbn [all].
  rewrite is_positional_at, Hpi by done. unfold bind, gets, massert, oassert, lift. cbv beta iota.
  rewrite (add_occurrence_accepts _ _ _ _ _ Ht Ha), (value_after_occurrence _ _ _ _ _ Ht Ha). fold os'. cbn [negb all].
  pose proof (assigned_occurrences a i os i) as En. rewrite decide_True, Ho in En by done. fold os' in En.
  destruct (os' !! i) as [o'|] eqn:Ho'; [|done]. cbn in En. injection En as En.
  destruct (Hna' i) as [t' Ht']; [by rewrite (similar_length Hs)|]. rewrite (can_accept_resolved _ _ _ _ Ho' Ht').
  cbn [next_positionals] in *. pose proof (similar_at Hs many false i many_shape) as Em. rewrite Ht, Ht' in Em. cbn in Em.
  rewrite Ht in *. cbn [from_option] in *. rewrite Em. destruct (many t) eqn:Hm; cbn [orb negb].
  - apply (IH (i :: ps)); [done..|]. by rewrite (similar_assignable _ _ _ _ Hs).
  - apply Forall_cons in Hf as [Hf _]. destruct (Hf _ Ho) as [E|]; [|by rewrite Ht in *; cbn in *; congruence].
    rewrite E in En. rewrite En. change (wrap32 (0 + 1) =? 0) with false.
    cbn [negb]. rewrite find_positional_ok by (done || rewrite (similar_length Hs); lia). cbv iota.
    replace (filter _ (seq (S i) (length os' - S i))) with ps.
    { apply IH; [done..|]. by rewrite (similar_assignable _ _ _ _ Hs). }
    rewrite Hps'. replace (k + (length os - k) - S i)%nat with (length os' - S i)%nat by (rewrite (similar_length Hs); lia).
    apply list_filter_ext, Forall_forall. intros j _. by rewrite (similar_positional _ _ _ Hs).
Qed.

(** Settings leave the positional options alone. *)
Lemma usable_not_positional P os i j : usable P os i = true -> positional_at os j = true -> j <> i /\ j <> target os i.
Proof.
  intros Hu Hp. apply usable_inv in Hu as (o & t & Ho & Ht & _ & Hn & _). unfold positional_at in Hp.
  split; intros ->; [rewrite Ht in Hp; cbn in Hp; congruence|].
  destruct (resolved os (target os i)) as [t'|] eqn:Ht'; [|done]. cbn in Hp.
  destruct (resolve_root _ _ _ _ (resolved_ok _ _ _ Ht)) as [Hk Hroot]. fold (target os i) in Hroot.
  rewrite (resolved_self _ _ _ _ Hroot Ht' Hk) in Hp. congruence.
Qed.

Lemma flag_usable P os i j : usable P os i = true -> positional_at os j = true -> alter flag_given i os !! j = os !! j.
Proof. intros Hu Hp. destruct (usable_not_positional _ _ _ _ Hu Hp). by apply list_lookup_alter_ne. Qed.

Lemma assigned_usable P v os i j : usable P os i = true -> positional_at os j = true -> assigned v i os !! j = os !! j.
Proof. intros Hu Hp. destruct (usable_not_positional _ _ _ _ Hu Hp). unfold assigned. by rewrite !list_lookup_alter_ne. Qed.

Lemma flags_positional fs os j : forallb (short_flag os) fs = true -> positional_at os j = true -> flags_effect os fs !! j = os !! j.
Proof.
  revert os. induction fs as [|i fs IH]; intros os Hv Hp; [done|]. cbn [forallb] in Hv. apply andb_true_iff in Hv as [Hi Hv].
  assert (similar (alter flag_given i os) os) as Hs by apply similar_alter, shape_flag_given. cbn [flags_effect foldl].
  change (flags_effect (alter flag_given i os) fs !! j = os !! j). apply andb_true_iff in Hi as [Hu _].
  rewrite IH; [by eapply flag_usable|by rewrite (similar_flags_valid _ _ _ Hs)|by rewrite (similar_positional _ _ _ Hs)].
Qed.

Lemma effect_positional s os j : valid os s = true -> positional_at os j = true -> effect os s !! j = os !! j.
Proof.
  intros Hv Hp. pose proof (fun fs => similar_flags os fs) as Hs.
  destruct s; cbn [valid effect] in *; split_valid; try (by eapply flag_usable); try (by eapply assigned_usable); try (by apply flags_positional);
    rewrite <- (flags_positional fs os j) by done; eapply assigned_usable;
    try rewrite (similar_usable (Hs fs) _ _ (accepts_shape v)); try rewrite (similar_positional _ _ _ (Hs fs)); done.
Qed.

Lemma effects_positional ss os j : forallb (valid os) ss = true -> positional_at os j = true -> foldl effect os ss !! j = os !! j.
Proof.
  revert os. induction ss as [|s ss IH]; intros os Hv Hp; [done|]. cbn [forallb foldl] in *. apply andb_true_iff in Hv as [Hs Hv].
  rewrite IH; [by apply effect_positional| |by rewrite (similar_positional _ _ _ (similar_effect os s))].
  rewrite <- Hv. clear. pose proof (similar_effect os s) as Hs. induction ss as [|t ss IH]; [done|]. cbn. by rewrite IH, (similar_valid _ _ _ Hs).
Qed.

Lemma similar_effects ss os : similar (foldl effect os ss) os.
Proof. revert os. induction ss as [|s ss IH]; intros os; [done|]. cbn. etrans; [apply IH|apply similar_effect]. Qed.

(** ** Mandatory options *)

Lemma missing_loop_ok n os es i ok pm : all_resolved os -> (i + n = length os)%nat -> 0 <= pm -> exists pm' es',
  missing_loop n i ok pm (ClState os es) = (Ok (ok && forallb (given os) (seq i n), pm'), ClState os es') /\
  pm <= pm' /\ (forallb (given os) (seq i n) = true -> pm' = pm /\ es' = es).
Proof.
  intros Hna. revert es i ok pm. induction n as [|n IH]; intros es i ok pm Hi Hpm.
  { exists pm, es. by rewrite andb_true_r. }
  destruct (lookup_lt_is_Some_2 os i) as [o Ho]; [lia|]. destruct (Hna i) as [t Ht]; [lia|]. cbn [seq forallb missing_loop].
  unfold bind, gets, lift, get_num_occurrences_flag, get_num_occurrences.
  cbn [all]. rewrite !(resolved_ok _ _ _ Ht). cbn [obind]. rewrite (is_positional_resolved _ _ _ Ht).
  unfold get_option. rewrite Ho. unfold given at 1 3. rewrite Ht.
  destruct (occurrences_ t); cbn [andb]; try (apply IH; lia); destruct (num_occurrences_ t =? 0); cbn [negb andb]; try (apply IH; lia);
    rewrite andb_false_r; destruct (positional_ t).
  1,3: destruct (IH es (S i) false (pm + 1)) as (pm' & es' & E & Hle & _); [lia..|]; exists pm', es'; (split; [exact E|]); split; [lia|done].
  all: destruct (IH (es ++ [MustBeSpecified (name_ o)]) (S i) false pm) as (pm' & es' & E & Hle & _); [lia..|]; exists pm', es';
    (split; [exact E|]); done.
Qed.

Lemma check_for_missing_ok os es : all_resolved os -> exists es',
  check_for_missing (ClState os es) = (Ok (all_given os), ClState os es') /\ (all_given os = true -> es' = es).
Proof.
  intros Hna. destruct (missing_loop_ok (length os) os es 0 true 0) as (pm & es' & E & Hle & He); [done|lia..|].
  unfold check_for_missing. unfold bind at 1, gets at 1. cbn [all]. unfold bind at 1. rewrite E. cbn [andb]. unfold bind.
  destruct (Z.eqb_spec pm 0) as [->|Hpm]; cbn.
  - exists es'. split; [done|]. intros Hg. by apply He.
  - eexists. split; [done|]. intros Hg. destruct (He Hg). lia.
Qed.

Lemma fresh_pending os ss : forallb fresh os = true -> forallb (valid os) ss = true ->
  pending (foldl effect os ss) (positionals os).
Proof.
  intros Hf Hv. pose proof (similar_effects ss os) as Hs. rewrite <- (similar_positionals _ _ Hs). split.
  { exists 0%nat. split; [lia|]. unfold positionals. by rewrite Nat.sub_0_r. }
  apply Forall_forall. intros i Hi o Ho. left. rewrite (similar_positionals _ _ Hs) in Hi. apply list_elem_of_filter in Hi as [Hp _].
  rewrite (effects_positional _ _ _ Hv Hp) in Ho. rewrite forallb_forall in Hf. apply list_elem_of_lookup_2, list_elem_of_In, Hf in Ho.
  by apply Z.eqb_eq.
Qed.

(** C37: a command line that gives options of a program in any of the forms [--name], [--name=value],
    [--name value], [-abc], [-abcnvalue] or [-abcn value], and then positional arguments, is decoded: each option
    has had exactly the effects of the settings that name it, in order, the positional arguments have gone to the
    positional options in order, and the parser returns whether all of the mandatory options were given, without a
    message when they were. The options may be aliases that lead to an option: an alias counts its
    occurrences itself, and it is its original that gets the values, but the original does not
    count, so that a flag is not changed by its alias and a mandatory option is not given by one. The settings do not include
    [--help], values that the option's parser refuses, and names that no option has; the program has just started, so
    that no option has occurred. *)
Theorem command_line_parsed (program : list cl_option) (ss : list setting) (explicit : bool) (args : list (list Z)) :
  let os := program ++ [help_option] in
  forallb fresh program = true -> rooted os = true -> forallb (valid os) ss = true ->
  positional_ok explicit args = true -> assignable os (positionals os) args = true ->
  let os' := assign (foldl effect os ss) (positionals os) args in
  exists es,
    parse_command_line_options (concat (arguments os <$> ss) ++ positional_arguments explicit args) (ClState program []) =
      (Ok (all_given os'), ClState os' es) /\
    (all_given os' = true -> es = []).
Proof.
  intros os Hf Hr Hv Hp Ha os'. assert (forallb fresh os = true) as Hf' by (unfold os; by rewrite forallb_app, Hf).
  pose proof (rooted_resolved _ Hr) as Hna. pose proof (similar_effects ss os) as Hs.
  pose proof (similar_all_resolved _ _ (symmetry Hs) Hna) as Hna1.
  assert (all_resolved os') as Hna2 by (apply (similar_all_resolved _ _ (symmetry (similar_assign _ _ _)) Hna1)).
  destruct (check_for_missing_ok os' [] Hna2) as (es & E & He). exists es. split; [|done].
  unfold parse_command_line_options, bind, modify. cbn [all errs]. fold os. rewrite (options_parsed ss explicit args os [] Hv Hp).
  cbn [negb]. unfold parse_positional_arguments, bind, gets, lift. cbn [all]. rewrite find_positional_ok by (done || lia).
  fold (positionals (foldl effect os ss)). rewrite (similar_positionals _ _ Hs).
  rewrite positional_loop_ok; [exact E|done|by apply fresh_pending|by rewrite (similar_assignable _ _ _ _ Hs)].
Qed.

(** A program with the options [-a], [--all], [-n] of type [int], [--add], which is a list, an input file, and the alias
    [--number] of [-n] *)
Definition example_program : list cl_option := [
  Option [97] optional false 0 (OptBool false);
  Option [97; 108; 108] optional false 0 (OptBool false);
  Option [110] optional false 0 (Opt (Parser false []) (CInt 0));
  Option [97; 100; 100] zero_or_more false 0 (OptList (Parser true []) []);
  Option [] required true 0 (Opt (Parser true []) (CString []));
  Option [110; 117; 109; 98; 101; 114] optional false 0 (Alias 2)].

Lemma command_line_parsed_witness :
  parse_command_line_options
    [[45; 97; 110; 52; 50]; [45; 45; 97; 100; 100; 61; 120]; [45; 45; 97; 108; 108]; [45; 45; 110; 117; 109; 98; 101; 114; 61; 55];
     [45; 45; 97; 100; 100]; [121]; [102]]
    (ClState example_program []) =
  (Ok true, ClState
    [Option [97] optional false 1 (OptBool true); Option [97; 108; 108] optional false 1 (OptBool true);
     Option [110] optional false 1 (Opt (Parser false []) (CInt 7));
     Option [97; 100; 100] zero_or_more false 2 (OptList (Parser true []) [CString [120]; CString [121]]);
     Option [] required true 1 (Opt (Parser true []) (CString [102]));
     Option [110; 117; 109; 98; 101; 114] optional false 1 (Alias 2); help_option] []).
Proof.
  destruct (command_line_parsed example_program
    [ShortValue [0%nat] 2 [52; 50]; LongEq 3 [120]; LongFlag 1; LongEq 5 [55]; LongSep 3 [121]] false [[102]])
    as (es & E & He); [reflexivity..|]. rewrite (He ltac:(vm_compute; reflexivity)) in E. vm_compute in E |- *. exact E.
Defined.

(** ** Where the parser differs from what is meant *)

(** The occurrence of an alias is not counted for its original: it does not change an option without a value, *)
Example alias_of_flag :
  parse_command_line_options [[45; 118]]
    (ClState [Option [97; 108; 108] optional false 0 (OptBool false); Option [118] optional false 0 (Alias 0)] []) =
  (Ok true, ClState [Option [97; 108; 108] optional false 0 (OptBool false); Option [118] optional false 1 (Alias 0); help_option] []).
Proof. reflexivity. Qed.

(** and an option that has its value from an alias is reported as missing. *)
Example alias_of_required :
  parse_command_line_options [[45; 110]; [120]]
    (ClState [Option [97; 108; 108] required false 0 (Opt (Parser true []) (CString [])); Option [110] optional false 0 (Alias 0)] []) =
  (Ok false, ClState
    [Option [97; 108; 108] required false 0 (Opt (Parser true []) (CString [120])); Option [110] optional false 1 (Alias 0); help_option]
    [MustBeSpecified [97; 108; 108]; MustBeSpecified [110]]).
Proof. reflexivity. Qed.

(** One occurrence does not satisfy an option that needs one or more. *)
Example one_is_not_enough : is_satisfied [Option [97] one_or_more false 1 (OptList (Parser true []) [CString []])] 0 = Ok false.
Proof. reflexivity. Qed.

(** A positional argument that is not valid is accepted when a valid one follows. *)
Example bad_positional_accepted :
  fst (parse_command_line_options [[120]; [49]]
    (ClState [Option [] zero_or_more true 0 (OptList (Parser false []) []); Option [97] optional false 0 (OptBool false)] [])) = Ok true /\
  fst (parse_command_line_options [[49]; [120]]
    (ClState [Option [] zero_or_more true 0 (OptList (Parser false []) []); Option [97] optional false 0 (OptBool false)] [])) = Ok false.
Proof. split; reflexivity. Qed.
