(* ===== verification/Romfs.v ===== *)
(** * The read-only file system

    Models include/pstore/romfs/dirent.hpp, directory.hpp and romfs.hpp with lib/romfs/dirent.cpp,
    directory.cpp and romfs.cpp: the directories that the HTTP server's files are compiled
    into, the binary search for a name, the resolution of paths, the working directory,
    and files that are read and seeked in.

    A directory is known by its address; a [filesystem] maps the addresses to the arrays of
    members. A C string is the list of its characters without the terminating null. *)

From S2P Require Import Prelude.

(** ** Entries *)

Inductive romfs_error := einval | enoent | enotdir.

(** [error_or<T>] *)
Inductive error_or (A : Type) :=
  | Error (e : romfs_error)
  | Value (a : A).
Arguments Error {A} _.
Arguments Value {A} _.

(** [operator>>=] of [error_or] *)
Definition eo_bind {A B} (m : error_or A) (f : A -> outcome (error_or B)) : outcome (error_or B) :=
  match m with
  | Error e => Ok (Error e)
  | Value a => f a
  end.

Inductive mode_t := file_mode | directory_mode.
Record stat_t := Stat { st_size : Z; st_mtime : Z; st_mode : mode_t }.

(** What the member [contents_] points to *)
Inductive contents_t :=
  | Octets (l : list Z)
  | Directory (d : Z).

Record dirent := Dirent { de_name : list Z; de_contents : contents_t; de_stat : stat_t }.

Definition filesystem : Type := gmap Z (list dirent).

(** The constructor of the entries of directories *)
Definition dirent_of_directory (name : list Z) (dir : Z) : dirent :=
  Dirent name (Directory dir) (Stat 8 0 directory_mode).

(** [dirent::is_directory] *)
Definition is_directory (de : dirent) : bool :=
  match st_mode (de_stat de) with directory_mode => true | file_mode => false end.

(** [dirent::opendir] *)
Definition dirent_opendir (de : dirent) : outcome (error_or Z) :=
  if negb (is_directory de) || negb (st_size (de_stat de) =? 8) then Ok (Error enotdir)
  else
    match de_contents de with
    | Directory d => Ok (Value d)
    | Octets _ => Throw Dangling
    end.

(** ** Directories *)

(** [std::strncmp]: the second string has at least [n] characters or ends with a null *)
Fixpoint strncmp (a b : list Z) (n : nat) : Z :=
  match n with
  | 0%nat => 0
  | S n =>
      let ca := default 0 (head a) in
      let cb := default 0 (head b) in
      if negb (ca =? cb) then ca - cb
      else if ca =? 0 then 0
      else strncmp (tail a) (tail b) n
  end.

(** [std::strcmp] *)
Fixpoint strcmp (a b : list Z) : Z :=
  match a, b with
  | [], [] => 0
  | [], cb :: _ => - cb
  | ca :: _, [] => ca
  | ca :: a, cb :: b => if ca =? cb then strcmp a b else ca - cb
  end.

(** [std::lower_bound] on the elements from [first] on: the loop halves [len] *)
Fixpoint lower_bound {A} (fuel : nat) (l : list A) (comp : A -> bool) (first len : nat) : outcome nat :=
  match len with
  | 0%nat => Ok first
  | _ =>
      match fuel with
      | 0%nat => Throw OutOfFuel
      | S fuel =>
          let half := (len / 2)%nat in
          match l !! (first + half)%nat with
          | None => Throw Dangling
          | Some x =>
              if comp x then lower_bound fuel l comp (first + half + 1) (len - half - 1)
              else lower_bound fuel l comp first half
          end
      end
  end.

(** [directory::find (name, length)] *)
Definition find_name (members : list dirent) (name : list Z) : outcome (option dirent) :=
  let length_ := length name in
  it <-? lower_bound (length members) members
           (fun a => strncmp (de_name a) name length_ <? 0) 0 (length members) ;;
  match members !! it with
  | None => Ok None
  | Some de =>
      if (strncmp (de_name de) name length_ =? 0) && (default 0 (de_name de !! length_) =? 0)
      then Ok (Some de) else Ok None
  end.

(** [directory::find (d)]: a linear search for an entry that references [d] *)
Fixpoint find_dir (members : list dirent) (d : Z) : outcome (option dirent) :=
  match members with
  | [] => Ok None
  | de :: members =>
      od <-? dirent_opendir de ;;
      match od with
      | Value d' => if d' =? d then Ok (Some de) else find_dir members d
      | Error _ => find_dir members d
      end
  end.

(** The members of the directory at an address *)
Definition get_dir (fs : filesystem) (d : Z) : outcome (list dirent) :=
  match fs !! d with
  | Some members => Ok members
  | None => Throw Dangling
  end.

Definition slash : Z := 47.
Definition dot : list Z := [46].
Definition dot_dot : list Z := [46; 46].

(** [is_expected_dir] *)
Definition is_expected_dir (d : option dirent) (expected : Z) : outcome bool :=
  match d with
  | None => Ok false
  | Some de =>
      od <-? dirent_opendir de ;;
      Ok (match od with Value d' => d' =? expected | Error _ => false end)
  end.

(** [std::is_sorted] with the comparison of names: no element is less than the one before it *)
Fixpoint names_sorted (members : list dirent) : bool :=
  match members with
  | [] => true
  | a :: members =>
      match members with
      | [] => true
      | b :: _ => negb (strcmp (de_name b) (de_name a) <? 0) && names_sorted members
      end
  end.

(** The loop of [directory::check] over the members of [self] *)
Fixpoint check_members (check : Z -> list Z -> outcome bool) (visited : list Z) (members : list dirent) : outcome bool :=
  match members with
  | [] => Ok true
  | de :: members =>
      if is_directory de then
        od <-? dirent_opendir de ;;
        match od with
        | Value d => ok <-? check d (d :: visited) ;; if ok then check_members check visited members else Ok false
        | Error _ => Ok false
        end
      else check_members check visited members
  end.

(** [directory::check (parent, visited)]; [visited] lists the directories of the stack entries *)
Fixpoint directory_check (fuel : nat) (fs : filesystem) (self parent : Z) (visited : list Z) : outcome bool :=
  if bool_decide (parent ∈ visited) then Ok true
  else
    match fuel with
    | 0%nat => Throw OutOfFuel
    | S fuel =>
        members <-? get_dir fs self ;;
        if negb (names_sorted members) then Ok false
        else
          d <-? find_name members dot ;;
          self_ok <-? is_expected_dir d self ;;
          if negb self_ok then Ok false
          else
            dd <-? find_name members dot_dot ;;
            parent_ok <-? is_expected_dir dd parent ;;
            if negb parent_ok then Ok false
            else check_members (fun d visited => directory_check fuel fs d self visited) visited members
    end.

(** [romfs::fsck]; the recursion is never more than two levels deep *)
Definition fsck (fs : filesystem) (root : Z) : outcome bool := directory_check 2 fs root root [].

(** ** Paths *)

(** [path_component] *)
Fixpoint path_component (p : list Z) : list Z * list Z :=
  match p with
  | [] => ([], [])
  | c :: p' =>
      if c =? slash then ([], p)
      else let '(component, tail) := path_component p' in (c :: component, tail)
  end.

(** [next_component] *)
Fixpoint next_component (p : list Z) : list Z :=
  match p with
  | c :: p' => if c =? slash then next_component p' else p
  | [] => []
  end.

(** [romfs::directory_to_dirent] *)
Definition directory_to_dirent (fs : filesystem) (d : Z) : outcome dirent :=
  members <-? get_dir fs d ;;
  r <-? find_name members dot_dot ;;
  match r with
  | None => Throw Assert
  | Some r => _ <-? oassert (is_directory r) ;; Ok r
  end.

(** The loop of [romfs::parse_path] *)
Fixpoint parse_loop (fuel : nat) (fs : filesystem) (p : list Z) (dir : Z) (current_de : dirent) : outcome (error_or dirent) :=
  match p with
  | [] => Ok (Value current_de)
  | _ =>
      match fuel with
      | 0%nat => Throw OutOfFuel
      | S fuel =>
          let '(component, tail) := path_component p in
          let p := next_component tail in
          _ <-? oassert (0 <? length component)%nat ;;
          members <-? get_dir fs dir ;;
          found <-? find_name members component ;;
          match found with
          | None => Ok (Error enoent)
          | Some current_de =>
              if is_directory current_de then
                od <-? dirent_opendir current_de ;;
                match od with
                | Error e => Ok (Error e)
                | Value dir => parse_loop fuel fs p dir current_de
                end
              else if negb (bool_decide (p = [])) then Ok (Error enotdir)
              else parse_loop fuel fs p dir current_de
          end
      end
  end.

(** The data members of [romfs] *)
Record romfs := Romfs { root_ : Z; cwd_ : Z }.

(** [romfs::parse_path]; null pointers are [None] *)
Definition parse_path (fs : filesystem) (r : romfs) (path : option (list Z)) (dir : option Z) : outcome (error_or dirent) :=
  match path, dir with
  | Some path, Some dir =>
      let '(dir, p) :=
        if bool_decide (head path = Some slash) then (root_ r, next_component path) else (dir, path) in
      current_de <-? directory_to_dirent fs dir ;;
      _ <-? oassert (is_directory current_de) ;;
      parse_loop (length p) fs p dir current_de
  | _, _ => Ok (Error enoent)
  end.

(** [romfs::dir_to_string]; the recursion climbs to the root *)
Fixpoint dir_to_string (fuel : nat) (fs : filesystem) (root dir : Z) : outcome (error_or (list Z)) :=
  if dir =? root then Ok (Value [slash])
  else
    match fuel with
    | 0%nat => Throw OutOfFuel
    | S fuel =>
        members <-? get_dir fs dir ;;
        parent_de <-? find_name members dot_dot ;;
        match parent_de with
        | None => Throw Assert
        | Some parent_de =>
            parent <-? dirent_opendir parent_de ;;
            eo_bind parent (fun parent =>
              s <-? dir_to_string fuel fs root parent ;;
              eo_bind s (fun s =>
                _ <-? oassert (0 <? length s)%nat ;;
                let s := if bool_decide (last s = Some slash) then s else s ++ [slash] in
                members <-? get_dir fs parent ;;
                p <-? find_dir members dir ;;
                match p with
                | None => Throw Assert
                | Some p => Ok (Value (s ++ de_name p))
                end))
        end
    end.

(** ** Open files *)

(** The data members of [open_file] *)
Record open_file := OpenFile { of_dir : dirent; of_pos : Z }.

(** The copies of the loop of [open_file::read]: the octets that the buffer receives *)
Fixpoint read_loop (count : nat) (octets : list Z) (file_size size pos : Z) : outcome (list Z * nat * Z) :=
  match count with
  | 0%nat => Ok ([], 0%nat, pos)
  | S count =>
      if wrap64 (pos + size) >? file_size then Ok ([], 0%nat, pos)
      else if pos + size >? Z.of_nat (length octets) then Throw Dangling
      else
        let chunk := take (Z.to_nat size) (drop (Z.to_nat pos) octets) in
        r <-? read_loop count octets file_size size (wrap64 (pos + size)) ;;
        let '(rest, num_read, pos') := r in Ok (chunk ++ rest, S num_read, pos')
  end.

(** [open_file::read]: the octets written to the buffer and the number of elements read.
    The octets of a [directory] object, which a path to a directory gives access to, are
    not modelled. *)
Definition file_read (f : open_file) (size count : Z) : outcome (list Z * Z * open_file) :=
  if (size =? 0) || (count =? 0) then Ok ([], 0, f)
  else
    match de_contents (of_dir f) with
    | Directory _ => Throw Dangling
    | Octets octets =>
        r <-? read_loop (Z.to_nat count) octets (st_size (de_stat (of_dir f))) size (of_pos f) ;;
        let '(buffer, num_read, pos) := r in Ok (buffer, Z.of_nat num_read, OpenFile (of_dir f) pos)
    end.

Inductive whence_t := SEEK_SET | SEEK_CUR | SEEK_END | SEEK_other.

(** [open_file::seek]; the negation of the smallest offset is undefined *)
Definition file_seek (f : open_file) (offset : Z) (whence : whence_t) : outcome (error_or Z * open_file) :=
  let file_size := st_size (de_stat (of_dir f)) in
  let fail := Ok (Error einval, f) in
  let move new_pos := Ok (Value new_pos, OpenFile (of_dir f) new_pos) in
  match whence with
  | SEEK_SET => if offset <? 0 then fail else move offset
  | SEEK_CUR =>
      if offset <? 0 then
        if offset =? - 2 ^ 63 then Throw Undefined
        else if - offset >? of_pos f then fail
        else move (of_pos f - - offset)
      else move (wrap64 (of_pos f + offset))
  | SEEK_END =>
      if (offset <? 0) && (offset =? - 2 ^ 63) then Throw Undefined
      else if (offset <? 0) && (- offset >? file_size) then fail
      else if offset >=? 0 then move (wrap64 (file_size + offset))
      else move (file_size - - offset)
  | SEEK_other => fail
  end.

(** ** The operations of [romfs] *)

(** [romfs::open] *)
Definition romfs_open (fs : filesystem) (r : romfs) (path : list Z) : outcome (error_or open_file) :=
  de <-? parse_path fs r (Some path) (Some (cwd_ r)) ;;
  eo_bind de (fun de => Ok (Value (OpenFile de 0))).

(** [romfs::opendir]: the members that the descriptor will yield, in order *)
Definition romfs_opendir (fs : filesystem) (r : romfs) (path : list Z) : outcome (error_or (Z * nat)) :=
  de <-? parse_path fs r (Some path) (Some (cwd_ r)) ;;
  eo_bind de (fun de =>
    d <-? (if is_directory de then dirent_opendir de else Ok (Error enotdir)) ;;
    eo_bind d (fun d => Ok (Value (d, 0%nat)))).

(** [open_directory::read] and [rewind], on the directory and the index of a descriptor *)
Definition directory_read (fs : filesystem) (od : Z * nat) : outcome (option dirent * (Z * nat)) :=
  members <-? get_dir fs od.1 ;;
  if (length members <=? od.2)%nat then Ok (None, od)
  else
    match members !! od.2 with
    | None => Throw Dangling
    | Some de => Ok (Some de, (od.1, S od.2))
    end.

Definition directory_rewind (od : Z * nat) : Z * nat := (od.1, 0%nat).

(** [romfs::stat] *)
Definition romfs_stat (fs : filesystem) (r : romfs) (path : list Z) : outcome (error_or stat_t) :=
  de <-? parse_path fs r (Some path) (Some (cwd_ r)) ;;
  eo_bind de (fun de => Ok (Value (de_stat de))).

(** [romfs::getcwd] *)
Definition getcwd (fuel : nat) (fs : filesystem) (r : romfs) : outcome (error_or (list Z)) :=
  dir_to_string fuel fs (root_ r) (cwd_ r).

(** [romfs::chdir]: the error, if any, and the new state *)
Definition chdir (fs : filesystem) (r : romfs) (path : list Z) : outcome (option romfs_error * romfs) :=
  de <-? parse_path fs r (Some path) (Some (cwd_ r)) ;;
  d <-? eo_bind de dirent_opendir ;;
  match d with
  | Error e => Ok (Some e, r)
  | Value d => Ok (None, Romfs (root_ r) d)
  end.

(** ** The order of names *)

(** Characters of strings are not null. *)
Definition chars (l : list Z) : Prop := Forall (fun c => 0 < c < 256) l.

Lemma strcmp_refl a : strcmp a a = 0.
Proof. induction a as [|c a IH]; [done|]. cbn. by rewrite Z.eqb_refl. Qed.

Lemma strcmp_prefix n s : chars s -> strcmp (n ++ s) n <= 0 -> s = [].
Proof.
  intros Hs. induction n as [|c n IH]; cbn.
  - destruct Hs as [|x s Hx]; [done|]. cbn. lia.
  - rewrite Z.eqb_refl. exact IH.
Qed.

(** Comparing with a prefix is monotone in the order of the names. *)
Lemma strncmp_mono x y n :
  chars x -> chars y -> chars n -> strcmp x y <= 0 ->
  (strncmp y n (length n) < 0 -> strncmp x n (length n) < 0) /\
  (strncmp y n (length n) <= 0 -> strncmp x n (length n) <= 0).
Proof.
  revert x y. induction n as [|c n IH]; intros x y Hx Hy Hn Hle; [done|]. cbn [length strncmp head tail].
  apply Forall_cons in Hn as [Hc Hn]. destruct Hx as [|a x Ha Hx], Hy as [|b y Hb Hy]; cbn [head tail default from_option id] in *.
  - done.
  - rewrite (proj2 (Z.eqb_neq 0 c)) by lia. cbn [negb]. split; intros _; lia.
  - cbn in Hle. lia.
  - rewrite (proj2 (Z.eqb_neq a 0)), (proj2 (Z.eqb_neq b 0)) by lia. cbn in Hle.
    destruct (Z.eqb_spec a b) as [->|Hab].
    + destruct (Z.eqb_spec b c); cbn [negb]; [by apply IH|lia].
    + destruct (Z.eqb_spec a c), (Z.eqb_spec b c); cbn [negb]; lia.
Qed.

Lemma strncmp_zero x n : chars n -> strncmp x n (length n) = 0 <-> exists s, x = n ++ s.
Proof.
  revert x. induction n as [|c n IH]; intros x Hn; cbn [length strncmp].
  - split; [by exists x|done].
  - apply Forall_cons in Hn as [Hc Hn]. destruct x as [|a x]; cbn [head tail default from_option id].
    + rewrite (proj2 (Z.eqb_neq 0 c)) by lia. cbn [negb]. split; [lia|]. by intros [s [=]].
    + destruct (Z.eqb_spec a c) as [->|Hne]; cbn [negb].
      * rewrite (proj2 (Z.eqb_neq c 0)), IH by (lia || done). split; intros [s Hs]; exists s; [by rewrite Hs|by injection Hs].
      * split; [lia|]. intros [s [= ? _]]. done.
Qed.

Lemma strncmp_self n : chars n -> strncmp n n (length n) = 0.
Proof. intros Hn. apply strncmp_zero; [done|]. exists []. by rewrite app_nil_r. Qed.

(** ** Binary search *)

(** [comp] holds of the elements before a position and of no other. *)
Definition partitioned {A} (comp : A -> bool) (l : list A) : Prop :=
  forall i j x y, (i <= j)%nat -> l !! i = Some x -> l !! j = Some y -> comp y = true -> comp x = true.

Lemma lower_bound_spec {A} fuel (l : list A) comp first len :
  partitioned comp l -> (len <= fuel)%nat -> (first + len <= length l)%nat ->
  (forall i x, (i < first)%nat -> l !! i = Some x -> comp x = true) ->
  (forall i x, (first + len <= i)%nat -> l !! i = Some x -> comp x = false) ->
  exists k, lower_bound fuel l comp first len = Ok k /\ (k <= length l)%nat /\
    (forall i x, (i < k)%nat -> l !! i = Some x -> comp x = true) /\
    (forall i x, (k <= i)%nat -> l !! i = Some x -> comp x = false).
Proof.
  intros Hpart. revert first len. induction fuel as [|fuel IH]; intros first len Hlen Hin Hlo Hhi.
  { destruct len; [|lia]. exists first. rewrite Nat.add_0_r in *. by cbn. }
  destruct len as [|len]; [exists first; rewrite Nat.add_0_r in *; by cbn|].
  cbn [lower_bound]. set (half := (S len / 2)%nat).
  assert (half < S len)%nat as Hhalf by (apply Nat.div_lt; lia).
  destruct (lookup_lt_is_Some_2 l (first + half)) as [x Hx]; [lia|]. rewrite Hx. destruct (comp x) eqn:Hc.
  - apply IH; [lia|lia| |intros i y Hi; apply Hhi; lia].
    intros i y Hi Hy. by apply (Hpart i (first + half)%nat y x); [lia|..].
  - apply IH; [lia|lia|done|]. intros i y Hi Hy. destruct (comp y) eqn:E; [|done].
    rewrite (Hpart (first + half)%nat i x y) in Hc by (done || lia). done.
Qed.

Lemma strcmp_opp a b : strcmp a b = - strcmp b a.
Proof.
  revert b. induction a as [|x a IH]; intros [|y b]; cbn; try lia.
  rewrite (Z.eqb_sym y x). destruct (x =? y); [apply IH|lia].
Qed.

Lemma strcmp_trans a b c :
  chars a -> chars b -> chars c -> strcmp a b <= 0 -> strcmp b c <= 0 -> strcmp a c <= 0.
Proof.
  intros Ha. revert b c. induction Ha as [|x a Hx Ha IH]; intros b c Hb Hc; cbn [strcmp].
  - destruct Hc; cbn; lia.
  - destruct Hb as [|y b Hy Hb]; [lia|]. destruct Hc as [|z c Hz Hc]; cbn [strcmp]; [lia|].
    destruct (Z.eqb_spec x y), (Z.eqb_spec y z), (Z.eqb_spec x z); try lia. by apply IH.
Qed.

(** ** Looking up names *)

Definition names_ok (members : list dirent) : Prop := Forall (fun de => chars (de_name de)) members.

Lemma names_sorted_le members i j x y :
  names_sorted members = true -> names_ok members -> (i <= j)%nat ->
  members !! i = Some x -> members !! j = Some y -> strcmp (de_name x) (de_name y) <= 0.
Proof.
  intros Hs Hok. revert i j x y. induction Hok as [|a members Ha Hok IH]; intros i j x y Hij Hi Hj; [done|].
  destruct j as [|j]; [replace i with 0%nat in Hi by lia; simplify_eq/=; by rewrite strcmp_refl|].
  destruct members as [|b members]; [done|]. cbn [names_sorted] in Hs.
  apply andb_true_iff in Hs as [Hab%negb_true_iff%Z.ltb_ge Hs].
  destruct i as [|i]; [|apply (IH Hs i j); [lia|done|done]]. injection Hi as ->.
  apply strcmp_trans with (de_name b); [done|by inversion Hok| | |].
  - change (S j) with (1 + j)%nat in Hj. pose proof (list_elem_of_lookup_2 (b :: members) j y Hj) as Hin.
    by apply (proj1 (Forall_forall _ _) Hok y Hin).
  - rewrite strcmp_opp. lia.
  - apply (IH Hs 0%nat j b y); [lia|done|done].
Qed.

(** The specification of a search: the first entry with the name *)
Fixpoint entry_named (members : list dirent) (name : list Z) : option dirent :=
  match members with
  | [] => None
  | de :: members => if decide (de_name de = name) then Some de else entry_named members name
  end.

Lemma entry_named_some members name de :
  entry_named members name = Some de ->
  exists j, members !! j = Some de /\ de_name de = name /\
    forall i x, (i < j)%nat -> members !! i = Some x -> de_name x <> name.
Proof.
  induction members as [|x members IH]; [done|]. cbn [entry_named]. case_decide as Hx.
  - intros [= <-]. exists 0%nat. split_and!; [done|done|]. intros i y Hi. lia.
  - intros (j & Hj & Hn & Hmin)%IH. exists (S j). split_and!; [done|done|].
    intros [|i] y Hi; [by intros [= <-]|]. apply Hmin. lia.
Qed.

Lemma entry_named_none members name i x :
  entry_named members name = None -> members !! i = Some x -> de_name x <> name.
Proof.
  revert i. induction members as [|y members IH]; intros i; [done|]. cbn [entry_named]. case_decide; [done|].
  intros Hn. destruct i; [by intros [= <-]|]. by apply IH.
Qed.

Lemma names_partitioned members name :
  names_sorted members = true -> names_ok members -> chars name ->
  partitioned (fun a => strncmp (de_name a) name (length name) <? 0) members.
Proof.
  intros Hs Hok Hn i j x y Hij Hi Hj Hy. pose proof (proj1 (Forall_forall _ _) Hok) as Hall.
  apply Z.ltb_lt in Hy. apply Z.ltb_lt.
  eapply (strncmp_mono _ (de_name y)); [| |done| |done].
  - by apply Hall, (list_elem_of_lookup_2 _ i).
  - by apply Hall, (list_elem_of_lookup_2 _ j).
  - by apply (names_sorted_le members i j).
Qed.

(** A name that extends [name] by nothing is [name]. *)
Lemma name_ends name s : chars s -> default 0 ((name ++ s) !! length name) = 0 -> s = [].
Proof.
  intros Hs. rewrite lookup_app_r, Nat.sub_diag by lia. destruct Hs; [done|]. cbn. lia.
Qed.

(** The binary search finds the entry of a name in a sorted directory. *)
Lemma find_name_spec members name :
  names_sorted members = true -> names_ok members -> chars name ->
  find_name members name = Ok (entry_named members name).
Proof.
  intros Hs Hok Hn. unfold find_name.
  destruct (lower_bound_spec (length members) members _ 0 (length members) (names_partitioned _ _ Hs Hok Hn))
    as (k & -> & Hk & Hlo & Hhi); [lia|lia|intros; lia|intros i x Hi Hx; apply lookup_lt_Some in Hx; lia|].
  cbn [obind]. pose proof (proj1 (Forall_forall _ _) Hok) as Hall.
  destruct (entry_named members name) as [de|] eqn:E.
  - destruct (entry_named_some _ _ _ E) as (j & Hj & Hname & Hmin).
    assert (k <= j)%nat as Hkj.
    { destruct (Nat.le_gt_cases k j) as [|Hlt]; [done|]. specialize (Hlo j de Hlt Hj).
      rewrite Hname, strncmp_self in Hlo by done. done. }
    destruct (lookup_lt_is_Some_2 members k) as [x Hx]; [apply lookup_lt_Some in Hj; lia|].
    pose proof (Hhi k x (le_n k) Hx) as Hge%Z.ltb_ge.
    pose proof (names_sorted_le _ _ _ _ _ Hs Hok Hkj Hx Hj) as Hle. rewrite Hname in Hle.
    assert (chars (de_name x)) as Hxc by (by apply Hall, (list_elem_of_lookup_2 _ k)).
    pose proof (proj2 (strncmp_mono _ _ name Hxc Hn Hn Hle)) as Hle'. rewrite strncmp_self in Hle' by done.
    destruct (proj1 (strncmp_zero (de_name x) name Hn)) as [s Hxs]; [lia|].
    rewrite Hxs in Hle, Hxc. apply Forall_app in Hxc as [_ Hsc]. rewrite (strcmp_prefix _ _ Hsc Hle), app_nil_r in Hxs.
    assert (k = j) as ->.
    { destruct (Nat.eq_dec k j) as [|Hne]; [done|]. destruct (Hmin k x); [lia|done|done]. }
    rewrite Hj, Hname, strncmp_self by done. rewrite lookup_ge_None_2 by lia. done.
  - destruct (members !! k) as [x|] eqn:Hx; [|done].
    destruct (Z.eqb_spec (strncmp (de_name x) name (length name)) 0) as [Hz|]; [|done]. cbn [andb].
    destruct (Z.eqb_spec (default 0 (de_name x !! length name)) 0) as [Hend|]; [|done].
    apply strncmp_zero in Hz as [s Hxs]; [|done]. pose proof (Hall x (list_elem_of_lookup_2 _ _ _ Hx)) as Hc. cbn in Hc.
    rewrite Hxs in Hc, Hend. apply Forall_app in Hc as [_ Hsc]. apply name_ends in Hend; [|done].
    subst s. rewrite app_nil_r in Hxs. by destruct (entry_named_none _ _ _ _ E Hx).
Qed.

(** ** Well-formed file systems *)

(** The directory that an entry references *)
Definition target (de : dirent) : option Z :=
  if is_directory de then match de_contents de with Directory d => Some d | Octets _ => None end else None.

Record directory_ok (fs : filesystem) (members : list dirent) : Prop := {
  do_sorted : names_sorted members = true;
  do_names : names_ok members;
  do_targets de : de ∈ members -> is_directory de = true ->
    exists d, target de = Some d /\ st_size (de_stat de) = 8 /\ is_Some (fs !! d);
  do_parent : exists de d, entry_named members dot_dot = Some de /\ target de = Some d
}.

Record fs_ok (fs : filesystem) (root : Z) : Prop := {
  fo_directories d members : fs !! d = Some members -> directory_ok fs members;
  fo_root : exists members de, fs !! root = Some members /\ entry_named members dot_dot = Some de /\ target de = Some root
}.

Lemma opendir_spec fs members de :
  directory_ok fs members -> de ∈ members ->
  dirent_opendir de = Ok (match target de with Some d => Value d | None => Error enotdir end).
Proof.
  intros Hok Hin. pose proof (do_targets _ _ Hok de Hin) as Ht. unfold dirent_opendir, target in *.
  destruct (is_directory de); [|done]. destruct (Ht eq_refl) as (d & Hd & -> & _).
  by destruct (de_contents de).
Qed.

Lemma entry_named_in members name de : entry_named members name = Some de -> de ∈ members /\ de_name de = name.
Proof. intros (j & Hj & Hn & _)%entry_named_some. split; [by eapply list_elem_of_lookup_2|done]. Qed.

Lemma target_directory de d : target de = Some d -> is_directory de = true.
Proof. unfold target. by destruct (is_directory de). Qed.

Lemma chars_dot_dot : chars dot_dot.
Proof. repeat constructor. Qed.

(** ** The specification of paths *)

Fixpoint split_slash (p : list Z) : list (list Z) :=
  match p with
  | [] => [[]]
  | c :: p =>
      if c =? slash then [] :: split_slash p
      else match split_slash p with
           | [] => [[c]]
           | x :: xs => (c :: x) :: xs
           end
  end.

(** The names of a path: what is between its slashes *)
Definition components (p : list Z) : list (list Z) := filter (fun c => c <> []) (split_slash p).

(** Following names from the directory [dir]; [de] is the entry that was found last. *)
Fixpoint resolve (fs : filesystem) (dir : Z) (de : dirent) (names : list (list Z)) : error_or dirent :=
  match names with
  | [] => Value de
  | name :: names =>
      match entry_named (default [] (fs !! dir)) name with
      | None => Error enoent
      | Some de' =>
          match target de' with
          | Some dir' => resolve fs dir' de' names
          | None => if bool_decide (names = []) then Value de' else Error enotdir
          end
      end
  end.

Lemma split_slash_cons p : exists x xs, split_slash p = x :: xs.
Proof.
  destruct p as [|c p]; [by eexists _, _|]. cbn. destruct (c =? slash); [by eexists _, _|].
  destruct (split_slash p); by eexists _, _.
Qed.

Lemma split_slash_app p q : split_slash (p ++ slash :: q) = split_slash p ++ split_slash q.
Proof.
  induction p as [|c p IH]; [done|]. cbn [app split_slash]. destruct (c =? slash); [by rewrite IH|].
  rewrite IH. by destruct (split_slash_cons p) as (x & xs & ->).
Qed.

Lemma components_app p q : components (p ++ slash :: q) = components p ++ components q.
Proof. unfold components. by rewrite split_slash_app, filter_app. Qed.

Lemma components_name name : slash ∉ name -> name <> [] -> components name = [name].
Proof.
  intros Hs Hn. unfold components. assert (split_slash name = [name]) as ->.
  { clear Hn. induction name as [|c name IH]; [done|]. apply not_elem_of_cons in Hs as [Hc Hs]. cbn.
    by rewrite (proj2 (Z.eqb_neq c slash)), IH. }
  by rewrite filter_cons_True.
Qed.

Lemma components_slash p : components (slash :: p) = components p.
Proof. exact (components_app [] p). Qed.

Lemma components_next p : components (next_component p) = components p.
Proof.
  induction p as [|c p IH]; [done|]. cbn [next_component]. destruct (Z.eqb_spec c slash) as [->|]; [|done].
  by rewrite components_slash.
Qed.

Lemma next_component_props p :
  head (next_component p) <> Some slash /\ (length (next_component p) <= length p)%nat /\
  (chars p -> chars (next_component p)).
Proof.
  induction p as [|c p IH]; [done|]. cbn [next_component]. destruct (Z.eqb_spec c slash) as [->|Hne].
  - destruct IH as (? & ? & Hc). split_and!; [done|cbn; lia|]. intros Hp. apply Hc. by inversion Hp.
  - split_and!; [|done|done]. cbn. congruence.
Qed.

(** What [path_component] splits off *)
Lemma path_component_spec p component tl :
  path_component p = (component, tl) ->
  p = component ++ tl /\ slash ∉ component /\ (tl = [] \/ exists q, tl = slash :: q).
Proof.
  revert component tl. induction p as [|c p IH]; intros component tl; cbn.
  - intros [= <- <-]. split_and!; [done|set_solver|by left].
  - destruct (Z.eqb_spec c slash) as [->|Hne].
    + intros [= <- <-]. split_and!; [done|set_solver|by right; exists p].
    + destruct (path_component p) as [co t]. intros [= <- <-]. destruct (IH co t eq_refl) as (-> & Hs & Ht).
      split_and!; [done|by apply not_elem_of_cons|done].
Qed.

Lemma parse_loop_spec fs root fuel p dir de :
  fs_ok fs root -> is_Some (fs !! dir) -> chars p -> head p <> Some slash -> (length p <= fuel)%nat ->
  parse_loop fuel fs p dir de = Ok (resolve fs dir de (components p)).
Proof.
  intros Hfs. revert p dir de. induction fuel as [|fuel IH]; intros p dir de [members Hm] Hp Hhd Hlen.
  { by destruct p; [|simpl in Hlen; lia]. }
  destruct p as [|c p]; [done|]. cbn [parse_loop]. destruct (path_component (c :: p)) as [co tl] eqn:E.
  destruct (path_component_spec _ _ _ E) as (Hcp & Hs & Htl).
  assert (co <> []) as Hne.
  { intros ->. cbn in Hcp. destruct Htl as [->|[q ->]]; [done|]. injection Hcp as -> _. done. }
  assert (0 < length co)%nat by (destruct co; [done|simpl; lia]).
  rewrite (proj2 (Nat.ltb_lt 0 (length co))) by done. cbn [oassert obind].
  rewrite Hcp in Hp. apply Forall_app in Hp as [Hco Hct].
  assert (components (c :: p) = co :: components (next_component tl)) as ->.
  { rewrite Hcp, components_next. destruct Htl as [->|[q ->]].
    - by rewrite app_nil_r, components_name.
    - by rewrite components_app, components_slash, components_name. }
  pose proof (fo_directories _ _ Hfs _ _ Hm) as Hok. unfold get_dir. cbn [resolve]. rewrite Hm. cbn [obind default from_option id].
  rewrite find_name_spec by (done || apply Hok). cbn [obind].
  destruct (entry_named members co) as [de'|] eqn:Hn; [|done].
  destruct (entry_named_in _ _ _ Hn) as [Hin _].
  destruct (next_component_props tl) as (Hh & Hl & Hcc).
  apply (f_equal length) in Hcp. rewrite length_app in Hcp.
  destruct (is_directory de') eqn:Hd.
  - destruct (do_targets _ _ Hok de' Hin Hd) as (d & Ht & _ & Hsome). rewrite (opendir_spec _ _ _ Hok Hin), Ht.
    cbn [obind]. apply IH; [done|by apply Hcc|done|lia].
  - assert (target de' = None) as -> by (unfold target; by rewrite Hd).
    destruct (next_component tl) as [|x q] eqn:En.
    + cbn [negb bool_decide]. rewrite bool_decide_true by done. cbn [negb].
      by destruct fuel; cbn [parse_loop components split_slash]; rewrite bool_decide_true.
    + rewrite bool_decide_false by done. cbn [negb].
      assert (components (x :: q) <> []) as Hcn.
      { unfold components. cbn [split_slash]. rewrite (proj2 (Z.eqb_neq x slash)) by (intros ->; by apply Hh).
        destruct (split_slash_cons q) as (y & ys & ->). by rewrite filter_cons_True. }
      by rewrite bool_decide_false.
Qed.

Lemma directory_to_dirent_spec fs root dir members :
  fs_ok fs root -> fs !! dir = Some members ->
  exists de d, entry_named members dot_dot = Some de /\ target de = Some d /\ directory_to_dirent fs dir = Ok de.
Proof.
  intros Hfs Hm. pose proof (fo_directories _ _ Hfs _ _ Hm) as Hok.
  destruct (do_parent _ _ Hok) as (de & d & Hn & Ht). exists de, d. split_and!; [done|done|].
  unfold directory_to_dirent, get_dir. rewrite Hm. cbn [obind].
  rewrite find_name_spec by (apply chars_dot_dot || apply Hok). cbn [obind]. rewrite Hn.
  by rewrite (target_directory _ _ Ht).
Qed.

(** Where the names of a path are looked up first *)
Definition start_dir (r : romfs) (path : list Z) : Z :=
  if bool_decide (head path = Some slash) then root_ r else cwd_ r.

Lemma parse_path_spec fs r path :
  fs_ok fs (root_ r) -> is_Some (fs !! cwd_ r) -> chars path ->
  exists members de, fs !! start_dir r path = Some members /\ entry_named members dot_dot = Some de /\
    parse_path fs r (Some path) (Some (cwd_ r)) = Ok (resolve fs (start_dir r path) de (components path)).
Proof.
  intros Hfs [cm Hcm] Hp. destruct (fo_root _ _ Hfs) as (rm & rde & Hrm & _).
  assert (exists members, fs !! start_dir r path = Some members) as [members Hm].
  { unfold start_dir. case_bool_decide; eauto. }
  destruct (directory_to_dirent_spec _ _ _ _ Hfs Hm) as (de & d & Hn & Ht & Hde).
  exists members, de. split_and!; [done|done|]. unfold parse_path, start_dir in *.
  destruct (next_component_props path) as (Hh & Hl & Hc).
  case_bool_decide as Hs; rewrite Hde; cbn [obind]; rewrite (target_directory _ _ Ht); cbn [oassert obind].
  - rewrite (parse_loop_spec fs (root_ r)); [by rewrite components_next|done|by eexists|by apply Hc|done|done].
  - by rewrite (parse_loop_spec fs (root_ r)); [|done|by eexists| | |].
Qed.

(** ** The working directory *)

(** Following the parents from any directory leads to the root, every directory is a member
    of its parent, and names are those of a path. *)
Record tree_ok (fs : filesystem) (root : Z) (depth : Z -> nat) : Prop := {
  to_fs : fs_ok fs root;
  to_parent d members : fs !! d = Some members -> d <> root ->
    exists de parent pm, entry_named members dot_dot = Some de /\ target de = Some parent /\
      fs !! parent = Some pm /\ (depth parent < depth d)%nat /\ exists de', de' ∈ pm /\ target de' = Some d;
  to_names d members : fs !! d = Some members ->
    NoDup (de_name <$> members) /\ Forall (fun de => slash ∉ de_name de /\ de_name de <> []) members
}.

Lemma find_dir_spec fs members d :
  directory_ok fs members -> (exists de, de ∈ members /\ target de = Some d) ->
  exists de, find_dir members d = Ok (Some de) /\ de ∈ members /\ target de = Some d.
Proof.
  intros Hok. assert (forall de, de ∈ members -> dirent_opendir de =
    Ok (match target de with Some d => Value d | None => Error enotdir end)) as Hopen by (intros; by eapply opendir_spec).
  clear Hok. induction members as [|x members IH]; intros (de & Hin & Ht); [by apply elem_of_nil in Hin|].
  cbn [find_dir]. rewrite Hopen by left. cbn [obind].
  destruct (decide (target x = Some d)) as [Hx|Hx].
  - rewrite Hx, Z.eqb_refl. exists x. split_and!; [done|left|done].
  - destruct IH as (de' & Hf & Hin' & Ht').
    { intros y Hy. apply Hopen. by right. }
    { exists de. apply elem_of_cons in Hin as [->|Hin]; [done|]. done. }
    exists de'. split_and!; [|by right|done]. destruct (target x) as [d'|]; [|done].
    by rewrite (proj2 (Z.eqb_neq d' d)) by congruence.
Qed.

Lemma entry_named_self members de :
  NoDup (de_name <$> members) -> de ∈ members -> entry_named members (de_name de) = Some de.
Proof.
  induction members as [|x members IH]; intros Hnd Hin; [by apply elem_of_nil in Hin|].
  apply NoDup_cons in Hnd as [Hx Hnd]. cbn [entry_named]. apply elem_of_cons in Hin as [<-|Hin]; [by rewrite decide_True|].
  rewrite decide_False; [by apply IH|]. intros Heq. apply Hx. rewrite Heq. by apply list_elem_of_fmap_2.
Qed.

(** Paths are followed name by name. *)
Lemma resolve_app fs dir de names de1 d1 rest :
  target de = Some dir -> resolve fs dir de names = Value de1 -> target de1 = Some d1 ->
  resolve fs dir de (names ++ rest) = resolve fs d1 de1 rest.
Proof.
  revert dir de. induction names as [|n names IH]; intros dir de Ht; cbn [resolve app].
  - intros [= ->] Ht1. congruence.
  - destruct (entry_named _ n) as [de'|]; [|done]. destruct (target de') as [d'|] eqn:Ht'; [by apply IH|].
    case_bool_decide; [|done]. intros [= ->]. congruence.
Qed.

(** The path of a directory leads back to it. *)
Lemma dir_to_string_spec fs root depth fuel d members rm rde :
  tree_ok fs root depth -> fs !! root = Some rm -> entry_named rm dot_dot = Some rde -> target rde = Some root ->
  fs !! d = Some members -> (depth d <= fuel)%nat ->
  exists s de, dir_to_string fuel fs root d = Ok (Value s) /\ chars s /\ head s = Some slash /\
    resolve fs root rde (components s) = Value de /\ target de = Some d.
Proof.
  intros Htree Hrm Hrde Hroot. revert d members. induction fuel as [|fuel IH]; intros d members Hm Hd; cbn [dir_to_string].
  all: destruct (Z.eqb_spec d root) as [->|Hne]; [exists [slash], rde; by repeat constructor|].
  all: destruct (to_parent _ _ _ Htree d members Hm Hne) as (de & parent & pm & Hn & Ht & Hpm & Hlt & Hchild).
  1: lia.
  destruct (IH parent pm Hpm ltac:(lia)) as (s & dp & Hs & Hsc & Hhd & Hres & Htp).
  pose proof (fo_directories _ _ (to_fs _ _ _ Htree)) as Hall.
  pose proof (Hall d members Hm) as Hok. pose proof (Hall parent pm Hpm) as Hokp.
  destruct (find_dir_spec fs pm d Hokp Hchild) as (de' & Hf & Hin' & Ht').
  destruct (to_names _ _ _ Htree parent pm Hpm) as [Hnd Hnames].
  destruct (proj1 (Forall_forall _ _) Hnames de' Hin') as [Hslash Hnonempty].
  pose proof (proj1 (Forall_forall _ _) (do_names _ _ Hokp) de' Hin') as Hchars. cbn in Hchars.
  unfold get_dir. rewrite Hm. cbn [obind]. rewrite find_name_spec by (apply chars_dot_dot || apply Hok).
  cbn [obind]. rewrite Hn. rewrite (opendir_spec _ _ _ Hok (proj1 (entry_named_in _ _ _ Hn))), Ht. cbn [obind eo_bind].
  rewrite Hs. cbn [obind eo_bind]. assert (0 < length s)%nat by (destruct s; [done|simpl; lia]).
  rewrite (proj2 (Nat.ltb_lt 0 (length s))), Hpm by done. cbn [oassert obind]. rewrite Hf. cbn [obind].
  set (s' := if bool_decide (last s = Some slash) then s else s ++ [slash]).
  assert (exists s0, s' = s0 ++ [slash] /\ components s0 = components s /\ chars s0 /\
    (head (s0 ++ [slash]) = Some slash)) as (s0 & -> & Hcs & Hsc0 & Hhd0).
  { subst s'. case_bool_decide as Hl.
    - apply last_Some in Hl as [s0 ->]. exists s0. rewrite components_app, app_nil_r.
      apply Forall_app in Hsc as [? _]. by split_and!.
    - exists s. split_and!; [done|done|done|]. by destruct s. }
  exists ((s0 ++ [slash]) ++ de_name de'), de'. rewrite <- (assoc_L (++)). cbn [app].
  split_and!; [done| |by destruct s0| |done].
  - apply Forall_app. split; [done|]. by constructor.
  - rewrite components_app, (components_name (de_name de')), Hcs by done.
    rewrite (resolve_app _ _ _ _ dp parent) by done. cbn [resolve]. rewrite Hpm. cbn [default from_option id].
    by rewrite entry_named_self, Ht'.
Qed.

(** ** The check of the file system *)

(** The directories that the root references *)
Definition subdirectories (fs : filesystem) (root : Z) : list Z :=
  omap target (default [] (fs !! root)).

Lemma check_members_ext (check check' : Z -> list Z -> outcome bool) visited members :
  (forall de d, de ∈ members -> target de = Some d -> check d (d :: visited) = check' d (d :: visited)) ->
  check_members check visited members = check_members check' visited members.
Proof.
  induction members as [|de members IH]; intros Hext; [done|]. cbn [check_members].
  assert (check_members check visited members = check_members check' visited members) as Hrest.
  { apply IH. intros de' d Hin. apply Hext. by right. }
  destruct (is_directory de) eqn:Hd; [|done].
  destruct (dirent_opendir de) as [[e|d]|e] eqn:Ho; cbn [obind]; [done| |done].
  assert (target de = Some d) as Ht.
  { unfold target, dirent_opendir in *. rewrite Hd in *. cbn [negb orb] in Ho.
    destruct (st_size (de_stat de) =? 8); cbn [negb] in Ho; [|done]. destruct (de_contents de); [done|]. by injection Ho as ->. }
  rewrite (Hext de d) by (done || left). destruct (check' d (d :: visited)) as [[]|]; cbn [obind]; done.
Qed.

(** One level of the check: the tests of a directory, with what is done for its members *)
Definition check_level (fs : filesystem) (self parent : Z) (visited : list Z)
    (descend : Z -> list Z -> outcome bool) : outcome bool :=
  members <-? get_dir fs self ;;
  if negb (names_sorted members) then Ok false
  else
    d <-? find_name members dot ;;
    self_ok <-? is_expected_dir d self ;;
    if negb self_ok then Ok false
    else
      dd <-? find_name members dot_dot ;;
      parent_ok <-? is_expected_dir dd parent ;;
      if negb parent_ok then Ok false
      else check_members descend visited members.

Lemma check_level_ext fs fs' self parent visited f f' :
  fs !! self = fs' !! self ->
  (forall de d, de ∈ default [] (fs !! self) -> target de = Some d -> f d (d :: visited) = f' d (d :: visited)) ->
  check_level fs self parent visited f = check_level fs' self parent visited f'.
Proof.
  intros Hfs Hf. unfold check_level, get_dir. rewrite <- Hfs. destruct (fs !! self) as [members|]; [|done]. cbn [obind].
  destruct (names_sorted members); [|done]. cbn [negb].
  destruct (find_name members dot) as [od|]; [|done]. cbn [obind].
  destruct (is_expected_dir od self) as [[]|]; [|done..]. cbn [obind negb].
  destruct (find_name members dot_dot) as [od2|]; [|done]. cbn [obind].
  destruct (is_expected_dir od2 parent) as [[]|]; [|done..]. cbn [obind negb]. by apply check_members_ext.
Qed.

(** The check descends from the root to its subdirectories and no further: with the
    parent of every deeper directory already among the visited ones, these are skipped. *)
Lemma fsck_levels fs root :
  fsck fs root = check_level fs root root [] (fun d _ =>
    if d =? root then Ok true else check_level fs d root [d] (fun _ _ => Ok true)).
Proof.
  unfold fsck. change (directory_check 2 fs root root []) with
    (check_level fs root root [] (fun d visited => directory_check 1 fs d root visited)).
  apply check_level_ext; [done|]. intros _ d _ _. cbn [directory_check].
  destruct (Z.eqb_spec d root) as [->|Hne].
  - by rewrite bool_decide_true by left.
  - rewrite bool_decide_false by (intros ?%list_elem_of_singleton; congruence).
    fold (check_level fs d root [d] (fun d' visited => directory_check 0 fs d' d visited)).
    apply check_level_ext; [done|]. intros _ d' _ _. cbn [directory_check]. rewrite bool_decide_true by (right; left). done.
Qed.

Lemma fsck_shallow fs fs' root :
  (forall d, d = root \/ d ∈ subdirectories fs root -> fs !! d = fs' !! d) -> fsck fs root = fsck fs' root.
Proof.
  intros Hfs. rewrite !fsck_levels. apply check_level_ext; [apply Hfs; by left|]. intros de d Hin Ht.
  destruct (d =? root); [done|]. apply check_level_ext; [|done]. apply Hfs. right.
  apply list_elem_of_omap. eauto.
Qed.

(** ** Reading *)

(** How many elements of [size] octets there are from [pos] on, up to [count] *)
Definition elements_from (octets : list Z) (size count pos : Z) : Z :=
  Z.max 0 (Z.min count ((Z.of_nat (length octets) - pos) / size)).

Lemma elements_from_none octets size count pos :
  0 < size -> Z.of_nat (length octets) < pos + size -> elements_from octets size count pos = 0.
Proof.
  intros Hs Hlt. unfold elements_from. assert ((Z.of_nat (length octets) - pos) / size < 1); [|lia].
  apply Z.div_lt_upper_bound; lia.
Qed.

Lemma elements_from_step octets size count pos :
  0 < size -> 0 <= count -> pos + size <= Z.of_nat (length octets) ->
  elements_from octets size (count + 1) pos = 1 + elements_from octets size count (pos + size).
Proof.
  intros Hs Hc Hle. unfold elements_from.
  replace (Z.of_nat (length octets) - pos) with (Z.of_nat (length octets) - (pos + size) + 1 * size) by lia.
  rewrite Z.div_add by lia.
  pose proof (Z.div_pos (Z.of_nat (length octets) - (pos + size)) size ltac:(lia) Hs). lia.
Qed.

Lemma take_drop_chunk (octets : list Z) (a b p : nat) :
  take a (drop p octets) ++ take b (drop (p + a) octets) = take (a + b) (drop p octets).
Proof. by rewrite <- drop_drop, take_take_drop. Qed.

Lemma read_loop_spec octets size count pos :
  0 < size -> 0 <= pos -> pos + size * Z.of_nat count < 2 ^ 64 ->
  read_loop count octets (Z.of_nat (length octets)) size pos =
    let n := elements_from octets size (Z.of_nat count) pos in
    Ok (take (Z.to_nat (n * size)) (drop (Z.to_nat pos) octets), Z.to_nat n, pos + n * size).
Proof.
  intros Hs. revert pos. induction count as [|count IH]; intros pos Hp Hfit; cbn [read_loop].
  - assert (elements_from octets size (Z.of_nat 0) pos = 0) as -> by (unfold elements_from; lia). cbn. by rewrite Z.add_0_r.
  - rewrite Nat2Z.inj_succ, <- Z.add_1_r in *. rewrite wrap_small by nia. rewrite !Z.gtb_ltb.
    destruct (Z.ltb_spec (Z.of_nat (length octets)) (pos + size)) as [Hlt|Hle].
    + rewrite elements_from_none by done. cbn. by rewrite Z.add_0_r.
    + rewrite (IH (pos + size)) by nia. rewrite elements_from_step by lia. cbn [obind].
      set (n := elements_from octets size (Z.of_nat count) (pos + size)).
      assert (0 <= n) by (unfold n, elements_from; lia).
      rewrite (Z2Nat.inj_add pos size) by lia. rewrite take_drop_chunk.
      replace (Z.to_nat ((1 + n) * size)) with (Z.to_nat size + Z.to_nat (n * size))%nat by nia.
      replace (Z.to_nat (1 + n)) with (S (Z.to_nat n)) by lia. by replace (pos + (1 + n) * size) with (pos + size + n * size) by lia.
Qed.

(** Reading from an open file, at any position, yields as many whole elements as were
    asked for and are left, with the octets of the file from the position on, and moves
    the position past them; the file's own entry is not changed. Positions past the end
    yield nothing. *)
Lemma file_read_exact de octets pos size count :
  de_contents de = Octets octets -> st_size (de_stat de) = Z.of_nat (length octets) ->
  0 <= pos -> 0 <= size -> 0 <= count -> pos + size * count < 2 ^ 64 ->
  let n := if (size =? 0) then 0 else elements_from octets size count pos in
  file_read (OpenFile de pos) size count =
    Ok (take (Z.to_nat (n * size)) (drop (Z.to_nat pos) octets), n, OpenFile de (pos + n * size)) /\
  (0 < size -> n <= count /\ (n < count -> Z.of_nat (length octets) < pos + (n + 1) * size)).
Proof.
  intros Hc Hst Hp Hs Hcount Hfit n. split.
  - unfold file_read. cbn [of_dir of_pos]. subst n. destruct (Z.eqb_spec size 0) as [->|Hs0]; cbn [orb].
    { cbn. by rewrite Z.add_0_r. }
    destruct (Z.eqb_spec count 0) as [->|Hc0].
    { assert (elements_from octets size 0 pos = 0) as -> by (unfold elements_from; lia). cbn. by rewrite Z.add_0_r. }
    rewrite Hc, Hst, read_loop_spec by (rewrite ?Z2Nat.id by lia; lia). cbn [obind]. rewrite Z2Nat.id by lia.
    rewrite Z2Nat.id; [done|unfold elements_from; lia].
  - intros Hpos. subst n. rewrite (proj2 (Z.eqb_neq size 0)) by lia. unfold elements_from. split; [lia|].
    pose proof (Z.mod_pos_bound (Z.of_nat (length octets) - pos) size Hpos).
    pose proof (Z.div_mod (Z.of_nat (length octets) - pos) size ltac:(lia)).
    set (q := (Z.of_nat (length octets) - pos) / size) in *. intros Hlt.
    destruct (Z.le_gt_cases 0 q); [replace (Z.max 0 (Z.min count q)) with q by lia; nia|].
    replace (Z.max 0 (Z.min count q)) with 0 by lia. nia.
Qed.

(** ** Paths and the working directory *)

Lemma resolve_opendir fs root dir de names de' :
  fs_ok fs root ->
  dirent_opendir de = Ok (match target de with Some d => Value d | None => Error enotdir end) ->
  resolve fs dir de names = Value de' ->
  dirent_opendir de' = Ok (match target de' with Some d => Value d | None => Error enotdir end).
Proof.
  intros Hfs. revert dir de. induction names as [|n names IH]; intros dir de Hde; cbn [resolve]; [by intros [= <-]|].
  destruct (fs !! dir) as [members|] eqn:Hm; cbn [default from_option id]; [|done].
  destruct (entry_named members n) as [de1|] eqn:Hn; [|done].
  pose proof (opendir_spec _ _ _ (fo_directories _ _ Hfs _ _ Hm) (proj1 (entry_named_in _ _ _ Hn))) as Ho.
  destruct (target de1) as [d|] eqn:Ht.
  - apply IH. by rewrite Ht.
  - case_bool_decide; [|done]. intros [= <-]. by rewrite Ht.
Qed.

(** C33: paths. In a well-formed file system a path designates what following its names from
    the root, or from the working directory, leads to; the errors are [enoent] for a name that
    does not exist and [enotdir] for one that is used as a directory and is none. A change
    of the working directory moves to the directory that the path designates and to no
    other place, and the string that describes the working directory is a path that leads
    to it from anywhere. *)
Theorem romfs_paths fs r depth path :
  tree_ok fs (root_ r) depth -> is_Some (fs !! cwd_ r) -> chars path ->
  (exists members de, fs !! start_dir r path = Some members /\ entry_named members dot_dot = Some de /\
     let found := resolve fs (start_dir r path) de (components path) in
     parse_path fs r (Some path) (Some (cwd_ r)) = Ok found /\
     chdir fs r path = Ok (match found with
                           | Error e => (Some e, r)
                           | Value de => match target de with
                                         | Some d => (None, Romfs (root_ r) d)
                                         | None => (Some enotdir, r)
                                         end
                           end)) /\
  exists s de, getcwd (depth (cwd_ r)) fs r = Ok (Value s) /\ target de = Some (cwd_ r) /\
    forall cwd', is_Some (fs !! cwd') -> parse_path fs (Romfs (root_ r) cwd') (Some s) (Some cwd') = Ok (Value de).
Proof.
  intros Htree Hcwd Hp. pose proof (to_fs _ _ _ Htree) as Hfs. split.
  - destruct (parse_path_spec fs r path Hfs Hcwd Hp) as (members & de & Hm & Hn & Hparse).
    exists members, de. split; [done|]. split; [done|]. cbn zeta. split; [done|]. unfold chdir. rewrite Hparse. cbn [obind].
    pose proof (opendir_spec _ _ _ (fo_directories _ _ Hfs _ _ Hm) (proj1 (entry_named_in _ _ _ Hn))) as Ho.
    destruct (resolve fs (start_dir r path) de (components path)) as [e|de'] eqn:Hres; [done|].
    cbn [eo_bind]. rewrite (resolve_opendir _ _ _ _ _ _ Hfs Ho Hres). by destruct (target de').
  - destruct Hcwd as [cm Hcm]. destruct (fo_root _ _ Hfs) as (rm & rde & Hrm & Hrde & Hroot).
    destruct (dir_to_string_spec fs (root_ r) depth (depth (cwd_ r)) (cwd_ r) cm rm rde) as (s & de & Hs & Hsc & Hh & Hres & Ht);
      try done. exists s, de. split_and!; [done|done|]. intros cwd' Hcwd'.
    destruct (parse_path_spec fs (Romfs (root_ r) cwd') s Hfs Hcwd' Hsc) as (ms & de0 & Hm & Hn & Hparse).
    cbn [cwd_] in Hparse. rewrite Hparse. unfold start_dir in *. rewrite bool_decide_true in Hm |- * by done. cbn [root_] in *.
    rewrite Hrm in Hm. injection Hm as <-. rewrite Hrde in Hn. injection Hn as <-. by rewrite Hres.
Qed.

(** ** Examples *)

(** The root with a directory [a] and a file [f]; [a] has a directory [b]. *)
Definition example_fs : filesystem :=
  {[ 100 := [dirent_of_directory dot 100; dirent_of_directory dot_dot 100; dirent_of_directory [97] 200;
             Dirent [102] (Octets [1; 2; 3; 4; 5]) (Stat 5 0 file_mode)];
     200 := [dirent_of_directory dot 200; dirent_of_directory dot_dot 100; dirent_of_directory [98] 300];
     300 := [dirent_of_directory dot 300; dirent_of_directory dot_dot 200] ]}.

Definition example_depth (d : Z) : nat := if d =? 100 then 0 else if d =? 200 then 1 else 2.

Lemma example_tree : tree_ok example_fs 100 example_depth.
Proof.
  assert (forall d members, example_fs !! d = Some members ->
    (d = 100 /\ members = default [] (example_fs !! 100)) \/ (d = 200 /\ members = default [] (example_fs !! 200)) \/
    (d = 300 /\ members = default [] (example_fs !! 300))) as Hcases.
  { intros d members Hd. unfold example_fs in *.
    repeat (apply lookup_insert_Some in Hd as [[<- <-]|[_ Hd]]; [by auto|]). apply lookup_singleton_Some in Hd as [<- <-]. auto. }
  split.
  - split.
    + intros d members [[-> ->]|[[-> ->]|[-> ->]]]%Hcases;
        (split; [reflexivity|repeat constructor| |eexists _, _; split; reflexivity]);
        intros de Hin Hd; cbn in Hin;
        repeat (apply elem_of_cons in Hin as [->|Hin];
          [first [discriminate|eexists; split; [reflexivity|]; split; [reflexivity|]; eexists; reflexivity]|]);
        by apply elem_of_nil in Hin.
    + eexists _, _. split; [reflexivity|]. split; reflexivity.
  - intros d members [[-> ->]|[[-> ->]|[-> ->]]]%Hcases Hne; [done|..].
    + eexists _, _, _. do 3 (split; [reflexivity|]). split; [cbn; lia|]. eexists. split; [right; right; left|reflexivity].
    + eexists _, _, _. do 3 (split; [reflexivity|]). split; [cbn; lia|]. eexists. split; [right; right; left|reflexivity].
  - intros d members [[-> ->]|[[-> ->]|[-> ->]]]%Hcases; (split; [by apply (bool_decide_unpack _)|]);
      repeat (constructor; [split; [by apply (bool_decide_unpack _)|done]|]); constructor.
Qed.

(** From [/a], the path [b/..//] is [/a] again. *)
Lemma romfs_paths_witness :
  (exists de, parse_path example_fs (Romfs 100 200) (Some [98; 47; 46; 46; 47; 47]) (Some 200) = Ok (Value de) /\
     target de = Some 200) /\
  exists s de, getcwd 1 example_fs (Romfs 100 200) = Ok (Value s) /\ s = [47; 97] /\ target de = Some 200 /\
    parse_path example_fs (Romfs 100 300) (Some s) (Some 300) = Ok (Value de).
Proof.
  destruct (romfs_paths example_fs (Romfs 100 200) example_depth [98; 47; 46; 46; 47; 47])
    as [(members & de & Hm & Hn & Hp & _) (s & de' & Hs & Ht & Hr)]; [apply example_tree|by eexists|repeat constructor|].
  split.
  - vm_compute in Hm. injection Hm as <-. vm_compute in Hn. injection Hn as <-.
    eexists. split; [exact Hp|]. reflexivity.
  - exists s, de'. split; [exact Hs|]. split; [vm_compute in Hs; by injection Hs|]. split; [exact Ht|]. apply Hr. by eexists.
Defined.

(** A position past 2^64 - size wraps the test of the file's end. *)
Example read_wraps :
  let de := Dirent [102] (Octets [1; 2; 3; 4; 5]) (Stat 5 0 file_mode) in
  (f <-? file_seek (OpenFile de 0) (2 ^ 63 - 1) SEEK_SET ;;
   f <-? file_seek f.2 (2 ^ 63 - 1) SEEK_CUR ;;
   file_read f.2 4 1) = Throw Dangling.
Proof. vm_compute. reflexivity. Qed.

(** The empty path designates the parent of the working directory. *)
Example empty_path :
  chdir example_fs (Romfs 100 300) [] = Ok (None, Romfs 100 200).
Proof. vm_compute. reflexivity. Qed.

(** A directory below the second level may lack its entries, or be unsorted. *)
Example fsck_misses :
  fsck example_fs 100 = Ok true /\
  fsck (<[300 := [dirent_of_directory [98] 300; dirent_of_directory [97] 7]]> example_fs) 100 = Ok true /\
  fsck (<[200 := []]> example_fs) 100 = Ok false.
Proof. vm_compute. split_and!; reflexivity. Qed.
