(* ===== verification/Http.v ===== *)
(** * Reading HTTP requests

    Models include/pstore/http/buffered_reader.hpp, request.hpp and lib/http/headers.cpp: the
    reader that buffers what a socket delivers in pieces, the lines of a request, the
    request itself and its headers. Octets and characters are integers from 0 to 255. The
    function that refills the buffer belongs to the client of the reader; it is an
    argument of the definitions. *)

From S2P Require Import Prelude Chars.

(** ** Errors *)

(** The error codes of http/error.hpp and http/ws_server.hpp, and those of the system *)
Inductive http_error :=
  | bad_request | bad_websocket_version | not_implemented | string_too_long | refill_out_of_range
  | reserved_bit_set | payload_too_long | unmasked_frame | message_too_long | insufficient_data
  | not_connected
  | system_error (code : Z).

#[global] Instance http_error_eq_dec : EqDecision http_error.
Proof. solve_decision. Defined.

(** [error_or] and [error_or_n] *)
Inductive error_or (A : Type) :=
  | Err (e : http_error)
  | Val (a : A).
Arguments Err {A} _.
Arguments Val {A} _.

(** [operator>>=] *)
Definition ebind {S A B} (m : M S (error_or A)) (f : A -> M S (error_or B)) : M S (error_or B) :=
  r <- m ;;
  match r with
  | Err e => ret (Err e)
  | Val a => f a
  end.

Notation "' p <-! c ;; k" := (ebind c (fun p => k))
  (at level 20, p pattern, c at level 99, k at level 200, right associativity) : pstore_scope.

(** ** The buffered reader *)

(** The data members of [buffered_reader]; the iterators are offsets in the buffer. *)
Record reader := Reader {
  buf_ : list Z;
  pos_ : nat;
  end_ : nat;
  is_eof_ : bool;
  push_ : option Z
}.

(** The constructor *)
Definition make_reader (buffer_size : nat) : reader :=
  Reader (replicate (Nat.max buffer_size 1) 0) 0 0 false None.

(** [check_invariants] *)
Definition check_invariants : M reader unit :=
  r <- get ;;
  massert ((pos_ r <=? end_ r) && (pos_ r <=? length (buf_ r)) && (end_ r <=? length (buf_ r)))%nat.

(** [available] *)
Definition available (r : reader) : nat :=
  (end_ r - pos_ r + match push_ r with Some _ => 1 | None => 0 end)%nat.

Definition uint32_max : Z := 2 ^ 32 - 1.
Definition max_string_length : nat := 256.
Definition cr : Z := 13.
Definition lf : Z := 10.

Section reader.
Context {IO : Type} (refill : IO -> nat -> error_or (IO * list Z)).

(** The octets that [refill] delivers are at the beginning of the buffer. *)
Definition refilled (data : list Z) (r : reader) : reader :=
  Reader (data ++ drop (length data) (buf_ r)) 0 (length data) (is_eof_ r) (push_ r).

(** The loop of [get_span_impl]: [size] octets are still wanted, [got] have been copied. *)
Fixpoint get_span_loop (fuel : nat) (io : IO) (size : nat) (got : list Z) : M reader (error_or (IO * list Z)) :=
  r <- get ;;
  if (size =? 0)%nat || is_eof_ r then ret (Val (io, got))
  else
    match fuel with
    | 0%nat => throw OutOfFuel
    | S fuel =>
        let copy (io : IO) : M reader (error_or (IO * list Z)) :=
          check_invariants ;;;
          r <- get ;;
          let to_copy := Nat.min (end_ r - pos_ r) size in
          put (Reader (buf_ r) (pos_ r + to_copy) (end_ r) (is_eof_ r) (push_ r)) ;;;
          get_span_loop fuel io (size - to_copy) (got ++ take to_copy (drop (pos_ r) (buf_ r))) in
        if (pos_ r =? end_ r)%nat then
          match refill io (length (buf_ r)) with
          | Err e => ret (Err e)
          | Val (io, data) =>
              if bool_decide (data = []) then
                put (Reader (buf_ r) (pos_ r) (end_ r) true (push_ r)) ;;;
                ret (Val (io, got))
              else put (refilled data r) ;;; copy io
          end
        else copy io
    end.

(** [get_span_impl]: every iteration copies at least one octet or is the last *)
Definition get_span (io : IO) (size : nat) : M reader (error_or (IO * list Z)) :=
  r <- get ;;
  match push_ r with
  | Some c =>
      if (0 <? size)%nat then
        put (Reader (buf_ r) (pos_ r) (end_ r) (is_eof_ r) None) ;;;
        get_span_loop size io (size - 1) [c]
      else get_span_loop size io size []
  | None => get_span_loop size io size []
  end.

(** [geto] and [getc] *)
Definition getc (io : IO) : M reader (error_or (IO * option Z)) :=
  '(io2, sp) <-! get_span io 1 ;;
  ret (Val (io2, match sp with [c] => Some c | _ => None end)).

(** [gets_impl] *)
Fixpoint gets_impl (fuel : nat) (io : IO) (str : list Z) : M reader (error_or (IO * option (list Z))) :=
  match fuel with
  | 0%nat => throw OutOfFuel
  | S fuel =>
      let eos io2 := ret (Val (io2, if bool_decide (str = []) then None else Some str)) in
      '(io3, mc) <-! getc io ;;
      match mc with
      | None => eos io3
      | Some c =>
          if c =? cr then
            '(io4, mc2) <-! getc io3 ;;
            match mc2 with
            | None => eos io4
            | Some c2 =>
                (if negb (c2 =? lf) then
                   r <- get ;;
                   massert (bool_decide (push_ r = None)) ;;;
                   put (Reader (buf_ r) (pos_ r) (end_ r) (is_eof_ r) (Some c2))
                 else ret tt) ;;;
                ret (Val (io4, Some str))
            end
          else if c =? lf then ret (Val (io3, Some str))
          else if (max_string_length <=? length str)%nat then ret (Err string_too_long)
          else gets_impl fuel io3 (str ++ [c])
      end
  end.

(** [gets]; a string that is too long ends the recursion *)
Definition gets (io : IO) : M reader (error_or (IO * option (list Z))) :=
  gets_impl (max_string_length + 1) io [].

(** ** Requests *)

(** [operator>>] of an input stream: skips white space and extracts a word *)
Fixpoint take_word (s : list Z) : list Z * list Z :=
  match s with
  | c :: s' => if isspace c then ([], s) else let '(w, rest) := take_word s' in (c :: w, rest)
  | [] => ([], [])
  end.

Definition extract (s : list Z) : list Z * list Z := take_word (skip_space s).

Record request_info := RequestInfo { method_ : list Z; uri_ : list Z; version_ : list Z }.

(** [read_request] *)
Definition read_request (io : IO) : M reader (error_or (IO * request_info)) :=
  '(io2, buf) <-! gets io ;;
  match buf with
  | None => ret (Err not_connected)
  | Some s =>
      let '(method, s) := extract s in
      let '(uri, s) := extract s in
      let '(version, s) := extract s in
      if bool_decide (method = []) || bool_decide (uri = []) || bool_decide (version = [])
      then ret (Err not_connected)
      else ret (Val (io2, RequestInfo method uri version))
  end.

(** [std::string::find] of a character, and the parts before and after it *)
Fixpoint split_at (sep : Z) (s : list Z) : option (list Z * list Z) :=
  match s with
  | [] => None
  | c :: s =>
      if c =? sep then Some ([], s)
      else match split_at sep s with
           | None => None
           | Some (before, after) => Some (c :: before, after)
           end
  end.

(** The loop that skips white space in front of a value: it calls [std::isspace] on a plain [char], which is
    undefined for an octet that is negative as one. *)
Fixpoint skip_optional_space (s : list Z) : outcome (list Z) :=
  match s with
  | c :: s' => if 128 <=? c then Throw Undefined else if isspace c then skip_optional_space s' else Ok s
  | [] => Ok []
  end.

(** The key and the value of a line of the headers *)
Definition header_line (ms : list Z) : outcome (list Z * list Z) :=
  match split_at 58 ms with
  | None => Ok ([], ms)
  | Some (key, after) =>
      value <-? skip_optional_space after ;;
      Ok (tolower <$> key, value)
  end.

(** [read_headers]; [fuel] bounds the number of lines *)
Fixpoint read_headers {H : Type} (fuel : nat) (handler : H -> list Z -> list Z -> H) (io : IO) (handler_state : H) :
    M reader (error_or (IO * H)) :=
  match fuel with
  | 0%nat => throw OutOfFuel
  | S fuel =>
      '(state2, ms) <-! gets io ;;
      match ms with
      | None => ret (Val (state2, handler_state))
      | Some [] => ret (Val (state2, handler_state))
      | Some ms =>
          '(key, value) <- lift (header_line ms) ;;
          read_headers fuel handler state2 (handler handler_state key value)
      end
  end.
End reader.

(** ** Headers *)

(** The data members of [header_info] *)
Record header_info := HeaderInfo {
  upgrade_to_websocket : bool;
  connection_upgrade : bool;
  websocket_key : option (list Z);
  websocket_version : option Z
}.

(** [case_insensitive_equal] *)
Definition case_insensitive_equal (a b : list Z) : bool := bool_decide (tolower <$> a = tolower <$> b).

(** [split] *)
Fixpoint split (sep : Z) (s : list Z) : list (list Z) :=
  match s with
  | [] => [[]]
  | c :: s =>
      if c =? sep then [] :: split sep s
      else match split sep s with
           | [] => [[c]]
           | x :: xs => (c :: x) :: xs
           end
  end.

(** The white space around a string is removed: at the end first, then at the beginning. *)
Definition trim (s : list Z) : list Z := skip_space (reverse (skip_space (reverse s))).

Definition str_websocket : list Z := [119; 101; 98; 115; 111; 99; 107; 101; 116].
Definition str_upgrade : list Z := [117; 112; 103; 114; 97; 100; 101].
Definition str_connection : list Z := [99; 111; 110; 110; 101; 99; 116; 105; 111; 110].
Definition str_key : list Z := [115; 101; 99; 45; 119; 101; 98; 115; 111; 99; 107; 101; 116; 45; 107; 101; 121].
Definition str_version : list Z :=
  [115; 101; 99; 45; 119; 101; 98; 115; 111; 99; 107; 101; 116; 45; 118; 101; 114; 115; 105; 111; 110].

(** [upgrade] *)
Definition upgrade (hi : header_info) (value : list Z) : header_info :=
  if case_insensitive_equal str_websocket value
  then HeaderInfo true (connection_upgrade hi) (websocket_key hi) (websocket_version hi) else hi.

(** [connection] *)
Definition connection (hi : header_info) (value : list Z) : header_info :=
  foldl (fun hi str =>
           if case_insensitive_equal str_upgrade (trim str)
           then HeaderInfo (upgrade_to_websocket hi) true (websocket_key hi) (websocket_version hi) else hi)
        hi (split 44 value).

(** [sec_websocket_key] *)
Definition sec_websocket_key (hi : header_info) (value : list Z) : header_info :=
  HeaderInfo (upgrade_to_websocket hi) (connection_upgrade hi) (Some value) (websocket_version hi).

(** The loop of [str_to_num], with unsigned arithmetic *)
Fixpoint str_to_num (num : Z) (v : list Z) : option Z :=
  match v with
  | [] => Some num
  | c :: v =>
      if (48 <=? c) && (c <=? 57) then
        if num >? uint32_max / 10 - 10 then None
        else str_to_num (wrap32 (num * 10 + (c - 48))) v
      else None
  end.

(** [sec_websocket_version] *)
Definition sec_websocket_version (hi : header_info) (value : list Z) : header_info :=
  HeaderInfo (upgrade_to_websocket hi) (connection_upgrade hi) (websocket_key hi) (str_to_num 0 value).

(** [header_info::handler] *)
Definition header_handler (hi : header_info) (key value : list Z) : header_info :=
  if bool_decide (key = str_connection) then connection hi value
  else if bool_decide (key = str_upgrade) then upgrade hi value
  else if bool_decide (key = str_key) then sec_websocket_key hi value
  else if bool_decide (key = str_version) then sec_websocket_version hi value
  else hi.

(** ** The stream behind a reader

    What the documentation asks of a refill function: it delivers the next octets of the
    source, at most as many as the buffer holds, and none only at the end. *)

Class RefillLaws {IO : Type} (refill : IO -> nat -> error_or (IO * list Z)) (rest : IO -> list Z) := {
  refill_ok io size : (0 < size)%nat ->
    exists io' data, refill io size = Val (io', data) /\ rest io = data ++ rest io' /\
      (length data <= size)%nat /\ (data = [] -> rest io = [])
}.

Section stream.
Context {IO : Type} (refill : IO -> nat -> error_or (IO * list Z)) (rest : IO -> list Z) `{!RefillLaws refill rest}.
Implicit Types r : reader.

Record reader_ok r : Prop := {
  ro_order : (pos_ r <= end_ r <= length (buf_ r))%nat;
  ro_size : (0 < length (buf_ r))%nat;
  ro_eof : is_eof_ r = true -> pos_ r = end_ r
}.

(** The octets in the buffer *)
Definition buffered r : list Z := take (end_ r - pos_ r) (drop (pos_ r) (buf_ r)).

(** The octets that are still to be read *)
Definition stream (io : IO) r : list Z :=
  option_list (push_ r) ++ buffered r ++ (if is_eof_ r then [] else rest io).

Lemma make_reader_ok n : reader_ok (make_reader n).
Proof. split; cbn; rewrite ?length_replicate; [lia|lia|done]. Qed.

Lemma make_reader_stream n io : stream io (make_reader n) = rest io.
Proof. done. Qed.

Lemma buffered_length r : reader_ok r -> length (buffered r) = (end_ r - pos_ r)%nat.
Proof. intros [[? ?] _ _]. unfold buffered. rewrite length_take, length_drop. lia. Qed.

Lemma wp_check_invariants r (Q : unit -> reader -> Prop) : reader_ok r -> Q tt r -> wp check_invariants Q r.
Proof.
  intros [[? ?] _ _] HQ. unfold check_invariants. wp_head. unfold get. eapply wp_eq; [reflexivity|]. wp_head; [|done].
  rewrite !andb_true_iff, !Nat.leb_le. lia.
Qed.

(** Copying from the buffer *)
Definition advanced r n : reader := Reader (buf_ r) (pos_ r + n) (end_ r) (is_eof_ r) (push_ r).

Lemma advanced_ok r n : reader_ok r -> (n <= end_ r - pos_ r)%nat -> reader_ok (advanced r n).
Proof. intros [? ? Heof] Hn. split; cbn; [lia|done|]. intros ?%Heof. lia. Qed.

Lemma advanced_buffered r n : reader_ok r -> (n <= end_ r - pos_ r)%nat ->
  buffered r = take n (drop (pos_ r) (buf_ r)) ++ buffered (advanced r n).
Proof.
  intros Hok Hn. unfold buffered, advanced. cbn. rewrite <- drop_drop, take_take_drop. f_equal. lia.
Qed.

Lemma refilled_ok data r : reader_ok r -> is_eof_ r = false -> (length data <= length (buf_ r))%nat -> reader_ok (refilled data r).
Proof.
  intros [? ? ?] He Hd. split; cbn; [rewrite length_app, length_drop; lia..|congruence].
Qed.

Lemma refilled_buffered data r : buffered (refilled data r) = data.
Proof. unfold buffered, refilled. cbn. rewrite Nat.sub_0_r. by rewrite drop_0, take_app_length. Qed.

Lemma get_span_loop_spec fuel io size got r :
  reader_ok r -> push_ r = None -> (size <= fuel)%nat ->
  wp (get_span_loop refill fuel io size got) (fun res r' => exists io',
    res = Val (io', got ++ take size (stream io r)) /\ reader_ok r' /\ push_ r' = None /\
    stream io' r' = drop size (stream io r)) r.
Proof.
  revert io size got r. induction fuel as [|fuel IH]; intros io size got r Hok Hp Hf.
  { assert (size = 0)%nat as -> by lia. cbn. exists io. by rewrite app_nil_r. }
  cbn [get_span_loop]. wp_head. unfold get. eapply wp_eq; [reflexivity|]. cbn beta.
  destruct (Nat.eqb_spec size 0) as [->|Hs]; cbn [orb].
  { wp_head. exists io. by rewrite app_nil_r. }
  destruct (is_eof_ r) eqn:Heof.
  { wp_head. exists io. pose proof (ro_eof _ Hok Heof) as Hpe.
    assert (stream io r = []) as ->.
    { unfold stream, buffered. rewrite Hp, Heof, Hpe, Nat.sub_diag. done. }
    by rewrite take_nil, drop_nil, app_nil_r. }
  assert (forall io r, reader_ok r -> push_ r = None -> (0 < end_ r - pos_ r)%nat -> is_eof_ r = false ->
    wp (check_invariants ;;;
        r <- get ;;
        let to_copy := Nat.min (end_ r - pos_ r) size in
        put (Reader (buf_ r) (pos_ r + to_copy) (end_ r) (is_eof_ r) (push_ r)) ;;;
        get_span_loop refill fuel io (size - to_copy) (got ++ take to_copy (drop (pos_ r) (buf_ r))))
      (fun res r' => exists io', res = Val (io', got ++ take size (stream io r)) /\ reader_ok r' /\ push_ r' = None /\
         stream io' r' = drop size (stream io r)) r) as Hcopy.
  { clear r io Hok Hp Heof. intros io r Hok Hp Hlt Heof. wp_head. apply wp_check_invariants; [done|].
    wp_head. unfold get. eapply wp_eq; [reflexivity|]. cbn zeta beta. set (n := Nat.min (end_ r - pos_ r) size).
    wp_head. unfold put. eapply wp_eq; [reflexivity|]. cbn beta. fold (advanced r n).
    eapply wp_mono; [apply IH; [apply advanced_ok; [done|lia]|done|lia]|].
    intros res r' (io' & -> & Hok' & Hp' & Hst). exists io'.
    assert (stream io r = take n (drop (pos_ r) (buf_ r)) ++ stream io (advanced r n)) as Hsr.
    { unfold stream. cbn [push_ is_eof_ advanced]. rewrite Hp. cbn [option_list app].
      rewrite (advanced_buffered r n) by (done || lia). by rewrite <- (assoc_L (++)). }
    assert (length (take n (drop (pos_ r) (buf_ r))) = n) as Hlen.
    { rewrite length_take, length_drop. destruct Hok as [[? ?] _ _]. lia. }
    rewrite Hsr. rewrite take_app_ge, drop_app_ge by lia. rewrite Hlen, <- (assoc_L (++)). by split_and!. }
  destruct (Nat.eqb_spec (pos_ r) (end_ r)) as [Hpe|Hpe].
  - destruct (refill_ok io (length (buf_ r)) (ro_size _ Hok)) as (io' & data & -> & Hrest & Hlen & Hnil).
    assert (stream io r = rest io) as Hsr.
    { unfold stream, buffered. by rewrite Hp, Heof, Hpe, Nat.sub_diag. }
    case_bool_decide as Hd.
    + wp_head. unfold put. eapply wp_eq; [reflexivity|]. cbn beta. wp_head. exists io'. rewrite Hsr, (Hnil Hd), take_nil, drop_nil, app_nil_r.
      split_and!; [done| |done|].
      * destruct Hok. split; cbn; [lia|done|done].
      * unfold stream, buffered. cbn. by rewrite Hp, Hpe, Nat.sub_diag.
    + wp_head. unfold put. eapply wp_eq; [reflexivity|]. cbn beta.
      assert (stream io' (refilled data r) = stream io r) as <-.
      { rewrite Hsr, Hrest. unfold stream. rewrite refilled_buffered. cbn. by rewrite Hp, Heof. }
      apply Hcopy; [by apply refilled_ok|done| |done]. cbn. destruct data; [done|simpl; lia].
  - apply Hcopy; [done|done| |done]. destruct Hok as [[? ?] _ _]. lia.
Qed.

(** Reading from the reader is reading from the stream. *)
Lemma get_span_spec io size r :
  reader_ok r ->
  wp (get_span refill io size) (fun res r' => exists io',
    res = Val (io', take size (stream io r)) /\ reader_ok r' /\ ((0 < size)%nat -> push_ r' = None) /\
    stream io' r' = drop size (stream io r)) r.
Proof.
  intros Hok. unfold get_span. wp_head. unfold get. eapply wp_eq; [reflexivity|]. cbn beta.
  destruct (push_ r) as [c|] eqn:Hp.
  - destruct (Nat.ltb_spec 0 size) as [Hs|Hs].
    + wp_head. unfold put. eapply wp_eq; [reflexivity|]. cbn beta.
      set (r0 := Reader _ _ _ _ None). assert (reader_ok r0) as Hok0 by (destruct Hok; by split).
      assert (stream io r = c :: stream io r0) as -> by (unfold stream; by rewrite Hp).
      eapply wp_mono; [apply (get_span_loop_spec _ _ _ _ r0); [done|done|lia]|].
      intros res r' (io' & -> & Hok' & Hp' & Hst). exists io'. destruct size as [|size]; [lia|].
      rewrite Nat.sub_succ, Nat.sub_0_r in *. by split_and!.
    + assert (size = 0)%nat as -> by lia. cbn. exists io. split_and!; [done|done|lia|done].
  - eapply wp_mono; [by apply get_span_loop_spec|]. intros res r' (io' & -> & Hok' & Hp' & Hst). by exists io'.
Qed.

Lemma wp_ebind {A B} (m : M reader (error_or A)) (f : A -> M reader (error_or B)) Q r :
  wp m (fun res r' => match res with Err e => Q (Err e) r' | Val a => wp (f a) Q r' end) r -> wp (ebind m f) Q r.
Proof. intros Hm. unfold ebind. wp_head. eapply wp_mono; [exact Hm|]. intros [e|a] r' HQ; [by wp_head|done]. Qed.

Lemma getc_spec io r :
  reader_ok r ->
  wp (getc refill io) (fun res r' => exists io', res = Val (io', head (stream io r)) /\ reader_ok r' /\
    push_ r' = None /\ stream io' r' = tail (stream io r)) r.
Proof.
  intros Hok. unfold getc. apply wp_ebind. eapply wp_mono; [by apply get_span_spec|].
  intros res r' (io' & -> & Hok' & Hp & Hst). wp_head. exists io'.
  destruct (stream io r) as [|c [|c2 s]]; cbn in *; rewrite ?Hst; by split_and!; auto.
Qed.

(** *** Lines *)

(** The next line of a stream, after [str] has been read of it, and what follows *)
Fixpoint line (s str : list Z) : error_or (option (list Z)) * list Z :=
  let eos := Val (if bool_decide (str = []) then None else Some str) in
  match s with
  | [] => (eos, [])
  | c :: s =>
      if c =? cr then
        match s with
        | [] => (eos, [])
        | c2 :: s2 => (Val (Some str), if c2 =? lf then s2 else s)
        end
      else if c =? lf then (Val (Some str), s)
      else if (max_string_length <=? length str)%nat then (Err string_too_long, s)
      else line s (str ++ [c])
  end.

(** The result of [gets] on a stream whose next line is [l] *)
Definition gets_post (l : error_or (option (list Z)) * list Z) (res : error_or (IO * option (list Z))) r' : Prop :=
  reader_ok r' /\
  match l.1 with
  | Err e => res = Err e
  | Val o => exists io', res = Val (io', o) /\ stream io' r' = l.2
  end.

Lemma gets_impl_spec fuel io str r :
  reader_ok r -> (max_string_length < length str + fuel)%nat -> (length str <= max_string_length)%nat ->
  wp (gets_impl refill fuel io str) (gets_post (line (stream io r) str)) r.
Proof.
  revert io str r. induction fuel as [|fuel IH]; intros io str r Hok Hf Hl; [lia|]. cbn [gets_impl].
  apply wp_ebind. eapply wp_mono; [by apply getc_spec|]. intros res r1 (io1 & -> & Hok1 & Hp1 & Hst1).
  destruct (stream io r) as [|c s]; cbn [head tail] in *.
  { wp_head. split; [done|]. by exists io1. }
  cbn [line]. destruct (c =? cr).
  - apply wp_ebind. eapply wp_mono; [by apply getc_spec|]. intros res r2 (io2 & -> & Hok2 & Hp2 & Hst2). rewrite Hst1 in *.
    destruct s as [|c2 s]; cbn [head tail] in *.
    { wp_head. split; [done|]. by exists io2. }
    destruct (c2 =? lf); cbn [negb].
    + wp_head. wp_head. wp_head. split; [done|]. by exists io2.
    + wp_head. wp_head. unfold get. eapply wp_eq; [reflexivity|]. wp_head. wp_head; [by rewrite bool_decide_true|].
      unfold put. eapply wp_eq; [reflexivity|]. wp_head. split; [destruct Hok2; by split|]. exists io2. split; [done|].
      cbn [snd]. rewrite <- Hst2. unfold stream. cbn. by rewrite Hp2.
  - destruct (c =? lf); [wp_head; split; [done|]; by exists io1|].
    destruct (Nat.leb_spec max_string_length (length str)); [wp_head; by split|].
    rewrite <- Hst1. apply IH; [done|rewrite length_app; simpl; lia..].
Qed.

Lemma gets_spec io r : reader_ok r -> wp (gets refill io) (gets_post (line (stream io r) [])) r.
Proof. intros Hok. apply gets_impl_spec; [done|cbn [length]; unfold max_string_length; lia..]. Qed.

(** Text without line ends that is not too long *)
Definition text (l : list Z) : Prop := Forall (fun c => c <> cr /\ c <> lf) l /\ (length l <= max_string_length)%nat.
Definition crlf : list Z := [cr; lf].

Lemma line_text l s : text l -> line (l ++ crlf ++ s) [] = (Val (Some l), s).
Proof.
  intros [Hl Hlen]. change l with ([] ++ l) at 2. assert (length ([] : list Z) + length l <= max_string_length)%nat as Hle by done.
  clear Hlen. revert Hle. generalize (@nil Z) as str. induction Hl as [|c l [Hc Hc'] Hl IH]; intros str Hle; cbn [length] in Hle.
  - by rewrite app_nil_r.
  - cbn [app line]. rewrite (proj2 (Z.eqb_neq c cr)), (proj2 (Z.eqb_neq c lf)) by done.
    destruct (Nat.leb_spec max_string_length (length str)); [lia|]. rewrite IH by (rewrite length_app; cbn [length]; lia).
    by rewrite <- (assoc_L (++)).
Qed.

(** *** Requests *)

Definition word (w : list Z) : Prop := w <> [] /\ Forall (fun c => isspace c = false) w.

Lemma extract_word w s : word w -> (s = [] \/ exists c s', s = c :: s' /\ isspace c = true) -> extract (w ++ s) = (w, s).
Proof.
  intros [Hne Hw] Hs. unfold extract. destruct Hw as [|c w Hc Hw]; [done|]. cbn [app skip_space]. rewrite Hc.
  change (c :: w ++ s) with ((c :: w) ++ s). assert (Forall (fun c => isspace c = false) (c :: w)) as Hall by (by constructor).
  clear Hne Hc Hw. induction Hall as [|x l Hx Hl IH]; cbn [app take_word]; [|by rewrite Hx, IH].
  destruct Hs as [->|(x & s' & -> & Hx)]; [done|]. cbn. by rewrite Hx.
Qed.

Definition request_line (ri : request_info) : list Z := method_ ri ++ [32] ++ uri_ ri ++ [32] ++ version_ ri.

Record request_ok (ri : request_info) : Prop := {
  ri_method : word (method_ ri);
  ri_uri : word (uri_ ri);
  ri_version : word (version_ ri);
  ri_text : text (request_line ri)
}.

Lemma read_request_spec io r ri s :
  reader_ok r -> request_ok ri -> stream io r = request_line ri ++ crlf ++ s ->
  wp (read_request refill io) (fun res r' => exists io', res = Val (io', ri) /\ reader_ok r' /\ stream io' r' = s) r.
Proof.
  intros Hok [Hm Hu Hv Ht] Hst. unfold read_request. apply wp_ebind. eapply wp_mono; [by apply gets_spec|].
  intros res r' [Hok' Hres]. rewrite Hst, line_text in Hres by done. cbn in Hres. destruct Hres as (io' & -> & Hst').
  unfold request_line. rewrite (extract_word (method_ ri)) by (done || right; by eexists _, _).
  assert (forall w s, extract ([32] ++ w ++ s) = extract (w ++ s)) as Hskip by done. rewrite Hskip.
  rewrite (extract_word (uri_ ri)) by (done || right; by eexists _, _). rewrite <- (app_nil_r (version_ ri)), Hskip.
  rewrite (extract_word (version_ ri)) by (done || by left).
  rewrite !bool_decide_false by (apply Hm || apply Hu || apply Hv). cbn [orb]. wp_head. exists io'. by destruct ri.
Qed.

(** *** Headers *)

Definition header_text (kv : list Z * list Z) : list Z := kv.1 ++ [58; 32] ++ kv.2.

Record header_ok (kv : list Z * list Z) : Prop := {
  ho_key : 58 ∉ kv.1;
  ho_value : match kv.2 with c :: _ => c < 128 /\ isspace c = false | [] => True end;
  ho_text : text (header_text kv)
}.

Lemma split_at_found sep a b : sep ∉ a -> split_at sep (a ++ sep :: b) = Some (a, b).
Proof.
  induction a as [|c a IH]; intros Hin; cbn; [by rewrite Z.eqb_refl|].
  apply not_elem_of_cons in Hin as [Hc Hin]. by rewrite (proj2 (Z.eqb_neq c sep)), IH by done.
Qed.

Lemma header_line_spec kv : header_ok kv -> header_line (header_text kv) = Ok (tolower <$> kv.1, kv.2).
Proof.
  intros [Hk Hv _]. unfold header_line, header_text. cbn [app]. rewrite split_at_found by done. destruct kv as [k [|c v]]; [done|].
  cbn [snd fst] in *. destruct Hv as [Hc Hs]. cbn [skip_optional_space]. change (128 <=? 32) with false. change (isspace 32) with true. cbn iota.
  rewrite (proj2 (Z.leb_gt _ _)) by done. by rewrite Hs.
Qed.

(** A value that begins with an octet from 128 on, such as a letter of UTF-8 that is not ASCII, is undefined behaviour. *)
Example header_line_undefined : header_line [110; 58; 32; 195; 164] = Throw Undefined.
Proof. reflexivity. Qed.

Definition headers_text (kvs : list (list Z * list Z)) : list Z := concat ((fun kv => header_text kv ++ crlf) <$> kvs).

Lemma read_headers_spec {H} (handler : H -> list Z -> list Z -> H) kvs io r h s :
  reader_ok r -> Forall header_ok kvs -> stream io r = headers_text kvs ++ crlf ++ s ->
  wp (read_headers refill (S (length kvs)) handler io h) (fun res r' => exists io',
    res = Val (io', foldl (fun h kv => handler h (tolower <$> kv.1) kv.2) h kvs) /\ reader_ok r' /\ stream io' r' = s) r.
Proof.
  intros Hok Hkvs. revert io r h Hok. induction Hkvs as [|kv kvs Hkv Hkvs IH]; intros io r h Hok Hst.
  - cbn [read_headers length]. apply wp_ebind. eapply wp_mono; [by apply gets_spec|].
    intros res r' [Hok' Hres]. rewrite Hst in Hres. change (line (crlf ++ s) []) with (line ([] ++ crlf ++ s) []) in Hres.
    rewrite line_text in Hres by (split; [constructor|cbn; lia]). cbn in Hres. destruct Hres as (io' & -> & Hst').
    wp_head. by exists io'.
  - cbn [read_headers length]. apply wp_ebind. eapply wp_mono; [by apply gets_spec|].
    intros res r' [Hok' Hres]. rewrite Hst in Hres. unfold headers_text in Hres. cbn [fmap list_fmap concat] in Hres.
    rewrite <- !(assoc_L (++)), line_text in Hres by apply Hkv. cbn [fst snd] in Hres. destruct Hres as (io' & -> & Hst').
    destruct (header_text kv) as [|c l] eqn:E; [unfold header_text in E; by destruct (kv.1)|]. rewrite <- E.
    rewrite header_line_spec by done. wp_head. wp_head. cbn [owp foldl]. by apply IH.
Qed.
End stream.

(** Requests. Whatever the size of the buffer and however the source cuts the octets
    into pieces, a request that is written as its line, its headers and an empty line
    is read back: the method, the resource and the version, then the headers in order, their
    names in lower case; what follows the empty line is left in the reader. *)
Lemma http_request_read {IO H : Type} (refill : IO -> nat -> error_or (IO * list Z)) (rest : IO -> list Z)
    `{!RefillLaws refill rest} (buffer_size : nat) (io : IO) (ri : request_info) (kvs : list (list Z * list Z))
    (body : list Z) (handler : H -> list Z -> list Z -> H) (h : H) :
  request_ok ri -> Forall header_ok kvs -> rest io = request_line ri ++ crlf ++ headers_text kvs ++ crlf ++ body ->
  exists io1 r1 io2 r2,
    read_request refill io (make_reader buffer_size) = (Ok (Val (io1, ri)), r1) /\
    read_headers refill (S (length kvs)) handler io1 h r1 =
      (Ok (Val (io2, foldl (fun h kv => handler h (tolower <$> kv.1) kv.2) h kvs)), r2) /\
    stream rest io2 r2 = body /\
    forall n, exists io3 r3, get_span refill io2 n r2 = (Ok (Val (io3, take n body)), r3).
Proof.
  intros Hri Hkvs Hrest. pose proof (make_reader_ok buffer_size) as Hok.
  destruct (wp_elim _ _ _ (read_request_spec refill rest io _ ri _ Hok Hri Hrest)) as (res & r1 & E1 & io1 & -> & Hok1 & Hst1).
  destruct (wp_elim _ _ _ (read_headers_spec refill rest handler kvs io1 r1 h body Hok1 Hkvs Hst1))
    as (res & r2 & E2 & io2 & -> & Hok2 & Hst2).
  exists io1, r1, io2, r2. split_and!; [done|done|done|]. intros n.
  destruct (wp_elim _ _ _ (get_span_spec refill rest io2 n r2 Hok2)) as (res & r3 & E3 & io3 & -> & _ & _ & _).
  exists io3, r3. by rewrite E3, Hst2.
Qed.

(** A source that delivers its octets in pieces of at most three *)
Definition refill_pieces (s : list Z) (size : nat) : error_or (list Z * list Z) :=
  Val (drop (Nat.min 3 size) s, take (Nat.min 3 size) s).

#[export] Instance refill_pieces_laws : RefillLaws refill_pieces id.
Proof.
  split. intros s size Hs. eexists _, _. split; [reflexivity|]. cbn [id]. split_and!.
  - by rewrite take_drop.
  - rewrite length_take. lia.
  - destruct s; [done|]. by destruct size; [lia|].
Qed.
