(* ===== verification/Query.v ===== *)
(** * Queries of URIs

    Models include/pstore/http/query_to_kvp.hpp: pairs of keys and values are written as the query of
    a URI and read from one. *)

From S2P Require Import Prelude Chars.
Implicit Types s : list Z.

(** ** Writing *)

Definition is_unreserved_char (c : Z) : bool :=
  ((65 <=? c) && (c <=? 90)) || ((97 <=? c) && (c <=? 122)) || ((48 <=? c) && (c <=? 57)) ||
  (c =? 45) || (c =? 46) || (c =? 95) || (c =? 126).

Definition nibble_to_hex_char (n : Z) : Z :=
  let c := Z.land n 15 in
  if c <? 10 then c + 48 else c - 10 + 65.

(** [escape] on one character and on a range *)
Definition escape_char (c : Z) : list Z :=
  if is_unreserved_char c then [c] else [37; nibble_to_hex_char (Z.shiftr c 4); nibble_to_hex_char c].
Definition escape s : list Z := s ≫= escape_char.

(** [kvp_to_query] *)
Fixpoint kvp_loop (is_first : bool) (l : list (list Z * list Z)) : list Z :=
  match l with
  | [] => []
  | (key, value) :: l =>
      (if is_first then [] else [38]) ++ escape key ++ [61] ++ escape value ++ kvp_loop false l
  end.
Definition kvp_to_query (l : list (list Z * list Z)) : list Z := kvp_loop true l.

(** ** Reading *)

(** [std::isxdigit], whose argument must be a value of [unsigned char] *)
Definition isxdigit (c : Z) : outcome bool :=
  if c >=? 128 then Throw Undefined
  else Ok (((48 <=? c) && (c <=? 57)) || ((97 <=? c) && (c <=? 102)) || ((65 <=? c) && (c <=? 70))).

(** [hex_digit] *)
Definition hex_digit (c : Z) : outcome Z :=
  x <-? isxdigit c ;;
  _ <-? oassert x ;;
  if (48 <=? c) && (c <=? 57) then Ok (c - 48)
  else if (97 <=? c) && (c <=? 102) then Ok (c - 97 + 10)
  else if (65 <=? c) && (c <=? 70) then Ok (c - 65 + 10)
  else Throw Assert.

(** [value_from_hex]: the loop, and what is behind the digits. The iterator that is returned is moved back by
    one, and on again by the caller's loop. *)
Fixpoint value_from_hex (remaining : nat) (value : Z) s : outcome (Z * list Z) :=
  match s, remaining with
  | hex_char :: s', S remaining =>
      x <-? isxdigit hex_char ;;
      if negb x then Ok (value, s)
      else
        h <-? hex_digit hex_char ;;
        value_from_hex remaining (wrap 8 (value * 16 + h)) s'
  | _, _ => Ok (value, s)
  end.

(** The variables of [query_to_kvp], and what was assigned to the output iterator *)
Record query_state := QueryState { value_mode : bool; key : list Z; data : list Z; out : list (list Z * list Z) }.

Definition append (c : Z) (q : query_state) : query_state :=
  QueryState (value_mode q) (key q) (data q ++ [c]) (out q).
Definition emit (k v : list Z) (q : query_state) : query_state :=
  if (0 <? length k)%nat then QueryState (value_mode q) (key q) (data q) (out q ++ [(k, v)]) else q.

(** The loop over the characters *)
Fixpoint query_loop (fuel : nat) s (q : query_state) : outcome (list Z * query_state) :=
  match s with
  | [] => Ok ([], q)
  | c :: s' =>
      match fuel with
      | O => Throw OutOfFuel
      | S fuel =>
          if c =? 35 then Ok (s', q)
          else if c =? 43 then query_loop fuel s' (append 32 q)
          else if c =? 37 then
            match s' with
            | [] => query_loop fuel s' q
            | _ => r <-? value_from_hex 2 0 s' ;; query_loop fuel r.2 (append r.1 q)
            end
          else if c =? 61 then
            if negb (value_mode q) then query_loop fuel s' (QueryState true (data q) [] (out q))
            else query_loop fuel s' (append c q)
          else if (c =? 59) || (c =? 38) then
            if value_mode q then
              let q := emit (key q) (data q) q in
              query_loop fuel s' (QueryState false (key q) [] (out q))
            else query_loop fuel s' q
          else query_loop fuel s' (append c q)
      end
  end.

(** [query_to_kvp]: what is left of the input, and the pairs *)
Definition query_to_kvp s : outcome (list Z * list (list Z * list Z)) :=
  r <-? query_loop (length s) s (QueryState false [] [] []) ;;
  let '(rest, q) := r in
  let q := if negb (value_mode q) then QueryState (value_mode q) (data q) [] (out q) else q in
  Ok (rest, out (emit (key q) (data q) q)).

(** ** Round trip *)

Lemma unreserved_special c x : is_unreserved_char c = true -> is_unreserved_char x = false -> (c =? x) = false.
Proof. intros Hc Hx. apply Z.eqb_neq. congruence. Qed.

(** Each octet is found again, *)
Definition hex_pair_ok (c : Z) : bool :=
  bool_decide (value_from_hex 2 0 [nibble_to_hex_char (Z.shiftr c 4); nibble_to_hex_char c] = Ok (c, [])).

Lemma hex_pairs_ok : forallb hex_pair_ok (Z.of_nat <$> seq 0 256) = true.
Proof. vm_compute. reflexivity. Qed.

Lemma value_from_hex_app a b v s : value_from_hex 2 0 [a; b] = Ok (v, []) -> value_from_hex 2 0 (a :: b :: s) = Ok (v, s).
Proof.
  cbn. destruct (isxdigit a) as [[]|]; cbn; try done. destruct (hex_digit a); cbn; try done.
  destruct (isxdigit b) as [[]|]; cbn; try done. destruct (hex_digit b); cbn; [|done]. destruct s; by intros [= ->].
Qed.

Lemma value_from_hex_ok c s : 0 <= c < 256 ->
  value_from_hex 2 0 (nibble_to_hex_char (Z.shiftr c 4) :: nibble_to_hex_char c :: s) = Ok (c, s).
Proof.
  intros Hc. apply value_from_hex_app. pose proof hex_pairs_ok as H. rewrite forallb_forall in H.
  specialize (H c). apply bool_decide_eq_true in H; [done|]. apply list_elem_of_In, list_elem_of_fmap. exists (Z.to_nat c).
  split; [lia|]. apply elem_of_seq. lia.
Qed.

Lemma value_from_hex_length n v s v' s' : value_from_hex n v s = Ok (v', s') -> (length s' <= length s)%nat.
Proof.
  revert v s. induction n as [|n IH]; intros v [|c s]; cbn; try (by intros [= _ <-]).
  destruct (isxdigit c) as [[]|]; cbn; try done; [|by intros [= _ <-]]. destruct (hex_digit c); cbn; [|done]. intros H. apply IH in H. lia.
Qed.

(** The fuel does not matter when it is enough. *)
Lemma query_loop_fuel fuel fuel' s q : (length s <= fuel)%nat -> (length s <= fuel')%nat -> query_loop fuel s q = query_loop fuel' s q.
Proof.
  revert fuel' s q. induction fuel as [|fuel IH]; intros [|fuel'] [|c s] q H H'; try done; cbn [length] in *; try lia. cbn [query_loop].
  destruct (c =? 35); [done|]. destruct (c =? 43); [apply IH; lia|].
  destruct (c =? 37); [|by repeat case_match; try done; apply IH; lia].
  destruct s as [|d s]; [apply IH; lia|]. destruct (value_from_hex 2 0 (d :: s)) as [[v s']|] eqn:E; [|done]. cbn [obind].
  apply value_from_hex_length in E. apply IH; cbn in *; lia.
Qed.

Definition query_run s (q : query_state) : outcome (list Z * query_state) := query_loop (length s) s q.

(** Steps of the loop *)
Lemma query_run_cons c s q : query_run (c :: s) q = query_loop (S (length s)) (c :: s) q.
Proof. done. Qed.

Lemma query_run_escape_char c s q : octet c -> query_run (escape_char c ++ s) q = query_run s (append c q).
Proof.
  intros Hc. unfold escape_char. destruct (is_unreserved_char c) eqn:E; cbn [app]; rewrite query_run_cons; cbn [query_loop].
  - by rewrite (unreserved_special c 35), (unreserved_special c 43), (unreserved_special c 37), (unreserved_special c 61),
      (unreserved_special c 59), (unreserved_special c 38).
  - cbn [Z.eqb Pos.eqb]. rewrite value_from_hex_ok by done. cbn [obind fst snd]. apply query_loop_fuel; cbn; lia.
Qed.

Definition append_all s (q : query_state) : query_state := QueryState (value_mode q) (key q) (data q ++ s) (out q).

Lemma query_run_escape cs s q : Forall octet cs -> query_run (escape cs ++ s) q = query_run s (append_all cs q).
Proof.
  intros Hcs. revert q. induction Hcs as [|c cs Hc Hcs IH]; intros q.
  { destruct q. unfold append_all. cbn. by rewrite app_nil_r. }
  change (escape (c :: cs)) with (escape_char c ++ escape cs). rewrite <- app_assoc, query_run_escape_char, IH by done.
  f_equal. unfold append_all, append. cbn. by rewrite <- app_assoc.
Qed.

(** The state in front of a pair and behind its value *)
Lemma query_run_pair k v s k0 l : Forall octet k -> Forall octet v ->
  query_run (escape k ++ [61] ++ escape v ++ s) (QueryState false k0 [] l) = query_run s (QueryState true k v l).
Proof.
  intros Hk Hv. rewrite query_run_escape by done. cbn [app]. rewrite query_run_cons. cbn [query_loop Z.eqb Pos.eqb append_all value_mode negb key data out].
  change (query_run (escape v ++ s) (QueryState true k [] l) = query_run s (QueryState true k v l)). by rewrite query_run_escape.
Qed.

Definition pair_ok (p : list Z * list Z) : Prop := p.1 <> [] /\ Forall octet p.1 /\ Forall octet p.2.

Lemma query_run_pairs l k v out0 : Forall pair_ok ((k, v) :: l) -> exists k' v',
  query_run (kvp_loop false l) (QueryState true k v out0) = Ok ([], QueryState true k' v' (out0 ++ removelast ((k, v) :: l))) /\
  last ((k, v) :: l) = Some (k', v').
Proof.
  revert k v out0. induction l as [|[k1 v1] l IH]; intros k v out0 Hl; [exists k, v; cbn; by rewrite app_nil_r|].
  apply Forall_cons in Hl as [(Hne & _ & _) Hl]. pose proof Hl as Hl1. apply Forall_cons in Hl1 as [(_ & Hk1 & Hv1) _]. cbn [fst snd] in *.
  destruct (IH k1 v1 (out0 ++ [(k, v)]) Hl) as (k' & v' & E & Hlast). exists k', v'. split; [|done].
  cbn [kvp_loop app]. rewrite query_run_cons. cbn [query_loop Z.eqb Pos.eqb orb value_mode key data].
  replace (emit k v _) with (QueryState true k v (out0 ++ [(k, v)])) by (unfold emit; by destruct k). cbn [key out].
  change (query_run (escape k1 ++ [61] ++ escape v1 ++ kvp_loop false l) (QueryState false k [] (out0 ++ [(k, v)])) =
    Ok ([], QueryState true k' v' (out0 ++ removelast ((k, v) :: (k1, v1) :: l)))).
  rewrite query_run_pair, E by done. cbn [removelast]. by rewrite <- app_assoc.
Qed.

(** Pairs with keys that are not empty are read back from the query that they are written to. *)
Lemma query_roundtrip l : Forall pair_ok l -> query_to_kvp (kvp_to_query l) = Ok ([], l).
Proof.
  intros Hl. unfold query_to_kvp, kvp_to_query. destruct l as [|[k v] l]; [done|]. cbn [kvp_loop app].
  pose proof Hl as H. apply Forall_cons in H as [(_ & Hk & Hv) _]. cbn [fst snd] in *.
  change (query_loop (length ?s) ?s ?q) with (query_run s q). change (61 :: ?s) with ([61] ++ s). rewrite query_run_pair by done.
  destruct (query_run_pairs l k v [] Hl) as (k' & v' & -> & Hlast). cbn [obind value_mode negb key data app].
  assert (k' <> []) as Hne.
  { apply last_Some_elem_of in Hlast. rewrite Forall_forall in Hl. by apply Hl in Hlast as (? & _ & _). }
  apply last_Some in Hlast as [l' E]. rewrite E, removelast_last. unfold emit. by destruct k'.
Qed.

(** A key without a value is not separated from the pair behind it. *)
Example key_without_value : query_to_kvp [97; 38; 98; 61; 99] = Ok ([], [([97; 98], [99])]).
Proof. reflexivity. Qed.
