(* ===== verification/Sha1.v ===== *)
(** * Secure hashes and the keys of WebSockets

    Models lib/http/wskey.cpp and include/pstore/http/wskey.hpp: the hash algorithm SHA-1, which takes a message
    piece by piece, and the answer to the key that a client of a WebSocket sends. *)

From S2P Require Import Prelude Chars.

(** ** The code *)

(** The data members of [sha1] *)
Record sha1 := Sha1 {
  intermediate_hash_ : list Z;
  length_ : Z;
  index_ : nat;
  message_block_ : list Z;
  computed_ : bool;
  corrupted_ : bool
}.

Definition initial_intermediate : list Z := [0x67452301; 0xEFCDAB89; 0x98BADCFE; 0x10325476; 0xC3D2E1F0].

(** The constructor: the octets of the block are not initialised. *)
Definition sha1_ctor (uninitialised : list Z) : sha1 := Sha1 initial_intermediate 0 0 uninitialised false false.

Definition circular_shift (bits word : Z) : Z := Z.lor (wrap32 (Z.shiftl word bits)) (Z.shiftr word (32 - bits)).

(** [process_message_block]: the sequence of words, from the block and by the recurrence; *)
Definition block_word (block : list Z) (t : nat) : Z :=
  let w := Z.shiftl (block !!! (t * 4)%nat) 24 in
  let w := Z.lor w (Z.shiftl (block !!! (t * 4 + 1)%nat) 16) in
  let w := Z.lor w (Z.shiftl (block !!! (t * 4 + 2)%nat) 8) in
  Z.lor w (block !!! (t * 4 + 3)%nat).
Definition next_word (w : list Z) (t : nat) : list Z :=
  w ++ [circular_shift 1 (Z.lxor (Z.lxor (Z.lxor (w !!! (t - 3)%nat) (w !!! (t - 8)%nat)) (w !!! (t - 14)%nat)) (w !!! (t - 16)%nat))].
Definition word_sequence (block : list Z) : list Z := foldl next_word (block_word block <$> seq 0 16) (seq 16 64).

(** the five variables of the rounds and a loop of twenty of them, with its function and its constant; *)
Definition vars : Type := (Z * Z * Z * Z * Z)%type.
Definition round (f : Z -> Z -> Z -> Z) (k : Z) (w : list Z) (s : vars) (t : nat) : vars :=
  let '(a, b, c, d, e) := s in
  let temp := wrap32 (circular_shift 5 a + f b c d + e + w !!! t + k) in
  (temp, a, circular_shift 30 b, c, d).
Definition rounds (f : Z -> Z -> Z -> Z) (k : Z) (w : list Z) (first : nat) (s : vars) : vars :=
  foldl (round f k w) s (seq first 20).

Definition choose (b c d : Z) : Z := Z.lor (Z.land b c) (Z.land (Z.lnot b) d).
Definition parity (b c d : Z) : Z := Z.lxor (Z.lxor b c) d.
Definition majority (b c d : Z) : Z := Z.lor (Z.lor (Z.land b c) (Z.land b d)) (Z.land c d).

(** and the whole. *)
Definition process_block (h : list Z) (block : list Z) : list Z :=
  let w := word_sequence block in
  let s := (h !!! 0%nat, h !!! 1%nat, h !!! 2%nat, h !!! 3%nat, h !!! 4%nat) in
  let s := rounds choose 0x5A827999 w 0 s in
  let s := rounds parity 0x6ED9EBA1 w 20 s in
  let s := rounds majority 0x8F1BBCDC w 40 s in
  let '(a, b, c, d, e) := rounds parity 0xCA62C1D6 w 60 s in
  [wrap32 (h !!! 0%nat + a); wrap32 (h !!! 1%nat + b); wrap32 (h !!! 2%nat + c); wrap32 (h !!! 3%nat + d); wrap32 (h !!! 4%nat + e)].
Definition process_message_block (x : sha1) : sha1 :=
  Sha1 (process_block (intermediate_hash_ x) (message_block_ x)) (length_ x) 0 (message_block_ x) (computed_ x) (corrupted_ x).

(** An assignment to an element of the block *)
Definition set_block (i : nat) (b : Z) (x : sha1) : outcome sha1 :=
  if (i <? 64)%nat then
    Ok (Sha1 (intermediate_hash_ x) (length_ x) (index_ x) (<[i := b]> (message_block_ x)) (computed_ x) (corrupted_ x))
  else Throw Undefined.
Definition set_index (i : nat) (x : sha1) : sha1 :=
  Sha1 (intermediate_hash_ x) (length_ x) i (message_block_ x) (computed_ x) (corrupted_ x).

(** [message_block_[index_] = b; ++index_] *)
Definition push (b : Z) (x : sha1) : outcome sha1 :=
  x <-? set_block (index_ x) b x ;; Ok (set_index (S (index_ x)) x).

(** [input]: the loop, and the whole *)
Fixpoint input_loop (span : list Z) (x : sha1) : outcome sha1 :=
  match span with
  | [] => Ok x
  | b :: span =>
      x <-? push b x ;;
      let old_length := length_ x in
      let l := wrap64 (length_ x + 8) in
      if l <? old_length then
        Ok (Sha1 (intermediate_hash_ x) l (index_ x) (message_block_ x) (computed_ x) true)
      else
        let x := Sha1 (intermediate_hash_ x) l (index_ x) (message_block_ x) (computed_ x) (corrupted_ x) in
        input_loop span (if (index_ x =? 64)%nat then process_message_block x else x)
  end.
Definition input (span : list Z) (x : sha1) : outcome sha1 :=
  if computed_ x || corrupted_ x then Ok x else input_loop span x.

(** [pad_message]: zeros up to an index, and the whole *)
Fixpoint zeros (n : nat) (x : sha1) : outcome sha1 :=
  match n with
  | O => Ok x
  | S n => x <-? push 0 x ;; zeros n x
  end.
Definition pad_with_zeros (last : nat) (x : sha1) : outcome sha1 := zeros (last - index_ x) x.

Fixpoint store_length (l : list Z) (i : nat) (x : sha1) : outcome sha1 :=
  match l with
  | [] => Ok x
  | shift :: l => x <-? set_block i (wrap 8 (Z.shiftr (length_ x) shift)) x ;; store_length l (S i) x
  end.

Definition pad_message (x : sha1) : outcome sha1 :=
  x <-? (if (55 <? index_ x)%nat then
           x <-? push 0x80 x ;;
           x <-? pad_with_zeros 64 x ;;
           pad_with_zeros 56 (process_message_block x)
         else
           x <-? push 0x80 x ;;
           pad_with_zeros 56 x) ;;
  x <-? store_length [56; 48; 40; 32; 24; 16; 8; 0] 56 x ;;
  Ok (process_message_block x).

(** [result] *)
Definition digest_octet (h : list Z) (i : nat) : Z :=
  wrap 8 (Z.shiftr (h !!! (i / 4)%nat) (8 * (3 - Z.land (Z.of_nat i) 3))).
Definition result (x : sha1) : outcome (list Z * sha1) :=
  x <-? (if negb (computed_ x) then
           x <-? pad_message x ;;
           Ok (Sha1 (intermediate_hash_ x) 0 (index_ x) (replicate 64 0) true (corrupted_ x))
         else Ok x) ;;
  Ok (digest_octet (intermediate_hash_ x) <$> seq 0 20, x).

(** [digest_to_base64] *)
Definition alphabet : list Z :=
  [65; 66; 67; 68; 69; 70; 71; 72; 73; 74; 75; 76; 77; 78; 79; 80; 81; 82; 83; 84; 85; 86; 87; 88; 89; 90;
   97; 98; 99; 100; 101; 102; 103; 104; 105; 106; 107; 108; 109; 110; 111; 112; 113; 114; 115; 116; 117; 118; 119; 120; 121; 122;
   48; 49; 50; 51; 52; 53; 54; 55; 56; 57; 43; 47].
Definition letter (n : Z) : Z := alphabet !!! Z.to_nat n.
Definition quad (x y z : Z) : list Z :=
  [letter (Z.land (Z.shiftr x 2) 0x3F);
   letter (Z.lor (Z.shiftl (Z.land x 0x03) 4) (Z.shiftr (Z.land y 0xF0) 4));
   letter (Z.lor (Z.shiftl (Z.land y 0x0F) 2) (Z.shiftr (Z.land z 0xC0) 6));
   letter (Z.land z 0x3F)].
Definition digest_to_base64 (digest : list Z) : list Z :=
  (seq 0 6 ≫= fun i => quad (digest !!! (3 * i)%nat) (digest !!! (3 * i + 1)%nat) (digest !!! (3 * i + 2)%nat)) ++
  [letter (Z.land (Z.shiftr (digest !!! 18%nat) 2) 0x3F);
   letter (Z.lor (Z.shiftl (Z.land (digest !!! 18%nat) 0x03) 4) (Z.shiftr (Z.land (digest !!! 19%nat) 0xF0) 4));
   letter (Z.shiftl (Z.land (digest !!! 19%nat) 0x0F) 2);
   61].

(** [source_key]: the positions of the first character and behind the last that are not white space *)
Definition first_position (k : list Z) : nat := length k - length (skip_space k).
Definition last_position (k : list Z) : nat := length (skip_space (reverse k)).

Definition magic : list Z :=
  [50; 53; 56; 69; 65; 70; 65; 53; 45; 69; 57; 49; 52; 45; 52; 55; 68; 65;
   45; 57; 53; 67; 65; 45; 67; 53; 65; 66; 48; 68; 67; 56; 53; 66; 49; 49].

Definition source_key (uninitialised k : list Z) : outcome (list Z) :=
  let first := first_position k in
  let last := last_position k in
  _ <-? oassert (first <=? last)%nat ;;
  x <-? input (take (last - first) (drop first k)) (sha1_ctor uninitialised) ;;
  x <-? input magic x ;;
  r <-? result x ;;
  Ok (digest_to_base64 r.1).

(** The example of RFC 6455 *)
Example rfc6455_key :
  source_key (replicate 64 0)
    [100; 71; 104; 108; 73; 72; 78; 104; 98; 88; 66; 115; 90; 83; 66; 117; 98; 50; 53; 106; 90; 81; 61; 61] =
  Ok [115; 51; 112; 80; 76; 77; 66; 105; 84; 120; 97; 81; 57; 107; 89; 71; 122; 122; 104; 90; 82; 98; 75; 43; 120; 79; 111; 61].
Proof. vm_compute. reflexivity. Qed.

(** A key of white space is a span with a negative length. *)
Example blank_key_asserts : source_key (replicate 64 0) [32] = Throw Assert.
Proof. reflexivity. Qed.
