(* ===== verification/Sha1Spec.v ===== *)
(** * The hash of a message

    SHA-1 as FIPS PUB 180-1 defines it, on whole messages and with arithmetic instead of shifts, and the proof that
    the code of Sha1.v computes it however the message is divided. *)

From S2P Require Import Prelude Chars Sha1.
Implicit Types (msg block p h w : list Z) (t : nat).

(** ** The definition *)

Definition rotl (n x : Z) : Z := (x * 2 ^ n) mod 2 ^ 32 + x / 2 ^ (32 - n).

Definition big_endian (l : list Z) : Z := foldl (fun n b => n * 256 + b) 0 l.
Fixpoint octets_of (n : nat) (x : Z) : list Z :=
  match n with
  | O => []
  | S n => (x / 2 ^ (8 * Z.of_nat n)) mod 256 :: octets_of n x
  end.

(** The words [W(t)] of a block; the fuel is more than [t] *)
Fixpoint W (fuel : nat) block t : Z :=
  match fuel with
  | O => 0
  | S fuel =>
      if (t <? 16)%nat then big_endian (take 4 (drop (t * 4) block))
      else rotl 1 (Z.lxor (Z.lxor (Z.lxor (W fuel block (t - 3)) (W fuel block (t - 8))) (W fuel block (t - 14))) (W fuel block (t - 16)))
  end.

Definition f_ t (b c d : Z) : Z :=
  if (t <? 20)%nat then Z.lor (Z.land b c) (Z.land (2 ^ 32 - 1 - b) d)
  else if (t <? 40)%nat then Z.lxor (Z.lxor b c) d
  else if (t <? 60)%nat then Z.lor (Z.lor (Z.land b c) (Z.land b d)) (Z.land c d)
  else Z.lxor (Z.lxor b c) d.
Definition K_ t : Z :=
  if (t <? 20)%nat then 0x5A827999 else if (t <? 40)%nat then 0x6ED9EBA1 else if (t <? 60)%nat then 0x8F1BBCDC else 0xCA62C1D6.

Definition sha_step block (s : vars) t : vars :=
  let '(a, b, c, d, e) := s in
  ((rotl 5 a + f_ t b c d + e + W 80 block t + K_ t) mod 2 ^ 32, a, rotl 30 b, c, d).

Definition sha_block h block : list Z :=
  match h with
  | [h0; h1; h2; h3; h4] =>
      let '(a, b, c, d, e) := foldl (sha_step block) (h0, h1, h2, h3, h4) (seq 0 80) in
      [(h0 + a) mod 2 ^ 32; (h1 + b) mod 2 ^ 32; (h2 + c) mod 2 ^ 32; (h3 + d) mod 2 ^ 32; (h4 + e) mod 2 ^ 32]
  | _ => h
  end.

(** The message is padded with a one, zeros and its length in bits to a multiple of 64 octets. *)
Definition padding (n : nat) : list Z :=
  [128] ++ replicate (Z.to_nat ((55 - Z.of_nat n) mod 64)) 0 ++ octets_of 8 (8 * Z.of_nat n).
Definition padded msg : list Z := msg ++ padding (length msg).

Definition sha1_digest msg : list Z :=
  let m := padded msg in
  let h := foldl (fun h i => sha_block h (take 64 (drop (64 * i) m))) [0x67452301; 0xEFCDAB89; 0x98BADCFE; 0x10325476; 0xC3D2E1F0]
             (seq 0 (length m / 64)) in
  h ≫= octets_of 4.

(** Base 64, three octets at a time *)
Fixpoint base64 (l : list Z) : list Z :=
  let sextet n i := letter (n / 2 ^ i mod 64) in
  match l with
  | x :: y :: z :: l =>
      let n := big_endian [x; y; z] in [sextet n 18; sextet n 12; sextet n 6; sextet n 0] ++ base64 l
  | [x; y] => let n := big_endian [x; y; 0] in [sextet n 18; sextet n 12; sextet n 6; 61]
  | [x] => let n := big_endian [x; 0; 0] in [sextet n 18; sextet n 12; 61; 61]
  | [] => []
  end.

(** ** Blocks are processed as they are defined *)


Definition word (x : Z) : Prop := 0 <= x < 2 ^ 32.

Lemma circular_shift_rotl n x : word x -> 0 < n < 32 -> circular_shift n x = rotl n x /\ word (rotl n x).
Proof.
  intros Hx Hn. unfold word, circular_shift, rotl in *. rewrite Z.shiftl_mul_pow2, Z.shiftr_div_pow2 by lia. unfold wrap.
  assert (x / 2 ^ (32 - n) < 2 ^ n) as Hhi.
  { apply Z.div_lt_upper_bound; [lia|]. rewrite <- Z.pow_add_r by lia. replace (32 - n + n) with 32 by lia. lia. }
  assert (0 <= x / 2 ^ (32 - n)) as H0 by (apply Z.div_pos; lia).
  assert ((x * 2 ^ n) mod 2 ^ 32 = 2 ^ n * (x mod 2 ^ (32 - n))) as E.
  { replace (2 ^ 32) with (2 ^ n * 2 ^ (32 - n)) by (rewrite <- Z.pow_add_r by lia; f_equal; lia).
    rewrite Z.mul_comm, Z.mul_mod_distr_l by lia. done. }
  assert (0 <= x mod 2 ^ (32 - n) < 2 ^ (32 - n)) by (apply Z.mod_pos_bound; lia). rewrite E. split.
  - apply (lor_add n); [lia|lia|]. apply Z.divide_factor_l.
  - split; [nia|]. assert (2 ^ n * 2 ^ (32 - n) = 2 ^ 32) by (rewrite <- Z.pow_add_r by lia; f_equal; lia). nia.
Qed.

Definition block_ok block : Prop := length block = 64%nat /\ Forall octet block.

Lemma block_word_ok block t : block_ok block -> (t < 16)%nat ->
  block_word block t = big_endian (take 4 (drop (t * 4) block)) /\ word (block_word block t).
Proof.
  intros [Hl Hb] Ht. assert (forall i, (i < 64)%nat -> octet (block !!! i)) as Ho.
  { intros i Hi. eapply Forall_lookup_1; [done|]. apply list_lookup_lookup_total_lt. lia. }
  assert (take 4 (drop (t * 4) block) = [block !!! (t * 4)%nat; block !!! (t * 4 + 1)%nat; block !!! (t * 4 + 2)%nat; block !!! (t * 4 + 3)%nat]) as ->.
  { do 3 (erewrite take_S_r by (rewrite lookup_drop; apply list_lookup_lookup_total_lt; lia)).
    erewrite take_S_r by (rewrite lookup_drop; apply list_lookup_lookup_total_lt; lia). rewrite take_0. cbn. by rewrite Nat.add_0_r. }
  unfold block_word. rewrite !Z.shiftl_mul_pow2 by lia.
  pose proof (Ho (t * 4)%nat ltac:(lia)) as H0. pose proof (Ho (t * 4 + 1)%nat ltac:(lia)) as H1.
  pose proof (Ho (t * 4 + 2)%nat ltac:(lia)) as H2. pose proof (Ho (t * 4 + 3)%nat ltac:(lia)) as H3. unfold octet in *.
  set (b0 := block !!! (t * 4)%nat) in *. set (b1 := block !!! (t * 4 + 1)%nat) in *.
  set (b2 := block !!! (t * 4 + 2)%nat) in *. set (b3 := block !!! (t * 4 + 3)%nat) in *.
  rewrite (lor_add 24 (b0 * 2 ^ 24)), (lor_add 16 (b0 * 2 ^ 24 + _)), (lor_add 8 (_ + b2 * 2 ^ 8)).
  - unfold big_endian, word. cbn [foldl]. lia.
  - lia.
  - lia.
  - exists (b0 * 2 ^ 16 + b1 * 2 ^ 8 + b2). lia.
  - lia.
  - lia.
  - exists (b0 * 2 ^ 8 + b1). lia.
  - lia.
  - lia.
  - by exists b0.
Qed.

Lemma W_O block t : W 0 block t = 0.
Proof. done. Qed.
Lemma W_S fuel block t : W (S fuel) block t =
  if (t <? 16)%nat then big_endian (take 4 (drop (t * 4) block))
  else rotl 1 (Z.lxor (Z.lxor (Z.lxor (W fuel block (t - 3)) (W fuel block (t - 8))) (W fuel block (t - 14))) (W fuel block (t - 16))).
Proof. done. Qed.

#[local] Opaque W.

Lemma W_fuel fuel fuel' block t : (t < fuel)%nat -> (t < fuel')%nat -> W fuel block t = W fuel' block t.
Proof.
  revert fuel' t. induction fuel as [|fuel IH]; intros [|fuel'] t H H'; [lia..|]. rewrite !W_S. destruct (Nat.ltb_spec t 16); [done|].
  by rewrite !(IH fuel') by lia.
Qed.

Lemma W_rec fuel block t : (16 <= t < fuel)%nat -> W fuel block t =
  rotl 1 (Z.lxor (Z.lxor (Z.lxor (W fuel block (t - 3)) (W fuel block (t - 8))) (W fuel block (t - 14))) (W fuel block (t - 16))).
Proof. intros Ht. rewrite (W_fuel fuel (S fuel) block t), W_S by lia. by rewrite (proj2 (Nat.ltb_ge t 16)) by lia. Qed.

Lemma W_word fuel block t : block_ok block -> word (W fuel block t).
Proof.
  intros Hb. revert t. induction fuel as [|fuel IH]; intros t; [by rewrite W_O|]. rewrite W_S. destruct (Nat.ltb_spec t 16).
  - rewrite <- (proj1 (block_word_ok _ _ Hb ltac:(done))). by apply block_word_ok.
  - apply circular_shift_rotl; [|lia]. pose proof (IH (t - 3)%nat). pose proof (IH (t - 8)%nat). pose proof (IH (t - 14)%nat).
    pose proof (IH (t - 16)%nat). unfold word in *. repeat apply lxor_range; lia.
Qed.

Lemma fmap_seq_lookup (f : nat -> Z) n t : (t < n)%nat -> (f <$> seq 0 n) !!! t = f t.
Proof.
  intros Ht. apply list_lookup_total_correct. rewrite list_lookup_fmap, lookup_seq_lt by done. done.
Qed.

Lemma word_sequence_ok block : block_ok block -> word_sequence block = W 80 block <$> seq 0 80.
Proof.
  intros Hb. unfold word_sequence. assert (block_word block <$> seq 0 16 = W 80 block <$> seq 0 16) as ->.
  { apply list_fmap_ext. intros i t Hi. apply lookup_seq in Hi as [-> Hi]. change (0 + i)%nat with i. rewrite (W_S 79), (proj2 (Nat.ltb_lt i 16)) by lia.
    by apply block_word_ok. }
  assert (forall n, (n <= 64)%nat -> foldl next_word (W 80 block <$> seq 0 16) (seq 16 n) = W 80 block <$> seq 0 (16 + n)) as H; [|rewrite (H 64%nat) by lia; reflexivity].
  induction n as [|n IH]; intros Hn; [done|]. rewrite (seq_S n 16), foldl_app, IH by lia. cbn [foldl]. unfold next_word.
  rewrite Nat.add_succ_r, (seq_S (16 + n) 0), fmap_app. f_equal. cbn [fmap list_fmap]. f_equal. rewrite !fmap_seq_lookup by lia.
  change (0 + (16 + n))%nat with (16 + n)%nat. set (t := (16 + n)%nat) in *.
  assert (forall x y, word x -> word y -> word (Z.lxor x y)) as Hx by (intros; by apply lxor_range).
  match goal with |- circular_shift 1 ?x = _ => destruct (circular_shift_rotl 1 x) as [-> _] end;
    [repeat apply Hx; by apply W_word|lia|].
  symmetry. apply W_rec. lia.
Qed.

(** The loops of twenty rounds are the steps of their numbers. *)
Definition vars_ok (s : vars) : Prop := let '(a, b, c, d, e) := s in word a /\ word b /\ word c /\ word d /\ word e.

Lemma rounds_ok f k block first s : block_ok block -> vars_ok s -> (first + 20 <= 80)%nat ->
  (forall t b c d, (first <= t < first + 20)%nat -> word b -> word c -> word d -> f b c d = f_ t b c d /\ k = K_ t) ->
  rounds f k (word_sequence block) first s = foldl (sha_step block) s (seq first 20) /\ vars_ok (foldl (sha_step block) s (seq first 20)).
Proof.
  intros Hb Hs Hf Hk. rewrite word_sequence_ok by done. unfold rounds.
  assert (forall n t s, (t + n <= first + 20)%nat -> (first <= t)%nat -> vars_ok s ->
    foldl (round f k (W 80 block <$> seq 0 80)) s (seq t n) = foldl (sha_step block) s (seq t n) /\
    vars_ok (foldl (sha_step block) s (seq t n))) as H; [|by apply H].
  clear s Hs. induction n as [|n IH]; intros t s Hn Ht Hs; [done|]. change (seq t (S n)) with (t :: seq (S t) n). cbn [foldl].
  assert (round f k (W 80 block <$> seq 0 80) s t = sha_step block s t /\ vars_ok (sha_step block s t)) as [-> Hs']; [|apply IH; [lia..|done]].
  destruct s as [[[[a b] c] d] e]. destruct Hs as (Ha & Hb' & Hc & Hd & He). unfold round, sha_step.
  destruct (Hk t b c d ltac:(lia) Hb' Hc Hd) as [-> <-].
  rewrite fmap_seq_lookup, (proj1 (circular_shift_rotl 5 a Ha ltac:(lia))), (proj1 (circular_shift_rotl 30 b Hb' ltac:(lia))) by lia.
  split; [done|]. unfold vars_ok. split_and!; [apply Z.mod_pos_bound; lia|done|apply circular_shift_rotl; [done|lia]|done|done].
Qed.

Lemma lnot_land b d : word b -> word d -> Z.land (Z.lnot b) d = Z.land (2 ^ 32 - 1 - b) d.
Proof.
  intros Hb Hd. unfold word in *. apply Z.bits_inj'. intros i Hi. rewrite !Z.land_spec. destruct (Z.lt_ge_cases i 32).
  - f_equal. replace (2 ^ 32 - 1 - b) with (Z.lnot b mod 2 ^ 32).
    + by rewrite Z.mod_pow2_bits_low.
    + rewrite <- (Z.mod_unique (Z.lnot b) (2 ^ 32) (-1) (2 ^ 32 - 1 - b)); unfold Z.lnot; lia.
  - by rewrite !(testbit_ge 32 d i), !andb_false_r by lia.
Qed.

(** The functions and constants of the four loops *)
Lemma loop_choose t b c d : (0 <= t < 0 + 20)%nat -> word b -> word c -> word d -> choose b c d = f_ t b c d /\ 0x5A827999 = K_ t.
Proof. intros Ht Hb Hc Hd. unfold choose, f_, K_. destruct (Nat.ltb_spec t 20); [|lia]. by rewrite lnot_land. Qed.
Lemma loop_parity t b c d : (20 <= t < 20 + 20)%nat -> word b -> word c -> word d -> parity b c d = f_ t b c d /\ 0x6ED9EBA1 = K_ t.
Proof. intros Ht _ _ _. unfold f_, K_. destruct (Nat.ltb_spec t 20); [lia|]. destruct (Nat.ltb_spec t 40); [done|lia]. Qed.
Lemma loop_majority t b c d : (40 <= t < 40 + 20)%nat -> word b -> word c -> word d -> majority b c d = f_ t b c d /\ 0x8F1BBCDC = K_ t.
Proof.
  intros Ht _ _ _. unfold f_, K_. destruct (Nat.ltb_spec t 20); [lia|]. destruct (Nat.ltb_spec t 40); [lia|].
  destruct (Nat.ltb_spec t 60); [done|lia].
Qed.
Lemma loop_parity_2 t b c d : (60 <= t < 60 + 20)%nat -> word b -> word c -> word d -> parity b c d = f_ t b c d /\ 0xCA62C1D6 = K_ t.
Proof.
  intros Ht _ _ _. unfold f_, K_. destruct (Nat.ltb_spec t 20); [lia|]. destruct (Nat.ltb_spec t 40); [lia|].
  destruct (Nat.ltb_spec t 60); [lia|done].
Qed.

Definition state_ok h : Prop := length h = 5%nat /\ Forall word h.

Lemma process_block_ok h block : state_ok h -> block_ok block ->
  process_block h block = sha_block h block /\ state_ok (sha_block h block).
Proof.
  intros [Hl Hh] Hb. destruct h as [|h0 [|h1 [|h2 [|h3 [|h4 [|]]]]]]; try done. unfold process_block, sha_block.
  cbn [lookup_total list_lookup_total]. set (s0 := (h0, h1, h2, h3, h4)).
  assert (vars_ok s0) as H0 by (by repeat match goal with H : Forall _ (_ :: _) |- _ => apply Forall_cons in H as [? ?] end).
  destruct (rounds_ok choose 0x5A827999 block 0 s0 Hb H0 ltac:(lia) loop_choose) as [E1 H1].
  destruct (rounds_ok parity 0x6ED9EBA1 block 20 _ Hb H1 ltac:(lia) loop_parity) as [E2 H2].
  destruct (rounds_ok majority 0x8F1BBCDC block 40 _ Hb H2 ltac:(lia) loop_majority) as [E3 H3].
  destruct (rounds_ok parity 0xCA62C1D6 block 60 _ Hb H3 ltac:(lia) loop_parity_2) as [E4 H4].
  rewrite E1, E2, E3, E4. change (seq 0 80) with (seq 0 20 ++ seq 20 20 ++ seq 40 20 ++ seq 60 20). rewrite !foldl_app.
  destruct (foldl _ _ (seq 60 20)) as [[[[a b] c] d] e]. split; [done|]. split; [done|].
  repeat constructor; apply Z.mod_pos_bound; lia.
Qed.

Lemma sha_block_length h block : length h = 5%nat -> length (sha_block h block) = 5%nat.
Proof.
  intros Hl. destruct h as [|h0 [|h1 [|h2 [|h3 [|h4 [|]]]]]]; try discriminate Hl. unfold sha_block.
  by destruct (foldl _ _ (seq 0 80)) as [[[[a b] c] d] e].
Qed.

#[local] Opaque process_block sha_block.

(** ** Messages in pieces *)

(** One octet at a time: the state of the hash and the part of a block that is not complete *)
Definition absorb (s : list Z * list Z) (b : Z) : list Z * list Z :=
  let p := s.2 ++ [b] in
  if (length p =? 64)%nat then (process_block s.1 p, []) else (s.1, p).

Lemma absorb_fill q h p : (length p + length q = 64)%nat -> q <> [] -> foldl absorb (h, p) q = (process_block h (p ++ q), []).
Proof.
  revert p. induction q as [|b q IH]; intros p Hl Hq; [done|]. cbn [foldl]. unfold absorb at 2. cbn [fst snd length] in *.
  rewrite length_app. cbn [length]. destruct q as [|c q].
  - cbn [length] in Hl. destruct (Nat.eqb_spec (length p + 1) 64); [done|lia].
  - cbn [length] in Hl. destruct (Nat.eqb_spec (length p + 1) 64); [lia|]. rewrite IH by (done || (rewrite length_app; cbn [length]; lia)). by rewrite <- app_assoc.
Qed.

Lemma absorb_length h p m : (length p < 64)%nat -> (length (foldl absorb (h, p) m).2 < 64)%nat /\
  (length (foldl absorb (h, p) m).2 = (length p + length m) mod 64)%nat.
Proof.
  revert h p. induction m as [|b m IH]; intros h p Hp; cbn [foldl length]; [rewrite Nat.add_0_r, Nat.mod_small by done; done|].
  unfold absorb at 2 4. cbn [fst snd]. rewrite length_app. cbn [length]. destruct (Nat.eqb_spec (length p + 1) 64).
  - destruct (IH (process_block h (p ++ [b])) []) as [H1 H2]; [cbn; lia|]. split; [done|]. rewrite H2. cbn [length].
    replace (length p + S (length m))%nat with (length m + 1 * 64)%nat by lia. by rewrite Nat.Div0.mod_add.
  - destruct (IH h (p ++ [b])) as [H1 H2]; [rewrite length_app; cbn; lia|]. split; [done|]. rewrite H2, length_app. cbn [length].
    f_equal. lia.
Qed.

Lemma foldl_ext {A B} (f g : A -> B -> A) a l : (forall a b, f a b = g a b) -> foldl f a l = foldl g a l.
Proof. intros H. revert a. induction l as [|b l IH]; intros a; [done|]. cbn. by rewrite H, IH. Qed.

Lemma absorb_blocks k m h : length m = (64 * k)%nat ->
  foldl absorb (h, []) m = (foldl (fun h i => process_block h (take 64 (drop (64 * i) m))) h (seq 0 k), []).
Proof.
  revert m h. induction k as [|k IH]; intros m h Hm; [by destruct m|]. rewrite <- (take_drop 64 m) at 1. rewrite foldl_app.
  rewrite absorb_fill; [|rewrite length_take; cbn [length]; lia|intros E; apply (f_equal length) in E; rewrite length_take in E; cbn [length] in E; lia].
  cbn [app]. rewrite IH by (rewrite length_drop; lia). apply (f_equal (fun h : list Z => (h, @nil Z))).
  change (seq 0 (S k)) with (0%nat :: seq 1 k). cbn [foldl]. rewrite Nat.mul_0_r, drop_0.
  rewrite <- (fmap_S_seq 0 k), foldl_fmap. apply foldl_ext. intros h' i. rewrite drop_drop. by replace (64 + 64 * i)%nat with (64 * S i)%nat by lia.
Qed.

(** The first part of the block of an object, whose other members are those of another *)
Definition prefix (x : sha1) p : Prop :=
  index_ x = length p /\ take (length p) (message_block_ x) = p /\ length (message_block_ x) = 64%nat /\ (length p <= 64)%nat.
Definition same (x y : sha1) : Prop :=
  intermediate_hash_ x = intermediate_hash_ y /\ length_ x = length_ y /\ computed_ x = computed_ y /\ corrupted_ x = corrupted_ y.

#[global] Instance same_equiv : Equivalence same.
Proof. split; unfold same; [intros ?|intros ? ?|intros ? ? ?]; naive_solver congruence. Qed.

Lemma take_insert_snoc (l p : list Z) b : take (length p) l = p -> (length p < length l)%nat ->
  take (length (p ++ [b])) (<[length p := b]> l) = p ++ [b].
Proof.
  intros Hp Hl. rewrite length_app, Nat.add_1_r. rewrite (take_S_r _ _ b) by (by apply list_lookup_insert_eq).
  by rewrite take_insert_ge, Hp by lia.
Qed.

Lemma push_prefix b x p : prefix x p -> (length p < 64)%nat -> exists x', push b x = Ok x' /\ prefix x' (p ++ [b]) /\ same x' x.
Proof.
  intros (Hi & Hp & Hb & _) Hl. unfold push, set_block. rewrite Hi, (proj2 (Nat.ltb_lt _ _)) by done. cbn [obind]. eexists. split; [done|].
  split; [|done]. unfold prefix, set_index. cbn [index_ message_block_]. rewrite take_insert_snoc, length_insert, length_app by (done || lia). cbn. split_and!; [lia|done..|lia].
Qed.

Lemma zeros_prefix n x p : prefix x p -> (length p + n <= 64)%nat -> exists x', zeros n x = Ok x' /\ prefix x' (p ++ replicate n 0) /\ same x' x.
Proof.
  revert x p. induction n as [|n IH]; intros x p Hx Hn; [exists x; cbn; by rewrite app_nil_r|]. cbn [zeros].
  destruct (push_prefix 0 x p Hx ltac:(lia)) as (x1 & -> & H1 & S1). cbn [obind].
  destruct (IH x1 (p ++ [0]) H1) as (x2 & -> & H2 & S2); [rewrite length_app; cbn; lia|]. exists x2. split; [done|].
  rewrite <- app_assoc in H2. split; [done|by etrans].
Qed.

Lemma process_prefix x p : prefix x p -> length p = 64%nat ->
  prefix (process_message_block x) [] /\ intermediate_hash_ (process_message_block x) = process_block (intermediate_hash_ x) p /\
  length_ (process_message_block x) = length_ x /\ computed_ (process_message_block x) = computed_ x /\
  corrupted_ (process_message_block x) = corrupted_ x.
Proof.
  intros (Hi & Hp & Hb & _) Hl. rewrite Hl, take_ge in Hp by lia. unfold prefix, process_message_block. cbn. rewrite Hp.
  rewrite Hp in Hb. split_and!; try done; lia.
Qed.

(** An object that has taken in what leads to a state *)
Definition holds (x : sha1) (s : list Z * list Z) (n : Z) : Prop :=
  intermediate_hash_ x = s.1 /\ prefix x s.2 /\ (length s.2 < 64)%nat /\ length_ x = n /\ computed_ x = false /\ corrupted_ x = false.

Lemma sha1_input_loop_ok span x s n : holds x s n -> 0 <= n -> n + 8 * Z.of_nat (length span) < 2 ^ 64 ->
  exists x', input_loop span x = Ok x' /\ holds x' (foldl absorb s span) (n + 8 * Z.of_nat (length span)).
Proof.
  revert x s n. induction span as [|b span IH]; intros x [h p] n Hx Hn Hlen.
  { exists x. split; [done|]. by rewrite Z.mul_0_r, Z.add_0_r. }
  destruct Hx as (Hh & Hp & Hl & Hn' & Hc & Hco). cbn [fst snd length] in *. cbn [input_loop foldl].
  destruct (push_prefix b x p Hp Hl) as (x1 & -> & H1 & E1 & E2 & E3 & E4). cbn [obind].
  rewrite E2, Hn', wrap_small by lia. rewrite (proj2 (Z.ltb_ge _ _)) by lia.
  set (x2 := Sha1 _ _ _ _ _ _). assert (prefix x2 (p ++ [b])) as H2 by exact H1.
  assert (exists x3, (if (index_ x2 =? 64)%nat then process_message_block x2 else x2) = x3 /\ holds x3 (absorb (h, p) b) (n + 8)) as (x3 & -> & H3).
  { eexists. split; [done|]. unfold absorb. cbn [fst snd]. rewrite (proj1 H2). destruct (Nat.eqb_spec (length (p ++ [b])) 64) as [E|E].
    - destruct (process_prefix x2 _ H2 E) as (Q1 & Q2 & Q3 & Q4 & Q5). unfold holds. cbn [fst snd length]. split_and!; [|exact Q1|lia|exact Q3| |].
      + rewrite Q2. change (intermediate_hash_ x2) with (intermediate_hash_ x1). rewrite E1, Hh. reflexivity.
      + rewrite Q4. change (computed_ x2) with (computed_ x1). congruence.
      + rewrite Q5. change (corrupted_ x2) with (corrupted_ x1). congruence.
    - unfold holds. cbn [fst snd]. split_and!; [cbn [x2 intermediate_hash_]; congruence|exact H2| |reflexivity|cbn [x2 computed_]; congruence|cbn [x2 corrupted_]; congruence].
      destruct H2 as (_ & _ & _ & H2). lia. }
  destruct (IH x3 (absorb (h, p) b) (n + 8) H3) as (x' & -> & Hx'); [lia..|]. exists x'. split; [done|].
  by replace (n + 8 * Z.of_nat (S (length span))) with (n + 8 + 8 * Z.of_nat (length span)) by lia.
Qed.

Lemma sha1_input_ok span x s n : holds x s n -> 0 <= n -> n + 8 * Z.of_nat (length span) < 2 ^ 64 ->
  exists x', input span x = Ok x' /\ holds x' (foldl absorb s span) (n + 8 * Z.of_nat (length span)).
Proof.
  intros Hx. unfold input. pose proof Hx as (_ & _ & _ & _ & -> & ->). cbn [orb]. by apply sha1_input_loop_ok.
Qed.

(** The length at the end of the block *)
Lemma store_length_ok l x p i : prefix x p -> (i = length p)%nat -> (length p + length l <= 64)%nat -> exists x',
  store_length l i x = Ok x' /\ same x' x /\ length (message_block_ x') = 64%nat /\
  take (length p + length l) (message_block_ x') = p ++ ((fun shift => wrap 8 (Z.shiftr (length_ x) shift)) <$> l).
Proof.
  intros (_ & Hp & Hb & _) -> Hl. revert x p Hp Hb Hl. induction l as [|shift l IH]; intros x p Hp Hb Hl.
  { exists x. cbn. by rewrite Nat.add_0_r, app_nil_r. }
  cbn [store_length length] in *. unfold set_block. rewrite (proj2 (Nat.ltb_lt _ _)) by lia. cbn [obind]. set (b := wrap 8 _). set (x1 := Sha1 _ _ _ _ _ _).
  destruct (IH x1 (p ++ [b])) as (x' & E & S' & Hb' & Ht).
  - cbn [message_block_ x1]. apply take_insert_snoc; [done|lia].
  - cbn [message_block_ x1]. by rewrite length_insert.
  - rewrite length_app. cbn. lia.
  - rewrite length_app, Nat.add_1_r in *. exists x'. split; [done|]. split; [by etrans|]. split; [done|].
    replace (length p + S (length l))%nat with (S (length p) + length l)%nat by lia. rewrite Ht. by rewrite <- app_assoc.
Qed.

Lemma length_octets n : 0 <= n < 2 ^ 64 ->
  (fun shift => wrap 8 (Z.shiftr n shift)) <$> [56; 48; 40; 32; 24; 16; 8; 0] = octets_of 8 n.
Proof. intros Hn. cbn [fmap list_fmap octets_of]. unfold wrap. by rewrite !Z.shiftr_div_pow2 by lia. Qed.

(** The end of the padding, from a block with room for the length *)
Lemma pad_last x p n : prefix x p -> length p = 56%nat -> length_ x = n -> 0 <= n < 2 ^ 64 -> exists x',
  store_length [56; 48; 40; 32; 24; 16; 8; 0] 56 x = Ok x' /\
  intermediate_hash_ (process_message_block x') = process_block (intermediate_hash_ x) (p ++ octets_of 8 n).
Proof.
  intros Hp Hl <- Hn. destruct (store_length_ok [56; 48; 40; 32; 24; 16; 8; 0] x p 56 Hp) as (x' & E & S' & Hb & Ht); [done|cbn; lia|].
  exists x'. split; [done|]. rewrite length_octets in Ht by done. rewrite Hl, take_ge in Ht by (rewrite Hb; cbn; lia).
  cbn [process_message_block intermediate_hash_]. by rewrite Ht, (proj1 S').
Qed.

Lemma length_octets_of n x : length (octets_of n x) = n.
Proof. induction n as [|n IH]; [done|]. cbn. by rewrite IH. Qed.

Lemma pad_message_ok x h p n : holds x (h, p) (8 * Z.of_nat n) -> 8 * Z.of_nat n < 2 ^ 64 -> length p = (n mod 64)%nat ->
  exists x', pad_message x = Ok x' /\ intermediate_hash_ x' = (foldl absorb (h, p) (padding n)).1.
Proof.
  intros (Hh & Hp & Hl & Hn & _) Hlt Hmod. cbn [fst snd] in *. unfold pad_message, padding. rewrite (proj1 Hp).
  assert (Z.of_nat (length p) = Z.of_nat n mod 64) as Hm by (rewrite Hmod, Nat2Z.inj_mod; done).
  pose proof (Z.div_mod (Z.of_nat n) 64 ltac:(lia)) as Hdiv.
  destruct (push_prefix 0x80 x p Hp Hl) as (x1 & E1 & P1 & S1). destruct (Nat.ltb_spec 55 (length p)) as [H55|H55].
  - replace (Z.to_nat ((55 - Z.of_nat n) mod 64)) with (63 - length p + 56)%nat.
    2: { rewrite <- (Z.mod_unique (55 - Z.of_nat n) 64 (- (Z.of_nat n / 64) - 1) (119 - Z.of_nat (length p))); lia. }
    rewrite E1. cbn [obind]. unfold pad_with_zeros. rewrite (proj1 P1), length_app. cbn [length].
    replace (64 - (length p + 1))%nat with (63 - length p)%nat by lia.
    destruct (zeros_prefix (63 - length p) x1 _ P1) as (x2 & -> & P2 & S2); [rewrite length_app; cbn; lia|]. cbn [obind].
    destruct (process_prefix x2 _ P2) as (P3 & H3 & L3 & _); [rewrite !length_app, length_replicate; cbn; lia|].
    change (index_ (process_message_block x2)) with 0%nat.
    destruct (zeros_prefix (56 - 0) _ [] P3) as (x4 & -> & P4 & S4); [cbn; lia|]. cbn [obind].
    destruct (pad_last x4 _ (8 * Z.of_nat n) P4) as (x5 & -> & H5); [done| |lia|].
    { rewrite (proj1 (proj2 S4)), L3, (proj1 (proj2 S2)), (proj1 (proj2 S1)). done. }
    cbn [obind]. eexists. split; [done|]. rewrite H5, (proj1 S4), H3, (proj1 S2), (proj1 S1), Hh.
    rewrite replicate_add, <- !app_assoc, (app_assoc [128]), foldl_app.
    rewrite (absorb_fill ([128] ++ replicate (63 - length p) 0) h p); [|rewrite length_app, length_replicate; cbn [length]; lia|discriminate].
    rewrite (absorb_fill (replicate 56 0 ++ octets_of 8 (8 * Z.of_nat n))); [|rewrite length_app, length_replicate, length_octets_of; cbn [length]; lia|discriminate].
    reflexivity.
  - replace (Z.to_nat ((55 - Z.of_nat n) mod 64)) with (55 - length p)%nat.
    2: { rewrite <- (Z.mod_unique (55 - Z.of_nat n) 64 (- (Z.of_nat n / 64)) (55 - Z.of_nat (length p))); lia. }
    rewrite E1. cbn [obind]. unfold pad_with_zeros. rewrite (proj1 P1), length_app. cbn [length].
    replace (56 - (length p + 1))%nat with (55 - length p)%nat by lia.
    destruct (zeros_prefix (55 - length p) x1 _ P1) as (x2 & -> & P2 & S2); [rewrite length_app; cbn; lia|]. cbn [obind].
    destruct (pad_last x2 _ (8 * Z.of_nat n) P2) as (x5 & -> & H5); [rewrite !length_app, length_replicate; cbn; lia| |lia|].
    { rewrite (proj1 (proj2 S2)), (proj1 (proj2 S1)). done. }
    cbn [obind]. eexists. split; [done|]. rewrite H5, (proj1 S2), (proj1 S1), Hh.
    rewrite (absorb_fill _ h p); [|rewrite !length_app, length_replicate, length_octets_of; cbn [length]; lia|discriminate].
    rewrite <- !app_assoc. reflexivity.
Qed.

Lemma digest_ok h : length h = 5%nat -> digest_octet h <$> seq 0 20 = h ≫= octets_of 4.
Proof.
  intros Hl. destruct h as [|h0 [|h1 [|h2 [|h3 [|h4 [|]]]]]]; try done.
  cbn [seq fmap list_fmap]. unfold digest_octet, wrap. rewrite !Z.shiftr_div_pow2 by (vm_compute; discriminate). reflexivity.
Qed.

(** The message that is hashed in [input] after [input] *)
Fixpoint input_all (chunks : list (list Z)) (x : sha1) : outcome sha1 :=
  match chunks with
  | [] => Ok x
  | c :: chunks => x <-? input c x ;; input_all chunks x
  end.

Lemma sha1_input_all_ok chunks x s n : holds x s n -> 0 <= n -> n + 8 * Z.of_nat (length (concat chunks)) < 2 ^ 64 ->
  exists x', input_all chunks x = Ok x' /\ holds x' (foldl absorb s (concat chunks)) (n + 8 * Z.of_nat (length (concat chunks))).
Proof.
  revert x s n. induction chunks as [|c chunks IH]; intros x s n Hx Hn Hlen; cbn [input_all concat] in *.
  { exists x. split; [done|]. by rewrite Z.mul_0_r, Z.add_0_r. }
  rewrite length_app in *. destruct (sha1_input_ok c x s n Hx Hn ltac:(lia)) as (x1 & -> & H1). cbn [obind].
  destruct (IH x1 _ _ H1 ltac:(lia) ltac:(lia)) as (x' & -> & H'). exists x'. split; [done|]. rewrite foldl_app.
  by replace (n + 8 * Z.of_nat (length c + length (concat chunks))) with (n + 8 * Z.of_nat (length c) + 8 * Z.of_nat (length (concat chunks))) by lia.
Qed.

Lemma sha_blocks_ok (l : list (list Z)) h : Forall block_ok l -> state_ok h ->
  foldl process_block h l = foldl sha_block h l /\ state_ok (foldl sha_block h l).
Proof.
  intros Hl. revert h. induction Hl as [|b l Hb _ IH]; intros h Hh; [done|]. cbn [foldl].
  destruct (process_block_ok h b Hh Hb) as [-> Hh']. by apply IH.
Qed.

Lemma octets_of_octets n x : Forall octet (octets_of n x).
Proof. induction n as [|n IH]; [constructor|]. cbn. constructor; [|done]. apply Z.mod_pos_bound. lia. Qed.

Lemma length_padded msg : exists k, length (padded msg) = (64 * k)%nat.
Proof.
  unfold padded, padding. rewrite !length_app, length_replicate, length_octets_of. cbn [length].
  set (n := length msg). exists (Z.to_nat ((Z.of_nat n + 9 + (55 - Z.of_nat n) mod 64) / 64)).
  pose proof (Z.div_mod (55 - Z.of_nat n) 64 ltac:(lia)). pose proof (Z.mod_pos_bound (55 - Z.of_nat n) 64 ltac:(lia)).
  replace (Z.of_nat n + 9 + (55 - Z.of_nat n) mod 64) with ((1 - (55 - Z.of_nat n) / 64) * 64) by lia. rewrite Z.div_mul by lia. lia.
Qed.

(** An object that has taken in a message gives its digest. *)
Lemma result_ok x msg : holds x (foldl absorb (initial_intermediate, []) msg) (8 * Z.of_nat (length msg)) -> Forall octet msg ->
  8 * Z.of_nat (length msg) < 2 ^ 64 -> exists x', result x = Ok (sha1_digest msg, x').
Proof.
  intros Hx Ho Hlen. destruct (foldl absorb (initial_intermediate, []) msg) as [h p] eqn:E.
  destruct (absorb_length initial_intermediate [] msg) as [Hp1 Hp2]; [cbn; lia|]. rewrite E in Hp1, Hp2. cbn [snd length Nat.add] in *.
  destruct (pad_message_ok x h p (length msg) Hx Hlen Hp2) as (x' & Ep & Hi).
  unfold result. pose proof Hx as (_ & _ & _ & _ & -> & _). cbn [negb]. rewrite Ep. cbn [obind intermediate_hash_].
  assert (intermediate_hash_ x' = foldl (fun h i => sha_block h (take 64 (drop (64 * i) (padded msg)))) initial_intermediate
    (seq 0 (length (padded msg) / 64)) /\ state_ok (intermediate_hash_ x')) as [Eh [Hl _]].
  { destruct (length_padded msg) as [k Hk]. rewrite Hi, <- E, <- foldl_app. change (msg ++ padding (length msg)) with (padded msg).
    rewrite (absorb_blocks k) by done. cbn [fst]. rewrite Hk, (Nat.mul_comm 64 k), Nat.div_mul by lia.
    rewrite <- !(foldl_fmap _ _ _ (fun i => take 64 (drop (64 * i) (padded msg)))).
    assert (Forall block_ok ((fun i => take 64 (drop (64 * i) (padded msg))) <$> seq 0 k)) as Hb.
    { apply Forall_fmap, Forall_forall. intros i Hi'. apply elem_of_seq in Hi'. cbn. split.
      - rewrite length_take, length_drop. lia.
      - apply Forall_take, Forall_drop. unfold padded, padding. repeat (apply Forall_app; split); [done|by repeat constructor| |apply octets_of_octets].
        by apply Forall_replicate. }
    destruct (sha_blocks_ok _ initial_intermediate Hb) as [-> Hs]; [|done]. split; [done|]. by repeat constructor. }
  rewrite digest_ok, Eh by done. by eexists.
Qed.

Lemma ctor_holds junk : length junk = 64%nat -> holds (sha1_ctor junk) (initial_intermediate, []) 0.
Proof. intros Hj. unfold holds, prefix. cbn. split_and!; (done || lia). Qed.

(** ** Base 64 *)

Lemma quad_ok x y z : octet x -> octet y -> octet z -> let n := big_endian [x; y; z] in
  quad x y z = [letter (n / 2 ^ 18 mod 64); letter (n / 2 ^ 12 mod 64); letter (n / 2 ^ 6 mod 64); letter (n / 2 ^ 0 mod 64)].
Proof.
  unfold octet, quad, big_endian. intros Hx Hy Hz. cbn [foldl].
  rewrite !Z.shiftr_land, !Z.shiftr_div_pow2, !Z.shiftl_mul_pow2 by lia.
  change (Z.land (x / 2 ^ 2) 63) with (Z.land (x / 2 ^ 2) (Z.ones 6)). change (Z.land x 3) with (Z.land x (Z.ones 2)).
  change (Z.land (y / 2 ^ 4) (240 / 2 ^ 4)) with (Z.land (y / 2 ^ 4) (Z.ones 4)). change (Z.land y 15) with (Z.land y (Z.ones 4)).
  change (Z.land (z / 2 ^ 6) (192 / 2 ^ 6)) with (Z.land (z / 2 ^ 6) (Z.ones 2)). change (Z.land z 63) with (Z.land z (Z.ones 6)).
  rewrite !Z.land_ones by lia. rewrite (lor_add 4), (lor_add 2).
  2,5: lia. 2,4: apply Z.mod_pos_bound; lia. 2,3: apply Z.divide_factor_r.
  change (2 ^ 2) with 4. change (2 ^ 4) with 16. change (2 ^ 6) with 64. change (2 ^ 18) with 262144. change (2 ^ 12) with 4096. change (2 ^ 0) with 1.
  do 4 (apply (f_equal2 cons); [apply (f_equal letter); Z.div_mod_to_equations; lia|]). reflexivity.
Qed.

Lemma digest_to_base64_ok d : length d = 20%nat -> Forall octet d -> digest_to_base64 d = base64 d.
Proof.
  intros Hl Hd. do 20 (destruct d as [|? d]; [done|]). destruct d; [|done].
  repeat match goal with H : Forall octet (_ :: _) |- _ => apply Forall_cons in H as [? ?] end. unfold digest_to_base64.
  cbn [seq mbind list_bind app lookup_total list_lookup_total Nat.mul Nat.add]. rewrite !quad_ok by assumption.
  pose proof (quad_ok z17 z18 0 ltac:(assumption) ltac:(assumption) ltac:(unfold octet; lia)) as H'. cbn zeta in H'. unfold quad in H'.
  injection H' as E1 E2 E3 _. change (Z.shiftr (Z.land 0 192) 6) with 0 in E3. rewrite Z.lor_0_r in E3. cbn [base64]. cbn zeta. rewrite <- E1, <- E2, <- E3. reflexivity.
Qed.

(** ** Keys *)

Lemma skip_space_app ws m : Forall (fun c => isspace c = true) ws -> (forall c, head m = Some c -> isspace c = false) ->
  skip_space (ws ++ m) = m.
Proof.
  intros Hw Hm. induction Hw as [|c ws Hc _ IH]; cbn [app skip_space]; [|by rewrite Hc].
  destruct m as [|c m]; [done|]. cbn. by rewrite (Hm c eq_refl).
Qed.

Lemma head_app_nonempty {A} (l k : list A) : l <> [] -> head (l ++ k) = head l.
Proof. by destruct l. Qed.

Lemma sha1_digest_octets msg : length (sha1_digest msg) = 20%nat /\ Forall octet (sha1_digest msg).
Proof.
  unfold sha1_digest. set (h := foldl _ _ _). assert (length h = 5%nat) as Hl.
  { subst h. assert (forall l h0, length h0 = 5%nat ->
      length (foldl (fun h i => sha_block h (take 64 (drop (64 * i) (padded msg)))) h0 l) = 5%nat) as H; [|by apply H].
    induction l as [|i l IH]; intros h0 H0; [done|]. cbn [foldl]. apply IH. by apply sha_block_length. }
  clearbody h. split.
  - destruct h as [|h0 [|h1 [|h2 [|h3 [|h4 [|]]]]]]; done.
  - clear Hl. induction h as [|x h IH]; [constructor|]. cbn [mbind list_bind]. apply Forall_app. split; [apply octets_of_octets|done].
Qed.

Lemma source_key_ok uninitialised before key after :
  length uninitialised = 64%nat -> Forall (fun c => isspace c = true) before -> Forall (fun c => isspace c = true) after ->
  Forall octet key -> 8 * Z.of_nat (length key + 36) < 2 ^ 64 ->
  key <> [] -> (forall c, head key = Some c \/ last key = Some c -> isspace c = false) ->
  source_key uninitialised (before ++ key ++ after) = Ok (base64 (sha1_digest (key ++ magic))).
Proof.
  intros Hu Hb Ha Hk Hkl Hne Hsp. pose proof (ctor_holds _ Hu) as H0.
  assert (first_position (before ++ key ++ after) = length before) as Ef.
  { unfold first_position. rewrite skip_space_app, !length_app; [lia|done|]. intros c. rewrite head_app_nonempty by done. intros. apply Hsp. by left. }
  assert (last_position (before ++ key ++ after) = (length before + length key)%nat) as El.
  { unfold last_position. rewrite !reverse_app, <- app_assoc, skip_space_app; [rewrite length_app, !length_reverse; lia|by apply Forall_reverse|].
    intros c. rewrite head_app_nonempty by (intros E; apply Hne; apply (f_equal reverse) in E; by rewrite reverse_involutive in E).
    rewrite head_reverse. intros. apply Hsp. by right. }
  unfold source_key. rewrite Ef, El, (proj2 (Nat.leb_le _ _)) by lia. cbn [oassert obind].
  replace (length before + length key - length before)%nat with (length key) by lia. rewrite drop_app_length, take_app_length.
  destruct (sha1_input_ok key _ _ 0 H0 ltac:(lia) ltac:(lia)) as (x1 & -> & H1). cbn [obind]. rewrite Z.add_0_l in H1.
  destruct (sha1_input_ok magic x1 _ _ H1 ltac:(lia)) as (x2 & -> & H2); [cbn [length magic]; lia|]. cbn [obind].
  rewrite <- foldl_app in H2. destruct (result_ok x2 (key ++ magic)) as [x' ->].
  + rewrite length_app. by replace (8 * Z.of_nat (length key + length magic)) with (8 * Z.of_nat (length key) + 8 * Z.of_nat (length magic)) by lia.
  + apply Forall_app. split; [done|]. by repeat (constructor; [unfold octet; lia|]).
  + rewrite length_app. cbn [length magic]. lia.
  + cbn [obind fst]. destruct (sha1_digest_octets (key ++ magic)). by rewrite digest_to_base64_ok.
Qed.

(** C35: SHA-1 is computed as it is defined: however a message is divided into pieces, and whatever the block held before, the
    result is the digest of the message; and the answer to the key of a WebSocket is the digest, in base 64, of
    the key without the white space around it and the constant of the protocol. *)
Theorem websocket_key_exact (uninitialised : list Z) (chunks : list (list Z)) (before key after : list Z) :
  length uninitialised = 64%nat -> Forall octet (concat chunks) -> 8 * Z.of_nat (length (concat chunks)) < 2 ^ 64 ->
  Forall (fun c => isspace c = true) before -> Forall (fun c => isspace c = true) after ->
  Forall octet key -> 8 * Z.of_nat (length key + 36) < 2 ^ 64 ->
  key <> [] -> (forall c, head key = Some c \/ last key = Some c -> isspace c = false) ->
  (exists x x', input_all chunks (sha1_ctor uninitialised) = Ok x /\ result x = Ok (sha1_digest (concat chunks), x')) /\
  source_key uninitialised (before ++ key ++ after) = Ok (base64 (sha1_digest (key ++ magic))).
Proof.
  intros Hu Hc Hlen Hb Ha Hk Hkl Hne Hsp. pose proof (ctor_holds _ Hu) as H0. split.
  - destruct (sha1_input_all_ok chunks _ _ 0 H0 ltac:(lia) ltac:(lia)) as (x & -> & Hx). rewrite Z.add_0_l in Hx.
    destruct (result_ok x (concat chunks) Hx Hc Hlen) as [x' E]. by exists x, x'.
  - by apply source_key_ok.
Qed.

Lemma Ok_inj {A} (a b : A) : Ok a = Ok b -> a = b.
Proof. by intros [= ->]. Qed.

(** The key of the example of RFC 6455, behind a space *)
Lemma websocket_key_exact_witness :
  let key := [100; 71; 104; 108; 73; 72; 78; 104; 98; 88; 66; 115; 90; 83; 66; 117; 98; 50; 53; 106; 90; 81; 61; 61] in
  base64 (sha1_digest (key ++ magic)) =
    [115; 51; 112; 80; 76; 77; 66; 105; 84; 120; 97; 81; 57; 107; 89; 71; 122; 122; 104; 90; 82; 98; 75; 43; 120; 79; 111; 61].
Proof.
  intros key. destruct (websocket_key_exact (replicate 64 0) [[97]; [98; 99]] [32] key []) as [_ E].
  - reflexivity.
  - by repeat (constructor; [split; lia|]).
  - vm_compute. reflexivity.
  - by repeat constructor.
  - constructor.
  - by repeat (constructor; [split; lia|]).
  - vm_compute. reflexivity.
  - discriminate.
  - intros c [[= <-]|[= <-]]; reflexivity.
  - assert (source_key (replicate 64 0) ([32] ++ key ++ []) = Ok
      [115; 51; 112; 80; 76; 77; 66; 105; 84; 120; 97; 81; 57; 107; 89; 71; 122; 122; 104; 90; 82; 98; 75; 43; 120; 79; 111; 61])
      as E' by (vm_compute; reflexivity).
    apply Ok_inj. etransitivity; [symmetry; exact E|exact E'].
Defined.
