(* ===== verification/Varint.v ===== *)
(** * Variable-length integers and the string serializer

    Models include/pstore/support/varint.hpp and the [string_helper] of
    include/pstore/serialize/standard_types.hpp, whose length prefix is a
    variable-length integer. Bytes are integers below 256; an output iterator is
    the list of the bytes written through it, an input iterator the list of the
    bytes that follow it, and dereferencing it past its end throws. *)

From S2P Require Import Prelude BitCount.

Section varint.

(** The maximum number of bytes that [encode] will produce. *)
Definition max_output_length : Z := 9.

Definition encoded_size (x : Z) : outcome Z :=
  let nine_byte_threshold := 2 ^ (7 * 8) - 1 in
  if x >? nine_byte_threshold then Ok 9
  else
    c <-? clz 64 (Z.lor x 1) ;;
    let bits := 64 - c in
    Ok ((bits - 1) / 7 + 1).

(** The fall-through [switch] of [encode]: one byte per case, least significant first. *)
Fixpoint emit (bytes : nat) (x : Z) : list Z :=
  match bytes with
  | O => []
  | S n => Z.land x 255 :: emit n (Z.shiftr x 8)
  end.

Definition encode (x : Z) : outcome (list Z) :=
  c <-? clz 64 (Z.lor x 1) ;;
  let bits := 64 - c in
  if bits >? 56 then Ok (0 :: emit 8 x)
  else
    let bytes := (bits - 1) / 7 + 1 in
    (* Encode the number of bytes in the low bits of the value itself. *)
    let x := wrap64 (Z.shiftl (wrap64 (2 * x + 1)) (bytes - 1)) in
    _ <-? oassert (bytes <? 9) ;;
    Ok (emit (Z.to_nat bytes) x).

Definition decode_size (input : list Z) : outcome Z :=
  match input with
  | [] => Throw Dangling
  | b :: _ => c <-? ctz (Z.lor b 256) ;; Ok (c + 1)
  end.

(** [n] bytes ORed together, the first at bit [shift]. *)
Fixpoint gather (n : nat) (shift : Z) (input : list Z) (result : Z) : outcome Z :=
  match n with
  | O => Ok result
  | S n =>
      match input with
      | [] => Throw Dangling
      | b :: input => gather n (shift + 8) input (Z.lor result (wrap64 (Z.shiftl b shift)))
      end
  end.

Definition decode9 (input : list Z) : outcome Z :=
  match input with
  | [] => Throw Dangling
  | _ :: input => gather 8 0 input 0 (* skip the length byte *)
  end.

(** [decode (in, size)] *)
Definition decode_n (input : list Z) (size : Z) : outcome Z :=
  n <-? decode_size input ;;
  _ <-? oassert ((size >? 0) && (size =? n)) ;;
  if size =? 9 then decode9 input
  else
    result <-? gather (Z.to_nat size) 0 input 0 ;;
    Ok (Z.shiftr result size).

(** [decode (in)] *)
Definition decode (input : list Z) : outcome Z :=
  size <-? decode_size input ;; decode_n input size.

End varint.

(** ** Little-endian bytes *)

Lemma length_emit n x : length (emit n x) = n.
Proof. revert x. induction n; intros x; simpl; [done|]. by rewrite IHn. Qed.

Lemma emit_bytes n x : Forall (fun b => 0 <= b < 256) (emit n x).
Proof.
  revert x. induction n as [|n IH]; intros x; simpl; constructor; [|apply IH].
  change 255 with (Z.ones 8). rewrite Z.land_ones by lia. apply Z.mod_pos_bound. lia.
Qed.

Lemma gather_emit n x shift rest acc :
  0 <= shift -> shift + 8 * Z.of_nat n <= 64 -> 0 <= x ->
  gather n shift (emit n x ++ rest) acc =
    Ok (Z.lor acc (Z.shiftl (x mod 2 ^ (8 * Z.of_nat n)) shift)).
Proof.
  revert x shift acc. induction n as [|n IH]; intros x shift acc Hs Hw Hx.
  - simpl. by rewrite Z.mod_1_r, Z.shiftl_0_l, Z.lor_0_r.
  - cbn [emit gather app].
    rewrite Nat2Z.inj_succ in Hw.
    rewrite IH by (try apply Z.shiftr_nonneg; lia). f_equal.
    rewrite <- Z.lor_assoc. f_equal.
    change 255 with (Z.ones 8). rewrite Z.land_ones by lia.
    assert (0 <= x mod 2 ^ 8 < 2 ^ 8) as Hb by (apply Z.mod_pos_bound; lia).
    rewrite wrap_small.
    2:{ rewrite Z.shiftl_mul_pow2 by lia.
        assert (2 ^ 8 * 2 ^ shift <= 2 ^ 64) by (rewrite <- Z.pow_add_r by lia; apply Z.pow_le_mono_r; lia).
        assert (0 < 2 ^ shift) by (apply Z.pow_pos_nonneg; lia). nia. }
    rewrite Nat2Z.inj_succ.
    apply Z.bits_inj'. intros i Hi.
    rewrite Z.lor_spec, !Z.shiftl_spec by lia.
    destruct (decide (i < shift)); [by rewrite !Z.testbit_neg_r by lia|].
    destruct (decide (i < shift + 8)).
    + rewrite (Z.testbit_neg_r _ (i - (shift + 8))), orb_false_r by lia.
      by rewrite !Z.mod_pow2_bits_low by lia.
    + rewrite (Z.mod_pow2_bits_high x 8) by lia. simpl.
      destruct (decide (i - shift < 8 * Z.succ (Z.of_nat n))).
      * rewrite !Z.mod_pow2_bits_low by lia.
        rewrite Z.shiftr_spec by lia. f_equal. lia.
      * by rewrite !Z.mod_pow2_bits_high by lia.
Qed.

(** ** The encoded form *)

(** The number of significant bits of [x | 1]. *)
Lemma bits_spec x : 0 <= x < 2 ^ 64 ->
  exists c, clz 64 (Z.lor x 1) = Ok c /\ 1 <= 64 - c <= 64 /\
    (forall b, 1 <= b -> x < 2 ^ b <-> 64 - c <= b).
Proof.
  intros Hx.
  assert (0 <= Z.lor x 1 < 2 ^ 64) as Hr by (apply lor_range; lia).
  assert (0 < Z.lor x 1) as Hp.
  { assert (Z.lor x 1 <> 0); [|lia]. intros H. apply Z.lor_eq_0_iff in H. lia. }
  destruct (clz_spec 64 (Z.lor x 1) ltac:(lia)) as (c & -> & Hc & Hlo & Hhi).
  exists c. split; [done|]. split; [lia|].
  assert (forall b, 1 <= b -> x < 2 ^ b <-> Z.lor x 1 < 2 ^ b) as Hb.
  { intros b Hb. assert (2 ^ 1 <= 2 ^ b) by (apply Z.pow_le_mono_r; lia). split.
    - intros. apply lor_range; lia.
    - intros. assert (x <= Z.lor x 1); [|lia].
      assert (Z.lor x 1 = x + Z.ldiff 1 x) as ->.
      { rewrite Z.add_nocarry_lxor.
        - apply Z.bits_inj'. intros i Hi. rewrite Z.lor_spec, Z.lxor_spec, Z.ldiff_spec.
          by destruct (Z.testbit x i), (Z.testbit 1 i).
        - apply Z.bits_inj'. intros i Hi. rewrite Z.land_spec, Z.ldiff_spec, Z.testbit_0_l.
          by destruct (Z.testbit x i), (Z.testbit 1 i). }
      assert (0 <= Z.ldiff 1 x) by (apply Z.ldiff_nonneg; lia). lia. }
  intros b Hb1. rewrite Hb by done. split.
  - intros. destruct (decide (64 - c <= b)); [done|].
    assert (2 ^ b <= 2 ^ (64 - 1 - c)) by (apply Z.pow_le_mono_r; lia). lia.
  - intros. assert (2 ^ (64 - c) <= 2 ^ b) by (apply Z.pow_le_mono_r; lia). lia.
Qed.

(** The short form: [n] bytes whose value carries [n - 1] zero bits and a one below [x]. *)
Lemma encode_short x : 0 <= x < 2 ^ 56 ->
  exists n, 1 <= n <= 8 /\ encoded_size x = Ok n /\ x < 2 ^ (7 * n) /\
    (n = 1 \/ 2 ^ (7 * (n - 1)) <= x) /\
    (2 * x + 1) * 2 ^ (n - 1) < 2 ^ (8 * n) /\
    encode x = Ok (emit (Z.to_nat n) ((2 * x + 1) * 2 ^ (n - 1))).
Proof.
  intros Hx. unfold encode, encoded_size.
  destruct (bits_spec x ltac:(lia)) as (c & -> & Hc & Hb). simpl obind.
  assert (64 - c <= 56) as Hc' by (apply Hb; lia).
  destruct (Z.gtb_spec x (2 ^ (7 * 8) - 1)); [lia|].
  destruct (Z.gtb_spec (64 - c) 56); [lia|].
  set (n := (64 - c - 1) / 7 + 1).
  assert (1 <= n <= 8) as Hn by (subst n; Z.div_mod_to_equations; lia).
  assert (64 - c <= 7 * n) as Hcn by (subst n; Z.div_mod_to_equations; lia).
  assert (x < 2 ^ (7 * n)) as Hxn by (apply Hb; lia).
  assert (0 < 2 ^ (n - 1)) by (apply Z.pow_pos_nonneg; lia).
  assert ((2 * x + 1) * 2 ^ (n - 1) < 2 ^ (8 * n)) as Hv.
  { replace (8 * n) with (7 * n + 1 + (n - 1)) by lia.
    rewrite !Z.pow_add_r by lia. change (2 ^ 1) with 2. nia. }
  assert (2 ^ (8 * n) <= 2 ^ 64) by (apply Z.pow_le_mono_r; lia).
  exists n. split_and!; [lia|lia|done|done| |done|].
  - destruct (decide (n = 1)); [by left|right].
    destruct (decide (2 ^ (7 * (n - 1)) <= x)); [done|exfalso].
    assert (64 - c <= 7 * (n - 1)) by (apply Hb; lia).
    subst n. Z.div_mod_to_equations. lia.
  - destruct (Z.ltb_spec n 9); [|lia]. simpl. do 2 f_equal.
    rewrite (wrap_small 64 (2 * x + 1)) by nia.
    rewrite Z.shiftl_mul_pow2 by lia. apply wrap_small. nia.
Qed.

(** The long form: a zero byte followed by the eight bytes of [x]. *)
Lemma encode_long x : 2 ^ 56 <= x < 2 ^ 64 ->
  encoded_size x = Ok 9 /\ encode x = Ok (0 :: emit 8 x).
Proof.
  intros Hx. unfold encode, encoded_size.
  destruct (bits_spec x ltac:(lia)) as (c & -> & Hc & Hb). simpl obind.
  destruct (Z.gtb_spec x (2 ^ (7 * 8) - 1)); [|lia].
  destruct (Z.gtb_spec (64 - c) 56) as [|Hle]; [done|].
  apply Hb in Hle; lia.
Qed.

Lemma decode_size_short x n rest : 1 <= n <= 8 -> 0 <= x ->
  decode_size (emit (Z.to_nat n) ((2 * x + 1) * 2 ^ (n - 1)) ++ rest) = Ok n.
Proof.
  intros Hn Hx. destruct (Z.to_nat n) as [|m] eqn:Hm; [lia|]. cbn [emit app decode_size].
  set (v := (2 * x + 1) * 2 ^ (n - 1)).
  change 255 with (Z.ones 8). rewrite Z.land_ones by lia.
  assert (0 <= v mod 2 ^ 8 < 2 ^ 8) by (apply Z.mod_pos_bound; lia).
  assert (Z.lor (v mod 2 ^ 8) 256 = v mod 2 ^ 8 + 256) as ->.
  { symmetry. rewrite Z.add_nocarry_lxor, Z.lxor_lor; [done| |];
      apply Z.bits_inj'; intros i Hi; change 256 with (2 ^ 8);
      rewrite Z.land_spec, Z.testbit_0_l; (destruct (decide (i = 8)) as [->|];
      [by rewrite Z.mod_pow2_bits_high by lia|by rewrite Z.pow2_bits_false, andb_false_r by lia]). }
  assert (v mod 2 ^ 8 + 256 = (2 * (x + 2 ^ (8 - n) * (1 - v / 2 ^ 8)) + 1) * 2 ^ (n - 1)) as E.
  { assert (2 ^ 8 = 2 * 2 ^ (8 - n) * 2 ^ (n - 1)) as E8.
    { rewrite <- Z.pow_succ_r, <- Z.pow_add_r by lia. f_equal. lia. }
    pose proof (Z.div_mod v (2 ^ 8) ltac:(lia)) as Hdm. subst v. nia. }
  rewrite E. assert (0 < 2 ^ (n - 1)) by (apply Z.pow_pos_nonneg; lia).
  rewrite ctz_unique; [simpl; f_equal; lia|lia|nia].
Qed.

Lemma decode_n_short x n rest : 1 <= n <= 8 -> 0 <= x -> (2 * x + 1) * 2 ^ (n - 1) < 2 ^ (8 * n) ->
  decode_n (emit (Z.to_nat n) ((2 * x + 1) * 2 ^ (n - 1)) ++ rest) n = Ok x.
Proof.
  intros Hn Hx Hv. unfold decode_n. rewrite decode_size_short by done. simpl obind.
  destruct (Z.gtb_spec n 0); [|lia]. rewrite Z.eqb_refl. simpl obind.
  destruct (Z.eqb_spec n 9); [lia|].
  assert (0 < 2 ^ (n - 1)) by (apply Z.pow_pos_nonneg; lia).
  rewrite gather_emit by (rewrite ?Z2Nat.id; lia || nia). simpl obind. f_equal.
  rewrite Z.shiftl_0_r, Z.lor_0_l, Z2Nat.id by lia.
  rewrite Z.mod_small by nia.
  rewrite Z.shiftr_div_pow2 by lia.
  replace (2 ^ n) with (2 ^ (n - 1) * 2)
    by (rewrite Z.mul_comm, <- Z.pow_succ_r by lia; f_equal; lia).
  rewrite <- Z.div_div, Z.div_mul by lia.
  symmetry. apply (Z.div_unique _ _ _ 1); lia.
Qed.

Lemma decode_n_long x rest : 0 <= x < 2 ^ 64 -> decode_n (0 :: emit 8 x ++ rest) 9 = Ok x.
Proof.
  intros Hx.
  change (decode_n (0 :: emit 8 x ++ rest) 9) with (gather 8 0 (emit 8 x ++ rest) 0).
  rewrite gather_emit by lia. f_equal.
  rewrite Z.shiftl_0_r, Z.lor_0_l. apply Z.mod_small. done.
Qed.

(** ** Strings *)

Section string_helper.

(** [string_helper::write]: the length, as a variable-length integer of at least
    two bytes, then the characters. *)
Definition string_write (str : list Z) : outcome (list Z) :=
  let length := Z.of_nat (length str) in
  enc <-? encode length ;;
  let length_bytes := Z.of_nat (List.length enc) in
  _ <-? oassert ((length_bytes >? 0) && (length_bytes <=? max_output_length)) ;;
  let enc := if length_bytes =? 1 then enc ++ [0] else enc in
  Ok (enc ++ str).

(** [serialize::read_uninit] of [n] bytes from an archive. *)
Definition read_bytes (n : Z) (input : list Z) : outcome (list Z * list Z) :=
  if Z.of_nat (length input) <? n then Throw Dangling
  else Ok (take (Z.to_nat n) input, drop (Z.to_nat n) input).

(** [string_helper::read_length]: two bytes first, the rest only when there is any. *)
Definition read_length (input : list Z) : outcome (Z * list Z) :=
  r <-? read_bytes 2 input ;;
  let '(encoded_length, input) := r in
  varint_length <-? decode_size encoded_length ;;
  _ <-? oassert (varint_length >? 0) ;;
  r <-? (if varint_length >? 2 then
           _ <-? oassert (varint_length <=? max_output_length) ;;
           r <-? read_bytes (varint_length - 2) input ;;
           Ok (encoded_length ++ r.1, r.2)
         else Ok (encoded_length, input)) ;;
  let '(encoded_length, input) := r in
  length <-? decode_n encoded_length varint_length ;;
  Ok (length, input).

(** [serializer<std::string>::read] *)
Definition string_read (input : list Z) : outcome (list Z * list Z) :=
  r <-? read_length input ;;
  let '(length, input) := r in
  read_bytes length input.

End string_helper.

Lemma read_bytes_app l rest n : n = Z.of_nat (length l) -> read_bytes n (l ++ rest) = Ok (l, rest).
Proof.
  intros ->. unfold read_bytes. rewrite length_app.
  destruct (Z.ltb_spec (Z.of_nat (length l + length rest)) (Z.of_nat (length l))); [lia|].
  by rewrite Nat2Z.id, take_app_length, drop_app_length.
Qed.

(** What a reader learns from an encoded value, whatever follows it. *)
Lemma encode_spec x : 0 <= x < 2 ^ 64 ->
  exists bs n, encode x = Ok bs /\ encoded_size x = Ok n /\ Z.of_nat (length bs) = n /\
    1 <= n <= max_output_length /\
    Forall (fun b => 0 <= b < 256) bs /\
    forall rest, decode_size (bs ++ rest) = Ok n /\ decode_n (bs ++ rest) n = Ok x.
Proof.
  intros Hx. unfold max_output_length. destruct (decide (x < 2 ^ 56)).
  - destruct (encode_short x ltac:(lia)) as (n & Hn & Hs & _ & _ & Hv & He).
    eexists _, n. split; [exact He|]. rewrite length_emit. split_and!; [done|lia|lia|lia| |].
    + apply emit_bytes.
    + intros rest. split; [apply decode_size_short; lia|apply decode_n_short; lia].
  - destruct (encode_long x ltac:(lia)) as (Hs & He).
    eexists _, 9. split; [exact He|]. cbn [length]. rewrite length_emit.
    split_and!; [done|lia|lia|lia| |].
    + constructor; [lia|apply emit_bytes].
    + intros rest. split; [reflexivity|]. apply decode_n_long. lia.
Qed.

(** The octets of the length of a string *)
Definition length_octets (n : Z) : outcome (list Z) :=
  enc <-? encode n ;; Ok (if Z.of_nat (length enc) =? 1 then enc ++ [0] else enc).

Lemma length_octets_ok n : 0 <= n < 2 ^ 64 -> exists enc, length_octets n = Ok enc /\ 2 <= Z.of_nat (length enc) <= 9 /\
  exists v : Z, 1 <= v <= 9 /\ Z.max v 2 = Z.of_nat (length enc) /\
    decode_size (take 2 enc) = Ok v /\ decode_n enc v = Ok n.
Proof.
  intros Hn. destruct (encode_spec n Hn) as (enc & v & E & _ & Hl & Hm & _ & Hd). unfold length_octets. rewrite E. cbn [obind].
  unfold max_output_length in Hm. eexists. split; [done|]. destruct (Z.eqb_spec (Z.of_nat (length enc)) 1) as [H1|H1].
  - rewrite length_app. cbn [length]. split; [lia|]. exists v. destruct (Hd [0]) as [Hs Hv]. split_and!; [lia|lia|lia| |done].
    rewrite take_ge; [done|]. rewrite length_app. cbn. lia.
  - split; [lia|]. exists v. destruct (Hd []) as [Hs Hv]. rewrite app_nil_r in Hs, Hv. split_and!; [lia|lia|lia| |done].
    destruct enc; [cbn in *; lia|]. exact Hs.
Qed.

Lemma length_octets_octets n enc : 0 <= n < 2 ^ 64 -> length_octets n = Ok enc -> Forall octet enc.
Proof.
  intros Hn. destruct (encode_spec n Hn) as (bs & v & E & _ & _ & _ & Ho & _). unfold length_octets.
  rewrite E. cbn [obind]. intros [= <-]. case_match; [apply Forall_app; split; [done|]|done].
  apply Forall_singleton. unfold octet. lia.
Qed.

(** Reading back what [string_write] wrote gives the characters and leaves the reader just
    behind them. *)
Lemma string_write_read (str rest : list Z) : Z.of_nat (length str) < 2 ^ 64 ->
  exists bs, string_write str = Ok bs /\ string_read (bs ++ rest) = Ok (str, rest).
Proof.
  intros Hl. unfold string_write, string_read.
  destruct (encode_spec (Z.of_nat (length str)) ltac:(lia)) as (enc & n & -> & _ & Hn & Hr & _ & Hd).
  simpl obind. rewrite Hn.
  destruct (Z.gtb_spec n 0); [|lia]. destruct (Z.leb_spec n max_output_length); [|lia].
  simpl obind. eexists. split; [done|]. rewrite <- app_assoc.
  assert (forall tl, read_length ((if n =? 1 then enc ++ [0] else enc) ++ tl) =
    Ok (Z.of_nat (length str), tl)) as ->; [|simpl; by apply read_bytes_app].
  intros tl. unfold read_length.
  destruct (Z.eqb_spec n 1) as [->|].
  - rewrite read_bytes_app by (rewrite length_app; simpl; lia). simpl obind.
    destruct (Hd [0]) as [Hs1 Hd1]. rewrite Hs1. simpl obind. by rewrite Hd1.
  - assert (enc = take 2 enc ++ drop 2 enc) as Henc by (by rewrite take_drop).
    assert (length (take 2 enc) = 2)%nat by (rewrite length_take; lia).
    rewrite Henc at 1. rewrite <- app_assoc, read_bytes_app by lia. simpl obind.
    assert (decode_size (take 2 enc) = Ok n) as ->.
    { destruct (Hd []) as [Hs _]. destruct enc; [simpl in *; lia|]. exact Hs. }
    simpl obind. destruct (Z.gtb_spec n 0); [|lia]. simpl obind.
    destruct (Hd []) as [_ Hdn]. rewrite app_nil_r in Hdn.
    destruct (Z.gtb_spec n 2).
    + destruct (Z.leb_spec n max_output_length); [|lia]. simpl obind.
      rewrite read_bytes_app by (rewrite length_drop; lia). simpl obind.
      by rewrite take_drop, Hdn.
    + simpl obind. rewrite drop_ge by lia. rewrite take_ge, Hdn by lia. done.
Qed.

(** encoding a 64-bit value produces between 1 and 9 bytes, as many as [encoded_size]
    announces, and decoding them, whatever follows, yields the value; a string of any
    length below 2^64 is read back from what [string_write] wrote, and the reader is left
    just behind it. *)
Lemma serialization_roundtrip (x : Z) (str rest : list Z) :
  0 <= x < 2 ^ 64 -> Z.of_nat (length str) < 2 ^ 64 ->
  (exists bs, encode x = Ok bs /\
    encoded_size x = Ok (Z.of_nat (length bs)) /\
    1 <= Z.of_nat (length bs) <= max_output_length /\
    Forall (fun b => 0 <= b < 256) bs /\
    decode (bs ++ rest) = Ok x) /\
  exists bs, string_write str = Ok bs /\ string_read (bs ++ rest) = Ok (str, rest).
Proof.
  intros Hx Hl. split; [|by apply string_write_read].
  destruct (encode_spec x Hx) as (bs & n & He & Hs & <- & Hn & Hb & Hd).
  exists bs. destruct (Hd rest) as [Hds Hdn]. unfold decode. rewrite Hds. simpl. eauto.
Qed.

