(* ===== verification/Uint128.v ===== *)
(** * 128-bit integers and their textual forms

    Models include/pstore/support/uint128.hpp and lib/support/uint128.cpp as they are on a
    compiler without a native 128-bit type: a value is a pair of 64-bit words and the
    operations carry between them. The 128-bit overloads of bit_count.hpp and the base-32
    names of lib/core/base32.hpp are built on it. Digests, the keys of most indices, are
    such values. *)

From S2P Require Import Prelude BitCount.

(** [uint128] *)
Record uint128 := U128 { high : Z; low : Z }.

(** [uint128::max64] *)
Abbreviation max64 := uint64_max.

(** ** Operations *)

(** [operator==], with another [uint128] and with an unsigned value of 64 bits or fewer *)
Definition u_eq (x y : uint128) : bool := (high x =? high y) && (low x =? low y).
Definition u_eq_int (x : uint128) (rhs : Z) : bool := (high x =? 0) && (low x =? Z.land rhs max64).

(** [operator++] and [operator--] *)
Definition u_incr (x : uint128) : uint128 :=
  let low' := wrap64 (low x + 1) in
  U128 (if low' =? 0 then wrap64 (high x + 1) else high x) low'.

Definition u_decr (x : uint128) : uint128 :=
  if low x =? 0 then U128 (wrap64 (high x - 1)) max64 else U128 (high x) (low x - 1).

(** [operator+=] *)
Definition u_add (x rhs : uint128) : uint128 :=
  let old_low := low x in
  let low' := wrap64 (low x + low rhs) in
  let high' := wrap64 (high x + high rhs) in
  U128 (if low' <? old_low then wrap64 (high' + 1) else high') low'.

(** [operator~], the unary [operator-] and [operator-=] *)
Definition u_compl (x : uint128) : uint128 := U128 (max64 - high x) (max64 - low x).
Definition u_neg (x : uint128) : uint128 := u_incr (u_compl x).
Definition u_sub (x b : uint128) : uint128 := u_add x (u_neg b).

(** [operator!] *)
Definition u_not (x : uint128) : bool := negb (negb (high x =? 0) || negb (low x =? 0)).

(** [operator&] and [operator|] *)
Definition u_and (x rhs : uint128) : uint128 := U128 (Z.land (high x) (high rhs)) (Z.land (low x) (low rhs)).
Definition u_or (x rhs : uint128) : uint128 := U128 (Z.lor (high x) (high rhs)) (Z.lor (low x) (low rhs)).
Definition u_and_int (x : uint128) (rhs : Z) : uint128 := U128 0 (Z.land (low x) rhs).
Definition u_or_int (x : uint128) (rhs : Z) : uint128 := U128 0 (Z.lor (low x) rhs).

(** Shifts of a 64-bit word; the language defines them for fewer than 64 places. *)
Definition shl64 (x n : Z) : outcome Z := if n <? 64 then Ok (wrap64 (Z.shiftl x n)) else Throw Undefined.
Definition shr64 (x n : Z) : outcome Z := if n <? 64 then Ok (Z.shiftr x n) else Throw Undefined.

(** [operator<<] *)
Definition u_shl (x : uint128) (n : Z) : outcome uint128 :=
  _ <-? oassert (n <=? 128) ;;
  if n >=? 64 then h <-? shl64 (low x) (n - 64) ;; Ok (U128 h 0)
  else if n =? 0 then Ok x
  else
    one <-? shl64 1 n ;;
    let mask := one - 1 in
    let dist := 64 - n in
    top_of_low_mask <-? shl64 mask dist ;;
    bottom_of_high <-? shr64 (Z.land (low x) top_of_low_mask) dist ;;
    h <-? shl64 (high x) n ;;
    l <-? shl64 (low x) n ;;
    Ok (U128 (Z.lor h bottom_of_high) l).

(** [operator>>=] *)
Definition u_shr (x : uint128) (n : Z) : outcome uint128 :=
  _ <-? oassert (n <=? 128) ;;
  if n >=? 64 then l <-? shr64 (high x) (n - 64) ;; Ok (U128 0 l)
  else if n >? 0 then
    one <-? shl64 1 n ;;
    let mask := one - 1 in
    l <-? shr64 (low x) n ;;
    up <-? shl64 (Z.land (high x) mask) (64 - n) ;;
    h <-? shr64 (high x) n ;;
    Ok (U128 h (Z.lor l up))
  else Ok x.

(** [bytes_to_uint64] and the constructor from an array of bytes *)
Definition bytes_to_uint64 (bytes : list Z) : outcome Z :=
  match bytes with
  | b0 :: b1 :: b2 :: b3 :: b4 :: b5 :: b6 :: b7 :: _ =>
      Ok (foldl Z.lor (Z.shiftl b0 56)
            [Z.shiftl b1 48; Z.shiftl b2 40; Z.shiftl b3 32; Z.shiftl b4 24; Z.shiftl b5 16; Z.shiftl b6 8; b7])
  | _ => Throw Dangling
  end.

Definition u_of_bytes (bytes : list Z) : outcome uint128 :=
  l <-? bytes_to_uint64 (drop 8 bytes) ;;
  h <-? bytes_to_uint64 bytes ;;
  Ok (U128 h l).

(** The comparison operators *)
Definition u_lt (lhs rhs : uint128) : bool :=
  (high lhs <? high rhs) || (negb (high rhs <? high lhs) && (low lhs <? low rhs)).
Definition u_gt (lhs rhs : uint128) : bool := u_lt rhs lhs.
Definition u_ge (lhs rhs : uint128) : bool := negb (u_lt lhs rhs).
Definition u_le (lhs rhs : uint128) : bool := negb (u_lt rhs lhs).

(** [bit_count] on 128-bit values *)
Definition u_clz (x : uint128) : outcome Z :=
  if negb (high x =? 0) then clz 64 (high x) else c <-? clz 64 (low x) ;; Ok (64 + c).
Definition u_ctz (x : uint128) : outcome Z :=
  _ <-? oassert (negb (u_eq_int x 0)) ;;
  if low x =? 0 then c <-? ctz (high x) ;; Ok (64 + c) else ctz (low x).
Definition u_pop_count (x : uint128) : Z := pop_count (high x) + pop_count (low x).

(** *** Text *)

(** [digit_to_hex] *)
Definition digit_to_hex (v : Z) : outcome Z :=
  _ <-? oassert (v <? 16) ;; Ok (v + (if v <? 10 then 48 else 97 - 10)).

(** The digits of one word: the loop from [shift] to 64 *)
Fixpoint hex_digits (fuel : nat) (shift word : Z) : outcome (list Z) :=
  match fuel with
  | O => if shift <=? 64 then Throw OutOfFuel else Ok []
  | S fuel =>
      if shift <=? 64 then
        d <-? digit_to_hex (Z.land (Z.shiftr word (64 - shift)) 15) ;;
        rest <-? hex_digits fuel (shift + 4) word ;;
        Ok (d :: rest)
      else Ok []
  end.

(** [to_hex_string] *)
Definition to_hex_string (x : uint128) : outcome (list Z) :=
  h <-? hex_digits 17 4 (high x) ;;
  l <-? hex_digits 17 4 (low x) ;;
  _ <-? oassert (length (h ++ l) =? 32)%nat ;;
  Ok (h ++ l).

(** [base32::alphabet] *)
Definition alphabet : list Z :=
  [97; 98; 99; 100; 101; 102; 103; 104; 105; 106; 107; 108; 109; 110; 111; 112;
   113; 114; 115; 116; 117; 118; 119; 120; 121; 122; 50; 51; 52; 53; 54; 55].

(** [base32::convert (uint128)] *)
Fixpoint convert_wide (fuel : nat) (high low : Z) : outcome (list Z) :=
  match fuel with
  | O => Throw OutOfFuel
  | S fuel =>
      let mask := 2 ^ 5 - 1 in
      match alphabet !! Z.to_nat (Z.land low mask) with
      | None => Throw Dangling
      | Some c =>
          let low := Z.lor (Z.shiftr low 5) (wrap64 (Z.shiftl (Z.land high mask) (64 - 5))) in
          let high := Z.shiftr high 5 in
          if negb (Z.lor low high =? 0) then rest <-? convert_wide fuel high low ;; Ok (c :: rest)
          else Ok [c]
      end
  end.

(** 26 digits of 5 bits hold 128 bits. *)
Definition convert (x : uint128) : outcome (list Z) := convert_wide 26 (high x) (low x).

(** ** The value of a pair of words *)

Definition value (x : uint128) : Z := high x * 2 ^ 64 + low x.

Record u128_ok (x : uint128) : Prop := { uk_high : 0 <= high x < 2 ^ 64; uk_low : 0 <= low x < 2 ^ 64 }.

(** [x] represents the integer [v] modulo 2^128. *)
Definition represents (x : uint128) (v : Z) : Prop := u128_ok x /\ value x = v mod 2 ^ 128.

Lemma value_range x : u128_ok x -> 0 <= value x < 2 ^ 128.
Proof. intros [[? ?] [? ?]]. unfold value. lia. Qed.

Lemma value_inj x y : u128_ok x -> u128_ok y -> value x = value y -> x = y.
Proof.
  destruct x as [hx lx], y as [hy ly]. intros [Hhx Hlx] [Hhy Hly] Heq. unfold value in *. simpl in *. f_equal; lia.
Qed.

Lemma represents_intro h l v k :
  0 <= h < 2 ^ 64 -> 0 <= l < 2 ^ 64 -> h * 2 ^ 64 + l = v + k * 2 ^ 128 -> represents (U128 h l) v.
Proof.
  intros Hh Hl Heq. split; [done|]. unfold value. simpl high. simpl low.
  apply (Z.mod_unique _ _ (- k)); lia.
Qed.

(** A wrapped word, with the carry that was lost *)
Lemma wrap64_carry z : exists c, wrap64 z = z - c * 2 ^ 64 /\ 0 <= z - c * 2 ^ 64 < 2 ^ 64.
Proof.
  exists (z / 2 ^ 64). unfold wrap. pose proof (Z.div_mod z (2 ^ 64) ltac:(lia)).
  pose proof (Z.mod_pos_bound z (2 ^ 64) ltac:(lia)). lia.
Qed.

Ltac carry z := let c := fresh "c" in let H := fresh "Hc" in
  destruct (wrap64_carry z) as (c & H & ?); rewrite ?H in *.

Lemma u_incr_ok x : u128_ok x -> represents (u_incr x) (value x + 1).
Proof.
  intros [Hh Hl]. unfold u_incr, value. carry (low x + 1). destruct (Z.eqb_spec (low x + 1 - c * 2 ^ 64) 0).
  - carry (high x + 1). apply (represents_intro _ _ _ (- c0)); lia.
  - apply (represents_intro _ _ _ 0); lia.
Qed.

Lemma u_decr_ok x : u128_ok x -> represents (u_decr x) (value x - 1).
Proof.
  intros [Hh Hl]. unfold u_decr, value, uint64_max. destruct (Z.eqb_spec (low x) 0).
  - carry (high x - 1). apply (represents_intro _ _ _ (- c)); lia.
  - apply (represents_intro _ _ _ 0); lia.
Qed.

Lemma u_add_ok x y : u128_ok x -> u128_ok y -> represents (u_add x y) (value x + value y).
Proof.
  intros [Hh Hl] [Hh' Hl']. unfold u_add, value. cbn zeta. carry (low x + low y). carry (high x + high y).
  destruct (Z.ltb_spec (low x + low y - c * 2 ^ 64) (low x)).
  - carry (high x + high y - c0 * 2 ^ 64 + 1). apply (represents_intro _ _ _ (- (c0 + c1))); lia.
  - apply (represents_intro _ _ _ (- c0)); lia.
Qed.

Lemma u_compl_ok x : u128_ok x -> u128_ok (u_compl x) /\ value (u_compl x) = 2 ^ 128 - 1 - value x.
Proof. intros [Hh Hl]. unfold u_compl, value, uint64_max in *. split; [split|]; cbn [high low]; lia. Qed.

Lemma u_neg_ok x : u128_ok x -> represents (u_neg x) (- value x).
Proof.
  intros Hx. destruct (u_compl_ok x Hx) as [Hc Hv]. destruct (u_incr_ok _ Hc) as [Hi Hvi].
  split; [done|]. unfold u_neg. rewrite Hvi, Hv.
  replace (2 ^ 128 - 1 - value x + 1) with (- value x + 1 * 2 ^ 128) by lia. apply Z.mod_add. lia.
Qed.

Lemma u_sub_ok x y : u128_ok x -> u128_ok y -> represents (u_sub x y) (value x - value y).
Proof.
  intros Hx Hy. destruct (u_neg_ok y Hy) as [Hn Hvn]. destruct (u_add_ok x _ Hx Hn) as [Ha Hva].
  split; [done|]. unfold u_sub. rewrite Hva, Hvn, Z.add_mod_idemp_r by lia. done.
Qed.

(** ** Bitwise operations *)

Lemma testbit_value x i : u128_ok x -> 0 <= i ->
  Z.testbit (value x) i = if i <? 64 then Z.testbit (low x) i else Z.testbit (high x) (i - 64).
Proof.
  intros [Hh Hl] Hi. unfold value. rewrite <- (lor_add 64) by (try lia; by exists (high x)).
  rewrite Z.lor_spec. destruct (Z.ltb_spec i 64).
  - by rewrite Z.mul_pow2_bits_low by lia.
  - rewrite (testbit_ge 64 (low x)) by lia. rewrite orb_false_r. apply Z.mul_pow2_bits. lia.
Qed.

Lemma u_and_ok x y : u128_ok x -> u128_ok y -> u128_ok (u_and x y) /\ value (u_and x y) = Z.land (value x) (value y).
Proof.
  intros Hx Hy. assert (u128_ok (u_and x y)) as Ho.
  { destruct Hx, Hy. split; cbn; apply land_ones_range; lia. }
  split; [done|]. apply Z.bits_inj'. intros i Hi. rewrite Z.land_spec, !testbit_value by done.
  destruct (i <? 64); apply Z.land_spec.
Qed.

Lemma u_or_ok x y : u128_ok x -> u128_ok y -> u128_ok (u_or x y) /\ value (u_or x y) = Z.lor (value x) (value y).
Proof.
  intros Hx Hy. assert (u128_ok (u_or x y)) as Ho.
  { destruct Hx, Hy. split; cbn; apply lor_range; lia. }
  split; [done|]. apply Z.bits_inj'. intros i Hi. rewrite Z.lor_spec, !testbit_value by done.
  destruct (i <? 64); apply Z.lor_spec.
Qed.

(** ** Shifts *)

Lemma shl64_ok x n : 0 <= n < 64 -> shl64 x n = Ok (wrap64 (x * 2 ^ n)).
Proof. intros Hn. unfold shl64. rewrite (proj2 (Z.ltb_lt _ _)), Z.shiftl_mul_pow2 by lia. done. Qed.

Lemma shr64_ok x n : 0 <= n < 64 -> shr64 x n = Ok (x / 2 ^ n).
Proof. intros Hn. unfold shr64. rewrite (proj2 (Z.ltb_lt _ _)), Z.shiftr_div_pow2 by lia. done. Qed.

Lemma pow_split n : 0 <= n <= 64 -> 2 ^ 64 = 2 ^ n * 2 ^ (64 - n).
Proof. intros Hn. rewrite <- Z.pow_add_r by lia. f_equal. lia. Qed.

(** The top bits of a word, moved to the bottom *)
Lemma top_bits l n : 0 < n < 64 -> 0 <= l < 2 ^ 64 ->
  Z.land l (wrap64 ((2 ^ n - 1) * 2 ^ (64 - n))) / 2 ^ (64 - n) = l / 2 ^ (64 - n).
Proof.
  intros Hn Hl. pose proof (pow_split n ltac:(lia)) as Hp. pose proof (Z.pow_pos_nonneg 2 (64 - n) ltac:(lia) ltac:(lia)).
  rewrite wrap_small by nia. rewrite <- !Z.shiftr_div_pow2, Z.shiftr_land, Z.shiftr_div_pow2 by lia.
  rewrite (Z.shiftr_div_pow2 (_ * _)), Z.div_mul by lia.
  replace (2 ^ n - 1) with (Z.ones n) by (rewrite Z.ones_equiv; lia). rewrite Z.land_ones by lia.
  apply Z.mod_small. split; [apply Z.div_pos; lia|apply Z.div_lt_upper_bound; nia].
Qed.

Lemma wrap64_mul_pow2 x n : 0 <= n < 64 ->
  wrap64 (x * 2 ^ n) = x * 2 ^ n - x / 2 ^ (64 - n) * 2 ^ 64 /\ (2 ^ n | wrap64 (x * 2 ^ n)).
Proof.
  intros Hn. pose proof (pow_split n ltac:(lia)) as Hp. pose proof (Z.pow_pos_nonneg 2 (64 - n) ltac:(lia) ltac:(lia)).
  unfold wrap. rewrite Hp, Z.mul_comm, Z.mul_mod_distr_l by lia.
  pose proof (Z.div_mod x (2 ^ (64 - n)) ltac:(lia)). split; [nia|]. apply Z.divide_factor_l.
Qed.

Lemma u_shl_ok x n : u128_ok x -> 0 <= n < 128 ->
  exists y, u_shl x n = Ok y /\ represents y (value x * 2 ^ n).
Proof.
  intros [Hh Hl] Hn. unfold u_shl. rewrite (proj2 (Z.leb_le _ _)) by lia. cbn [oassert obind].
  rewrite Z.geb_leb. destruct (Z.leb_spec 64 n).
  - rewrite shl64_ok by lia. cbn [obind]. eexists. split; [done|].
    destruct (wrap64_carry (low x * 2 ^ (n - 64))) as (c & -> & Hc).
    apply (represents_intro _ _ _ (- (c + high x * 2 ^ (n - 64)))); [done|lia|]. unfold value.
    replace (2 ^ n) with (2 ^ (n - 64) * 2 ^ 64) by (rewrite <- Z.pow_add_r by lia; f_equal; lia). lia.
  - destruct (Z.eqb_spec n 0) as [->|Hn0].
    { exists x. split; [done|]. destruct x. apply (represents_intro _ _ _ 0); unfold value; cbn in *; lia. }
    rewrite !shl64_ok by lia. cbn [obind]. rewrite Z.mul_1_l, (wrap_small 64 (2 ^ n)).
    2:{ split; [lia|]. apply Z.pow_lt_mono_r; lia. }
    rewrite shl64_ok by lia. cbn [obind]. rewrite shr64_ok by lia. cbn [obind].
    rewrite top_bits by lia. eexists. split; [done|].
    destruct (wrap64_mul_pow2 (high x) n ltac:(lia)) as [Hwh Hdiv]. destruct (wrap64_mul_pow2 (low x) n ltac:(lia)) as [Hwl _].
    assert (0 <= low x / 2 ^ (64 - n) < 2 ^ n) as Hb.
    { pose proof (pow_split n ltac:(lia)). split; [apply Z.div_pos; lia|apply Z.div_lt_upper_bound; lia]. }
    pose proof (wrap_range 64 (high x * 2 ^ n) ltac:(lia)). pose proof (wrap_range 64 (low x * 2 ^ n) ltac:(lia)).
    pose proof (Z.pow_lt_mono_r 2 n 64 ltac:(lia) ltac:(lia) ltac:(lia)).
    assert (0 <= Z.lor (wrap64 (high x * 2 ^ n)) (low x / 2 ^ (64 - n)) < 2 ^ 64) as Hr by (apply lor_range; lia).
    rewrite (lor_add n) in * by (try lia; done).
    apply (represents_intro _ _ _ (- (high x / 2 ^ (64 - n)))); [done|done|]. unfold value. lia.
Qed.

Lemma u_shr_ok x n : u128_ok x -> 0 <= n < 128 ->
  exists y, u_shr x n = Ok y /\ u128_ok y /\ value y = value x / 2 ^ n.
Proof.
  intros [Hh Hl] Hn. unfold u_shr. rewrite (proj2 (Z.leb_le _ _)) by lia. cbn [oassert obind].
  rewrite Z.geb_leb, Z.gtb_ltb. destruct (Z.leb_spec 64 n).
  - rewrite shr64_ok by lia. cbn [obind]. eexists. split; [done|]. unfold value. cbn [high low].
    replace (2 ^ n) with (2 ^ 64 * 2 ^ (n - 64)) by (rewrite <- Z.pow_add_r by lia; f_equal; lia).
    rewrite <- Z.div_div, Z.div_add_l, (Z.div_small (low x)), Z.add_0_r by lia.
    split; [|lia]. split; cbn [high low]; [lia|]. split; [apply Z.div_pos; lia|].
    apply (Z.le_lt_trans _ (high x)); [apply Z.div_le_upper_bound; [lia|]|lia]. pose proof (Z.pow_pos_nonneg 2 (n - 64)). nia.
  - destruct (Z.ltb_spec 0 n) as [Hn0|Hn0].
    2:{ exists x. split; [done|]. split; [done|]. replace n with 0 by lia. by rewrite Z.div_1_r. }
    rewrite !shl64_ok, Z.mul_1_l, (wrap_small 64 (2 ^ n)) by (try (split; [lia|apply Z.pow_lt_mono_r; lia]); lia).
    cbn [obind]. rewrite !shr64_ok, shl64_ok by lia. cbn [obind].
    pose proof (pow_split n ltac:(lia)) as Hp. pose proof (Z.pow_pos_nonneg 2 (64 - n) ltac:(lia) ltac:(lia)) as Hpos.
    pose proof (Z.pow_pos_nonneg 2 n ltac:(lia) ltac:(lia)) as Hposn.
    replace (2 ^ n - 1) with (Z.ones n) by (rewrite Z.ones_equiv; lia). rewrite Z.land_ones by lia.
    pose proof (Z.mod_pos_bound (high x) (2 ^ n) Hposn) as Hm. rewrite (wrap_small 64 (_ mod _ * _)) by nia.
    eexists. split; [done|]. assert (0 <= low x / 2 ^ n < 2 ^ (64 - n)) as Hlo.
    { split; [apply Z.div_pos; lia|apply Z.div_lt_upper_bound; lia]. }
    rewrite Z.lor_comm, (lor_add (64 - n)) by (try lia; apply Z.divide_factor_r).
    assert (0 <= high x / 2 ^ n <= high x) as Hhi by (split; [apply Z.div_pos; lia|apply Z.div_le_upper_bound; nia]).
    split; [split; cbn [high low]; nia|]. unfold value. cbn [high low].
    apply (Z.div_unique_pos _ _ _ (low x mod 2 ^ n)).
    + apply Z.mod_pos_bound. lia.
    + pose proof (Z.div_mod (high x) (2 ^ n) ltac:(lia)). pose proof (Z.div_mod (low x) (2 ^ n) ltac:(lia)). nia.
Qed.

(** ** Comparison *)

Lemma u_eq_ok x y : u128_ok x -> u128_ok y -> u_eq x y = (value x =? value y).
Proof.
  intros [Hh Hl] [Hh' Hl']. unfold u_eq, value.
  destruct (Z.eqb_spec (high x) (high y)), (Z.eqb_spec (low x) (low y)); symmetry; cbn [andb];
    (apply Z.eqb_eq; lia) || (apply Z.eqb_neq; lia).
Qed.

Lemma u_lt_ok x y : u128_ok x -> u128_ok y -> u_lt x y = (value x <? value y).
Proof.
  intros [Hh Hl] [Hh' Hl']. unfold u_lt, value.
  destruct (Z.ltb_spec (high x) (high y)), (Z.ltb_spec (high y) (high x)), (Z.ltb_spec (low x) (low y));
    symmetry; cbn [andb orb negb]; (apply Z.ltb_lt; lia) || (apply Z.ltb_ge; lia).
Qed.

(** ** Bit counts *)

Lemma pop_count_split n h l : 0 <= n -> 0 <= h -> 0 <= l < 2 ^ n ->
  pop_count (h * 2 ^ n + l) = pop_count h + pop_count l.
Proof.
  intros Hn Hh. revert l. pattern n. apply natlike_ind; [| |done]; clear n Hn.
  - intros l Hl. assert (l = 0) as -> by lia. rewrite Z.mul_1_r, Z.add_0_r. simpl. lia.
  - intros n Hn IH l Hl. rewrite Z.pow_succ_r in * by lia.
    assert (l = 2 * (l / 2) + Z.b2z (Z.odd l)) as El.
    { pose proof (Z.div_mod l 2 ltac:(lia)) as E. rewrite Zmod_odd in E. destruct (Z.odd l); simpl in *; lia. }
    assert (0 <= l / 2 < 2 ^ n) as Hl2 by (destruct (Z.odd l); simpl in El; lia).
    rewrite El at 1. replace (h * (2 * 2 ^ n) + (2 * (l / 2) + Z.b2z (Z.odd l))) with
      (2 * (h * 2 ^ n + l / 2) + Z.b2z (Z.odd l)) by lia.
    assert (pop_count l = Z.b2z (Z.odd l) + pop_count (l / 2)) as Ep by (rewrite El at 1; apply pop_count_double; lia).
    rewrite pop_count_double, IH by nia. lia.
Qed.

Lemma u_pop_count_ok x : u128_ok x -> u_pop_count x = pop_count (value x).
Proof. intros [Hh Hl]. unfold u_pop_count, value. by rewrite pop_count_split by lia. Qed.

Lemma log2_shift h l : 0 < h -> 0 <= l < 2 ^ 64 -> Z.log2 (h * 2 ^ 64 + l) = Z.log2 h + 64.
Proof.
  intros Hh Hl. apply Z.log2_unique; [pose proof (Z.log2_nonneg h); lia|].
  pose proof (Z.log2_spec h Hh) as [H1 H2]. pose proof (Z.log2_nonneg h).
  rewrite Z.pow_succ_r in * by lia. rewrite Z.pow_add_r by lia. nia.
Qed.

Lemma u_clz_ok x : u128_ok x -> u_clz x = clz 128 (value x).
Proof.
  intros [Hh Hl]. unfold u_clz, clz, value. destruct (Z.eqb_spec (high x) 0) as [E|E]; cbn [negb].
  - rewrite E, Z.mul_0_l, Z.add_0_l. destruct (Z.eqb_spec (low x) 0); [done|]. cbn [negb oassert obind]. f_equal. lia.
  - rewrite (proj2 (Z.eqb_neq (_ + _) 0)) by nia. cbn [negb oassert obind].
    rewrite log2_shift by lia. f_equal. lia.
Qed.

Lemma u_ctz_ok x : u128_ok x -> value x <> 0 -> u_ctz x = ctz (value x).
Proof.
  intros [Hh Hl] Hne. unfold u_ctz, u_eq_int, value in *. rewrite Z.land_0_l. destruct (Z.eqb_spec (low x) 0) as [E|E].
  - rewrite E, Z.add_0_r in *. rewrite (proj2 (Z.eqb_neq (high x) 0)) by lia. cbn [negb andb oassert obind].
    destruct (ctz_spec (high x)) as (r & k & -> & Hr & Hk & Eh); [lia|]. cbn [obind].
    rewrite Eh at 1. rewrite <- (ctz_unique (64 + r) k) by lia. f_equal. rewrite Z.pow_add_r by lia. lia.
  - rewrite andb_false_r. cbn [negb oassert obind].
    destruct (ctz_spec (low x)) as (r & k & -> & Hr & Hk & El); [lia|].
    assert (r < 64) as Hr64. { apply (Z.pow_lt_mono_r_iff 2); [lia|lia|]. nia. }
    rewrite El. replace (high x * 2 ^ 64 + (2 * k + 1) * 2 ^ r) with
      ((2 * (high x * 2 ^ (63 - r) + k) + 1) * 2 ^ r).
    + rewrite ctz_unique; [done|done|]. pose proof (Z.pow_nonneg 2 (63 - r) ltac:(lia)). nia.
    + replace (2 ^ 64) with (2 * 2 ^ (63 - r) * 2 ^ r); [lia|].
      rewrite <- Z.pow_succ_r, <- Z.pow_add_r by lia. f_equal. lia.
Qed.

(** ** Bytes and digits *)

(** The number that a list of digits in base [b] denotes, most significant first *)
Definition big_endian (b : Z) (ds : list Z) : Z := foldl (fun a d => b * a + d) 0 ds.

Lemma big_endian_app b l1 l2 :
  big_endian b (l1 ++ l2) = big_endian b l1 * b ^ Z.of_nat (length l2) + big_endian b l2.
Proof.
  unfold big_endian. rewrite foldl_app. generalize (foldl (fun a d => b * a + d) 0 l1). intros acc.
  revert acc. induction l2 as [|d l2 IH]; intros acc; [simpl; lia|].
  cbn [foldl]. rewrite IH, (IH (b * 0 + d)). rewrite length_cons, Nat2Z.inj_succ, Z.pow_succ_r by lia. lia.
Qed.

Lemma big_endian_cons b d l : big_endian b (d :: l) = d * b ^ Z.of_nat (length l) + big_endian b l.
Proof.
  change (d :: l) with ([d] ++ l). rewrite big_endian_app. unfold big_endian at 1. cbn [foldl]. f_equal. lia.
Qed.

(** One more byte below the ones already gathered *)
Lemma lor_byte acc b k : 0 <= k -> 0 <= b < 256 ->
  Z.lor (acc * 2 ^ (k + 8)) (b * 2 ^ k) = (256 * acc + b) * 2 ^ k.
Proof.
  intros Hk Hb. rewrite Z.pow_add_r, (Z.mul_comm (2 ^ k)), Z.mul_assoc by lia.
  rewrite <- 3 (Z.shiftl_mul_pow2 _ k), <- Z.shiftl_lor by lia. f_equal.
  rewrite (lor_add 8) by (lia || apply Z.divide_factor_r). lia.
Qed.

Lemma bytes_to_uint64_ok bs rest :
  Forall (fun b => 0 <= b < 256) bs -> length bs = 8%nat ->
  bytes_to_uint64 (bs ++ rest) = Ok (big_endian 256 bs) /\ 0 <= big_endian 256 bs < 2 ^ 64.
Proof.
  intros Hb Hl. do 9 (destruct bs as [|? bs]; try discriminate Hl). clear Hl.
  repeat apply Forall_cons in Hb as [? Hb]. cbn [app bytes_to_uint64 foldl].
  rewrite !Z.shiftl_mul_pow2 by lia. split; [|unfold big_endian; cbn [foldl]; lia]. f_equal.
  rewrite (lor_byte _ _ 48), (lor_byte _ _ 40), (lor_byte _ _ 32), (lor_byte _ _ 24), (lor_byte _ _ 16),
    (lor_byte _ _ 8) by lia.
  rewrite <- (Z.mul_1_r z6) at 1. rewrite (lor_byte _ z6 0) by lia. unfold big_endian. cbn [foldl]. lia.
Qed.

Lemma u_of_bytes_ok bs : Forall (fun b => 0 <= b < 256) bs -> length bs = 16%nat ->
  exists x, u_of_bytes bs = Ok x /\ u128_ok x /\ value x = big_endian 256 bs.
Proof.
  intros Hb Hl. rewrite <- (take_drop 8 bs) in *. apply Forall_app in Hb as [Hb1 Hb2].
  assert (length (take 8 bs) = 8%nat) as L1 by (rewrite length_app, length_take, length_drop in *; lia).
  assert (length (drop 8 bs) = 8%nat) as L2 by (rewrite length_app in Hl; lia).
  destruct (bytes_to_uint64_ok (take 8 bs) (drop 8 bs) Hb1 L1) as [E1 R1].
  destruct (bytes_to_uint64_ok (drop 8 bs) [] Hb2 L2) as [E2 R2]. rewrite app_nil_r in E2.
  unfold u_of_bytes. rewrite E1, drop_app_length', E2 by done. cbn [obind]. eexists. split; [done|].
  split; [done|]. rewrite big_endian_app, L2. done.
Qed.

(** The value of a lower-case hexadecimal digit *)
Definition hex_value (c : Z) : Z := if c <? 58 then c - 48 else c - 87.

Lemma digit_to_hex_ok v : 0 <= v < 16 -> exists c, digit_to_hex v = Ok c /\ hex_value c = v.
Proof.
  intros Hv. unfold digit_to_hex. rewrite (proj2 (Z.ltb_lt _ _)) by lia. eexists. split; [done|].
  unfold hex_value. destruct (Z.ltb_spec v 10).
  - rewrite (proj2 (Z.ltb_lt _ _)); lia.
  - rewrite (proj2 (Z.ltb_ge _ _)); lia.
Qed.

Lemma hex_digits_ok k fuel w : (k <= 16)%nat -> (k < fuel)%nat -> 0 <= w ->
  exists cs, hex_digits fuel (68 - 4 * Z.of_nat k) w = Ok cs /\ length cs = k /\
    big_endian 16 (hex_value <$> cs) = w mod 16 ^ Z.of_nat k.
Proof.
  revert fuel. induction k as [|k IH]; intros fuel Hk Hf Hw; (destruct fuel as [|fuel]; [lia|]); cbn [hex_digits].
  - exists []. split_and!; [done|done|]. by rewrite Z.mod_1_r.
  - rewrite (proj2 (Z.leb_le _ _)) by lia.
    replace (64 - (68 - 4 * Z.of_nat (S k))) with (4 * Z.of_nat k) by lia.
    replace (68 - 4 * Z.of_nat (S k) + 4) with (68 - 4 * Z.of_nat k) by lia.
    destruct (digit_to_hex_ok (Z.land (Z.shiftr w (4 * Z.of_nat k)) 15)) as (c & -> & Hc).
    { apply (land_ones_range 4); [lia|apply Z.shiftr_nonneg; lia|lia]. }
    destruct (IH fuel ltac:(lia) ltac:(lia) Hw) as (cs & -> & Hl & Hv). cbn [obind].
    exists (c :: cs). split_and!; [done|simpl; lia|]. rewrite fmap_cons, big_endian_cons, length_fmap, Hl, Hv, Hc.
    change 15 with (Z.ones 4). rewrite Z.land_ones, Z.shiftr_div_pow2, Z.pow_mul_r by lia. change (2 ^ 4) with 16.
    rewrite Nat2Z.inj_succ, Z.pow_succ_r, (Z.mul_comm 16) by lia. rewrite Z.rem_mul_r by lia. lia.
Qed.

Lemma to_hex_string_ok x : u128_ok x ->
  exists cs, to_hex_string x = Ok cs /\ length cs = 32%nat /\ big_endian 16 (hex_value <$> cs) = value x.
Proof.
  intros [Hh Hl]. destruct (hex_digits_ok 16 17 (high x)) as (h & Eh & Lh & Vh); [lia..|].
  destruct (hex_digits_ok 16 17 (low x)) as (l & El & Ll & Vl); [lia..|].
  change (68 - 4 * Z.of_nat 16) with 4 in *. unfold to_hex_string. rewrite Eh, El. cbn [obind].
  rewrite length_app, Lh, Ll. cbn [Nat.add Nat.eqb oassert obind]. exists (h ++ l).
  split_and!; [done|by rewrite length_app, Lh, Ll|]. rewrite fmap_app, big_endian_app, length_fmap, Ll, Vh, Vl.
  change (16 ^ Z.of_nat 16) with (2 ^ 64). rewrite !Z.mod_small by lia. done.
Qed.

(** *** Base 32 *)

Definition little_endian (b : Z) (ds : list Z) : Z := foldr (fun d a => d + b * a) 0 ds.

Definition base32_char (d : Z) : Z := nth (Z.to_nat d) alphabet 0.

Lemma alphabet_lookup d : 0 <= d < 32 -> alphabet !! Z.to_nat d = Some (base32_char d).
Proof.
  intros Hd. unfold base32_char. rewrite nth_lookup.
  destruct (alphabet !! Z.to_nat d) eqn:E; [done|]. apply lookup_ge_None in E. simpl in E. lia.
Qed.

Lemma convert_wide_ok fuel h l : u128_ok (U128 h l) -> value (U128 h l) < 32 ^ Z.of_nat fuel ->
  (0 < fuel)%nat -> exists ds, convert_wide fuel h l = Ok (base32_char <$> ds) /\
    Forall (fun d => 0 <= d < 32) ds /\ (1 <= length ds <= fuel)%nat /\ little_endian 32 ds = value (U128 h l).
Proof.
  revert h l. induction fuel as [|fuel IH]; intros h l Hx Hv Hf; [lia|]. cbn [convert_wide]. destruct (Hx) as [Hh Hl]. cbn in Hh, Hl.
  change (2 ^ 5 - 1) with (Z.ones 5). rewrite Z.land_ones by lia. change (2 ^ 5) with 32.
  pose proof (Z.mod_pos_bound l 32 ltac:(lia)) as Hm. rewrite alphabet_lookup by done.
  destruct (u_shr_ok (U128 h l) 5 Hx ltac:(lia)) as (y & Hs & Hy & Hvy). change (64 - 5) with 59.
  assert (y = U128 (Z.shiftr h 5) (Z.lor (Z.shiftr l 5) (wrap64 (Z.shiftl (Z.land h (Z.ones 5)) 59)))) as ->.
  { unfold u_shr, shl64, shr64 in Hs. cbn -[wrap64 Z.shiftr Z.land Z.shiftl] in Hs. by injection Hs as <-. }
  set (h' := Z.shiftr h 5) in *. set (l' := Z.lor _ _) in *.
  assert (value (U128 h l) = l mod 32 + 32 * value (U128 h' l')) as Hdiv.
  { rewrite Hvy. pose proof (Z.div_mod (value (U128 h l)) 32 ltac:(lia)) as E. change (2 ^ 5) with 32.
    assert (value (U128 h l) mod 32 = l mod 32); [|lia]. unfold value. cbn [high low].
    rewrite Z.add_comm. replace (h * 2 ^ 64) with (h * 2 ^ 59 * 32) by lia. by rewrite Z.mod_add. }
  assert (Z.lor l' h' = 0 <-> value (U128 h' l') = 0) as Hz.
  { rewrite Z.lor_eq_0_iff. destruct Hy as [? ?]. unfold value. cbn in *. lia. }
  pose proof (value_range _ Hy) as Hr. destruct (Z.eqb_spec (Z.lor l' h') 0) as [E|E]; cbn [negb].
  - exists [l mod 32]. split_and!; [done|by constructor|simpl; lia..|]. apply Hz in E. simpl. lia.
  - rewrite Nat2Z.inj_succ, Z.pow_succ_r in Hv by lia. assert (value (U128 h' l') <> 0) as Hnz by (intros ?; by apply E, Hz).
    destruct fuel as [|fuel]; [simpl in Hv; lia|].
    destruct (IH h' l' Hy ltac:(lia) ltac:(lia)) as (ds & -> & Hds & Hlen & Hle). cbn [obind].
    exists (l mod 32 :: ds). split_and!; [done|by constructor|simpl; lia..|]. cbn [little_endian foldr].
    fold (little_endian 32 ds). lia.
Qed.

Lemma convert_ok x : u128_ok x -> exists ds, convert x = Ok (base32_char <$> ds) /\
  Forall (fun d => 0 <= d < 32) ds /\ (1 <= length ds <= 26)%nat /\ little_endian 32 ds = value x.
Proof.
  intros Hx. destruct x as [h l]. apply convert_wide_ok; [done| |lia].
  pose proof (value_range _ Hx). change (32 ^ Z.of_nat 26) with (2 ^ 130). lia.
Qed.

(** ** Claims *)

(** C25: the pair of words computes with 128-bit integers. On every two values, addition and
    subtraction are those of the integers modulo 2^128, carries and borrows between the words
    included, the bitwise operations act on every bit, and the comparisons and bit counts are
    those of the number the pair stands for; a shift by fewer than 128 places multiplies or
    divides by the power of two. *)
Theorem uint128_arithmetic (x y : uint128) (n : Z) : u128_ok x -> u128_ok y -> 0 <= n < 128 ->
  represents (u_add x y) (value x + value y) /\
  represents (u_sub x y) (value x - value y) /\
  (u128_ok (u_and x y) /\ value (u_and x y) = Z.land (value x) (value y)) /\
  (u128_ok (u_or x y) /\ value (u_or x y) = Z.lor (value x) (value y)) /\
  (u_eq x y = (value x =? value y) /\ u_lt x y = (value x <? value y)) /\
  (u_pop_count x = pop_count (value x) /\ u_clz x = clz 128 (value x)) /\
  (exists z, u_shl x n = Ok z /\ represents z (value x * 2 ^ n)) /\
  (exists z, u_shr x n = Ok z /\ u128_ok z /\ value z = value x / 2 ^ n).
Proof.
  intros Hx Hy Hn.
  auto 20 using u_add_ok, u_sub_ok, u_and_ok, u_or_ok, u_eq_ok, u_lt_ok, u_pop_count_ok, u_clz_ok, u_shl_ok, u_shr_ok.
Qed.

Lemma uint128_arithmetic_witness :
  represents (u_add (U128 1 (2 ^ 64 - 1)) (U128 0 1)) (value (U128 1 (2 ^ 64 - 1)) + value (U128 0 1)) /\
  u_add (U128 1 (2 ^ 64 - 1)) (U128 0 1) = U128 2 0.
Proof.
  split; [|vm_compute; reflexivity].
  apply (uint128_arithmetic (U128 1 (2 ^ 64 - 1)) (U128 0 1) 5); [split; vm_compute; split; congruence..|lia].
Defined.
