(* ===== verification/Dump.v ===== *)
(** * The text of dumped values

    Models include/pstore/dump/value.hpp and lib/dump/value.cpp (the values of a dump and the text
    that they are written as, which is close to YAML), include/pstore/dump/line_splitter.hpp with
    lib/dump/line_splitter.cpp (text that arrives in pieces becomes an array of lines), and
    lib/dump/digest_opt.cpp (digests on the command line). The output stream is the list of
    characters written to it; a failed assertion is an outcome. The text of a floating-point number
    and of a date are the standard library's and are parameters. *)

From S2P Require Import Prelude Chars Uint128.

(** What is written in sequence, unless something fails *)
Definition cat (a b : outcome (list Z)) : outcome (list Z) := x <-? a ;; y <-? b ;; Ok (x ++ y).
Definition put (s : list Z) : outcome (list Z) := Ok s.
Infix "+++" := cat (at level 60, right associativity).

(** [std::isprint] in the default locale *)
Definition isprint (c : Z) : bool := (32 <=? c) && (c <=? 126).

(** [to_hex] *)
Definition to_hex (v : Z) : outcome Z :=
  _ <-? oassert (v <? 0x10) ;; Ok (v + (if v <? 10 then 48 else 65 - 10)).

(** ** Strings *)

Definition should_be_quoted (v : list Z) : bool :=
  match v with
  | [] => true
  | front :: _ => isspace front || isspace (List.last v 0) || existsb (fun c => negb (isprint c)) v
  end.

Definition write_unquoted (v : list Z) : list Z :=
  (match v with front :: _ => if (front =? 34) || (front =? 33) then [92] else [] | [] => [] end) ++
  (v ≫= fun ch => (if ch =? 92 then [92] else []) ++ [ch]).

Definition write_codepoint_hex (ch : Z) : outcome (list Z) :=
  h <-? to_hex (Z.land (Z.shiftr ch 4) 0x0F) ;;
  l <-? to_hex (Z.land ch 0x0F) ;;
  Ok [92; 120; h; l].

Definition write_character (ch : Z) : outcome (list Z) :=
  if (ch <? 128) && isprint ch then put [ch] else write_codepoint_hex ch.

Definition write_quoted_char (ch : Z) : outcome (list Z) :=
  if ch =? 0 then put [92; 48]
  else if ch =? 7 then put [92; 97]
  else if ch =? 8 then put [92; 98]
  else if ch =? 9 then put [92; 116]
  else if ch =? 10 then put [92; 110]
  else if ch =? 11 then put [92; 118]
  else if ch =? 12 then put [92; 102]
  else if ch =? 13 then put [92; 114]
  else if ch =? 27 then put [92; 101]
  else if ch =? 34 then put [92; 34]
  else write_character ch.
Fixpoint write_quoted_chars (v : list Z) : outcome (list Z) :=
  match v with [] => put [] | ch :: v => write_quoted_char ch +++ write_quoted_chars v end.
Definition write_quoted (v : list Z) : outcome (list Z) := put [34] +++ write_quoted_chars v +++ put [34].

(** [string::writer] *)
Definition write_string (v : list Z) (force_quoted : bool) : outcome (list Z) :=
  if negb force_quoted && negb (should_be_quoted v) then put (write_unquoted v) else write_quoted v.

(** ** Numbers *)

(** The digits of a number of 64 bits in a base *)
Definition digit_char (d : Z) : Z := if d <? 10 then 48 + d else 87 + d.
Fixpoint digits_base (base : Z) (fuel : nat) (n : Z) (acc : list Z) : list Z :=
  match fuel with
  | O => acc
  | S fuel =>
      let acc := digit_char (n mod base) :: acc in
      if n <? base then acc else digits_base base fuel (n / base) acc
  end.
Definition in_base (base n : Z) : list Z := digits_base base 64 n [].

(** [number_base::write_decimal]; the bases 16 and 8 show the bits of a negative number. *)
Definition write_decimal (base value : Z) : outcome (list Z) :=
  if base =? 16 then put ([48; 120] ++ in_base 16 (wrap64 value))
  else if base =? 8 then put ((if value =? 0 then [] else [48]) ++ in_base 8 (wrap64 value))
  else if base =? 10 then put (if value <? 0 then 45 :: in_base 10 (- value) else in_base 10 value)
  else Throw Assert.

(** ** Binary data *)

Definition base64_alphabet : list Z :=
  [65; 66; 67; 68; 69; 70; 71; 72; 73; 74; 75; 76; 77; 78; 79; 80;
   81; 82; 83; 84; 85; 86; 87; 88; 89; 90; 97; 98; 99; 100; 101; 102;
   103; 104; 105; 106; 107; 108; 109; 110; 111; 112; 113; 114; 115; 116; 117; 118;
   119; 120; 121; 122; 48; 49; 50; 51; 52; 53; 54; 55; 56; 57; 43; 47].
Definition base64_letter (i : Z) : Z := base64_alphabet !!! Z.to_nat i.

Fixpoint base64_loop (n : nat) (it : list Z) : outcome (list Z * list Z) :=
  match n with
  | O => Ok ([], it)
  | S n =>
      match it with
      | x :: y :: z :: it =>
          let value1 := wrap32 (wrap32 (wrap32 (Z.shiftl x 16) + wrap32 (Z.shiftl y 8)) + z) in
          r <-? base64_loop n it ;;
          Ok ([base64_letter (Z.shiftr (Z.land value1 0x00FC0000) 18); base64_letter (Z.shiftr (Z.land value1 0x0003F000) 12);
               base64_letter (Z.shiftr (Z.land value1 0x00000FC0) 6); base64_letter (Z.land value1 0x0000003F)] ++ r.1, r.2)
      | _ => Throw Undefined
      end
  end.

Definition to_base64 (span : list Z) : outcome (list Z) :=
  let size := length span in
  r <-? base64_loop (size / 3) span ;;
  let '(out, it) := r in
  r <-?
    match (size mod 3)%nat with
    | 0%nat => Ok ([], it)
    | 1%nat =>
        match it with
        | x :: it =>
            let value2 := wrap32 (Z.shiftl x 16) in
            Ok ([base64_letter (Z.shiftr (Z.land value2 0x00FC0000) 18); base64_letter (Z.shiftr (Z.land value2 0x0003F000) 12); 61; 61], it)
        | _ => Throw Undefined
        end
    | 2%nat =>
        match it with
        | x :: y :: it =>
            let value3 := wrap32 (wrap32 (Z.shiftl x 16) + wrap32 (Z.shiftl y 8)) in
            Ok ([base64_letter (Z.shiftr (Z.land value3 0x00FC0000) 18); base64_letter (Z.shiftr (Z.land value3 0x0003F000) 12);
                 base64_letter (Z.shiftr (Z.land value3 0x00000FC0) 6); 61], it)
        | _ => Throw Undefined
        end
    | _ => Throw Assert
    end ;;
  let '(tail, it) := r in
  _ <-? oassert (match it with [] => true | _ => false end) ;;
  Ok (out ++ tail).

Definition line_width_ : nat := 80.
Definition lines_to_accumulate_ : nat := 50.

Record accumulator := mk_acc { os_ : list Z; indent_string_ : list Z; width_ : nat; line_count_ : nat; lines_ : list Z }.

Definition new_accumulator (os : list Z) (ind : nat) : accumulator := mk_acc os (replicate ind 32) 0 0 [].

Definition acc_push_back (a : accumulator) (c : Z) : accumulator :=
  let lines := (if (width_ a =? 0)%nat then lines_ a ++ indent_string_ a else lines_ a) ++ [c] in
  let width := S (width_ a) in
  if (line_width_ <=? width)%nat then
    let lines := lines ++ [10] in
    let line_count := S (line_count_ a) in
    if (lines_to_accumulate_ <=? line_count)%nat
    then mk_acc (os_ a ++ lines) (indent_string_ a) 0 0 []
    else mk_acc (os_ a) (indent_string_ a) 0 line_count lines
  else mk_acc (os_ a) (indent_string_ a) width (line_count_ a) lines.

Definition acc_flush (a : accumulator) : accumulator := mk_acc (os_ a ++ lines_ a) (indent_string_ a) 0 0 [].

(** [binary::writer] *)
Definition binary_head : list Z := [33; 33; 98; 105; 110; 97; 114; 121; 32; 124; 10].
Definition write_binary (ind : nat) (v : list Z) : outcome (list Z) :=
  let acc := new_accumulator [] ind in
  let acc := mk_acc (os_ acc ++ binary_head) (indent_string_ acc) (width_ acc) (line_count_ acc) (lines_ acc) in
  text <-? to_base64 v ;;
  Ok (os_ (acc_flush (foldl acc_push_back acc text))).

(** [binary16::writer] *)
Definition binary16_head : list Z := [33; 33; 98; 105; 110; 97; 114; 121; 49; 54; 32; 124].
Definition bytes_per_row : nat := 16.
Fixpoint binary16_loop (ind byte_no : nat) (v : list Z) : outcome (list Z) :=
  match v with
  | [] => put []
  | b :: v =>
      let '(sep, byte_no) :=
        if (byte_no =? 0)%nat || (bytes_per_row <=? byte_no)%nat then ([10] ++ replicate ind 32, 0%nat)
        else if (byte_no mod 2 =? 0)%nat then ([32], byte_no)
        else ([], byte_no) in
      h <-? to_hex (Z.land (Z.shiftr b 4) 0x0F) ;;
      l <-? to_hex (Z.land b 0x0F) ;;
      put (sep ++ [h; l]) +++ binary16_loop ind (S byte_no) v
  end.
Definition write_binary16 (ind : nat) (v : list Z) : outcome (list Z) :=
  put binary16_head +++
  match v with
  | [] => put ([10] ++ replicate ind 32)
  | _ => binary16_loop ind 0 v
  end +++
  put [62].

(** ** Values *)

Section values.
Context {D : Type} (print_double : D -> list Z).
(** [std::strftime] with the format for ISO 8601 applied to [gm_time] of a time, and the ticks of the system clock
    in a millisecond *)
Context (format_time : Z -> option (list Z)) (ticks_per_ms : Z).

(** The classes derived from [value]. The constructors of numbers take the base that is in force or
    the one that is given. *)
Inductive value :=
  | number_double (v : D)
  | number_long (v base : Z)
  | number_ulong (v base : Z)
  | boolean (v : bool)
  | null
  | string_value (v : list Z) (force_quoted : bool)
  | binary (v : list Z)
  | binary16 (v : list Z)
  | time (ms : Z)
  | array (values : list value)
  | object (members : list (list Z * value)) (compact : bool).

Definition is_number_like (v : value) : bool :=
  match v with number_double _ | number_long _ _ | number_ulong _ _ => true | _ => false end.
Definition is_object (v : value) : bool := match v with object _ _ => true | _ => false end.

Definition write_boolean (v : bool) : list Z := if v then [116; 114; 117; 101] else [102; 97; 108; 115; 101].
Definition write_null : list Z := [110; 117; 108; 108].

(** [time::milliseconds_to_time] *)
Definition milliseconds_to_time (ms : Z) : outcome Z :=
  let ms := if ms <? 2 ^ 63 then ms else ms - 2 ^ 64 in
  let dur := ms * ticks_per_ms in
  if (- 2 ^ 63 <=? dur) && (dur <? 2 ^ 63) then Ok (Z.quot dur (1000 * ticks_per_ms)) else Throw Undefined.

(** [time::writer] *)
Definition write_time (ms : Z) : outcome (list Z) :=
  t <-? milliseconds_to_time ms ;;
  match format_time t with
  | Some text => put text
  | None => put ([84; 105; 109; 101; 40] ++ in_base 10 ms ++ [109; 115; 41])
  end.

(** [array::is_number_array] *)
Definition is_number_array (values : list value) : bool := forallb is_number_like values.

(** [object::property] and its length *)
Fixpoint has_colon_space (p : list Z) : bool :=
  match p with
  | [] => false
  | c :: p => (c =? 58) && (match p with d :: _ => d =? 32 | [] => false end) || has_colon_space p
  end.
Definition write_property (p : list Z) : outcome (list Z) := write_string p (has_colon_space p).
Definition property_length (p : list Z) : outcome nat := s <-? write_property p ;; Ok (length s).

Fixpoint longest_property {V} (members : list (list Z * V)) (longest : nat) : outcome nat :=
  match members with
  | [] => Ok longest
  | m :: members => n <-? property_length m.1 ;; longest_property members (Nat.max longest n)
  end.

(** [needs_new_line] of [object::write_full_size] *)
Definition needs_new_line (v : value) : bool := match v with object _ compact => negb compact | _ => false end.

(** The loops over the elements of an array and the members of an object: a separator before the first and another
    before each of the rest *)
Definition write_each {A} (next : list Z) (f : A -> outcome (list Z)) : list Z -> list A -> outcome (list Z) :=
  fix go sep l :=
    match l with
    | [] => put []
    | x :: l => put sep +++ f x +++ go next l
    end.

(** [write_impl] of all classes: [array::writer], [object::writer], [write_compact] and [write_full_size] *)
Fixpoint write_impl (ind : nat) (v : value) : outcome (list Z) :=
  match v with
  | number_double v => put (print_double v)
  | number_long v base => write_decimal base v
  | number_ulong v base => write_decimal base v
  | boolean v => put (write_boolean v)
  | null => put write_null
  | string_value v force_quoted => write_string v force_quoted
  | binary v => write_binary ind v
  | binary16 v => write_binary16 ind v
  | time ms => write_time ms
  | array values =>
      if (length values =? 0)%nat || is_number_array values then
        put [91] +++ write_each [44; 32] (write_impl 0) [32] values +++ put [32; 93]
      else
        put [10] +++
        write_each [10] (fun v => put (replicate ind 32 ++ [45; 32]) +++ write_impl (ind + if is_object v then 2 else 4) v) [] values
  | object members compact =>
      if compact || (length members =? 0)%nat then
        put [123] +++
        write_each [44; 32] (fun '(p, v) => write_property p +++ put [58; 32] +++ write_impl 0 v) [32] members +++
        put [32; 125]
      else
        longest <-? longest_property members 0 ;;
        write_each ([10] ++ replicate ind 32)
          (fun '(p, v) =>
             key <-? write_property p ;;
             put (key ++ replicate (longest - length key + 1) 32 ++ [58; 32]) +++
             put (if needs_new_line v then [10] ++ replicate (ind + 4) 32 else []) +++
             write_impl (ind + 4) v)
          [] members
  end.

(** [value::write] *)
Definition write (v : value) : outcome (list Z) := write_impl 0 v.

(** [array::push_back], [object::insert], [object::get] and [object::compact] *)
Definition array_push_back (values : list value) (v : value) : value := array (values ++ [v]).
Definition object_insert (members : list (list Z * value)) (compact : bool) (name : list Z) (v : value) : value :=
  object (members ++ [(name, v)]) compact.
Fixpoint object_get (members : list (list Z * value)) (name : list Z) : option value :=
  match members with
  | [] => None
  | (p, v) :: members => if bool_decide (p = name) then Some v else object_get members name
  end.

(** [make_time] *)
Definition make_time (ms : Z) (no_times : bool) : value := time (if no_times then 0 else ms).
End values.

(** ** Lines *)

(** [expand_tabs] *)
Fixpoint expand_tabs (tab_size position : Z) (s : list Z) : list Z :=
  match s with
  | [] => []
  | c :: s =>
      if negb (c =? 9) then c :: expand_tabs tab_size (position + 1) s
      else let spaces := tab_size - position mod tab_size in
           replicate (Z.to_nat spaces) 32 ++ expand_tabs tab_size (position + spaces) s
  end.
Definition trim_line (str : list Z) : list Z := expand_tabs 8 0 str.

(** [line_splitter]: the text since the last new line, and the array of the lines *)
Record line_splitter := mk_ls { str_ : list Z; arr_ : list (list Z) }.
Definition new_splitter : line_splitter := mk_ls [] [].

(** [sstring_view::find] *)
Fixpoint find_char (c : Z) (sv : list Z) : option nat :=
  match sv with
  | [] => None
  | x :: sv => if x =? c then Some 0%nat else S <$> find_char c sv
  end.

Fixpoint append_loop (fuel : nat) (operation : list Z -> list Z) (sv : list Z) (ls : line_splitter) : outcome line_splitter :=
  match fuel with
  | O => Throw OutOfFuel
  | S fuel =>
      match find_char 10 sv with
      | None => Ok (mk_ls (str_ ls ++ sv) (arr_ ls))
      | Some cr_pos =>
          let str := str_ ls ++ take cr_pos sv in
          append_loop fuel operation (drop (cr_pos + 1) sv) (mk_ls [] (arr_ ls ++ [operation str]))
      end
  end.
Definition ls_append (operation : list Z -> list Z) (chars : list Z) (ls : line_splitter) : outcome line_splitter :=
  append_loop (S (length chars)) operation chars ls.

(** ** Digests *)

(** [hex_to_digit] *)
Definition hex_to_digit (digit : Z) : option Z :=
  if (97 <=? digit) && (digit <=? 102) then Some (digit - (97 - 10))
  else if (65 <=? digit) && (digit <=? 70) then Some (digit - (65 - 10))
  else if (48 <=? digit) && (digit <=? 57) then Some (digit - 48)
  else None.

(** [get64]: the loop goes from a shift of 60 to one of 0. *)
Fixpoint get64_loop (n : nat) (str : list Z) (index : nat) (result : Z) : outcome (option Z) :=
  match n with
  | O => Ok (Some result)
  | S n =>
      match str !! index with
      | None => Throw Undefined
      | Some c =>
          match hex_to_digit c with
          | None => Ok None
          | Some digit => get64_loop n str (S index) (Z.lor result (wrap64 (Z.shiftl digit (4 * Z.of_nat n))))
          end
      end
  end.
Definition get64 (str : list Z) (index : nat) : outcome (option Z) :=
  _ <-? oassert (index <? length str)%nat ;; get64_loop 16 str index 0.

Definition digest_from_string (str : list Z) : outcome (option uint128) :=
  if negb (length str =? 32)%nat then Ok None
  else
    high <-? get64 str 0 ;;
    match high with
    | None => Ok None
    | Some high =>
        low <-? get64 str 16 ;;
        match low with None => Ok None | Some low => Ok (Some (U128 high low)) end
    end.
