(* ===== verification/DumpSpec.v ===== *)
(** * What the text of a dump means

    Readers for what Dump.v writes, and the proofs that they give back what was written: strings, numbers, binary data
    and digests. Then the layout of arrays and objects, and the lines of text that arrives in pieces. *)

From S2P Require Import Prelude Chars Uint128 Sha1 Sha1Spec Dump.

(** ** Strings *)

(** The value of a hexadecimal digit in capitals *)
Definition unhex (c : Z) : option Z :=
  if (48 <=? c) && (c <=? 57) then Some (c - 48) else if (65 <=? c) && (c <=? 70) then Some (c - 55) else None.

Definition unhex2 (h l : Z) : option Z := h ← unhex h; l ← unhex l; Some (16 * h + l).

(** The character that a letter after a backslash stands for *)
Definition unescape (e : Z) : option Z :=
  if e =? 48 then Some 0 else if e =? 97 then Some 7 else if e =? 98 then Some 8 else if e =? 116 then Some 9
  else if e =? 110 then Some 10 else if e =? 118 then Some 11 else if e =? 102 then Some 12 else if e =? 114 then Some 13
  else if e =? 101 then Some 27 else if e =? 34 then Some 34 else None.

Fixpoint read_quoted (s : list Z) : option (list Z) :=
  match s with
  | [] => None
  | c :: s1 =>
      if c =? 34 then match s1 with [] => Some [] | _ => None end
      else if c =? 92 then
        match s1 with
        | [] => None
        | e :: s2 =>
            if e =? 120 then
              match s2 with
              | h :: l :: s3 => c ← unhex2 h l; cons c <$> read_quoted s3
              | _ => None
              end
            else e ← unescape e; cons e <$> read_quoted s2
        end
      else cons c <$> read_quoted s1
  end.

Fixpoint read_unquoted (s : list Z) : option (list Z) :=
  match s with
  | [] => Some []
  | c :: s =>
      if c =? 92 then match s with [] => None | d :: s => cons d <$> read_unquoted s end
      else cons c <$> read_unquoted s
  end.

(** What begins with a quotation mark is quoted. *)
Definition read_string (s : list Z) : option (list Z) :=
  match s with
  | c :: s' => if c =? 34 then read_quoted s' else read_unquoted s
  | [] => None
  end.

(** Each character is written as itself, as a letter after a backslash or as two digits. *)
Definition quoted_form (c : Z) (s : list Z) : bool :=
  match s with
  | [x] => (x =? c) && negb (x =? 34) && negb (x =? 92) && isprint x
  | [b; e] => (b =? 92) && negb (e =? 120) && bool_decide (unescape e = Some c) && isprint e
  | [b; x; h; l] =>
      (b =? 92) && (x =? 120) && bool_decide (unhex2 h l = Some c) && isprint h && isprint l
  | _ => false
  end.

Lemma quoted_char_form c : octet c -> c <> 92 -> exists s, write_quoted_char c = Ok s /\ quoted_form c s = true.
Proof.
  intros Hc Hb.
  assert ((c =? 92) || match write_quoted_char c with Ok s => quoted_form c s | Throw _ => false end = true) as H.
  { revert c Hc Hb. intros c Hc _. revert c Hc. apply octet_forall. by vm_compute. }
  rewrite (proj2 (Z.eqb_neq _ _) Hb) in H. cbn [orb] in H. destruct (write_quoted_char c) as [s|]; [by eexists|done].
Qed.

Lemma read_quoted_form c s rest : quoted_form c s = true -> read_quoted (s ++ rest) = cons c <$> read_quoted rest.
Proof.
  destruct s as [|x [|e [|h [|l [|]]]]]; try done; cbn [quoted_form app];
    rewrite ?andb_true_iff, ?negb_true_iff, ?bool_decide_eq_true, ?Z.eqb_eq.
  - intros [[[-> H1] H2] _]. cbn [read_quoted]. by rewrite H1, H2.
  - intros [[[-> H1] H2] _]. cbn [read_quoted]. change (92 =? 34) with false. change (92 =? 92) with true. cbv iota. by rewrite H1, H2.
  - intros [[[[-> ->] H] _] _]. cbn [read_quoted]. change (92 =? 34) with false. change (92 =? 92) with true. change (120 =? 120) with true.
    cbv iota. by rewrite H.
Qed.

Lemma cat_ok a b : Ok a +++ Ok b = Ok (a ++ b).
Proof. done. Qed.

Lemma write_quoted_chars_ok v : Forall octet v -> 92 ∉ v ->
  exists s, write_quoted_chars v = Ok s /\ Forall (fun c => isprint c = true) s /\
            forall rest, read_quoted (s ++ rest) = app v <$> read_quoted rest.
Proof.
  induction 1 as [|c v Hc Hv IH]; intros Hb; cbn [write_quoted_chars].
  - exists []. split_and!; [done|done|]. intros rest. cbn. by destruct (read_quoted rest).
  - apply not_elem_of_cons in Hb as [Hb Hbv]. destruct (IH Hbv) as (s & -> & Hp & Hs).
    destruct (quoted_char_form c Hc (not_eq_sym Hb)) as (s1 & -> & Hf). rewrite cat_ok. eexists. split; [done|]. split.
    + apply Forall_app. split; [|done]. destruct s1 as [|x [|e [|h [|l [|]]]]]; try done; cbn [quoted_form] in Hf;
        rewrite ?andb_true_iff, ?Z.eqb_eq in Hf; destruct_and?; subst; repeat constructor; done.
    + intros rest. rewrite <- app_assoc, (read_quoted_form c s1 _ Hf), Hs. by destruct (read_quoted rest).
Qed.

Lemma read_unquoted_chars v : read_unquoted (v ≫= fun ch => (if ch =? 92 then [92] else []) ++ [ch]) = Some v.
Proof.
  induction v as [|c v IH]; [done|]. cbn [mbind list_bind]. destruct (Z.eqb_spec c 92) as [->|Hc]; cbn [app read_unquoted].
  - change (92 =? 92) with true. cbv iota. change (list_bind ?A ?B ?f v) with (v ≫= f). by rewrite IH.
  - rewrite (proj2 (Z.eqb_neq _ _) Hc). by rewrite IH.
Qed.

Lemma isprint_spec c : isprint c = true <-> 32 <= c <= 126.
Proof. unfold isprint. rewrite andb_true_iff, !Z.leb_le. lia. Qed.

Lemma unquoted_read v : should_be_quoted v = false -> read_string (write_unquoted v) = Some v.
Proof.
  destruct v as [|c v]; [done|]. intros _. unfold write_unquoted. pose proof (read_unquoted_chars (c :: v)) as H.
  destruct ((c =? 34) || (c =? 33)) eqn:E.
  - cbn [app]. unfold read_string. change (92 =? 34) with false. cbv iota. cbn [read_unquoted]. change (92 =? 92) with true. cbv iota.
    assert ((c =? 92) = false) as Hc by (apply orb_true_iff in E as [E|E]; apply Z.eqb_eq in E; by subst).
    cbn [mbind list_bind] in H |- *. rewrite Hc in H |- *. cbn [app read_unquoted] in H |- *. by rewrite Hc in H.
  - apply orb_false_iff in E as [E _]. cbn [app]. cbn [mbind list_bind] in H |- *. unfold read_string.
    destruct (c =? 92) eqn:Hc; cbn [app] in H |- *; [by change (92 =? 34) with false|by rewrite E].
Qed.

Lemma unquoted_prints v : should_be_quoted v = false -> Forall (fun c => isprint c = true) (write_unquoted v).
Proof.
  destruct v as [|c v]; [done|]. cbn [should_be_quoted]. rewrite !orb_false_iff. intros [_ Hp].
  assert (Forall (fun c => isprint c = true) (c :: v)) as Hv.
  { rewrite Forall_forall. intros x Hx. destruct (isprint x) eqn:E; [done|]. exfalso.
    assert (existsb (fun c => negb (isprint c)) (c :: v) = true) as Ht; [|congruence].
    apply existsb_exists. exists x. split; [by apply list_elem_of_In|by rewrite E]. }
  unfold write_unquoted. apply Forall_app. split; [by case_match; repeat constructor|].
  clear Hp. induction Hv as [|x l Hx Hl IH]; [constructor|]. cbn [mbind list_bind]. apply Forall_app. split; [|exact IH].
  case_match; repeat constructor; done.
Qed.

(** A string is written as one line of printable characters from which it can be read, unless it is quoted and has a backslash. *)
Lemma string_roundtrip v force : Forall octet v -> (force || should_be_quoted v = true -> 92 ∉ v) ->
  exists s, write_string v force = Ok s /\ Forall (fun c => isprint c = true) s /\ read_string s = Some v.
Proof.
  intros Hv Hb. unfold write_string. destruct (negb force && negb (should_be_quoted v)) eqn:E.
  - apply andb_true_iff in E as [_ E]. apply negb_true_iff in E. eexists. split; [done|].
    split; [by apply unquoted_prints|by apply unquoted_read].
  - rewrite <- negb_orb, negb_false_iff in E. destruct (write_quoted_chars_ok v Hv (Hb E)) as (s & Hs & Hp & Hr).
    unfold write_quoted, put. rewrite Hs, !cat_ok. eexists. split; [done|]. split; [by apply Forall_cons; split; [|apply Forall_app; split; [|repeat constructor]]|].
    cbn [app read_string]. change (34 =? 34) with true. cbv iota. rewrite Hr. cbn. by rewrite app_nil_r.
Qed.

(** A backslash in quotation marks is not doubled: a backslash and an n are written as a new line is. *)
Lemma quoted_ambiguous : write_string [92; 110; 10] false = write_string [10; 10] false.
Proof. reflexivity. Qed.

(** ** Numbers *)

(** The number that digits in a base denote *)
Definition base_value (base n : Z) (s : list Z) : Z := foldl (fun a c => base * a + Uint128.hex_value c) n s.

Lemma digit_char_value d : 0 <= d < 16 -> Uint128.hex_value (digit_char d) = d /\ 48 <= digit_char d /\ (digit_char d = 48 -> d = 0) /\ digit_char d < 120.
Proof.
  intros Hd. unfold Uint128.hex_value, digit_char. destruct (Z.ltb_spec d 10).
  - rewrite (proj2 (Z.ltb_lt _ _)) by lia. lia.
  - rewrite (proj2 (Z.ltb_ge _ _)) by lia. lia.
Qed.

Section bases.
Context (base : Z) (base_range : 2 <= base <= 16).

Lemma digits_base_value fuel n acc : 0 <= n < base ^ Z.of_nat fuel ->
  base_value base 0 (digits_base base fuel n acc) = base_value base n acc.
Proof using base_range.
  revert n acc. induction fuel as [|fuel IH]; intros n acc Hn; [change (base ^ Z.of_nat 0) with 1 in Hn; by replace n with 0 by lia|].
  rewrite Nat2Z.inj_succ, Z.pow_succ_r in Hn by lia. pose proof (Z.mod_pos_bound n base ltac:(lia)). pose proof (Z.div_mod n base ltac:(lia)).
  assert (forall a, base_value base a (digit_char (n mod base) :: acc) = base_value base (base * a + n mod base) acc) as Hd.
  { intros a. unfold base_value. cbn [foldl]. by rewrite (proj1 (digit_char_value (n mod base) ltac:(lia))). }
  cbn [digits_base]. destruct (Z.ltb_spec n base).
  - rewrite Hd, Z.mod_small by lia. f_equal. lia.
  - rewrite IH by (split; [apply Z.div_pos; lia|apply Z.div_lt_upper_bound; lia]). rewrite Hd. f_equal. lia.
Qed.

(** The first digit is zero in the number zero only. *)
Lemma digits_base_head fuel n acc : 0 <= n < base ^ Z.of_nat fuel -> (0 < fuel)%nat ->
  exists d rest, digits_base base fuel n acc = digit_char d :: rest /\ 0 <= d < base /\ (n <> 0 -> d <> 0) /\ (n = 0 -> rest = acc).
Proof using base_range.
  revert n acc. induction fuel as [|fuel IH]; intros n acc Hn Hf; [lia|].
  rewrite Nat2Z.inj_succ, Z.pow_succ_r in Hn by lia. cbn [digits_base]. destruct (Z.ltb_spec n base).
  - rewrite Z.mod_small by lia. exists n, acc. split_and!; [done|lia|lia|lia|done].
  - assert (0 < n / base) as Hpos by (apply Z.div_str_pos; lia). assert (n / base < base ^ Z.of_nat fuel) by (apply Z.div_lt_upper_bound; lia).
    destruct (IH (n / base) (digit_char (n mod base) :: acc)) as (d & rest & E & Hd & Hn0 & _); [lia|destruct fuel; [cbn in *; lia|lia]|].
    exists d, rest. split_and!; [done|lia|lia|intros _; apply Hn0; lia|lia].
Qed.

Lemma base_room : 2 ^ 64 <= base ^ Z.of_nat 64.
Proof using base_range. change (Z.of_nat 64) with 64. apply Z.pow_le_mono_l. lia. Qed.

Lemma in_base_value n : 0 <= n < 2 ^ 64 -> base_value base 0 (in_base base n) = n.
Proof using base_range. intros Hn. unfold in_base. rewrite digits_base_value; [done|]. pose proof base_room. lia. Qed.

Lemma in_base_head n : 0 <= n < 2 ^ 64 ->
  exists d rest, in_base base n = digit_char d :: rest /\ 0 <= d < base /\ (n <> 0 -> d <> 0) /\ (n = 0 -> rest = []).
Proof using base_range. intros Hn. apply digits_base_head; [pose proof base_room; lia|lia]. Qed.
End bases.

(** Numbers as they are written in C: hexadecimal after 0x, octal after 0 *)
Definition read_number (s : list Z) : Z :=
  match s with
  | c :: s' =>
      if c =? 45 then - base_value 10 0 s'
      else if c =? 48 then
        match s' with
        | x :: s'' => if x =? 120 then base_value 16 0 s'' else base_value 8 0 s'
        | [] => 0
        end
      else base_value 10 0 s
  | [] => 0
  end.

(** Numbers can be read from their text, whatever base they are written in. *)
Lemma number_roundtrip base v : base = 8 \/ base = 10 \/ base = 16 -> - 2 ^ 63 <= v < 2 ^ 64 ->
  exists s, write_decimal base v = Ok s /\ read_number s = if base =? 10 then v else wrap64 v.
Proof.
  intros Hb Hv. assert (0 <= wrap64 v < 2 ^ 64) as Hw by (apply Z.mod_pos_bound; lia).
  unfold write_decimal, put. destruct Hb as [->|[->| ->]]; cbn [Z.eqb Pos.eqb].
  - eexists. split; [done|]. destruct (Z.eqb_spec v 0) as [->|Hv0]; [done|]. cbn [app].
    destruct (in_base_head 8 ltac:(lia) (wrap64 v) Hw) as (d & rest & E & Hd & _). pose proof (in_base_value 8 ltac:(lia) (wrap64 v) Hw) as Hval.
    rewrite E in Hval |- *. unfold read_number. cbn [Z.eqb Pos.eqb]. destruct (digit_char_value d ltac:(lia)) as (_ & _ & _ & Hlt).
    rewrite (proj2 (Z.eqb_neq (digit_char d) 120)) by lia. done.
  - destruct (Z.ltb_spec v 0).
    + eexists. split; [done|]. cbn [read_number Z.eqb Pos.eqb]. rewrite in_base_value by lia. lia.
    + eexists. split; [done|]. destruct (in_base_head 10 ltac:(lia) v ltac:(lia)) as (d & rest & E & Hd & Hn & Hz).
      pose proof (in_base_value 10 ltac:(lia) v ltac:(lia)) as Hval. rewrite E in Hval |- *.
      destruct (digit_char_value d ltac:(lia)) as (_ & Hge & H0 & _). unfold read_number. rewrite (proj2 (Z.eqb_neq (digit_char d) 45)) by lia.
      destruct (Z.eqb_spec (digit_char d) 48) as [Hd0|Hd0]; [|done]. destruct (decide (v = 0)) as [->|Hne]; [by rewrite Hz|].
      exfalso. by apply Hn, H0.
  - eexists. split; [done|]. cbn [app read_number Z.eqb Pos.eqb]. by apply in_base_value.
Qed.

(** ** Binary data *)

Lemma sextet_mask n k : 0 <= k -> Z.shiftr (Z.land n (Z.shiftl 63 k)) k = n / 2 ^ k mod 64.
Proof.
  intros Hk. rewrite Z.shiftr_land, Z.shiftr_shiftl_l, Z.sub_diag by lia. change (Z.shiftl 63 0) with (Z.ones 6).
  by rewrite Z.land_ones, Z.shiftr_div_pow2 by lia.
Qed.

Lemma base64_loop_ok n it rest : length it = (3 * n)%nat -> Forall octet it ->
  base64_loop n (it ++ rest) = Ok (base64 it, rest).
Proof.
  revert it. induction n as [|n IH]; intros it Hlen Hit.
  - destruct it; [done|cbn in Hlen; lia].
  - destruct it as [|x [|y [|z it]]]; cbn [length] in Hlen; try lia. rewrite !Forall_cons in Hit. destruct Hit as (Hx & Hy & Hz & Hit).
    unfold octet in *. cbn [app base64_loop]. rewrite !Z.shiftl_mul_pow2 by lia.
    rewrite (wrap_small 32 (x * _)), (wrap_small 32 (y * _)) by lia. rewrite (wrap_small 32 (x * 2 ^ 16 + y * 2 ^ 8)), (wrap_small 32 (x * 2 ^ 16 + y * 2 ^ 8 + z)) by lia.
    rewrite IH by (lia || done). cbn [obind fst snd base64]. cbn zeta.
    set (w := x * 2 ^ 16 + y * 2 ^ 8 + z). assert (big_endian [x; y; z] = w) as -> by (unfold big_endian, w; cbn; lia).
    change 0x00FC0000 with (Z.shiftl 63 18). change 0x0003F000 with (Z.shiftl 63 12). change 0x00000FC0 with (Z.shiftl 63 6).
    rewrite !sextet_mask by lia. change 0x3F with (Z.ones 6). rewrite Z.land_ones, Z.div_1_r by lia. reflexivity.
Qed.

Lemma base64_app n l rest : length l = (3 * n)%nat -> base64 (l ++ rest) = base64 l ++ base64 rest.
Proof.
  revert l. induction n as [|n IH]; intros l Hl; [destruct l; [done|cbn in Hl; lia]|].
  destruct l as [|x [|y [|z l]]]; cbn [length] in Hl; try lia. change ((x :: y :: z :: l) ++ rest) with (x :: y :: z :: (l ++ rest)).
  cbn [base64]. cbn zeta. rewrite IH by lia. by rewrite app_assoc.
Qed.

(** The code computes base 64 as it is defined. *)
Lemma to_base64_ok v : Forall octet v -> to_base64 v = Ok (base64 v).
Proof.
  intros Hv. unfold to_base64. set (n := (length v / 3)%nat). pose proof (Nat.div_mod (length v) 3 ltac:(lia)) as Hdm.
  pose proof (Nat.mod_upper_bound (length v) 3 ltac:(lia)) as Hlt.
  assert (length (take (3 * n) v) = (3 * n)%nat) as Hl by (rewrite length_take; lia).
  assert (length (drop (3 * n) v) = (length v mod 3)%nat) as Hr by (rewrite length_drop; lia).
  rewrite <- (take_drop (3 * n) v) in Hv at 1. apply Forall_app in Hv as [Hv1 Hv2].
  assert (base64_loop n v = Ok (base64 (take (3 * n) v), drop (3 * n) v)) as ->
    by (rewrite <- (take_drop (3 * n) v) at 1; by apply base64_loop_ok).
  assert (base64 v = base64 (take (3 * n) v) ++ base64 (drop (3 * n) v)) as ->
    by (rewrite <- (take_drop (3 * n) v) at 1; by apply (base64_app n)).
  cbn [obind]. revert Hv2 Hr. generalize (drop (3 * n) v). intros rest Hv2 Hr.
  destruct rest as [|x [|y [|z rest]]]; cbn [length] in Hr; rewrite <- Hr; [| | |lia]; cbn [obind]; rewrite ?Forall_cons in Hv2; unfold octet in Hv2.
  - cbn. by rewrite app_nil_r.
  - rewrite Z.shiftl_mul_pow2, wrap_small by lia. cbn [oassert obind base64]. cbn zeta.
    replace (big_endian [x; 0; 0]) with (x * 2 ^ 16) by (unfold big_endian; cbn; lia).
    change 0x00FC0000 with (Z.shiftl 63 18). change 0x0003F000 with (Z.shiftl 63 12). by rewrite !sextet_mask by lia.
  - rewrite !Z.shiftl_mul_pow2, (wrap_small 32 (x * _)), (wrap_small 32 (y * _)), (wrap_small 32 (_ + _)) by lia.
    cbn [oassert obind base64]. cbn zeta. replace (big_endian [x; y; 0]) with (x * 2 ^ 16 + y * 2 ^ 8) by (unfold big_endian; cbn; lia).
    change 0x00FC0000 with (Z.shiftl 63 18). change 0x0003F000 with (Z.shiftl 63 12). change 0x00000FC0 with (Z.shiftl 63 6).
    by rewrite !sextet_mask by lia.
Qed.

(** The reader of base 64 *)
Definition unletter (c : Z) : option Z :=
  if (65 <=? c) && (c <=? 90) then Some (c - 65) else if (97 <=? c) && (c <=? 122) then Some (c - 71)
  else if (48 <=? c) && (c <=? 57) then Some (c + 4) else if c =? 43 then Some 62 else if c =? 47 then Some 63 else None.

Fixpoint decode64 (s : list Z) : option (list Z) :=
  match s with
  | [] => Some []
  | a :: b :: c :: d :: s =>
      a ← unletter a; b ← unletter b;
      let n := a * 2 ^ 18 + b * 2 ^ 12 in
      match unletter c, unletter d with
      | Some c, Some d => let n := n + c * 2 ^ 6 + d in app [n / 2 ^ 16; n / 2 ^ 8 mod 256; n mod 256] <$> decode64 s
      | Some c, None => let n := n + c * 2 ^ 6 in Some [n / 2 ^ 16; n / 2 ^ 8 mod 256]
      | None, _ => Some [n / 2 ^ 16]
      end
  | _ => None
  end.

Lemma unletter_letter i : 0 <= i < 64 -> unletter (letter i) = Some i.
Proof.
  intros Hi. set (P := fun i => (64 <=? i) || match unletter (letter i) with Some j => j =? i | None => false end).
  assert (P i = true) as H by (apply octet_forall; [by vm_compute|lia]). unfold P in H.
  rewrite (proj2 (Z.leb_gt _ _)) in H by lia. cbn [orb] in H. destruct (unletter (letter i)); [|done]. by apply Z.eqb_eq in H as ->.
Qed.

Lemma sextets n : 0 <= n < 2 ^ 24 -> n = n / 2 ^ 18 mod 64 * 2 ^ 18 + n / 2 ^ 12 mod 64 * 2 ^ 12 + n / 2 ^ 6 mod 64 * 2 ^ 6 + n mod 64.
Proof. intros Hn. Z.to_euclidean_division_equations. lia. Qed.

Lemma decode64_base64 v : Forall octet v -> decode64 (base64 v) = Some v.
Proof.
  remember (length v) as k eqn:Hk. revert v Hk. induction (lt_wf k) as [k _ IH]. intros v -> Hv.
  assert (forall n i, 0 <= n / 2 ^ i mod 64 < 64) as Hs by (intros; apply Z.mod_pos_bound; lia).
  destruct v as [|x [|y [|z v]]]; [done| | |]; rewrite !Forall_cons in Hv; unfold octet in Hv; cbn [base64 app]; cbn zeta; cbn [decode64];
    rewrite !unletter_letter by apply Hs; cbn [mbind option_bind]; change (unletter 61) with (@None Z); cbv iota.
  - set (n := big_endian [x; 0; 0]). assert (n = x * 2 ^ 16) as Hn by (unfold n, big_endian; cbn; lia). do 2 f_equal.
    pose proof (sextets n ltac:(lia)). Z.to_euclidean_division_equations. lia.
  - set (n := big_endian [x; y; 0]). assert (n = x * 2 ^ 16 + y * 2 ^ 8) as Hn by (unfold n, big_endian; cbn; lia).
    pose proof (sextets n ltac:(lia)). assert (n mod 64 = 0) by (rewrite Hn; Z.to_euclidean_division_equations; lia).
    replace (_ + _) with n by lia. f_equal. rewrite Hn. repeat f_equal; Z.to_euclidean_division_equations; lia.
  - set (n := big_endian [x; y; z]). assert (n = x * 2 ^ 16 + y * 2 ^ 8 + z) as Hn by (unfold n, big_endian; cbn; lia).
    pose proof (sextets n ltac:(lia)). rewrite (IH (length v)) by (cbn; lia || tauto). cbn [fmap option_fmap option_map app].
    change (2 ^ 0) with 1. rewrite Z.div_1_r. replace (_ + n mod 64) with n by lia. f_equal. rewrite Hn.
    repeat f_equal; Z.to_euclidean_division_equations; lia.
Qed.

(** Text in lines of 80 characters, each indented, as if it were written without a buffer *)
Fixpoint laid_out (ind pos : nat) (text : list Z) : list Z :=
  match text with
  | [] => []
  | c :: text =>
      let full := (line_width_ <=? S pos)%nat in
      (if (pos =? 0)%nat then replicate ind 32 else []) ++ [c] ++ (if full then [10] else []) ++
      laid_out ind (if full then 0 else S pos) text
  end.

(** The accumulator writes what has been laid out, whenever it flushes. *)
Lemma accumulated text a ind : indent_string_ a = replicate ind 32 ->
  os_ (acc_flush (foldl acc_push_back a text)) = os_ a ++ lines_ a ++ laid_out ind (width_ a) text.
Proof.
  revert a. induction text as [|c text IH]; intros a Hi; [cbn; by rewrite app_nil_r|]. cbn [foldl laid_out]. cbn zeta.
  rewrite IH by (unfold acc_push_back; repeat case_match; done). unfold acc_push_back. rewrite Hi.
  destruct (width_ a =? 0)%nat, (line_width_ <=? S (width_ a))%nat; [destruct (lines_to_accumulate_ <=? S (line_count_ a))%nat| |destruct (lines_to_accumulate_ <=? S (line_count_ a))%nat|];
    cbn [os_ lines_ width_ app]; rewrite <- ?app_assoc; done.
Qed.

Lemma write_binary_ok ind v : Forall octet v -> write_binary ind v = Ok (binary_head ++ laid_out ind 0 (base64 v)).
Proof. intros Hv. unfold write_binary. rewrite to_base64_ok by done. cbn [obind]. by rewrite (accumulated _ _ ind). Qed.

Definition is_blank (c : Z) : bool := (c =? 32) || (c =? 10).
Definition without_blanks (s : list Z) : list Z := filter (fun c => is_blank c = false) s.

Lemma without_blanks_none s : Forall (fun c => is_blank c = false) s -> without_blanks s = s.
Proof. induction 1 as [|c s Hc Hs IH]; [done|]. unfold without_blanks in *. by rewrite filter_cons_True, IH. Qed.

Lemma without_blanks_all s : Forall (fun c => is_blank c = true) s -> without_blanks s = [].
Proof. induction 1 as [|c s Hc Hs IH]; [done|]. unfold without_blanks in *. rewrite filter_cons_False, IH; [done|by rewrite Hc]. Qed.

Lemma without_blanks_app s t : without_blanks (s ++ t) = without_blanks s ++ without_blanks t.
Proof. apply filter_app. Qed.

Lemma spaces_blank n : Forall (fun c => is_blank c = true) (replicate n 32).
Proof. by apply Forall_replicate. Qed.

Lemma laid_out_text ind pos text : Forall (fun c => is_blank c = false) text -> without_blanks (laid_out ind pos text) = text.
Proof.
  intros Ht. revert pos. induction Ht as [|c text Hc Ht IH]; intros pos; [done|]. cbn [laid_out]. cbn zeta. rewrite !without_blanks_app, IH.
  rewrite (without_blanks_all (if (pos =? 0)%nat then _ else _)) by (case_match; [apply spaces_blank|constructor]).
  rewrite (without_blanks_none [c]) by (by constructor). rewrite (without_blanks_all (if (line_width_ <=? _)%nat then _ else _)) by (case_match; repeat constructor).
  done.
Qed.

(** A line is full with 80 characters, and a last line that is not full has no new line. *)
Lemma laid_out_line ind line text : length line = line_width_ -> laid_out ind 0 (line ++ text) = replicate ind 32 ++ line ++ [10] ++ laid_out ind 0 text.
Proof.
  assert (forall line pos, (0 < pos)%nat -> line <> [] -> (pos + length line)%nat = line_width_ ->
            laid_out ind pos (line ++ text) = line ++ [10] ++ laid_out ind 0 text) as H.
  { induction line0 as [|c line0 IH]; intros pos Hp Hne Hl; [done|]. cbn [app laid_out length] in *. cbn zeta.
    rewrite (proj2 (Nat.eqb_neq pos 0)) by lia. destruct line0 as [|d line0].
    - rewrite (proj2 (Nat.leb_le _ _)) by (cbn in Hl; lia). done.
    - rewrite (proj2 (Nat.leb_gt _ _)) by (cbn [length] in Hl; lia). cbn [app]. f_equal. apply IH; [lia|done|cbn [length] in *; lia]. }
  intros Hl. destruct line as [|c line]; [done|]. cbn [app laid_out]. cbn zeta. change (line_width_ <=? 1)%nat with false. change (0 =? 0)%nat with true. cbv iota.
  cbn [app]. rewrite H; [done|lia|by intros ->|cbn [length] in Hl; lia].
Qed.

Lemma laid_out_rest ind line : (length line < line_width_)%nat -> line <> [] -> laid_out ind 0 line = replicate ind 32 ++ line.
Proof.
  assert (forall line pos, (0 < pos)%nat -> (pos + length line < line_width_)%nat -> laid_out ind pos line = line) as H.
  { induction line0 as [|c line0 IH]; intros pos Hp Hl; [done|]. cbn [laid_out length] in *. cbn zeta.
    rewrite (proj2 (Nat.eqb_neq pos 0)), (proj2 (Nat.leb_gt _ _)) by lia. cbn [app]. f_equal. apply IH; lia. }
  destruct line as [|c line]; [done|]. intros Hl _. cbn [laid_out]. cbn zeta. change (line_width_ <=? 1)%nat with false. change (0 =? 0)%nat with true. cbv iota.
  cbn [app]. by rewrite H by (cbn [length] in Hl; lia).
Qed.

Lemma letter_not_blank i : 0 <= i < 64 -> is_blank (letter i) = false.
Proof.
  intros Hi. pose proof (unletter_letter i Hi) as H. unfold is_blank. destruct (Z.eqb_spec (letter i) 32) as [E|_]; [by rewrite E in H|].
  destruct (Z.eqb_spec (letter i) 10) as [E|_]; [by rewrite E in H|done].
Qed.

Lemma base64_not_blank v : Forall (fun c => is_blank c = false) (base64 v).
Proof.
  remember (length v) as k eqn:Hk. revert v Hk. induction (lt_wf k) as [k _ IH]. intros v ->.
  assert (forall n i, is_blank (letter (n / 2 ^ i mod 64)) = false) as Hs by (intros; apply letter_not_blank, Z.mod_pos_bound; lia).
  destruct v as [|x [|y [|z v]]]; cbn [base64 app]; cbn zeta; rewrite ?Forall_cons; split_and?; try apply Hs; try done; try constructor.
  eapply IH; [|done]. cbn. lia.
Qed.

(** Binary data can be read from its lines. *)
Lemma binary_roundtrip ind v : Forall octet v -> exists body, write_binary ind v = Ok (binary_head ++ body) /\ decode64 (without_blanks body) = Some v.
Proof.
  intros Hv. rewrite write_binary_ok by done. eexists. split; [done|]. by rewrite laid_out_text, decode64_base64 by (done || apply base64_not_blank).
Qed.

Fixpoint unhex_all (s : list Z) : option (list Z) :=
  match s with
  | [] => Some []
  | h :: l :: s => c ← unhex2 h l; cons c <$> unhex_all s
  | _ => None
  end.

Lemma hex_pair b : octet b -> exists h l, to_hex (Z.land (Z.shiftr b 4) 0x0F) = Ok h /\ to_hex (Z.land b 0x0F) = Ok l /\
  unhex2 h l = Some b /\ is_blank h = false /\ is_blank l = false.
Proof.
  intros Hb. set (P := fun b => match to_hex (Z.land (Z.shiftr b 4) 0x0F), to_hex (Z.land b 0x0F) with
    | Ok h, Ok l => match unhex2 h l with Some c => c =? b | None => false end && negb (is_blank h) && negb (is_blank l) | _, _ => false end).
  assert (P b = true) as H by (apply octet_forall; [by vm_compute|done]). unfold P in H.
  destruct (to_hex (Z.land (Z.shiftr b 4) 0x0F)) as [h|]; [|done]. destruct (to_hex (Z.land b 0x0F)) as [l|]; [|done].
  rewrite !andb_true_iff, !negb_true_iff in H. destruct H as [[H1 H2] H3]. exists h, l. split_and!; [done|done| |done|done].
  destruct (unhex2 h l); [|done]. by apply Z.eqb_eq in H1 as ->.
Qed.

Lemma binary16_loop_ok ind n v : Forall octet v -> exists s, binary16_loop ind n v = Ok s /\ unhex_all (without_blanks s) = Some v.
Proof.
  intros Hv. revert n. induction Hv as [|b v Hb Hv IH]; intros n; [by exists []|]. cbn [binary16_loop].
  set (p := if _ || _ then _ else _).
  assert (Forall (fun c => is_blank c = true) p.1) as Hp.
  { unfold p. repeat case_match; cbn; repeat constructor. apply spaces_blank. }
  destruct p as [sep n']. cbn [fst] in Hp. destruct (hex_pair b Hb) as (h & l & -> & -> & Hu & Hh & Hl). cbn [obind].
  destruct (IH (S n')) as (s & -> & Hs). unfold put. rewrite cat_ok. eexists. split; [done|].
  rewrite <- app_assoc, !without_blanks_app, (without_blanks_all sep), (without_blanks_none [h; l]) by (done || by repeat constructor).
  cbn [app unhex_all]. by rewrite Hu, Hs.
Qed.

Lemma binary16_roundtrip ind v : Forall octet v -> exists body, write_binary16 ind v = Ok (binary16_head ++ body ++ [62]) /\
  unhex_all (without_blanks body) = Some v.
Proof.
  intros Hv. unfold write_binary16, put. destruct v as [|b v].
  - rewrite !cat_ok. eexists. split; [done|]. rewrite without_blanks_all; [done|]. constructor; [done|apply spaces_blank].
  - destruct (binary16_loop_ok ind 0 (b :: v) Hv) as (s & -> & Hs). rewrite !cat_ok. by eexists.
Qed.

(** ** Digests *)

Lemma hex_to_digit_ok c : hex_to_digit c = None \/ exists d, hex_to_digit c = Some d /\ 0 <= d < 16.
Proof.
  unfold hex_to_digit. repeat case_match; repeat match goal with H : _ && _ = true |- _ => apply andb_true_iff in H as [?%Z.leb_le ?%Z.leb_le] end;
    [right; eexists; split; [done|lia]..|by left].
Qed.

(** The characters at an index are all hexadecimal digits, and the value is theirs. *)
Definition digits_of_string (str : list Z) : option (list Z) := mapM hex_to_digit str.

Lemma get64_loop_ok n str index result : (index + n <= length str)%nat -> 0 <= result ->
  (2 ^ (4 * Z.of_nat n) | result) -> result < 2 ^ 64 -> (n <= 16)%nat ->
  get64_loop n str index result = Ok ((fun ds => result + Uint128.big_endian 16 ds) <$> digits_of_string (take n (drop index str))).
Proof.
  revert index result. induction n as [|n IH]; intros index result Hl Hr Hd Hlt Hn; cbn [get64_loop].
  - rewrite take_0. unfold digits_of_string, Uint128.big_endian. cbn [mapM mret option_ret fmap option_fmap option_map foldl]. by rewrite Z.add_0_r.
  - destruct (lookup_lt_is_Some_2 str index ltac:(lia)) as [c Hc]. rewrite Hc, (drop_S str c index Hc). cbn [take]. unfold digits_of_string. cbn [mapM].
    destruct (hex_to_digit_ok c) as [->|(d & -> & Hd16)]; [done|]. cbn [mbind option_bind].
    set (k := 4 * Z.of_nat n). assert (0 <= k) as Hk by lia. assert (4 * Z.of_nat (S n) = k + 4) as Hk4 by lia. rewrite Hk4 in Hd.
    assert (k <= 60) by lia. assert (2 ^ k <= 2 ^ 60) by (by apply Z.pow_le_mono_r). assert (0 < 2 ^ k) by (by apply Z.pow_pos_nonneg).
    rewrite Z.shiftl_mul_pow2, wrap_small by nia. destruct Hd as [q ->]. rewrite Z.pow_add_r in * by lia. change (2 ^ 4) with 16 in *.
    assert (Z.lor (q * (2 ^ k * 16)) (d * 2 ^ k) = (16 * q + d) * 2 ^ k) as ->.
    { pose proof (Z.add_lor_land (q * (2 ^ k * 16)) (d * 2 ^ k)). enough (Z.land (q * (2 ^ k * 16)) (d * 2 ^ k) = 0) by lia.
      replace (q * (2 ^ k * 16)) with (Z.shiftl (Z.shiftl q 4) k) by (rewrite !Z.shiftl_mul_pow2 by lia; change (2 ^ 4) with 16; lia).
      rewrite <- (Z.shiftl_mul_pow2 d) by lia. rewrite <- Z.shiftl_land. 
      assert (Z.land (Z.shiftl q 4) d = 0) as ->; [|apply Z.shiftl_0_l].
      rewrite <- (Z.mod_small d (2 ^ 4)) by lia. rewrite <- Z.land_ones by lia. rewrite (Z.land_comm d), Z.land_assoc, Z.land_ones by lia.
      rewrite Z.shiftl_mul_pow2, Z.mod_mul by lia. apply Z.land_0_l. }
    assert ((16 * q + d) * 2 ^ k < 2 ^ 64).
    { assert (2 ^ 64 = 2 ^ (60 - k) * (2 ^ k * 16)) as E.
      { rewrite (Z.mul_comm (2 ^ k)), (Z.mul_comm (2 ^ (60 - k))), <- Z.mul_assoc, <- Z.pow_add_r by lia. by replace (k + (60 - k)) with 60 by lia. }
      assert (q < 2 ^ (60 - k)) by nia. nia. }
    rewrite IH; [|lia|nia|by exists (16 * q + d)|done|lia]. fold k. unfold digits_of_string.
    destruct (mapM hex_to_digit (take n (drop (S index) str))) as [ds|] eqn:E; [|done]. cbn [mbind option_bind mret option_ret fmap option_fmap option_map].
    rewrite Uint128.big_endian_cons. assert (length ds = n) as Hds.
    { apply length_mapM in E. rewrite <- E, length_take, length_drop. lia. }
    rewrite Hds. replace (16 ^ Z.of_nat n) with (2 ^ k) by (unfold k; rewrite Z.pow_mul_r by lia; done). do 2 f_equal. lia.
Qed.

Lemma digits_of_string_app s t : digits_of_string (s ++ t) = a ← digits_of_string s; b ← digits_of_string t; Some (a ++ b).
Proof.
  unfold digits_of_string. induction s as [|c s IH]; cbn [app mapM]; [by destruct (mapM hex_to_digit t)|].
  destruct (hex_to_digit c); [|done]. cbn [mbind option_bind] in *. rewrite IH.
  destruct (mapM hex_to_digit s); [|done]. cbn [mbind option_bind]. by destruct (mapM hex_to_digit t).
Qed.

(** 32 hexadecimal digits are a digest, and nothing else is. *)
Lemma digest_from_string_ok str : digest_from_string str =
  Ok (if (length str =? 32)%nat then (fun ds => U128 (Uint128.big_endian 16 (take 16 ds)) (Uint128.big_endian 16 (drop 16 ds))) <$> digits_of_string str else None).
Proof.
  unfold digest_from_string. destruct (Nat.eqb_spec (length str) 32) as [Hl|]; [|done]. cbn [negb]. unfold get64.
  rewrite !(proj2 (Nat.ltb_lt _ _)) by lia. cbn [oassert obind].
  rewrite !get64_loop_ok by (done || lia || apply Z.divide_0_r). cbn [obind]. rewrite drop_0, (take_ge (drop 16 str)) by (rewrite length_drop; lia).
  pose proof (digits_of_string_app (take 16 str) (drop 16 str)) as E. rewrite take_drop in E. rewrite E. clear E.
  destruct (digits_of_string (take 16 str)) as [a|] eqn:Ea; [|done]. destruct (digits_of_string (drop 16 str)) as [b|]; [|done].
  apply length_mapM in Ea. rewrite length_take in Ea. cbn [fmap option_fmap option_map mbind option_bind obind]. 
  by rewrite take_app_length', drop_app_length' by lia.
Qed.

(** The text of a digest is read as that digest. *)
Lemma hex_digits_digits fuel shift w cs : hex_digits fuel shift w = Ok cs -> digits_of_string cs = Some (Uint128.hex_value <$> cs).
Proof.
  revert shift cs. induction fuel as [|fuel IH]; intros shift cs; cbn [hex_digits]; [case_match; [done|by intros [= <-]]|].
  destruct (shift <=? 64); [|by intros [= <-]]. set (v := Z.land _ 15).
  assert (0 <= v < 16) as Hv by (unfold v; change 15 with (Z.ones 4); rewrite Z.land_ones by lia; apply Z.mod_pos_bound; lia).
  unfold digit_to_hex. rewrite (proj2 (Z.ltb_lt _ _)) by lia. cbn [oassert obind].
  destruct (hex_digits fuel (shift + 4) w) as [rest|] eqn:E; [|done]. cbn [obind]. intros [= <-].
  unfold digits_of_string in *. cbn [mapM]. rewrite (IH _ _ E).
  assert (hex_to_digit (v + (if v <? 10 then 48 else 97 - 10)) = Some (Uint128.hex_value (v + (if v <? 10 then 48 else 97 - 10)))) as ->; [|done].
  set (P := fun v => (16 <=? v) || match hex_to_digit (v + (if v <? 10 then 48 else 97 - 10)) with
                             | Some d => d =? Uint128.hex_value (v + (if v <? 10 then 48 else 97 - 10)) | None => false end).
  assert (P v = true) as H by (apply octet_forall; [by vm_compute|lia]). unfold P in H. rewrite (proj2 (Z.leb_gt _ _)) in H by lia. cbn [orb] in H.
  destruct (hex_to_digit _); [|done]. by apply Z.eqb_eq in H as ->.
Qed.

Lemma digest_roundtrip x : u128_ok x -> exists cs, to_hex_string x = Ok cs /\ digest_from_string cs = Ok (Some x).
Proof.
  intros [Hh Hl]. destruct (hex_digits_ok 16 17 (high x)) as (h & Eh & Lh & Vh); [lia..|].
  destruct (hex_digits_ok 16 17 (low x)) as (l & El & Ll & Vl); [lia..|].
  change (68 - 4 * Z.of_nat 16) with 4 in *. unfold to_hex_string. rewrite Eh, El. cbn [obind].
  rewrite length_app, Lh, Ll. cbn [Nat.add Nat.eqb oassert obind]. exists (h ++ l). split; [done|].
  rewrite digest_from_string_ok, length_app, Lh, Ll. change (16 + 16 =? 32)%nat with true. cbv iota.
  rewrite digits_of_string_app, (hex_digits_digits _ _ _ _ Eh), (hex_digits_digits _ _ _ _ El). cbn [fmap option_fmap option_map mbind option_bind].
  rewrite take_app_length', drop_app_length' by (by rewrite length_fmap). rewrite Vh, Vl. change (16 ^ Z.of_nat 16) with (2 ^ 64).
  rewrite !Z.mod_small by lia. by destruct x.
Qed.

(** ** Lines *)

(** The lines of a text that continues a line, and what is after the last of them *)
Fixpoint split_lines (acc s : list Z) : list (list Z) * list Z :=
  match s with
  | [] => ([], acc)
  | c :: s => if c =? 10 then let r := split_lines [] s in (acc :: r.1, r.2) else split_lines (acc ++ [c]) s
  end.

Lemma split_lines_find acc s : split_lines acc s =
  match find_char 10 s with
  | None => ([], acc ++ s)
  | Some n => let r := split_lines [] (drop (n + 1) s) in ((acc ++ take n s) :: r.1, r.2)
  end.
Proof.
  revert acc. induction s as [|c s IH]; intros acc; [cbn; by rewrite app_nil_r|]. cbn [split_lines find_char].
  destruct (c =? 10); [cbn; by rewrite app_nil_r|]. rewrite IH. destruct (find_char 10 s) as [n|]; cbn; by rewrite <- app_assoc.
Qed.

Lemma find_char_lt c s n : find_char c s = Some n -> (n < length s)%nat.
Proof.
  revert n. induction s as [|x s IH]; intros n; [done|]. cbn [find_char length]. destruct (x =? c); [intros [= <-]; lia|].
  destruct (find_char c s); [|done]. intros [= <-]. specialize (IH _ eq_refl). lia.
Qed.

(** The splitter turns the text into lines. *)
Lemma ls_append_ok operation chars ls : ls_append operation chars ls =
  Ok (let r := split_lines (str_ ls) chars in mk_ls r.2 (arr_ ls ++ (operation <$> r.1))).
Proof.
  unfold ls_append. assert (length chars < S (length chars))%nat as Hf by lia. revert Hf. generalize (S (length chars)) as fuel.
  intros fuel. revert chars ls. induction fuel as [|fuel IH]; intros chars ls Hf; [lia|]. cbn [append_loop]. rewrite split_lines_find.
  destruct (find_char 10 chars) as [n|] eqn:E; [|cbn; by rewrite app_nil_r].
  apply find_char_lt in E. rewrite IH by (rewrite length_drop; lia). cbn [str_ arr_]. cbn zeta. cbn [fst snd].
  by rewrite fmap_cons, <- app_assoc.
Qed.

(** The pieces in which it arrives do not matter. *)
Lemma split_lines_app acc s t : split_lines acc (s ++ t) =
  let r1 := split_lines acc s in let r2 := split_lines r1.2 t in (r1.1 ++ r2.1, r2.2).
Proof.
  revert acc. induction s as [|c s IH]; intros acc; cbn [app split_lines]; [cbn; by destruct (split_lines acc t)|].
  destruct (c =? 10); [by rewrite IH|apply IH].
Qed.

Lemma ls_append_app operation s t ls :
  ls_append operation (s ++ t) ls = (ls' <-? ls_append operation s ls ;; ls_append operation t ls').
Proof.
  rewrite !ls_append_ok. cbn [obind]. rewrite ls_append_ok, split_lines_app. cbn zeta. cbn [str_ arr_ fst snd]. by rewrite fmap_app, app_assoc.
Qed.

(** Nothing of the text is lost, and no line has a new line in it. *)
Lemma split_lines_text acc s : 10 ∉ acc -> let r := split_lines acc s in
  (r.1 ≫= fun l => l ++ [10]) ++ r.2 = acc ++ s /\ Forall (fun l => 10 ∉ l) r.1 /\ 10 ∉ r.2.
Proof.
  revert acc. induction s as [|c s IH]; intros acc Ha; cbn [split_lines]; [cbn; rewrite app_nil_r; split_and!; [done|by constructor|done]|].
  destruct (Z.eqb_spec c 10) as [->|Hc]; cbn zeta.
  - destruct (IH [] ltac:(apply not_elem_of_nil)) as (E & Hl & Hr). cbn [fst snd] in *. split_and!; [|by constructor|done].
    change ((acc :: (split_lines [] s).1) ≫= fun l => l ++ [10]) with ((acc ++ [10]) ++ ((split_lines [] s).1 ≫= fun l => l ++ [10])).
    by rewrite <- !app_assoc, E.
  - destruct (IH (acc ++ [c])) as (E & Hl & Hr); [rewrite elem_of_app, list_elem_of_singleton; intros [?|?]; congruence|].
    rewrite E, <- app_assoc. done.
Qed.

(** A tab is replaced by the spaces up to the next multiple of its size. *)
Lemma expand_tabs_app tab_size position s t : 0 < tab_size -> expand_tabs tab_size position (s ++ t) =
  let r := expand_tabs tab_size position s in r ++ expand_tabs tab_size (position + Z.of_nat (length r)) t.
Proof.
  intros Ht. revert position. induction s as [|c s IH]; intros position; cbn [app expand_tabs]; [cbn; by rewrite Z.add_0_r|]. cbn zeta.
  pose proof (Z.mod_pos_bound position tab_size Ht). destruct (c =? 9); cbn [negb]; rewrite IH; cbn zeta.
  - rewrite length_app, length_replicate, <- app_assoc. do 3 f_equal. lia.
  - cbn [length app]. do 3 f_equal. lia.
Qed.

Lemma tab_stops tab_size s : 0 < tab_size ->
  (tab_size | Z.of_nat (length (expand_tabs tab_size 0 (s ++ [9])))) /\ 9 ∉ expand_tabs tab_size 0 s.
Proof.
  intros Ht. split.
  - rewrite expand_tabs_app by done. cbn zeta. set (r := expand_tabs tab_size 0 s). rewrite length_app. cbn [expand_tabs negb Z.eqb Pos.eqb].
    rewrite app_nil_r, length_replicate, Z.add_0_l, Nat2Z.inj_add. generalize (Z.of_nat (length r)). clear r. intros n.
    pose proof (Z.mod_pos_bound n tab_size Ht). pose proof (Z.div_mod n tab_size ltac:(lia)). exists (n / tab_size + 1). rewrite Z2Nat.id by lia. lia.
  - generalize 0 as position. induction s as [|c s IH]; intros position; cbn [expand_tabs]; [apply not_elem_of_nil|].
    destruct (Z.eqb_spec c 9) as [->|Hc]; cbn [negb].
    + rewrite elem_of_app. intros [Hr%elem_of_replicate|Hr]; [by destruct Hr|by apply IH in Hr].
    + rewrite elem_of_cons. intros [?|Hr]; [by subst|by apply IH in Hr].
Qed.

(** ** Layout *)

(** What may follow a new line in a block that is indented: nothing, an empty line, or the indentation *)
Definition line_start (ind : nat) (s : list Z) : Prop := s = [] \/ head s = Some 10 \/ replicate ind 32 `prefix_of` s.
Fixpoint indented (ind : nat) (s : list Z) : Prop :=
  match s with
  | [] => True
  | c :: s => (c = 10 -> line_start ind s) /\ indented ind s
  end.

Lemma line_start_app ind s t : line_start ind s -> line_start ind t -> line_start ind (s ++ t).
Proof.
  intros [->|[Hs|[k ->]]] Ht; [done| |].
  - right. left. by destruct s.
  - right. right. exists (k ++ t). by rewrite app_assoc.
Qed.

Lemma indented_app ind s t : indented ind s -> indented ind t -> line_start ind t -> indented ind (s ++ t).
Proof.
  intros Hs Ht Hst. induction s as [|c s IH]; [done|]. destruct Hs as [Hc Hs]. cbn [app indented]. split; [|by apply IH].
  intros E. by apply line_start_app; [apply Hc|].
Qed.

Lemma indented_line ind s t : 10 ∉ s -> indented ind t -> indented ind (s ++ t).
Proof.
  intros Hs Ht. induction s as [|c s IH]; [done|]. apply not_elem_of_cons in Hs as [Hc Hs]. cbn [app indented]. split; [by intros ->|by apply IH].
Qed.

Lemma indented_flat ind s : 10 ∉ s -> indented ind s.
Proof. intros Hs. rewrite <- (app_nil_r s). by apply indented_line. Qed.

Lemma indented_le ind ind' s : (ind <= ind')%nat -> indented ind' s -> indented ind s.
Proof.
  intros Hle. induction s as [|c s IH]; [done|]. intros [Hc Hs]. split; [|by apply IH]. intros E. destruct (Hc E) as [->|[?|[k ->]]]; [by left|by right; left|].
  right. right. exists (replicate (ind' - ind) 32 ++ k). rewrite app_assoc, <- replicate_add. by replace (ind + (ind' - ind))%nat with ind' by lia.
Qed.

Lemma indented_new_line ind s : indented ind s -> indented ind ([10] ++ replicate ind 32 ++ s).
Proof.
  intros Hs. cbn [app]. split; [intros _; right; right; by exists s|]. apply indented_line; [|done]. rewrite elem_of_replicate. by intros [? _].
Qed.

Lemma isprint_flat s : Forall (fun c => isprint c = true) s -> 10 ∉ s.
Proof. rewrite Forall_forall. intros H Hin. by specialize (H _ Hin). Qed.

(** Whatever a string has in it, it is one line. *)
Lemma write_quoted_prints v : Forall octet v -> exists s, write_quoted v = Ok s /\ 10 ∉ s.
Proof.
  intros Hv. assert (exists s, write_quoted_chars v = Ok s /\ Forall (fun c => isprint c = true) s) as (s & Hs & Hp).
  { induction Hv as [|c v Hc Hv (s & Hs & Hp)]; [by exists []|]. cbn [write_quoted_chars]. rewrite Hs.
    assert (match write_quoted_char c with Ok s => forallb isprint s | Throw _ => false end = true) as H by (revert c Hc; apply octet_forall; by vm_compute).
    destruct (write_quoted_char c) as [s1|]; [|done]. rewrite cat_ok. eexists. split; [done|]. apply Forall_app. split; [|done].
    apply Forall_forall. intros x Hx%list_elem_of_In. by apply (proj1 (forallb_forall _ _) H). }
  unfold write_quoted, put. rewrite Hs, !cat_ok. eexists. split; [done|]. apply isprint_flat.
  apply Forall_cons. split; [done|]. apply Forall_app. split; [done|by repeat constructor].
Qed.

Lemma write_string_flat v force : Forall octet v -> exists s, write_string v force = Ok s /\ 10 ∉ s.
Proof.
  intros Hv. unfold write_string. destruct (negb force && negb (should_be_quoted v)) eqn:E; [|by apply write_quoted_prints].
  apply andb_true_iff in E as [_ E]. apply negb_true_iff in E. eexists. split; [done|]. by apply isprint_flat, unquoted_prints.
Qed.

(** The lines of binary data are indented. *)
Lemma laid_out_start ind text : line_start ind (laid_out ind 0 text).
Proof. destruct text as [|c text]; [by left|]. right. right. cbn [laid_out]. cbn zeta. change (0 =? 0)%nat with true. cbv iota. by apply prefix_app_r. Qed.

Lemma laid_out_indented ind pos text : Forall (fun c => is_blank c = false) text -> indented ind (laid_out ind pos text).
Proof.
  intros Ht. revert pos. induction Ht as [|c text Hc Ht IH]; intros pos; [done|]. cbn [laid_out]. cbn zeta.
  apply indented_line; [case_match; [rewrite elem_of_replicate; by intros [? _]|apply not_elem_of_nil]|].
  apply (indented_line ind [c]); [rewrite list_elem_of_singleton; by intros <-|].
  destruct (line_width_ <=? S pos)%nat; [|by apply IH]. cbn [app indented]. split; [|by apply IH]. intros _. apply laid_out_start.
Qed.

Lemma binary_indented ind v : Forall octet v -> exists s, write_binary ind v = Ok s /\ indented ind s.
Proof.
  intros Hv. rewrite write_binary_ok by done. eexists. split; [done|]. pose proof (laid_out_indented ind 0 _ (base64_not_blank v)) as Hl.
  apply indented_app; [|done|apply laid_out_start]. cbn. split_and!; try done. intros _. by left.
Qed.

Lemma binary16_loop_indented ind n v : Forall octet v ->
  exists s, binary16_loop ind n v = Ok s /\ forall t, indented ind t -> indented ind (s ++ t).
Proof.
  intros Hv. revert n. induction Hv as [|b v Hb Hv IH]; intros n; [by exists []|]. cbn [binary16_loop].
  set (p := if _ || _ then _ else _).
  assert (p.1 = [10] ++ replicate ind 32 \/ 10 ∉ p.1) as Hp.
  { unfold p. destruct (_ || _); [by left|]. right. destruct (_ =? _)%nat; cbn [fst]; [|apply not_elem_of_nil]. by rewrite list_elem_of_singleton. }
  destruct p as [sep n']. cbn [fst] in Hp. destruct (hex_pair b Hb) as (h & l & -> & -> & Hu & Hh & Hl). cbn [obind].
  destruct (IH (S n')) as (s & -> & Hs). unfold put. rewrite cat_ok. eexists. split; [done|]. intros t Ht.
  assert (indented ind ([h; l] ++ s ++ t)).
  { apply indented_line; [|by apply Hs]. rewrite !elem_of_cons, elem_of_nil. intros [<-|[<-|[]]]; done. }
  rewrite <- !app_assoc. destruct Hp as [->|Hp]; [rewrite <- app_assoc; by apply indented_new_line|by apply indented_line].
Qed.

Lemma binary16_indented ind v : Forall octet v -> exists s, write_binary16 ind v = Ok s /\ indented ind s.
Proof.
  intros Hv. assert (exists s, match v with [] => put ([10] ++ replicate ind 32) | _ => binary16_loop ind 0 v end = Ok s /\
    forall t, indented ind t -> indented ind (s ++ t)) as (s & Hs & Hi).
  { destruct v as [|b v]; [|by apply binary16_loop_indented]. eexists. split; [done|]. intros t Ht. rewrite <- app_assoc. by apply indented_new_line. }
  unfold write_binary16, put in *. rewrite Hs, !cat_ok. eexists. split; [done|].
  apply indented_line; [apply isprint_flat; by repeat constructor|]. apply Hi. by split.
Qed.

Lemma in_base_flat base n : 2 <= base <= 16 -> 10 ∉ in_base base n.
Proof.
  intros Hb. unfold in_base. assert (10 ∉ @nil Z) as Ha by apply not_elem_of_nil. revert n Ha. generalize (@nil Z). generalize 64%nat.
  induction n as [|fuel IH]; intros acc n Ha; [done|]. cbn [digits_base].
  assert (10 ∉ digit_char (n mod base) :: acc).
  { apply not_elem_of_cons. split; [|done]. pose proof (Z.mod_pos_bound n base ltac:(lia)). pose proof (digit_char_value (n mod base) ltac:(lia)). lia. }
  case_match; [done|]. by apply IH.
Qed.

Lemma write_decimal_flat base v : base = 8 \/ base = 10 \/ base = 16 -> exists s, write_decimal base v = Ok s /\ 10 ∉ s.
Proof.
  intros Hb. unfold write_decimal, put. destruct Hb as [->|[->| ->]]; cbn [Z.eqb Pos.eqb].
  - eexists. split; [done|]. rewrite elem_of_app. intros [H|H]; [|by apply in_base_flat in H].
    case_match; [by apply elem_of_nil in H|by apply list_elem_of_singleton in H].
  - eexists. split; [done|]. case_match; [apply not_elem_of_cons; split; [done|]|]; by apply in_base_flat.
  - eexists. split; [done|]. rewrite elem_of_app, !elem_of_cons, elem_of_nil. intros [[?|[?|[]]]|H]; [done|done|by apply in_base_flat in H].
Qed.

Section layout.
Context {D : Type} (print_double : D -> list Z) (format_time : Z -> option (list Z)) (ticks_per_ms : Z).
(** The texts of the standard library are of one line. *)
Hypothesis double_flat : forall d, 10 ∉ print_double d.
Hypothesis time_flat : forall t s, format_time t = Some s -> 10 ∉ s.

Notation val := (@value D).
Notation write_value := (write_impl print_double format_time ticks_per_ms).

Lemma value_nested_ind (P : val -> Prop) :
  (forall v, match v with array _ | object _ _ => True | _ => P v end) ->
  (forall values, Forall P values -> P (array values)) ->
  (forall members compact, Forall (fun m => P m.2) members -> P (object members compact)) ->
  forall v, P v.
Proof.
  intros Hleaf Harr Hobj. fix IH 1. intros v. pose proof (Hleaf v) as H. destruct v; try exact H.
  - apply Harr. induction values; constructor; [apply IH|done].
  - apply Hobj. induction members; constructor; [apply IH|done].
Qed.

(** A value that is written on one line *)
Fixpoint flat (v : val) : bool :=
  match v with
  | binary _ | binary16 _ => false
  | array values => (length values =? 0)%nat || is_number_array values
  | object members compact => (compact || (length members =? 0)%nat) && forallb (fun m => flat m.2) members
  | _ => true
  end.

(** The values whose text can be produced: bases are those of the class, times are in the range of the clock, text is octets,
    and a compact object has members of one line. *)
Fixpoint writable (v : val) : Prop :=
  match v with
  | number_long _ base | number_ulong _ base => base = 8 \/ base = 10 \/ base = 16
  | string_value v _ | binary v | binary16 v => Forall octet v
  | time ms => exists t, milliseconds_to_time ticks_per_ms ms = Ok t
  | array values => foldr (fun v P => writable v /\ P) True values
  | object members compact =>
      foldr (fun m P => (Forall octet m.1 /\ writable m.2 /\ (compact = true -> flat m.2 = true)) /\ P) True members
  | _ => True
  end.

Lemma foldr_and {A} (Q : A -> Prop) l : foldr (fun x P => Q x /\ P) True l <-> Forall Q l.
Proof. induction l as [|x l IH]; cbn; [by rewrite Forall_nil|]. by rewrite Forall_cons, IH. Qed.

Definition laid (ind : nat) (flat : bool) (r : outcome (list Z)) : Prop :=
  exists s, r = Ok s /\ indented ind s /\ (flat = true -> 10 ∉ s).

Lemma laid_flat ind b r : (exists s, r = Ok s /\ 10 ∉ s) -> laid ind b r.
Proof. intros (s & -> & Hs). exists s. split_and!; [done|by apply indented_flat|done]. Qed.

Lemma laid_indented ind r : (exists s, r = Ok s /\ indented ind s) -> laid ind false r.
Proof. intros (s & -> & Hs). by exists s. Qed.

(** Texts of one line with separators of one line *)
Lemma write_each_flat {A} next (f : A -> outcome (list Z)) sep l : 10 ∉ next -> 10 ∉ sep ->
  Forall (fun x => exists s, f x = Ok s /\ 10 ∉ s) l -> exists s, write_each next f sep l = Ok s /\ 10 ∉ s.
Proof.
  intros Hn Hsep Hl. revert sep Hsep. induction Hl as [|x l (s & Hs & H10) Hl IH]; intros sep Hsep; [exists []; split; [done|apply not_elem_of_nil]|].
  destruct (IH next Hn) as (r & Hr & Hr10). cbn [write_each]. unfold put. unfold write_each in *. rewrite Hs, Hr, !cat_ok. eexists. split; [done|]. rewrite !elem_of_app. tauto.
Qed.

(** Blocks that each begin on a new line *)
Lemma write_each_indented {A} ind next (f : A -> outcome (list Z)) l : head next = Some 10 ->
  Forall (fun x => exists s, f x = Ok s /\ indented ind (next ++ s)) l ->
  exists s, write_each next f next l = Ok s /\ indented ind s /\ line_start ind s.
Proof.
  intros Hn. induction 1 as [|x l (s & Hs & Hi) Hl (r & Hr & Hri & Hrs)]; [exists []; split_and!; [done|done|by left]|].
  cbn [write_each]. unfold put. unfold write_each in *. rewrite Hs, Hr, !cat_ok. eexists. split; [done|].
  rewrite app_assoc. split; [by apply indented_app|]. right. left. by destruct next.
Qed.

Lemma longest_property_ok {V} (members : list (list Z * V)) k : Forall (fun m => Forall octet m.1) members ->
  exists n, longest_property members k = Ok n.
Proof.
  intros Hm. revert k. induction Hm as [|m ms Hm Hms IH]; intros k; cbn [longest_property]; [by eexists|].
  unfold property_length, write_property. destruct (write_string_flat m.1 (has_colon_space m.1) Hm) as (s & -> & _). cbn [obind]. apply IH.
Qed.

Definition value_laid (v : val) : Prop := forall ind, writable v -> laid ind (flat v) (write_value ind v).

Lemma number_flat v : is_number_like v = true -> flat v = true.
Proof. by destruct v. Qed.

Lemma array_laid values : Forall value_laid values -> value_laid (array values).
Proof.
  intros IH ind Hw. cbn [writable] in Hw. apply foldr_and in Hw. pose proof (List.Forall_and IH Hw) as H. clear IH Hw.
  cbn [write_impl flat]. destruct ((length values =? 0)%nat || is_number_array values) eqn:E.
  - apply laid_flat. destruct (write_each_flat [44; 32] (write_value 0) [32] values) as (s & -> & Hs).
    { by rewrite !elem_of_cons, elem_of_nil; intros [?|[?|[]]]. }
    { by rewrite list_elem_of_singleton. }
    { apply Forall_forall. intros v Hv. rewrite Forall_forall in H. destruct (H v Hv) as [Hv1 Hv2].
      destruct (Hv1 0%nat Hv2) as (s & -> & _ & Hs). exists s. split; [done|]. apply Hs, number_flat. apply orb_true_iff in E as [E|E].
      - apply Nat.eqb_eq, length_zero_iff_nil in E. subst. by apply elem_of_nil in Hv.
      - apply (proj1 (forallb_forall _ _) E). by apply list_elem_of_In. }
    unfold put. rewrite !cat_ok. eexists. split; [done|]. rewrite !elem_of_app, !elem_of_cons, !elem_of_nil. intuition lia.
  - apply laid_indented. apply orb_false_iff in E as [E _].
    set (f := fun v => put (replicate ind 32 ++ [45; 32]) +++ write_value (ind + if is_object v then 2 else 4) v).
    destruct (write_each_indented ind [10] f values) as (s & Hs & Hi & _); [done| |].
    { eapply Forall_impl; [done|]. cbn beta. intros v [Hv1 Hv2]. set (k := if is_object v then 2%nat else 4%nat).
      destruct (Hv1 (ind + k)%nat Hv2) as (s & Hs & Hi & _). unfold f. fold k. rewrite Hs. unfold put. rewrite cat_ok. eexists. split; [done|].
      rewrite <- app_assoc. apply indented_new_line, indented_line; [by rewrite !elem_of_cons, elem_of_nil; intros [?|[?|[]]]|].
      apply (indented_le _ (ind + k)); [lia|done]. }
    destruct values as [|v values]; [done|]. exists s. split; [|done]. rewrite <- Hs. cbn [write_each]. unfold put.
    destruct (f v); [|done]. cbn [cat obind app]. by destruct (write_each _ _ _ values).
Qed.

Lemma property_flat p : Forall octet p -> exists s, write_property p = Ok s /\ 10 ∉ s.
Proof. apply write_string_flat. Qed.

Lemma spaces_flat n : 10 ∉ replicate n 32.
Proof. rewrite elem_of_replicate. by intros [? _]. Qed.

Lemma object_laid members compact : Forall (fun m => value_laid m.2) members -> value_laid (object members compact).
Proof.
  intros IH ind Hw. cbn [writable] in Hw. apply foldr_and in Hw. pose proof (List.Forall_and IH Hw) as H. clear IH.
  cbn [write_impl flat]. destruct (compact || (length members =? 0)%nat) eqn:E; cbn [andb].
  - apply laid_flat. set (f := fun '(p, v) => _). destruct (write_each_flat [44; 32] f [32] members) as (s & -> & Hs).
    { by rewrite !elem_of_cons, elem_of_nil; intros [?|[?|[]]]. }
    { by rewrite list_elem_of_singleton. }
    { apply orb_true_iff in E as [E|E]; [|by apply Nat.eqb_eq, length_zero_iff_nil in E as ->]. subst compact.
      eapply Forall_impl; [exact H|]. intros [p v] [Hv (Hp & Hwv & Hfl)]. cbn [fst snd] in *. unfold f.
      destruct (property_flat p Hp) as (key & -> & Hk). destruct (Hv 0%nat Hwv) as (s & -> & _ & Hs). unfold put. rewrite !cat_ok.
      eexists. split; [done|]. specialize (Hs (Hfl eq_refl)). rewrite !elem_of_app, !elem_of_cons, !elem_of_nil. intuition lia. }
    unfold put. rewrite !cat_ok. eexists. split; [done|]. rewrite !elem_of_app, !elem_of_cons, !elem_of_nil. intuition lia.
  - apply laid_indented. destruct (longest_property_ok members 0) as (longest & ->).
    { eapply Forall_impl; [exact Hw|]. by intros m (? & _). }
    cbn [obind]. set (f := fun '(p, v) => _).
    assert (Forall (fun m => exists s, f m = Ok s /\ indented ind s) members) as Hf.
    { eapply Forall_impl; [exact H|]. intros [p v] [Hv (Hp & Hwv & _)]. cbn [fst snd] in *. unfold f.
      destruct (property_flat p Hp) as (key & -> & Hk). destruct (Hv (ind + 4)%nat Hwv) as (s & -> & Hs & _). unfold put. cbn [obind]. rewrite !cat_ok.
      eexists. split; [done|]. rewrite <- !app_assoc. apply indented_line; [done|]. apply indented_line; [apply spaces_flat|].
      apply (indented_line _ [58; 32]); [by rewrite !elem_of_cons, elem_of_nil; intros [?|[?|[]]]|]. apply (indented_le _ (ind + 4)); [lia|].
      case_match; [rewrite <- app_assoc; by apply indented_new_line|done]. }
    destruct members as [|m members]; [by apply orb_false_iff in E as [_ ?]|]. apply Forall_cons in Hf as [(s0 & Hs0 & Hi0) Hf].
    destruct (write_each_indented ind ([10] ++ replicate ind 32) f members) as (s & Hs & Hi & Hst); [done| |].
    { eapply Forall_impl; [exact Hf|]. intros m' (s' & -> & Hi'). exists s'. split; [done|]. rewrite <- app_assoc. by apply indented_new_line. }
    cbn [write_each]. unfold put. unfold write_each in *. rewrite Hs0, Hs, !cat_ok. eexists. split; [done|]. cbn [app]. by apply indented_app.
Qed.

(** The text of a value is indented: every line of it but the first is empty or begins with the spaces that it was asked to begin
    with, and values that are meant to be of one line are. *)
Lemma value_layout v : value_laid v.
Proof using double_flat time_flat.
  revert v. apply value_nested_ind; [|by apply array_laid|by apply object_laid]. intros v.
  destruct v; try done; intros ind Hw; cbn [writable write_impl flat] in *.
  - apply laid_flat. by eexists.
  - by apply laid_flat, write_decimal_flat.
  - by apply laid_flat, write_decimal_flat.
  - apply laid_flat. eexists. split; [done|]. apply isprint_flat. by destruct v; repeat constructor.
  - apply laid_flat. eexists. split; [done|]. apply isprint_flat. by repeat constructor.
  - by apply laid_flat, write_string_flat.
  - by apply laid_indented, binary_indented.
  - by apply laid_indented, binary16_indented.
  - apply laid_flat. destruct Hw as [t Ht]. unfold write_time. rewrite Ht. cbn [obind]. destruct (format_time t) as [s|] eqn:E; [by exists s; split; [|eapply time_flat]|].
    eexists. split; [done|]. rewrite !elem_of_app. intros [H|[H|H]].
    + revert H. apply isprint_flat. by repeat constructor.
    + by apply in_base_flat in H.
    + revert H. apply isprint_flat. by repeat constructor.
Qed.
End layout.

(** The colons of an object are in one column. *)
Lemma longest_property_max {V} (members : list (list Z * V)) k longest : longest_property members k = Ok longest ->
  (k <= longest)%nat /\ Forall (fun m => forall key, write_property m.1 = Ok key -> (length key <= longest)%nat) members.
Proof.
  revert k. induction members as [|m ms IH]; intros k; cbn [longest_property]; [intros [= ->]; by split|].
  unfold property_length. destruct (write_property m.1) as [s|] eqn:E; [|done]. cbn [obind]. intros H. destruct (IH _ H) as [Hk Hms].
  split; [lia|]. constructor; [|done]. intros key Hkey. assert (key = s) as -> by congruence. lia.
Qed.

Lemma keys_aligned {V} (members : list (list Z * V)) longest : longest_property members 0 = Ok longest ->
  Forall (fun m => forall key, write_property m.1 = Ok key -> length (key ++ replicate (longest - length key + 1) 32) = (longest + 1)%nat) members.
Proof.
  intros H. destruct (longest_property_max _ _ _ H) as [_ Hm]. eapply Forall_impl; [exact Hm|]. intros m Hlen key Hkey.
  specialize (Hlen key Hkey). rewrite length_app, length_replicate. lia.
Qed.
