(* ===== verification/Uuid.v ===== *)
(** * Universally unique identifiers

    Models lib/core/uuid.cpp and include/pstore/core/uuid.hpp: the generation of random
    identifiers, their textual form and its parser. Every database file carries such an
    identifier in its header. *)

From S2P Require Import Prelude BitCount Uint128.

Section uuid.

(** [uuid::elements] and [uuid::string_length] *)
Definition elements : nat := 16.
Definition string_length : nat := elements * 2 + 4.

(** The octets that hold the version and the variant *)
Definition version_octet : nat := 6.
Definition variant_octet : nat := 8.

(** [uuid::variant_type] and [uuid::version_type] *)
Inductive variant_type := ncs | rfc_4122 | microsoft | future.
Inductive version_type :=
  time_based | dce_security | name_based_md5 | random_number_based | name_based_sha1 | unknown.

#[global] Instance variant_type_eq_dec : EqDecision variant_type.
Proof. solve_decision. Defined.
#[global] Instance version_type_eq_dec : EqDecision version_type.
Proof. solve_decision. Defined.

(** A [uuid] is its array of 16 octets; an access outside the array is undefined. *)
Definition octet_at (data : list Z) (i : nat) : outcome Z :=
  match data !! i with Some o => Ok o | None => Throw Undefined end.

(** [uuid::variant] *)
Definition variant (data : list Z) : outcome variant_type :=
  octet <-? octet_at data variant_octet ;;
  if Z.land octet 128 =? 0 then Ok ncs
  else if Z.land octet 192 =? 128 then Ok rfc_4122
  else if Z.land octet 224 =? 192 then Ok microsoft
  else _ <-? oassert (Z.land octet 224 =? 224) ;; Ok future.

(** [uuid::version] *)
Definition version (data : list Z) : outcome version_type :=
  octet <-? octet_at data version_octet ;;
  Ok (match Z.land octet 240 with
      | 16 => time_based
      | 32 => dce_security
      | 48 => name_based_md5
      | 64 => random_number_based
      | 80 => name_based_sha1
      | _ => unknown
      end).

(** The default constructor; [data] is what the random generator produced. *)
Definition uuid_random (data : list Z) : outcome (list Z) :=
  o <-? octet_at data variant_octet ;;
  let data := <[variant_octet := Z.lor (Z.land o 191) 128]> data in
  o <-? octet_at data version_octet ;;
  let data := <[version_octet := Z.lor (Z.land o 79) (Z.shiftl 4 4)]> data in
  va <-? variant data ;;
  _ <-? oassert (bool_decide (va = rfc_4122)) ;;
  ve <-? version data ;;
  _ <-? oassert (bool_decide (ve = random_number_based)) ;;
  Ok data.

(** [uuid::is_null] *)
Definition is_null (data : list Z) : bool := forallb (Z.eqb 0) data.

(** [uuid::str]: the octets from number [index] on *)
Fixpoint str_loop (index : nat) (data : list Z) : outcome (list Z) :=
  match data with
  | [] => Ok []
  | c :: data =>
      h <-? digit_to_hex (Z.land (Z.shiftr c 4) 15) ;;
      l <-? digit_to_hex (Z.land c 15) ;;
      rest <-? str_loop (S index) data ;;
      let hyphen := if (index =? 4)%nat || (index =? 6)%nat || (index =? 8)%nat || (index =? 10)%nat then [45] else [] in
      Ok (hyphen ++ h :: l :: rest)
  end.

Definition str (data : list Z) : outcome (list Z) :=
  resl <-? str_loop 0 data ;;
  _ <-? oassert (length resl =? string_length)%nat ;;
  Ok resl.

(** [hex_decoder]: the array it writes to, the position of its output iterator, and whether
    the next digit is the high one of its octet *)
Record hex_decoder := mk_hex_decoder { data_ : list Z; out_ : nat; is_high_ : bool }.

(** [hex_decoder::append] *)
Definition append (d : hex_decoder) (value : Z) : outcome hex_decoder :=
  _ <-? oassert (value <? 16) ;;
  o <-? octet_at (data_ d) (out_ d) ;;
  Ok (if is_high_ d
      then mk_hex_decoder (<[out_ d := wrap 8 (Z.shiftl value 4)]> (data_ d)) (out_ d) (negb (is_high_ d))
      else mk_hex_decoder (<[out_ d := Z.lor o value]> (data_ d)) (S (out_ d)) (negb (is_high_ d))).

(** The loop of [uuid::from_string]; [None] is the early [return nothing<uuid> ()]. *)
Fixpoint from_string_loop (count : nat) (s : list Z) (out : hex_decoder) : outcome (option hex_decoder) :=
  match s with
  | [] => Ok (Some out)
  | digit :: s =>
      match count with
      | 8%nat | 13%nat | 18%nat | 23%nat =>
          if negb (digit =? 45) then Ok None
          else _ <-? oassert (is_high_ out) ;; from_string_loop (S count) s out
      | _ =>
          if (digit >=? 97) && (digit <=? 102) then
            out <-? append out (digit - (97 - 10)) ;; from_string_loop (S count) s out
          else if (digit >=? 65) && (digit <=? 70) then
            out <-? append out (digit - (65 - 10)) ;; from_string_loop (S count) s out
          else if (digit >=? 48) && (digit <=? 57) then
            out <-? append out (digit - 48) ;; from_string_loop (S count) s out
          else Ok None
      end
  end.

(** [uuid::from_string]; [data] is what the uninitialised array happens to hold. *)
Definition from_string (data : list Z) (s : list Z) : outcome (option (list Z)) :=
  if negb (length s =? string_length)%nat then Ok None
  else
    r <-? from_string_loop 0 s (mk_hex_decoder data 0 true) ;;
    Ok (data_ <$> r).

(** The constructor from a string *)
Definition uuid_of_string (data : list Z) (s : list Z) : outcome (list Z) :=
  d <-? from_string data s ;;
  match d with
  | None => Throw (Raise uuid_parse_error)
  | Some u => Ok u
  end.

(** ** The textual form *)

Definition is_octet (o : Z) : Prop := 0 <= o < 256.

(** What the three ranges of [from_string] make of a character *)
Definition hex_digit (c : Z) : option Z :=
  if (c >=? 97) && (c <=? 102) then Some (c - (97 - 10))
  else if (c >=? 65) && (c <=? 70) then Some (c - (65 - 10))
  else if (c >=? 48) && (c <=? 57) then Some (c - 48)
  else None.

(** The lower-case form of a hexadecimal digit *)
Definition lower (c : Z) : Z := if (c >=? 65) && (c <=? 70) then c + 32 else c.

Definition is_hyphen (count : nat) : bool := bool_decide (count ∈ [8; 13; 18; 23]%nat).

(** An octet preceded by a hyphen, and the place where the text of octet [i] starts *)
Definition hyphenated (i : nat) : bool := (i =? 4)%nat || (i =? 6)%nat || (i =? 8)%nat || (i =? 10)%nat.
Definition place (i : nat) : nat :=
  (2 * i + Nat.b2n (4 <? i) + Nat.b2n (6 <? i) + Nat.b2n (8 <? i) + Nat.b2n (10 <? i))%nat.

Lemma hex_digit_range c v : hex_digit c = Some v -> 0 <= v < 16.
Proof. unfold hex_digit. repeat case_match; intros [= <-]; lia. Qed.

Lemma hex_digit_lower c v : 0 <= v < 16 -> hex_digit c = Some v <-> digit_to_hex v = Ok (lower c).
Proof.
  intros Hv. unfold hex_digit, digit_to_hex, lower. rewrite (proj2 (Z.ltb_lt v 16)) by lia. cbn [oassert obind].
  split.
  - intros H. f_equal. repeat case_match; simplify_eq; lia.
  - intros [= H]. repeat case_match; try (f_equal; lia); lia.
Qed.

Lemma lower_hyphen c : lower c = 45 <-> c = 45.
Proof. unfold lower. case_match; lia. Qed.

Lemma lower_cons_inv x l s : x :: l = lower <$> s -> exists y s', s = y :: s' /\ x = lower y /\ l = lower <$> s'.
Proof. destruct s as [|y s']; [done|]. intros [= -> ->]. by exists y, s'. Qed.

Lemma from_string_loop_cons count digit s out :
  from_string_loop count (digit :: s) out =
  if is_hyphen count then
    if negb (digit =? 45) then Ok None
    else _ <-? oassert (is_high_ out) ;; from_string_loop (S count) s out
  else match hex_digit digit with
       | Some v => out <-? append out v ;; from_string_loop (S count) s out
       | None => Ok None
       end.
Proof.
  unfold hex_digit. do 24 (destruct count as [|count]; [cbn; repeat case_match; done|]).
  cbn [from_string_loop]. unfold is_hyphen. rewrite bool_decide_false; [repeat case_match; done|].
  rewrite !elem_of_cons, elem_of_nil. lia.
Qed.

(** The facts on the fixed layout of the text, by inspection of the 16 octets *)
Lemma layout i : (i < 16)%nat ->
  (hyphenated i = true -> is_hyphen (place i) = true) /\
  is_hyphen (place i + Nat.b2n (hyphenated i)) = false /\
  is_hyphen (place i + Nat.b2n (hyphenated i) + 1) = false /\
  (place (S i) = place i + Nat.b2n (hyphenated i) + 2)%nat.
Proof. intros Hi. do 16 (destruct i as [|i]; [by vm_compute|]). lia. Qed.

(** Both digits of an octet *)
Lemma two_digits count a b s data out :
  is_hyphen count = false -> is_hyphen (count + 1) = false -> (out < length data)%nat ->
  from_string_loop count (a :: b :: s) (mk_hex_decoder data out true) =
  match hex_digit a, hex_digit b with
  | Some h, Some l => from_string_loop (count + 2) s (mk_hex_decoder (<[out := 16 * h + l]> data) (S out) true)
  | _, _ => Ok None
  end.
Proof.
  intros H1 H2 Hout. rewrite from_string_loop_cons, H1. destruct (hex_digit a) as [h|] eqn:Ea; [|done].
  apply hex_digit_range in Ea. destruct (lookup_lt_is_Some_2 _ _ Hout) as [o Ho].
  unfold append at 1, octet_at. cbn [data_ out_ is_high_]. rewrite Ho, (proj2 (Z.ltb_lt _ _)) by lia. cbn [oassert obind negb].
  rewrite from_string_loop_cons. replace (S count) with (count + 1)%nat by lia. rewrite H2.
  destruct (hex_digit b) as [l|] eqn:Eb; [|done]. apply hex_digit_range in Eb.
  unfold append, octet_at. cbn [data_ out_ is_high_]. rewrite list_lookup_insert_eq, (proj2 (Z.ltb_lt _ _)) by lia.
  cbn [oassert obind negb]. rewrite list_insert_insert_eq. replace (S (count + 1)) with (count + 2)%nat by lia.
  do 3 f_equal. rewrite Z.shiftl_mul_pow2, wrap_small, (lor_add 4) by (lia || apply Z.divide_factor_r). lia.
Qed.

(** The octets [u] from number [i] on are spelled [s], letters in either case. *)
Definition spells (i : nat) (s u : list Z) : Prop := str_loop i u = Ok (lower <$> s).

Lemma octet_split c : is_octet c -> c = 16 * Z.land (Z.shiftr c 4) 15 + Z.land c 15 /\
  0 <= Z.land (Z.shiftr c 4) 15 < 16 /\ 0 <= Z.land c 15 < 16.
Proof.
  intros Hc. pose proof (octet_forall (fun c => (c =? 16 * Z.land (Z.shiftr c 4) 15 + Z.land c 15) &&
    (Z.land (Z.shiftr c 4) 15 <? 16) && (Z.land c 15 <? 16)) eq_refl c Hc) as H.
  rewrite !andb_true_iff, Z.eqb_eq, !Z.ltb_lt in H.
  assert (forall a, 0 <= Z.land a 15) as Hpos by (intros a; apply Z.land_nonneg; lia).
  pose proof (Hpos (Z.shiftr c 4)). pose proof (Hpos c). lia.
Qed.

Lemma spells_cons i s c u : is_octet c ->
  spells i s (c :: u) <-> exists a b s' h l,
    s = (if hyphenated i then [45] else []) ++ a :: b :: s' /\
    hex_digit a = Some h /\ hex_digit b = Some l /\ c = 16 * h + l /\ spells (S i) s' u.
Proof.
  intros Hc. destruct (octet_split c Hc) as (Ec & Hh & Hl). unfold spells. cbn [str_loop]. fold (hyphenated i).
  set (h0 := Z.land (Z.shiftr c 4) 15) in *. set (l0 := Z.land c 15) in *. split.
  - destruct (digit_to_hex_ok h0 Hh) as (ch & Eh & _), (digit_to_hex_ok l0 Hl) as (cl & El & _).
    rewrite Eh, El. cbn [obind]. destruct (str_loop (S i) u) as [rest|]; [|done]. cbn [obind]. intros [= E].
    assert (exists t, s = (if hyphenated i then [45] else []) ++ t /\ ch :: cl :: rest = lower <$> t) as (t & -> & Et).
    { destruct (hyphenated i); [|by exists s]. apply lower_cons_inv in E as (y & t & -> & E1 & E).
      symmetry in E1. apply lower_hyphen in E1 as ->. by exists t. }
    apply lower_cons_inv in Et as (a & t' & -> & -> & Et). apply lower_cons_inv in Et as (b & s' & -> & -> & ->).
    exists a, b, s', h0, l0. split_and!; [done|by apply hex_digit_lower|by apply hex_digit_lower|done|done].
  - intros (a & b & s' & h & l & -> & Ha & Hb & E & Hs). pose proof (hex_digit_range _ _ Ha). pose proof (hex_digit_range _ _ Hb).
    assert (h = h0) as -> by lia. assert (l = l0) as -> by lia. apply hex_digit_lower in Ha, Hb; [|done..].
    rewrite Ha, Hb, Hs. cbn [obind]. rewrite fmap_app. by destruct (hyphenated i).
Qed.

Lemma spells_inj i s u u' : Forall is_octet u -> Forall is_octet u' -> length u = length u' ->
  spells i s u -> spells i s u' -> u = u'.
Proof.
  intros Hf. revert i s u'. induction Hf as [|c u Hc Hf IH]; intros i s u' Hf' Hl Hs Hs'.
  - by destruct u'.
  - destruct u' as [|c' u']; [done|]. apply Forall_cons in Hf' as [Hc' Hf'].
    apply spells_cons in Hs as (a & b & s1 & h & l & -> & Ha & Hb & -> & Hs1); [|done].
    apply spells_cons in Hs' as (a' & b' & s2 & h' & l' & E & Ha' & Hb' & -> & Hs2); [|done].
    apply app_inv_head in E. simplify_eq. f_equal. by apply (IH (S i) s2).
Qed.

(** The hyphen before an octet, where there is one *)
Definition prefix (i : nat) : list Z := if hyphenated i then [45] else [].

Lemma hyphen_step i s data : (i < 16)%nat -> (place i + length s = 36)%nat ->
  from_string_loop (place i) s (mk_hex_decoder data i true) = Ok None /\ (forall t, s <> prefix i ++ t) \/
  exists a b t, s = prefix i ++ a :: b :: t /\ (place (S i) + length t = 36)%nat /\
    from_string_loop (place i) s (mk_hex_decoder data i true) =
    from_string_loop (place i + Nat.b2n (hyphenated i)) (a :: b :: t) (mk_hex_decoder data i true).
Proof.
  intros Hi Hs. destruct (layout i Hi) as (Hy & _ & _ & Hp).
  assert (place (S i) <= 36)%nat as Hroom by (do 16 (destruct i as [|i]; [vm_compute; lia|]); lia).
  unfold prefix. destruct (hyphenated i); simpl Nat.b2n in *.
  - destruct s as [|y s]; [simpl in Hs; lia|]. rewrite from_string_loop_cons, (Hy eq_refl).
    destruct (Z.eqb_spec y 45) as [->|]; cbn [negb]; [|left; naive_solver]. right. simpl in Hs.
    destruct s as [|a [|b t]]; [simpl in Hs; lia..|]. exists a, b, t. split; [done|]. split; [simpl in Hs; lia|].
    by rewrite Nat.add_1_r.
  - right. destruct s as [|a [|b t]]; [simpl in Hs; lia..|]. exists a, b, t. split; [done|]. split; [simpl in Hs; lia|].
    by rewrite Nat.add_0_r.
Qed.

Lemma from_string_loop_ok k : forall i s data, (i + k = 16)%nat -> length data = 16%nat ->
  (place i + length s = 36)%nat ->
  exists r, from_string_loop (place i) s (mk_hex_decoder data i true) = Ok r /\
    (forall d, r = Some d -> exists u, d = mk_hex_decoder (take i data ++ u) 16 true /\
      length u = k /\ Forall is_octet u /\ spells i s u) /\
    (forall u, length u = k -> Forall is_octet u -> spells i s u -> is_Some r).
Proof.
  induction k as [|k IH]; intros i s data Hi Hd Hs.
  { assert (i = 16%nat) as -> by lia. destruct s; [|simpl in Hs; lia]. eexists. split; [done|].
    split; [|by eauto]. intros d [= <-]. exists []. split_and!; [|done..]. by rewrite app_nil_r, take_ge by lia. }
  assert (forall u, length u = S k -> Forall is_octet u -> spells i s u -> exists a b s' h l u',
    s = prefix i ++ a :: b :: s' /\ hex_digit a = Some h /\ hex_digit b = Some l /\ length u' = k /\
    Forall is_octet u' /\ spells (S i) s' u') as Hinv.
  { intros [|c u] Hu Hf Hsp; [done|]. apply Forall_cons in Hf as [Hc Hf]. injection Hu as Hu.
    apply spells_cons in Hsp as (a & b & s' & h & l & ? & ? & ? & _ & ?); [|done]. by exists a, b, s', h, l, u. }
  destruct (layout i ltac:(lia)) as (_ & Hn1 & Hn2 & Hp).
  destruct (hyphen_step i s data ltac:(lia) Hs) as [[-> Hno]|(a & b & t & -> & Ht & ->)].
  { eexists. split; [done|]. split; [done|]. intros u Hu Hf Hsp.
    destruct (Hinv u Hu Hf Hsp) as (? & ? & ? & ? & ? & ? & E & _). by apply Hno in E. }
  rewrite two_digits by (done || lia).
  destruct (hex_digit a) as [h|] eqn:Ea, (hex_digit b) as [l|] eqn:Eb.
  2-4: eexists; split; [done|]; split; [done|]; intros u Hu Hf Hsp;
    destruct (Hinv u Hu Hf Hsp) as (? & ? & ? & ? & ? & ? & E & ? & ? & _); apply app_inv_head in E; by simplify_eq.
  pose proof (hex_digit_range _ _ Ea). pose proof (hex_digit_range _ _ Eb).
  destruct (IH (S i) t (<[i := 16 * h + l]> data)) as (r & E & Hr1 & Hr2);
    [lia|by rewrite length_insert|exact Ht|]. rewrite Hp in E. exists r. split; [exact E|]. split.
  - intros d Hr. destruct (Hr1 d Hr) as (u & -> & Hu & Hf & Hsp). exists ((16 * h + l) :: u).
    assert (is_octet (16 * h + l)) by (unfold is_octet; lia).
    split_and!; [|simpl; lia|by constructor|].
    + f_equal. rewrite (take_S_r _ i (16 * h + l)) by (rewrite list_lookup_insert_eq; [done|lia]).
      rewrite take_insert_ge by lia. by rewrite <- app_assoc.
    + apply spells_cons; [done|]. by exists a, b, t, h, l.
  - intros u Hu Hf Hsp. destruct (Hinv u Hu Hf Hsp) as (? & ? & ? & ? & ? & u' & E' & ? & ? & ? & ? & ?).
    apply app_inv_head in E'. simplify_eq. by apply (Hr2 u').
Qed.

(** A [uuid] object: 16 octets *)
Definition uuid_ok (u : list Z) : Prop := length u = elements /\ Forall is_octet u.

Lemma str_loop_ok i u : Forall is_octet u -> (i + length u = 16)%nat ->
  exists s, str_loop i u = Ok s /\ (place i + length s = 36)%nat /\ lower <$> s = s.
Proof.
  intros Hf. revert i. induction Hf as [|c u Hc Hf IH]; intros i Hi; cbn [str_loop].
  { exists []. split; [done|]. simpl in Hi. replace i with 16%nat by lia. done. }
  simpl in Hi. destruct (octet_split c Hc) as (_ & Hh & Hl). destruct (layout i ltac:(lia)) as (_ & _ & _ & Hp).
  assert (forall v, 0 <= v < 16 -> exists x, digit_to_hex v = Ok x /\ lower x = x) as Hd.
  { intros v Hv. unfold digit_to_hex, lower. rewrite (proj2 (Z.ltb_lt _ _)) by lia. eexists. split; [done|].
    repeat case_match; lia. }
  destruct (Hd _ Hh) as (xh & -> & Eh), (Hd _ Hl) as (xl & -> & El), (IH (S i) ltac:(lia)) as (s & -> & Hlen & Es).
  cbn [obind]. fold (hyphenated i). fold (prefix i). eexists. split; [done|]. rewrite length_app, fmap_app. split.
  - unfold prefix. destruct (hyphenated i); cbn [length Nat.b2n] in *; lia.
  - unfold prefix. destruct (hyphenated i); cbn; by rewrite ?Eh, ?El, Es.
Qed.

(** The parser accepts exactly the spellings of the printer, and inverts it. *)
Lemma from_string_ok junk s : length junk = elements ->
  exists r, from_string junk s = Ok r /\ (forall u, r = Some u -> uuid_ok u) /\
    (forall u, uuid_ok u -> r = Some u <-> str u = Ok (lower <$> s)).
Proof.
  intros Hj. unfold from_string, str. destruct (Nat.eqb_spec (length s) string_length) as [Hl|Hl]; cbn [negb].
  - destruct (from_string_loop_ok 16 0 s junk eq_refl Hj) as (r & E & H1 & H2); [exact Hl|].
    change (place 0) with 0%nat in E. rewrite E. cbn [obind]. clear E.
    assert (forall u, uuid_ok u -> (spells 0 s u <-> str u = Ok (lower <$> s))) as Hsp.
    { intros u [Hu Hf]. unfold str, spells. destruct (str_loop_ok 0 u Hf) as (t & -> & Ht & _); [by rewrite Hu|].
      cbn [obind]. by rewrite (proj2 (Nat.eqb_eq _ _)) by exact Ht. }
    eexists. split; [done|]. split.
    + intros u Hu. destruct r as [d|]; [|done]. destruct (H1 d eq_refl) as (u' & -> & Hu' & Hf & _).
      by injection Hu as <-.
    + intros u Hu. fold (str u). rewrite <- Hsp by done. split.
      * intros E. destruct r as [d|]; [|done]. destruct (H1 d eq_refl) as (u' & -> & _ & _ & Hs'). by injection E as <-.
      * intros Hs. destruct Hu as [Hu Hf]. destruct (H2 u Hu Hf Hs) as [d ->].
        destruct (H1 d eq_refl) as (u' & -> & Hu' & Hf' & Hs'). cbn. f_equal.
        apply (spells_inj 0 s); [done..|exact (eq_trans Hu' (eq_sym Hu))|done|done].
  - eexists. split; [done|]. split; [done|]. intros u [Hu Hf]. split; [done|].
    destruct (str_loop_ok 0 u Hf) as (t & -> & Ht & _); [by rewrite Hu|]. cbn [obind oassert].
    rewrite (proj2 (Nat.eqb_eq _ _)) by exact Ht. cbn [oassert obind]. intros [= ->]. by rewrite length_fmap in Ht.
Qed.

(** ** Generation *)

Lemma uuid_random_ok data : uuid_ok data -> exists u, uuid_random data = Ok u /\ uuid_ok u /\
  variant u = Ok rfc_4122 /\ version u = Ok random_number_based /\
  (forall i, i <> variant_octet -> i <> version_octet -> u !! i = data !! i).
Proof.
  intros [Hl Hf]. unfold uuid_random, octet_at.
  destruct (lookup_lt_is_Some_2 data variant_octet) as [o8 H8]; [rewrite Hl; vm_compute; lia|].
  destruct (lookup_lt_is_Some_2 data version_octet) as [o6 H6]; [rewrite Hl; vm_compute; lia|].
  pose proof (Forall_lookup_1 _ _ _ _ Hf H8) as R8. pose proof (Forall_lookup_1 _ _ _ _ Hf H6) as R6.
  rewrite H8. cbn [obind]. rewrite list_lookup_insert_ne, H6 by done. cbn [obind].
  set (v8 := Z.lor (Z.land o8 191) 128). set (v6 := Z.lor (Z.land o6 79) (Z.shiftl 4 4)).
  assert (is_octet v8 /\ Z.land v8 128 = 128 /\ Z.land v8 192 = 128) as (I8 & A8 & B8).
  { pose proof (octet_forall (fun o => let v := Z.lor (Z.land o 191) 128 in (0 <=? v) && (v <? 256) &&
      (Z.land v 128 =? 128) && (Z.land v 192 =? 128)) eq_refl o8 R8) as H. cbn zeta in H. fold v8 in H.
    rewrite !andb_true_iff, !Z.eqb_eq, Z.leb_le, Z.ltb_lt in H. unfold is_octet. tauto. }
  assert (is_octet v6 /\ Z.land v6 240 = 64) as (I6 & A6).
  { pose proof (octet_forall (fun o => let v := Z.lor (Z.land o 79) (Z.shiftl 4 4) in (0 <=? v) && (v <? 256) &&
      (Z.land v 240 =? 64)) eq_refl o6 R6) as H. cbn zeta in H. fold v6 in H.
    rewrite !andb_true_iff, !Z.eqb_eq, Z.leb_le, Z.ltb_lt in H. unfold is_octet. tauto. }
  set (u := <[version_octet:=v6]> (<[variant_octet:=v8]> data)).
  assert (u !! variant_octet = Some v8) as L8.
  { subst u. rewrite list_lookup_insert_ne, list_lookup_insert_eq by (done || (rewrite Hl; vm_compute; lia)). done. }
  assert (u !! version_octet = Some v6) as L6.
  { subst u. rewrite list_lookup_insert_eq; [done|]. rewrite length_insert, Hl. vm_compute. lia. }
  assert (variant u = Ok rfc_4122) as Hva by (unfold variant, octet_at; rewrite L8; cbn [obind]; by rewrite A8, B8).
  assert (version u = Ok random_number_based) as Hve by (unfold version, octet_at; rewrite L6; cbn [obind]; by rewrite A6).
  rewrite Hva. cbn [obind]. rewrite bool_decide_true by done. cbn [oassert obind]. rewrite Hve. cbn [obind].
  rewrite bool_decide_true by done. cbn [oassert obind]. exists u. split_and!; [done| |done|done|].
  - split; [by subst u; rewrite !length_insert|]. by apply Forall_insert, I6; apply Forall_insert.
  - intros i H1 H2. subst u. by rewrite !list_lookup_insert_ne.
Qed.

(** ** Claims *)

(** C26: reading text back gives the identifier that was printed, and nothing else is accepted.
    Whatever the uninitialised array held, [from_string] returns; it yields an identifier exactly
    when the string is, letters in either case, what [str] prints of that identifier, and the
    constructor from a string raises [uuid_parse_error] in all other cases. [str] prints 36
    characters of every identifier. *)
Theorem uuid_text (junk s u : list Z) : length junk = elements -> uuid_ok u ->
  (exists r, from_string junk s = Ok r /\ (r = Some u <-> str u = Ok (lower <$> s)) /\
    uuid_of_string junk s = match r with Some v => Ok v | None => Throw (Raise uuid_parse_error) end) /\
  exists t, str u = Ok t /\ length t = string_length /\ from_string junk t = Ok (Some u).
Proof.
  intros Hj Hu. split.
  - destruct (from_string_ok junk s Hj) as (r & Hr & _ & Hiff). exists r. split; [done|]. split; [by apply Hiff|].
    unfold uuid_of_string. rewrite Hr. by destruct r.
  - destruct (str_loop_ok 0 u) as (t & Et & Ht & Hlow); [apply Hu|by rewrite (proj1 Hu)|].
    assert (str u = Ok t) as Hs by (unfold str; rewrite Et; cbn [obind]; by rewrite (proj2 (Nat.eqb_eq _ _)) by exact Ht).
    exists t. split; [done|]. split; [exact Ht|]. destruct (from_string_ok junk t Hj) as (r & Hr & _ & Hiff).
    rewrite Hr. f_equal. apply Hiff; [done|]. by rewrite Hlow.
Qed.

Lemma uuid_text_witness :
  exists t, str (seqZ 200 16) = Ok t /\ length t = string_length /\
    from_string (replicate 16 7) t = Ok (Some (seqZ 200 16)).
Proof.
  apply (uuid_text (replicate 16 7) [] (seqZ 200 16)); [reflexivity|].
  split; [reflexivity|]. apply Forall_seqZ. unfold is_octet. lia.
Defined.

End uuid.
