(* ===== verification/Utf.v ===== *)
(** * Unicode encodings

    Models include/pstore/support/utf.hpp and lib/support/utf.cpp: the UTF-8 encoder, the
    table-driven UTF-8 decoder, the decoding of UTF-16 and the functions that count and find code
    points in a string. A [char] is the octet that represents it, a [char16_t] an integer below
    2^16, a [char32_t] one below 2^32. *)

From S2P Require Import Prelude.

Section utf.

(** ** The encoder *)

Definition replacement_char_code_point : Z := 65533.

(** [code_point_to_utf8], given what its call of [replacement_char] writes *)
Definition code_point_to_utf8_body (replacement_char : outcome (list Z)) (c : Z) : outcome (list Z) :=
  if c <? 128 then Ok [wrap 8 c]
  else if c <? 2048 then Ok [wrap 8 (c / 64 + 192); wrap 8 (c mod 64 + 128)]
  else if ((c >=? 55296) && (c <? 57344)) || (c >=? 1114112) then replacement_char
  else if c <? 65536 then
    Ok [wrap 8 (Z.lor (c / 4096) 224); wrap 8 (Z.lor (c / 64 mod 64) 128); wrap 8 (Z.lor (c mod 64) 128)]
  else
    _ <-? oassert (c <? 1114112) ;;
    Ok [wrap 8 (Z.lor (c / 262144) 240); wrap 8 (Z.lor (c / 4096 mod 64) 128);
        wrap 8 (Z.lor (c / 64 mod 64) 128); wrap 8 (Z.lor (c mod 64) 128)].

(** [replacement_char]: the encoder again, which does not recur for this code point *)
Definition replacement_char : outcome (list Z) :=
  code_point_to_utf8_body (Throw OutOfFuel) replacement_char_code_point.

Definition code_point_to_utf8 (c : Z) : outcome (list Z) := code_point_to_utf8_body replacement_char c.

(** ** UTF-16 *)

Definition nop_swapper (v : Z) : Z := v.
Definition byte_swapper (v : Z) : Z :=
  wrap 16 (Z.lor (Z.shiftl (Z.land v 255) 8) (Z.shiftr (Z.land v 65280) 8)).

Definition is_utf16_high_surrogate (code_unit : Z) : bool := (code_unit >=? 55296) && (code_unit <=? 56319).
Definition is_utf16_low_surrogate (code_unit : Z) : bool := (code_unit >=? 56320) && (code_unit <=? 57343).

(** [utf16_to_code_point]: the code units behind the first code point, and the code point *)
Definition utf16_to_code_point (swapper : Z -> Z) (units : list Z) : outcome (list Z * Z) :=
  match units with
  | [] => Throw Assert
  | u :: rest =>
      let code_unit := swapper u in
      if negb (is_utf16_high_surrogate code_unit) then Ok (rest, code_unit)
      else
        match rest with
        | [] => Ok (rest, replacement_char_code_point)
        | u :: rest =>
            let high := code_unit in
            let low := swapper u in
            if (low <? 56320) || (low >? 57343) then Ok (rest, replacement_char_code_point)
            else Ok (rest, 65536 + Z.shiftl (Z.land high 1023) 10 + Z.land low 1023)
        end
  end.

(** [utf16_to_code_points]; every turn of the loop consumes a code unit *)
Fixpoint utf16_loop (swapper : Z -> Z) (fuel : nat) (units : list Z) : outcome (list Z) :=
  match units, fuel with
  | [], _ => Ok []
  | _, O => Throw OutOfFuel
  | _, S fuel =>
      p <-? utf16_to_code_point swapper units ;;
      let '(first, code_point) := p in
      out <-? utf16_loop swapper fuel first ;;
      Ok (code_point :: out)
  end.

Definition utf16_to_code_points (swapper : Z -> Z) (units : list Z) : outcome (list Z) :=
  utf16_loop swapper (length units) units.

(** ** Counting and finding code points *)

Definition is_utf_char_start (c : Z) : bool := negb (Z.land c 192 =? 128).

(** [length (first, last)] *)
Definition utf_length (bytes : list Z) : Z := Z.of_nat (length (filter (fun c => Is_true (is_utf_char_start c)) bytes)).

(** [index (first, last, pos)]: the distance from [first] of the iterator returned;
    [start_count] is the variable the predicate captures. *)
Fixpoint index_loop (start_count pos : Z) (bytes : list Z) : nat :=
  match bytes with
  | [] => O
  | c :: bytes =>
      if is_utf_char_start c then
        if start_count =? pos then O else S (index_loop (start_count + 1) pos bytes)
      else S (index_loop start_count pos bytes)
  end.

Definition index (bytes : list Z) (pos : Z) : nat := index_loop 0 pos bytes.

(** A null-terminated string: no pointer, or the memory from the pointer on *)
Definition czstring : Type := option (list Z).

(** [std::strlen]; undefined where no terminator follows *)
Fixpoint strlen (mem : list Z) : outcome nat :=
  match mem with
  | [] => Throw Undefined
  | c :: mem => if c =? 0 then Ok O else n <-? strlen mem ;; Ok (S n)
  end.

(** [length (czstring)] and [length (char const *, size_t)] *)
Definition length_cz (str : czstring) : outcome Z :=
  match str with
  | None => Ok 0
  | Some mem => n <-? strlen mem ;; Ok (utf_length (take n mem))
  end.

Definition length_buffer (str : czstring) (nbytes : nat) : outcome Z :=
  match str with
  | None => Ok 0
  | Some mem => if (nbytes <=? length mem)%nat then Ok (utf_length (take nbytes mem)) else Throw Undefined
  end.

(** [index (czstring, pos)]: the offset of the pointer returned, if it is not null *)
Definition index_cz (str : czstring) (pos : Z) : outcome (option nat) :=
  match str with
  | None => Ok None
  | Some mem =>
      n <-? strlen mem ;;
      let result := index (take n mem) pos in
      Ok (if (result =? n)%nat then None else Some result)
  end.

(** [slice] *)
Definition slice (str : czstring) (start end_ : Z) : outcome (Z * Z) :=
  match str with
  | None => Ok (-1, -1)
  | Some mem =>
      n <-? strlen mem ;;
      let p1 := index (take n mem) (Z.max 0 start) in
      let p2 := index (take n mem) (Z.max 0 end_) in
      Ok (if negb (p1 =? n)%nat then Z.of_nat p1 else -1, if negb (p2 =? n)%nat then Z.of_nat p2 else -1)
  end.

(** ** The decoder *)

(** [utf8_decoder::utf8d_]: the classes of the 256 octets, then the transitions, a row of 16
    for each state *)
Definition utf8d_ : list Z :=
  [
     0; 0; 0; 0; 0; 0; 0; 0; 0; 0; 0; 0; 0; 0; 0; 0; 0; 0; 0; 0; 0; 0; 0; 0; 0; 0; 0; 0; 0; 0; 0; 0;
     0; 0; 0; 0; 0; 0; 0; 0; 0; 0; 0; 0; 0; 0; 0; 0; 0; 0; 0; 0; 0; 0; 0; 0; 0; 0; 0; 0; 0; 0; 0; 0;
     0; 0; 0; 0; 0; 0; 0; 0; 0; 0; 0; 0; 0; 0; 0; 0; 0; 0; 0; 0; 0; 0; 0; 0; 0; 0; 0; 0; 0; 0; 0; 0;
     0; 0; 0; 0; 0; 0; 0; 0; 0; 0; 0; 0; 0; 0; 0; 0; 0; 0; 0; 0; 0; 0; 0; 0; 0; 0; 0; 0; 0; 0; 0; 0;
     1; 1; 1; 1; 1; 1; 1; 1; 1; 1; 1; 1; 1; 1; 1; 1; 9; 9; 9; 9; 9; 9; 9; 9; 9; 9; 9; 9; 9; 9; 9; 9;
     7; 7; 7; 7; 7; 7; 7; 7; 7; 7; 7; 7; 7; 7; 7; 7; 7; 7; 7; 7; 7; 7; 7; 7; 7; 7; 7; 7; 7; 7; 7; 7;
     8; 8; 2; 2; 2; 2; 2; 2; 2; 2; 2; 2; 2; 2; 2; 2; 2; 2; 2; 2; 2; 2; 2; 2; 2; 2; 2; 2; 2; 2; 2; 2;
     10; 3; 3; 3; 3; 3; 3; 3; 3; 3; 3; 3; 3; 4; 3; 3; 11; 6; 6; 6; 5; 8; 8; 8; 8; 8; 8; 8; 8; 8; 8; 8;
     0; 1; 2; 3; 5; 8; 7; 1; 1; 1; 4; 6; 1; 1; 1; 1; 1; 1; 1; 1; 1; 1; 1; 1; 1; 1; 1; 1; 1; 1; 1; 1;
     1; 0; 1; 1; 1; 1; 1; 0; 1; 0; 1; 1; 1; 1; 1; 1; 1; 2; 1; 1; 1; 1; 1; 2; 1; 2; 1; 1; 1; 1; 1; 1;
     1; 1; 1; 1; 1; 1; 1; 2; 1; 1; 1; 1; 1; 1; 1; 1; 1; 2; 1; 1; 1; 1; 1; 1; 1; 2; 1; 1; 1; 1; 1; 1;
     1; 1; 1; 1; 1; 1; 1; 3; 1; 3; 1; 1; 1; 1; 1; 1; 1; 3; 1; 1; 1; 1; 1; 3; 1; 3; 1; 1; 1; 1; 1; 1;
     1; 3; 1; 1; 1; 1; 1; 1; 1; 1; 1; 1; 1; 1; 1; 1].

Definition accept : Z := 0.

(** [utf8_decoder] *)
Record utf8_decoder := mk_utf8_decoder { codepoint_ : Z; state_ : Z; well_formed_ : bool }.

Definition initial_decoder : utf8_decoder := mk_utf8_decoder 0 accept true.

Definition table_at (i : Z) : outcome Z :=
  match utf8d_ !! Z.to_nat i with Some t => Ok t | None => Throw Undefined end.

(** [utf8_decoder::decode]: the new state and code point *)
Definition decode (state codep byte : Z) : outcome (Z * Z) :=
  type <-? table_at byte ;;
  let codep :=
    if negb (state =? accept) then Z.lor (Z.land byte 63) (wrap32 (Z.shiftl codep 6))
    else Z.land (Z.shiftr 255 type) byte in
  state <-? table_at (256 + state * 16 + type) ;;
  Ok (state, codep).

(** [utf8_decoder::get] *)
Definition get (d : utf8_decoder) (byte : Z) : outcome (option Z * utf8_decoder) :=
  p <-? decode (state_ d) (codepoint_ d) byte ;;
  let '(state, codepoint) := p in
  if negb (state =? 0) then Ok (None, mk_utf8_decoder codepoint state false)
  else Ok (Some codepoint, mk_utf8_decoder 0 state true).

(** [utf8_decoder::is_well_formed] *)
Definition is_well_formed (d : utf8_decoder) : bool := well_formed_ d.

(** ** What the encoder writes *)

(** A Unicode scalar value: a code point that is no surrogate *)
Definition scalar (c : Z) : Prop := 0 <= c < 55296 \/ 57344 <= c < 1114112.

(** UTF-8 (RFC 3629, section 3) *)
Definition utf8 (c : Z) : list Z :=
  if c <? 128 then [c]
  else if c <? 2048 then [192 + c / 64; 128 + c mod 64]
  else if c <? 65536 then [224 + c / 4096; 128 + c / 64 mod 64; 128 + c mod 64]
  else [240 + c / 262144; 128 + c / 4096 mod 64; 128 + c / 64 mod 64; 128 + c mod 64].

Lemma lor_high n a b : 0 <= n -> 0 <= a < 2 ^ n -> (2 ^ n | b) -> 0 <= b -> a + b < 256 -> wrap 8 (Z.lor a b) = b + a.
Proof. intros Hn Ha Hb Hb0 Hr. rewrite Z.lor_comm, (lor_add n) by done. apply wrap_small. lia. Qed.

Lemma code_point_to_utf8_ok c : 0 <= c ->
  code_point_to_utf8 c = Ok (utf8 (if ((c >=? 55296) && (c <? 57344)) || (c >=? 1114112)
                                  then replacement_char_code_point else c)).
Proof.
  intros Hc. unfold code_point_to_utf8, code_point_to_utf8_body, utf8.
  assert (forall a, 0 <= a mod 64 < 2 ^ 6) as Hm by (intros a; apply Z.mod_pos_bound; lia).
  assert (2 ^ 6 | 128) as Hd by (exists 2; lia).
  assert (forall a, wrap 8 (Z.lor (a mod 64) 128) = 128 + a mod 64) as Hcont.
  { intros a. specialize (Hm a). apply (lor_high 6); lia || done. }
  destruct (Z.ltb_spec c 128) as [H1|H1].
  { rewrite !Z.geb_leb. rewrite (proj2 (Z.leb_gt 55296 c)), (proj2 (Z.leb_gt 1114112 c)) by lia. cbn [andb orb].
    rewrite (proj2 (Z.ltb_lt c 128)), wrap_small by lia. done. }
  destruct (Z.ltb_spec c 2048) as [H2|H2].
  { rewrite !Z.geb_leb. rewrite (proj2 (Z.leb_gt 55296 c)), (proj2 (Z.leb_gt 1114112 c)) by lia. cbn [andb orb].
    rewrite (proj2 (Z.ltb_ge c 128)), (proj2 (Z.ltb_lt c 2048)) by lia. specialize (Hm c).
    assert (0 <= c / 64 < 32) by (split; [apply Z.div_pos|apply Z.div_lt_upper_bound]; lia).
    rewrite !wrap_small by lia. do 2 f_equal; [lia|f_equal; lia]. }
  destruct (_ || _) eqn:E; [done|].
  rewrite (proj2 (Z.ltb_ge c 128)), (proj2 (Z.ltb_ge c 2048)), !Hcont by lia.
  destruct (Z.ltb_spec c 65536).
  - do 2 f_equal. assert (0 <= c / 4096 < 16) by (split; [apply Z.div_pos|apply Z.div_lt_upper_bound]; lia).
    apply (lor_high 4); try lia. exists 14. lia.
  - rewrite Z.geb_leb in E. apply orb_false_iff in E as [_ E]. rewrite Z.geb_leb in E. apply Z.leb_gt in E.
    rewrite (proj2 (Z.ltb_lt _ _)) by lia. cbn [oassert obind]. do 2 f_equal.
    assert (0 <= c / 262144 < 5) by (split; [apply Z.div_pos|apply Z.div_lt_upper_bound]; lia).
    apply (lor_high 4); try lia. exists 15. lia.
Qed.

(** ** The automaton *)

(** The states and their transitions: 2, 3 and 7 wait for one, two or three continuation octets;
    4, 5, 6 and 8 are those after E0, ED, F0 and F4, which restrict the octet that follows. *)
Definition in_range (a b x : Z) : bool := (a <=? x) && (x <=? b).

Definition next (state b : Z) : Z :=
  if state =? 0 then
    if b <? 128 then 0
    else if in_range 194 223 b then 2
    else if b =? 224 then 4
    else if b =? 237 then 5
    else if in_range 225 239 b then 3
    else if b =? 240 then 6
    else if b =? 244 then 8
    else if in_range 241 243 b then 7
    else 1
  else if state =? 2 then if in_range 128 191 b then 0 else 1
  else if state =? 3 then if in_range 128 191 b then 2 else 1
  else if state =? 4 then if in_range 160 191 b then 2 else 1
  else if state =? 5 then if in_range 128 159 b then 2 else 1
  else if state =? 6 then if in_range 144 191 b then 3 else 1
  else if state =? 7 then if in_range 128 191 b then 3 else 1
  else if state =? 8 then if in_range 128 143 b then 3 else 1
  else 1.

(** The payload of a leading octet *)
Definition lead (b : Z) : Z :=
  if b <? 128 then b else if b <? 224 then b - 192 else if b <? 240 then b - 224 else b - 240.

(** The table implements [next] and [lead]: all 9 states and 256 octets are checked. *)
Lemma table_next state b : 0 <= state <= 8 -> 0 <= b < 256 ->
  exists type, table_at b = Ok type /\ table_at (256 + state * 16 + type) = Ok (next state b) /\
    (state = 0 -> next state b <> 1 -> Z.land (Z.shiftr 255 type) b = lead b).
Proof.
  intros Hs Hb.
  set (P := fun state b => match table_at b with
    | Ok type => match table_at (256 + state * 16 + type) with
                 | Ok s => (s =? next state b) &&
                     (negb (state =? 0) || (next state b =? 1) || (Z.land (Z.shiftr 255 type) b =? lead b))
                 | Throw _ => false end
    | Throw _ => false end).
  assert (P state b = true) as HP.
  { apply octet_forall; [|done]. assert (forallb (fun s => forallb (P s) (seqZ 0 256)) (seqZ 0 9) = true) as H
      by (vm_compute; reflexivity). apply (proj1 (forallb_forall _ _) H). apply list_elem_of_In, elem_of_seqZ. lia. }
  unfold P in HP. destruct (table_at b) as [type|] eqn:E1; [|done]. exists type. split; [done|].
  destruct (table_at (256 + _ + _)) as [s|]; [|done].
  apply andb_true_iff in HP as [HP1%Z.eqb_eq HP2]. split; [by rewrite HP1|]. intros -> Hn.
  rewrite !orb_true_iff, negb_true_iff, !Z.eqb_eq in HP2. destruct HP2 as [[HP2|HP2]|HP2]; done.
Qed.

(** [decode] and [get] in terms of the automaton *)
Lemma continuation_bits cp b : 0 <= cp < 2 ^ 26 -> 128 <= b < 192 ->
  Z.lor (Z.land b 63) (wrap32 (Z.shiftl cp 6)) = 64 * cp + (b - 128).
Proof.
  intros Hcp Hb. assert (Z.land b 63 = b - 128) as ->.
  { change 63 with (Z.ones 6). rewrite Z.land_ones by lia. symmetry. apply (Z.mod_unique _ _ 2); lia. }
  rewrite Z.shiftl_mul_pow2, wrap_small, Z.lor_comm, (lor_add 6) by (lia || apply Z.divide_factor_r). lia.
Qed.

Lemma get_lead b wf : 0 <= b < 256 -> next 0 b <> 1 -> get (mk_utf8_decoder 0 0 wf) b =
  Ok (if next 0 b =? 0 then (Some (lead b), initial_decoder)
      else (None, mk_utf8_decoder (lead b) (next 0 b) false)).
Proof.
  intros Hb Hn. destruct (table_next 0 b ltac:(lia) Hb) as (type & E1 & E2 & E3). unfold get, decode. cbn [state_ codepoint_].
  rewrite E1. cbn [obind]. rewrite E2. cbn [obind negb Z.eqb accept]. rewrite (E3 eq_refl Hn).
  destruct (Z.eqb_spec (next 0 b) 0) as [->|]; done.
Qed.

Lemma get_continuation state cp wf b : 0 < state <= 8 -> 0 <= cp < 2 ^ 26 -> 128 <= b < 192 ->
  get (mk_utf8_decoder cp state wf) b =
  Ok (if next state b =? 0 then (Some (64 * cp + (b - 128)), initial_decoder)
      else (None, mk_utf8_decoder (64 * cp + (b - 128)) (next state b) false)).
Proof.
  intros Hs Hcp Hb. destruct (table_next state b ltac:(lia) ltac:(lia)) as (type & E1 & E2 & _).
  unfold get, decode. cbn [state_ codepoint_]. rewrite E1. cbn [obind]. rewrite E2. cbn [obind].
  unfold accept. rewrite (proj2 (Z.eqb_neq state 0)) by lia. cbn [negb]. rewrite continuation_bits by done.
  destruct (Z.eqb_spec (next state b) 0) as [->|]; done.
Qed.

(** Whatever [get] is given, it moves along the automaton. *)
Lemma get_state d b : 0 <= state_ d <= 8 -> 0 <= b < 256 ->
  exists o d', get d b = Ok (o, d') /\ state_ d' = next (state_ d) b /\ well_formed_ d' = (next (state_ d) b =? 0).
Proof.
  intros Hs Hb. destruct (table_next (state_ d) b Hs Hb) as (type & E1 & E2 & _).
  unfold get, decode. rewrite E1. cbn [obind]. rewrite E2. cbn [obind].
  destruct (Z.eqb_spec (next (state_ d) b) 0) as [E|E]; cbn [negb]; eauto.
Qed.

Lemma next_range state b : 0 <= next state b <= 8.
Proof. unfold next. repeat case_match; lia. Qed.

(** A client's loop over the octets of a buffer: what [get] returned, and the final decoder *)
Fixpoint get_all (d : utf8_decoder) (bytes : list Z) : outcome (list (option Z) * utf8_decoder) :=
  match bytes with
  | [] => Ok ([], d)
  | b :: bytes =>
      p <-? get d b ;;
      q <-? get_all p.2 bytes ;;
      Ok (p.1 :: q.1, q.2)
  end.

Definition octets (bs : list Z) : Prop := Forall (fun b => 0 <= b < 256) bs.

(** The decoder never leaves the rejecting state. *)
Lemma get_all_reject d bs : state_ d = 1 -> well_formed_ d = false -> octets bs ->
  exists os d', get_all d bs = Ok (os, d') /\ state_ d' = 1 /\ well_formed_ d' = false.
Proof.
  intros Hd Hw Hb. revert d Hd Hw. induction Hb as [|b bs Hb Hbs IH]; intros d Hd Hw; cbn [get_all]; [eauto|].
  destruct (get_state d b) as (o & d' & -> & Hs' & Hw'); [lia|done|]. rewrite Hd in Hs', Hw'. cbn [obind fst snd].
  destruct (IH d' Hs' Hw') as (os & d'' & -> & ? & ?). cbn [obind fst snd]. eauto.
Qed.

(** ** Decoding what was encoded *)

Ltac next_case := unfold next, in_range; repeat case_match; lia.

Lemma scalar_utf8 c : scalar c ->
  0 <= c < 128 /\ utf8 c = [c] \/
  (exists x y, c = 64 * x + y /\ 2 <= x < 32 /\ 0 <= y < 64 /\ utf8 c = [192 + x; 128 + y]) \/
  (exists x y z, c = 64 * (64 * x + y) + z /\ 0 <= x < 16 /\ 0 <= y < 64 /\ 0 <= z < 64 /\
     (x = 0 -> 32 <= y) /\ (x = 13 -> y < 32) /\ utf8 c = [224 + x; 128 + y; 128 + z]) \/
  (exists w x y z, c = 64 * (64 * (64 * w + x) + y) + z /\ 0 <= w < 5 /\ 0 <= x < 64 /\ 0 <= y < 64 /\ 0 <= z < 64 /\
     (w = 0 -> 16 <= x) /\ (w = 4 -> x < 16) /\ utf8 c = [240 + w; 128 + x; 128 + y; 128 + z]).
Proof.
  unfold scalar, utf8. intros Hc. destruct (Z.ltb_spec c 128); [left; split; [lia|done]|].
  destruct (Z.ltb_spec c 2048); [right; left; exists (c / 64), (c mod 64); split_and!; Z.div_mod_to_equations; try lia; done|].
  destruct (Z.ltb_spec c 65536); [do 2 right; left|do 3 right].
  - exists (c / 4096), (c / 64 mod 64), (c mod 64). split_and!; try done; Z.div_mod_to_equations; lia.
  - exists (c / 262144), (c / 4096 mod 64), (c / 64 mod 64), (c mod 64). split_and!; try done; Z.div_mod_to_equations; lia.
Qed.

Lemma get_all_cons d b bs o d' : get d b = Ok (o, d') ->
  get_all d (b :: bs) = (q <-? get_all d' bs ;; Ok (o :: q.1, q.2)).
Proof. intros E. cbn [get_all]. by rewrite E. Qed.

(** The two ways [get] goes on after an octet of a sequence *)
Lemma get_all_lead b st bs : 0 <= b < 256 -> next 0 b = st -> st <> 0 -> st <> 1 ->
  get_all initial_decoder (b :: bs) =
  (q <-? get_all (mk_utf8_decoder (lead b) st false) bs ;; Ok (None :: q.1, q.2)).
Proof.
  intros Hb Hn H0 H1. apply get_all_cons. unfold initial_decoder, accept.
  rewrite get_lead, Hn, (proj2 (Z.eqb_neq _ _)) by (done || congruence). done.
Qed.

Lemma get_all_more cp state b st bs : 0 < state <= 8 -> 0 <= cp < 2 ^ 26 -> 128 <= b < 192 -> next state b = st -> st <> 0 ->
  get_all (mk_utf8_decoder cp state false) (b :: bs) =
  (q <-? get_all (mk_utf8_decoder (64 * cp + (b - 128)) st false) bs ;; Ok (None :: q.1, q.2)).
Proof.
  intros Hs Hcp Hb Hn H0. apply get_all_cons. by rewrite get_continuation, Hn, (proj2 (Z.eqb_neq _ _)).
Qed.

Lemma get_all_final cp b bs : 0 <= cp < 2 ^ 26 -> 128 <= b < 192 ->
  get_all (mk_utf8_decoder cp 2 false) (b :: bs) =
  (q <-? get_all initial_decoder bs ;; Ok (Some (64 * cp + (b - 128)) :: q.1, q.2)).
Proof.
  intros Hcp Hb. apply get_all_cons. rewrite get_continuation by lia.
  replace (next 2 b) with 0 by next_case. done.
Qed.

(** The octets of a code point are consumed, and only the last of them yields it. *)
Lemma get_all_char c rest : scalar c ->
  exists n, length (utf8 c) = S n /\ get_all initial_decoder (utf8 c ++ rest) =
    (q <-? get_all initial_decoder rest ;; Ok (replicate n None ++ Some c :: q.1, q.2)).
Proof.
  intros Hc. destruct (scalar_utf8 c Hc) as
    [[Hr ->]|[(x & y & E & Hx & Hy & ->)|[(x & y & z & E & Hx & Hy & Hz & H0 & H13 & ->)
     |(w & x & y & z & E & Hw & Hx & Hy & Hz & H0 & H4 & ->)]]].
  - exists 0%nat. split; [done|]. apply get_all_cons. unfold initial_decoder, accept.
    rewrite get_lead by (lia || next_case). replace (next 0 c) with 0 by next_case. unfold lead.
    by rewrite (proj2 (Z.ltb_lt _ _)) by lia.
  - exists 1%nat. split; [done|]. cbn [app]. rewrite (get_all_lead _ 2) by (lia || next_case).
    replace (lead (192 + x)) with x by (unfold lead; repeat case_match; lia). rewrite get_all_final by lia.
    destruct (get_all _ rest) as [[os d]|]; [|done]. cbn [obind fst snd replicate app].
    lazymatch goal with |- context [Some ?e :: os] => replace e with c by lia end. done.
  - exists 2%nat. split; [done|]. cbn [app]. rewrite (get_all_lead _ (next 0 (224 + x))) by (lia || next_case).
    replace (lead (224 + x)) with x by (unfold lead; repeat case_match; lia).
    rewrite (get_all_more _ _ _ 2) by (lia || next_case). rewrite get_all_final by lia.
    destruct (get_all _ rest) as [[os d]|]; [|done]. cbn [obind fst snd replicate app].
    lazymatch goal with |- context [Some ?e :: os] => replace e with c by lia end. done.
  - exists 3%nat. split; [done|]. cbn [app]. rewrite (get_all_lead _ (next 0 (240 + w))) by (lia || next_case).
    replace (lead (240 + w)) with w by (unfold lead; repeat case_match; lia).
    rewrite (get_all_more _ _ _ 3) by (lia || next_case). rewrite (get_all_more _ _ _ 2) by (lia || next_case).
    rewrite get_all_final by lia.
    destruct (get_all _ rest) as [[os d]|]; [|done]. cbn [obind fst snd replicate app].
    lazymatch goal with |- context [Some ?e :: os] => replace e with c by lia end. done.
Qed.

(** A run that ends well formed was not rejected in its first step. *)
Lemma pending_step d b bs os d' : 0 <= state_ d <= 8 -> octets (b :: bs) ->
  get_all d (b :: bs) = Ok (os, d') -> well_formed_ d' = true ->
  next (state_ d) b <> 1 /\ exists d1 os1, state_ d1 = next (state_ d) b /\ well_formed_ d1 = (next (state_ d) b =? 0) /\
    get_all d1 bs = Ok (os1, d').
Proof.
  intros Hs Hb Hg Hw. apply Forall_cons in Hb as [Hb Hbs]. destruct (get_state d b Hs Hb) as (o & d1 & E & Hs1 & Hw1).
  rewrite (get_all_cons _ _ _ _ _ E) in Hg. destruct (get_all d1 bs) as [[os1 d2]|] eqn:E1; [|done].
  injection Hg as <- <-. split; [|exists d1, os1; cbn [snd] in *; split_and!; [exact Hs1|exact Hw1|exact E1]]. intros Hn. rewrite Hn in Hs1, Hw1.
  destruct (get_all_reject d1 bs Hs1 Hw1 Hbs) as (? & ? & E2 & _ & Hw2). rewrite E1 in E2. injection E2 as <- <-. cbn [snd] in Hw. congruence.
Qed.

Lemma octets_tail b bs : octets (b :: bs) -> octets bs.
Proof. intros H. by apply Forall_cons in H as [_ H]. Qed.

(** Bringing the next octet of a sequence that ends well formed into the open *)
Lemma pending_octet d bs os d' : 0 < state_ d <= 8 -> well_formed_ d = false -> octets bs ->
  get_all d bs = Ok (os, d') -> well_formed_ d' = true ->
  exists b bs1 d1 os1, bs = b :: bs1 /\ octets bs1 /\ next (state_ d) b <> 1 /\ state_ d1 = next (state_ d) b /\
    well_formed_ d1 = (next (state_ d) b =? 0) /\ get_all d1 bs1 = Ok (os1, d').
Proof.
  intros Hs Hd Hb Hg Hw. destruct bs as [|b bs].
  - cbn [get_all] in Hg. injection Hg as <- <-. congruence.
  - destruct (pending_step d b bs os d' ltac:(lia) Hb Hg Hw) as (Hn & d1 & os1 & ? & ? & ?).
    exists b, bs, d1, os1. apply octets_tail in Hb. done.
Qed.

(** The code point whose octets are given *)
Lemma utf8_one b : 0 <= b < 128 -> scalar b /\ utf8 b = [b].
Proof. intros Hb. split; [unfold scalar; lia|]. unfold utf8. by rewrite (proj2 (Z.ltb_lt _ _)) by lia. Qed.

Lemma utf8_two b b2 : 194 <= b < 224 -> 128 <= b2 < 192 -> exists c, scalar c /\ utf8 c = [b; b2].
Proof.
  intros Hb Hb2. assert (scalar (64 * (b - 192) + (b2 - 128))) as Hc by (unfold scalar; lia).
  eexists. split; [exact Hc|]. destruct (scalar_utf8 _ Hc) as
    [[Hr ->]|[(x & y & E & Hx & Hy & ->)|[(x & y & z & E & Hx & Hy & Hz & H0 & H13 & ->)
     |(w & x & y & z & E & Hw & Hx & Hy & Hz & H0 & H4 & ->)]]]; [lia| |lia..].
  f_equal; [lia|f_equal; lia].
Qed.

Lemma utf8_three b b2 b3 : 224 <= b < 240 -> 128 <= b2 < 192 -> 128 <= b3 < 192 ->
  (b = 224 -> 160 <= b2) -> (b = 237 -> b2 < 160) -> exists c, scalar c /\ utf8 c = [b; b2; b3].
Proof.
  intros Hb Hb2 Hb3 H224 H237. assert (scalar (64 * (64 * (b - 224) + (b2 - 128)) + (b3 - 128))) as Hc by (unfold scalar; lia).
  eexists. split; [exact Hc|]. destruct (scalar_utf8 _ Hc) as
    [[Hr ->]|[(x & y & E & Hx & Hy & ->)|[(x & y & z & E & Hx & Hy & Hz & H0 & H13 & ->)
     |(w & x & y & z & E & Hw & Hx & Hy & Hz & H0 & H4 & ->)]]]; [lia..| |lia].
  f_equal; [lia|f_equal; [lia|f_equal; lia]].
Qed.

Lemma utf8_four b b2 b3 b4 : 240 <= b < 245 -> 128 <= b2 < 192 -> 128 <= b3 < 192 -> 128 <= b4 < 192 ->
  (b = 240 -> 144 <= b2) -> (b = 244 -> b2 < 144) -> exists c, scalar c /\ utf8 c = [b; b2; b3; b4].
Proof.
  intros Hb Hb2 Hb3 Hb4 H240 H244.
  assert (scalar (64 * (64 * (64 * (b - 240) + (b2 - 128)) + (b3 - 128)) + (b4 - 128))) as Hc by (unfold scalar; lia).
  eexists. split; [exact Hc|]. destruct (scalar_utf8 _ Hc) as
    [[Hr ->]|[(x & y & E & Hx & Hy & ->)|[(x & y & z & E & Hx & Hy & Hz & H0 & H13 & ->)
     |(w & x & y & z & E & Hw & Hx & Hy & Hz & H0 & H4 & ->)]]]; [lia..|].
  f_equal; [lia|f_equal; [lia|f_equal; [lia|f_equal; lia]]].
Qed.

Lemma next_lead b : 0 <= b < 256 -> next 0 b <> 0 -> next 0 b <> 1 ->
  next 0 b = 2 /\ 194 <= b < 224 \/ next 0 b = 4 /\ b = 224 \/ next 0 b = 5 /\ b = 237 \/
  next 0 b = 3 /\ 225 <= b < 240 /\ b <> 237 \/ next 0 b = 6 /\ b = 240 \/ next 0 b = 7 /\ 241 <= b < 244 \/
  next 0 b = 8 /\ b = 244.
Proof. next_case. Qed.

Lemma next_continuation st b : 2 <= st <= 8 -> next st b <> 1 ->
  128 <= b < 192 /\ (st = 4 -> 160 <= b) /\ (st = 5 -> b < 160) /\ (st = 6 -> 144 <= b) /\ (st = 8 -> b < 144) /\
  (st = 2 -> next st b = 0) /\ (3 <= st <= 5 -> next st b = 2) /\ (6 <= st -> next st b = 3).
Proof. next_case. Qed.

(** The first code point of a buffer that the decoder finds well formed *)
Lemma get_all_sound b bs os d' : octets (b :: bs) -> get_all initial_decoder (b :: bs) = Ok (os, d') ->
  well_formed_ d' = true -> exists c rest, scalar c /\ b :: bs = utf8 c ++ rest.
Proof.
  intros Hb Hg Hw. assert (0 <= b < 256) as Hb1 by (by apply Forall_cons in Hb as [? _]).
  destruct (pending_step initial_decoder b bs os d' ltac:(cbn; unfold accept; lia) Hb Hg Hw) as (Hn & d1 & os1 & Hs1 & Hw1 & Hg1).
  apply octets_tail in Hb. change (state_ initial_decoder) with 0 in *.
  destruct (decide (next 0 b = 0)) as [E0|E0].
  { destruct (utf8_one b) as [Hc E]; [revert E0; next_case|]. exists b, bs. split; [done|]. by rewrite E. }
  rewrite (proj2 (Z.eqb_neq _ _)) in Hw1 by done. pose proof (next_lead b Hb1 E0 Hn) as L1. rewrite <- Hs1 in *.
  destruct (pending_octet d1 bs os1 d' ltac:(lia) Hw1 Hb Hg1 Hw) as (b2 & bs2 & d2 & os2 & -> & Hb2 & Hn2 & Hs2 & Hw2 & Hg2).
  pose proof (next_continuation (state_ d1) b2 ltac:(lia) Hn2) as L2. rewrite <- Hs2 in *.
  destruct (decide (state_ d2 = 0)) as [E2|E2].
  { destruct (utf8_two b b2) as (c & Hc & E); [clear -L1 L2 E2; intuition lia..|]. exists c, bs2. by rewrite E. }
  rewrite (proj2 (Z.eqb_neq _ _)) in Hw2 by done.
  assert (128 <= b2 < 192 /\
    (state_ d2 = 2 /\ 224 <= b < 240 /\ (b = 224 -> 160 <= b2) /\ (b = 237 -> b2 < 160) \/
     state_ d2 = 3 /\ 240 <= b < 245 /\ (b = 240 -> 144 <= b2) /\ (b = 244 -> b2 < 144))) as [R2 L]
    by (clear -L1 L2 E2; intuition lia). clear L1 L2.
  destruct (pending_octet d2 bs2 os2 d' ltac:(lia) Hw2 Hb2 Hg2 Hw) as (b3 & bs3 & d3 & os3 & -> & Hb3 & Hn3 & Hs3 & Hw3 & Hg3).
  pose proof (next_continuation (state_ d2) b3 ltac:(lia) Hn3) as L3. rewrite <- Hs3 in *.
  destruct (decide (state_ d3 = 0)) as [E3|E3].
  { destruct (utf8_three b b2 b3) as (c & Hc & E); [clear -R2 L L3 E3; intuition lia..|]. exists c, bs3. by rewrite E. }
  rewrite (proj2 (Z.eqb_neq _ _)) in Hw3 by done.
  destruct (pending_octet d3 bs3 os3 d' ltac:(lia) Hw3 Hb3 Hg3 Hw) as (b4 & bs4 & d4 & os4 & -> & _ & Hn4 & _ & _ & _).
  pose proof (next_continuation (state_ d3) b4 ltac:(lia) Hn4) as L4.
  destruct (utf8_four b b2 b3 b4) as (c & Hc & E); [clear -R2 L L3 L4 E3; intuition lia..|]. exists c, bs4. by rewrite E.
Qed.

(** ** Strings *)

(** A client's loop that encodes a sequence of code points *)
Fixpoint encode_all (cs : list Z) : outcome (list Z) :=
  match cs with
  | [] => Ok []
  | c :: cs => b <-? code_point_to_utf8 c ;; bs <-? encode_all cs ;; Ok (b ++ bs)
  end.

Lemma encode_all_ok cs : Forall scalar cs -> encode_all cs = Ok (mjoin (utf8 <$> cs)).
Proof.
  induction 1 as [|c cs Hc Hcs IH]; [done|]. cbn [encode_all]. unfold scalar in Hc.
  rewrite code_point_to_utf8_ok, IH by lia. replace (_ || _) with false by (symmetry; repeat case_match; lia). done.
Qed.

Lemma is_utf_char_start_ok b : 0 <= b < 256 -> is_utf_char_start b = negb (in_range 128 191 b).
Proof.
  intros Hb. apply eqb_prop. revert b Hb. apply octet_forall. vm_compute. reflexivity.
Qed.

(** A code point starts with one octet that counts, and none that follows does. *)
Lemma utf8_start c : scalar c -> exists b bs, utf8 c = b :: bs /\ is_utf_char_start b = true /\
  Forall (fun b => is_utf_char_start b = false) bs.
Proof.
  intros Hc. assert (forall b, 128 <= b < 192 -> is_utf_char_start b = false) as Hcont.
  { intros b Hb. rewrite is_utf_char_start_ok by lia. unfold in_range. repeat case_match; lia. }
  assert (forall b, 0 <= b < 128 \/ 192 <= b < 256 -> is_utf_char_start b = true) as Hstart.
  { intros b Hb. rewrite is_utf_char_start_ok by lia. unfold in_range. repeat case_match; lia. }
  destruct (scalar_utf8 c Hc) as
    [[Hr ->]|[(x & y & E & Hx & Hy & ->)|[(x & y & z & E & Hx & Hy & Hz & H0 & H13 & ->)
     |(w & x & y & z & E & Hw & Hx & Hy & Hz & H0 & H4 & ->)]]];
    eexists _, _; (split; [reflexivity|]); split; [apply Hstart; lia| |apply Hstart; lia| |apply Hstart; lia| |apply Hstart; lia|];
    repeat (constructor; [apply Hcont; lia|]); constructor.
Qed.

Lemma utf_length_char c rest : scalar c -> utf_length (utf8 c ++ rest) = 1 + utf_length rest.
Proof.
  intros Hc. destruct (utf8_start c Hc) as (b & bs & -> & Hb & Hbs). unfold utf_length.
  rewrite <- app_comm_cons, filter_cons_True by (by rewrite Hb). rewrite filter_app.
  rewrite list_filter_none by (eapply Forall_impl; [exact Hbs|]; intros x Hx; cbn beta; rewrite Hx; tauto). cbn [app length]. lia.
Qed.

Lemma index_loop_skip bs rest n pos : Forall (fun b => is_utf_char_start b = false) bs ->
  index_loop n pos (bs ++ rest) = (length bs + index_loop n pos rest)%nat.
Proof. induction 1 as [|b bs Hb Hbs IH]; [done|]. cbn [app index_loop]. rewrite Hb, IH. done. Qed.

(** [index] finds the octet at which the code point of a given number starts. *)
Lemma index_loop_ok cs n k : Forall scalar cs -> (k < length cs)%nat ->
  index_loop n (n + Z.of_nat k) (mjoin (utf8 <$> cs)) = length (mjoin (utf8 <$> take k cs)).
Proof.
  intros Hcs. revert n k. induction Hcs as [|c cs Hc Hcs IH]; intros n k Hk; [simpl in Hk; lia|].
  change (mjoin (utf8 <$> c :: cs)) with (utf8 c ++ mjoin (utf8 <$> cs)).
  destruct (utf8_start c Hc) as (b & bs & E & Hb & Hbs). rewrite E. cbn [app index_loop]. rewrite Hb. destruct k as [|k].
  - by rewrite (proj2 (Z.eqb_eq _ _)) by lia.
  - rewrite (proj2 (Z.eqb_neq _ _)) by lia. rewrite index_loop_skip by done. simpl in Hk.
    replace (n + Z.of_nat (S k)) with (n + 1 + Z.of_nat k) by lia. rewrite (IH (n + 1) k) by lia.
    change (mjoin (utf8 <$> take (S k) (c :: cs))) with (utf8 c ++ mjoin (utf8 <$> take k cs)).
    rewrite length_app, E. done.
Qed.

(** What the decoder makes of an encoded string *)
Lemma get_all_encoded cs : Forall scalar cs ->
  exists os, get_all initial_decoder (mjoin (utf8 <$> cs)) = Ok (os, initial_decoder) /\ omap id os = cs.
Proof.
  induction 1 as [|c cs Hc Hcs (os & E & Hos)]; [by exists []|].
  change (mjoin (utf8 <$> c :: cs)) with (utf8 c ++ mjoin (utf8 <$> cs)).
  destruct (get_all_char c (mjoin (utf8 <$> cs)) Hc) as (n & _ & ->). rewrite E. cbn [obind fst snd].
  eexists. split; [done|]. rewrite omap_app. assert (omap id (replicate n (@None Z)) = []) as -> by (induction n; done).
  cbn. by rewrite Hos.
Qed.

Lemma octets_app bs bs' : octets (bs ++ bs') -> octets bs'.
Proof. intros H. by apply Forall_app in H as [_ H]. Qed.

(** A buffer that the decoder finds well formed is an encoded string. *)
Lemma get_all_decoded n bs os d : (length bs <= n)%nat -> octets bs -> get_all initial_decoder bs = Ok (os, d) ->
  well_formed_ d = true -> exists cs, Forall scalar cs /\ bs = mjoin (utf8 <$> cs).
Proof.
  revert bs os d. induction n as [|n IH]; intros bs os d Hn Hb Hg Hw.
  { destruct bs; [by exists []|simpl in Hn; lia]. }
  destruct bs as [|b bs]; [by exists []|].
  destruct (get_all_sound b bs os d Hb Hg Hw) as (c & rest & Hc & E). rewrite E in *.
  destruct (get_all_char c rest Hc) as (k & Hk & E2). rewrite E2 in Hg.
  destruct (get_all initial_decoder rest) as [[os' d']|] eqn:Er; [|done]. injection Hg as <- <-.
  destruct (IH rest os' d') as (cs & Hcs & ->); [|by eapply octets_app|done|done|].
  - rewrite length_app, Hk in Hn. lia.
  - exists (c :: cs). split; [by constructor|done].
Qed.

Lemma get_all_total d bs : 0 <= state_ d <= 8 -> octets bs -> exists os d', get_all d bs = Ok (os, d').
Proof.
  intros Hd Hb. revert d Hd. induction Hb as [|b bs Hb Hbs IH]; intros d Hd; [cbn; eauto|].
  destruct (get_state d b Hd Hb) as (o & d1 & E & Hs & _). rewrite (get_all_cons _ _ _ _ _ E).
  destruct (IH d1) as (os & d' & ->); [rewrite Hs; apply next_range|]. cbn. eauto.
Qed.

(** ** Claims *)

(** C27: the table-driven decoder is the inverse of the encoder. It runs over any octets
    without leaving its table; it ends well formed exactly on those that encode a sequence of
    scalar values, which excludes overlong forms, surrogates, values past 10FFFF and truncated
    sequences; the values it returned on the way are then that sequence, [length] counts them and
    [index] finds the octet at which each of them starts. *)
Theorem utf8_decoder_exact (bs : list Z) : octets bs ->
  exists os d, get_all initial_decoder bs = Ok (os, d) /\
    (is_well_formed d = true <-> exists cs, Forall scalar cs /\ encode_all cs = Ok bs) /\
    (is_well_formed d = true ->
      let cs := omap id os in
      Forall scalar cs /\ encode_all cs = Ok bs /\ utf_length bs = Z.of_nat (length cs) /\
      forall k, (k < length cs)%nat -> exists pre, encode_all (take k cs) = Ok pre /\ index bs (Z.of_nat k) = length pre).
Proof.
  intros Hb. destruct (get_all_total initial_decoder bs) as (os & d & Hg); [cbn; unfold accept; lia|done|].
  exists os, d. split; [done|].
  assert (is_well_formed d = true -> exists cs, Forall scalar cs /\ bs = mjoin (utf8 <$> cs) /\ omap id os = cs) as Hdec.
  { intros Hw. destruct (get_all_decoded (length bs) bs os d ltac:(lia) Hb Hg Hw) as (cs & Hcs & ->). exists cs.
    destruct (get_all_encoded cs Hcs) as (os' & E & Hos). rewrite Hg in E. injection E as <- _. done. }
  split; [split|].
  - intros Hw. destruct (Hdec Hw) as (cs & Hcs & -> & _). exists cs. by rewrite encode_all_ok.
  - intros (cs & Hcs & E). rewrite encode_all_ok in E by done. injection E as <-.
    destruct (get_all_encoded cs Hcs) as (os' & E & _). rewrite Hg in E. by injection E as _ ->.
  - intros Hw. destruct (Hdec Hw) as (cs & Hcs & -> & ->). cbn zeta. split_and!; [done|by apply encode_all_ok| |].
    + clear -Hcs. induction Hcs as [|c cs Hc Hcs IH]; [done|].
      change (mjoin (utf8 <$> c :: cs)) with (utf8 c ++ mjoin (utf8 <$> cs)). rewrite utf_length_char, IH by done. simpl. lia.
    + intros k Hk. eexists. split; [apply encode_all_ok; by apply Forall_take|].
      unfold index. by rewrite <- (index_loop_ok cs 0 k).
Qed.

(** U+20AC U+1D11E and its seven octets *)
Lemma utf8_decoder_exact_witness :
  exists os d, get_all initial_decoder [226; 130; 172; 240; 157; 132; 158] = Ok (os, d) /\
    is_well_formed d = true /\ omap id os = [8364; 119070] /\ index [226; 130; 172; 240; 157; 132; 158] 1 = 3%nat.
Proof.
  destruct (utf8_decoder_exact [226; 130; 172; 240; 157; 132; 158]) as (os & d & Hg & Hwf & H).
  { repeat (constructor; [lia|]). constructor. }
  exists os, d. split; [exact Hg|]. vm_compute in Hg. injection Hg as <- <-. split_and!; reflexivity.
Defined.

End utf.
