(* ===== verification/Help.v ===== *)
(** * The text of help

    Models lib/cmd_util/help.cpp and the class of include/pstore/cmd_util/help.hpp that shows it: which options are listed, in
    which categories and order, how aliases are folded onto their originals, how wide the columns are and how descriptions are
    broken into lines. The options are those of CommandLine.v; what only the help reads of them is [help_info]. Categories are the
    addresses of their objects, by which the code orders them; zero is the null pointer. *)

From S2P Require Import Utf.
From S2P Require Import Prelude Chars StringView CommandUtil CommandLine.

(** What is shown of an option *)
Record help_info := mk_info { description_ : list Z; arg_description_ : option (list Z); category_ : Z }.

Definition overlong_opt_max : Z := 20.
Definition prefix_indent : list Z := [32; 32].
Definition prefix_indent_len : Z := 2.
Definition help_separator : list Z := [32; 45; 32].

(** [get_max_width], from the width of the terminal or zero *)
Definition get_max_width (terminal_width : Z) : Z :=
  let max_width := terminal_width in
  let max_width := if max_width =? 0 then 80 else max_width in
  if max_width <? overlong_opt_max then overlong_opt_max * 2 else max_width.

(** [int_cast] *)
Definition int_cast (value : Z) : Z := Z.min value (2 ^ 31 - 1).

(** A string in a field of a width, and flush left *)
Definition setw_left (width : Z) (s : list Z) : list Z := s ++ replicate (Z.to_nat (width - Z.of_nat (length s))) 32.

Section help.
Context (os : list cl_option) (info : nat -> help_info) (title : Z -> list Z).

(** The virtual functions [category] and [arg_description] of an alias call those of its original. *)
Fixpoint original_of (fuel i : nat) : outcome nat :=
  o <-? get_option os i ;;
  match class_ o with
  | Alias original => match fuel with O => Throw OutOfFuel | S fuel => original_of fuel original end
  | _ => Ok i
  end.
Definition category (i : nat) : outcome Z := j <-? original_of (length os) i ;; Ok (category_ (info j)).
Definition arg_description (i : nat) : outcome (option (list Z)) := j <-? original_of (length os) i ;; Ok (arg_description_ (info j)).

Definition option_name (i : nat) : list Z := match os !! i with Some o => name_ o | None => [] end.

(** [option_string]: the text of an option and the number of its code points *)
Definition option_string (i : nat) : outcome (list Z * Z) :=
  o <-? get_option os i ;;
  let name := name_ o in
  let code_points := utf_length name in
  let '(str, code_points) := if code_points <? 2 then ([45] ++ name, code_points + 1) else ([45; 45] ++ name, code_points + 2) in
  takes <-? takes_argument os i ;;
  desc <-? (if takes : bool then arg_description i else Ok None) ;;
  let '(str, code_points) :=
    match desc with
    | Some desc =>
        let '(str, code_points) := if code_points >? 2 then (str ++ [61], code_points + 1) else (str, code_points) in
        (str ++ [60] ++ desc ++ [62], code_points + utf_length desc + 2)
    | None => (str, code_points)
    end in
  _ <-? oassert (utf_length str =? code_points) ;;
  Ok (str, code_points).

(** [less_name], and the containers that are ordered by it *)
Definition less_name (x y : nat) : bool := match lex Z.ltb (option_name x) (option_name y) with Lt => true | _ => false end.

Fixpoint set_insert (i : nat) (l : list nat) : list nat :=
  match l with
  | [] => [i]
  | j :: l' => if less_name i j then i :: l else if less_name j i then j :: set_insert i l' else l
  end.

(** [categories[c].insert (op)] *)
Fixpoint category_insert (c : Z) (i : nat) (m : list (Z * list nat)) : list (Z * list nat) :=
  match m with
  | [] => [(c, [i])]
  | (d, l) :: m' => if c <? d then (c, [i]) :: m else if c =? d then (d, set_insert i l) :: m' else (d, l) :: category_insert c i m'
  end.

(** [build_categories]: the loop over all options *)
Fixpoint categories_loop (self : nat) (n i : nat) (m : list (Z * list nat)) : outcome (list (Z * list nat)) :=
  match n with
  | O => Ok m
  | S n =>
      m <-? (if (i =? self)%nat then Ok m
             else p <-? is_positional os i ;;
                  if p : bool then Ok m else c <-? category i ;; Ok (category_insert c i m)) ;;
      categories_loop self n (S i) m
  end.
Definition build_categories (self : nat) : outcome (list (Z * list nat)) := categories_loop self (length os) 0 [].

(** An update of [names[op]], the vector of the strings of an option *)
Notation strings := (list (list Z * Z)).
Definition add_string (name : list Z * Z) (v : strings) : outcome strings :=
  match list.last v with
  | Some (prev_string, prev_code_points) =>
      if prev_code_points + 2 + name.2 <=? overlong_opt_max then
        let prev_string := prev_string ++ [44; 32] ++ name.1 in
        let prev_code_points := prev_code_points + (2 + name.2) in
        _ <-? oassert (utf_length prev_string =? prev_code_points) ;;
        Ok (removelast v ++ [(prev_string, prev_code_points)])
      else Ok (v ++ [name])
  | None => Ok (v ++ [name])
  end.
Fixpoint update_strings (key : nat) (name : list Z * Z) (m : list (nat * strings)) : outcome (list (nat * strings)) :=
  match m with
  | [] => v <-? add_string name [] ;; Ok [(key, v)]
  | (k, v) :: m' =>
      if less_name key k then w <-? add_string name [] ;; Ok ((key, w) :: m)
      else if less_name k key then m' <-? update_strings key name m' ;; Ok ((k, v) :: m')
      else v <-? add_string name v ;; Ok ((k, v) :: m')
  end.

(** [get_switch_strings] *)
Fixpoint switch_strings_loop (ops : list nat) (names : list (nat * strings)) : outcome (list (nat * strings)) :=
  match ops with
  | [] => Ok names
  | i :: ops =>
      name <-? option_string i ;;
      _ <-? oassert (utf_length name.1 =? name.2) ;;
      o <-? get_option os i ;;
      let key := match class_ o with Alias original => original | _ => i end in
      names <-? update_strings key name names ;;
      switch_strings_loop ops names
  end.
Definition get_switch_strings (ops : list nat) : outcome (list (nat * strings)) := switch_strings_loop ops [].

(** [widest_option] *)
Definition widest_of (names : list (nat * strings)) (max_name_len : Z) : Z :=
  foldl (fun m name => Z.max m name.2) max_name_len (names ≫= snd).
Fixpoint widest_loop (categories : list (Z * list nat)) (max_name_len : Z) : outcome Z :=
  match categories with
  | [] => Ok max_name_len
  | (_, ops) :: categories => names <-? get_switch_strings ops ;; widest_loop categories (widest_of names max_name_len)
  end.
Definition widest_option (categories : list (Z * list nat)) : outcome Z := m <-? widest_loop categories 0 ;; Ok (Z.min m overlong_opt_max).

(** [has_switches] *)
Fixpoint has_switches_loop (self n i : nat) : outcome bool :=
  match n with
  | O => Ok false
  | S n =>
      o <-? get_option os i ;;
      p <-? (if negb (i =? self)%nat && negb (match class_ o with Alias _ => true | _ => false end)
             then p <-? is_positional os i ;; Ok (negb p) else Ok false) ;;
      if p : bool then Ok true else has_switches_loop self n (S i)
  end.
Definition has_switches (self : nat) : outcome bool := has_switches_loop self (length os) 0.

(** [help::usage] *)
Fixpoint positional_names (self n i : nat) : outcome (list Z) :=
  match n with
  | O => Ok []
  | S n =>
      p <-? (if negb (i =? self)%nat then is_positional os i else Ok false) ;;
      rest <-? positional_names self n (S i) ;;
      Ok ((if p : bool then [32] ++ description_ (info i) else []) ++ rest)
  end.
Definition usage (program_name : list Z) (self : nat) : outcome (list Z) :=
  b <-? has_switches self ;;
  positional <-? positional_names self (length os) 0 ;;
  Ok ([85; 83; 65; 71; 69; 58; 32] ++ program_name ++ (if b : bool then [32; 91; 111; 112; 116; 105; 111; 110; 115; 93] else []) ++ positional ++ [10]).

(** The names of an option, each on a line, and whether the last of them is too long for its column *)
Fixpoint show_names (max_name_len : Z) (is_first : bool) (names : strings) : list Z :=
  match names with
  | [] => []
  | name :: names =>
      (if is_first then [] else [10]) ++ prefix_indent ++ setw_left (int_cast max_name_len) name.1 ++ show_names max_name_len false names
  end.
Definition is_overlong (names : strings) : bool := match list.last names with Some name => name.2 >? overlong_opt_max | None => false end.

(** The lines of a description *)
Fixpoint show_lines (indent : Z) (is_first overlong : bool) (lines : list (list Z)) : list Z :=
  match lines with
  | [] => []
  | line :: lines =>
      (if negb is_first || overlong then [10] ++ setw_left (int_cast (indent + prefix_indent_len)) [32] else []) ++ line ++
      show_lines indent false false lines
  end.

(** A width beyond the text is as good as that of the text. *)
Definition wrap_description (description : list Z) (width : Z) : outcome (list (list Z)) :=
  wrap_text description (Z.to_nat (Z.min width (Z.of_nat (length description)))).

Fixpoint show_switches (max_name_len description_width : Z) (switches : list (nat * strings)) : outcome (list Z) :=
  match switches with
  | [] => Ok []
  | (op, names) :: switches =>
      lines <-? wrap_description (description_ (info op)) description_width ;;
      rest <-? show_switches max_name_len description_width switches ;;
      Ok (show_names max_name_len true names ++ help_separator ++
          show_lines (max_name_len + 3) true (is_overlong names) lines ++ [10] ++ rest)
  end.

Fixpoint show_categories (max_name_len description_width : Z) (categories : list (Z * list nat)) : outcome (list Z) :=
  match categories with
  | [] => Ok []
  | (c, ops) :: categories =>
      names <-? get_switch_strings ops ;;
      body <-? show_switches max_name_len description_width names ;;
      rest <-? show_categories max_name_len description_width categories ;;
      Ok ([10] ++ (if c =? 0 then [79; 80; 84; 73; 79; 78; 83] else title c) ++ [58; 10; 10] ++ body ++ rest)
  end.

(** [help::show] *)
Definition show (terminal_width : Z) (program_name overview : list Z) (self : nat) : outcome (list Z) :=
  let max_width := get_max_width terminal_width in
  u <-? usage program_name self ;;
  categories <-? build_categories self ;;
  max_name_len <-? widest_option categories ;;
  let description_width := wrap64 (max_width - max_name_len - 3 - prefix_indent_len) in
  body <-? show_categories max_name_len description_width categories ;;
  Ok ([79; 86; 69; 82; 86; 73; 69; 87; 58; 32] ++ overview ++ [10] ++ u ++ body).

(** ** Which options are shown *)

Lemma ltb_asym x y : (x <? y) = true -> (y <? x) = false.
Proof. rewrite Z.ltb_lt, Z.ltb_ge. lia. Qed.
Lemma ltb_total x y : (x <? y) = false -> (y <? x) = false -> x = y.
Proof. rewrite !Z.ltb_ge. lia. Qed.

Lemma less_name_total i j : less_name i j = false -> less_name j i = false -> option_name i = option_name j.
Proof.
  unfold less_name. rewrite (lex_opp Z.ltb ltb_asym (option_name i)). intros H1 H2.
  apply (lex_eq Z.ltb ltb_asym ltb_total). by destruct (lex Z.ltb (option_name i) (option_name j)).
Qed.

Lemma elem_of_set_insert i j l : (forall k, k ∈ l -> option_name k = option_name i -> k = i) -> j ∈ set_insert i l <-> j = i \/ j ∈ l.
Proof.
  induction l as [|k l IH]; intros Hn; cbn [set_insert]; [by rewrite elem_of_cons|].
  destruct (less_name i k) eqn:E1; [by rewrite elem_of_cons|]. destruct (less_name k i) eqn:E2.
  - rewrite !elem_of_cons, IH; [tauto|]. intros k' Hk'. apply Hn. by apply elem_of_cons; right.
  - assert (k = i) as -> by (apply Hn; [by apply elem_of_cons; left|by apply less_name_total]). rewrite elem_of_cons. tauto.
Qed.

(** An option is in a category. *)
Definition listed (m : list (Z * list nat)) (c : Z) (i : nat) : Prop := exists l, (c, l) ∈ m /\ i ∈ l.

Lemma listed_cons d l m c i : listed ((d, l) :: m) c i <-> (c = d /\ i ∈ l) \/ listed m c i.
Proof.
  unfold listed. split.
  - intros (l' & Hl & Hi). apply elem_of_cons in Hl as [[= -> ->]|Hl]; [by left|by right; exists l'].
  - intros [[-> Hi]|(l' & Hl & Hi)]; [exists l; split; [by apply elem_of_cons; left|done]|exists l'; split; [by apply elem_of_cons; right|done]].
Qed.

Lemma listed_insert c i m d j : (forall e k, listed m e k -> option_name k = option_name i -> k = i) ->
  listed (category_insert c i m) d j <-> (d = c /\ j = i) \/ listed m d j.
Proof.
  induction m as [|[e l] m IH]; intros Hn; cbn [category_insert].
  - rewrite listed_cons, list_elem_of_singleton. tauto.
  - assert (forall e k, listed m e k -> option_name k = option_name i -> k = i) as Hm by (intros e' k Hk; apply (Hn e'); by rewrite listed_cons; right).
    destruct (c <? e); [rewrite (listed_cons c), list_elem_of_singleton; tauto|]. destruct (Z.eqb_spec c e) as [->|Hne].
    + rewrite !listed_cons, elem_of_set_insert; [tauto|]. intros k Hk. apply (Hn e). rewrite listed_cons. by left.
    + rewrite !listed_cons, (IH Hm). tauto.
Qed.

(** Aliases lead to an option that is not one, and names are different. *)
Record options_ok : Prop := {
  aliases_end : forall i, (i < length os)%nat -> exists j, original_of (length os) i = Ok j;
  names_distinct : forall i j, (i < length os)%nat -> (j < length os)%nat -> option_name i = option_name j -> i = j
}.

Lemma resolve_original fuel i j : original_of fuel i = Ok j -> exists o, resolve fuel os i = Ok o /\ os !! j = Some o.
Proof.
  revert i. induction fuel as [|fuel IH]; intros i; cbn [original_of resolve]; unfold get_option; destruct (os !! i) as [o|] eqn:E; cbn [obind]; try done;
    destruct (class_ o) eqn:Ec; try done; try (intros [= <-]; by exists o); apply IH.
Qed.

(** The categories list every option once: those that are not positional and not the help itself, where they belong. *)
Lemma categories_loop_ok self n i m : options_ok -> (i + n = length os)%nat ->
  (forall c j, listed m c j <-> (j < i)%nat /\ j <> self /\ is_positional os j = Ok false /\ category j = Ok c) ->
  exists m', categories_loop self n i m = Ok m' /\
    (forall c j, listed m' c j <-> (j < length os)%nat /\ j <> self /\ is_positional os j = Ok false /\ category j = Ok c).
Proof.
  intros Hok. revert i m. induction n as [|n IH]; intros i m Hi Hm; cbn [categories_loop].
  - exists m. split; [done|]. by replace (length os) with i by lia.
  - destruct (aliases_end Hok i ltac:(lia)) as (k & Hk). destruct (resolve_original _ _ _ Hk) as (o & Ho & _).
    assert (is_positional os i = Ok (positional_ o)) as Hp by (unfold is_positional; by rewrite Ho).
    assert (category i = Ok (category_ (info k))) as Hc by (unfold category; by rewrite Hk).
    assert (forall c j, (j < S i)%nat /\ j <> self /\ is_positional os j = Ok false /\ category j = Ok c <->
              ((j < i)%nat /\ j <> self /\ is_positional os j = Ok false /\ category j = Ok c) \/
              (j = i /\ i <> self /\ positional_ o = false /\ c = category_ (info k))) as Hs.
    { intros c j. split.
      - intros (Hj & Hself & Hpj & Hcj). destruct (decide (j = i)) as [->|]; [right|left; split_and!; [lia|done|done|done]].
        split_and!; [done|done|congruence|congruence].
      - intros [(Hj & ?)|(-> & ? & Hpos & ->)]; [split; [lia|done]|]. rewrite Hp, Hpos, Hc. split_and!; [lia|done|done|done]. }
    destruct (Nat.eqb_spec i self) as [->|Hself]; cbn [obind].
    + apply IH; [lia|]. intros c j. rewrite Hm, Hs. tauto.
    + rewrite Hp. cbn [obind]. destruct (positional_ o) eqn:Epos; cbn [obind].
      * apply IH; [lia|]. intros c j. rewrite Hm, Hs. intuition congruence.
      * rewrite Hc. cbn [obind]. apply IH; [lia|]. intros c j. rewrite listed_insert, Hm, Hs.
        -- intuition congruence.
        -- intros e k' Hk' Hname. apply Hm in Hk' as (Hlt & _). apply (names_distinct Hok); [lia|lia|done].
Qed.

Lemma build_categories_ok self : options_ok -> exists m, build_categories self = Ok m /\
  (forall c i, listed m c i <-> (i < length os)%nat /\ i <> self /\ is_positional os i = Ok false /\ category i = Ok c).
Proof.
  intros Hok. apply categories_loop_ok; [done|lia|]. intros c j. split; [by intros (l & H & _); apply elem_of_nil in H|lia].
Qed.

(** ** The columns *)

Lemma widest_of_spec names m : m <= widest_of names m /\ forall key v name, (key, v) ∈ names -> name ∈ v -> name.2 <= widest_of names m.
Proof.
  unfold widest_of. assert (forall (l : list (list Z * Z)) m, let r := foldl (fun m name => Z.max m name.2) m l in m <= r /\ forall name, name ∈ l -> name.2 <= r) as H.
  { induction l as [|x l IH]; intros k; cbn [foldl]; [split; [lia|by intros ? ?%elem_of_nil]|]. destruct (IH (Z.max k x.2)) as [H1 H2].
    split; [lia|]. intros name [->|Hn]%elem_of_cons; [lia|by apply H2]. }
  destruct (H (names ≫= snd) m) as [H1 H2]. split; [done|]. intros key v name Hk Hn. apply H2, list_elem_of_bind. by exists (key, v).
Qed.

Lemma widest_loop_spec cs m w : widest_loop cs m = Ok w -> m <= w /\
  forall c ops names key v name, (c, ops) ∈ cs -> get_switch_strings ops = Ok names -> (key, v) ∈ names -> name ∈ v -> name.2 <= w.
Proof.
  revert m. induction cs as [|[c ops] cs IH]; intros m; cbn [widest_loop]; [intros [= ->]; split; [lia|by intros ? ? ? ? ? ? ?%elem_of_nil]|].
  destruct (get_switch_strings ops) as [names|] eqn:E; [|done]. cbn [obind]. intros H. destruct (IH _ H) as [H1 H2].
  destruct (widest_of_spec names m) as [H3 H4]. split; [lia|]. intros c' ops' names' key v name [[= -> ->]|Hin]%elem_of_cons Hg Hk Hv; [|by eapply H2].
  assert (names' = names) as -> by congruence. specialize (H4 _ _ _ Hk Hv). lia.
Qed.

(** The column of names is as wide as the longest of them that is not too long, and at most 20. *)
Lemma widest_option_ok cs w : widest_option cs = Ok w -> 0 <= w <= overlong_opt_max /\
  forall c ops names key v name, (c, ops) ∈ cs -> get_switch_strings ops = Ok names -> (key, v) ∈ names -> name ∈ v -> name.2 <= w \/ overlong_opt_max < name.2.
Proof.
  unfold widest_option. destruct (widest_loop cs 0) as [m|] eqn:E; [|done]. cbn [obind]. intros [= <-].
  destruct (widest_loop_spec _ _ _ E) as [H1 H2]. unfold overlong_opt_max in *. split; [lia|]. intros c ops names key v name Hc Hg Hk Hn.
  specialize (H2 _ _ _ _ _ _ Hc Hg Hk Hn). lia.
Qed.
End help.

(** In a terminal with room for the names, a line with a name that is not too long and a line of the description fit. *)
Lemma help_line_fits terminal w name line : 0 <= w <= overlong_opt_max -> Z.of_nat (length name) <= w -> w + 5 < get_max_width terminal ->
  Z.of_nat (length line) <= get_max_width terminal - w - 3 - prefix_indent_len ->
  Z.of_nat (length (prefix_indent ++ setw_left (int_cast w) name ++ help_separator ++ line)) <= get_max_width terminal /\
  Z.of_nat (length (setw_left (int_cast (w + 3 + prefix_indent_len)) [32] ++ line)) <= get_max_width terminal.
Proof.
  unfold overlong_opt_max, prefix_indent_len. intros Hw Hn Ht Hl. unfold setw_left, int_cast, prefix_indent, help_separator.
  rewrite !length_app, !length_replicate. cbn [length]. rewrite !Z.min_l by lia. lia.
Qed.

(** The lines of a description whose words fit are no longer than their width. *)
Lemma wrap_description_ok description width : 0 < width -> words_fit description (Z.to_nat (Z.min width (Z.of_nat (length description)))) ->
  (forall c, description !! 0%nat = Some c -> is_blank c = false) ->
  exists lines, wrap_description description width = Ok lines /\ Forall (fun l => Z.of_nat (length l) <= width) lines.
Proof.
  intros Hw Hfit Hb. unfold wrap_description. destruct description as [|c d].
  { exists []. split; [|constructor]. unfold wrap_text, next. cbn [length]. by rewrite Nat.min_0_r. }
  destruct (wrap_text_ok (c :: d) (Z.to_nat (Z.min width (Z.of_nat (length (c :: d))))) ltac:(cbn [length]; lia) Hfit Hb) as (lines & E & Hl & _). exists lines. split; [done|].
  eapply Forall_impl; [exact Hl|]. intros l H. cbn beta in H. lia.
Qed.

(** Four or less columns beside the widest names: the width of the descriptions wraps around or is zero. With zero an assertion
    fails at the second word of a description. *)
Definition help_example : list cl_option := [Option (replicate 18 120) optional false 0 (OptBool false); help_option].
Definition help_example_info (i : nat) : help_info := mk_info [97; 32; 98] None 0.
Lemma help_narrow :
  show help_example help_example_info (fun _ => []) 25 [112] [79] 1 = Throw Assert /\
  (exists text, show help_example help_example_info (fun _ => []) 24 [112] [79] 1 = Ok text) /\
  (exists text, show help_example help_example_info (fun _ => []) 26 [112] [79] 1 = Ok text).
Proof. split; [by vm_compute|]. split; eexists; by vm_compute. Qed.
