(* ===== verification/WebSocket.v ===== *)
(** * WebSockets

    Models include/pstore/http/ws_server.hpp and lib/http/ws_server.cpp, with the bit fields of
    include/pstore/support/bit_field.hpp and the byte order of http/endian.hpp and http/send.hpp:
    the frames that clients send, the replies of the server, and the messages that are
    assembled from frames. The function that sends octets belongs to the caller; it is an
    argument of the definitions. *)

From S2P Require Import Utf Prelude BitField Chars Http.

(** ** Bit fields and byte order *)

(** The fields of [frame_fixed_layout]: position and width *)
Definition payload_length_field : Z * Z := (0, 7).
Definition mask_field : Z * Z := (7, 1).
Definition opcode_field : Z * Z := (8, 4).
Definition rsv_field : Z * Z := (12, 3).
Definition fin_field : Z * Z := (15, 1).

Definition field_value (f : Z * Z) (raw : Z) : Z := bit_field_value f.1 f.2 raw.
Definition field_assign (f : Z * Z) (raw v : Z) : Z := bit_field_assign 16 f.1 f.2 raw v.

(** [network_to_host] of the octets of a word, and the octets of [host_to_network] *)
Definition network_to_host (octets : list Z) : Z := foldl (fun n b => n * 256 + b) 0 octets.

Fixpoint host_to_network (size : nat) (v : Z) : list Z :=
  match size with
  | 0%nat => []
  | S size => host_to_network size (v / 256) ++ [v mod 256]
  end.

(** ** Frames *)

Inductive opcode :=
  | continuation | text_frame | binary
  | reserved_nc_1 | reserved_nc_2 | reserved_nc_3 | reserved_nc_4 | reserved_nc_5
  | close | ping | pong_frame
  | reserved_control_1 | reserved_control_2 | reserved_control_3 | reserved_control_4 | reserved_control_5
  | unknown.

#[global] Instance opcode_eq_dec : EqDecision opcode.
Proof. solve_decision. Defined.

Definition opcodes : list opcode :=
  [continuation; text_frame; binary; reserved_nc_1; reserved_nc_2; reserved_nc_3; reserved_nc_4; reserved_nc_5;
   close; ping; pong_frame; reserved_control_1; reserved_control_2; reserved_control_3; reserved_control_4;
   reserved_control_5].

(** The conversions between the enumeration and its values *)
Definition opcode_code (op : opcode) : Z :=
  match op with
  | continuation => 0 | text_frame => 1 | binary => 2
  | reserved_nc_1 => 3 | reserved_nc_2 => 4 | reserved_nc_3 => 5 | reserved_nc_4 => 6 | reserved_nc_5 => 7
  | close => 8 | ping => 9 | pong_frame => 10
  | reserved_control_1 => 11 | reserved_control_2 => 12 | reserved_control_3 => 13 | reserved_control_4 => 14
  | reserved_control_5 => 15
  | unknown => 255
  end.

Definition opcode_of (code : Z) : opcode := default unknown (opcodes !! Z.to_nat code).

(** [is_control_frame_opcode] *)
Definition is_control_frame_opcode (op : opcode) : bool := negb (Z.land (opcode_code op) 8 =? 0).

Record frame := Frame { f_op : opcode; f_fin : bool; f_payload : list Z }.

(** The values of [close_status_code] *)
Definition close_normal : Z := 1000.
Definition close_protocol_error : Z := 1002.
Definition close_abnormal_closure : Z := 1006.
Definition close_invalid_payload : Z := 1007.

(** [is_valid_close_status_code] *)
Definition is_valid_close_status_code (code : Z) : bool :=
  if bool_decide (code ∈ [1001; 1011; 1007; 1010; 1009; 1000; 1008; 1002; 1003]) then true
  else if bool_decide (code ∈ [1006; 1014; 1005; 1004; 1012; 1015; 1013]) then false
  else (code >=? 3000) && (code <? 5000).

(** The loop of [decode_payload] *)
Definition xor_mask (mask payload : list Z) : list Z :=
  imap (fun ctr b => Z.lxor b (default 0 (mask !! (ctr mod 4)%nat))) payload.

(** [decode_payload] *)
Definition decode_payload (expected_length : Z) (mask payload : list Z) : error_or (list Z) :=
  if negb (Z.of_nat (length payload) =? expected_length) then Err insufficient_data
  else Val (xor_mask mask payload).

Section read_frame.
Context {IO : Type} (refill : IO -> nat -> error_or (IO * list Z)).

(** [read_and_byte_swap]: [get_span] of one word of [size] octets; the access to the
    element asserts that it is there *)
Definition read_and_byte_swap (size : nat) (io : IO) : M reader (error_or (IO * Z)) :=
  '(io2, l1) <-! get_span refill io size ;;
  massert (0 <? length l1 / size)%nat ;;;
  ret (Val (io2, network_to_host l1)).

(** [read_payload_length] *)
Definition read_payload_length (io : IO) (base_length : Z) : M reader (error_or (IO * Z)) :=
  if base_length <? 126 then ret (Val (io, base_length))
  else if base_length =? 126 then read_and_byte_swap 2 io
  else read_and_byte_swap 8 io.

(** [read_frame] *)
Definition read_frame (io : IO) : M reader (error_or (IO * frame)) :=
  '(io1, p1) <-! get_span refill io 2 ;;
  if negb (length p1 / 2 =? 1)%nat then ret (Err insufficient_data)
  else
    let raw := network_to_host p1 in
    if negb (field_value rsv_field raw =? 0) then ret (Err reserved_bit_set)
    else if field_value mask_field raw =? 0 then ret (Err unmasked_frame)
    else
      '(io2, payload_length) <-! read_payload_length io1 (field_value payload_length_field raw) ;;
      if negb (Z.land payload_length (2 ^ 63) =? 0) then ret (Err payload_too_long)
      else
        '(io3, mask) <-! get_span refill io2 4 ;;
        if negb (length mask =? 4)%nat then ret (Err insufficient_data)
        else
          '(io4, payload) <-! get_span refill io3 (Z.to_nat payload_length) ;;
          match decode_payload payload_length mask payload with
          | Err e => ret (Err e)
          | Val payload =>
              ret (Val (io4, Frame (opcode_of (field_value opcode_field raw))
                               (negb (field_value fin_field raw =? 0)) payload))
          end.
End read_frame.

(** ** Replies *)

(** [is_valid_utf8] *)
Definition is_valid_utf8 (octets : list Z) : outcome bool :=
  r <-? get_all initial_decoder octets ;; Ok (is_well_formed r.2).

(** A connection: the reader, and the octets that have been sent *)
Record conn := Conn { c_reader : reader; c_sent : list Z }.

Definition in_reader {A} (m : M reader A) : M conn A :=
  fun c => let '(r, rd) := m (c_reader c) in (r, Conn rd (c_sent c)).

(** [ws_command] *)
Record ws_command := WsCommand { cmd_op : opcode; cmd_payload : list Z }.

Definition no_command : ws_command := WsCommand unknown [].

Section server.
Context {IO : Type} (refill : IO -> nat -> error_or (IO * list Z)) (sender : IO -> list Z -> error_or IO).

(** [send]: octets *)
Definition send (io : IO) (s : list Z) : M conn (error_or IO) :=
  fun c =>
    match sender io s with
    | Err e => (Ok (Err e), c)
    | Val io => (Ok (Val io), Conn (c_reader c) (c_sent c ++ s))
    end.

(** [send_extended_length_message], with a length of [size] octets *)
Definition send_extended_length_message (size : nat) (io : IO) (raw : Z) (span : list Z) : M conn (error_or IO) :=
  r <- (r <- send io (host_to_network 2 raw) ;;
        match r with
        | Err e => ret (Err e)
        | Val io2 =>
            massert (Z.of_nat (length span) <? 256 ^ Z.of_nat size) ;;;
            send io2 (host_to_network size (Z.of_nat (length span)))
        end) ;;
  match r with
  | Err e => ret (Err e)
  | Val io3 => send io3 span
  end.

(** The first word of a frame that is sent: the fields are assigned one by one *)
Definition frame_word (op : opcode) (payload_length : Z) : Z :=
  let f := field_assign fin_field 0 1 in
  let f := field_assign rsv_field f 0 in
  let f := field_assign opcode_field f (opcode_code op) in
  let f := field_assign mask_field f 0 in
  field_assign payload_length_field f payload_length.

(** [send_message] *)
Definition send_message (io : IO) (op : opcode) (span : list Z) : M conn (error_or IO) :=
  let length_ := Z.of_nat (length span) in
  if length_ <? 126 then
    r <- send io (host_to_network 2 (frame_word op length_)) ;;
    match r with
    | Err e => ret (Err e)
    | Val io2 => send io2 span
    end
  else if length_ <=? 65535 then send_extended_length_message 2 io (frame_word op 126) span
  else if negb (Z.land (wrap64 length_) (2 ^ 63) =? 0) then ret (Err message_too_long)
  else send_extended_length_message 8 io (frame_word op 127) span.

(** [pong] *)
Definition pong (io : IO) (payload : list Z) : M conn (error_or IO) := send_message io pong_frame payload.

(** [send_close_frame] *)
Definition send_close_frame (io : IO) (status : Z) : M conn (error_or IO) :=
  send_message io close (host_to_network 2 status).

(** [close_message] *)
Definition close_message (io : IO) (wsp : frame) : M conn (error_or IO) :=
  let payload_size := length (f_payload wsp) in
  state <- (if (payload_size =? 0)%nat then ret close_normal
            else if (payload_size <? 2)%nat then ret close_protocol_error
            else
              let state := network_to_host (take 2 (f_payload wsp)) in
              if negb (is_valid_close_status_code state) then ret close_protocol_error
              else if (2 <? payload_size)%nat then
                valid <- lift (is_valid_utf8 (drop 2 (f_payload wsp))) ;;
                ret (if valid then state else close_invalid_payload)
              else ret state) ;;
  send_close_frame io state.

(** [check_message_complete]: whether the connection goes on, and the new command. The
    result of a send is only written to the log. *)
Definition check_message_complete (io : IO) (wsp : frame) (command : ws_command) : M conn (bool * ws_command) :=
  if f_fin wsp then
    valid <- (if bool_decide (cmd_op command = text_frame) then lift (is_valid_utf8 (cmd_payload command)) else ret true) ;;
    if negb valid then
      send_close_frame io close_invalid_payload ;;; ret (false, command)
    else
      send_message io (cmd_op command) (cmd_payload command) ;;;
      ret (true, no_command)
  else ret (true, command).

(** The part of [socket_read] that follows the arrival of a frame *)
Definition handle_frame (io : IO) (wsp : frame) (command : ws_command) : M conn (IO * bool * ws_command) :=
  let fail : M conn (IO * bool * ws_command) :=
    send_close_frame io close_protocol_error ;;; ret (io, true, command) in
  if is_control_frame_opcode (f_op wsp) && (negb (f_fin wsp) || (125 <? length (f_payload wsp))%nat) then fail
  else
    match f_op wsp with
    | continuation =>
        if is_control_frame_opcode (cmd_op command) then fail
        else
          '(ok, command) <- check_message_complete io wsp
                              (WsCommand (cmd_op command) (cmd_payload command ++ f_payload wsp)) ;;
          ret (io, negb ok, command)
    | text_frame | binary =>
        if negb (bool_decide (cmd_op command = unknown)) || negb (bool_decide (cmd_payload command = [])) then fail
        else
          '(ok, command) <- check_message_complete io wsp (WsCommand (f_op wsp) (f_payload wsp)) ;;
          ret (io, negb ok, command)
    | close => close_message io wsp ;;; ret (io, true, command)
    | ping => pong io (f_payload wsp) ;;; ret (io, false, command)
    | pong_frame => ret (io, false, command)
    | unknown => throw Assert
    | _ => fail
    end.

(** [socket_read]: the state of the IO, whether the connection is done, and the command *)
Definition socket_read (io : IO) (command : ws_command) : M conn (IO * bool * ws_command) :=
  eo <- in_reader (read_frame refill io) ;;
  match eo with
  | Err error =>
      (if bool_decide (error = unmasked_frame) then send_close_frame io close_protocol_error
       else if bool_decide (error = reserved_bit_set) then send_close_frame io close_protocol_error
       else send_close_frame io close_abnormal_closure) ;;;
      ret (io, true, command)
  | Val (io, wsp) => handle_frame io wsp command
  end.
End server.

(** ** The octets of frames *)

Lemma field_value_mod f raw : 0 <= f.1 -> 0 <= f.2 -> field_value f raw = (raw / 2 ^ f.1) mod 2 ^ f.2.
Proof. apply bit_field_value_mod. Qed.

Lemma length_host_to_network n v : length (host_to_network n v) = n.
Proof. revert v. induction n as [|n IH]; intros v; [done|]. cbn. rewrite length_app, IH. simpl. lia. Qed.

Lemma network_roundtrip n v : 0 <= v < 256 ^ Z.of_nat n -> network_to_host (host_to_network n v) = v.
Proof.
  revert v. induction n as [|n IH]; intros v Hv; [cbn in *; lia|].
  cbn [host_to_network]. unfold network_to_host. rewrite foldl_app. cbn [foldl].
  fold (network_to_host (host_to_network n (v / 256))). rewrite IH.
  - pose proof (Z.div_mod v 256). lia.
  - rewrite Nat2Z.inj_succ, Z.pow_succ_r in Hv by lia. split; [apply Z.div_pos; lia|].
    apply Z.div_lt_upper_bound; lia.
Qed.

(** The lengths of section 5.2 of RFC 6455 *)
Definition base_length (n : Z) : Z := if n <? 126 then n else if n <=? 65535 then 126 else 127.
Definition extended_length (n : Z) : list Z :=
  if n <? 126 then [] else if n <=? 65535 then host_to_network 2 n else host_to_network 8 n.

(** A frame as a client sends it, masked with the [key], and as the server does *)
Definition client_frame (key : list Z) (f : frame) : list Z :=
  let n := Z.of_nat (length (f_payload f)) in
  [Z.b2z (f_fin f) * 128 + opcode_code (f_op f); 128 + base_length n] ++ extended_length n ++
  key ++ xor_mask key (f_payload f).

Definition server_frame (op : opcode) (payload : list Z) : list Z :=
  let n := Z.of_nat (length payload) in
  [128 + opcode_code op; base_length n] ++ extended_length n ++ payload.

Record frame_ok (f : frame) : Prop := {
  fr_op : f_op f <> unknown;
  fr_payload : octets (f_payload f);
  fr_length : Z.of_nat (length (f_payload f)) < 2 ^ 63
}.

Definition key_ok (key : list Z) : Prop := length key = 4%nat.

Lemma length_xor_mask key payload : length (xor_mask key payload) = length payload.
Proof. apply length_imap. Qed.

Lemma xor_mask_twice key payload : xor_mask key (xor_mask key payload) = payload.
Proof.
  apply list_eq. intros i. unfold xor_mask. rewrite !list_lookup_imap. destruct (payload !! i) as [b|]; [|done]. cbn.
  by rewrite Z.lxor_assoc, Z.lxor_nilpotent, Z.lxor_0_r.
Qed.

Lemma opcode_code_range op : op <> unknown -> 0 <= opcode_code op < 16 /\ opcode_of (opcode_code op) = op.
Proof. by destruct op. Qed.

Lemma base_length_range n : 0 <= n -> 0 <= base_length n < 128.
Proof. intros Hn. unfold base_length. destruct (Z.ltb_spec n 126), (Z.leb_spec n 65535); lia. Qed.

(** The fields of the first word of a frame *)
Lemma frame_fields fin op m n : 0 <= fin < 2 -> 0 <= op < 16 -> 0 <= m < 2 -> 0 <= n < 128 ->
  let raw := network_to_host [fin * 128 + op; m * 128 + n] in
  field_value rsv_field raw = 0 /\ field_value mask_field raw = m /\ field_value payload_length_field raw = n /\
  field_value opcode_field raw = op /\ field_value fin_field raw = fin.
Proof.
  intros Hf Ho Hm Hn raw. rewrite !field_value_mod by (cbn; lia). unfold raw, network_to_host.
  cbn [foldl rsv_field mask_field payload_length_field opcode_field fin_field fst snd].
  change (2 ^ 0) with 1. change (2 ^ 1) with 2. change (2 ^ 3) with 8. change (2 ^ 4) with 16. change (2 ^ 7) with 128.
  change (2 ^ 8) with 256. change (2 ^ 12) with 4096. change (2 ^ 15) with 32768.
  Z.to_euclidean_division_equations. lia.
Qed.

Lemma land_high n : 0 <= n < 2 ^ 63 -> Z.land n (2 ^ 63) = 0.
Proof.
  intros Hn. apply Z.bits_inj'. intros i Hi. rewrite Z.land_spec, Z.bits_0, Z.pow2_bits_eqb by lia.
  destruct (Z.eqb_spec 63 i) as [<-|]; [|by rewrite andb_false_r]. by rewrite (testbit_ge 63).
Qed.

Section stream.
Context {IO : Type} (refill : IO -> nat -> error_or (IO * list Z)) (rest : IO -> list Z) `{!RefillLaws refill rest}.
Implicit Types r : reader.

(** Reading as many octets as the stream begins with *)
Lemma get_span_app io r a s :
  reader_ok r -> stream rest io r = a ++ s ->
  wp (get_span refill io (length a)) (fun res r' => exists io', res = Val (io', a) /\ reader_ok r' /\ stream rest io' r' = s) r.
Proof.
  intros Hok Hst. eapply wp_mono; [by apply (get_span_spec refill rest)|].
  intros res r' (io' & -> & Hok' & _ & Hst'). rewrite Hst in *. rewrite take_app_length, drop_app_length in *. by exists io'.
Qed.

Lemma read_and_byte_swap_spec io r n v s :
  reader_ok r -> 0 <= v < 256 ^ Z.of_nat n -> (0 < n)%nat -> stream rest io r = host_to_network n v ++ s ->
  wp (read_and_byte_swap refill n io) (fun res r' => exists io', res = Val (io', v) /\ reader_ok r' /\ stream rest io' r' = s) r.
Proof.
  intros Hok Hv Hn Hst. unfold read_and_byte_swap. apply wp_ebind.
  rewrite <- (length_host_to_network n v) at 1. eapply wp_mono; [by apply get_span_app|].
  intros res r' (io' & -> & Hok' & Hst'). rewrite length_host_to_network, Nat.div_same by lia. wp_head. wp_head; [done|].
  wp_head. exists io'. by rewrite network_roundtrip.
Qed.

Lemma read_payload_length_spec io r n s :
  reader_ok r -> 0 <= n < 2 ^ 63 -> stream rest io r = extended_length n ++ s ->
  wp (read_payload_length refill io (base_length n)) (fun res r' => exists io',
    res = Val (io', n) /\ reader_ok r' /\ stream rest io' r' = s) r.
Proof.
  intros Hok Hn Hst. unfold read_payload_length, base_length, extended_length in *.
  destruct (Z.ltb_spec n 126) as [Hs|Hs].
  { rewrite (proj2 (Z.ltb_lt n 126)) by lia. wp_head. by exists io. }
  destruct (Z.leb_spec n 65535) as [Hm|Hm]; cbn [Z.ltb Z.compare Z.eqb Pos.eqb]; apply read_and_byte_swap_spec; try done; try lia.
Qed.

(** A frame is read back from the octets that a client sends for it. *)
Lemma read_frame_spec io r key f s :
  reader_ok r -> frame_ok f -> key_ok key -> stream rest io r = client_frame key f ++ s ->
  wp (read_frame refill io) (fun res r' => exists io', res = Val (io', f) /\ reader_ok r' /\ stream rest io' r' = s) r.
Proof.
  intros Hok [Hop Hpl Hlen] Hkey Hst. unfold read_frame, client_frame in *.
  set (n := Z.of_nat (length (f_payload f))) in *. destruct (opcode_code_range _ Hop) as [Hor Hoc].
  pose proof (base_length_range n ltac:(lia)) as Hb.
  assert (0 <= Z.b2z (f_fin f) < 2) as Hfin by (destruct (f_fin f); cbn; lia).
  destruct (frame_fields (Z.b2z (f_fin f)) (opcode_code (f_op f)) 1 (base_length n) Hfin Hor ltac:(lia) Hb)
    as (Hrsv & Hmask & Hpay & Hopc & Hf). rewrite Z.mul_1_l in *.
  rewrite <- !(assoc_L (++)) in Hst.
  apply wp_ebind. eapply wp_mono; [exact (get_span_app io r _ _ Hok Hst)|]. intros res r1 (io1 & -> & Hok1 & Hst1).
  cbn [length]. change (2 / 2 =? 1)%nat with true. cbn [negb]. rewrite Hrsv, Hmask, Hpay. cbn [negb Z.eqb].
  apply wp_ebind. eapply wp_mono; [by apply read_payload_length_spec; [|lia|]|]. intros res r2 (io2 & -> & Hok2 & Hst2).
  rewrite land_high by lia. cbn [negb Z.eqb].
  pose proof (get_span_app io2 r2 key _ Hok2 Hst2) as Hg. unfold key_ok in Hkey. rewrite Hkey in Hg.
  apply wp_ebind. eapply wp_mono; [exact Hg|]. intros res r3 (io3 & -> & Hok3 & Hst3).
  rewrite Hkey. cbn [Nat.eqb negb]. apply wp_ebind.
  replace (Z.to_nat n) with (length (xor_mask key (f_payload f))) by (rewrite length_xor_mask; lia).
  eapply wp_mono; [by apply get_span_app|]. intros res r4 (io4 & -> & Hok4 & Hst4).
  unfold decode_payload. rewrite length_xor_mask, Z.eqb_refl. cbn [negb]. rewrite xor_mask_twice, Hopc, Hf, Hoc.
  wp_head. exists io4. split_and!; [|done|done]. destruct f as [op [] p]; done.
Qed.

(** The refusals of a frame, by its first two octets *)
Lemma read_frame_refused io r b0 b1 s :
  reader_ok r -> stream rest io r = [b0; b1] ++ s -> 0 <= b0 < 256 -> 0 <= b1 < 256 ->
  (16 <= b0 mod 128 -> wp (read_frame refill io) (fun res r' => res = Err reserved_bit_set /\ reader_ok r') r) /\
  (b0 mod 128 < 16 -> b1 < 128 -> wp (read_frame refill io) (fun res r' => res = Err unmasked_frame /\ reader_ok r') r).
Proof.
  intros Hok Hst H0 H1.
  assert (field_value rsv_field (network_to_host [b0; b1]) = b0 mod 128 / 16 /\
    field_value mask_field (network_to_host [b0; b1]) = b1 / 128) as [Hrsv Hmask].
  { rewrite !field_value_mod by (cbn; lia). unfold network_to_host. cbn [foldl rsv_field mask_field fst snd].
    change (2 ^ 1) with 2. change (2 ^ 3) with 8. change (2 ^ 7) with 128. change (2 ^ 12) with 4096.
    Z.to_euclidean_division_equations. lia. }
  split; [intros Hb|intros Hb Hb1]; unfold read_frame; apply wp_ebind;
    (eapply wp_mono; [by apply (get_span_app _ _ [b0; b1])|]); intros res r1 (io1 & -> & Hok1 & _);
    cbn [length]; change (2 / 2 =? 1)%nat with true; cbn [negb]; rewrite Hrsv.
  - rewrite (proj2 (Z.eqb_neq _ 0)); [cbn [negb]; by wp_head|]. Z.to_euclidean_division_equations. lia.
  - rewrite Hmask, (proj2 (Z.eqb_eq (b0 mod 128 / 16) 0)), (proj2 (Z.eqb_eq (b1 / 128) 0)); [cbn [negb]; by wp_head|..];
      Z.to_euclidean_division_equations; lia.
Qed.
End stream.

(** ** What is sent *)

Lemma frame_word_ok op n : op <> unknown -> 0 <= n < 128 -> frame_word op n = (128 + opcode_code op) * 256 + n.
Proof.
  intros Hop Hn.
  assert (forallb (fun op => forallb (fun k => frame_word op (Z.of_nat k) =? (128 + opcode_code op) * 256 + Z.of_nat k) (seq 0 128)) opcodes = true)
    as Hall by (vm_compute; reflexivity).
  rewrite forallb_forall in Hall. specialize (Hall op ltac:(destruct op; cbn; tauto)). rewrite forallb_forall in Hall.
  specialize (Hall (Z.to_nat n) ltac:(apply in_seq; lia)). rewrite Z2Nat.id in Hall by lia. by apply Z.eqb_eq.
Qed.

Lemma word_octets a b : 0 <= b < 256 -> 0 <= a < 256 -> host_to_network 2 (a * 256 + b) = [a; b].
Proof. intros Hb Ha. cbn. repeat f_equal; Z.to_euclidean_division_equations; lia. Qed.

Section replies.
Context {IO : Type} (refill : IO -> nat -> error_or (IO * list Z)) (rest : IO -> list Z) `{!RefillLaws refill rest}.
Context (sender : IO -> list Z -> error_or IO) (Hsender : forall io s, exists io', sender io s = Val io').
Implicit Types c : conn.

Lemma wp_send io s (Q : error_or IO -> conn -> Prop) c :
  (forall io', Q (Val io') (Conn (c_reader c) (c_sent c ++ s))) -> wp (send sender io s) Q c.
Proof. intros HQ. destruct (Hsender io s) as [io' E]. unfold wp, send. rewrite E. apply HQ. Qed.

Lemma wp_send_message io op p (Q : error_or IO -> conn -> Prop) c :
  op <> unknown -> Z.of_nat (length p) < 2 ^ 63 ->
  (forall io', Q (Val io') (Conn (c_reader c) (c_sent c ++ server_frame op p))) -> wp (send_message sender io op p) Q c.
Proof.
  intros Hop Hlen HQ. unfold send_message, server_frame, base_length, extended_length in *.
  set (n := Z.of_nat (length p)) in *. destruct (opcode_code_range _ Hop) as [Hoc _].
  destruct (Z.ltb_spec n 126) as [Hs|Hs].
  { wp_head. apply wp_send. intros io1. cbn beta iota. apply wp_send. intros io2. cbn [c_sent c_reader].
    rewrite frame_word_ok, word_octets, <- (assoc_L (++)) by (done || lia). apply HQ. }
  destruct (Z.leb_spec n 65535) as [Hm|Hm]; [|rewrite wrap_small, land_high by lia; cbn [negb Z.eqb]];
    unfold send_extended_length_message; wp_head; wp_head; apply wp_send; intros io1; cbn beta iota; wp_head.
  - wp_head; [fold n; change (256 ^ Z.of_nat 2) with 65536; apply Z.ltb_lt; lia|]. apply wp_send. intros io2. cbn beta iota.
    apply wp_send. intros io3. cbn [c_sent c_reader]. rewrite frame_word_ok, word_octets, <- !(assoc_L (++)) by (done || lia). apply HQ.
  - wp_head; [fold n; change (256 ^ Z.of_nat 8) with (2 ^ 64); apply Z.ltb_lt; lia|]. apply wp_send. intros io2. cbn beta iota.
    apply wp_send. intros io3. cbn [c_sent c_reader]. rewrite frame_word_ok, word_octets, <- !(assoc_L (++)) by (done || lia). apply HQ.
Qed.

(** A close frame with its status *)
Definition close_frame (status : Z) : list Z := server_frame close (host_to_network 2 status).

Lemma wp_send_close_frame io status (Q : error_or IO -> conn -> Prop) c :
  (forall io', Q (Val io') (Conn (c_reader c) (c_sent c ++ close_frame status))) -> wp (send_close_frame sender io status) Q c.
Proof. intros HQ. unfold send_close_frame. apply wp_send_message; [done|by rewrite length_host_to_network|exact HQ]. Qed.

(** *** Messages *)

(** Text that a message may have *)
Definition is_text (p : list Z) : Prop := exists cs, Forall scalar cs /\ p = mjoin (utf8 <$> cs).

Lemma is_valid_utf8_spec p : octets p -> exists b, is_valid_utf8 p = Ok b /\ (b = true <-> is_text p).
Proof.
  intros Hp. destruct (get_all_total initial_decoder p) as (os & d & E); [cbn; unfold accept; lia|done|].
  exists (is_well_formed d). unfold is_valid_utf8. rewrite E. split; [done|]. split.
  - intros Hw. by apply (get_all_decoded (length p) p os d).
  - intros (cs & Hcs & ->). destruct (get_all_encoded cs Hcs) as (os' & E' & _). rewrite E in E'. by injection E' as _ ->.
Qed.

(** A message of the kind [op] as a sequence of frames: its first fragment has the code of
    its kind, the others are continuations, the last one is final; between them there may
    be control frames. With them goes the payload of the message and the replies to the
    control frames. *)
Inductive message (op : opcode) : bool -> list frame -> list Z -> list Z -> Prop :=
  | message_ping started p fs payload replies :
      (length p <= 125)%nat -> octets p -> message op started fs payload replies ->
      message op started (Frame ping true p :: fs) payload (server_frame pong_frame p ++ replies)
  | message_pong started p fs payload replies :
      (length p <= 125)%nat -> octets p -> message op started fs payload replies ->
      message op started (Frame pong_frame true p :: fs) payload replies
  | message_more started p fs payload replies :
      octets p -> message op true fs payload replies ->
      message op started (Frame (if started then continuation else op) false p :: fs) (p ++ payload) replies
  | message_last (started : bool) p :
      octets p -> message op started [Frame (if started then continuation else op) true p] p [].

(** The loop of [ws_server_loop] while the socket has input, for at most [n] frames *)
Fixpoint serve (n : nat) (io : IO) (command : ws_command) : M conn (IO * bool * ws_command) :=
  match n with
  | 0%nat => ret (io, false, command)
  | S n =>
      '(io, done, command) <- socket_read refill sender io command ;;
      if done then ret (io, true, command) else serve n io command
  end.

(** What the server answers to a message *)
Definition answer (op : opcode) (payload answer : list Z) (done : bool) : Prop :=
  (op = text_frame -> ~ is_text payload -> answer = close_frame close_invalid_payload /\ done = true) /\
  (op = binary \/ is_text payload -> answer = server_frame op payload /\ done = false).

Lemma check_complete_spec io op p c :
  op = text_frame \/ op = binary -> octets p -> Z.of_nat (length p) < 2 ^ 63 ->
  forall wsp, f_fin wsp = true ->
  wp (check_message_complete sender io wsp (WsCommand op p)) (fun res c' => exists a,
    c' = Conn (c_reader c) (c_sent c ++ a) /\ answer op p a (negb res.1) /\ (res.1 = true -> res.2 = no_command)) c.
Proof.
  intros Hop Hp Hlen wsp Hfin. unfold check_message_complete. rewrite Hfin. cbn [cmd_op cmd_payload]. wp_head.
  destruct Hop as [->| ->].
  - rewrite bool_decide_true by done. destruct (is_valid_utf8_spec p Hp) as (b & E & Hb). wp_head. rewrite E. wp_head.
    destruct b; cbn [negb]; wp_head.
    + apply wp_send_message; [done|done|]. intros io'. cbn beta. wp_head. eexists. split_and!; [done| |done].
      split; [|done]. intros _ Hno. destruct Hno. by apply Hb.
    + apply wp_send_close_frame. intros io'. cbn beta. wp_head. eexists. split_and!; [done| |done]. split; [done|].
      intros [?|Ht]; [done|]. apply Hb in Ht. done.
  - rewrite bool_decide_false by done. wp_head. cbn [negb]. wp_head.
    apply wp_send_message; [done|done|]. intros io'. cbn beta. wp_head. eexists. split_and!; [done| |done]. by split.
Qed.

Lemma wp_in_reader {A} (m : M reader A) (Q : A -> conn -> Prop) c :
  wp m (fun a r => Q a (Conn r (c_sent c))) (c_reader c) -> wp (in_reader m) Q c.
Proof. unfold wp, in_reader. by destruct (m (c_reader c)) as [[a|e] r]. Qed.

(** The command while a message of the kind [op] is being received *)
Definition pending (started : bool) (op : opcode) (acc : list Z) : ws_command :=
  if started then WsCommand op acc else no_command.

Lemma wp_socket_read io command key f s Q c :
  reader_ok (c_reader c) -> frame_ok f -> key_ok key -> stream rest io (c_reader c) = client_frame key f ++ s ->
  (forall io' r', reader_ok r' -> stream rest io' r' = s -> wp (handle_frame sender io' f command) Q (Conn r' (c_sent c))) ->
  wp (socket_read refill sender io command) Q c.
Proof.
  intros Hok Hf Hkey Hst HQ. unfold socket_read. wp_head. apply wp_in_reader.
  eapply wp_mono; [by eapply (read_frame_spec refill rest)|]. intros res r' (io' & -> & Hok' & Hst'). by apply HQ.
Qed.

(** A ping is answered with its own payload; a pong is not answered. *)
Lemma wp_handle_control io op p command Q c :
  op = ping \/ op = pong_frame -> (length p <= 125)%nat ->
  Q (io, false, command)
    (Conn (c_reader c) (c_sent c ++ if bool_decide (op = ping) then server_frame pong_frame p else [])) ->
  wp (handle_frame sender io (Frame op true p) command) Q c.
Proof.
  intros Hop Hlen HQ. unfold handle_frame. cbn [f_op f_fin f_payload negb orb].
  rewrite (proj2 (Nat.ltb_ge 125 (length p))), andb_false_r by lia. destruct Hop as [->| ->]; cbn match in *.
  - wp_head. apply wp_send_message; [done|lia|]. intros io'. wp_head. exact HQ.
  - wp_head. cbn in HQ. rewrite app_nil_r in HQ. by destruct c.
Qed.

(** A fragment is added to the pending command, which is then checked. *)
Lemma handle_fragment io started op acc fin p :
  op = text_frame \/ op = binary -> (started = false -> acc = []) ->
  handle_frame sender io (Frame (if started then continuation else op) fin p) (pending started op acc) =
    ('(ok, command) <- check_message_complete sender io (Frame (if started then continuation else op) fin p) (WsCommand op (acc ++ p)) ;;
     ret (io, negb ok, command)).
Proof.
  intros Hop Hacc. unfold handle_frame, pending. destruct started; cbn [f_op f_payload cmd_op cmd_payload].
  - by destruct Hop as [->| ->].
  - rewrite (Hacc eq_refl). by destruct Hop as [->| ->].
Qed.

Lemma message_frames_ok op started fs payload replies :
  op = text_frame \/ op = binary -> message op started fs payload replies ->
  Z.of_nat (length payload) < 2 ^ 63 -> Forall frame_ok fs.
Proof.
  intros Hop. induction 1 as [started p fs pl rs Hlp Hp Hmsg IH|started p fs pl rs Hlp Hp Hmsg IH|started p fs pl rs Hp Hmsg IH|started p Hp];
    intros Hlen; rewrite ?length_app in Hlen; constructor; try (apply IH; lia); try constructor; cbn; try done; try lia.
  - by destruct started, Hop as [->| ->].
  - by destruct started, Hop as [->| ->].
Qed.

Lemma serve_message op started fs payload replies : message op started fs payload replies ->
  op = text_frame \/ op = binary ->
  forall acc keys io c s, (started = false -> acc = []) -> octets acc ->
  Z.of_nat (length (acc ++ payload)) < 2 ^ 63 -> Forall key_ok keys -> length keys = length fs ->
  reader_ok (c_reader c) -> stream rest io (c_reader c) = concat (zip_with client_frame keys fs) ++ s ->
  wp (serve (length fs) io (pending started op acc)) (fun res c' => exists a,
    let '(io', done, command) := res in
    c_sent c' = c_sent c ++ replies ++ a /\ answer op (acc ++ payload) a done /\
    (done = false -> command = no_command /\ reader_ok (c_reader c') /\ stream rest io' (c_reader c') = s)) c.
Proof.
  intros Hmsg Hop. assert (op <> unknown) as Hou by (by destruct Hop as [->| ->]).
  induction Hmsg as [started p fs pl rs Hlp Hp Hmsg IH|started p fs pl rs Hlp Hp Hmsg IH|started p fs pl rs Hp Hmsg IH|started p Hp];
    intros acc keys io c s Hstart Hacc Hlen Hkeys Hlk Hok Hst; destruct keys as [|key keys]; try done;
    apply Forall_cons in Hkeys as [Hkey Hkeys]; injection Hlk as Hlk; cbn [length zip_with concat] in *;
    rewrite <- (assoc_L (++)) in Hst; cbn [serve]; wp_head.
  - eapply (wp_socket_read _ _ key (Frame ping true p)); [done|split; [done|done|cbn; lia]|done|exact Hst|]. intros io1 r1 Hok1 Hst1.
    apply wp_handle_control; [by left|done|]. cbn beta iota. eapply wp_mono; [by apply (IH acc keys)|].
    intros [[io2 done] cmd] c' (a & Hs & Ha). exists a. cbn in Hs. by rewrite Hs, <- !(assoc_L (++)).
  - eapply (wp_socket_read _ _ key (Frame pong_frame true p)); [done|split; [done|done|cbn; lia]|done|exact Hst|]. intros io1 r1 Hok1 Hst1.
    apply wp_handle_control; [by right|done|]. cbn beta iota. eapply wp_mono; [by apply (IH acc keys)|].
    intros [[io2 done] cmd] c' (a & Hs & Ha). exists a. cbn in Hs. by rewrite Hs, app_nil_r.
  - rewrite !length_app in Hlen.
    eapply (wp_socket_read _ _ key (Frame (if started then continuation else op) false p)); [done|split; cbn; [by destruct started, Hop as [->| ->]|done|lia]|done|exact Hst|].
    intros io1 r1 Hok1 Hst1. rewrite handle_fragment by done. unfold check_message_complete. cbn [f_fin]. wp_head. wp_head. wp_head.
    cbn [negb]. change (WsCommand op (acc ++ p)) with (pending true op (acc ++ p)).
    eapply wp_mono; [apply (IH (acc ++ p) keys _ (Conn r1 (c_sent c))); try done|].
    + by apply Forall_app.
    + rewrite !length_app. lia.
    + intros [[io2 done] cmd] c' (a & Hs & Ha). exists a. by rewrite (assoc_L (++) acc p pl).
  - rewrite length_app in Hlen.
    eapply (wp_socket_read _ _ key (Frame (if started then continuation else op) true p)); [done|split; cbn; [by destruct started, Hop as [->| ->]|done|lia]|done|exact Hst|].
    intros io1 r1 Hok1 Hst1. rewrite handle_fragment by done. wp_head.
    eapply wp_mono; [apply check_complete_spec; [done|by apply Forall_app|rewrite length_app; lia|done]|].
    intros [ok cmd] c' (a & -> & Ha & Hcmd). cbn [fst snd] in *. wp_head. destruct ok; cbn [negb] in *.
    + wp_head. exists a. split_and!; [done|done|]. intros _. split_and!; [by apply Hcmd|done|].
      destruct keys; [|done]. done.
    + wp_head. exists a. by split_and!.
Qed.
End replies.

(** Frames. Whatever the size of the buffer and the pieces in which the octets arrive, a
    frame with any code and payload is read back from the masked octets of RFC 6455, and
    what follows is left in the reader; a frame with a reserved bit or without a mask
    is refused with the error that says so. *)
Lemma ws_frame_roundtrip {IO : Type} (refill : IO -> nat -> error_or (IO * list Z)) (rest : IO -> list Z)
    `{!RefillLaws refill rest} (buffer_size : nat) (io : IO) (s : list Z) :
  (forall key f, frame_ok f -> key_ok key -> rest io = client_frame key f ++ s ->
     exists io' r', read_frame refill io (make_reader buffer_size) = (Ok (Val (io', f)), r') /\ stream rest io' r' = s) /\
  (forall b0 b1, rest io = [b0; b1] ++ s -> 0 <= b0 < 256 -> 0 <= b1 < 256 ->
     (16 <= b0 mod 128 -> (read_frame refill io (make_reader buffer_size)).1 = Ok (Err reserved_bit_set)) /\
     (b0 mod 128 < 16 -> b1 < 128 -> (read_frame refill io (make_reader buffer_size)).1 = Ok (Err unmasked_frame))).
Proof.
  pose proof (make_reader_ok buffer_size) as Hok. split.
  - intros key f Hf Hkey Hrest.
    destruct (wp_elim _ _ _ (read_frame_spec refill rest io _ key f s Hok Hf Hkey Hrest)) as (res & r' & E & io' & -> & _ & Hst).
    by exists io', r'.
  - intros b0 b1 Hrest H0 H1. destruct (read_frame_refused refill rest io _ b0 b1 s Hok Hrest H0 H1) as [Hr Hm].
    split; [intros Hb|intros Hb Hb1].
    + by destruct (wp_elim _ _ _ (Hr Hb)) as (res & r' & -> & -> & _).
    + by destruct (wp_elim _ _ _ (Hm Hb Hb1)) as (res & r' & -> & -> & _).
Qed.

(** C36: messages. A text or binary message that arrives as any number of fragments, with
    pings and pongs in between, is answered as the echo server promises: every ping with
    its payload, and the whole message with one frame of the same kind and payload, after which
    the server is ready for the next message; a text message that is not UTF-8 closes the
    connection with the status for an invalid payload. *)
Theorem ws_message_answered {IO : Type} (refill : IO -> nat -> error_or (IO * list Z)) (rest : IO -> list Z)
    `{!RefillLaws refill rest} (sender : IO -> list Z -> error_or IO) (buffer_size : nat) (io : IO)
    op fs payload replies keys s :
  (forall io s, exists io', sender io s = Val io') -> op = text_frame \/ op = binary ->
  message op false fs payload replies -> Z.of_nat (length payload) < 2 ^ 63 ->
  Forall key_ok keys -> length keys = length fs ->
  rest io = concat (zip_with client_frame keys fs) ++ s ->
  exists io' done command c a,
    serve refill sender (length fs) io no_command (Conn (make_reader buffer_size) []) = (Ok (io', done, command), c) /\
    c_sent c = replies ++ a /\ answer op payload a done /\
    (done = false -> command = no_command /\ stream rest io' (c_reader c) = s).
Proof.
  intros Hsender Hop Hmsg Hlen Hkeys Hlk Hrest.
  destruct (wp_elim _ _ _ (serve_message refill rest sender Hsender op false fs payload replies Hmsg Hop [] keys io
    (Conn (make_reader buffer_size) []) s (fun _ => eq_refl) (Forall_nil_2 _) Hlen Hkeys Hlk (make_reader_ok buffer_size) Hrest))
    as ([[io' done] command] & c & E & a & Hs & Ha & Hd).
  exists io', done, command, c, a. split_and!; [done|done|done|]. intros Hdone. destruct (Hd Hdone) as (? & _ & ?). done.
Qed.

Definition example_key : list Z := [1; 2; 3; 4].

(** [héllo] in two fragments with a ping between them *)
Lemma ws_message_answered_witness :
  let fs := [Frame text_frame false [104; 195]; Frame ping true [7]; Frame continuation true [169; 108; 108; 111]] in
  exists io' command c,
    serve refill_pieces (fun io _ => Val io) 3 (concat (client_frame example_key <$> fs)) no_command (Conn (make_reader 4) []) =
      (Ok (io', false, command), c) /\
    c_sent c = server_frame pong_frame [7] ++ server_frame text_frame [104; 195; 169; 108; 108; 111] /\ command = no_command.
Proof.
  intros fs.
  destruct (ws_message_answered refill_pieces id (fun io _ => Val io) 4 (concat (client_frame example_key <$> fs)) text_frame fs
    ([104; 195] ++ [169; 108; 108; 111]) (server_frame pong_frame [7] ++ []) (replicate 3 example_key) [])
    as (io' & done & command & c & a & E & Hs & [_ Ha] & Hd).
  - intros io s. by exists io.
  - by left.
  - apply (message_more text_frame false); [repeat constructor; lia|]. apply message_ping; [cbn; lia|repeat constructor; lia|].
    apply (message_last text_frame true). repeat constructor; lia.
  - done.
  - repeat constructor.
  - done.
  - by rewrite app_nil_r.
  - destruct Ha as [-> ->].
    { right. exists [104; 233; 108; 108; 111]. split; [|reflexivity]. repeat (constructor; [unfold scalar; lia|]). constructor. }
    exists io', command, c. split; [exact E|]. split; [exact Hs|]. by apply Hd.
Defined.

(** The stream ends within the extended length of a frame: the access to the missing
    element fails its assertion. *)
Example truncated_length : (read_frame refill_pieces [129; 254; 1] (make_reader 4)).1 = Throw Assert.
Proof. vm_compute. reflexivity. Qed.
