(* ===== verification/SparseArray.v ===== *)
(** * Sparse arrays

    Models include/pstore/mcrepo/sparse_array.hpp, the array of the sections of a program
    fragment: a bitmap says which indices are present and the elements are stored without gaps.
    [w] is the number of bits of the bitmap type, [dflt] the value-initialised
    element, [init] what the default-initialisation of the member [elements_] leaves in its only
    element, which may be any value where [ValueType] has a trivial constructor. *)

From stdpp Require Import list_numbers sorting.
From S2P Require Import Prelude BitCount.

Section sparse_array.
Context {V : Type} (w : Z) (init dflt : V).

(** [sparse_array]: the bitmap and the elements that follow it *)
Record sparse_array := mk_sparse_array { bitmap_ : Z; elements_ : list V }.

(** [max_size], [empty], [size] and [has_index] *)
Definition max_size : Z := w.
Definition empty (a : sparse_array) : bool := bitmap_ a =? 0.
Definition size (a : sparse_array) : Z := pop_count (bitmap_ a).
Definition has_index (a : sparse_array) (pos : Z) : bool :=
  if pos <? max_size then negb (Z.land (bitmap_ a) (Z.shiftl 1 pos) =? 0) else false.

(** [bitmap (first, last)] and the operation that it accumulates *)
Definition bitmap_op (mm v : Z) : outcome Z :=
  let idx := wrap32 v in
  _ <-? oassert ((idx >=? 0) && (idx <? max_size)) ;;
  let mask := Z.shiftl 1 idx in
  _ <-? oassert (Z.land mm mask =? 0) ;;
  Ok (Z.lor mm mask).

Fixpoint accumulate (mm : Z) (indices : list Z) : outcome Z :=
  match indices with
  | [] => Ok mm
  | v :: indices => mm <-? bitmap_op mm v ;; accumulate mm indices
  end.

Definition bitmap (indices : list Z) : outcome Z := accumulate 0 indices.

(** [allocate_bytes], counted in elements: the storage of the array behind the object *)
Definition allocated_elements (bm : Z) : nat := Z.to_nat (Z.max (pop_count bm) 1).

(** The loops of the constructor, which fill the storage from [out] on *)
Fixpoint construct (indices : list Z) (values : list V) : list V :=
  match indices, values with
  | [], _ => []
  | _ :: indices, v :: values => v :: construct indices values
  | _ :: indices, [] => dflt :: construct indices []
  end.

(** The constructor from indices and values, in storage from the matching [operator new];
    constructing an element outside of it is undefined. *)
Definition sparse_array_ctor (indices : list Z) (values : list V) : outcome sparse_array :=
  bm <-? bitmap indices ;;
  let first := match indices, values with _ :: _, v :: _ => v | _, _ => init end in
  let values := match indices, values with _ :: _, _ :: values => values | _, _ => values end in
  let elements := first :: construct (tail indices) values in
  if (length elements <=? allocated_elements bm)%nat then Ok (mk_sparse_array bm elements)
  else Throw Undefined.

(** [index_impl] *)
Definition index_impl (a : sparse_array) (pos : Z) : outcome V :=
  _ <-? oassert (pos <? max_size) ;;
  let mask := Z.shiftl 1 pos in
  _ <-? oassert (negb (Z.land (bitmap_ a) mask =? 0)) ;;
  let mask := mask - 1 in
  match elements_ a !! Z.to_nat (pop_count (Z.land (bitmap_ a) mask)) with
  | Some v => Ok v
  | None => Throw Undefined
  end.

(** An assignment through the reference that [index_impl] returns *)
Definition index_assign (a : sparse_array) (pos : Z) (v : V) : outcome sparse_array :=
  _ <-? oassert (pos <? max_size) ;;
  let mask := Z.shiftl 1 pos in
  _ <-? oassert (negb (Z.land (bitmap_ a) mask =? 0)) ;;
  let k := Z.to_nat (pop_count (Z.land (bitmap_ a) (mask - 1))) in
  if (k <? length (elements_ a))%nat then Ok (mk_sparse_array (bitmap_ a) (<[k := v]> (elements_ a)))
  else Throw Undefined.

(** [size_bytes], for elements of [n] bytes behind a bitmap of [b] bytes *)
Definition size_bytes (b n num_entries : Z) : Z := b + n + (Z.max 1 num_entries - 1) * n.

(** [at_impl] *)
Definition at_impl (a : sparse_array) (pos : Z) : outcome V :=
  if pos <? max_size then
    let bit_position := Z.shiftl 1 pos in
    if negb (Z.land (bitmap_ a) bit_position =? 0) then
      match elements_ a !! Z.to_nat (pop_count (Z.land (bitmap_ a) (bit_position - 1))) with
      | Some v => Ok v
      | None => Throw Undefined
      end
    else Throw OutOfRange
  else Throw OutOfRange.

(** [indices::const_iterator] *)
Record const_iterator := mk_const_iterator { it_bitmap : Z; it_pos : Z }.

(** [next]: the loop that skips clear bits; every turn halves the bitmap *)
Fixpoint next (fuel : nat) (it : const_iterator) : outcome const_iterator :=
  if negb (it_bitmap it =? 0) && (Z.land (it_bitmap it) 1 =? 0) then
    match fuel with
    | O => Throw OutOfFuel
    | S fuel => next fuel (mk_const_iterator (Z.shiftr (it_bitmap it) 1) (it_pos it + 1))
    end
  else Ok it.

(** The constructor, [operator++] and [operator!=] *)
Definition indices_begin (bm : Z) : outcome const_iterator := next (Z.to_nat w) (mk_const_iterator bm 0).
Definition indices_incr (it : const_iterator) : outcome const_iterator :=
  next (Z.to_nat w) (mk_const_iterator (Z.shiftr (it_bitmap it) 1) (it_pos it + 1)).
Definition at_end (it : const_iterator) : bool := it_bitmap it =? 0.

(** A range-for over [get_indices ()] *)
Fixpoint collect_indices (fuel : nat) (it : const_iterator) : outcome (list Z) :=
  if at_end it then Ok []
  else match fuel with
       | O => Throw OutOfFuel
       | S fuel => it' <-? indices_incr it ;; rest <-? collect_indices fuel it' ;; Ok (it_pos it :: rest)
       end.

(** [indices::front] and [indices::back] *)
Definition indices_front (bm : Z) : outcome Z :=
  _ <-? oassert (negb (bm =? 0)) ;; ctz bm.
Definition indices_back (bm : Z) : outcome Z :=
  _ <-? oassert (negb (bm =? 0)) ;; c <-? clz w bm ;; Ok (w - c - 1).

(** [front] and [back] *)
Definition front (a : sparse_array) : outcome V :=
  _ <-? oassert (negb (empty a)) ;; i <-? indices_front (bitmap_ a) ;; index_impl a i.
Definition back (a : sparse_array) : outcome V :=
  _ <-? oassert (negb (empty a)) ;; i <-? indices_back (bitmap_ a) ;; index_impl a i.

(** [fill]: the elements of [begin () .. begin () + size ()] *)
Definition fill (value : V) (a : sparse_array) : sparse_array :=
  let n := Z.to_nat (size a) in
  mk_sparse_array (bitmap_ a) (replicate n value ++ drop n (elements_ a)).

(** [operator==] *)
Definition sparse_array_eqb `{EqDecision V} (lhs rhs : sparse_array) : bool :=
  (bitmap_ lhs =? bitmap_ rhs) &&
  bool_decide (take (Z.to_nat (size lhs)) (elements_ lhs) = take (Z.to_nat (size lhs)) (elements_ rhs)).

(** ** The bitmap of a list of indices *)

Lemma shiftl_one i : 0 <= i -> Z.shiftl 1 i = 2 ^ i.
Proof. intros Hi. rewrite Z.shiftl_mul_pow2; lia. Qed.

Lemma set_bits_sorted n x : StronglySorted Z.lt (set_bits n x).
Proof.
  unfold set_bits. assert (forall l, StronglySorted Z.lt l -> StronglySorted Z.lt (filter (fun i => Z.testbit x i = true) l)) as Hf.
  { induction 1 as [|i l Hl IH Hi]; [constructor|]. rewrite filter_cons. case_decide; [|done]. constructor; [done|].
    rewrite Forall_forall in *. intros j [_ Hj]%list_elem_of_filter. auto. }
  apply Hf. generalize 0. intros m. destruct (Z.le_gt_cases 0 n) as [Hn|Hn]; [|by rewrite seqZ_nil by lia; constructor].
  revert n Hn m. apply (natlike_ind (fun n => forall m, StronglySorted Z.lt (seqZ m n))); [intros m; rewrite seqZ_nil by lia; constructor|].
  intros n Hn IH m. rewrite seqZ_cons by lia. constructor; [by rewrite Z.pred_succ|].
  rewrite Forall_forall. intros j Hj%elem_of_seqZ. lia.
Qed.

Context (Hw : 0 < w < 2 ^ 32).

Definition in_bitmap (i : Z) : Prop := 0 <= i < w.

(** The bits of an accumulated bitmap *)
Lemma accumulate_ok indices mm : 0 <= mm < 2 ^ w -> Forall in_bitmap indices -> NoDup indices ->
  (forall i, i ∈ indices -> Z.testbit mm i = false) ->
  exists bm, accumulate mm indices = Ok bm /\ 0 <= bm < 2 ^ w /\
    forall i, 0 <= i -> Z.testbit bm i = true <-> Z.testbit mm i = true \/ i ∈ indices.
Proof.
  intros Hmm Hf. revert mm Hmm. induction Hf as [|v indices Hv Hf IH]; intros mm Hmm Hnd Hfree; cbn [accumulate].
  - exists mm. split_and!; [done|lia|lia|]. intros i Hi. rewrite elem_of_nil. tauto.
  - apply NoDup_cons in Hnd as [Hnv Hnd]. unfold in_bitmap in Hv. unfold bitmap_op, max_size.
    rewrite wrap_small by lia. rewrite Z.geb_leb, (proj2 (Z.leb_le _ _)), (proj2 (Z.ltb_lt _ _)) by lia. cbn [andb oassert obind].
    rewrite shiftl_one, land_pow2_zero, (Hfree v) by (lia || apply elem_of_cons; by left). cbn [negb oassert obind].
    assert (0 <= Z.lor mm (2 ^ v) < 2 ^ w) as Hlor.
    { apply lor_range; [lia|done|]. split; [lia|]. apply Z.pow_lt_mono_r; lia. }
    assert (forall i, 0 <= i -> Z.testbit (Z.lor mm (2 ^ v)) i = Z.testbit mm i || bool_decide (v = i)) as Hbit.
    { intros i Hi. rewrite Z.lor_spec, Z.pow2_bits_eqb by lia. f_equal.
      destruct (Z.eqb_spec v i); symmetry; [by apply bool_decide_true|by apply bool_decide_false]. }
    destruct (IH (Z.lor mm (2 ^ v)) Hlor Hnd) as (bm & E & Hbm & Hbits).
    { intros i Hi. rewrite Hbit, Hfree, bool_decide_false; [done| |by apply elem_of_cons; right|].
      - intros ->. done.
      - rewrite Forall_forall in Hf. apply Hf in Hi. unfold in_bitmap in Hi. lia. }
    exists bm. split_and!; [done|lia|lia|]. intros i Hi. rewrite Hbits, Hbit, orb_true_iff, bool_decide_eq_true, elem_of_cons by done.
    naive_solver.
Qed.

(** A list of distinct indices has a bitmap, whose one bits are the indices. *)
Lemma bitmap_ok indices : Forall in_bitmap indices -> NoDup indices ->
  exists bm, bitmap indices = Ok bm /\ 0 <= bm < 2 ^ w /\ set_bits w bm ≡ₚ indices /\
    (forall i, 0 <= i < w -> Z.testbit bm i = true <-> i ∈ indices).
Proof.
  intros Hf Hnd. destruct (accumulate_ok indices 0) as (bm & E & Hbm & Hbits); [lia|done|done|intros; apply Z.bits_0|].
  assert (forall i, 0 <= i < w -> Z.testbit bm i = true <-> i ∈ indices) as Hb.
  { intros i Hi. rewrite Hbits, Z.bits_0 by lia. naive_solver. }
  exists bm. split_and!; [done|lia|lia| |done]. apply NoDup_Permutation; [apply NoDup_set_bits|done|].
  intros i. rewrite elem_of_set_bits. split; [naive_solver|]. intros Hi. rewrite Forall_forall in Hf.
  split; [|by apply Hf]. by apply Hb; [apply Hf|].
Qed.

(** An index that is out of range or appears twice fails an assertion. *)
Lemma accumulate_rejects indices mm : Forall (fun i => 0 <= i < 2 ^ 32) indices -> 0 <= mm < 2 ^ w ->
  (exists i, i ∈ indices /\ (w <= i \/ Z.testbit mm i = true)) \/ ~ NoDup indices -> accumulate mm indices = Throw Assert.
Proof.
  intros Hf. revert mm. induction Hf as [|v indices Hv Hf IH]; intros mm Hmm Hbad.
  { destruct Hbad as [(i & Hi%elem_of_nil & _)|Hbad]; [done|]. destruct Hbad. constructor. }
  cbn [accumulate]. unfold bitmap_op, max_size. rewrite wrap_small, Z.geb_leb, (proj2 (Z.leb_le _ _)) by lia. cbn [andb].
  destruct (Z.ltb_spec v w) as [Hvw|Hvw]; [|done]. cbn [oassert obind]. rewrite shiftl_one, land_pow2_zero by lia.
  destruct (Z.testbit mm v) eqn:Ev; [done|]. cbn [negb oassert obind]. apply IH.
  { apply lor_range; [lia|done|]. split; [lia|]. apply Z.pow_lt_mono_r; lia. }
  destruct (decide (v ∈ indices)) as [Hin|Hin].
  { left. exists v. split; [done|]. right. by rewrite Z.lor_spec, Z.pow2_bits_true, orb_true_r by lia. }
  destruct Hbad as [(i & [->|Hi]%elem_of_cons & [Hi'|Hi'])|Hbad]; [lia|congruence|left; eauto| |right].
  - left. exists i. split; [done|]. right. by rewrite Z.lor_spec, Hi'.
  - intros Hnd. apply Hbad. by constructor.
Qed.

(** ** Element access *)

Lemma construct_lookup indices values k : (k < length indices)%nat ->
  construct indices values !! k = Some (default dflt (values !! k)).
Proof.
  revert values k. induction indices as [|i indices IH]; intros values k Hk; simpl in Hk; [lia|].
  destruct values as [|v values]; cbn [construct]; destruct k as [|k]; try done; cbn; rewrite IH by lia; [|done].
  by rewrite !lookup_nil.
Qed.

Lemma length_construct indices values : length (construct indices values) = length indices.
Proof. revert values. induction indices as [|i indices IH]; intros [|v values]; cbn; by rewrite ?IH. Qed.

(** What an element holds that is given no value *)
Definition initial (k : nat) : V := match k with O => init | S _ => dflt end.

(** The constructor stays inside its storage and stores a value for each index, in the order given. *)
Lemma ctor_ok indices values : Forall in_bitmap indices -> NoDup indices ->
  exists bm es, sparse_array_ctor indices values = Ok (mk_sparse_array bm es) /\ bitmap indices = Ok bm /\
    (forall k, (k < length indices)%nat -> es !! k = Some (default (initial k) (values !! k))) /\
    length es = max 1 (length indices).
Proof.
  intros Hf Hnd. destruct (bitmap_ok indices Hf Hnd) as (bm & E & Hbm & Hperm & _). unfold sparse_array_ctor. rewrite E. cbn [obind].
  set (es := _ :: construct _ _). assert (length es = max 1 (length indices)) as Hlen.
  { subst es. rewrite length_cons, length_construct. destruct indices; simpl; lia. }
  exists bm, es. rewrite Hlen, (proj2 (Nat.leb_le _ _)).
  - split_and!; [done|done| |done]. intros k Hk. subst es. destruct indices as [|i indices]; [simpl in Hk; lia|].
    destruct k as [|k]; [by destruct values|]. cbn [lookup list_lookup tail]. simpl in Hk.
    destruct values as [|v values]; rewrite construct_lookup by lia; [|done]. by rewrite !lookup_nil.
  - unfold allocated_elements. rewrite <- (length_set_bits w bm), Hperm by lia. lia.
Qed.

(** With the indices in increasing order, the place of an element is its index's rank. *)
Lemma rank_ok indices bm i k : StronglySorted Z.lt indices -> set_bits w bm ≡ₚ indices -> indices !! k = Some i ->
  in_bitmap i -> Z.testbit bm i = true /\ Z.to_nat (pop_count (Z.land bm (2 ^ i - 1))) = k.
Proof.
  intros Hs Hp Hk Hi. assert (set_bits w bm = indices) as <-.
  { apply (StronglySorted_unique_strong Z.lt); [|apply set_bits_sorted|done|done]. intros; lia. }
  assert (Z.testbit bm i = true) as Hb by (apply list_elem_of_lookup_2, elem_of_set_bits in Hk; tauto). split; [done|].
  by apply (NoDup_lookup (set_bits w bm) _ _ i); [apply NoDup_set_bits|apply set_bits_lookup|].
Qed.

(** ** Iteration over the indices *)

(** The one bits of [b], whose bit 0 is the index [p] *)
Definition positions (n p b : Z) : list Z := Z.add p <$> set_bits n b.

Lemma positions_step n p b : 0 <= n ->
  positions (Z.succ n) p b = (if Z.testbit b 0 then [p] else []) ++ positions n (p + 1) (b / 2).
Proof.
  intros Hn. unfold positions. rewrite set_bits_succ, fmap_app by done. f_equal.
  - destruct (Z.testbit b 0); [|done]. cbn. by rewrite Z.add_0_r.
  - rewrite <- list_fmap_compose. apply list_fmap_ext. intros _ i _. cbn. lia.
Qed.

Lemma land_one b : Z.land b 1 =? 0 = negb (Z.testbit b 0).
Proof. apply (land_pow2_zero b 0). lia. Qed.

Lemma next_ok fuel n p b : 0 <= n <= Z.of_nat fuel -> 0 <= b < 2 ^ n ->
  exists n' p' b', next fuel (mk_const_iterator b p) = Ok (mk_const_iterator b' p') /\ 0 <= n' <= n /\ 0 <= b' < 2 ^ n' /\
    positions n p b = positions n' p' b' /\ (b' = 0 \/ Z.testbit b' 0 = true).
Proof.
  revert n p b. induction fuel as [|fuel IH]; intros n p b Hn Hb; cbn [next it_bitmap it_pos]; rewrite land_one;
    destruct (Z.eqb_spec b 0) as [->|Hb0]; cbn [negb andb].
  - exists n, p, 0. split_and!; [done|lia..|done|by left].
  - assert (n = 0) as -> by lia. lia.
  - exists n, p, 0. split_and!; [done|lia..|done|by left].
  - destruct (Z.testbit b 0) eqn:E; cbn [negb].
    + exists n, p, b. split_and!; [done|lia..|done|by right].
    + assert (0 < n) as Hn0 by (destruct (decide (n = 0)) as [->|]; lia).
      replace n with (Z.succ (n - 1)) in * by lia. rewrite Z.pow_succ_r in Hb by lia.
      rewrite Z.shiftr_div_pow2 by lia. change (2 ^ 1) with 2.
      destruct (IH (n - 1) (p + 1) (b / 2)) as (n' & p' & b' & -> & ? & ? & Hp & ?); [lia| |].
      { split; [apply Z.div_pos; lia|apply Z.div_lt_upper_bound; lia]. }
      exists n', p', b'. split_and!; [done|lia..| |done]. by rewrite positions_step, E by lia.
Qed.

Lemma positions_empty n p : positions n p 0 = [].
Proof. unfold positions, set_bits. rewrite (list_filter_none (fun i => Z.testbit 0 i = true)); [done|]. apply Forall_true. intros i. by rewrite Z.bits_0. Qed.

Lemma collect_indices_ok fuel n p b : 0 <= n <= Z.of_nat fuel -> n <= w -> 0 <= b < 2 ^ n -> b = 0 \/ Z.testbit b 0 = true ->
  collect_indices fuel (mk_const_iterator b p) = Ok (positions n p b).
Proof.
  revert n p b. induction fuel as [|fuel IH]; intros n p b Hn Hnw Hb Hodd; cbn [collect_indices]; unfold at_end; cbn [it_bitmap it_pos];
    destruct (Z.eqb_spec b 0) as [->|Hb0]; rewrite ?positions_empty; try done.
  - assert (n = 0) as -> by lia. lia.
  - destruct Hodd as [?|Hodd]; [done|]. assert (0 < n) as Hn0 by (destruct (decide (n = 0)) as [->|]; lia).
    replace n with (Z.succ (n - 1)) in * by lia. rewrite Z.pow_succ_r in Hb by lia. unfold indices_incr. cbn [it_bitmap it_pos].
    rewrite Z.shiftr_div_pow2 by lia. change (2 ^ 1) with 2.
    destruct (next_ok (Z.to_nat w) (n - 1) (p + 1) (b / 2)) as (n' & p' & b' & -> & ? & ? & Hp & Ho); [lia| |].
    { split; [apply Z.div_pos; lia|apply Z.div_lt_upper_bound; lia]. }
    cbn [obind]. rewrite (IH n' p' b') by (lia || done). cbn [obind]. by rewrite positions_step, Hodd, Hp by lia.
Qed.

(** The range-for visits the set bits in increasing order. *)
Lemma iterate_ok bm : 0 <= bm < 2 ^ w ->
  (it <-? indices_begin bm ;; collect_indices (Z.to_nat w) it) = Ok (set_bits w bm).
Proof.
  intros Hbm. unfold indices_begin.
  destruct (next_ok (Z.to_nat w) w 0 bm) as (n' & p' & b' & -> & ? & ? & Hp & Ho); [lia|done|]. cbn [obind].
  rewrite (collect_indices_ok _ n') by (lia || done). rewrite <- Hp. unfold positions. f_equal.
  rewrite <- (list_fmap_id (set_bits w bm)) at 2. apply list_fmap_ext. done.
Qed.

(** ** Arrays with given indices in increasing order *)

Lemma sorted_nodup (indices : list Z) : StronglySorted Z.lt indices -> NoDup indices.
Proof.
  induction 1 as [|i l Hl IH Hi]; [constructor|]. constructor; [|done]. intros Hin.
  rewrite Forall_forall in Hi. specialize (Hi i Hin). lia.
Qed.

Lemma sorted_lookup_lt (l : list Z) i j x y : StronglySorted Z.lt l -> l !! i = Some x -> l !! j = Some y ->
  (i < j)%nat -> x < y.
Proof.
  intros Hs. revert i j. induction Hs as [|z l Hl IH Hz]; intros i j Hi Hj Hij; [done|].
  destruct i as [|i], j as [|j]; [lia| |lia|]; cbn in *.
  - injection Hi as <-. rewrite Forall_forall in Hz. apply Hz. by eapply list_elem_of_lookup_2.
  - apply (IH i j); [done|done|lia].
Qed.

Lemma bitmap_sorted indices : StronglySorted Z.lt indices -> Forall in_bitmap indices ->
  exists bm, bitmap indices = Ok bm /\ 0 <= bm < 2 ^ w /\ set_bits w bm = indices.
Proof.
  intros Hs Hf. destruct (bitmap_ok indices Hf (sorted_nodup _ Hs)) as (bm & E & Hbm & Hp & _).
  exists bm. split; [done|]. split; [done|]. apply (StronglySorted_unique_strong Z.lt); [intros; lia|apply set_bits_sorted|done|done].
Qed.

Section with_indices.
Context (a : sparse_array) (Ha : 0 <= bitmap_ a < 2 ^ w).

Lemma has_index_bits i : 0 <= i -> has_index a i = bool_decide (i ∈ set_bits w (bitmap_ a)).
Proof.
  intros Hi. unfold has_index, max_size. destruct (Z.ltb_spec i w).
  - rewrite shiftl_one, land_pow2_zero, negb_involutive by lia. destruct (Z.testbit (bitmap_ a) i) eqn:E.
    + symmetry. apply bool_decide_eq_true_2, elem_of_set_bits. split; [done|lia].
    + symmetry. apply bool_decide_eq_false_2. rewrite elem_of_set_bits, E. by intros [? _].
  - symmetry. apply bool_decide_eq_false_2. rewrite elem_of_set_bits. lia.
Qed.

Lemma rank_bits k i : set_bits w (bitmap_ a) !! k = Some i ->
  0 <= i < w /\ Z.testbit (bitmap_ a) i = true /\ Z.to_nat (pop_count (Z.land (bitmap_ a) (2 ^ i - 1))) = k.
Proof.
  intros Hk. assert (0 <= i < w) as Hi.
  { apply list_elem_of_lookup_2 in Hk. rewrite elem_of_set_bits in Hk. apply Hk. }
 
  split; [done|]. apply (rank_ok (set_bits w (bitmap_ a))); [apply set_bits_sorted|done|done|exact Hi].
Qed.

Lemma index_bits k i : set_bits w (bitmap_ a) !! k = Some i ->
  index_impl a i = match elements_ a !! k with Some v => Ok v | None => Throw Undefined end.
Proof.
  intros Hk. destruct (rank_bits k i Hk) as (Hi & Hb & Hr). unfold index_impl, max_size.
  rewrite (proj2 (Z.ltb_lt _ _)), shiftl_one, land_pow2_zero, Hb by lia. cbn [negb oassert obind]. by rewrite Hr.
Qed.

Lemma assign_bits_ok k i v : set_bits w (bitmap_ a) !! k = Some i -> (k < length (elements_ a))%nat ->
  index_assign a i v = Ok (mk_sparse_array (bitmap_ a) (<[k := v]> (elements_ a))).
Proof.
  intros Hk Hl. destruct (rank_bits k i Hk) as (Hi & Hb & Hr). unfold index_assign, max_size.
  rewrite (proj2 (Z.ltb_lt _ _)), shiftl_one, land_pow2_zero, Hb by lia. cbn [negb oassert obind]. rewrite Hr.
  by rewrite (proj2 (Nat.ltb_lt _ _) Hl).
Qed.

Lemma size_bits : size a = Z.of_nat (length (set_bits w (bitmap_ a))).
Proof. unfold size. by rewrite length_set_bits. Qed.

(** The last index is the highest bit. *)
Lemma back_bits i : last (set_bits w (bitmap_ a)) = Some i -> indices_back (bitmap_ a) = Ok i.
Proof.
  intros Hl. assert (i ∈ set_bits w (bitmap_ a)) as Hin.
  { rewrite last_lookup in Hl. by eapply list_elem_of_lookup_2. }
  pose proof Hin as Hin'. rewrite elem_of_set_bits in Hin'. destruct Hin' as [Hb Hi].
  assert (bitmap_ a <> 0) as Hz by (intros E; rewrite E, Z.testbit_0_l in Hb; done).
  unfold indices_back. rewrite (proj2 (Z.eqb_neq _ _) Hz). cbn [negb oassert obind].
  pose proof (Z.log2_nonneg (bitmap_ a)). pose proof (Z.log2_lt_pow2 (bitmap_ a) w ltac:(lia)) as Hlw.
  assert (Z.log2 (bitmap_ a) = i) as Elog.
  { assert (Z.log2 (bitmap_ a) ∈ set_bits w (bitmap_ a)) as Hlog.
    { apply elem_of_set_bits. split; [apply Z.bit_log2; lia|lia]. }
    assert (i <= Z.log2 (bitmap_ a)).
    { destruct (Z.le_gt_cases i (Z.log2 (bitmap_ a))) as [|Hgt]; [done|]. rewrite Z.bits_above_log2 in Hb by lia. done. }
    assert (Z.log2 (bitmap_ a) <= i); [|lia].
    pose proof (set_bits_sorted w (bitmap_ a)) as Hs. rewrite last_lookup in Hl.
    apply list_elem_of_lookup_1 in Hlog as [k Hk].
    pose proof (lookup_lt_Some _ _ _ Hk). destruct (decide (k = pred (length (set_bits w (bitmap_ a))))) as [->|Hne].
    - rewrite Hl in Hk. injection Hk. lia.
    - apply Z.lt_le_incl. by apply (sorted_lookup_lt _ _ _ _ _ Hs Hk Hl); lia. }
  destruct (clz_spec w (bitmap_ a) ltac:(lia)) as (c & Ec & Hc). rewrite Ec. cbn [obind]. f_equal.
  enough (Z.log2 (bitmap_ a) = w - 1 - c) by lia. apply Z.log2_unique; [lia|].
  replace (Z.succ (w - 1 - c)) with (w - c) by lia. apply Hc.
Qed.
End with_indices.

End sparse_array.

(** ** Claims *)

(** C28: an array built from increasing indices holds at each of them its value, or the default
    where values ran out (in the first element, which is a member, whatever its initialisation left): [at] and [operator[]] find it, [at] throws [std::out_of_range] at any
    other index, [has_index] tells the two apart, the size is the number of indices and iteration
    visits them in order. The constructor writes inside its allocation; an index that is out of
    range or repeated fails an assertion. *)
Theorem sparse_array_access {V} (w : Z) (init dflt : V) (indices : list Z) (values : list V) :
  0 < w < 2 ^ 32 -> Forall (fun i => 0 <= i < 2 ^ 32) indices ->
  (StronglySorted Z.lt indices -> Forall (in_bitmap w) indices -> exists a,
    sparse_array_ctor w init dflt indices values = Ok a /\ size a = Z.of_nat (length indices) /\
    (forall k i, indices !! k = Some i ->
      at_impl w a i = Ok (default (initial init dflt k) (values !! k)) /\ index_impl w a i = Ok (default (initial init dflt k) (values !! k))) /\
    (forall i, 0 <= i -> has_index w a i = bool_decide (i ∈ indices)) /\
    (forall i, 0 <= i -> i ∉ indices -> at_impl w a i = Throw OutOfRange) /\
    (it <-? indices_begin w (bitmap_ a) ;; collect_indices w (Z.to_nat w) it) = Ok indices) /\
  ((exists i, i ∈ indices /\ w <= i) \/ ~ NoDup indices -> sparse_array_ctor w init dflt indices values = Throw Assert).
Proof.
  intros Hw Hr. split.
  - intros Hs Hf. assert (NoDup indices) as Hnd.
    { by apply sorted_nodup. }
    destruct (ctor_ok w init dflt Hw indices values Hf Hnd) as (bm & es & E & Eb & Hes & _).
    destruct (bitmap_ok w Hw indices Hf Hnd) as (bm' & Eb' & Hbm & Hperm & Hbits). rewrite Eb in Eb'. injection Eb' as <-.
    assert (forall i, 0 <= i -> i ∉ indices -> i < w -> Z.testbit bm i = false) as Hclear.
    { intros i Hi Hn Hlt. apply not_true_is_false. intros Hb. apply Hn, Hbits; [lia|done]. }
    exists (mk_sparse_array bm es). split; [done|]. split_and!.
    + unfold size. cbn [bitmap_]. rewrite <- (length_set_bits w bm), Hperm by lia. done.
    + intros k i Hk. pose proof (Forall_lookup_1 _ _ _ _ Hf Hk) as Hi.
      destruct (rank_ok w Hw indices bm i k Hs Hperm Hk Hi) as [Hb Hrank]. unfold in_bitmap in Hi.
      unfold at_impl, index_impl, max_size. cbn [bitmap_ elements_].
      rewrite (proj2 (Z.ltb_lt _ _)), shiftl_one, land_pow2_zero, Hb by lia. cbn [negb oassert obind]. rewrite Hrank, Hes; [done|].
      by apply lookup_lt_Some in Hk.
    + intros i Hi. unfold has_index, max_size. cbn [bitmap_]. destruct (Z.ltb_spec i w).
      * rewrite shiftl_one, land_pow2_zero, negb_involutive by lia.
        destruct (decide (i ∈ indices)) as [Hin|Hin]; [rewrite bool_decide_true by done; by apply Hbits|].
        rewrite bool_decide_false by done. by apply Hclear.
      * symmetry. apply bool_decide_false. intros Hin. rewrite Forall_forall in Hf. apply Hf in Hin. unfold in_bitmap in Hin. lia.
    + intros i Hi Hn. unfold at_impl, max_size. cbn [bitmap_]. destruct (Z.ltb_spec i w); [|done].
      rewrite shiftl_one, land_pow2_zero, Hclear by (lia || done). done.
    + cbn [bitmap_]. rewrite iterate_ok by done. f_equal.
      apply (StronglySorted_unique_strong Z.lt); [|apply set_bits_sorted|done|done]. intros; lia.
  - intros Hbad. unfold sparse_array_ctor, bitmap. rewrite accumulate_rejects; [done..|lia|]. naive_solver.
Qed.

Lemma sparse_array_access_witness :
  exists a, sparse_array_ctor 64 7 0 [2; 5; 63] [20; 50] = Ok a /\ at_impl 64 a 5 = Ok 50 /\ at_impl 64 a 63 = Ok 0 /\
    at_impl 64 a 3 = Throw OutOfRange.
Proof.
  destruct (sparse_array_access 64 7 0 [2; 5; 63] [20; 50]) as [H _]; [lia|repeat (constructor; [lia|]); constructor|].
  destruct H as (a & E & _ & Hget & _ & Hno & _).
  { repeat (constructor; [|repeat (constructor; [lia|]); constructor]). constructor. }
  { unfold in_bitmap. repeat (constructor; [lia|]). constructor. }
  exists a. split; [exact E|]. destruct (Hget 1%nat 5 eq_refl) as [-> _]. destruct (Hget 2%nat 63 eq_refl) as [-> _].
  split; [reflexivity|]. split; [reflexivity|]. apply Hno; [lia|]. rewrite !elem_of_cons, elem_of_nil. lia.
Defined.

(** Indices out of order are accepted, but their values are not found under them. *)
Example unsorted_indices_swap :
  exists a, sparse_array_ctor 64 7 0 [5; 2] [50; 20] = Ok a /\ at_impl 64 a 5 = Ok 20 /\ at_impl 64 a 2 = Ok 50.
Proof. eexists. split; [vm_compute; reflexivity|]. split; reflexivity. Qed.
