(* ===== verification/Broker.v ===== *)
(** * The broker: messages and commands

    Models the protocol between the clients and the broker process: the packets of
    include/pstore/broker_intf/message_type.hpp, their production by
    lib/broker_intf/send_message.cpp, their reassembly by lib/broker/parser.cpp, and the command
    loop of lib/broker/command.cpp. A packet is transferred atomically, so a run of the broker is
    a sequence of packets, those of different senders interleaved in any way. Characters are
    octets, a time is an integer. *)

From S2P Require Import Prelude.

(** ** Packets *)

(** [message_size] and [message_type::payload_chars] *)
Definition message_size : Z := 256.
Definition payload_chars : Z := message_size - 2 * 4 - 2 * 2.

(** [message_type] *)
Record message_type := mk_message {
  sender_id : Z;
  message_id : Z;
  part_no : Z;
  num_parts : Z;
  payload : list Z
}.

#[global] Instance message_type_eq_dec : EqDecision message_type.
Proof. solve_decision. Defined.

(** [get_payload] *)
Definition get_payload (content : list Z) : list Z :=
  let count := Nat.min (length content) (Z.to_nat payload_chars) in
  take count content ++ replicate (Z.to_nat payload_chars - count) 0.

(** The constructor, in the process [process_id] *)
Definition message_ctor (process_id mid pno nump : Z) (content : list Z) : outcome message_type :=
  if pno >=? nump then Throw (Raise bad_message_part_number)
  else Ok (mk_message process_id mid pno nump (get_payload content)).

(** ** Sending *)

(** The loop of [send_message]: the packets that it writes for the characters from [first] on *)
Fixpoint send_loop (fuel : nat) (process_id mid part num_parts : Z) (first : list Z) : outcome (list message_type) :=
  if part <? num_parts then
    match fuel with
    | O => Throw OutOfFuel
    | S fuel =>
        let remaining := length first in
        _ <-? oassert (0 <? remaining)%nat ;;
        let n := Nat.min remaining (Z.to_nat payload_chars) in
        m <-? message_ctor process_id mid part num_parts (take n first) ;;
        rest <-? send_loop fuel process_id mid (wrap 16 (part + 1)) num_parts (drop n first) ;;
        Ok (m :: rest)
    end
  else Ok [].

(** [send_message]: the packets, in the order in which they are written, and the next value of
    the process's counter of messages *)
Definition send_message (process_id counter : Z) (verb : list Z) (path : option (list Z))
    : outcome (list message_type * Z) :=
  let payload :=
    match path with
    | Some (c :: p) => verb ++ [32] ++ c :: p
    | _ => verb
    end in
  let num_parts := wrap 16 ((Z.of_nat (length payload) + payload_chars - 1) / payload_chars) in
  let mid := counter in
  ms <-? send_loop (Z.to_nat num_parts) process_id mid 0 num_parts payload ;;
  Ok (ms, wrap32 (counter + 1)).

(** ** Reassembly *)

(** [broker_command], [pieces] and [partial_cmds] *)
Record broker_command := mk_command { verb : list Z; path : list Z }.
Record pieces := mk_pieces { arrive_time_ : Z; s_ : list (option (list Z)) }.
Abbreviation partial_cmds := (gmap (Z * Z) pieces).

#[global] Instance broker_command_eq_dec : EqDecision broker_command.
Proof. solve_decision. Defined.

(** [is_space]: [std::isspace] in the C locale *)
Definition is_space (c : Z) : bool := (c =? 32) || ((9 <=? c) && (c <=? 13)).

(** [skip_ws] skips one character at most. *)
Definition skip_ws (s : list Z) : list Z :=
  match s with
  | c :: s' => if is_space c then s' else s
  | [] => []
  end.

(** [extract_word_no_ws] and [extract_word]: the word, and what follows it *)
Fixpoint extract_word_no_ws (s : list Z) : list Z * list Z :=
  match s with
  | [] => ([], [])
  | c :: s' => if is_space c then ([], s) else let '(w, rest) := extract_word_no_ws s' in (c :: w, rest)
  end.
Definition extract_word (s : list Z) : list Z * list Z := extract_word_no_ws (skip_ws s).

(** [extract_payload]: everything up to the last character that is not null *)
Fixpoint drop_nulls (s : list Z) : list Z :=
  match s with
  | c :: s' => if negb (c =? 0) then s else drop_nulls s'
  | [] => []
  end.
Definition extract_payload (msg : message_type) : list Z := reverse (drop_nulls (reverse (payload msg))).

(** The end of [parse], on a complete command *)
Definition split_command (complete_command : list Z) : broker_command :=
  let '(v, rest) := extract_word complete_command in mk_command v (skip_ws rest).

(** [parse], at the time [now] *)
Definition parse (now : Z) (msg : message_type) : M partial_cmds (option broker_command) :=
  if part_no msg >=? num_parts msg then throw PartNumberTooLarge
  else
    let payload := extract_payload msg in
    let key := (sender_id msg, message_id msg) in
    cmds <- get ;;
    let it := match cmds !! key with
              | None => replicate (Z.to_nat (num_parts msg)) None
              | Some p => s_ p
              end in
    put (<[key := mk_pieces now it]> cmds) ;;;
    if negb (Z.of_nat (length it) =? num_parts msg) then throw NumberOfPartsMismatch
    else
      let was_missing := match it !! Z.to_nat (part_no msg) with Some (Some _) => false | _ => true end in
      let value := <[Z.to_nat (part_no msg) := Some payload]> it in
      modify (<[key := mk_pieces now value]>) ;;;
      match was_missing, mapM id value with
      | true, Some ps => modify (delete key) ;;; ret (Some (split_command (mjoin ps)))
      | _, _ => ret None
      end.

(** ** The command loop *)

(** The handlers of [command_processor::commands_] *)
Inductive handler := h_echo | h_gc | h_nop | h_suicide | h_cquit | h_quit.

(** [commands_]: the verbs ECHO, GC, NOP, SUICIDE, _CQUIT and _QUIT *)
Definition commands_ : list (list Z * handler) :=
  [([69; 67; 72; 79], h_echo); ([71; 67], h_gc); ([78; 79; 80], h_nop);
   ([83; 85; 73; 67; 73; 68; 69], h_suicide);
   ([95; 67; 81; 85; 73; 84], h_cquit); ([95; 81; 85; 73; 84], h_quit)].

(** [std::strcmp (a, b) < 0] *)
Fixpoint str_less (a b : list Z) : bool :=
  match a, b with
  | _, [] => false
  | [], _ :: _ => true
  | x :: a, y :: b => (x <? y) || ((x =? y) && str_less a b)
  end.

(** What a command makes the broker do *)
Inductive event :=
  | Ran (h : handler) (path : list Z)
  | Unknown (verb : list Z).

(** [std::lower_bound] in the table, and the handler found *)
Definition lookup_handler (verb : list Z) : option handler :=
  match base.filter (fun e => str_less e.1 verb = false) commands_ with
  | e :: _ => if bool_decide (verb = e.1) then Some e.2 else None
  | [] => None
  end.

(** [command_processor], with the variables that the shutdown of lib/broker/quit.cpp shares with
    it: the global flag [done], the flag of the uptime thread, and the counter of [push]. [to_push]
    holds the texts that a running [shutdown] has still to push, and [readers_woken] counts the
    packets written to the pipe that the reader threads listen to. [taken] and [done_events]
    record, for the model, the messages that the loop has taken and what it has done. *)
Record command_processor := mk_processor {
  cmds_ : partial_cmds;
  commands_done_ : bool;
  commits_ : Z;
  messages_ : list message_type;
  num_read_threads_ : nat;
  done : bool;
  uptime_done_ : bool;
  mid_ : Z;
  to_push : list (list Z);
  readers_woken : nat;
  taken : list message_type;
  done_events : list event
}.

Definition set_cmds (c : partial_cmds) (p : command_processor) : command_processor :=
  mk_processor c (commands_done_ p) (commits_ p) (messages_ p) (num_read_threads_ p) (done p) (uptime_done_ p) (mid_ p)
    (to_push p) (readers_woken p) (taken p) (done_events p).
Definition set_commands_done (p : command_processor) : command_processor :=
  mk_processor (cmds_ p) true (commits_ p) (messages_ p) (num_read_threads_ p) (done p) (uptime_done_ p) (mid_ p)
    (to_push p) (readers_woken p) (taken p) (done_events p).
Definition count_commit (p : command_processor) : command_processor :=
  mk_processor (cmds_ p) (commands_done_ p) (wrap32 (commits_ p + 1)) (messages_ p) (num_read_threads_ p) (done p)
    (uptime_done_ p) (mid_ p) (to_push p) (readers_woken p) (taken p) (done_events p).
Definition next_mid (p : command_processor) : command_processor :=
  mk_processor (cmds_ p) (commands_done_ p) (commits_ p) (messages_ p) (num_read_threads_ p) (done p) (uptime_done_ p)
    (wrap32 (mid_ p + 1)) (to_push p) (readers_woken p) (taken p) (done_events p).
Definition set_uptime_done (p : command_processor) : command_processor :=
  mk_processor (cmds_ p) (commands_done_ p) (commits_ p) (messages_ p) (num_read_threads_ p) (done p) true (mid_ p)
    (to_push p) (readers_woken p) (taken p) (done_events p).
Definition set_to_push (l : list (list Z)) (p : command_processor) : command_processor :=
  mk_processor (cmds_ p) (commands_done_ p) (commits_ p) (messages_ p) (num_read_threads_ p) (done p) (uptime_done_ p)
    (mid_ p) l (readers_woken p) (taken p) (done_events p).
Definition set_done (p : command_processor) : command_processor :=
  mk_processor (cmds_ p) (commands_done_ p) (commits_ p) (messages_ p) (num_read_threads_ p) true (uptime_done_ p) (mid_ p)
    (to_push p) (readers_woken p) (taken p) (done_events p).
Definition wake_reader (p : command_processor) : command_processor :=
  mk_processor (cmds_ p) (commands_done_ p) (commits_ p) (messages_ p) (num_read_threads_ p) (done p) (uptime_done_ p)
    (mid_ p) (to_push p) (S (readers_woken p)) (taken p) (done_events p).
Definition take_message (m : message_type) (rest : list message_type) (p : command_processor) : command_processor :=
  mk_processor (cmds_ p) (commands_done_ p) (commits_ p) rest (num_read_threads_ p) (done p) (uptime_done_ p)
    (mid_ p) (to_push p) (readers_woken p) (taken p ++ [m]) (done_events p).
Definition record_event (e : event) (p : command_processor) : command_processor :=
  mk_processor (cmds_ p) (commands_done_ p) (commits_ p) (messages_ p) (num_read_threads_ p) (done p) (uptime_done_ p)
    (mid_ p) (to_push p) (readers_woken p) (taken p) (done_events p ++ [e]).

(** [push_command] and [message_queue::push] *)
Definition push_command (m : message_type) (p : command_processor) : command_processor :=
  mk_processor (cmds_ p) (commands_done_ p) (commits_ p) (messages_ p ++ [m]) (num_read_threads_ p) (done p)
    (uptime_done_ p) (mid_ p) (to_push p) (readers_woken p) (taken p) (done_events p).

(** [read_loop_quit_command], _QUIT, and [command_loop_quit_command], _CQUIT *)
Definition read_loop_quit_command : list Z := [95; 81; 85; 73; 84].
Definition command_loop_quit_command : list Z := [95; 67; 81; 85; 73; 84].

(** [push] of quit.cpp, in the process [self] *)
Definition push (self : Z) (message : list Z) : M command_processor unit :=
  massert (Z.of_nat (length message) <=? payload_chars) ;;;
  mid <- gets mid_ ;;
  modify next_mid ;;;
  m <- lift (message_ctor self mid 0 1 message) ;;
  modify (push_command m).

(** What [shutdown] pushes: one request for each reader thread, then the one that ends the loop *)
Definition quit_texts (num_read_threads : nat) : list (list Z) :=
  replicate num_read_threads read_loop_quit_command ++ [command_loop_quit_command].

(** [shutdown], called for SUICIDE: it sets the flag, unless it is set, and goes on to push its
    texts, which takes further turns of the thread ([shutdown_turn]). *)
Definition shutdown : M command_processor unit :=
  d <- gets done ;;
  if (d : bool) then ret tt
  else
    modify set_done ;;;
    n <- gets num_read_threads_ ;;
    modify (set_to_push (quit_texts n)).

(** One turn of a running [shutdown]: the next text is pushed; behind the last one the HTTP server
    is told to quit, a call that gives [outside], and the flag of the uptime thread is set. *)
Definition shutdown_turn (self : Z) (outside : outcome unit) (text : list Z) (rest : list (list Z)) : M command_processor unit :=
  push self text ;;;
  modify (set_to_push rest) ;;;
  match rest with
  | [] => lift outside ;;; modify set_uptime_done
  | _ => ret tt
  end.

(** The handlers. What they call out of the broker's command processor, [start_vacuum] and the
    write to the pipe, gives [outside]. *)
Definition run_handler (outside : outcome unit) (h : handler) : M command_processor unit :=
  match h with
  | h_echo | h_nop => ret tt
  | h_gc => lift outside ;;; modify count_commit
  | h_suicide => shutdown
  | h_cquit => modify set_commands_done
  | h_quit =>
      d <- gets done ;;
      if (d : bool) then lift outside ;;; modify wake_reader else ret tt
  end.

Definition in_cmds {A} (m : M partial_cmds A) : M command_processor A :=
  fun p => let '(r, c) := m (cmds_ p) in (r, set_cmds c p).

(** [process_command] *)
Definition process_command (now : Z) (outside : outcome unit) (msg : message_type) : M command_processor unit :=
  command <- in_cmds (parse now msg) ;;
  match command with
  | None => ret tt
  | Some c =>
      match lookup_handler (verb c) with
      | Some h => run_handler outside h ;;; modify (record_event (Ran h (path c)))
      | None => modify (record_event (Unknown (verb c)))
      end
  end.

(** One turn of [thread_entry]: the running [shutdown] goes on, or the loop takes the next message,
    if there is one, unless it was told to end. *)
Definition thread_turn (self now : Z) (outside : outcome unit) : M command_processor unit :=
  p <- get ;;
  match to_push p with
  | text :: rest => shutdown_turn self outside text rest
  | [] =>
      if commands_done_ p then ret tt
      else
        match messages_ p with
        | [] => ret tt
        | m :: rest => modify (take_message m rest) ;;; process_command now outside m
        end
  end.

(** [scavenge], at the time [now] *)
Definition scavenge (now delete_threshold : Z) (p : command_processor) : command_processor :=
  let earliest_time := now - delete_threshold in
  set_cmds (base.filter (fun e => ~ arrive_time_ e.2 < earliest_time) (cmds_ p)) p.

(** What the threads do: a reader pushes a packet, the command thread has a turn, or the scavenger
    runs *)
Inductive action :=
  | Push (m : message_type)
  | Turn (now : Z) (outside : outcome unit)
  | Scavenge (now delete_threshold : Z).

(** [thread_entry] in its surroundings: the exception that left [process_command] and ended it, if
    any, and the processor *)
Definition broker : Type := option exn * command_processor.

Definition broker_step (self : Z) (a : action) (s : broker) : broker :=
  match a with
  | Push m => (s.1, push_command m s.2)
  | Scavenge now threshold => (s.1, scavenge now threshold s.2)
  | Turn now outside =>
      match s.1 with
      | Some _ => s
      | None =>
          match thread_turn self now outside s.2 with
          | (Ok _, p) => (None, p)
          | (Throw e, p) => (Some e, p)
          end
      end
  end.

Definition run (self : Z) (acts : list action) (s : broker) : broker :=
  foldl (fun s a => broker_step self a s) s acts.

(** The processor that is constructed for [n] reader threads *)
Definition initial_processor (n : nat) : command_processor :=
  mk_processor ∅ false 0 [] n false false 0 [] 0 [] [].

(** ** Splitting *)

Definition not_null (c : Z) : Prop := c <> 0.

(** A piece of a message: at least one character, none of them null, and it fits a packet *)
Definition piece (c : list Z) : Prop := c <> [] /\ Z.of_nat (length c) <= payload_chars /\ Forall not_null c.

(** The packets of a message that has been cut into the pieces [cs] *)
Definition packet (key : Z * Z) (cs : list (list Z)) (i : nat) : message_type :=
  mk_message key.1 key.2 (Z.of_nat i) (Z.of_nat (length cs)) (get_payload (default [] (cs !! i))).

Lemma drop_nulls_replicate n s : drop_nulls (replicate n 0 ++ s) = drop_nulls s.
Proof. by induction n. Qed.

Lemma extract_payload_ok key cs i c : cs !! i = Some c -> piece c -> extract_payload (packet key cs i) = c.
Proof.
  intros Hi (Hne & Hlen & Hnn). unfold extract_payload, packet, get_payload. cbn [payload]. rewrite Hi. cbn [from_option id].
  unfold payload_chars, message_size in *. rewrite Nat.min_l by lia. rewrite take_ge by lia.
  rewrite reverse_app, reverse_replicate, drop_nulls_replicate.
  destruct (reverse c) as [|x r] eqn:E.
  - apply (f_equal length) in E. rewrite length_reverse in E. destruct c; done.
  - assert (x <> 0) as Hx. { rewrite Forall_forall in Hnn. apply Hnn. apply elem_of_reverse. rewrite E. left. }
    cbn [drop_nulls]. rewrite (proj2 (Z.eqb_neq _ _)) by done. cbn [negb]. by rewrite <- E, reverse_involutive.
Qed.

(** The loop cuts what is left into as many pieces as are announced. *)
Lemma send_loop_ok k pid mid part n first : (Z.of_nat k + part = n) -> 0 <= part -> n < 2 ^ 16 -> Forall not_null first ->
  (Z.of_nat k - 1) * payload_chars < Z.of_nat (length first) <= Z.of_nat k * payload_chars ->
  exists cs, send_loop k pid mid part n first =
      Ok (imap (fun i c => mk_message pid mid (part + Z.of_nat i) n (get_payload c)) cs) /\
    length cs = k /\ mjoin cs = first /\ Forall piece cs.
Proof.
  revert part first. induction k as [|k IH]; intros part first Hk Hp Hn Hnn Hlen; cbn [send_loop].
  { rewrite (proj2 (Z.ltb_ge _ _)) by lia. exists []. destruct first; [done|]. unfold payload_chars, message_size in Hlen. simpl in Hlen. lia. }
  rewrite (proj2 (Z.ltb_lt _ _)) by lia. set (m := Nat.min (length first) (Z.to_nat payload_chars)).
  unfold payload_chars, message_size in *. rewrite (proj2 (Nat.ltb_lt _ _)) by lia. cbn [oassert obind].
  unfold message_ctor. rewrite Z.geb_leb, (proj2 (Z.leb_gt _ _)) by lia. cbn [obind]. rewrite wrap_small by lia.
  destruct (IH (part + 1) (drop m first)) as (cs & -> & Hl & Hj & Hf); [lia|lia|lia|by apply Forall_drop| |].
  { rewrite length_drop. subst m. destruct (decide (k = 0%nat)) as [->|]; lia. }
  cbn [obind]. exists (take m first :: cs). split_and!.
  - f_equal. cbn [imap]. f_equal; [f_equal; lia|]. apply imap_ext. intros i c _. unfold compose.
    by replace (part + Z.of_nat (S i)) with (part + 1 + Z.of_nat i) by lia.
  - simpl. lia.
  - change (mjoin (take m first :: cs)) with (take m first ++ mjoin cs). by rewrite Hj, take_drop.
  - constructor; [|done]. split_and!.
    + intros E. apply (f_equal length) in E. rewrite length_take in E. subst m. simpl in E. lia.
    + rewrite length_take. unfold payload_chars, message_size. subst m. lia.
    + by apply Forall_take.
Qed.

(** What [send_message] sends of a verb and a path *)
Definition command_text (verb path : list Z) : list Z :=
  match path with [] => verb | _ => verb ++ [32] ++ path end.

Lemma send_message_ok pid counter verb path : command_text verb path <> [] -> Forall not_null (command_text verb path) ->
  Z.of_nat (length (command_text verb path)) <= 65535 * payload_chars ->
  exists cs, send_message pid counter verb (Some path) = Ok (packet (pid, counter) cs <$> seq 0 (length cs), wrap32 (counter + 1)) /\
    mjoin cs = command_text verb path /\ Forall piece cs /\ cs <> [].
Proof.
  intros Hne Hnn Hlen. unfold send_message.
  replace (match path with [] => verb | c :: p => verb ++ [32] ++ c :: p end) with (command_text verb path) by (by destruct path).
  set (text := command_text verb path) in *. unfold payload_chars, message_size in *.
  set (q := (Z.of_nat (length text) + (256 - 2 * 4 - 2 * 2) - 1) / (256 - 2 * 4 - 2 * 2)).
  assert (0 < length text)%nat as Hpos by (destruct text; [done|simpl; lia]).
  assert ((q - 1) * 244 < Z.of_nat (length text) <= q * 244 /\ 0 < q) as [Hq Hq0] by (subst q; Z.div_mod_to_equations; lia).
  rewrite wrap_small by lia. destruct (send_loop_ok (Z.to_nat q) pid counter 0 q text) as (cs & -> & Hl & Hj & Hf);
    [lia|lia|lia|done|unfold payload_chars, message_size; lia|].
  cbn [obind]. exists cs. split_and!; [|done|done|by intros ->; simpl in Hl; lia]. f_equal. f_equal.
  apply list_eq. intros i. rewrite list_lookup_imap, list_lookup_fmap. destruct (decide (i < length cs)%nat) as [Hi|Hi].
  - rewrite lookup_seq_lt by done. destruct (lookup_lt_is_Some_2 cs i Hi) as [c Hc]. rewrite Hc. cbn. unfold packet. cbn [fst snd].
    rewrite Hc. cbn [from_option id]. do 2 f_equal; lia.
  - rewrite lookup_seq_ge, lookup_ge_None_2 by lia. done.
Qed.

(** ** Reassembly *)

Section reassembly.

(** The messages in flight: their keys and pieces *)
Context (msgs : gmap (Z * Z) (list (list Z))).
Context (Hmsgs : forall key cs, msgs !! key = Some cs -> cs <> [] /\ Forall piece cs).

(** The slots of a message of whose packets those in [D] have arrived *)
Definition slots (D : gset ((Z * Z) * nat)) (key : Z * Z) (cs : list (list Z)) : list (option (list Z)) :=
  imap (fun i c => if decide ((key, i) ∈ D) then Some c else None) cs.

Definition complete (D : gset ((Z * Z) * nat)) (key : Z * Z) (cs : list (list Z)) : Prop :=
  Forall (fun i => (key, i) ∈ D) (seq 0 (length cs)).

#[local] Instance complete_dec D key cs : Decision (complete D key cs).
Proof. unfold complete. apply _. Defined.

(** What the broker knows of a message after the packets in [D] *)
Definition known (D : gset ((Z * Z) * nat)) (cmds : partial_cmds) : Prop :=
  forall key, match msgs !! key with
    | None => cmds !! key = None
    | Some cs =>
        if decide (complete D key cs) then cmds !! key = None
        else (exists t, cmds !! key = Some (mk_pieces t (slots D key cs))) /\ slots D key cs <> replicate (length cs) None \/
             cmds !! key = None /\ slots D key cs = replicate (length cs) None
    end.

Lemma complete_lookup D key cs i : complete D key cs -> (i < length cs)%nat -> (key, i) ∈ D.
Proof. unfold complete. rewrite Forall_forall. intros H Hi. apply H, elem_of_seq. lia. Qed.

Lemma slots_lookup D key cs i c : cs !! i = Some c ->
  slots D key cs !! i = Some (if decide ((key, i) ∈ D) then Some c else None).
Proof. intros Hc. unfold slots. by rewrite list_lookup_imap, Hc. Qed.

Lemma slots_insert D key cs i c : cs !! i = Some c ->
  <[i := Some c]> (slots D key cs) = slots ({[(key, i)]} ∪ D) key cs.
Proof.
  intros Hc. apply list_eq. intros j. unfold slots. destruct (decide (i = j)) as [<-|Hij].
  - rewrite list_lookup_insert_eq by (rewrite length_imap; by eapply lookup_lt_Some).
    rewrite list_lookup_imap, Hc. cbn. by rewrite decide_True by set_solver.
  - rewrite list_lookup_insert_ne, !list_lookup_imap by done. destruct (cs !! j); [|done]. cbn. f_equal.
    apply decide_ext. set_solver.
Qed.

Lemma slots_other D key cs key' i : key <> key' -> slots ({[(key', i)]} ∪ D) key cs = slots D key cs.
Proof. intros Hk. unfold slots. apply imap_ext. intros j c _. apply decide_ext. set_solver. Qed.

Lemma complete_other D key cs key' i : key <> key' -> complete ({[(key', i)]} ∪ D) key cs <-> complete D key cs.
Proof. intros Hk. unfold complete. rewrite !Forall_forall. split; intros H j Hj; specialize (H j Hj); set_solver. Qed.

(** All slots are filled exactly when the message is complete, with its pieces. *)
Lemma slots_mapM D key cs :
  mapM id (slots D key cs) = if decide (complete D key cs) then Some cs else None.
Proof.
  case_decide as Hc.
  - apply mapM_Some. apply Forall2_same_length_lookup_2; [by unfold slots; rewrite length_imap|].
    intros i x y Hx Hy. rewrite (slots_lookup D key cs i y Hy) in Hx. injection Hx as <-.
    rewrite decide_True; [done|]. apply (complete_lookup D key cs); [done|by eapply lookup_lt_Some].
  - apply mapM_None. apply not_Forall_Exists in Hc; [|apply _]. apply Exists_exists in Hc as (i & Hi & Hn).
    apply elem_of_seq in Hi. destruct (lookup_lt_is_Some_2 cs i) as [c Hcs]; [lia|].
    apply Exists_exists. exists None. split; [|done]. apply (list_elem_of_lookup_2 _ i).
    rewrite (slots_lookup D key cs i c Hcs). by rewrite decide_False.
Qed.

(** One packet that had not arrived: the message is executed if it was the last missing one. *)
Lemma parse_packet now D cmds key cs i c : known D cmds -> msgs !! key = Some cs -> cs !! i = Some c -> (key, i) ∉ D ->
  exists cmds', parse now (packet key cs i) cmds =
      (Ok (if decide (complete ({[(key, i)]} ∪ D) key cs) then Some (split_command (mjoin cs)) else None), cmds') /\
    known ({[(key, i)]} ∪ D) cmds'.
Proof.
  intros Hk Hcs Hc Hnew. destruct (Hmsgs key cs Hcs) as [Hne Hpieces]. pose proof (lookup_lt_Some _ _ _ Hc) as Hi.
  assert (~ complete D key cs) as Hnc by (intros H; by apply Hnew, (complete_lookup D key cs)).
  set (it := match cmds !! key with None => replicate (length cs) None | Some p => s_ p end).
  assert (it = slots D key cs) as Hit.
  { subst it. pose proof (Hk key) as H. rewrite Hcs, decide_False in H by done. destruct H as [[(t & ->) _]|(-> & ->)]; done. }
  unfold parse. rewrite (extract_payload_ok key cs i c Hc) by (by eapply Forall_lookup_1).
  cbn [packet sender_id message_id part_no num_parts]. rewrite Z.geb_leb, (proj2 (Z.leb_gt _ _)) by lia.
  rewrite <- (surjective_pairing key). unfold bind, get, put, modify, ret, throw. cbn beta iota zeta. rewrite !Nat2Z.id.
  fold it. rewrite Hit. assert (length (slots D key cs) = length cs) as Hlen by (unfold slots; by rewrite length_imap).
  rewrite Hlen, Z.eqb_refl. cbn [negb]. rewrite (slots_lookup D key cs i c Hc), decide_False by done.
  rewrite (slots_insert D key cs i c Hc), slots_mapM.
  assert (forall v, (forall key', key' <> key -> v !! key' = cmds !! key') ->
    (if decide (complete ({[(key, i)]} ∪ D) key cs) then v !! key = None
     else v !! key = Some (mk_pieces now (slots ({[(key, i)]} ∪ D) key cs))) -> known ({[(key, i)]} ∪ D) v) as Hknown.
  { intros v Hv1 Hv2 key'. destruct (decide (key' = key)) as [->|Hne'].
    - rewrite Hcs. case_decide; [done|]. left. split; [by eauto|]. intros E. apply (f_equal (lookup i)) in E.
      rewrite (slots_lookup _ key cs i c Hc), decide_True in E by set_solver. symmetry in E. by apply lookup_replicate in E as [? _].
    - specialize (Hk key'). rewrite Hv1 by done. destruct (msgs !! key') as [cs'|]; [|done].
      rewrite slots_other by done. rewrite (decide_ext _ _ _ _ (complete_other D key' cs' key i Hne')). done. }
  case_decide as Hdone; eexists; (split; [reflexivity|]); apply Hknown.
  - intros key' Hne'. by rewrite lookup_delete_ne, !lookup_insert_ne by done.
  - by rewrite lookup_delete_eq.
  - intros key' Hne'. by rewrite !lookup_insert_ne by done.
  - by rewrite lookup_insert_eq.
Qed.

(** *** Runs *)

(** What the broker does on a command *)
Definition effect (c : broker_command) : event :=
  match lookup_handler (verb c) with
  | Some h => Ran h (path c)
  | None => Unknown (verb c)
  end.

(** The messages all of whose packets have arrived *)
Definition finished (D : gset ((Z * Z) * nat)) : gmap (Z * Z) (list (list Z)) :=
  base.filter (fun kv => complete D kv.1 kv.2) msgs.

Definition effects (D : gset ((Z * Z) * nat)) : list event :=
  (fun kv => effect (split_command (mjoin kv.2))) <$> map_to_list (finished D).

Lemma finished_lookup D key cs : finished D !! key = Some cs <-> msgs !! key = Some cs /\ complete D key cs.
Proof. unfold finished. by rewrite map_lookup_filter_Some. Qed.

Lemma finished_step D key cs i : msgs !! key = Some cs -> (i < length cs)%nat -> (key, i) ∉ D ->
  finished D !! key = None /\
  finished ({[(key, i)]} ∪ D) = if decide (complete ({[(key, i)]} ∪ D) key cs) then <[key := cs]> (finished D) else finished D.
Proof.
  intros Hcs Hi Hnew. assert (finished D !! key = None) as Hnone.
  { destruct (finished D !! key) as [cs'|] eqn:E; [|done]. apply finished_lookup in E as [E Hc]. simplify_eq.
    by destruct Hnew; apply (complete_lookup D key cs). }
  split; [done|]. apply map_eq. intros key'. apply option_eq. intros cs'. rewrite finished_lookup.
  destruct (decide (key' = key)) as [->|Hne].
  - rewrite Hcs. case_decide as Hc.
    + rewrite lookup_insert_eq. naive_solver.
    + rewrite Hnone. naive_solver.
  - rewrite complete_other by done. case_decide; rewrite ?lookup_insert_ne by done; by rewrite finished_lookup.
Qed.

(** One packet that had not arrived: the state that taking it leaves *)
Lemma process_packet now p D key cs i c : known D (cmds_ p) -> done_events p ≡ₚ effects D ->
  msgs !! key = Some cs -> cs !! i = Some c -> (key, i) ∉ D ->
  exists cmds', known ({[(key, i)]} ∪ D) cmds' /\
    if decide (complete ({[(key, i)]} ∪ D) key cs) then
      done_events p ++ [effect (split_command (mjoin cs))] ≡ₚ effects ({[(key, i)]} ∪ D) /\
      process_command now (Ok tt) (packet key cs i) p =
        match lookup_handler (verb (split_command (mjoin cs))) with
        | Some h => (run_handler (Ok tt) h ;;; modify (record_event (effect (split_command (mjoin cs))))) (set_cmds cmds' p)
        | None => (Ok tt, record_event (effect (split_command (mjoin cs))) (set_cmds cmds' p))
        end
    else
      done_events p ≡ₚ effects ({[(key, i)]} ∪ D) /\
      process_command now (Ok tt) (packet key cs i) p = (Ok tt, set_cmds cmds' p).
Proof.
  intros Hk He Hcs Hc Hnew. destruct (parse_packet now D (cmds_ p) key cs i c Hk Hcs Hc Hnew) as (cmds' & E & Hk').
  destruct (finished_step D key cs i Hcs (lookup_lt_Some _ _ _ Hc) Hnew) as [Hnone Hfin]. exists cmds'. split; [done|].
  unfold effects. rewrite Hfin. case_decide as Hdone; split.
  - rewrite map_to_list_insert by done. rewrite fmap_cons. cbn [snd]. rewrite He. by rewrite <- Permutation_cons_append.
  - unfold process_command, in_cmds. unfold bind at 1. rewrite E. unfold effect. by destruct (lookup_handler _).
  - done.
  - unfold process_command, in_cmds. unfold bind at 1. by rewrite E.
Qed.

Definition valid_id (id : (Z * Z) * nat) : Prop := exists cs c, msgs !! id.1 = Some cs /\ cs !! id.2 = Some c.

Definition packet_of (id : (Z * Z) * nat) : message_type := packet id.1 (default [] (msgs !! id.1)) id.2.

End reassembly.

(** ** Commands that clients send *)

(** A command that some process sends under an identifier of its own *)
Record sending := mk_sending { from_process : Z; with_id : Z; send_verb : list Z; send_path : list Z }.

Definition send_key (s : sending) : Z * Z := (from_process s, with_id s).

(** A verb is a word other than the internal _CQUIT; text is that of null-terminated strings, and
    its packets can be numbered. *)
Definition sendable (s : sending) : Prop :=
  send_verb s <> [] /\ Forall (fun c => is_space c = false /\ c <> 0) (send_verb s) /\ Forall not_null (send_path s) /\
  Z.of_nat (length (command_text (send_verb s) (send_path s))) <= 65535 * payload_chars /\
  lookup_handler (send_verb s) <> Some h_cquit.

Lemma extract_word_no_ws_app v rest : Forall (fun c => is_space c = false) v ->
  (match rest with [] => True | c :: _ => is_space c = true end) -> extract_word_no_ws (v ++ rest) = (v, rest).
Proof.
  intros Hv Hr. induction Hv as [|c v Hc Hv IH]; cbn [app extract_word_no_ws].
  - destruct rest as [|c rest]; [done|]. cbn. by rewrite Hr.
  - by rewrite Hc, IH.
Qed.

Lemma split_command_ok v p : v <> [] -> Forall (fun c => is_space c = false) v ->
  split_command (command_text v p) = mk_command v p.
Proof.
  intros Hne Hv. unfold split_command, extract_word.
  assert (skip_ws (command_text v p) = command_text v p) as ->.
  { destruct v as [|c v]; [done|]. apply Forall_cons in Hv as [Hc _]. unfold command_text. destruct p; cbn; by rewrite Hc. }
  unfold command_text. destruct p as [|c p].
  - pose proof (extract_word_no_ws_app v [] Hv I) as E. rewrite app_nil_r in E. by rewrite E.
  - rewrite extract_word_no_ws_app by done. done.
Qed.

Lemma sendable_text s : sendable s -> command_text (send_verb s) (send_path s) <> [] /\
  Forall not_null (command_text (send_verb s) (send_path s)) /\
  split_command (command_text (send_verb s) (send_path s)) = mk_command (send_verb s) (send_path s).
Proof.
  intros (Hne & Hv & Hp & _ & _). assert (Forall not_null (send_verb s)) as Hnn by (eapply Forall_impl; [exact Hv|]; by intros ? []).
  split_and!.
  - unfold command_text. destruct (send_path s), (send_verb s); done.
  - unfold command_text. destruct (send_path s); [done|]. apply Forall_app. split; [done|]. by constructor; [unfold not_null; lia|].
  - apply split_command_ok; [done|]. eapply Forall_impl; [exact Hv|]. by intros ? [].
Qed.

(** The packets of a list of messages, and their numbers *)
Definition packet_ids (kcs : list ((Z * Z) * list (list Z))) : list ((Z * Z) * nat) :=
  kcs ≫= fun kc => (fun i => (kc.1, i)) <$> seq 0 (length kc.2).

Lemma packet_ids_spec kcs key i : (key, i) ∈ packet_ids kcs <-> exists cs, (key, cs) ∈ kcs /\ (i < length cs)%nat.
Proof.
  unfold packet_ids. rewrite list_elem_of_bind. split.
  - intros ([key' cs] & H & Hin). cbn in H. apply list_elem_of_fmap in H as (j & [= -> ->] & Hj). apply elem_of_seq in Hj. exists cs. split; [done|lia].
  - intros (cs & Hin & Hi). exists (key, cs). split; [|done]. cbn. apply list_elem_of_fmap. exists i. split; [done|]. apply elem_of_seq. lia.
Qed.

Lemma packet_ids_NoDup kcs : NoDup kcs.*1 -> NoDup (packet_ids kcs).
Proof.
  intros Hnd. apply NoDup_bind; [| |by apply (NoDup_fmap_1 fst)].
  - intros [k1 cs1] [k2 cs2] [key i] H1 H2 Hy1 Hy2. cbn in Hy1, Hy2.
    apply list_elem_of_fmap in Hy1 as (? & [= -> ->] & _), Hy2 as (? & [= -> ->] & _).
    apply (elem_of_list_to_map (M := gmap (Z * Z))) in H1, H2; [|done..]. congruence.
  - intros kc _. apply NoDup_fmap_2; [|apply NoDup_seq]. intros i j [= ->]. done.
Qed.


(** The packets that the readers push in a sequence of actions *)
Definition pushes (acts : list action) : list message_type :=
  omap (fun a => match a with Push m => Some m | _ => None end) acts.

(** Nothing that is called out of the processor raises an exception, and nothing is scavenged. *)
Definition calm (a : action) : Prop :=
  match a with Push _ => True | Turn _ outside => outside = Ok tt | Scavenge _ _ => False end.

Lemma list_filter_all {A} (P : A -> Prop) `{!forall x, Decision (P x)} (l : list A) : Forall P l -> base.filter P l = l.
Proof. induction 1; [done|]. rewrite filter_cons. case_decide; [by f_equal|done]. Qed.

Lemma list_filter_fmap {A B} (P : B -> Prop) `{!forall x, Decision (P x)} (f : A -> B) (l : list A) :
  base.filter P (f <$> l) = f <$> base.filter (fun x => P (f x)) l.
Proof. induction l as [|a l IH]; [done|]. rewrite fmap_cons, !filter_cons, IH. by case_decide. Qed.

(** The packets that [shutdown] pushes in the process [self] *)
Definition quit_packets (self : Z) (n : nat) : list message_type :=
  imap (fun i text => mk_message self (Z.of_nat i) 0 1 (get_payload text)) (quit_texts n).

(** *** Runs *)

Section runs.

(** The process of the broker, its number of reader threads, and the messages of the clients *)
Context (self : Z) (n : nat) (kcs : list ((Z * Z) * list (list Z))).
Context (Hn : Z.of_nat n < 2 ^ 32) (Hnd : NoDup kcs.*1).
Context (Hclients : forall key cs, (key, cs) ∈ kcs -> key.1 <> self /\ cs <> [] /\ Forall piece cs /\
  lookup_handler (verb (split_command (mjoin cs))) <> Some h_cquit).

(** The messages that [shutdown] sends to the broker itself *)
Definition own_messages : list ((Z * Z) * list (list Z)) :=
  imap (fun i text => ((self, Z.of_nat i), [text])) (quit_texts n).

Definition all_messages : gmap (Z * Z) (list (list Z)) := list_to_map (kcs ++ own_messages).

Definition own (id : (Z * Z) * nat) : Prop := id.1.1 = self.
Definition own_id (i : nat) : (Z * Z) * nat := ((self, Z.of_nat i), 0%nat).

#[local] Instance own_dec id : Decision (own id).
Proof. unfold own. apply _. Defined.

Definition is_suicide (e : event) : Prop := match e with Ran h_suicide _ => True | _ => False end.

#[local] Instance is_suicide_dec e : Decision (is_suicide e).
Proof. destruct e as [[] |]; apply _. Defined.

Lemma length_quit_texts : length (quit_texts n) = S n.
Proof. unfold quit_texts. rewrite length_app, length_replicate. simpl. lia. Qed.

Lemma own_messages_elem key cs : (key, cs) ∈ own_messages <->
  exists i text, key = (self, Z.of_nat i) /\ cs = [text] /\ quit_texts n !! i = Some text.
Proof.
  unfold own_messages. rewrite list_elem_of_lookup. split.
  - intros (i & Hi). rewrite list_lookup_imap in Hi. destruct (quit_texts n !! i) as [text|] eqn:E; [|done].
    cbn in Hi. injection Hi as <- <-. eauto.
  - intros (i & text & -> & -> & E). exists i. by rewrite list_lookup_imap, E.
Qed.

Lemma quit_texts_cases i text : quit_texts n !! i = Some text ->
  (i < n)%nat /\ text = read_loop_quit_command \/ i = n /\ text = command_loop_quit_command.
Proof.
  unfold quit_texts. intros H. apply lookup_app_Some in H as [H|[H1 H2]].
  - apply lookup_replicate in H as [-> ?]. by left.
  - rewrite length_replicate in H1, H2. right. apply list_lookup_singleton_Some in H2 as [? <-]. split; [lia|done].
Qed.

Lemma all_messages_keys : NoDup (kcs ++ own_messages).*1.
Proof.
  rewrite fmap_app. apply NoDup_app. split_and!; [done| |].
  - intros key Hk Ho. apply list_elem_of_fmap in Hk as ([? cs] & -> & Hk), Ho as ([? cs'] & E & Ho). cbn in E. subst.
    apply own_messages_elem in Ho as (i & text & -> & _). by destruct (Hclients _ _ Hk) as [? _].
  - apply NoDup_alt. intros i j key Hi Hj. rewrite list_lookup_fmap in Hi, Hj. unfold own_messages in Hi, Hj.
    rewrite list_lookup_imap in Hi, Hj. destruct (quit_texts n !! i), (quit_texts n !! j); try done.
    cbn in Hi, Hj. injection Hi as <-. injection Hj as E. lia.
Qed.

Lemma all_messages_lookup key cs : all_messages !! key = Some cs <-> (key, cs) ∈ kcs ++ own_messages.
Proof. symmetry. apply elem_of_list_to_map. exact all_messages_keys. Qed.

Lemma all_messages_pieces key cs : all_messages !! key = Some cs -> cs <> [] /\ Forall piece cs.
Proof.
  intros [H|H]%all_messages_lookup%elem_of_app; [by destruct (Hclients _ _ H) as (_ & ? & ? & _)|].
  apply own_messages_elem in H as (i & text & -> & -> & Ht). split; [done|]. constructor; [|constructor].
  destruct (quit_texts_cases _ _ Ht) as [[_ ->]|[_ ->]]; unfold piece, payload_chars, message_size; (split_and!; [done|simpl; lia|]);
    repeat (constructor; [unfold not_null; lia|]); constructor.
Qed.

Lemma own_id_packet i text : quit_texts n !! i = Some text ->
  all_messages !! (own_id i).1 = Some [text] /\
  packet_of all_messages (own_id i) = mk_message self (Z.of_nat i) 0 1 (get_payload text).
Proof.
  intros Ht. assert (all_messages !! (own_id i).1 = Some [text]) as E.
  { apply all_messages_lookup, elem_of_app. right. apply own_messages_elem. by exists i, text. }
  split; [done|]. unfold packet_of. by rewrite E.
Qed.

(** The part of the state that [shutdown] and the handlers change, when [k] of the broker's own
    messages have been pushed and [t] of them taken *)
Record control (t k : nat) (p : command_processor) : Prop := {
  ct_order : (t <= k <= S n)%nat;
  ct_readers : num_read_threads_ p = n;
  ct_mid : mid_ p = wrap32 (Z.of_nat k);
  ct_push : to_push p = if done p then drop k (quit_texts n) else [];
  ct_begun : done p = false -> k = 0%nat;
  ct_uptime : uptime_done_ p = done p && bool_decide (k = S n);
  ct_ended : commands_done_ p = bool_decide (t = S n);
  ct_woken : (Nat.min t n <= readers_woken p)%nat;
  ct_suicide : done p = true <-> Exists is_suicide (done_events p)
}.

(** The queue: the packets taken and those waiting, of the clients' packets [cids] in their order and
    the broker's own *)
Record queue (cids tids qids : list ((Z * Z) * nat)) (t k : nat) (p : command_processor) : Prop := {
  qu_taken : taken p = packet_of all_messages <$> tids;
  qu_waiting : messages_ p = packet_of all_messages <$> qids;
  qu_clients : base.filter (fun id => ~ own id) (tids ++ qids) = cids;
  qu_own_taken : base.filter own tids = own_id <$> seq 0 t;
  qu_own_waiting : base.filter own qids = own_id <$> seq t (k - t);
  qu_distinct : NoDup (tids ++ qids);
  qu_valid : Forall (valid_id all_messages) (tids ++ qids);
  qu_last : t = S n -> last tids = Some (own_id n)
}.

(** What the taken packets have led to *)
Definition reassembled (tids : list ((Z * Z) * nat)) (p : command_processor) : Prop :=
  known all_messages (list_to_set tids) (cmds_ p) /\ done_events p ≡ₚ effects all_messages (list_to_set tids).

Record running (cids tids qids : list ((Z * Z) * nat)) (t k : nat) (p : command_processor) : Prop := {
  rn_control : control t k p;
  rn_queue : queue cids tids qids t k p;
  rn_parts : reassembled tids p
}.

(** The handlers that clients can reach keep the control state. *)
Lemma run_client_handler t k p h path : control t k p -> to_push p = [] -> h <> h_cquit ->
  exists p', (run_handler (Ok tt) h ;;; modify (record_event (Ran h path))) p = (Ok tt, p') /\ control t k p' /\
    cmds_ p' = cmds_ p /\ taken p' = taken p /\ messages_ p' = messages_ p /\ done_events p' = done_events p ++ [Ran h path].
Proof.
  intros [Ho Hr Hm Hp Hb Hu He Hw Hs] Hnil Hh.
  assert (forall e, ~ is_suicide e -> done p = true <-> Exists is_suicide (done_events p ++ [e])) as Hs'.
  { intros e Hne. rewrite Exists_app, Exists_cons, Exists_nil. rewrite Hs. tauto. }
  destruct h; try done; unfold bind, run_handler, shutdown, gets, modify, ret, lift, bind; cbn beta iota.
  1-3: eexists; split; [reflexivity|]; (split; [|done]); constructor; try done; apply Hs'; intros [].
  - destruct (done p) eqn:Ed.
    + eexists; split; [reflexivity|]; (split; [|done]); constructor; cbn; rewrite ?Ed; try done.
      rewrite Exists_app, Exists_cons. cbn. tauto.
    + eexists; split; [reflexivity|]; (split; [|done]). specialize (Hb eq_refl) as ->. constructor; cbn; try done.
      * by rewrite Hr.
      * rewrite Exists_app, Exists_cons. cbn. tauto.
  - destruct (done p) eqn:Ed; eexists; (split; [reflexivity|]); (split; [|done]); constructor; cbn; rewrite ?Ed; try done; try lia;
      apply Hs'; intros [].
Qed.

(** So do those of the broker's own messages, each of which wakes a reader thread or, the last,
    ends the loop. *)
Lemma run_own_handler t k p text : control t k p -> (t < k)%nat -> quit_texts n !! t = Some text ->
  exists h p', lookup_handler text = Some h /\
    (run_handler (Ok tt) h ;;; modify (record_event (Ran h []))) p = (Ok tt, p') /\ control (S t) k p' /\
    cmds_ p' = cmds_ p /\ taken p' = taken p /\ messages_ p' = messages_ p /\ done_events p' = done_events p ++ [Ran h []].
Proof.
  intros [Ho Hr Hm Hp Hb Hu He Hw Hs] Htk Ht.
  assert (done p = true) as Ed by (destruct (done p); [done|]; specialize (Hb eq_refl); lia).
  assert (forall e, ~ is_suicide e -> done p = true <-> Exists is_suicide (done_events p ++ [e])) as Hs'.
  { intros e Hne. rewrite Exists_app, Exists_cons, Exists_nil. rewrite Hs. tauto. }
  destruct (quit_texts_cases _ _ Ht) as [[Hlt ->]|[-> ->]].
  - exists h_quit. unfold bind, run_handler, gets, modify, ret, lift, bind; cbn beta iota. rewrite Ed.
    eexists. split; [reflexivity|]. split; [reflexivity|]. split; [|done]. constructor; cbn -[Nat.min]; rewrite ?Ed; try done; try lia.
    + by rewrite Hp, Ed.
    + by rewrite Hu, Ed.
    + rewrite He, !bool_decide_eq_false_2 by lia. done.
    + rewrite Ed in Hs'. apply Hs'; intros [].
  - exists h_cquit. unfold bind, run_handler, modify; cbn beta iota.
    eexists. split; [reflexivity|]. split; [reflexivity|]. split; [|done]. constructor; cbn -[Nat.min]; try done; try lia.
    + by rewrite bool_decide_eq_true_2.
    + apply Hs'; intros [].
Qed.

Lemma own_text_command i text : quit_texts n !! i = Some text -> split_command text = mk_command text [].
Proof. intros Ht. by destruct (quit_texts_cases _ _ Ht) as [[_ ->]|[_ ->]]. Qed.

(** A reader pushes a client's packet. *)
Lemma push_client cids tids qids t k p id : running cids tids qids t k p -> ~ own id -> valid_id all_messages id ->
  id ∉ cids -> running (cids ++ [id]) tids (qids ++ [id]) t k (push_command (packet_of all_messages id) p).
Proof.
  intros [[Ho Hr Hm Hp Hb Hu He Hw Hs] [Qt Qw Qc Qot Qow Qd Qv Ql] Hre] Hno Hv Hnew. constructor; [by constructor| |done]. constructor; cbn.
  - done.
  - by rewrite Qw, fmap_app.
  - by rewrite app_assoc, filter_app, Qc, filter_cons_True, filter_nil by done.
  - done.
  - rewrite filter_app, Qow, filter_cons_False, filter_nil by tauto. by rewrite app_nil_r.
  - rewrite app_assoc. apply NoDup_app. split_and!; [done| |apply NoDup_singleton].
    intros id' Hin ->%list_elem_of_singleton. apply Hnew. rewrite <- Qc. by apply list_elem_of_filter.
  - rewrite app_assoc. apply Forall_app. split; [done|]. by repeat constructor.
  - done.
Qed.

(** A turn of [shutdown] pushes the next of the broker's own messages. *)
Lemma shutdown_turn_ok cids tids qids t k p text rest : running cids tids qids t k p -> to_push p = text :: rest ->
  exists p', shutdown_turn self (Ok tt) text rest p = (Ok tt, p') /\ running cids tids (qids ++ [own_id k]) t (S k) p' /\
    to_push p' = rest /\ messages_ p' = messages_ p ++ [packet_of all_messages (own_id k)] /\ done p' = true.
Proof.
  intros [[Ho Hr Hm Hp Hb Hu He Hw Hs] [Qt Qw Qc Qot Qow Qd Qv Ql] Hre] Hpush.
  assert (done p = true) as Ed by (destruct (done p); [done|]; by rewrite Hpush in Hp).
  rewrite Hpush, Ed in Hp. symmetry in Hp.
  assert (quit_texts n !! k = Some text) as Ht.
  { rewrite <- (Nat.add_0_r k), <- lookup_drop, Hp. done. }
  pose proof (lookup_lt_Some _ _ _ Ht) as Hk. rewrite length_quit_texts in Hk.
  assert (drop (S k) (quit_texts n) = rest) as Hrest by (rewrite <- (Nat.add_1_r k), <- drop_drop, Hp; done).
  destruct (own_id_packet k text Ht) as [Hmsg Hpk].
  assert (mid_ p = Z.of_nat k) as Hmid by (rewrite Hm; apply wrap_small; lia).
  assert (push self text p = (Ok tt, push_command (packet_of all_messages (own_id k)) (next_mid p))) as Epush.
  { unfold push. rewrite bind_massert_true.
    - rewrite bind_gets, bind_modify, Hmid, Hpk. reflexivity.
    - by destruct (quit_texts_cases _ _ Ht) as [[_ ->]|[_ ->]]. }
  unfold shutdown_turn. rewrite (bind_ok _ _ _ _ _ Epush), bind_modify.
  assert (rest = [] <-> S k = S n) as Hlast.
  { rewrite <- Hrest. split; [|intros [= ->]; apply drop_ge; rewrite length_quit_texts; lia].
    intros E. apply (f_equal length) in E. rewrite length_drop, length_quit_texts in E. simpl in E. lia. }
  set (q := set_to_push rest _).
  assert (forall b, b = bool_decide (S k = S n) -> uptime_done_ p = false ->
    exists p', p' = (if b then set_uptime_done q else q) /\ running cids tids (qids ++ [own_id k]) t (S k) p' /\
      to_push p' = rest /\ messages_ p' = messages_ p ++ [packet_of all_messages (own_id k)] /\ done p' = true) as Hend.
  { intros b Eb Hup. exists (if b then set_uptime_done q else q). split; [done|]. split; [|by destruct b].
    constructor; [| |by destruct b].
    - constructor; try (by destruct b); try lia.
      + destruct b; cbn; rewrite Hmid; unfold wrap32, wrap; f_equal; lia.
      + destruct b; cbn; by rewrite Ed.
      + destruct b; cbn; by rewrite Ed.
      + rewrite <- Eb. destruct b; cbn; by rewrite Ed.
    - constructor; try (by destruct b).
      + destruct b; cbn; by rewrite Qw, fmap_app.
      + rewrite app_assoc, filter_app, Qc, filter_cons_False, filter_nil by (unfold own; cbn; tauto). by rewrite app_nil_r.
      + rewrite filter_app, Qow, filter_cons_True, filter_nil by done. replace (S k - t)%nat with (S (k - t)) by lia.
        rewrite seq_S, fmap_app. cbn. by replace (t + (k - t))%nat with k by lia.
      + rewrite app_assoc. apply NoDup_app. split_and!; [done| |apply NoDup_singleton].
        intros id Hin ->%list_elem_of_singleton.
        assert (own_id k ∈ base.filter own (tids ++ qids)) as Hf by (by apply list_elem_of_filter).
        rewrite filter_app, Qot, Qow, <- fmap_app, <- (Nat.add_0_l t) in Hf at 1.
        apply list_elem_of_fmap in Hf as (j & [= E%Nat2Z.inj] & [Hj|Hj]%elem_of_app); apply elem_of_seq in Hj; lia.
      + rewrite app_assoc. apply Forall_app. split; [done|]. constructor; [|constructor]. exists [text], text. done. }
  assert (uptime_done_ p = false) as Hup by (rewrite Hu, bool_decide_eq_false_2 by lia; apply andb_false_r).
  destruct (Hend _ eq_refl Hup) as (p' & Ep' & H). destruct rest as [|text' rest'].
  - exists p'. split; [|done]. rewrite bool_decide_eq_true_2 in Ep' by (by apply Hlast). by rewrite Ep'.
  - exists p'. split; [|done]. rewrite bool_decide_eq_false_2 in Ep' by (intros E%Hlast; done). by rewrite Ep'.
Qed.

(** The next packet is the head of the queue: a client's, or the next of the broker's own. *)
Lemma queue_take cids tids id qids t k p : queue cids tids (id :: qids) t k p -> t <> S n ->
  exists t', (~ own id /\ t' = t \/ id = own_id t /\ t' = S t /\ (t < k)%nat) /\
    queue cids (tids ++ [id]) qids t' k (take_message (packet_of all_messages id) (packet_of all_messages <$> qids) p) /\
    id ∉ tids /\ valid_id all_messages id.
Proof.
  intros [Qt Qw Qc Qot Qow Qd Qv _] Htn. assert (id ∉ tids) as Hni.
  { apply NoDup_app in Qd as (_ & Hd & _). intros H. by apply (Hd id H); left. }
  assert (valid_id all_messages id) as Hv by (rewrite Forall_forall in Qv; apply Qv, elem_of_app; right; left).
  destruct (decide (own id)) as [Hown|Hown].
  - rewrite filter_cons_True in Qow by done. destruct (k - t)%nat as [|m] eqn:Em; [done|]. cbn in Qow. injection Qow as -> Qow.
    exists (S t). split; [right; split_and!; [done|done|lia]|]. split; [|done]. constructor; try done.
    + cbn. by rewrite fmap_app, <- Qt.
    + by rewrite <- app_assoc.
    + rewrite filter_app, Qot, filter_cons_True, filter_nil by done. by rewrite seq_S, fmap_app.
    + rewrite Qow. by replace (k - S t)%nat with m by lia.
    + by rewrite <- app_assoc.
    + by rewrite <- app_assoc.
    + intros [= ->]. by rewrite last_snoc.
  - rewrite filter_cons_False in Qow by done. exists t. split; [by left|]. split; [|done]. constructor; try done.
    + cbn. by rewrite fmap_app, <- Qt.
    + by rewrite <- app_assoc.
    + by rewrite filter_app, Qot, filter_cons_False, filter_nil, app_nil_r by done.
    + by rewrite <- app_assoc.
    + by rewrite <- app_assoc.
Qed.

Lemma queue_frame cids tids qids t k p p' : queue cids tids qids t k p -> taken p' = taken p -> messages_ p' = messages_ p ->
  queue cids tids qids t k p'.
Proof. intros [] Ht Hm. constructor; [by rewrite Ht|by rewrite Hm|done..]. Qed.

Lemma list_to_set_snoc (tids : list ((Z * Z) * nat)) id :
  list_to_set (tids ++ [id]) = {[id]} ∪ (list_to_set tids : gset ((Z * Z) * nat)).
Proof. rewrite list_to_set_app_L. cbn. set_solver. Qed.

(** A turn of the loop takes a packet and does what it asks for. *)
Lemma take_turn_ok now cids tids id qids t k p : running cids tids (id :: qids) t k p -> to_push p = [] ->
  commands_done_ p = false ->
  exists t' p', process_command now (Ok tt) (packet_of all_messages id)
      (take_message (packet_of all_messages id) (packet_of all_messages <$> qids) p) = (Ok tt, p') /\
    running cids (tids ++ [id]) qids t' k p'.
Proof.
  intros [Hc Hq [Hk He]] Hnil Hnd'. assert (t <> S n) as Htn by (rewrite (ct_ended _ _ _ Hc) in Hnd'; by apply bool_decide_eq_false in Hnd').
  destruct (queue_take _ _ _ _ _ _ _ Hq Htn) as (t' & Ht' & Hq' & Hni & (cs & c & Hcs & Hci)).
  set (p1 := take_message _ _ p) in *. destruct id as [key i]. cbn [fst snd] in Hcs, Hci.
  destruct (process_packet all_messages all_messages_pieces now p1 (list_to_set tids) key cs i c)
    as (cmds' & Hk' & Hrun); [done|done|done|done|by rewrite elem_of_list_to_set|].
  rewrite <- list_to_set_snoc in Hk', Hrun. unfold packet_of. cbn [fst snd]. rewrite Hcs. cbn [from_option id].
  assert (forall t, control t k p -> control t k (set_cmds cmds' p1)) as Hctl by (intros ? []; by constructor).
  assert (queue cids (tids ++ [(key, i)]) qids t' k (set_cmds cmds' p1)) as Hq1 by (by apply (queue_frame _ _ _ _ _ p1)).
  destruct Ht' as [[Hno ->]|(Eid & -> & Htk)].
  - exists t. assert ((key, cs) ∈ kcs) as Hin.
    { apply all_messages_lookup, elem_of_app in Hcs as [|Hcs]; [done|]. apply own_messages_elem in Hcs as (? & ? & -> & _).
      by destruct Hno. }
    destruct (Hclients _ _ Hin) as (_ & _ & _ & Hnq). case_decide as Hdone; destruct Hrun as [Hev Hrun]; rewrite Hrun.
    + destruct (lookup_handler _) as [h|] eqn:Eh.
      * destruct (run_client_handler t k (set_cmds cmds' p1) h (path (split_command (mjoin cs)))) as (p' & E & Hc' & Ec & Et & Em & Ed);
          [by apply Hctl|done|congruence|].
        unfold effect in *. rewrite Eh in *. exists p'. split; [done|]. constructor; [done|by apply (queue_frame _ _ _ _ _ (set_cmds cmds' p1))|].
        split; [by rewrite Ec|by rewrite Ed].
      * eexists. split; [reflexivity|]. constructor; [|by apply (queue_frame _ _ _ _ _ (set_cmds cmds' p1))|done].
        destruct (Hctl t Hc) as [? ? ? ? ? ? ? ? Hs]. constructor; try done. rewrite Hs. cbn. rewrite Exists_app, Exists_cons, Exists_nil.
        unfold effect. rewrite Eh. cbn. tauto.
    + eexists. split; [reflexivity|]. by constructor; [apply Hctl| |].
  - exists (S t). injection Eid as -> ->. destruct (lookup_lt_is_Some_2 (quit_texts n) t) as [text Htext].
    { rewrite length_quit_texts. destruct Hc as [[_ Hle] _ _ _ _ _ _ _ _]. lia. }
    destruct (own_id_packet t text Htext) as [E _]. cbn [own_id fst] in E. rewrite Hcs in E. injection E as ->.
    rewrite decide_True in Hrun; [|constructor; [|constructor]; rewrite list_to_set_snoc; set_solver].
    destruct Hrun as [Hev Hrun]. rewrite Hrun. change (mjoin [text]) with (text ++ []) in *. rewrite app_nil_r in *.
    rewrite (own_text_command _ _ Htext) in *. cbn [verb] in *.
    destruct (run_own_handler t k (set_cmds cmds' p1) text) as (h & p' & Eh & E & Hc' & Ec & Et & Em & Ed); [by apply Hctl|done|done|].
    unfold effect in *. cbn [verb path] in *. rewrite Eh in *. exists p'. split; [done|].
    constructor; [done|by apply (queue_frame _ _ _ _ _ (set_cmds cmds' p1))|]. split; [by rewrite Ec|by rewrite Ed].
Qed.

(** What is left to do for the thread, when nobody pushes anything more *)
Definition work (p : command_processor) : nat :=
  length (messages_ p) + 2 * length (to_push p) + (if done p then 0 else 2 * S n).

(** The loop has ended, or waits for a message *)
Definition idle (p : command_processor) : Prop := commands_done_ p = true \/ messages_ p = [] /\ to_push p = [].

Lemma work_length p k t : control t k p -> length (to_push p) = if done p then (S n - k)%nat else 0%nat.
Proof. intros [_ _ _ -> _ _ _ _ _]. destruct (done p); [|done]. by rewrite length_drop, length_quit_texts. Qed.

Lemma turn_ok now cids tids qids t k p : running cids tids qids t k p ->
  exists tids' qids' t' k' p', thread_turn self now (Ok tt) p = (Ok tt, p') /\ running cids tids' qids' t' k' p' /\
    (idle p /\ p' = p \/ (work p' < work p)%nat).
Proof.
  intros Hr. unfold thread_turn. rewrite bind_get. destruct (to_push p) as [|text rest] eqn:Ep.
  - destruct (commands_done_ p) eqn:Ed.
    { exists tids, qids, t, k, p. split; [done|]. split; [done|]. left. split; [by left|done]. }
    destruct (messages_ p) as [|m ms] eqn:Em.
    { exists tids, qids, t, k, p. split; [done|]. split; [done|]. left. split; [by right|done]. }
    destruct Hr as [Hc Hq Hre]. pose proof (qu_waiting _ _ _ _ _ _ Hq) as Hw. rewrite Em in Hw.
    destruct qids as [|id qids]; [done|]. injection Hw as -> ->.
    destruct (take_turn_ok now cids tids id qids t k p) as (t' & p' & E & Hr'); [done|done|done|].
    exists (tids ++ [id]), qids, t', k, p'. rewrite bind_modify. split; [done|]. split; [done|]. right.
    unfold work. destruct Hr' as [Hc' Hq' _]. rewrite (qu_waiting _ _ _ _ _ _ Hq'), Em. cbn [length]. rewrite !length_fmap.
    pose proof (work_length p k t Hc) as Hl. rewrite Ep in Hl |- *. rewrite (work_length p' k t') by done. cbn [length] in Hl |- *.
    pose proof (ct_order _ _ _ Hc). pose proof (ct_begun _ _ _ Hc) as Hb. pose proof (ct_begun _ _ _ Hc') as Hb'.
    destruct (done p) eqn:Edp, (done p') eqn:Edp'; try lia.
  - destruct (shutdown_turn_ok cids tids qids t k p text rest Hr Ep) as (p' & E & Hr' & Hrest & Hm & Hd).
    exists tids, (qids ++ [own_id k]), t, (S k), p'. split; [done|]. split; [done|]. right.
    unfold work. rewrite Hm, Hrest, Ep, Hd, length_app. cbn [length]. destruct (done p); lia.
Qed.

Lemma initial_running : running [] [] [] 0 0 (initial_processor n).
Proof.
  constructor.
  - constructor; try done; [lia..|]. cbn. by rewrite Exists_nil.
  - constructor; try done. constructor.
  - split.
    + intros key. destruct (all_messages !! key) as [cs|] eqn:Hcs; [|done]. rewrite decide_False.
      * right. split; [done|]. apply list_eq. intros i. unfold slots. rewrite list_lookup_imap.
        destruct (cs !! i) eqn:Ei; cbn; [|symmetry; apply lookup_replicate_None; by apply lookup_ge_None in Ei].
        rewrite decide_False by set_solver. symmetry. apply lookup_replicate. split; [done|by eapply lookup_lt_Some].
      * intros Hc. destruct (all_messages_pieces key cs Hcs) as [Hne _]. destruct cs as [|c cs]; [done|].
        apply (complete_lookup ∅ key _ 0) in Hc; [set_solver|simpl; lia].
    + unfold effects. replace (finished all_messages (list_to_set [])) with (∅ : gmap (Z * Z) (list (list Z))); [by rewrite map_to_list_empty|].
      symmetry. apply map_eq. intros key. rewrite lookup_empty. destruct (finished _ _ !! key) as [cs|] eqn:Ef; [|done].
      apply finished_lookup in Ef as [Hcs Hc]. destruct (all_messages_pieces key cs Hcs) as [Hne _]. destruct cs as [|c cs]; [done|].
      apply (complete_lookup ∅ key _ 0) in Hc; [set_solver|simpl; lia].
Qed.

(** Every interleaving of pushes and turns *)
Lemma run_ok acts : Forall calm acts -> forall cids, pushes acts = packet_of all_messages <$> cids -> NoDup cids ->
  Forall (fun id => ~ own id /\ valid_id all_messages id) cids ->
  exists tids qids t k p, run self acts (None, initial_processor n) = (None, p) /\ running cids tids qids t k p.
Proof.
  induction acts as [|a acts IH] using rev_ind; intros Hcalm cids Hp Hd Hv.
  { destruct cids; [|done]. exists [], [], 0%nat, 0%nat, (initial_processor n). split; [done|]. exact initial_running. }
  apply Forall_app in Hcalm as [Hcalm Ha]. apply Forall_cons in Ha as [Ha _]. unfold pushes in Hp. rewrite omap_app in Hp.
  unfold run. setoid_rewrite foldl_app. destruct a as [m|now o|]; [| |done].
  - cbn in Hp. destruct cids as [|id cids _] using rev_ind; [by destruct (omap _ acts)|].
    rewrite fmap_app in Hp. apply app_inj_tail in Hp as [Hp ->]. apply NoDup_app in Hd as (Hd & Hnew & _).
    apply Forall_app in Hv as [Hv Hid]. apply Forall_cons in Hid as [[Hno Hid] _].
    destruct (IH Hcalm cids Hp Hd Hv) as (tids & qids & t & k & p & E & Hr). unfold run in E. rewrite E. cbn.
    do 5 eexists. split; [reflexivity|]. apply (push_client cids tids qids); try done. intros Hin. by apply (Hnew id Hin); left.
  - cbn in Hp. rewrite app_nil_r in Hp. cbn in Ha. subst o.
    destruct (IH Hcalm cids Hp Hd Hv) as (tids & qids & t & k & p & E & Hr). unfold run in E. rewrite E.
    cbn [foldl broker_step fst snd].
    destruct (turn_ok now cids tids qids t k p Hr) as (tids' & qids' & t' & k' & p' & E' & Hr' & _). rewrite E'. eauto 10.
Qed.

(** The thread comes to wait, or ends, when nobody pushes any more. *)
Lemma run_idle now cids tids qids t k p : running cids tids qids t k p ->
  exists m q, run self (replicate m (Turn now (Ok tt))) (None, p) = (None, q) /\ idle q.
Proof.
  remember (work p) as w eqn:Hw. revert tids qids t k p Hw. induction w as [w IH] using lt_wf_ind. intros tids qids t k p -> Hr.
  destruct (turn_ok now cids tids qids t k p Hr) as (tids' & qids' & t' & k' & p' & E' & Hr' & [[Hi _]|Hlt]).
  - by exists 0%nat, p.
  - destruct (IH _ Hlt _ _ _ _ _ eq_refl Hr') as (m & q & E & Hi). exists (S m), q. split; [|done]. unfold run in *.
    cbn [replicate foldl broker_step fst snd]. by rewrite E'.
Qed.

(** A packet was taken exactly if its number was. *)
Lemma packet_taken cids tids qids t k p key cs i : queue cids tids qids t k p -> all_messages !! key = Some cs ->
  packet key cs i ∈ taken p <-> (key, i) ∈ tids.
Proof.
  intros Hq Hcs. rewrite (qu_taken _ _ _ _ _ _ Hq). split.
  - intros ([[s m] j] & E & Hin)%list_elem_of_fmap. unfold packet_of, packet in E. cbn in E. injection E as E1 E2 E3 _ _.
    destruct key. cbn in *. apply Nat2Z.inj in E3. by subst.
  - intros Hin. apply list_elem_of_fmap. exists (key, i). split; [|done]. unfold packet_of. cbn. by rewrite Hcs.
Qed.

Lemma complete_taken cids tids qids t k p key cs : queue cids tids qids t k p -> all_messages !! key = Some cs ->
  complete (list_to_set tids) key cs <-> Forall (fun m => m ∈ taken p) (packet key cs <$> seq 0 (length cs)).
Proof.
  intros Hq Hcs. unfold complete. rewrite Forall_fmap. apply Forall_iff. intros i. unfold compose.
  rewrite (packet_taken _ _ _ _ _ _ _ _ _ Hq Hcs). by rewrite elem_of_list_to_set.
Qed.

(** The commands that were executed, as lists *)
Lemma finished_list D : map_to_list (finished all_messages D) ≡ₚ
  base.filter (fun kc => complete D kc.1 kc.2) kcs ++ base.filter (fun kc => complete D kc.1 kc.2) own_messages.
Proof.
  rewrite <- filter_app. apply NoDup_Permutation.
  - apply NoDup_map_to_list.
  - apply NoDup_filter, (NoDup_fmap_1 fst), all_messages_keys.
  - intros [key cs]. rewrite elem_of_map_to_list, finished_lookup, all_messages_lookup, list_elem_of_filter. tauto.
Qed.

Lemma own_finished cids tids qids t k p : running cids tids qids t k p ->
  (fun kc => effect (split_command (mjoin kc.2))) <$> base.filter (fun kc => complete (list_to_set tids) kc.1 kc.2) own_messages =
  (fun m => effect (split_command (extract_payload m))) <$> base.filter (fun m => sender_id m = self) (taken p).
Proof.
  intros [Hc Hq _]. pose proof (ct_order _ _ _ Hc) as Ho.
  assert (forall i text, quit_texts n !! i = Some text ->
    complete (list_to_set tids) (self, Z.of_nat i) [text] <-> (i < t)%nat) as Hcomp.
  { intros i text Ht. unfold complete. cbn. rewrite Forall_cons, Forall_nil, elem_of_list_to_set.
    change ((self, Z.of_nat i), 0%nat) with (own_id i). split.
    - intros [Hin _]. assert (own_id i ∈ base.filter own tids) as Hf by (by apply list_elem_of_filter).
      rewrite (qu_own_taken _ _ _ _ _ _ Hq) in Hf. apply list_elem_of_fmap in Hf as (j & [= E%Nat2Z.inj] & Hj).
      apply elem_of_seq in Hj. lia.
    - intros Hlt. split; [|done]. assert (own_id i ∈ base.filter own tids) as Hf; [|by apply list_elem_of_filter in Hf as [_ ?]].
      rewrite (qu_own_taken _ _ _ _ _ _ Hq). apply list_elem_of_fmap_2, elem_of_seq. lia. }
  assert (forall i kc, own_messages !! i = Some kc -> complete (list_to_set tids) kc.1 kc.2 <-> (i < t)%nat) as Hcm.
  { intros i kc Hi. unfold own_messages in Hi. rewrite list_lookup_imap in Hi.
    destruct (quit_texts n !! i) as [text|] eqn:Et; [|done]. cbn in Hi. injection Hi as <-. by apply Hcomp. }
  assert (base.filter (fun kc => complete (list_to_set tids) kc.1 kc.2) own_messages = take t own_messages) as ->.
  { rewrite <- (take_drop t own_messages) at 1. rewrite filter_app, list_filter_all, list_filter_none; [by rewrite app_nil_r| |].
    - apply Forall_lookup. intros i kc Hi. rewrite lookup_drop in Hi. rewrite (Hcm _ _ Hi). lia.
    - apply Forall_lookup. intros i kc Hi. apply lookup_take_Some in Hi as [Hi Hlt]. by apply (Hcm _ _ Hi). }
  rewrite (qu_taken _ _ _ _ _ _ Hq), list_filter_fmap.
  change (base.filter (fun id => sender_id (packet_of all_messages id) = self) tids) with (base.filter own tids).
  rewrite (qu_own_taken _ _ _ _ _ _ Hq). rewrite <- !list_fmap_compose. apply list_eq. intros i. rewrite !list_lookup_fmap.
  destruct (decide (i < t)%nat) as [Hi|Hi].
  - rewrite lookup_take_lt, lookup_seq_lt by lia. destruct (lookup_lt_is_Some_2 (quit_texts n) i) as [text Ht];
      [rewrite length_quit_texts; lia|].
    unfold own_messages. rewrite list_lookup_imap, Ht. cbn [fmap option_fmap option_map snd Nat.add compose].
    destruct (own_id_packet i text Ht) as [Hmsg _]. unfold packet_of. rewrite Hmsg. cbn [from_option id own_id fst snd].
    rewrite (extract_payload_ok _ [text] 0 text) by (done || by destruct (all_messages_pieces _ _ Hmsg) as [_ [? _]%Forall_cons]).
    change (mjoin [text]) with (text ++ []). by rewrite app_nil_r.
  - rewrite lookup_seq_ge, lookup_take_ge by lia. done.
Qed.

(** The order of the queue, of the clients' packets and of the broker's own *)
Lemma clients_in_order cids tids qids t k p : queue cids tids qids t k p ->
  base.filter (fun m => sender_id m <> self) (taken p ++ messages_ p) = packet_of all_messages <$> cids.
Proof. intros [-> -> <- _ _ _ _ _]. rewrite <- fmap_app, list_filter_fmap. done. Qed.

Lemma own_in_order cids tids qids t k p : control t k p -> queue cids tids qids t k p ->
  base.filter (fun m => sender_id m = self) (taken p ++ messages_ p) = take k (quit_packets self n).
Proof.
  intros Hc [-> -> _ Hot How _ _ _]. pose proof (ct_order _ _ _ Hc) as Ho. rewrite <- fmap_app, list_filter_fmap.
  change (base.filter (fun id => sender_id (packet_of all_messages id) = self) (tids ++ qids)) with (base.filter own (tids ++ qids)).
  rewrite filter_app, Hot, How, <- fmap_app. replace (seq t (k - t)) with (seq (0 + t) (k - t)) by done. rewrite <- seq_app.
  replace (t + (k - t))%nat with k by lia. apply list_eq. intros i. rewrite !list_lookup_fmap. destruct (decide (i < k)%nat) as [Hi|Hi].
  - rewrite lookup_seq_lt, lookup_take_lt by lia. unfold quit_packets. rewrite list_lookup_imap.
    destruct (lookup_lt_is_Some_2 (quit_texts n) i) as [text Ht]; [rewrite length_quit_texts; lia|]. rewrite Ht. cbn [fmap option_fmap option_map Nat.add].
    f_equal. by apply own_id_packet.
  - by rewrite lookup_seq_ge, lookup_take_ge by lia.
Qed.

(** The loop ends with the last of the broker's own messages. *)
Lemma ended_by_own cids tids qids t k p : running cids tids qids t k p -> commands_done_ p = true ->
  (exists before, taken p = before ++ [mk_message self (Z.of_nat n) 0 1 (get_payload command_loop_quit_command)]) /\
  (n <= readers_woken p)%nat /\ uptime_done_ p = true /\ done p = true.
Proof.
  intros [Hc Hq _] He. rewrite (ct_ended _ _ _ Hc) in He. apply bool_decide_eq_true in He. split_and!.
  - pose proof (qu_last _ _ _ _ _ _ Hq He) as Hl. apply last_Some in Hl as (before & Eb).
    exists (packet_of all_messages <$> before). rewrite (qu_taken _ _ _ _ _ _ Hq), Eb, fmap_app. cbn [fmap list_fmap]. do 2 f_equal.
    apply own_id_packet. unfold quit_texts. rewrite lookup_app_r; rewrite length_replicate; [|lia]. by rewrite Nat.sub_diag.
  - pose proof (ct_woken _ _ _ Hc). lia.
  - rewrite (ct_uptime _ _ _ Hc). pose proof (ct_order _ _ _ Hc). rewrite bool_decide_eq_true_2 by lia.
    destruct (done p) eqn:Ed; [done|]. pose proof (ct_begun _ _ _ Hc Ed). lia.
  - destruct (done p) eqn:Ed; [done|]. pose proof (ct_begun _ _ _ Hc Ed). pose proof (ct_order _ _ _ Hc). lia.
Qed.

(** What the thread has done when it waits or has ended *)
Lemma idle_cases cids tids qids t k p : running cids tids qids t k p -> idle p ->
  if done p then commands_done_ p = true else k = 0%nat /\ qids = [].
Proof.
  intros [Hc Hq _] Hi. pose proof (ct_order _ _ _ Hc) as Ho. destruct (done p) eqn:Ed.
  - destruct Hi as [|[Hm Hp]]; [done|]. pose proof (work_length p k t Hc) as Hl. rewrite Hp, Ed in Hl. cbn in Hl.
    pose proof (qu_waiting _ _ _ _ _ _ Hq) as Hw. rewrite Hm in Hw. symmetry in Hw. apply fmap_nil_inv in Hw as ->.
    pose proof (qu_own_waiting _ _ _ _ _ _ Hq) as Hown. rewrite filter_nil in Hown. symmetry in Hown.
    apply fmap_nil_inv, (f_equal length) in Hown. rewrite length_seq in Hown. cbn in Hown.
    rewrite (ct_ended _ _ _ Hc). apply bool_decide_eq_true. lia.
  - pose proof (ct_begun _ _ _ Hc Ed) as ->. split; [done|]. destruct Hi as [He|[Hm _]].
    + rewrite (ct_ended _ _ _ Hc) in He. apply bool_decide_eq_true in He. lia.
    + pose proof (qu_waiting _ _ _ _ _ _ Hq) as Hw. rewrite Hm in Hw. symmetry in Hw. by apply fmap_nil_inv in Hw.
Qed.

(** With every packet of the clients taken and none of the broker's own pushed, nothing is partial. *)
Lemma nothing_partial cids tids p : running cids tids [] 0 0 p -> (forall key cs i, (key, cs) ∈ kcs -> (i < length cs)%nat -> (key, i) ∈ cids) ->
  cmds_ p = ∅.
Proof.
  intros [Hc Hq [Hk _]] Hall. apply map_eq. intros key. rewrite lookup_empty. specialize (Hk key).
  assert (base.filter own tids = []) as Hown by apply (qu_own_taken _ _ _ _ _ _ Hq).
  assert (base.filter (fun id => ~ own id) tids = cids) as Hcl by (rewrite <- (qu_clients _ _ _ _ _ _ Hq); by rewrite app_nil_r).
  destruct (all_messages !! key) as [cs|] eqn:Hcs; [|done]. apply all_messages_lookup, elem_of_app in Hcs as [Hin|Hin].
  - rewrite decide_True in Hk; [done|]. apply Forall_forall. intros i [_ Hi]%elem_of_seq. apply elem_of_list_to_set.
    specialize (Hall key cs i Hin Hi). rewrite <- Hcl in Hall. by apply list_elem_of_filter in Hall as [_ ?].
  - apply own_messages_elem in Hin as (i & text & -> & -> & Ht).
    assert (own_id i ∉ tids) as Hni.
    { intros Hin. assert (own_id i ∈ base.filter own tids) as Hf by (by apply list_elem_of_filter). rewrite Hown in Hf. by apply elem_of_nil in Hf. }
    rewrite decide_False in Hk; [|intros [Hd _]%Forall_cons; by apply elem_of_list_to_set in Hd].
    destruct Hk as [[_ Hne]|[Hk _]]; [|done]. destruct Hne. unfold slots. cbn. rewrite decide_False; [done|].
    intros Hd. by apply elem_of_list_to_set in Hd.
Qed.

(** The packets of the clients *)
Lemma client_packets : (kcs ≫= fun kc => packet kc.1 kc.2 <$> seq 0 (length kc.2)) = packet_of all_messages <$> packet_ids kcs.
Proof.
  unfold packet_ids. rewrite fmap_list_bind. apply Forall_bind_ext. rewrite Forall_forall. intros [key cs] Hin. cbn.
  rewrite <- list_fmap_compose. apply list_fmap_ext. intros _ i _. unfold packet_of. cbn.
  by rewrite (proj2 (all_messages_lookup key cs)) by (by apply elem_of_app; left).
Qed.

(** Every run in which only packets of the clients are pushed *)
Lemma run_clients acts : Forall calm acts -> pushes acts ⊆+ (kcs ≫= fun kc => packet kc.1 kc.2 <$> seq 0 (length kc.2)) ->
  exists cids tids qids t k p, run self acts (None, initial_processor n) = (None, p) /\ running cids tids qids t k p /\
    pushes acts = packet_of all_messages <$> cids /\
    (length (pushes acts) = length (kcs ≫= fun kc => packet kc.1 kc.2 <$> seq 0 (length kc.2)) -> packet_ids kcs ≡ₚ cids).
Proof.
  intros Hcalm Hpush. rewrite client_packets in Hpush |- *. apply submseteq_Permutation in Hpush as (restp & Hpush). symmetry in Hpush.
  destruct (Permutation_map_inv (packet_of all_messages) _ Hpush) as (allids & Eids & Hids). symmetry in Eids.
  apply fmap_app_inv in Eids as (cids & rids & Ec & Er & ->).
  assert (NoDup (cids ++ rids)) as Hdi by (rewrite <- Hids; by apply packet_ids_NoDup).
  destruct (run_ok acts Hcalm cids) as (tids & qids & t & k & p & E & Hr); [done|by apply NoDup_app in Hdi as [? _]| |].
  - rewrite Forall_forall. intros [key i] Hi. assert ((key, i) ∈ packet_ids kcs) as Hin by (rewrite Hids; by apply elem_of_app; left).
    apply packet_ids_spec in Hin as (cs & Hcs & Hlt). split.
    + unfold own. cbn. by destruct (Hclients _ _ Hcs) as [? _].
    + destruct (lookup_lt_is_Some_2 cs i Hlt) as [c Hc]. exists cs, c. split; [|done]. by apply all_messages_lookup, elem_of_app; left.
  - exists cids, tids, qids, t, k, p. do 3 (split; [done|]). rewrite Ec, !length_fmap, Hids, length_app. intros Hl.
    destruct rids; [by rewrite app_nil_r|]. cbn in Hl. lia.
Qed.

(** The clients' commands that were executed, those all of whose packets were taken *)
Lemma running_executed cids tids qids t k p : running cids tids qids t k p ->
  done_events p ≡ₚ
    ((fun kc => effect (split_command (mjoin kc.2))) <$>
       base.filter (fun kc => Forall (fun m => m ∈ taken p) (packet kc.1 kc.2 <$> seq 0 (length kc.2))) kcs) ++
    ((fun m => effect (split_command (extract_payload m))) <$> base.filter (fun m => sender_id m = self) (taken p)).
Proof.
  intros Hr. destruct (Hr) as [_ Hq [_ Hev]]. rewrite Hev. unfold effects. rewrite finished_list, fmap_app.
  rewrite (own_finished _ _ _ _ _ _ Hr). apply Permutation_app_tail, reflexive_eq. f_equal.
  apply list_filter_ext, Forall_forall. intros [key cs] Hin. cbn. by apply (complete_taken _ _ _ _ _ _ _ _ Hq), all_messages_lookup, elem_of_app; left.
Qed.

End runs.

(** ** Claims *)

(** What the broker [self] with [n] reader threads has done, when the clients' commands [ss] were cut
    into [packets] and the threads have performed [acts] *)
Record served (self : Z) (n : nat) (ss : list sending) (packets : list (list message_type)) (acts : list action)
    (p : command_processor) : Prop := {
  (* the clients' packets were queued and taken in the order in which they were pushed *)
  sv_order : base.filter (fun m => sender_id m <> self) (taken p ++ messages_ p) = pushes acts;
  (* every command all of whose packets were taken was executed once, with its verb and path, and
     nothing else was but the broker's own messages *)
  sv_executed : done_events p ≡ₚ
    ((fun sm => effect (mk_command (send_verb sm.1) (send_path sm.1))) <$>
       base.filter (fun sm => Forall (fun m => m ∈ taken p) sm.2) (zip ss packets)) ++
    ((fun m => effect (split_command (extract_payload m))) <$> base.filter (fun m => sender_id m = self) (taken p));
  (* SUICIDE, and nothing else, begins the shutdown, which pushes one _QUIT for each reader thread and
     one _CQUIT *)
  sv_begun : done p = true <-> Exists is_suicide (done_events p);
  sv_own : exists k, base.filter (fun m => sender_id m = self) (taken p ++ messages_ p) = take k (quit_packets self n) /\
    to_push p = (if done p then drop k (quit_texts n) else []) /\ (done p = false -> k = 0%nat);
  (* the loop ends with that _CQUIT, when every reader thread has been woken *)
  sv_ended : commands_done_ p = true ->
    (exists before, taken p = before ++ [mk_message self (Z.of_nat n) 0 1 (get_payload command_loop_quit_command)]) /\
    (n <= readers_woken p)%nat /\ uptime_done_ p = true /\ done p = true;
  (* a thread with nothing left to do has ended after a SUICIDE; without one it waits, and has executed
     all commands when all packets were pushed *)
  sv_idle : idle p -> if done p then commands_done_ p = true
    else messages_ p = [] /\
      (pushes acts ≡ₚ mjoin packets ->
       cmds_ p = ∅ /\ done_events p ≡ₚ (fun s => effect (mk_command (send_verb s) (send_path s))) <$> ss)
}.

Lemma running_served self n kcs acts ss packets cids tids qids t k p : NoDup kcs.*1 ->
  (forall key cs, (key, cs) ∈ kcs -> key.1 <> self /\ cs <> [] /\ Forall piece cs /\
    lookup_handler (verb (split_command (mjoin cs))) <> Some h_cquit) ->
  running self n kcs cids tids qids t k p -> pushes acts = packet_of (all_messages self n kcs) <$> cids ->
  (length (pushes acts) = length (mjoin packets) -> packet_ids kcs ≡ₚ cids) -> length ss = length packets ->
  done_events p ≡ₚ
    ((fun sm => effect (mk_command (send_verb sm.1) (send_path sm.1))) <$>
       base.filter (fun sm => Forall (fun m => m ∈ taken p) sm.2) (zip ss packets)) ++
    ((fun m => effect (split_command (extract_payload m))) <$> base.filter (fun m => sender_id m = self) (taken p)) ->
  served self n ss packets acts p.
Proof.
  intros Hkeys Hclients Hr Ec Hcids Hlen Hev. destruct (Hr) as [Hc Hq Hre].
  pose proof (clients_in_order self n kcs _ _ _ _ _ _ Hq) as Hord. pose proof (own_in_order self n kcs Hkeys Hclients _ _ _ _ _ _ Hc Hq) as Hown.
  constructor.
  - by rewrite Hord, <- Ec.
  - done.
  - apply Hc.
  - exists k. split; [done|]. split; apply Hc.
  - by apply (ended_by_own self n kcs Hkeys Hclients cids tids qids t k p).
  - intros Hi. pose proof (idle_cases self n kcs _ _ _ _ _ _ Hr Hi) as Hcase. destruct (done p) eqn:Ed; [done|].
    destruct Hcase as [-> ->]. pose proof (ct_order _ _ _ _ Hc) as Ho. assert (t = 0%nat) as -> by lia.
    assert (messages_ p = []) as Hm by apply (qu_waiting _ _ _ _ _ _ _ _ _ Hq). split; [done|]. intros Hall. split.
    + apply (nothing_partial self n kcs Hkeys Hclients cids tids p Hr). intros key cs i Hkc Hi'. rewrite <- Hcids by (by rewrite Hall).
      apply packet_ids_spec. eauto.
    + rewrite filter_app in Hown. apply app_eq_nil in Hown as [Hown _]. rewrite Hev, Hown. cbn. rewrite app_nil_r, list_filter_all.
      * rewrite <- (fst_zip ss packets) at 2 by lia. by rewrite <- list_fmap_compose.
      * rewrite Forall_forall. intros [s ms] Hsm. cbn. rewrite Forall_forall. intros m Hms.
        assert (m ∈ mjoin packets) as Hmj by (apply list_elem_of_join; exists ms; split; [done|by apply elem_of_zip_r in Hsm]).
        rewrite <- Hall, Ec, <- Hord, Hm, app_nil_r in Hmj. by apply list_elem_of_filter in Hmj as [_ ?].
Qed.

(** The pieces into which the commands are cut *)
Lemma send_all ss : Forall sendable ss -> exists css, Forall2 (fun s cs =>
    send_message (from_process s) (with_id s) (send_verb s) (Some (send_path s)) =
      Ok (packet (send_key s) cs <$> seq 0 (length cs), wrap32 (with_id s + 1)) /\
    mjoin cs = command_text (send_verb s) (send_path s) /\ Forall piece cs /\ cs <> []) ss css.
Proof.
  induction 1 as [|s ss Hs Hss (css & IH)]; [by exists []|]. destruct (sendable_text s Hs) as (? & ? & _).
  destruct (send_message_ok (from_process s) (with_id s) (send_verb s) (send_path s)) as (cs & ?); [done|done|apply Hs|].
  exists (cs :: css). by constructor.
Qed.

(** The same commands, as the broker executes them and as they were sent *)
Lemma executed_sent (taken : list message_type) ss css :
  Forall2 (fun s cs => split_command (mjoin cs) = mk_command (send_verb s) (send_path s)) ss css ->
  (fun kc => effect (split_command (mjoin kc.2))) <$>
    base.filter (fun kc => Forall (fun m => m ∈ taken) (packet kc.1 kc.2 <$> seq 0 (length kc.2))) (zip (send_key <$> ss) css) =
  (fun sm => effect (mk_command (send_verb sm.1) (send_path sm.1))) <$>
    base.filter (fun sm => Forall (fun m => m ∈ taken) sm.2)
      (zip ss ((fun kc => packet kc.1 kc.2 <$> seq 0 (length kc.2)) <$> zip (send_key <$> ss) css)).
Proof.
  induction 1 as [|s cs ss css Hsp _ IH]; [done|]. cbn [fmap list_fmap zip zip_with fst snd]. rewrite !filter_cons. cbn [fst snd].
  case_decide; [|done]. cbn [fmap list_fmap fst snd]. by rewrite Hsp; f_equal.
Qed.

(** What the broker knows of the commands *)
Lemma sent_clients self ss css : Forall sendable ss -> Forall (fun s => from_process s <> self) ss ->
  Forall2 (fun s cs => split_command (mjoin cs) = mk_command (send_verb s) (send_path s) /\ Forall piece cs /\ cs <> []) ss css ->
  forall key cs, (key, cs) ∈ zip (send_key <$> ss) css -> key.1 <> self /\ cs <> [] /\ Forall piece cs /\
    lookup_handler (verb (split_command (mjoin cs))) <> Some h_cquit.
Proof.
  intros Hs Hself HF. induction HF as [|s cs' ss css (Hsp & Hp & Hne) _ IH]; intros key cs Hin; [by apply elem_of_nil in Hin|].
  apply Forall_cons in Hs as [Hs Hss], Hself as [Hf Hself].
  apply elem_of_cons in Hin as [[= -> ->]|Hin]; [|by apply IH]. rewrite Hsp. split_and!; [done..|apply Hs].
Qed.

(** C29: the broker executes what clients send. [send_message] succeeds on every verb that is a word
    and every path of null-terminated characters, if the number of parts fits its 16 bits, and cuts
    them into packets. The reader threads push packets of any set of these commands, in any order,
    and the command thread takes turns between them. The verb _CQUIT is the broker's own and is not
    sent by clients; SUICIDE and _QUIT may be. No exception comes from outside the command processor
    (the start of a vacuum process, the write to the pipe, the HTTP server), no signal arrives, and
    nothing is scavenged. Then the thread fails with no exception; it takes the clients' packets in
    the order of their arrival; every command all of whose packets it has taken is executed exactly
    once, with the verb and the path that were sent. Without a SUICIDE the thread goes on to wait for
    messages, and when all packets were pushed it has executed all commands and keeps no partial one.
    A SUICIDE makes it push a _QUIT for each reader thread and one _CQUIT: everything queued before the
    latter is still taken, every reader thread is woken, and the loop ends there. If nobody pushes
    any more, a number of turns bring the thread to that end or to wait for a message. *)
Theorem broker_executes (self : Z) (n : nat) (ss : list sending) : Z.of_nat n < 2 ^ 32 ->
  Forall sendable ss -> Forall (fun s => from_process s <> self) ss -> NoDup (send_key <$> ss) ->
  exists packets,
    Forall2 (fun s ms => send_message (from_process s) (with_id s) (send_verb s) (Some (send_path s)) =
                         Ok (ms, wrap32 (with_id s + 1))) ss packets /\
    forall acts, Forall calm acts -> pushes acts ⊆+ mjoin packets ->
      exists p, run self acts (None, initial_processor n) = (None, p) /\ served self n ss packets acts p /\
        forall now, exists m q, run self (acts ++ replicate m (Turn now (Ok tt))) (None, initial_processor n) = (None, q) /\ idle q.
Proof.
  intros Hn Hs Hself Hnd. destruct (send_all ss Hs) as (css & Hcss).
  set (kcs := zip (send_key <$> ss) css). pose proof (Forall2_length _ _ _ Hcss) as Hlen.
  assert (NoDup kcs.*1) as Hkeys by (subst kcs; rewrite fst_zip; [done|rewrite length_fmap; lia]).
  assert (Forall2 (fun s cs => split_command (mjoin cs) = mk_command (send_verb s) (send_path s) /\ Forall piece cs /\ cs <> []) ss css) as Hsp.
  { clear -Hcss Hs. induction Hcss as [|s cs ss css (_ & Hj & Hp) _ IH]; [constructor|]. apply Forall_cons in Hs as [Hs Hss].
    constructor; [|by apply IH]. split; [|done]. rewrite Hj. by apply sendable_text. }
  pose proof (sent_clients self ss css Hs Hself Hsp) as Hclients. fold kcs in Hclients.
  set (packets := (fun kc => packet kc.1 kc.2 <$> seq 0 (length kc.2)) <$> kcs). exists packets. split.
  { subst packets kcs. clear -Hcss. induction Hcss as [|s cs ss css (E & _) _ IH]; [constructor|]. by constructor. }
  assert (mjoin packets = kcs ≫= fun kc => packet kc.1 kc.2 <$> seq 0 (length kc.2)) as Hpk by (subst packets; by rewrite list_join_bind, list_fmap_bind).
  intros acts Hcalm Hpush. rewrite Hpk in Hpush.
  destruct (run_clients self n kcs Hn Hkeys Hclients acts Hcalm Hpush) as (cids & tids & qids & t & k & p & E & Hr & Ec & Hall).
  rewrite <- Hpk in Hall. exists p. split; [done|]. split.
  - pose proof (running_executed self n kcs Hkeys Hclients _ _ _ _ _ _ Hr) as Hev. subst kcs packets. rewrite executed_sent in Hev
      by (eapply Forall2_impl; [exact Hsp|]; by intros ? ? [? _]).
    apply (running_served self n (zip (send_key <$> ss) css) acts ss _ cids tids qids t k p); try done.
    rewrite length_fmap, length_zip, length_fmap. lia.
  - intros now. destruct (run_idle self n kcs Hn Hkeys Hclients now cids tids qids t k p Hr) as (m & q & Eq & Hi).
    exists m, q. split; [|done]. unfold run in *. by rewrite foldl_app, E.
Qed.

(** GC /a, SUICIDE and NOP from one process, ECHO hi from another, to a broker with two reader threads *)
Lemma broker_executes_witness : exists packets p q,
  run 9 ((Push <$> mjoin packets) ++ replicate 2 (Turn 7 (Ok tt))) (None, initial_processor 2) = (None, p) /\
  run 9 ((Push <$> mjoin packets) ++ replicate 10 (Turn 7 (Ok tt))) (None, initial_processor 2) = (None, q) /\
  done_events p = [Ran h_gc [47; 97]; Ran h_suicide []] /\ done p = true /\ commands_done_ q = true /\ (2 <= readers_woken q)%nat /\
  Ran h_echo [104; 105] ∈ done_events q.
Proof.
  destruct (broker_executes 9 2 [mk_sending 1 0 [71; 67] [47; 97]; mk_sending 1 1 [83; 85; 73; 67; 73; 68; 69] []; mk_sending 1 2 [78; 79; 80] [];
    mk_sending 2 0 [69; 67; 72; 79] [104; 105]]) as (packets & Hsent & Hrun).
  { reflexivity. }
  { repeat (constructor; [unfold sendable; split_and!; [discriminate| | |vm_compute; discriminate|vm_compute; discriminate];
      repeat (constructor; [unfold not_null; first [split; [reflexivity|lia]|lia]|]); constructor|]). constructor. }
  { repeat (constructor; [discriminate|]). constructor. }
  { repeat (constructor; [set_solver|]). constructor. }
  assert (forall m, Forall calm ((Push <$> mjoin packets) ++ replicate m (Turn 7 (Ok tt)))) as Hcalm.
  { intros m. apply Forall_app. split; [by apply Forall_fmap, Forall_true|by apply Forall_replicate]. }
  assert (forall m, pushes ((Push <$> mjoin packets) ++ replicate m (Turn 7 (Ok tt))) = mjoin packets) as Hp.
  { intros m. unfold pushes. rewrite omap_app. replace (omap _ (replicate m _)) with (@nil message_type) by (by induction m).
    rewrite app_nil_r. generalize (mjoin packets) as l. intros l. induction l as [|x l IH]; [done|]. cbn. by f_equal. }
  destruct (Hrun _ (Hcalm 2%nat)) as (p & Ep & Hsp & _); [by rewrite Hp|].
  destruct (Hrun _ (Hcalm 10%nat)) as (q & Eq & Hsq & _); [by rewrite Hp|].
  exists packets, p, q. split; [exact Ep|]. split; [exact Eq|].
  do 4 (apply Forall2_cons_inv_l in Hsent as (? & ? & Hm & Hsent & ->); vm_compute in Hm; injection Hm as <-).
  apply Forall2_nil_inv_l in Hsent as ->. pose proof (sv_ended _ _ _ _ _ _ Hsq) as Hend.
  vm_compute in Ep. injection Ep as <-. vm_compute in Eq. injection Eq as <-.
  split; [reflexivity|]. split; [reflexivity|]. split; [reflexivity|]. split; [by apply Hend|]. vm_compute. set_solver.
Defined.

(** ** Malformed packets *)

(** A thread that has failed executes nothing more. *)
Lemma ended_frame self acts e p es ts : done_events p = es -> taken p = ts ->
  exists q, foldl (fun s a => broker_step self a s) (Some e, p) acts = (Some e, q) /\ done_events q = es /\ taken q = ts.
Proof.
  intros <- <-. revert p. induction acts as [|[m|now o|now th] acts IH]; intros p; [by exists p|..]; cbn [foldl broker_step fst snd].
  - apply (IH (push_command m p)).
  - apply IH.
  - apply (IH (scavenge now th p)).
Qed.

(** A packet that announces another number of parts than the first one of its message ends the
    command thread; nothing that is queued or pushed behind it is processed. *)
Lemma mismatch_ends_thread self now outside m rest p pc acts :
  to_push p = [] -> commands_done_ p = false -> messages_ p = m :: rest ->
  part_no m < num_parts m -> cmds_ p !! (sender_id m, message_id m) = Some pc -> Z.of_nat (length (s_ pc)) <> num_parts m ->
  exists q, run self (Turn now outside :: acts) (None, p) = (Some NumberOfPartsMismatch, q) /\
    done_events q = done_events p /\ taken q = taken p ++ [m].
Proof.
  intros Ht Hd Hm Hp Hc Hl. unfold run. cbn [foldl broker_step fst snd]. unfold thread_turn. rewrite bind_get, Ht, Hd, Hm, bind_modify.
  unfold process_command, in_cmds, parse, bind, get, put, throw. rewrite Z.geb_leb, (proj2 (Z.leb_gt _ _)) by lia.
  cbn [take_message cmds_]. rewrite Hc. rewrite (proj2 (Z.eqb_neq _ _)) by done. cbn [negb].
  match goal with |- context [foldl _ (_, ?x) _] => apply (ended_frame self acts _ x); done end.
Qed.

(** ** Scavenging *)

(** Exactly the messages the last packet of which is older than the threshold are given up. *)
Lemma scavenge_ok now threshold p key :
  cmds_ (scavenge now threshold p) !! key =
    (cmds_ p !! key ≫= fun pc => if arrive_time_ pc <? now - threshold then None else Some pc).
Proof.
  unfold scavenge. cbn [cmds_ set_cmds]. apply option_eq. intros pc. rewrite map_lookup_filter_Some. cbn [snd].
  destruct (cmds_ p !! key) as [pc'|]; cbn; [|naive_solver]. destruct (Z.ltb_spec (arrive_time_ pc') (now - threshold)); naive_solver lia.
Qed.
