(* ===== verification/Gc.v ===== *)
(** * The broker's garbage-collection processes

    Models include/pstore/broker/bimap.hpp, a map that is searched from both sides, and its use by
    lib/broker/gc_common.cpp and lib/broker/gc_posix.cpp to keep track of the vacuum processes:
    one for a store at most, and a bounded number in all. The right-hand map holds pointers to
    the keys of the left-hand one; such a pointer is the key it points to and may be dereferenced
    as long as the left-hand map has the key. *)

From S2P Require Import Prelude.

(** ** The two-way map *)

Section bimap.
Context {L R : Type} `{Countable L, Countable R} (L_default : L) (R_default : R).

(** [bimap] *)
Record bimap := mk_bimap { left_ : gmap L R; right_ : gmap R (option L) }.

(** [std::map::emplace]: nothing changes where the key is present; tells whether it inserted *)
Definition emplace {K V} `{Countable K} (k : K) (v : V) (m : gmap K V) : gmap K V * bool :=
  match m !! k with Some _ => (m, false) | None => (<[k := v]> m, true) end.

Definition sizes_agree (b : bimap) : bool := (base.size (left_ b) =? base.size (right_ b))%nat.

(** [set] *)
Definition set (left : L) (right : R) : M bimap unit :=
  b <- get ;;
  let '(_, inserted) := emplace left right (left_ b) in
  let left' := <[left := right]> (left_ b) in
  let right' := if inserted then (emplace right (Some left) (right_ b)).1 else right_ b in
  put (mk_bimap left' right') ;;;
  b <- get ;;
  massert (sizes_agree b).

(** [getr] and [getl], which insert a default where there is nothing *)
Definition getr (left : L) : M bimap R :=
  b <- get ;;
  let '(left', inserted) := emplace left R_default (left_ b) in
  let right' := if inserted then (emplace R_default (Some left) (right_ b)).1 else right_ b in
  put (mk_bimap left' right') ;;;
  b <- get ;;
  massert (sizes_agree b) ;;;
  ret (default R_default (left_ b !! left)).

Definition deref (b : bimap) (p : option L) : outcome L :=
  match p with
  | None => Throw Dangling
  | Some l => if bool_decide (is_Some (left_ b !! l)) then Ok l else Throw Dangling
  end.

Definition getl (right : R) : M bimap L :=
  b <- get ;;
  let '(right', inserted) := emplace right None (right_ b) in
  put (mk_bimap (left_ b) right') ;;;
  (if inserted then
     let '(left', added) := emplace L_default right (left_ b) in
     put (mk_bimap left' right') ;;;
     massert added ;;;
     modify (fun b => mk_bimap (left_ b) (<[right := Some L_default]> (right_ b)))
   else ret tt) ;;;
  b <- get ;;
  massert (sizes_agree b) ;;;
  lift (deref b (default None (right_ b !! right))).

(** [presentl], [presentr] and [size] *)
Definition presentl (b : bimap) (l : L) : bool := bool_decide (is_Some (left_ b !! l)).
Definition presentr (b : bimap) (r : R) : bool := bool_decide (is_Some (right_ b !! r)).
Definition bimap_size (b : bimap) : Z := Z.of_nat (base.size (left_ b)).

(** [erasel] and [eraser] *)
Definition erasel (l2 : L) : M bimap unit :=
  b <- get ;;
  match left_ b !! l2 with
  | Some r => put (mk_bimap (delete l2 (left_ b)) (delete r (right_ b)))
  | None => ret tt
  end.

Definition eraser (r2 : R) : M bimap unit :=
  b <- get ;;
  match right_ b !! r2 with
  | Some p => a <- lift (deref b p) ;; put (mk_bimap (delete a (left_ b)) (delete r2 (right_ b)))
  | None => ret tt
  end.

(** *** Its invariant *)

(** The two maps are each other's inverse. *)
Definition bimap_ok (b : bimap) : Prop :=
  forall l r, left_ b !! l = Some r <-> right_ b !! r = Some (Some l).

(** Every pointer is set. *)
Definition pointers_set (b : bimap) : Prop := forall r, right_ b !! r <> Some None.

Definition inverse (b : bimap) : Prop := bimap_ok b /\ pointers_set b.

Lemma sizes_ok b : inverse b -> sizes_agree b = true.
Proof.
  intros [Hb Hp]. apply Nat.eqb_eq. rewrite <- !length_map_to_list.
  assert (map_to_list (right_ b) ≡ₚ (fun lr => (lr.2, Some lr.1)) <$> map_to_list (left_ b)) as ->; [|by rewrite length_fmap].
  apply NoDup_Permutation; [apply NoDup_map_to_list| |].
  - apply NoDup_fmap_2; [|apply NoDup_map_to_list]. intros [l r] [l' r'] E. cbn in E. by injection E as -> ->.
  - intros [r p]. rewrite elem_of_map_to_list, list_elem_of_fmap. split.
    + intros Hr. destruct p as [l|]; [|by destruct (Hp r)]. exists (l, r). split; [done|]. by apply elem_of_map_to_list, Hb.
    + intros ([l r'] & E & Hl%elem_of_map_to_list). cbn in E. injection E as -> ->. by apply Hb.
Qed.

Lemma inverse_left b l r : inverse b -> left_ b !! l = Some r -> right_ b !! r = Some (Some l).
Proof. intros [Hb _]. apply Hb. Qed.

(** Adding a pair neither side of which is there *)
Lemma inverse_insert b l r : inverse b -> left_ b !! l = None -> right_ b !! r = None ->
  inverse (mk_bimap (<[l := r]> (left_ b)) (<[r := Some l]> (right_ b))).
Proof.
  intros [Hb Hp] Hl Hr. split.
  - intros l' r'. cbn. destruct (decide (l = l')) as [<-|Hne], (decide (r = r')) as [<-|Hne'];
      rewrite ?lookup_insert_eq, ?lookup_insert_ne by done; [done|..].
    + split; [congruence|]. intros H1%Hb. congruence.
    + split; [|congruence]. intros H1%Hb. congruence.
    + apply Hb.
  - intros r'. cbn. destruct (decide (r = r')) as [<-|]; rewrite ?lookup_insert_eq, ?lookup_insert_ne by done; [done|apply Hp].
Qed.

Lemma inverse_delete b l r : inverse b -> left_ b !! l = Some r ->
  inverse (mk_bimap (delete l (left_ b)) (delete r (right_ b))).
Proof.
  intros [Hb Hp] Hl. split.
  - intros l' r'. cbn. rewrite !lookup_delete_Some, (Hb l' r'). split.
    + intros [Hne Hr]. split; [|done]. intros <-. apply Hb in Hl. congruence.
    + intros [Hne Hr]. split; [|done]. intros <-. apply Hb in Hr. congruence.
  - intros r'. cbn. rewrite lookup_delete_Some. intros [_ Hr]. by apply (Hp r').
Qed.

(** [set] of a new pair *)
Lemma set_new b l r : inverse b -> left_ b !! l = None -> right_ b !! r = None ->
  let b' := mk_bimap (<[l := r]> (left_ b)) (<[r := Some l]> (right_ b)) in
  set l r b = (Ok tt, b') /\ inverse b'.
Proof.
  intros Hb Hl Hr b'. pose proof (inverse_insert b l r Hb Hl Hr) as Hb'. split; [|done].
  unfold set, bind, get, put, massert, lift, emplace. rewrite Hl. cbn beta iota zeta. rewrite Hr. cbn [fst]. by rewrite (sizes_ok _ Hb').
Qed.

(** [getl] and [eraser] of a right-hand key that is there *)
Lemma getl_present b l r : inverse b -> left_ b !! l = Some r -> getl r b = (Ok l, b).
Proof.
  intros Hb Hl. pose proof (inverse_left b l r Hb Hl) as Hr. destruct b as [lm rm]. cbn in Hl, Hr.
  unfold getl, bind, get, put, massert, lift, emplace, ret, deref. cbn [left_ right_]. rewrite Hr. cbn beta iota zeta.
  rewrite (sizes_ok _ Hb). cbn [oassert left_ right_]. rewrite Hr. cbn [from_option id]. by rewrite bool_decide_true by eauto.
Qed.

Lemma eraser_present b l r : inverse b -> left_ b !! l = Some r ->
  let b' := mk_bimap (delete l (left_ b)) (delete r (right_ b)) in eraser r b = (Ok tt, b') /\ inverse b'.
Proof.
  intros Hb Hl b'. pose proof (inverse_left b l r Hb Hl) as Hr. split; [|by apply inverse_delete].
  unfold eraser, bind, get, put, lift, deref. rewrite Hr. by rewrite bool_decide_true by eauto.
Qed.

(** A pair that [set] replaces leaves the right-hand map behind: the new right-hand key is not
    found, the old one is. *)
Lemma set_replaces b l r r' : inverse b -> left_ b !! l = Some r -> r <> r' -> right_ b !! r' = None ->
  exists b', set l r' b = (Ok tt, b') /\ left_ b' !! l = Some r' /\ presentr b' r' = false /\ presentr b' r = true.
Proof.
  intros Hb Hl Hne Hr'. eexists. unfold set, bind, get, put, massert, lift, emplace. rewrite Hl. cbn beta iota zeta.
  assert (sizes_agree (mk_bimap (<[l := r']> (left_ b)) (right_ b)) = true) as ->.
  { pose proof (sizes_ok b Hb) as Hs. unfold sizes_agree in *. cbn [left_ right_]. by rewrite map_size_insert_Some by eauto. }
  split; [reflexivity|]. cbn [left_]. rewrite lookup_insert_eq. split; [done|]. unfold presentr. cbn [right_].
  rewrite Hr', (inverse_left b l r Hb Hl). split; [by apply bool_decide_false; intros []|by apply bool_decide_true].
Qed.

End bimap.

(** ** The vacuum processes *)

Section gc.

(** [gc_watch_thread::max_gc_processes] *)
Definition max_gc_processes : Z := 50.

(** A path is its characters, a process its number. *)
Abbreviation process_bimap := (bimap (L := list Z) (R := Z)).

(** [start_vacuum]; [spawn] is the process that the operating system starts, if one is asked for *)
Definition start_vacuum (db_path : list Z) (spawn : Z) : M process_bimap unit :=
  b <- get ;;
  if presentl b db_path then ret tt
  else if bimap_size b >=? max_gc_processes then ret tt
  else set db_path spawn.

(** The body of [watcher]'s loop over [waitpid], for a process that has ended *)
Definition reap (pid : Z) : M process_bimap (list Z) :=
  db_path <- getl [] pid ;;
  eraser pid ;;;
  ret db_path.

(** The processes that are asked to end when the broker does *)
Definition processes_to_kill (b : process_bimap) : list Z := (map_to_list (right_ b)).*1.

(** What happens to the broker and its children: a request, whose process is a new one, and the
    end of a process *)
Inductive gc_step : process_bimap -> process_bimap -> Prop :=
  | step_start b db_path pid b' : right_ b !! pid = None -> start_vacuum db_path pid b = (Ok tt, b') -> gc_step b b'
  | step_exit b pid db_path b' : is_Some (right_ b !! pid) -> reap pid b = (Ok db_path, b') -> gc_step b b'.

Inductive gc_reachable : process_bimap -> Prop :=
  | gc_initial : gc_reachable (mk_bimap ∅ ∅)
  | gc_next b b' : gc_reachable b -> gc_step b b' -> gc_reachable b'.

Definition gc_ok (b : process_bimap) : Prop := inverse b /\ bimap_size b <= max_gc_processes.

(** Each request has one of three outcomes. *)
Lemma start_vacuum_ok b db_path pid : gc_ok b -> right_ b !! pid = None ->
  exists b', start_vacuum db_path pid b = (Ok tt, b') /\ gc_ok b' /\
    if decide (is_Some (left_ b !! db_path) \/ max_gc_processes <= bimap_size b) then b' = b
    else left_ b' = <[db_path := pid]> (left_ b).
Proof.
  intros [Hb Hs] Hr. unfold start_vacuum, bind, get, presentl. case_bool_decide as Hp.
  { exists b. by rewrite decide_True by (by left). }
  rewrite Z.geb_leb. destruct (Z.leb_spec max_gc_processes (bimap_size b)) as [Hm|Hm].
  { exists b. by rewrite decide_True by (by right). }
  destruct (left_ b !! db_path) eqn:Hl; [destruct Hp; eauto|].
  destruct (set_new b db_path pid Hb Hl Hr) as [E Hb']. rewrite E. eexists. split; [reflexivity|]. split; [split; [done|]|].
  - unfold bimap_size in *. cbn [left_]. rewrite map_size_insert_None by done. lia.
  - rewrite decide_False; [done|]. intros [[]|]; [done|lia].
Qed.

Lemma reap_ok b db_path pid : gc_ok b -> left_ b !! db_path = Some pid ->
  exists b', reap pid b = (Ok db_path, b') /\ gc_ok b' /\ left_ b' = delete db_path (left_ b).
Proof.
  intros [Hb Hs] Hl. destruct (eraser_present b db_path pid Hb Hl) as [E Hb']. unfold reap, bind.
  rewrite (getl_present [] b db_path pid Hb Hl), E. eexists. split; [reflexivity|]. split; [split; [done|]|done].
  unfold bimap_size in *. cbn [left_]. rewrite map_size_delete_Some by eauto. lia.
Qed.

Lemma gc_reachable_ok b : gc_reachable b -> gc_ok b.
Proof.
  induction 1 as [|b b' _ IH Hstep].
  - split; [split|].
    + intros l r. cbn. by rewrite !lookup_empty.
    + intros r. cbn. by rewrite lookup_empty.
    + unfold bimap_size, max_gc_processes. cbn [left_]. rewrite map_size_empty. lia.
  - destruct Hstep as [b db_path pid b' Hr E|b pid db_path b' [p Hr] E].
    + destruct (start_vacuum_ok b db_path pid IH Hr) as (b'' & E' & Hok & _). congruence.
    + destruct (IH) as [[Hb Hp] _]. destruct p as [l|]; [|by destruct (Hp pid)]. apply Hb in Hr as Hl.
      destruct (reap_ok b l pid IH Hl) as (b'' & E' & Hok & _). congruence.
Qed.

(** C30: in every state that requests and ending processes lead to, there are at most 50 processes
    and at most one for a store, and both sides of the map agree; a request never fails an
    assertion, and starts a process unless one is running for that store or the limit is reached;
    a process that ends is found with its path and forgotten, and those that are left are what the
    broker would ask to end. *)
Theorem gc_processes_tracked b db_path pid : gc_reachable b -> right_ b !! pid = None ->
  bimap_size b <= max_gc_processes /\
  (forall l l' r, left_ b !! l = Some r -> left_ b !! l' = Some r -> l = l') /\
  processes_to_kill b ≡ₚ (map_to_list (left_ b)).*2 /\
  (exists b', start_vacuum db_path pid b = (Ok tt, b') /\
    if decide (is_Some (left_ b !! db_path) \/ max_gc_processes <= bimap_size b) then b' = b
    else left_ b' = <[db_path := pid]> (left_ b)) /\
  (forall l r, left_ b !! l = Some r -> exists b', reap r b = (Ok l, b') /\ left_ b' = delete l (left_ b)).
Proof.
  intros Hreach Hr. pose proof (gc_reachable_ok b Hreach) as Hok. destruct (Hok) as [[Hb Hp] Hs]. split_and!; [done| | | |].
  - intros l l' r H1%Hb H2%Hb. congruence.
  - unfold processes_to_kill. apply NoDup_Permutation; [apply NoDup_fst_map_to_list| |].
    + apply NoDup_fmap_2_strong; [|apply NoDup_map_to_list]. intros [l r] [l' r'] H1%elem_of_map_to_list H2%elem_of_map_to_list. cbn.
      intros <-. apply Hb in H1, H2. congruence.
    + intros r. rewrite !list_elem_of_fmap. split.
      * intros ([r' p] & -> & Hr'%elem_of_map_to_list). destruct p as [l|]; [|by destruct (Hp r')]. exists (l, r').
        split; [done|]. by apply elem_of_map_to_list, Hb.
      * intros ([l r'] & -> & Hl%elem_of_map_to_list). exists (r', Some l). split; [done|]. by apply elem_of_map_to_list, Hb.
  - destruct (start_vacuum_ok b db_path pid Hok Hr) as (b' & E & _ & H). eauto.
  - intros l r Hl. destruct (reap_ok b l r Hok Hl) as (b' & E & _ & H). eauto.
Qed.

Lemma gc_processes_tracked_witness :
  exists b b', gc_reachable b /\ left_ b !! [47; 97] = Some 100 /\ start_vacuum [47; 98] 101 b = (Ok tt, b') /\
    left_ b' = <[[47; 98] := 101]> (left_ b).
Proof.
  set (b := mk_bimap {[ [47; 97] := 100 ]} {[ 100 := Some [47; 97] ]} : process_bimap).
  assert (gc_reachable b) as Hb.
  { apply (gc_next (mk_bimap ∅ ∅)); [constructor|]. apply (step_start _ [47; 97] 100); vm_compute; reflexivity. }
  destruct (gc_processes_tracked b [47; 98] 101 Hb) as (_ & _ & _ & (b' & E & H) & _); [vm_compute; reflexivity|].
  exists b, b'. split; [exact Hb|]. split; [vm_compute; reflexivity|]. split; [exact E|]. vm_compute in E. injection E as <-. reflexivity.
Defined.

End gc.
