(* ===== verification/Pubsub.v ===== *)
(** * Publishing and subscribing

    Models include/pstore/support/pubsub.hpp: channels on which messages are published, and the
    subscribers that receive them. The threads that publish and listen interleave: what a thread
    does while it holds the channel's mutex is one step, and a publisher renders its message
    between two such steps, without the mutex. The condition variable is the standard library's:
    [notify_all] wakes every thread that waits on it and a thread may wake for no reason. *)

From S2P Require Import Prelude.

Definition message := list Z.

(** [subscriber] and [channel]; subscribers, channels and condition variables are known by their
    addresses *)
Record subscriber := mk_subscriber { queue_ : list message; owner_ : positive; active_ : bool }.
Record channel := mk_channel { cv_ : positive; subscribers_ : gset positive }.

(** Where a thread stands: outside any operation; in [publish], with the mutex released to render
    the message; in [listen], about to take the mutex or waiting on the condition variable. *)
Inductive point :=
| Outside
| Rendering (c : positive)
| Listening (s : positive)
| Waits (s : positive).

Record state := mk_state {
  channels : gmap positive channel;
  subs : gmap positive subscriber;
  threads : gmap positive point }.

Definition set_channels st x := mk_state x (subs st) (threads st).
Definition set_subs st x := mk_state (channels st) x (threads st).
Definition set_thread st t p := mk_state (channels st) (subs st) (<[t := p]> (threads st)).

(** The condition variable of the channel that owns a subscriber *)
Definition cv_of (st : state) (s : positive) : option positive :=
  sub ← subs st !! s; ch ← channels st !! owner_ sub; Some (cv_ ch).

(** [cv_->notify_all ()] *)
Definition wake (st : state) (cv : positive) (p : point) : point :=
  match p with
  | Waits s => if decide (cv_of st s = Some cv) then Listening s else p
  | _ => p
  end.
Definition notify_all (cv : positive) (st : state) : state :=
  mk_state (channels st) (subs st) (wake st cv <$> threads st).

(** [sub->queue_.push (message)] *)
Definition push (m : message) (sub : subscriber) : subscriber :=
  mk_subscriber (queue_ sub ++ [m]) (owner_ sub) (active_ sub).

(** [channel::publish]: its first part tells whether there is anybody to render a message for, its
    second gives the message to every subscriber and wakes the listeners *)
Definition publish_render (ch : channel) : bool := bool_decide (0 < base.size (subscribers_ ch))%nat.
Definition publish_push (ch : channel) (m : message) (st : state) : state :=
  notify_all (cv_ ch)
    (set_subs st (foldl (fun ss s => alter (push m) s ss) (subs st) (elements (subscribers_ ch)))).

(** [channel::~channel]; [None] is the failure of the assertion *)
Definition destroy_channel (c : positive) (ch : channel) (st : state) : option state :=
  if decide (subscribers_ ch = ∅) then Some (set_channels st (delete c (channels st))) else None.

(** [channel::new_subscriber], with the address of the new subscriber *)
Definition new_subscriber (c : positive) (ch : channel) (s : positive) (st : state) : state :=
  mk_state (<[c := mk_channel (cv_ ch) ({[s]} ∪ subscribers_ ch)]> (channels st))
           (<[s := mk_subscriber [] c true]> (subs st)) (threads st).

(** [subscriber::~subscriber] and [channel::remove]; [None] is the failure of the assertion *)
Definition remove (c : positive) (ch : channel) (s : positive) (st : state) : option state :=
  if decide (s ∈ subscribers_ ch) then
    Some (mk_state (<[c := mk_channel (cv_ ch) (subscribers_ ch ∖ {[s]})]> (channels st))
                   (delete s (subs st)) (threads st))
  else None.

(** [subscriber::cancel] and [channel::cancel] *)
Definition cancel (c : positive) (ch : channel) (s : positive) (sub : subscriber) (st : state) : state :=
  if decide (owner_ sub = c) then
    notify_all (cv_ ch) (set_subs st (<[s := mk_subscriber (queue_ sub) (owner_ sub) false]> (subs st)))
  else st.

(** [subscriber::pop] *)
Definition pop (sub : subscriber) : option message * subscriber :=
  match queue_ sub with
  | [] => (None, sub)
  | m :: q => (Some m, mk_subscriber q (owner_ sub) (active_ sub))
  end.

(** A turn of the loop of [channel::listen], from taking the mutex to releasing it *)
Inductive listen_turn := Sleep | Return (r : option message) (sub : subscriber).
Definition listen (sub : subscriber) : listen_turn :=
  if active_ sub then
    match queue_ sub with
    | [] => Sleep
    | m :: q => Return (Some m) (mk_subscriber q (owner_ sub) (active_ sub))
    end
  else Return None sub.

(** ** The threads *)

Inductive event :=
| New (c s : positive) | Removed (s : positive)
| Pushed (c : positive) (m : message) | Delivered (s : positive) (m : message)
| Cancelled (s : positive) | Ended (s : positive).

(** Whether a thread is inside [listen] for a subscriber *)
Definition listens (p : point) (s : positive) : bool :=
  match p with Listening s' | Waits s' => bool_decide (s = s') | _ => false end.

(** A step of the system. The caller's part of the contract: a channel is not created over
    another and is destroyed when it has no subscribers and no thread publishes on it; a
    subscriber is destroyed once and when no thread listens to it. *)
Inductive step : state -> list event -> state -> Prop :=
| step_channel st c cv :
    channels st !! c = None ->
    step st [] (set_channels st (<[c := mk_channel cv ∅]> (channels st)))
| step_destroy st c ch st' :
    channels st !! c = Some ch -> (forall t, threads st !! t <> Some (Rendering c)) ->
    destroy_channel c ch st = Some st' ->
    step st [] st'
| step_new st c ch s :
    channels st !! c = Some ch -> subs st !! s = None ->
    step st [New c s] (new_subscriber c ch s st)
| step_remove st c ch s sub st' :
    subs st !! s = Some sub -> owner_ sub = c -> channels st !! c = Some ch ->
    (forall t p, threads st !! t = Some p -> listens p s = false) ->
    remove c ch s st = Some st' ->
    step st [Removed s] st'
| step_publish st t c ch :
    threads st !! t = Some Outside -> channels st !! c = Some ch ->
    step st [] (if publish_render ch then set_thread st t (Rendering c) else st)
| step_push st t c ch m :
    threads st !! t = Some (Rendering c) -> channels st !! c = Some ch ->
    step st [Pushed c m] (set_thread (publish_push ch m st) t Outside)
| step_cancel st s sub ch :
    subs st !! s = Some sub -> channels st !! owner_ sub = Some ch ->
    step st [Cancelled s] (cancel (owner_ sub) ch s sub st)
| step_pop st s sub r sub' :
    subs st !! s = Some sub -> pop sub = (r, sub') ->
    step st (match r with Some m => [Delivered s m] | None => [] end)
         (set_subs st (<[s := sub']> (subs st)))
| step_listen st t s sub :
    threads st !! t = Some Outside -> subs st !! s = Some sub ->
    step st [] (set_thread st t (Listening s))
| step_sleep st t s sub :
    threads st !! t = Some (Listening s) -> subs st !! s = Some sub -> listen sub = Sleep ->
    step st [] (set_thread st t (Waits s))
| step_return st t s sub r sub' :
    threads st !! t = Some (Listening s) -> subs st !! s = Some sub -> listen sub = Return r sub' ->
    step st [match r with Some m => Delivered s m | None => Ended s end]
         (set_thread (set_subs st (<[s := sub']> (subs st))) t Outside)
| step_spurious st t s :
    threads st !! t = Some (Waits s) ->
    step st [] (set_thread st t (Listening s)).

(** Some threads, and nothing else *)
Definition start (ts : gset positive) : state := mk_state ∅ ∅ (gset_to_gmap Outside ts).

(** A state that is reached, with what happened since the start *)
Inductive reachable (ts : gset positive) : list event -> state -> Prop :=
| reach_start : reachable ts [] (start ts)
| reach_step tr st ev st' : reachable ts tr st -> step st ev st' -> reachable ts (tr ++ ev) st'.

(** ** What a subscriber should receive *)

(** What happened to a subscriber since it was created: its channel, the messages that were
    published there since, those that were delivered to it, and whether it was cancelled *)
Record log := mk_log {
  l_owner : positive; l_pushed : list message; l_delivered : list message; l_cancelled : bool }.

Definition note (s : positive) (h : option log) (ev : event) : option log :=
  match ev with
  | New c s' => if decide (s = s') then Some (mk_log c [] [] false) else h
  | Removed s' => if decide (s = s') then None else h
  | Pushed c m =>
      l ← h; Some (if decide (l_owner l = c)
                   then mk_log (l_owner l) (l_pushed l ++ [m]) (l_delivered l) (l_cancelled l) else l)
  | Delivered s' m =>
      l ← h; Some (if decide (s = s')
                   then mk_log (l_owner l) (l_pushed l) (l_delivered l ++ [m]) (l_cancelled l) else l)
  | Cancelled s' =>
      l ← h; Some (if decide (s = s')
                   then mk_log (l_owner l) (l_pushed l) (l_delivered l) true else l)
  | Ended _ => h
  end.
Definition history (s : positive) (tr : list event) : option log := foldl (note s) None tr.

(** A subscriber agrees with its log: the messages that were published are those that were
    delivered followed by those in its queue. *)
Definition agrees (o : option subscriber) (h : option log) : Prop :=
  match o, h with
  | Some sub, Some l =>
      owner_ sub = l_owner l /\ l_pushed l = l_delivered l ++ queue_ sub /\
      active_ sub = negb (l_cancelled l)
  | None, None => True
  | _, _ => False
  end.

(** Channels and subscribers know one another. *)
Definition linked (st : state) : Prop :=
  (forall c ch s, channels st !! c = Some ch -> s ∈ subscribers_ ch ->
     exists sub, subs st !! s = Some sub /\ owner_ sub = c) /\
  (forall s sub, subs st !! s = Some sub ->
     exists ch, channels st !! owner_ sub = Some ch /\ s ∈ subscribers_ ch).

(** A thread that waits has nothing to do; one that listens or publishes does it on something
    that exists. *)
Definition point_ok (st : state) (p : point) : Prop :=
  match p with
  | Outside => True
  | Rendering c => is_Some (channels st !! c)
  | Listening s => is_Some (subs st !! s)
  | Waits s => exists sub, subs st !! s = Some sub /\ queue_ sub = [] /\ active_ sub = true
  end.
Definition threads_ok (st : state) : Prop := forall t p, threads st !! t = Some p -> point_ok st p.
Definition logged (st : state) (tr : list event) : Prop := forall s, agrees (subs st !! s) (history s tr).

(** ** Facts on the operations *)

Lemma push_all_lookup m l (ss : gmap positive subscriber) s : NoDup l ->
  foldl (fun ss s => alter (push m) s ss) ss l !! s = (if decide (s ∈ l) then push m <$> ss !! s else ss !! s).
Proof.
  intros Hnd. revert ss. induction Hnd as [|x l Hx Hnd IH]; intros ss; cbn [foldl].
  - rewrite decide_False; [done|]. intros []%elem_of_nil.
  - rewrite IH. destruct (decide (s = x)) as [->|Hs].
    + rewrite decide_False by done. rewrite decide_True by apply list_elem_of_here.
      by rewrite lookup_alter_eq.
    + rewrite lookup_alter_ne by done.
      destruct (decide (s ∈ l)); [rewrite decide_True by by right|rewrite decide_False]; [done..|].
      by intros [|]%elem_of_cons.
Qed.

Lemma publish_push_subs ch m st s :
  subs (publish_push ch m st) !! s =
  (if decide (s ∈ subscribers_ ch) then push m <$> subs st !! s else subs st !! s).
Proof.
  unfold publish_push. cbn [notify_all subs set_subs].
  rewrite push_all_lookup by apply NoDup_elements.
  destruct (decide (s ∈ subscribers_ ch)); [rewrite decide_True|rewrite decide_False]; set_solver.
Qed.

Lemma history_app s tr ev : history s (tr ++ ev) = foldl (note s) (history s tr) ev.
Proof. apply foldl_app. Qed.

(** ** The invariants are kept *)

(** What the operations on subscribers keep: the channels, and who owns whom *)
Definition same_owners (st st' : state) : Prop :=
  channels st' = channels st /\ forall s, owner_ <$> subs st' !! s = owner_ <$> subs st !! s.

Lemma linked_same_owners st st' : same_owners st st' -> linked st -> linked st'.
Proof.
  intros [Hc Ho] [H1 H2]. split; rewrite Hc.
  - intros c ch s Hch Hin. destruct (H1 _ _ _ Hch Hin) as (sub & Hs & He).
    specialize (Ho s). rewrite Hs in Ho. apply fmap_Some in Ho as (sub' & Hs' & Ho'). exists sub'. by split; [|congruence].
  - intros s sub Hs. pose proof (Ho s) as He. rewrite Hs in He.
    symmetry in He. apply fmap_Some in He as (sub0 & Hs0 & ->). eauto.
Qed.

Lemma same_owners_insert st s sub sub' t p : subs st !! s = Some sub -> owner_ sub' = owner_ sub ->
  same_owners st (set_subs st (<[s := sub']> (subs st))) /\
  same_owners st (set_thread (set_subs st (<[s := sub']> (subs st))) t p).
Proof.
  intros Hs Ho. assert (same_owners st (set_subs st (<[s := sub']> (subs st)))) as Hk.
  { split; [done|]. intros s'. cbn [set_subs subs].
    destruct (decide (s = s')) as [->|]; [rewrite lookup_insert_eq, Hs; cbn; by rewrite Ho|].
    by rewrite lookup_insert_ne. }
  done.
Qed.

Lemma same_owners_push ch m st : same_owners st (publish_push ch m st).
Proof.
  split; [done|]. intros s. rewrite publish_push_subs. case_decide; [|done].
  by destruct (subs st !! s).
Qed.

Lemma cancel_subs c ch s sub st s' : owner_ sub = c ->
  subs (cancel c ch s sub st) !! s' =
  (if decide (s = s') then Some (mk_subscriber (queue_ sub) (owner_ sub) false) else subs st !! s').
Proof.
  intros Ho. unfold cancel. rewrite decide_True by done. cbn [notify_all set_subs subs].
  case_decide as He; [subst; apply lookup_insert_eq|by apply lookup_insert_ne].
Qed.

Lemma same_owners_cancel ch s sub st : subs st !! s = Some sub ->
  same_owners st (cancel (owner_ sub) ch s sub st).
Proof.
  intros Hs. split.
  - unfold cancel. by rewrite decide_True.
  - intros s'. rewrite cancel_subs by done. case_decide; [subst; by rewrite Hs|done].
Qed.

Lemma pop_owner sub r sub' : pop sub = (r, sub') -> owner_ sub' = owner_ sub.
Proof. unfold pop. case_match; intros; by simplify_eq. Qed.
Lemma listen_owner sub r sub' : listen sub = Return r sub' -> owner_ sub' = owner_ sub.
Proof. unfold listen. repeat case_match; intros; by simplify_eq. Qed.

Lemma linked_channel st c cv : channels st !! c = None -> linked st ->
  linked (set_channels st (<[c := mk_channel cv ∅]> (channels st))).
Proof.
  intros Hc [H1 H2]. split; cbn [set_channels channels subs].
  - intros c' ch s [[<- <-]|[? Hc']]%lookup_insert_Some Hin; [set_solver|eauto].
  - intros s sub Hsub. destruct (H2 _ _ Hsub) as (ch & Hch & Hin). exists ch.
    rewrite lookup_insert_ne; [done|]. intros ->. congruence.
Qed.

Lemma linked_destroy st c ch st' : channels st !! c = Some ch -> destroy_channel c ch st = Some st' ->
  linked st -> linked st'.
Proof.
  unfold destroy_channel. intros Hc Hd [H1 H2]. case_decide as He; [|done]. simplify_eq.
  split; cbn [set_channels channels subs].
  - intros c' ch' s [_ Hc']%lookup_delete_Some Hin. eauto.
  - intros s sub Hsub. destruct (H2 _ _ Hsub) as (ch' & Hch & Hin). exists ch'.
    rewrite lookup_delete_ne; [done|]. intros ->. simplify_eq. set_solver.
Qed.

Lemma linked_new st c ch s : channels st !! c = Some ch -> subs st !! s = None ->
  linked st -> linked (new_subscriber c ch s st).
Proof.
  intros Hc Hn [H1 H2]. split; cbn [new_subscriber channels subs].
  - intros c' ch' s' Hc' Hin. destruct (decide (s' = s)) as [->|Hne].
    + rewrite lookup_insert_eq. eexists. split; [done|]. cbn [owner_].
      apply lookup_insert_Some in Hc' as [[-> _]|[_ Hc']]; [done|].
      destruct (H1 _ _ _ Hc' Hin) as (? & ? & _). congruence.
    + rewrite lookup_insert_ne by done.
      apply lookup_insert_Some in Hc' as [[<- <-]|[_ Hc']]; [|eauto].
      apply (H1 _ _ _ Hc). cbn in Hin. set_solver.
  - intros s' sub [[<- <-]|[? Hsub]]%lookup_insert_Some; cbn [owner_].
    + rewrite lookup_insert_eq. eexists. split; [done|]. cbn. set_solver.
    + destruct (H2 _ _ Hsub) as (ch' & Hch & Hin). rewrite lookup_insert.
      case_decide; subst; simplify_eq; eexists; (split; [done|]); cbn; set_solver.
Qed.

Lemma linked_remove st ch s sub st' : subs st !! s = Some sub -> channels st !! owner_ sub = Some ch ->
  remove (owner_ sub) ch s st = Some st' -> linked st -> linked st'.
Proof.
  unfold remove. intros Hsub Hc Hr [H1 H2]. case_decide as Hin; [|done]. simplify_eq.
  split; cbn [channels subs].
  - intros c' ch' s' Hc' Hin'.
    assert (s <> s') as Hne.
    { intros ->. apply lookup_insert_Some in Hc' as [[<- <-]|[? Hc']]; [cbn in Hin'; set_solver|].
      destruct (H1 _ _ _ Hc' Hin') as (? & ? & ?). congruence. }
    rewrite lookup_delete_ne by done.
    apply lookup_insert_Some in Hc' as [[<- <-]|[_ Hc']]; [|eauto].
    apply (H1 _ _ _ Hc). cbn in Hin'. set_solver.
  - intros s' sub' [Hne Hsub']%lookup_delete_Some.
    destruct (H2 _ _ Hsub') as (ch' & Hch & Hin'). rewrite lookup_insert.
    case_decide as He; [rewrite He in *|]; simplify_eq; eexists; (split; [done|]); cbn; set_solver.
Qed.

#[local] Hint Resolve linked_channel linked_destroy linked_new linked_remove : pubsub.

Lemma linked_step st ev st' : step st ev st' -> linked st -> linked st'.
Proof.
  intros Hs Hl. destruct Hs; subst; eauto with pubsub.
  - by destruct (publish_render ch).
  - exact (linked_same_owners st _ (same_owners_push ch m st) Hl).
  - by eapply linked_same_owners; [apply same_owners_cancel|].
  - eapply linked_same_owners; [|done]. eapply (same_owners_insert _ _ _ _ 1 Outside); eauto using pop_owner.
  - eapply linked_same_owners; [|done]. eapply same_owners_insert; eauto using listen_owner.
Qed.

Lemma same_owners_dom st st' s : same_owners st st' -> is_Some (subs st !! s) -> is_Some (subs st' !! s).
Proof. intros [_ Ho] [sub Hs]. specialize (Ho s). rewrite Hs in Ho. apply fmap_Some in Ho as (? & ? & _). eauto. Qed.

Lemma same_owners_cv st st' s : same_owners st st' -> cv_of st' s = cv_of st s.
Proof.
  intros [Hc Ho]. unfold cv_of. rewrite Hc. specialize (Ho s).
  destruct (subs st' !! s), (subs st !! s); cbn in *; [|done..].
  injection Ho as He. by rewrite He.
Qed.

Lemma point_ok_keeps st st' p : same_owners st st' ->
  (forall s, p = Waits s -> subs st' !! s = subs st !! s) -> point_ok st p -> point_ok st' p.
Proof.
  intros Ho Hw. destruct p; cbn [point_ok]; [done| |by apply same_owners_dom|by rewrite Hw].
  by rewrite (proj1 Ho).
Qed.

Lemma threads_ok_set st t p : threads_ok st -> point_ok st p -> threads_ok (set_thread st t p).
Proof.
  intros Ht Hp t' p'. cbn [set_thread threads]. intros [[_ <-]|[_ Ht']]%lookup_insert_Some; [exact Hp|exact (Ht _ _ Ht')].
Qed.

(** Whoever waits for a subscriber that changed is woken. *)
Lemma threads_ok_notify st st1 cv : same_owners st st1 -> threads st1 = threads st ->
  (forall s, cv_of st s <> Some cv -> subs st1 !! s = subs st !! s) ->
  threads_ok st -> threads_ok (notify_all cv st1).
Proof.
  intros Ho Hth Hk Ht t p. cbn [notify_all threads]. rewrite lookup_fmap, Hth.
  intros (p0 & Hp & ->)%fmap_Some. specialize (Ht _ _ Hp).
  change (point_ok st1 (wake st1 cv p0)).
  destruct p0 as [|c|s|s]; cbn [wake]; try (by apply (point_ok_keeps st)).
  rewrite (same_owners_cv st st1) by done. case_decide as Hcv.
  - apply (same_owners_dom st); [done|]. destruct Ht as (sub & Hs & _). eauto.
  - apply (point_ok_keeps st); [done| |done]. intros s' [= <-]. auto.
Qed.

Lemma threads_ok_insert st s sub sub' : subs st !! s = Some sub -> owner_ sub' = owner_ sub ->
  (queue_ sub = [] -> sub' = sub) -> threads_ok st -> threads_ok (set_subs st (<[s := sub']> (subs st))).
Proof.
  intros Hs Ho Hq Ht t p Hp. specialize (Ht t p Hp).
  eapply point_ok_keeps; [by eapply (same_owners_insert _ _ _ _ 1 Outside)| |done].
  intros s' ->. cbn [set_subs subs]. rewrite lookup_insert. case_decide; [subst|done].
  destruct Ht as (sub0 & Hs0 & Hq0 & _). simplify_eq. by rewrite Hs, Hq.
Qed.

Lemma pop_empty sub r sub' : pop sub = (r, sub') -> queue_ sub = [] -> sub' = sub.
Proof. unfold pop. intros Hp Hq. rewrite Hq in Hp. congruence. Qed.
Lemma listen_empty sub r sub' : listen sub = Return r sub' -> queue_ sub = [] -> sub' = sub.
Proof. unfold listen. intros Hp Hq. rewrite Hq in Hp. case_match; congruence. Qed.
Lemma listen_sleep sub : listen sub = Sleep -> queue_ sub = [] /\ active_ sub = true.
Proof. unfold listen. by repeat case_match. Qed.

Lemma threads_ok_push st c ch m : linked st -> channels st !! c = Some ch ->
  threads_ok st -> threads_ok (publish_push ch m st).
Proof.
  intros [Hl _] Hc Ht. apply (threads_ok_notify st); [exact (same_owners_push ch m st)|done| |done].
  intros s Hcv. change (subs (publish_push ch m st) !! s = subs st !! s).
  rewrite publish_push_subs. case_decide as Hin; [|done].
  destruct (Hl _ _ _ Hc Hin) as (sub & Hs & Ho). destruct Hcv. unfold cv_of. rewrite Hs. cbn.
  by rewrite Ho, Hc.
Qed.

Lemma threads_ok_cancel st s sub ch : subs st !! s = Some sub -> channels st !! owner_ sub = Some ch ->
  threads_ok st -> threads_ok (cancel (owner_ sub) ch s sub st).
Proof.
  intros Hs Hc Ht. unfold cancel. rewrite decide_True by done. apply (threads_ok_notify st); [|done| |done].
  - by eapply (same_owners_insert _ _ _ _ 1 Outside).
  - intros s' Hcv. cbn [set_subs subs]. apply lookup_insert_ne. intros <-. destruct Hcv.
    unfold cv_of. rewrite Hs. cbn. by rewrite Hc.
Qed.

Lemma threads_ok_channels st chs :
  (forall t c, threads st !! t = Some (Rendering c) -> is_Some (channels st !! c) -> is_Some (chs !! c)) ->
  threads_ok st -> threads_ok (set_channels st chs).
Proof.
  intros Hk Ht t p Hp. specialize (Ht t p Hp). cbn in Hp. destruct p; cbn in *; eauto.
Qed.

Lemma threads_ok_new st c ch s : subs st !! s = None ->
  threads_ok st -> threads_ok (new_subscriber c ch s st).
Proof.
  intros Hn Ht t p Hp. specialize (Ht t p Hp). destruct p; cbn in *.
  - done.
  - rewrite lookup_insert. by case_decide.
  - rewrite lookup_insert. by case_decide.
  - destruct Ht as (sub & Hs & Hk). exists sub. rewrite lookup_insert_ne; [done|congruence].
Qed.

Lemma threads_ok_remove st c ch s st' :
  (forall t p, threads st !! t = Some p -> listens p s = false) -> remove c ch s st = Some st' ->
  threads_ok st -> threads_ok st'.
Proof.
  unfold remove. intros Hno Hr Ht t p Hp. case_decide; [|done]. simplify_eq.
  specialize (Ht t p Hp). specialize (Hno t p Hp). destruct p; cbn in *.
  - done.
  - rewrite lookup_insert. by case_decide.
  - apply bool_decide_eq_false in Hno. by rewrite lookup_delete_ne.
  - apply bool_decide_eq_false in Hno. by rewrite lookup_delete_ne.
Qed.

Lemma threads_ok_step st ev st' : step st ev st' -> linked st -> threads_ok st -> threads_ok st'.
Proof.
  intros Hs Hl Ht. destruct Hs; subst; eauto using threads_ok_new, threads_ok_remove, threads_ok_cancel.
  - apply threads_ok_channels; [|done]. intros ? c' _. rewrite lookup_insert. by case_decide.
  - unfold destroy_channel in *. case_decide; [|done]. simplify_eq. apply threads_ok_channels; [|done].
    intros t c' Hr. rewrite lookup_delete_ne; [done|]. intros ->. by eapply H0.
  - case_match; [|done]. apply threads_ok_set; [done|]. cbn. by rewrite H0.
  - apply threads_ok_set; [|done]. by eapply threads_ok_push.
  - eapply threads_ok_insert; eauto using pop_owner, pop_empty.
  - apply threads_ok_set; [done|]. cbn. by rewrite H0.
  - apply threads_ok_set; [done|]. apply listen_sleep in H1. exists sub. tauto.
  - apply threads_ok_set; [|done]. eapply threads_ok_insert; eauto using listen_owner, listen_empty.
  - apply threads_ok_set; [done|]. destruct (Ht _ _ H) as (sub & Hs & _). cbn. by rewrite Hs.
Qed.

(** Every event is in the log of the subscribers it concerns. *)
Lemma logged_insert st tr s sub sub' ev : subs st !! s = Some sub ->
  (forall s' h, s' <> s -> foldl (note s') h ev = h) ->
  (forall h, agrees (Some sub) h -> agrees (Some sub') (foldl (note s) h ev)) ->
  logged st tr -> logged (set_subs st (<[s := sub']> (subs st))) (tr ++ ev).
Proof.
  intros Hs Hev Hsub Hl s'. cbn [set_subs subs]. rewrite history_app, lookup_insert.
  specialize (Hl s'). case_decide; [subst; rewrite Hs in Hl; by apply Hsub|]. by rewrite Hev.
Qed.

Lemma agrees_delivered s sub m q l : queue_ sub = m :: q -> agrees (Some sub) (Some l) ->
  agrees (Some (mk_subscriber q (owner_ sub) (active_ sub))) (note s (Some l) (Delivered s m)).
Proof.
  intros Hq (Ho & Hp & Ha). cbn. rewrite decide_True by done. cbn. split_and!; [done| |done].
  by rewrite Hp, Hq, <- app_assoc.
Qed.
Lemma pop_agrees s sub r sub' h : pop sub = (r, sub') -> agrees (Some sub) h ->
  agrees (Some sub') (foldl (note s) h (match r with Some m => [Delivered s m] | None => [] end)).
Proof.
  unfold pop. destruct h as [l|]; [|done].
  destruct (queue_ sub) eqn:Hq; intros; simplify_eq; [done|]. by apply agrees_delivered.
Qed.
Lemma listen_agrees s sub r sub' h : listen sub = Return r sub' -> agrees (Some sub) h ->
  agrees (Some sub') (foldl (note s) h [match r with Some m => Delivered s m | None => Ended s end]).
Proof.
  unfold listen. destruct h as [l|]; [|done].
  destruct (active_ sub) eqn:Ha; [destruct (queue_ sub) eqn:Hq|]; intros; simplify_eq; [|done].
  rewrite <- Ha. by apply agrees_delivered.
Qed.

Lemma note_elsewhere s s' h m : s' <> s ->
  note s' h (Delivered s m) = h /\ note s' h (Cancelled s) = h.
Proof. intros Hne. destruct h as [[]|]; cbn; by rewrite ?decide_False. Qed.

Lemma logged_push st tr c ch m : linked st -> channels st !! c = Some ch -> logged st tr ->
  logged (publish_push ch m st) (tr ++ [Pushed c m]).
Proof.
  intros [H1 H2] Hc Hl s. rewrite history_app, publish_push_subs. specialize (Hl s).
  destruct (subs st !! s) as [sub|] eqn:Hs, (history s tr) as [l|]; cbn in *; [|done..|by case_decide].
  destruct Hl as (Ho & Hp & Ha). destruct (H2 _ _ Hs) as (ch' & Hc' & Hin).
  case_decide as Hs'; case_decide as Hc''; cbn.
  - split_and!; [done| |done]. by rewrite Hp, app_assoc.
  - destruct (H1 _ _ _ Hc Hs') as (? & ? & ?). congruence.
  - congruence.
  - done.
Qed.

Lemma logged_step st tr ev st' : step st ev st' -> linked st -> logged st tr -> logged st' (tr ++ ev).
Proof.
  intros Hs Hl Hlog. destruct Hs; subst; rewrite ?app_nil_r; try done.
  - unfold destroy_channel in *. case_decide; [|done]. by simplify_eq.
  - intros s'. rewrite history_app. specialize (Hlog s'). cbn. rewrite lookup_insert.
    by repeat case_decide; subst.
  - unfold remove in *. case_decide; [|done]. simplify_eq. intros s'. specialize (Hlog s').
    rewrite history_app. cbn. destruct (decide (s' = s)) as [->|]; [by rewrite lookup_delete_eq|].
    by rewrite lookup_delete_ne.
  - by case_match.
  - by eapply (logged_push st).
  - unfold cancel. rewrite decide_True by done. eapply (logged_insert st); [done|..|done].
    + intros s' h Hne. by apply (note_elsewhere s s' h []).
    + intros [l|] Hag; [|done]. cbn. rewrite decide_True by done. cbn in *. tauto.
  - eapply logged_insert; [done|..|done].
    + intros s' h Hne. case_match; [|done]. by apply (note_elsewhere s s' h m).
    + intros h. by apply pop_agrees.
  - eapply (logged_insert st); [done|..|done].
    + intros s' h Hne. cbn. case_match; [|done]. by apply (note_elsewhere s s' h m).
    + intros h. by apply listen_agrees.
Qed.

Definition invariant (st : state) (tr : list event) : Prop :=
  linked st /\ threads_ok st /\ logged st tr.

Lemma reachable_invariant ts tr st : reachable ts tr st -> invariant st tr.
Proof.
  induction 1 as [|tr st ev st' _ (Hl & Ht & Hg) Hs].
  - split_and!.
    + split; cbn; intros *; by rewrite lookup_empty.
    + intros t p. cbn. rewrite lookup_gset_to_gmap_Some. by intros [_ <-].
    + intros s. cbn. by rewrite lookup_empty.
  - split_and!; eauto using linked_step, threads_ok_step, logged_step.
Qed.

(** A message that is published on a channel wakes whoever waits for it, and is returned. *)
Lemma push_wakes st c ch m t s sub : linked st -> threads_ok st -> channels st !! c = Some ch ->
  threads st !! t = Some (Waits s) -> subs st !! s = Some sub -> owner_ sub = c ->
  threads (publish_push ch m st) !! t = Some (Listening s) /\
  exists sub', subs (publish_push ch m st) !! s = Some sub' /\
               listen sub' = Return (Some m) (mk_subscriber [] c true).
Proof.
  intros [_ H2] Ht Hc Hw Hs Ho. destruct (Ht _ _ Hw) as (sub0 & Hs0 & Hq & Ha). simplify_eq.
  destruct (H2 _ _ Hs) as (ch' & Hch & Hin). simplify_eq.
  rewrite publish_push_subs, decide_True, Hs by done. split.
  - unfold publish_push. cbn [notify_all threads set_subs]. rewrite lookup_fmap, Hw. cbn [fmap option_fmap option_map].
    cbn [wake]. rewrite decide_True; [done|].
    trans (cv_of st s); [exact (same_owners_cv st (publish_push ch m st) s (same_owners_push ch m st))|].
    unfold cv_of. rewrite Hs. cbn. by rewrite Hc.
  - eexists. split; [done|]. unfold listen, push. cbn. by rewrite Hq, Ha.
Qed.

(** C32: However the threads that publish, subscribe, listen, pop and cancel interleave, each
    subscriber is delivered the messages published on its channel since it subscribed, all of
    them, once and in order: at any time they are those it was delivered followed by those in its
    queue. No thread waits while there is a message for it or after its subscription was
    cancelled, destroying a subscriber does not fail its assertion, and a message that is
    published while a thread waits wakes that thread, whose next turn returns it. *)
Theorem messages_delivered ts tr st : reachable ts tr st ->
  (forall s, agrees (subs st !! s) (history s tr)) /\
  (forall t s, threads st !! t = Some (Waits s) ->
     exists sub, subs st !! s = Some sub /\ listen sub = Sleep) /\
  (forall s sub, subs st !! s = Some sub ->
     exists ch st', channels st !! owner_ sub = Some ch /\ remove (owner_ sub) ch s st = Some st') /\
  (forall c ch m t s sub, channels st !! c = Some ch -> threads st !! t = Some (Waits s) ->
     subs st !! s = Some sub -> owner_ sub = c ->
     threads (publish_push ch m st) !! t = Some (Listening s) /\
     exists sub', subs (publish_push ch m st) !! s = Some sub' /\
                  listen sub' = Return (Some m) (mk_subscriber [] c true)).
Proof.
  intros (Hl & Ht & Hg)%reachable_invariant. split_and!; [done| | |eauto using push_wakes].
  - intros t s Hw. destruct (Ht _ _ Hw) as (sub & Hs & Hq & Ha). exists sub. unfold listen. by rewrite Ha, Hq.
  - intros s sub Hs. destruct (proj2 Hl _ _ Hs) as (ch & Hc & Hin). exists ch. eexists.
    split; [done|]. unfold remove. by rewrite decide_True.
Qed.

(** A thread subscribes, listens and falls asleep; another publishes. *)
Definition asleep : state :=
  mk_state {[1%positive := mk_channel 7 {[5%positive]}]} {[5%positive := mk_subscriber [] 1 true]}
    {[1%positive := Waits 5; 2%positive := Rendering 1]}.

Lemma asleep_reached : reachable {[1%positive; 2%positive]} [New 1 5] asleep.
Proof.
  pose proof (reach_start {[1%positive; 2%positive]}) as H.
  eapply reach_step in H; [|by apply (step_channel _ 1 7)].
  eapply reach_step in H; [|by eapply (step_new _ 1 _ 5)].
  eapply reach_step in H; [|by eapply (step_listen _ 1 5)].
  eapply reach_step in H; [|by eapply (step_sleep _ 1 5)].
  eapply reach_step in H; [|by eapply (step_publish _ 2 1)].
  exact H.
Qed.

Lemma messages_delivered_witness :
  threads (publish_push (mk_channel 7 {[5%positive]}) [104; 105] asleep) !! 1%positive = Some (Listening 5).
Proof.
  destruct (messages_delivered _ _ _ asleep_reached) as (_ & _ & _ & Hw).
  exact (proj1 (Hw 1%positive _ [104; 105] 1%positive 5%positive _ eq_refl eq_refl eq_refl eq_refl)).
Defined.
