(* ===== verification/MessageQueue.v ===== *)
(** * Queues between threads

    Models include/pstore/broker/message_queue.hpp and message_pool.hpp: the queue through which the broker's reading threads pass
    messages to the thread that runs the commands, and the pool of messages that are used again. The steps of threads interleave;
    a step is what a thread does while it holds the mutex. A thread that waits on the condition variable is woken by a
    notification or for no reason, and then needs the mutex again. *)

From S2P Require Import Prelude.

Section queue.
Context {T : Type}.

(** [queue_], the threads asleep in [cv.wait] and those that were woken there, and what was done so far *)
Record queue_state := mk_queue {
  queue_ : list T;
  asleep : gset nat;
  woken : gset nat;
  pushed : list T;
  popped : list (nat * T);
  dropped : list T }.

Definition empty_queue : queue_state := mk_queue [] ∅ ∅ [] [] [].

(** [push]: the notification, if anyone is asleep, wakes one of them. *)
Inductive notify_one : gset nat -> gset nat -> gset nat -> gset nat -> Prop :=
  | Notify_nobody w : notify_one ∅ w ∅ w
  | Notify_one t a w : t ∈ a -> notify_one a w (a ∖ {[t]}) (w ∪ {[t]}).

(** What [pop] does once it has the mutex: the predicate of [cv.wait] is tested, and the front is taken or the thread sleeps. *)
Definition pop_step (t : nat) (s : queue_state) : queue_state :=
  match queue_ s with
  | [] => mk_queue [] (asleep s ∪ {[t]}) (woken s ∖ {[t]}) (pushed s) (popped s) (dropped s)
  | m :: q => mk_queue q (asleep s) (woken s ∖ {[t]}) (pushed s) (popped s ++ [(t, m)]) (dropped s)
  end.

Inductive queue_step : queue_state -> queue_state -> Prop :=
  | Step_push s m a' w' : notify_one (asleep s) (woken s) a' w' ->
      queue_step s (mk_queue (queue_ s ++ [m]) a' w' (pushed s ++ [m]) (popped s) (dropped s))
  | Step_pop s t : t ∉ asleep s -> t ∉ woken s -> queue_step s (pop_step t s)
  | Step_wake s t : t ∈ woken s -> queue_step s (pop_step t s)
  | Step_spurious s t : t ∈ asleep s ->
      queue_step s (mk_queue (queue_ s) (asleep s ∖ {[t]}) (woken s ∪ {[t]}) (pushed s) (popped s) (dropped s))
  | Step_clear s : queue_step s (mk_queue [] (asleep s) (woken s) (pushed s) (popped s) (dropped s ++ queue_ s)).

Definition reachable (s : queue_state) : Prop := rtc queue_step empty_queue s.

(** While messages wait, enough threads are awake for them, or nobody sleeps; and nobody is both. *)
Record queue_ok (s : queue_state) : Prop := {
  qk_awake : asleep s = ∅ \/ (length (queue_ s) <= size (woken s))%nat;
  qk_disjoint : asleep s ## woken s }.

Lemma pop_step_ok t s : t ∉ asleep s -> queue_ok s -> queue_ok (pop_step t s).
Proof.
  intros Ha [Haw Hd]. unfold pop_step. destruct (queue_ s) as [|m q] eqn:E; split; cbn.
  - right. lia.
  - set_solver.
  - destruct Haw as [->|Haw]; [by left|]. cbn [length] in Haw. destruct (decide (t ∈ woken s)) as [Ht|Ht].
    + right. rewrite size_difference by set_solver. rewrite size_singleton. lia.
    + right. replace (woken s ∖ {[t]}) with (woken s) by set_solver. lia.
  - set_solver.
Qed.

Lemma queue_step_ok s s' : queue_step s s' -> queue_ok s -> queue_ok s'.
Proof.
  intros Hstep Hok. destruct Hstep as [s m a' w' Hn|s t Ha Hw|s t Ht|s t Ht|s].
  - destruct Hok as [Haw Hd]. inversion Hn as [w E1 E2|t a w Ht E1 E2]; subst; split; cbn.
    + by left.
    + set_solver.
    + right. assert (t ∉ woken s) by set_solver. rewrite length_app, size_union by set_solver. rewrite size_singleton. cbn.
      destruct Haw as [Haw|Haw]; [set_solver|lia].
    + set_solver.
  - by apply pop_step_ok.
  - apply pop_step_ok; [|done]. destruct Hok. set_solver.
  - destruct Hok as [Haw Hd]. split; cbn; [|set_solver]. destruct Haw as [Haw|Haw]; [set_solver|]. right.
    rewrite size_union by set_solver. rewrite size_singleton. lia.
  - destruct Hok as [Haw Hd]. split; cbn; [right; lia|done].
Qed.

Lemma queue_invariant (P : queue_state -> Prop) : P empty_queue -> (forall s s', queue_step s s' -> P s -> P s') ->
  forall s, reachable s -> P s.
Proof.
  intros H0 Hstep s Hr. unfold reachable in Hr. revert H0. induction Hr as [x|x y z Hxy _ IH]; intros Hx; [exact Hx|].
  apply IH. by eapply Hstep.
Qed.

Lemma reachable_ok s : reachable s -> queue_ok s.
Proof.
  revert s. refine (queue_invariant _ _ _); [split; [by left|set_solver]|exact queue_step_ok].
Qed.

(** No notification is lost: when there are messages and threads that want one, a step of a thread that is awake takes the first of
    them. *)
Lemma queue_progress s m q : reachable s -> queue_ s = m :: q -> asleep s ∪ woken s <> ∅ ->
  exists t s', t ∈ woken s /\ queue_step s s' /\ popped s' = popped s ++ [(t, m)] /\ queue_ s' = q.
Proof.
  intros Hr Hq Hne. destruct (reachable_ok s Hr) as [Haw _].
  assert (woken s <> ∅) as Hw.
  { destruct Haw as [E|Hle]; [set_solver|]. intros E. rewrite E, Hq, size_empty in Hle. cbn in Hle. lia. }
  apply set_choose_L in Hw as [t Ht]. exists t, (pop_step t s). split; [done|]. split; [by constructor|]. unfold pop_step. by rewrite Hq.
Qed.

(** Messages are neither lost nor doubled: each is delivered to one thread, dropped by a clear or still there. *)
Lemma queue_messages s : reachable s -> pushed s ≡ₚ (snd <$> popped s) ++ dropped s ++ queue_ s.
Proof.
  revert s. refine (queue_invariant _ _ _); [reflexivity|]. intros s s' Hxy H0.
  assert (forall t, pushed (pop_step t s) ≡ₚ (snd <$> popped (pop_step t s)) ++ dropped (pop_step t s) ++ queue_ (pop_step t s)) as Hpop.
  { intros t. unfold pop_step. destruct (queue_ s) as [|m q] eqn:Eq; cbn; [by rewrite H0|].
    rewrite H0, fmap_app. cbn. rewrite <- app_assoc. apply Permutation_app_head. cbn. by rewrite <- Permutation_middle. }
  destruct Hxy as [s m a' w' Hn|s t Ha Hw|s t Ht|s t Ht|s]; cbn; [| apply Hpop | apply Hpop | exact H0 |].
  - by rewrite H0, <- !app_assoc.
  - by rewrite H0, app_nil_r.
Qed.

(** Without [clear] the delivered messages are in the order in which they were pushed. *)
Lemma queue_fifo s : reachable s -> dropped s = [] -> pushed s = (snd <$> popped s) ++ queue_ s.
Proof.
  revert s. refine (queue_invariant _ _ _); [done|]. intros s s' Hxy H0.
  assert (forall t, dropped (pop_step t s) = [] ->
            pushed (pop_step t s) = (snd <$> popped (pop_step t s)) ++ queue_ (pop_step t s)) as Hpop.
  { intros t. unfold pop_step. destruct (queue_ s) as [|m q] eqn:Eq; cbn; intros Hd; rewrite (H0 Hd); [done|].
    by rewrite fmap_app, <- app_assoc. }
  destruct Hxy as [s m a' w' Hn|s t Ha Hw|s t Ht|s t Ht|s]; cbn; [| apply Hpop | apply Hpop | exact H0 |].
  - intros Hd. by rewrite (H0 Hd), <- app_assoc.
  - intros [Hd Hq]%app_eq_nil. by rewrite (H0 Hd), Hq.
Qed.
End queue.

(** ** The pool *)

(** [message_pool]: pointers to messages, and how many were allocated *)
Record message_pool := mk_pool { pool_ : list nat; allocated : nat }.

(** A null pointer is [None]. *)
Definition return_to_pool (ptr : option nat) (p : message_pool) : outcome message_pool :=
  match ptr with
  | None => Throw Assert
  | Some m => Ok (mk_pool (pool_ p ++ [m]) (allocated p))
  end.
Definition get_from_pool (p : message_pool) : nat * message_pool :=
  match pool_ p with
  | [] => (allocated p, mk_pool [] (S (allocated p)))
  | m :: q => (m, mk_pool q (allocated p))
  end.

(** A message is in the pool or in use, never both; [used] are the ones in use. *)
Definition pool_ok (used : list nat) (p : message_pool) : Prop := NoDup (used ++ pool_ p) /\ Forall (fun m => (m < allocated p)%nat) (used ++ pool_ p).

Lemma get_from_pool_ok used p : pool_ok used p -> let '(m, p') := get_from_pool p in m ∉ used /\ pool_ok (m :: used) p'.
Proof.
  intros [Hn Hf]. unfold get_from_pool, pool_ok. destruct (pool_ p) as [|m q] eqn:E; cbn.
  - rewrite app_nil_r in Hn, Hf. rewrite ?app_nil_r. assert (allocated p ∉ used) as Hm.
    { intros Hin. rewrite Forall_forall in Hf. specialize (Hf _ Hin). cbn in Hf. lia. }
    split; [done|]. split; [by constructor|]. constructor; [lia|]. eapply Forall_impl; [exact Hf|]. cbn. lia.
  - rewrite <- Permutation_middle in Hn, Hf. split; [|by split]. apply NoDup_cons in Hn as [Hn _]. by apply not_elem_of_app in Hn as [? _].
Qed.

Lemma return_to_pool_ok used p m : pool_ok (m :: used) p -> exists p', return_to_pool (Some m) p = Ok p' /\ pool_ok used p'.
Proof.
  intros [Hn Hf]. eexists. split; [done|]. unfold pool_ok. cbn. rewrite app_assoc, Permutation_app_comm. by split.
Qed.
