(* ===== verification/IntrusiveList.v ===== *)
(** * Intrusive lists

    Models include/pstore/broker/intrusive_list.hpp, the doubly linked list on which the broker
    keeps the reads that are in progress: the links are members of the elements, the list has two
    elements of its own as sentinels and does not own the others. Elements are addresses in a
    heap of links; following a null pointer or the address of no element is undefined. *)

From S2P Require Import Prelude.

(** [list_member] *)
Record list_member := mk_member { prev : option positive; next : option positive }.
Abbreviation heap := (gmap positive list_member).

#[global] Instance list_member_eq_dec : EqDecision list_member.
Proof. solve_decision. Defined.

(** [intrusive_list] *)
Record intrusive_list := mk_list { head_ : positive; tail_ : positive }.

(** [p->get_list_member ()] *)
Definition get_list_member (p : option positive) : M heap list_member :=
  h <- get ;;
  match p with
  | Some a => match h !! a with Some m => ret m | None => throw Dangling end
  | None => throw Dangling
  end.
Definition set_prev (p : option positive) (v : option positive) : M heap unit :=
  m <- get_list_member p ;;
  match p with Some a => modify (insert a (mk_member v (next m))) | None => throw Dangling end.
Definition set_next (p : option positive) (v : option positive) : M heap unit :=
  m <- get_list_member p ;;
  match p with Some a => modify (insert a (mk_member (prev m) v)) | None => throw Dangling end.

(** The constructor, with the addresses of its two new elements *)
Definition new_list (head tail : positive) : M heap intrusive_list :=
  modify (insert head (mk_member None None)) ;;;
  modify (insert tail (mk_member None None)) ;;;
  set_next (Some head) (Some tail) ;;;
  set_prev (Some tail) (Some head) ;;;
  ret (mk_list head tail).

(** [begin] and [end]; [++] and [--] on iterators *)
Definition begin (L : intrusive_list) : M heap (option positive) :=
  m <- get_list_member (Some (head_ L)) ;; ret (next m).
Definition end_ (L : intrusive_list) : option positive := Some (tail_ L).
Definition incr (it : option positive) : M heap (option positive) := m <- get_list_member it ;; ret (next m).
Definition decr (it : option positive) : M heap (option positive) := m <- get_list_member it ;; ret (prev m).

(** [std::distance (first, last)]; a range-based [for] over the elements visits them the same way. *)
Fixpoint walk (fuel : nat) (first last : option positive) : M heap (list positive) :=
  match fuel with
  | O => throw OutOfFuel
  | S fuel =>
      if bool_decide (first = last) then ret []
      else
        match first with
        | None => throw Dangling
        | Some a => it <- incr first ;; l <- walk fuel it last ;; ret (a :: l)
        end
  end.
Definition elements (fuel : nat) (L : intrusive_list) : M heap (list positive) :=
  first <- begin L ;; walk fuel first (end_ L).
Definition size (fuel : nat) (L : intrusive_list) : M heap nat :=
  l <- elements fuel L ;; ret (length l).

(** [check] *)
Fixpoint check_loop (fuel : nat) (prev_ p : option positive) : M heap (option positive) :=
  match fuel with
  | O => throw OutOfFuel
  | S fuel =>
      match p with
      | None => ret prev_
      | Some _ =>
          m <- get_list_member p ;;
          massert (bool_decide (prev m = prev_)) ;;;
          check_loop fuel p (next m)
      end
  end.
Definition check (fuel : nat) (L : intrusive_list) : M heap unit :=
  m <- get_list_member (Some (head_ L)) ;;
  massert (bool_decide (prev m = None)) ;;;
  last <- check_loop fuel None (Some (head_ L)) ;;
  massert (bool_decide (last = Some (tail_ L))).

(** [insert_before] *)
Definition insert_before (fuel : nat) (L : intrusive_list) (element before : positive) : M heap unit :=
  b <- get_list_member (Some before) ;;
  set_prev (Some element) (prev b) ;;;
  b <- get_list_member (Some before) ;;
  set_next (prev b) (Some element) ;;;
  set_prev (Some before) (Some element) ;;;
  set_next (Some element) (Some before) ;;;
  e <- get_list_member (Some element) ;;
  n <- get_list_member (next e) ;;
  massert (bool_decide (prev n = Some element)) ;;;
  p <- get_list_member (prev e) ;;
  massert (bool_decide (next p = Some element)) ;;;
  check fuel L.

(** [erase] *)
Definition erase (element : positive) : M heap unit :=
  links <- get_list_member (Some element) ;;
  (match prev links with Some _ => set_next (prev links) (next links) | None => ret tt end) ;;;
  links <- get_list_member (Some element) ;;
  (match next links with Some _ => set_prev (next links) (prev links) | None => ret tt end).

(** ** Segments of a list *)

Definition first_of (l : list positive) (d : option positive) : option positive :=
  match l with [] => d | x :: _ => Some x end.
Definition last_of (d : option positive) (l : list positive) : option positive :=
  match list.last l with None => d | Some x => Some x end.

(** The elements of [l] are linked, from [p], which precedes them, to [n], which follows. *)
Fixpoint seg (h : heap) (p : option positive) (l : list positive) (n : option positive) : Prop :=
  match l with
  | [] => True
  | x :: l => h !! x = Some (mk_member p (first_of l n)) /\ seg h (Some x) l n
  end.

(** A list that holds the elements [l] *)
Definition nodes (L : intrusive_list) (l : list positive) : list positive := head_ L :: l ++ [tail_ L].
Definition holds_list (h : heap) (L : intrusive_list) (l : list positive) : Prop :=
  NoDup (nodes L l) /\ seg h None (nodes L l) None.

Lemma first_of_app l1 l2 d : first_of (l1 ++ l2) d = first_of l1 (first_of l2 d).
Proof. by destruct l1. Qed.
Lemma last_of_cons d x l : last_of d (x :: l) = last_of (Some x) l.
Proof. unfold last_of. destruct l as [|y l]; [done|]. rewrite last_cons_cons. by destruct (list.last (y :: l)) eqn:E; [|apply last_None in E]. Qed.
Lemma last_of_snoc d l x : last_of d (l ++ [x]) = Some x.
Proof. unfold last_of. by rewrite last_snoc. Qed.

Lemma seg_app h p l1 l2 n :
  seg h p (l1 ++ l2) n <-> seg h p l1 (first_of l2 n) /\ seg h (last_of p l1) l2 n.
Proof.
  revert p. induction l1 as [|x l1 IH]; intros p; cbn [app seg].
  - cbn. tauto.
  - rewrite IH, first_of_app, last_of_cons. tauto.
Qed.

Lemma seg_frame h p l n a m : a ∉ l -> seg h p l n -> seg (<[a := m]> h) p l n.
Proof.
  revert p. induction l as [|x l IH]; intros p Ha; [done|]. cbn [seg]. intros [Hx Hl].
  apply not_elem_of_cons in Ha as [Hne Ha]. split; [by rewrite lookup_insert_ne|by apply IH].
Qed.

(** What follows the end of a segment, or precedes its start, changes with one link. *)
Lemma seg_set_last h p l x n m n' : x ∉ l -> seg h p (l ++ [x]) n -> h !! x = Some m ->
  seg (<[x := mk_member (prev m) n']> h) p (l ++ [x]) n'.
Proof.
  intros Hx [Hl [Hs _]]%seg_app Hm. cbn in Hs. simplify_eq. apply seg_app. split.
  - by apply seg_frame.
  - cbn. by rewrite lookup_insert_eq.
Qed.
Lemma seg_set_first h p x l n m p' : x ∉ l -> seg h p (x :: l) n -> h !! x = Some m ->
  seg (<[x := mk_member p' (next m)]> h) p' (x :: l) n.
Proof.
  intros Hx [Hs Hl] Hm. simplify_eq. cbn [seg]. rewrite lookup_insert_eq. split; [done|]. by apply seg_frame.
Qed.

(** ** The operations on members *)

Lemma get_member_ok h a m Q : h !! a = Some m -> Q m h -> wp (get_list_member (Some a)) Q h.
Proof. intros Ha HQ. unfold get_list_member, wp, bind, get. by rewrite Ha. Qed.
Lemma set_prev_ok h a m v (Q : unit -> heap -> Prop) :
  h !! a = Some m -> Q tt (<[a := mk_member v (next m)]> h) -> wp (set_prev (Some a) v) Q h.
Proof. intros Ha HQ. unfold set_prev. wp_head. eapply get_member_ok; [done|]. by wp_head. Qed.
Lemma set_next_ok h a m v (Q : unit -> heap -> Prop) :
  h !! a = Some m -> Q tt (<[a := mk_member (prev m) v]> h) -> wp (set_next (Some a) v) Q h.
Proof. intros Ha HQ. unfold set_next. wp_head. eapply get_member_ok; [done|]. by wp_head. Qed.

Lemma check_loop_ok h p l fuel : seg h p l None -> (length l < fuel)%nat ->
  wp (check_loop fuel p (first_of l None)) (fun r h' => r = last_of p l /\ h' = h) h.
Proof.
  revert p fuel. induction l as [|x l IH]; intros p fuel Hs Hf.
  - destruct fuel; [cbn in Hf; lia|]. cbn [check_loop first_of]. by wp_head.
  - destruct fuel as [|fuel]; [cbn in Hf; lia|]. destruct Hs as [Hx Hs]. cbn [check_loop first_of]. wp_head.
    eapply get_member_ok; [done|]. cbn [prev next]. wp_head. wp_head; [by apply bool_decide_eq_true|].
    rewrite last_of_cons. apply IH; [done|]. cbn in Hf. lia.
Qed.

Lemma check_ok h L l fuel : holds_list h L l -> (length l + 2 < fuel)%nat ->
  wp (check fuel L) (fun _ h' => h' = h) h.
Proof.
  intros [_ Hs] Hf. unfold check. wp_head. eapply get_member_ok; [apply Hs|]. cbn [prev].
  wp_head. wp_head; [done|]. wp_head.
  eapply wp_mono; [apply (check_loop_ok h None (nodes L l)); [done|cbn; rewrite length_app; cbn; lia]|].
  cbn beta. intros r h' [-> ->]. wp_head; [|done]. apply bool_decide_eq_true. unfold nodes.
  by rewrite app_comm_cons, last_of_snoc.
Qed.

Lemma walk_ok h p l n fuel : n ∉ l -> seg h p l (Some n) -> (length l < fuel)%nat ->
  wp (walk fuel (first_of l (Some n)) (Some n)) (fun r h' => r = l /\ h' = h) h.
Proof.
  revert p fuel. induction l as [|x l IH]; intros p fuel Hn Hs Hf.
  - destruct fuel; [cbn in Hf; lia|]. cbn [walk first_of]. rewrite bool_decide_eq_true_2 by done. by wp_head.
  - destruct fuel as [|fuel]; [cbn in Hf; lia|]. destruct Hs as [Hx Hs]. apply not_elem_of_cons in Hn as [Hne Hn].
    cbn [walk first_of]. rewrite bool_decide_eq_false_2 by congruence. wp_head. unfold incr. wp_head.
    eapply get_member_ok; [done|]. wp_head. cbn [next]. wp_head.
    eapply wp_mono; [by apply (IH (Some x)); [| |cbn in Hf; lia]|]. cbn beta. intros r h' [-> ->]. by wp_head.
Qed.

(** ** What the operations do to a list *)

Lemma new_list_ok h head tail : head <> tail ->
  wp (new_list head tail) (fun L h' => L = mk_list head tail /\ holds_list h' L [] /\
        forall a, a <> head -> a <> tail -> h' !! a = h !! a) h.
Proof.
  intros Hne. unfold new_list. wp_head. wp_head. wp_head. wp_head. wp_head.
  eapply set_next_ok; [rewrite lookup_insert_ne by done; apply lookup_insert_eq|]. cbn [prev].
  wp_head. eapply set_prev_ok; [rewrite lookup_insert_ne by done; apply lookup_insert_eq|]. cbn [next].
  wp_head. split_and!; [done| |].
  - split; cbn [nodes head_ tail_ app]; [apply NoDup_cons; split; [set_solver|apply NoDup_singleton]|].
    cbn. rewrite lookup_insert_ne, lookup_insert_eq, lookup_insert_eq by done. done.
  - intros a H1 H2. by rewrite !lookup_insert_ne.
Qed.

Lemma elements_ok h L l fuel : holds_list h L l -> (length l < fuel)%nat ->
  wp (elements fuel L) (fun r h' => r = l /\ h' = h) h.
Proof.
  intros [Hnd Hs] Hf. unfold elements, begin, end_. wp_head. wp_head. eapply get_member_ok; [apply Hs|].
  wp_head. cbn [next]. destruct Hs as [_ Hs]. apply seg_app in Hs as [Hs _]. cbn in Hs.
  rewrite first_of_app. eapply walk_ok; [|done|done].
  unfold nodes in Hnd. apply NoDup_cons in Hnd as [_ Hnd]. apply NoDup_app in Hnd as (_ & Hd & _). set_solver.
Qed.

Lemma size_ok h L l fuel : holds_list h L l -> (length l < fuel)%nat ->
  wp (size fuel L) (fun r h' => r = length l /\ h' = h) h.
Proof.
  intros Hl Hf. unfold size. wp_head. eapply wp_mono; [by apply elements_ok|].
  cbn beta. intros r h' [-> ->]. by wp_head.
Qed.

(** An element of a list, or its end, has a node before it. *)
Lemma nodes_split L l1 l2 : exists q ns, head_ L :: l1 = ns ++ [q] /\
  forall e, nodes L (l1 ++ e ++ l2) = ns ++ q :: e ++ l2 ++ [tail_ L].
Proof.
  destruct (exists_last (l := head_ L :: l1)) as (ns & q & E); [done|]. exists q, ns. split; [done|].
  intros e. unfold nodes. rewrite <- !app_assoc, app_comm_cons, E, <- app_assoc. done.
Qed.

(** The element [e] gets between [q] and what follows it. *)
Lemma insert_before_ok h L l1 l2 before e m fuel :
  holds_list h L (l1 ++ l2) -> first_of l2 (Some (tail_ L)) = Some before ->
  e ∉ nodes L (l1 ++ l2) -> h !! e = Some m -> (length (l1 ++ l2) + 3 < fuel)%nat ->
  wp (insert_before fuel L e before) (fun _ h' => holds_list h' L (l1 ++ e :: l2) /\
        forall a, a ∉ nodes L (l1 ++ e :: l2) -> h' !! a = h !! a) h.
Proof.
  intros [Hnd Hs] Hb He Hm Hf. destruct (nodes_split L l1 l2) as (q & ns & Eq & Hn).
  pose proof (Hn []) as Hn0. pose proof (Hn [e]) as Hn1. cbn [app] in Hn0, Hn1.
  unfold holds_list in *. rewrite Hn0 in Hnd, Hs, He. rewrite Hn1.
  assert (exists tl, l2 ++ [tail_ L] = before :: tl) as [tl Etl].
  { destruct l2; cbn in Hb; simplify_eq; cbn; eauto. }
  rewrite Etl in *. clear Hn0 Hb.
  apply seg_app in Hs as [Hs1 Hs2]. cbn [first_of] in Hs1. destruct Hs2 as [Hq [Hbf Htl]]. cbn [first_of] in Hq.
  assert (e <> q /\ e <> before /\ e ∉ ns /\ e ∉ tl) as (He1 & He2 & He3 & He4) by set_solver.
  apply NoDup_app in Hnd as (Hnd1 & Hd & Hnd2). apply NoDup_cons in Hnd2 as [Hq2 Hnd2].
  apply NoDup_cons in Hnd2 as [Hb2 Hnd3].
  assert (q <> before /\ q ∉ ns /\ before ∉ ns /\ q ∉ tl) as (Hqb & Hqn & Hbn & Hqt) by set_solver.
  unfold insert_before. wp_head. eapply get_member_ok; [done|]. cbn [prev]. wp_head.
  eapply set_prev_ok; [done|]. wp_head. eapply get_member_ok; [by rewrite lookup_insert_ne|]. cbn [prev]. wp_head.
  eapply set_next_ok; [by rewrite lookup_insert_ne|]. cbn [prev]. wp_head.
  eapply set_prev_ok; [by rewrite !lookup_insert_ne by done|]. cbn [next]. wp_head.
  eapply set_next_ok; [rewrite !lookup_insert_ne by done; apply lookup_insert_eq|]. cbn [prev]. wp_head.
  eapply get_member_ok; [apply lookup_insert_eq|]. cbn [next prev]. wp_head.
  eapply get_member_ok; [rewrite lookup_insert_ne by done; apply lookup_insert_eq|]. cbn [prev].
  wp_head. wp_head; [by apply bool_decide_eq_true|]. wp_head.
  eapply get_member_ok; [rewrite !lookup_insert_ne by done; apply lookup_insert_eq|]. cbn [next].
  wp_head. wp_head; [by apply bool_decide_eq_true|].
  set (h' := <[e := _]> _).
  assert (NoDup (ns ++ q :: e :: before :: tl) /\ seg h' None (ns ++ q :: e :: before :: tl) None) as Hl.
  { split.
    - apply NoDup_app. split_and!; [done|set_solver|]. rewrite !NoDup_cons. set_solver.
    - apply seg_app. split; [by do 4 (apply seg_frame; [done|])|]. cbn [seg first_of].
      subst h'. rewrite (lookup_insert_ne _ e q), (lookup_insert_ne _ before q), lookup_insert_eq by done.
      rewrite lookup_insert_eq, (lookup_insert_ne _ e before), lookup_insert_eq by done. split_and!; [done..|].
      by do 4 (apply seg_frame; [done|]). }
  eapply wp_mono; [apply (check_ok h' L (l1 ++ e :: l2))|].
  - split; unfold holds_list; rewrite Hn1; apply Hl.
  - rewrite length_app in *. cbn [length]. lia.
  - cbn beta. intros _ h2 ->. split; [exact Hl|]. intros a Ha.
    subst h'. rewrite !lookup_insert_ne by set_solver. done.
Qed.

(** What is left is the list without the element; the links of the element itself remain. *)
Lemma erase_ok h L l1 l2 e : holds_list h L (l1 ++ e :: l2) ->
  wp (erase e) (fun _ h' => holds_list h' L (l1 ++ l2) /\ h' !! e = h !! e /\
        forall a, a ∉ nodes L (l1 ++ l2) -> h' !! a = h !! a) h.
Proof.
  intros [Hnd Hs]. destruct (nodes_split L l1 l2) as (q & ns & Eq & Hn).
  pose proof (Hn []) as Hn0. pose proof (Hn [e]) as Hn1. cbn [app] in Hn0, Hn1.
  unfold holds_list in *. rewrite Hn1 in Hnd, Hs. rewrite Hn0.
  assert (exists b tl, l2 ++ [tail_ L] = b :: tl) as (b & tl & Etl) by (destruct l2; cbn; eauto).
  rewrite Etl in *.
  apply seg_app in Hs as [Hs1 Hs2]. cbn [first_of] in Hs1. destruct Hs2 as [Hq [He [Hb Htl]]]. cbn [first_of] in *.
  apply NoDup_app in Hnd as (Hnd1 & Hd & Hnd2). apply NoDup_cons in Hnd2 as [Hq2 Hnd2].
  apply NoDup_cons in Hnd2 as [He2 Hnd3]. apply NoDup_cons in Hnd3 as [Hb2 Hnd4].
  assert (q <> b /\ q <> e /\ b <> e /\ q ∉ ns /\ b ∉ ns /\ q ∉ tl) as (Hqb & Hqe & Hbe & Hqn & Hbn & Hqt) by set_solver.
  unfold erase. wp_head. eapply get_member_ok; [done|]. cbn [prev next]. wp_head.
  eapply set_next_ok; [done|]. cbn [prev]. wp_head.
  eapply get_member_ok; [by rewrite lookup_insert_ne|]. cbn [prev next].
  eapply set_prev_ok; [by rewrite lookup_insert_ne|]. cbn [next]. split_and!.
  - apply NoDup_app. split_and!; [done|set_solver|]. rewrite !NoDup_cons. set_solver.
  - apply seg_app. split; [by do 2 (apply seg_frame; [done|])|]. cbn [seg first_of].
    rewrite (lookup_insert_ne _ b q), lookup_insert_eq, lookup_insert_eq by done. split_and!; [done..|].
    by do 2 (apply seg_frame; [done|]).
  - by rewrite !lookup_insert_ne by done.
  - intros a Ha. by rewrite !lookup_insert_ne by set_solver.
Qed.
