(* ===== verification/Json.v ===== *)
(** * The JSON parser

    Models include/pstore/json/json.hpp: a parser that is fed its input in pieces. It keeps a
    stack of matchers, one for each production that is being recognised, passes every character
    to the topmost of them and reports what it finds through callbacks. Here the callbacks
    record the calls that are made of them. A [char] is the octet that represents it; a [double]
    is the number of SpecFloat that IEEE 754 gives it. *)

From Stdlib Require Import SpecFloat.
From S2P Require Import Prelude Utf.

(** [json::error_code] *)
Inductive error_code :=
  | none
  | expected_array_member
  | expected_close_quote
  | expected_colon
  | expected_digits
  | expected_string
  | number_out_of_range
  | expected_object_member
  | expected_token
  | invalid_escape_char
  | invalid_hex_char
  | unrecognized_token
  | unexpected_extra_input
  | bad_unicode_code_point
  | nesting_too_deep.

#[global] Instance json_error_eq_dec : EqDecision error_code.
Proof. solve_decision. Defined.

(** ** Double precision *)

Definition double : Type := spec_float.
Definition prec : Z := 53.
Definition emax : Z := 1024.

Definition of_int (z : Z) : double := binary_normalize prec emax z 0 false.
Definition isinf (x : double) : bool := match x with S754_infinity _ => true | _ => false end.
Definition isnan (x : double) : bool := match x with S754_nan => true | _ => false end.

#[global] Instance double_eq_dec : EqDecision spec_float.
Proof. solve_decision. Defined.

(** The calls of [Callbacks] *)
Inductive event :=
  | string_value (s : list Z)
  | integer_value (v : Z)
  | float_value (v : double)
  | boolean_value (b : bool)
  | null_value
  | begin_array
  | end_array
  | begin_object
  | end_object.

#[global] Instance event_eq_dec : EqDecision event.
Proof. solve_decision. Defined.

(** ** The matchers *)

(** [char_set] and [isspace] *)
Definition tab : Z := 9.
Definition lf : Z := 10.
Definition cr : Z := 13.
Definition space : Z := 32.
Definition isspace (c : Z) : bool := (c =? tab) || (c =? lf) || (c =? cr) || (c =? space).

Definition isdigit (c : Z) : bool := (48 <=? c) && (c <=? 57).

(** [token_matcher]: [text_] is what is left of the keyword, [done_] the call that
    [DoneFunction] makes. *)
Inductive token_state := token_done | token_start | token_last.
Record token_matcher := mk_token { token_state_ : token_state; text_ : list Z; done_ : event }.

(** [number_matcher], the members of [fp_acc_] among its own *)
Inductive number_state :=
  | number_done
  | leading_minus_state
  | integer_initial_digit_state
  | integer_digit_state
  | frac_state
  | frac_initial_digit_state
  | frac_digit_state
  | exponent_sign_state
  | exponent_initial_digit_state
  | exponent_digit_state.
Record number_matcher := mk_number {
  number_state_ : number_state;
  is_neg_ : bool;
  is_integer_ : bool;
  int_acc_ : Z;
  frac_part : double;
  frac_scale : double;
  whole_part : double;
  exp_is_negative : bool;
  exponent : Z
}.

(** [string_matcher] and its [appender] *)
Inductive string_state :=
  | string_done
  | string_start
  | normal_char_state
  | escape_state
  | hex1_state
  | hex2_state
  | hex3_state
  | hex4_state.
Record appender := mk_appender { result_ : list Z; high_surrogate_ : Z }.
Record string_matcher := mk_string {
  string_state_ : string_state;
  decoder_ : utf8_decoder;
  app_ : appender;
  hex_ : Z
}.

Inductive array_state := array_done | array_start | first_object_state | object_state | array_comma_state.
Record array_matcher := mk_array { array_state_ : array_state }.

Inductive object_matcher_state :=
  | object_done
  | object_start
  | first_key_state
  | key_state
  | colon_state
  | value_state
  | object_comma_state.
Record object_matcher := mk_object { object_state_ : object_matcher_state }.

(** [whitespace_matcher]; [trailing] tells the one that lives in [singletons_->trailing_ws] from
    those in [singletons_->terminal]. *)
Inductive whitespace_state := whitespace_done | whitespace_start | crlf_state.
Record whitespace_matcher := mk_whitespace { whitespace_state_ : whitespace_state; trailing : bool }.

Inductive eof_state := eof_done | eof_start.
Record eof_matcher := mk_eof { eof_state_ : eof_state }.

Inductive root_state := root_done | root_start | new_token_state.
Record root_matcher := mk_root { root_state_ : root_state; only_string_ : bool }.

(** What the stack holds *)
Inductive matcher :=
  | m_token (m : token_matcher)
  | m_number (m : number_matcher)
  | m_string (m : string_matcher)
  | m_array (m : array_matcher)
  | m_object (m : object_matcher)
  | m_whitespace (m : whitespace_matcher)
  | m_eof (m : eof_matcher)
  | m_root (m : root_matcher).

(** The base class [matcher]: the state and what is done with it *)
Class MatcherState (X St : Type) := {
  get_state : X -> St;
  with_state : St -> X -> X;
  done_state : St
}.
#[global] Instance token_matcher_state : MatcherState token_matcher token_state :=
  {| get_state := token_state_; with_state s m := mk_token s (text_ m) (done_ m); done_state := token_done |}.
#[global] Instance number_matcher_state : MatcherState number_matcher number_state :=
  {| get_state := number_state_;
     with_state s n := mk_number s (is_neg_ n) (is_integer_ n) (int_acc_ n) (frac_part n) (frac_scale n)
                         (whole_part n) (exp_is_negative n) (exponent n);
     done_state := number_done |}.
#[global] Instance string_matcher_state : MatcherState string_matcher string_state :=
  {| get_state := string_state_; with_state s m := mk_string s (decoder_ m) (app_ m) (hex_ m);
     done_state := string_done |}.
#[global] Instance array_matcher_state : MatcherState array_matcher array_state :=
  {| get_state := array_state_; with_state s _ := mk_array s; done_state := array_done |}.
#[global] Instance object_matcher_has_state : MatcherState object_matcher object_matcher_state :=
  {| get_state := object_state_; with_state s _ := mk_object s; done_state := object_done |}.
#[global] Instance whitespace_matcher_state : MatcherState whitespace_matcher whitespace_state :=
  {| get_state := whitespace_state_; with_state s m := mk_whitespace s (trailing m); done_state := whitespace_done |}.
#[global] Instance eof_matcher_state : MatcherState eof_matcher eof_state :=
  {| get_state := eof_state_; with_state s _ := mk_eof s; done_state := eof_done |}.
#[global] Instance root_matcher_state : MatcherState root_matcher root_state :=
  {| get_state := root_state_; with_state s m := mk_root s (only_string_ m); done_state := root_done |}.

#[global] Instance number_state_eq_dec : EqDecision number_state.
Proof. solve_decision. Defined.
#[global] Instance string_state_eq_dec : EqDecision string_state.
Proof. solve_decision. Defined.

(** [matcher::is_done] *)
Definition is_done (m : matcher) : bool :=
  match m with
  | m_token m => match token_state_ m with token_done => true | _ => false end
  | m_number m => match number_state_ m with number_done => true | _ => false end
  | m_string m => match string_state_ m with string_done => true | _ => false end
  | m_array m => match array_state_ m with array_done => true | _ => false end
  | m_object m => match object_state_ m with object_done => true | _ => false end
  | m_whitespace m => match whitespace_state_ m with whitespace_done => true | _ => false end
  | m_eof m => match eof_state_ m with eof_done => true | _ => false end
  | m_root m => match root_state_ m with root_done => true | _ => false end
  end.

(** ** The parser *)

(** [parser]: the stack (its top first), the error, the calls made so far, and the column and
    the row *)
Record parser := mk_parser {
  stack_ : list matcher;
  error_ : error_code;
  callbacks_ : list event;
  coordinate_ : Z * Z
}.

Definition max_stack_depth_ : nat := 200.

Definition is_none (e : error_code) : bool := match e with none => true | _ => false end.
Definition has_error (p : parser) : bool := negb (is_none (error_ p)).

Definition with_stack (s : list matcher) (p : parser) : parser := mk_parser s (error_ p) (callbacks_ p) (coordinate_ p).
Definition with_error (e : error_code) (p : parser) : parser := mk_parser (stack_ p) e (callbacks_ p) (coordinate_ p).
Definition call (e : event) (p : parser) : parser :=
  mk_parser (stack_ p) (error_ p) (callbacks_ p ++ [e]) (coordinate_ p).

(** [advance_column], [advance_row] and [reset_column] *)
Definition advance_column (p : parser) : parser :=
  mk_parser (stack_ p) (error_ p) (callbacks_ p) (wrap32 ((coordinate_ p).1 + 1), (coordinate_ p).2).
Definition advance_row (p : parser) : parser :=
  mk_parser (stack_ p) (error_ p) (callbacks_ p) (0, wrap32 ((coordinate_ p).2 + 1)).
Definition reset_column (p : parser) : parser :=
  mk_parser (stack_ p) (error_ p) (callbacks_ p) (0, (coordinate_ p).2).

(** [parser::set_error] *)
Definition parser_set_error (err : error_code) : M parser unit :=
  e <- gets error_ ;;
  massert (is_none e || negb (is_none err)) ;;;
  modify (with_error err).

(** A member function of a matcher [X] changes the matcher and the parser. *)
Definition on_parser {X A} (m : M parser A) : M (X * parser) A :=
  fun '(x, p) => let '(r, p) := m p in (r, (x, p)).
Definition this {X A} (f : X -> A) : M (X * parser) A := gets (fun s => f s.1).
Definition update {X} (f : X -> X) : M (X * parser) unit := modify (fun s => (f s.1, s.2)).
Definition callback {X} (e : event) : M (X * parser) unit := on_parser (modify (call e)).
Definition set_state {X St} `{MatcherState X St} (s : St) : M (X * parser) unit := update (with_state s).

(** [matcher::set_error] *)
Definition set_error {X St} `{MatcherState X St} (err : error_code) : M (X * parser) unit :=
  on_parser (parser_set_error err) ;;;
  if is_none err then ret tt else set_state done_state.

(** The matchers that a parser keeps in storage of its own: at most one object at a time may be
    alive in each. *)
Definition in_root (m : matcher) : bool := match m with m_root _ => true | _ => false end.
Definition in_terminal (m : matcher) : bool :=
  match m with
  | m_token _ | m_number _ | m_string _ => true
  | m_whitespace m => negb (trailing m)
  | _ => false
  end.

(** [make_root_matcher], [make_terminal_matcher] and [make_whitespace_matcher]; to construct an
    object over a living one is an error of the model's. *)
Definition make_root_matcher (only_string : bool) : M parser matcher :=
  st <- gets stack_ ;;
  if existsb in_root st then throw Dangling else ret (m_root (mk_root root_start only_string)).
Definition make_terminal_matcher (m : matcher) : M parser matcher :=
  st <- gets stack_ ;;
  if existsb in_terminal st then throw Dangling else ret m.
Definition make_whitespace_matcher : M parser matcher :=
  make_terminal_matcher (m_whitespace (mk_whitespace whitespace_start false)).

(** What [consume] returns: the matcher to be pushed, and whether the character is matched *)
Definition consumed : Type := option matcher * bool.

(** *** Tokens *)

(** [std::isalnum] in the C locale; its argument must be a value of [unsigned char], which a
    [char] outside ASCII is not where [char] is signed. *)
Definition isalnum (c : Z) : outcome bool :=
  if c <? 128 then Ok (isdigit c || ((65 <=? c) && (c <=? 90)) || ((97 <=? c) && (c <=? 122)))
  else Throw Undefined.

(** [token_matcher::consume] *)
Definition token_consume (ch : option Z) : M (token_matcher * parser) consumed :=
  st <- this get_state ;;
  match st with
  | token_start =>
      text <- this text_ ;;
      (if bool_decide (ch <> Some (hd 0 text)) then set_error unrecognized_token
       else
         update (fun m => mk_token (token_state_ m) (tl text) (done_ m)) ;;;
         if bool_decide (hd 0 (tl text) = 0) then set_state token_last else ret tt) ;;;
      ret (None, true)
  | token_last =>
      let finish (matched : bool) :=
        e <- this done_ ;;
        callback e ;;;
        set_state token_done ;;;
        ret (None, matched) in
      match ch with
      | Some c =>
          a <- lift (isalnum c) ;;
          if a : bool then set_error unrecognized_token ;;; ret (None, true) else finish false
      | None => finish true
      end
  | token_done => throw Assert
  end.

(** *** Numbers *)

Section number.

(** [std::pow], whose accuracy the language does not fix *)
Context (pow : double -> double -> double).

(** Assignments to the accumulators *)
Definition set_neg (n : number_matcher) : number_matcher :=
  mk_number (number_state_ n) true (is_integer_ n) (int_acc_ n) (frac_part n) (frac_scale n)
    (whole_part n) (exp_is_negative n) (exponent n).
Definition set_int_acc (acc : Z) (n : number_matcher) : number_matcher :=
  mk_number (number_state_ n) (is_neg_ n) (is_integer_ n) acc (frac_part n) (frac_scale n)
    (whole_part n) (exp_is_negative n) (exponent n).
Definition add_frac_digit (c : Z) (n : number_matcher) : number_matcher :=
  mk_number (number_state_ n) (is_neg_ n) (is_integer_ n) (int_acc_ n)
    (SFadd prec emax (SFmul prec emax (frac_part n) (of_int 10)) (of_int (c - 48)))
    (SFmul prec emax (frac_scale n) (of_int 10))
    (whole_part n) (exp_is_negative n) (exponent n).
Definition set_exp_is_negative (b : bool) (n : number_matcher) : number_matcher :=
  mk_number (number_state_ n) (is_neg_ n) (is_integer_ n) (int_acc_ n) (frac_part n) (frac_scale n)
    (whole_part n) b (exponent n).
Definition add_exp_digit (c : Z) (n : number_matcher) : number_matcher :=
  mk_number (number_state_ n) (is_neg_ n) (is_integer_ n) (int_acc_ n) (frac_part n) (frac_scale n)
    (whole_part n) (exp_is_negative n) (wrap32 (exponent n * 10 + (c - 48))).

(** [number_is_float] *)
Definition number_is_float (n : number_matcher) : number_matcher :=
  if is_integer_ n then
    mk_number (number_state_ n) (is_neg_ n) false (int_acc_ n) (frac_part n) (frac_scale n)
      (of_int (int_acc_ n)) (exp_is_negative n) (exponent n)
  else n.

(** [in_terminal_state] *)
Definition in_terminal_state (n : number_matcher) : bool :=
  match number_state_ n with
  | integer_digit_state | frac_state | frac_digit_state | exponent_digit_state | number_done => true
  | _ => false
  end.

(** [std::numeric_limits] of [long] and [unsigned long] *)
Definition long_max : Z := 2 ^ 63 - 1.
Definition long_min : Z := - 2 ^ 63.
Definition ulong_max : Z := 2 ^ 64 - 1.

(** [make_result] *)
Definition make_result : M (number_matcher * parser) unit :=
  failed <- on_parser (gets has_error) ;;
  if failed : bool then ret tt
  else
    n <- this id ;;
    massert (in_terminal_state n) ;;;
    if is_integer_ n then
      let umin := wrap64 long_min in
      if (if is_neg_ n then int_acc_ n >? umin else int_acc_ n >? long_max) then set_error number_out_of_range
      else
        let lv :=
          if is_neg_ n then (if int_acc_ n =? umin then long_min else - int_acc_ n)
          else int_acc_ n in
        callback (integer_value lv)
    else
      let xf := SFadd prec emax (whole_part n) (SFdiv prec emax (frac_part n) (frac_scale n)) in
      let exp := pow (of_int 10) (of_int (exponent n)) in
      if isinf exp then set_error number_out_of_range
      else
        let exp := if exp_is_negative n then SFdiv prec emax (of_int 1) exp else exp in
        let xf := SFmul prec emax xf exp in
        let xf := if is_neg_ n then SFopp xf else xf in
        if isinf xf || isnan xf then set_error number_out_of_range
        else callback (float_value xf).

(** [complete] *)
Definition complete : M (number_matcher * parser) unit :=
  set_state number_done ;;;
  make_result.

(** [do_integer_initial_digit_state] *)
Definition do_integer_initial_digit_state (c : Z) : M (number_matcher * parser) bool :=
  n <- this id ;;
  massert (bool_decide (number_state_ n = integer_initial_digit_state)) ;;;
  massert (is_integer_ n) ;;;
  (if c =? 48 then set_state frac_state
   else if (49 <=? c) && (c <=? 57) then
     massert (int_acc_ n =? 0) ;;;
     update (set_int_acc (c - 48)) ;;;
     set_state integer_digit_state
   else set_error unrecognized_token) ;;;
  ret true.

(** [do_leading_minus_state] *)
Definition do_leading_minus_state (c : Z) : M (number_matcher * parser) bool :=
  if c =? 45 then
    set_state integer_initial_digit_state ;;;
    update set_neg ;;;
    ret true
  else if isdigit c then
    set_state integer_initial_digit_state ;;;
    do_integer_initial_digit_state c
  else
    set_error number_out_of_range ;;;
    ret true.

(** [do_frac_state] *)
Definition do_frac_state (c : Z) : M (number_matcher * parser) bool :=
  if c =? 46 then set_state frac_initial_digit_state ;;; ret true
  else if (c =? 101) || (c =? 69) then set_state exponent_sign_state ;;; ret true
  else if isdigit c then set_error number_out_of_range ;;; ret true
  else complete ;;; ret false.

(** [do_frac_digit_state] *)
Definition do_frac_digit_state (c : Z) : M (number_matcher * parser) bool :=
  n <- this id ;;
  let initial := bool_decide (number_state_ n = frac_initial_digit_state) in
  massert (initial || bool_decide (number_state_ n = frac_digit_state)) ;;;
  if (c =? 101) || (c =? 69) then
    update number_is_float ;;;
    (if initial then set_error unrecognized_token else set_state exponent_sign_state) ;;;
    ret true
  else if isdigit c then
    update number_is_float ;;;
    update (add_frac_digit c) ;;;
    set_state frac_digit_state ;;;
    ret true
  else if initial then set_error unrecognized_token ;;; ret true
  else complete ;;; ret false.

(** [do_exponent_digit_state] *)
Definition do_exponent_digit_state (c : Z) : M (number_matcher * parser) bool :=
  n <- this id ;;
  let initial := bool_decide (number_state_ n = exponent_initial_digit_state) in
  massert (bool_decide (number_state_ n = exponent_digit_state) || initial) ;;;
  massert (negb (is_integer_ n)) ;;;
  if isdigit c then
    update (add_exp_digit c) ;;;
    set_state exponent_digit_state ;;;
    ret true
  else if initial then set_error unrecognized_token ;;; ret true
  else complete ;;; ret false.

(** [do_exponent_sign_state] *)
Definition do_exponent_sign_state (c : Z) : M (number_matcher * parser) bool :=
  update number_is_float ;;;
  set_state exponent_initial_digit_state ;;;
  let sign b :=
    update (set_exp_is_negative b) ;;;
    ret true in
  if c =? 43 then sign false
  else if c =? 45 then sign true
  else do_exponent_digit_state c.

(** [do_integer_digit_state] *)
Definition do_integer_digit_state (c : Z) : M (number_matcher * parser) bool :=
  n <- this id ;;
  massert (bool_decide (number_state_ n = integer_digit_state)) ;;;
  massert (is_integer_ n) ;;;
  if c =? 46 then set_state frac_initial_digit_state ;;; update number_is_float ;;; ret true
  else if (c =? 101) || (c =? 69) then set_state exponent_sign_state ;;; update number_is_float ;;; ret true
  else if isdigit c then
    (if int_acc_ n >? ulong_max / 10 + 10 then set_error number_out_of_range
     else
       update (set_int_acc (wrap64 (int_acc_ n * 10 + (c - 48))))) ;;;
    ret true
  else complete ;;; ret false.

(** [number_matcher::consume] *)
Definition number_consume (ch : option Z) : M (number_matcher * parser) consumed :=
  match ch with
  | Some c =>
      st <- this get_state ;;
      matched <-
        match st with
        | leading_minus_state => do_leading_minus_state c
        | integer_initial_digit_state => do_integer_initial_digit_state c
        | integer_digit_state => do_integer_digit_state c
        | frac_state => do_frac_state c
        | frac_initial_digit_state | frac_digit_state => do_frac_digit_state c
        | exponent_sign_state => do_exponent_sign_state c
        | exponent_initial_digit_state | exponent_digit_state => do_exponent_digit_state c
        | number_done => throw Assert
        end ;;
      ret (None, matched)
  | None =>
      failed <- on_parser (gets has_error) ;;
      massert (negb failed) ;;;
      terminal <- this in_terminal_state ;;
      (if terminal : bool then ret tt else set_error expected_digits) ;;;
      complete ;;;
      ret (None, true)
  end.

End number.

(** *** Strings *)

(** [appender::has_high_surrogate], [append32] and [append16]: whether they succeeded *)
Definition has_high_surrogate (a : appender) : bool := negb (high_surrogate_ a =? 0).

Definition append32 (code_point : Z) (a : appender) : outcome (bool * appender) :=
  if has_high_surrogate a then Ok (false, a)
  else
    bytes <-? code_point_to_utf8 code_point ;;
    Ok (true, mk_appender (result_ a ++ bytes) (high_surrogate_ a)).

Definition append16 (cu : Z) (a : appender) : outcome (bool * appender) :=
  if is_utf16_high_surrogate cu then
    if negb (has_high_surrogate a) then Ok (true, mk_appender (result_ a) cu) else Ok (false, a)
  else if is_utf16_low_surrogate cu then
    if negb (has_high_surrogate a) then Ok (false, a)
    else
      q <-? utf16_to_code_point nop_swapper [high_surrogate_ a; cu] ;;
      bytes <-? code_point_to_utf8 q.2 ;;
      Ok (true, mk_appender (result_ a ++ bytes) 0)
  else if has_high_surrogate a then Ok (false, a)
  else
    bytes <-? code_point_to_utf8 cu ;;
    Ok (true, mk_appender (result_ a ++ bytes) (high_surrogate_ a)).

Definition with_app (a : appender) (m : string_matcher) : string_matcher :=
  mk_string (string_state_ m) (decoder_ m) a (hex_ m).

(** A call of one of the two that keeps the appender *)
Definition appends (f : appender -> outcome (bool * appender)) : M (string_matcher * parser) bool :=
  a <- this app_ ;;
  r <- lift (f a) ;;
  update (with_app r.2) ;;;
  ret r.1.

(** [consume_normal_state] *)
Definition consume_normal_state (code_point : Z) : M (string_matcher * parser) (string_state * error_code) :=
  if code_point =? 34 then
    a <- this app_ ;;
    if has_high_surrogate a then ret (string_done, bad_unicode_code_point)
    else callback (string_value (result_ a)) ;;; ret (string_done, none)
  else if code_point =? 92 then ret (escape_state, none)
  else if code_point <=? 31 then ret (normal_char_state, bad_unicode_code_point)
  else
    ok <- appends (append32 code_point) ;;
    ret (normal_char_state, if ok : bool then none else bad_unicode_code_point).

(** [hex_value] *)
Definition hex_value (c value : Z) : option Z :=
  if (48 <=? c) && (c <=? 57) then Some (wrap32 (16 * value + (c - 48)))
  else if (97 <=? c) && (c <=? 102) then Some (wrap32 (16 * value + (c - 97 + 10)))
  else if (65 <=? c) && (c <=? 70) then Some (wrap32 (16 * value + (c - 65 + 10)))
  else None.

(** [consume_hex_state] *)
Definition consume_hex_state (hex : Z) (state : string_state) (code_point : Z) : outcome (option (Z * string_state)) :=
  match hex_value code_point hex with
  | None => Ok None
  | Some value =>
      _ <-? oassert (value <=? 65535) ;;
      match state with
      | hex1_state => Ok (Some (value, hex2_state))
      | hex2_state => Ok (Some (value, hex3_state))
      | hex3_state => Ok (Some (value, hex4_state))
      | hex4_state => Ok (Some (value, normal_char_state))
      | _ => Throw Assert
      end
  end.

(** [decode] of [consume_escape_state] *)
Definition escape_decode (cp : Z) : option (Z * string_state) :=
  if cp =? 34 then Some (34, normal_char_state)
  else if cp =? 92 then Some (92, normal_char_state)
  else if cp =? 47 then Some (47, normal_char_state)
  else if cp =? 98 then Some (8, normal_char_state)
  else if cp =? 102 then Some (12, normal_char_state)
  else if cp =? 110 then Some (10, normal_char_state)
  else if cp =? 114 then Some (13, normal_char_state)
  else if cp =? 116 then Some (9, normal_char_state)
  else if cp =? 117 then Some (cp, hex1_state)
  else None.

(** [consume_escape_state] *)
Definition consume_escape_state (code_point : Z) : M (string_matcher * parser) (string_state * error_code) :=
  match escape_decode code_point with
  | Some (cp, next_state) =>
      massert (bool_decide (next_state = normal_char_state) || bool_decide (next_state = hex1_state)) ;;;
      if bool_decide (next_state = normal_char_state) then
        ok <- appends (append32 cp) ;;
        ret (if ok : bool then (next_state, none) else (normal_char_state, invalid_escape_char))
      else ret (next_state, none)
  | None => ret (normal_char_state, invalid_escape_char)
  end.

(** The switch of [string_matcher::consume], on a code point *)
Definition string_consume_code_point (code_point : Z) : M (string_matcher * parser) unit :=
  st <- this get_state ;;
  match st with
  | string_start =>
      if code_point =? 34 then
        a <- this app_ ;;
        massert (negb (has_high_surrogate a)) ;;;
        set_state normal_char_state
      else set_error expected_token
  | normal_char_state =>
      r <- consume_normal_state code_point ;;
      set_state r.1 ;;;
      set_error r.2
  | escape_state =>
      r <- consume_escape_state code_point ;;
      set_state r.1 ;;;
      set_error r.2
  | hex1_state | hex2_state | hex3_state | hex4_state =>
      (if bool_decide (st = hex1_state) then
         update (fun m => mk_string (string_state_ m) (decoder_ m) (app_ m) 0) else ret tt) ;;;
      hex <- this hex_ ;;
      r <- lift (consume_hex_state hex st code_point) ;;
      match r with
      | None => set_error invalid_hex_char
      | Some (hex, next_state) =>
          update (fun m => mk_string (string_state_ m) (decoder_ m) (app_ m) hex) ;;;
          set_state next_state ;;;
          if bool_decide (next_state = normal_char_state) then
            ok <- appends (append16 (wrap 16 hex)) ;;
            if ok : bool then ret tt else set_error bad_unicode_code_point
          else ret tt
      end
  | string_done => throw Assert
  end.

(** [string_matcher::consume] *)
Definition string_consume (ch : option Z) : M (string_matcher * parser) consumed :=
  match ch with
  | None => set_error expected_close_quote ;;; ret (None, true)
  | Some c =>
      d <- this decoder_ ;;
      r <- lift (Utf.get d c) ;;
      update (fun m => mk_string (string_state_ m) r.2 (app_ m) (hex_ m)) ;;;
      match r.1 with
      | Some code_point => string_consume_code_point code_point
      | None => ret tt
      end ;;;
      ret (None, true)
  end.

(** *** Arrays and objects *)

Definition push_whitespace {X} (matched : bool) : M (X * parser) consumed :=
  m <- on_parser make_whitespace_matcher ;;
  ret (Some m, matched).
Definition push_root {X} (only_string : bool) : M (X * parser) consumed :=
  m <- on_parser (make_root_matcher only_string) ;;
  ret (Some m, false).

(** [array_matcher::end_array] *)
Definition array_end : M (array_matcher * parser) unit :=
  callback end_array ;;;
  set_state array_done.

(** [array_matcher::consume] *)
Definition array_consume (ch : option Z) : M (array_matcher * parser) consumed :=
  match ch with
  | None => set_error expected_array_member ;;; ret (None, true)
  | Some c =>
      let object := set_state array_comma_state ;;; push_root false in
      st <- this get_state ;;
      match st with
      | array_start =>
          massert (c =? 91) ;;;
          callback begin_array ;;;
          set_state first_object_state ;;;
          push_whitespace true
      | first_object_state => if c =? 93 then array_end ;;; ret (None, true) else object
      | object_state => object
      | array_comma_state =>
          if isspace c then push_whitespace false
          else
            (if c =? 44 then set_state object_state
             else if c =? 93 then array_end
             else set_error expected_array_member) ;;;
            ret (None, true)
      | array_done => throw Assert
      end
  end.

(** [object_matcher::consume] *)
Definition object_consume (ch : option Z) : M (object_matcher * parser) consumed :=
  st <- this get_state ;;
  match st, ch with
  | object_done, _ =>
      failed <- on_parser (gets has_error) ;;
      massert failed ;;;
      ret (None, true)
  | _, None => set_error expected_object_member ;;; ret (None, true)
  | _, Some c =>
      let close := callback end_object ;;; set_state object_done in
      let key := set_state colon_state ;;; push_root true in
      match st with
      | object_start =>
          massert (c =? 123) ;;;
          set_state first_key_state ;;;
          callback begin_object ;;;
          push_whitespace true
      | first_key_state => if c =? 125 then close ;;; ret (None, true) else key
      | key_state => key
      | colon_state =>
          if isspace c then push_whitespace false
          else (if c =? 58 then set_state value_state else set_error expected_colon) ;;; ret (None, true)
      | value_state => set_state object_comma_state ;;; push_root false
      | object_comma_state =>
          if isspace c then push_whitespace false
          else
            (if c =? 44 then set_state key_state
             else if c =? 125 then close
             else set_error expected_object_member) ;;;
            ret (None, true)
      | object_done => throw Assert
      end
  end.

(** *** White space and the end of the input *)

(** [whitespace_matcher::consume] *)
Definition whitespace_consume (ch : option Z) : M (whitespace_matcher * parser) consumed :=
  match ch with
  | None => set_state whitespace_done ;;; ret (None, true)
  | Some c =>
      let start :=
        if (c =? space) || (c =? tab) then ret (None, true)
        else if c =? cr then on_parser (modify advance_row) ;;; set_state crlf_state ;;; ret (None, true)
        else if c =? lf then on_parser (modify advance_row) ;;; ret (None, true)
        else set_state whitespace_done ;;; ret (None, false) in
      st <- this get_state ;;
      match st with
      | crlf_state =>
          set_state whitespace_start ;;;
          if c =? lf then on_parser (modify reset_column) ;;; ret (None, true) else start
      | whitespace_start => start
      | whitespace_done => throw Assert
      end
  end.

(** [eof_matcher::consume] *)
Definition eof_consume (ch : option Z) : M (eof_matcher * parser) consumed :=
  match ch with
  | Some _ => set_error unexpected_extra_input
  | None => set_state eof_done
  end ;;;
  ret (None, true).

(** *** Values *)

(** The keywords *)
Definition text_true : list Z := [116; 114; 117; 101].
Definition text_false : list Z := [102; 97; 108; 115; 101].
Definition text_null : list Z := [110; 117; 108; 108].

Definition new_number : number_matcher :=
  mk_number leading_minus_state false true 0 (of_int 0) (of_int 1) (of_int 0) false 0.
Definition new_string : string_matcher := mk_string string_start initial_decoder (mk_appender [] 0) 0.

(** [root_matcher::consume] *)
Definition root_consume (ch : option Z) : M (root_matcher * parser) consumed :=
  match ch with
  | None => set_error expected_token ;;; ret (None, true)
  | Some c =>
      st <- this get_state ;;
      match st with
      | root_start => set_state new_token_state ;;; push_whitespace false
      | new_token_state =>
          only <- this only_string_ ;;
          (if only && negb (c =? 34) then set_error expected_string else ret tt) ;;;
          set_state root_done ;;;
          let terminal m := m <- on_parser (make_terminal_matcher m) ;; ret (Some m, false) in
          if (c =? 45) || isdigit c then terminal (m_number new_number)
          else if c =? 34 then terminal (m_string new_string)
          else if c =? 116 then terminal (m_token (mk_token token_start text_true (boolean_value true)))
          else if c =? 102 then terminal (m_token (mk_token token_start text_false (boolean_value false)))
          else if c =? 110 then terminal (m_token (mk_token token_start text_null null_value))
          else if c =? 91 then ret (Some (m_array (mk_array array_start)), false)
          else if c =? 123 then ret (Some (m_object (mk_object object_start)), false)
          else set_error expected_token ;;; ret (None, true)
      | root_done => throw Assert
      end
  end.

(** ** Feeding the parser *)

Section parser.

Context (pow : double -> double -> double).

(** The matcher, changed, and what its [consume] returned *)
Definition run_matcher {X} (wrap : X -> matcher) (m : M (X * parser) consumed) (x : X)
    : M parser (matcher * option matcher * bool) :=
  fun p => match m (x, p) with
           | (Ok r, (x, p)) => (Ok (wrap x, r.1, r.2), p)
           | (Throw e, (_, p)) => (Throw e, p)
           end.

(** The virtual function [consume] *)
Definition consume (m : matcher) (ch : option Z) : M parser (matcher * option matcher * bool) :=
  match m with
  | m_token x => run_matcher m_token (token_consume ch) x
  | m_number x => run_matcher m_number (number_consume pow ch) x
  | m_string x => run_matcher m_string (string_consume ch) x
  | m_array x => run_matcher m_array (array_consume ch) x
  | m_object x => run_matcher m_object (object_consume ch) x
  | m_whitespace x => run_matcher m_whitespace (whitespace_consume ch) x
  | m_eof x => run_matcher m_eof (eof_consume ch) x
  | m_root x => run_matcher m_root (root_consume ch) x
  end.

(** The constructor *)
Definition parser_ctor : parser :=
  mk_parser [m_root (mk_root root_start false); m_whitespace (mk_whitespace whitespace_start true); m_eof (mk_eof eof_start)]
    none [] (1, 1).

(** The end of a turn of the loop of [input]: the new matcher is pushed. Nothing stands for
    [break], otherwise whether the character has been matched. *)
Definition input_push (first : option matcher) (matched : bool) (c : Z) : M parser (option bool) :=
  let advance : M parser (option bool) :=
    if matched then (if is_utf_char_start c then modify advance_column else ret tt) ;;; ret (Some true)
    else ret (Some false) in
  st <- gets stack_ ;;
  match first with
  | Some m =>
      if (max_stack_depth_ <? length st)%nat then
        failed <- gets has_error ;;
        massert (negb failed) ;;;
        modify (with_error nesting_too_deep) ;;;
        ret None
      else modify (with_stack (m :: st)) ;;; advance
  | None => advance
  end.

(** A turn of the loop of [input] *)
Definition input_step (c : Z) : M parser (option bool) :=
  st <- gets stack_ ;;
  match st with
  | [] => throw Assert
  | handler :: below =>
      '(handler, first, matched) <- consume handler (Some c) ;;
      modify (with_stack (handler :: below)) ;;;
      failed <- gets has_error ;;
      if is_done handler then
        if failed : bool then ret None
        else modify (with_stack below) ;;; input_push first matched c
      else input_push first matched c
  end.

(** [input]: the loop; [fuel] bounds its turns. *)
Fixpoint input_loop (fuel : nat) (first : list Z) : M parser unit :=
  match first with
  | [] => ret tt
  | c :: rest =>
      match fuel with
      | O => throw OutOfFuel
      | S fuel =>
          r <- input_step c ;;
          match r with
          | None => ret tt
          | Some true => input_loop fuel rest
          | Some false => input_loop fuel first
          end
      end
  end.

(** A character takes at most eight turns. *)
Definition input (src : list Z) : M parser unit :=
  failed <- gets has_error ;;
  if failed : bool then ret tt else input_loop (8 * length src) src.

(** [eof]: the loop, which removes a matcher in each turn, and the result of the callbacks; a
    failed parse yields the default, here nothing. *)
Fixpoint eof_loop (fuel : nat) : M parser unit :=
  p <- gets id ;;
  match stack_ p with
  | [] => ret tt
  | handler :: below =>
      if has_error p then ret tt
      else
        match fuel with
        | O => throw OutOfFuel
        | S fuel =>
            '(handler, _, matched) <- consume handler None ;;
            massert (is_done handler) ;;;
            massert matched ;;;
            modify (with_stack below) ;;;
            eof_loop fuel
        end
  end.

Definition eof : M parser (option (list event)) :=
  st <- gets stack_ ;;
  eof_loop (length st) ;;;
  p <- gets id ;;
  ret (if has_error p then None else Some (callbacks_ p)).

(** A client that feeds the chunks of a text and asks for the result *)
Fixpoint input_all (chunks : list (list Z)) : M parser unit :=
  match chunks with
  | [] => ret tt
  | src :: chunks => input src ;;; input_all chunks
  end.

Definition parse_chunks (chunks : list (list Z)) : outcome (option (list event)) :=
  ((input_all chunks ;;; eof) parser_ctor).1.

End parser.
