(* ===== verification/JsonLex.v ===== *)
(** * The tokens of the JSON parser

    The matchers of keywords, numbers and strings look at nothing of the parser but whether it has
    failed, and report one call. [leaf_run] is the language that each of them recognises from the
    state it is in; this file shows that the parser's steps follow it and that it is the grammar of
    RFC 8259: [Number] with the arithmetic the matcher does, and [String] on code points. *)

From Stdlib Require Import SpecFloat.
From S2P Require Import Prelude Utf Json.

(** ** Code that is indifferent to the rest of the parser *)

Definition idle (e : error_code) : parser := mk_parser [] e [] (1, 1).

(** What the parser [p] becomes when the idle one becomes [q] *)
Definition graft (p q : parser) : parser :=
  mk_parser (stack_ p) (error_ q) (callbacks_ p ++ callbacks_ q) (coordinate_ p).

Definition framed {X A} (m : M (X * parser) A) : Prop :=
  forall x p, m (x, p) = let '(r, (x', q)) := m (x, idle (error_ p)) in (r, (x', graft p q)).

Lemma framed_ret {X A} (a : A) : framed (X := X) (ret a).
Proof. intros x [st e cb xy]. unfold ret, graft, idle. simpl. by rewrite app_nil_r. Qed.

Lemma framed_throw {X A} e : framed (X := X) (A := A) (throw e).
Proof. intros x [st er cb xy]. unfold throw, graft, idle. simpl. by rewrite app_nil_r. Qed.

Lemma framed_bind {X A B} (m : M (X * parser) A) (f : A -> M (X * parser) B) :
  framed m -> (forall a, framed (f a)) -> framed (bind m f).
Proof.
  intros Hm Hf x p. unfold bind. rewrite (Hm x p).
  pose proof (Hm x (idle (error_ p))) as Hi. simpl in Hi.
  destruct (m (x, idle (error_ p))) as [[a|e] [x' q]]; injection Hi as Hq; [|done].
  rewrite (Hf a x' q), (Hf a x' (graft p q)). simpl.
  destruct (f a (x', idle (error_ q))) as [r [x'' q']]. unfold graft. rewrite Hq. simpl. by rewrite app_assoc.
Qed.

Lemma framed_this {X A} (f : X -> A) : framed (this f).
Proof. intros x [st e cb xy]. unfold this, gets, graft, idle. simpl. by rewrite app_nil_r. Qed.

Lemma framed_update {X} (f : X -> X) : framed (update f).
Proof. intros x [st e cb xy]. unfold update, modify, graft, idle. simpl. by rewrite app_nil_r. Qed.

Lemma framed_lift {X A} (o : outcome A) : framed (X := X) (lift o).
Proof. intros x [st e cb xy]. unfold lift, graft, idle. simpl. by rewrite app_nil_r. Qed.

Lemma framed_callback {X} e : framed (X := X) (callback e).
Proof. intros x [st er cb xy]. reflexivity. Qed.

Lemma framed_failed {X} : framed (X := X) (on_parser (gets has_error)).
Proof. intros x [st e cb xy]. unfold on_parser, gets, graft, idle. simpl. by rewrite app_nil_r. Qed.

Lemma framed_parser_set_error {X} err : framed (X := X) (on_parser (parser_set_error err)).
Proof.
  intros x [st e cb xy]. unfold on_parser, parser_set_error, bind, gets, massert, oassert, lift, modify, graft, idle. simpl.
  destruct (_ || _); simpl; by rewrite app_nil_r.
Qed.

Create HintDb framed discriminated.
#[export] Hint Resolve framed_ret framed_throw framed_this framed_update framed_lift framed_callback framed_failed
  framed_parser_set_error : framed.

Lemma framed_set_error {X St} `{MatcherState X St} err : framed (set_error err).
Proof.
  unfold set_error. apply framed_bind; [auto with framed|]. intros _. destruct (is_none err); [apply framed_ret|apply framed_update].
Qed.
#[export] Hint Resolve framed_set_error : framed.

(** Goes down a computation, through its binds and case distinctions *)
Ltac frame :=
  repeat first
    [ solve [auto with framed]
    | apply framed_lift
    | apply framed_update
    | apply framed_bind; [|intros]
    | match goal with |- framed (match ?x with _ => _ end) => destruct x end
    | match goal with |- framed (let '_ := ?x in _) => destruct x end ].

Lemma framed_token ch : framed (token_consume ch).
Proof. unfold token_consume. frame. Qed.

Section leaves.

Context (pow : double -> double -> double).

Lemma framed_complete : framed (complete pow).
Proof. unfold complete, make_result, massert. frame. Qed.
#[local] Hint Resolve framed_complete : framed.

Lemma framed_number ch : framed (number_consume pow ch).
Proof.
  unfold number_consume, do_leading_minus_state, do_integer_initial_digit_state, do_integer_digit_state, do_frac_state,
    do_frac_digit_state, do_exponent_sign_state, do_exponent_digit_state, massert.
  frame.
Qed.

Lemma framed_string ch : framed (string_consume ch).
Proof.
  unfold string_consume, string_consume_code_point, consume_normal_state, consume_escape_state, appends, massert. frame.
Qed.

(** ** The steps of a leaf *)

Definition is_leaf (m : matcher) : bool := match m with m_token _ | m_number _ | m_string _ => true | _ => false end.

Lemma consume_leaf m ch p : is_leaf m = true ->
  consume pow m ch p = let '(r, q) := consume pow m ch (idle (error_ p)) in (r, graft p q).
Proof.
  destruct m as [x|x|x|x|x|x|x|x]; try done; intros _; unfold consume, run_matcher.
  - rewrite (framed_token ch x p). by destruct (token_consume ch (x, idle (error_ p))) as [[] []].
  - rewrite (framed_number ch x p). by destruct (number_consume pow ch (x, idle (error_ p))) as [[] []].
  - rewrite (framed_string ch x p). by destruct (string_consume ch (x, idle (error_ p))) as [[] []].
Qed.

(** A leaf takes a character, or the end of the input, without an error: the leaf after it, the
    calls made, and whether the character was matched *)
Definition leaf_step (m : matcher) (ch : option Z) : option (matcher * list event * bool) :=
  match consume pow m ch (idle none) with
  | (Ok (m', _, b), q) => if decide (error_ q = none) then Some (m', callbacks_ q, b) else None
  | _ => None
  end.

(** The calls that a leaf makes when the rest of its text is [u] *)
Fixpoint leaf_run (m : matcher) (u : list Z) : option (list event) :=
  match u with
  | [] => match leaf_step m None with Some (_, e, _) => Some e | None => None end
  | c :: u =>
      match leaf_step m (Some c) with
      | Some (m', e, true) =>
          if is_done m' then match u with [] => Some e | _ => None end
          else leaf_run m' u
      | _ => None
      end
  end.

(** ** Well-formed leaves *)

Definition token_ok (m : token_matcher) : Prop :=
  match token_state_ m with
  | token_start => text_ m <> [] /\ Forall (fun c => c <> 0) (text_ m)
  | token_last => text_ m = []
  | token_done => False
  end.

Definition number_ok (n : number_matcher) : Prop :=
  match number_state_ n with
  | number_done => False
  | leading_minus_state | integer_initial_digit_state => is_integer_ n = true /\ int_acc_ n = 0
  | integer_digit_state => is_integer_ n = true
  | exponent_initial_digit_state | exponent_digit_state => is_integer_ n = false
  | _ => True
  end.

Definition string_ok (m : string_matcher) : Prop :=
  (0 <= state_ (decoder_ m) <= 8 /\ 0 <= codepoint_ (decoder_ m)) /\
  (high_surrogate_ (app_ m) = 0 \/ 55296 <= high_surrogate_ (app_ m) <= 56319) /\
  match string_state_ m with
  | string_done => False
  | string_start => high_surrogate_ (app_ m) = 0
  | hex2_state => 0 <= hex_ m < 16
  | hex3_state => 0 <= hex_ m < 256
  | hex4_state => 0 <= hex_ m < 4096
  | _ => True
  end.

Definition leaf_ok (m : matcher) : Prop :=
  match m with
  | m_token m => token_ok m
  | m_number n => number_ok n
  | m_string m => string_ok m
  | _ => False
  end.

(** A character that may follow a value *)
Definition delim (c : Z) : bool := isspace c || (c =? 44) || (c =? 93) || (c =? 125).

(** What a leaf does with a character *)
Definition leaf_after (m : matcher) (c : Z) (r : outcome (matcher * option matcher * bool) * parser) : Prop :=
  match r with
  | (Ok (m', first, matched), q) =>
      first = None /\
      if decide (error_ q = none) then
        if matched then
          leaf_run m [] <> None -> delim c = false
        else leaf_run m [] = Some (callbacks_ q) /\ is_done m' = true
      else is_done m' = true /\ (leaf_run m [] <> None -> delim c = false)
  | (Throw e, _) => e = Undefined /\ 128 <= c
  end.

Definition leaf_next (r : outcome (matcher * option matcher * bool) * parser) : Prop :=
  match r with
  | (Ok (m', _, true), q) => error_ q = none -> is_done m' = false -> leaf_ok m' /\ callbacks_ q = []
  | _ => True
  end.

(** What it does at the end of the input *)
Definition leaf_end (r : outcome (matcher * option matcher * bool) * parser) : Prop :=
  match r with
  | (Ok (m', _, matched), q) => matched = true /\ is_done m' = true
  | (Throw _, _) => False
  end.

Ltac run_leaf := unfold bind, this, gets, update, modify, on_parser, callback, lift, massert, oassert, ret, throw,
  set_state, set_error, parser_set_error, has_error, idle, with_error, call.

(** *** Keywords *)

Lemma delim_isalnum c : delim c = true -> isalnum c = Ok false.
Proof.
  unfold delim, isspace, isalnum, isdigit, tab, lf, cr, space. intros H.
  assert (c = 9 \/ c = 10 \/ c = 13 \/ c = 32 \/ c = 44 \/ c = 93 \/ c = 125) as Hc by lia.
  by destruct Hc as [-> | [-> | [-> | [-> | [-> | [-> | ->]]]]]].
Qed.

Lemma token_char m c : token_ok m ->
  leaf_after (m_token m) c (consume pow (m_token m) (Some c) (idle none)) /\
  leaf_next (consume pow (m_token m) (Some c) (idle none)) /\ leaf_end (consume pow (m_token m) None (idle none)).
Proof.
  destruct m as [[| |] text e]; unfold token_ok; simpl; [done| |].
  - intros [Hne Hz]. destruct text as [|t text]; [done|]. clear Hne. inversion Hz as [|? ? Ht Hz']. subst.
    unfold leaf_after, leaf_run, leaf_step, consume, run_matcher, token_consume. run_leaf. simpl.
    repeat case_bool_decide; simplify_eq; repeat split; intros; try done.
    all: by destruct text; simpl in *; try inversion Hz'; subst.
  - intros ->. unfold leaf_after, leaf_run, leaf_step, consume, run_matcher, token_consume. run_leaf. simpl.
    destruct (isalnum c) as [[]|x] eqn:Ha; simpl.
    + repeat split; try done. intros _. destruct (delim c) eqn:Hd; [|done]. apply delim_isalnum in Hd. congruence.
    + done.
    + repeat split; try done; unfold isalnum in Ha; destruct (c <? 128) eqn:?; simplify_eq; try done; lia.
Qed.

(** *** Numbers *)

(** What [make_result] reports *)
Definition number_value (n : number_matcher) : option event :=
  if is_integer_ n then
    if (if is_neg_ n then int_acc_ n >? 2 ^ 63 else int_acc_ n >? 2 ^ 63 - 1) then None
    else Some (integer_value (if is_neg_ n then - int_acc_ n else int_acc_ n))
  else
    let xf := SFadd prec emax (whole_part n) (SFdiv prec emax (frac_part n) (frac_scale n)) in
    let exp := pow (of_int 10) (of_int (exponent n)) in
    let x := SFmul prec emax xf (if exp_is_negative n then SFdiv prec emax (of_int 1) exp else exp) in
    let x := if is_neg_ n then SFopp x else x in
    if isinf exp || isinf x || isnan x then None else Some (float_value x).

Definition finished (n : number_matcher) : number_matcher := with_state number_done n.

Lemma complete_ok n : complete pow (n, idle none) =
  (Ok tt, (finished n, match number_value n with
                      | Some e => mk_parser [] none [e] (1, 1)
                      | None => idle number_out_of_range
                      end)).
Proof.
  unfold complete, make_result, number_value. run_leaf. cbn -[wrap prec emax SFadd SFdiv SFmul of_int Z.pow].
  change (wrap64 long_min) with (2 ^ 63). unfold long_max, long_min.
  destruct n as [st [] [] acc fp fs wp en ex]; cbn -[prec emax SFadd SFdiv SFmul of_int Z.pow].
  - destruct (acc >? 2 ^ 63); [done|]. by destruct (acc =? 2 ^ 63) eqn:E; [apply Z.eqb_eq in E; subst acc|].
  - set (x := SFopp _). destruct (isinf (pow _ _)); [done|]. cbn [orb]. by destruct (isinf x || isnan x).
  - by destruct (acc >? 2 ^ 63 - 1).
  - set (x := SFmul _ _ _ _). destruct (isinf (pow _ _)); [done|]. cbn [orb]. by destruct (isinf x || isnan x).
Qed.

(** The number after a character that belongs to it *)
Definition number_next (n : number_matcher) (c : Z) : option number_matcher :=
  let initial n :=
    if isdigit c then
      Some (if c =? 48 then with_state frac_state n else with_state integer_digit_state (set_int_acc (c - 48) n))
    else None in
  let is_e := (c =? 101) || (c =? 69) in
  match number_state_ n with
  | leading_minus_state =>
      if c =? 45 then Some (set_neg (with_state integer_initial_digit_state n))
      else initial (with_state integer_initial_digit_state n)
  | integer_initial_digit_state => initial n
  | integer_digit_state =>
      if c =? 46 then Some (number_is_float (with_state frac_initial_digit_state n))
      else if is_e then Some (number_is_float (with_state exponent_sign_state n))
      else if isdigit c && negb (int_acc_ n >? ulong_max / 10 + 10) then
        Some (set_int_acc (wrap64 (int_acc_ n * 10 + (c - 48))) n)
      else None
  | frac_state =>
      if c =? 46 then Some (with_state frac_initial_digit_state n)
      else if is_e then Some (with_state exponent_sign_state n)
      else None
  | frac_initial_digit_state =>
      if isdigit c then Some (with_state frac_digit_state (add_frac_digit c (number_is_float n))) else None
  | frac_digit_state =>
      if is_e then Some (with_state exponent_sign_state (number_is_float n))
      else if isdigit c then Some (with_state frac_digit_state (add_frac_digit c (number_is_float n)))
      else None
  | exponent_sign_state =>
      let n := with_state exponent_initial_digit_state (number_is_float n) in
      if c =? 43 then Some (set_exp_is_negative false n)
      else if c =? 45 then Some (set_exp_is_negative true n)
      else if isdigit c then Some (with_state exponent_digit_state (add_exp_digit c n))
      else None
  | exponent_initial_digit_state | exponent_digit_state =>
      if isdigit c then Some (with_state exponent_digit_state (add_exp_digit c n)) else None
  | number_done => None
  end.

Definition completed (n : number_matcher) : parser :=
  match number_value n with
  | Some e => mk_parser [] none [e] (1, 1)
  | None => idle number_out_of_range
  end.

(** The three things that a number may do with a character: take it, end before it, or fail *)
Inductive number_steps (n : number_matcher) (c : Z) : outcome (matcher * option matcher * bool) * parser -> Prop :=
  | number_takes n' : number_next n c = Some n' -> number_ok n' ->
      number_steps n c (Ok (m_number n', None, true), idle none)
  | number_ends : number_next n c = None -> in_terminal_state n = true ->
      number_steps n c (Ok (m_number (finished n), None, false), completed n)
  | number_fails n' e : number_next n c = None -> in_terminal_state n = false \/ isdigit c = true ->
      number_state_ n' = number_done -> e <> none ->
      number_steps n c (Ok (m_number n', None, true), idle e).

Lemma digit_initial c : isdigit c = true -> c =? 48 = false -> (49 <=? c) && (c <=? 57) = true.
Proof. unfold isdigit. lia. Qed.

Ltac number_cbn := cbn -[complete do_integer_initial_digit_state ulong_max wrap of_int SFadd SFmul prec emax Z.div isdigit Z.leb Z.eqb Z.gtb orb andb].

(** One of the functions of the matcher, run on a concrete state *)
Ltac number_run := unfold consume, run_matcher, number_consume; run_leaf; number_cbn.
Ltac next_state := unfold number_next; number_cbn; repeat (match goal with H : ?b = _ |- context [?b] => rewrite H end); done.
Ltac takes := apply number_takes; [next_state|done].
Ltac fails := apply number_fails; [next_state|auto|done|done].
Ltac ends := rewrite complete_ok; apply number_ends; [next_state|done].

Lemma initial_digit_step n c : number_ok n -> number_state_ n = integer_initial_digit_state ->
  exists n' e, do_integer_initial_digit_state c (n, idle none) = (Ok true, (n', idle e)) /\
    (e = none /\ number_next n c = Some n' /\ number_ok n' \/
     e <> none /\ number_next n c = None /\ number_state_ n' = number_done).
Proof.
  destruct n as [st neg int acc fp fs wp en ex]. intros Hok Hst. simpl in Hst. subst st. destruct Hok as [Hint Hacc]. simpl in *. subst.
  unfold do_integer_initial_digit_state, number_next. run_leaf. rewrite bool_decide_eq_true_2 by done. number_cbn.
  destruct (isdigit c) eqn:Ed.
  - destruct (c =? 48) eqn:E48; [|rewrite (digit_initial c Ed E48)]; number_cbn;
      eexists _, none; split; [done|by left|done|by left].
  - replace (c =? 48) with false by (unfold isdigit in Ed; lia).
    replace ((49 <=? c) && (c <=? 57)) with false by (unfold isdigit in Ed; lia). number_cbn.
    eexists _, unrecognized_token. split; [done|]. by right.
Qed.

Lemma number_step n c : number_ok n -> number_steps n c (consume pow (m_number n) (Some c) (idle none)).
Proof.
  intros Hok. destruct n as [st neg int acc fp fs wp en ex]. destruct st; unfold number_ok in Hok; simpl in Hok; try done.
  - destruct Hok as [-> ->]. number_run. unfold do_leading_minus_state. run_leaf. number_cbn.
    destruct (c =? 45) eqn:?; [takes|]. destruct (isdigit c) eqn:?; [|fails]. number_cbn.
    set (n := mk_number integer_initial_digit_state _ _ _ _ _ _ _ _).
    destruct (initial_digit_step n c) as (n' & e & E & [(-> & Hn & Hok)|(_ & Hn & _)]); [done|done| |].
    + change (mk_parser [] none [] (1, 1)) with (idle none). rewrite E. apply number_takes; [|done].
      rewrite <- Hn. next_state.
    + unfold number_next in Hn. simpl in Hn. by rewrite Heqb0 in Hn.
  - destruct Hok as [-> ->]. number_run. set (n := mk_number _ _ _ _ _ _ _ _ _).
    destruct (initial_digit_step n c) as (n' & e & E & [(-> & Hn & Hok)|(He & Hn & Hd)]); [done|done| |].
    all: change (mk_parser [] none [] (1, 1)) with (idle none); rewrite E.
    + by apply number_takes.
    + apply number_fails; [done|by left|done|done].
  - subst int. number_run. unfold do_integer_digit_state. run_leaf. rewrite bool_decide_eq_true_2 by done. number_cbn.
    destruct (c =? 46) eqn:?; [takes|]. destruct ((c =? 101) || (c =? 69)) eqn:?; [takes|].
    destruct (isdigit c) eqn:?; [|ends]. destruct (acc >? ulong_max / 10 + 10) eqn:?; [fails|takes].
  - number_run. unfold do_frac_state. run_leaf. number_cbn.
    destruct (c =? 46) eqn:?; [takes|]. destruct ((c =? 101) || (c =? 69)) eqn:?; [takes|].
    destruct (isdigit c) eqn:?; [fails|ends].
  - number_run. unfold do_frac_digit_state. run_leaf. rewrite bool_decide_eq_true_2 by done. number_cbn.
    destruct ((c =? 101) || (c =? 69)) eqn:He; number_cbn. { assert (isdigit c = false) by (unfold isdigit; lia). fails. }
    destruct (isdigit c) eqn:?; [takes|fails].
  - number_run. unfold do_frac_digit_state. run_leaf.
    rewrite (bool_decide_eq_false_2 (_ = frac_initial_digit_state)), bool_decide_eq_true_2 by done. number_cbn.
    destruct ((c =? 101) || (c =? 69)) eqn:?; [takes|]. destruct (isdigit c) eqn:?; [takes|ends].
  - number_run. unfold do_exponent_sign_state, do_exponent_digit_state. run_leaf. number_cbn.
    destruct (c =? 43) eqn:?; [destruct int; takes|]. destruct (c =? 45) eqn:?; [destruct int; takes|].
    destruct int; number_cbn; rewrite (bool_decide_eq_true_2 (exponent_initial_digit_state = exponent_initial_digit_state)), orb_true_r by done; number_cbn.
    all: destruct (isdigit c) eqn:?; [takes|fails].
  - subst int. number_run. unfold do_exponent_digit_state. run_leaf.
    rewrite (bool_decide_eq_true_2 (_ = exponent_initial_digit_state)), orb_true_r by done. number_cbn. destruct (isdigit c) eqn:?; [takes|fails].
  - subst int. number_run. unfold do_exponent_digit_state. run_leaf.
    rewrite (bool_decide_eq_true_2 (_ = exponent_digit_state)), bool_decide_eq_false_2 by done. number_cbn. destruct (isdigit c) eqn:?; [takes|ends].
Qed.

Lemma number_eof n : number_ok n ->
  exists n', number_state_ n' = number_done /\ consume pow (m_number n) None (idle none) =
    (Ok (m_number n', None, true), if in_terminal_state n then completed n else idle expected_digits).
Proof.
  intros Hok. unfold consume, run_matcher, number_consume. run_leaf. number_cbn.
  destruct (in_terminal_state n) eqn:Ht.
  - exists (finished n). split; [done|]. change (mk_parser [] none [] (1, 1)) with (idle none). by rewrite complete_ok.
  - exists (finished n). by destruct n as [[] ? ? ? ? ? ? ? ?].
Qed.

Lemma leaf_run_number_nil n : number_ok n ->
  leaf_run (m_number n) [] = if in_terminal_state n then (fun e => [e]) <$> number_value n else None.
Proof.
  intros Hok. simpl. unfold leaf_step. destruct (number_eof n Hok) as (n' & _ & ->).
  destruct (in_terminal_state n); [|done]. unfold completed. by destruct (number_value n).
Qed.

Lemma leaf_run_number_cons n c u : number_ok n ->
  leaf_run (m_number n) (c :: u) = match number_next n c with Some n' => leaf_run (m_number n') u | None => None end.
Proof.
  intros Hok. cbn [leaf_run]. unfold leaf_step. destruct (number_step n c Hok) as [n' Hn Hok'|Hn Ht|n' e Hn _ _ He]; rewrite Hn; simpl.
  - by destruct n' as [[] ? ? ? ? ? ? ? ?].
  - unfold completed. by destruct (number_value n).
  - by rewrite decide_False.
Qed.

Lemma number_next_ok n c n' : number_ok n -> number_next n c = Some n' -> number_ok n'.
Proof. intros Hok E. destruct (number_step n c Hok); congruence. Qed.

(** Nothing that may follow a number continues it. *)
Lemma number_next_delim n c : number_ok n -> delim c = true -> in_terminal_state n = true -> number_next n c = None.
Proof.
  intros Hok Hd Ht. assert (isdigit c = false /\ c =? 46 = false /\ (c =? 101) || (c =? 69) = false) as (H1 & H2 & H3).
  { unfold delim, isspace, isdigit, tab, lf, cr, space in *. lia. }
  destruct n as [[] ? ? ? ? ? ? ? ?]; try done; unfold number_next; simpl; by rewrite ?H1, ?H2, ?H3.
Qed.

Lemma number_char n c : number_ok n ->
  leaf_after (m_number n) c (consume pow (m_number n) (Some c) (idle none)) /\
  leaf_next (consume pow (m_number n) (Some c) (idle none)) /\ leaf_end (consume pow (m_number n) None (idle none)).
Proof.
  intros Hok. split_and!.
  - unfold leaf_after. rewrite (leaf_run_number_nil n Hok).
    destruct (number_step n c Hok) as [n' Hn Hok'|Hn Ht|n' e Hn Hd Hdone He]; split; try done.
    + rewrite decide_True by done. intros Hr. destruct (delim c) eqn:Hd; [|done].
      destruct (in_terminal_state n) eqn:Ht; [|done]. by rewrite (number_next_delim n c) in Hn.
    + rewrite Ht. unfold completed. by destruct (number_value n).
    + rewrite decide_False by done. split; [by simpl; rewrite Hdone|]. intros Hr.
      destruct Hd as [Hd|Hd]; [by rewrite Hd in Hr|]. revert Hd. unfold delim, isspace, isdigit, tab, lf, cr, space. lia.
  - destruct (number_step n c Hok) as [n' Hn Hok'|Hn Ht|n' e Hn Hd Hdone He]; done.
  - destruct (number_eof n Hok) as (n' & Hd & ->). simpl. by rewrite Hd.
Qed.

(** *** Strings *)

(** The octets of a code point; those of the replacement character where it is none *)
Definition enc (cp : Z) : list Z :=
  utf8 (if ((cp >=? 55296) && (cp <? 57344)) || (cp >=? 1114112) then replacement_char_code_point else cp).

Definition pair_code_point (high low : Z) : Z := 65536 + Z.shiftl (Z.land high 1023) 10 + Z.land low 1023.

(** The appender after a code point and after a code unit, if it takes it *)
Definition after32 (cp : Z) (a : appender) : option appender :=
  if high_surrogate_ a =? 0 then Some (mk_appender (result_ a ++ enc cp) 0) else None.
Definition after16 (cu : Z) (a : appender) : option appender :=
  if is_utf16_high_surrogate cu then
    if high_surrogate_ a =? 0 then Some (mk_appender (result_ a) cu) else None
  else if is_utf16_low_surrogate cu then
    if high_surrogate_ a =? 0 then None
    else Some (mk_appender (result_ a ++ enc (pair_code_point (high_surrogate_ a) cu)) 0)
  else after32 cu a.

Definition app_ok (a : appender) : Prop := high_surrogate_ a = 0 \/ 55296 <= high_surrogate_ a <= 56319.

Lemma append32_ok cp a : 0 <= cp ->
  append32 cp a = Ok (match after32 cp a with Some a' => (true, a') | None => (false, a) end).
Proof.
  intros Hcp. unfold append32, after32, has_high_surrogate. destruct (high_surrogate_ a =? 0) eqn:E; simpl; [|done].
  rewrite (code_point_to_utf8_ok cp Hcp). simpl. apply Z.eqb_eq in E. by rewrite E.
Qed.

Lemma append16_ok cu a : 0 <= cu -> app_ok a ->
  append16 cu a = Ok (match after16 cu a with Some a' => (true, a') | None => (false, a) end).
Proof.
  intros Hcu Ha. unfold append16, after16, has_high_surrogate.
  destruct (is_utf16_high_surrogate cu); [by destruct (high_surrogate_ a =? 0)|].
  destruct (is_utf16_low_surrogate cu) eqn:Hlow.
  - destruct (high_surrogate_ a =? 0) eqn:E; simpl; [done|]. unfold utf16_to_code_point, nop_swapper.
    replace (is_utf16_high_surrogate (high_surrogate_ a)) with true by (unfold app_ok, is_utf16_high_surrogate in *; lia).
    replace ((cu <? 56320) || (cu >? 57343)) with false by (unfold is_utf16_low_surrogate in *; lia). cbn -[Z.shiftl Z.land code_point_to_utf8 enc].
    rewrite code_point_to_utf8_ok; [done|].
    pose proof (Z.shiftl_nonneg (Z.land (high_surrogate_ a) 1023) 10). pose proof (Z.land_nonneg (high_surrogate_ a) 1023).
    pose proof (Z.land_nonneg cu 1023). lia.
  - unfold after32. destruct (high_surrogate_ a =? 0) eqn:E; simpl; [|done]. rewrite (code_point_to_utf8_ok cu Hcu). simpl.
    apply Z.eqb_eq in E. by rewrite E.
Qed.

Lemma after32_ok cp a a' : after32 cp a = Some a' -> app_ok a'.
Proof. unfold after32. case_match; [|done]. intros [= <-]. by left. Qed.

Lemma after16_ok cu a a' : after16 cu a = Some a' -> app_ok a'.
Proof.
  unfold after16, is_utf16_high_surrogate, is_utf16_low_surrogate. repeat case_match; try done; intros E; simplify_eq.
  - right. simpl. lia.
  - by left.
  - by eapply after32_ok.
Qed.

(** The string after a code point that belongs to it *)
Definition hex_next (st : string_state) : string_state :=
  match st with hex1_state => hex2_state | hex2_state => hex3_state | hex3_state => hex4_state | _ => normal_char_state end.

Definition string_next (m : string_matcher) (cp : Z) : option string_matcher :=
  let to st a := mk_string st (decoder_ m) a (hex_ m) in
  match string_state_ m with
  | string_done => None
  | string_start => if cp =? 34 then Some (to normal_char_state (app_ m)) else None
  | normal_char_state =>
      if cp =? 34 then None
      else if cp =? 92 then Some (to escape_state (app_ m))
      else if cp <=? 31 then None
      else to normal_char_state <$> after32 cp (app_ m)
  | escape_state =>
      match escape_decode cp with
      | Some (_, hex1_state) => Some (to hex1_state (app_ m))
      | Some (cp, _) => to normal_char_state <$> after32 cp (app_ m)
      | None => None
      end
  | st =>
      match hex_value cp (match st with hex1_state => 0 | _ => hex_ m end) with
      | None => None
      | Some hex =>
          (fun a => mk_string (hex_next st) (decoder_ m) a hex) <$>
            match st with hex4_state => after16 hex (app_ m) | _ => Some (app_ m) end
      end
  end.

(** The closing quote *)
Definition string_closes (m : string_matcher) (cp : Z) : bool :=
  match string_state_ m with
  | normal_char_state => (cp =? 34) && (high_surrogate_ (app_ m) =? 0)
  | _ => false
  end.

Inductive string_steps (m : string_matcher) (cp : Z) : outcome unit * (string_matcher * parser) -> Prop :=
  | string_takes m' : string_next m cp = Some m' -> string_ok m' -> decoder_ m' = decoder_ m ->
      string_steps m cp (Ok tt, (m', idle none))
  | string_ends m' : string_next m cp = None -> string_closes m cp = true -> string_state_ m' = string_done ->
      string_steps m cp (Ok tt, (m', mk_parser [] none [string_value (result_ (app_ m))] (1, 1)))
  | string_fails m' e : string_next m cp = None -> string_closes m cp = false -> string_state_ m' = string_done -> e <> none ->
      string_steps m cp (Ok tt, (m', idle e)).

Lemma hex_value_range cp v x : 0 <= v < 4096 -> hex_value cp v = Some x -> 16 * v <= x < 16 * v + 16.
Proof.
  unfold hex_value. intros Hv H. repeat case_match; simplify_eq; rewrite wrap_small; lia.
Qed.

Ltac string_cbn := cbn -[append32 append16 after32 after16 escape_decode hex_value wrap Z.leb Z.eqb Z.ltb orb andb].

(** The states that read a hexadecimal digit *)
Lemma string_hex_step m cp : string_ok m ->
  match string_state_ m with hex1_state | hex2_state | hex3_state | hex4_state => True | _ => False end ->
  string_steps m cp (string_consume_code_point cp (m, idle none)).
Proof.
  intros (Hd & Ha & Hs) Hst. unfold string_consume_code_point. unfold bind at 1, this at 1, gets at 1. cbn beta iota.
  set (hex := match string_state_ m with hex1_state => 0 | _ => hex_ m end).
  assert (0 <= hex < 4096) as Hhex by (unfold hex; destruct (string_state_ m); lia).
  assert (forall x, hex_value cp hex = Some x -> x <= 65535) as Hx.
  { intros x E. apply hex_value_range in E; [|done]. lia. }
  destruct m as [st d a h]. simpl in *.
  destruct st; try done; string_cbn; rewrite ?bool_decide_eq_true_2, ?bool_decide_eq_false_2 by done; run_leaf; string_cbn;
    unfold consume_hex_state; fold hex; subst hex; destruct (hex_value cp _) as [x|] eqn:E.
  all: try (by apply string_fails; [unfold string_next; string_cbn; rewrite E|..]).
  all: pose proof (hex_value_range _ _ _ Hhex E) as Hr; replace (x <=? 65535) with true by (symmetry; apply Z.leb_le; by apply Hx).
  all: string_cbn; rewrite ?bool_decide_eq_false_2, ?bool_decide_eq_true_2 by done.
  1-3: apply string_takes; [unfold string_next; string_cbn; by rewrite E|repeat split; simpl; lia|done].
  rewrite (wrap_small 16 x) by lia.
  pose proof (append16_ok x a ltac:(lia) Ha) as E16. cbn [app_ fst]. rewrite E16. destruct (after16 x a) as [a'|] eqn:Ea; string_cbn.
  - apply string_takes; [unfold string_next; string_cbn; by rewrite E, Ea| |done]. repeat split; simpl; try lia. by eapply after16_ok.
  - apply string_fails; [unfold string_next; string_cbn; by rewrite E, Ea|done..].
Qed.

(** A run of [append32] in a state of the string *)
Ltac append cp a :=
  let E := fresh in
  pose proof (append32_ok cp a ltac:(lia)) as E; cbn [app_ fst]; rewrite E; clear E;
  let Ea := fresh "Ea" in destruct (after32 cp a) eqn:Ea; string_cbn.

Lemma string_step m cp : string_ok m -> 0 <= cp -> string_steps m cp (string_consume_code_point cp (m, idle none)).
Proof.
  intros Hok Hcp. destruct m as [st d a h]. destruct st; try (by apply string_hex_step); destruct (Hok) as (Hd & Ha & Hs); simpl in *; [done|..].
  - unfold string_consume_code_point. run_leaf. string_cbn. destruct (cp =? 34) eqn:E; string_cbn.
    + unfold has_high_surrogate. rewrite Hs. string_cbn. apply string_takes; [unfold string_next; string_cbn; by rewrite E| |done].
      repeat split; simpl; auto; lia.
    + apply string_fails; [unfold string_next; string_cbn; by rewrite E|done..].
  - unfold string_consume_code_point, consume_normal_state. run_leaf. string_cbn. destruct (cp =? 34) eqn:E; string_cbn.
    { unfold has_high_surrogate. destruct (high_surrogate_ a =? 0) eqn:Eh; string_cbn.
      - apply (string_ends (mk_string normal_char_state d a h)); unfold string_next, string_closes; string_cbn; by rewrite ?E, ?Eh.
      - apply string_fails; unfold string_next, string_closes; string_cbn; by rewrite ?E, ?Eh. }
    destruct (cp =? 92) eqn:E'; string_cbn.
    { apply string_takes; [unfold string_next; string_cbn; by rewrite E, E'|repeat split; simpl; auto; lia|done]. }
    destruct (cp <=? 31) eqn:E''; string_cbn.
    { apply string_fails; unfold string_next, string_closes; string_cbn; by rewrite ?E, ?E', ?E''. }
    append cp a.
    + apply string_takes; [unfold string_next; string_cbn; by rewrite E, E', E'', Ea| |done]. repeat split; simpl; try lia. by eapply after32_ok.
    + apply string_fails; unfold string_next, string_closes; string_cbn; by rewrite ?E, ?E', ?E'', ?Ea.
  - unfold string_consume_code_point, consume_escape_state. run_leaf. string_cbn.
    destruct (escape_decode cp) as [[cp' st]|] eqn:E; string_cbn.
    2: { apply string_fails; unfold string_next, string_closes; string_cbn; by rewrite ?E. }
    assert ((st = normal_char_state /\ 0 <= cp') \/ st = hex1_state) as [[-> Hcp']| ->].
    { revert E. unfold escape_decode. repeat case_match; intros [= <- <-]; auto; left; split; auto; lia. }
    all: rewrite ?bool_decide_eq_true_2, ?bool_decide_eq_false_2 by done; string_cbn.
    + append cp' a.
      * apply string_takes; [unfold string_next; string_cbn; by rewrite E, Ea| |done]. repeat split; simpl; try lia. by eapply after32_ok.
      * apply string_fails; unfold string_next, string_closes; string_cbn; by rewrite ?E, ?Ea.
    + apply string_takes; [unfold string_next; string_cbn; by rewrite E|repeat split; simpl; auto; lia|done].
Qed.

(** The decoder returns a code point, or waits with no harm done. *)
Lemma get_octet d b : 0 <= state_ d <= 8 -> 0 <= codepoint_ d -> 0 <= b < 256 ->
  exists o d', Utf.get d b = Ok (o, d') /\ (0 <= state_ d' <= 8 /\ 0 <= codepoint_ d') /\
    match o with Some cp => 0 <= cp /\ d' = initial_decoder | None => True end.
Proof.
  intros Hs Hc Hb. unfold Utf.get, decode. destruct (table_next (state_ d) b Hs Hb) as (type & E1 & E2 & _).
  rewrite E1. cbn [obind]. rewrite E2. cbn [obind].
  set (cp := if negb (state_ d =? accept) then _ else _).
  assert (0 <= cp) as Hcp.
  { unfold cp. case_match.
    - apply Z.lor_nonneg. split; [apply Z.land_nonneg; lia|]. apply wrap_range. lia.
    - apply Z.land_nonneg. lia. }
  pose proof (next_range (state_ d) b) as Hn. destruct (next (state_ d) b =? 0) eqn:E; simpl.
  - apply Z.eqb_eq in E. rewrite E. eexists _, _. split; [done|]. simpl. auto with lia.
  - eexists _, _. split; [done|]. simpl. auto.
Qed.

Definition with_decoder (d : utf8_decoder) (m : string_matcher) : string_matcher :=
  mk_string (string_state_ m) d (app_ m) (hex_ m).

Lemma string_consume_char m c : consume pow (m_string m) (Some c) (idle none) =
  match Utf.get (decoder_ m) c with
  | Ok (None, d) => (Ok (m_string (with_decoder d m), None, true), idle none)
  | Ok (Some cp, d) =>
      match string_consume_code_point cp (with_decoder d m, idle none) with
      | (Ok _, (m, p)) => (Ok (m_string m, None, true), p)
      | (Throw e, (_, p)) => (Throw e, p)
      end
  | Throw e => (Throw e, idle none)
  end.
Proof.
  unfold consume, run_matcher, string_consume. unfold bind, this, gets, lift, update, modify, ret.
  cbn -[Utf.get string_consume_code_point]. destruct (Utf.get (decoder_ m) c) as [[[cp|] d]|e]; try done.
  unfold with_decoder. cbn -[Utf.get string_consume_code_point].
  by destruct (string_consume_code_point cp _) as [[] [? ?]].
Qed.

Lemma leaf_run_string_nil m : leaf_run (m_string m) [] = None.
Proof. done. Qed.

Lemma with_decoder_ok d m : string_ok m -> 0 <= state_ d <= 8 /\ 0 <= codepoint_ d -> string_ok (with_decoder d m).
Proof. intros (_ & H) Hd. by split. Qed.

Lemma string_char m c : string_ok m -> 0 <= c < 256 ->
  leaf_after (m_string m) c (consume pow (m_string m) (Some c) (idle none)) /\
  leaf_next (consume pow (m_string m) (Some c) (idle none)) /\ leaf_end (consume pow (m_string m) None (idle none)).
Proof.
  intros Hok Hc. rewrite string_consume_char. destruct (Hok) as ([Hs Hcp] & _).
  destruct (get_octet (decoder_ m) c Hs Hcp Hc) as (o & d & E & Hd & Ho). rewrite E.
  assert (string_ok (with_decoder d m)) as Hok' by (apply with_decoder_ok; done).
  unfold leaf_after, leaf_next. rewrite leaf_run_string_nil.
  destruct o as [cp|].
  2: { split_and!; [done|by rewrite decide_True|by intros|done]. }
  destruct (string_step (with_decoder d m) cp Hok' (proj1 Ho)) as [m' _ Hm' _|m' _ _ Hm'|m' e _ _ Hm' He]; simpl; rewrite ?Hm'.
  all: split_and!; first [done|by rewrite decide_True|by rewrite decide_False|by intros].
Qed.

(** ** All leaves *)

Lemma leaf_char m c : leaf_ok m -> 0 <= c < 256 ->
  leaf_after m c (consume pow m (Some c) (idle none)) /\ leaf_next (consume pow m (Some c) (idle none)) /\
  leaf_end (consume pow m None (idle none)).
Proof. intros Hok Hc. destruct m; try done; [exact (token_char _ c Hok)|exact (number_char _ c Hok)|exact (string_char _ c Hok Hc)]. Qed.

(** ** The language of the keywords *)

Lemma leaf_run_token text e u ev : text <> [] -> Forall (fun c => c <> 0) text ->
  leaf_run (m_token (mk_token token_start text e)) u = Some ev <-> u = text /\ ev = [e].
Proof.
  intros Hne Hz. revert u. induction text as [|t text IH]; intros u; [done|]. inversion Hz as [|? ? Ht Hz']. subst.
  destruct u as [|c u].
  - split; [|by intros [? _]]. cbn [leaf_run]. unfold leaf_step, consume, run_matcher, token_consume. run_leaf. simpl.
    done.
  - cbn [leaf_run]. unfold leaf_step, consume, run_matcher, token_consume. run_leaf. simpl.
    destruct (decide (c = t)) as [->|Hct].
    2: { rewrite bool_decide_eq_true_2 by congruence. simpl. split; [done|]. by intros [[= ? _] _]. }
    rewrite bool_decide_eq_false_2 by (intros H; by apply H). simpl. destruct text as [|t' text].
    + simpl. destruct u as [|c u]; simpl; [split; [by intros [= <-]|by intros [_ ->]]|].
      unfold leaf_step, consume, run_matcher, token_consume. run_leaf. simpl. split; [|by intros [? _]].
      destruct (isalnum c) as [[]|]; simpl; done.
    + inversion Hz' as [|? ? Ht' _]. subst. simpl. rewrite bool_decide_eq_false_2 by done. simpl. rewrite (IH ltac:(done) Hz').
      split; [by intros [-> ->]|]. by intros [[= ->] ->].
Qed.

(** ** The language of numbers *)

Definition digits (ds : list Z) : Prop := Forall (fun c => isdigit c = true) ds.

(** [int] of the grammar *)
Definition int_ok (ip : list Z) : Prop :=
  match ip with
  | d :: ds => d = 48 /\ ds = [] \/ 49 <= d <= 57 /\ digits ds
  | [] => False
  end.

(** [frac] of the grammar: its digits, if it is there *)
Definition frac_ok (f : option (list Z)) : Prop := match f with Some ds => ds <> [] /\ digits ds | None => True end.
Definition frac_text (f : option (list Z)) : list Z := match f with Some ds => 46 :: ds | None => [] end.

(** [exp] of the grammar: the letter, the sign if there is one (true for minus), and the digits *)
Record exp_part := mk_exp { exp_letter : Z; exp_sign : option bool; exp_digits : list Z }.
Definition exp_ok (x : option exp_part) : Prop :=
  match x with
  | Some x => (exp_letter x = 101 \/ exp_letter x = 69) /\ exp_digits x <> [] /\ digits (exp_digits x)
  | None => True
  end.
Definition sign_text (s : option bool) : list Z := match s with Some true => [45] | Some false => [43] | None => [] end.
Definition exp_text (x : option exp_part) : list Z :=
  match x with Some x => exp_letter x :: sign_text (exp_sign x) ++ exp_digits x | None => [] end.

(** *** The arithmetic of the matcher *)

(** The value of the digits of the integer part, with the matcher's test for overflow *)
Fixpoint accumulate (acc : Z) (ds : list Z) : option Z :=
  match ds with
  | [] => Some acc
  | d :: ds => if acc >? ulong_max / 10 + 10 then None else accumulate (wrap64 (acc * 10 + (d - 48))) ds
  end.
Definition int_value (ip : list Z) : option Z := match ip with d :: ds => accumulate (d - 48) ds | [] => None end.

(** The matcher that has read these parts; [isint] tells whether there is neither a fraction nor an
    exponent. *)
Definition num (st : number_state) (neg isint : bool) (acc : Z) (fds : list Z) (en : bool) (eds : list Z) : number_matcher :=
  mk_number st neg isint acc
    (foldl (fun x c => SFadd prec emax (SFmul prec emax x (of_int 10)) (of_int (c - 48))) (of_int 0) fds)
    (foldl (fun x _ => SFmul prec emax x (of_int 10)) (of_int 1) fds)
    (if isint then of_int 0 else of_int acc) en
    (foldl (fun x c => wrap32 (x * 10 + (c - 48))) 0 eds).

(** The number that the matcher makes of a text, unless it reports an error *)
Definition number_event (neg : bool) (ip : list Z) (f : option (list Z)) (x : option exp_part) : option event :=
  match int_value ip with
  | None => None
  | Some acc =>
      number_value (num number_done neg (match f, x with None, None => true | _, _ => false end) acc
        (default [] f) (match x with Some x => bool_decide (exp_sign x = Some true) | None => false end)
        (match x with Some x => exp_digits x | None => [] end))
  end.

(** [number = [ minus ] int [ frac ] [ exp ]] and what is reported of it *)
Definition Number (t : list Z) (e : event) : Prop :=
  exists neg ip f x, int_ok ip /\ frac_ok f /\ exp_ok x /\
    t = (if neg : bool then [45] else []) ++ ip ++ frac_text f ++ exp_text x /\ number_event neg ip f x = Some e.

(** *** What is recognised from each state *)

Definition val (n : number_matcher) : option (list event) := (fun e => [e]) <$> number_value n.

Lemma digits_cons c ds : digits (c :: ds) <-> isdigit c = true /\ digits ds.
Proof. unfold digits. by rewrite Forall_cons. Qed.

(** No [e] is a digit, and none of the signs. *)
Lemma is_e_spec c : (c =? 101) || (c =? 69) = true <-> c = 101 \/ c = 69.
Proof. lia. Qed.
Lemma is_e_digit c : c = 101 \/ c = 69 -> isdigit c = false /\ c =? 46 = false.
Proof. unfold isdigit. lia. Qed.

Lemma run_nil st neg isint acc fds en eds : number_ok (num st neg isint acc fds en eds) ->
  leaf_run (m_number (num st neg isint acc fds en eds)) [] =
  if in_terminal_state (num st neg isint acc fds en eds) then val (num number_done neg isint acc fds en eds) else None.
Proof. apply leaf_run_number_nil. Qed.

(** [number_next] on a matcher that has read these parts *)
Lemma next_exponent_digit st neg acc fds en eds c : st = exponent_digit_state \/ st = exponent_initial_digit_state ->
  number_next (num st neg false acc fds en eds) c =
  if isdigit c then Some (num exponent_digit_state neg false acc fds en (eds ++ [c])) else None.
Proof. intros [-> | ->]; unfold num; rewrite foldl_app; reflexivity. Qed.

Lemma next_exponent_sign neg isint acc fds c :
  number_next (num exponent_sign_state neg isint acc fds false []) c =
  if c =? 43 then Some (num exponent_initial_digit_state neg false acc fds false [])
  else if c =? 45 then Some (num exponent_initial_digit_state neg false acc fds true [])
  else if isdigit c then Some (num exponent_digit_state neg false acc fds false [c])
  else None.
Proof. destruct isint; reflexivity. Qed.

Lemma next_frac_digit neg acc fds c :
  number_next (num frac_digit_state neg false acc fds false []) c =
  if (c =? 101) || (c =? 69) then Some (num exponent_sign_state neg false acc fds false [])
  else if isdigit c then Some (num frac_digit_state neg false acc (fds ++ [c]) false [])
  else None.
Proof. unfold num. rewrite !foldl_app. reflexivity. Qed.

Lemma next_frac_initial neg isint acc c :
  number_next (num frac_initial_digit_state neg isint acc [] false []) c =
  if isdigit c then Some (num frac_digit_state neg false acc [c] false []) else None.
Proof. destruct isint; reflexivity. Qed.

Lemma next_frac neg acc c :
  number_next (num frac_state neg true acc [] false []) c =
  if c =? 46 then Some (num frac_initial_digit_state neg true acc [] false [])
  else if (c =? 101) || (c =? 69) then Some (num exponent_sign_state neg true acc [] false [])
  else None.
Proof. reflexivity. Qed.

Lemma next_integer_digit neg acc c :
  number_next (num integer_digit_state neg true acc [] false []) c =
  if c =? 46 then Some (num frac_initial_digit_state neg false acc [] false [])
  else if (c =? 101) || (c =? 69) then Some (num exponent_sign_state neg false acc [] false [])
  else if isdigit c && negb (acc >? ulong_max / 10 + 10) then
    Some (num integer_digit_state neg true (wrap64 (acc * 10 + (c - 48))) [] false [])
  else None.
Proof. reflexivity. Qed.

Lemma next_initial neg c :
  number_next (num integer_initial_digit_state neg true 0 [] false []) c =
  if isdigit c then
    Some (if c =? 48 then num frac_state neg true 0 [] false [] else num integer_digit_state neg true (c - 48) [] false [])
  else None.
Proof. unfold number_next. simpl. by destruct (c =? 48). Qed.

Lemma run_exponent_digit neg acc fds en eds u ev :
  leaf_run (m_number (num exponent_digit_state neg false acc fds en eds)) u = Some ev <->
  digits u /\ val (num number_done neg false acc fds en (eds ++ u)) = Some ev.
Proof.
  revert eds. induction u as [|c u IH]; intros eds.
  - rewrite leaf_run_number_nil, app_nil_r by done. unfold val, digits. simpl. rewrite Forall_nil. tauto.
  - rewrite leaf_run_number_cons, digits_cons by done. rewrite next_exponent_digit by auto. destruct (isdigit c); [|naive_solver].
    rewrite IH, <- app_assoc. simpl. naive_solver.
Qed.

Lemma run_exponent_initial neg acc fds en u ev :
  leaf_run (m_number (num exponent_initial_digit_state neg false acc fds en [])) u = Some ev <->
  (u <> [] /\ digits u) /\ val (num number_done neg false acc fds en u) = Some ev.
Proof.
  destruct u as [|c u].
  - rewrite leaf_run_number_nil by done. simpl. naive_solver.
  - rewrite leaf_run_number_cons, digits_cons by done. rewrite next_exponent_digit by auto. destruct (isdigit c); [|naive_solver]. rewrite run_exponent_digit. simpl. naive_solver.
Qed.

Lemma run_exponent_sign neg isint acc fds u ev :
  leaf_run (m_number (num exponent_sign_state neg isint acc fds false [])) u = Some ev <->
  exists s ds, u = sign_text s ++ ds /\ (ds <> [] /\ digits ds) /\
    val (num number_done neg false acc fds (bool_decide (s = Some true)) ds) = Some ev.
Proof.
  destruct u as [|c u].
  { rewrite leaf_run_number_nil by done. simpl. split; [done|]. intros ([[]|] & ds & H & [Hn _] & _); by subst. }
  rewrite leaf_run_number_cons, next_exponent_sign by done.
  destruct (c =? 43) eqn:E1; [apply Z.eqb_eq in E1; subst c|destruct (c =? 45) eqn:E2; [apply Z.eqb_eq in E2; subst c|]]; cbn beta iota.
  - rewrite run_exponent_initial. split.
    + intros [H1 H2]. by exists (Some false), u.
    + intros ([[]|] & ds & H & Hd & Hv); simpl in H; simplify_eq; [done|]. by destruct Hd as [_ [? _]%digits_cons].
  - rewrite run_exponent_initial. split.
    + intros [H1 H2]. by exists (Some true), u.
    + intros ([[]|] & ds & H & Hd & Hv); simpl in H; simplify_eq; [done|]. by destruct Hd as [_ [? _]%digits_cons].
  - split.
    + destruct (isdigit c) eqn:Ec; [|done]. rewrite run_exponent_digit. intros [Hd Hv]. exists None, (c :: u). by rewrite digits_cons.
    + intros ([[]|] & ds & H & Hd & Hv); simpl in H; simplify_eq; try lia. destruct Hd as [_ [Hc Hd]%digits_cons]. rewrite Hc. by rewrite run_exponent_digit.
Qed.

(** The value of a number of these parts *)
Definition parts (neg isint : bool) (acc : Z) (fds : list Z) (x : option exp_part) : number_matcher :=
  num number_done neg isint acc fds (match x with Some x => bool_decide (exp_sign x = Some true) | None => false end)
    (match x with Some x => exp_digits x | None => [] end).

(** The number ends, or an exponent follows. *)
Lemma exp_tail neg isint acc fds u ev : 
  (u = [] /\ val (num number_done neg isint acc fds false []) = Some ev \/
   exists c u', u = c :: u' /\ (c = 101 \/ c = 69) /\
     leaf_run (m_number (num exponent_sign_state neg isint acc fds false [])) u' = Some ev) <->
  exists x, u = exp_text x /\ exp_ok x /\
    val (parts neg (match x with None => isint | _ => false end) acc fds x) = Some ev.
Proof.
  split.
  - intros [[-> Hv]|(c & u' & -> & Hc & (s & ds & -> & Hd & Hv)%run_exponent_sign)]; [by exists None|].
    by exists (Some (mk_exp c s ds)).
  - intros ([[c s ds]|] & -> & Hx & Hv); [right|by left]. destruct Hx as [Hc Hd]. exists c, (sign_text s ++ ds). split_and!; [done..|].
    apply run_exponent_sign. by exists s, ds.
Qed.

Lemma run_frac_digit neg acc fds u ev :
  leaf_run (m_number (num frac_digit_state neg false acc fds false [])) u = Some ev <->
  exists ds x, u = ds ++ exp_text x /\ digits ds /\ exp_ok x /\ val (parts neg false acc (fds ++ ds) x) = Some ev.
Proof.
  revert fds. induction u as [|c u IH]; intros fds.
  - rewrite run_nil by done. cbn [in_terminal_state num number_state_]. split.
    + intros Hv. exists [], None. rewrite (app_nil_r fds). unfold digits. rewrite Forall_nil. split_and!; [done..|exact Hv].
    + intros (ds & x & [-> Hx]%symmetry%app_nil & _ & _ & Hv). rewrite (app_nil_r fds) in Hv. by destruct x.
  - rewrite leaf_run_number_cons, next_frac_digit by done. destruct ((c =? 101) || (c =? 69)) eqn:He.
    + apply is_e_spec in He. pose proof (exp_tail neg false acc fds (c :: u) ev) as Ht. split.
      * intros Hr. destruct (proj1 Ht) as (x & Hx & Hok & Hv); [right; by exists c, u|]. exists [], x. rewrite (app_nil_r fds).
        unfold digits. rewrite Forall_nil. destruct x; done.
      * intros (ds & x & E & Hd & Hx & Hv). destruct ds as [|d ds].
        -- rewrite (app_nil_r fds) in Hv. destruct (proj2 Ht) as [[? _]|(c' & u' & [= <- <-] & _ & Hr)]; [|done|done].
           exists x. by destruct x.
        -- simplify_eq/=. apply digits_cons in Hd as [Hd _]. destruct (is_e_digit _ He) as [H _]. congruence.
    + destruct (isdigit c) eqn:Ed.
      * rewrite IH. split.
        -- intros (ds & x & -> & Hd & Hx & Hv). exists (c :: ds), x. rewrite digits_cons. rewrite <- app_assoc in Hv. done.
        -- intros (ds & x & E & Hd & Hx & Hv). destruct ds as [|d ds].
           { destruct x as [[c' s ds']|]; simplify_eq/=. destruct Hx as [Hx _]. apply is_e_spec in Hx. simpl in Hx. congruence. }
           simplify_eq/=. apply digits_cons in Hd as [_ Hd]. exists ds, x. rewrite <- app_assoc. done.
      * split; [done|]. intros (ds & x & E & Hd & Hx & Hv). destruct ds as [|d ds].
        -- destruct x as [[c' s ds']|]; simplify_eq/=. destruct Hx as [Hx _]. apply is_e_spec in Hx. simpl in Hx. congruence.
        -- simplify_eq/=. apply digits_cons in Hd as [Hd _]. congruence.
Qed.

Lemma run_frac_initial neg isint acc u ev :
  leaf_run (m_number (num frac_initial_digit_state neg isint acc [] false [])) u = Some ev <->
  exists ds x, u = ds ++ exp_text x /\ (ds <> [] /\ digits ds) /\ exp_ok x /\ val (parts neg false acc ds x) = Some ev.
Proof.
  destruct u as [|c u].
  - rewrite run_nil by done. cbn [in_terminal_state num number_state_]. simpl. split; [done|]. by intros (ds & x & [-> _]%symmetry%app_nil & [? _] & _).
  - rewrite leaf_run_number_cons, next_frac_initial by done. split.
    + destruct (isdigit c) eqn:Ed; [|done]. intros (ds & x & -> & Hd & Hx & Hv)%run_frac_digit.
      exists (c :: ds), x. by rewrite digits_cons.
    + intros (ds & x & E & [Hn Hd] & Hx & Hv). destruct ds as [|d ds]; simplify_eq/=. apply digits_cons in Hd as [-> Hd].
      apply run_frac_digit. by exists ds, x.
Qed.

(** What may follow the integer part *)
Definition after_int (neg : bool) (acc : Z) (u : list Z) (ev : list event) : Prop :=
  exists f x, u = frac_text f ++ exp_text x /\ frac_ok f /\ exp_ok x /\
    val (parts neg (match f, x with None, None => true | _, _ => false end) acc (default [] f) x) = Some ev.

Lemma after_int_point neg acc u ev :
  after_int neg acc (46 :: u) ev <->
  exists ds x, u = ds ++ exp_text x /\ (ds <> [] /\ digits ds) /\ exp_ok x /\ val (parts neg false acc ds x) = Some ev.
Proof.
  split.
  - intros (f & x & E & Hf & Hx & Hv). destruct f as [ds|].
    + simplify_eq/=. exists ds, x. by destruct x.
    + destruct x as [[c s ds]|]; simplify_eq/=. destruct Hx as [[?|?] _]; simpl in *; lia.
  - intros (ds & x & -> & Hd & Hx & Hv). exists (Some ds), x. done.
Qed.

Lemma after_int_exp neg acc isint c u ev : c = 101 \/ c = 69 ->
  after_int neg acc (c :: u) ev <-> leaf_run (m_number (num exponent_sign_state neg isint acc [] false [])) u = Some ev.
Proof.
  intros Hc. pose proof (exp_tail neg isint acc [] (c :: u) ev) as Ht. split.
  - intros (f & x & E & Hf & Hx & Hv). destruct f as [ds|]; [simplify_eq/=; lia|].
    destruct (proj2 Ht) as [[? _]|(c' & u' & [= <- <-] & _ & Hr)]; [|done|done]. exists x. by destruct x.
  - intros Hr. destruct (proj1 Ht) as (x & E & Hx & Hv); [right; by exists c, u|]. exists None, x. by destruct x.
Qed.

Lemma after_int_nil neg acc ev : after_int neg acc [] ev <-> val (num number_done neg true acc [] false []) = Some ev.
Proof.
  split; [|by exists None, None]. intros (f & x & E & Hf & Hx & Hv). destruct f as [ds|]; [done|]. by destruct x.
Qed.

Lemma after_int_other neg acc c u ev : c =? 46 = false -> (c =? 101) || (c =? 69) = false -> ~ after_int neg acc (c :: u) ev.
Proof.
  intros H1 H2 (f & x & E & Hf & Hx & Hv). destruct f as [ds|]; [simplify_eq/=; lia|]. destruct x as [[c' s ds]|]; simplify_eq/=.
  destruct Hx as [Hx _]. simpl in Hx. lia.
Qed.

Lemma run_frac neg acc u ev :
  leaf_run (m_number (num frac_state neg true acc [] false [])) u = Some ev <-> after_int neg acc u ev.
Proof.
  destruct u as [|c u]; [by rewrite run_nil, after_int_nil|].
  rewrite leaf_run_number_cons, next_frac by done. destruct (c =? 46) eqn:E1.
  - apply Z.eqb_eq in E1. subst c. by rewrite run_frac_initial, after_int_point.
  - destruct ((c =? 101) || (c =? 69)) eqn:E2.
    + apply is_e_spec in E2. by rewrite (after_int_exp neg acc true).
    + split; [done|]. by intros ?%after_int_other.
Qed.

Lemma run_integer_digit neg acc u ev :
  leaf_run (m_number (num integer_digit_state neg true acc [] false [])) u = Some ev <->
  exists ds acc' u', u = ds ++ u' /\ digits ds /\ accumulate acc ds = Some acc' /\ after_int neg acc' u' ev.
Proof.
  assert (forall acc c u, (exists ds acc' u', c :: u = ds ++ u' /\ digits ds /\ accumulate acc ds = Some acc' /\ after_int neg acc' u' ev)
    <-> after_int neg acc (c :: u) ev \/ isdigit c = true /\ acc >? ulong_max / 10 + 10 = false /\
        exists ds acc' u', u = ds ++ u' /\ digits ds /\ accumulate (wrap64 (acc * 10 + (c - 48))) ds = Some acc' /\ after_int neg acc' u' ev) as Hcons.
  { clear. intros acc c u. split.
    - intros (ds & acc' & u' & E & Hd & Ha & H). destruct ds as [|d ds]; simplify_eq/=; [by left|right].
      apply digits_cons in Hd as [Hc Hd]. destruct (acc >? _); [done|]. eauto 10.
    - intros [H|(Hc & Hg & ds & acc' & u' & -> & Hd & Ha & H)].
      + exists [], acc, (c :: u). unfold digits. by rewrite Forall_nil.
      + exists (c :: ds), acc', u'. rewrite digits_cons. cbn [accumulate]. by rewrite Hg. }
  revert acc. induction u as [|c u IH]; intros acc.
  - rewrite run_nil by done. cbn [in_terminal_state num number_state_]. rewrite <- (after_int_nil neg acc ev). split.
    + exists [], acc, []. unfold digits. by rewrite Forall_nil.
    + intros (ds & acc' & u' & [-> ->]%symmetry%app_nil & _ & [= ->] & H). done.
  - rewrite leaf_run_number_cons, next_integer_digit, Hcons by done.
    destruct (c =? 46) eqn:E1; [|destruct ((c =? 101) || (c =? 69)) eqn:E2].
    + apply Z.eqb_eq in E1. subst c. rewrite run_frac_initial, after_int_point. naive_solver.
    + apply is_e_spec in E2. pose proof (is_e_digit c E2) as [Hc _]. rewrite (after_int_exp neg acc false) by done.
      rewrite Hc. naive_solver.
    + pose proof (after_int_other neg acc c u ev E1 E2) as Hn. destruct (isdigit c) eqn:Ed; [|naive_solver].
      destruct (acc >? _) eqn:Eg; simpl; [naive_solver|]. rewrite IH. naive_solver.
Qed.

Lemma run_initial neg u ev :
  leaf_run (m_number (num integer_initial_digit_state neg true 0 [] false [])) u = Some ev <->
  exists ip acc u', u = ip ++ u' /\ int_ok ip /\ int_value ip = Some acc /\ after_int neg acc u' ev.
Proof.
  destruct u as [|c u].
  - rewrite run_nil by done. simpl. split; [done|]. by intros (ip & acc & u' & [-> _]%symmetry%app_nil & ? & _).
  - rewrite leaf_run_number_cons, next_initial by done. split.
    + destruct (isdigit c) eqn:Ed; [|done]. destruct (c =? 48) eqn:E0; cbn beta iota.
      * apply Z.eqb_eq in E0. subst c. rewrite run_frac. intros H. exists [48], 0, u. split_and!; [done|by left|done|done].
      * intros (ds & acc & u' & -> & Hd & Ha & H)%run_integer_digit. exists (c :: ds), acc, u'. split_and!; [done| |done|done].
        right. split; [|done]. unfold isdigit in Ed. lia.
    + intros ([|d ip] & acc & u' & E & Hip & Ha & H); simplify_eq/=. destruct Hip as [[-> ->]|[Hd Hip]].
      * simplify_eq/=. by rewrite run_frac.
      * replace (isdigit d) with true by (unfold isdigit; lia). replace (d =? 48) with false by lia.
        apply run_integer_digit. by exists ip, acc, u'.
Qed.

(** A number is recognised and reported as the grammar says. *)
Lemma leaf_run_number t ev : leaf_run (m_number new_number) t = Some ev <-> exists e, ev = [e] /\ Number t e.
Proof.
  assert (leaf_run (m_number new_number) t = Some ev <-> exists neg : bool, exists ip acc u',
    t = (if neg then [45] else []) ++ ip ++ u' /\ int_ok ip /\ int_value ip = Some acc /\ after_int neg acc u' ev) as ->.
  { change new_number with (num leading_minus_state false true 0 [] false []). destruct t as [|c u].
    - rewrite run_nil by done. simpl. split; [done|].
      by intros (neg & ip & acc & u' & [_ [-> _]%app_nil]%symmetry%app_nil & ? & _).
    - rewrite leaf_run_number_cons by done. destruct (c =? 45) eqn:E.
      + unfold number_next. simpl. rewrite E. change (set_neg _) with (num integer_initial_digit_state true true 0 [] false []).
        rewrite run_initial. apply Z.eqb_eq in E. subst c. split.
        * intros (ip & acc & u' & -> & H). by exists true, ip, acc, u'.
        * intros ([] & ip & acc & u' & H & Hip & Ha & Hu); simplify_eq/=; [by exists ip, acc, u'|].
          destruct ip as [|d ip]; simplify_eq/=. destruct Hip as [[? _]|[? _]]; lia.
      + replace (number_next (num leading_minus_state false true 0 [] false []) c)
          with (number_next (num integer_initial_digit_state false true 0 [] false []) c)
          by (unfold number_next; simpl; by rewrite E).
        rewrite <- (leaf_run_number_cons (num integer_initial_digit_state false true 0 [] false [])) by done.
        rewrite run_initial. split.
        * intros (ip & acc & u' & -> & H). by exists false, ip, acc, u'.
        * intros ([] & ip & acc & u' & H & Hip & Ha & Hu); [simplify_eq/=; lia|]. by exists ip, acc, u'. }
  unfold Number, number_event, after_int. split.
  - intros (neg & ip & acc & u' & -> & Hip & Ha & f & x & -> & Hf & Hx & Hv). unfold val in Hv.
    apply fmap_Some in Hv as (e & He & ->). exists e. split; [done|]. exists neg, ip, f, x. rewrite Ha. split_and!; done.
  - intros (e & -> & neg & ip & f & x & Hip & Hf & Hx & -> & He). destruct (int_value ip) as [acc|] eqn:Ea; [|done].
    exists neg, ip, acc, (frac_text f ++ exp_text x). split_and!; [done..|]. exists f, x. split_and!; [done..|].
    unfold val, parts. by rewrite He.
Qed.

(** *** Accuracy of the integers *)

Definition decimal (ds : list Z) : Z := foldl (fun x c => x * 10 + (c - 48)) 0 ds.

Lemma decimal_grows x ds : 0 <= x -> digits ds -> x <= foldl (fun x c => x * 10 + (c - 48)) x ds.
Proof.
  revert x. induction ds as [|c ds IH]; intros x Hx Hd; simpl; [lia|]. apply digits_cons in Hd as [Hc Hd].
  assert (0 <= c - 48 <= 9) by (unfold isdigit in Hc; lia). specialize (IH (x * 10 + (c - 48)) ltac:(lia) Hd). lia.
Qed.

(** Up to the largest [unsigned long] the digits denote what they say. *)
Lemma accumulate_exact acc ds : 0 <= acc -> digits ds ->
  foldl (fun x c => x * 10 + (c - 48)) acc ds < 2 ^ 64 ->
  accumulate acc ds = Some (foldl (fun x c => x * 10 + (c - 48)) acc ds).
Proof.
  revert acc. induction ds as [|c ds IH]; intros acc Ha Hd Hlt; [done|]. apply digits_cons in Hd as [Hc Hd]. cbn [accumulate foldl] in *.
  assert (0 <= c - 48 <= 9) as Hc' by (unfold isdigit in Hc; lia).
  pose proof (decimal_grows (acc * 10 + (c - 48)) ds ltac:(lia) Hd) as Hm.
  replace (acc >? ulong_max / 10 + 10) with false.
  2: { symmetry. change (ulong_max / 10 + 10) with 1844674407370955171. change (2 ^ 64) with 18446744073709551616 in Hlt. lia. }
  rewrite wrap_small by lia. apply IH; [lia|done|done].
Qed.

End leaves.
