(* ===== verification/JsonString.v ===== *)
(** * The strings of JSON

    The language of the string matcher of Json.v: the octets between the quotes are UTF-8, the
    code points follow the grammar of RFC 8259 with its escapes, surrogates come in pairs, and what
    is reported is the UTF-8 form of the code points that the text stands for. *)

From S2P Require Import Prelude Utf Json JsonLex.

(** ** The grammar *)

Definition hex_digit (c : Z) : option Z :=
  if (48 <=? c) && (c <=? 57) then Some (c - 48)
  else if (97 <=? c) && (c <=? 102) then Some (c - 87)
  else if (65 <=? c) && (c <=? 70) then Some (c - 55)
  else None.

(** Four hexadecimal digits *)
Definition hex4 (q : list Z) : option Z :=
  match q with
  | [a; b; c; d] =>
      match hex_digit a, hex_digit b, hex_digit c, hex_digit d with
      | Some a, Some b, Some c, Some d => Some (16 * (16 * (16 * a + b) + c) + d)
      | _, _, _, _ => None
      end
  | _ => None
  end.

(** The escapes of one character: quote, backslash, solidus, and the letters b, f, n, r and t *)
Definition escapes : list (Z * Z) := [(34, 34); (92, 92); (47, 47); (98, 8); (102, 12); (110, 10); (114, 13); (116, 9)].

Definition surrogate (u : Z) : bool := (55296 <=? u) && (u <=? 57343).

(** [chars 0 t v]: the text [t] between the quotes stands for [v], both as code points. In
    [chars hi t v] the high surrogate [hi] has been read and waits for the low one. *)
Inductive chars : Z -> list Z -> list Z -> Prop :=
  | chars_end : chars 0 [] []
  | chars_plain c t v : 32 <= c -> c <> 34 -> c <> 92 -> chars 0 t v -> chars 0 (c :: t) (c :: v)
  | chars_escape c x t v : (c, x) ∈ escapes -> chars 0 t v -> chars 0 (92 :: c :: t) (x :: v)
  | chars_unit q u t v : hex4 q = Some u -> surrogate u = false -> chars 0 t v -> chars 0 (92 :: 117 :: q ++ t) (u :: v)
  | chars_high q u t v : hex4 q = Some u -> is_utf16_high_surrogate u = true -> chars u t v ->
      chars 0 (92 :: 117 :: q ++ t) v
  | chars_low hi q u t v : hi <> 0 -> hex4 q = Some u -> is_utf16_low_surrogate u = true -> chars 0 t v ->
      chars hi (92 :: 117 :: q ++ t) (pair_code_point hi u :: v).

(** [string = quotation-mark *char quotation-mark]: the octets of the text and of the value *)
Definition String (t s : list Z) : Prop :=
  exists cps v, Forall scalar cps /\ t = mjoin (utf8 <$> 34 :: cps ++ [34]) /\ chars 0 cps v /\ s = mjoin (utf8 <$> v).

(** ** The matcher on code points *)

Fixpoint string_run (m : string_matcher) (cps : list Z) : option (list Z) :=
  match cps with
  | [] => None
  | cp :: cps =>
      match string_next m cp with
      | Some m' => string_run m' cps
      | None => if string_closes m cp then match cps with [] => Some (result_ (app_ m)) | _ => None end else None
      end
  end.

Definition str (st : string_state) (a : appender) (hex : Z) : string_matcher := mk_string st initial_decoder a hex.

Lemma json_hex_digit_range c x : hex_digit c = Some x -> 0 <= x < 16.
Proof. unfold hex_digit. repeat case_match; intros [= <-]; lia. Qed.

Lemma hex_value_digit c v : 0 <= v < 4096 -> hex_value c v = (fun x => 16 * v + x) <$> hex_digit c.
Proof.
  intros Hv. unfold hex_value, hex_digit. repeat case_match; try done; simpl; f_equal; rewrite wrap_small; lia.
Qed.

Lemma hex4_range q u : hex4 q = Some u -> 0 <= u < 65536.
Proof.
  destruct q as [|a [|b [|c [|d [|]]]]]; try done. simpl. intros H. repeat case_match; simplify_eq.
  repeat match goal with H : hex_digit _ = Some _ |- _ => apply json_hex_digit_range in H end. lia.
Qed.

Lemma hex4_length q u : hex4 q = Some u -> length q = 4%nat.
Proof. by destruct q as [|a [|b [|c [|d [|]]]]]. Qed.

(** A state that reads a digit, other than the last *)
Lemma run_digit st a h c cps : st = hex1_state \/ (st = hex2_state \/ st = hex3_state) /\ 0 <= h < 256 ->
  string_run (str st a h) (c :: cps) =
  match hex_digit c with
  | Some x => string_run (str (hex_next st) a (match st with hex1_state => x | _ => 16 * h + x end)) cps
  | None => None
  end.
Proof.
  intros Hst. destruct Hst as [-> |[[-> | ->] Hh]]; cbn [string_run]; unfold string_next; cbn [str string_state_ hex_];
    rewrite hex_value_digit by lia; by destruct (hex_digit c).
Qed.

Lemma run_last_digit a h c cps : 0 <= h < 4096 ->
  string_run (str hex4_state a h) (c :: cps) =
  match hex_digit c with
  | Some x => match after16 (16 * h + x) a with Some a' => string_run (str normal_char_state a' (16 * h + x)) cps | None => None end
  | None => None
  end.
Proof.
  intros Hh. cbn [string_run]. unfold string_next. cbn [str string_state_ hex_ app_]. rewrite hex_value_digit by lia.
  destruct (hex_digit c) as [x|]; [|done]. cbn [fmap option_fmap option_map]. by destruct (after16 (16 * h + x) a).
Qed.

(** The four digits of an escaped code unit *)
Lemma run_hex4 a h c1 c2 c3 c4 cps :
  string_run (str hex1_state a h) (c1 :: c2 :: c3 :: c4 :: cps) =
  match hex4 [c1; c2; c3; c4] with
  | Some u => match after16 u a with Some a' => string_run (str normal_char_state a' u) cps | None => None end
  | None => None
  end.
Proof.
  rewrite run_digit by auto. cbn [hex4]. destruct (hex_digit c1) as [x1|] eqn:E1; [|done].
  apply json_hex_digit_range in E1. cbn [hex_next]. rewrite run_digit by auto with lia. destruct (hex_digit c2) as [x2|] eqn:E2; [|done].
  apply json_hex_digit_range in E2. cbn [hex_next]. rewrite run_digit by auto with lia. destruct (hex_digit c3) as [x3|] eqn:E3; [|done].
  apply json_hex_digit_range in E3. cbn [hex_next]. rewrite run_last_digit by lia. by destruct (hex_digit c4).
Qed.

Lemma run_hex a h cps s :
  string_run (str hex1_state a h) cps = Some s <->
  exists q u cps' a', cps = q ++ cps' /\ hex4 q = Some u /\ after16 u a = Some a' /\
    string_run (str normal_char_state a' u) cps' = Some s.
Proof.
  split.
  - destruct cps as [|c1 [|c2 [|c3 [|c4 cps]]]]; [done| | | |rewrite run_hex4 by done].
    4: { destruct (hex4 _) as [u|] eqn:E; [|done]. destruct (after16 u a) as [a'|] eqn:Ea; [|done].
         intros Hr. by exists [c1; c2; c3; c4], u, cps, a'. }
    all: rewrite ?run_digit by auto with lia; destruct (hex_digit c1) as [x|] eqn:E; [|done]; apply json_hex_digit_range in E; cbn [hex_next];
      rewrite ?run_digit by auto with lia; try done; destruct (hex_digit c2) as [y|] eqn:E2; try done;
      apply json_hex_digit_range in E2; cbn [hex_next]; rewrite ?run_digit by auto with lia; try done; by destruct (hex_digit c3).
  - intros (q & u & cps' & a' & -> & Hq & Ha & Hr). destruct q as [|c1 [|c2 [|c3 [|c4 [|]]]]]; try done.
    cbn [app]. by rewrite run_hex4, Hq, Ha.
Qed.

(** *** The grammar of the text between the quotes *)

Lemma escape_decode_spec c x st : escape_decode c = Some (x, st) <->
  (c, x) ∈ escapes /\ st = normal_char_state \/ c = 117 /\ x = 117 /\ st = hex1_state.
Proof.
  split.
  - unfold escape_decode. repeat case_match; intros [= <- <-];
      repeat match goal with H : (c =? _) = true |- _ => apply Z.eqb_eq in H; subst c end;
      first [by right|left; split; [by apply (bool_decide_unpack _); vm_compute|done]].
  - intros [[Hin ->]|(-> & -> & ->)]; [|done]. unfold escapes in Hin.
    repeat (apply elem_of_cons in Hin as [[= -> ->]|Hin]; [done|]). by apply elem_of_nil in Hin.
Qed.

(** The first character of what stands between the quotes *)
Lemma chars_not_quote hi t v : chars hi t v -> head t <> Some 34.
Proof. destruct 1; simpl; congruence. Qed.

(** A code unit and the pending surrogate *)
Lemma after16_spec u a a' : 0 <= u -> app_ok a ->
  after16 u a = Some a' <->
  high_surrogate_ a = 0 /\ is_utf16_high_surrogate u = true /\ a' = mk_appender (result_ a) u \/
  high_surrogate_ a <> 0 /\ is_utf16_low_surrogate u = true /\
    a' = mk_appender (result_ a ++ enc (pair_code_point (high_surrogate_ a) u)) 0 \/
  high_surrogate_ a = 0 /\ surrogate u = false /\ a' = mk_appender (result_ a ++ enc u) 0.
Proof.
  intros Hu Ha. unfold after16, after32, is_utf16_high_surrogate, is_utf16_low_surrogate, surrogate.
  destruct ((u >=? 55296) && (u <=? 56319)) eqn:E1; [|destruct ((u >=? 56320) && (u <=? 57343)) eqn:E2];
    destruct (high_surrogate_ a =? 0) eqn:E3; split; try done.
  all: try (intros [= <-]; (left + (right; left) + (right; right)); split_and!; done || lia).
  all: intros [(? & ? & ->)|[(? & ? & ->)|(? & ? & ->)]]; done || lia.
Qed.

Lemma run_escape a h cps s :
  string_run (str escape_state a h) cps = Some s <->
  exists c cps', cps = c :: cps' /\
    ((exists x a', (c, x) ∈ escapes /\ after32 x a = Some a' /\ string_run (str normal_char_state a' h) cps' = Some s) \/
     c = 117 /\ string_run (str hex1_state a h) cps' = Some s).
Proof.
  destruct cps as [|c cps]; [split; [done|by intros (? & ? & ? & _)]|].
  cbn [string_run]. unfold string_next, string_closes. cbn [str string_state_ app_ hex_ decoder_].
  destruct (escape_decode c) as [[x st]|] eqn:E.
  - apply escape_decode_spec in E as [[Hin ->]|(-> & -> & ->)].
    + split.
      * destruct (after32 x a) as [a'|] eqn:Ea; [|done]. intros Hr. exists c, cps. eauto 10.
      * intros (c' & cps' & [= <- <-] & [(x' & a' & Hin' & Ha & Hr)|[-> _]]).
        -- assert (escape_decode c = Some (x, normal_char_state)) as E1 by (apply escape_decode_spec; auto).
           assert (escape_decode c = Some (x', normal_char_state)) as E2 by (apply escape_decode_spec; auto).
           simplify_eq. by rewrite Ha.
        -- assert (escape_decode 117 = Some (x, normal_char_state)) as E1 by (apply escape_decode_spec; auto). done.
    + split; [intros Hr; eauto 10|]. intros (c' & cps' & [= <- <-] & [(x & a' & Hin & _)|[_ Hr]]); [|done].
      assert (escape_decode 117 = Some (x, normal_char_state)) as E1 by (apply escape_decode_spec; auto). done.
  - split; [done|]. intros (c' & cps' & [= <- <-] & [(x & a' & Hin & _)|[-> _]]); [|done].
    assert (escape_decode c = Some (x, normal_char_state)) as E1 by (apply escape_decode_spec; auto). congruence.
Qed.

(** What follows a text [t] that has been read, down to the closing quote *)
Definition closes (a : appender) (cps s : list Z) : Prop :=
  exists t v, cps = t ++ [34] /\ chars (high_surrogate_ a) t v /\ s = result_ a ++ mjoin (enc <$> v).

Lemma closes_quote a cps s : closes a (34 :: cps) s <-> high_surrogate_ a = 0 /\ cps = [] /\ s = result_ a.
Proof.
  split.
  - intros (t & v & E & Hc & ->). pose proof (chars_not_quote _ _ _ Hc) as Hh. destruct t as [|c t]; simplify_eq/=.
    inversion Hc. by rewrite app_nil_r.
  - intros (Ha & -> & ->). exists [], []. rewrite Ha. split_and!; [done|constructor|by rewrite app_nil_r].
Qed.

Lemma closes_plain a c cps s : c <> 34 -> c <> 92 ->
  closes a (c :: cps) s <-> 32 <= c /\ exists a', after32 c a = Some a' /\ closes a' cps s.
Proof.
  intros H34 H92. unfold closes, after32. split.
  - intros (t & v & E & Hc & ->). destruct t as [|c' t]; [simplify_eq/=|]. injection E as <- ->. inversion Hc; simplify_eq. split; [done|].
    exists (mk_appender (result_ a ++ enc c) 0). replace (high_surrogate_ a =? 0) with true by lia. split; [done|].
    eexists t, _. split_and!; [done..|]. simpl. by rewrite <- app_assoc.
  - intros (Hge & a' & Ha & t & v & -> & Hc & ->). destruct (high_surrogate_ a =? 0) eqn:E; [|done]. apply Z.eqb_eq in E. simplify_eq/=.
    exists (c :: t), (c :: v). rewrite E. split_and!; [done|by constructor|]. simpl. by rewrite <- app_assoc.
Qed.

Lemma closes_escape a c cps s : app_ok a ->
  closes a (92 :: c :: cps) s <->
  (exists x a', (c, x) ∈ escapes /\ after32 x a = Some a' /\ closes a' cps s) \/
  c = 117 /\ exists q u cps' a', cps = q ++ cps' /\ hex4 q = Some u /\ after16 u a = Some a' /\ closes a' cps' s.
Proof.
  intros Hok. unfold closes. split.
  - intros (t & v & E & Hc & ->). destruct t as [|c1 [|c2 t]]; simplify_eq/=; [by inversion Hc|].
    inversion Hc as [|? ? ? ? ? ? ?|? x t' v' Hin Ht|q u t' v' Hq Hu Ht|q u t' v' Hq Hu Ht|hi q u t' v' Hhi Hq Hu Ht]; simplify_eq.
    + left. eexists x, _. unfold after32. replace (high_surrogate_ a =? 0) with true by lia. split_and!; [done..|].
      eexists t, _. split_and!; [done..|]. simpl. by rewrite <- app_assoc.
    + right. split; [done|]. exists q, u, (t' ++ [34]), (mk_appender (result_ a ++ enc u) 0).
      rewrite after16_spec by (done || by apply hex4_range in Hq as [? _]). rewrite <- app_assoc. split_and!; [done..|auto|].
      exists t', v'. split_and!; [done..|]. simpl. by rewrite <- app_assoc.
    + right. split; [done|]. exists q, u, (t' ++ [34]), (mk_appender (result_ a) u).
      rewrite after16_spec by (done || by apply hex4_range in Hq as [? _]). rewrite <- app_assoc. split_and!; [done..|auto|].
      by exists t', v.
    + right. split; [done|]. exists q, u, (t' ++ [34]), (mk_appender (result_ a ++ enc (pair_code_point (high_surrogate_ a) u)) 0).
      rewrite after16_spec by (done || by apply hex4_range in Hq as [? _]). rewrite <- app_assoc. split_and!; [done..|auto|].
      exists t', v'. split_and!; [done..|]. simpl. by rewrite <- app_assoc.
  - intros [(x & a' & Hin & Ha & t & v & -> & Hc & ->)|(-> & q & u & cps' & a' & -> & Hq & Ha & t & v & -> & Hc & ->)].
    + unfold after32 in Ha. destruct (high_surrogate_ a =? 0) eqn:E; [|done]. apply Z.eqb_eq in E. simplify_eq/=.
      exists (92 :: c :: t), (x :: v). rewrite E. split_and!; [done|by constructor|]. simpl. by rewrite <- app_assoc.
    + apply after16_spec in Ha; [|by apply hex4_range in Hq as [? _]|done].
      destruct Ha as [(E & Hu & ->)|[(E & Hu & ->)|(E & Hu & ->)]]; simpl in *.
      * exists (92 :: 117 :: q ++ t), v. rewrite E. split_and!; [simpl; by rewrite <- app_assoc|by eapply chars_high|done].
      * exists (92 :: 117 :: q ++ t), (pair_code_point (high_surrogate_ a) u :: v).
        split_and!; [simpl; by rewrite <- app_assoc|by apply chars_low|]. simpl. by rewrite <- app_assoc.
      * exists (92 :: 117 :: q ++ t), (u :: v). rewrite E.
        split_and!; [simpl; by rewrite <- app_assoc|by apply chars_unit|]. simpl. by rewrite <- app_assoc.
Qed.

Lemma run_normal n a h cps s : (length cps <= n)%nat -> app_ok a ->
  string_run (str normal_char_state a h) cps = Some s <-> closes a cps s.
Proof.
  revert a h cps. induction n as [n IH] using lt_wf_ind. intros a h cps Hlen Hok.
  destruct cps as [|c cps]; [split; [done|]; intros (t & v & E & _); by destruct t|].
  cbn [string_run]. unfold string_next, string_closes. cbn [str string_state_ app_ hex_ decoder_]. simpl in Hlen.
  destruct (c =? 34) eqn:E34; [|destruct (c =? 92) eqn:E92].
  - apply Z.eqb_eq in E34. subst c. rewrite closes_quote. cbn [andb]. destruct (high_surrogate_ a =? 0) eqn:E; [|split; [done|lia]].
    apply Z.eqb_eq in E. destruct cps; naive_solver.
  - apply Z.eqb_eq in E92. subst c. fold (str escape_state a h). rewrite run_escape. destruct cps as [|c cps].
    { split; [by intros (? & ? & ? & _)|]. intros (t & v & E & _). destruct t as [|? []]; simplify_eq/=. }
    rewrite closes_escape by done. simpl in Hlen. split.
    + intros (c' & cps1 & [= <- <-] & [(x & a' & Hin & Ha & Hr)|[-> (q & u & cps' & a' & -> & Hq & Ha & Hr)%run_hex]]).
      * left. exists x, a'. split_and!; [done..|]. apply (IH (length cps)) in Hr; [done|lia|lia|by eapply after32_ok].
      * right. split; [done|]. exists q, u, cps', a'. split_and!; [done..|]. rewrite length_app in Hlen.
        apply (IH (length cps')) in Hr; [done|lia|lia|by eapply after16_ok].
    + intros [(x & a' & Hin & Ha & Hr)|(-> & q & u & cps' & a' & -> & Hq & Ha & Hr)]; eexists _, _; (split; [done|]).
      * left. exists x, a'. split_and!; [done..|]. apply (IH (length cps)); [lia|lia|by eapply after32_ok|done].
      * right. split; [done|]. apply run_hex. exists q, u, cps', a'. split_and!; [done..|]. rewrite length_app in Hlen.
        apply (IH (length cps')); [lia|lia|by eapply after16_ok|done].
  - rewrite closes_plain by lia. destruct (c <=? 31) eqn:E31; [split; [done|lia]|]. cbn [andb].
    destruct (after32 c a) as [a'|] eqn:Ea; simpl; [|split; [done|naive_solver]]. fold (str normal_char_state a' h).
    rewrite (IH (length cps)) by (lia || by eapply after32_ok). split; [intros Hc; split; [lia|eauto]|]. intros (_ & a'' & [= <-] & Hc). done.
Qed.

(** ** The matcher on octets *)

Section string.

Context (pow : double -> double -> double).

Lemma initial_decoder_ok : 0 <= state_ initial_decoder <= 8 /\ 0 <= codepoint_ initial_decoder.
Proof. unfold initial_decoder, accept. simpl. lia. Qed.

Lemma string_not_done m : string_ok m -> is_done (m_string m) = false.
Proof. intros (_ & _ & H). simpl. by destruct (string_state_ m). Qed.

(** An octet that does not complete a code point *)
Lemma leaf_run_pending m b d bs : string_ok m -> Utf.get (decoder_ m) b = Ok (None, d) ->
  leaf_run pow (m_string m) (b :: bs) = leaf_run pow (m_string (with_decoder d m)) bs.
Proof.
  intros Hok E. cbn [leaf_run]. unfold leaf_step. rewrite string_consume_char, E. rewrite decide_True by done.
  change (is_done (m_string (with_decoder d m))) with (is_done (m_string m)). by rewrite string_not_done.
Qed.

(** One that completes it *)
Lemma leaf_run_code_point m b cp bs : string_ok m -> Utf.get (decoder_ m) b = Ok (Some cp, initial_decoder) -> 0 <= cp ->
  leaf_run pow (m_string m) (b :: bs) =
  match string_next (with_decoder initial_decoder m) cp with
  | Some m' => leaf_run pow (m_string m') bs
  | None => if string_closes m cp then match bs with [] => Some [string_value (result_ (app_ m))] | _ => None end else None
  end.
Proof.
  intros Hok E Hcp. cbn [leaf_run]. unfold leaf_step. rewrite string_consume_char, E.
  assert (string_ok (with_decoder initial_decoder m)) as Hok' by (apply with_decoder_ok; [done|apply initial_decoder_ok]).
  change (string_closes m cp) with (string_closes (with_decoder initial_decoder m) cp).
  change (result_ (app_ m)) with (result_ (app_ (with_decoder initial_decoder m))).
  destruct (string_step (with_decoder initial_decoder m) cp Hok' Hcp) as [m' -> Hm' _|m' -> -> Hm'|m' e -> -> Hm' He].
  - rewrite decide_True by done. by rewrite string_not_done.
  - rewrite decide_True by done. simpl. by rewrite Hm'.
  - by rewrite decide_False.
Qed.

(** The octets of a code point *)
Lemma leaf_run_octets n m bs c rest : string_ok m -> 0 <= c -> octets bs ->
  get_all (decoder_ m) bs = Ok (replicate n None ++ [Some c], initial_decoder) ->
  leaf_run pow (m_string m) (bs ++ rest) =
  match string_next (with_decoder initial_decoder m) c with
  | Some m' => leaf_run pow (m_string m') rest
  | None => if string_closes m c then match rest with [] => Some [string_value (result_ (app_ m))] | _ => None end else None
  end.
Proof.
  intros Hok Hc. revert m bs Hok. induction n as [|n IH]; intros m bs Hok Hb Hg.
  all: destruct bs as [|b bs]; [done|]; apply Forall_cons in Hb as [Hb Hbs]; destruct (Hok) as ([Hs Hp] & _);
    destruct (get_octet (decoder_ m) b Hs Hp Hb) as (o & d & E & Hd & Ho); rewrite (get_all_cons _ _ _ _ _ E) in Hg.
  all: destruct (get_all d bs) as [[os d']|] eqn:Eg; [|done]; cbn [obind replicate app fst snd] in Hg; simplify_eq.
  - destruct Ho as [_ ->]. destruct bs as [|b' bs].
    + by apply leaf_run_code_point.
    + apply Forall_cons in Hbs as [Hb' _]. destruct (get_octet initial_decoder b') as (o & d'' & E' & _); [apply initial_decoder_ok..|done|].
      rewrite (get_all_cons _ _ _ _ _ E') in Eg. by destruct (get_all d'' bs) as [[? ?]|].
  - cbn [app]. rewrite (leaf_run_pending m b d (bs ++ rest) Hok E). rewrite (IH (with_decoder d m)); [done|by apply with_decoder_ok|done|done].
Qed.

Lemma utf8_octets c : scalar c -> octets (utf8 c).
Proof.
  intros Hc. unfold octets. destruct (scalar_utf8 c Hc) as [[? ->]|[(x & y & ? & ? & ? & ->)|[(x & y & z & ? & ? & ? & ? & ? & ? & ->)|
    (w & x & y & z & ? & ? & ? & ? & ? & ? & ? & ->)]]]; repeat constructor; lia.
Qed.

Lemma leaf_run_utf8 m c rest : string_ok m -> decoder_ m = initial_decoder -> scalar c ->
  leaf_run pow (m_string m) (utf8 c ++ rest) =
  match string_next m c with
  | Some m' => leaf_run pow (m_string m') rest
  | None => if string_closes m c then match rest with [] => Some [string_value (result_ (app_ m))] | _ => None end else None
  end.
Proof.
  intros Hok Hd Hc. destruct (get_all_char c [] Hc) as (n & _ & E). rewrite app_nil_r in E. rewrite <- Hd in E.
  rewrite (leaf_run_octets n m (utf8 c) c rest Hok); [|unfold scalar in Hc; lia|by apply utf8_octets|].
  - destruct m as [st d a h]. simpl in *. by subst.
  - rewrite E. simpl. by rewrite Hd.
Qed.

(** The matcher is the automaton on code points, and takes nothing that is not UTF-8. *)
Lemma leaf_run_encoded cps : Forall scalar cps -> forall m ev, string_ok m -> decoder_ m = initial_decoder ->
  leaf_run pow (m_string m) (mjoin (utf8 <$> cps)) = Some ev <-> exists s, ev = [string_value s] /\ string_run m cps = Some s.
Proof.
  induction 1 as [|c cps Hc Hcps IH]; intros m ev Hok Hd; [split; [done|by intros (? & _ & ?)]|].
  change (mjoin (utf8 <$> c :: cps)) with (utf8 c ++ mjoin (utf8 <$> cps)). rewrite leaf_run_utf8 by done. cbn [string_run].
  assert (0 <= c) as Hc0 by (unfold scalar in Hc; lia).
  destruct (string_step m c Hok Hc0) as [m' -> Hm' Hd'|m' -> -> Hm'|m' e -> -> Hm' He].
  - apply IH; [done|congruence].
  - destruct Hcps as [|c' cps Hc' _]; [simpl; naive_solver|]. destruct (utf8_start c' Hc') as (b & bs & Eb & _).
    change (mjoin (utf8 <$> c' :: cps)) with (utf8 c' ++ mjoin (utf8 <$> cps)). rewrite Eb. simpl. naive_solver.
  - naive_solver.
Qed.

Lemma leaf_run_well_formed bs m ev : string_ok m -> octets bs -> leaf_run pow (m_string m) bs = Some ev ->
  exists os d, get_all (decoder_ m) bs = Ok (os, d) /\ well_formed_ d = true.
Proof.
  revert m. induction bs as [|b bs IH]; intros m Hok Hb Hr; [done|]. apply Forall_cons in Hb as [Hb Hbs].
  destruct (Hok) as ([Hs Hp] & _). destruct (get_octet (decoder_ m) b Hs Hp Hb) as (o & d & E & Hd & Ho).
  rewrite (get_all_cons _ _ _ _ _ E). destruct o as [cp|].
  - destruct Ho as [Hcp ->]. rewrite (leaf_run_code_point m b cp bs Hok E Hcp) in Hr.
    assert (string_ok (with_decoder initial_decoder m)) as Hok' by (apply with_decoder_ok; [done|apply initial_decoder_ok]).
    destruct (string_step (with_decoder initial_decoder m) cp Hok' Hcp) as [m' Hn Hm' Hd'|m' Hn Hcl Hm'|m' e Hn Hcl Hm' He]; rewrite Hn in Hr.
    + destruct (IH m' Hm' Hbs Hr) as (os & d & Eg & Hw). rewrite Hd' in Eg. simpl in Eg. rewrite Eg. simpl. eauto.
    + change (string_closes m cp) with (string_closes (with_decoder initial_decoder m) cp) in Hr. rewrite Hcl in Hr.
      destruct bs; [|done]. simpl. eauto.
    + change (string_closes m cp) with (string_closes (with_decoder initial_decoder m) cp) in Hr. by rewrite Hcl in Hr.
  - rewrite (leaf_run_pending m b d bs Hok E) in Hr. destruct (IH (with_decoder d m)) as (os & d' & Eg & Hw); [by apply with_decoder_ok|done|done|].
    simpl in Eg. rewrite Eg. simpl. eauto.
Qed.

Lemma enc_scalar c : scalar c -> enc c = utf8 c.
Proof. unfold enc, scalar. intros H. by replace (((c >=? 55296) && (c <? 57344)) || (c >=? 1114112)) with false by lia. Qed.

Lemma pair_scalar hi lo : 55296 <= hi <= 56319 -> is_utf16_low_surrogate lo = true -> scalar (pair_code_point hi lo).
Proof.
  intros Hhi Hlo. unfold scalar, pair_code_point.
  assert (0 <= Z.land hi 1023 < 2 ^ 10) by (apply land_ones_range; unfold is_utf16_low_surrogate in *; lia).
  assert (0 <= Z.land lo 1023 < 2 ^ 10) by (apply land_ones_range; unfold is_utf16_low_surrogate in *; lia).
  rewrite Z.shiftl_mul_pow2 by lia. lia.
Qed.

(** What a text of scalar values stands for is one again. *)
Lemma chars_scalar hi t v : chars hi t v -> hi = 0 \/ 55296 <= hi <= 56319 -> Forall scalar t -> Forall scalar v.
Proof.
  induction 1 as [|c t v H1 H2 H3 _ IH|c x t v Hin _ IH|q u t v Hq Hu _ IH|q u t v Hq Hu _ IH|hi q u t v Hhi Hq Hu _ IH]; intros Hr Ht.
  - constructor.
  - apply Forall_cons in Ht as [Hc Ht]. constructor; auto.
  - rewrite !Forall_cons in Ht. destruct Ht as (_ & _ & Ht). constructor; [|auto]. unfold escapes in Hin.
    repeat (apply elem_of_cons in Hin as [[= -> ->]|Hin]; [unfold scalar; lia|]). by apply elem_of_nil in Hin.
  - rewrite !Forall_cons, Forall_app in Ht. destruct Ht as (_ & _ & _ & Ht). constructor; [|auto].
    apply hex4_range in Hq. unfold surrogate, scalar in *. lia.
  - rewrite !Forall_cons, Forall_app in Ht. destruct Ht as (_ & _ & _ & Ht). apply IH; [|done].
    unfold is_utf16_high_surrogate in Hu. lia.
  - rewrite !Forall_cons, Forall_app in Ht. destruct Ht as (_ & _ & _ & Ht). constructor; [|auto].
    apply pair_scalar; [lia|done].
Qed.

(** A string is recognised and reported as the grammar says. *)
Lemma leaf_run_string t ev : octets t -> leaf_run pow (m_string new_string) t = Some ev <-> exists s, ev = [string_value s] /\ String t s.
Proof.
  intros Ht. assert (string_ok new_string) as Hok by (split; [apply initial_decoder_ok|by split; [left|]]).
  assert (forall cps s, Forall scalar cps -> string_run new_string cps = Some s <->
    exists cps' v, cps = 34 :: cps' ++ [34] /\ chars 0 cps' v /\ s = mjoin (utf8 <$> v)) as Hrun.
  { intros cps s Hcps. destruct cps as [|c cps]; [split; [done|by intros (? & ? & ? & _)]|].
    cbn [string_run]. unfold string_next, string_closes. cbn [new_string string_state_ app_ hex_ decoder_].
    destruct (c =? 34) eqn:E.
    - fold (str normal_char_state (mk_appender [] 0) 0). rewrite (run_normal (length cps)) by (done || by left).
      apply Z.eqb_eq in E. subst c. unfold closes. simpl. apply Forall_cons in Hcps as [_ Hcps].
      split; intros (t' & v & E' & Hc & ->); exists t', v; simplify_eq; (split_and!; [done..|]).
      all: rewrite Forall_app in Hcps; destruct Hcps as [Ht' _]; pose proof (chars_scalar _ _ _ Hc ltac:(auto) Ht') as Hv.
      all: f_equal; apply list_fmap_ext; intros i x Hx; first [apply enc_scalar|symmetry; apply enc_scalar]; by eapply Forall_lookup.
    - split; [done|]. intros (t' & v & E' & _). simplify_eq. }
  split.
  - intros Hr. destruct (leaf_run_well_formed t new_string ev Hok Ht Hr) as (os & d & Eg & Hw).
    destruct (get_all_decoded (length t) t os d) as (cps & Hcps & ->); [lia|done|done|done|].
    apply leaf_run_encoded in Hr as (s & -> & Hr); [|done..]. exists s. split; [done|].
    apply Hrun in Hr as (cps' & v & -> & Hc & ->); [|done]. exists cps', v. split_and!; [|done..].
    apply Forall_cons in Hcps as [_ Hcps]. by apply Forall_app in Hcps as [? _].
  - intros (s & -> & cps & v & Hcps & -> & Hc & ->).
    assert (Forall scalar (34 :: cps ++ [34])) as Hall.
    { constructor; [unfold scalar; lia|]. apply Forall_app. split; [done|]. constructor; [unfold scalar; lia|constructor]. }
    apply leaf_run_encoded; [done..|]. eexists. split; [done|]. apply Hrun; [done|]. by exists cps, v.
Qed.

End string.
