(* ===== verification/JsonSpec.v ===== *)
(** * The parser and the grammar of JSON

    [Document] is the grammar of RFC 8259 together with the calls that the matchers make on a text,
    computed as they compute them; JsonGrammar.v relates it to a grammar of tokens. [Rest]
    extends it to the states of the parser: the texts that can still follow, and the calls they
    will cause, for a given stack. Every turn of the parser's loop preserves [Rest] exactly, and
    brings the parser closer to the next character, so that the parser accepts the grammar and
    nothing else, on any division of the text into pieces. *)

From Stdlib Require Import SpecFloat.
From S2P Require Import Prelude Utf Json JsonLex JsonString.

Section spec.

Context (pow : double -> double -> double).

(** ** The grammar *)

Definition ws (w : list Z) : Prop := Forall (fun c => isspace c = true) w.

(** [Value n t e]: the text [t] is a value that causes the calls [e]. A value whose text opens no
    bracket with something inside needs [n = 1], and every such bracket around it one more. *)
Inductive Value : nat -> list Z -> list event -> Prop :=
  | V_true n : Value (S n) text_true [boolean_value true]
  | V_false n : Value (S n) text_false [boolean_value false]
  | V_null n : Value (S n) text_null [null_value]
  | V_number n t e : Number pow t e -> Value (S n) t [e]
  | V_string n t s : String t s -> Value (S n) t [string_value s]
  | V_empty_array n w : ws w -> Value (S n) (91 :: w ++ [93]) [begin_array; end_array]
  | V_array n t e : Elements n t e -> Value (S n) (91 :: t ++ [93]) (begin_array :: e ++ [end_array])
  | V_empty_object n w : ws w -> Value (S n) (123 :: w ++ [125]) [begin_object; end_object]
  | V_object n t e : Members n t e -> Value (S n) (123 :: t ++ [125]) (begin_object :: e ++ [end_object])
with Elements : nat -> list Z -> list event -> Prop :=
  | E_one n w1 t w2 e : ws w1 -> Value n t e -> ws w2 -> Elements n (w1 ++ t ++ w2) e
  | E_more n w1 t w2 e t' e' : ws w1 -> Value n t e -> ws w2 -> Elements n t' e' ->
      Elements n (w1 ++ t ++ w2 ++ 44 :: t') (e ++ e')
with Members : nat -> list Z -> list event -> Prop :=
  | M_one n w1 k s w2 w3 t w4 e : ws w1 -> String k s -> ws w2 -> ws w3 -> Value n t e -> ws w4 ->
      Members n (w1 ++ k ++ w2 ++ 58 :: w3 ++ t ++ w4) (string_value s :: e)
  | M_more n w1 k s w2 w3 t w4 e t' e' : ws w1 -> String k s -> ws w2 -> ws w3 -> Value n t e -> ws w4 ->
      Members n t' e' ->
      Members n (w1 ++ k ++ w2 ++ 58 :: w3 ++ t ++ w4 ++ 44 :: t') (string_value s :: e ++ e').

(** [JSON-text = ws value ws]; the parser's stack, of 200 entries, admits nesting up to here. *)
Definition Document (t : list Z) (e : list event) : Prop :=
  exists w1 v w2, ws w1 /\ Value 198 v e /\ ws w2 /\ t = w1 ++ v ++ w2.

(** ** The texts that can follow *)

Definition lang : Type := list Z -> list event -> Prop.
Definition then_ (A B : lang) : lang :=
  fun u e => exists u1 u2 e1 e2, u = u1 ++ u2 /\ e = e1 ++ e2 /\ A u1 e1 /\ B u2 e2.
Definition word (t : list Z) (e0 : list event) : lang := fun u e => u = t /\ e = e0.
Definition or_ (A B : lang) : lang := fun u e => A u e \/ B u e.
Definition blank : lang := fun u e => ws u /\ e = [].

Definition value_lang (only_string : bool) (n : nat) : lang :=
  if only_string then fun u e => n <> 0%nat /\ exists s, String u s /\ e = [string_value s] else Value n.

Definition root_lang (only_string : bool) (n : nat) : lang := then_ blank (value_lang only_string n).

Definition array_items (n : nat) : lang := then_ (Elements (pred n)) (word [93] [end_array]).
Definition array_comma (n : nat) : lang :=
  then_ blank (or_ (word [93] [end_array]) (then_ (word [44] []) (array_items n))).

Definition object_members (n : nat) : lang := then_ (Members (pred n)) (word [125] [end_object]).
Definition object_comma (n : nat) : lang :=
  then_ blank (or_ (word [125] [end_object]) (then_ (word [44] []) (object_members n))).
Definition object_value (n : nat) : lang := then_ (root_lang false (pred n)) (object_comma n).
Definition object_colon (n : nat) : lang := then_ blank (then_ (word [58] []) (object_value n)).

Definition matcher_lang (n : nat) (m : matcher) : lang :=
  match m with
  | m_token _ | m_number _ | m_string _ => fun u e => leaf_run pow m u = Some e
  | m_array a =>
      match array_state_ a with
      | array_start => then_ (word [91] [begin_array]) (then_ blank (or_ (word [93] [end_array]) (array_items n)))
      | first_object_state => or_ (word [93] [end_array]) (array_items n)
      | object_state => array_items n
      | array_comma_state => array_comma n
      | array_done => fun _ _ => False
      end
  | m_object o =>
      match object_state_ o with
      | object_start => then_ (word [123] [begin_object]) (then_ blank (or_ (word [125] [end_object]) (object_members n)))
      | first_key_state => or_ (word [125] [end_object]) (object_members n)
      | key_state => object_members n
      | colon_state => object_colon n
      | value_state => object_value n
      | object_comma_state => object_comma n
      | object_done => fun _ _ => False
      end
  | m_whitespace _ => blank
  | m_eof _ => word [] []
  | m_root r =>
      match root_state_ r with
      | root_start => root_lang (only_string_ r) n
      | new_token_state => value_lang (only_string_ r) n
      | root_done => fun _ _ => False
      end
  end.

Fixpoint Rest (st : list matcher) : lang :=
  match st with
  | [] => word [] []
  | m :: st => then_ (matcher_lang (200 - length st) m) (Rest st)
  end.

(** ** The stacks that arise *)

Definition tws (st : whitespace_state) : matcher := m_whitespace (mk_whitespace st true).

(** Below a value *)
Inductive waiting : list matcher -> Prop :=
  | waiting_bottom : waiting [tws whitespace_start; m_eof (mk_eof eof_start)]
  | waiting_array st : waiting st -> (length st <= 199)%nat -> waiting (m_array (mk_array array_comma_state) :: st)
  | waiting_object st : waiting st -> (length st <= 199)%nat -> waiting (m_object (mk_object object_comma_state) :: st).

(** Below a key *)
Definition waiting_key (st : list matcher) : Prop :=
  exists st', st = m_object (mk_object colon_state) :: st' /\ waiting st' /\ (length st' <= 199)%nat.

Definition is_string (m : matcher) : bool := match m with m_string _ => true | _ => false end.

(** Stacks without white space on top *)
Inductive plain_ok : list matcher -> Prop :=
  | ok_leaf m st : leaf_ok m -> waiting st \/ is_string m = true /\ waiting_key st -> plain_ok (m :: st)
  | ok_root r (os : bool) st : r <> root_done -> (if os then waiting_key st else waiting st) ->
      (r = new_token_state -> (length st <= 199)%nat) -> plain_ok (m_root (mk_root r os) :: st)
  | ok_array a st : a <> array_done -> waiting st -> (length st <= 199)%nat -> plain_ok (m_array (mk_array a) :: st)
  | ok_object o st : o <> object_done -> waiting st -> (length st <= 199)%nat -> plain_ok (m_object (mk_object o) :: st).

(** What may stand under white space *)
Definition opens (m : matcher) : bool :=
  match m with
  | m_root r => match root_state_ r with new_token_state => true | _ => false end
  | m_array a => match array_state_ a with first_object_state | array_comma_state => true | _ => false end
  | m_object o => match object_state_ o with first_key_state | colon_state | object_comma_state => true | _ => false end
  | _ => false
  end.

Inductive stack_ok : list matcher -> Prop :=
  | ok_eof : stack_ok [m_eof (mk_eof eof_start)]
  | ok_trailing w : w <> whitespace_done -> stack_ok [tws w; m_eof (mk_eof eof_start)]
  | ok_plain st : plain_ok st -> stack_ok st
  | ok_whitespace w m st : w <> whitespace_done -> opens m = true -> plain_ok (m :: st) ->
      stack_ok (m_whitespace (mk_whitespace w false) :: m :: st).

(** A fresh array or object expects its bracket. *)
Definition ready (st : list matcher) (ch : option Z) : Prop :=
  stack_ok st /\
  match st with
  | m_array a :: _ => array_state_ a = array_start -> ch = Some 91
  | m_object o :: _ => object_state_ o = object_start -> ch = Some 123
  | _ => True
  end.

(** How many turns the loop may need for a character *)
Definition rank (st : list matcher) (c : Z) : nat :=
  match st with
  | m_whitespace _ :: below => if isspace c then 0 else match below with m_root _ :: _ => 4 | m_eof _ :: _ => 1 | _ => 7 end
  | m_array a :: _ =>
      match array_state_ a with first_object_state | object_state => 6 | array_comma_state => 1 | _ => 0 end
  | m_object o :: _ =>
      match object_state_ o with first_key_state | key_state | value_state => 6 | colon_state | object_comma_state => 1 | _ => 0 end
  | m_root r :: _ => match root_state_ r with root_start => 5 | new_token_state => 3 | root_done => 0 end
  | m_eof _ :: _ => 0
  | _ :: _ => 2
  | [] => 0
  end.

(** What a turn of the loop does: it goes on with the languages in step, or stops with an error
    where no text could have followed. *)
Definition follows (st st' : list matcher) (c : Z) (b : bool) (e : list event) : Prop :=
  forall u ev, octets (c :: u) ->
    Rest st (c :: u) ev <-> exists ev', ev = e ++ ev' /\ Rest st' (if b then u else c :: u) ev'.

Definition stuck (st : list matcher) (c : Z) : Prop := forall u ev, octets (c :: u) -> ~ Rest st (c :: u) ev.

Definition step_spec (p : parser) (c : Z) (r : outcome (option bool) * parser) : Prop :=
  match r with
  | (Ok (Some b), p') =>
      error_ p' = none /\ ready (stack_ p') (if b then None else Some c) /\ (b = false -> (rank (stack_ p') c < rank (stack_ p) c)%nat) /\
      exists e, callbacks_ p' = callbacks_ p ++ e /\ follows (stack_ p) (stack_ p') c b e
  | (Ok None, p') => error_ p' <> none /\ stuck (stack_ p) c
  | (Throw x, _) => x = Undefined /\ 128 <= c /\ stuck (stack_ p) c
  end.

(** ** Languages *)

#[local] Instance lang_equiv : Equiv lang := fun A B => forall u e, A u e <-> B u e.
#[local] Instance lang_equivalence : Equivalence (≡@{lang}).
Proof.
  split; [by intros A u e|by intros A B H u e; symmetry|]. intros A B C H1 H2 u e. by rewrite (H1 u e).
Qed.
#[local] Instance then_proper : Proper ((≡) ==> (≡) ==> (≡)) then_.
Proof.
  intros A A' HA B B' HB u e. unfold then_. split; intros (u1 & u2 & e1 & e2 & -> & -> & H1 & H2);
    exists u1, u2, e1, e2; (split_and!; [done..|by apply HA|by apply HB]).
Qed.
#[local] Instance or_proper : Proper ((≡) ==> (≡) ==> (≡)) or_.
Proof. intros A A' HA B B' HB u e. unfold or_. by rewrite (HA u e), (HB u e). Qed.

Lemma then_assoc A B C : then_ (then_ A B) C ≡ then_ A (then_ B C).
Proof.
  intros u e. split.
  - intros (u12 & u3 & e12 & e3 & -> & -> & (u1 & u2 & e1 & e2 & -> & -> & HA & HB) & HC).
    exists u1, (u2 ++ u3), e1, (e2 ++ e3). rewrite !app_assoc. split_and!; [done..|]. by exists u2, u3, e2, e3.
  - intros (u1 & u23 & e1 & e23 & -> & -> & HA & (u2 & u3 & e2 & e3 & -> & -> & HB & HC)).
    exists (u1 ++ u2), u3, (e1 ++ e2), e3. rewrite !app_assoc. split_and!; [done..| |done]. by exists u1, u2, e1, e2.
Qed.

Lemma or_then A B C : then_ (or_ A B) C ≡ or_ (then_ A C) (then_ B C).
Proof.
  intros u e. split.
  - intros (u1 & u2 & e1 & e2 & -> & -> & [HA|HB] & HC); [left|right]; by exists u1, u2, e1, e2.
  - intros [(u1 & u2 & e1 & e2 & -> & -> & HA & HC)|(u1 & u2 & e1 & e2 & -> & -> & HA & HC)];
      exists u1, u2, e1, e2; (split_and!; [done..| |done]); [by left|by right].
Qed.

Lemma word_nil A : then_ (word [] []) A ≡ A.
Proof.
  intros u e. split; [by intros (u1 & u2 & e1 & e2 & -> & -> & [-> ->] & H)|]. intros H. by exists [], u, [], e.
Qed.

(** A text that starts with a given character *)
Lemma word_cons c d e0 A u e : then_ (word [d] e0) A (c :: u) e <-> c = d /\ exists e', e = e0 ++ e' /\ A u e'.
Proof.
  split.
  - intros (u1 & u2 & e1 & e2 & E & -> & [-> ->] & H). simplify_eq/=. eauto.
  - intros (-> & e' & -> & H). by exists [d], u, e0, e'.
Qed.

Lemma word_empty d e0 A e : ~ then_ (word [d] e0) A [] e.
Proof. by intros (u1 & u2 & e1 & e2 & E & _ & [-> _] & _). Qed.

Lemma or_cons A B u e : or_ A B u e <-> A u e \/ B u e.
Proof. done. Qed.

(** White space: it is optional, absorbs more of itself, and leaves other characters alone. *)
Lemma blank_intro A u e : A u e -> then_ blank A u e.
Proof. intros H. exists [], u, [], e. split_and!; [done..| |done]. split; [constructor|done]. Qed.

Lemma blank_other A c u e : isspace c = false -> then_ blank A (c :: u) e <-> A (c :: u) e.
Proof.
  intros Hc. split; [|apply blank_intro]. intros (u1 & u2 & e1 & e2 & E & -> & [Hw ->] & H).
  destruct u1 as [|d u1]; simplify_eq/=; [done|]. apply Forall_cons in Hw as [Hd _]. congruence.
Qed.

Lemma blank_space A c u e : isspace c = true -> (A (c :: u) e -> then_ blank A u e) ->
  then_ blank A (c :: u) e <-> then_ blank A u e.
Proof.
  intros Hc Ha. split.
  - intros (u1 & u2 & e1 & e2 & E & -> & [Hw ->] & H). destruct u1 as [|d u1]; simplify_eq/=; [by apply Ha|].
    apply Forall_cons in Hw as [_ Hw]. exists u1, u2, [], e2. done.
  - intros (u1 & u2 & e1 & e2 & -> & -> & [Hw ->] & H). exists (c :: u1), u2, [], e2. split_and!; [done..| |done].
    split; [by constructor|done].
Qed.

Lemma blank_blank A : then_ blank (then_ blank A) ≡ then_ blank A.
Proof.
  intros u e. split; [|apply blank_intro].
  intros (u1 & u2 & e1 & e2 & -> & -> & [Hw ->] & (u3 & u4 & e3 & e4 & -> & -> & [Hw' ->] & H)).
  exists (u1 ++ u3), u4, [], e4. rewrite app_assoc. split_and!; [done..| |done]. split; [by apply Forall_app|done].
Qed.

(** *** Lists of elements and members *)

(** Texts that differ in the grouping of their parts *)
Ltac assoc := solve [repeat (progress (cbn [app]; rewrite <- ?app_assoc)); done].

Lemma items_unfold n : array_items n ≡ then_ (root_lang false (pred n)) (array_comma n).
Proof.
  intros u e. unfold array_items, root_lang, array_comma, value_lang. split.
  - intros (t0 & u2 & e0 & e2 & -> & -> & HE & [-> ->]).
    inversion HE as [k w1 t w2 e1 Hw1 Ht Hw2|k w1 t w2 e1 t' e' Hw1 Ht Hw2 HE']; subst.
    + exists (w1 ++ t), (w2 ++ [93]), e0, [end_array]. split_and!; [assoc|assoc| |].
      * by exists w1, t, [], e0.
      * exists w2, [93], [], [end_array]. split_and!; [done..|]. by left.
    + exists (w1 ++ t), (w2 ++ 44 :: t' ++ [93]), e1, (e' ++ [end_array]).
      split_and!; [assoc|assoc|by exists w1, t, [], e1|].
      exists w2, (44 :: t' ++ [93]), [], (e' ++ [end_array]). split_and!; [done..|]. right.
      apply word_cons. split; [done|]. eexists. split; [done|]. by exists t', [93], e', [end_array].
  - intros (? & ? & ? & ? & -> & -> & (w1 & t & ? & e1 & -> & -> & [Hw1 ->] & Ht) & (w2 & u2 & ? & e2 & -> & -> & [Hw2 ->] & H)).
    destruct H as [[-> ->]|(? & ? & ? & ? & -> & -> & [-> ->] & (t' & ? & e' & ? & -> & -> & HE & [-> ->]))].
    + exists (w1 ++ t ++ w2), [93], e1, [end_array]. split_and!; [assoc|done| |done]. by constructor.
    + exists (w1 ++ t ++ w2 ++ 44 :: t'), [93], (e1 ++ e'), [end_array].
      split_and!; [assoc|assoc| |done]. by constructor.
Qed.

Lemma value_nonzero n t e : Value n t e -> n <> 0%nat.
Proof. by destruct 1. Qed.

(** A member, up to the comma or the bracket behind it *)
Lemma colon_intro n w2 w3 t u e e' : ws w2 -> ws w3 -> Value (pred n) t e -> object_comma n u e' ->
  object_colon n (w2 ++ 58 :: w3 ++ t ++ u) (e ++ e').
Proof.
  intros Hw2 Hw3 Ht Hu. exists w2, (58 :: w3 ++ t ++ u), [], (e ++ e'). split_and!; [done..|].
  apply word_cons. split; [done|]. eexists. split; [done|]. exists (w3 ++ t), u, e, e'. split_and!; [assoc|done| |done].
  by exists w3, t, [], e.
Qed.

Lemma colon_elim n u ev : object_colon n u ev ->
  exists w2 w3 t u' e e', u = w2 ++ 58 :: w3 ++ t ++ u' /\ ev = e ++ e' /\ ws w2 /\ ws w3 /\ Value (pred n) t e /\ object_comma n u' e'.
Proof.
  intros (w2 & ? & ? & ? & -> & -> & [Hw2 ->] & (? & ? & ? & ? & -> & -> & [-> ->] & (? & u' & e & e' & -> & -> & (w3 & t & ? & e1 & -> & -> & [Hw3 ->] & Ht) & Hu))).
  exists w2, w3, t, u', e1, e'. split_and!; [assoc|done..].
Qed.

Lemma members_unfold n : object_members n ≡ then_ (root_lang true (pred n)) (object_colon n).
Proof.
  intros u ev. split.
  - intros (t0 & u2 & e0 & e2 & -> & -> & HE & [-> ->]).
    inversion HE as [k w1 kt s w2 w3 t w4 e Hw1 Hk Hw2 Hw3 Ht Hw4|k w1 kt s w2 w3 t w4 e t' e' Hw1 Hk Hw2 Hw3 Ht Hw4 HE']; subst.
    all: pose proof (value_nonzero _ _ _ Ht) as Hn.
    + exists (w1 ++ kt), (w2 ++ 58 :: w3 ++ t ++ w4 ++ [125]), [string_value s], (e ++ [end_object]). split_and!.
      * assoc.
      * done.
      * exists w1, kt, [], [string_value s]. split_and!; [done..|]. split; [done|]. by exists s.
      * apply colon_intro; [done..|]. exists w4, [125], [], [end_object]. split_and!; [done..|]. by left.
    + exists (w1 ++ kt), (w2 ++ 58 :: w3 ++ t ++ w4 ++ 44 :: t' ++ [125]), [string_value s], (e ++ e' ++ [end_object]). split_and!.
      * assoc.
      * assoc.
      * exists w1, kt, [], [string_value s]. split_and!; [done..|]. split; [done|]. by exists s.
      * apply colon_intro; [done..|]. exists w4, (44 :: t' ++ [125]), [], (e' ++ [end_object]). split_and!; [done..|]. right.
        apply word_cons. split; [done|]. eexists. split; [done|]. by exists t', [125], e', [end_object].
  - intros (? & ? & ? & ? & -> & -> & (w1 & kt & ? & ? & -> & -> & [Hw1 ->] & [_ (s & Hk & ->)]) & Hc).
    destruct (colon_elim _ _ _ Hc) as (w2 & w3 & t & u' & e & e' & -> & -> & Hw2 & Hw3 & Ht & (w4 & ? & ? & ? & -> & -> & [Hw4 ->] & H)).
    destruct H as [[-> ->]|(? & ? & ? & ? & -> & -> & [-> ->] & (t' & ? & e'' & ? & -> & -> & HE & [-> ->]))].
    + exists (w1 ++ kt ++ w2 ++ 58 :: w3 ++ t ++ w4), [125], (string_value s :: e), [end_object].
      split_and!; [assoc|done| |done]. by constructor.
    + exists (w1 ++ kt ++ w2 ++ 58 :: w3 ++ t ++ w4 ++ 44 :: t'), [125], (string_value s :: e ++ e''), [end_object].
      split_and!; [assoc|assoc| |done].
      by constructor.
Qed.

(** ** A turn of the loop *)

(** The end of a turn, by what [consume] returned *)
Lemma input_step_ok m below p c m' new b q : stack_ p = m :: below -> consume pow m (Some c) p = (Ok (m', new, b), q) ->
  error_ q = none ->
  let st := if is_done m' then below else m' :: below in
  exists p', callbacks_ p' = callbacks_ q /\
    match new with
    | Some n =>
        if (200 <? length st)%nat then input_step pow c p = (Ok None, p') /\ error_ p' <> none
        else input_step pow c p = (Ok (Some b), p') /\ error_ p' = none /\ stack_ p' = n :: st
    | None => input_step pow c p = (Ok (Some b), p') /\ error_ p' = none /\ stack_ p' = st
    end.
Proof.
  intros Hst Hc Hq st. unfold input_step, input_push. unfold bind, gets, modify, ret, massert, oassert, lift, has_error.
  rewrite Hst. cbn -[consume is_done length Nat.ltb]. rewrite Hc. cbn -[is_done length Nat.ltb].
  rewrite Hq. cbn -[is_done length Nat.ltb]. subst st. unfold max_stack_depth_.
  destruct (is_done m'), new as [n|]; cbn -[Nat.ltb length]; try destruct (200 <? _)%nat; cbn -[Nat.ltb length]; rewrite ?Hq;
    cbn -[Nat.ltb length].
  all: destruct b; try destruct (is_utf_char_start c); cbn -[Nat.ltb length].
  all: eexists; refine (conj _ (conj eq_refl _)); done.
Qed.

Lemma input_step_error m below p c m' new b q : stack_ p = m :: below -> consume pow m (Some c) p = (Ok (m', new, b), q) ->
  error_ q <> none -> is_done m' = true -> exists p', input_step pow c p = (Ok None, p') /\ error_ p' <> none.
Proof.
  intros Hst Hc Hq Hd. unfold input_step. unfold bind, gets, modify, ret, has_error.
  rewrite Hst. cbn -[consume is_done]. rewrite Hc. cbn -[is_done]. rewrite Hd.
  destruct (error_ q) eqn:E; cbn; [done|..]; eexists; (split; [done|]); cbn; by rewrite E.
Qed.

Lemma input_step_throw m below p c x q : stack_ p = m :: below -> consume pow m (Some c) p = (Throw x, q) ->
  input_step pow c p = (Throw x, q).
Proof. intros Hst Hc. unfold input_step. unfold bind, gets. rewrite Hst. cbn -[consume]. by rewrite Hc. Qed.

(** The turns by their form: the matcher stays, ends, or pushes another one. *)
Lemma step_stay m below p c m' b q e : stack_ p = m :: below -> consume pow m (Some c) p = (Ok (m', None, b), q) ->
  error_ q = none -> callbacks_ q = callbacks_ p ++ e ->
  let st := if is_done m' then below else m' :: below in
  ready st (if b then None else Some c) -> (b = false -> (rank st c < rank (m :: below) c)%nat) -> follows (m :: below) st c b e ->
  step_spec p c (input_step pow c p).
Proof.
  intros Hst Hc Hq Hcb st Hok Hr Hf. destruct (input_step_ok _ _ _ _ _ _ _ _ Hst Hc Hq) as (p' & Hcb' & -> & He & Hs).
  unfold step_spec. rewrite Hs, Hst. split_and!; [done..|]. exists e. by rewrite Hcb'.
Qed.

Lemma step_push m below p c m' n b q e : stack_ p = m :: below -> consume pow m (Some c) p = (Ok (m', Some n, b), q) ->
  error_ q = none -> callbacks_ q = callbacks_ p ++ e ->
  let st := if is_done m' then below else m' :: below in
  ((length st <= 200)%nat -> ready (n :: st) (if b then None else Some c) /\ (b = false -> (rank (n :: st) c < rank (m :: below) c)%nat) /\ follows (m :: below) (n :: st) c b e) ->
  ((200 < length st)%nat -> stuck (m :: below) c) ->
  step_spec p c (input_step pow c p).
Proof.
  intros Hst Hc Hq Hcb st Hin Hout. destruct (input_step_ok _ _ _ _ _ _ _ _ Hst Hc Hq) as (p' & Hcb' & H). fold st in H.
  destruct (200 <? length st)%nat eqn:E; destruct H as [-> H]; unfold step_spec; rewrite Hst.
  - apply Nat.ltb_lt in E. auto.
  - apply Nat.ltb_ge in E. destruct (Hin E) as (Hok & Hr & Hf). destruct H as [He Hs]. rewrite Hs. split_and!; [done..|]. exists e. by rewrite Hcb'.
Qed.

Lemma step_error m below p c m' new b q : stack_ p = m :: below -> consume pow m (Some c) p = (Ok (m', new, b), q) ->
  error_ q <> none -> is_done m' = true -> stuck (m :: below) c -> step_spec p c (input_step pow c p).
Proof.
  intros Hst Hc Hq Hd Hs. destruct (input_step_error _ _ _ _ _ _ _ _ Hst Hc Hq Hd) as (p' & -> & He). unfold step_spec. by rewrite Hst.
Qed.

(** *** Leaves *)

(** What follows a value starts with a delimiter. *)
Lemma comma_first (close : Z) (e0 : list event) (A B : lang) c u ev : isspace c = false ->
  then_ (then_ blank (or_ (word [close] e0) (then_ (word [44] []) A))) B (c :: u) ev ->
  c = close \/ c = 44.
Proof.
  intros Hc H. rewrite (then_assoc _ _ _ _ _), blank_other in H by done. rewrite (or_then _ _ _ _ _) in H.
  destruct H as [H|H]; [|rewrite (then_assoc _ _ _ _ _) in H]; apply word_cons in H as [-> _]; auto.
Qed.

Lemma waiting_first st c u ev : waiting st -> Rest st (c :: u) ev -> delim c = true.
Proof.
  intros Hw H. unfold delim. destruct (isspace c) eqn:Hc; [done|]. destruct Hw as [|st Hw Hl|st Hw Hl]; cbn [Rest matcher_lang tws] in H.
  - rewrite blank_other in H by done. by destruct (proj1 (word_nil _ _ _) H).
  - apply comma_first in H; [|done]. destruct H as [-> | ->]; done.
  - apply comma_first in H; [|done]. destruct H as [-> | ->]; done.
Qed.

Lemma waiting_ready st ch : waiting st -> ready st ch.
Proof. intros Hw. split; [|by destruct Hw]. destruct Hw; [by apply ok_trailing|apply ok_plain; by constructor..]. Qed.

Lemma waiting_key_ready st ch : waiting_key st -> ready st ch.
Proof. intros (st' & -> & Hw & Hl). split; [|done]. apply ok_plain. by constructor. Qed.

(** A leaf on a stack, and the text that follows *)
Lemma rest_leaf m st u ev : is_leaf m = true ->
  Rest (m :: st) u ev <-> exists u1 u2 e1 e2, u = u1 ++ u2 /\ ev = e1 ++ e2 /\ leaf_run pow m u1 = Some e1 /\ Rest st u2 e2.
Proof. by destruct m. Qed.

Lemma leaf_ok_is m : leaf_ok m -> is_leaf m = true.
Proof. by destruct m. Qed.

(** The characters of a leaf's text; the case of an empty text is excluded where the next
    character is none that may follow. *)
Lemma rest_leaf_cons m st c u ev : is_leaf m = true -> (leaf_run pow m [] <> None -> delim c = false) ->
  (leaf_run pow m [] <> None -> waiting st) ->
  Rest (m :: st) (c :: u) ev <-> exists u1 u2 e1 e2, u = u1 ++ u2 /\ ev = e1 ++ e2 /\ leaf_run pow m (c :: u1) = Some e1 /\ Rest st u2 e2.
Proof.
  intros Hm Hd Hw. rewrite rest_leaf by done. split.
  - intros (u1 & u2 & e1 & e2 & E & -> & Hr & H). destruct u1 as [|d u1]; simplify_eq/=.
    + assert (match leaf_step pow m None with Some (_, e, _) => Some e | None => None end <> None) as Hn by congruence.
      specialize (Hd Hn). pose proof (waiting_first _ _ _ _ (Hw Hn) H). congruence.
    + by exists u1, u2, e1, e2.
  - intros (u1 & u2 & e1 & e2 & -> & -> & Hr & H). by exists (c :: u1), u2, e1, e2.
Qed.

Lemma leaf_nil_waiting m st : leaf_ok m -> waiting st \/ is_string m = true /\ waiting_key st -> leaf_run pow m [] <> None -> waiting st.
Proof. intros Hok [Hw|[Hs _]] Hr; [done|]. by destruct m. Qed.

Lemma consume_kind m ch p m' new b q : consume pow m ch p = (Ok (m', new, b), q) -> is_string m' = is_string m.
Proof. destruct m; unfold consume, run_matcher; intros H; by repeat case_match; simplify_eq. Qed.

Lemma step_leaf m below p c : leaf_ok m -> waiting below \/ is_string m = true /\ waiting_key below ->
  stack_ p = m :: below -> error_ p = none -> 0 <= c < 256 -> step_spec p c (input_step pow c p).
Proof.
  intros Hok Hw Hst He Hc. pose proof (leaf_ok_is m Hok) as Hm. destruct (leaf_char pow m c Hok Hc) as (Hafter & Hnext & _).
  pose proof (consume_leaf pow m (Some c) p Hm) as Hcons. rewrite He in Hcons.
  assert (forall ch, ready below ch) as Hbelow by (intros ch; destruct Hw as [Hw|[_ Hw]]; [by apply waiting_ready|by apply waiting_key_ready]).
  pose proof (leaf_nil_waiting m below Hok Hw) as Hnil.
  assert (forall u1, leaf_run pow m (c :: u1) = match leaf_step pow m (Some c) with
      | Some (m', e, true) => if is_done m' then match u1 with [] => Some e | _ => None end else leaf_run pow m' u1 | _ => None end) as Hrun by done.
  unfold leaf_step in Hrun. destruct (consume pow m (Some c) (idle none)) as [[[[m' first] b]|x] q] eqn:Eq; simpl in Hafter.
  - destruct Hafter as [-> Hafter]. destruct (decide (error_ q = none)) as [Hq|Hq].
    + destruct b.
      * destruct (is_done m') eqn:Hd.
        -- eapply (step_stay m below p c m' true (graft p q) (callbacks_ q)); rewrite ?Hd; try done.
           intros u ev Hu. rewrite rest_leaf_cons by auto. setoid_rewrite Hrun. split.
           ++ intros (u1 & u2 & e1 & e2 & -> & -> & Hr & H). destruct u1; [|done]. simplify_eq. eauto.
           ++ intros (ev' & -> & H). by exists [], u, (callbacks_ q), ev'.
        -- destruct (Hnext Hq Hd) as [Hok' Hcb].
           eapply (step_stay m below p c m' true (graft p q) []); rewrite ?Hd; try done; [simpl; by rewrite Hcb| |].
           ++ split; [|by destruct m']. apply ok_plain, ok_leaf; [done|]. by rewrite (consume_kind _ _ _ _ _ _ _ Eq).
           ++ intros u ev Hu. rewrite rest_leaf_cons by auto. setoid_rewrite Hrun.
              setoid_rewrite (rest_leaf m' below u _ (leaf_ok_is m' Hok')). naive_solver.
      * destruct Hafter as [Hr Hd]. change (leaf_run pow m [] = Some (callbacks_ q)) in Hr.
        eapply (step_stay m below p c m' false (graft p q) (callbacks_ q)); rewrite ?Hd; try done.
        -- intros _. assert (waiting below) as Hwb by (apply Hnil; by rewrite Hr).
           destruct m; try done; destruct Hwb; simpl; destruct (isspace c); lia.
        -- intros u ev Hu. rewrite rest_leaf by done. split.
           ++ intros (u1 & u2 & e1 & e2 & E & -> & Hr' & H). destruct u1 as [|d u1].
              ** rewrite Hr in Hr'. simplify_eq/=. eauto.
              ** injection E as <- ->. by rewrite Hrun in Hr'.
           ++ intros (ev' & -> & H). by exists [], (c :: u), (callbacks_ q), ev'.
    + destruct Hafter as [Hd Hdel]. eapply (step_error m below p c m' None b (graft p q)); try done.
      intros u ev Hu. rewrite rest_leaf_cons by auto. setoid_rewrite Hrun. by intros (? & ? & ? & ? & _ & _ & ? & _).
  - destruct Hafter as [-> Hc']. rewrite (input_step_throw m below p c Undefined (graft p q) Hst Hcons). unfold step_spec. rewrite Hst.
    split_and!; [done..|]. intros u ev Hu. rewrite rest_leaf_cons; [|done| |done].
    + setoid_rewrite Hrun. by intros (? & ? & ? & ? & _ & _ & ? & _).
    + intros _. unfold delim, isspace, tab, lf, cr, space. lia.
Qed.

(** *** The first character of a value *)

Lemma number_head t e : Number pow t e -> exists c u, t = c :: u /\ (c =? 45) || isdigit c = true.
Proof.
  intros (neg & ip & f & x & Hip & _ & _ & -> & _). destruct ip as [|d ip]; [done|]. destruct neg.
  - by eexists 45, _.
  - exists d. eexists. split; [done|]. unfold isdigit. destruct Hip as [[-> _]|[? _]]; lia.
Qed.

Lemma string_head t s : String t s -> exists u, t = 34 :: u.
Proof. intros (cps & v & _ & -> & _). by eexists. Qed.

Lemma value_nil n e : ~ Value n [] e.
Proof.
  intros H. inversion H as [| | |k t e' Hn|k t s Hs| | | |].
  - by apply number_head in Hn as (? & ? & ? & _).
  - by apply string_head in Hs as (? & ?).
Qed.

Lemma elements_blank n w t e : ws w -> Elements n t e -> Elements n (w ++ t) e.
Proof.
  intros Hw H. inversion H as [k w1 t1 w2 e1 Hw1 Ht Hw2|k w1 t1 w2 e1 t' e' Hw1 Ht Hw2 HE]; subst; rewrite app_assoc; constructor; try done;
    by apply Forall_app.
Qed.

Lemma members_blank n w t e : ws w -> Members n t e -> Members n (w ++ t) e.
Proof.
  intros Hw H. inversion H; subst; rewrite app_assoc; constructor; try done; by apply Forall_app.
Qed.

(** The matcher for a value that starts with a given character *)
Definition value_matcher (c : Z) : option matcher :=
  if (c =? 45) || isdigit c then Some (m_number new_number)
  else if c =? 34 then Some (m_string new_string)
  else if c =? 116 then Some (m_token (mk_token token_start text_true (boolean_value true)))
  else if c =? 102 then Some (m_token (mk_token token_start text_false (boolean_value false)))
  else if c =? 110 then Some (m_token (mk_token token_start text_null null_value))
  else if c =? 91 then Some (m_array (mk_array array_start))
  else if c =? 123 then Some (m_object (mk_object object_start))
  else None.

(** Each production in the language of its matcher *)
Lemma value_into n c t e : octets (c :: t) -> Value (S n) (c :: t) e ->
  exists m, value_matcher c = Some m /\ matcher_lang (S n) m (c :: t) e.
Proof.
  intros Ho H. inversion H as [? E1 E2|? E1 E2|? E1 E2|k t' e' Hn|k t' s Hs|k w Hw|k t' e' HE|k w Hw|k t' e' HE]; subst.
  1-3: eexists; split; [done|]; apply leaf_run_token; [done|repeat constructor; lia|done].
  - destruct (number_head _ _ Hn) as (c' & u & [= <- <-] & Hc). unfold value_matcher. rewrite Hc. eexists. split; [done|].
    apply leaf_run_number. eauto.
  - destruct (string_head _ _ Hs) as (u & [= -> ->]). eexists. split; [done|]. apply leaf_run_string; [done|]. eauto.
  - eexists. split; [done|]. apply word_cons. split; [done|]. exists [end_array]. split; [done|]. exists w, [93], [], [end_array].
    split_and!; [done..|]. by left.
  - eexists. split; [done|]. apply word_cons. split; [done|]. exists (e' ++ [end_array]). split; [done|]. apply blank_intro. right.
    by exists t', [93], e', [end_array].
  - eexists. split; [done|]. apply word_cons. split; [done|]. exists [end_object]. split; [done|]. exists w, [125], [], [end_object].
    split_and!; [done..|]. by left.
  - eexists. split; [done|]. apply word_cons. split; [done|]. exists (e' ++ [end_object]). split; [done|]. apply blank_intro. right.
    by exists t', [125], e', [end_object].
Qed.

Lemma value_from n c t e m : octets (c :: t) -> value_matcher c = Some m -> matcher_lang (S n) m (c :: t) e -> Value (S n) (c :: t) e.
Proof.
  intros Ho Hm H. unfold value_matcher in Hm. repeat case_match; simplify_eq; cbn [matcher_lang] in H.
  - apply leaf_run_number in H as (e' & -> & H). by constructor.
  - apply leaf_run_string in H as (s & -> & H); [|done]. by constructor.
  - apply leaf_run_token in H as [-> ->]; [constructor|done|repeat constructor; lia].
  - apply leaf_run_token in H as [-> ->]; [constructor|done|repeat constructor; lia].
  - apply leaf_run_token in H as [-> ->]; [constructor|done|repeat constructor; lia].
  - apply word_cons in H as (-> & e' & -> & (w & u & ? & ? & -> & -> & [Hw ->] & [[-> ->]|(t' & ? & e'' & ? & -> & -> & HE & [-> ->])])).
    + by constructor.
    + rewrite app_assoc. constructor. by apply elements_blank.
  - apply word_cons in H as (-> & e' & -> & (w & u & ? & ? & -> & -> & [Hw ->] & [[-> ->]|(t' & ? & e'' & ? & -> & -> & HE & [-> ->])])).
    + by constructor.
    + rewrite app_assoc. constructor. by apply members_blank.
Qed.

(** Two languages that agree on the texts that start with a given character *)
Lemma then_ext (A B R : lang) c u ev : octets (c :: u) ->
  (forall u1 e1, octets (c :: u1) -> A (c :: u1) e1 -> B (c :: u1) e1) -> (forall e, ~ A [] e) ->
  then_ A R (c :: u) ev -> then_ B R (c :: u) ev.
Proof.
  intros Ho HAB HA (u1 & u2 & e1 & e2 & E & -> & H1 & H2). destruct u1 as [|d u1]; [by apply HA in H1|]. injection E as <- ->.
  exists (c :: u1), u2, e1, e2. split_and!; [done..| |done]. apply HAB; [|done].
  apply Forall_cons in Ho as [Hc Ho]. apply Forall_app in Ho as [Ho _]. by constructor.
Qed.

(** A fresh matcher has something to read. *)
Lemma fresh_nil c m n e : value_matcher c = Some m -> ~ matcher_lang n m [] e.
Proof.
  unfold value_matcher. intros Hm. repeat case_match; simplify_eq; cbn [matcher_lang].
  - by rewrite leaf_run_number_nil.
  - by rewrite leaf_run_string_nil.
  - intros [? _]%leaf_run_token; [done|done|repeat constructor; lia].
  - intros [? _]%leaf_run_token; [done|done|repeat constructor; lia].
  - intros [? _]%leaf_run_token; [done|done|repeat constructor; lia].
  - apply word_empty.
  - apply word_empty.
Qed.

Lemma fresh_ok c m st : value_matcher c = Some m -> waiting st \/ c = 34 /\ waiting_key st -> (length st <= 199)%nat ->
  ready (m :: st) (Some c) /\ (rank (m :: st) c <= 2)%nat.
Proof.
  unfold value_matcher. intros Hm Hw Hl.
  assert (c <> 34 -> waiting st) as Hw' by (destruct Hw as [?|[-> _]]; done).
  repeat case_match; simplify_eq; (split; [|cbn; lia]); (split; [apply ok_plain|try done]).
  all: try (intros _; f_equal; lia).
  - apply ok_leaf; [done|]. left. apply Hw'. unfold isdigit in *. lia.
  - apply ok_leaf; [split; [apply initial_decoder_ok|by split; [left|]]|]. destruct Hw as [?|[_ ?]]; auto.
  - apply ok_leaf; [split; [done|repeat constructor; lia]|]. left. apply Hw'. lia.
  - apply ok_leaf; [split; [done|repeat constructor; lia]|]. left. apply Hw'. lia.
  - apply ok_leaf; [split; [done|repeat constructor; lia]|]. left. apply Hw'. lia.
  - apply ok_array; [done| |done]. apply Hw'. lia.
  - apply ok_object; [done| |done]. apply Hw'. lia.
Qed.

(** *** Roots *)

Ltac run_parser := unfold bind, this, gets, update, modify, on_parser, callback, lift, massert, oassert, ret, throw,
  set_state, set_error, parser_set_error.

(** Storage for another matcher is free. *)
Lemma waiting_free st : waiting st -> existsb in_root st = false /\ existsb in_terminal st = false.
Proof. induction 1 as [|st _ IH _|st _ IH _]; done. Qed.

Lemma waiting_key_free st : waiting_key st -> existsb in_root st = false /\ existsb in_terminal st = false.
Proof. intros (st' & -> & Hw & _). by apply waiting_free in Hw. Qed.

Lemma consume_root_start os below p c : stack_ p = m_root (mk_root root_start os) :: below -> existsb in_terminal below = false ->
  consume pow (m_root (mk_root root_start os)) (Some c) p =
  (Ok (m_root (mk_root new_token_state os), Some (m_whitespace (mk_whitespace whitespace_start false)), false), p).
Proof.
  intros Hst Hf. unfold consume, run_matcher, root_consume, push_whitespace, make_whitespace_matcher, make_terminal_matcher. run_parser.
  simpl. rewrite Hst. simpl. by rewrite Hf.
Qed.

Lemma consume_root_new os below p c : stack_ p = m_root (mk_root new_token_state os) :: below -> existsb in_terminal below = false ->
  error_ p = none ->
  match value_matcher c with
  | Some m => if os && negb (c =? 34) then exists new b, consume pow (m_root (mk_root new_token_state os)) (Some c) p =
                (Ok (m_root (mk_root root_done os), new, b), with_error expected_string p)
              else consume pow (m_root (mk_root new_token_state os)) (Some c) p = (Ok (m_root (mk_root root_done os), Some m, false), p)
  | None => exists new b, consume pow (m_root (mk_root new_token_state os)) (Some c) p =
      (Ok (m_root (mk_root root_done os), new, b), with_error expected_token p)
  end.
Proof.
  intros Hst Hf He. unfold consume, run_matcher, root_consume, value_matcher, make_terminal_matcher. run_parser.
  cbn -[existsb Z.eqb isdigit negb]. destruct p as [st er cb xy]. simpl in He, Hst. subst er st.
  destruct (os && negb (c =? 34)) eqn:Eo; cbn -[existsb Z.eqb isdigit negb].
  all: repeat (match goal with |- context [if ?b then _ else _] => destruct b eqn:? end; cbn -[existsb Z.eqb isdigit negb]).
  all: cbn -[Z.eqb isdigit]; rewrite ?Hf; eauto.
  all: simpl in *; congruence.
Qed.

(** Turns that make no call and do not match the character *)
Lemma follows_same st st' c : (forall u ev, octets (c :: u) -> Rest st (c :: u) ev <-> Rest st' (c :: u) ev) -> follows st st' c false [].
Proof. intros H u ev Hu. rewrite H by done. naive_solver. Qed.

Lemma value_lang_into os n c m t e : octets (c :: t) -> value_matcher c = Some m -> os && negb (c =? 34) = false ->
  value_lang os (S n) (c :: t) e <-> matcher_lang (S n) m (c :: t) e.
Proof.
  intros Ho Hm Hos. destruct os; cbn [value_lang andb] in *.
  - assert (c = 34) as -> by lia. injection Hm as <-. cbn [matcher_lang]. rewrite leaf_run_string by done. naive_solver.
  - split; [|by apply value_from]. intros H. destruct (value_into _ _ _ _ Ho H) as (m' & Hm' & Hl). congruence.
Qed.

Lemma value_lang_nil os n e : ~ value_lang os n [] e.
Proof.
  destruct os; [|apply value_nil]. intros (_ & s & H & _). by destruct (string_head _ _ H).
Qed.

Lemma value_lang_stuck os n c t e : octets (c :: t) -> value_matcher c = None \/ os && negb (c =? 34) = true -> ~ value_lang os n (c :: t) e.
Proof.
  intros Ho H Hv. destruct os; simpl in *.
  - destruct Hv as (_ & s & Hs & _). apply string_head in Hs as (u & [= -> ->]). by destruct H.
  - destruct H as [H|H]; [|done]. pose proof (value_nonzero _ _ _ Hv). destruct n; [done|]. apply value_into in Hv as (m & Hm & _); [|done].
    congruence.
Qed.

Lemma step_root r os below p c : r <> root_done -> (if os : bool then waiting_key below else waiting below) ->
  (r = new_token_state -> (length below <= 199)%nat) ->
  stack_ p = m_root (mk_root r os) :: below -> error_ p = none -> 0 <= c < 256 -> step_spec p c (input_step pow c p).
Proof.
  intros Hr Hw Hl Hst He Hc.
  assert (existsb in_root below = false /\ existsb in_terminal below = false) as [_ Hf].
  { destruct os; [by apply waiting_key_free|by apply waiting_free]. }
  destruct r; [done| |].
  - eapply (step_push _ below p c); [done|by apply (consume_root_start os below)|done|by rewrite app_nil_r|..].
    + intros Hlen. simpl in Hlen. split_and!.
      * split; [|done]. apply ok_whitespace; [done|done|]. apply ok_root; [done|done|]. intros _. lia.
      * intros _. simpl. destruct (isspace c); lia.
      * apply follows_same. intros u ev _. apply (then_assoc _ _ _).
    + intros Hlen u ev Hu. cbn [Rest matcher_lang root_state_]. simpl in Hlen. replace (200 - length below)%nat with 0%nat by lia.
      intros (? & ? & ? & ? & _ & _ & (? & ? & ? & ? & _ & _ & _ & Hv) & _). destruct os; simpl in Hv; [by destruct Hv|by apply value_nonzero in Hv].
  - specialize (Hl eq_refl). pose proof (consume_root_new os below p c Hst Hf He) as Hcons.
    destruct (value_matcher c) as [m|] eqn:Hm; [destruct (os && negb (c =? 34)) eqn:Hos|].
    + destruct Hcons as (new & b & Hcons). eapply (step_error _ below p c _ _ _ _ Hst Hcons); [done|done|].
      intros u ev Hu (u1 & u2 & e1 & e2 & E & -> & Hv & _). destruct u1 as [|d u1]; [by apply value_lang_nil in Hv|]. injection E as <- ->.
      apply (value_lang_stuck os (200 - length below) c u1 e1); [|by right|exact Hv]. apply Forall_cons in Hu as [? Hu]. apply Forall_app in Hu as [? _]. by constructor.
    + assert (waiting below \/ c = 34 /\ waiting_key below) as Hw' by (destruct os; [right; split; [lia|done]|by left]).
      destruct (fresh_ok c m below Hm Hw' Hl) as [Hok Hrank].
      eapply (step_push _ below p c _ _ _ _ [] Hst Hcons); [done|by rewrite app_nil_r|..]; cbn [is_done root_state_].
      * intros _. split_and!; [exact Hok|intros _; simpl in *; lia|]. apply follows_same. intros u ev Hu.
        cbn [Rest]. assert (exists n, (200 - length below)%nat = S n) as [n ->] by (exists (199 - length below)%nat; lia).
        split; apply then_ext; [done| |apply value_lang_nil|done| |intros e; by apply (fresh_nil c)].
        all: intros u1 e1 Hu1; by apply value_lang_into.
      * lia.
    + destruct Hcons as (new & b & Hcons). eapply (step_error _ below p c _ _ _ _ Hst Hcons); [done|done|].
      intros u ev Hu (u1 & u2 & e1 & e2 & E & -> & Hv & _). destruct u1 as [|d u1]; [by apply value_lang_nil in Hv|]. injection E as <- ->.
      apply (value_lang_stuck os (200 - length below) c u1 e1); [|by left|exact Hv]. apply Forall_cons in Hu as [? Hu]. apply Forall_app in Hu as [? _]. by constructor.
Qed.

(** *** Arrays *)

Lemma push_root_ok os {X} (x : X) p : existsb in_root (stack_ p) = false ->
  push_root os (x, p) = (Ok (Some (m_root (mk_root root_start os)), false), (x, p)).
Proof. intros Hf. unfold push_root, make_root_matcher. run_parser. by rewrite Hf. Qed.

Lemma push_whitespace_ok b {X} (x : X) p : existsb in_terminal (stack_ p) = false ->
  push_whitespace b (x, p) = (Ok (Some (m_whitespace (mk_whitespace whitespace_start false)), b), (x, p)).
Proof. intros Hf. unfold push_whitespace, make_whitespace_matcher, make_terminal_matcher. run_parser. by rewrite Hf. Qed.

(** After a comma-separated list's element *)
Lemma comma_space (close : Z) (e0 : list event) (A R : lang) c u ev : isspace c = true ->
  let L := then_ blank (or_ (word [close] e0) (then_ (word [44] []) A)) in
  then_ L R (c :: u) ev <-> then_ blank (then_ L R) (c :: u) ev.
Proof.
  intros Hc L. rewrite <- (then_assoc blank L R (c :: u) ev). unfold L at 2.
  rewrite (then_proper _ _ (blank_blank _) R R (reflexivity R) (c :: u) ev). done.
Qed.

Lemma comma_char (close : Z) (e0 : list event) (A R : lang) c u ev : isspace c = false -> close <> 44 ->
  then_ (then_ blank (or_ (word [close] e0) (then_ (word [44] []) A))) R (c :: u) ev <->
  c = close /\ (exists ev', ev = e0 ++ ev' /\ R u ev') \/ c = 44 /\ then_ A R u ev.
Proof.
  intros Hc Hne. rewrite (then_assoc _ _ _ _ _), blank_other by done. rewrite (or_then _ _ _ _ _).
  unfold or_. rewrite (then_assoc _ _ _ _ _), !word_cons. naive_solver.
Qed.

(** What a value, or a key, starts with *)
Lemma root_first os n R c u ev : octets (c :: u) -> isspace c = false -> then_ (root_lang os n) R (c :: u) ev -> value_matcher c <> None.
Proof.
  intros Ho Hc H Hm. unfold root_lang in H. rewrite (then_assoc _ _ _ _ _), blank_other in H by done.
  destruct H as (u1 & u2 & e1 & e2 & E & -> & Hv & _). destruct u1 as [|d u1]; [by apply value_lang_nil in Hv|]. injection E as <- ->.
  apply (value_lang_stuck os n c u1 e1); [|by left|done]. apply Forall_cons in Ho as [? Ho]. apply Forall_app in Ho as [? _]. by constructor.
Qed.

(** Before the first element: the closing bracket, or an element *)
Lemma first_char (close : Z) (e0 : list event) os n (A B R : lang) c u ev : octets (c :: u) -> isspace close = false -> value_matcher close = None ->
  A ≡ then_ (root_lang os n) B ->
  then_ (or_ (word [close] e0) A) R (c :: u) ev <->
  if c =? close then exists ev', ev = e0 ++ ev' /\ R u ev' else then_ A R (c :: u) ev.
Proof.
  intros Ho Hs Hm HA. rewrite (or_then _ _ _ _ _). unfold or_. rewrite word_cons. destruct (c =? close) eqn:E; [|naive_solver lia].
  apply Z.eqb_eq in E. subst c. split; [|by left]. intros [[_ H]|H]; [done|]. exfalso.
  rewrite (then_proper _ _ HA R R (reflexivity R) _ _), (then_assoc _ _ _ _ _) in H. by apply root_first in H.
Qed.

Lemma pred_sub k : pred (200 - k) = (200 - S k)%nat.
Proof. lia. Qed.

(** An array or object that passes the character on to a value *)
Lemma step_push_root m m' below p c os : stack_ p = m :: below -> error_ p = none ->
  consume pow m (Some c) p = (Ok (m', Some (m_root (mk_root root_start os)), false), p) -> is_done m' = false ->
  (length below <= 199)%nat -> (if os : bool then waiting_key (m' :: below) else waiting (m' :: below)) -> rank (m :: below) c = 6%nat ->
  (let n := (200 - length below)%nat in
   forall u ev, octets (c :: u) ->
     then_ (matcher_lang n m) (Rest below) (c :: u) ev <->
     then_ (then_ (root_lang os (pred n)) (matcher_lang n m')) (Rest below) (c :: u) ev) ->
  step_spec p c (input_step pow c p).
Proof.
  intros Hst He Hc Hd Hl Hw Hr Hlang.
  eapply (step_push m below p c m' _ false p [] Hst Hc); [done|by rewrite app_nil_r|..]; rewrite Hd; [|simpl; lia].
  intros _. split_and!; [|rewrite Hr; intros _; cbn; lia|].
  - split; [|done]. by apply ok_plain, ok_root.
  - apply follows_same. intros u ev Hu. cbn [Rest]. rewrite Hlang by done. rewrite pred_sub. apply (then_assoc _ _ _).
Qed.

(** One that passes it on to white space *)
Lemma step_push_whitespace m below p c : stack_ p = m :: below -> error_ p = none ->
  consume pow m (Some c) p = (Ok (m, Some (m_whitespace (mk_whitespace whitespace_start false)), false), p) -> is_done m = false ->
  isspace c = true -> (length below <= 199)%nat -> plain_ok (m :: below) -> opens m = true -> (0 < rank (m :: below) c)%nat ->
  (forall u ev, Rest (m :: below) (c :: u) ev <-> then_ blank (Rest (m :: below)) (c :: u) ev) ->
  step_spec p c (input_step pow c p).
Proof.
  intros Hst He Hc Hd Hs Hl Hok Ho Hr Hlang.
  eapply (step_push m below p c m _ false p [] Hst Hc); [done|by rewrite app_nil_r|..]; rewrite Hd; [|simpl; lia].
  intros _. split_and!; [|intros _; apply (Nat.le_lt_trans _ 0); [cbn; by rewrite Hs|exact Hr]|].
  - split; [|done]. by apply ok_whitespace.
  - apply follows_same. intros u ev Hu. apply Hlang.
Qed.

(** An opening bracket *)
Lemma step_bracket m m' below p d e0 A : stack_ p = m :: below -> error_ p = none ->
  consume pow m (Some d) p = (Ok (m', Some (m_whitespace (mk_whitespace whitespace_start false)), true), call e0 p) -> is_done m' = false ->
  (length below <= 199)%nat -> plain_ok (m' :: below) -> opens m' = true ->
  matcher_lang (200 - length below) m = then_ (word [d] [e0]) (then_ blank A) -> matcher_lang (200 - length below) m' = A ->
  step_spec p d (input_step pow d p).
Proof.
  intros Hst He Hc Hd Hl Hok Ho HL HA.
  eapply (step_push m below p d m' _ true (call e0 p) [e0] Hst Hc); [done|done|..]; rewrite Hd; [|simpl; lia].
  intros _. split_and!; [|done|].
  - split; [|done]. by apply ok_whitespace.
  - intros u ev _. cbn [Rest]. rewrite HL, HA, (then_assoc _ _ _ _ _), word_cons.
    setoid_rewrite (fun e => then_assoc _ _ _ u e). naive_solver.
Qed.

Ltac run_composite := unfold consume, run_matcher, array_consume, array_end, object_consume; run_parser;
  cbn -[push_root push_whitespace Z.eqb isspace];
  repeat match goal with H : _ = _ :> bool |- _ => rewrite H end; rewrite ?push_root_ok, ?push_whitespace_ok by done;
  run_parser; cbn -[Z.eqb isspace]; try done.

Lemma step_array_comma below p c : waiting below -> (length below <= 199)%nat ->
  stack_ p = m_array (mk_array array_comma_state) :: below -> error_ p = none -> step_spec p c (input_step pow c p).
Proof.
  intros Hw Hl Hst He. destruct (waiting_free below Hw) as [Hf1 Hf2].
  assert (existsb in_terminal (stack_ p) = false) as Hterm by (by rewrite Hst).
  destruct (isspace c) eqn:Es; [|destruct (c =? 44) eqn:E44; [|destruct (c =? 93) eqn:E93]].
  - eapply (step_push_whitespace _ below p c Hst He); [by run_composite|done|done|done|by apply ok_array|done|simpl; lia|].
    intros u ev. by apply comma_space.
  - eapply (step_stay _ below p c (m_array (mk_array object_state)) true p [] Hst); [by run_composite|done|by rewrite app_nil_r| |done|].
    + split; [|done]. by apply ok_plain, ok_array.
    + intros u ev Hu. cbn [Rest matcher_lang array_state_ is_done]. unfold array_comma. rewrite comma_char by done.
      apply Z.eqb_eq in E44. naive_solver lia.
  - eapply (step_stay _ below p c (m_array (mk_array array_done)) true (call end_array p) [end_array] Hst);
      [by run_composite|done|done|by apply waiting_ready|done|].
    intros u ev Hu. cbn [Rest matcher_lang array_state_ is_done]. unfold array_comma. rewrite comma_char by done.
    apply Z.eqb_eq in E93. naive_solver lia.
  - eapply (step_error _ below p c (m_array (mk_array array_done)) None true (with_error expected_array_member p) Hst);
      [run_composite; by rewrite He|done|done|].
    intros u ev Hu. cbn [Rest matcher_lang array_state_ is_done]. unfold array_comma. rewrite comma_char by done. lia.
Qed.

Lemma step_array a below p c : a <> array_done -> waiting below -> (length below <= 199)%nat -> (a = array_start -> c = 91) ->
  stack_ p = m_array (mk_array a) :: below -> error_ p = none -> step_spec p c (input_step pow c p).
Proof.
  intros Ha Hw Hl Hs Hst He. destruct (waiting_free below Hw) as [Hf1 Hf2].
  assert (existsb in_root (stack_ p) = false) as Hroot by (by rewrite Hst).
  assert (existsb in_terminal (stack_ p) = false) as Hterm by (by rewrite Hst).
  destruct a; [done|..|by apply (step_array_comma below)].
  - rewrite (Hs eq_refl) in *. eapply (step_bracket _ (m_array (mk_array first_object_state)) below p 91 _ _ Hst He);
      [by run_composite|done|done|by apply ok_array|done..].
  - destruct (c =? 93) eqn:E.
    + eapply (step_stay _ below p c (m_array (mk_array array_done)) true (call end_array p) [end_array] Hst);
        [by run_composite|done|done|by apply waiting_ready|done|].
      intros u ev Hu. cbn [Rest matcher_lang array_state_ is_done].
      rewrite (first_char 93 _ false _ _ _ _ _ _ _ Hu eq_refl eq_refl (items_unfold _)), E. done.
    + eapply (step_push_root _ (m_array (mk_array array_comma_state)) below p c false Hst He);
        [by run_composite|done|done|by constructor|done|].
      intros n u ev Hu. cbn [matcher_lang array_state_].
      rewrite (first_char 93 _ false _ _ _ _ _ _ _ Hu eq_refl eq_refl (items_unfold _)), E. by apply then_proper; [apply items_unfold|].
  - eapply (step_push_root _ (m_array (mk_array array_comma_state)) below p c false Hst He);
      [by run_composite|done|done|by constructor|done|].
    intros n u ev Hu. by apply then_proper; [apply items_unfold|].
Qed.

(** *** Objects *)

Lemma colon_space n R c u ev : isspace c = true ->
  then_ (object_colon n) R (c :: u) ev <-> then_ blank (then_ (object_colon n) R) (c :: u) ev.
Proof.
  intros Hc. rewrite <- (then_assoc blank _ R (c :: u) ev). unfold object_colon.
  by rewrite (then_proper _ _ (blank_blank _) R R (reflexivity R) (c :: u) ev).
Qed.

Lemma colon_char n R c u ev : isspace c = false ->
  then_ (object_colon n) R (c :: u) ev <-> c = 58 /\ then_ (object_value n) R u ev.
Proof.
  intros Hc. unfold object_colon. rewrite (then_assoc _ _ _ _ _), blank_other, (then_assoc _ _ _ _ _), word_cons by done. naive_solver.
Qed.

Lemma step_object_comma below p c : waiting below -> (length below <= 199)%nat ->
  stack_ p = m_object (mk_object object_comma_state) :: below -> error_ p = none -> step_spec p c (input_step pow c p).
Proof.
  intros Hw Hl Hst He. destruct (waiting_free below Hw) as [Hf1 Hf2].
  assert (existsb in_terminal (stack_ p) = false) as Hterm by (by rewrite Hst).
  destruct (isspace c) eqn:Es; [|destruct (c =? 44) eqn:E44; [|destruct (c =? 125) eqn:E125]].
  - eapply (step_push_whitespace _ below p c Hst He); [by run_composite|done|done|done|by apply ok_object|done|simpl; lia|].
    intros u ev. by apply comma_space.
  - eapply (step_stay _ below p c (m_object (mk_object key_state)) true p [] Hst); [by run_composite|done|by rewrite app_nil_r| |done|].
    + split; [|done]. by apply ok_plain, ok_object.
    + intros u ev Hu. cbn [Rest matcher_lang object_state_ is_done]. unfold object_comma. rewrite comma_char by done.
      apply Z.eqb_eq in E44. naive_solver lia.
  - eapply (step_stay _ below p c (m_object (mk_object object_done)) true (call end_object p) [end_object] Hst);
      [by run_composite|done|done|by apply waiting_ready|done|].
    intros u ev Hu. cbn [Rest matcher_lang object_state_ is_done]. unfold object_comma. rewrite comma_char by done.
    apply Z.eqb_eq in E125. naive_solver lia.
  - eapply (step_error _ below p c (m_object (mk_object object_done)) None true (with_error expected_object_member p) Hst);
      [run_composite; by rewrite He|done|done|].
    intros u ev Hu. cbn [Rest matcher_lang object_state_ is_done]. unfold object_comma. rewrite comma_char by done. lia.
Qed.

Lemma step_object_colon below p c : waiting below -> (length below <= 199)%nat ->
  stack_ p = m_object (mk_object colon_state) :: below -> error_ p = none -> step_spec p c (input_step pow c p).
Proof.
  intros Hw Hl Hst He. destruct (waiting_free below Hw) as [Hf1 Hf2].
  assert (existsb in_terminal (stack_ p) = false) as Hterm by (by rewrite Hst).
  destruct (isspace c) eqn:Es; [|destruct (c =? 58) eqn:E58].
  - eapply (step_push_whitespace _ below p c Hst He); [by run_composite|done|done|done|by apply ok_object|done|simpl; lia|].
    intros u ev. by apply colon_space.
  - eapply (step_stay _ below p c (m_object (mk_object value_state)) true p [] Hst); [by run_composite|done|by rewrite app_nil_r| |done|].
    + split; [|done]. by apply ok_plain, ok_object.
    + intros u ev Hu. cbn [Rest matcher_lang object_state_ is_done]. rewrite colon_char by done. apply Z.eqb_eq in E58. naive_solver lia.
  - eapply (step_error _ below p c (m_object (mk_object object_done)) None true (with_error expected_colon p) Hst);
      [run_composite; by rewrite He|done|done|].
    intros u ev Hu. cbn [Rest matcher_lang object_state_ is_done]. rewrite colon_char by done. lia.
Qed.

Lemma step_object o below p c : o <> object_done -> waiting below -> (length below <= 199)%nat -> (o = object_start -> c = 123) ->
  stack_ p = m_object (mk_object o) :: below -> error_ p = none -> step_spec p c (input_step pow c p).
Proof.
  intros Ha Hw Hl Hs Hst He. destruct (waiting_free below Hw) as [Hf1 Hf2].
  assert (existsb in_root (stack_ p) = false) as Hroot by (by rewrite Hst).
  assert (existsb in_terminal (stack_ p) = false) as Hterm by (by rewrite Hst).
  assert (waiting_key (m_object (mk_object colon_state) :: below)) as Hkey by (by exists below).
  destruct o; [done|..].
  - rewrite (Hs eq_refl) in *. eapply (step_bracket _ (m_object (mk_object first_key_state)) below p 123 _ _ Hst He);
      [by run_composite|done|done|by apply ok_object|done..].
  - destruct (c =? 125) eqn:E.
    + eapply (step_stay _ below p c (m_object (mk_object object_done)) true (call end_object p) [end_object] Hst);
        [by run_composite|done|done|by apply waiting_ready|done|].
      intros u ev Hu. cbn [Rest matcher_lang object_state_ is_done].
      rewrite (first_char 125 _ true _ _ _ _ _ _ _ Hu eq_refl eq_refl (members_unfold _)), E. done.
    + eapply (step_push_root _ (m_object (mk_object colon_state)) below p c true Hst He); [by run_composite|done|done|done|done|].
      intros n u ev Hu. cbn [matcher_lang object_state_].
      rewrite (first_char 125 _ true _ _ _ _ _ _ _ Hu eq_refl eq_refl (members_unfold _)), E. by apply then_proper; [apply members_unfold|].
  - eapply (step_push_root _ (m_object (mk_object colon_state)) below p c true Hst He); [by run_composite|done|done|done|done|].
    intros n u ev Hu. by apply then_proper; [apply members_unfold|].
  - by apply (step_object_colon below).
  - eapply (step_push_root _ (m_object (mk_object object_comma_state)) below p c false Hst He);
      [by run_composite|done|done|by constructor|done|].
    done.
  - by apply (step_object_comma below).
Qed.

(** *** White space and the end *)

Lemma consume_whitespace w tr c p : w <> whitespace_done ->
  exists w' p', consume pow (m_whitespace (mk_whitespace w tr)) (Some c) p = (Ok (m_whitespace (mk_whitespace w' tr), None, isspace c), p') /\
    stack_ p' = stack_ p /\ error_ p' = error_ p /\ callbacks_ p' = callbacks_ p /\
    (if isspace c then w' <> whitespace_done else w' = whitespace_done).
Proof.
  intros Hw. unfold consume, run_matcher, whitespace_consume, isspace. run_parser.
  destruct w; [done|..]; cbn -[Z.eqb]; destruct (c =? space) eqn:E1, (c =? tab) eqn:E2, (c =? cr) eqn:E3, (c =? lf) eqn:E4;
    cbn -[Z.eqb]; try (unfold space, tab, cr, lf in *; lia); eexists _, _; split_and!; try done.
Qed.

Lemma space_no_value c : isspace c = true -> value_matcher c = None.
Proof.
  unfold isspace, tab, lf, cr, space. intros H. assert (c = 9 \/ c = 10 \/ c = 13 \/ c = 32) as Hc by lia.
  by destruct Hc as [-> |[-> |[-> | ->]]].
Qed.

Lemma octets_prefix c u1 u2 : octets (c :: u1 ++ u2) -> octets (c :: u1).
Proof. unfold octets. rewrite !Forall_cons, Forall_app. tauto. Qed.

(** A space before something that is optionally preceded by white space *)
Lemma blank_absorb X R c u ev : isspace c = true -> (forall e, ~ then_ X R (c :: u) e) ->
  then_ (then_ blank X) R (c :: u) ev -> then_ (then_ blank X) R u ev.
Proof. intros Hc Hn. rewrite !(then_assoc _ _ _ _ _). intros H. apply blank_space in H; [done|done|]. intros H'. by apply Hn in H'. Qed.

Lemma no_space_value os n R c u ev : octets (c :: u) -> isspace c = true -> ~ then_ (value_lang os n) R (c :: u) ev.
Proof.
  intros Ho Hc (u1 & u2 & e1 & e2 & E & -> & Hv & _). destruct u1 as [|d u1]; [by apply value_lang_nil in Hv|]. injection E as <- ->.
  apply (value_lang_stuck os n c u1 e1); [by eapply octets_prefix|left; by apply space_no_value|done].
Qed.

Lemma root_absorb os n B R c u ev : octets (c :: u) -> isspace c = true ->
  then_ (then_ (root_lang os n) B) R (c :: u) ev -> then_ (then_ (root_lang os n) B) R u ev.
Proof.
  intros Ho Hc H. rewrite (then_assoc _ _ _ _ _) in H. rewrite (then_assoc _ _ _ _ _).
  revert H. apply blank_absorb; [done|]. intros e. by apply no_space_value.
Qed.

Lemma first_absorb (close : Z) (e0 : list event) os n (A B R : lang) c u ev : octets (c :: u) -> isspace c = true -> isspace close = false ->
  A ≡ then_ (root_lang os n) B ->
  then_ (or_ (word [close] e0) A) R (c :: u) ev -> then_ (or_ (word [close] e0) A) R u ev.
Proof.
  intros Ho Hc Hs HA H. rewrite (or_then _ _ _ _ _) in H. rewrite (or_then _ _ _ _ _). destruct H as [H|H].
  - apply word_cons in H as [-> _]. congruence.
  - right. apply (then_proper _ _ HA R R (reflexivity R)). apply (root_absorb os n B R c u ev Ho Hc).
    by apply (then_proper _ _ HA R R (reflexivity R)).
Qed.

Lemma comma_absorb (close : Z) (e0 : list event) (A R : lang) c u ev : isspace c = true -> isspace close = false ->
  then_ (then_ blank (or_ (word [close] e0) (then_ (word [44] []) A))) R (c :: u) ev ->
  then_ (then_ blank (or_ (word [close] e0) (then_ (word [44] []) A))) R u ev.
Proof.
  intros Hc Hs. apply blank_absorb; [done|]. intros e H. rewrite (or_then _ _ _ _ _) in H.
  destruct H as [H|H]; [|rewrite (then_assoc _ _ _ _ _) in H]; apply word_cons in H as [-> _]; [congruence|done].
Qed.

Lemma opens_absorb m below c u ev : octets (c :: u) -> isspace c = true -> opens m = true ->
  Rest (m :: below) (c :: u) ev -> then_ blank (Rest (m :: below)) u ev.
Proof.
  intros Ho Hc Hop H. destruct m as [x|x|x|[[]]|[[]]|x|x|[[] os]]; try done; cbn [Rest matcher_lang array_state_ object_state_ root_state_ only_string_] in *.
  - apply blank_intro. revert H. by apply (first_absorb 93 [end_array] false _ _ _ _ _ _ _ Ho Hc eq_refl (items_unfold _)).
  - apply blank_intro. revert H. by apply comma_absorb.
  - apply blank_intro. revert H. by apply (first_absorb 125 [end_object] true _ _ _ _ _ _ _ Ho Hc eq_refl (members_unfold _)).
  - apply blank_intro. revert H. apply blank_absorb; [done|]. intros e H. rewrite (then_assoc _ _ _ _ _) in H.
    apply word_cons in H as [-> _]. done.
  - apply blank_intro. revert H. by apply comma_absorb.
  - by apply no_space_value in H.
Qed.

Lemma step_whitespace w tr below p c : w <> whitespace_done -> 0 <= c < 256 ->
  (tr = true /\ below = [m_eof (mk_eof eof_start)] \/
   tr = false /\ exists m st, below = m :: st /\ opens m = true /\ plain_ok (m :: st)) ->
  stack_ p = m_whitespace (mk_whitespace w tr) :: below -> error_ p = none -> step_spec p c (input_step pow c p).
Proof.
  intros Hw Hc Hb Hst He. destruct (consume_whitespace w tr c p Hw) as (w' & p' & Hcons & Hst' & He' & Hcb & Hw').
  assert (forall w, w <> whitespace_done -> stack_ok (m_whitespace (mk_whitespace w tr) :: below)) as Hok.
  { intros w0 Hw0. destruct Hb as [[-> ->]|(-> & m & st & -> & Ho & Hm)]; [by apply ok_trailing|by apply ok_whitespace]. }
  assert (forall u ev, octets (c :: u) -> isspace c = true -> Rest below (c :: u) ev -> then_ blank (Rest below) u ev) as Habs.
  { intros u ev Ho Hs H. destruct Hb as [[-> ->]|(-> & m & st & -> & Hop & Hm)]; [|by apply (opens_absorb m st c)].
    by destruct (proj1 (word_nil _ _ _) H). }
  destruct (isspace c) eqn:Es.
  - eapply (step_stay _ below p c _ true p' [] Hst Hcons); [congruence|by rewrite app_nil_r|..].
    all: replace (is_done _) with false by (by destruct w').
    + split; [by apply Hok|done].
    + done.
    + intros u ev Hu. cbn [Rest matcher_lang]. rewrite blank_space by auto. naive_solver.
  - subst w'. eapply (step_stay _ below p c _ false p' [] Hst Hcons); [congruence|by rewrite app_nil_r|..]; cbn [is_done whitespace_state_].
    + destruct Hb as [[-> ->]|(-> & m & st & -> & Hop & Hm)]; [split; [apply ok_eof|done]|]. split; [by apply ok_plain|].
      by destruct m as [x|x|x|[[]]|[[]]|x|x|[[] os]].
    + intros _. destruct Hb as [[-> ->]|(-> & m & st & -> & Hop & Hm)]; cbn [rank]; rewrite Es; [lia|].
      destruct m as [x|x|x|[[]]|[[]]|x|x|[[] os]]; try done; cbn; lia.
    + apply follows_same. intros u ev Hu. by apply blank_other.
Qed.

Lemma step_eof p c : stack_ p = [m_eof (mk_eof eof_start)] -> error_ p = none -> step_spec p c (input_step pow c p).
Proof.
  intros Hst He. eapply (step_error _ [] p c (m_eof (mk_eof eof_done)) None true (with_error unexpected_extra_input p) Hst); [|done|done|].
  - unfold consume, run_matcher, eof_consume. run_parser. cbn. run_parser. cbn. by rewrite He.
  - intros u ev Hu H. by destruct (proj1 (word_nil _ _ _) H).
Qed.

(** Every turn, on any stack that arises *)
Lemma step_ok p c : ready (stack_ p) (Some c) \/ ready (stack_ p) None -> stack_ p <> [] -> error_ p = none -> 0 <= c < 256 ->
  step_spec p c (input_step pow c p).
Proof.
  intros Hr Hne He Hc.
  assert (stack_ok (stack_ p)) as Hok by (by destruct Hr as [[? _]|[? _]]).
  assert (forall m st, stack_ p = m :: st -> (m = m_array (mk_array array_start) -> c = 91) /\ (m = m_object (mk_object object_start) -> c = 123)) as Hstart.
  { intros m st E. rewrite E in Hr. destruct Hr as [[_ H]|[_ H]]; split; intros ->; specialize (H eq_refl); congruence. }
  inversion Hok as [E|w Hw E|st Hp E|w m st Hw Ho Hp E]; symmetry in E.
  - by apply step_eof.
  - apply (step_whitespace w true [m_eof (mk_eof eof_start)]); [done|done|by left|done|done].
  - subst st. inversion Hp as [m st Hm Hw E|r os st Hr' Hw Hl E|a st Ha Hw Hl E|o st Ha Hw Hl E]; symmetry in E.
    + by apply (step_leaf m st).
    + by apply (step_root r os st).
    + apply (step_array a st); try done. intros ->. by apply (Hstart _ _ E).
    + apply (step_object o st); try done. intros ->. by apply (Hstart _ _ E).
  - apply (step_whitespace w false (m :: st)); [done|done| |done|done]. right. split; [done|]. by exists m, st.
Qed.

(** ** Runs *)

(** [accepts p u ev]: from the state [p] the rest [u] of the text completes it with the calls [ev]. *)
Definition accepts (p : parser) (u : list Z) (ev : list event) : Prop :=
  error_ p = none /\ exists ev', ev = callbacks_ p ++ ev' /\ Rest (stack_ p) u ev'.

(** A parser between two characters, or one that has stopped with an error *)
Definition parser_ok (p : parser) : Prop := error_ p <> none \/ ready (stack_ p) None /\ stack_ p <> [].

(** The loop reads all the text, or stops where no text could have followed; the fuel suffices. *)
Definition loop_spec (p : parser) (src : list Z) (r : outcome unit * parser) : Prop :=
  match r with
  | (Ok _, p') => parser_ok p' /\ forall u ev, octets u -> accepts p (src ++ u) ev <-> accepts p' u ev
  | (Throw x, _) => x = Undefined /\ Exists (fun c => 128 <= c) src /\ forall u ev, octets u -> ~ accepts p (src ++ u) ev
  end.

Lemma rank_bound st c : (rank st c <= 7)%nat.
Proof. destruct st as [|[x|x|x|[[]]|[[]]|x|x|[[] ?]] st]; cbn; repeat case_match; lia. Qed.

Lemma follows_accepts p p' c b e src u ev : error_ p = none -> error_ p' = none -> callbacks_ p' = callbacks_ p ++ e ->
  follows (stack_ p) (stack_ p') c b e -> octets (c :: src ++ u) ->
  accepts p (c :: src ++ u) ev <-> accepts p' (if b then src ++ u else c :: src ++ u) ev.
Proof.
  intros He He' Hcb Hf Ho. unfold accepts. rewrite He, He', Hcb. split; intros [_ (ev' & -> & H)]; (split; [done|]).
  - apply Hf in H as (ev'' & -> & H); [|done]. exists ev''. by rewrite app_assoc.
  - exists (e ++ ev'). rewrite app_assoc. split; [done|]. apply Hf; [done|]. eauto.
Qed.

Lemma ready_nonempty st c : ready st (Some c) \/ ready st None -> st <> [].
Proof. intros [[H _]|[H _]] ->; inversion H as [| |st Hp|]; inversion Hp. Qed.

Lemma input_loop_ok src : octets src -> forall fuel p, error_ p = none -> stack_ p <> [] ->
  match src with
  | [] => ready (stack_ p) None
  | c :: rest => (ready (stack_ p) (Some c) \/ ready (stack_ p) None) /\ (rank (stack_ p) c + 8 * length rest < fuel)%nat
  end -> loop_spec p src (input_loop pow fuel src p).
Proof.
  induction 1 as [|c src Hc Hsrc IH]; intros fuel.
  { intros p He Hne Hr. destruct fuel; cbn; (split; [by right|done]). }
  induction fuel as [|fuel IHf]; intros p He Hne [Hr Hfuel]; [lia|].
  cbn [input_loop]. unfold bind. pose proof (step_ok p c Hr Hne He Hc) as Hs.
  destruct (input_step pow c p) as [[[b|]|x] p'] eqn:E; cbn [step_spec] in Hs.
  - destruct Hs as (He' & Hr' & Hrank & e & Hcb & Hf).
    assert (stack_ p' <> []) as Hne' by (eapply (ready_nonempty _ c); destruct b; auto).
    assert (loop_spec p' (if b then src else c :: src) ((if b then input_loop pow fuel src else input_loop pow fuel (c :: src)) p')) as Hl.
    { destruct b.
      - apply IH; [done|done|]. destruct src as [|d src]; [done|]. split; [by right|]. pose proof (rank_bound (stack_ p') d). cbn [length] in Hfuel. lia.
      - apply IHf; [done|done|]. split; [by left|]. specialize (Hrank eq_refl). lia. }
    assert (forall u ev, octets u -> accepts p ((c :: src) ++ u) ev <-> accepts p' ((if b then src else c :: src) ++ u) ev) as Ha.
    { intros u ev Hu. rewrite (follows_accepts p p' c b e src u ev); [by destruct b|done..|]. constructor; [done|]. by apply Forall_app. }
    destruct b; destruct (input_loop pow fuel _ p') as [[[]|x] p'']; cbn [loop_spec] in *.
    + destruct Hl as [Hok Hl]. split; [done|]. intros u ev Hu. by rewrite Ha, Hl.
    + destruct Hl as (-> & Hex & Hl). split_and!; [done|by right|]. intros u ev Hu. rewrite Ha by done. by apply Hl.
    + destruct Hl as [Hok Hl]. split; [done|]. intros u ev Hu. by rewrite Ha, Hl.
    + destruct Hl as (-> & Hex & Hl). split_and!; [done|done|]. intros u ev Hu. rewrite Ha by done. by apply Hl.
  - destruct Hs as [He' Hst]. cbn. split; [by left|]. intros u ev Hu. split.
    + intros [_ (ev' & _ & H)]. exfalso. apply (Hst (src ++ u) ev'); [|done]. constructor; [done|]. by apply Forall_app.
    + by intros [? _].
  - destruct Hs as (-> & Hc' & Hst). cbn. split_and!; [done|by left|]. intros u ev Hu [_ (ev' & _ & H)].
    apply (Hst (src ++ u) ev'); [|done]. constructor; [done|]. by apply Forall_app.
Qed.

Lemma input_ok p src : parser_ok p -> octets src -> loop_spec p src (input pow src p).
Proof.
  intros Hp Ho. unfold input. unfold bind, gets, has_error. cbn beta iota. destruct (decide (error_ p = none)) as [He|He].
  - rewrite He. cbn [is_none negb]. destruct Hp as [?|[Hr Hne]]; [done|]. apply input_loop_ok; [done..|].
    destruct src as [|c src]; [done|]. split; [by right|]. pose proof (rank_bound (stack_ p) c). cbn [length]. lia.
  - replace (is_none (error_ p)) with false by (by destruct (error_ p)). cbn. split; [by left|]. intros u ev _. by split; intros [? _].
Qed.

Lemma octets_join chunks : Forall octets chunks -> octets (mjoin chunks).
Proof.
  induction 1 as [|src chunks Hs _ IH]; [constructor|]. change (mjoin (src :: chunks)) with (src ++ mjoin chunks). by apply Forall_app.
Qed.

Lemma input_all_ok chunks p : parser_ok p -> Forall octets chunks -> loop_spec p (mjoin chunks) (input_all pow chunks p).
Proof.
  intros Hp Ho. revert p Hp. induction Ho as [|src chunks Hsrc Hch IH]; intros p Hp; [by split|].
  cbn [input_all]. change (mjoin (src :: chunks)) with (src ++ mjoin chunks). unfold bind.
  assert (octets (mjoin chunks)) as Hj by (by apply octets_join).
  pose proof (input_ok p src Hp Hsrc) as H. destruct (input pow src p) as [[[]|x] p']; cbn [loop_spec] in H.
  - destruct H as [Hp' H]. specialize (IH p' Hp'). destruct (input_all pow chunks p') as [[[]|x] p'']; cbn [loop_spec] in *.
    + destruct IH as [Hok IH]. split; [done|]. intros u ev Hu. rewrite <- app_assoc, H by (by apply Forall_app). by apply IH.
    + destruct IH as (-> & Hex & IH). split_and!; [done|apply Exists_app; by right|]. intros u ev Hu.
      rewrite <- app_assoc, H by (by apply Forall_app). by apply IH.
  - destruct H as (-> & Hex & H). split_and!; [done|apply Exists_app; by left|]. intros u ev Hu. rewrite <- app_assoc.
    apply H. by apply Forall_app.
Qed.

(** *** The end of the input *)

Lemma then_nil (A B : lang) ev : then_ A B [] ev <-> exists e1 e2, ev = e1 ++ e2 /\ A [] e1 /\ B [] e2.
Proof.
  split.
  - intros (u1 & u2 & e1 & e2 & [-> ->]%symmetry%app_nil & -> & HA & HB). eauto.
  - intros (e1 & e2 & -> & HA & HB). by exists [], [], e1, e2.
Qed.

Lemma then_nil_l (A B : lang) ev : (forall e, ~ A [] e) -> ~ then_ A B [] ev.
Proof. intros HA (e1 & e2 & _ & H & _)%then_nil. by apply HA in H. Qed.
Lemma then_nil_r (A B : lang) ev : (forall e, ~ B [] e) -> ~ then_ A B [] ev.
Proof. intros HB (e1 & e2 & _ & _ & H)%then_nil. by apply HB in H. Qed.

Lemma comma_nil (close : Z) e0 A e : ~ then_ blank (or_ (word [close] e0) (then_ (word [44] []) A)) [] e.
Proof. apply then_nil_r. intros e' [[? _]|H]; [done|by apply word_empty in H]. Qed.

(** Nothing but a leaf or white space may end here. *)
Lemma composite_nil n m e : match m with m_array _ | m_object _ | m_root _ => True | _ => False end -> ~ matcher_lang n m [] e.
Proof.
  destruct m as [x|x|x|[[]]|[[]]|x|x|[[] os]]; try done; intros _; cbn [matcher_lang array_state_ object_state_ root_state_ only_string_].
  all: try (by intros []).
  all: try (apply word_empty).
  all: try (apply comma_nil).
  all: try (apply value_lang_nil).
  all: try (by apply then_nil_r; intros e' [? _]).
  - intros [[? _]|H]; [done|]. revert H. by apply then_nil_r; intros e' [? _].
  - intros [[? _]|H]; [done|]. revert H. by apply then_nil_r; intros e' [? _].
  - apply then_nil_r. intros e' H. by apply word_empty in H.
  - apply then_nil_r. intros e' H. by apply comma_nil in H.
  - apply then_nil_r. intros e' H. by apply value_lang_nil in H.
Qed.

(** A turn of the loop of [eof] *)
Definition eof_spec (p : parser) (below : list matcher) (r : outcome (matcher * option matcher * bool) * parser) : Prop :=
  match r with
  | (Ok (m', _, b), q) =>
      b = true /\ is_done m' = true /\
      if decide (error_ q = none) then
        (below = [] \/ stack_ok below) /\ exists e, callbacks_ q = callbacks_ p ++ e /\
          forall ev, Rest (stack_ p) [] ev <-> exists ev', ev = e ++ ev' /\ Rest below [] ev'
      else forall ev, ~ Rest (stack_ p) [] ev
  | (Throw _, _) => False
  end.

Lemma eof_composite m below p : match m with m_array _ | m_object _ | m_root _ => True | _ => False end -> is_done m = false ->
  stack_ p = m :: below -> error_ p = none -> eof_spec p below (consume pow m None p).
Proof.
  intros Hm Hd Hst He.
  assert (forall ev, ~ Rest (stack_ p) [] ev) as Hno by (intros ev; rewrite Hst; apply then_nil_l; intros e; by apply composite_nil).
  assert (exists m' err, consume pow m None p = (Ok (m', None, true), with_error err p) /\ is_done m' = true /\ err <> none) as (m' & err & -> & Hd' & Herr).
  { destruct m as [x|x|x|[[]]|[[]]|x|x|[[] os]]; try done; unfold consume, run_matcher, array_consume, object_consume, root_consume; run_parser; cbn;
      run_parser; cbn; rewrite ?He; cbn; eexists _, _; split_and!; done. }
  split_and!; [done..|]. by rewrite decide_False.
Qed.

Lemma eof_leaf m below p : leaf_ok m -> waiting below \/ is_string m = true /\ waiting_key below ->
  stack_ p = m :: below -> error_ p = none -> eof_spec p below (consume pow m None p).
Proof.
  intros Hok Hw Hst He. pose proof (leaf_ok_is m Hok) as Hm. rewrite (consume_leaf pow m None p Hm), He.
  destruct (leaf_char pow m 0 Hok ltac:(lia)) as (_ & _ & Hend).
  assert (leaf_run pow m [] = match leaf_step pow m None with Some (_, e, _) => Some e | None => None end) as Hrun by done.
  unfold leaf_step in Hrun. unfold leaf_end in Hend.
  destruct (consume pow m None (idle none)) as [[[[m' new] b]|x] q]; [|done]. destruct Hend as [-> Hd].
  split_and!; [done..|]. cbn [graft error_]. destruct (decide (error_ q = none)) as [Hq|Hq].
  - split; [right; destruct Hw as [Hw|[_ Hw]]; [by apply (waiting_ready _ None)|by apply (waiting_key_ready _ None)]|].
    exists (callbacks_ q). split; [done|]. intros ev. rewrite Hst, rest_leaf by done. split.
    + intros (u1 & u2 & e1 & e2 & [-> ->]%symmetry%app_nil & -> & Hr & H). rewrite Hrun in Hr. simplify_eq. eauto.
    + intros (ev' & -> & H). by exists [], [], (callbacks_ q), ev'.
  - intros ev. rewrite Hst, rest_leaf by done. intros (u1 & u2 & e1 & e2 & [-> ->]%symmetry%app_nil & -> & Hr & H).
    by rewrite Hrun in Hr.
Qed.

Lemma eof_whitespace w tr below p : below = [] \/ stack_ok below -> stack_ p = m_whitespace (mk_whitespace w tr) :: below -> error_ p = none ->
  eof_spec p below (consume pow (m_whitespace (mk_whitespace w tr)) None p).
Proof.
  intros Hb Hst He. unfold consume, run_matcher, whitespace_consume. run_parser. cbn. split_and!; [done..|]. rewrite decide_True by done.
  split; [done|]. exists []. rewrite app_nil_r, Hst. split; [done|]. intros ev. cbn [Rest matcher_lang]. rewrite then_nil. split.
  - intros (e1 & e2 & -> & [_ ->] & H). eauto.
  - intros (ev' & -> & H). exists [], ev'. split_and!; [done|split; [constructor|done]|done].
Qed.

Lemma eof_step m below p : stack_ok (m :: below) -> stack_ p = m :: below -> error_ p = none ->
  eof_spec p below (consume pow m None p).
Proof.
  intros Hok Hst He. inversion Hok as [E|w Hw E|st Hp E|w m' st Hw Ho Hp E]; subst.
  - unfold consume, run_matcher, eof_consume. run_parser. cbn. split_and!; [done..|]. rewrite decide_True by done.
    split; [by left|]. exists []. rewrite app_nil_r, Hst. split; [done|]. intros ev. cbn [Rest matcher_lang]. rewrite then_nil. split.
    + intros (e1 & e2 & -> & [_ ->] & [_ ->]). by exists [].
    + intros (ev' & -> & [_ ->]). by exists [], [].
  - apply eof_whitespace; [right; apply ok_eof|done|done].
  - inversion Hp as [m1 st Hm Hw E|r os st Hr' Hw Hl E|a st Ha Hw Hl E|o st Ha Hw Hl E]; subst.
    + by apply eof_leaf.
    + apply eof_composite; [done|by destruct r|done|done].
    + apply eof_composite; [done|by destruct a|done|done].
    + apply eof_composite; [done|by destruct o|done|done].
  - apply eof_whitespace; [right; by apply ok_plain|done|done].
Qed.

Lemma eof_loop_ok st : forall p, stack_ p = st -> st = [] \/ stack_ok st -> error_ p = none ->
  exists p', eof_loop pow (length st) p = (Ok tt, p') /\ (error_ p' = none -> exists e, callbacks_ p' = callbacks_ p ++ e) /\
    forall ev, Rest st [] ev <-> error_ p' = none /\ callbacks_ p' = callbacks_ p ++ ev.
Proof.
  induction st as [|m below IH]; intros p Hst Hok He.
  - exists p. cbn [length eof_loop]. unfold bind, gets. cbn. rewrite Hst. split_and!; [done|exists []; by rewrite app_nil_r|].
    intros ev. cbn. unfold word. rewrite He. split.
    + intros [_ ->]. by rewrite app_nil_r.
    + intros [_ E]. split; [done|]. rewrite <- (app_nil_r (callbacks_ p)) in E at 1. by apply app_inv_head in E.
  - destruct Hok as [?|Hok]; [done|]. cbn [length eof_loop]. unfold bind, gets, has_error. cbn -[eof_loop consume Rest]. rewrite Hst, He. cbn -[eof_loop consume Rest].
    pose proof (eof_step m below p Hok Hst He) as H. destruct (consume pow m None p) as [[[[m' new] b]|x] q]; [|done].
    destruct H as (-> & Hd & H). unfold massert, oassert, lift, modify. rewrite Hd. cbn -[eof_loop Rest]. rewrite Hst in H.
    destruct (decide (error_ q = none)) as [Hq|Hq].
    + destruct H as (Hb & e & Hcb & H). destruct (IH (with_stack below q) eq_refl Hb Hq) as (p' & -> & Hext & Hp').
      cbn [callbacks_ with_stack] in Hp', Hext. rewrite Hcb in Hp', Hext. exists p'. split_and!; [done| |].
      * intros Hn. destruct (Hext Hn) as (e' & ->). exists (e ++ e'). by rewrite app_assoc.
      * intros ev. rewrite H. setoid_rewrite Hp'. split.
        -- intros (ev' & -> & Hn & ->). by rewrite app_assoc.
        -- intros [Hn E]. destruct (Hext Hn) as (e' & E'). exists e'. rewrite E' in E. rewrite <- app_assoc in E. apply app_inv_head in E. by subst.
    + exists (with_stack below q). split_and!; [|done|].
      * destruct below as [|m0 below]; cbn [length eof_loop]; unfold bind, gets, has_error; cbn -[eof_loop consume]; [done|].
        by destruct (error_ q).
      * intros ev. split; [|by intros [? _]]. intros Hr. by apply H in Hr.
Qed.

(** [eof] never fails to return, and its result tells whether the text was complete. *)
Lemma eof_ok p : parser_ok p -> exists r p', eof pow p = (Ok r, p') /\ forall ev, accepts p [] ev <-> r = Some ev.
Proof.
  intros Hp. unfold eof. unfold bind, gets, ret. cbn beta iota. destruct (decide (error_ p = none)) as [He|He].
  - destruct Hp as [?|[[Hok _] _]]; [done|]. destruct (eof_loop_ok (stack_ p) p eq_refl (or_intror Hok) He) as (p' & -> & Hext & Hr).
    eexists _, p'. split; [done|]. intros ev. unfold accepts. cbn [id]. unfold has_error. destruct (decide (error_ p' = none)) as [Hn|Hn].
    + rewrite Hn. cbn. split.
      * intros [_ (ev' & -> & H)]. apply Hr in H as [_ ->]. done.
      * intros [= <-]. destruct (Hext Hn) as (e & E). split; [done|]. exists e. split; [done|]. by apply Hr.
    + replace (is_none (error_ p')) with false by (by destruct (error_ p')). cbn. split; [|done]. intros [_ (ev' & _ & H)]. by apply Hr in H as [? _].
  - exists None, p. destruct p as [st e cb xy]. cbn in He. split.
    + destruct st as [|m st]; cbn; unfold bind, gets, has_error; cbn; by destruct e.
    + intros ev. split; [by intros [? _]|done].
Qed.

(** The whole parser *)
Lemma parser_ctor_ok : parser_ok parser_ctor.
Proof. right. split; [|done]. split; [|done]. apply ok_plain, ok_root; [done|constructor|done]. Qed.

Lemma accepts_document t ev : octets t -> accepts parser_ctor t ev <-> Document t ev.
Proof.
  intros Ho. unfold accepts, Document. cbn [parser_ctor error_ callbacks_ stack_]. cbn [Rest matcher_lang root_state_ only_string_ length].
  change (200 - 2)%nat with 198%nat. split.
  - intros [_ (ev' & -> & (? & ? & ? & ? & -> & -> & (w1 & v & ? & e & -> & -> & [Hw1 ->] & Hv) & (w2 & ? & ? & ? & -> & -> & [Hw2 ->] & H)))].
    apply word_nil in H as [-> ->]. exists w1, v, w2. rewrite !app_nil_r. split_and!; [done..|]. by rewrite <- app_assoc.
  - intros (w1 & v & w2 & Hw1 & Hv & Hw2 & ->). split; [done|]. exists ev. split; [done|].
    exists (w1 ++ v), w2, ev, []. rewrite app_nil_r, <- app_assoc. split_and!; [done..| |].
    + by exists w1, v, [], ev.
    + exists w2, [], [], []. rewrite app_nil_r. split_and!; [done..|]. by apply word_nil.
Qed.

Lemma parse_chunks_exact chunks : Forall octets chunks ->
  match parse_chunks pow chunks with
  | Ok r => forall ev, r = Some ev <-> Document (mjoin chunks) ev
  | Throw x => x = Undefined /\ Exists (fun c => 128 <= c) (mjoin chunks) /\ forall ev, ~ Document (mjoin chunks) ev
  end.
Proof.
  intros Ho. unfold parse_chunks, bind. pose proof (input_all_ok chunks parser_ctor parser_ctor_ok Ho) as H.
  pose proof (octets_join chunks Ho) as Hj.
  destruct (input_all pow chunks parser_ctor) as [[[]|x] p]; cbn [loop_spec] in H.
  - destruct H as [Hp H]. destruct (eof_ok p Hp) as (r & p' & -> & Hr). cbn. intros ev. rewrite <- Hr, <- H by constructor.
    rewrite app_nil_r. by apply accepts_document.
  - destruct H as (-> & Hex & H). cbn. split_and!; [done..|]. intros ev Hd. apply (H [] ev); [constructor|]. rewrite app_nil_r. by apply accepts_document.
Qed.

End spec.

(** ** Integers *)

Lemma int_digits ip : int_ok ip -> digits ip /\ ip <> [].
Proof.
  destruct ip as [|d ip]; [done|]. intros [[-> ->]|[Hd Hip]]; (split; [|done]); apply digits_cons; (split; [|try done]); [done|constructor|].
  unfold isdigit. lia.
Qed.

Lemma digits_app a b : digits (a ++ b) <-> digits a /\ digits b.
Proof. unfold digits. apply Forall_app. Qed.

(** A text without a point or an exponent is read in one way only. *)
Lemma number_integer pow (neg : bool) ip e : int_ok ip ->
  Number pow ((if neg then [45] else []) ++ ip) e <-> number_event pow neg ip None None = Some e.
Proof.
  intros Hip. split; [|intros He; exists neg, ip, None, None; split_and!; [done..|by rewrite !app_nil_r|done]].
  intros (neg' & ip' & f & x & Hip' & Hf & Hx & E & He).
  destruct (int_digits _ Hip) as [Hd _]. destruct (int_digits _ Hip') as [Hd' Hne'].
  assert (neg = neg' /\ ip = ip' ++ frac_text f ++ exp_text x) as [<- ->].
  { destruct neg, neg'; cbn [app] in E; [by injection E| | |done].
    - destruct ip' as [|d ip']; [done|]. injection E as <- _. by apply digits_cons in Hd' as [? _].
    - rewrite E in Hd. by apply digits_cons in Hd as [? _]. }
  apply digits_app in Hd as [_ [Hd1 Hd2]%digits_app]. destruct f as [ds|].
  { cbn in Hd1. by apply digits_cons in Hd1 as [? _]. }
  destruct x as [[l s ds]|]; [|by rewrite !app_nil_r]. apply digits_cons in Hd2 as [Hl _]. destruct Hx as [Hx _]. cbn in *.
  destruct (is_e_digit l Hx). congruence.
Qed.

Lemma int_value_exact ip : int_ok ip -> decimal ip < 2 ^ 64 -> int_value ip = Some (decimal ip) /\ 0 <= decimal ip.
Proof.
  destruct ip as [|d ip]; [done|]. intros Hip Hlt. unfold decimal in *. cbn [foldl int_value] in *.
  assert (0 <= d - 48 /\ digits ip) as [Hd Hip'] by (destruct Hip as [[-> ->]|[? ?]]; [split; [lia|constructor]|split; [lia|done]]).
  replace (0 * 10 + (d - 48)) with (d - 48) in * by lia. split; [by apply accumulate_exact|]. etrans; [done|by apply decimal_grows].
Qed.

(** A text without white space is a document if it is a value. *)
Lemma document_number pow t ev c u : octets t -> t = c :: u -> (c =? 45) || isdigit c = true -> Forall (fun c => isspace c = false) t ->
  Document pow t ev <-> exists e, ev = [e] /\ Number pow t e.
Proof.
  intros Ho Et Hc Hs. split.
  - intros (w1 & v & w2 & Hw1 & Hv & Hw2 & E).
    assert (forall w, ws w -> Forall (fun c => isspace c = false) w -> w = []) as Hnil.
    { intros [|x w] Hw H; [done|]. apply Forall_cons in Hw as [? _]. apply Forall_cons in H as [? _]. congruence. }
    rewrite E, !Forall_app in Hs. destruct Hs as (H1 & _ & H2). apply Hnil in H1 as ->; [|done]. apply Hnil in H2 as ->; [|done].
    rewrite app_nil_r in E. cbn in E. subst v. rewrite Et in Hv, Ho |- *. destruct (value_into pow 197 c u ev Ho Hv) as (m & Hm & Hl).
    unfold value_matcher in Hm. rewrite Hc in Hm. injection Hm as <-. by apply leaf_run_number in Hl.
  - intros (e & -> & Hn). exists [], t, []. rewrite app_nil_r. split_and!; [constructor|by apply V_number|constructor|done].
Qed.

(** [is_valid] (lib/json/utility.cpp), with callbacks that do nothing *)
Definition is_valid (pow : double -> double -> double) (str : list Z) : outcome bool :=
  r <-? parse_chunks pow [str] ;; Ok (match r with Some _ => true | None => false end).

(** Of texts in ASCII it says whether they are documents. *)
Lemma is_valid_ok pow str : Forall (fun c => 0 <= c < 128) str ->
  exists b, is_valid pow str = Ok b /\ (b = true <-> exists ev, Document pow str ev).
Proof.
  intros Hs. assert (octets str) as Ho by (eapply Forall_impl; [exact Hs|]; cbn beta; lia).
  pose proof (parse_chunks_exact pow [str] ltac:(by constructor)) as H. change (mjoin [str]) with (str ++ []) in H. rewrite app_nil_r in H.
  unfold is_valid. destruct (parse_chunks pow [str]) as [r|x].
  - cbn [obind]. eexists. split; [done|]. destruct r as [ev|].
    + split; [|done]. intros _. exists ev. by apply H.
    + split; [done|]. intros [ev Hev]. by apply H in Hev.
  - destruct H as (_ & Hex & _). apply Exists_exists in Hex as (c & Hin & Hc). rewrite Forall_forall in Hs. specialize (Hs c Hin). cbn beta in *. lia.
Qed.

(** ** Claims *)

(** C40: integers are reported exactly: digits that denote a number of [long] become that number,
    with its sign, and larger ones are refused as out of range, as long as they fit an
    [unsigned long]. *)
Theorem json_integers_exact (pow : double -> double -> double) (neg : bool) (ip : list Z) : int_ok ip -> decimal ip < 2 ^ 64 ->
  let v := if neg then - decimal ip else decimal ip in
  parse_chunks pow [(if neg then [45] else []) ++ ip] = Ok (if decide (long_min <= v <= long_max) then Some [integer_value v] else None).
Proof.
  intros Hip Hlt v. destruct (int_value_exact ip Hip Hlt) as [Hv Hpos]. destruct (int_digits ip Hip) as [Hd Hne].
  set (t := (if neg then [45] else []) ++ ip).
  assert (Forall (fun c => c = 45 \/ isdigit c = true) t) as Hall.
  { unfold t. apply Forall_app. split; [destruct neg; repeat constructor|]. eapply Forall_impl; [exact Hd|]. auto. }
  assert (octets t) as Ho by (eapply Forall_impl; [exact Hall|]; intros c; unfold isdigit; cbn beta; lia).
  assert (Forall (fun c => isspace c = false) t) as Hs.
  { eapply Forall_impl; [exact Hall|]. intros c. unfold isdigit, isspace, tab, lf, cr, space. cbn beta. lia. }
  assert (exists c u, t = c :: u /\ (c =? 45) || isdigit c = true) as (c & u & Et & Hc).
  { unfold t. destruct neg; [by eexists 45, _|]. destruct ip as [|d ip]; [done|]. exists d, ip. split; [done|].
    apply digits_cons in Hd as [-> _]. apply orb_true_r. }
  pose proof (parse_chunks_exact pow [t] ltac:(by constructor)) as H. change (mjoin [t]) with (t ++ []) in H. rewrite app_nil_r in H.
  assert (forall ev, Document pow t ev <-> (if decide (long_min <= v <= long_max) then Some [integer_value v] else None) = Some ev) as Hdoc.
  { intros ev. rewrite (document_number pow t ev c u Ho Et Hc Hs). unfold t. setoid_rewrite (number_integer pow neg ip _ Hip).
    unfold number_event. rewrite Hv. unfold number_value. cbn [num is_integer_ is_neg_ int_acc_]. unfold v, long_min, long_max.
    destruct neg; match goal with |- context [?a >? ?b] => destruct (a >? b) eqn:Eg end; case_decide; try lia; split;
      first [by intros (? & -> & [= <-])|by intros [= <-]; eexists|by intros (? & _ & ?)|done]. }
  destruct (parse_chunks pow [t]) as [r|x].
  - f_equal. destruct r as [ev|].
    + symmetry. apply Hdoc, H. done.
    + destruct (if decide _ then _ else _) as [ev|]; [|done]. by pose proof (proj2 (H ev) (proj2 (Hdoc ev) eq_refl)).
  - destruct H as (_ & Hex & _). apply Exists_exists in Hex as (x' & Hin & Hx). rewrite Forall_forall in Hall. specialize (Hall x' Hin).
    unfold isdigit in Hall. lia.
Qed.

Lemma json_integers_exact_witness :
  parse_chunks (fun x _ => x) [[45; 49; 50]] = Ok (Some [integer_value (-12)]) /\ int_ok [49; 50].
Proof.
  assert (int_ok [49; 50]) as Hip by (right; split; [lia|repeat constructor]).
  split; [|exact Hip]. exact (json_integers_exact (fun x _ => x) true [49; 50] Hip ltac:(vm_compute; reflexivity)).
Defined.

(** Past that, the test for overflow lets some numbers wrap: 18446744073709551616 is read as 0. *)
Example json_overflow_wraps :
  parse_chunks (fun x _ => x) [[49; 56; 52; 52; 54; 55; 52; 52; 48; 55; 51; 55; 48; 57; 53; 53; 49; 54; 49; 54]] =
  Ok (Some [integer_value 0]).
Proof. vm_compute. reflexivity. Qed.
