(* ===== verification/JsonGrammar.v ===== *)
(** * The JSON parser against the grammar of RFC 8259

    [Json_text] is the grammar of RFC 8259 with the tokens of a text, and knows nothing of the
    parser: a number is the digits it is written with, a string the characters and escapes between
    its quotes. [report] says what a token stands for, in exact integers, pairs of surrogates and
    code points, with the roundings of [double] for the numbers that have a fraction or an exponent.
    A token may be well-formed and stand for nothing that can be reported: an integer outside
    [long], a surrogate without its partner. This file shows that the languages of JsonSpec.v, which
    compute as the matchers do, are this grammar as long as the accumulators of the number matcher
    do not overflow, and where in a text the parser leaves the defined behaviour of the language. *)

From Stdlib Require Import SpecFloat.
From S2P Require Import Prelude Utf Json JsonLex JsonString JsonSpec.

(** ** Tokens *)

(** [number = [ minus ] int [ frac ] [ exp ]] *)
Record literal := mk_literal {
  lit_neg : bool;
  lit_int : list Z;
  lit_frac : option (list Z);
  lit_exp : option exp_part
}.
Definition literal_ok (l : literal) : Prop := int_ok (lit_int l) /\ frac_ok (lit_frac l) /\ exp_ok (lit_exp l).
Definition literal_text (l : literal) : list Z :=
  (if lit_neg l then [45] else []) ++ lit_int l ++ frac_text (lit_frac l) ++ exp_text (lit_exp l).

(** [char] of the grammar: unescaped, escaped, or a code unit in four hexadecimal digits *)
Inductive string_char :=
  | Plain (c : Z)
  | Escaped (c : Z)
  | CodeUnit (q : list Z).
Definition char_ok (x : string_char) : Prop :=
  match x with
  | Plain c => scalar c /\ 32 <= c /\ c <> 34 /\ c <> 92
  | Escaped c => c ∈ escapes.*1
  | CodeUnit q => is_Some (hex4 q)
  end.
Definition char_text (x : string_char) : list Z :=
  match x with
  | Plain c => [c]
  | Escaped c => [92; c]
  | CodeUnit q => 92 :: 117 :: q
  end.
(** [string = quotation-mark *char quotation-mark], in UTF-8 *)
Definition string_text (cs : list string_char) : list Z := mjoin (utf8 <$> 34 :: (cs ≫= char_text) ++ [34]).

(** The brackets and the keywords are the calls that announce them. *)
Inductive json_token :=
  | Announce (e : event)
  | NumberToken (l : literal)
  | StringToken (cs : list string_char).

(** ** The grammar *)

(** [Json_value n t ts]: the text [t] is a value with the tokens [ts]. A value that opens no bracket
    with something inside needs [n = 1], and every such bracket around it one more. *)
Inductive Json_value : nat -> list Z -> list json_token -> Prop :=
  | J_true n : Json_value (S n) text_true [Announce (boolean_value true)]
  | J_false n : Json_value (S n) text_false [Announce (boolean_value false)]
  | J_null n : Json_value (S n) text_null [Announce null_value]
  | J_number n l : literal_ok l -> Json_value (S n) (literal_text l) [NumberToken l]
  | J_string n cs : Forall char_ok cs -> Json_value (S n) (string_text cs) [StringToken cs]
  | J_empty_array n w : ws w -> Json_value (S n) (91 :: w ++ [93]) [Announce begin_array; Announce end_array]
  | J_array n t ts : Json_elements n t ts ->
      Json_value (S n) (91 :: t ++ [93]) (Announce begin_array :: ts ++ [Announce end_array])
  | J_empty_object n w : ws w -> Json_value (S n) (123 :: w ++ [125]) [Announce begin_object; Announce end_object]
  | J_object n t ts : Json_members n t ts ->
      Json_value (S n) (123 :: t ++ [125]) (Announce begin_object :: ts ++ [Announce end_object])
with Json_elements : nat -> list Z -> list json_token -> Prop :=
  | J_element n w1 t w2 ts : ws w1 -> Json_value n t ts -> ws w2 -> Json_elements n (w1 ++ t ++ w2) ts
  | J_elements n w1 t w2 ts t' ts' : ws w1 -> Json_value n t ts -> ws w2 -> Json_elements n t' ts' ->
      Json_elements n (w1 ++ t ++ w2 ++ 44 :: t') (ts ++ ts')
with Json_members : nat -> list Z -> list json_token -> Prop :=
  | J_member n w1 cs w2 w3 t w4 ts : ws w1 -> Forall char_ok cs -> ws w2 -> ws w3 -> Json_value n t ts -> ws w4 ->
      Json_members n (w1 ++ string_text cs ++ w2 ++ 58 :: w3 ++ t ++ w4) (StringToken cs :: ts)
  | J_members n w1 cs w2 w3 t w4 ts t' ts' : ws w1 -> Forall char_ok cs -> ws w2 -> ws w3 -> Json_value n t ts -> ws w4 ->
      Json_members n t' ts' ->
      Json_members n (w1 ++ string_text cs ++ w2 ++ 58 :: w3 ++ t ++ w4 ++ 44 :: t') (StringToken cs :: ts ++ ts').

(** [JSON-text = ws value ws], nested at most 198 deep: the parser's stack has 200 entries. *)
Definition Json_text (t : list Z) (ts : list json_token) : Prop :=
  exists w1 v w2, ws w1 /\ Json_value 198 v ts /\ ws w2 /\ t = w1 ++ v ++ w2.

Scheme Json_value_mut := Minimality for Json_value Sort Prop
with Json_elements_mut := Minimality for Json_elements Sort Prop
with Json_members_mut := Minimality for Json_members Sort Prop.
Combined Scheme Json_ind from Json_value_mut, Json_elements_mut, Json_members_mut.

Scheme Value_mut := Minimality for Value Sort Prop
with Elements_mut := Minimality for Elements Sort Prop
with Members_mut := Minimality for Members Sort Prop.
Combined Scheme Value_ind' from Value_mut, Elements_mut, Members_mut.

(** ** What a token stands for *)

(** The character of an escape *)
Definition escaped (c : Z) : option Z := (fun '(_, p) => p.2) <$> list_find (fun p => p.1 = c) escapes.

(** The code points of the characters between the quotes (RFC 8259, section 7): a pair of escaped
    surrogates is one, a surrogate alone is none. *)
Fixpoint code_points (cs : list string_char) : option (list Z) :=
  match cs with
  | [] => Some []
  | Plain c :: cs => cons c <$> code_points cs
  | Escaped c :: cs => x ← escaped c; cons x <$> code_points cs
  | CodeUnit q :: cs =>
      u ← hex4 q;
      if surrogate u then
        match cs with
        | CodeUnit q' :: cs =>
            low ← hex4 q';
            if (u <=? 56319) && (56320 <=? low) && (low <=? 57343) then
              cons (65536 + (u - 55296) * 1024 + (low - 56320)) <$> code_points cs
            else None
        | _ => None
        end
      else cons u <$> code_points cs
  end.

(** The integer that the digits denote, if it is one of [long]; otherwise the [double] that
    (whole + fraction / scale) * 10 ^ exponent comes to, unless that is not finite *)
Definition number_report (pow : double -> double -> double) (l : literal) : option event :=
  let sign v := if lit_neg l then - v else v in
  match lit_frac l, lit_exp l with
  | None, None =>
      let v := sign (decimal (lit_int l)) in
      if decide (long_min <= v <= long_max) then Some (integer_value v) else None
  | f, x =>
      let fraction := foldl (fun x c => SFadd prec emax (SFmul prec emax x (of_int 10)) (of_int (c - 48))) (of_int 0) (default [] f) in
      let scale := foldl (fun x _ => SFmul prec emax x (of_int 10)) (of_int 1) (default [] f) in
      let power := pow (of_int 10) (of_int (match x with Some x => decimal (exp_digits x) | None => 0 end)) in
      let inverse := match x with Some x => bool_decide (exp_sign x = Some true) | None => false end in
      let mantissa := SFadd prec emax (of_int (decimal (lit_int l))) (SFdiv prec emax fraction scale) in
      let v := SFmul prec emax mantissa (if inverse then SFdiv prec emax (of_int 1) power else power) in
      let v := if lit_neg l then SFopp v else v in
      if isinf power || isinf v || isnan v then None else Some (float_value v)
  end.

Definition report (pow : double -> double -> double) (t : json_token) : option event :=
  match t with
  | Announce e => Some e
  | NumberToken l => number_report pow l
  | StringToken cs => (fun v => string_value (mjoin (utf8 <$> v))) <$> code_points cs
  end.

(** The integer part and the exponent of a number fit [unsigned long] and [unsigned int]. *)
Definition in_range (t : json_token) : Prop :=
  match t with
  | NumberToken l => decimal (lit_int l) < 2 ^ 64 /\ match lit_exp l with Some x => decimal (exp_digits x) < 2 ^ 32 | None => True end
  | _ => True
  end.
Definition numbers_in_range (text : list Z) : Prop := forall ts, Json_text text ts -> Forall in_range ts.

(** ** Strings *)

Lemma escaped_spec c x : escaped c = Some x <-> (c, x) ∈ escapes.
Proof.
  split.
  - unfold escaped. destruct (list_find _ _) as [[i [c' x']]|] eqn:E; [|done]. apply list_find_Some in E as (E & <- & _).
    intros [= <-]. by eapply list_elem_of_lookup_2.
  - intros Hin. unfold escapes in Hin. repeat (apply elem_of_cons in Hin as [[= -> ->]|Hin]; [done|]). by apply elem_of_nil in Hin.
Qed.

Lemma pair_exact hi low : is_utf16_high_surrogate hi = true -> is_utf16_low_surrogate low = true ->
  pair_code_point hi low = 65536 + (hi - 55296) * 1024 + (low - 56320).
Proof.
  unfold is_utf16_high_surrogate, is_utf16_low_surrogate, pair_code_point. intros Hh Hl.
  change 1023 with (Z.ones 10). rewrite !Z.land_ones, Z.shiftl_mul_pow2 by lia. change (2 ^ 10) with 1024.
  rewrite (Z.mod_eq hi 1024), (Z.mod_eq low 1024) by lia.
  rewrite <- (Z.div_unique hi 1024 54 (hi - 55296)), <- (Z.div_unique low 1024 55 (low - 56320)) by lia. lia.
Qed.

(** The test of [code_points] for a pair *)
Lemma pair_test u low : is_utf16_high_surrogate u && is_utf16_low_surrogate low =
  surrogate u && ((u <=? 56319) && (56320 <=? low) && (low <=? 57343)).
Proof. unfold is_utf16_high_surrogate, is_utf16_low_surrogate, surrogate. lia. Qed.

Lemma code_points_chars n : forall cs v, (length cs <= n)%nat -> Forall char_ok cs -> code_points cs = Some v -> chars 0 (cs ≫= char_text) v.
Proof.
  induction n as [n IH] using lt_wf_ind. intros [|[c|c|q] cs] v Hn Hok Hv; cbn [length] in Hn; rewrite ?bind_cons; cbn [char_text app code_points] in *.
  - injection Hv as <-. constructor.
  - apply Forall_cons in Hok as [(_ & ? & ? & ?) Hok]. apply fmap_Some in Hv as (v' & Hv & ->).
    apply (chars_plain c (cs ≫= char_text)); [done..|]. apply (IH (length cs)); [lia|done..].
  - apply Forall_cons in Hok as [_ Hok]. apply bind_Some in Hv as (x & Hx & (v' & Hv & ->)%fmap_Some).
    apply (chars_escape c x (cs ≫= char_text)); [by apply escaped_spec|]. apply (IH (length cs)); [lia|done..].
  - apply Forall_cons in Hok as [_ Hok]. apply bind_Some in Hv as (u & Hu & Hv). destruct (surrogate u) eqn:Es.
    + destruct cs as [|[|c|q'] cs]; try done. apply bind_Some in Hv as (low & Hl & Hv).
      pose proof (pair_test u low) as Ht. rewrite Es in Ht. destruct (_ && _ && _) in Hv, Ht; [|done].
      apply andb_prop in Ht as [H1 H2]. apply fmap_Some in Hv as (v' & Hv & ->). rewrite <- pair_exact by done.
      apply Forall_cons in Hok as [_ Hok]. cbn [length] in Hn. rewrite bind_cons. cbn [char_text app].
      apply (chars_high q u (92 :: 117 :: q' ++ (cs ≫= char_text))); [done..|].
      apply chars_low; [unfold is_utf16_high_surrogate in H1; lia|done..|]. apply (IH (length cs)); [lia|done..].
    + apply fmap_Some in Hv as (v' & Hv & ->). apply (chars_unit q u (cs ≫= char_text)); [done..|]. apply (IH (length cs)); [lia|done..].
Qed.

Lemma chars_code_points hi t v : chars hi t v -> Forall scalar t ->
  exists cs v', Forall char_ok cs /\ code_points cs = Some v' /\
    if decide (hi = 0) then t = cs ≫= char_text /\ v = v'
    else exists q u, hex4 q = Some u /\ is_utf16_low_surrogate u = true /\ t = 92 :: 117 :: q ++ (cs ≫= char_text) /\ v = pair_code_point hi u :: v'.
Proof.
  induction 1 as [|c t v H1 H2 H3 _ IH|c x t v Hin _ IH|q u t v Hq Hu _ IH|q u t v Hq Hu _ IH|hi q u t v Hhi Hq Hu _ IH]; intros Ht.
  - exists [], []. by repeat constructor.
  - apply Forall_cons in Ht as [Hc Ht]. destruct (IH Ht) as (cs & v' & Hok & Hv & -> & ->).
    exists (Plain c :: cs), (c :: v'). split_and!; [by constructor|cbn; by rewrite Hv|done].
  - rewrite !Forall_cons in Ht. destruct Ht as (_ & _ & Ht). destruct (IH Ht) as (cs & v' & Hok & Hv & -> & ->).
    exists (Escaped c :: cs), (x :: v'). split_and!; [|apply escaped_spec in Hin; cbn -[escaped]; rewrite Hin; cbn -[escaped]; by rewrite Hv|done].
    constructor; [|done]. apply list_elem_of_fmap. by exists (c, x).
  - rewrite !Forall_cons, Forall_app in Ht. destruct Ht as (_ & _ & _ & Ht). destruct (IH Ht) as (cs & v' & Hok & Hv & -> & ->).
    exists (CodeUnit q :: cs), (u :: v'). split_and!; [by constructor; [|done]; eexists|cbn -[hex4]; rewrite Hq; cbn -[hex4]; by rewrite Hu, Hv|done].
  - rewrite !Forall_cons, Forall_app in Ht. destruct Ht as (_ & _ & _ & Ht). destruct (IH Ht) as (cs & v' & Hok & Hv & H).
    rewrite decide_False in H by (unfold is_utf16_high_surrogate in Hu; lia). destruct H as (q' & low & Hq' & Hl & -> & ->).
    exists (CodeUnit q :: CodeUnit q' :: cs), (pair_code_point u low :: v').
    split_and!; [by constructor; [eexists|constructor; [eexists|]]| |done].
    cbn -[hex4]. rewrite Hq. cbn -[hex4]. pose proof (pair_test u low) as Hp. rewrite Hu, Hl in Hp. cbn -[hex4] in Hp. symmetry in Hp.
    apply andb_prop in Hp as [-> Hp]. rewrite Hq'. cbn -[hex4]. rewrite Hp, Hv, pair_exact by done. done.
  - rewrite !Forall_cons, Forall_app in Ht. destruct Ht as (_ & _ & _ & Ht). destruct (IH Ht) as (cs & v' & Hok & Hv & -> & ->).
    exists cs, v'. rewrite decide_False by done. split_and!; [done..|]. by exists q, u.
Qed.

(** The characters of a text in UTF-8 are scalar values. *)
Lemma char_text_scalar x : char_ok x -> Forall scalar (char_text x).
Proof.
  assert (forall c y, hex_digit c = Some y -> scalar c) as Hhex.
  { intros c y. unfold hex_digit, scalar. repeat case_match; try done; intros _; lia. }
  destruct x as [c|c|q]; cbn [char_ok char_text]; [intros (? & _); by constructor; [|constructor]| |].
  - intros Hin. constructor; [unfold scalar; lia|]. constructor; [|constructor]. apply list_elem_of_fmap in Hin as ([c' x] & -> & Hin). unfold escapes in Hin.
    repeat (apply elem_of_cons in Hin as [[= -> ->]|Hin]; [unfold scalar; cbn; lia|]). by apply elem_of_nil in Hin.
  - intros [u Hu]. constructor; [unfold scalar; lia|]. constructor; [unfold scalar; lia|].
    destruct q as [|a [|b [|c [|d [|]]]]]; try done. cbn in Hu. repeat case_match; simplify_eq. do 4 (constructor; [by eauto|]). constructor.
Qed.

Lemma string_tokens t s : String t s <->
  exists cs v, Forall char_ok cs /\ t = string_text cs /\ code_points cs = Some v /\ s = mjoin (utf8 <$> v).
Proof.
  split.
  - intros (cps & v & Hcps & -> & Hc & ->). destruct (chars_code_points 0 cps v Hc Hcps) as (cs & v' & Hok & Hv & -> & ->).
    by exists cs, v'.
  - intros (cs & v & Hok & -> & Hv & ->). exists (cs ≫= char_text), v. split_and!; [|done| |done].
    + apply Forall_bind. eapply Forall_impl; [exact Hok|]. apply char_text_scalar.
    + by apply (code_points_chars (length cs)).
Qed.

(** ** Numbers *)

(** The exponent does not wrap. *)
Lemma exponent_exact x ds : 0 <= x -> digits ds -> foldl (fun x c => x * 10 + (c - 48)) x ds < 2 ^ 32 ->
  foldl (fun x c => wrap32 (x * 10 + (c - 48))) x ds = foldl (fun x c => x * 10 + (c - 48)) x ds.
Proof.
  revert x. induction ds as [|c ds IH]; intros x Hx Hd Hlt; [done|]. apply digits_cons in Hd as [Hc Hd]. cbn [foldl] in *.
  assert (0 <= c - 48 <= 9) as Hc' by (unfold isdigit in Hc; lia).
  pose proof (decimal_grows (x * 10 + (c - 48)) ds ltac:(lia) Hd) as Hm. rewrite wrap_small by lia. by apply IH; [lia| |].
Qed.

Lemma literal_report pow l : literal_ok l -> in_range (NumberToken l) ->
  number_event pow (lit_neg l) (lit_int l) (lit_frac l) (lit_exp l) = number_report pow l.
Proof.
  destruct l as [neg ip f x]. intros (Hip & Hf & Hx) [Hi He]. cbn [lit_neg lit_int lit_frac lit_exp] in *.
  destruct (int_value_exact ip Hip Hi) as [Hv Hpos]. unfold number_event, number_report. cbn [lit_neg lit_int lit_frac lit_exp]. rewrite Hv.
  assert (match x with Some x => foldl (fun x c => wrap32 (x * 10 + (c - 48))) 0 (exp_digits x) | None => 0 end =
          match x with Some x => decimal (exp_digits x) | None => 0 end) as Ex.
  { destruct x as [x|]; [|done]. destruct Hx as (_ & _ & Hd). by apply exponent_exact. }
  unfold number_value, num. cbn [is_integer_ is_neg_ int_acc_ whole_part frac_part frac_scale exponent exp_is_negative].
  destruct f as [ds|], x as [x|]; [by rewrite <- Ex|done|by rewrite <- Ex|].
  unfold long_min, long_max. destruct neg; match goal with |- context [?a >? ?b] => destruct (a >? b) eqn:E end; case_decide; done || lia.
Qed.

(** ** The two grammars *)

Section grammar.

Context (pow : double -> double -> double).

(** What the matchers report of a token *)
Definition made (t : json_token) (e : event) : Prop :=
  match t with
  | Announce e' => e = e'
  | NumberToken l => number_event pow (lit_neg l) (lit_int l) (lit_frac l) (lit_exp l) = Some e
  | StringToken cs => exists v, code_points cs = Some v /\ e = string_value (mjoin (utf8 <$> v))
  end.

Definition well_formed (t : json_token) : Prop := match t with NumberToken l => literal_ok l | _ => True end.

Lemma made_report t e : well_formed t -> in_range t -> made t e <-> report pow t = Some e.
Proof.
  destruct t as [e'|l|cs]; cbn [well_formed made report]; intros Hw Hr.
  - naive_solver.
  - by rewrite literal_report.
  - rewrite fmap_Some. naive_solver.
Qed.

Lemma tokens_well_formed :
  (forall n t ts, Json_value n t ts -> Forall well_formed ts) /\
  (forall n t ts, Json_elements n t ts -> Forall well_formed ts) /\
  (forall n t ts, Json_members n t ts -> Forall well_formed ts).
Proof. apply Json_ind; intros; repeat first [apply Forall_cons; split|apply Forall_app; split|apply Forall_nil]; done. Qed.

Lemma value_tokens :
  (forall n t e, Value pow n t e -> exists ts, Json_value n t ts /\ Forall2 made ts e) /\
  (forall n t e, Elements pow n t e -> exists ts, Json_elements n t ts /\ Forall2 made ts e) /\
  (forall n t e, Members pow n t e -> exists ts, Json_members n t ts /\ Forall2 made ts e).
Proof.
  apply Value_ind'.
  all: intros; repeat match goal with H : exists ts, _ |- _ => destruct H as (? & ? & ?) end.
  all: repeat match goal with H : String _ _ |- _ => apply string_tokens in H as (? & ? & ? & -> & ? & ->) end.
  all: repeat match goal with H : Number _ _ _ |- _ => destruct H as (neg & ip & f & x & ? & ? & ? & -> & ?) end.
  4: { exists [NumberToken (mk_literal neg ip f x)]. split; [by apply (J_number n (mk_literal neg ip f x))|by repeat constructor]. }
  all: eexists; split; [by econstructor|]. 
  all: repeat first [apply Forall2_cons; split|apply Forall2_app|apply Forall2_nil]; try done; cbn; eauto.
Qed.

Lemma tokens_value :
  (forall n t ts, Json_value n t ts -> forall e, Forall2 made ts e -> Value pow n t e) /\
  (forall n t ts, Json_elements n t ts -> forall e, Forall2 made ts e -> Elements pow n t e) /\
  (forall n t ts, Json_members n t ts -> forall e, Forall2 made ts e -> Members pow n t e).
Proof.
  apply Json_ind.
  all: intros; repeat match goal with
    | H : Forall2 made [] _ |- _ => apply Forall2_nil_inv_l in H as ->
    | H : Forall2 made (_ :: _) _ |- _ => apply Forall2_cons_inv_l in H as (? & ? & ? & ? & ->)
    | H : Forall2 made (_ ++ _) _ |- _ => apply Forall2_app_inv_l in H as (? & ? & ? & ? & ->)
    | H : made (Announce _) _ |- _ => cbn in H; subst
    | H : made (StringToken _) _ |- _ => destruct H as (? & ? & ->)
    end.
  4: { destruct H as (? & ? & ?). constructor. by exists (lit_neg l), (lit_int l), (lit_frac l), (lit_exp l). }
  all: econstructor; eauto; apply string_tokens; eauto 10.
Qed.

Lemma document_tokens t ev : Document pow t ev <-> exists ts, Json_text t ts /\ Forall2 made ts ev.
Proof.
  split.
  - intros (w1 & v & w2 & Hw1 & Hv & Hw2 & ->). apply value_tokens in Hv as (ts & Hts & H). exists ts. split; [by exists w1, v, w2|done].
  - intros (ts & (w1 & v & w2 & Hw1 & Hv & Hw2 & ->) & H). exists w1, v, w2. split_and!; [done|by eapply tokens_value|done..].
Qed.

End grammar.

(** ** Keywords *)

Definition keywords : list (list Z) := [text_true; text_false; text_null].

(** A character outside ASCII stands directly behind a keyword. *)
Definition undefined_at (text : list Z) : Prop :=
  exists before kw c after, text = before ++ kw ++ c :: after /\ kw ∈ keywords /\ 128 <= c.

(** *** What a computation returns and throws, whatever the state *)

Definition yields {S A} (Q : A -> Prop) (E : exn -> Prop) (m : M S A) : Prop :=
  forall s, match (m s).1 with Ok a => Q a | Throw e => E e end.

Section yields.

Context {S : Type} (E : exn -> Prop).
Notation yields := (yields (S := S)).

Lemma yields_ret {A} (Q : A -> Prop) (a : A) : Q a -> yields Q E (ret a).
Proof. by intros H s. Qed.
Lemma yields_throw {A} (Q : A -> Prop) e : E e -> yields Q E (throw e).
Proof. by intros H s. Qed.
Lemma yields_bind {A B} (Q : B -> Prop) (m : M S A) (f : A -> M S B) :
  yields (fun _ => True) E m -> (forall a, yields Q E (f a)) -> yields Q E (bind m f).
Proof.
  intros Hm Hf s. unfold bind. specialize (Hm s). destruct (m s) as [[a|e] s']; [apply Hf|done].
Qed.
Lemma yields_gets {A} (f : S -> A) : yields (fun _ => True) E (gets f).
Proof. by intros s. Qed.
Lemma yields_modify (f : S -> S) : yields (fun _ => True) E (modify f).
Proof. by intros s. Qed.
Lemma yields_massert b : E Assert -> yields (fun _ => True) E (massert b).
Proof. intros H s. by destruct b. Qed.

End yields.

Create HintDb yields discriminated.
#[export] Hint Resolve yields_gets yields_modify : yields.

Lemma yields_on_parser {X A} (Q : A -> Prop) E (m : M parser A) : yields Q E m -> yields Q E (on_parser (X := X) m).
Proof. intros H [x p]. unfold on_parser. specialize (H p). by destruct (m p). Qed.

(** Goes down a computation, as [frame] does *)
Ltac yield_step :=
  first
    [ solve [auto with yields]
    | apply yields_ret
    | apply yields_throw
    | apply yields_massert
    | apply yields_on_parser
    | apply yields_bind; [|intros ?]
    | match goal with |- yields _ _ (match ?x with _ => _ end) => destruct x end
    | match goal with |- yields _ _ (let '_ := ?x in _) => destruct x end ].

Section location.

Context (pow : double -> double -> double).

(** A matcher that starts is no keyword, or the whole of one. *)
Definition starts (r : consumed) : Prop :=
  match r.1 with Some (m_token t) => text_ t ∈ keywords /\ r.2 = false | _ => True end.

Lemma push_root_starts {X} b : yields (S := X * parser) starts (fun e => e <> Undefined) (push_root b).
Proof.
  intros [x p]. unfold push_root, on_parser, make_root_matcher, bind, gets, ret. cbn. by destruct (existsb in_root _).
Qed.
Lemma terminal_starts {X} m b : starts (Some m, b) ->
  yields (S := X * parser) starts (fun e => e <> Undefined) (m <- on_parser (make_terminal_matcher m) ;; ret (Some m, b)).
Proof.
  intros H [x p]. unfold on_parser, make_terminal_matcher, bind, gets, ret. cbn. by destruct (existsb in_terminal _).
Qed.
Lemma push_whitespace_starts {X} b : yields (S := X * parser) starts (fun e => e <> Undefined) (push_whitespace b).
Proof. by apply terminal_starts. Qed.
#[local] Hint Resolve push_root_starts push_whitespace_starts : yields.

Ltac starts_tac :=
  unfold this, update, callback, set_state, set_error, parser_set_error;
  repeat first [solve [auto with yields]|apply terminal_starts; cbn; split; [|done]; by repeat constructor|apply terminal_starts|yield_step]; try done.

Lemma composite_yields m c p : is_leaf m = false ->
  match consume pow m (Some c) p with
  | (Ok (_, new, b), _) => starts (new, b)
  | (Throw e, _) => e <> Undefined
  end.
Proof.
  assert (forall X (wrap : X -> matcher) (x : X) (k : M (X * parser) consumed), yields starts (fun e => e <> Undefined) k ->
    match run_matcher wrap k x p with (Ok (_, new, b), _) => starts (new, b) | (Throw e, _) => e <> Undefined end) as Hrun.
  { intros X wrap x k H. unfold run_matcher. specialize (H (x, p)). by destruct (k (x, p)) as [[[]|] []]. }
  destruct m; try done; intros _; apply Hrun.
  - unfold array_consume, array_end. starts_tac.
  - unfold object_consume. starts_tac.
  - unfold whitespace_consume. starts_tac.
  - unfold eof_consume. starts_tac.
  - unfold root_consume. starts_tac.
Qed.

Lemma leaf_undefined m c e q : leaf_ok m -> 0 <= c < 256 -> consume pow m (Some c) (idle none) = (Throw e, q) ->
  128 <= c /\ exists t, m = m_token t /\ text_ t = [].
Proof.
  intros Hok Hc E. destruct (leaf_char pow m c Hok Hc) as [Ha _]. rewrite E in Ha. destruct Ha as [_ Hge]. split; [done|].
  destruct m as [t|n|m| | | | |]; try done.
  - exists t. split; [done|]. destruct t as [[] text ev]; try done. destruct Hok as [Hne _]. cbn [text_] in Hne.
    unfold consume, run_matcher, token_consume, set_error, set_state, parser_set_error, massert, oassert, bind, this, gets, update, modify, on_parser, lift, ret in E.
    cbn in E. by repeat case_bool_decide.
  - by destruct (number_step pow n c Hok) in E.
  - rewrite string_consume_char in E. destruct (Hok) as ([Hs Hp] & _).
    destruct (get_octet (decoder_ m) c Hs Hp Hc) as (o & d & Eg & Hd & Ho). rewrite Eg in E. destruct o as [cp|]; [|done].
    destruct Ho as [Hcp ->]. by destruct (string_step (with_decoder initial_decoder m) cp (with_decoder_ok _ _ Hok Hd) Hcp) in E.
Qed.

(** A keyword that goes on has taken its next character. *)
Lemma token_reads t c p m' new b q : token_ok t -> consume pow (m_token t) (Some c) p = (Ok (m', new, b), q) -> is_done m' = false ->
  b = true /\ exists t', m' = m_token t' /\ text_ t = c :: text_ t'.
Proof.
  destruct t as [[] text ev]; intros Hok E Hd; [done| |]; revert E Hd;
    unfold consume, run_matcher, token_consume, set_error, set_state, parser_set_error, callback, massert, oassert, bind, this, gets, update, modify, on_parser, lift, ret; cbn -[isalnum].
  - destruct Hok as [Hne _]. destruct text as [|x text]; [done|]. cbn.
    repeat case_match; intros; simplify_eq/=; try done; repeat case_bool_decide; simplify_eq/=; naive_solver.
  - repeat case_match; intros; simplify_eq/=; done.
Qed.

Lemma input_step_stack m below p c m' new b q b' p' : stack_ p = m :: below -> consume pow m (Some c) p = (Ok (m', new, b), q) ->
  input_step pow c p = (Ok (Some b'), p') -> b' = b /\ stack_ p' = option_list new ++ (if is_done m' then below else m' :: below).
Proof.
  intros Hst Hc. unfold input_step, input_push. unfold bind, gets, modify, ret, massert, oassert, lift.
  rewrite Hst. cbn -[consume is_done length Nat.ltb]. rewrite Hc. cbn -[is_done length Nat.ltb has_error].
  repeat case_match; intros; simplify_eq/=; done.
Qed.

Lemma input_step_undefined m below p c p' : stack_ p = m :: below -> input_step pow c p = (Throw Undefined, p') ->
  exists q, consume pow m (Some c) p = (Throw Undefined, q).
Proof.
  intros Hst. unfold input_step, input_push. unfold bind, gets, modify, ret, massert, oassert, lift.
  rewrite Hst. cbn -[consume is_done length Nat.ltb]. destruct (consume pow m (Some c) p) as [[[[m' new] b]|e] q]; [|intros [= -> ->]; eauto].
  cbn -[is_done length Nat.ltb has_error]. repeat case_match; intros; simplify_eq/=; done.
Qed.

(** After the text [a], a keyword that is being recognised has been read as far as its matcher says. *)
Definition seen (a : list Z) (st : list matcher) : Prop :=
  match st with
  | m_token t :: _ => exists a0 read, a = a0 ++ read /\ read ++ text_ t ∈ keywords
  | _ => True
  end.

Lemma below_seen a m below : stack_ok (m :: below) -> seen a below.
Proof.
  assert (forall st, waiting st -> seen a st) as Hw by (by destruct 1).
  assert (forall st, waiting_key st -> seen a st) as Hk by (by intros st (st' & -> & _)).
  inversion 1 as [E|w Hw' E|st Hp E|w m1 st Hw' Ho Hp E]; subst; try done; [|by destruct m1].
  inversion Hp; subst; try by apply Hw.
  - naive_solver.
  - case_match; auto.
Qed.

Lemma top_leaf m below : stack_ok (m :: below) -> is_leaf m = true -> leaf_ok m.
Proof. inversion 1 as [E|w Hw' E|st Hp E|w m1 st Hw' Ho Hp E]; subst; try done. by inversion Hp; subst. Qed.

Lemma consume_token_kind m c p m' new b q : consume pow m (Some c) p = (Ok (m', new, b), q) ->
  match m, m' with m_token _, m_token _ => True | m_token _, _ | _, m_token _ => False | _, _ => True end.
Proof. destruct m; unfold consume, run_matcher; intros H; by repeat case_match; simplify_eq. Qed.

(** What a matcher puts on the stack *)
Lemma consume_starts m below c p m' new b q : stack_ok (m :: below) -> error_ p = none -> 0 <= c < 256 ->
  consume pow m (Some c) p = (Ok (m', new, b), q) -> starts (new, b).
Proof.
  intros Hok He Hc E. destruct (is_leaf m) eqn:Hl.
  - pose proof (top_leaf _ _ Hok Hl) as Hm. destruct (leaf_char pow m c Hm Hc) as [Ha _].
    rewrite consume_leaf, He in E by done. destruct (consume pow m (Some c) (idle none)) as [[[[m1 new1] b1]|] q1]; [|done].
    destruct Ha as [-> _]. by simplify_eq.
  - pose proof (composite_yields m c p Hl) as H. by rewrite E in H.
Qed.

Lemma seen_next a m below c p m' new b q : stack_ok (m :: below) -> error_ p = none -> 0 <= c < 256 -> seen a (m :: below) ->
  consume pow m (Some c) p = (Ok (m', new, b), q) ->
  seen (if b then a ++ [c] else a) (option_list new ++ (if is_done m' then below else m' :: below)).
Proof.
  intros Hok He Hc Hs E. pose proof (consume_starts _ _ _ _ _ _ _ _ Hok He Hc E) as Hn. destruct new as [n|]; cbn [option_list app].
  - destruct n as [t|n|n|n|n|n|n|n]; try done. destruct Hn as [Hk Hb]. cbn in Hb. subst b. exists a, []. by rewrite app_nil_r.
  - destruct (is_done m') eqn:Hd; [by eapply below_seen|]. pose proof (consume_token_kind _ _ _ _ _ _ _ E) as Hk.
    destruct m as [t|n|n|n|n|n|n|n], m' as [t'|n'|n'|n'|n'|n'|n'|n']; try done.
    destruct (token_reads t c p _ _ _ _ (top_leaf _ _ Hok eq_refl) E Hd) as (-> & t1 & [= <-] & Ht). cbn [seen] in *.
    destruct Hs as (a0 & read & -> & Hin). exists a0, (read ++ [c]). rewrite <- !app_assoc. split; [done|]. by rewrite Ht in Hin.
Qed.

(** A turn of the loop *)
Lemma seen_step a p c : ready (stack_ p) (Some c) \/ ready (stack_ p) None -> error_ p = none -> 0 <= c < 256 -> seen a (stack_ p) ->
  match input_step pow c p with
  | (Ok (Some b), p') => seen (if b then a ++ [c] else a) (stack_ p')
  | (Ok None, _) => True
  | (Throw e, _) => e = Undefined -> exists before kw, a = before ++ kw /\ kw ∈ keywords /\ 128 <= c
  end.
Proof.
  intros Hr He Hc Hs. pose proof (ready_nonempty _ _ Hr) as Hne.
  assert (stack_ok (stack_ p)) as Hok by (by destruct Hr as [[? _]|[? _]]).
  destruct (stack_ p) as [|m below] eqn:Hst; [done|]. destruct (input_step pow c p) as [[[b|]|x] p'] eqn:Ei; [|done|].
  - destruct (consume pow m (Some c) p) as [[[[m' new] b']|x] q] eqn:E.
    + destruct (input_step_stack _ _ _ _ _ _ _ _ _ _ Hst E Ei) as [-> ->]. by eapply seen_next.
    + rewrite (input_step_throw pow _ _ _ _ _ _ Hst E) in Ei. done.
  - intros ->. destruct (input_step_undefined _ _ _ _ _ Hst Ei) as [q E]. destruct (is_leaf m) eqn:Hl.
    + rewrite consume_leaf, He in E by done. destruct (consume pow m (Some c) (idle none)) as [r q1] eqn:E1.
      destruct r as [?|x]; simplify_eq.
      destruct (leaf_undefined m c _ _ (top_leaf _ _ Hok Hl) Hc E1) as (Hge & t & -> & Ht). destruct Hs as (a0 & read & -> & Hin).
      exists a0, read. rewrite Ht, app_nil_r in Hin. done.
    + pose proof (composite_yields m c p Hl) as H. by rewrite E in H.
Qed.

(** The loops: the text [a] has been read before. *)
Definition located (a src : list Z) (r : outcome unit * parser) : Prop :=
  match r with
  | (Ok _, p') => error_ p' = none -> seen (a ++ src) (stack_ p')
  | (Throw e, _) => e = Undefined -> exists u, undefined_at u /\ u `prefix_of` a ++ src
  end.

Lemma input_loop_located src fuel : octets src -> forall a p, error_ p = none -> 
  match src with c :: _ => ready (stack_ p) (Some c) | [] => False end \/ ready (stack_ p) None -> seen a (stack_ p) ->
  located a src (input_loop pow fuel src p).
Proof.
  revert src. induction fuel as [|fuel IH]; intros [|c src] Ho a p He Hr Hs; [by cbn; rewrite app_nil_r|done|by cbn; rewrite app_nil_r|].
  apply Forall_cons in Ho as [Hc Ho]. cbn [input_loop]. unfold bind.
  pose proof (seen_step a p c Hr He Hc Hs) as Hn. pose proof (step_ok pow p c Hr (ready_nonempty _ _ Hr) He Hc) as Hk.
  destruct (input_step pow c p) as [[[[]|]|x] p'] eqn:E; cbn [step_spec] in Hk.
  - destruct Hk as (He' & Hr' & _). assert (located (a ++ [c]) src (input_loop pow fuel src p')) as Hl by (apply IH; auto).
    unfold located in *. by rewrite <- app_assoc in Hl.
  - destruct Hk as (He' & Hr' & _). apply IH; [by constructor|done|by left|done].
  - destruct Hk as [He' _]. by intros ?.
  - cbn. intros ->. destruct (Hn eq_refl) as (before & kw & -> & Hin & Hge). exists (before ++ kw ++ [c]). split.
    + by exists before, kw, c, [].
    + exists src. by rewrite <- !app_assoc.
Qed.

Lemma input_all_located chunks : Forall octets chunks -> forall a p, parser_ok p -> (error_ p = none -> seen a (stack_ p)) ->
  located a (mjoin chunks) (input_all pow chunks p).
Proof.
  induction 1 as [|src chunks Hsrc Hch IH]; intros a p Hp Hs; [by cbn; rewrite app_nil_r|].
  cbn [input_all]. change (mjoin (src :: chunks)) with (src ++ mjoin chunks). unfold bind.
  assert (located a src (input pow src p)) as Hl.
  { unfold input, bind, gets, has_error. cbn beta iota. destruct (decide (error_ p = none)) as [He|He].
    - rewrite He. cbn [is_none negb]. destruct Hp as [?|[Hr _]]; [done|]. apply input_loop_located; auto.
    - replace (is_none (error_ p)) with false by (by destruct (error_ p)). by intros ?. }
  pose proof (input_ok pow p src Hp Hsrc) as Hk. destruct (input pow src p) as [[[]|x] p']; cbn [loop_spec] in Hk.
  - destruct Hk as [Hp' _]. specialize (IH (a ++ src) p' Hp' Hl). unfold located in *. by rewrite <- app_assoc in IH.
  - cbn in *. intros ->. destruct (Hl eq_refl) as (u & Hu & Hpre). exists u. split; [done|].
    destruct Hpre as [k E]. exists (k ++ mjoin chunks). by rewrite !app_assoc, E.
Qed.

(** Undefined behaviour lies behind a keyword. *)
Lemma parse_chunks_undefined chunks : Forall octets chunks -> parse_chunks pow chunks = Throw Undefined -> undefined_at (mjoin chunks).
Proof.
  intros Ho. unfold parse_chunks, bind. pose proof (input_all_located chunks Ho [] parser_ctor parser_ctor_ok ltac:(done)) as Hl.
  pose proof (input_all_ok pow chunks parser_ctor parser_ctor_ok Ho) as Hk.
  destruct (input_all pow chunks parser_ctor) as [[[]|x] p]; cbn [loop_spec] in Hk.
  - destruct Hk as [Hp _]. by destruct (eof_ok pow p Hp) as (r & p' & -> & _).
  - cbn. intros [= ->]. destruct (Hl eq_refl) as (u & (before & kw & c & after & -> & Hin & Hge) & [k E]). cbn in E. rewrite E.
    exists before, kw, c, (after ++ k). by rewrite <- !app_assoc.
Qed.

End location.

(** ** Claims *)

Lemma Forall2_weaken {A B} (P : A -> Prop) (R S : A -> B -> Prop) l k :
  Forall P l -> (forall x y, P x -> R x y -> S x y) -> Forall2 R l k -> Forall2 S l k.
Proof. intros Hl H. induction 1; inversion Hl; subst; constructor; auto. Qed.

Lemma mapM_reports pow ts ev : Forall well_formed ts -> Forall in_range ts -> mapM (report pow) ts = Some ev <-> Forall2 (made pow) ts ev.
Proof.
  intros Hw Hr. assert (Forall (fun t => well_formed t /\ in_range t) ts) as H by (by apply Forall_and).
  rewrite mapM_Some. split; apply (Forall2_weaken _ _ _ _ _ H); intros t e [??]; by apply made_report.
Qed.

Lemma text_well_formed t ts : Json_text t ts -> Forall well_formed ts.
Proof. intros (w1 & v & w2 & _ & Hv & _). by apply tokens_well_formed in Hv. Qed.

(** C39: the parser accepts the grammar of RFC 8259 and nothing else. Whatever the text, and however
    it is divided into the pieces that are fed to [input], the loops end, no assertion fails and no
    matcher is constructed over a living one. A parse that succeeds has read a text of the grammar,
    nested at most 198 deep, and has reported its tokens in their order, each as [report] says unless
    it is a number whose integer part is 2^64 or more or whose exponent is 2^32 or more. If the text
    has no such number, the parse succeeds exactly if the text is one of the grammar and all its
    tokens stand for something: an integer outside [long], a number that is not finite as a
    [double] and a surrogate without its partner, which the grammar admits, are refused. The
    exception is a character outside ASCII directly behind one of the three keywords, which is passed
    to [std::isalnum] although its value may be none of [unsigned char]; undefined behaviour
    arises nowhere else, and never on a text that ought to be accepted. *)
Theorem json_parser_exact (pow : double -> double -> double) (chunks : list (list Z)) : Forall octets chunks ->
  let text := mjoin chunks in
  match parse_chunks pow chunks with
  | Ok r =>
      (forall ev, r = Some ev -> exists ts, Json_text text ts /\ Forall2 (fun t e => in_range t -> report pow t = Some e) ts ev) /\
      (numbers_in_range text -> forall ev, r = Some ev <-> exists ts, Json_text text ts /\ mapM (report pow) ts = Some ev)
  | Throw x => x = Undefined /\ undefined_at text /\
      forall ts, Json_text text ts -> Forall in_range ts -> mapM (report pow) ts = None
  end.
Proof.
  intros Ho text. pose proof (parse_chunks_exact pow chunks Ho) as H. pose proof (parse_chunks_undefined pow chunks Ho) as Hu.
  fold text in H, Hu. destruct (parse_chunks pow chunks) as [r|x].
  - setoid_rewrite document_tokens in H. split.
    + intros ev Hr. apply H in Hr as (ts & Ht & Hm). exists ts. split; [done|]. apply text_well_formed in Ht.
      eapply Forall2_weaken; [exact Ht| |exact Hm]. intros t e Hw Hmade Hr. by apply made_report.
    + intros Hin ev. rewrite H. split; intros (ts & Ht & Hm); exists ts; (split; [done|]);
        apply mapM_reports; eauto using text_well_formed.
  - destruct H as (-> & _ & H). split_and!; [done|by apply Hu|]. intros ts Ht Hr.
    destruct (mapM (report pow) ts) as [ev|] eqn:E; [|done]. destruct (H ev). apply document_tokens. exists ts. split; [done|].
    apply mapM_reports; eauto using text_well_formed.
Qed.

(** [ [true, {"a":[-7]}] ], with a space at either end, in two pieces *)
Lemma json_parser_exact_witness :
  let pow := fun x _ : double => x in
  let text := [[32; 91; 116; 114; 117]; [101; 44; 123; 34; 97; 34; 58; 91; 45; 55; 93; 125; 93; 32]] in
  let ev := [begin_array; boolean_value true; begin_object; string_value [97]; begin_array; integer_value (-7); end_array; end_object; end_array] in
  parse_chunks pow text = Ok (Some ev) /\
  exists ts, Json_text (mjoin text) ts /\ Forall2 (fun t e => in_range t -> report pow t = Some e) ts ev.
Proof.
  intros pow text ev. assert (parse_chunks pow text = Ok (Some ev)) as E by (vm_compute; reflexivity).
  split; [exact E|]. assert (Forall octets text) as Ho by (unfold text, octets; repeat constructor; lia).
  generalize (json_parser_exact pow text Ho). rewrite E. intros [H _]. apply H. reflexivity.
Defined.

(** A surrogate without its partner is a text of the grammar, and refused. *)
Example lone_surrogate_refused :
  let cs := [CodeUnit [100; 56; 48; 48]] in
  Json_text (string_text cs) [StringToken cs] /\ report (fun x _ => x) (StringToken cs) = None /\
  parse_chunks (fun x _ => x) [string_text cs] = Ok None.
Proof.
  split_and!; [|vm_compute; reflexivity..]. exists [], (string_text [CodeUnit [100; 56; 48; 48]]), [].
  split_and!; [constructor|apply J_string; constructor; [by eexists|constructor]|constructor|done].
Qed.

(** "true" and an octet of UTF-8 behind it *)
Example keyword_undefined : parse_chunks (fun x _ => x) [[116; 114; 117; 101; 195]] = Throw Undefined.
Proof. vm_compute. reflexivity. Qed.
