(* ===== verification/Checksum.v ===== *)
(** * Checksums and hashes

    Models lib/core/crc32.cpp and include/pstore/core/crc32.hpp (the CRC of the file
    header and of the transaction trailers) and lib/support/fnv.cpp (the FNV-1a hash of
    the string-keyed indices). Buffers are lists of octets. *)

From S2P Require Import Prelude.

(** ** CRC-32 *)

(** [details::crc32_tab] *)
Definition crc32_tab : list Z :=
  [0x00000000; 0x77073096; 0xee0e612c; 0x990951ba; 0x076dc419; 0x706af48f; 0xe963a535; 0x9e6495a3;
   0x0edb8832; 0x79dcb8a4; 0xe0d5e91e; 0x97d2d988; 0x09b64c2b; 0x7eb17cbd; 0xe7b82d07; 0x90bf1d91;
   0x1db71064; 0x6ab020f2; 0xf3b97148; 0x84be41de; 0x1adad47d; 0x6ddde4eb; 0xf4d4b551; 0x83d385c7;
   0x136c9856; 0x646ba8c0; 0xfd62f97a; 0x8a65c9ec; 0x14015c4f; 0x63066cd9; 0xfa0f3d63; 0x8d080df5;
   0x3b6e20c8; 0x4c69105e; 0xd56041e4; 0xa2677172; 0x3c03e4d1; 0x4b04d447; 0xd20d85fd; 0xa50ab56b;
   0x35b5a8fa; 0x42b2986c; 0xdbbbc9d6; 0xacbcf940; 0x32d86ce3; 0x45df5c75; 0xdcd60dcf; 0xabd13d59;
   0x26d930ac; 0x51de003a; 0xc8d75180; 0xbfd06116; 0x21b4f4b5; 0x56b3c423; 0xcfba9599; 0xb8bda50f;
   0x2802b89e; 0x5f058808; 0xc60cd9b2; 0xb10be924; 0x2f6f7c87; 0x58684c11; 0xc1611dab; 0xb6662d3d;
   0x76dc4190; 0x01db7106; 0x98d220bc; 0xefd5102a; 0x71b18589; 0x06b6b51f; 0x9fbfe4a5; 0xe8b8d433;
   0x7807c9a2; 0x0f00f934; 0x9609a88e; 0xe10e9818; 0x7f6a0dbb; 0x086d3d2d; 0x91646c97; 0xe6635c01;
   0x6b6b51f4; 0x1c6c6162; 0x856530d8; 0xf262004e; 0x6c0695ed; 0x1b01a57b; 0x8208f4c1; 0xf50fc457;
   0x65b0d9c6; 0x12b7e950; 0x8bbeb8ea; 0xfcb9887c; 0x62dd1ddf; 0x15da2d49; 0x8cd37cf3; 0xfbd44c65;
   0x4db26158; 0x3ab551ce; 0xa3bc0074; 0xd4bb30e2; 0x4adfa541; 0x3dd895d7; 0xa4d1c46d; 0xd3d6f4fb;
   0x4369e96a; 0x346ed9fc; 0xad678846; 0xda60b8d0; 0x44042d73; 0x33031de5; 0xaa0a4c5f; 0xdd0d7cc9;
   0x5005713c; 0x270241aa; 0xbe0b1010; 0xc90c2086; 0x5768b525; 0x206f85b3; 0xb966d409; 0xce61e49f;
   0x5edef90e; 0x29d9c998; 0xb0d09822; 0xc7d7a8b4; 0x59b33d17; 0x2eb40d81; 0xb7bd5c3b; 0xc0ba6cad;
   0xedb88320; 0x9abfb3b6; 0x03b6e20c; 0x74b1d29a; 0xead54739; 0x9dd277af; 0x04db2615; 0x73dc1683;
   0xe3630b12; 0x94643b84; 0x0d6d6a3e; 0x7a6a5aa8; 0xe40ecf0b; 0x9309ff9d; 0x0a00ae27; 0x7d079eb1;
   0xf00f9344; 0x8708a3d2; 0x1e01f268; 0x6906c2fe; 0xf762575d; 0x806567cb; 0x196c3671; 0x6e6b06e7;
   0xfed41b76; 0x89d32be0; 0x10da7a5a; 0x67dd4acc; 0xf9b9df6f; 0x8ebeeff9; 0x17b7be43; 0x60b08ed5;
   0xd6d6a3e8; 0xa1d1937e; 0x38d8c2c4; 0x4fdff252; 0xd1bb67f1; 0xa6bc5767; 0x3fb506dd; 0x48b2364b;
   0xd80d2bda; 0xaf0a1b4c; 0x36034af6; 0x41047a60; 0xdf60efc3; 0xa867df55; 0x316e8eef; 0x4669be79;
   0xcb61b38c; 0xbc66831a; 0x256fd2a0; 0x5268e236; 0xcc0c7795; 0xbb0b4703; 0x220216b9; 0x5505262f;
   0xc5ba3bbe; 0xb2bd0b28; 0x2bb45a92; 0x5cb36a04; 0xc2d7ffa7; 0xb5d0cf31; 0x2cd99e8b; 0x5bdeae1d;
   0x9b64c2b0; 0xec63f226; 0x756aa39c; 0x026d930a; 0x9c0906a9; 0xeb0e363f; 0x72076785; 0x05005713;
   0x95bf4a82; 0xe2b87a14; 0x7bb12bae; 0x0cb61b38; 0x92d28e9b; 0xe5d5be0d; 0x7cdcefb7; 0x0bdbdf21;
   0x86d3d2d4; 0xf1d4e242; 0x68ddb3f8; 0x1fda836e; 0x81be16cd; 0xf6b9265b; 0x6fb077e1; 0x18b74777;
   0x88085ae6; 0xff0f6a70; 0x66063bca; 0x11010b5c; 0x8f659eff; 0xf862ae69; 0x616bffd3; 0x166ccf45;
   0xa00ae278; 0xd70dd2ee; 0x4e048354; 0x3903b3c2; 0xa7672661; 0xd06016f7; 0x4969474d; 0x3e6e77db;
   0xaed16a4a; 0xd9d65adc; 0x40df0b66; 0x37d83bf0; 0xa9bcae53; 0xdebb9ec5; 0x47b2cf7f; 0x30b5ffe9;
   0xbdbdf21c; 0xcabac28a; 0x53b39330; 0x24b4a3a6; 0xbad03605; 0xcdd70693; 0x54de5729; 0x23d967bf;
   0xb3667a2e; 0xc4614ab8; 0x5d681b02; 0x2a6f2b94; 0xb40bbe37; 0xc30c8ea1; 0x5a05df1b; 0x2d02ef8d].

(** One iteration of the loop of [crc32]. *)
Definition crc32_step (crc b : Z) : Z :=
  Z.lxor (nth (Z.to_nat (Z.land (Z.lxor crc b) 0xFF)) crc32_tab 0) (Z.shiftr crc 8).

(** [crc32] *)
Definition crc32 (buf : list Z) : Z := Z.lxor (foldl crc32_step 0 buf) (2 ^ 32 - 1).

(** The shift register that the table speeds up: one bit of the dividend at a time, with
    the reversed polynomial 0xEDB88320. *)
Definition crc_bit (crc : Z) : Z :=
  if Z.testbit crc 0 then Z.lxor (Z.shiftr crc 1) 0xEDB88320 else Z.shiftr crc 1.

Definition crc_reference_step (crc b : Z) : Z := Nat.iter 8 crc_bit (Z.lxor crc b).
Definition crc_reference (buf : list Z) : Z :=
  Z.lxor (foldl crc_reference_step 0 buf) (2 ^ 32 - 1).


Definition crc_word (c : Z) : Prop := 0 <= c < 2 ^ 32.

Lemma crc32_tab_range : Forall crc_word crc32_tab.
Proof. apply (bool_decide_unpack (Forall (fun c => 0 <= c < 2 ^ 32) crc32_tab)). by vm_compute. Qed.

Lemma crc32_tab_nth i : crc_word (nth i crc32_tab 0).
Proof.
  destruct (decide (i < 256)%nat).
  - pose proof crc32_tab_range as H. rewrite Forall_forall in H. apply H.
    apply list_elem_of_In, nth_In. done.
  - rewrite nth_overflow; [done|]. change (length crc32_tab) with 256%nat. lia.
Qed.

Lemma crc_index_range c b : 0 <= c -> 0 <= b -> 0 <= Z.land (Z.lxor c b) 0xFF < 256.
Proof.
  intros. change 0xFF with (Z.ones 8). rewrite Z.land_ones by done. by apply Z.mod_pos_bound.
Qed.

Lemma shiftr_word c n : crc_word c -> 0 <= n -> crc_word (Z.shiftr c n).
Proof.
  intros Hc Hn. unfold crc_word in *. rewrite Z.shiftr_div_pow2 by done.
  assert (0 < 2 ^ n) by (apply Z.pow_pos_nonneg; lia).
  split; [apply Z.div_pos; lia|]. apply Z.le_lt_trans with c; [|lia]. apply Z.div_le_upper_bound; nia.
Qed.

Lemma crc32_step_word c b : crc_word c -> crc_word (crc32_step c b).
Proof. intros Hc. apply lxor_range; [done|apply crc32_tab_nth|by apply shiftr_word]. Qed.

(** *** The table computes eight steps of the shift register *)

Lemma crc_bit_xor a b : Z.testbit b 0 = false -> crc_bit (Z.lxor a b) = Z.lxor (crc_bit a) (Z.shiftr b 1).
Proof.
  intros Hb. unfold crc_bit. rewrite Z.lxor_spec, Hb, xorb_false_r, Z.shiftr_lxor.
  destruct (Z.testbit a 0); [|done]. rewrite !Z.lxor_assoc. f_equal. apply Z.lxor_comm.
Qed.

Lemma crc_bits_xor n a b : (forall i, 0 <= i < Z.of_nat n -> Z.testbit b i = false) ->
  Nat.iter n crc_bit (Z.lxor a b) = Z.lxor (Nat.iter n crc_bit a) (Z.shiftr b (Z.of_nat n)).
Proof.
  induction n as [|n IH]; intros Hb; [by rewrite Z.shiftr_0_r|].
  simpl Nat.iter. rewrite IH by (intros; apply Hb; lia). rewrite crc_bit_xor.
  - rewrite Z.shiftr_shiftr by lia. do 2 f_equal. lia.
  - rewrite Z.shiftr_spec by lia. apply Hb. lia.
Qed.

Lemma crc32_tab_reference :
  forallb (fun i => nth (Z.to_nat i) crc32_tab 0 =? Nat.iter 8 crc_bit i) (seqZ 0 256) = true.
Proof. by vm_compute. Qed.

Lemma crc32_step_reference c b : 0 <= c -> octet b -> crc32_step c b = crc_reference_step c b.
Proof.
  intros Hc Hb. unfold crc_reference_step, crc32_step.
  set (x := Z.lxor c b). set (lo := Z.land x 0xFF).
  assert (0 <= lo < 256) as Hlo by (apply crc_index_range; unfold octet in Hb; lia).
  assert (x = Z.lxor lo (Z.ldiff x (Z.ones 8))) as Hx.
  { apply Z.bits_inj'. intros i Hi. unfold lo. change 0xFF with (Z.ones 8).
    rewrite Z.lxor_spec, Z.land_spec, Z.ldiff_spec. by destruct (Z.testbit x i), (Z.testbit (Z.ones 8) i). }
  rewrite Hx at 1. rewrite crc_bits_xor.
  2:{ intros i Hi. rewrite Z.ldiff_spec, Z.ones_spec_low by lia. apply andb_false_r. }
  pose proof crc32_tab_reference as Ht. rewrite forallb_forall in Ht.
  specialize (Ht lo). rewrite Z.eqb_eq in Ht. rewrite <- Ht.
  2:{ apply list_elem_of_In, elem_of_seqZ. lia. }
  f_equal. change (Z.of_nat 8) with 8. apply Z.bits_inj'. intros i Hi.
  rewrite !Z.shiftr_spec, Z.ldiff_spec, Z.ones_spec_high by lia. unfold x.
  rewrite Z.lxor_spec, (testbit_ge 8 b) by (unfold octet in Hb; lia).
  by rewrite xorb_false_r, andb_true_r.
Qed.

(** The table-driven loop computes the CRC. *)
Lemma crc32_correct buf : Forall octet buf -> crc32 buf = crc_reference buf.
Proof.
  intros Hbuf. unfold crc32, crc_reference. f_equal.
  assert (forall c, crc_word c -> foldl crc32_step c buf = foldl crc_reference_step c buf) as H; [|by apply H].
  induction Hbuf as [|b buf Hb _ IH]; intros c Hc; [done|]. cbn [foldl].
  rewrite <- crc32_step_reference by (done || apply Hc). apply IH. by apply crc32_step_word.
Qed.

(** *** Any change to a single octet is detected *)

Lemma crc32_tab_high_distinct :
  bool_decide (NoDup ((fun c => Z.shiftr c 24) <$> crc32_tab)) = true.
Proof. by vm_compute. Qed.

Lemma crc32_tab_lookup i : (i < 256)%nat -> crc32_tab !! i = Some (nth i crc32_tab 0).
Proof.
  intros Hi. destruct (nth_lookup_or_length crc32_tab i 0) as [|Hlen]; [done|].
  change (length crc32_tab) with 256%nat in Hlen. lia.
Qed.

Lemma crc32_tab_inj i j : (i < 256)%nat -> (j < 256)%nat ->
  Z.shiftr (nth i crc32_tab 0) 24 = Z.shiftr (nth j crc32_tab 0) 24 -> i = j.
Proof.
  intros Hi Hj Heq. pose proof crc32_tab_high_distinct as Hnd%bool_decide_eq_true.
  eapply (NoDup_lookup _ i j (Z.shiftr (nth i crc32_tab 0) 24) Hnd);
    rewrite list_lookup_fmap, crc32_tab_lookup by done; [done|].
  change (Some (Z.shiftr (nth j crc32_tab 0) 24) = Some (Z.shiftr (nth i crc32_tab 0) 24)). by rewrite Heq.
Qed.

(** A step loses no information about the register nor about the octet. *)
Lemma crc32_step_inj c1 c2 b1 b2 :
  crc_word c1 -> crc_word c2 -> octet b1 -> octet b2 ->
  crc32_step c1 b1 = crc32_step c2 b2 ->
  Z.shiftr c1 8 = Z.shiftr c2 8 /\ Z.land (Z.lxor c1 b1) 0xFF = Z.land (Z.lxor c2 b2) 0xFF.
Proof.
  unfold crc_word, octet. intros Hc1 Hc2 Hb1 Hb2 Heq. unfold crc32_step in Heq.
  pose proof (crc_index_range c1 b1 ltac:(lia) ltac:(lia)) as H1.
  pose proof (crc_index_range c2 b2 ltac:(lia) ltac:(lia)) as H2.
  assert (forall c, 0 <= c < 2 ^ 32 -> Z.shiftr (Z.shiftr c 8) 24 = 0) as Hz.
  { intros c Hc. rewrite Z.shiftr_shiftr, Z.shiftr_div_pow2 by done. by apply Z.div_small. }
  assert (Z.land (Z.lxor c1 b1) 0xFF = Z.land (Z.lxor c2 b2) 0xFF) as Hidx.
  { apply Z2Nat.inj; [lia|lia|]. apply crc32_tab_inj; [lia|lia|].
    apply (f_equal (fun x => Z.shiftr x 24)) in Heq. rewrite !Z.shiftr_lxor, !Hz, !Z.lxor_0_r in Heq by done.
    exact Heq. }
  split; [|done]. rewrite Hidx in Heq. apply (f_equal (Z.lxor (nth (Z.to_nat (Z.land (Z.lxor c2 b2) 0xFF)) crc32_tab 0))) in Heq.
  by rewrite <- !Z.lxor_assoc, Z.lxor_nilpotent, !Z.lxor_0_l in Heq.
Qed.

Lemma low_xor_inj x y z : Z.land (Z.lxor x z) 0xFF = Z.land (Z.lxor y z) 0xFF -> Z.land x 0xFF = Z.land y 0xFF.
Proof.
  intros Heq. apply Z.bits_inj'. intros i Hi. apply (f_equal (fun v => Z.testbit v i)) in Heq.
  rewrite !Z.land_spec, !Z.lxor_spec in *. by destruct (Z.testbit x i), (Z.testbit y i), (Z.testbit z i), (Z.testbit 255 i).
Qed.

Lemma crc32_step_inj_crc c1 c2 b : crc_word c1 -> crc_word c2 -> octet b ->
  crc32_step c1 b = crc32_step c2 b -> c1 = c2.
Proof.
  intros Hc1 Hc2 Hb Heq. destruct (crc32_step_inj c1 c2 b b Hc1 Hc2 Hb Hb Heq) as [Hhi Hlo%low_xor_inj].
  change 0xFF with (Z.ones 8) in Hlo. rewrite !Z.land_ones in Hlo by done.
  rewrite !Z.shiftr_div_pow2 in Hhi by done.
  rewrite (Z.div_mod c1 (2 ^ 8)), (Z.div_mod c2 (2 ^ 8)) by done. lia.
Qed.

Lemma crc32_step_inj_octet c b1 b2 : crc_word c -> octet b1 -> octet b2 ->
  crc32_step c b1 = crc32_step c b2 -> b1 = b2.
Proof.
  intros Hc Hb1 Hb2 Heq. destruct (crc32_step_inj c c b1 b2 Hc Hc Hb1 Hb2 Heq) as [_ Hlo].
  rewrite !(Z.lxor_comm c) in Hlo. apply low_xor_inj in Hlo.
  change 0xFF with (Z.ones 8) in Hlo. rewrite !Z.land_ones in Hlo by done.
  unfold octet in *. by rewrite !Z.mod_small in Hlo by (change (2 ^ 8) with 256; lia).
Qed.

Lemma crc32_foldl_word buf c : crc_word c -> crc_word (foldl crc32_step c buf).
Proof. revert c. induction buf as [|b buf IH]; intros c Hc; [done|]. by apply IH, crc32_step_word. Qed.

Lemma crc32_foldl_inj buf c1 c2 : Forall octet buf -> crc_word c1 -> crc_word c2 ->
  foldl crc32_step c1 buf = foldl crc32_step c2 buf -> c1 = c2.
Proof.
  intros Hbuf. revert c1 c2. induction Hbuf as [|b buf Hb _ IH]; intros c1 c2 Hc1 Hc2 Heq; [done|].
  eapply crc32_step_inj_crc; [done|done|exact Hb|]. apply IH; [by apply crc32_step_word..|done].
Qed.

Lemma crc32_one_octet buf i b : Forall octet buf -> octet b -> (i < length buf)%nat ->
  crc32 (<[i := b]> buf) = crc32 buf -> <[i := b]> buf = buf.
Proof.
  intros Hbuf Hb Hi Heq. destruct (lookup_lt_is_Some_2 _ _ Hi) as [b0 Hb0].
  rewrite insert_take_drop by done. rewrite <- (take_drop_middle buf i b0 Hb0) at 3.
  do 2 f_equal. rewrite insert_take_drop in Heq by done.
  rewrite <- (take_drop_middle buf i b0 Hb0) in Heq at 3. unfold crc32 in Heq.
  apply (f_equal (fun x => Z.lxor x (2 ^ 32 - 1))) in Heq.
  rewrite !Z.lxor_assoc, Z.lxor_nilpotent, !Z.lxor_0_r in Heq.
  rewrite !foldl_app in Heq. cbn [foldl] in Heq.
  assert (crc_word (foldl crc32_step 0 (take i buf))) as Hc by (by apply crc32_foldl_word).
  rewrite Forall_lookup in Hbuf. pose proof (Hbuf _ _ Hb0) as Ho0.
  eapply crc32_step_inj_octet; [exact Hc|done|done|].
  eapply crc32_foldl_inj; [|by apply crc32_step_word..|exact Heq]. apply Forall_drop. by apply Forall_lookup.
Qed.

(** ** FNV-1a *)

Definition fnv1a_64_init : Z := 0xcbf29ce484222325.
Definition fnv_64_prime : Z := 0x100000001b3.

(** [append]: the multiplication by the prime is done by shifts and additions. *)
Definition fnv_append (v hval : Z) : Z :=
  let hval := Z.lxor hval v in
  let shl n := wrap64 (Z.shiftl hval n) in
  wrap64 (hval + wrap64 (shl 1 + shl 4 + shl 5 + shl 7 + shl 8 + shl 40)).

(** [fnv_64a_buf] *)
Definition fnv_64a_buf (buf : list Z) (hval : Z) : Z :=
  foldl (fun result b => fnv_append b result) hval buf.

(** [fnv_64a_str]: hashes up to the terminating zero *)
Fixpoint fnv_64a_str (str : list Z) (hval : Z) : Z :=
  match str with
  | [] => hval
  | b :: str => if b =? 0 then hval else fnv_64a_str str (fnv_append b hval)
  end.

(** [fnv_64a_hash] *)
Definition fnv_64a_hash (buf : list Z) : Z := fnv_64a_buf buf fnv1a_64_init.

Lemma fnv_append_prime v hval :
  fnv_append v hval = wrap64 (Z.lxor hval v * fnv_64_prime).
Proof.
  unfold fnv_append. cbn zeta. set (h := Z.lxor hval v). unfold wrap.
  rewrite !Z.shiftl_mul_pow2 by done. rewrite Z.add_mod_idemp_r by done.
  assert (forall a b c, (a + (b + c mod 2 ^ 64)) mod 2 ^ 64 = (a + (b + c)) mod 2 ^ 64) as Hr.
  { intros a b c. rewrite !Z.add_assoc. by rewrite Z.add_mod_idemp_r. }
  assert (forall a b c, (a + (b mod 2 ^ 64 + c)) mod 2 ^ 64 = (a + (b + c)) mod 2 ^ 64) as Hl.
  { intros a b c. rewrite (Z.add_comm (b mod _)), Hr. f_equal. lia. }
  rewrite Hr, <- !Z.add_assoc, Hl. rewrite !(Z.add_assoc h), Hl.
  rewrite !(Z.add_assoc (h + _)), Hl. rewrite !(Z.add_assoc (h + _ + _)), Hl.
  rewrite !(Z.add_assoc (h + _ + _ + _)), Hl. f_equal. unfold fnv_64_prime. lia.
Qed.

(** The hash is the FNV-1a recurrence modulo 2^64, and always a 64-bit value. *)
Lemma fnv_64a_correct buf :
  fnv_64a_hash buf = foldl (fun h b => (Z.lxor h b * fnv_64_prime) mod 2 ^ 64) fnv1a_64_init buf /\
  0 <= fnv_64a_hash buf < 2 ^ 64.
Proof.
  unfold fnv_64a_hash, fnv_64a_buf. generalize fnv1a_64_init, (conj (eq_refl : 0 <=? fnv1a_64_init = true) (eq_refl : fnv1a_64_init <? 2 ^ 64 = true)).
  intros h [Hl%Z.leb_le Hu%Z.ltb_lt]. revert h Hl Hu.
  induction buf as [|b buf IH]; intros h Hl Hu; [done|]. cbn [foldl]. rewrite fnv_append_prime.
  pose proof (wrap_range 64 (Z.lxor h b * fnv_64_prime) ltac:(done)). apply IH; lia.
Qed.
