(* ===== verification/Address.v ===== *)
(** * Store addresses

    Models include/pstore/core/address.hpp: the 64-bit [address] with its segment and
    offset parts, [typed_address] (an address that counts in multiples of the size of
    the type it points to) and [extent]. *)

From S2P Require Import Prelude.

Definition offset_number_bits : Z := 22.
Definition segment_number_bits : Z := 16.
Definition max_offset : Z := 2 ^ offset_number_bits - 1.
Definition max_segment : Z := 2 ^ segment_number_bits - 1.
Definition segment_size : Z := max_offset + 1.

(** An [address] is its absolute value. *)
Definition null_address : Z := 0.

Definition max_address : Z := Z.lor (Z.shiftl max_segment offset_number_bits) max_offset.

(** [address (segment, offset)] *)
Definition as_absolute (segment offset : Z) : outcome Z :=
  _ <-? oassert (segment <=? max_segment + 1) ;;
  _ <-? oassert (offset <=? max_offset + 1) ;;
  Ok (Z.lor (Z.shiftl segment offset_number_bits) offset).

Definition addr_segment (a : Z) : Z := Z.land (Z.shiftr a offset_number_bits) max_segment.
Definition addr_offset (a : Z) : Z := Z.land a max_offset.

(** [operator+=] and [operator-=] *)
Definition addr_add_assign (a distance : Z) : outcome Z :=
  _ <-? oassert (a <=? uint64_max - distance) ;; Ok (a + distance).
Definition addr_sub_assign (a distance : Z) : outcome Z :=
  _ <-? oassert (a >=? distance) ;; Ok (a - distance).

(** [operator+] does not check; [operator-] does. *)
Definition addr_add (a distance : Z) : Z := wrap64 (a + distance).
Definition addr_sub (a b : Z) : outcome Z := _ <-? oassert (a >=? b) ;; Ok (a - b).

(** *** Typed addresses of objects of [size] bytes *)

Definition typed_add (size a n : Z) : Z := wrap64 (a + wrap64 (n * size)).
Definition typed_sub (size a n : Z) : outcome Z :=
  let delta := wrap64 (n * size) in
  _ <-? oassert (a >=? delta) ;; addr_sub a delta.

(** *** Extents *)

Record extent := Extent { ex_addr : Z; ex_size : Z }.

Definition extent_eqb (l r : extent) : bool := (ex_addr l =? ex_addr r) && (ex_size l =? ex_size r).
Definition extent_lt (l r : extent) : bool :=
  (ex_addr l <? ex_addr r) || ((ex_addr l =? ex_addr r) && (ex_size l <? ex_size r)).
Definition extent_ge (l r : extent) : bool := negb (extent_lt l r).
Definition extent_gt (l r : extent) : bool := extent_lt r l.
Definition extent_le (l r : extent) : bool := negb (extent_gt l r).

#[global] Instance extent_eq_dec : EqDecision extent.
Proof. solve_decision. Defined.

(** ** Properties *)

Lemma addr_segment_div a : 0 <= a <= max_address -> addr_segment a = a / segment_size.
Proof.
  intros Ha. unfold addr_segment, max_segment. rewrite Z.shiftr_div_pow2 by done.
  change (2 ^ segment_number_bits - 1) with (Z.ones 16). rewrite Z.land_ones by done.
  change segment_size with (2 ^ offset_number_bits). apply Z.mod_small.
  change max_address with (2 ^ 16 * 2 ^ offset_number_bits - 1) in Ha. split.
  - apply Z.div_pos; lia.
  - apply Z.div_lt_upper_bound; lia.
Qed.

Lemma addr_offset_mod a : addr_offset a = a mod segment_size.
Proof.
  unfold addr_offset. change max_offset with (Z.ones 22). by rewrite Z.land_ones.
Qed.

(** Segment and offset identify an address of the store. *)
Lemma segment_offset_roundtrip a :
  0 <= a <= max_address ->
  0 <= addr_segment a <= max_segment /\ 0 <= addr_offset a <= max_offset /\
  as_absolute (addr_segment a) (addr_offset a) = Ok a.
Proof.
  intros Ha. rewrite addr_segment_div, addr_offset_mod by done.
  pose proof (Z.mod_pos_bound a segment_size ltac:(done)) as Hm.
  pose proof (Z.div_mod a segment_size ltac:(done)) as Hdm.
  change max_address with (2 ^ 16 * segment_size - 1) in Ha.
  assert (0 <= a / segment_size < 2 ^ 16) as Hd.
  { split; [apply Z.div_pos; lia|apply Z.div_lt_upper_bound; lia]. }
  assert (a / segment_size <= max_segment) by (unfold max_segment, segment_number_bits; lia).
  assert (a mod segment_size <= max_offset) by (assert (segment_size = max_offset + 1) by done; lia).
  split_and!; try lia. unfold as_absolute.
  rewrite !(proj2 (Z.leb_le _ _)) by lia. cbn [obind oassert]. f_equal.
  rewrite Z.shiftl_mul_pow2 by done. change (2 ^ offset_number_bits) with segment_size.
  rewrite Hdm at 3. rewrite (Z.mul_comm segment_size).
  symmetry. rewrite Z.add_nocarry_lxor; [apply Z.bits_inj'; intros i Hi; rewrite Z.lxor_spec, Z.lor_spec|].
  - change segment_size with (2 ^ 22). destruct (decide (i < 22)).
    + rewrite Z.mul_pow2_bits_low by done. done.
    + rewrite (testbit_ge 22 (a mod 2 ^ 22)) by (change segment_size with (2 ^ 22) in Hm; lia).
      by destruct (Z.testbit _ _).
  - apply Z.bits_inj'. intros i Hi. rewrite Z.land_spec, Z.bits_0.
    change segment_size with (2 ^ 22). destruct (decide (i < 22)).
    + by rewrite Z.mul_pow2_bits_low by done.
    + rewrite (testbit_ge 22 (a mod 2 ^ 22)) by (change segment_size with (2 ^ 22) in Hm; lia).
      apply andb_false_r.
Qed.

(** The order on extents is total and agrees with equality. *)
Lemma extent_trichotomy l r :
  (extent_lt l r = true /\ extent_eqb l r = false /\ extent_gt l r = false) \/
  (extent_lt l r = false /\ extent_eqb l r = true /\ extent_gt l r = false) \/
  (extent_lt l r = false /\ extent_eqb l r = false /\ extent_gt l r = true).
Proof.
  unfold extent_lt, extent_eqb, extent_gt, extent_lt.
  destruct (Z.ltb_spec (ex_addr l) (ex_addr r)), (Z.ltb_spec (ex_addr r) (ex_addr l)),
    (Z.eqb_spec (ex_addr l) (ex_addr r)), (Z.eqb_spec (ex_addr r) (ex_addr l)),
    (Z.eqb_spec (ex_size l) (ex_size r)), (Z.ltb_spec (ex_size l) (ex_size r)),
    (Z.ltb_spec (ex_size r) (ex_size l)); simpl; lia || auto.
Qed.
