(* ===== verification/Region.v ===== *)
(** * Memory-mapped regions

    Models include/pstore/core/region.hpp and lib/core/region.cpp: the factory that
    divides a file into memory-mapped regions and extends the collection as the file
    grows. A mapping is known by the base pointer it was given ([rg_data]). *)

From S2P Require Import Prelude.

(** A [memory_mapper_base]: its base pointer, file offset and size. *)
Record region := Region { rg_data : Z; rg_offset : Z; rg_size : Z }.

#[global] Instance region_eq_dec : EqDecision region.
Proof. solve_decision. Defined.

(** [memory_mapper_base::end] *)
Definition rg_end (r : region) : Z := rg_offset r + rg_size r.

(** [region::round_up] *)
Definition round_up (x y : Z) : Z := wrap64 (x + y - 1) / y * y.

(** [storage::full_region_size] and [storage::min_region_size] *)
Definition full_region_size : Z := Z.shiftl 1 32.
Definition min_region_size : Z := Z.shiftl 1 22.

(** What a factory maps: the regions so far, the base pointer of the next mapping and
    the size of the file. *)
Record mapped := Mapped { regions : list region; next_data : Z; file_size : Z }.

Section builder.
Context (full_size minimum_size : Z).

(** [region_builder::push] *)
Definition builder_push (offset size : Z) (m : mapped) : outcome mapped :=
  _ <-? oassert (size >=? minimum_size) ;;
  Ok (Mapped (regions m ++ [Region (next_data m) offset size]) (next_data m + 1) (file_size m)).

(** The loop of [region_builder::append] *)
Fixpoint append_loop (fuel : nat) (offset bytes_to_map : Z) (m : mapped) : outcome mapped :=
  if bytes_to_map >? 0 then
    match fuel with
    | O => Throw OutOfFuel
    | S fuel =>
        let size := Z.min full_size bytes_to_map in
        let bytes_to_map := bytes_to_map - size in
        m <-? builder_push offset size m ;;
        append_loop fuel (offset + full_size) bytes_to_map m
    end
  else Ok m.

(** [region_builder::check_regions_are_contiguous] *)
Fixpoint contiguous (p : Z) (rs : list region) : bool :=
  match rs with
  | [] => true
  | r :: rs => (rg_offset r =? p) && contiguous (p + rg_size r) rs
  end.

(** Every iteration but the last maps a full region. *)
Definition append_fuel (bytes_to_map : Z) : nat := Z.to_nat (bytes_to_map / full_size + 1).

(** [region_builder::append] *)
Definition builder_append (offset bytes_to_map : Z) (m : mapped) : outcome mapped :=
  _ <-? oassert (offset mod minimum_size =? 0) ;;
  let bytes_to_map := round_up bytes_to_map minimum_size in
  _ <-? oassert (bytes_to_map mod minimum_size =? 0) ;;
  m <-? append_loop (append_fuel bytes_to_map) offset bytes_to_map m ;;
  _ <-? oassert (contiguous 0 (regions m)) ;;
  Ok m.

(** [factory::create], for a file of the given size *)
Definition factory_create (file_size : Z) : outcome mapped :=
  builder_append 0 file_size (Mapped [] 1 file_size).

(** [factory::append]; [small_files_enabled] is false in the default configuration *)
Definition factory_append (original_size new_size : Z) (m : mapped) : outcome mapped :=
  _ <-? oassert (new_size >=? original_size) ;;
  let new_size := round_up new_size minimum_size in
  let m := Mapped (regions m) (next_data m) new_size in
  builder_append original_size (new_size - original_size) m.

End builder.

(** Where the last region of a file of this size begins when the file is mapped anew *)
Definition last_region_offset (file_size : Z) : Z := (file_size - 1) / full_region_size * full_region_size.

(** ** Properties *)

Lemma round_up_ok x y : 0 < y -> 0 <= x -> x + y <= 2 ^ 64 ->
  x <= round_up x y < x + y /\ (y | round_up x y).
Proof.
  intros Hy Hx Hb. unfold round_up. rewrite wrap_small by lia.
  pose proof (Z.div_mod (x + y - 1) y ltac:(lia)). pose proof (Z.mod_pos_bound (x + y - 1) y Hy).
  split; [lia|]. exists ((x + y - 1) / y). lia.
Qed.

Lemma round_up_multiple x y : 0 < y -> 0 <= x -> x + y <= 2 ^ 64 -> (y | x) -> round_up x y = x.
Proof.
  intros Hy Hx Hb [q Hq]. destruct (round_up_ok x y Hy Hx Hb) as [Hr [q' Hq']]. subst x. rewrite Hq' in *.
  assert (q <= q') by (apply (Z.mul_le_mono_pos_r _ _ y); lia).
  assert (q' < q + 1) by (apply (Z.mul_lt_mono_pos_r y); lia). f_equal. lia.
Qed.

Definition total_size (rs : list region) : Z := foldr (fun r n => rg_size r + n) 0 rs.

Lemma total_size_app l1 l2 : total_size (l1 ++ l2) = total_size l1 + total_size l2.
Proof. induction l1; simpl; lia. Qed.

Lemma contiguous_app p l1 l2 :
  contiguous p (l1 ++ l2) = contiguous p l1 && contiguous (p + total_size l1) l2.
Proof.
  revert p. induction l1 as [|r l1 IH]; intros p; simpl; [by rewrite Z.add_0_r|].
  by rewrite IH, Z.add_assoc, andb_assoc.
Qed.

(** Regions whose sizes are multiples of the minimum size, each with a mapping of its own. *)
Record regions_ok (full min : Z) (m : mapped) : Prop := {
  ro_contiguous : contiguous 0 (regions m) = true;
  ro_sizes : Forall (fun r => min <= rg_size r <= full /\ (min | rg_size r)) (regions m);
  ro_data : Forall (fun r => 0 < rg_data r < next_data m) (regions m);
  ro_distinct : NoDup (rg_data <$> regions m);
  ro_next : 0 < next_data m
}.

Section append.
Context (full min : Z) (Hmin : 0 < min) (Hfull : (min | full)) (Hfm : min <= full).

Lemma append_loop_ok fuel offset bytes m :
  regions_ok full min m -> total_size (regions m) = offset -> 0 <= bytes -> (min | bytes) ->
  bytes < Z.of_nat fuel * full + 1 ->
  exists m', append_loop full min fuel offset bytes m = Ok m' /\ regions_ok full min m' /\
    total_size (regions m') = offset + bytes /\ file_size m' = file_size m /\
    exists l, regions m' = regions m ++ l.
Proof.
  revert offset bytes m. induction fuel as [|fuel IH]; intros offset bytes m Hm Hoff Hb Hdiv Hfuel.
  - assert (bytes = 0) as -> by lia. exists m. split_and!; try done; [lia|]. exists []. by rewrite app_nil_r.
  - cbn [append_loop]. destruct (Z.gtb_spec bytes 0) as [Hpos|Hz].
    2:{ exists m. split_and!; try done; [lia|]. exists []. by rewrite app_nil_r. }
    set (size := Z.min full bytes).
    assert (min <= bytes) by (apply Z.divide_pos_le; [lia|done]).
    assert (min <= size <= full) as Hsize by lia.
    assert ((min | size)) as Hsd by (unfold size; by destruct (Z.min_spec full bytes) as [[_ ->]|[_ ->]]).
    unfold builder_push. rewrite Z.geb_leb, (proj2 (Z.leb_le _ _)) by lia. cbn [oassert obind].
    set (m1 := Mapped _ _ _). pose proof Hm as [Hc Hs Hd Hnd Hnx].
    assert (regions_ok full min m1) as Hm1.
    { split; simpl.
      - rewrite contiguous_app, Hc, Hoff. simpl. by rewrite Z.add_0_l, Z.eqb_refl.
      - apply Forall_app; split; [done|]. by constructor.
      - apply Forall_app; split; [|constructor; [simpl; lia|done]].
        eapply Forall_impl; [exact Hd|]. simpl. lia.
      - rewrite fmap_app. apply NoDup_app. split_and!; [done| |apply NoDup_singleton].
        simpl. intros x (r & -> & Hr)%list_elem_of_fmap Hx%list_elem_of_singleton.
        rewrite Forall_forall in Hd. specialize (Hd r Hr). lia.
      - lia. }
    assert (total_size (regions m1) = offset + size) as Ht1.
    { simpl. rewrite total_size_app, Hoff. simpl. lia. }
    destruct (decide (bytes <= full)) as [Hlast|Hmore].
    + (* the last region *)
      assert (size = bytes) as Heq by lia. rewrite Heq, Z.sub_diag in *.
      exists m1. split_and!; [by destruct fuel|done|done|done|]. by eexists.
    + assert (size = full) as Heq by lia. rewrite Heq in *.
      destruct (IH (offset + full) (bytes - full) m1) as (m' & E & Hok & Ht & Hf & l & Hl);
        [done|done|lia|by apply Z.divide_sub_r|lia|].
      exists m'. split_and!; [done|done|lia|done|]. simpl in Hl.
      rewrite <- app_assoc in Hl. by eexists.
Qed.

(** Regions begin at multiples of the full size from where the first one does. *)
Lemma append_loop_offsets fuel offset bytes m m' :
  append_loop full min fuel offset bytes m = Ok m' ->
  exists l, regions m' = regions m ++ l /\ Forall (fun r => (full | rg_offset r - offset)) l.
Proof.
  revert offset bytes m. induction fuel as [|fuel IH]; intros offset bytes m; cbn [append_loop]; destruct (bytes >? 0); try done.
  1,3: intros [= <-]; exists []; by rewrite app_nil_r.
  unfold builder_push. destruct (oassert _); [|done]. cbn [obind]. intros E.
  destruct (IH _ _ _ E) as (l & Hl & Hf). cbn [regions] in Hl. rewrite <- app_assoc in Hl.
  eexists. split; [exact Hl|]. constructor; [exists 0; cbn; lia|]. eapply Forall_impl; [exact Hf|].
  cbn. intros r [q Hq]. exists (q + 1). lia.
Qed.

Lemma builder_append_ok offset bytes m :
  regions_ok full min m -> total_size (regions m) = offset -> (min | offset) ->
  0 <= bytes -> bytes + min <= 2 ^ 64 ->
  exists m', builder_append full min offset bytes m = Ok m' /\ regions_ok full min m' /\
    total_size (regions m') = offset + round_up bytes min /\ file_size m' = file_size m /\
    exists l, regions m' = regions m ++ l.
Proof.
  intros Hm Hoff Hdiv Hb Hov. unfold builder_append.
  rewrite (proj2 (Z.mod_divide offset min ltac:(lia)) Hdiv). cbn [Z.eqb oassert obind].
  destruct (round_up_ok bytes min) as [Hr Hrd]; [lia|lia|lia|].
  rewrite (proj2 (Z.mod_divide _ min ltac:(lia)) Hrd). cbn [Z.eqb oassert obind].
  destruct (append_loop_ok (append_fuel full (round_up bytes min)) offset (round_up bytes min) m)
    as (m' & E & Hok & Ht & Hf & Hl); [done|done|lia|done| |].
  { unfold append_fuel. pose proof (Z.div_mod (round_up bytes min) full ltac:(lia)).
    pose proof (Z.mod_pos_bound (round_up bytes min) full ltac:(lia)).
    pose proof (Z.div_pos (round_up bytes min) full ltac:(lia) ltac:(lia)).
    rewrite Z2Nat.id by lia. nia. }
  rewrite E. cbn [obind]. rewrite (ro_contiguous _ _ _ Hok). eauto 10.
Qed.

(** The factory extends the mappings to cover the new size, and only adds regions. *)
Lemma factory_append_ok new_size m :
  regions_ok full min m -> (min | total_size (regions m)) -> 0 <= total_size (regions m) <= new_size ->
  new_size + 2 * min <= 2 ^ 64 ->
  exists m', factory_append full min (total_size (regions m)) new_size m = Ok m' /\
    regions_ok full min m' /\ total_size (regions m') = round_up new_size min /\
    file_size m' = round_up new_size min /\ exists l, regions m' = regions m ++ l.
Proof.
  intros Hm Hdiv Hsz Hov. unfold factory_append.
  rewrite Z.geb_leb, (proj2 (Z.leb_le _ _)) by lia. cbn [oassert obind].
  destruct (round_up_ok new_size min) as [Hr Hrd]; [lia|lia|lia|].
  set (m0 := Mapped _ _ _).
  assert (regions_ok full min m0) as Hm0 by (destruct Hm; by split).
  destruct (builder_append_ok (total_size (regions m)) (round_up new_size min - total_size (regions m)) m0)
    as (m' & E & Hok & Ht & Hf & Hl); [done|done|done|lia|lia|].
  exists m'. split_and!; try done. rewrite Ht, (round_up_multiple (_ - _)); [lia|lia|lia|lia|].
  by apply Z.divide_sub_r.
Qed.

Lemma factory_create_offsets size m : factory_create full min size = Ok m -> Forall (fun r => (full | rg_offset r)) (regions m).
Proof.
  unfold factory_create, builder_append. destruct (oassert _); [|done]. cbn [obind]. destruct (oassert _); [|done]. cbn [obind].
  destruct (append_loop _ _ _ _ _ _) as [m'|] eqn:E; [|done]. cbn [obind]. destruct (oassert _); [|done]. cbn [obind]. intros [= <-].
  destruct (append_loop_offsets _ _ _ _ _ E) as (l & -> & Hf). cbn [regions app]. eapply Forall_impl; [exact Hf|].
  intros r Hr. cbn in Hr. by rewrite Z.sub_0_r in Hr.
Qed.
End append.
