(* ===== verification/Storage.v ===== *)
(** * Storage: the segment address table

    Models include/pstore/core/storage.hpp and lib/core/storage.cpp: the table that maps
    the segment of an address to the memory-mapped region that holds it, the growth and
    the shrinking of the mappings, the copying of blocks that span regions and the
    protection of committed pages. A pointer into a mapping is its base and an offset. *)

From S2P Require Import Prelude BitCount Address Region.

Definition pointer : Type := Z * Z.

(** [sat_entry]; an entry whose pointers are null is absent from the table. *)
Record sat_entry := SatEntry { value : pointer; sat_region : region }.

#[global] Instance sat_entry_eq_dec : EqDecision sat_entry.
Proof. solve_decision. Defined.

Definition sat_elements : Z := max_segment + 1.

(** [storage]: the regions, the segment address table and the ranges that were made
    read-only (file offset and length). *)
Record storage := Storage { maps : mapped; sat : gmap Z sat_entry; protected : list (Z * Z) }.

(** [sizeof (header) + sizeof (lock_block)] *)
Definition leader_size : Z := 48 + 16.

(** ** The segment address table *)

(** [slice_region_into_segments] *)
Fixpoint slice_loop (fuel : nat) (r : region) (ptr it : Z) (sat : gmap Z sat_entry)
    : outcome (Z * gmap Z sat_entry) :=
  if ptr <? rg_size r then
    match fuel with
    | O => Throw OutOfFuel
    | S fuel =>
        _ <-? oassert (negb (it =? sat_elements)) ;;
        _ <-? oassert (bool_decide (sat !! it = None)) ;;
        slice_loop fuel r (ptr + segment_size) (it + 1)
          (<[it := SatEntry (rg_data r, ptr) r]> sat)
    end
  else Ok (it, sat).

Definition slice_region_into_segments (r : region) (it : Z) (sat : gmap Z sat_entry)
    : outcome (Z * gmap Z sat_entry) :=
  slice_loop (Z.to_nat (rg_size r / segment_size + 1)) r 0 it sat.

(** The loop of [update_master_pointers] over the new regions. *)
Fixpoint slice_regions (rs : list region) (it : Z) (sat : gmap Z sat_entry)
    : outcome (Z * gmap Z sat_entry) :=
  match rs with
  | [] => Ok (it, sat)
  | r :: rs =>
      p <-? slice_region_into_segments r it sat ;;
      slice_regions rs p.1 p.2
  end.

(** [update_master_pointers] *)
Definition update_master_pointers (old_length : nat) (st : storage) : outcome storage :=
  let rs := regions (maps st) in
  last_sat_entry <-?
    (if (0 <? old_length)%nat then
       _ <-? oassert (old_length <? length rs)%nat ;;
       match rs !! (old_length - 1)%nat with
       | None => Throw Assert
       | Some r =>
           let last_sat_entry := (rg_offset r + rg_size r) / segment_size in
           _ <-? oassert (bool_decide (is_Some (sat st !! (last_sat_entry - 1)))) ;;
           Ok last_sat_entry
       end
     else Ok 0) ;;
  p <-? slice_regions (drop old_length rs) last_sat_entry (sat st) ;;
  (* Guarantee that segments beyond the mapped memory blocks are null. *)
  _ <-? oassert (bool_decide (map_Forall (fun s _ => s < p.1) p.2)) ;;
  Ok (Storage (maps st) p.2 (protected st)).

(** The constructor, with the factory of the default configuration, and the part of
    [database::finish_init] that builds the initial table. *)
Definition storage_ctor (file_size : Z) : outcome storage :=
  m <-? factory_create full_region_size min_region_size file_size ;;
  Ok (Storage m ∅ []).

(** The loop that discards regions when the storage shrinks. The entries of the table
    are copied by the range-for, so that what it assigns to is lost. *)
Fixpoint shrink_regions (rs_rev : list region) (new_size : Z) : list region :=
  match rs_rev with
  | [] => []
  | r :: rest => if rg_offset r <=? new_size then rs_rev else shrink_regions rest new_size
  end.

(** [map_bytes] *)
Definition map_bytes (new_size : Z) (st : storage) : outcome storage :=
  let m := maps st in
  let old_size := match last (regions m) with None => 0 | Some r => rg_end r end in
  if new_size >? old_size then
    let old_num_regions := length (regions m) in
    m <-? factory_append full_region_size min_region_size old_size new_size m ;;
    update_master_pointers old_num_regions (Storage m (sat st) (protected st))
  else if new_size <? old_size then
    let rs := reverse (shrink_regions (reverse (regions m)) new_size) in
    Ok (Storage (Mapped rs (next_data m) (file_size m)) (sat st) (protected st))
  else Ok st.

(** ** Access *)

(** [sat_entry::is_valid] *)
Definition sat_entry_is_valid (e : sat_entry) : bool :=
  let ptr := (value e).2 in
  ((value e).1 =? rg_data (sat_region e)) && (ptr >=? 0) &&
  (ptr + segment_size <=? rg_size (sat_region e)).

(** [segment_base] *)
Definition segment_base (st : storage) (segment : Z) : outcome pointer :=
  _ <-? oassert (segment <? sat_elements) ;;
  match sat st !! segment with
  | None => Throw Dangling
  | Some e => _ <-? oassert (sat_entry_is_valid e) ;; Ok (value e)
  end.

(** [address_to_pointer] *)
Definition address_to_pointer (st : storage) (addr : Z) : outcome pointer :=
  base <-? segment_base st (addr_segment addr) ;;
  Ok (base.1, base.2 + addr_offset addr).

(** [request_spans_regions]; an absent entry has a null region *)
Definition request_spans_regions (st : storage) (addr size : Z) : bool :=
  if size =? 0 then false
  else negb (bool_decide (sat_region <$> sat st !! addr_segment addr =
                          sat_region <$> sat st !! addr_segment (addr_add addr (size - 1)))).

(** A call of the copier: store pointer, offset in the temporary block, number of bytes. *)
Definition copy_call : Type := pointer * Z * Z.

(** The loop of [copy] over the regions after the first. *)
Fixpoint copy_loop (fuel : nat) (st : storage) (segment copy_size p size : Z) : outcome (list copy_call) :=
  if size >? 0 then
    match fuel with
    | O => Throw OutOfFuel
    | S fuel =>
        let inc := (copy_size + segment_size - 1) / segment_size in
        _ <-? oassert (inc <? max_segment) ;;
        _ <-? oassert (segment + inc <? sat_elements) ;;
        let segment := segment + inc in
        match sat st !! segment with
        | None => Throw Assert
        | Some e =>
            let copy_size := Z.min size (rg_size (sat_region e)) in
            rest <-? copy_loop fuel st segment copy_size (p + copy_size) (size - copy_size) ;;
            Ok (((rg_data (sat_region e), 0), p, copy_size) :: rest)
        end
    end
  else Ok [].

(** [copy]: the calls of the copier, in order *)
Definition copy (st : storage) (addr size : Z) : outcome (list copy_call) :=
  let segment := addr_segment addr in
  match sat st !! segment with
  | None => Throw Dangling
  | Some e =>
      let in_store_ptr := (value e).2 + addr_offset addr in
      _ <-? oassert ((in_store_ptr >=? 0) && (in_store_ptr <=? rg_size (sat_region e))) ;;
      let copy_size := Z.min (rg_size (sat_region e) - in_store_ptr) size in
      rest <-? copy_loop (length (regions (maps st))) st segment copy_size copy_size (size - copy_size) ;;
      Ok ((((value e).1, in_store_ptr), 0, copy_size) :: rest)
  end.

(** ** Protection *)

(** [round_down] *)
Definition round_down (x b : Z) : outcome Z :=
  _ <-? oassert (is_power_of_two b) ;;
  let r := Z.land x (Z.lnot (b - 1)) in
  _ <-? oassert ((r <=? x) && (r mod b =? 0)) ;;
  Ok r.

(** The loop of [protect] over the regions, last first. *)
Fixpoint protect_loop (page_size first last : Z) (rs_rev : list region) (st : storage)
    : outcome (list (Z * Z)) :=
  match rs_rev with
  | [] => Ok []
  | r :: rest =>
      _ <-? oassert (rg_offset r mod page_size =? 0) ;;
      let first_offset := Z.max (rg_offset r) first in
      let last_offset := Z.min (rg_offset r + rg_size r) last in
      if rg_offset r + rg_size r <? first_offset then Ok []
      else if (first_offset >=? first) && (last_offset >? first_offset) then
        pfirst <-? address_to_pointer st first_offset ;;
        _ <-? oassert ((pfirst.1 =? rg_data r) && (pfirst.2 >=? 0)) ;;
        _ <-? oassert (last_offset - rg_offset r <=? rg_size r) ;;
        (* memory_mapper_base::read_only *)
        _ <-? oassert (pfirst.2 + (last_offset - first_offset) <=? rg_size r) ;;
        ranges <-? protect_loop page_size first last rest st ;;
        Ok ((first_offset, last_offset - first_offset) :: ranges)
      else protect_loop page_size first last rest st
  end.

(** [protect] *)
Definition protect (page_size first last : Z) (st : storage) : outcome storage :=
  _ <-? oassert ((page_size >? 0) && is_power_of_two page_size) ;;
  first0 <-? round_down first page_size ;;
  first1 <-? round_down (leader_size + page_size - 1) page_size ;;
  last <-? round_down last page_size ;;
  ranges <-? protect_loop page_size (Z.max first0 first1) last (reverse (regions (maps st))) st ;;
  Ok (Storage (maps st) (sat st) (protected st ++ ranges)).

(** ** The table describes the regions *)

Fixpoint region_at (rs : list region) (a : Z) : option region :=
  match rs with
  | [] => None
  | r :: rs => if (rg_offset r <=? a) && (a <? rg_end r) then Some r else region_at rs a
  end.

Definition entry_of (r : region) (s : Z) : sat_entry :=
  SatEntry (rg_data r, s * segment_size - rg_offset r) r.

(** One past the last address that a store can map. *)
Definition address_limit : Z := sat_elements * segment_size.

Record storage_ok (st : storage) : Prop := {
  so_regions : regions_ok full_region_size min_region_size (maps st);
  so_limit : total_size (regions (maps st)) <= address_limit;
  so_sat s : sat st !! s =
    (fun r => entry_of r s) <$> region_at (regions (maps st)) (s * segment_size)
}.

Lemma sizes_min : min_region_size = segment_size /\ (min_region_size | full_region_size) /\
  min_region_size <= full_region_size /\ 0 < min_region_size.
Proof. split_and!; try done. by exists 1024. Qed.

Lemma contiguous_total p rs r : contiguous p rs = true -> last rs = Some r ->
  rg_end r = p + total_size rs.
Proof.
  revert p. induction rs as [|r0 rs IH]; intros p Hc Hl; [done|].
  simpl in Hc. apply andb_true_iff in Hc as [Ho%Z.eqb_eq Hc].
  destruct rs as [|r1 rs].
  - simpl in *. injection Hl as ->. unfold rg_end. lia.
  - rewrite last_cons_cons in Hl. rewrite (IH _ Hc Hl). simpl. lia.
Qed.

Lemma sizes_pos st : regions_ok full_region_size min_region_size st ->
  Forall (fun r => 0 < rg_size r) (regions st).
Proof.
  intros [_ Hs _ _ _]. eapply Forall_impl; [exact Hs|]. intros r [H _].
  pose proof sizes_min. lia.
Qed.

Lemma region_at_app l1 l2 a :
  region_at (l1 ++ l2) a = match region_at l1 a with Some r => Some r | None => region_at l2 a end.
Proof. induction l1 as [|r l1 IH]; simpl; [done|]. by destruct (_ && _). Qed.

Lemma total_size_nonneg rs : Forall (fun r => 0 < rg_size r) rs -> 0 <= total_size rs.
Proof. induction 1; simpl; lia. Qed.

(** In a contiguous list every address below the end is in one region. *)
Lemma region_at_some p rs a :
  contiguous p rs = true -> Forall (fun r => 0 < rg_size r) rs -> p <= a < p + total_size rs ->
  exists i r, rs !! i = Some r /\ region_at rs a = Some r /\ rg_offset r <= a < rg_end r /\
    rg_offset r = p + total_size (take i rs).
Proof.
  revert p. induction rs as [|r rs IH]; intros p Hc Hs Ha; [simpl in Ha; lia|].
  simpl in Hc. apply andb_true_iff in Hc as [Ho%Z.eqb_eq Hc].
  apply Forall_cons in Hs as [Hr Hs]. simpl in Ha. simpl. unfold rg_end.
  destruct (Z.ltb_spec a (rg_offset r + rg_size r)) as [Hlt|Hge].
  - rewrite (proj2 (Z.leb_le _ _)) by lia. exists 0%nat, r. simpl. split_and!; try done; lia.
  - destruct (IH (p + rg_size r) Hc Hs) as (i & r' & Hi & Hat & Hin & Hoff); [lia|].
    exists (S i), r'. rewrite andb_false_r. simpl. split_and!; try done; unfold rg_end in *; lia.
Qed.

Lemma region_at_none p rs a :
  contiguous p rs = true -> Forall (fun r => 0 < rg_size r) rs -> a < p \/ p + total_size rs <= a ->
  region_at rs a = None.
Proof.
  revert p. induction rs as [|r rs IH]; intros p Hc Hs Ha; [done|].
  simpl in Hc. apply andb_true_iff in Hc as [Ho%Z.eqb_eq Hc].
  apply Forall_cons in Hs as [Hr Hs]. simpl in Ha. simpl. unfold rg_end.
  pose proof (total_size_nonneg rs Hs).
  destruct (Z.leb_spec (rg_offset r) a), (Z.ltb_spec a (rg_offset r + rg_size r)); simpl;
    try (apply (IH (p + rg_size r)); [done|done|lia]). lia.
Qed.

Lemma region_at_inv rs a r : region_at rs a = Some r -> r ∈ rs /\ rg_offset r <= a < rg_end r.
Proof.
  induction rs as [|r0 rs IH]; simpl; [done|]. destruct (_ && _) eqn:E.
  - intros [= ->]. apply andb_true_iff in E as [?%Z.leb_le ?%Z.ltb_lt]. split; [set_solver|lia].
  - intros H%IH. set_solver.
Qed.

Lemma contiguous_lookup p rs i r :
  contiguous p rs = true -> rs !! i = Some r -> rg_offset r = p + total_size (take i rs).
Proof.
  revert p i. induction rs as [|r0 rs IH]; intros p i Hc Hi; [done|].
  simpl in Hc. apply andb_true_iff in Hc as [Ho%Z.eqb_eq Hc].
  destruct i as [|i]; simpl in *; [injection Hi as ->; lia|]. rewrite (IH _ _ Hc Hi). lia.
Qed.

Lemma region_at_lookup p rs i r a :
  contiguous p rs = true -> Forall (fun r => 0 < rg_size r) rs -> rs !! i = Some r ->
  rg_offset r <= a < rg_end r -> region_at rs a = Some r.
Proof.
  revert p i. induction rs as [|r0 rs IH]; intros p i Hc Hs Hi Ha; [done|].
  simpl in Hc. apply andb_true_iff in Hc as [Ho%Z.eqb_eq Hc].
  apply Forall_cons in Hs as [Hr Hs]. destruct i as [|i]; simpl in *.
  - injection Hi as ->. by rewrite (proj2 (Z.leb_le _ _)), (proj2 (Z.ltb_lt _ _)) by lia.
  - pose proof (contiguous_lookup _ _ _ _ Hc Hi) as Hoff.
    assert (0 <= total_size (take i rs)) by (by apply total_size_nonneg, Forall_take).
    unfold rg_end at 1. rewrite (proj2 (Z.ltb_ge a _)), andb_false_r by lia. by eapply IH.
Qed.

(** *** Slicing *)

Lemma slice_loop_ok fuel r k n sat :
  rg_size r = (k + Z.of_nat n) * segment_size -> 0 <= k -> (n <= fuel)%nat ->
  rg_offset r mod segment_size = 0 ->
  let it := rg_offset r / segment_size + k in
  it + Z.of_nat n <= sat_elements -> (forall s, it <= s < it + Z.of_nat n -> sat !! s = None) ->
  exists sat', slice_loop fuel r (k * segment_size) it sat = Ok (it + Z.of_nat n, sat') /\
    forall s, sat' !! s = if decide (it <= s < it + Z.of_nat n) then Some (entry_of r s) else sat !! s.
Proof.
  revert k n sat. induction fuel as [|fuel IH]; intros k n sat Hsz Hk Hn Hoff it Hlim Hfree.
  - assert (n = 0)%nat as -> by lia. exists sat. cbn [slice_loop].
    rewrite (proj2 (Z.ltb_ge _ _)) by (rewrite Hsz; simpl; lia). rewrite Z.add_0_r. split; [done|].
    intros s. rewrite decide_False by lia. done.
  - cbn [slice_loop]. destruct n as [|n].
    { exists sat. rewrite (proj2 (Z.ltb_ge _ _)) by (rewrite Hsz; simpl; lia). rewrite Z.add_0_r.
      split; [done|]. intros s. rewrite decide_False by lia. done. }
    assert (0 < segment_size) by done.
    rewrite (proj2 (Z.ltb_lt _ _)) by (rewrite Hsz; nia).
    rewrite (proj2 (Z.eqb_neq it sat_elements)) by lia. cbn [negb oassert obind].
    rewrite bool_decide_eq_true_2 by (apply Hfree; lia). cbn [oassert obind].
    destruct (IH (k + 1) n (<[it := SatEntry (rg_data r, k * segment_size) r]> sat))
      as (sat' & E & Hsat'); [lia|lia|lia|done|lia| |].
    { intros s Hs. rewrite lookup_insert_ne by lia. apply Hfree. lia. }
    replace (k * segment_size + segment_size) with ((k + 1) * segment_size) by lia.
    replace (it + 1) with (rg_offset r / segment_size + (k + 1)) by lia.
    exists sat'. split; [rewrite E; do 2 f_equal; lia|]. intros s. rewrite Hsat'.
    destruct (decide (s = it)) as [->|Hne].
    + rewrite decide_False, decide_True, lookup_insert_eq by lia. unfold entry_of. do 3 f_equal.
      pose proof (Z.div_mod (rg_offset r) segment_size ltac:(lia)). unfold it. lia.
    + rewrite lookup_insert_ne by done. repeat case_decide; try done; lia.
Qed.

Lemma divide_mod0 a b : 0 < b -> (b | a) -> a mod b = 0.
Proof. intros. by apply Z.mod_divide; [lia|]. Qed.

Lemma slice_region_ok r sat :
  0 < rg_size r -> (segment_size | rg_size r) -> (segment_size | rg_offset r) ->
  let it := rg_offset r / segment_size in let it' := rg_end r / segment_size in
  it' <= sat_elements -> (forall s, it <= s < it' -> sat !! s = None) ->
  exists sat', slice_region_into_segments r it sat = Ok (it', sat') /\
    forall s, sat' !! s = if decide (it <= s < it') then Some (entry_of r s) else sat !! s.
Proof.
  intros Hpos [n Hn] [q Hq] it it' Hlim Hfree.
  assert (0 < segment_size) by done.
  assert (it = q) as Hit by (unfold it; rewrite Hq; apply Z.div_mul; lia).
  assert (it' = q + n) as Hit'.
  { unfold it', rg_end. rewrite Hq, Hn, <- Z.mul_add_distr_r. apply Z.div_mul. lia. }
  assert (0 < n) by nia.
  unfold slice_region_into_segments.
  destruct (slice_loop_ok (Z.to_nat (rg_size r / segment_size + 1)) r 0 (Z.to_nat n) sat)
    as (sat' & E & Hsat').
  - rewrite Z2Nat.id by lia. lia.
  - lia.
  - rewrite Hn, Z.div_mul by lia. lia.
  - apply divide_mod0; [done|by exists q].
  - fold it. rewrite Z.add_0_r, Z2Nat.id by lia. lia.
  - fold it. rewrite Z.add_0_r, Z2Nat.id by lia. intros s Hs. apply Hfree. lia.
  - fold it in E, Hsat'. rewrite Z.add_0_r, Z2Nat.id in E, Hsat' by lia.
    rewrite Z.mul_0_l in E. exists sat'. rewrite Hit, Hit' in *. split; [done|]. done.
Qed.

Lemma slice_regions_ok rs p sat :
  contiguous p rs = true -> Forall (fun r => 0 < rg_size r /\ (segment_size | rg_size r)) rs ->
  (segment_size | p) -> p + total_size rs <= address_limit ->
  (forall s, p / segment_size <= s -> sat !! s = None) ->
  exists sat', slice_regions rs (p / segment_size) sat = Ok ((p + total_size rs) / segment_size, sat') /\
    forall s, sat' !! s = match region_at rs (s * segment_size) with
                          | Some r => Some (entry_of r s) | None => sat !! s end.
Proof.
  revert p sat. induction rs as [|r rs IH]; intros p sat Hc Hs Hp Hlim Hfree.
  { exists sat. simpl. rewrite Z.add_0_r. done. }
  simpl in Hc. apply andb_true_iff in Hc as [Ho%Z.eqb_eq Hc].
  apply Forall_cons in Hs as [[Hpos Hdiv] Hs]. simpl in Hlim.
  assert (Forall (fun r => 0 < rg_size r) rs) as Hspos by (eapply Forall_impl; [exact Hs|]; naive_solver).
  pose proof (total_size_nonneg rs Hspos). assert (0 < segment_size) by done.
  assert ((segment_size | p + rg_size r)) as Hpr by (by apply Z.divide_add_r).
  destruct (slice_region_ok r sat) as (sat1 & E1 & Hsat1); [done|done|by rewrite Ho| | |].
  { apply Z.div_le_upper_bound; [done|]. unfold address_limit, rg_end in *. lia. }
  { intros s [Hs1 _]. rewrite Ho in Hs1. by apply Hfree. }
  rewrite Ho in E1, Hsat1. unfold rg_end in E1, Hsat1. rewrite Ho in E1, Hsat1.
  assert (p / segment_size < (p + rg_size r) / segment_size) as Hlt.
  { destruct Hp as [q ->], Hpr as [q' Hq']. rewrite Hq', !Z.div_mul by lia. nia. }
  destruct (IH (p + rg_size r) sat1) as (sat' & E & Hsat'); [done|done|done|lia| |].
  { intros s Hs'. rewrite Hsat1, decide_False by lia. apply Hfree. lia. }
  exists sat'. cbn [slice_regions]. rewrite E1. cbn [obind fst snd]. rewrite E. simpl.
  split; [do 3 f_equal; lia|]. intros s. rewrite Hsat', Hsat1. unfold rg_end. rewrite Ho.
  destruct Hp as [q Hq], Hpr as [q' Hq'].
  assert (p / segment_size = q) as Hpq by (rewrite Hq; apply Z.div_mul; lia).
  assert ((p + rg_size r) / segment_size = q') as Hpq' by (rewrite Hq'; apply Z.div_mul; lia).
  rewrite Hpq, Hpq'. destruct (decide (q <= s < q')) as [Hin|Hout].
  - rewrite (region_at_none (p + rg_size r)) by (done || left; rewrite Hq'; nia).
    rewrite (proj2 (Z.leb_le _ _)), (proj2 (Z.ltb_lt _ _)) by nia. done.
  - assert ((p <=? s * segment_size) && (s * segment_size <? p + rg_size r) = false) as ->; [|done].
    apply andb_false_iff. rewrite Z.leb_gt, Z.ltb_ge. nia.
Qed.

(** *** Growing *)

Lemma storage_region_sizes st : storage_ok st ->
  Forall (fun r => 0 < rg_size r /\ (segment_size | rg_size r)) (regions (maps st)).
Proof.
  intros [[_ Hs _ _ _] _ _]. eapply Forall_impl; [exact Hs|]. intros r [H1 H2].
  pose proof sizes_min as (<- & _ & _ & ?). split; [lia|done].
Qed.

Lemma total_size_divide rs :
  Forall (fun r => 0 < rg_size r /\ (segment_size | rg_size r)) rs -> (segment_size | total_size rs).
Proof. induction 1 as [|r rs [_ H] _ IH]; simpl; [by exists 0|]. by apply Z.divide_add_r. Qed.

Lemma old_size_eq st : storage_ok st ->
  match last (regions (maps st)) with None => 0 | Some r => rg_end r end = total_size (regions (maps st)).
Proof.
  intros [[Hc _ _ _ _] _ _]. destruct (last _) as [r|] eqn:E.
  - by rewrite (contiguous_total 0 _ r Hc E).
  - apply last_None in E. by rewrite E.
Qed.

Lemma storage_offset_lt st r : storage_ok st -> last (regions (maps st)) = Some r ->
  rg_offset r + min_region_size <= total_size (regions (maps st)).
Proof.
  intros Hok Hl. pose proof Hok as [[Hc Hs _ _ _] _ _]. rewrite <- (Z.add_0_l (total_size _)).
  rewrite <- (contiguous_total 0 _ r Hc Hl). unfold rg_end.
  rewrite Forall_forall in Hs. destruct (Hs r) as [? _]; [|lia].
  by apply last_Some_elem_of.
Qed.

Lemma total_size_pos rs : rs <> [] -> Forall (fun r => 0 < rg_size r) rs -> 0 < total_size rs.
Proof. intros Hne Hs. destruct Hs as [|r rs Hr Hs]; [done|]. pose proof (total_size_nonneg _ Hs). simpl. lia. Qed.

(** The first entry of the table that the new regions take. *)
Lemma last_sat_entry_ok st m l :
  storage_ok st -> regions m = regions (maps st) ++ l -> l <> [] ->
  (if (0 <? length (regions (maps st)))%nat then
     _ <-? oassert (length (regions (maps st)) <? length (regions m))%nat ;;
     match regions m !! (length (regions (maps st)) - 1)%nat with
     | None => Throw Assert
     | Some r =>
         _ <-? oassert (bool_decide (is_Some (sat st !! ((rg_offset r + rg_size r) / segment_size - 1)))) ;;
         Ok ((rg_offset r + rg_size r) / segment_size)
     end
   else Ok 0) = Ok (total_size (regions (maps st)) / segment_size).
Proof.
  intros Hok Hl Hne. pose proof (storage_region_sizes st Hok) as Hsz.
  destruct (total_size_divide _ Hsz) as [q Hq].
  assert (Forall (fun r => 0 < rg_size r) (regions (maps st))) as Hpos
    by (eapply Forall_impl; [exact Hsz|]; naive_solver).
  pose proof Hok as [[Hc0 _ _ _ _] _ Hsat].
  destruct (decide (regions (maps st) = [])) as [Hnil|Hcons]; [by rewrite Hnil|].
  pose proof (total_size_pos _ Hcons Hpos). assert (0 < segment_size) by done.
  destruct (last (regions (maps st))) as [r|] eqn:El; [|by apply last_None in El].
  pose proof (contiguous_total 0 _ r Hc0 El) as Hend. unfold rg_end in Hend.
  rewrite last_lookup in El. pose proof (lookup_lt_Some _ _ _ El) as Hlen.
  rewrite (proj2 (Nat.ltb_lt 0 _)), (proj2 (Nat.ltb_lt _ (length (regions m)))).
  2:{ rewrite Hl, length_app. destruct l; [done|simpl; lia]. }
  2:{ lia. }
  cbn [oassert obind]. rewrite Nat.sub_1_r, Hl, lookup_app_l, El, Hend, Z.add_0_l by lia.
  rewrite bool_decide_eq_true_2; [done|]. rewrite Hsat.
  destruct (region_at_some 0 (regions (maps st)) ((total_size (regions (maps st)) / segment_size - 1) * segment_size))
    as (i & r' & _ & -> & _); [done|done| |by eexists].
  rewrite Hq in *. rewrite Z.div_mul by lia. change segment_size with 4194304 in *. lia.
Qed.

(** The table after new regions have been appended. *)
Lemma update_master_pointers_ok st m l :
  storage_ok st -> regions_ok full_region_size min_region_size m ->
  regions m = regions (maps st) ++ l -> l <> [] ->
  total_size (regions m) <= address_limit ->
  exists st', update_master_pointers (length (regions (maps st))) (Storage m (sat st) (protected st)) = Ok st' /\
    storage_ok st' /\ maps st' = m /\ protected st' = protected st.
Proof.
  intros Hok Hm Hl Hne Hlim. unfold update_master_pointers. cbn [maps sat protected].
  pose proof (storage_region_sizes st Hok) as Hsz. pose proof (total_size_divide _ Hsz) as Hdiv.
  assert (Forall (fun r => 0 < rg_size r /\ (segment_size | rg_size r)) l) as Hszl.
  { pose proof Hm as [_ Hs _ _ _]. rewrite Hl in Hs. apply Forall_app in Hs as [_ Hs].
    eapply Forall_impl; [exact Hs|]. pose proof sizes_min as (<- & _ & _ & ?). intros r [? ?]. split; [lia|done]. }
  assert (Forall (fun r => 0 < rg_size r) (regions (maps st))) as Hpos
    by (eapply Forall_impl; [exact Hsz|]; naive_solver).
  assert (Forall (fun r => 0 < rg_size r) l) as Hposl by (eapply Forall_impl; [exact Hszl|]; naive_solver).
  pose proof Hm as [Hc _ _ _ _]. pose proof Hok as [[Hc0 _ _ _ _] _ Hsat].
  set (p := total_size (regions (maps st))) in *.
  assert (contiguous p l = true) as Hcl.
  { rewrite Hl, contiguous_app in Hc. apply andb_true_iff in Hc as [_ Hc]. by rewrite Z.add_0_l in Hc. }
  assert (0 < segment_size) by done.
  assert (forall s, p / segment_size <= s -> sat st !! s = None) as Hfree.
  { intros s Hs. rewrite Hsat, (region_at_none 0); [done|done|done|]. right. fold p.
    pose proof (Z.mul_div_le p segment_size ltac:(lia)). destruct Hdiv as [q Hq]. fold p in Hq.
    rewrite Hq, Z.div_mul in Hs by lia. rewrite Hq. nia. }
  rewrite (last_sat_entry_ok st m l Hok Hl Hne). fold p.
  cbn [obind]. rewrite Hl, drop_app_length.
  rewrite Hl, total_size_app in Hlim. fold p in Hlim.
  destruct (slice_regions_ok l p (sat st)) as (sat' & E & Hsat'); [done|done|done|done|done|].
  rewrite E. cbn [obind fst snd].
  rewrite bool_decide_eq_true_2.
  2:{ intros s e Hs. rewrite Hsat' in Hs.
      assert (s * segment_size < p + total_size l) as Hlt.
      { destruct (region_at l (s * segment_size)) as [r|] eqn:Er.
        - destruct (decide (s * segment_size < p + total_size l)); [done|].
          rewrite (region_at_none p) in Er by (done || right; lia). done.
        - pose proof (total_size_nonneg l Hposl).
          destruct (decide (p / segment_size <= s)) as [Hge|Hlt']; [by rewrite Hfree in Hs|].
          destruct Hdiv as [q Hq]. fold p in Hq. rewrite Hq, Z.div_mul in Hlt' by lia. rewrite Hq. nia. }
      destruct (Z.divide_add_r _ _ _ Hdiv (total_size_divide _ Hszl)) as [q Hq]. fold p in Hq.
      rewrite Hq, Z.div_mul by lia. rewrite Hq in Hlt. nia. }
  eexists. split; [done|]. split_and!; [|done|done]. split; cbn [maps sat].
  - done.
  - rewrite Hl, total_size_app. done.
  - intros s. rewrite Hsat', Hl, region_at_app, Hsat.
    destruct (region_at (regions (maps st)) (s * segment_size)) as [r|] eqn:E0.
    + rewrite (region_at_none p l); [done|done|done|]. left.
      destruct (decide (s * segment_size < p)); [done|].
      rewrite (region_at_none 0) in E0; [done|done|done|right; unfold p in *; lia].
    + by destruct (region_at l (s * segment_size)).
Qed.

(** Growing the storage maps every byte up to the new size and keeps the existing mappings. *)
Lemma map_bytes_grow st new_size :
  storage_ok st -> total_size (regions (maps st)) < new_size <= address_limit ->
  exists st', map_bytes new_size st = Ok st' /\ storage_ok st' /\
    total_size (regions (maps st')) = round_up new_size min_region_size /\
    protected st' = protected st /\ (exists l, regions (maps st') = regions (maps st) ++ l) /\
    (forall r, last (regions (maps st')) = Some r -> rg_offset r <= new_size) /\
    file_size (maps st') = round_up new_size min_region_size.
Proof.
  intros Hok Hsz. unfold map_bytes. rewrite (old_size_eq st Hok).
  rewrite Z.gtb_ltb, (proj2 (Z.ltb_lt _ _)) by lia.
  pose proof sizes_min as (Hms & Hd & Hle & Hp). pose proof Hok as [Hro Hlim Hsat].
  assert (Forall (fun r => 0 < rg_size r) (regions (maps st))) as Hpos by (by apply sizes_pos).
  pose proof (total_size_nonneg _ Hpos).
  change address_limit with (2 ^ 38) in *. change min_region_size with (2 ^ 22) in *.
  destruct (factory_append_ok full_region_size (2 ^ 22) Hp Hd Hle new_size (maps st))
    as (m & E & Hm & Ht & Hf & l & Hl); [done| |lia|lia|].
  { rewrite Hms. apply total_size_divide, storage_region_sizes, Hok. }
  rewrite E. cbn [obind].
  destruct (round_up_ok new_size (2 ^ 22)) as [Hr [q Hq]]; [lia|lia|lia|].
  assert (total_size (regions m) <= 2 ^ 38) as Hmlim.
  { rewrite Ht. assert (2 ^ 38 = 65536 * 2 ^ 22) by done. nia. }
  destruct (update_master_pointers_ok st m l Hok Hm Hl) as (st' & E' & Hok' & Hmaps & Hprot).
  { intros ->. rewrite app_nil_r in Hl. rewrite Hl in Ht. lia. }
  { exact Hmlim. }
  exists st'. rewrite Hmaps. split_and!; try done; [by eexists|].
  intros r Hr'. rewrite <- Hmaps in Hr'. pose proof (storage_offset_lt st' r Hok' Hr') as Hoff.
  rewrite Hmaps in Hoff. change min_region_size with (2 ^ 22) in Hoff. lia.
Qed.

(** A request that the last region holds, or that stays below it, maps nothing. *)
Lemma map_bytes_same st new_size :
  storage_ok st -> new_size <= total_size (regions (maps st)) ->
  (forall r, last (regions (maps st)) = Some r -> rg_offset r <= new_size) ->
  map_bytes new_size st = Ok st.
Proof.
  intros Hok Hsz Hlast. unfold map_bytes. rewrite (old_size_eq st Hok).
  rewrite Z.gtb_ltb, (proj2 (Z.ltb_ge _ _)) by lia.
  destruct (Z.ltb_spec new_size (total_size (regions (maps st)))); [|done].
  f_equal. destruct st as [[rs nd fs] sa pr]. simpl in *.
  assert (shrink_regions (reverse rs) new_size = reverse rs) as ->; [|by rewrite reverse_involutive].
  destruct rs as [|r rs _] using rev_ind; [done|].
  rewrite reverse_snoc. simpl. rewrite (proj2 (Z.leb_le _ _)); [done|]. apply Hlast, last_snoc.
Qed.

(** Shrinking discards exactly the regions at the end that begin beyond the new size. *)
Lemma shrink_regions_spec rs new_size : exists discarded,
  rs = reverse (shrink_regions (reverse rs) new_size) ++ discarded /\
  Forall (fun r => new_size < rg_offset r) discarded /\
  forall r, last (reverse (shrink_regions (reverse rs) new_size)) = Some r -> rg_offset r <= new_size.
Proof.
  induction rs as [|r rs IH] using rev_ind; [by exists []|]. rewrite reverse_snoc. cbn [shrink_regions].
  destruct (Z.leb_spec (rg_offset r) new_size) as [Hle|Hgt].
  - exists []. rewrite reverse_cons, reverse_involutive, app_nil_r. split_and!; [done|constructor|]. intros r'. by rewrite last_snoc; intros [= <-].
  - destruct IH as (d & E & Hd & Hl). exists (d ++ [r]). rewrite app_assoc, <- E. split_and!; [done| |done].
    apply Forall_app. split; [done|]. by constructor.
Qed.

Lemma shrink_mapped rs kept discarded new_size : contiguous 0 rs = true -> rs = kept ++ discarded ->
  Forall (fun r => new_size < rg_offset r) discarded -> new_size <= total_size rs -> new_size <= total_size kept.
Proof.
  intros Hc -> Hd Hn. rewrite contiguous_app, andb_true_iff in Hc. destruct Hc as [_ Hc]. destruct Hd as [|r d Hr Hd].
  - by rewrite app_nil_r in Hn.
  - cbn in Hc. apply andb_true_iff in Hc as [Ho%Z.eqb_eq _]. lia.
Qed.

Lemma update_master_pointers_maps n st st' : update_master_pointers n st = Ok st' -> maps st' = maps st.
Proof.
  unfold update_master_pointers. destruct (if (0 <? n)%nat then _ else _) as [e|]; [|done]. cbn [obind].
  destruct (slice_regions _ _ _) as [p|]; [|done]. cbn [obind]. destruct (oassert _); [|done]. cbn [obind].
  by intros [= <-].
Qed.

(** The constructor's table. *)
Lemma storage_init_ok file_size :
  0 < file_size <= address_limit ->
  exists st, (st <-? storage_ctor file_size ;; update_master_pointers 0 st) = Ok st /\ storage_ok st /\
    total_size (regions (maps st)) = round_up file_size min_region_size /\ protected st = [] /\
    Region.file_size (maps st) = file_size /\ Forall (fun r => (full_region_size | rg_offset r)) (regions (maps st)).
Proof.
  intros Hf. pose proof sizes_min as (Hms & Hd & Hle & Hp). unfold storage_ctor, factory_create.
  change address_limit with (2 ^ 38) in *.
  assert (regions_ok full_region_size min_region_size (Mapped [] 1 file_size)) as Hm0
    by (split; try done; constructor).
  destruct (round_up_ok file_size min_region_size) as [Hr [q Hq]]; [lia|lia|change min_region_size with (2 ^ 22); lia|].
  destruct (builder_append_ok full_region_size min_region_size Hp Hd Hle 0 file_size (Mapped [] 1 file_size))
    as (m & E & Hm & Ht & Hfs & l & Hl); [done|done|by exists 0|lia|change min_region_size with (2 ^ 22); lia|].
  rewrite E. cbn [obind]. simpl in Hl.
  assert (storage_ok (Storage (Mapped [] 1 file_size) ∅ [])) as H0 by (split; [done|done|intros s; simpl; by rewrite lookup_empty]).
  destruct (update_master_pointers_ok (Storage (Mapped [] 1 file_size) ∅ []) m l H0 Hm Hl) as (st & E' & Hok & Hmaps & Hprot).
  - intros ->. rewrite Hl in Ht. simpl in Ht. lia.
  - rewrite Ht, Z.add_0_l. change address_limit with (2 ^ 38). change min_region_size with (2 ^ 22) in *.
    assert (2 ^ 38 = 65536 * 2 ^ 22) by done. nia.
  - exists st. split_and!; [exact E'|done|rewrite Hmaps, Ht; lia|done|by rewrite Hmaps|].
    rewrite Hmaps. by eapply factory_create_offsets.
Qed.

(** The last region of a file of whole regions *)
Lemma last_region_below st r fs : storage_ok st -> Forall (fun r => (full_region_size | rg_offset r)) (regions (maps st)) ->
  total_size (regions (maps st)) = fs -> last (regions (maps st)) = Some r -> rg_offset r <= last_region_offset fs.
Proof.
  intros Hok Hf Ht Hr. pose proof (storage_offset_lt st r Hok Hr) as Hlt. rewrite Ht in Hlt.
  assert (r ∈ regions (maps st)) as Hin by (apply last_Some in Hr as [l ->]; apply elem_of_app; right; by apply list_elem_of_singleton).
  rewrite Forall_forall in Hf. destruct (Hf r Hin) as [q Hq]. unfold last_region_offset. rewrite Hq in *.
  apply Z.mul_le_mono_nonneg_r; [done|]. apply Z.div_le_lower_bound; [done|].
  change min_region_size with (2 ^ 22) in Hlt. lia.
Qed.

(** ** Addresses and pointers *)

Lemma region_at_segment p rs a :
  contiguous p rs = true -> Forall (fun r => 0 < rg_size r /\ (segment_size | rg_size r)) rs ->
  (segment_size | p) -> region_at rs (a / segment_size * segment_size) = region_at rs a.
Proof.
  revert p. induction rs as [|r rs IH]; intros p Hc Hs Hp; [done|].
  simpl in Hc. apply andb_true_iff in Hc as [Ho%Z.eqb_eq Hc].
  apply Forall_cons in Hs as [[Hpos Hdiv] Hs]. assert (0 < segment_size) by done.
  assert ((segment_size | p + rg_size r)) as Hpr by (by apply Z.divide_add_r).
  simpl. unfold rg_end. rewrite Ho, (IH (p + rg_size r)) by done.
  destruct Hp as [q ->], Hpr as [q' ->].
  pose proof (Z.div_mod a segment_size ltac:(lia)). pose proof (Z.mod_pos_bound a segment_size ltac:(lia)).
  change segment_size with 4194304 in *.
  destruct (Z.leb_spec (q * 4194304) (a / 4194304 * 4194304)), (Z.leb_spec (q * 4194304) a); try lia;
  destruct (Z.ltb_spec (a / 4194304 * 4194304) (q' * 4194304)), (Z.ltb_spec a (q' * 4194304)); lia || done.
Qed.

(** The table's entry for the segment of a mapped address. *)
Lemma sat_lookup st a :
  storage_ok st -> 0 <= a < total_size (regions (maps st)) ->
  exists i r, regions (maps st) !! i = Some r /\ sat st !! addr_segment a = Some (entry_of r (a / segment_size)) /\
    addr_segment a = a / segment_size /\ rg_offset r <= a < rg_end r /\
    rg_offset r = total_size (take i (regions (maps st))) /\
    rg_offset r <= a / segment_size * segment_size /\ (segment_size | rg_offset r).
Proof.
  intros Hok Ha. pose proof (storage_region_sizes st Hok) as Hsz. pose proof Hok as [[Hc _ _ _ _] Hlim Hsat].
  assert (Forall (fun r => 0 < rg_size r) (regions (maps st))) as Hpos
    by (eapply Forall_impl; [exact Hsz|]; naive_solver).
  destruct (region_at_some 0 (regions (maps st)) a Hc Hpos) as (i & r & Hi & Hat & Hin & Hoff); [lia|].
  assert (addr_segment a = a / segment_size) as Hseg.
  { apply addr_segment_div. change address_limit with (max_address + 1) in Hlim. lia. }
  exists i, r. rewrite Hseg, Hsat.
  rewrite (region_at_segment 0) by (done || by exists 0). rewrite Hat.
  assert ((segment_size | rg_offset r)) as [q Hq].
  { rewrite Hoff, Z.add_0_l. by apply total_size_divide, Forall_take. }
  split_and!; try done; try lia; [|by exists q].
  rewrite Hq in *. pose proof (Z.div_mod a segment_size ltac:(done)).
  pose proof (Z.mod_pos_bound a segment_size ltac:(done)). change segment_size with 4194304 in *. lia.
Qed.

(** An address leads to the byte of the region that holds it. *)
Lemma address_to_pointer_ok st a :
  storage_ok st -> 0 <= a < total_size (regions (maps st)) ->
  exists r, r ∈ regions (maps st) /\ rg_offset r <= a < rg_end r /\
    address_to_pointer st a = Ok (rg_data r, a - rg_offset r).
Proof.
  intros Hok Ha. destruct (sat_lookup st a Hok Ha) as (i & r & Hi & Hs & Hseg & Hin & Hoff & Hle & Hd).
  exists r. split_and!; try (by eapply list_elem_of_lookup_2); try lia.
  unfold address_to_pointer, segment_base. pose proof Hok as [_ Hlim _].
  pose proof (Z.div_mod a segment_size ltac:(done)). pose proof (Z.mod_pos_bound a segment_size ltac:(done)).
  assert (addr_segment a < sat_elements).
  { rewrite Hseg. apply Z.div_lt_upper_bound; [done|]. unfold address_limit in Hlim. lia. }
  rewrite (proj2 (Z.ltb_lt _ _)) by done. cbn [oassert obind]. rewrite Hs.
  assert (sat_entry_is_valid (entry_of r (a / segment_size)) = true) as ->.
  { unfold sat_entry_is_valid, entry_of. cbn [value sat_region fst snd].
    rewrite Z.eqb_refl, Z.geb_leb. rewrite !(proj2 (Z.leb_le _ _)); [done| |lia].
    pose proof (storage_region_sizes st Hok) as Hsz. rewrite Forall_lookup in Hsz.
    destruct (Hsz _ _ Hi) as [_ [n Hn]]. destruct Hd as [q Hq]. unfold rg_end in Hin.
    rewrite Hn, Hq in *. change segment_size with 4194304 in *. lia. }
  cbn [oassert obind value entry_of fst snd]. rewrite addr_offset_mod. do 2 f_equal. lia.
Qed.

(** ** Copying blocks that span regions *)

(** The calls copy the [n] bytes at [a] of the file to the temporary block from
    position [p] on, consecutively, each within one mapping. *)
Fixpoint covers (rs : list region) (calls : list copy_call) (a p n : Z) : Prop :=
  match calls with
  | [] => n = 0
  | ((data, off), q, k) :: calls =>
      q = p /\ 0 < k /\
      (exists r, r ∈ rs /\ data = rg_data r /\ 0 <= off /\ off + k <= rg_size r /\ rg_offset r + off = a) /\
      covers rs calls (a + k) (p + k) (n - k)
  end.

Lemma copy_loop_zero fuel st segment copy_size p : copy_loop fuel st segment copy_size p 0 = Ok [].
Proof. by destruct fuel. Qed.

Lemma copy_loop_ok st fuel i segment copy_size p size :
  storage_ok st -> 0 <= size ->
  let e := total_size (take i (regions (maps st))) in
  e + size <= total_size (regions (maps st)) ->
  (0 < size -> segment + (copy_size + segment_size - 1) / segment_size = e / segment_size /\
     (copy_size + segment_size - 1) / segment_size < max_segment) ->
  (length (regions (maps st)) - i <= fuel)%nat ->
  owp (copy_loop fuel st segment copy_size p size) (fun calls => covers (regions (maps st)) calls e p size).
Proof.
  intros Hok. revert i segment copy_size p size.
  induction fuel as [|fuel IH]; intros i segment copy_size p size Hsize e He Hseg Hfuel; cbn [copy_loop].
  { rewrite Z.gtb_ltb. destruct (Z.ltb_spec 0 size); [|simpl; lia].
    assert (e = total_size (regions (maps st))) by (unfold e; rewrite take_ge by lia; done). lia. }
  rewrite Z.gtb_ltb. destruct (Z.ltb_spec 0 size) as [Hpos|]; [|simpl; lia].
  destruct (Hseg Hpos) as [Hse Hinc]. rewrite Hse.
  pose proof (storage_region_sizes st Hok) as Hsz.
  assert (0 <= e) as He0.
  { apply total_size_nonneg, Forall_take. eapply Forall_impl; [exact Hsz|]. naive_solver. }
  assert (Forall (fun r => 0 < rg_size r) (regions (maps st))) as Hrpos
    by (eapply Forall_impl; [exact Hsz|]; naive_solver).
  assert ((segment_size | e)) as [q Hq] by (apply total_size_divide, Forall_take, Hsz).
  rewrite (proj2 (Z.ltb_lt _ _)) by done. cbn [oassert obind].
  pose proof Hok as [[Hc _ _ _ _] Hlim Hsat].
  assert (e / segment_size < sat_elements) as Hlt.
  { apply Z.div_lt_upper_bound; [done|]. unfold address_limit in Hlim. lia. }
  rewrite (proj2 (Z.ltb_lt _ _)) by done. cbn [oassert obind].
  assert (i < length (regions (maps st)))%nat as Hi.
  { destruct (decide (i < length (regions (maps st)))%nat); [done|].
    assert (e = total_size (regions (maps st))) by (unfold e; rewrite take_ge by lia; done). lia. }
  destruct (lookup_lt_is_Some_2 _ _ Hi) as [r Hr].
  pose proof (contiguous_lookup 0 _ _ _ Hc Hr) as Hoff. rewrite Z.add_0_l in Hoff. fold e in Hoff.
  rewrite Forall_lookup in Hrpos. pose proof (Hrpos _ _ Hr) as Hrp.
  rewrite Forall_lookup in Hsz. destruct (Hsz _ _ Hr) as [_ [n Hn]].
  assert (sat st !! (e / segment_size) = Some (entry_of r (e / segment_size))) as ->.
  { rewrite Hsat. replace (e / segment_size * segment_size) with e by (rewrite Hq, Z.div_mul; done).
    rewrite (region_at_lookup 0 _ i r e); [done|done| |done|unfold rg_end; lia]. by apply Forall_lookup. }
  cbn [sat_region entry_of]. set (k := Z.min size (rg_size r)).
  assert (0 < k <= rg_size r) as Hk by lia.
  assert (total_size (take (S i) (regions (maps st))) = e + rg_size r) as HS.
  { rewrite (take_S_r _ _ _ Hr), total_size_app. simpl. unfold e. lia. }
  destruct (decide (size <= rg_size r)) as [Hlast|Hmore].
  - assert (size - k = 0) as -> by lia. rewrite copy_loop_zero. simpl.
    split_and!; [done|lia| |lia]. exists r. split_and!; try lia. by eapply list_elem_of_lookup_2.
  - assert (k = rg_size r) as Hkr by lia. wp_head.
    eapply owp_mono; [apply (IH (S i)); [lia|rewrite HS; lia| |lia]|].
    + intros _. rewrite HS, Hkr, Hn, Hq. assert (rg_size r <= full_region_size) as Hfull.
      { pose proof Hok as [[_ Hss _ _ _] _ _]. rewrite Forall_lookup in Hss. by destruct (Hss _ _ Hr) as [[_ ?] _]. }
      rewrite Hn in Hfull. change full_region_size with 4294967296 in Hfull. change segment_size with 4194304 in *.
      rewrite <- Z.mul_add_distr_r, !Z.div_mul by done.
      replace (n * 4194304 + 4194304 - 1) with (4194303 + n * 4194304) by lia.
      rewrite Z.div_add, (Z.div_small 4194303) by lia. change max_segment with 65535. lia.
    + intros calls Hcalls. simpl. split_and!; [done|lia| |].
      * exists r. split_and!; try lia. by eapply list_elem_of_lookup_2.
      * rewrite HS in Hcalls. by rewrite Hkr in *.
Qed.

(** [copy] transfers exactly the requested bytes, in order, without crossing a region. *)
Lemma copy_ok st addr size :
  storage_ok st -> 0 <= addr -> 0 < size -> addr + size <= total_size (regions (maps st)) ->
  owp (copy st addr size) (fun calls => covers (regions (maps st)) calls addr 0 size).
Proof.
  intros Hok Ha Hsize Hend. unfold copy.
  destruct (sat_lookup st addr Hok) as (i & r & Hi & Hs & Hseg & Hin & Hoff & Hle & Hd); [lia|].
  rewrite Hs. cbn [value sat_region entry_of fst snd]. rewrite addr_offset_mod.
  pose proof (Z.div_mod addr segment_size ltac:(done)) as Hdm.
  pose proof (Z.mod_pos_bound addr segment_size ltac:(done)) as Hmb.
  replace (addr / segment_size * segment_size - rg_offset r + addr mod segment_size)
    with (addr - rg_offset r) by lia.
  unfold rg_end in Hin. rewrite Z.geb_leb, !(proj2 (Z.leb_le _ _)) by lia. cbn [andb oassert obind].
  set (k := Z.min (rg_size r - (addr - rg_offset r)) size).
  assert (0 < k) by lia.
  assert (total_size (take (S i) (regions (maps st))) = rg_offset r + rg_size r) as HS.
  { rewrite (take_S_r _ _ _ Hi), total_size_app, Hoff. simpl. lia. }
  pose proof (storage_region_sizes st Hok) as Hsz. rewrite Forall_lookup in Hsz.
  destruct (Hsz _ _ Hi) as [Hrp [n Hn]]. destruct Hd as [q Hq].
  assert (rg_size r <= full_region_size) as Hfull.
  { pose proof Hok as [[_ Hss _ _ _] _ _]. rewrite Forall_lookup in Hss. by destruct (Hss _ _ Hi) as [[_ ?] _]. }
  assert (exists r', r' ∈ regions (maps st) /\ rg_data r = rg_data r' /\ 0 <= addr - rg_offset r /\
            addr - rg_offset r + k <= rg_size r' /\ rg_offset r' + (addr - rg_offset r) = addr) as Hex.
  { exists r. split_and!; try lia. by eapply list_elem_of_lookup_2. }
  destruct (decide (size <= rg_size r - (addr - rg_offset r))) as [Hone|Hmore].
  - replace (size - k) with 0 by lia. wp_head.
    rewrite copy_loop_zero. simpl. split_and!; [done|lia|done|lia].
  - wp_head. eapply owp_mono; [apply (copy_loop_ok st _ (S i)); [done|lia|rewrite HS; lia| |lia]|].
    + intros _. rewrite HS, Hseg. rewrite Hn, Hq in *.
      change full_region_size with 4294967296 in Hfull. change segment_size with 4194304 in *.
      assert (k = (q + n) * 4194304 - addr) as -> by lia.
      rewrite <- Z.mul_add_distr_r, Z.div_mul by done. change max_segment with 65535.
      Z.div_mod_to_equations. lia.
    + intros calls Hcalls. simpl. split_and!; [done|lia|done|]. rewrite HS in Hcalls.
      replace (addr + k) with (rg_offset r + rg_size r) by lia. done.
Qed.

(** ** Protection *)

Lemma round_down_ok x k : 0 <= k -> 0 <= x -> round_down x (2 ^ k) = Ok (x - x mod 2 ^ k).
Proof.
  intros Hk Hx. unfold round_down. assert (0 < 2 ^ k) by (apply Z.pow_pos_nonneg; lia).
  rewrite (proj2 (is_power_of_two_spec _)) by (by exists k). cbn [oassert obind].
  assert (Z.land x (Z.lnot (2 ^ k - 1)) = x - x mod 2 ^ k) as ->.
  { rewrite <- Z.ldiff_land. change (2 ^ k - 1) with (Z.pred (2 ^ k)). rewrite <- Z.ones_equiv, Z.ldiff_ones_r by done.
    rewrite Z.shiftl_mul_pow2, Z.shiftr_div_pow2 by done. pose proof (Z.div_mod x (2 ^ k)). lia. }
  pose proof (Z.mod_pos_bound x (2 ^ k)).
  assert ((x - x mod 2 ^ k) mod 2 ^ k = 0) as ->.
  { apply Z.mod_divide; [lia|]. exists (x / 2 ^ k). pose proof (Z.div_mod x (2 ^ k)). lia. }
  rewrite (proj2 (Z.leb_le _ _)) by lia. done.
Qed.

Definition in_ranges (a : Z) (ranges : list (Z * Z)) : Prop :=
  Exists (fun r => r.1 <= a < r.1 + r.2) ranges.

Lemma protect_loop_ok st page_size first last rs tl :
  storage_ok st -> 0 < page_size -> (page_size | segment_size) ->
  regions (maps st) = rs ++ tl -> 0 <= first ->
  owp (protect_loop page_size first last (reverse rs) st)
    (fun ranges => forall a, in_ranges a ranges <-> first <= a < Z.min last (total_size rs)).
Proof.
  intros Hok Hpage Hdivp. revert tl. induction rs as [|r rs IH] using rev_ind; intros tl Hrs Hfirst.
  { simpl. intros a. split; [by intros ?%Exists_nil|]. lia. }
  rewrite reverse_snoc. cbn [protect_loop].
  pose proof (storage_region_sizes st Hok) as Hsz. pose proof Hok as [[Hc _ _ _ _] _ _].
  rewrite Hrs in Hsz, Hc. rewrite <- app_assoc in Hc, Hsz, Hrs. simpl in Hc, Hsz, Hrs.
  rewrite contiguous_app in Hc. apply andb_true_iff in Hc as [Hc1 Hc2]. simpl in Hc2.
  apply andb_true_iff in Hc2 as [Ho%Z.eqb_eq Hc2]. rewrite Z.add_0_l in Ho.
  apply Forall_app in Hsz as [Hsz1 [[Hrp [n Hn]] Hsz2]%Forall_cons].
  assert (Forall (fun r => 0 < rg_size r) rs) as Hpos by (eapply Forall_impl; [exact Hsz1|]; naive_solver).
  pose proof (total_size_nonneg _ Hpos). rewrite total_size_app. simpl total_size. rewrite Z.add_0_r.
  assert (rg_offset r mod page_size = 0) as ->.
  { rewrite Ho. apply divide_mod0; [done|]. etrans; [exact Hdivp|]. by apply total_size_divide. }
  cbn [Z.eqb oassert obind].
  destruct (Z.ltb_spec (rg_offset r + rg_size r) (Z.max (rg_offset r) first)) as [Hbrk|Hcont].
  { simpl. intros a. split; [by intros ?%Exists_nil|]. lia. }
  rewrite Z.geb_leb, (proj2 (Z.leb_le _ _)) by lia. cbn [andb]. rewrite Z.gtb_ltb.
  destruct (Z.ltb_spec (Z.max (rg_offset r) first) (Z.min (rg_offset r + rg_size r) last)) as [Hlt|Hge].
  - destruct (address_to_pointer_ok st (Z.max (rg_offset r) first) Hok) as (r' & Hr' & Hin & Hptr).
    { rewrite Hrs, total_size_app. simpl.
      assert (Forall (fun r => 0 < rg_size r) tl) as Htl by (eapply Forall_impl; [exact Hsz2|]; naive_solver).
      pose proof (total_size_nonneg _ Htl). lia. }
    assert (r' = r) as ->.
    { pose proof Hok as [[Hc _ _ _ _] _ _]. apply list_elem_of_lookup_1 in Hr' as [i Hi].
      assert (Forall (fun r => 0 < rg_size r) (regions (maps st))) as Hall by (by apply sizes_pos, so_regions).
      pose proof (region_at_lookup 0 _ i r' _ Hc Hall Hi Hin) as E1.
      assert (regions (maps st) !! length rs = Some r) as Hr by (rewrite Hrs; by apply list_lookup_middle).
      rewrite (region_at_lookup 0 _ (length rs) r _ Hc Hall Hr) in E1 by (unfold rg_end; lia). by injection E1. }
    wp_head. rewrite Hptr. cbn [owp fst snd].
    wp_head. wp_head; [rewrite Z.eqb_refl, Z.geb_leb, (proj2 (Z.leb_le _ _)) by lia; done|].
    wp_head. wp_head; [apply Z.leb_le; lia|].
    wp_head. wp_head; [apply Z.leb_le; lia|].
    wp_head. eapply owp_mono; [by apply (IH (r :: tl))|]. intros ranges Hr. wp_head. intros a.
    unfold in_ranges in *. rewrite Exists_cons, Hr. simpl. lia.
  - eapply owp_mono; [by apply (IH (r :: tl))|]. intros ranges Hr a. specialize (Hr a). cbn beta in Hr. etrans; [exact Hr|]. lia.
Qed.

(** [protect] makes read-only exactly the whole pages of [first, last), the file's first
    page(s) with the header and the lock block excepted. *)
Lemma protect_ok st k first last :
  storage_ok st -> 0 <= k <= 22 -> 0 <= first -> 0 <= last <= total_size (regions (maps st)) ->
  let down x := x - x mod 2 ^ k in
  owp (protect (2 ^ k) first last st) (fun st' =>
    maps st' = maps st /\ sat st' = sat st /\ exists ranges, protected st' = protected st ++ ranges /\
      forall a, in_ranges a ranges <->
        Z.max (down first) (down (leader_size + 2 ^ k - 1)) <= a < down last).
Proof.
  intros Hok Hk Hf Hl down. unfold protect. assert (0 < 2 ^ k) by (apply Z.pow_pos_nonneg; lia).
  wp_head. wp_head.
  { rewrite (proj2 (is_power_of_two_spec _)) by (exists k; lia).
    rewrite Z.gtb_ltb, (proj2 (Z.ltb_lt _ _)) by lia. done. }
  rewrite !round_down_ok by (unfold leader_size; lia). cbn [obind].
  wp_head. eapply owp_mono; [apply (protect_loop_ok st (2 ^ k) _ _ _ []); try done|].
  - change segment_size with (2 ^ 22). exists (2 ^ (22 - k)). rewrite <- Z.pow_add_r by lia. f_equal. lia.
  - by rewrite app_nil_r.
  - pose proof (Z.mod_pos_bound first (2 ^ k)). pose proof (Z.mod_le first (2 ^ k)). lia.
  - intros ranges Hr. wp_head. cbn [maps sat protected]. split_and!; [done|done|]. exists ranges.
    split; [done|]. intros a. etrans; [apply Hr|]. unfold down.
    pose proof (Z.mod_pos_bound last (2 ^ k)). lia.
Qed.

(** ** Shrinking *)

Lemma shrink_one rs r new_size : rg_offset r > new_size ->
  (forall r', last rs = Some r' -> rg_offset r' <= new_size) ->
  reverse (shrink_regions (reverse (rs ++ [r])) new_size) = rs.
Proof.
  intros Hr Hlast. rewrite reverse_snoc. cbn [shrink_regions]. rewrite (proj2 (Z.leb_gt _ _)) by lia.
  destruct rs as [|r' rs' _] using rev_ind; [done|]. rewrite reverse_snoc. cbn [shrink_regions].
  rewrite (proj2 (Z.leb_le _ _)) by (apply Hlast; apply last_snoc).
  by rewrite <- reverse_snoc, reverse_involutive.
Qed.

(** The range-for of [map_bytes] visits copies of the table's entries: after a region has
    been discarded its entries are still there, and the next request that needs the
    region again fails the assertion that the entries it is about to fill are null. *)
Lemma shrink_then_grow st rs r new_size again :
  storage_ok st -> regions (maps st) = rs ++ [r] -> rs <> [] ->
  0 <= new_size < rg_offset r -> (forall r', last rs = Some r' -> rg_offset r' <= new_size) ->
  rg_offset r < again <= address_limit ->
  exists st', map_bytes new_size st = Ok st' /\ regions (maps st') = rs /\ sat st' = sat st /\
    map_bytes again st' = Throw Assert.
Proof.
  intros Hok Hrs Hne Hnew Hlast Hagain. pose proof Hok as [Hro Hlim Hsat].
  pose proof Hro as [Hc Hs Hd Hnd Hnx]. rewrite Hrs in Hc, Hs, Hd, Hnd.
  assert (rg_offset r = total_size rs) as Hoff.
  { rewrite <- (Z.add_0_l (total_size rs)).
    rewrite (contiguous_lookup 0 (rs ++ [r]) (length rs) r Hc) by (by apply list_lookup_middle).
    by rewrite take_app_length. }
  assert (Forall (fun r => 0 < rg_size r) (rs ++ [r])) as Hpos by (rewrite <- Hrs; by apply sizes_pos).
  apply Forall_app in Hpos as [Hposrs [Hposr _]%Forall_cons].
  unfold map_bytes at 1. rewrite (old_size_eq st Hok). rewrite Hrs, total_size_app. simpl total_size.
  rewrite Z.gtb_ltb, (proj2 (Z.ltb_ge _ _)), (proj2 (Z.ltb_lt _ _)) by lia.
  eexists. split; [done|]. cbn [maps sat regions]. rewrite shrink_one by (done || lia).
  split_and!; [done|done|].
  set (st' := Storage _ _ _).
  assert (regions_ok full_region_size min_region_size (maps st')) as Hro'.
  { rewrite contiguous_app in Hc. apply andb_true_iff in Hc as [Hc _].
    apply Forall_app in Hs as [Hs _]. apply Forall_app in Hd as [Hd _].
    rewrite fmap_app in Hnd. apply NoDup_app in Hnd as [Hnd _]. by split. }
  assert (match last rs with None => 0 | Some r => rg_end r end = total_size rs) as Hold.
  { destruct (last rs) as [r'|] eqn:El; [|by apply last_None in El].
    by rewrite (contiguous_total 0 rs r' (ro_contiguous _ _ _ Hro') El). }
  unfold map_bytes. cbn [maps sat protected regions st']. rewrite Hold.
  rewrite Z.gtb_ltb, (proj2 (Z.ltb_lt _ _)) by lia.
  pose proof sizes_min as (Hms & Hdv & Hle & Hp).
  assert (Forall (fun r => 0 < rg_size r /\ (segment_size | rg_size r)) rs) as Hszrs.
  { pose proof (storage_region_sizes st Hok) as Hsz. rewrite Hrs in Hsz. by apply Forall_app in Hsz as [? _]. }
  pose proof (total_size_nonneg _ Hposrs). pose proof (total_size_pos rs Hne Hposrs).
  change address_limit with (2 ^ 38) in *.
  destruct (factory_append_ok full_region_size min_region_size Hp Hdv Hle again (maps st'))
    as (m & E & Hm & Ht & _ & l & Hl); [done| |change (regions (maps st')) with rs; lia|change min_region_size with (2 ^ 22); lia|].
  { rewrite Hms. by apply total_size_divide. }
  cbn [maps regions st'] in E, Hl. rewrite E. cbn [obind].
  unfold update_master_pointers. cbn [maps sat protected].
  destruct (total_size_divide _ Hszrs) as [q Hq].
  assert (sat st !! q = Some (entry_of r q)) as Hstale.
  { rewrite Hsat, Hrs, <- Hq. erewrite (region_at_lookup 0 _ (length rs) r); [done|done| | |unfold rg_end; lia].
    - by apply Forall_app; split; [|constructor].
    - by apply list_lookup_middle. }
  destruct l as [|r1 l].
  { exfalso. rewrite app_nil_r in Hl. rewrite Hl in Ht.
    destruct (round_up_ok again min_region_size) as [Hru _]; [lia|lia|change min_region_size with (2 ^ 22); lia|]. lia. }
  assert (rg_size r1 > 0) as Hr1.
  { pose proof (sizes_pos m Hm) as Hmp. rewrite Hl in Hmp. apply Forall_app in Hmp as [_ [? _]%Forall_cons]. lia. }
  destruct (last rs) as [r'|] eqn:El; [|by apply last_None in El].
  pose proof El as El'. rewrite last_lookup in El'. pose proof (lookup_lt_Some _ _ _ El') as Hlen.
  rewrite (proj2 (Nat.ltb_lt 0 _)), (proj2 (Nat.ltb_lt _ (length (regions m)))); [|rewrite Hl, length_app; simpl; lia|lia].
  cbn [oassert obind]. rewrite Nat.sub_1_r, Hl, lookup_app_l, El' by lia.
  fold (rg_end r'). rewrite Hold, Hq, Z.div_mul by done.
  destruct (region_at_some 0 rs ((q - 1) * segment_size)) as (j & rj & Hj & _ & Hin & _);
    [by apply (ro_contiguous _ _ _ Hro')|done|rewrite Hq in *; change segment_size with 4194304 in *; lia|].
  rewrite bool_decide_eq_true_2.
  2:{ rewrite Hsat, Hrs. erewrite (region_at_lookup 0 _ j rj); [by eexists|done| | |done].
      - by apply Forall_app; split; [|constructor].
      - by rewrite lookup_app_l by (by eapply lookup_lt_Some). }
  cbn [oassert obind]. rewrite drop_app_length. cbn [slice_regions]. unfold slice_region_into_segments.
  destruct (Z.to_nat (rg_size r1 / segment_size + 1)) as [|f] eqn:Ef.
  { pose proof (Z.div_pos (rg_size r1) segment_size ltac:(lia) ltac:(done)). lia. }
  cbn [slice_loop]. rewrite (proj2 (Z.ltb_lt 0 (rg_size r1))) by lia.
  destruct (negb (q =? sat_elements)); [|done]. cbn [oassert obind].
  rewrite bool_decide_eq_false_2; [done|]. by rewrite Hstale.
Qed.
