(* ===== verification/FileHeader.v ===== *)
(** * The file header and the transaction trailer

    Models include/pstore/core/file_header.hpp and lib/core/file_header.cpp. The
    octets that the checksums cover are those of the little-endian layout that the
    header's static assertions fix. *)

From S2P Require Import Prelude Checksum Storage.

(** The little-endian representation of an [n]-octet unsigned value. *)
Fixpoint le_bytes (n : nat) (x : Z) : list Z :=
  match n with
  | O => []
  | S n => Z.land x 255 :: le_bytes n (Z.shiftr x 8)
  end.

Definition sizeof_header : Z := 48.
Definition sizeof_trailer : Z := 104.

(** ** [header] *)

Record header := Header {
  h_signature1 : list Z;
  h_signature2 : Z;
  h_version : Z * Z;
  h_header_size : Z;
  h_uuid : list Z;
  h_crc : Z;
  h_footer_pos : Z
}.

Definition file_signature1 : list Z := [112; 83; 116; 114]. (* pStr *)
Definition file_signature2 : Z := 0x0507FFFF.
Definition major_version : Z := 1.
Definition minor_version : Z := 6.

(** The octets of [header::body]. *)
Definition header_body_bytes (h : header) : list Z :=
  h_signature1 h ++ le_bytes 4 (h_signature2 h) ++
  le_bytes 2 (h_version h).1 ++ le_bytes 2 (h_version h).2 ++
  le_bytes 4 (h_header_size h) ++ h_uuid h.

(** [header::get_crc] *)
Definition header_get_crc (h : header) : Z := crc32 (header_body_bytes h).

(** [header::is_valid] *)
Definition header_is_valid (h : header) : bool := h_crc h =? header_get_crc h.

(** The default constructor, given the new uuid. *)
Definition header_ctor (uuid : list Z) : header :=
  let h := Header file_signature1 file_signature2 (major_version, minor_version) sizeof_header uuid 0 0 in
  Header (h_signature1 h) (h_signature2 h) (h_version h) (h_header_size h) (h_uuid h)
    (header_get_crc h) (h_footer_pos h).

(** The store to [header::footer_pos]. *)
Definition with_footer_pos (pos : Z) (h : header) : header :=
  Header (h_signature1 h) (h_signature2 h) (h_version h) (h_header_size h) (h_uuid h) (h_crc h) pos.

(** ** [trailer] *)

Record trailer := Trailer {
  signature1 : list Z;
  generation : Z;
  tr_size : Z;
  time : Z;
  prev_generation : Z;
  index_records : list Z;
  tr_crc : Z;
  signature2 : list Z
}.

Definition default_signature1 : list Z := [104; 80; 80; 121; 102; 111; 111; 84]. (* hPPyfooT *)
Definition default_signature2 : list Z := [104; 80; 80; 121; 84; 97; 105; 108]. (* hPPyTail *)

(** [trailer::indices::last] *)
Definition num_indices : nat := 5.

(** The octets of [trailer::body]; its padding fields are zero. *)
Definition trailer_body_bytes (t : trailer) : list Z :=
  signature1 t ++ le_bytes 4 (generation t) ++ le_bytes 4 0 ++ le_bytes 8 (tr_size t) ++
  le_bytes 8 (time t) ++ le_bytes 8 (prev_generation t) ++
  concat (le_bytes 8 <$> index_records t) ++ le_bytes 4 0 ++ le_bytes 4 0.

(** [trailer::get_crc] *)
Definition trailer_get_crc (t : trailer) : Z := crc32 (trailer_body_bytes t).

(** [trailer::crc_is_valid] *)
Definition crc_is_valid (t : trailer) : bool := tr_crc t =? trailer_get_crc t.

(** [trailer::signature_is_valid] *)
Definition signature_is_valid (t : trailer) : bool :=
  bool_decide (signature1 t = default_signature1) || bool_decide (signature2 t = default_signature2).

(** A trailer whose checksum has been filled in. *)
Definition make_trailer (gen size tm prev : Z) (records : list Z) : trailer :=
  let t := Trailer default_signature1 gen size tm prev records 0 default_signature2 in
  Trailer default_signature1 gen size tm prev records (trailer_get_crc t) default_signature2.

(** ** Properties *)

Lemma length_le_bytes n x : length (le_bytes n x) = n.
Proof. revert x. induction n as [|n IH]; intros x; simpl; [done|]. by rewrite IH. Qed.

Lemma le_bytes_octets n x : Forall octet (le_bytes n x).
Proof.
  revert x. induction n as [|n IH]; intros x; simpl; [done|]. constructor; [|done].
  unfold octet. change 255 with (Z.ones 8). rewrite Z.land_ones by done. by apply Z.mod_pos_bound.
Qed.

Lemma le_bytes_inj n x y : 0 <= x < 2 ^ (8 * Z.of_nat n) -> 0 <= y < 2 ^ (8 * Z.of_nat n) ->
  le_bytes n x = le_bytes n y -> x = y.
Proof.
  revert x y. induction n as [|n IH]; intros x y Hx Hy Heq; [simpl in *; lia|].
  cbn [le_bytes] in Heq. injection Heq as Hlo Hhi.
  change 255 with (Z.ones 8) in Hlo. rewrite !Z.land_ones in Hlo by done.
  assert (2 ^ (8 * Z.of_nat (S n)) = 2 ^ 8 * 2 ^ (8 * Z.of_nat n)) as Hp.
  { rewrite <- Z.pow_add_r by lia. f_equal. lia. }
  rewrite Hp in *. apply IH in Hhi.
  - rewrite !Z.shiftr_div_pow2 in Hhi by done.
    rewrite (Z.div_mod x (2 ^ 8)), (Z.div_mod y (2 ^ 8)) by done. lia.
  - rewrite Z.shiftr_div_pow2 by done. split; [apply Z.div_pos; lia|apply Z.div_lt_upper_bound; lia].
  - rewrite Z.shiftr_div_pow2 by done. split; [apply Z.div_pos; lia|apply Z.div_lt_upper_bound; lia].
Qed.

Lemma make_trailer_valid gen size tm prev records :
  crc_is_valid (make_trailer gen size tm prev records) = true /\
  signature_is_valid (make_trailer gen size tm prev records) = true.
Proof. split; [|done]. unfold crc_is_valid. apply Z.eqb_refl. Qed.

Lemma header_ctor_valid uuid : header_is_valid (header_ctor uuid) = true.
Proof. unfold header_is_valid. apply Z.eqb_refl. Qed.

(** The footer position is not covered by the header's checksum. *)
Lemma with_footer_pos_valid pos h : header_is_valid (with_footer_pos pos h) = header_is_valid h.
Proof. done. Qed.
