(* ===== verification/HttpServer.v ===== *)
(** * The HTTP server

    Models lib/http/server.cpp, media_type.cpp, http_date.cpp, error.cpp, serve_static_content.hpp,
    serve_dynamic_content.hpp and lib/json/utility.cpp: what the server does with a connection, from the request to the
    octets that are sent. It is composed of the reader of requests (Http), the read-only file system (Romfs), queries
    (Query), the keys of WebSockets (Sha1) and the JSON parser (Json). Sockets are the parameters [refill] and
    [sender]; the clock and the texts of the errors of the operating system are parameters too. *)

From stdpp Require Import strings.
From S2P Require Import Prelude Json Chars Romfs Query Sha1 FileHeader Utf BitField Http WebSocket.

(** The characters of a literal *)
Definition str (s : string) : list Z := (fun a => Z.of_nat (Ascii.nat_of_ascii a)) <$> String.list_ascii_of_string s.
Definition quoted (s : string) : list Z := [34] ++ str s ++ [34].
Definition newline : list Z := [10].

(** ** Dates *)

(** [std::tm] *)
Record tm := Tm { tm_sec : Z; tm_min : Z; tm_hour : Z; tm_mday : Z; tm_mon : Z; tm_year : Z; tm_wday : Z }.

(** [gmtime_r]: the date of a number of seconds since 1970 in the Gregorian calendar, whose years are counted
    from March on in eras of 400 *)
Definition gm_time (time : Z) : tm :=
  let days := time / 86400 in
  let secs := time mod 86400 in
  let z := days + 719468 in
  let era := z / 146097 in
  let doe := z mod 146097 in
  let yoe := (doe - doe / 1460 + doe / 36524 - doe / 146096) / 365 in
  let doy := doe - (365 * yoe + yoe / 4 - yoe / 100) in
  let mp := (5 * doy + 2) / 153 in
  let day := doy - (153 * mp + 2) / 5 + 1 in
  let mon := if mp <? 10 then mp + 2 else mp - 10 in
  let year := yoe + era * 400 + (if mon <=? 1 then 1 else 0) in
  Tm (secs mod 60) (secs / 60 mod 60) (secs / 3600) day mon (year - 1900) ((days + 4) mod 7).

(** [operator<<] of an integer, and behind [std::setw] with the fill character '0' *)
Definition show (n : Z) : list Z := if n <? 0 then 45 :: to_digits (- n) else to_digits n.
Definition show_w (width : nat) (n : Z) : list Z := replicate (width - length (show n)) 48 ++ show n.

(** [as_index] *)
Definition as_index (v : Z) (size : nat) : nat := Nat.min (Z.to_nat (Z.max v 0)) (size - 1).

Definition days : list (list Z) := str <$> ["Sun"; "Mon"; "Tue"; "Wed"; "Thu"; "Fri"; "Sat"]%string.
Definition months : list (list Z) :=
  str <$> ["Jan"; "Feb"; "Mar"; "Apr"; "May"; "Jun"; "Jul"; "Aug"; "Sep"; "Oct"; "Nov"; "Dec"]%string.

(** [http_date] *)
Definition http_date (time : Z) : list Z :=
  let t := gm_time time in
  let day_name := days !!! as_index (tm_wday t) (length days) in
  let month := months !!! as_index (tm_mon t) (length months) in
  day_name ++ str ", " ++ show_w 2 (tm_mday t) ++ str " " ++ month ++ str " " ++ show_w 4 (tm_year t + 1900) ++ str " " ++
  show_w 2 (tm_hour t) ++ str ":" ++ show_w 2 (tm_min t) ++ str ":" ++ show_w 2 (tm_sec t) ++ str " GMT".

(** The example of RFC 7231 *)
Example rfc7231_date : http_date 784111777 = str "Sun, 06 Nov 1994 08:49:37 GMT".
Proof. vm_compute. reflexivity. Qed.

(** ** Media types *)

Definition media_types : list (list Z * list Z) :=
  [(str ".css", str "text/css"); (str ".gif", str "image/gif"); (str ".htm", str "text/html"); (str ".html", str "text/html");
   (str ".jpeg", str "image/jpeg"); (str ".jpg", str "image/jpeg"); (str ".js", str "application/javascript");
   (str ".json", str "application/json"); (str ".svg", str "image/svg+xml"); (str ".txt", str "text/plain");
   (str ".xml", str "application/xml")].

(** [std::is_sorted] *)
Fixpoint is_sorted {A} (lt : A -> A -> bool) (l : list A) : bool :=
  match l with
  | x :: (y :: _) as l => negb (lt y x) && is_sorted lt l
  | _ => true
  end.

(** [media_type_from_extension] *)
Definition media_type_from_extension (extension : list Z) : outcome (list Z) :=
  _ <-? oassert (is_sorted (fun lhs rhs => strcmp lhs.1 rhs.1 <? 0) media_types) ;;
  pos <-? lower_bound (length media_types) media_types (fun mte => strcmp mte.1 extension <? 0) 0 (length media_types) ;;
  Ok match media_types !! pos with
     | Some mte => if strcmp extension mte.1 =? 0 then mte.2 else str "application/octet-stream"
     | None => str "application/octet-stream"
     end.

(** [std::string::rfind]: the part from the last [c] on *)
Fixpoint rfind (c : Z) (s : list Z) : option (list Z) :=
  match s with
  | [] => None
  | x :: s' =>
      match rfind c s' with
      | Some r => Some r
      | None => if x =? c then Some s else None
      end
  end.

(** [media_type_from_filename] *)
Definition media_type_from_filename (filename : list Z) : outcome (list Z) :=
  media_type_from_extension (c_str (default [] (rfind 46 filename))).

(** ** Errors *)

(** [std::error_code] in the categories of the server and of the file system *)
Inductive server_error :=
  | HttpError (e : http_error)
  | RomfsError (e : romfs_error).

Section messages.
(** The texts of the errors of WebSockets, which do not reach the client, and of the system *)
Context (other_message : http_error -> list Z).

(** [error_category::message] of http and of romfs *)
Definition error_message (e : server_error) : list Z :=
  match e with
  | HttpError bad_request => str "Bad request"
  | HttpError bad_websocket_version => str "Bad WebSocket version requested"
  | HttpError not_implemented => str "Not implemented"
  | HttpError string_too_long => str "String too long"
  | HttpError refill_out_of_range => str "Refill result out of range"
  | HttpError e => other_message e
  | RomfsError einval => str "There was an invalid operation"
  | RomfsError enoent => str "The path was not found"
  | RomfsError enotdir => str "Cannot apply a directory operation to a non-directory path"
  end.
End messages.

(** The texts that are sent: the page of [cerror], *)
Definition error_content (cause : list Z) (error_no : Z) (shortmsg longmsg : list Z) : list Z :=
  str "<!DOCTYPE html>" ++ newline ++
  str "<html lang=" ++ quoted "en" ++ str ">" ++ str "<head>" ++ newline ++
  str "<meta charset=" ++ quoted "utf-8" ++ str ">" ++ newline ++
  str "<title>pstore-httpd Error</title>" ++ newline ++
  str "</head>" ++ newline ++
  str "<body>" ++ newline ++
  str "<h1>pstore-httpd Web Server Error</h1>" ++ newline ++
  str "<p>" ++ show error_no ++ str ": " ++ shortmsg ++ str "</p>" ++
  str "<p>" ++ longmsg ++ str ": " ++ cause ++ str "</p>" ++ newline ++
  str "<hr>" ++ newline ++
  str "<em>The pstore-httpd Web server</em>" ++ newline ++
  str "</body>" ++ newline ++
  str "</html>" ++ newline.
Definition error_reply (now : Z) (cause : list Z) (error_no : Z) (shortmsg longmsg : list Z) : list Z :=
  let content := error_content cause error_no shortmsg longmsg in
  str "HTTP/1.1 " ++ show error_no ++ str " OK" ++ crlf ++
  str "Server: pstore-httpd" ++ crlf ++
  str "Content-length: " ++ show (Z.of_nat (length content)) ++ crlf ++
  str "Connection: close" ++ crlf ++
  str "Content-type: " ++ str "text/html" ++ crlf ++
  str "Date: " ++ http_date now ++ crlf ++
  str "Last-Modified: " ++ http_date now ++ crlf ++
  crlf ++
  content.

(** the headers of a file, *)
Definition file_headers (now : Z) (st : stat_t) (media_type : list Z) : list Z :=
  str "HTTP/1.0 200 OK" ++ crlf ++ str "Server: pstore-httpd" ++ crlf ++
  str "Content-length: " ++ show (st_size st) ++ crlf ++
  str "Content-type: " ++ media_type ++ crlf ++
  str "Connection: close" ++ crlf ++
  str "Date: " ++ http_date now ++ crlf ++
  str "Last-Modified: " ++ http_date (st_mtime st) ++ crlf ++ crlf.

(** the version, *)
Definition version_text : list Z :=
  str "{ " ++ quoted "version" ++ str ": " ++ [34] ++ show major_version ++ str "." ++ show minor_version ++ [34] ++ str " }".
Definition version_reply (now modified : Z) : list Z :=
  str "HTTP/1.1 200 OK" ++ crlf ++
  str "Connection: close" ++ crlf ++
  str "Content-length: " ++ show (Z.of_nat (length version_text)) ++ crlf ++
  str "Content-type: application/json" ++ crlf ++
  str "Date: " ++ http_date now ++ crlf ++
  str "Last-Modified: " ++ http_date modified ++ crlf ++
  str "Server: pstore-httpd" ++ crlf ++
  crlf ++
  version_text.

(** and the handshake of a WebSocket *)
Definition ws_version : Z := 13.
Definition handshake (now : Z) (accept : list Z) : list Z :=
  str "HTTP/1.1 101 Switching Protocols" ++ crlf ++
  str "Server: pstore-httpd" ++ crlf ++
  str "Upgrade: WebSocket" ++ crlf ++
  str "Connection: Upgrade" ++ crlf ++
  str "Sec-WebSocket-Accept: " ++ accept ++ crlf ++
  str "Date: " ++ http_date now ++ crlf ++
  str "Last-Modified: " ++ http_date now ++ crlf ++
  crlf.
Definition bad_version_reply : list Z :=
  str "HTTP/1.1 426 OK" ++ crlf ++
  str "Sec-WebSocket-Version: " ++ show ws_version ++ crlf ++
  str "Server: pstore-httpd" ++ crlf ++
  crlf.

(** [json::is_valid] *)
Definition is_valid (pow : double -> double -> double) (s : list Z) : outcome bool :=
  r <-? parse_chunks pow [s] ;;
  Ok match r with Some _ => true | None => false end.

(** [starts_with] *)
Fixpoint starts_with (s prefix : list Z) : bool :=
  match s, prefix with
  | _, [] => true
  | c :: s, p :: prefix => (c =? p) && starts_with s prefix
  | [], _ :: _ => false
  end.

Definition dynamic_path : list Z := str "/cmd/".

(** [insert] of [std::unordered_map], which keeps the value of a key that is present *)
Definition insert_argument (m : gmap (list Z) (list Z)) (kv : list Z * list Z) : gmap (list Z) (list Z) :=
  match m !! kv.1 with
  | Some _ => m
  | None => <[kv.1 := kv.2]> m
  end.

(** [operator<] of [std::string] *)
Definition string_ltb (a b : list Z) : bool := strcmp a b <? 0.

(** How a connection ended: without a reply, with one, or with a thread for a WebSocket *)
Inductive served := Dropped | Replied | Upgraded (uri : list Z).

(** ** A connection *)

Section server.
Context {IO : Type} (refill : IO -> nat -> Http.error_or (IO * list Z)) (sender : IO -> list Z -> Http.error_or IO).
Context (clock : conn -> Z) (other_message : http_error -> list Z).

(** What [std::pow] returns, the octets of an object that is not initialised, and the value of a static variable *)
Context (pow : double -> double -> double) (uninitialised : list Z) (modified : Z).

(** What [recv] with the flag MSG_PEEK returns at the end: the number of octets that wait in the socket, 0 at the end of
    its data, or -1 for an error *)
Context (peek : conn -> Z).

Definition server_send (io : IO) (s : list Z) : M conn (server_error + IO) :=
  r <- send sender io s ;;
  ret match r with
      | Http.Err e => inl (HttpError e)
      | Http.Val io => inr io
      end.

Definition now : M conn Z := Prelude.gets clock.

Definition of_romfs {A} (r : Romfs.error_or A) : server_error + A :=
  match r with
  | Romfs.Error e => inl (RomfsError e)
  | Romfs.Value a => inr a
  end.

Definition sbind {A B} (m : M conn (server_error + A)) (f : A -> M conn (server_error + B)) : M conn (server_error + B) :=
  r <- m ;;
  match r with
  | inl e => ret (inl e)
  | inr a => f a
  end.

(** [cerror] *)
Definition cerror (io : IO) (cause : list Z) (error_no : Z) (shortmsg longmsg : list Z) : M conn (server_error + IO) :=
  t <- now ;;
  server_send io (error_reply t cause error_no shortmsg longmsg).

(** [report_error] *)
Definition report_error (error : server_error) (request : request_info) (io : IO) : M conn unit :=
  let report code message :=
    cerror io (c_str (uri_ request)) code (c_str message) (c_str (error_message other_message error)) ;;; ret tt in
  match error with
  | HttpError bad_request => report 400 (str "Bad request")
  | HttpError bad_websocket_version => server_send io bad_version_reply ;;; ret tt
  | RomfsError enoent | RomfsError enotdir => report 404 (str "Not found")
  | _ => report 501 (str "Server internal error: " ++ error_message other_message error)
  end.

(** [read_and_send], which calls itself until nothing is left of the file *)
Fixpoint read_and_send (fuel : nat) (io : IO) (fd : open_file) : M conn (server_error + IO) :=
  match fuel with
  | O => throw OutOfFuel
  | S fuel =>
      '(data, num_read, fd) <- lift (file_read fd 1 1024) ;;
      if num_read =? 0 then ret (inr io)
      else
        eo <- server_send io (take (Z.to_nat num_read) data) ;;
        match eo with
        | inl e => ret (inl e)
        | inr io => read_and_send fuel io fd
        end
  end.

(** [serve_static_content] *)
Definition static_path (path : list Z) : list Z :=
  let path := if (length path =? 0)%nat then str "/" else path in
  if bool_decide (last path = Some 47) then path ++ str "index.html" else path.

Definition serve_static_content (io : IO) (uri : list Z) (fs : filesystem) (r : romfs) : M conn (server_error + IO) :=
  let path := static_path uri in
  sbind (st <- lift (romfs_stat fs r (c_str path)) ;; ret (of_romfs st)) (fun st =>
  sbind (fd <- lift (romfs_open fs r (c_str path)) ;; ret (of_romfs fd)) (fun fd =>
  mt <- lift (media_type_from_filename path) ;;
  t <- now ;;
  sbind (server_send io (file_headers t st mt)) (fun io2 =>
  read_and_send (Z.to_nat (st_size (de_stat (of_dir fd))) + 1) io2 fd))).

(** [handle_version], and the commands *)
Definition handle_version (io : IO) (_ : gmap (list Z) (list Z)) : M conn (server_error + IO) :=
  v <- lift (is_valid pow version_text) ;;
  massert v ;;;
  t <- now ;;
  server_send io (version_reply t modified).
Definition commands : list (list Z * (IO -> gmap (list Z) (list Z) -> M conn (server_error + IO))) :=
  [(str "version", handle_version)].

(** [serve_dynamic_content] *)
Definition serve_dynamic_content (io : IO) (uri : list Z) : M conn (server_error + IO) :=
  massert (starts_with uri dynamic_path) ;;;
  let uri := drop (length dynamic_path) uri in
  let '(command, query) :=
    match split_at 63 uri with
    | None => (uri, [])
    | Some (command, query) => (command, query)
    end in
  arguments <-
    (if (length query =? 0)%nat then ret ∅
     else kvs <- lift (query_to_kvp query) ;; ret (foldl insert_argument ∅ kvs.2)) ;;
  massert (is_sorted (fun a b => string_ltb a.1 b.1) commands) ;;;
  lb <- lift (lower_bound (length commands) commands (fun a => string_ltb a.1 command) 0 (length commands)) ;;
  match commands !! lb with
  | None => ret (inl (HttpError bad_request))
  | Some (name, f) =>
      if negb (bool_decide (name = command)) then ret (inl (HttpError bad_request))
      else f io arguments
  end.

(** [upgrade_to_ws], up to the thread that it starts *)
Definition upgrade_to_ws (io : IO) (hi : header_info) : M conn (server_error + IO) :=
  massert (connection_upgrade hi && upgrade_to_websocket hi) ;;;
  match websocket_key hi, websocket_version hi with
  | Some key, Some version =>
      if negb (version =? ws_version) then ret (inl (HttpError bad_websocket_version))
      else
        t <- now ;;
        accept <- lift (source_key uninitialised key) ;;
        server_send io (handshake t accept)
  | _, _ => ret (inl (HttpError bad_request))
  end.

(** [serve_reply] *)
Definition serve_reply (io : IO) (request : request_info) (hi : header_info) (fs : filesystem) (r : romfs) :
    M conn (server_error + served) :=
  if connection_upgrade hi && upgrade_to_websocket hi then
    sbind (upgrade_to_ws io hi) (fun _ => ret (inr (Upgraded (uri_ request))))
  else if negb (starts_with (uri_ request) dynamic_path) then
    sbind (serve_static_content io (uri_ request) fs r) (fun _ => ret (inr Replied))
  else sbind (serve_dynamic_content io (uri_ request)) (fun _ => ret (inr Replied)).

(** [input_is_empty], where [recv] gives [nread] *)
Definition input_is_empty (reader : reader) (nread : Z) : bool :=
  (available reader =? 0)%nat || (nread =? 0) || (nread =? -1).

(** The assertion at the end of the loop. The thread of a WebSocket has taken the socket away: what is left
    of it is not valid, and [recv] fails. *)
Definition check_input (s : served) : M conn unit :=
  c <- Prelude.get ;;
  massert (input_is_empty (c_reader c) (match s with Upgraded _ => -1 | _ => peek c end)).

(** The body of the loop of [server], for a socket that was accepted; [lines] bounds the number of header lines. *)
Definition serve_connection (lines : nat) (fs : filesystem) (r : romfs) (io : IO) : M conn served :=
  eri <- in_reader (read_request refill io) ;;
  match eri with
  | Http.Err _ => ret Dropped
  | Http.Val (io, request) =>
      if negb (bool_decide (method_ request = str "GET")) then
        cerror io (c_str (method_ request)) 501 (str "Not Implemented") (str "httpd does not implement this method") ;;;
        ret Replied
      else
        eh <- in_reader (read_headers refill lines header_handler io (HeaderInfo false false None None)) ;;
        s <- match eh with
             | Http.Err e => report_error (HttpError e) request io ;;; ret Replied
             | Http.Val (io, hi) =>
                 res <- serve_reply io request hi fs r ;;
                 match res with
                 | inl e => report_error e request io ;;; ret Replied
                 | inr s => ret s
                 end
             end ;;
        check_input s ;;;
        ret s
  end.
End server.
