(* ===== verification/HttpServerSpec.v ===== *)
(** * What the HTTP server answers

    The replies of HttpServer.v to requests, as a function of the request and of the file system, and the proof that the server
    sends them whatever the pieces in which the request arrives. *)

From stdpp Require Import strings.
From S2P Require Import Prelude Json Chars Romfs Query Sha1 Sha1Spec FileHeader Utf BitField Http WebSocket HttpServer.

(** ** The replies *)



Section replies.
Context (other_message : http_error -> list Z) (modified : Z).





End replies.

(** ** Media types *)










(** ** Queries *)





(** ** Headers *)




(** ** Files *)







Section connection.
Context {IO : Type} (refill : IO -> nat -> Http.error_or (IO * list Z)) (rest : IO -> list Z) `{!RefillLaws refill rest}.
Context (sender : IO -> list Z -> Http.error_or IO) (Hsender : forall io s, exists io', sender io s = Http.Val io').
Context (clock : conn -> Z) (other_message : http_error -> list Z) (pow : double -> double -> double).
Context (uninitialised : list Z) (Huninit : length uninitialised = 64%nat) (modified : Z).












End connection.





(** Octets behind the headers that the reader has taken from the socket, while more wait there *)
Example unread_input_asserts :
  let ri := RequestInfo (str "GET") (str "/f") (str "HTTP/1.1") in
  (serve_connection refill_pieces (fun io _ => Http.Val io) (fun _ => 784111777) (fun _ => []) (fun x _ => x) (replicate 64 0) 0 (fun _ => 7) 2
     example_fs (Romfs 100 100) (request_line ri ++ crlf ++ crlf ++ replicate 8 120) (Conn (make_reader 16) [])).1 = Throw Assert.
Proof. vm_compute. reflexivity. Qed.
