(* ===== verification/Memory.v ===== *)
(** * Memory as bytes

    Records that the program lays out in a block of memory itself, with arrays behind them, are
    modelled at the granularity of bytes: a memory is a finite map from addresses to bytes, in
    which uninitialised bytes are absent. The layout of a type is an instance of [Layout]. *)

From S2P Require Import Prelude Checksum Storage FileHeader.

Abbreviation memory := (gmap Z Z).
Implicit Types m : memory.

Fixpoint store_bytes (a : Z) (bs : list Z) m : memory :=
  match bs with
  | [] => m
  | b :: bs => <[a := b]> (store_bytes (a + 1) bs m)
  end.

(** Reading an uninitialised byte is undefined. *)
Fixpoint load_bytes (n : nat) (a : Z) m : outcome (list Z) :=
  match n with
  | 0%nat => Ok []
  | S n =>
      match m !! a with
      | None => Throw Undefined
      | Some b => bs <-? load_bytes n (a + 1) m ;; Ok (b :: bs)
      end
  end.

(** The value of little-endian bytes *)
Fixpoint of_le (bs : list Z) : Z :=
  match bs with
  | [] => 0
  | b :: bs => b + 256 * of_le bs
  end.

(** The layout of a type: how many bytes an object has, and what they are *)
Class Layout (T : Type) := {
  sizeof : nat;
  encode : T -> list Z;
  decode : list Z -> T;
  representable : T -> Prop
}.
Arguments sizeof T {_}.

Class LayoutLaws (T : Type) `{Layout T} : Prop := {
  sizeof_pos : (0 < sizeof T)%nat;
  length_encode : forall x : T, length (encode x) = sizeof T;
  decode_encode : forall x : T, representable x -> decode (encode x) = x
}.

Section layout.
Context {T : Type} `{LT : Layout T}.

Definition store (a : Z) (x : T) m : memory := store_bytes a (encode x) m.
Definition load (a : Z) m : outcome T := bs <-? load_bytes (sizeof T) a m ;; Ok (decode bs).

(** Consecutive elements of an array *)
Fixpoint store_array (a : Z) (xs : list T) m : memory :=
  match xs with
  | [] => m
  | x :: xs => store_array (a + Z.of_nat (sizeof T)) xs (store a x m)
  end.

Fixpoint load_array (n : nat) (a : Z) m : outcome (list T) :=
  match n with
  | 0%nat => Ok []
  | S n => x <-? load a m ;; xs <-? load_array n (a + Z.of_nat (sizeof T)) m ;; Ok (x :: xs)
  end.
End layout.

(** Unsigned integers of [n] bytes *)
Definition uint_layout (n : nat) : Layout Z := {|
  sizeof := n;
  encode := le_bytes n;
  decode := of_le;
  representable := fun x => 0 <= x < 256 ^ Z.of_nat n
|}.

Abbreviation store_u8 := (store (LT := uint_layout 1)).
Abbreviation store_u32 := (store (LT := uint_layout 4)).
Abbreviation store_u64 := (store (LT := uint_layout 8)).
Abbreviation load_u8 := (load (LT := uint_layout 1)).
Abbreviation load_u32 := (load (LT := uint_layout 4)).
Abbreviation load_u64 := (load (LT := uint_layout 8)).

(** ** Properties *)


Lemma of_le_bytes n x : 0 <= x < 256 ^ Z.of_nat n -> of_le (le_bytes n x) = x.
Proof.
  revert x. induction n as [|n IH]; intros x Hx; [cbn in *; lia|].
  rewrite Nat2Z.inj_succ, Z.pow_succ_r in Hx by lia. cbn [le_bytes of_le].
  rewrite Z.shiftr_div_pow2 by lia. change 255 with (Z.ones 8). rewrite Z.land_ones by lia.
  change (2 ^ 8) with 256. rewrite IH.
  - pose proof (Z.div_mod x 256). lia.
  - split; [apply Z.div_pos; lia|apply Z.div_lt_upper_bound; lia].
Qed.

Lemma uint_layout_laws n : (0 < n)%nat -> LayoutLaws Z (H := uint_layout n).
Proof. intros Hn. split; cbn; [done|apply length_le_bytes|apply of_le_bytes]. Qed.

(** The bytes from [a] on are [bs]. *)
Definition holds m (a : Z) (bs : list Z) : Prop :=
  forall k b, bs !! k = Some b -> m !! (a + Z.of_nat k) = Some b.

(** Nothing but the bytes of an interval has changed. *)
Definition same_outside (lo hi : Z) m m' : Prop := forall i, i < lo \/ hi <= i -> m' !! i = m !! i.

Lemma lookup_store_bytes a bs m i :
  store_bytes a bs m !! i =
    if decide (a <= i < a + Z.of_nat (length bs)) then bs !! Z.to_nat (i - a) else m !! i.
Proof.
  revert a. induction bs as [|b bs IH]; intros a; cbn [store_bytes length].
  { rewrite decide_False by lia. done. }
  destruct (decide (i = a)) as [->|Hne].
  - rewrite lookup_insert_eq, decide_True by lia. by rewrite Z.sub_diag.
  - rewrite lookup_insert_ne, IH by done. destruct (decide (a + 1 <= i < _)).
    + rewrite decide_True by lia. by replace (Z.to_nat (i - a)) with (S (Z.to_nat (i - (a + 1)))) by lia.
    + rewrite decide_False by lia. done.
Qed.

Lemma holds_store_bytes a bs m : holds (store_bytes a bs m) a bs.
Proof.
  intros k b Hk. pose proof (lookup_lt_Some _ _ _ Hk). rewrite lookup_store_bytes, decide_True by lia.
  by replace (Z.to_nat (a + Z.of_nat k - a)) with k by lia.
Qed.

Lemma store_bytes_outside a bs m : same_outside a (a + Z.of_nat (length bs)) m (store_bytes a bs m).
Proof. intros i Hi. by rewrite lookup_store_bytes, decide_False by lia. Qed.

Lemma same_outside_refl lo hi m : same_outside lo hi m m.
Proof. done. Qed.

Lemma same_outside_trans lo hi m1 m2 m3 :
  same_outside lo hi m1 m2 -> same_outside lo hi m2 m3 -> same_outside lo hi m1 m3.
Proof. intros H1 H2 i Hi. by rewrite H2, H1. Qed.

Lemma same_outside_weaken lo hi lo' hi' m m' :
  same_outside lo hi m m' -> lo' <= lo -> hi <= hi' -> same_outside lo' hi' m m'.
Proof. intros H Hl Hh i Hi. apply H. lia. Qed.

Lemma holds_frame lo hi m m' a bs :
  holds m a bs -> same_outside lo hi m m' -> a + Z.of_nat (length bs) <= lo \/ hi <= a -> holds m' a bs.
Proof.
  intros H Hs Ha k b Hk. pose proof (lookup_lt_Some _ _ _ Hk). rewrite Hs; [by apply H|lia].
Qed.

Lemma load_bytes_holds n a bs m : holds m a bs -> length bs = n -> load_bytes n a m = Ok bs.
Proof.
  intros H <-. revert a H. induction bs as [|b bs IH]; intros a H; [done|]. cbn [load_bytes length].
  replace a with (a + Z.of_nat 0) at 1 by lia. rewrite (H 0%nat b) by done. rewrite IH; [done|].
  intros k c Hk. replace (a + 1 + Z.of_nat k) with (a + Z.of_nat (S k)) by lia. by apply H.
Qed.

Lemma holds_app m a bs1 bs2 :
  holds m a (bs1 ++ bs2) <-> holds m a bs1 /\ holds m (a + Z.of_nat (length bs1)) bs2.
Proof.
  split.
  - intros H. split; intros k b Hk.
    + apply H. by apply lookup_app_l_Some.
    + replace (a + Z.of_nat (length bs1) + Z.of_nat k) with (a + Z.of_nat (length bs1 + k)) by lia.
      apply H. rewrite lookup_app_r by lia. by replace (length bs1 + k - length bs1)%nat with k by lia.
  - intros [H1 H2] k b [Hk|[Hl Hk]]%lookup_app_Some; [by apply H1|].
    replace (a + Z.of_nat k) with (a + Z.of_nat (length bs1) + Z.of_nat (k - length bs1)) by lia. by apply H2.
Qed.

Section layout_laws.
Context {T : Type} `{LL : LayoutLaws T}.

Lemma holds_load a (x : T) m : holds m a (encode x) -> representable x -> load a m = Ok x.
Proof.
  intros Hh Hr. unfold load. rewrite (load_bytes_holds _ _ _ _ Hh (length_encode x)). cbn. by rewrite decode_encode.
Qed.

Definition array_bytes (xs : list T) : list Z := concat (encode <$> xs).

Lemma length_array_bytes (xs : list T) : length (array_bytes xs) = (length xs * sizeof T)%nat.
Proof.
  unfold array_bytes. induction xs as [|x xs IH]; [done|]. cbn. rewrite length_app, length_encode, IH. lia.
Qed.

Lemma store_bytes_app a bs1 bs2 m :
  store_bytes a (bs1 ++ bs2) m = store_bytes (a + Z.of_nat (length bs1)) bs2 (store_bytes a bs1 m).
Proof.
  apply map_eq. intros i. rewrite !lookup_store_bytes, length_app.
  repeat case_decide; try lia; try done; [rewrite lookup_app_r by lia; f_equal; lia|].
  rewrite lookup_app_l by lia. done.
Qed.

Lemma store_array_bytes a (xs : list T) m : store_array a xs m = store_bytes a (array_bytes xs) m.
Proof.
  revert a m. induction xs as [|x xs IH]; intros a m; [done|]. cbn [store_array].
  rewrite IH. unfold store, array_bytes. cbn [fmap list_fmap concat].
  rewrite (store_bytes_app a (encode x)). by rewrite length_encode.
Qed.

Lemma holds_load_array a (xs : list T) m :
  holds m a (array_bytes xs) -> Forall representable xs -> load_array (length xs) a m = Ok xs.
Proof.
  revert a. induction xs as [|x xs IH]; intros a Hh Hr; [done|]. apply Forall_cons in Hr as [Hx Hr].
  unfold array_bytes in Hh. cbn [fmap list_fmap concat] in Hh. apply holds_app in Hh as [H1 H2].
  cbn [load_array length]. rewrite (holds_load a x) by done. cbn [obind]. rewrite length_encode in H2.
  by rewrite IH.
Qed.
End layout_laws.
