(* ===== verification/MemoryFile.v ===== *)
(** * Files

    Models the parts of include/pstore/os/file.hpp and lib/os/file.cpp that are not calls of the
    operating system: the interface [file_base] with the reading and writing of values, files in
    memory, locks of ranges, the division of large requests, names of temporary files and files
    that are deleted when their owner goes. The interface is the class [FileBase]; what its users
    rely on is the class [FileLaws], and the file in memory is an instance of both. *)

From S2P Require Import Prelude FileHeader Memory.

(** ** The interface *)

(** [file_base]: reading tells what was read, which may be less than what was asked for. *)
Class FileBase (F : Type) := {
  read_buffer : Z -> M F (list Z);
  write_buffer : list Z -> M F unit;
  seek : Z -> M F unit;
  tell : M F Z;
  file_size : M F Z;
  truncate : Z -> M F unit }.

Section file_base.
Context {F : Type} `{FileBase F}.

(** [read_span] of a number of octets *)
Definition read_span (size : Z) : M F (list Z) := massert (size >=? 0) ;;; read_buffer size.

(** [read] of a value *)
Definition read {T} `{Layout T} : M F T :=
  bs <- read_buffer (Z.of_nat (sizeof T)) ;;
  if Z.of_nat (length bs) =? Z.of_nat (sizeof T) then ret (decode bs)
  else throw (Raise did_not_read_number_of_bytes_requested).

(** [write_span] and [write] *)
Definition write_span (s : list Z) : M F unit := massert (Z.of_nat (length s) >=? 0) ;;; write_buffer s.
Definition write {T} `{Layout T} (t : T) : M F unit := write_buffer (encode t).
End file_base.

(** ** Files in memory *)

(** [in_memory] *)
Record in_memory := mk_mem { buffer_ : list Z; length_ : Z; eof_ : Z; writable_ : bool; pos_ : Z }.

(** The constructor, whose assertion is on the end of the file *)
Definition in_memory_ctor (buffer : list Z) (length eof : Z) (writable : bool) : outcome in_memory :=
  _ <-? oassert (eof <=? length) ;; Ok (mk_mem buffer length eof writable 0).

(** [std::numeric_limits<index_type>::max ()] *)
Definition index_max : Z := 2 ^ 63 - 1.

(** [check_writable] *)
Definition check_writable : M in_memory unit :=
  writable <- gets writable_ ;;
  if writable then ret tt else throw (RaiseErrc permission_denied).

(** [in_memory::read_buffer] *)
Definition mem_read_buffer (nbytes : Z) : M in_memory (list Z) :=
  f <- get ;;
  let stop := wrap64 (pos_ f + nbytes) in
  let nbytes := if (stop >? eof_ f) || (stop <? pos_ f) then wrap64 (eof_ f - pos_ f) else nbytes in
  massert ((length_ f <=? index_max) && (pos_ f <=? index_max) && (nbytes <=? index_max)) ;;;
  massert (wrap64 (pos_ f + nbytes) >=? pos_ f) ;;;
  put (mk_mem (buffer_ f) (length_ f) (eof_ f) (writable_ f) (wrap64 (pos_ f + nbytes))) ;;;
  ret (take (Z.to_nat nbytes) (drop (Z.to_nat (pos_ f)) (buffer_ f))).

(** [in_memory::write_buffer] *)
Definition mem_write_buffer (bs : list Z) : M in_memory unit :=
  check_writable ;;;
  f <- get ;;
  let nbytes := Z.of_nat (length bs) in
  massert (length_ f >? pos_ f) ;;;
  if nbytes >? length_ f - pos_ f then throw (RaiseErrc invalid_argument)
  else
    massert ((length_ f <=? index_max) && (pos_ f <=? index_max) && (nbytes <=? index_max)) ;;;
    massert (wrap64 (pos_ f + nbytes) >=? pos_ f) ;;;
    let pos := wrap64 (pos_ f + nbytes) in
    put (mk_mem (take (Z.to_nat (pos_ f)) (buffer_ f) ++ bs ++ drop (Z.to_nat pos) (buffer_ f))
           (length_ f) (if pos >? eof_ f then pos else eof_ f) (writable_ f) pos).

(** [in_memory::seek] *)
Definition mem_seek (position : Z) : M in_memory unit :=
  f <- get ;;
  if position >? eof_ f then throw (RaiseErrc invalid_argument)
  else put (mk_mem (buffer_ f) (length_ f) (eof_ f) (writable_ f) position).

(** [in_memory::truncate] *)
Definition mem_truncate (size : Z) : M in_memory unit :=
  f <- get ;;
  massert (eof_ f <=? length_ f) ;;;
  massert (pos_ f <=? eof_ f) ;;;
  check_writable ;;;
  if size >? length_ f then throw (RaiseErrc invalid_argument)
  else
    let buffer :=
      if size >? eof_ f then
        take (Z.to_nat (eof_ f)) (buffer_ f) ++ replicate (Z.to_nat (size - eof_ f)) 0 ++ drop (Z.to_nat size) (buffer_ f)
      else buffer_ f in
    put (mk_mem buffer (length_ f) size (writable_ f) (Z.min (pos_ f) size)).

#[export] Instance in_memory_file : FileBase in_memory := {|
  read_buffer := mem_read_buffer; write_buffer := mem_write_buffer; seek := mem_seek;
  tell := gets pos_; file_size := gets eof_; truncate := mem_truncate |}.

(** ** Locks of ranges *)

(** Any file that can be locked: [file_base::lock] and [file_base::unlock] *)
Inductive lock_kind := shared_read | exclusive_write.
Inductive blocking_mode := non_blocking | blocking.
Class Lockable (F : Type) := {
  file_lock : Z -> Z -> lock_kind -> blocking_mode -> M F bool;
  file_unlock : Z -> Z -> M F unit }.

(** [range_lock]; [has_file] tells that [file_] is not null. *)
Record range_lock := mk_lock { has_file : bool; offset_ : Z; size_ : Z; kind_ : lock_kind; locked_ : bool }.
Definition no_lock : range_lock := mk_lock false 0 0 shared_read false.

Section locks.
Context {F : Type} `{Lockable F}.

Definition set_locked (b : bool) (r : range_lock) : range_lock := mk_lock (has_file r) (offset_ r) (size_ r) (kind_ r) b.

(** [lock_impl], for [lock] and [try_lock] *)
Definition lock_impl (mode : blocking_mode) : M (F * range_lock) bool :=
  fun '(f, r) =>
    if locked_ r then (Ok false, (f, r))
    else if has_file r then
      match file_lock (offset_ r) (size_ r) (kind_ r) mode f with
      | (Ok b, f) => (Ok b, (f, set_locked b r))
      | (Throw e, f) => (Throw e, (f, r))
      end
    else (Ok (locked_ r), (f, r)).

(** [unlock] *)
Definition unlock : M (F * range_lock) unit :=
  fun '(f, r) =>
    if locked_ r && has_file r then
      match file_unlock (offset_ r) (size_ r) f with
      | (Ok _, f) => (Ok tt, (f, set_locked false r))
      | (Throw e, f) => (Throw e, (f, r))
      end
    else (Ok tt, (f, set_locked false r)).

(** What a move leaves behind *)
Definition moved_from (r : range_lock) : range_lock := mk_lock false (offset_ r) (size_ r) (kind_ r) false.
(** [range_lock (range_lock && other)]: the new lock and what remains of the other *)
Definition lock_move (other : range_lock) : range_lock * range_lock := (other, moved_from other).
(** [operator=]: an exception of [unlock] does not escape. *)
Definition lock_assign (f : F) (this other : range_lock) : F * range_lock * range_lock :=
  let '(_, (f, _)) := unlock (f, this) in (f, other, moved_from other).
End locks.

(** ** Large requests, temporary names, deletion *)

(** [split]: [function] gets the distance from the start of the buffer and the size of a chunk. *)
Fixpoint split_loop {S} (fuel : nat) (max buffer size : Z) (function : Z -> Z -> M S Z) (result : Z) : M S Z :=
  match fuel with
  | O => throw OutOfFuel
  | S fuel =>
      if size >? 0 then
        let chunk_size := Z.min max size in
        n <- function buffer chunk_size ;;
        split_loop fuel max (buffer + chunk_size) (size - chunk_size) function (wrap64 (result + n))
      else ret result
  end.
Definition split {S} (width_max size : Z) (function : Z -> Z -> M S Z) : M S Z :=
  split_loop (Datatypes.S (Z.to_nat size)) width_max 0 size function 0.

(** [name_from_template] *)
Definition name_alphabet : list Z :=
  [97; 98; 99; 100; 101; 102; 103; 104; 105; 106; 107; 108; 109; 110; 111; 112; 113; 114; 115; 116; 117; 118;
   119; 120; 121; 122; 48; 49; 50; 51; 52; 53; 54; 55; 56; 57; 95].
Fixpoint strip_x (rtmpl : list Z) : list Z :=
  match rtmpl with
  | [] => []
  | c :: rest => if c =? 88 then strip_x rest else rtmpl
  end.
Fixpoint random_chars {G} (rng : Z -> G -> Z * G) (n : nat) (path : list Z) (g : G) : outcome (list Z * G) :=
  match n with
  | O => Ok (path, g)
  | S n =>
      let '(index, g) := rng 37 g in
      _ <-? oassert ((index >=? 0) && (index <? 37)) ;;
      random_chars rng n (path ++ [nth (Z.to_nat index) name_alphabet 0]) g
  end.
Definition name_from_template {G} (tmpl : list Z) (rng : Z -> G -> Z * G) (g : G) : outcome (list Z * G) :=
  let stem := rev (strip_x (rev tmpl)) in
  r <-? random_chars rng (length tmpl - length stem) stem g ;;
  _ <-? oassert (length r.1 =? length tmpl)%nat ;;
  Ok r.

(** [system_error::message] *)
Definition system_error_message (user_message path : list Z) : list Z :=
  user_message ++ (if (0 <? length path)%nat then [32; 34] ++ path ++ [34] else []).

(** [deleter_base]: [unlinked] is what was passed to the unlinker. *)
Record deleter_base := mk_deleter { path_ : list Z; released_ : bool; unlinked : list (list Z) }.
Definition new_deleter (path : list Z) : deleter_base := mk_deleter path false [].
Definition deleter_unlink (d : deleter_base) : deleter_base :=
  if released_ d then d else mk_deleter (path_ d) true (unlinked d ++ [path_ d]).
Definition release (d : deleter_base) : deleter_base := mk_deleter (path_ d) true (unlinked d).
Definition deleter_dtor (d : deleter_base) : deleter_base := deleter_unlink d.

(** ** What users of a file rely on *)

(** Octets written over those from a position on *)
Definition overwrite (c : list Z) (pos : nat) (bs : list Z) : list Z := take pos c ++ bs ++ drop (pos + length bs) c.

(** A file has contents and a position in them, and can grow up to a capacity. *)
Class FileLaws (F : Type) `{FileBase F} := {
  valid : F -> Prop;
  contents : F -> list Z;
  position : F -> nat;
  capacity : F -> nat;
  can_write : F -> Prop;
  position_le : forall f, valid f -> (position f <= length (contents f))%nat;
  (** From one state to another: the file remains valid, with its capacity. *)
  keeps : F -> F -> Prop :=
    fun f f' => valid f' /\ capacity f' = capacity f /\ (can_write f -> can_write f');
  read_law : forall f n, valid f -> (Z.of_nat n < 2 ^ 63) ->
    wp (read_buffer (Z.of_nat n)) (fun bs f' =>
      bs = take n (drop (position f) (contents f)) /\ contents f' = contents f /\
      position f' = (position f + length bs)%nat /\ keeps f f') f;
  write_law : forall f bs, valid f -> can_write f -> bs <> [] -> (position f + length bs <= capacity f)%nat ->
    wp (write_buffer bs) (fun _ f' =>
      contents f' = overwrite (contents f) (position f) bs /\
      position f' = (position f + length bs)%nat /\ keeps f f') f;
  seek_law : forall f p, valid f -> (p <= length (contents f))%nat ->
    wp (seek (Z.of_nat p)) (fun _ f' => contents f' = contents f /\ position f' = p /\ keeps f f') f;
  truncate_law : forall f n, valid f -> can_write f -> (position f <= n <= capacity f)%nat ->
    wp (truncate (Z.of_nat n)) (fun _ f' =>
      contents f' = take n (contents f) ++ replicate (n - length (contents f)) 0 /\ keeps f f') f }.

Section values.
Context {F : Type} `{FileBase F} {FL : FileLaws F} {T : Type} `{Layout T} {LL : LayoutLaws T}.

Lemma read_overwritten c pos bs : (pos <= length c)%nat ->
  take (length bs) (drop pos (overwrite c pos bs)) = bs.
Proof.
  intros Hp. unfold overwrite. rewrite drop_app_le by (rewrite length_take; lia).
  rewrite drop_ge by (rewrite length_take; lia). cbn. by rewrite take_app_length.
Qed.

(** A value that is written can be read again from where it was written. *)
Lemma value_roundtrip f (x : T) : valid f -> can_write f -> representable x ->
  (position f + sizeof T <= capacity f)%nat -> Z.of_nat (sizeof T) < 2 ^ 63 ->
  wp (write x ;;; seek (Z.of_nat (position f)) ;;; read) (fun y f' =>
    y = x /\ position f' = (position f + sizeof T)%nat /\ keeps f f') f.
Proof.
  intros Hv Hw Hx Hc Hs. pose proof (length_encode x) as Hl. pose proof (sizeof_pos (T := T)) as Hpos.
  pose proof (position_le f Hv) as Hpl.
  unfold write. wp_head. eapply wp_mono; [apply write_law; [done|done| |lia]|].
  { intros E. rewrite E in Hl. cbn in Hl. lia. }
  cbn beta. intros _ f1 (Hc1 & Hp1 & Hv1 & Hcap1 & Hw1). wp_head.
  eapply wp_mono; [apply seek_law; [done|]|].
  { rewrite Hc1. unfold overwrite. rewrite !length_app, length_take. lia. }
  cbn beta. intros _ f2 (Hc2 & Hp2 & Hv2 & Hcap2 & Hw2). unfold read. wp_head.
  eapply wp_mono; [by apply read_law|]. cbn beta. intros bs f3 (-> & Hc3 & Hp3 & Hv3 & Hcap3 & Hw3).
  assert (take (sizeof T) (drop (position f2) (contents f2)) = encode x) as Er.
  { rewrite Hc2, Hc1, Hp2, <- Hl. by apply read_overwritten. }
  rewrite Er in *. rewrite Hl, Z.eqb_refl. wp_head. split_and!; [by apply decode_encode|lia|]. repeat split; [done|congruence|auto].
Qed.

(** Where the file ends before a value does, reading it is an error. *)
Lemma value_short f : valid f -> (length (contents f) < position f + sizeof T)%nat -> Z.of_nat (sizeof T) < 2 ^ 63 ->
  exists f', read f = (Throw (Raise did_not_read_number_of_bytes_requested) : outcome T, f').
Proof.
  intros Hv Hs Hn. destruct (wp_elim _ _ _ (read_law f (sizeof T) Hv Hn)) as (bs & f' & E & -> & _).
  exists f'. unfold read. rewrite (bind_ok _ _ _ _ _ E). rewrite (proj2 (Z.eqb_neq _ _)); [done|].
  pose proof (sizeof_pos (T := T)). rewrite length_take, length_drop. lia.
Qed.
End values.

(** ** The file in memory keeps to it *)

Definition mem_ok (f : in_memory) : Prop :=
  Z.of_nat (length (buffer_ f)) = length_ f /\ 0 <= pos_ f <= eof_ f /\ eof_ f <= length_ f <= index_max.
Definition mem_contents (f : in_memory) : list Z := take (Z.to_nat (eof_ f)) (buffer_ f).

Lemma mem_contents_length f : mem_ok f -> Z.of_nat (length (mem_contents f)) = eof_ f.
Proof. intros (Hb & Hp & He). unfold mem_contents. rewrite length_take. lia. Qed.

Lemma mem_read_ok f n : mem_ok f -> 0 <= n < 2 ^ 64 ->
  let k := Z.min n (eof_ f - pos_ f) in
  mem_read_buffer n f =
    (Ok (take (Z.to_nat k) (drop (Z.to_nat (pos_ f)) (buffer_ f))),
     mk_mem (buffer_ f) (length_ f) (eof_ f) (writable_ f) (pos_ f + k)).
Proof.
  intros (Hb & Hp & He) Hn k. unfold mem_read_buffer, index_max in *. rewrite bind_get. cbn beta zeta.
  assert ((if (wrap64 (pos_ f + n) >? eof_ f) || (wrap64 (pos_ f + n) <? pos_ f) then wrap64 (eof_ f - pos_ f) else n) = k) as ->.
  { rewrite (wrap_small 64 (eof_ f - pos_ f)) by lia.
    destruct (decide (pos_ f + n < 2 ^ 64)) as [Hs|Hs].
    - rewrite wrap_small by lia. rewrite (proj2 (Z.ltb_ge _ _)), orb_false_r by lia.
      destruct (Z.gtb_spec (pos_ f + n) (eof_ f)); lia.
    - assert (wrap64 (pos_ f + n) = pos_ f + n - 2 ^ 64) as ->.
      { unfold wrap. symmetry. apply (Z.mod_unique _ _ 1); lia. }
      rewrite (proj2 (Z.ltb_lt _ (pos_ f))), orb_true_r by lia. lia. }
  rewrite bind_massert_true by (rewrite !andb_true_iff, !Z.leb_le; lia).
  rewrite wrap_small by lia. rewrite bind_massert_true by (rewrite Z.geb_leb; apply Z.leb_le; lia).
  done.
Qed.

Lemma take_drop_prefix {A} (l : list A) (e p k : nat) : (p + k <= e)%nat ->
  take k (drop p (take e l)) = take k (drop p l).
Proof. intros Hk. rewrite !take_drop_commute, take_take. do 2 f_equal. lia. Qed.

Lemma mem_write_ok f bs : mem_ok f -> writable_ f = true -> bs <> [] -> pos_ f + Z.of_nat (length bs) <= length_ f ->
  mem_write_buffer bs f =
    (Ok tt, mk_mem (overwrite (buffer_ f) (Z.to_nat (pos_ f)) bs) (length_ f)
              (Z.max (eof_ f) (pos_ f + Z.of_nat (length bs))) true (pos_ f + Z.of_nat (length bs))).
Proof.
  intros (Hb & Hp & He) Hw Hne Hl. unfold mem_write_buffer, check_writable, index_max in *.
  assert (0 < length bs)%nat by (destruct bs; [done|cbn; lia]).
  rewrite bind_assoc, bind_gets, Hw, bind_ret. rewrite bind_get. cbn beta zeta.
  rewrite bind_massert_true by (apply Z.gtb_lt; lia). rewrite Z.gtb_ltb, (proj2 (Z.ltb_ge _ _)) by lia.
  rewrite bind_massert_true by (rewrite !andb_true_iff, !Z.leb_le; lia). rewrite !wrap_small by lia.
  rewrite bind_massert_true by (rewrite Z.geb_leb; apply Z.leb_le; lia).
  unfold put, overwrite. rewrite Hw. do 2 f_equal; [do 2 f_equal; f_equal; lia|].
  destruct (Z.gtb_spec (pos_ f + Z.of_nat (length bs)) (eof_ f)); lia.
Qed.

Lemma overwrite_take c e p bs : (p <= e <= length c)%nat -> (p + length bs <= length c)%nat ->
  take (Nat.max e (p + length bs)) (overwrite c p bs) = overwrite (take e c) p bs.
Proof.
  intros Hp Hb. unfold overwrite. rewrite take_take, Nat.min_l by lia.
  rewrite take_app, length_take, Nat.min_l by lia. rewrite (take_ge (take p c)) by (rewrite length_take; lia). f_equal.
  rewrite take_app, (take_ge bs) by lia. f_equal. rewrite take_drop_commute.
  destruct (decide (p + length bs <= e)%nat); [do 2 f_equal; lia|].
  rewrite !drop_ge; [done|rewrite length_take; lia..].
Qed.

Lemma mem_seek_ok f p : 0 <= p <= eof_ f ->
  mem_seek p f = (Ok tt, mk_mem (buffer_ f) (length_ f) (eof_ f) (writable_ f) p).
Proof. intros Hp. unfold mem_seek. rewrite bind_get. by rewrite Z.gtb_ltb, (proj2 (Z.ltb_ge _ _)) by lia. Qed.

Lemma mem_truncate_ok f n : mem_ok f -> writable_ f = true -> 0 <= n <= length_ f ->
  exists buffer, mem_truncate n f = (Ok tt, mk_mem buffer (length_ f) n true (Z.min (pos_ f) n)) /\
    length buffer = length (buffer_ f) /\
    take (Z.to_nat n) buffer = take (Z.to_nat n) (mem_contents f) ++ replicate (Z.to_nat n - length (mem_contents f)) 0.
Proof.
  intros Hf Hw Hn. pose proof (mem_contents_length f Hf) as Hc. destruct Hf as (Hb & Hp & He).
  unfold mem_truncate, check_writable.
  rewrite bind_get, !bind_massert_true by (apply Z.leb_le; lia). rewrite bind_assoc, bind_gets, Hw, bind_ret.
  rewrite Z.gtb_ltb, (proj2 (Z.ltb_ge _ _)) by lia. eexists. split; [done|].
  destruct (Z.gtb_spec n (eof_ f)) as [Hg|Hg].
  - assert (length (mem_contents f ++ replicate (Z.to_nat (n - eof_ f)) 0) = Z.to_nat n) as Hl.
    { rewrite length_app, length_replicate. lia. }
    change (take (Z.to_nat (eof_ f)) (buffer_ f)) with (mem_contents f). split.
    + rewrite !length_app, length_replicate, length_drop. lia.
    + rewrite app_assoc, take_app_le, take_ge by lia. rewrite (take_ge (mem_contents f)) by lia. do 2 f_equal. lia.
  - split; [done|]. replace (Z.to_nat n - length (mem_contents f))%nat with 0%nat by lia. cbn.
    rewrite app_nil_r. unfold mem_contents. rewrite take_take. f_equal. lia.
Qed.

#[export] Instance in_memory_laws : FileLaws in_memory.
Proof.
  refine {| valid := mem_ok; contents := mem_contents; position := fun f => Z.to_nat (pos_ f);
            capacity := fun f => Z.to_nat (length_ f); can_write := fun f => writable_ f = true |}.
  - intros f Hf. pose proof (mem_contents_length f Hf). destruct Hf as (Hb & Hp & He). lia.
  - intros f n Hf Hn. pose proof (mem_contents_length f Hf) as Hc. eapply wp_eq; [apply mem_read_ok; [done|lia]|].
    destruct Hf as (Hb & Hp & He). cbn.
    assert (take n (drop (Z.to_nat (pos_ f)) (mem_contents f)) =
            take (Z.to_nat (Z.min (Z.of_nat n) (eof_ f - pos_ f))) (drop (Z.to_nat (pos_ f)) (buffer_ f))) as ->.
    { rewrite <- (take_drop_prefix (buffer_ f) (Z.to_nat (eof_ f))) by lia.
      destruct (decide (Z.of_nat n <= eof_ f - pos_ f)); [f_equal; lia|].
      fold (mem_contents f). rewrite !take_ge; [done|rewrite length_drop; lia..]. }
    repeat split; cbn; rewrite ?length_take, ?length_drop; try done; lia.
  - intros f bs Hf Hw Hne Hl. destruct (Hf) as (Hb & Hp & He).
    eapply wp_eq; [apply mem_write_ok; [done|done|done|lia]|]. unfold mem_contents. cbn. split.
    + rewrite <- overwrite_take by lia. f_equal. lia.
    + repeat split; cbn; try done; try lia. unfold overwrite. rewrite !length_app, length_take, length_drop. lia.
  - intros f p Hf Hp. pose proof (mem_contents_length f Hf). destruct Hf as (Hb & Hp' & He).
    eapply wp_eq; [apply mem_seek_ok; lia|]. repeat split; cbn; try done; lia.
  - intros f n Hf Hw Hn. destruct (mem_truncate_ok f (Z.of_nat n) Hf Hw) as (b & E & Hlb & Hb).
    { destruct Hf as (Hb & Hp & He). lia. }
    eapply wp_eq; [exact E|]. destruct Hf as (Hbf & Hp & He). rewrite Nat2Z.id in Hb. unfold mem_contents at 1. cbn.
    rewrite Nat2Z.id. split; [done|]. repeat split; cbn; try done; lia.
Defined.

(** The errors of a file in memory; a write at the very end of the memory fails an assertion,
    even if there is nothing to write. *)
Lemma mem_errors f bs n : mem_ok f ->
  (writable_ f = false -> mem_write_buffer bs f = (Throw (RaiseErrc permission_denied), f)) /\
  (writable_ f = true -> pos_ f < length_ f < pos_ f + Z.of_nat (length bs) ->
     mem_write_buffer bs f = (Throw (RaiseErrc invalid_argument), f)) /\
  (writable_ f = true -> pos_ f = length_ f -> mem_write_buffer bs f = (Throw Assert, f)) /\
  (eof_ f < n -> mem_seek n f = (Throw (RaiseErrc invalid_argument), f)) /\
  (writable_ f = true -> length_ f < n -> mem_truncate n f = (Throw (RaiseErrc invalid_argument), f)).
Proof.
  intros (Hb & Hp & He). unfold mem_write_buffer, mem_seek, mem_truncate, check_writable. split_and!.
  - intros Hw. by rewrite bind_assoc, bind_gets, Hw.
  - intros Hw Hl. rewrite bind_assoc, bind_gets, Hw, bind_ret, bind_get.
    rewrite bind_massert_true by (apply Z.gtb_lt; lia). by rewrite Z.gtb_ltb, (proj2 (Z.ltb_lt _ _)) by lia.
  - intros Hw Hl. rewrite bind_assoc, bind_gets, Hw, bind_ret, bind_get.
    unfold bind at 1, massert, lift. by rewrite Z.gtb_ltb, (proj2 (Z.ltb_ge _ _)) by lia.
  - intros Hn. rewrite bind_get. by rewrite Z.gtb_ltb, (proj2 (Z.ltb_lt _ _)) by lia.
  - intros Hw Hn. rewrite bind_get, !bind_massert_true by (apply Z.leb_le; lia).
    rewrite bind_assoc, bind_gets, Hw, bind_ret. by rewrite Z.gtb_ltb, (proj2 (Z.ltb_lt _ _)) by lia.
Qed.

(** ** Locks are released once *)

Section lock_facts.
Context {F : Type} `{Lockable F}.
Implicit Types r : range_lock.

(** A lock that is held is not taken again, and one that is not held is not released. *)
Lemma lock_held mode f r : locked_ r = true -> lock_impl mode (f, r) = (Ok false, (f, r)).
Proof. intros Hr. unfold lock_impl. by rewrite Hr. Qed.
Lemma unlock_free f r : locked_ r = false -> unlock (f, r) = (Ok tt, (f, r)).
Proof. intros Hr. unfold unlock. rewrite Hr. cbn. destruct r; cbn in *. by subst. Qed.

(** What is locked is what is unlocked, and then the lock is free. *)
Lemma lock_unlock mode f r f1 f2 : locked_ r = false -> has_file r = true ->
  file_lock (offset_ r) (size_ r) (kind_ r) mode f = (Ok true, f1) ->
  file_unlock (offset_ r) (size_ r) f1 = (Ok tt, f2) ->
  lock_impl mode (f, r) = (Ok true, (f1, set_locked true r)) /\
  unlock (f1, set_locked true r) = (Ok tt, (f2, r)).
Proof.
  intros Hr Hf El Eu. unfold lock_impl, unlock. rewrite Hr, Hf, El. split; [done|]. cbn. rewrite Hf, Eu.
  destruct r; cbn in *. by subst.
Qed.

(** After a move the new object owns the lock; destroying the other does not release it. *)
Lemma lock_moved f r : let '(r', old) := lock_move r in
  r' = r /\ unlock (f, old) = (Ok tt, (f, old)) /\ forall mode, lock_impl mode (f, old) = (Ok false, (f, old)).
Proof. done. Qed.

(** An assignment releases what the target held. *)
Lemma lock_assigned f f1 this other : locked_ this = true -> has_file this = true ->
  file_unlock (offset_ this) (size_ this) f = (Ok tt, f1) ->
  lock_assign f this other = (f1, other, moved_from other).
Proof. intros Hl Hf Eu. unfold lock_assign, unlock. by rewrite Hl, Hf, Eu. Qed.
End lock_facts.

(** ** Large requests *)

(** The rule of [split]: where the function processes every piece it is given, of at most the
    largest width, all is processed, in order, and the result is the size. *)
Lemma split_loop_ok {S} (max total : Z) (function : Z -> Z -> M S Z) (I : Z -> S -> Prop) :
  0 < max -> total < 2 ^ 64 ->
  (forall off n s, I off s -> 0 <= off -> 0 < n <= max -> off + n <= total ->
     wp (function off n) (fun r s' => r = n /\ I (off + n) s') s) ->
  forall fuel off size s, 0 <= off -> 0 <= size -> off + size = total -> (Z.to_nat size < fuel)%nat -> I off s ->
    wp (split_loop fuel max off size function off) (fun r s' => r = total /\ I total s') s.
Proof.
  intros Hmax Ht Hf. induction fuel as [|fuel IH]; intros off size s Ho Hs He Hfuel HI; [lia|]. cbn [split_loop].
  destruct (Z.gtb_spec size 0).
  - wp_head. eapply wp_mono; [apply Hf; [done|lia..]|]. cbn beta. intros r s' [-> HI'].
    rewrite wrap_small by lia. apply IH; [lia..|done].
  - wp_head. assert (size = 0) as -> by lia. replace total with off by lia. done.
Qed.

Lemma split_ok {S} (max size : Z) (function : Z -> Z -> M S Z) (I : Z -> S -> Prop) s :
  0 < max -> 0 <= size < 2 ^ 64 -> I 0 s ->
  (forall off n s, I off s -> 0 <= off -> 0 < n <= max -> off + n <= size ->
     wp (function off n) (fun r s' => r = n /\ I (off + n) s') s) ->
  wp (split max size function) (fun r s' => r = size /\ I size s') s.
Proof. intros Hm Hs HI Hf. unfold split. eapply split_loop_ok; [done|lia|done|lia..|done]. Qed.

(** ** Temporary names *)

Lemma strip_x_spec l : exists n, l = replicate n 88 ++ strip_x l /\ forall c rest, strip_x l = c :: rest -> c <> 88.
Proof.
  induction l as [|c l (n & E & Hs)]; [by exists 0%nat|]. cbn [strip_x]. destruct (Z.eqb_spec c 88) as [->|Hc].
  - exists (S n). split; [|done]. cbn. by rewrite <- E.
  - exists 0%nat. split; [done|]. by intros ? ? [= <- _].
Qed.

Lemma random_chars_ok {G} (rng : Z -> G -> Z * G) n path g : (forall g, 0 <= fst (rng 37 g) < 37) ->
  exists cs g', random_chars rng n path g = Ok (path ++ cs, g') /\ length cs = n /\ Forall (fun c => c ∈ name_alphabet) cs.
Proof.
  intros Hr. revert path g. induction n as [|n IH]; intros path g; cbn [random_chars].
  - exists [], g. by rewrite app_nil_r.
  - specialize (Hr g) as Hg. destruct (rng 37 g) as [index g1]. cbn in Hg.
    rewrite Z.geb_leb, (proj2 (Z.leb_le _ _)), (proj2 (Z.ltb_lt _ _)) by lia. cbn [andb oassert obind].
    destruct (IH (path ++ [nth (Z.to_nat index) name_alphabet 0]) g1) as (cs & g' & E & Hl & Ha).
    exists (nth (Z.to_nat index) name_alphabet 0 :: cs), g'. rewrite E, <- app_assoc. split_and!; [done|cbn; lia|].
    constructor; [|done]. apply list_elem_of_In, nth_In. cbn. lia.
Qed.

(** The name is the template with the X's at its end replaced, whatever the generator gives. *)
Lemma name_from_template_ok {G} stem n (rng : Z -> G -> Z * G) g :
  (forall s c, stem = s ++ [c] -> c <> 88) -> (forall g, 0 <= fst (rng 37 g) < 37) ->
  exists cs g', name_from_template (stem ++ replicate n 88) rng g = Ok (stem ++ cs, g') /\
    length cs = n /\ Forall (fun c => c ∈ name_alphabet) cs.
Proof.
  intros Hst Hr. unfold name_from_template.
  assert (rev (strip_x (rev (stem ++ replicate n 88))) = stem) as ->.
  { assert (rev (replicate n 88) = replicate n 88) as Hrev.
    { clear. induction n as [|n IH]; [done|]. cbn. by rewrite IH, <- replicate_cons_app. }
    rewrite rev_app_distr, Hrev.
    assert (forall l, (forall c rest, l = c :: rest -> c <> 88) -> strip_x (replicate n 88 ++ l) = l) as Hx.
    { intros l Hl. clear Hrev. induction n as [|k IH]; [|exact IH]. cbn. destruct l as [|c l]; [done|]. cbn.
      destruct (Z.eqb_spec c 88); [|done]. by destruct (Hl c l). }
    rewrite Hx, rev_involutive; [done|]. intros c rest E. apply (Hst (rev rest)).
    rewrite <- (rev_involutive stem), E. done. }
  rewrite length_app, length_replicate. replace (length stem + n - length stem)%nat with n by lia.
  destruct (random_chars_ok rng n stem g Hr) as (cs & g' & -> & Hl & Ha). exists cs, g'. cbn [obind fst].
  rewrite length_app, Hl, Nat.eqb_refl. done.
Qed.

(** ** Deletion *)

(** A file is deleted at most once, and not after its name was released. *)
Lemma deleter_once path : unlinked (deleter_dtor (deleter_unlink (new_deleter path))) = [path] /\
  unlinked (deleter_dtor (new_deleter path)) = [path] /\ unlinked (deleter_dtor (release (new_deleter path))) = [].
Proof. done. Qed.
