(* ===== verification/PosixFile.v ===== *)
(** * Files of the operating system

    Models lib/os/file_posix.cpp with the class [file_handle] of include/pstore/os/file.hpp and its moves of lib/os/file.cpp. The
    calls of the operating system are the class [Posix]: each gives a result or a value of [errno]. The documented behaviour of
    the calls on an open file is the class [PosixLaws], with which a [file_handle] has the laws of files. *)

From S2P Require Import Prelude Memory MemoryFile Path.

(** Flags of [open], positions for [lseek], and the commands and types of locks of [fcntl] *)
Inductive open_flag := O_RDONLY | O_RDWR | O_CREAT | O_EXCL.
Inductive whence := SEEK_SET | SEEK_CUR.
Inductive lock_cmd := F_SETLK | F_SETLKW.
Inductive lock_type := F_RDLCK | F_WRLCK | F_UNLCK.

(** The operating system: a call returns a value or sets [errno]. *)
Definition syscall (K A : Type) : Type := K -> (A + errno) * K.

Class Posix (K : Type) := {
  os_open : list Z -> list open_flag -> Z -> syscall K Z;
  os_mkstemp : list Z -> K -> ((Z + errno) * list Z) * K;
  os_close : Z -> syscall K unit;
  os_lseek : Z -> Z -> whence -> syscall K Z;
  os_read : Z -> Z -> syscall K (list Z);
  os_write : Z -> list Z -> syscall K Z;
  os_fstat_size : Z -> syscall K Z;
  os_stat_times : list Z -> syscall K (Z * Z * Z);
  os_ftruncate : Z -> Z -> syscall K unit;
  os_fcntl : Z -> lock_cmd -> lock_type -> Z -> whence -> Z -> syscall K unit;
  os_unlink : list Z -> syscall K unit;
  os_access : list Z -> syscall K unit;
  os_linkat : list Z -> list Z -> syscall K unit;
  os_faccessat : list Z -> syscall K unit;
  os_renameat : list Z -> list Z -> syscall K unit;
  (** Renaming that does not replace, where the system has it *)
  os_renameat2 : option (list Z -> list Z -> syscall K unit);
  os_getenv : list Z -> K -> option (list Z) }.

Definition invalid_oshandle : Z := -1.
Definition off_max : Z := 2 ^ 63 - 1.

(** [file_handle] *)
Record file_handle := mk_fh { fh_path : list Z; file_ : Z; is_writable_ : bool }.
Definition unknown_path : list Z := [60; 117; 110; 107; 110; 111; 119; 110; 62].
Definition new_handle (path : list Z) : file_handle := mk_fh path invalid_oshandle false.
Definition default_handle : file_handle := new_handle unknown_path.

Inductive create_mode := create_new | open_existing | open_always.
Inductive writable_mode := read_only | read_write.
Inductive present_mode := allow_not_found | must_exist.

Section posix.
Context {K : Type} `{Posix K}.

Notation state := (K * file_handle)%type.

(** A call, and one whose failure is raised by [raise_file_error] *)
Definition call {A} (c : syscall K A) : M state (A + errno) := fun '(k, f) => let '(r, k) := c k in (Ok r, (k, f)).
Definition raise_file_error {A} (err : errno) : M state A := throw (RaiseErrno err).
Definition checked {A} (c : syscall K A) : M state A :=
  r <- call c ;; match r with inl a => ret a | inr err => raise_file_error err end.
Definition handle : M state file_handle := gets snd.
Definition set_handle (f : file_handle) : M state unit := modify (fun s => (s.1, f)).

Definition is_open (f : file_handle) : bool := negb (file_ f =? invalid_oshandle).
Definition ensure_open : M state unit :=
  f <- handle ;; if negb (is_open f) then throw (RaiseErrc bad_file_descriptor) else ret tt.

(** [close] *)
Definition fh_close : M state unit :=
  f <- handle ;;
  if negb (file_ f =? invalid_oshandle) then
    r <- call (os_close (file_ f)) ;;
    set_handle (mk_fh (fh_path f) invalid_oshandle (is_writable_ f)) ;;;
    match r with
    | inr err => raise_file_error err
    | inl _ => set_handle (mk_fh (fh_path f) invalid_oshandle false)
    end
  else ret tt.

(** [open] of a path *)
Definition open_flags (create : create_mode) (writable : bool) : list open_flag :=
  (if writable then [O_RDWR] else [O_RDONLY]) ++
  match create with create_new => [O_CREAT; O_EXCL] | open_existing => [] | open_always => [O_CREAT] end.
(** The permissions of a new file, in octal 444 or 666 *)
Definition open_mode (writable : bool) : Z := if writable then 0x1B6 else 0x124.
Definition fh_open (create : create_mode) (writable : writable_mode) (present : present_mode) : M state unit :=
  fh_close ;;;
  f <- handle ;;
  let w := match writable with read_write => true | read_only => false end in
  set_handle (mk_fh (fh_path f) (file_ f) w) ;;;
  r <- call (os_open (fh_path f) (open_flags create w) (open_mode w)) ;;
  match r with
  | inl fd => set_handle (mk_fh (fh_path f) fd w)
  | inr err =>
      set_handle (mk_fh (fh_path f) (-1) w) ;;;
      match present, err with
      | allow_not_found, ENOENT => ret tt
      | _, _ => raise_file_error err
      end
  end.

(** [open] of a unique file, and of one that has no name *)
Definition unique_template (directory : list Z) : list Z := posix_join directory [[112; 115; 116; 45; 88; 88; 88; 88; 88; 88]].
Definition open_unique (directory : list Z) : M state unit :=
  fh_close ;;;
  r <- (fun '(k, f) => let '(r, k) := os_mkstemp (unique_template directory) k in (Ok r, (k, f))) ;;
  set_handle (mk_fh r.2 (match r.1 with inl fd => fd | inr _ => -1 end) true) ;;;
  match r.1 with inl _ => ret tt | inr err => raise_file_error err end.
Definition open_temporary (directory : list Z) : M state unit :=
  open_unique directory ;;; f <- handle ;; checked (os_unlink (fh_path f)).

(** [seek]: what exceeds the type of an offset is moved in further steps. *)
Fixpoint seek_loop (fuel : nat) (position : Z) (mode : whence) : M state unit :=
  match fuel with
  | O => throw OutOfFuel
  | S fuel =>
      let offset := Z.min position off_max in
      f <- handle ;;
      checked (os_lseek (file_ f) offset mode) ;;;
      let position := position - offset in
      if position >? 0 then seek_loop fuel position SEEK_CUR else ret tt
  end.
Definition fh_seek (position : Z) : M state unit := ensure_open ;;; seek_loop 3 position SEEK_SET.

(** [tell] *)
Definition fh_tell : M state Z :=
  ensure_open ;;; f <- handle ;; r <- checked (os_lseek (file_ f) 0 SEEK_CUR) ;; massert (r >=? 0) ;;; ret r.

(** [read_buffer] *)
Definition fh_read_buffer (nbytes : Z) : M state (list Z) :=
  if nbytes >? 2 ^ 63 - 1 then throw (RaiseErrc invalid_argument)
  else ensure_open ;;; f <- handle ;; checked (os_read (file_ f) nbytes).

(** [write_buffer]: how much was written is not looked at. *)
Definition fh_write_buffer (bs : list Z) : M state unit :=
  ensure_open ;;; f <- handle ;; checked (os_write (file_ f) bs) ;;; f <- handle ;; massert (is_writable_ f).

(** [size] and [truncate] *)
Definition fh_size : M state Z :=
  ensure_open ;;; f <- handle ;; n <- checked (os_fstat_size (file_ f)) ;; massert (n >=? 0) ;;; ret n.
Definition fh_truncate (size : Z) : M state unit :=
  ensure_open ;;;
  if size >? off_max then throw (RaiseErrc invalid_argument) else f <- handle ;; checked (os_ftruncate (file_ f) size).

(** [rename_noreplace]: the system's own call, a link, and a test before renaming, in this order. [is_unavailable] looks at its
    argument and at [errno], which agree wherever [errno] was just set and it matters. *)
Definition is_unavailable (e : errno) : bool := match e with EINVAL | ENOSYS | ENOTTY => true | _ => false end.
Definition rename_noreplace (old_path new_path : list Z) : syscall K unit :=
  fun k =>
    let '(r, k) := match os_renameat2 with Some c => c old_path new_path k | None => (inr EINVAL, k) end in
    match r with
    | inl _ => (inl tt, k)
    | inr err =>
        if negb (is_unavailable err) then (inr err, k)
        else
          let '(r, k) := os_linkat old_path new_path k in
          match r with
          | inl _ =>
              let '(r, k) := os_unlink old_path k in
              match r with
              | inl _ => (inl tt, k)
              | inr err => let '(_, k) := os_unlink new_path k in (inr err, k)
              end
          | inr err =>
              if negb (is_unavailable err) && negb (bool_decide (err = EPERM)) then (inr err, k)
              else
                let '(r, k) := os_faccessat new_path k in
                match r with
                | inl _ => (inr EEXIST, k)
                | inr ENOENT => os_renameat old_path new_path k
                | inr err => (inr err, k)
                end
          end
    end.

(** [rename] *)
Definition fh_rename (new_name : list Z) : M state bool :=
  f <- handle ;;
  r <- call (rename_noreplace (fh_path f) new_name) ;;
  match r with
  | inl _ => set_handle (mk_fh new_name (file_ f) (is_writable_ f)) ;;; ret true
  | inr EEXIST => ret false
  | inr err => raise_file_error err
  end.

(** [lock] and [unlock] *)
Definition fh_lock (offset size : Z) (kind : lock_kind) (block : blocking_mode) : M state bool :=
  if (offset >? off_max) || (size >? off_max) then throw (RaiseErrc invalid_argument)
  else
    ensure_open ;;;
    f <- handle ;;
    let cmd := match block with non_blocking => F_SETLK | blocking => F_SETLKW end in
    let type := match kind with shared_read => F_RDLCK | exclusive_write => F_WRLCK end in
    r <- call (os_fcntl (file_ f) cmd type offset SEEK_SET size) ;;
    match r with
    | inl _ => ret true
    | inr err =>
        match block, err with
        | non_blocking, EACCES | non_blocking, EAGAIN => ret false
        | _, _ => raise_file_error err
        end
    end.
Definition fh_unlock (offset size : Z) : M state unit :=
  if (offset >? off_max) || (size >? off_max) then throw (RaiseErrc invalid_argument)
  else ensure_open ;;; f <- handle ;; checked (os_fcntl (file_ f) F_SETLK F_UNLCK offset SEEK_SET size).

(** [latest_time], on a system whose [stat] gives times in seconds *)
Definition latest_time : M state Z :=
  f <- handle ;; r <- checked (os_stat_times (fh_path f)) ;; let '(a, m, c) := r in ret (Z.max (Z.max a m) c).

(** The free functions [exists] and [unlink] *)
Definition exists_ (path : list Z) : M state bool := r <- call (os_access path) ;; ret (match r with inl _ => true | inr _ => false end).
Definition unlink (path : list Z) (allow_noent : bool) : M state unit :=
  r <- call (os_unlink path) ;;
  match r with
  | inl _ => ret tt
  | inr err => if negb allow_noent || negb (bool_decide (err = ENOENT)) then raise_file_error err else ret tt
  end.

(** [get_temporary_directory]: the variables TMPDIR, TMP, TEMP and TEMPDIR, and /tmp *)
Definition env_var_names : list (list Z) :=
  [[84; 77; 80; 68; 73; 82]; [84; 77; 80]; [84; 69; 77; 80]; [84; 69; 77; 80; 68; 73; 82]].
Fixpoint first_variable (names : list (list Z)) (k : K) : list Z :=
  match names with
  | [] => [47; 116; 109; 112]
  | name :: names => match os_getenv name k with Some v => v | None => first_variable names k end
  end.
Definition get_temporary_directory (k : K) : list Z := first_variable env_var_names k.
End posix.

(** The moves of lib/os/file.cpp: what remains of the other *)
Definition fh_moved_from (other : file_handle) : file_handle := mk_fh [] invalid_oshandle false.
Definition fh_move (other : file_handle) : file_handle * file_handle := (other, fh_moved_from other).
(** [operator=]: an exception of [close] does not escape. *)
Definition fh_move_assign {K} `{Posix K} (k : K) (this rhs : file_handle) : K * file_handle * file_handle :=
  let '(_, (k, _)) := fh_close (k, this) in (k, rhs, fh_moved_from rhs).

#[export] Instance posix_file {K} `{Posix K} : FileBase (K * file_handle) := {|
  read_buffer := fh_read_buffer; write_buffer := fh_write_buffer; seek := fh_seek;
  tell := fh_tell; file_size := fh_size; truncate := fh_truncate |}.
#[export] Instance posix_lockable {K} `{Posix K} : Lockable (K * file_handle) := {| file_lock := fh_lock; file_unlock := fh_unlock |}.

(** ** What the operating system promises for an open regular file *)

(** The documented behaviour of read, write, lseek, fstat and ftruncate while nothing else uses the file and the device has room
    up to a size: a read is short at the end of the file only, a write is complete, a position can be beyond the end. *)
Class PosixLaws (K : Type) `{Posix K} := {
  open_file : K -> Z -> option (list Z * nat);
  open_for_writing : K -> Z -> Prop;
  room : K -> Z -> nat;
  os_keeps : K -> K -> Z -> Prop := fun k k' fd => room k' fd = room k fd /\ (open_for_writing k fd -> open_for_writing k' fd);
  os_read_law : forall k fd c p n, open_file k fd = Some (c, p) -> Z.of_nat n < 2 ^ 63 ->
    exists k', os_read fd (Z.of_nat n) k = (inl (take n (drop p c)), k') /\
      open_file k' fd = Some (c, (p + length (take n (drop p c)))%nat) /\ os_keeps k k' fd;
  os_write_law : forall k fd c p bs, open_file k fd = Some (c, p) -> open_for_writing k fd -> (p <= length c)%nat -> (p + length bs <= room k fd)%nat ->
    exists k', os_write fd bs k = (inl (Z.of_nat (length bs)), k') /\
      open_file k' fd = Some (overwrite c p bs, (p + length bs)%nat) /\ os_keeps k k' fd;
  os_seek_law : forall k fd c p q, open_file k fd = Some (c, p) -> Z.of_nat q <= off_max ->
    exists k', os_lseek fd (Z.of_nat q) SEEK_SET k = (inl (Z.of_nat q), k') /\ open_file k' fd = Some (c, q) /\ os_keeps k k' fd;
  os_tell_law : forall k fd c p, open_file k fd = Some (c, p) ->
    exists k', os_lseek fd 0 SEEK_CUR k = (inl (Z.of_nat p), k') /\ open_file k' fd = Some (c, p) /\ os_keeps k k' fd;
  os_truncate_law : forall k fd c p n, open_file k fd = Some (c, p) -> open_for_writing k fd -> (n <= room k fd)%nat ->
    exists k', os_ftruncate fd (Z.of_nat n) k = (inl tt, k') /\
      open_file k' fd = Some (take n c ++ replicate (n - length c) 0, p) /\ os_keeps k k' fd;
  room_bound : forall k fd, Z.of_nat (room k fd) <= off_max;
  contents_bound : forall k fd c p, open_file k fd = Some (c, p) -> (length c <= room k fd)%nat }.

Section laws.
Context {K : Type} `{PosixLaws K}.
Notation state := (K * file_handle)%type.

(** The handle is open on a file and the position is in it. *)
Definition fh_valid (s : state) : Prop :=
  is_open s.2 = true /\ exists c p, open_file s.1 (file_ s.2) = Some (c, p) /\ (p <= length c)%nat.
Definition fh_contents (s : state) : list Z := match open_file s.1 (file_ s.2) with Some (c, _) => c | None => [] end.
Definition fh_position (s : state) : nat := match open_file s.1 (file_ s.2) with Some (_, p) => p | None => 0 end.
Definition fh_can_write (s : state) : Prop := is_writable_ s.2 = true /\ open_for_writing s.1 (file_ s.2).

Lemma ensure_open_ok (k : K) f : is_open f = true -> ensure_open (k, f) = (Ok tt, (k, f)).
Proof. intros Ho. unfold ensure_open, handle. rewrite bind_gets. cbn [snd]. by rewrite Ho. Qed.

Lemma checked_ok {A} (c : syscall K A) k f a k' : c k = (inl a, k') -> checked c (k, f) = (Ok a, (k', f)).
Proof. intros E. unfold checked, bind, call. by rewrite E. Qed.

Lemma checked_error {A} (c : syscall K A) k f err k' : c k = (inr err, k') -> checked c (k, f) = (Throw (RaiseErrno err), (k', f)).
Proof. intros E. unfold checked, bind, call. by rewrite E. Qed.

Lemma handle_ok (k : K) f {A} (g : file_handle -> M state A) : bind handle g (k, f) = g f (k, f).
Proof. done. Qed.

Lemma fh_read_ok (k : K) f c p n : is_open f = true -> open_file k (file_ f) = Some (c, p) -> Z.of_nat n < 2 ^ 63 ->
  exists k', fh_read_buffer (Z.of_nat n) (k, f) = (Ok (take n (drop p c)), (k', f)) /\
    open_file k' (file_ f) = Some (c, (p + length (take n (drop p c)))%nat) /\ os_keeps k k' (file_ f).
Proof.
  intros Ho Hf Hn. destruct (os_read_law k (file_ f) c p n Hf Hn) as (k' & E & Hk). exists k'. split; [|done].
  unfold fh_read_buffer. rewrite Z.gtb_ltb, (proj2 (Z.ltb_ge _ _)) by lia.
  rewrite (bind_ok _ _ _ _ _ (ensure_open_ok k f Ho)), handle_ok. by apply checked_ok.
Qed.

Lemma fh_write_ok (k : K) f c p bs : is_open f = true -> is_writable_ f = true -> open_file k (file_ f) = Some (c, p) -> open_for_writing k (file_ f) ->
  (p <= length c)%nat -> (p + length bs <= room k (file_ f))%nat ->
  exists k', fh_write_buffer bs (k, f) = (Ok tt, (k', f)) /\
    open_file k' (file_ f) = Some (overwrite c p bs, (p + length bs)%nat) /\ os_keeps k k' (file_ f).
Proof.
  intros Ho Hw Hf How Hp Hr. destruct (os_write_law k (file_ f) c p bs Hf How Hp Hr) as (k' & E & Hk). exists k'. split; [|done].
  unfold fh_write_buffer. rewrite (bind_ok _ _ _ _ _ (ensure_open_ok k f Ho)), handle_ok.
  rewrite (bind_ok _ _ _ _ _ (checked_ok _ _ f _ _ E)), handle_ok. by rewrite Hw.
Qed.

Lemma fh_seek_ok (k : K) f c p q : is_open f = true -> open_file k (file_ f) = Some (c, p) -> Z.of_nat q <= off_max ->
  exists k', fh_seek (Z.of_nat q) (k, f) = (Ok tt, (k', f)) /\ open_file k' (file_ f) = Some (c, q) /\ os_keeps k k' (file_ f).
Proof.
  intros Ho Hf Hq. destruct (os_seek_law k (file_ f) c p q Hf Hq) as (k' & E & Hk). exists k'. split; [|done].
  unfold fh_seek. rewrite (bind_ok _ _ _ _ _ (ensure_open_ok k f Ho)). cbn [seek_loop]. rewrite Z.min_l by lia. rewrite handle_ok.
  rewrite (bind_ok _ _ _ _ _ (checked_ok _ _ f _ _ E)). by rewrite Z.sub_diag.
Qed.

Lemma fh_tell_ok (k : K) f c p : is_open f = true -> open_file k (file_ f) = Some (c, p) ->
  exists k', fh_tell (k, f) = (Ok (Z.of_nat p), (k', f)) /\ open_file k' (file_ f) = Some (c, p) /\ os_keeps k k' (file_ f).
Proof.
  intros Ho Hf. destruct (os_tell_law k (file_ f) c p Hf) as (k' & E & Hk). exists k'. split; [|done].
  unfold fh_tell. rewrite (bind_ok _ _ _ _ _ (ensure_open_ok k f Ho)), handle_ok.
  rewrite (bind_ok _ _ _ _ _ (checked_ok _ _ f _ _ E)). rewrite bind_massert_true by (apply Z.geb_le; lia). done.
Qed.

Lemma fh_truncate_ok (k : K) f c p n : is_open f = true -> open_file k (file_ f) = Some (c, p) -> open_for_writing k (file_ f) -> (n <= room k (file_ f))%nat ->
  exists k', fh_truncate (Z.of_nat n) (k, f) = (Ok tt, (k', f)) /\
    open_file k' (file_ f) = Some (take n c ++ replicate (n - length c) 0, p) /\ os_keeps k k' (file_ f).
Proof.
  intros Ho Hf Hw Hn. destruct (os_truncate_law k (file_ f) c p n Hf Hw Hn) as (k' & E & Hk). exists k'. split; [|done].
  unfold fh_truncate. rewrite (bind_ok _ _ _ _ _ (ensure_open_ok k f Ho)). pose proof (room_bound k (file_ f)).
  rewrite Z.gtb_ltb, (proj2 (Z.ltb_ge _ _)) by lia. rewrite handle_ok. by apply checked_ok.
Qed.

#[export] Instance posix_laws : FileLaws state.
Proof.
  refine {| valid := fh_valid; contents := fh_contents; position := fh_position;
            capacity := fun s => room s.1 (file_ s.2); can_write := fh_can_write |}.
  - intros [k f] (Ho & c & p & E & Hp). unfold fh_contents, fh_position. cbn [fst snd] in *. by rewrite E.
  - intros [k f] n (Ho & c & p & E & Hp) Hn. cbn [fst snd] in *. destruct (fh_read_ok k f c p n Ho E Hn) as (k' & Er & E' & Hr & Hw).
    eapply wp_eq; [exact Er|]. unfold fh_contents, fh_position, fh_valid, fh_can_write. cbn [fst snd]. rewrite E, E'. split_and!; try done.
    + exists c, (p + length (take n (drop p c)))%nat. split; [done|]. rewrite length_take, length_drop. lia.
    + by intros [? ?%Hw].
  - intros [k f] bs (Ho & c & p & E & Hp) [Hfw Hw] _ Hl. unfold fh_position in Hl. cbn [fst snd] in *. rewrite E in Hl.
    destruct (fh_write_ok k f c p bs Ho Hfw E Hw Hp Hl) as (k' & Er & E' & Hr & Hw').
    eapply wp_eq; [exact Er|]. unfold fh_contents, fh_position, fh_valid, fh_can_write. cbn [fst snd]. rewrite E, E'. split_and!; try done.
    + exists (overwrite c p bs), (p + length bs)%nat. split; [done|]. unfold overwrite. rewrite !length_app, length_take. lia.
    + by intros [? ?%Hw'].
  - intros [k f] q (Ho & c & p & E & Hp) Hq. unfold fh_contents in Hq. cbn [fst snd] in *. rewrite E in Hq.
    pose proof (contents_bound _ _ _ _ E). pose proof (room_bound k (file_ f)).
    destruct (fh_seek_ok k f c p q Ho E ltac:(lia)) as (k' & Er & E' & Hr & Hw).
    eapply wp_eq; [exact Er|]. unfold fh_contents, fh_position, fh_valid, fh_can_write. cbn [fst snd]. rewrite E, E'. split_and!; try done.
    + by exists c, q.
    + by intros [? ?%Hw].
  - intros [k f] n (Ho & c & p & E & Hp) [Hfw Hw] Hn. unfold fh_position in Hn. cbn [fst snd] in *. rewrite E in Hn.
    destruct (fh_truncate_ok k f c p n Ho E Hw ltac:(lia)) as (k' & Er & E' & Hr & Hw').
    eapply wp_eq; [exact Er|]. unfold fh_contents, fh_position, fh_valid, fh_can_write. cbn [fst snd]. rewrite E, E'. split_and!; try done.
    + eexists _, p. split; [done|]. rewrite length_app, length_take, length_replicate. lia.
    + by intros [? ?%Hw'].
Defined.
End laws.

(** ** Errors *)

Section errors.
Context {K : Type} `{Posix K}.

(** A handle that is not open refuses everything but what it refuses anyway. *)
Lemma closed_handle (k : K) f n bs : is_open f = false ->
  fh_seek n (k, f) = (Throw (RaiseErrc bad_file_descriptor), (k, f)) /\
  fh_tell (k, f) = (Throw (RaiseErrc bad_file_descriptor), (k, f)) /\
  (n < 2 ^ 63 -> fh_read_buffer n (k, f) = (Throw (RaiseErrc bad_file_descriptor), (k, f))) /\
  fh_write_buffer bs (k, f) = (Throw (RaiseErrc bad_file_descriptor), (k, f)) /\
  fh_size (k, f) = (Throw (RaiseErrc bad_file_descriptor), (k, f)) /\
  fh_truncate n (k, f) = (Throw (RaiseErrc bad_file_descriptor), (k, f)).
Proof.
  intros Ho. assert (ensure_open (k, f) = (Throw (RaiseErrc bad_file_descriptor), (k, f))) as E.
  { unfold ensure_open, handle. rewrite bind_gets. cbn [snd]. by rewrite Ho. }
  unfold fh_seek, fh_tell, fh_read_buffer, fh_write_buffer, fh_size, fh_truncate.
  split_and!; try by apply bind_throw. intros Hn. rewrite Z.gtb_ltb, (proj2 (Z.ltb_ge _ _)) by lia. by apply bind_throw.
Qed.

(** A write that the system completes in part is reported as a success. *)
Lemma short_write_unnoticed (k k' : K) f bs n : is_open f = true -> is_writable_ f = true -> os_write (file_ f) bs k = (inl n, k') ->
  fh_write_buffer bs (k, f) = (Ok tt, (k', f)).
Proof.
  intros Ho Hw E. unfold fh_write_buffer. rewrite (bind_ok _ _ _ tt (k, f)) by (by apply ensure_open_ok). rewrite handle_ok.
  rewrite (bind_ok _ _ _ n (k', f)) by (by apply checked_ok). rewrite handle_ok. by rewrite Hw.
Qed.

(** Opening a handle that is closed: it is open, or closed without an error, exactly as the system's answer says. *)
Lemma fh_open_ok (k k' : K) path create writable present r :
  let w := match writable with read_write => true | read_only => false end in
  os_open path (open_flags create w) (open_mode w) k = (r, k') ->
  fh_open create writable present (k, new_handle path) =
    match r with
    | inl fd => (Ok tt, (k', mk_fh path fd w))
    | inr err => (match present, err with allow_not_found, ENOENT => Ok tt | _, _ => Throw (RaiseErrno err) end, (k', mk_fh path (-1) w))
    end.
Proof.
  intros w E. unfold fh_open. rewrite (bind_ok _ _ _ tt (k, new_handle path)) by done. rewrite handle_ok. cbn [new_handle fh_path file_].
  rewrite (bind_ok _ _ _ tt (k, mk_fh path invalid_oshandle w)) by done. fold w. rewrite (bind_ok _ _ _ r (k', mk_fh path invalid_oshandle w)).
  - destruct r as [fd|err]; [done|]. rewrite (bind_ok _ _ _ tt (k', mk_fh path (-1) w)) by done. by destruct present, err.
  - unfold call. by rewrite E.
Qed.

(** A lock that is not waited for is refused without an error when another holds it. *)
Lemma try_lock_refused (k k' : K) f offset size kind err : is_open f = true -> 0 <= offset <= off_max -> 0 <= size <= off_max ->
  err = EACCES \/ err = EAGAIN ->
  os_fcntl (file_ f) F_SETLK (match kind with shared_read => F_RDLCK | exclusive_write => F_WRLCK end) offset SEEK_SET size k = (inr err, k') ->
  fh_lock offset size kind non_blocking (k, f) = (Ok false, (k', f)).
Proof.
  intros Ho Hof Hs Herr E. unfold fh_lock. rewrite !Z.gtb_ltb, !(proj2 (Z.ltb_ge _ _)) by lia. cbn [orb].
  rewrite (bind_ok _ _ _ tt (k, f)) by (by apply ensure_open_ok). rewrite handle_ok. rewrite (bind_ok _ _ _ (inr err) (k', f)).
  - by destruct Herr as [-> | ->].
  - unfold call. by rewrite E.
Qed.
End errors.

(** ** A disk

    An operating system with files by name, open descriptors with positions, and a limit of the size of a file, on which the
    definitions run. *)

Record disk := mk_disk {
  d_names : gmap (list Z) nat;
  d_files : gmap nat (list Z);
  d_fds : gmap Z (nat * nat * bool);
  d_next : nat;
  d_limit : nat }.

Definition ENOSPC : errno := other_errno 28.
Definition EBADF : errno := other_errno 9.

(** A call on an open descriptor *)
Definition on_fd {A} (fd : Z) (g : disk -> nat -> nat -> bool -> list Z -> (A + errno) * disk) : syscall disk A :=
  fun d => match d_fds d !! fd with
           | None => (inr EBADF, d)
           | Some (id, p, w) => match d_files d !! id with None => (inr EBADF, d) | Some c => g d id p w c end
           end.
Definition set_fd (d : disk) (fd : Z) (id p : nat) (w : bool) (c : list Z) : disk :=
  mk_disk (d_names d) (<[id := c]> (d_files d)) (<[fd := (id, p, w)]> (d_fds d)) (d_next d) (d_limit d).
Definition has_flag (f : open_flag) (l : list open_flag) : bool := existsb (fun g => match f, g with O_RDWR, O_RDWR | O_CREAT, O_CREAT | O_EXCL, O_EXCL | O_RDONLY, O_RDONLY => true | _, _ => false end) l.
Definition new_fd (d : disk) (names : gmap (list Z) nat) (files : gmap nat (list Z)) (id : nat) (w : bool) : (Z + errno) * disk :=
  (inl (Z.of_nat (d_next d)), mk_disk names files (<[Z.of_nat (d_next d) := (id, 0%nat, w)]> (d_fds d)) (S (d_next d)) (d_limit d)).
Definition disk_open (path : list Z) (flags : list open_flag) (mode : Z) : syscall disk Z :=
  fun d => match d_names d !! path with
           | Some id => if has_flag O_CREAT flags && has_flag O_EXCL flags then (inr EEXIST, d)
                        else new_fd d (d_names d) (d_files d) id (has_flag O_RDWR flags)
           | None => if has_flag O_CREAT flags
                     then new_fd d (<[path := d_next d]> (d_names d)) (<[d_next d := []]> (d_files d)) (d_next d) (has_flag O_RDWR flags)
                     else (inr ENOENT, d)
           end.
Definition set_names (d : disk) (names : gmap (list Z) nat) : disk := mk_disk names (d_files d) (d_fds d) (d_next d) (d_limit d).
Definition disk_unlink (path : list Z) : syscall disk unit :=
  fun d => match d_names d !! path with None => (inr ENOENT, d) | Some _ => (inl tt, set_names d (delete path (d_names d))) end.
Definition disk_link (old_path new_path : list Z) : syscall disk unit :=
  fun d => match d_names d !! old_path, d_names d !! new_path with
           | None, _ => (inr ENOENT, d)
           | _, Some _ => (inr EEXIST, d)
           | Some id, None => (inl tt, set_names d (<[new_path := id]> (d_names d)))
           end.
Definition disk_access (path : list Z) : syscall disk unit :=
  fun d => match d_names d !! path with None => (inr ENOENT, d) | Some _ => (inl tt, d) end.
Definition disk_rename (old_path new_path : list Z) : syscall disk unit :=
  fun d => match d_names d !! old_path with
           | None => (inr ENOENT, d)
           | Some id => (inl tt, set_names d (<[new_path := id]> (delete old_path (d_names d))))
           end.
Definition disk_rename2 (old_path new_path : list Z) : syscall disk unit :=
  fun d => match d_names d !! new_path with Some _ => match d_names d !! old_path with Some _ => (inr EEXIST, d) | None => (inr ENOENT, d) end | None => disk_rename old_path new_path d end.

(** The system may have the call that renames without replacing, and links may be allowed or not. *)
Definition disk_posix (has_renameat2 links_allowed : bool) : Posix disk := {|
  os_open := disk_open;
  os_mkstemp template d := let '(r, d) := disk_open template [O_RDWR; O_CREAT; O_EXCL] 0 d in ((r, template), d);
  os_close fd d := match d_fds d !! fd with
                   | None => (inr EBADF, d)
                   | Some _ => (inl tt, mk_disk (d_names d) (d_files d) (delete fd (d_fds d)) (d_next d) (d_limit d))
                   end;
  os_lseek fd n w := on_fd fd (fun d id p wr c =>
                       let q := match w with SEEK_SET => n | SEEK_CUR => Z.of_nat p + n end in
                       if q <? 0 then (inr EINVAL, d) else (inl q, set_fd d fd id (Z.to_nat q) wr c));
  os_read fd n := on_fd fd (fun d id p w c => let bs := take (Z.to_nat n) (drop p c) in (inl bs, set_fd d fd id (p + length bs) w c));
  os_write fd bs := on_fd fd (fun d id p w c =>
                      if negb w then (inr EBADF, d)
                      else if (d_limit d <? p + length bs)%nat then (inr ENOSPC, d)
                      else (inl (Z.of_nat (length bs)), set_fd d fd id (p + length bs) w (overwrite (c ++ replicate (p - length c) 0) p bs)));
  os_fstat_size fd := on_fd fd (fun d id p w c => (inl (Z.of_nat (length c)), d));
  os_stat_times path d := match d_names d !! path with None => (inr ENOENT, d) | Some _ => (inl (0, 0, 0), d) end;
  os_ftruncate fd n := on_fd fd (fun d id p w c =>
                         if negb w then (inr EBADF, d)
                         else if (d_limit d <? Z.to_nat n)%nat then (inr ENOSPC, d)
                         else (inl tt, set_fd d fd id p w (take (Z.to_nat n) c ++ replicate (Z.to_nat n - length c) 0)));
  os_fcntl fd cmd type offset w len := on_fd fd (fun d id p wr c => (inl tt, d));
  os_unlink := disk_unlink;
  os_access := disk_access;
  os_linkat o n := if links_allowed then disk_link o n else fun d => (inr EPERM, d);
  os_faccessat := disk_access;
  os_renameat := disk_rename;
  os_renameat2 := if has_renameat2 then Some disk_rename2 else None;
  os_getenv name d := None |}.

Definition disk_file (d : disk) (fd : Z) : option (list Z * nat) :=
  match d_fds d !! fd with
  | Some (id, p, _) =>
      match d_files d !! id with
      | Some c => if decide ((length c <= d_limit d)%nat /\ Z.of_nat (d_limit d) <= off_max) then Some (c, p) else None
      | None => None
      end
  | None => None
  end.
Definition disk_writing (d : disk) (fd : Z) : Prop := match d_fds d !! fd with Some (_, _, w) => w = true | None => False end.
Definition disk_room (d : disk) : nat := if decide (Z.of_nat (d_limit d) <= off_max) then d_limit d else 0.

Lemma disk_file_inv d fd c p : disk_file d fd = Some (c, p) ->
  exists id w, d_fds d !! fd = Some (id, p, w) /\ d_files d !! id = Some c /\ (length c <= d_limit d)%nat /\ Z.of_nat (d_limit d) <= off_max.
Proof.
  unfold disk_file. destruct (d_fds d !! fd) as [[[id p'] w]|]; [|done]. destruct (d_files d !! id) as [c'|] eqn:E; [|done].
  case_decide as Hl; [|done]. intros [= -> ->]. destruct Hl. eauto 6.
Qed.

Lemma set_fd_file d fd id p w c : (length c <= d_limit d)%nat -> Z.of_nat (d_limit d) <= off_max -> disk_file (set_fd d fd id p w c) fd = Some (c, p).
Proof. intros Hc Hl. unfold disk_file, set_fd. cbn. rewrite !lookup_insert_eq. by rewrite decide_True. Qed.

Lemma on_fd_open {A} d fd id p w c (g : disk -> nat -> nat -> bool -> list Z -> (A + errno) * disk) :
  d_fds d !! fd = Some (id, p, w) -> d_files d !! id = Some c -> on_fd fd g d = g d id p w c.
Proof. intros Hf Hc. unfold on_fd. by rewrite Hf, Hc. Qed.

Lemma set_fd_keeps d fd id p p' w c : d_fds d !! fd = Some (id, p, w) ->
  disk_room (set_fd d fd id p' w c) = disk_room d /\ (disk_writing d fd -> disk_writing (set_fd d fd id p' w c) fd).
Proof. intros Hf. split; [done|]. unfold disk_writing, set_fd. cbn. by rewrite lookup_insert_eq, Hf. Qed.

#[export] Instance disk_laws has_renameat2 links_allowed : @PosixLaws disk (disk_posix has_renameat2 links_allowed).
Proof.
  refine (Build_PosixLaws disk (disk_posix has_renameat2 links_allowed) disk_file disk_writing (fun d _ => disk_room d) _ _ _ _ _ _ _).
  - intros d fd c p n Hf Hn. destruct (disk_file_inv d fd c p Hf) as (id & w & Hfd & Hid & Hc & Hl). cbn [os_read disk_posix].
    rewrite (on_fd_open d fd id p w c _ Hfd Hid). rewrite Nat2Z.id. eexists. split; [done|]. split; [by apply set_fd_file|by eapply set_fd_keeps].
  - intros d fd c p bs Hf Hw Hp Hr. destruct (disk_file_inv d fd c p Hf) as (id & w & Hfd & Hid & Hc & Hl). cbn [os_write disk_posix].
    rewrite (on_fd_open d fd id p w c _ Hfd Hid). unfold disk_writing in Hw. rewrite Hfd in Hw. subst w. cbn [negb].
    unfold disk_room in Hr. rewrite decide_True in Hr by done. rewrite (proj2 (Nat.ltb_ge _ _)) by lia.
    replace (p - length c)%nat with 0%nat by lia. cbn [replicate]. rewrite app_nil_r. eexists. split; [done|].
    split; [apply set_fd_file; [|done]|by eapply set_fd_keeps]. unfold overwrite. rewrite !length_app, length_take, length_drop. lia.
  - intros d fd c p q Hf Hq. destruct (disk_file_inv d fd c p Hf) as (id & w & Hfd & Hid & Hc & Hl). cbn [os_lseek disk_posix].
    rewrite (on_fd_open d fd id p w c _ Hfd Hid). cbn zeta. rewrite (proj2 (Z.ltb_ge _ _)) by lia. rewrite Nat2Z.id.
    eexists. split; [done|]. split; [by apply set_fd_file|by eapply set_fd_keeps].
  - intros d fd c p Hf. destruct (disk_file_inv d fd c p Hf) as (id & w & Hfd & Hid & Hc & Hl). cbn [os_lseek disk_posix].
    rewrite (on_fd_open d fd id p w c _ Hfd Hid). cbn zeta. rewrite Z.add_0_r, (proj2 (Z.ltb_ge _ _)) by lia. rewrite Nat2Z.id.
    eexists. split; [done|]. split; [by apply set_fd_file|by eapply set_fd_keeps].
  - intros d fd c p n Hf Hw Hr. destruct (disk_file_inv d fd c p Hf) as (id & w & Hfd & Hid & Hc & Hl). cbn [os_ftruncate disk_posix].
    rewrite (on_fd_open d fd id p w c _ Hfd Hid). unfold disk_writing in Hw. rewrite Hfd in Hw. subst w. cbn [negb].
    unfold disk_room in Hr. rewrite decide_True in Hr by done. rewrite Nat2Z.id, (proj2 (Nat.ltb_ge _ _)) by lia. eexists. split; [done|].
    split; [apply set_fd_file; [|done]|by eapply set_fd_keeps]. rewrite length_app, length_take, length_replicate. lia.
  - intros d fd. unfold disk_room. case_decide; [done|]. unfold off_max. lia.
  - intros d fd c p Hf. destruct (disk_file_inv d fd c p Hf) as (id & w & _ & _ & Hc & Hl). unfold disk_room. by rewrite decide_True.
Defined.

(** Whichever way the system offers, renaming moves the name and never replaces a file. *)
Lemma rename_noreplace_ok b l d old_path new_path id : d_names d !! old_path = Some id ->
  rename_noreplace (H := disk_posix b l) old_path new_path d =
    match d_names d !! new_path with
    | Some _ => (inr EEXIST, d)
    | None => (inl tt, set_names d (<[new_path := id]> (delete old_path (d_names d))))
    end.
Proof.
  intros Ho. unfold rename_noreplace. cbn [os_renameat2 os_linkat os_unlink os_faccessat os_renameat disk_posix].
  destruct b; unfold disk_rename2, disk_rename, disk_access, disk_link, disk_unlink.
  - rewrite Ho. by destruct (d_names d !! new_path).
  - cbn [is_unavailable negb]. destruct l.
    + rewrite Ho. destruct (d_names d !! new_path) eqn:En; [done|]. cbn [set_names d_names].
      assert (old_path <> new_path) as Hne by (intros ->; congruence). rewrite lookup_insert_ne by done. rewrite Ho. unfold set_names. cbn.
      by rewrite delete_insert_ne by done.
    + cbn. destruct (d_names d !! new_path) eqn:En; [done|]. by rewrite Ho.
Qed.

(** Together: a value written to a new file of a disk is read back. *)
Lemma disk_value_roundtrip b l {T} `{LayoutLaws T} (x : T) path (d : disk) : let _ := disk_posix b l in
  d_names d !! path = None -> representable x -> (sizeof T <= d_limit d)%nat -> Z.of_nat (d_limit d) <= off_max ->
  wp (fh_open create_new read_write must_exist ;;; write x ;;; seek 0 ;;; read) (fun y _ => y = x) (d, new_handle path).
Proof.
  intros P Hn Hx Hs Hl. apply wp_bind. set (d' := (disk_open path [O_RDWR; O_CREAT; O_EXCL] 438 d).2).
  set (f := mk_fh path (Z.of_nat (d_next d)) true).
  assert (disk_open path [O_RDWR; O_CREAT; O_EXCL] 438 d = (inl (Z.of_nat (d_next d)), d')) as E by (unfold d', disk_open; by rewrite Hn).
  eapply wp_eq; [exact (fh_open_ok d d' path create_new read_write must_exist _ E)|]. cbn beta iota.
  assert (disk_file d' (Z.of_nat (d_next d)) = Some ([], 0%nat)) as Hf.
  { unfold d', disk_open. rewrite Hn. unfold disk_file. cbn. rewrite !lookup_insert_eq. rewrite decide_True; [done|]. split; [apply Nat.le_0_l|exact Hl]. }
  assert (open_file (fst (d', f)) (file_ (snd (d', f))) = Some ([], 0%nat)) as Hf' by exact Hf.
  assert (fh_position (d', f) = 0%nat) as Hp by (unfold fh_position; by rewrite Hf').
  assert (is_open f = true) as Ho by (unfold is_open; cbn; by destruct (Z.of_nat (d_next d)) eqn:Ez; [|done|lia]).
  assert (fh_valid (d', f)) as Hv by (split; [done|by exists [], 0%nat]).
  assert (fh_can_write (d', f)) as Hw.
  { split; [done|]. cbn. unfold disk_writing, d', disk_open. rewrite Hn. cbn. by rewrite lookup_insert_eq. }
  assert (disk_room d' = d_limit d) as Hr.
  { unfold disk_room, d', disk_open. rewrite Hn. cbn. by rewrite decide_True. }
  pose proof (value_roundtrip (F := disk * file_handle) (d', f) x Hv Hw Hx) as Hrt. cbn [position posix_laws capacity fst] in Hrt. rewrite Hp in Hrt.
  eapply wp_mono; [apply Hrt|].
  - cbn. lia.
  - unfold off_max in Hl. lia.
  - by intros y s' [-> _].
Qed.
