(* ===== verification/Serialize.v ===== *)
(** * Serialization: writers, readers and serializers

    Models include/pstore/serialize/common.hpp, archive.hpp, types.hpp and standard_types.hpp. An
    archive-writer is [writer_base] over a policy, an instance of the class [Policy]: a vector, a
    buffer or nothing. An archive-reader is an instance of [Reader]. A serializer is an instance of
    [Serializer], whose operations work with any policy and any reader. What each promises to the
    others are the classes [PolicyLaws], [ReaderLaws] and [SerializerLaws]. A value of a
    standard-layout type is seen by an archive as the octets of its representation. *)

From S2P Require Import Prelude Varint FileHeader Memory.

(** ** The first value of a series *)

(** [sticky_assign] *)
Record sticky_assign (R : Type) := mk_sticky { t_ : R; is_first_ : bool }.
Arguments mk_sticky {R} _ _.
Arguments t_ {R} _.
Arguments is_first_ {R} _.

Definition sticky_set {R} (s : sticky_assign R) (rhs : R) : sticky_assign R :=
  if is_first_ s then mk_sticky rhs false else s.

(** A loop that runs an operation on every element and keeps its first result; [d] is the value
    that [T t_{}] has. *)
Fixpoint sticky_loop {S R X} (d : sticky_assign R) (f : X -> M S R) (l : list X) : M S R :=
  match l with
  | [] => ret (t_ d)
  | x :: l => r <- f x ;; sticky_loop (sticky_set d r) f l
  end.

(** ** Writers *)

(** What a policy provides: [put], [flush] and, possibly, [putn] and [bytes_produced] *)
Class Policy (P R : Type) := {
  policy_put : list Z -> M P R;
  policy_putn : option (list (list Z) -> M P R);
  policy_flush : M P unit;
  policy_bytes_produced : option (P -> Z);
  result_default : R }.

(** [writer_base] *)
Record writer_base (P : Type) := mk_writer { policy_ : P; bytes_consumed_ : Z; flushed_ : bool }.
Arguments mk_writer {P} _ _ _.
Arguments policy_ {P} _.
Arguments bytes_consumed_ {P} _.
Arguments flushed_ {P} _.

Section writer.
Context {P R : Type} `{Policy P R}.

Definition new_writer (p : P) : writer_base P := mk_writer p 0 false.

Definition on_policy {A} (m : M P A) : M (writer_base P) A :=
  fun w => let '(r, p) := m (policy_ w) in (r, mk_writer p (bytes_consumed_ w) (flushed_ w)).

Definition consume (n : Z) : M (writer_base P) unit :=
  modify (fun w => mk_writer (policy_ w) (wrap64 (bytes_consumed_ w + n)) (flushed_ w)).

(** [writer_base::put] *)
Definition writer_put (t : list Z) : M (writer_base P) R :=
  flushed <- gets flushed_ ;;
  massert (negb flushed) ;;;
  r <- on_policy (policy_put t) ;;
  consume (Z.of_nat (length t)) ;;;
  ret r.

(** [putn_helper]: the policy's [putn] where there is one *)
Definition putn_helper (sp : list (list Z)) : M P R :=
  match policy_putn with
  | Some putn => putn sp
  | None => sticky_loop (mk_sticky result_default true) policy_put sp
  end.

(** [writer_base::putn] *)
Definition writer_putn (sp : list (list Z)) : M (writer_base P) R :=
  flushed <- gets flushed_ ;;
  massert (negb flushed) ;;;
  r <- on_policy (putn_helper sp) ;;
  consume (Z.of_nat (length (concat sp))) ;;;
  ret r.

(** [writer_base::flush] *)
Definition writer_flush : M (writer_base P) unit :=
  flushed <- gets flushed_ ;;
  if flushed then ret tt
  else on_policy policy_flush ;;; modify (fun w => mk_writer (policy_ w) (bytes_consumed_ w) true).

(** [writer_base::bytes_produced] *)
Definition bytes_produced (w : writer_base P) : Z :=
  match policy_bytes_produced with Some f => f (policy_ w) | None => bytes_consumed_ w end.
End writer.

(** [vector_writer_policy]: the state is the vector it refers to; a result is a size before the
    octets were appended. *)
Definition vector_put (t : list Z) : M (list Z) Z :=
  fun bytes => (Ok (Z.of_nat (length bytes)), bytes ++ t).
Definition vector_putn (sp : list (list Z)) : M (list Z) Z :=
  fun bytes => (Ok (Z.of_nat (length bytes)), bytes ++ concat sp).
#[export] Instance vector_writer_policy : Policy (list Z) Z := {|
  policy_put := vector_put; policy_putn := Some vector_putn; policy_flush := ret tt;
  policy_bytes_produced := None; result_default := 0 |}.

(** [buffer_writer_policy]: the octets from [begin_] to [end_], and the distance of [it_] from
    [begin_]. A result is such a distance, or [None] for a null pointer. *)
Record buffer_writer_policy := mk_buffer { buffer_ : list Z; it_ : nat }.

Definition buffer_put (v : list Z) : M buffer_writer_policy (option nat) :=
  b <- Prelude.get ;;
  massert (bool_decide (it_ b + length v <= length (buffer_ b))%nat) ;;;
  Prelude.put (mk_buffer (take (it_ b) (buffer_ b) ++ v ++ drop (it_ b + length v) (buffer_ b)) (it_ b + length v)) ;;;
  b' <- Prelude.get ;;
  massert (bool_decide (it_ b' <= length (buffer_ b'))%nat) ;;;
  ret (Some (it_ b)).
Definition buffer_size (b : buffer_writer_policy) : nat := it_ b.
#[export] Instance buffer_policy : Policy buffer_writer_policy (option nat) := {|
  policy_put := buffer_put; policy_putn := None; policy_flush := ret tt;
  policy_bytes_produced := None; result_default := None |}.

(** [null_policy] *)
#[export] Instance null_policy : Policy unit unit := {|
  policy_put := fun _ => ret tt; policy_putn := Some (fun _ => ret tt); policy_flush := ret tt;
  policy_bytes_produced := None; result_default := tt |}.

(** ** Readers *)

(** What a reader provides: [get], which fills an object of a size, and, possibly, [getn] *)
Class Reader (A : Type) := {
  reader_get : nat -> M A (list Z);
  reader_getn : option (nat -> M A (list Z)) }.

(** [range_reader]: the state is the sequence from the iterator on. *)
Fixpoint range_get (n : nat) : M (list Z) (list Z) :=
  match n with
  | O => ret []
  | S n => fun first =>
      match first with
      | [] => (Throw Dangling, first)
      | b :: first => (bs <- range_get n ;; ret (b :: bs)) first
      end
  end.
#[export] Instance range_reader : Reader (list Z) := {| reader_get := range_get; reader_getn := Some range_get |}.

(** [buffer_reader]: the octets from [first_] to [last_]. *)
Definition buffer_reader_get (size : nat) : M (list Z) (list Z) :=
  first <- Prelude.get ;;
  if bool_decide (length first < size)%nat then throw (RaiseErrc no_buffer_space)
  else Prelude.put (drop size first) ;;; ret (take size first).

(** ** Serializers *)

(** [serializer<Ty>]: [write] and [read] and, possibly, [writen] and [readn] *)
Class Serializer (T : Type) := {
  sz_write : forall {P R} `{Policy P R}, T -> M (writer_base P) R;
  sz_writen : forall {P R} `{Policy P R}, option (list T -> M (writer_base P) R);
  sz_read : forall {A} `{Reader A}, M A T;
  sz_readn : forall {A} `{Reader A}, option (nat -> M A (list T)) }.

(** A loop that reads as many values as asked for *)
Fixpoint read_loop {A T} (n : nat) (m : M A T) : M A (list T) :=
  match n with
  | O => ret []
  | S n => x <- m ;; l <- read_loop n m ;; ret (x :: l)
  end.

Section span.
Context {T : Type} `{Serializer T}.

(** [write] of a span: [writen_helper] *)
Definition write_span {P R} `{Policy P R} (sp : list T) : M (writer_base P) R :=
  match sz_writen with
  | Some writen => writen sp
  | None => sticky_loop (mk_sticky result_default true) sz_write sp
  end.
(** [read_uninit] of a span: [readn_helper] *)
Definition read_span {A} `{Reader A} (n : nat) : M A (list T) :=
  match sz_readn with
  | Some readn => readn n
  | None => read_loop n sz_read
  end.
End span.

(** Trivial types, whose layout is given: [getn_helper] uses the archive's [getn] where there is
    one. *)
Fixpoint chunks (size n : nat) (bs : list Z) : list (list Z) :=
  match n with
  | O => []
  | S n => take size bs :: chunks size n (drop size bs)
  end.

Definition getn_helper {A} `{Reader A} (size n : nat) : M A (list (list Z)) :=
  match reader_getn with
  | Some getn => bs <- getn (n * size)%nat ;; ret (chunks size n bs)
  | None => read_loop n (reader_get size)
  end.

Definition trivial_serializer {T} (L : Layout T) : Serializer T := {|
  sz_write := fun P R _ v => writer_put (encode v);
  sz_writen := fun P R _ => Some (fun span => writer_putn (encode <$> span));
  sz_read := fun A _ => bs <- reader_get (sizeof T) ;; ret (decode bs);
  sz_readn := fun A _ => Some (fun n => l <- getn_helper (sizeof T) n ;; ret (decode <$> l)) |}.

#[export] Instance size_t_serializer : Serializer Z := trivial_serializer (uint_layout 8).
Definition octet_serializer : Serializer Z := trivial_serializer (uint_layout 1).

(** [std::string], by [string_helper] *)
Record std_string := mk_string { chars : list Z }.

Definition string_helper_write {P R} `{Policy P R} (str : std_string) : M (writer_base P) R :=
  let length := Z.of_nat (List.length (chars str)) in
  encoded_length <- lift (Varint.encode length) ;;
  let length_bytes := Z.of_nat (List.length encoded_length) in
  massert ((length_bytes >? 0) && (length_bytes <=? max_output_length)) ;;;
  let encoded_length := if length_bytes =? 1 then encoded_length ++ [0] else encoded_length in
  resl <- write_span (H := octet_serializer) encoded_length ;;
  _ <- write_span (H := octet_serializer) (chars str) ;;
  ret resl.

Definition string_helper_read_length {A} `{Reader A} : M A Z :=
  encoded_length <- read_span (H := octet_serializer) 2 ;;
  varint_length <- lift (decode_size encoded_length) ;;
  massert (varint_length >? 0) ;;;
  encoded_length <- (if varint_length >? 2 then
                       massert (varint_length <=? max_output_length) ;;;
                       more <- read_span (H := octet_serializer) (Z.to_nat (varint_length - 2)) ;;
                       ret (encoded_length ++ more)
                     else ret encoded_length) ;;
  lift (decode_n encoded_length varint_length).

Definition string_serializer_read {A} `{Reader A} : M A std_string :=
  length <- string_helper_read_length ;;
  data <- read_span (H := octet_serializer) (Z.to_nat length) ;;
  ret (mk_string data).

#[export] Instance string_serializer : Serializer std_string := {|
  sz_write := fun P R _ => string_helper_write;
  sz_writen := fun P R _ => None;
  sz_read := fun A _ => string_serializer_read;
  sz_readn := fun A _ => None |}.

(** [std::pair<T,U>] *)
#[export] Instance pair_serializer {T U} `{Serializer T, Serializer U} : Serializer (T * U) := {|
  sz_write := fun P R _ value =>
    result <- sz_write value.1 ;; _ <- sz_write value.2 ;; ret result;
  sz_writen := fun P R _ => None;
  sz_read := fun A _ => first <- sz_read ;; second <- sz_read ;; ret (first, second);
  sz_readn := fun A _ => None |}.

(** [write (archive, ty, args...)] of values of a type *)
Fixpoint write_all {T} `{Serializer T} {P R} `{Policy P R} (ty : T) (args : list T) : M (writer_base P) R :=
  match args with
  | [] => sz_write ty
  | a :: args => result <- sz_write ty ;; _ <- write_all a args ;; ret result
  end.

(** [write_range] and [read_range] *)
Definition write_range {T} `{Serializer T} {P R} `{Policy P R} (l : list T) : M (writer_base P) unit :=
  _ <- sz_write (Z.of_nat (length l)) ;;
  foldr (fun value k => _ <- sz_write value ;; k) (ret tt) l.
Definition read_range {T} `{Serializer T} {A} `{Reader A} : M A (list T) :=
  distance <- sz_read ;; read_loop (Z.to_nat distance) sz_read.

(** [container_archive_helper]: a container is written as the sequence that its iteration gives,
    and is read by inserting one value after the other. *)
Definition container_write {T} `{Serializer T} {P R} `{Policy P R} (ty : list T) : M (writer_base P) R :=
  result <- sz_write (Z.of_nat (length ty)) ;;
  foldr (fun m k => _ <- sz_write m ;; k) (ret tt) ty ;;;
  ret result.

Fixpoint insert_loop {T C} `{Serializer T} {A} `{Reader A} (n : nat) (inserter : T -> C -> C) (c : C) : M A C :=
  match n with
  | O => ret c
  | S n => v <- sz_read ;; insert_loop n inserter (inserter v c)
  end.
Definition container_read {T C} `{Serializer T} {A} `{Reader A} (inserter : T -> C -> C) (c : C) : M A C :=
  num_members <- sz_read ;; insert_loop (Z.to_nat num_members) inserter c.

(** [flood]: the pattern that fills a buffer before it is read into *)
Fixpoint flood_words (n : nat) : list Z :=
  match n with O => [] | S n => 222 :: 173 :: 190 :: 239 :: flood_words n end.
Definition flood (size : nat) : list Z :=
  flood_words (size / 4) ++ take (size mod 4) [222; 173; 190; 239].

(** ** What the components promise *)

(** A policy appends: [contents] is what was written, [accepts p n] tells that [n] more octets
    fit, and [locate p] is the result of writing something at [p]. *)
Class PolicyLaws (P R : Type) `{Policy P R} := {
  contents : P -> list Z;
  accepts : P -> nat -> Prop;
  locate : P -> R;
  accepts_le : forall p m n, accepts p n -> (m <= n)%nat -> accepts p m;
  policy_put_ok : forall bs p, accepts p (length bs) ->
    wp (policy_put bs) (fun r p' =>
      r = locate p /\ contents p' = contents p ++ bs /\
      forall n, accepts p (length bs + n) -> accepts p' n) p;
  policy_putn_ok : forall putn sp p, policy_putn = Some putn -> accepts p (length (concat sp)) ->
    wp (putn sp) (fun r p' =>
      r = locate p /\ contents p' = contents p ++ concat sp /\
      forall n, accepts p (length (concat sp) + n) -> accepts p' n) p }.

(** A reader takes octets from the front of what is [available]. *)
Class ReaderLaws (A : Type) `{Reader A} := {
  available : A -> list Z;
  reader_get_ok : forall bs rest a, available a = bs ++ rest ->
    wp (reader_get (length bs)) (fun r a' => r = bs /\ available a' = rest) a;
  reader_getn_ok : forall getn bs rest a, reader_getn = Some getn -> available a = bs ++ rest ->
    wp (getn (length bs)) (fun r a' => r = bs /\ available a' = rest) a }.

Section written.
Context {P R : Type} `{Policy P R} {PL : PolicyLaws P R}.

(** From [w] to [w'] the octets [bs] were written. *)
Definition written (w : writer_base P) (bs : list Z) (w' : writer_base P) : Prop :=
  contents (policy_ w') = contents (policy_ w) ++ bs /\ flushed_ w' = flushed_ w /\
  (0 <= bytes_consumed_ w < 2 ^ 64 ->
   bytes_consumed_ w' = wrap64 (bytes_consumed_ w + Z.of_nat (length bs))) /\
  forall n, accepts (policy_ w) (length bs + n) -> accepts (policy_ w') n.

(** The writer can take the octets. *)
Definition can_write (w : writer_base P) (bs : list Z) : Prop :=
  flushed_ w = false /\ accepts (policy_ w) (length bs).

(** An operation that writes octets; its result tells where, if there are any. *)
Definition writes (m : M (writer_base P) R) (bs : list Z) : Prop :=
  forall w, can_write w bs ->
    wp m (fun r w' => (bs <> [] -> r = locate (policy_ w)) /\ written w bs w') w.
End written.

(** An operation that reads a value from its octets *)
Definition reads {A T} `{Reader A} {AL : ReaderLaws A} (m : M A T) (bs : list Z) (v : T) : Prop :=
  forall a rest, available a = bs ++ rest -> wp m (fun r a' => r = v /\ available a' = rest) a.

(** A serializer writes the [image] of a value and reads a value back from its image. *)
Class SerializerLaws (T : Type) `{Serializer T} := {
  storable : T -> Prop;
  image : T -> list Z;
  image_nonempty : forall v, image v <> [];
  sz_write_ok : forall P R `{Policy P R} {PL : PolicyLaws P R} v, storable v ->
    writes (sz_write v) (image v);
  sz_writen_ok : forall P R `{Policy P R} {PL : PolicyLaws P R} writen l, sz_writen = Some writen ->
    Forall storable l -> writes (writen l) (concat (image <$> l));
  sz_read_ok : forall A `{Reader A} {AL : ReaderLaws A} v, storable v -> reads sz_read (image v) v;
  sz_readn_ok : forall A `{Reader A} {AL : ReaderLaws A} readn l, sz_readn = Some readn ->
    Forall storable l -> reads (readn (length l)) (concat (image <$> l)) l }.

(** ** Operations of writers *)

Lemma on_policy_wp {P A} (m : M P A) Q w :
  wp m (fun r p => Q r (mk_writer p (bytes_consumed_ w) (flushed_ w))) (policy_ w) -> wp (on_policy m) Q w.
Proof. unfold wp, on_policy. by destruct (m (policy_ w)) as [[] ?]. Qed.

(** A loop of operations that append, on any state where appending makes sense *)
Section sticky_facts.
Context {S R X : Type} (can : S -> list Z -> Prop) (did : S -> list Z -> S -> Prop) (loc : S -> R).
Hypothesis did_nil : forall s, did s [] s.
Hypothesis did_app : forall s1 s2 s3 bs1 bs2, did s1 bs1 s2 -> did s2 bs2 s3 -> did s1 (bs1 ++ bs2) s3.
Hypothesis can_front : forall s bs1 bs2, can s (bs1 ++ bs2) -> can s bs1.
Hypothesis can_app : forall s1 s2 bs1 bs2, can s1 (bs1 ++ bs2) -> did s1 bs1 s2 -> can s2 bs2.
Context (f : X -> M S R) (enc : X -> list Z).

Definition appends (x : X) : Prop :=
  enc x <> [] /\ forall s, can s (enc x) -> wp (f x) (fun r s' => r = loc s /\ did s (enc x) s') s.

Lemma stuck_loop_ok l d s : Forall appends l -> can s (concat (enc <$> l)) ->
  wp (sticky_loop (mk_sticky d false) f l) (fun r s' => r = d /\ did s (concat (enc <$> l)) s') s.
Proof.
  intros Hl. revert s. induction Hl as [|x l [_ Hx] Hl IH]; intros s Hs; cbn [sticky_loop].
  - wp_head. auto.
  - rewrite fmap_cons in *. cbn [concat] in *. wp_head. eapply wp_mono; [by eapply Hx, can_front|]. intros r s1 [_ Hd].
    change (sticky_set (mk_sticky d false) r) with (mk_sticky d false).
    eapply wp_mono; [by eapply IH, can_app|]. intros r' s2 [-> Hd2]. split; [done|]. by eapply did_app.
Qed.

Lemma sticky_loop_ok l d s : Forall appends l -> can s (concat (enc <$> l)) ->
  wp (sticky_loop (mk_sticky d true) f l)
    (fun r s' => (concat (enc <$> l) <> [] -> r = loc s) /\ did s (concat (enc <$> l)) s') s.
Proof.
  intros Hl Hs. destruct Hl as [|x l [Hne Hx] Hl]; cbn [sticky_loop].
  - wp_head. by split; [|apply did_nil].
  - rewrite fmap_cons in *. cbn [concat] in *. wp_head. eapply wp_mono; [by eapply Hx, can_front|]. intros r s1 [Hr Hd].
    change (sticky_set (mk_sticky d true) r) with (mk_sticky r false).
    eapply wp_mono; [by eapply stuck_loop_ok, can_app|]. intros r' s2 [-> Hd2].
    split; [auto|]. by eapply did_app.
Qed.
End sticky_facts.

Section writer_facts.
Context {P R : Type} `{Policy P R} {PL : PolicyLaws P R}.
Implicit Types w : writer_base P.

Lemma wrap64_add_mod x y z : wrap64 (wrap64 (x + y) + z) = wrap64 (x + (y + z)).
Proof. unfold wrap. rewrite Zplus_mod_idemp_l. f_equal. lia. Qed.

Lemma written_nil w : written w [] w.
Proof.
  split_and!; [by rewrite app_nil_r|done| |done]. intros Hb. cbn. rewrite Z.add_0_r. by rewrite wrap_small.
Qed.

Lemma written_app w1 w2 w3 bs1 bs2 : written w1 bs1 w2 -> written w2 bs2 w3 -> written w1 (bs1 ++ bs2) w3.
Proof.
  intros (Hc1 & Hf1 & Hb1 & Ha1) (Hc2 & Hf2 & Hb2 & Ha2). split_and!.
  - by rewrite Hc2, Hc1, app_assoc.
  - congruence.
  - intros Hb. rewrite Hb2; rewrite Hb1 by done; [|by apply wrap_range].
    rewrite wrap64_add_mod, length_app. f_equal. lia.
  - intros n Hn. apply Ha2, Ha1. by rewrite Nat.add_assoc, <- length_app.
Qed.

Lemma can_write_app w1 w2 bs1 bs2 : can_write w1 (bs1 ++ bs2) -> written w1 bs1 w2 -> can_write w2 bs2.
Proof.
  intros [Hf Ha] (_ & Hf2 & _ & Ha2). split; [congruence|]. apply Ha2. by rewrite <- length_app.
Qed.
Lemma can_write_front w bs1 bs2 : can_write w (bs1 ++ bs2) -> can_write w bs1.
Proof. intros [Hf Ha]. split; [done|]. eapply accepts_le; [done|]. rewrite length_app. lia. Qed.

Lemma writes_weaken m bs w Q : writes m bs -> can_write w bs ->
  (forall r w', (bs <> [] -> r = locate (policy_ w)) -> written w bs w' -> Q r w') -> wp m Q w.
Proof. intros Hm Hw HQ. eapply wp_mono; [by apply Hm|]. cbn. intros r w' [Hr Hw']. auto. Qed.

(** One operation after another; the result is that of the first. *)
Lemma writes_seq m1 m2 bs1 bs2 : bs1 <> [] -> writes m1 bs1 -> writes m2 bs2 ->
  writes (r <- m1 ;; _ <- m2 ;; ret r) (bs1 ++ bs2).
Proof.
  intros Hne H1 H2 w Hw. wp_head. eapply writes_weaken; [done|by eapply can_write_front|].
  intros r w1 Hr Hw1. wp_head. eapply writes_weaken; [done|by eapply can_write_app|].
  intros r2 w2 _ Hw2. wp_head. split; [auto|]. by eapply written_app.
Qed.

Lemma writer_put_ok bs : writes (writer_put bs) bs.
Proof.
  intros w [Hf Ha]. unfold writer_put. do 3 wp_head. wp_head; [by rewrite Hf|].
  wp_head. apply on_policy_wp. eapply wp_mono; [by apply policy_put_ok|].
  cbn beta. intros r p' (Hr & Hc & Hk). wp_head. unfold consume. wp_head. wp_head.
  split; [auto|]. by split_and!.
Qed.

(** What is written to a policy *)
Definition p_can (p : P) (bs : list Z) : Prop := accepts p (length bs).
Definition p_did (p : P) (bs : list Z) (p' : P) : Prop :=
  contents p' = contents p ++ bs /\ forall n, accepts p (length bs + n) -> accepts p' n.

Lemma p_did_nil p : p_did p [] p.
Proof. split; [by rewrite app_nil_r|done]. Qed.
Lemma p_did_app p1 p2 p3 bs1 bs2 : p_did p1 bs1 p2 -> p_did p2 bs2 p3 -> p_did p1 (bs1 ++ bs2) p3.
Proof.
  intros [Hc1 Ha1] [Hc2 Ha2]. split; [by rewrite Hc2, Hc1, app_assoc|].
  intros n Hn. apply Ha2, Ha1. by rewrite Nat.add_assoc, <- length_app.
Qed.
Lemma p_can_front p bs1 bs2 : p_can p (bs1 ++ bs2) -> p_can p bs1.
Proof. intros Ha. eapply accepts_le; [done|]. rewrite length_app. lia. Qed.
Lemma p_can_app p1 p2 bs1 bs2 : p_can p1 (bs1 ++ bs2) -> p_did p1 bs1 p2 -> p_can p2 bs2.
Proof. intros Hc [_ Ha]. apply Ha. by rewrite <- length_app. Qed.

(** With or without a [putn] of the policy, a span is written element after element. *)
Lemma putn_helper_ok sp p : Forall (fun bs => bs <> []) sp -> p_can p (concat sp) ->
  wp (putn_helper sp) (fun r p' => (concat sp <> [] -> r = locate p) /\ p_did p (concat sp) p') p.
Proof.
  intros Hne Hc. unfold putn_helper. destruct policy_putn as [putn|] eqn:Hp.
  - eapply wp_mono; [by apply policy_putn_ok|]. cbn. intros r p' (Hr & Hd & Hk). by split_and!.
  - pose proof (sticky_loop_ok p_can p_did locate p_did_nil p_did_app p_can_front p_can_app
                  policy_put id sp result_default p) as Hl.
    rewrite list_fmap_id in Hl. apply Hl; [|done].
    eapply Forall_impl; [done|]. intros bs Hbs. split; [done|]. intros q Hq.
    eapply wp_mono; [by apply policy_put_ok|]. cbn. intros r p' (Hr & Hd & Hk). by split_and!.
Qed.

Lemma writer_putn_ok sp : Forall (fun bs => bs <> []) sp -> writes (writer_putn sp) (concat sp).
Proof.
  intros Hne w [Hf Ha]. unfold writer_putn. do 3 wp_head. wp_head; [by rewrite Hf|].
  wp_head. apply on_policy_wp. eapply wp_mono; [by apply putn_helper_ok|].
  cbn beta. intros r p' (Hr & Hc & Hk). wp_head. unfold consume. wp_head. wp_head.
  split; [auto|]. by split_and!.
Qed.
End writer_facts.

(** ** The policies and the readers keep their promises *)

#[export] Instance vector_laws : PolicyLaws (list Z) Z.
Proof.
  refine {| contents := fun p => p; accepts := fun _ _ => True;
            locate := fun p => Z.of_nat (length p) |}; [done|done|].
  intros putn sp p [= <-] _. done.
Defined.

(** What was written to a buffer is what precedes [it_]. *)
#[export] Instance buffer_laws : PolicyLaws buffer_writer_policy (option nat).
Proof.
  refine {| contents := fun b => take (it_ b) (buffer_ b);
            accepts := fun b n => (it_ b + n <= length (buffer_ b))%nat;
            locate := fun b => Some (it_ b) |}; [lia| |done].
  intros bs b Hb. cbn [policy_put buffer_policy]. unfold buffer_put.
  assert (length (take (it_ b) (buffer_ b)) = it_ b) as Hlen by (rewrite length_take; lia).
  wp_head. apply (wp_eq _ b b b); [done|]. wp_head. wp_head; [by apply bool_decide_eq_true|].
  wp_head. eapply wp_eq; [done|]. wp_head. eapply wp_eq; [done|]. cbn beta.
  assert (length (take (it_ b) (buffer_ b) ++ bs ++ drop (it_ b + length bs) (buffer_ b)) = length (buffer_ b)) as Hall.
  { rewrite !length_app, Hlen, length_drop. lia. }
  wp_head. wp_head; [apply bool_decide_eq_true; cbn [it_ buffer_]; rewrite Hall; lia|].
  wp_head. cbn [it_ buffer_]. split_and!; [done| |].
  - rewrite app_assoc, take_app_le by (rewrite length_app; lia).
    rewrite take_ge; [done|]. rewrite length_app. lia.
  - intros n Hn. rewrite Hall. lia.
Defined.

Lemma range_get_app bs rest : range_get (length bs) (bs ++ rest) = (Ok bs, rest).
Proof.
  induction bs as [|b bs IH]; [done|]. cbn [length range_get app].
  by rewrite (bind_ok _ _ _ _ _ IH).
Qed.

#[export] Instance range_laws : ReaderLaws (list Z).
Proof.
  refine {| available := fun a => a |}.
  - intros bs rest a ->. eapply wp_eq; [apply range_get_app|done].
  - intros getn bs rest a [= <-] ->. eapply wp_eq; [apply range_get_app|done].
Defined.

(** Reading beyond the end of a buffer raises an error and nothing is consumed. *)
Lemma buffer_reader_spec size first :
  buffer_reader_get size first =
  if decide (length first < size)%nat then (Throw (RaiseErrc no_buffer_space), first)
  else (Ok (take size first), drop size first).
Proof.
  unfold buffer_reader_get, bind, Prelude.get.
  case_bool_decide; [rewrite decide_True by done|rewrite decide_False by done]; done.
Qed.

(** A buffer's writer asserts exactly when a value does not fit. *)
Lemma buffer_put_full v b : (it_ b <= length (buffer_ b))%nat ->
  (length (buffer_ b) < it_ b + length v)%nat <-> buffer_put v b = (Throw Assert, b).
Proof.
  intros Hb. split.
  - intros Hlt. unfold buffer_put, bind, Prelude.get, massert, lift.
    rewrite bool_decide_eq_false_2 by lia. done.
  - intros Hput. destruct (decide (length (buffer_ b) < it_ b + length v)%nat) as [|Hge]; [done|].
    assert (accepts b (length v)) as Ha by (cbn; lia).
    pose proof (policy_put_ok v b Ha) as Hw.
    unfold wp in Hw. cbn [policy_put buffer_policy] in Hw. by rewrite Hput in Hw.
Qed.

(** Nothing is kept by the null archive, which counts what it is given. *)
Lemma null_put_counts t w : flushed_ w = false ->
  writer_put (P := unit) t w = (Ok tt, mk_writer tt (wrap64 (bytes_consumed_ w + Z.of_nat (length t))) false).
Proof. destruct w as [[] c f]. cbn. by intros ->. Qed.

(** Nothing is written once an archive was flushed. *)
Lemma flushed_put {P R} `{Policy P R} t w : flushed_ w = true -> writer_put t w = (Throw Assert, w).
Proof. intros Hf. unfold writer_put. rewrite bind_gets, Hf. done. Qed.

(** ** The serializers keep their promises *)

Lemma reads_bind {A T U} `{Reader A} {AL : ReaderLaws A} (m : M A T) (f : T -> M A U) bs1 bs2 v u :
  reads m bs1 v -> reads (f v) bs2 u -> reads (x <- m ;; f x) (bs1 ++ bs2) u.
Proof.
  intros Hm Hf a rest Ha. wp_head. rewrite <- app_assoc in Ha.
  eapply wp_mono; [by apply Hm|]. cbn beta. intros r a' [-> Ha']. by apply Hf.
Qed.
Lemma reads_map {A T U} `{Reader A} {AL : ReaderLaws A} (m : M A T) (f : T -> U) bs v :
  reads m bs v -> reads (x <- m ;; ret (f x)) bs (f v).
Proof.
  intros Hm a rest Ha. wp_head. eapply wp_mono; [by apply Hm|]. cbn beta. intros r a' [-> Ha']. by apply wp_ret.
Qed.
Lemma reads_ret {A T} `{Reader A} {AL : ReaderLaws A} (v : T) : reads (ret (S := A) v) [] v.
Proof. intros a rest Ha. by apply wp_ret. Qed.

Lemma read_loop_ok {A T X} `{Reader A} {AL : ReaderLaws A} (m : M A T) (enc : X -> list Z) (val : X -> T) l :
  Forall (fun x => reads m (enc x) (val x)) l ->
  reads (read_loop (length l) m) (concat (enc <$> l)) (val <$> l).
Proof.
  induction 1 as [|x l Hx Hl IH]; cbn [length read_loop].
  - apply reads_ret.
  - rewrite !fmap_cons. cbn [concat]. eapply reads_bind; [exact Hx|]. by apply (reads_map _ (cons (val x))).
Qed.

Lemma chunks_concat size (ls : list (list Z)) : Forall (fun bs => length bs = size) ls ->
  chunks size (length ls) (concat ls) = ls.
Proof.
  induction 1 as [|bs ls <- Hls IH]; [done|]. cbn [length chunks concat].
  by rewrite take_app_length, drop_app_length, IH.
Qed.
Lemma concat_length size (ls : list (list Z)) : Forall (fun bs => length bs = size) ls ->
  length (concat ls) = (length ls * size)%nat.
Proof. induction 1 as [|bs ls Hb Hls IH]; [done|]. cbn [concat length]. rewrite length_app, IH, Hb. lia. Qed.

Lemma getn_helper_ok {A} `{Reader A} {AL : ReaderLaws A} size (ls : list (list Z)) :
  Forall (fun bs => length bs = size) ls -> reads (getn_helper size (length ls)) (concat ls) ls.
Proof.
  intros Hls. unfold getn_helper. destruct reader_getn as [getn|] eqn:Hg.
  - intros a rest Ha. wp_head. rewrite <- (concat_length size ls Hls).
    eapply wp_mono; [by eapply reader_getn_ok|]. cbn beta. intros r a' [-> Ha']. wp_head.
    by rewrite chunks_concat.
  - pose proof (read_loop_ok (reader_get size) id id ls) as Hl. rewrite !list_fmap_id in Hl. apply Hl.
    eapply Forall_impl; [done|]. cbn. intros bs <- a rest Ha. by apply reader_get_ok.
Qed.

Lemma encode_all_nonempty {T} {L : Layout T} {LL : LayoutLaws T} (l : list T) :
  Forall (fun bs => bs <> []) (encode <$> l) /\ Forall (fun bs => length bs = sizeof T) (encode <$> l).
Proof.
  split; apply Forall_fmap, Forall_forall; intros x _; cbn.
  - pose proof (length_encode x). pose proof (sizeof_pos (T := T)). intros E. rewrite E in *. cbn in *. lia.
  - apply length_encode.
Qed.

Definition trivial_laws {T} (L : Layout T) (LL : LayoutLaws T) : SerializerLaws T (H := trivial_serializer L).
Proof.
  refine {| storable := representable; image := encode |}; cbn.
  - intros v. destruct (encode_all_nonempty [v]) as [Hne _]. by apply Forall_cons in Hne as [? _].
  - intros. apply writer_put_ok.
  - intros * [= <-] _. apply writer_putn_ok, encode_all_nonempty.
  - intros * Hv. rewrite <- (decode_encode v Hv) at 2. apply reads_map.
    intros a rest Ha. rewrite <- (length_encode v). by apply reader_get_ok.
  - intros * [= <-] Hl. assert (decode <$> (encode <$> l) = l) as Hd.
    { rewrite <- list_fmap_compose. rewrite <- (list_fmap_id l) at 2. apply list_fmap_ext.
      intros i x Hx. apply (decode_encode x). by eapply Forall_lookup_1. }
    rewrite <- Hd at 3. apply reads_map. rewrite <- (length_fmap encode l).
    apply getn_helper_ok, encode_all_nonempty.
Defined.

#[export] Instance size_t_laws : SerializerLaws Z := trivial_laws (uint_layout 8) (uint_layout_laws 8 ltac:(lia)).
Definition octet_laws : SerializerLaws Z (H := octet_serializer) :=
  trivial_laws (uint_layout 1) (uint_layout_laws 1 ltac:(lia)).

Section span_facts.
Context {T : Type} `{Serializer T} {SL : SerializerLaws T}.

Lemma write_span_ok {P R} `{Policy P R} {PL : PolicyLaws P R} (l : list T) : Forall storable l ->
  writes (write_span l) (concat (image <$> l)).
Proof.
  intros Hl. unfold write_span. destruct sz_writen as [writen|] eqn:Hw; [by apply sz_writen_ok|].
  intros w Hc. apply (sticky_loop_ok can_write written (fun w => locate (policy_ w)));
    [apply written_nil|apply written_app|apply can_write_front|apply can_write_app| |done].
  eapply Forall_impl; [done|]. intros v Hv. pose proof (image_nonempty v) as Hne. split; [done|].
  intros w' Hw'. eapply wp_mono; [by eapply sz_write_ok|]. cbn. intros r w2 [Hr Hd]. auto.
Qed.

Lemma read_span_ok {A} `{Reader A} {AL : ReaderLaws A} (l : list T) : Forall storable l ->
  reads (read_span (length l)) (concat (image <$> l)) l.
Proof.
  intros Hl. unfold read_span. destruct sz_readn as [readn|] eqn:Hr; [by apply sz_readn_ok|].
  rewrite <- (list_fmap_id l) at 3. apply read_loop_ok.
  eapply Forall_impl; [done|]. intros v Hv. by apply sz_read_ok.
Qed.
End span_facts.

(** Octets are their own image. *)
Lemma octet_images (l : list Z) : Forall octet l -> concat (image (SerializerLaws := octet_laws) <$> l) = l.
Proof.
  induction 1 as [|b l Hb Hl IH]; [done|]. rewrite fmap_cons. cbn [concat]. rewrite IH.
  change (image (SerializerLaws := octet_laws) b) with (le_bytes 1 b). cbn [le_bytes].
  change 255 with (Z.ones 8). rewrite Z.land_ones by lia. unfold octet in Hb. by rewrite Z.mod_small by lia.
Qed.
Lemma octets_storable (l : list Z) : Forall octet l -> Forall (storable (SerializerLaws := octet_laws)) l.
Proof. intros Hl. eapply Forall_impl; [done|]. intros b Hb. exact Hb. Qed.

Lemma put_octets_ok {P R} `{Policy P R} {PL : PolicyLaws P R} (l : list Z) : Forall octet l ->
  writes (write_span (H := octet_serializer) l) l.
Proof.
  intros Hl. rewrite <- (octet_images l Hl) at 2.
  apply (write_span_ok (H := octet_serializer) (SL := octet_laws)). by apply octets_storable.
Qed.
Lemma get_octets_ok {A} `{Reader A} {AL : ReaderLaws A} (l : list Z) : Forall octet l ->
  reads (read_span (H := octet_serializer) (length l)) l l.
Proof.
  intros Hl. rewrite <- (octet_images l Hl) at 2.
  apply (read_span_ok (H := octet_serializer) (SL := octet_laws)). by apply octets_storable.
Qed.

(** *** Strings *)

Definition string_ok (str : std_string) : Prop :=
  Forall octet (chars str) /\ Z.of_nat (length (chars str)) < 2 ^ 64.
(** The octets of a string: its length, then its characters *)
Definition string_image (str : std_string) : list Z :=
  match length_octets (Z.of_nat (length (chars str))) with
  | Ok enc => enc ++ chars str
  | Throw _ => [0]
  end.

Lemma string_image_eq str : string_ok str -> exists enc, string_image str = enc ++ chars str /\
  length_octets (Z.of_nat (length (chars str))) = Ok enc /\ Forall octet enc /\ enc <> [].
Proof.
  intros [_ Hl]. destruct (length_octets_ok (Z.of_nat (length (chars str))) ltac:(lia)) as (enc & He & Hlen & _).
  exists enc. unfold string_image. rewrite He. split_and!; [done|done| |intros ->; cbn in Hlen; lia].
  eapply length_octets_octets; [|done]. lia.
Qed.

Lemma string_write_ok {P R} `{Policy P R} {PL : PolicyLaws P R} str : string_ok str ->
  writes (string_helper_write str) (string_image str).
Proof.
  intros Hs. destruct (string_image_eq str Hs) as (enc & -> & He & Ho & Hne). destruct Hs as [Hc Hl].
  intros w Hw. unfold string_helper_write. unfold length_octets in He.
  destruct (encode_spec (Z.of_nat (length (chars str))) ltac:(lia)) as (bs & n & E & _ & Hn & Hm & _).
  rewrite E in He |- *. cbn [obind] in He. injection He as He.
  do 2 wp_head. wp_head. wp_head. wp_head.
  { apply andb_true_intro. split; [apply Z.gtb_lt|apply Z.leb_le]; lia. }
  rewrite He. revert w Hw. apply writes_seq; [done|by apply put_octets_ok..].
Qed.

Lemma read_length_ok {A} `{Reader A} {AL : ReaderLaws A} n enc : 0 <= n < 2 ^ 64 -> length_octets n = Ok enc ->
  reads string_helper_read_length enc n.
Proof.
  intros Hn He. pose proof (length_octets_octets n enc Hn He) as Ho.
  destruct (length_octets_ok n Hn) as (enc' & He' & Hlen & v & Hv & Hmax & Hds & Hdn).
  rewrite He in He'. injection He' as <-. rewrite <- (take_drop 2 enc) in Ho. apply Forall_app in Ho as [Ho1 Ho2].
  assert (length (take 2 enc) = 2)%nat as Hl2 by (rewrite length_take; lia).
  rewrite <- (take_drop 2 enc) at 1. unfold string_helper_read_length. eapply reads_bind.
  { rewrite <- Hl2 at 1. by apply get_octets_ok. }
  intros a rest Ha. do 2 wp_head. rewrite Hds. wp_head. wp_head. wp_head; [apply Z.gtb_lt; lia|].
  wp_head. destruct (Z.gtb_spec v 2).
  - wp_head. wp_head; [apply Z.leb_le; unfold max_output_length; lia|]. wp_head.
    replace (Z.to_nat (v - 2)) with (length (drop 2 enc)) by (rewrite length_drop; lia).
    eapply wp_mono; [by apply get_octets_ok|]. cbn beta. intros r a' [-> Ha']. wp_head.
    rewrite take_drop. wp_head. rewrite Hdn. by wp_head.
  - wp_head. rewrite drop_ge in Ha by lia. rewrite take_ge by lia. wp_head. rewrite Hdn. by wp_head.
Qed.

Lemma string_read_ok {A} `{Reader A} {AL : ReaderLaws A} str : string_ok str ->
  reads string_serializer_read (string_image str) str.
Proof.
  intros Hs. destruct (string_image_eq str Hs) as (enc & -> & He & Ho & Hne). destruct Hs as [Hc Hl].
  unfold string_serializer_read. eapply reads_bind; [apply (read_length_ok (Z.of_nat (length (chars str)))); [lia|done]|].
  rewrite Nat2Z.id. destruct str as [cs]. apply (reads_map _ mk_string). by apply get_octets_ok.
Qed.

#[export] Instance string_laws : SerializerLaws std_string.
Proof.
  refine {| storable := string_ok; image := string_image |}; cbn; [|by intros; apply string_write_ok|done|
    by intros; apply string_read_ok|done].
  intros str. unfold string_image. destruct (length_octets _) as [enc|] eqn:He; [|done].
  destruct (decide (Z.of_nat (length (chars str)) < 2 ^ 64)).
  - destruct (length_octets_ok (Z.of_nat (length (chars str))) ltac:(lia)) as (enc' & He' & Hl & _).
    intros [-> _]%app_eq_nil. rewrite He in He'. injection He' as <-. cbn in *. lia.
  - intros [_ Hn]%app_eq_nil. rewrite Hn in *. cbn in *. lia.
Defined.

(** *** Pairs *)

#[export] Instance pair_laws {T U} `{Serializer T, Serializer U} {TL : SerializerLaws T} {UL : SerializerLaws U} :
  SerializerLaws (T * U).
Proof.
  refine {| storable := fun v => storable v.1 /\ storable v.2; image := fun v => image v.1 ++ image v.2 |}; cbn.
  - intros v [He _]%app_eq_nil. exact (image_nonempty _ He).
  - intros * [H1 H2]. apply writes_seq; [apply image_nonempty|by apply sz_write_ok..].
  - done.
  - intros * [H1 H2]. destruct v as [x y]. eapply reads_bind; [by apply sz_read_ok|].
    apply (reads_map _ (pair x)). by apply sz_read_ok.
  - done.
Defined.

(** *** Sequences and containers *)

Section container_facts.
Context {T : Type} `{Serializer T} {SL : SerializerLaws T}.

(** The octets of a sequence: the number of its elements, and the elements *)
Definition range_image (l : list T) : list Z :=
  le_bytes 8 (Z.of_nat (length l)) ++ concat (image <$> l).
Definition range_ok (l : list T) : Prop := Forall storable l /\ Z.of_nat (length l) < 2 ^ 64.

Lemma count_storable (l : list T) : range_ok l -> storable (Z.of_nat (length l)).
Proof. intros [_ Hl]. cbn. lia. Qed.

Lemma write_each_ok {P R} `{Policy P R} {PL : PolicyLaws P R} (l : list T) w : Forall storable l ->
  can_write w (concat (image <$> l)) ->
  wp (foldr (fun v k => _ <- sz_write v ;; k) (ret tt) l) (fun _ w' => written w (concat (image <$> l)) w') w.
Proof.
  intros Hl. revert w. induction Hl as [|v l Hv Hl IH]; intros w Hw; cbn [foldr].
  - wp_head. apply written_nil.
  - rewrite fmap_cons in *. cbn [concat] in *. wp_head.
    eapply writes_weaken; [by apply sz_write_ok|by eapply can_write_front|]. intros r w1 _ Hw1.
    eapply wp_mono; [by eapply IH, can_write_app|]. cbn beta. intros _ w2 Hw2. by eapply written_app.
Qed.

Lemma container_write_ok {P R} `{Policy P R} {PL : PolicyLaws P R} (l : list T) : range_ok l ->
  writes (container_write l) (range_image l).
Proof.
  intros Hl w Hw. unfold container_write. wp_head.
  eapply writes_weaken; [by apply (sz_write_ok P R), count_storable|by eapply can_write_front|].
  intros r w1 Hr Hw1. wp_head. eapply wp_mono; [apply write_each_ok; [apply Hl|by eapply can_write_app]|].
  cbn beta. intros _ w2 Hw2. wp_head. split; [|by eapply written_app].
  intros _. apply Hr. apply image_nonempty.
Qed.

Lemma write_range_ok {P R} `{Policy P R} {PL : PolicyLaws P R} (l : list T) w : range_ok l ->
  can_write w (range_image l) -> wp (write_range l) (fun _ w' => written w (range_image l) w') w.
Proof.
  intros Hl Hw. unfold write_range. wp_head.
  eapply writes_weaken; [by apply (sz_write_ok P R), count_storable|by eapply can_write_front|].
  intros r w1 _ Hw1. eapply wp_mono; [apply write_each_ok; [apply Hl|by eapply can_write_app]|].
  cbn beta. intros _ w2 Hw2. by eapply written_app.
Qed.

Lemma read_range_ok {A} `{Reader A} {AL : ReaderLaws A} (l : list T) : range_ok l ->
  reads read_range (range_image l) l.
Proof.
  intros Hl. unfold read_range. eapply reads_bind; [exact (sz_read_ok A (Z.of_nat (length l)) (count_storable l ltac:(done)))|].
  rewrite Nat2Z.id. rewrite <- (list_fmap_id l) at 3. apply read_loop_ok.
  eapply Forall_impl; [apply Hl|]. intros v Hv. by apply sz_read_ok.
Qed.

Lemma container_read_ok {A} `{Reader A} {AL : ReaderLaws A} {C} (inserter : T -> C -> C) c (l : list T) :
  range_ok l -> reads (container_read inserter c) (range_image l) (foldl (fun c v => inserter v c) c l).
Proof.
  intros Hr. unfold container_read. eapply reads_bind; [exact (sz_read_ok A (Z.of_nat (length l)) (count_storable l ltac:(done)))|].
  rewrite Nat2Z.id. destruct Hr as [Hl _]. revert c.
  induction Hl as [|v l Hv Hl IH]; intros c; cbn [length insert_loop foldl]; [apply reads_ret|].
  rewrite fmap_cons. cbn [concat]. eapply reads_bind; [by apply sz_read_ok|]. apply IH.
Qed.

Lemma write_all_ok {P R} `{Policy P R} {PL : PolicyLaws P R} v (l : list T) : Forall storable (v :: l) ->
  writes (write_all v l) (concat (image <$> v :: l)).
Proof.
  revert v. induction l as [|u l IH]; intros v [Hv Hl]%Forall_cons; cbn [write_all].
  - cbn. rewrite app_nil_r. by apply sz_write_ok.
  - rewrite fmap_cons. cbn [concat]. apply writes_seq; [apply image_nonempty|by apply sz_write_ok|by apply IH].
Qed.
End container_facts.

(** The pattern of a flooded buffer *)
Lemma flood_pattern size : length (flood size) = size /\
  forall i, (i < size)%nat -> flood size !! i = [222; 173; 190; 239] !! (i mod 4)%nat.
Proof.
  assert (forall n, length (flood_words n) = 4 * n)%nat as Hlen by (intros n; induction n; cbn [flood_words length]; lia).
  pose proof (Nat.div_mod_eq size 4). pose proof (Nat.mod_upper_bound size 4 ltac:(lia)).
  split; [unfold flood; rewrite length_app, Hlen, length_take; cbn [length]; lia|]. intros i Hi. unfold flood.
  assert (forall n i, (i < 4 * n)%nat -> flood_words n !! i = [222; 173; 190; 239] !! (i mod 4)%nat) as Hw.
  { intros n. induction n as [|n IH]; [lia|]. intros j Hj. cbn [flood_words].
    destruct j as [|[|[|[|j]]]]; [done..|]. cbn [lookup list_lookup]. rewrite IH by lia.
    f_equal. replace (S (S (S (S j)))) with (j + 1 * 4)%nat by lia. by rewrite Nat.Div0.mod_add. }
  destruct (decide (i < 4 * (size / 4))%nat).
  - rewrite lookup_app_l by (rewrite Hlen; lia). by apply Hw.
  - rewrite lookup_app_r, Hlen by (rewrite Hlen; lia). rewrite lookup_take_lt by lia. f_equal.
    apply (Nat.mod_unique _ _ (size / 4)%nat); lia.
Qed.

(** ** The types of the library *)

(** Types that are made of integers, of some number of octets, of strings and of pairs, with the serializers that the library
    chooses for them *)
Inductive code := Unsigned (more : nat) | Text | Pair (a b : code).

Fixpoint value_type (t : code) : Type :=
  match t with Unsigned _ => Z | Text => std_string | Pair a b => (value_type a * value_type b)%type end.

Fixpoint serializer_of (t : code) : Serializer (value_type t) :=
  match t with
  | Unsigned n => trivial_serializer (uint_layout (S n))
  | Text => string_serializer
  | Pair a b => pair_serializer (H := serializer_of a) (H0 := serializer_of b)
  end.

(** The values of a type, and the octets that stand for one: integers begin with the lowest octet; strings begin with their
    length, as a variable-length integer that takes two octets at least. *)
Fixpoint fits (t : code) : value_type t -> Prop :=
  match t with
  | Unsigned n => fun v => 0 <= v < 256 ^ Z.of_nat (S n)
  | Text => fun v => Forall octet (chars v) /\ Z.of_nat (length (chars v)) < 2 ^ 64
  | Pair a b => fun v => fits a v.1 /\ fits b v.2
  end.
Fixpoint octets_of (t : code) : value_type t -> list Z :=
  match t with
  | Unsigned n => fun v => le_bytes (S n) v
  | Text => string_image
  | Pair a b => fun v => octets_of a v.1 ++ octets_of b v.2
  end.
Definition span_octets (t : code) (l : list (value_type t)) : list Z := concat (octets_of t <$> l).
Definition container_octets (t : code) (l : list (value_type t)) : list Z :=
  le_bytes 8 (Z.of_nat (length l)) ++ span_octets t l.

Fixpoint laws_of (t : code) : SerializerLaws (value_type t) (H := serializer_of t) :=
  match t with
  | Unsigned n => trivial_laws (uint_layout (S n)) (uint_layout_laws (S n) ltac:(lia))
  | Text => string_laws
  | Pair a b => pair_laws (TL := laws_of a) (UL := laws_of b)
  end.

Lemma laws_storable t v : fits t v -> storable (SerializerLaws := laws_of t) v.
Proof. induction t as [n| |a IHa b IHb]; cbn; [done|done|]. intros [H1 H2]. split; [by apply IHa|by apply IHb]. Qed.
Lemma laws_image t v : image (SerializerLaws := laws_of t) v = octets_of t v.
Proof. induction t as [n| |a IHa b IHb]; cbn; [done|done|]. by rewrite IHa, IHb. Qed.

(** What an operation writes to a vector and to a buffer that has room, and what a reader of a range gets from it *)
Definition to_vector (m : M (writer_base (list Z)) Z) (bs : list Z) : Prop :=
  forall bytes n, 0 <= n < 2 ^ 64 -> exists r,
    m (mk_writer bytes n false) = (Ok r, mk_writer (bytes ++ bs) (wrap64 (n + Z.of_nat (length bs))) false) /\
    (bs <> [] -> r = Z.of_nat (length bytes)).
Definition to_buffer (m : M (writer_base buffer_writer_policy) (option nat)) (bs : list Z) : Prop :=
  forall b n, 0 <= n < 2 ^ 64 -> (it_ b + length bs <= length (buffer_ b))%nat -> exists r b',
    m (mk_writer b n false) = (Ok r, mk_writer b' (wrap64 (n + Z.of_nat (length bs))) false) /\
    take (it_ b') (buffer_ b') = take (it_ b) (buffer_ b) ++ bs /\ (bs <> [] -> r = Some (it_ b)).
Definition from_range {T} (m : M (list Z) T) (bs : list Z) (v : T) : Prop := forall rest, m (bs ++ rest) = (Ok v, rest).

Lemma writes_vector m bs : writes m bs -> to_vector m bs.
Proof.
  intros Hm bytes n Hn. destruct (wp_elim _ _ _ (Hm (mk_writer bytes n false) (conj eq_refl I))) as (r & [p c f] & E & Hr & Hc & Hf & Hb & _).
  exists r. cbn in Hc, Hf, Hb. specialize (Hb Hn). subst. done.
Qed.
Lemma writes_buffer m bs : writes m bs -> to_buffer m bs.
Proof.
  intros Hm b n Hn Hroom. destruct (wp_elim _ _ _ (Hm (mk_writer b n false) (conj eq_refl Hroom))) as (r & [p c f] & E & Hr & Hc & Hf & Hb & _).
  exists r, p. cbn in Hc, Hf, Hb. specialize (Hb Hn). subst. done.
Qed.
Lemma reads_range {T} (m : M (list Z) T) bs v : reads m bs v -> from_range m bs v.
Proof. intros Hm rest. destruct (wp_elim _ _ _ (Hm (bs ++ rest) rest eq_refl)) as (r & a & E & -> & Ha). cbn in Ha. by subst. Qed.

(** C24: Serialization. For every type made of integers of any width, strings and pairs: a value, a span of values, several values
    in a row and a container are written to a vector, or to a buffer that has room, as the octets that stand for them, behind what
    was there; they are counted, and the place of the first is returned. Reading from a range that begins with these octets gives
    the value, the values in order, or the container that results from inserting them in order, and stops just behind them. *)
Theorem serializers_roundtrip (t : code) (v : value_type t) (l : list (value_type t)) :
  fits t v -> Forall (fits t) l -> Z.of_nat (length l) < 2 ^ 64 ->
  let _ := serializer_of t in
  (to_vector (sz_write v) (octets_of t v) /\ to_buffer (sz_write v) (octets_of t v) /\
   from_range sz_read (octets_of t v) v) /\
  (to_vector (write_span l) (span_octets t l) /\ to_buffer (write_span l) (span_octets t l) /\
   from_range (read_span (length l)) (span_octets t l) l) /\
  (to_vector (write_all v l) (span_octets t (v :: l)) /\ to_buffer (write_all v l) (span_octets t (v :: l))) /\
  (to_vector (container_write l) (container_octets t l) /\ to_buffer (container_write l) (container_octets t l) /\
   from_range read_range (container_octets t l) l /\
   forall C (inserter : value_type t -> C -> C) c,
     from_range (container_read inserter c) (container_octets t l) (foldl (fun c v => inserter v c) c l)).
Proof.
  intros Hv Hl Hn S. pose (SL := laws_of t : SerializerLaws (value_type t) (H := S)).
  assert (storable v) as Hv' by (by apply laws_storable).
  assert (Forall storable l) as Hl' by (eapply Forall_impl; [exact Hl|]; apply laws_storable).
  assert (forall l, span_octets t l = concat (image <$> l)) as Hspan.
  { intros l'. unfold span_octets. f_equal. apply list_fmap_ext. intros i x _. symmetry. apply laws_image. }
  assert (range_ok l) as Hr by done. assert (container_octets t l = range_image l) as Hc by (unfold container_octets; by rewrite Hspan).
  rewrite <- (laws_image t v), !Hspan, Hc. split_and!; try apply writes_vector; try apply writes_buffer; try apply reads_range;
    try (by apply sz_write_ok); try (by apply sz_read_ok); try (by apply write_span_ok); try (by apply read_span_ok);
    try (apply write_all_ok; by constructor); try (by apply container_write_ok); try (by apply read_range_ok).
  intros C inserter c. by apply reads_range, container_read_ok.
Qed.

(** A dictionary of words and counts goes through a vector. *)
Lemma serializers_roundtrip_witness :
  let t := Pair Text (Unsigned 7) in
  let words : list (value_type t) := [(mk_string [104; 105], 7); (mk_string [], 300)] in
  let _ := serializer_of t in
  exists bytes,
    container_write words (mk_writer [1] 0 false) = (Ok 1, mk_writer (1 :: bytes) 30 false) /\
    container_read (A := list Z) (fun v c => v :: c) [] bytes = (Ok (rev words), []).
Proof.
  intros t words S.
  destruct (serializers_roundtrip t (mk_string [104; 105], 7) words) as (_ & _ & _ & Hw & _ & _ & Hr).
  - split; [split; [repeat constructor; unfold octet; lia|cbn; lia]|cbn; lia].
  - repeat constructor; unfold octet; cbn; lia.
  - cbn; lia.
  - exists (container_octets t words). split.
    + destruct (Hw [1] 0 ltac:(lia)) as (r & E & Hl). rewrite Hl in E by discriminate. exact E.
    + pose proof (Hr _ (fun v c => v :: c) [] []) as E. rewrite app_nil_r in E. exact E.
Defined.
