(* ===== verification/RepoSection.v ===== *)
(** * The sections of a program fragment

    Models include/pstore/mcrepo/section.hpp, generic_section.hpp, bss_section.hpp,
    debug_line_section.hpp, dependents_section.hpp and the files of lib/mcrepo with their
    definitions: records with variable-length arrays behind them, constructed in the memory of
    the store, the creation dispatchers that write them and the dispatchers that read them. A
    pointer is the number of its byte. *)

From S2P Require Import Prelude BitCount BitField Checksum Storage FileHeader Memory.

(** ** Kinds *)

(** [section_kind] *)
Inductive section_kind :=
  | sk_text | sk_data | sk_bss | sk_rel_ro
  | sk_mergeable_1_byte_c_string | sk_mergeable_2_byte_c_string | sk_mergeable_4_byte_c_string
  | sk_mergeable_const_4 | sk_mergeable_const_8 | sk_mergeable_const_16 | sk_mergeable_const_32
  | sk_read_only | sk_thread_data | sk_thread_bss
  | sk_debug_line | sk_debug_string | sk_debug_ranges
  | sk_dependent
  | sk_last.

#[global] Instance section_kind_eq_dec : EqDecision section_kind.
Proof. solve_decision. Defined.

Definition section_kinds : list section_kind :=
  [sk_text; sk_data; sk_bss; sk_rel_ro;
   sk_mergeable_1_byte_c_string; sk_mergeable_2_byte_c_string; sk_mergeable_4_byte_c_string;
   sk_mergeable_const_4; sk_mergeable_const_8; sk_mergeable_const_16; sk_mergeable_const_32;
   sk_read_only; sk_thread_data; sk_thread_bss;
   sk_debug_line; sk_debug_string; sk_debug_ranges; sk_dependent].

(** The conversions between the enumeration and its underlying type *)
Definition kind_index (k : section_kind) : Z :=
  match k with
  | sk_text => 0 | sk_data => 1 | sk_bss => 2 | sk_rel_ro => 3
  | sk_mergeable_1_byte_c_string => 4 | sk_mergeable_2_byte_c_string => 5 | sk_mergeable_4_byte_c_string => 6
  | sk_mergeable_const_4 => 7 | sk_mergeable_const_8 => 8 | sk_mergeable_const_16 => 9 | sk_mergeable_const_32 => 10
  | sk_read_only => 11 | sk_thread_data => 12 | sk_thread_bss => 13
  | sk_debug_line => 14 | sk_debug_string => 15 | sk_debug_ranges => 16
  | sk_dependent => 17
  | sk_last => 18
  end.

Definition kind_of (i : Z) : section_kind := default sk_last (section_kinds !! Z.to_nat i).

(** [is_target_section] *)
Definition is_target_section (k : section_kind) : bool := kind_index k <? kind_index sk_dependent.

(** [enum_to_section]: the type of the sections of a kind *)
Inductive section_type := generic_type | bss_type | debug_line_type | dependents_type.

Definition enum_to_section (k : section_kind) : section_type :=
  match k with
  | sk_bss => bss_type
  | sk_debug_line => debug_line_type
  | sk_dependent => dependents_type
  | _ => generic_type
  end.

(** ** Fixups *)

Record internal_fixup := InternalFixup {
  if_section : section_kind; if_type : Z; if_offset : Z; if_addend : Z
}.
Record external_fixup := ExternalFixup {
  xf_name : Z; xf_type : Z; xf_offset : Z; xf_addend : Z
}.

Definition u64_field (bs : list Z) (offset : nat) : Z := of_le (take 8 (drop offset bs)).
Definition u8_field (bs : list Z) (offset : nat) : Z := of_le (take 1 (drop offset bs)).

(** The layouts that the static assertions fix, padding included *)
#[export] Instance internal_fixup_layout : Layout internal_fixup := {|
  sizeof := 24;
  encode := fun f => le_bytes 1 (kind_index (if_section f)) ++ le_bytes 1 (if_type f) ++ le_bytes 2 0 ++
    le_bytes 4 0 ++ le_bytes 8 (if_offset f) ++ le_bytes 8 (if_addend f);
  decode := fun bs => InternalFixup (kind_of (u8_field bs 0)) (u8_field bs 1) (u64_field bs 8) (u64_field bs 16);
  representable := fun f => if_section f <> sk_last /\ 0 <= if_type f < 256 /\
    0 <= if_offset f < 2 ^ 64 /\ 0 <= if_addend f < 2 ^ 64
|}.

#[export] Instance external_fixup_layout : Layout external_fixup := {|
  sizeof := 32;
  encode := fun f => le_bytes 8 (xf_name f) ++ le_bytes 1 (xf_type f) ++ le_bytes 1 0 ++ le_bytes 2 0 ++
    le_bytes 4 0 ++ le_bytes 8 (xf_offset f) ++ le_bytes 8 (xf_addend f);
  decode := fun bs => ExternalFixup (u64_field bs 0) (u8_field bs 8) (u64_field bs 16) (u64_field bs 24);
  representable := fun f => 0 <= xf_name f < 2 ^ 64 /\ 0 <= xf_type f < 256 /\
    0 <= xf_offset f < 2 ^ 64 /\ 0 <= xf_addend f < 2 ^ 64
|}.

(** [extent]: an address and a size *)
Record extent := Extent { ex_addr : Z; ex_size : Z }.

#[export] Instance extent_layout : Layout extent := {|
  sizeof := 16;
  encode := fun x => le_bytes 8 (ex_addr x) ++ le_bytes 8 (ex_size x);
  decode := fun bs => Extent (u64_field bs 0) (u64_field bs 8);
  representable := fun x => 0 <= ex_addr x < 2 ^ 64 /\ 0 <= ex_size x < 2 ^ 64
|}.

(** [section_content] *)
Record section_content := SectionContent {
  sc_kind : section_kind;
  sc_align : Z;
  sc_data : list Z;
  sc_ifixups : list internal_fixup;
  sc_xfixups : list external_fixup
}.

(** ** [generic_section] *)

Definition sizeof_generic_section : Z := 16.

(** [part_size_bytes], for elements of [size] bytes *)
Definition part_size_bytes (size align pos num : Z) : outcome Z :=
  if num >? 0 then p <-? aligned 64 pos align ;; Ok (wrap64 (p + wrap64 (num * size))) else Ok pos.

(** [generic_section::size_bytes], for numbers of elements *)
Definition generic_size_bytes (data_size num_ifixups num_xfixups : Z) : outcome Z :=
  result <-? part_size_bytes 1 1 sizeof_generic_section data_size ;;
  result <-? part_size_bytes 24 8 result num_ifixups ;;
  part_size_bytes 32 8 result num_xfixups.

(** [size_bytes], for the ranges of a section that is to be written *)
Definition sources_size_bytes (src : section_content) : outcome Z :=
  generic_size_bytes (Z.of_nat (length (sc_data src))) (Z.of_nat (length (sc_ifixups src)))
    (Z.of_nat (length (sc_xfixups src))).

(** [set_size], for an integer type with the greatest value [max] *)
Definition set_size (max : Z) (size : Z) : Z := if size <=? 0 then 0 else Z.min size max.

(** The members of the section at [this]: [align_] and [num_ifixups_] share a word *)
Definition section_field (index bits this : Z) (m : memory) : outcome Z :=
  f <-? load_u32 this m ;; Ok (bit_field_value index bits f).
Definition assign_section_field (index bits this v : Z) : M memory unit :=
  m <- get ;;
  f <- lift (load_u32 this m) ;;
  modify (store_u32 this (bit_field_assign 32 index bits f v)).

Definition align_field (this : Z) (m : memory) : outcome Z := section_field 0 8 this m.
Definition num_ifixups (this : Z) (m : memory) : outcome Z := section_field 8 24 this m.

(** [align], [size] *)
Definition generic_align (this : Z) (m : memory) : outcome Z :=
  a <-? align_field this m ;;
  if a <? 32 then Ok (wrap32 (Z.shiftl 1 a)) else Throw Undefined.
Definition generic_size (this : Z) (m : memory) : outcome Z := load_u64 (this + 8) m.

(** The constructor of [container], for [n] elements of [size] bytes: where it begins, and the number
    of its elements *)
Definition container_ctor (size begin n : Z) : outcome (Z * Z) :=
  _ <-? oassert (wrap64 (begin + wrap64 (n * size)) >=? begin) ;; Ok (begin, n).

(** [payload], [ifixups] and [xfixups] *)
Definition payload (this : Z) (m : memory) : outcome (Z * Z) :=
  begin <-? aligned 64 (this + sizeof_generic_section) 1 ;;
  data_size <-? load_u64 (this + 8) m ;;
  container_ctor 1 begin data_size.
Definition ifixups (this : Z) (m : memory) : outcome (Z * Z) :=
  p <-? payload this m ;;
  begin <-? aligned 64 (wrap64 (p.1 + p.2)) 8 ;;
  n <-? num_ifixups this m ;;
  container_ctor 24 begin n.
Definition xfixups (this : Z) (m : memory) : outcome (Z * Z) :=
  i <-? ifixups this m ;;
  begin <-? aligned 64 (wrap64 (i.1 + i.2 * 24)) 8 ;;
  n <-? load_u32 (this + 4) m ;;
  container_ctor 32 begin n.

(** [size_bytes] of an existing section *)
Definition generic_section_size_bytes (this : Z) (m : memory) : outcome Z :=
  p <-? payload this m ;;
  i <-? ifixups this m ;;
  x <-? xfixups this m ;;
  generic_size_bytes p.2 i.2 x.2.

(** The three parts of the constructor: the arrays, copied to the memory from [p] on *)
Definition copy_data (src : section_content) (this p : Z) : M memory Z :=
  if bool_decide (sc_data src = []) then ret p
  else
    let data_size := set_size uint64_max (Z.of_nat (length (sc_data src))) in
    modify (store_u64 (this + 8) data_size) ;;;
    modify (store_bytes p (take (Z.to_nat data_size) (sc_data src))) ;;;
    ret (wrap64 (p + data_size)).

Definition copy_ifixups (src : section_content) (this p : Z) : M memory Z :=
  if bool_decide (sc_ifixups src = []) then ret p
  else
    iout <- lift (aligned 64 p 8) ;;
    modify (store_array iout (sc_ifixups src)) ;;;
    assign_section_field 8 24 this (set_size (2 ^ 32 - 1) (Z.of_nat (length (sc_ifixups src)))) ;;;
    ret (iout + Z.of_nat (length (sc_ifixups src)) * 24).

Definition copy_xfixups (src : section_content) (this p : Z) : M memory Z :=
  if bool_decide (sc_xfixups src = []) then ret p
  else
    xout <- lift (aligned 64 p 8) ;;
    modify (store_array xout (sc_xfixups src)) ;;;
    modify (store_u32 (this + 4) (set_size (2 ^ 32 - 1) (Z.of_nat (length (sc_xfixups src))))) ;;;
    ret (xout + Z.of_nat (length (sc_xfixups src)) * 32).

(** The constructor *)
Definition generic_section_ctor (src : section_content) (this : Z) : M memory unit :=
  modify (store_u32 this 0) ;;;
  modify (store_u32 (this + 4) 0) ;;;
  modify (store_u64 (this + 8) 0) ;;;
  c <- lift (ctz (sc_align src)) ;;
  assign_section_field 0 8 this c ;;;
  assign_section_field 8 24 this 0 ;;;
  let p := this + sizeof_generic_section in
  massert (pop_count (sc_align src) =? 1) ;;;
  p <- copy_data src this p ;;
  p <- copy_ifixups src this p ;;
  p <- copy_xfixups src this p ;;
  size <- lift (sources_size_bytes src) ;;
  massert ((p >=? this) && (p - this =? size)).

(** ** [bss_section] *)

Definition sizeof_bss_section : Z := 8.

Definition bss_field (index bits this : Z) (m : memory) : outcome Z :=
  f <-? load_u64 this m ;; Ok (bit_field_value index bits f).
Definition assign_bss_field (index bits this v : Z) : M memory unit :=
  m <- get ;;
  f <- lift (load_u64 this m) ;;
  modify (store_u64 this (bit_field_assign 64 index bits f v)).

Definition bss_section_ctor (align size this : Z) : M memory unit :=
  modify (store_u64 this 0) ;;;
  massert (pop_count align =? 1) ;;;
  c <- lift (ctz align) ;;
  assign_bss_field 0 8 this c ;;;
  assign_bss_field 8 32 this size.

Definition bss_align (this : Z) (m : memory) : outcome Z :=
  a <-? bss_field 0 8 this m ;;
  if a <? 32 then Ok (wrap32 (Z.shiftl 1 a)) else Throw Undefined.
Definition bss_size (this : Z) (m : memory) : outcome Z := bss_field 8 32 this m.

(** ** [debug_line_section]: the extent of a header, and a generic section *)

Definition offsetof_g : Z := 16.

Definition debug_line_section_ctor (header : extent) (src : section_content) (this : Z) : M memory unit :=
  modify (store this header) ;;;
  generic_section_ctor src (this + offsetof_g).

Definition header_extent (this : Z) (m : memory) : outcome extent := load this m.

(** ** [dependents] *)

(** [size_bytes], static *)
Definition dependents_size_bytes (size : Z) : Z := if size =? 0 then 0 else wrap64 (8 + wrap64 (8 * size)).

Definition dependents_ctor (members : list Z) (this : Z) : M memory unit :=
  modify (store_u64 this (Z.of_nat (length members))) ;;;
  modify (store_array (LT := uint_layout 8) (this + 8) members).

Definition dependents_size (this : Z) (m : memory) : outcome Z := load_u64 this m.

(** [operator[]] *)
Definition dependents_index (this : Z) (pos : Z) (m : memory) : outcome Z :=
  size <-? dependents_size this m ;;
  _ <-? oassert (pos <? size) ;;
  load_u64 (this + 8 + 8 * pos) m.

(** The elements from [begin ()] to [end ()] *)
Definition dependents_elements (this : Z) (m : memory) : outcome (list Z) :=
  size <-? dependents_size this m ;;
  load_array (LT := uint_layout 8) (Z.to_nat size) (this + 8) m.

(** ** Creation dispatchers *)

(** The subclasses of [section_creation_dispatcher] *)
Inductive creation_dispatcher :=
  | GenericCreation (kind : section_kind) (sec : section_content)
  | BssCreation (sec : section_content)
  | DebugLineCreation (header : extent) (sec : section_content)
  | DependentsCreation (members : list Z).

(** The constructor of [bss_section_creation_dispatcher] *)
Definition bss_creation_ctor (sec : section_content) : outcome creation_dispatcher :=
  _ <-? oassert (bool_decide (sc_ifixups sec = []) && bool_decide (sc_xfixups sec = [])) ;;
  if Z.of_nat (length (sc_data sec)) >? 2 ^ 32 - 1 then Throw (RaiseRepo bss_section_too_large)
  else Ok (BssCreation sec).

Definition creation_kind (c : creation_dispatcher) : section_kind :=
  match c with
  | GenericCreation kind _ => kind
  | BssCreation _ => sk_bss
  | DebugLineCreation _ _ => sk_debug_line
  | DependentsCreation _ => sk_dependent
  end.

(** [aligned]: all four types are aligned to 8 bytes *)
Definition creation_aligned (c : creation_dispatcher) (a : Z) : outcome Z := aligned 64 a 8.

Definition creation_size_bytes (c : creation_dispatcher) : outcome Z :=
  match c with
  | GenericCreation _ sec => sources_size_bytes sec
  | BssCreation _ => Ok sizeof_bss_section
  | DebugLineCreation _ sec => s <-? sources_size_bytes sec ;; Ok (wrap64 (offsetof_g + s))
  | DependentsCreation members => Ok (dependents_size_bytes (Z.of_nat (length members)))
  end.

(** [write]: constructs the section at [out] and returns the end of it *)
Definition creation_write (c : creation_dispatcher) (out : Z) : M memory Z :=
  a <- lift (creation_aligned c out) ;;
  massert (a =? out) ;;;
  match c with
  | GenericCreation _ sec =>
      generic_section_ctor sec out ;;;
      m <- get ;;
      s <- lift (generic_section_size_bytes out m) ;;
      ret (out + s)
  | BssCreation sec =>
      massert (Z.of_nat (length (sc_data sec)) <=? 2 ^ 32 - 1) ;;;
      bss_section_ctor (sc_align sec) (wrap32 (Z.of_nat (length (sc_data sec)))) out ;;;
      ret (out + sizeof_bss_section)
  | DebugLineCreation header sec =>
      debug_line_section_ctor header sec out ;;;
      m <- get ;;
      s <- lift (generic_section_size_bytes (out + offsetof_g) m) ;;
      ret (out + (offsetof_g + s))
  | DependentsCreation members =>
      if bool_decide (members = []) then ret out
      else
        dependents_ctor members out ;;;
        m <- get ;;
        n <- lift (dependents_size out m) ;;
        ret (out + dependents_size_bytes n)
  end.

(** ** Dispatchers *)

(** The subclasses of [dispatcher], for a section of a given type at [this] *)
Definition dispatch_size_bytes (t : section_type) (this : Z) (m : memory) : outcome Z :=
  match t with
  | generic_type => generic_section_size_bytes this m
  | bss_type => Ok sizeof_bss_section
  | debug_line_type => s <-? generic_section_size_bytes (this + offsetof_g) m ;; Ok (wrap64 (offsetof_g + s))
  | dependents_type => n <-? dependents_size this m ;; Ok (dependents_size_bytes n)
  end.

Definition dispatch_align (t : section_type) (this : Z) (m : memory) : outcome Z :=
  match t with
  | generic_type => generic_align this m
  | bss_type => bss_align this m
  | debug_line_type => generic_align (this + offsetof_g) m
  | dependents_type => Throw (RaiseRepo bad_fragment_type)
  end.

Definition dispatch_size (t : section_type) (this : Z) (m : memory) : outcome Z :=
  match t with
  | generic_type => generic_size this m
  | bss_type => bss_size this m
  | debug_line_type => p <-? payload (this + offsetof_g) m ;; Ok p.2
  | dependents_type => Throw (RaiseRepo bad_fragment_type)
  end.

(** The elements of the containers that [ifixups], [xfixups] and [payload] return *)
Definition elements {T} `{Layout T} (c : Z * Z) (m : memory) : outcome (list T) :=
  load_array (Z.to_nat c.2) c.1 m.

Definition dispatch_ifixups (t : section_type) (this : Z) (m : memory) : outcome (list internal_fixup) :=
  match t with
  | generic_type => c <-? ifixups this m ;; elements c m
  | bss_type => Ok []
  | debug_line_type => c <-? ifixups (this + offsetof_g) m ;; elements c m
  | dependents_type => Throw (RaiseRepo bad_fragment_type)
  end.

Definition dispatch_xfixups (t : section_type) (this : Z) (m : memory) : outcome (list external_fixup) :=
  match t with
  | generic_type => c <-? xfixups this m ;; elements c m
  | bss_type => Ok []
  | debug_line_type => c <-? xfixups (this + offsetof_g) m ;; elements c m
  | dependents_type => Throw (RaiseRepo bad_fragment_type)
  end.

Definition dispatch_payload (t : section_type) (this : Z) (m : memory) : outcome (list Z) :=
  match t with
  | generic_type => c <-? payload this m ;; elements (H := uint_layout 1) c m
  | bss_type => Ok []
  | debug_line_type => c <-? payload (this + offsetof_g) m ;; elements (H := uint_layout 1) c m
  | dependents_type => Throw (RaiseRepo bad_fragment_type)
  end.

(** ** Layouts *)

Lemma take_drop_field n k (bs1 bs2 bs3 : list Z) : length bs1 = n -> length bs2 = k ->
  take k (drop n (bs1 ++ bs2 ++ bs3)) = bs2.
Proof. intros <- <-. by rewrite drop_app_length, take_app_length. Qed.

Lemma u64_field_app n x (bs1 bs3 : list Z) : length bs1 = n -> 0 <= x < 2 ^ 64 ->
  u64_field (bs1 ++ le_bytes 8 x ++ bs3) n = x.
Proof.
  intros Hn Hx. unfold u64_field. rewrite take_drop_field by (try done; apply length_le_bytes).
  apply of_le_bytes. exact Hx.
Qed.

Lemma u8_field_app n x (bs1 bs3 : list Z) : length bs1 = n -> 0 <= x < 256 ->
  u8_field (bs1 ++ le_bytes 1 x ++ bs3) n = x.
Proof.
  intros Hn Hx. unfold u8_field. rewrite take_drop_field by (try done; apply length_le_bytes).
  apply of_le_bytes. exact Hx.
Qed.

Lemma kind_of_index k : k <> sk_last -> kind_of (kind_index k) = k.
Proof. by destruct k. Qed.

Lemma kind_index_range k : 0 <= kind_index k < 256.
Proof. by destruct k. Qed.

#[export] Instance internal_fixup_laws : LayoutLaws internal_fixup.
Proof.
  split; [cbn; lia| |].
  - intros f. cbn [encode internal_fixup_layout sizeof]. repeat (rewrite length_app || rewrite length_le_bytes). done.
  - intros [s t o a] (Hs & Ht & Ho & Ha). cbn in *. f_equal.
    + change (kind_of (u8_field ([] ++ le_bytes 1 (kind_index s) ++ (le_bytes 1 t ++ le_bytes 2 0 ++ le_bytes 4 0 ++ le_bytes 8 o ++ le_bytes 8 a)) 0) = s).
      rewrite u8_field_app by (try done; apply kind_index_range). by apply kind_of_index.
    + change (u8_field (le_bytes 1 (kind_index s) ++ le_bytes 1 t ++ (le_bytes 2 0 ++ le_bytes 4 0 ++ le_bytes 8 o ++ le_bytes 8 a)) 1 = t).
      by apply u8_field_app.
    + change (u64_field ((le_bytes 1 (kind_index s) ++ le_bytes 1 t ++ le_bytes 2 0 ++ le_bytes 4 0) ++ le_bytes 8 o ++ le_bytes 8 a) 8 = o).
      by apply u64_field_app.
    + change (u64_field ((le_bytes 1 (kind_index s) ++ le_bytes 1 t ++ le_bytes 2 0 ++ le_bytes 4 0 ++ le_bytes 8 o) ++ le_bytes 8 a ++ []) 16 = a).
      by apply u64_field_app.
Qed.

#[export] Instance external_fixup_laws : LayoutLaws external_fixup.
Proof.
  split; [cbn; lia| |].
  - intros f. cbn [encode external_fixup_layout sizeof]. repeat (rewrite length_app || rewrite length_le_bytes). done.
  - intros [n t o a] (Hn & Ht & Ho & Ha). cbn in *. f_equal.
    + change (u64_field ([] ++ le_bytes 8 n ++ (le_bytes 1 t ++ le_bytes 1 0 ++ le_bytes 2 0 ++ le_bytes 4 0 ++ le_bytes 8 o ++ le_bytes 8 a)) 0 = n).
      by apply u64_field_app.
    + change (u8_field (le_bytes 8 n ++ le_bytes 1 t ++ (le_bytes 1 0 ++ le_bytes 2 0 ++ le_bytes 4 0 ++ le_bytes 8 o ++ le_bytes 8 a)) 8 = t).
      by apply u8_field_app.
    + change (u64_field ((le_bytes 8 n ++ le_bytes 1 t ++ le_bytes 1 0 ++ le_bytes 2 0 ++ le_bytes 4 0) ++ le_bytes 8 o ++ le_bytes 8 a) 16 = o).
      by apply u64_field_app.
    + change (u64_field ((le_bytes 8 n ++ le_bytes 1 t ++ le_bytes 1 0 ++ le_bytes 2 0 ++ le_bytes 4 0 ++ le_bytes 8 o) ++ le_bytes 8 a ++ []) 24 = a).
      by apply u64_field_app.
Qed.

#[export] Instance extent_laws : LayoutLaws extent.
Proof.
  split; [cbn; lia|intros x; cbn [encode extent_layout sizeof]; by rewrite length_app, !length_le_bytes|].
  intros [a s] [Ha Hs]. cbn in *. f_equal.
  - change (u64_field ([] ++ le_bytes 8 a ++ le_bytes 8 s) 0 = a). by apply u64_field_app.
  - change (u64_field (le_bytes 8 a ++ le_bytes 8 s ++ []) 8 = s). by apply u64_field_app.
Qed.
