(* ===== verification/RepoSectionSpec.v ===== *)
(** * Sections are read back as they were written

    [section_at] says what the memory holds where a section has been constructed. The
    constructors establish it, writing only to the bytes that [creation_size_bytes] announces,
    and the dispatchers read from it what was written. *)

From S2P Require Import Prelude BitCount BitField Checksum Storage FileHeader Memory RepoSection.

Implicit Types m : memory.

(** The least multiple of 8 that is not below [x] *)
Definition up8 (x : Z) : Z := x + (- x) mod 8.

Lemma up8_bounds x : x <= up8 x < x + 8.
Proof. unfold up8. pose proof (Z.mod_pos_bound (- x) 8). lia. Qed.

Lemma up8_mod x : up8 x mod 8 = 0.
Proof. unfold up8. rewrite Z.add_mod_idemp_r, Z.add_opp_diag_r by lia. done. Qed.

Lemma up8_aligned x : x mod 8 = 0 -> up8 x = x.
Proof. intros Hx. unfold up8. rewrite Z.mod_opp_l_z by lia. lia. Qed.

Lemma up8_shift a x : a mod 8 = 0 -> up8 (a + x) = a + up8 x.
Proof.
  intros Ha. unfold up8. replace (- (a + x)) with (- x + (- a / 8) * 8).
  - rewrite Z.mod_add by lia. lia.
  - pose proof (Z.div_mod (- a) 8). rewrite Z.mod_opp_l_z in * by lia. lia.
Qed.

Lemma aligned8 x : 0 <= x < 2 ^ 63 -> aligned 64 x 8 = Ok (up8 x).
Proof. intros Hx. apply (aligned_ok 64 x 3); lia. Qed.

Lemma aligned1 x : 0 <= x < 2 ^ 63 -> aligned 64 x 1 = Ok x.
Proof.
  intros Hx. pose proof (aligned_ok 64 x 0 ltac:(lia) ltac:(lia) ltac:(lia)) as E. change (2 ^ 0) with 1 in E.
  by rewrite Z.mod_1_r, Z.add_0_r in E.
Qed.

(** ** Sizes *)

(** The end of an array of [n] elements of [size] bytes that is to follow [p] *)
Definition part_end (p size n : Z) : Z := if 0 <? n then up8 p + n * size else p.

Lemma part_end_ge p size n : 0 <= size -> 0 <= n -> p <= part_end p size n.
Proof. intros Hs Hn. unfold part_end. pose proof (up8_bounds p). destruct (Z.ltb_spec 0 n); nia. Qed.

Lemma part_end_shift a p size n : a mod 8 = 0 -> part_end (a + p) size n = a + part_end p size n.
Proof. intros Ha. unfold part_end. rewrite up8_shift by done. destruct (0 <? n); lia. Qed.

Lemma part_size_ok size p n : 0 <= p -> 0 <= size -> 0 <= n -> part_end p size n < 2 ^ 63 ->
  part_size_bytes size 8 p n = Ok (part_end p size n).
Proof.
  intros Hp Hs Hn Hb. unfold part_size_bytes, part_end in *. pose proof (up8_bounds p).
  destruct (Z.gtb_spec n 0), (Z.ltb_spec 0 n); try lia; [|done].
  rewrite aligned8 by nia. cbn. rewrite (wrap_small 64 (n * size)), wrap_small by nia. done.
Qed.

Section sizes.
Implicit Types src : section_content.

Definition data_size src : Z := Z.of_nat (length (sc_data src)).
Definition count_ifixups src : Z := Z.of_nat (length (sc_ifixups src)).
Definition count_xfixups src : Z := Z.of_nat (length (sc_xfixups src)).

(** Where the arrays of a section at 0 are, and where they end *)
Definition data_end src : Z := sizeof_generic_section + data_size src.
Definition ifixups_end src : Z := part_end (data_end src) 24 (count_ifixups src).
Definition section_end src : Z := part_end (ifixups_end src) 32 (count_xfixups src).

Lemma section_end_ge src : 16 <= data_end src <= ifixups_end src /\ ifixups_end src <= section_end src.
Proof.
  unfold section_end, ifixups_end, data_end, data_size, count_ifixups, count_xfixups, sizeof_generic_section.
  repeat split; try lia; apply part_end_ge; lia.
Qed.

Lemma sources_size_ok src : section_end src < 2 ^ 63 -> sources_size_bytes src = Ok (section_end src).
Proof.
  intros Hs. pose proof (section_end_ge src). unfold sources_size_bytes, generic_size_bytes.
  assert (part_size_bytes 1 1 sizeof_generic_section (data_size src) = Ok (data_end src)) as E.
  { unfold part_size_bytes, data_end in *. change sizeof_generic_section with 16 in *.
    assert (0 <= data_size src) by (unfold data_size; lia).
    destruct (Z.gtb_spec (data_size src) 0); [|f_equal; lia].
    rewrite aligned1 by lia. cbn [obind].
    rewrite (wrap_small 64 (data_size src * 1)), wrap_small by lia. f_equal. lia. }
  unfold data_size in E. rewrite E. cbn [obind].
  rewrite part_size_ok; [|lia..|]; fold (count_ifixups src); fold (ifixups_end src); [|lia]. cbn [obind].
  apply part_size_ok; fold (count_xfixups src); fold (section_end src); unfold count_xfixups; lia.
Qed.
End sizes.

(** ** What the memory holds *)

(** Contents that a section can represent *)
Record content_ok (src : section_content) : Prop := {
  co_align : exists k, 0 <= k <= 7 /\ sc_align src = 2 ^ k;
  co_data : Forall (fun b => 0 <= b < 256) (sc_data src);
  co_ifixups : Forall representable (sc_ifixups src) /\ count_ifixups src < 2 ^ 24;
  co_xfixups : Forall representable (sc_xfixups src) /\ count_xfixups src < 2 ^ 32;
  co_size : section_end src < 2 ^ 61
}.

(** The three words at the head of a generic section *)
Record head_at m (this w nx ds : Z) : Prop := {
  ha_word : holds m this (le_bytes 4 w);
  ha_xfixups : holds m (this + 4) (le_bytes 4 nx);
  ha_data : holds m (this + 8) (le_bytes 8 ds);
  ha_range : 0 <= w < 2 ^ 32
}.

Record generic_at m (this : Z) (src : section_content) : Prop := {
  ga_head : exists w, head_at m this w (count_xfixups src) (data_size src) /\
    2 ^ bit_field_value 0 8 w = sc_align src /\ bit_field_value 0 8 w < 8 /\
    bit_field_value 8 24 w = count_ifixups src;
  ga_data : holds m (this + 16) (sc_data src);
  ga_ifixups : holds m (up8 (this + data_end src)) (array_bytes (sc_ifixups src));
  ga_xfixups : holds m (up8 (this + ifixups_end src)) (array_bytes (sc_xfixups src))
}.

Definition section_at m (this : Z) (c : creation_dispatcher) : Prop :=
  match c with
  | GenericCreation _ sec => generic_at m this sec
  | BssCreation sec => exists w, holds m this (le_bytes 8 w) /\ 0 <= w < 2 ^ 64 /\
      2 ^ bit_field_value 0 8 w = sc_align sec /\ bit_field_value 0 8 w < 8 /\
      bit_field_value 8 32 w = data_size sec
  | DebugLineCreation header sec => holds m this (encode header) /\ generic_at m (this + 16) sec
  | DependentsCreation members => members = [] \/
      (holds m this (le_bytes 8 (Z.of_nat (length members))) /\
       holds m (this + 8) (array_bytes (H := uint_layout 8) members))
  end.

(** The size of a section that has been written *)
Definition written_size (c : creation_dispatcher) : Z :=
  match c with
  | GenericCreation _ sec => section_end sec
  | BssCreation _ => 8
  | DebugLineCreation _ sec => 16 + section_end sec
  | DependentsCreation members => if bool_decide (members = []) then 0 else 8 + 8 * Z.of_nat (length members)
  end.

Record creation_ok (c : creation_dispatcher) : Prop := {
  ck_content : match c with
    | GenericCreation kind sec => kind <> sk_last /\ enum_to_section kind = generic_type /\ content_ok sec
    | BssCreation sec => content_ok sec /\ data_size sec < 2 ^ 32
    | DebugLineCreation header sec => representable header /\ content_ok sec
    | DependentsCreation members => Forall (fun a => 0 <= a < 2 ^ 64) members
    end;
  ck_size : written_size c < 2 ^ 62
}.

(** ** Constructing a generic section *)

Lemma holds_store_other a bs m a' bs' :
  holds m a bs -> a + Z.of_nat (length bs) <= a' \/ a' + Z.of_nat (length bs') <= a ->
  holds (store_bytes a' bs' m) a bs.
Proof. intros Hh Hd. eapply holds_frame; [exact Hh|apply store_bytes_outside|done]. Qed.

Ltac other := apply holds_store_other; [|cbn [encode uint_layout]; rewrite ?length_le_bytes; lia].

Lemma load_u32_ok a v m : holds m a (le_bytes 4 v) -> 0 <= v < 2 ^ 32 -> load_u32 a m = Ok v.
Proof. intros Hh Hv. exact (holds_load (T := Z) (H := uint_layout 4) (LL := uint_layout_laws 4 ltac:(lia)) a v m Hh Hv). Qed.

Lemma load_u64_ok a v m : holds m a (le_bytes 8 v) -> 0 <= v < 2 ^ 64 -> load_u64 a m = Ok v.
Proof. intros Hh Hv. exact (holds_load (T := Z) (H := uint_layout 8) (LL := uint_layout_laws 8 ltac:(lia)) a v m Hh Hv). Qed.

Lemma head_at_init this m :
  head_at (store_u64 (this + 8) 0 (store_u32 (this + 4) 0 (store_u32 this 0 m))) this 0 0 0.
Proof.
  split; [other; other; apply holds_store_bytes|other; apply holds_store_bytes|apply holds_store_bytes|lia].
Qed.

Lemma head_at_frame m m' this w nx ds lo hi :
  head_at m this w nx ds -> same_outside lo hi m m' -> this + 16 <= lo \/ hi <= this -> head_at m' this w nx ds.
Proof.
  intros [Hw Hx Hd Hr] Hs Hl.
  split; [eapply holds_frame; [exact Hw|exact Hs|]|eapply holds_frame; [exact Hx|exact Hs|]
         |eapply holds_frame; [exact Hd|exact Hs|]|done]; rewrite length_le_bytes; lia.
Qed.

Lemma head_at_word m this w nx ds w' : 0 <= w' < 2 ^ 32 ->
  head_at m this w nx ds -> head_at (store_u32 this w' m) this w' nx ds.
Proof. intros Hw' [Hw Hx Hd _]. split; [apply holds_store_bytes|by other|by other|done]. Qed.

Lemma head_at_xfixups m this w nx ds nx' :
  head_at m this w nx ds -> head_at (store_u32 (this + 4) nx' m) this w nx' ds.
Proof. intros [Hw Hx Hd ?]. split; [by other|apply holds_store_bytes|by other|done]. Qed.

Lemma head_at_data m this w nx ds ds' :
  head_at m this w nx ds -> head_at (store_u64 (this + 8) ds' m) this w nx ds'.
Proof. intros [Hw Hx Hd ?]. split; [by other|by other|apply holds_store_bytes|done]. Qed.

Lemma store_word_outside this w m : same_outside this (this + 16) m (store_u32 this w m).
Proof.
  eapply same_outside_weaken; [apply store_bytes_outside|lia|].
  cbn [encode uint_layout]. rewrite length_le_bytes. lia.
Qed.

Lemma assign_field_spec m this w nx ds index bits v : head_at m this w nx ds ->
  wp (assign_section_field index bits this v)
    (fun _ m' => m' = store_u32 this (bit_field_assign 32 index bits w v) m) m.
Proof.
  intros Hh. unfold assign_section_field, wp, bind, get, lift.
  by rewrite (load_u32_ok this w m (ha_word _ _ _ _ _ Hh) (ha_range _ _ _ _ _ Hh)).
Qed.

(** Changes to the head of the section and to the bytes from [lo] to [hi] *)
Definition changed this lo hi m m' : Prop :=
  forall i, (i < this \/ this + 16 <= i) /\ (i < lo \/ hi <= i) -> m' !! i = m !! i.

Lemma changed_holds this lo hi m m' a bs : changed this lo hi m m' -> holds m a bs ->
  this + 16 <= a -> a + Z.of_nat (length bs) <= lo \/ hi <= a -> holds m' a bs.
Proof. intros Hc Hh Ha Hd k b Hk. pose proof (lookup_lt_Some _ _ _ Hk). rewrite Hc; [by apply Hh|lia]. Qed.

Lemma changed_outside this lo hi m m' hi' : changed this lo hi m m' -> this <= lo -> hi <= hi' -> this + 16 <= hi' ->
  same_outside this hi' m m'.
Proof. intros Hc H1 H2 H3 i Hi. apply Hc. lia. Qed.

Lemma set_size_small max n : 0 <= n <= max -> set_size max n = n.
Proof. intros Hn. unfold set_size. destruct (Z.leb_spec n 0); lia. Qed.

Section construct.
Context (src : section_content) (this : Z).
Hypothesis Hok : content_ok src.
Hypothesis Hthis : 0 <= this < 2 ^ 62.
Hypothesis Halign : this mod 8 = 0.

Lemma copy_data_spec w m : head_at m this w 0 0 ->
  wp (copy_data src this (this + 16))
    (fun p m' => p = this + data_end src /\ head_at m' this w 0 (data_size src) /\
       holds m' (this + 16) (sc_data src) /\ changed this (this + 16) (this + data_end src) m m') m.
Proof.
  intros Hh. pose proof (section_end_ge src). pose proof (co_size _ Hok). unfold data_end in *.
  change sizeof_generic_section with 16 in *.
  unfold copy_data. case_bool_decide as E.
  - wp_head. unfold data_size. rewrite E. cbn. split_and!; [lia|done|by intros ? ? ?|done].
  - rewrite set_size_small by (unfold uint64_max, data_size in *; lia). fold (data_size src). repeat wp_head.
    assert (take (Z.to_nat (data_size src)) (sc_data src) = sc_data src) as -> by (apply take_ge; unfold data_size; lia).
    split_and!.
    + rewrite wrap_small by lia. lia.
    + eapply head_at_frame; [|apply store_bytes_outside|lia]. by eapply head_at_data.
    + apply holds_store_bytes.
    + intros i Hi. rewrite store_bytes_outside by (unfold data_size in *; lia).
      apply store_bytes_outside. cbn [encode uint_layout]. rewrite length_le_bytes. lia.
Qed.

Lemma copy_ifixups_spec w m : head_at m this w 0 (data_size src) -> bit_field_value 8 24 w = 0 ->
  wp (copy_ifixups src this (this + data_end src))
    (fun p m' => p = this + ifixups_end src /\
       (exists w', head_at m' this w' 0 (data_size src) /\ bit_field_value 0 8 w' = bit_field_value 0 8 w /\
          bit_field_value 8 24 w' = count_ifixups src) /\
       holds m' (up8 (this + data_end src)) (array_bytes (sc_ifixups src)) /\
       changed this (this + data_end src) (this + ifixups_end src) m m') m.
Proof.
  intros Hh Hw. pose proof (section_end_ge src). pose proof (co_size _ Hok).
  unfold ifixups_end in *. rewrite <- part_end_shift by done.
  unfold copy_ifixups. case_bool_decide as E.
  - wp_head. unfold count_ifixups. rewrite E. split_and!; [done|by exists w|by intros ? ? ?|done].
  - assert (0 < count_ifixups src) as Hn by (unfold count_ifixups; destruct (sc_ifixups src); [done|cbn; lia]).
    pose proof (up8_bounds (this + data_end src)) as Hu.
    wp_head. apply wp_lift. rewrite aligned8 by lia. apply owp_ok. cbn beta.
    rewrite set_size_small by (destruct (co_ifixups _ Hok); unfold count_ifixups in *; lia).
    fold (count_ifixups src). wp_head. wp_head. rewrite store_array_bytes.
    assert (length (array_bytes (sc_ifixups src)) = Z.to_nat (count_ifixups src * 24)) as Hl.
    { rewrite length_array_bytes. cbn [sizeof internal_fixup_layout]. unfold count_ifixups. lia. }
    assert (head_at (store_bytes (up8 (this + data_end src)) (array_bytes (sc_ifixups src)) m) this w 0 (data_size src)) as Hh'.
    { eapply head_at_frame; [exact Hh|apply store_bytes_outside|lia]. }
    wp_head. eapply wp_mono; [by apply (assign_field_spec _ _ w 0 (data_size src))|]. cbn beta. intros _ m' ->. wp_head.
    unfold part_end. rewrite (proj2 (Z.ltb_lt _ _) Hn). split_and!; [done| | |].
    + exists (bit_field_assign 32 8 24 w (count_ifixups src)). pose proof (ha_range _ _ _ _ _ Hh).
      split_and!; [by apply (head_at_word _ _ w); [apply assign_range|]|apply value_assign_other; lia|].
      rewrite value_assign by lia. apply Z.mod_small. destruct (co_ifixups _ Hok). lia.
    + eapply holds_frame; [apply holds_store_bytes|apply store_word_outside|lia].
    + intros i Hi. rewrite store_word_outside by lia. apply store_bytes_outside. lia.
Qed.

Lemma copy_xfixups_spec w m : head_at m this w 0 (data_size src) ->
  wp (copy_xfixups src this (this + ifixups_end src))
    (fun p m' => p = this + section_end src /\ head_at m' this w (count_xfixups src) (data_size src) /\
       holds m' (up8 (this + ifixups_end src)) (array_bytes (sc_xfixups src)) /\
       changed this (this + ifixups_end src) (this + section_end src) m m') m.
Proof.
  intros Hh. pose proof (section_end_ge src). pose proof (co_size _ Hok).
  unfold section_end in *. rewrite <- part_end_shift by done.
  unfold copy_xfixups. case_bool_decide as E.
  - wp_head. unfold count_xfixups. rewrite E. split_and!; [done|done|by intros ? ? ?|done].
  - assert (0 < count_xfixups src) as Hn by (unfold count_xfixups; destruct (sc_xfixups src); [done|cbn; lia]).
    pose proof (up8_bounds (this + ifixups_end src)) as Hu.
    wp_head. apply wp_lift. rewrite aligned8 by lia. apply owp_ok. cbn beta.
    rewrite set_size_small by (destruct (co_xfixups _ Hok); unfold count_xfixups in *; lia).
    fold (count_xfixups src). repeat wp_head. rewrite store_array_bytes.
    assert (length (array_bytes (sc_xfixups src)) = Z.to_nat (count_xfixups src * 32)) as Hl.
    { rewrite length_array_bytes. cbn [sizeof external_fixup_layout]. unfold count_xfixups. lia. }
    unfold part_end. rewrite (proj2 (Z.ltb_lt _ _) Hn). split_and!; [done| | |].
    + eapply head_at_xfixups. eapply head_at_frame; [exact Hh|apply store_bytes_outside|lia].
    + other. apply holds_store_bytes.
    + intros i Hi. etransitivity; [apply store_bytes_outside; cbn [encode uint_layout]; rewrite length_le_bytes; lia|].
      apply store_bytes_outside. lia.
Qed.
End construct.

Lemma pop_count_pow2 k : 0 <= k -> pop_count (2 ^ k) = 1.
Proof.
  intros Hk. rewrite <- (length_set_bits (k + 1)), set_bits_pow2 by (try split; try lia; try (apply Z.pow_lt_mono_r; lia); apply Z.pow_nonneg; lia).
  done.
Qed.

(** The first word, with the alignment and no internal fixups yet *)
Definition first_word (k : Z) : Z := bit_field_assign 32 8 24 (bit_field_assign 32 0 8 0 k) 0.

Lemma first_word_fields k : 0 <= k <= 7 ->
  0 <= first_word k < 2 ^ 32 /\ bit_field_value 0 8 (first_word k) = k /\ bit_field_value 8 24 (first_word k) = 0.
Proof.
  intros Hk. assert (k = 0 \/ k = 1 \/ k = 2 \/ k = 3 \/ k = 4 \/ k = 5 \/ k = 6 \/ k = 7) as Hd by lia.
  repeat destruct Hd as [->|Hd]; [..|subst]; (split; [vm_compute; split; [discriminate|done]|done]).
Qed.

Lemma generic_section_ctor_spec src this m :
  content_ok src -> 0 <= this < 2 ^ 62 -> this mod 8 = 0 ->
  wp (generic_section_ctor src this)
    (fun _ m' => generic_at m' this src /\ same_outside this (this + section_end src) m m') m.
Proof.
  intros Hok Hthis Ha. destruct (co_align _ Hok) as (k & Hk & Hal). pose proof (section_end_ge src).
  destruct (first_word_fields k Hk) as (Hr & Hw1 & Hw2).
  unfold generic_section_ctor. rewrite Hal. do 6 wp_head.
  assert (ctz (2 ^ k) = Ok k) as Hc by (pose proof (ctz_unique k 0 ltac:(lia) ltac:(lia)) as E; by rewrite Z.mul_1_l in E).
  wp_head. apply wp_lift. rewrite Hc. apply owp_ok.
  pose proof (head_at_init this m) as H0. set (m0 := store_u64 _ _ _) in *.
  wp_head. eapply wp_mono; [by eapply assign_field_spec|]. cbn beta. intros _ m1 ->.
  eapply (head_at_word _ _ _ _ _ (bit_field_assign 32 0 8 0 k)) in H0; [|by apply assign_range].
  wp_head. eapply wp_mono; [by eapply assign_field_spec|]. cbn beta. intros _ m1 ->.
  eapply (head_at_word _ _ _ _ _ (first_word k)) in H0; [|done]. fold (first_word k).
  wp_head. apply wp_massert; [by rewrite pop_count_pow2 by lia|].
  set (m1 := store_u32 this (first_word k) _) in *.
  assert (same_outside this (this + 16) m m1) as S1.
  { eapply same_outside_trans; [|apply store_word_outside]. eapply same_outside_trans; [|apply store_word_outside].
    eapply same_outside_trans; [|eapply same_outside_weaken; [apply store_bytes_outside|lia|cbn [encode uint_layout]; rewrite length_le_bytes; lia]].
    eapply same_outside_trans; [apply store_word_outside|].
    eapply same_outside_weaken; [apply store_bytes_outside|lia|cbn [encode uint_layout]; rewrite length_le_bytes; lia]. }
  clearbody m1. change sizeof_generic_section with 16.
  wp_head. eapply wp_mono; [by apply (copy_data_spec src this Hok Hthis (first_word k))|]. cbn beta.
  intros p m2 (-> & H1 & Hd & C1).
  wp_head. eapply wp_mono; [by apply (copy_ifixups_spec src this Hok Hthis Ha (first_word k))|]. cbn beta.
  intros p m3 (-> & (w & H2 & Hv1 & Hv2) & Hi & C2).
  wp_head. eapply wp_mono; [by apply (copy_xfixups_spec src this Hok Hthis Ha w)|]. cbn beta.
  intros p m4 (-> & H3 & Hx & C3).
  pose proof (co_size _ Hok). wp_head. apply wp_lift. rewrite sources_size_ok by lia. apply owp_ok.
  apply wp_massert; [apply andb_true_iff; split; [apply Z.geb_le; lia|apply Z.eqb_eq; lia]|].
  pose proof (up8_bounds (this + data_end src)).
  assert (Z.of_nat (length (array_bytes (sc_ifixups src))) <= ifixups_end src - (up8 (this + data_end src) - this) \/
    sc_ifixups src = []) as Hl.
  { rewrite length_array_bytes. cbn [sizeof internal_fixup_layout]. unfold ifixups_end, part_end.
    destruct (Z.ltb_spec 0 (count_ifixups src)) as [Hn|Hn]; unfold count_ifixups in *.
    - rewrite up8_shift in * by done. lia.
    - right. destruct (sc_ifixups src); [done|cbn in *; lia]. }
  split; [split|].
  - exists w. rewrite Hal. split_and!; [done|congruence|lia|done].
  - eapply (changed_holds this); [exact C3| |lia|]; [|unfold data_end, data_size in *; change sizeof_generic_section with 16 in *; lia].
    eapply (changed_holds this); [exact C2|exact Hd|lia|]. unfold data_end, data_size in *; change sizeof_generic_section with 16 in *; lia.
  - destruct Hl as [Hl|Hl]; [|rewrite Hl; by intros ? ? ?].
    eapply (changed_holds this); [exact C3|exact Hi|lia|lia].
  - exact Hx.
  - eapply same_outside_trans; [eapply same_outside_weaken; [exact S1|lia|lia]|].
    eapply same_outside_trans; [eapply changed_outside; [exact C1|lia..]|].
    eapply same_outside_trans; [eapply changed_outside; [exact C2|lia..]|].
    eapply changed_outside; [exact C3|lia..].
Qed.

(** ** Reading a generic section *)

Lemma container_ok size begin n : 0 <= begin -> 0 <= n * size -> begin + n * size < 2 ^ 64 -> container_ctor size begin n = Ok (begin, n).
Proof.
  intros Hb Hn He. unfold container_ctor. rewrite !wrap_small by (rewrite ?wrap_small; lia).
  rewrite Z.geb_leb, (proj2 (Z.leb_le _ _)) by lia. done.
Qed.

Section read.
Context (src : section_content) (this : Z) (m : memory).
Hypothesis Hok : content_ok src.
Hypothesis Hthis : 0 <= this < 2 ^ 62.
Hypothesis Halign : this mod 8 = 0.
Hypothesis Hat : generic_at m this src.

Lemma data_size_read : load_u64 (this + 8) m = Ok (data_size src).
Proof.
  destruct (ga_head _ _ _ Hat) as (w & Hh & _). pose proof (section_end_ge src). pose proof (co_size _ Hok).
  apply load_u64_ok; [exact (ha_data _ _ _ _ _ Hh)|]. unfold data_end, data_size in *.
  change sizeof_generic_section with 16 in *. lia.
Qed.

Lemma payload_ok : payload this m = Ok (this + 16, data_size src).
Proof.
  pose proof (section_end_ge src). pose proof (co_size _ Hok). unfold data_end in *. change sizeof_generic_section with 16 in *.
  unfold payload. change sizeof_generic_section with 16. rewrite aligned1 by lia. cbn [obind].
  rewrite data_size_read. cbn [obind]. apply container_ok; unfold data_size in *; lia.
Qed.

Lemma section_field_ok index bits w : head_at m this w (count_xfixups src) (data_size src) ->
  section_field index bits this m = Ok (bit_field_value index bits w).
Proof.
  intros Hh. unfold section_field. by rewrite (load_u32_ok _ w) by (apply Hh).
Qed.

Lemma ifixups_ok : ifixups this m = Ok (up8 (this + data_end src), count_ifixups src).
Proof.
  destruct (ga_head _ _ _ Hat) as (w & Hh & _ & _ & Hn). pose proof (section_end_ge src). pose proof (co_size _ Hok).
  unfold ifixups. rewrite payload_ok. cbn [obind fst snd]. unfold data_end in *. change sizeof_generic_section with 16 in *.
  rewrite wrap_small, aligned8 by lia. cbn [obind]. unfold num_ifixups. rewrite (section_field_ok _ _ w Hh), Hn. cbn [obind].
  pose proof (up8_bounds (this + (16 + data_size src))). destruct (co_ifixups _ Hok).
  replace (this + 16 + data_size src) with (this + (16 + data_size src)) by lia.
  apply container_ok; unfold count_ifixups in *; lia.
Qed.

Lemma xfixups_ok : xfixups this m = Ok (up8 (this + ifixups_end src), count_xfixups src).
Proof.
  destruct (ga_head _ _ _ Hat) as (w & Hh & _ & _ & Hn). pose proof (section_end_ge src). pose proof (co_size _ Hok).
  unfold xfixups. rewrite ifixups_ok. cbn [obind fst snd]. pose proof (up8_bounds (this + data_end src)).
  destruct (co_xfixups _ Hok) as [_ Hx].
  assert (up8 (up8 (this + data_end src) + count_ifixups src * 24) = up8 (this + ifixups_end src)) as E.
  { unfold ifixups_end. rewrite <- part_end_shift by done. unfold part_end.
    destruct (Z.ltb_spec 0 (count_ifixups src)); [done|].
    assert (count_ifixups src = 0) as -> by (unfold count_ifixups in *; lia).
    rewrite Z.add_0_r. apply up8_aligned, up8_mod. }
  assert (up8 (this + data_end src) + count_ifixups src * 24 < 2 ^ 63).
  { destruct (co_ifixups _ Hok). lia. }
  rewrite wrap_small, aligned8 by (unfold count_ifixups in *; lia). cbn [obind]. rewrite E.
  rewrite (load_u32_ok _ (count_xfixups src)); [|apply Hh|unfold count_xfixups in *; lia]. cbn [obind].
  pose proof (up8_bounds (this + ifixups_end src)). apply container_ok; unfold count_xfixups in *; lia.
Qed.

Lemma section_size_ok : generic_section_size_bytes this m = Ok (section_end src).
Proof.
  pose proof (co_size _ Hok). unfold generic_section_size_bytes.
  rewrite payload_ok, ifixups_ok, xfixups_ok. cbn [obind snd]. apply sources_size_ok. lia.
Qed.

Lemma align_ok : generic_align this m = Ok (sc_align src).
Proof.
  destruct (ga_head _ _ _ Hat) as (w & Hh & Ha & Hb & _). destruct (co_align _ Hok) as (k & Hk & Hal).
  unfold generic_align, align_field. rewrite (section_field_ok _ _ w Hh). cbn [obind].
  assert (0 <= bit_field_value 0 8 w) by (rewrite bit_field_value_mod by lia; apply Z.mod_pos_bound; lia).
  rewrite (proj2 (Z.ltb_lt _ _)) by lia. rewrite Z.shiftl_1_l, Ha, wrap_small; [done|]. rewrite Hal.
  split; [apply Z.pow_nonneg; lia|]. apply Z.pow_lt_mono_r; lia.
Qed.

Lemma payload_elements : (c <-? payload this m ;; elements (H := uint_layout 1) c m) = Ok (sc_data src).
Proof.
  rewrite payload_ok. cbn [obind]. unfold elements, data_size. cbn [fst snd]. rewrite Nat2Z.id.
  apply (holds_load_array (T := Z) (H := uint_layout 1) (LL := uint_layout_laws 1 ltac:(lia))); [|exact (co_data _ Hok)].
  assert (array_bytes (H := uint_layout 1) (sc_data src) = sc_data src) as ->; [|exact (ga_data _ _ _ Hat)].
  pose proof (co_data _ Hok) as Hd. unfold array_bytes. induction Hd as [|b l Hb _ IH]; [done|].
  rewrite fmap_cons. cbn [concat]. rewrite IH. cbn [encode uint_layout le_bytes app].
  change 255 with (Z.ones 8). rewrite Z.land_ones by lia. by rewrite Z.mod_small.
Qed.

Lemma ifixups_elements : (c <-? ifixups this m ;; elements c m) = Ok (sc_ifixups src).
Proof.
  rewrite ifixups_ok. cbn [obind]. unfold elements, count_ifixups. cbn [fst snd]. rewrite Nat2Z.id.
  apply holds_load_array; [exact (ga_ifixups _ _ _ Hat)|apply (co_ifixups _ Hok)].
Qed.

Lemma xfixups_elements : (c <-? xfixups this m ;; elements c m) = Ok (sc_xfixups src).
Proof.
  rewrite xfixups_ok. cbn [obind]. unfold elements, count_xfixups. cbn [fst snd]. rewrite Nat2Z.id.
  apply holds_load_array; [exact (ga_xfixups _ _ _ Hat)|apply (co_xfixups _ Hok)].
Qed.
End read.

(** ** All kinds of section *)

Lemma generic_at_frame m m' this src lo hi :
  content_ok src -> this mod 8 = 0 -> generic_at m this src -> same_outside lo hi m m' ->
  this + section_end src <= lo \/ hi <= this -> generic_at m' this src.
Proof.
  intros Hok Ha [(w & Hh & Hw) Hd Hi Hx] Hs Hdis. pose proof (section_end_ge src).
  pose proof (up8_bounds (this + data_end src)). pose proof (up8_bounds (this + ifixups_end src)).
  split.
  - exists w. split; [|done]. eapply head_at_frame; [exact Hh|exact Hs|lia].
  - eapply holds_frame; [exact Hd|exact Hs|].
    unfold data_end, data_size in *. change sizeof_generic_section with 16 in *. lia.
  - destruct (sc_ifixups src) eqn:E; [by intros ? ? ?|]. rewrite <- E in *.
    assert (0 < count_ifixups src) as Hn by (unfold count_ifixups; rewrite E; cbn; lia).
    eapply holds_frame; [exact Hi|exact Hs|]. rewrite length_array_bytes. cbn [sizeof internal_fixup_layout].
    unfold ifixups_end, part_end in *. rewrite (proj2 (Z.ltb_lt _ _) Hn) in *. rewrite up8_shift in * by done.
    unfold count_ifixups in *. lia.
  - destruct (sc_xfixups src) eqn:E; [by intros ? ? ?|]. rewrite <- E in *.
    assert (0 < count_xfixups src) as Hn by (unfold count_xfixups; rewrite E; cbn; lia).
    eapply holds_frame; [exact Hx|exact Hs|]. rewrite length_array_bytes. cbn [sizeof external_fixup_layout].
    unfold section_end in *. set (p := ifixups_end src) in *.
    unfold part_end in *. rewrite (proj2 (Z.ltb_lt _ _) Hn) in *. rewrite up8_shift in * by done.
    unfold count_xfixups in *. lia.
Qed.

Lemma section_at_frame m m' this c lo hi :
  creation_ok c -> this mod 8 = 0 -> section_at m this c -> same_outside lo hi m m' ->
  this + written_size c <= lo \/ hi <= this -> section_at m' this c.
Proof.
  intros [Hc _] Ha Hat Hs Hd. destruct c as [kind sec|sec|header sec|members]; cbn [section_at written_size] in *.
  - by eapply generic_at_frame; [apply Hc|..].
  - destruct Hat as (w & Hw & Hat). exists w. split; [|done]. eapply holds_frame; [exact Hw|exact Hs|].
    rewrite length_le_bytes. lia.
  - destruct Hat as [Hh Hg]. pose proof (section_end_ge sec). split.
    + eapply holds_frame; [exact Hh|exact Hs|]. rewrite length_encode. cbn [sizeof extent_layout]. lia.
    + eapply generic_at_frame; [apply Hc| |exact Hg|exact Hs|lia]. by rewrite Z.add_mod, Ha by lia.
  - destruct Hat as [->|[H1 H2]]; [by left|]. case_bool_decide; [by left|]. right. split.
    + eapply holds_frame; [exact H1|exact Hs|]. rewrite length_le_bytes. lia.
    + eapply holds_frame; [exact H2|exact Hs|].
      rewrite (length_array_bytes (T := Z) (H := uint_layout 8) (LL := uint_layout_laws 8 ltac:(lia))). cbn [sizeof uint_layout]. lia.
Qed.

Lemma written_size_nonneg c : 0 <= written_size c.
Proof.
  destruct c as [kind sec|sec|header sec|members]; cbn; [pose proof (section_end_ge sec); lia|lia|pose proof (section_end_ge sec); lia|].
  case_bool_decide; lia.
Qed.

Lemma dependents_size_ok n : 0 <= n -> 8 + 8 * n < 2 ^ 64 -> n <> 0 -> dependents_size_bytes n = 8 + 8 * n.
Proof.
  intros Hn Hb Hz. unfold dependents_size_bytes. rewrite (proj2 (Z.eqb_neq _ _) Hz).
  rewrite (wrap_small 64 (8 * n)), wrap_small by lia. done.
Qed.

Lemma creation_size_ok c : creation_ok c -> creation_size_bytes c = Ok (written_size c).
Proof.
  intros [Hc Hs]. destruct c as [kind sec|sec|header sec|members]; cbn in *.
  - apply sources_size_ok. lia.
  - done.
  - pose proof (section_end_ge sec). rewrite sources_size_ok by lia. cbn. change offsetof_g with 16. by rewrite wrap_small by lia.
  - case_bool_decide as E; [by subst|]. rewrite dependents_size_ok; [done|lia|lia|].
    destruct members; [done|cbn; lia].
Qed.

(** The word of a bss section *)
Lemma bss_ctor_spec align k size this m : 0 <= k <= 7 -> align = 2 ^ k -> 0 <= size < 2 ^ 32 ->
  wp (bss_section_ctor align size this)
    (fun _ m' => (exists w, holds m' this (le_bytes 8 w) /\ 0 <= w < 2 ^ 64 /\
        2 ^ bit_field_value 0 8 w = align /\ bit_field_value 0 8 w < 8 /\ bit_field_value 8 32 w = size) /\
      same_outside this (this + 8) m m') m.
Proof.
  intros Hk -> Hs. unfold bss_section_ctor. do 2 wp_head. wp_head. apply wp_massert; [by rewrite pop_count_pow2 by lia|].
  assert (ctz (2 ^ k) = Ok k) as Hc by (pose proof (ctz_unique k 0 ltac:(lia) ltac:(lia)) as E; by rewrite Z.mul_1_l in E).
  wp_head. apply wp_lift. rewrite Hc. apply owp_ok.
  assert (forall m w index bits v Q, holds m this (le_bytes 8 w) -> 0 <= w < 2 ^ 64 ->
    Q tt (store_u64 this (bit_field_assign 64 index bits w v) m) -> wp (assign_bss_field index bits this v) Q m) as Hassign.
  { intros m1 w index bits v Q Hw Hr HQ. unfold assign_bss_field, wp, bind, get, lift. by rewrite (load_u64_ok this w m1 Hw Hr). }
  wp_head. apply (Hassign _ 0); [apply holds_store_bytes|lia|].
  set (w1 := bit_field_assign 64 0 8 0 k). assert (0 <= w1 < 2 ^ 64) as H1 by (apply assign_range; lia).
  apply (Hassign _ w1); [apply holds_store_bytes|done|]. split.
  - exists (bit_field_assign 64 8 32 w1 size). assert (bit_field_value 0 8 (bit_field_assign 64 8 32 w1 size) = k) as E.
    { rewrite value_assign_other by lia. unfold w1. rewrite value_assign by lia. apply Z.mod_small. lia. }
    rewrite E. split_and!; [apply holds_store_bytes|apply assign_range; lia|apply assign_range; lia|done|lia|].
    rewrite value_assign by lia. by apply Z.mod_small.
  - intros i Hi. unfold store. cbn [encode uint_layout]. by rewrite !store_bytes_outside by (rewrite length_le_bytes; lia).
Qed.

(** Writing a section constructs it in the bytes that were announced. *)
Lemma creation_write_spec c out m : creation_ok c -> 0 <= out < 2 ^ 61 -> out mod 8 = 0 ->
  wp (creation_write c out)
    (fun p m' => p = out + written_size c /\ section_at m' out c /\ same_outside out (out + written_size c) m m') m.
Proof.
  intros [Hc Hsz] Ho Ha. unfold creation_write, creation_aligned. wp_head. apply wp_lift.
  rewrite aligned8, up8_aligned by (try done; lia). apply owp_ok. wp_head. apply wp_massert; [by apply Z.eqb_eq|].
  destruct c as [kind sec|sec|header sec|members]; cbn [written_size section_at] in *.
  - destruct Hc as (_ & _ & Hc). wp_head. eapply wp_mono; [apply generic_section_ctor_spec; [done|lia|done]|].
    cbn beta. intros _ m' [Hat Hs]. unfold wp, bind, get, lift, ret.
    by rewrite (section_size_ok sec out m' Hc ltac:(lia) Ha Hat).
  - destruct Hc as [Hc Hd]. destruct (co_align _ Hc) as (k & Hk & Hal). fold (data_size sec).
    assert (0 <= data_size sec) by (unfold data_size; lia).
    wp_head. apply wp_massert; [apply Z.leb_le; lia|]. rewrite wrap_small by lia.
    wp_head. eapply wp_mono; [by apply (bss_ctor_spec (sc_align sec) k (data_size sec) out m Hk)|].
    cbn beta. intros _ m' [Hat Hs]. by wp_head.
  - destruct Hc as (Hh & Hc). pose proof (section_end_ge sec).
    unfold debug_line_section_ctor. wp_head. wp_head. wp_head. change offsetof_g with 16.
    assert ((out + 16) mod 8 = 0) as Ha' by (by rewrite Z.add_mod, Ha by lia).
    eapply wp_mono; [apply generic_section_ctor_spec; [done|lia|done]|].
    cbn beta. intros _ m' [Hat Hs]. unfold wp, bind, get, lift, ret.
    rewrite (section_size_ok sec (out + 16) m' Hc ltac:(lia) Ha' Hat).
    assert (length (encode header) = 16%nat) as Hl by (exact (length_encode header)).
    split_and!; [done| |done|].
    + eapply holds_frame; [apply holds_store_bytes|exact Hs|]. rewrite Hl. lia.
    + eapply same_outside_trans; [|eapply same_outside_weaken; [exact Hs|lia|lia]].
      eapply same_outside_weaken; [apply store_bytes_outside|lia|]. rewrite Hl. lia.
  - case_bool_decide as E; [wp_head; split_and!; [lia|by left|apply same_outside_refl]|].
    pose proof (uint_layout_laws 8 ltac:(lia)) as Hll.
    unfold dependents_ctor. do 3 wp_head. wp_head.
    rewrite (store_array_bytes (T := Z) (H := uint_layout 8)). assert (length (array_bytes (H := uint_layout 8) members) = (length members * 8)%nat) as Hl
      by (by rewrite (length_array_bytes (T := Z) (H := uint_layout 8))).
    set (m1 := store_bytes (out + 8) _ _).
    assert (holds m1 out (le_bytes 8 (Z.of_nat (length members)))) as H1 by (other; apply holds_store_bytes).
    unfold wp, bind, get, lift, ret. unfold dependents_size. rewrite (load_u64_ok out _ m1 H1) by lia.
    rewrite dependents_size_ok; [|lia|lia|destruct members; [done|cbn; lia]].
    split_and!; [done|right; split; [exact H1|apply holds_store_bytes]|].
    intros i Hi. unfold m1. rewrite store_bytes_outside by lia. apply store_bytes_outside.
    cbn [encode uint_layout]. rewrite length_le_bytes. lia.
Qed.

(** ** Reading any section *)

(** What the dispatcher of a section yields *)
Definition section_reads (this : Z) (c : creation_dispatcher) m : Prop :=
  let t := enum_to_section (creation_kind c) in
  dispatch_size_bytes t this m = Ok (written_size c) /\
  match c with
  | GenericCreation _ sec | DebugLineCreation _ sec =>
      dispatch_align t this m = Ok (sc_align sec) /\ dispatch_size t this m = Ok (data_size sec) /\
      dispatch_payload t this m = Ok (sc_data sec) /\ dispatch_ifixups t this m = Ok (sc_ifixups sec) /\
      dispatch_xfixups t this m = Ok (sc_xfixups sec)
  | BssCreation sec =>
      dispatch_align t this m = Ok (sc_align sec) /\ dispatch_size t this m = Ok (data_size sec) /\
      dispatch_payload t this m = Ok [] /\ dispatch_ifixups t this m = Ok [] /\ dispatch_xfixups t this m = Ok []
  | DependentsCreation members =>
      dependents_elements this m = Ok members /\
      dispatch_align t this m = Throw (RaiseRepo bad_fragment_type) /\
      dispatch_payload t this m = Throw (RaiseRepo bad_fragment_type)
  end /\
  match c with
  | DebugLineCreation header _ => header_extent this m = Ok header
  | _ => True
  end.

Lemma section_reads_ok this c m :
  creation_ok c -> 0 <= this < 2 ^ 61 -> this mod 8 = 0 -> section_at m this c -> written_size c <> 0 ->
  section_reads this c m.
Proof.
  intros [Hc Hs] Hthis Ha Hat Hz. unfold section_reads.
  destruct c as [kind sec|sec|header sec|members]; cbn [creation_kind section_at written_size] in *.
  - destruct Hc as (_ & Ht & Hc). rewrite Ht. cbn [dispatch_size_bytes dispatch_align dispatch_size dispatch_payload dispatch_ifixups dispatch_xfixups].
    split_and!; try done; [by apply section_size_ok; [|lia|..]|by apply align_ok|by apply (data_size_read sec)|
      by apply payload_elements; [|lia|]|by apply ifixups_elements; [|lia|..]|by apply xfixups_elements; [|lia|..]].
  - destruct Hc as [Hc Hd]. destruct Hat as (w & Hw & Hr & Hv1 & Hv2 & Hv3). destruct (co_align _ Hc) as (k & Hk & Hal).
    cbn [enum_to_section dispatch_size_bytes dispatch_align dispatch_size dispatch_payload dispatch_ifixups dispatch_xfixups].
    unfold bss_align, bss_size, bss_field. rewrite (load_u64_ok this w m Hw Hr). cbn [obind].
    assert (0 <= bit_field_value 0 8 w) by (rewrite bit_field_value_mod by lia; apply Z.mod_pos_bound; lia).
    rewrite (proj2 (Z.ltb_lt (bit_field_value 0 8 w) 32)) by lia. rewrite Z.shiftl_1_l, Hv1, Hv3.
    split_and!; try done. rewrite wrap_small; [done|]. rewrite Hal. split; [apply Z.pow_nonneg; lia|apply Z.pow_lt_mono_r; lia].
  - destruct Hc as [Hh Hc]. destruct Hat as [Hhd Hg]. change offsetof_g with 16.
    assert ((this + 16) mod 8 = 0) as Ha' by (by rewrite Z.add_mod, Ha by lia).
    cbn [enum_to_section dispatch_size_bytes dispatch_align dispatch_size dispatch_payload dispatch_ifixups dispatch_xfixups].
    change offsetof_g with 16. assert (0 <= this + 16 < 2 ^ 62) as Ht by lia.
    rewrite (section_size_ok sec (this + 16) m Hc Ht Ha' Hg), (payload_ok sec (this + 16) m Hc Ht Hg). cbn [obind snd].
    pose proof (section_end_ge sec). pose proof (co_size _ Hc). rewrite (wrap_small 64 (16 + section_end sec)) by lia.
    split_and!; try done.
    + by apply align_ok.
    + pose proof (payload_elements sec (this + 16) m Hc Ht Hg) as E. by rewrite (payload_ok sec (this + 16) m Hc Ht Hg) in E.
    + by apply ifixups_elements.
    + by apply xfixups_elements.
    + by apply holds_load.
  - case_bool_decide as E; [lia|]. destruct Hat as [|[H1 H2]]; [done|].
    cbn [enum_to_section dispatch_size_bytes dispatch_align dispatch_payload].
    unfold dependents_elements, dependents_size. rewrite (load_u64_ok this _ m H1) by lia. cbn [obind].
    split_and!; try done.
    + rewrite dependents_size_ok; [done|lia|lia|destruct members; [done|cbn; lia]].
    + rewrite Nat2Z.id. apply (holds_load_array (T := Z) (H := uint_layout 8) (LL := uint_layout_laws 8 ltac:(lia))); [exact H2|exact Hc].
Qed.
