(* ===== verification/StoreIntf.v ===== *)
(** * What the index code asks of the store, of the heap and of its keys

    The index (Hamt*.v) is written against three interfaces:

    - [TransactionStore]: the operations of [transaction_base] and [database]
      that it calls, with the laws they satisfy ([TransactionStoreLaws]);
      Transaction.v provides the instance;
    - [HeapAllocator]: global [operator new], which returns the address of a block
      that overlaps no live one, suitably aligned;
    - [KeyTraits]: the template parameters of [hamt_map]: the hash and the key
      comparison functions and the sizes and alignments of serialized keys and values.

    Store memory is modelled at the granularity of the objects that are
    constructed in it: an address designates the object placed there. *)

From S2P Require Import Prelude.

(** ** The store *)

Class TransactionStore (S O : Type) := {
  (** [transaction_base::allocate (size, align)] *)
  ts_allocate : Z -> Z -> M S Z;
  (** [transaction_base::alloc_rw (size, align)] followed by the construction of an
      object through the pointer it returns *)
  ts_alloc_rw : Z -> Z -> O -> M S Z;
  (** [database::getro (addr, size)]: the object that lives at [addr] *)
  ts_getro : S -> Z -> Z -> outcome O;
  (** [database::get_current_revision ()] *)
  ts_revision : S -> outcome Z
}.

Class TransactionStoreLaws (S O : Type) `{TransactionStore S O} := {
  (** the invariant of an open transaction, and what reading needs of it *)
  ts_inv : S -> Prop;
  ts_readable : S -> Prop;
  (** [database::size ()] *)
  ts_size : S -> Z;
  (** one past the last address the store can map *)
  ts_limit : Z;
  (** the objects that have been constructed *)
  ts_objects : S -> gmap Z O;
  (** what allocation leaves as it is: the rest of the state *)
  ts_kept : Type;
  ts_keep : S -> ts_kept;

  ts_inv_readable s : ts_inv s -> ts_readable s;
  ts_size_range s : ts_readable s -> 8 <= ts_size s <= ts_limit;
  ts_limit_bound : ts_limit < 2 ^ 63;
  ts_objects_range s a o : ts_readable s -> ts_objects s !! a = Some o -> 0 < a < ts_size s;

  ts_allocate_ok s n k :
    ts_inv s -> 0 <= n -> 0 <= k <= 12 -> ts_size s + 2 ^ k + n <= ts_limit ->
    exists s' a, ts_allocate n (2 ^ k) s = (Ok a, s') /\
      a = ts_size s + (- ts_size s) mod 2 ^ k /\
      ts_inv s' /\ ts_size s' = a + n /\
      ts_objects s' = ts_objects s /\ ts_revision s' = ts_revision s /\ ts_keep s' = ts_keep s;

  ts_alloc_rw_ok s n k o :
    ts_inv s -> 0 < n -> 0 <= k <= 12 -> ts_size s + 2 ^ k + n <= ts_limit ->
    exists s' a, ts_alloc_rw n (2 ^ k) o s = (Ok a, s') /\
      a = ts_size s + (- ts_size s) mod 2 ^ k /\
      ts_inv s' /\ ts_size s' = a + n /\
      ts_objects s' = <[a := o]> (ts_objects s) /\ ts_revision s' = ts_revision s /\ ts_keep s' = ts_keep s;

  ts_getro_ok s a n o :
    ts_readable s -> ts_objects s !! a = Some o -> 0 <= n -> a + n <= ts_size s ->
    ts_getro s a n = Ok o
}.

#[export] Hint Extern 0 (ts_readable _) => apply ts_inv_readable; assumption : core.

(** ** The heap *)

Class HeapAllocator (N : Type) := {
  (** the block that [operator new] returns when the blocks of the map are live *)
  new_addr : gmap Z N -> Z
}.

(** A block lies at a non-null address aligned for any object of the library, and
    is not one of the live blocks. *)
Class HeapAllocatorLaws (N : Type) `{HeapAllocator N} := {
  new_addr_fresh h : h !! new_addr h = None;
  new_addr_pos h : 0 < new_addr h;
  new_addr_aligned h : new_addr h mod 4 = 0
}.

(** An allocator that never reuses an address: one block of 16 bytes past the highest. *)
Definition bump_addr {N} (h : gmap Z N) : Z :=
  16 * (1 + map_fold (fun l _ acc => Z.max l acc) 0 h).

#[export] Instance bump_allocator {N} : HeapAllocator N := {| new_addr := bump_addr |}.

Lemma map_fold_max_le {N} (h : gmap Z N) l n :
  h !! l = Some n -> l <= map_fold (fun l _ acc => Z.max l acc) 0 h.
Proof.
  revert l n. induction h as [|i x h Hi IH] using map_ind; intros l n; [done|].
  rewrite map_fold_insert_L by (done || (intros; lia)).
  intros [[-> ->]|[Hne Hl]]%lookup_insert_Some; [lia|].
  pose proof (IH _ _ Hl). lia.
Qed.

Lemma map_fold_max_nonneg {N} (h : gmap Z N) :
  0 <= map_fold (fun l _ acc => Z.max l acc) 0 h.
Proof.
  induction h as [|i x h Hi IH] using map_ind; [done|].
  rewrite map_fold_insert_L by (done || (intros; lia)). lia.
Qed.

#[export] Instance bump_allocator_laws {N} : HeapAllocatorLaws N.
Proof.
  split; intros h; cbn; unfold bump_addr; pose proof (map_fold_max_nonneg h).
  - destruct (h !! _) eqn:E; [|done]. apply map_fold_max_le in E. lia.
  - lia.
  - rewrite Z.mul_comm. change 16 with (4 * 4). rewrite Z.mul_assoc. by apply Z.mod_mul.
Qed.

(** ** Keys and values *)

Class KeyTraits (K V : Type) := {
  kt_hash : K -> Z;
  kt_equal : K -> K -> bool;
  (** the number of bytes of a serialized key or value, and the binary logarithm of
      the alignment of the type *)
  key_size : K -> Z;
  key_align : Z;
  value_size : V -> Z;
  value_align : Z
}.

Class KeyTraitsLaws (K V : Type) `{KeyTraits K V} := {
  (** [details::hash_type] is [std::uint64_t] *)
  kt_hash_range k : 0 <= kt_hash k < 2 ^ 64;
  (** [KeyEqual] decides whether two keys are equal *)
  kt_equal_spec k1 k2 : kt_equal k1 k2 = true <-> k1 = k2;
  key_size_pos k : 0 < key_size k;
  value_size_nonneg v : 0 <= value_size v;
  key_align_range : 0 <= key_align <= 12;
  value_align_range : 0 <= value_align <= 12
}.
