(* ===== verification/Fragment.v ===== *)
(** * Program fragments

    Models include/pstore/mcrepo/fragment.hpp and lib/mcrepo/fragment.cpp: a fragment is a block
    of the store that begins with a signature and a sparse array of offsets, indexed by the kind of
    section, and continues with the sections. The block is aligned to 8 bytes and so is every
    section, therefore a pointer into the block is represented by its offset from the start of
    the block. Signature checks are enabled. *)

From stdpp Require Import sorting.
From S2P Require Import Prelude BitCount BitField Checksum Storage FileHeader Memory SparseArray StoreIntf.
From S2P Require Import RepoSection RepoSectionSpec.

(** The block of a fragment: the members of [fragment], and the bytes behind them *)
Record fragment := Fragment {
  fr_signature : list Z;
  fr_arr : sparse_array (V := Z);
  fr_mem : memory
}.

Definition fragment_signature : list Z := [70; 114; 97; 103; 109; 101; 110; 116]. (* Fragment *)
Definition sizeof_fragment : Z := 24.
Definition alignof_fragment : Z := 8.
Definition offsetof_arr : Z := 8.

(** [has_section] *)
Definition has_section (f : fragment) (kind : section_kind) : bool := has_index 64 (fr_arr f) (kind_index kind).

(** [at_impl]: the offset of the section of a kind; [atp_impl] *)
Definition section_offset (f : fragment) (kind : section_kind) : outcome Z :=
  _ <-? oassert (has_section f kind) ;;
  index_impl 64 (fr_arr f) (kind_index kind).
Definition section_offset_opt (f : fragment) (kind : section_kind) : outcome (option Z) :=
  if has_section f kind then o <-? section_offset f kind ;; Ok (Some o) else Ok None.

(** [make_dispatcher]: the type of a section and where it is *)
Definition make_dispatcher (f : fragment) (kind : section_kind) : outcome (section_type * Z) :=
  _ <-? oassert (has_section f kind) ;;
  match kind with
  | sk_last => Throw (RaiseRepo bad_fragment_type)
  | _ => this <-? section_offset f kind ;; Ok (enum_to_section kind, this)
  end.

(** [section_align], [section_size], [section_ifixups], [section_xfixups], [section_value] *)
Definition section_align (f : fragment) (kind : section_kind) : outcome Z :=
  d <-? make_dispatcher f kind ;; dispatch_align d.1 d.2 (fr_mem f).
Definition section_size (f : fragment) (kind : section_kind) : outcome Z :=
  d <-? make_dispatcher f kind ;; dispatch_size d.1 d.2 (fr_mem f).
Definition section_ifixups (f : fragment) (kind : section_kind) : outcome (list internal_fixup) :=
  d <-? make_dispatcher f kind ;; dispatch_ifixups d.1 d.2 (fr_mem f).
Definition section_xfixups (f : fragment) (kind : section_kind) : outcome (list external_fixup) :=
  d <-? make_dispatcher f kind ;; dispatch_xfixups d.1 d.2 (fr_mem f).
Definition section_value (f : fragment) (kind : section_kind) : outcome (list Z) :=
  d <-? make_dispatcher f kind ;; dispatch_payload d.1 d.2 (fr_mem f).

(** [size_bytes] of an existing fragment *)
Definition fragment_size_bytes (f : fragment) : outcome Z :=
  if SparseArray.size (fr_arr f) =? 0 then Ok sizeof_fragment
  else
    last_offset <-? back 64 (fr_arr f) ;;
    i <-? indices_back 64 (bitmap_ (fr_arr f)) ;;
    d <-? make_dispatcher f (kind_of i) ;;
    s <-? dispatch_size_bytes d.1 d.2 (fr_mem f) ;;
    Ok (wrap64 (last_offset + s)).

(** ** Creation *)

(** [check_range_is_sorted]: [std::is_sorted] finds no kind below the one before it *)
Fixpoint is_sorted (cs : list creation_dispatcher) : bool :=
  match cs with
  | a :: (b :: _) as cs =>
      negb (kind_index (creation_kind b) <? kind_index (creation_kind a)) && is_sorted cs
  | _ => true
  end.

(** [size_bytes], static: the loop over the sections, and the whole *)
Fixpoint contents_size (cs : list creation_dispatcher) (size : Z) : outcome Z :=
  match cs with
  | [] => Ok size
  | c :: cs =>
      size <-? creation_aligned c size ;;
      s <-? creation_size_bytes c ;;
      contents_size cs (wrap64 (size + s))
  end.

Definition sections_size_bytes (cs : list creation_dispatcher) : outcome Z :=
  _ <-? oassert (is_sorted cs) ;;
  contents_size cs (offsetof_arr + size_bytes 8 8 (Z.of_nat (length cs))).

(** [populate]: the loop that copies the sections, and the whole *)
Fixpoint copy_sections (cs : list creation_dispatcher) (out : Z) (f : fragment) : outcome (Z * fragment) :=
  match cs with
  | [] => Ok (out, f)
  | c :: cs =>
      out <-? creation_aligned c out ;;
      arr <-? index_assign 64 (fr_arr f) (kind_index (creation_kind c)) out ;;
      match creation_write c out (fr_mem f) with
      | (Throw e, _) => Throw e
      | (Ok out, m) => copy_sections cs out (Fragment (fr_signature f) arr m)
      end
  end.

Definition populate (cs : list creation_dispatcher) : outcome fragment :=
  arr <-? sparse_array_ctor 64 0 0 (kind_index ∘ creation_kind <$> cs) [] ;;
  r <-? copy_sections cs (offsetof_arr + size_bytes 8 8 (SparseArray.size arr)) (Fragment fragment_signature arr ∅) ;;
  let '(out, f) := r in
  size <-? sections_size_bytes cs ;;
  _ <-? oassert ((out >=? 0) && (out =? size)) ;;
  s <-? fragment_size_bytes f ;;
  _ <-? oassert (size =? s) ;;
  Ok f.

(** ** Loading *)

(** The sizes of the types of sections *)
Definition sizeof_section (t : section_type) : Z :=
  match t with
  | generic_type => 16
  | bss_type => 8
  | debug_line_type => 32
  | dependents_type => 16
  end.

(** [section_offset_is_valid] *)
Definition section_offset_is_valid (t : section_type) (f : fragment) (fext : extent) (min_offset offset size : Z) : outcome Z :=
  if negb (wrap64 (ex_addr fext + offset) mod 8 =? 0) || (size <? sizeof_section t) || (offset <? min_offset) ||
     (size >? ex_size fext) || (offset >? ex_size fext - size)
  then Ok 0
  else
    s <-? dispatch_size_bytes t offset (fr_mem f) ;;
    if s >? size then Ok 0 else Ok (wrap64 (offset + size)).

(** [fragment_appears_valid]: the loop over the indices, and the whole *)
Fixpoint sections_valid (f : fragment) (fext : extent) (back : Z) (indices : list Z) (offset : Z) : outcome bool :=
  match indices with
  | [] => Ok true
  | index :: indices =>
      this_offset <-? index_impl 64 (fr_arr f) index ;;
      next_offset <-? (if index =? back then Ok (ex_size fext)
                       else match indices with
                            | next :: _ => index_impl 64 (fr_arr f) next
                            | [] => Throw Undefined
                            end) ;;
      if (this_offset <? offset) || (next_offset <=? this_offset) then Ok false
      else
        let kind := kind_of index in
        _ <-? oassert (has_section f kind) ;;
        match kind with
        | sk_last => Throw Assert
        | _ =>
            offset <-? section_offset_is_valid (enum_to_section kind) f fext offset this_offset (next_offset - this_offset) ;;
            if offset =? 0 then Ok false else sections_valid f fext back indices offset
        end
  end.

Definition fragment_appears_valid (f : fragment) (fext : extent) : outcome bool :=
  if negb (bool_decide (fr_signature f = fragment_signature)) then Ok false
  else
    let bm := bitmap_ (fr_arr f) in
    if bm =? 0 then Ok false
    else
      back <-? indices_back 64 bm ;;
      if back >=? kind_index sk_last then Ok false
      else
        it <-? indices_begin 64 bm ;;
        indices <-? collect_indices 64 64 it ;;
        sections_valid f fext back indices sizeof_fragment.

(** Fragments among the objects of a store *)
Class FragmentStore (O : Type) := {
  of_fragment : fragment -> O;
  to_fragment : O -> option fragment;
  to_of_fragment : forall f, to_fragment (of_fragment f) = Some f
}.

Section store.
Context {St O : Type} `{TS : TransactionStore St O} `{FS : FragmentStore O}.

(** [alloc] *)
Definition fragment_alloc (cs : list creation_dispatcher) : M St extent :=
  massert (is_sorted cs) ;;;
  size <- lift (sections_size_bytes cs) ;;
  f <- lift (populate cs) ;;
  addr <- ts_alloc_rw size alignof_fragment (of_fragment f) ;;
  ret (Extent addr size).

(** [load] *)
Definition fragment_load (s : St) (fext : extent) : outcome fragment :=
  if ex_size fext <? sizeof_fragment then Throw (RaiseRepo bad_fragment_record)
  else
    o <-? (if negb (ex_addr fext mod alignof_fragment =? 0) then Throw (Raise bad_alignment)
           else ts_getro s (ex_addr fext) (ex_size fext)) ;;
    match to_fragment o with
    | None => Throw Dangling
    | Some f =>
        valid <-? fragment_appears_valid f fext ;;
        if negb valid then Throw (RaiseRepo bad_fragment_record) else Ok f
    end.
End store.

(** ** The layout of a fragment *)

Definition kinds (cs : list creation_dispatcher) : list Z := kind_index ∘ creation_kind <$> cs.

(** Where sections are placed that are written from [out] on, and where the last of them ends *)
Fixpoint places (cs : list creation_dispatcher) (out : Z) : list Z :=
  match cs with
  | [] => []
  | c :: cs => up8 out :: places cs (up8 out + written_size c)
  end.

Fixpoint place_end (cs : list creation_dispatcher) (out : Z) : Z :=
  match cs with
  | [] => out
  | c :: cs => place_end cs (up8 out + written_size c)
  end.

(** The end of the array of offsets *)
Definition first_place (cs : list creation_dispatcher) : Z := offsetof_arr + size_bytes 8 8 (Z.of_nat (length cs)).

Definition fragment_end (cs : list creation_dispatcher) : Z := place_end cs (first_place cs).

(** Sections from which a fragment can be made: at most one of each kind, in the order of the kinds,
    none of them empty *)
Record sections_ok (cs : list creation_dispatcher) : Prop := {
  sk_sections : Forall creation_ok cs;
  sk_sorted : StronglySorted Z.lt (kinds cs);
  sk_nonempty : cs <> [];
  sk_sizes : Forall (fun c => written_size c <> 0) cs;
  sk_end : fragment_end cs < 2 ^ 61
}.

Lemma place_end_ge cs out : out <= place_end cs out.
Proof.
  revert out. induction cs as [|c cs IH]; intros out; cbn; [lia|].
  pose proof (IH (up8 out + written_size c)). pose proof (up8_bounds out). pose proof (written_size_nonneg c). lia.
Qed.

Lemma length_places cs out : length (places cs out) = length cs.
Proof. revert out. induction cs as [|c cs IH]; intros out; cbn; [done|]. by rewrite IH. Qed.

Lemma creation_kind_range c : creation_ok c -> creation_kind c <> sk_last /\ 0 <= kind_index (creation_kind c) < 18.
Proof.
  intros [Hc _]. destruct c as [kind sec|sec|header sec|members]; cbn in *; [|done..].
  destruct Hc as (Hl & _ & _). by destruct kind.
Qed.

Lemma kinds_range cs : Forall creation_ok cs -> Forall (in_bitmap 64) (kinds cs) /\ Forall (fun i => i < 18) (kinds cs).
Proof.
  intros Hc. split; apply Forall_fmap; (eapply Forall_impl; [exact Hc|]); intros c Hok; cbn; unfold in_bitmap;
    pose proof (creation_kind_range c Hok); lia.
Qed.

Lemma sizeof_section_le c : creation_ok c -> written_size c <> 0 ->
  sizeof_section (enum_to_section (creation_kind c)) <= written_size c.
Proof.
  intros [Hc _] Hz. destruct c as [kind sec|sec|header sec|members]; cbn [creation_kind written_size enum_to_section sizeof_section] in *.
  - destruct Hc as (_ & -> & _). pose proof (section_end_ge sec). cbn. lia.
  - lia.
  - pose proof (section_end_ge sec). lia.
  - case_bool_decide as E; [lia|]. destruct members; [done|cbn; lia].
Qed.

Lemma contents_size_ok cs out : Forall creation_ok cs -> 0 <= out -> place_end cs out < 2 ^ 61 ->
  contents_size cs out = Ok (place_end cs out).
Proof.
  intros Hc. revert out. induction Hc as [|c cs Hok Hc IH]; intros out Ho He; [done|]. cbn [contents_size place_end] in *.
  pose proof (place_end_ge cs (up8 out + written_size c)). pose proof (up8_bounds out). pose proof (written_size_nonneg c).
  unfold creation_aligned. rewrite aligned8 by lia. cbn [obind]. rewrite creation_size_ok by done. cbn [obind].
  rewrite wrap_small by lia. apply IH; lia.
Qed.

Lemma is_sorted_ok cs : StronglySorted Z.lt (kinds cs) -> is_sorted cs = true.
Proof.
  induction cs as [|a [|b cs] IH]; intros Hs; [done..|].
  change (negb (kind_index (creation_kind b) <? kind_index (creation_kind a)) && is_sorted (b :: cs) = true). apply StronglySorted_inv in Hs as [Hs Hf].
  rewrite IH by done. apply Forall_inv in Hf. cbn in Hf. apply andb_true_iff. split; [|done].
  apply negb_true_iff, Z.ltb_ge. lia.
Qed.

Lemma first_place_ge cs : cs <> [] -> 24 <= first_place cs.
Proof. intros Hc. unfold first_place, size_bytes, offsetof_arr. destruct cs; [done|]. cbn [length]. lia. Qed.

(** ** Writing the sections *)

Lemma copy_sections_ok cs sig bm : Forall creation_ok cs -> 0 <= bm < 2 ^ 64 ->
  forall out m pre rest, 0 <= out -> place_end cs out < 2 ^ 61 ->
    drop (length pre) (set_bits 64 bm) = kinds cs -> length rest = length cs ->
    exists m', copy_sections cs out (Fragment sig (mk_sparse_array bm (pre ++ rest)) m) =
        Ok (place_end cs out, Fragment sig (mk_sparse_array bm (pre ++ places cs out)) m') /\
      same_outside out (place_end cs out) m m' /\ Forall2 (section_at m') (places cs out) cs.
Proof.
  intros Hc Hbm. induction Hc as [|c cs Hok Hc IH]; intros out m pre rest Ho He Hk Hl.
  { destruct rest; [|done]. exists m. split_and!; [done|apply same_outside_refl|constructor]. }
  destruct rest as [|r rest]; [done|]. cbn [place_end] in *. pose proof (up8_bounds out). pose proof (written_size_nonneg c).
  pose proof (place_end_ge cs (up8 out + written_size c)) as Hge.
  cbn [copy_sections]. unfold creation_aligned. rewrite aligned8 by lia. cbn [obind fr_arr fr_mem fr_signature].
  assert (set_bits 64 bm !! length pre = Some (kind_index (creation_kind c))) as Hlk.
  { rewrite <- (Nat.add_0_r (length pre)), <- lookup_drop, Hk. done. }
  rewrite (assign_bits_ok 64 ltac:(lia) _ (length pre)) by (try done; cbn; rewrite length_app; cbn; lia). cbn [obind bitmap_ elements_].
  rewrite insert_app_r_alt, Nat.sub_diag by lia. cbn [list_insert insert].
  destruct (wp_elim _ _ _ (creation_write_spec c (up8 out) m Hok ltac:(lia) (up8_mod out))) as (p & m1 & E & -> & Hat & Hs).
  rewrite E. destruct (IH (up8 out + written_size c) m1 (pre ++ [up8 out]) rest) as (m2 & E2 & Hs2 & Hf); [lia|done| |by injection Hl|].
  { rewrite length_app. cbn [length]. rewrite <- drop_drop, Hk. done. }
  exists m2. rewrite <- !app_assoc in E2. cbn [app] in E2. rewrite E2. split_and!; [done| |].
  - eapply same_outside_trans; [|eapply same_outside_weaken; [exact Hs2|lia|lia]]. eapply same_outside_weaken; [exact Hs|lia|lia].
  - constructor; [|done]. eapply section_at_frame; [done|apply up8_mod|exact Hat|exact Hs2|lia].
Qed.

(** The fragment that [populate] makes *)
Record populated (cs : list creation_dispatcher) (f : fragment) : Prop := {
  pf_signature : fr_signature f = fragment_signature;
  pf_bitmap : 0 <= bitmap_ (fr_arr f) < 2 ^ 64;
  pf_kinds : set_bits 64 (bitmap_ (fr_arr f)) = kinds cs;
  pf_places : elements_ (fr_arr f) = places cs (first_place cs);
  pf_sections : Forall2 (section_at (fr_mem f)) (places cs (first_place cs)) cs
}.

Section populated.
Context (cs : list creation_dispatcher) (f : fragment).
Hypothesis Hok : sections_ok cs.
Hypothesis Hf : populated cs f.

Lemma has_section_ok kind : has_section f kind = bool_decide (kind_index kind ∈ kinds cs).
Proof.
  unfold has_section. rewrite has_index_bits; [by rewrite (pf_kinds _ _ Hf)|]. destruct kind; cbn; lia.
Qed.

Lemma place_ok k c : cs !! k = Some c ->
  exists p, places cs (first_place cs) !! k = Some p /\ index_impl 64 (fr_arr f) (kind_index (creation_kind c)) = Ok p /\
    section_at (fr_mem f) p c.
Proof.
  intros Hk. pose proof (pf_sections _ _ Hf) as Hs. destruct (Forall2_lookup_r _ _ _ _ _ Hs Hk) as (p & Hp & Hat).
  exists p. split_and!; [done| |done]. rewrite (index_bits 64 ltac:(lia) _ k), (pf_places _ _ Hf), Hp; [done|].
  rewrite (pf_kinds _ _ Hf). unfold kinds. by rewrite list_lookup_fmap, Hk.
Qed.

Lemma places_bounds cs' out k p : places cs' out !! k = Some p -> out <= p <= place_end cs' out /\ p mod 8 = 0.
Proof.
  revert out k. induction cs' as [|c cs' IH]; intros out k Hk; [done|]. cbn [places place_end] in *.
  pose proof (up8_bounds out). pose proof (written_size_nonneg c). pose proof (place_end_ge cs' (up8 out + written_size c)).
  destruct k as [|k]; cbn in Hk; [injection Hk as <-; split; [lia|apply up8_mod]|].
  destruct (IH (up8 out + written_size c) k Hk). split; [lia|done].
Qed.

Lemma section_reads_place k c : cs !! k = Some c ->
  exists p, make_dispatcher f (creation_kind c) = Ok (enum_to_section (creation_kind c), p) /\
    section_offset f (creation_kind c) = Ok p /\ section_reads p c (fr_mem f).
Proof.
  intros Hk. destruct (place_ok k c Hk) as (p & Hp & Hi & Hat). exists p.
  assert (creation_ok c) as Hc by (by eapply Forall_lookup_1; [apply Hok|]).
  pose proof (first_place_ge cs (sk_nonempty _ Hok)). pose proof (sk_end _ Hok).
  destruct (places_bounds cs (first_place cs) k p Hp) as [Hb Hm].
  assert (has_section f (creation_kind c) = true) as Hh.
  { rewrite has_section_ok. apply bool_decide_eq_true_2. apply list_elem_of_fmap. exists c. split; [done|].
    by eapply list_elem_of_lookup_2. }
  assert (section_offset f (creation_kind c) = Ok p) as Ho by (unfold section_offset; rewrite Hh; exact Hi).
  split_and!; [|done|].
  - unfold make_dispatcher. rewrite Hh. cbn [oassert obind]. rewrite Ho. cbn [obind].
    destruct (creation_kind_range c Hc) as [Hl _]. by destruct (creation_kind c).
  - apply section_reads_ok; [done|unfold fragment_end in *; lia|done|done|].
    by eapply Forall_lookup_1 in Hk; [|apply (sk_sizes _ Hok)].
Qed.

Lemma places_next cs' out k c p : cs' !! k = Some c -> places cs' out !! k = Some p ->
  match drop (S k) cs' with
  | [] => place_end cs' out = p + written_size c
  | _ => places cs' out !! S k = Some (up8 (p + written_size c))
  end.
Proof.
  revert out k. induction cs' as [|c' cs' IH]; intros out k Hc Hp; [done|].
  destruct k as [|k]; cbn [lookup list_lookup places] in Hc, Hp.
  - simplify_eq. by destruct cs'.
  - exact (IH _ k Hc Hp).
Qed.

(** Where the section after the [n]th begins, or the fragment ends *)
Definition next_place (n : nat) (c : creation_dispatcher) (p : Z) : Z :=
  match drop (S n) cs with [] => fragment_end cs | _ => up8 (p + written_size c) end.

Lemma next_place_bounds n c p : cs !! n = Some c -> places cs (first_place cs) !! n = Some p ->
  p + written_size c <= next_place n c p <= fragment_end cs.
Proof.
  intros Hn Hp. pose proof (places_next cs _ n c p Hn Hp) as Hnext. fold (fragment_end cs) in Hnext. unfold next_place.
  destruct (drop (S n) cs); [lia|]. destruct (places_bounds cs _ _ _ Hnext) as [Hb _]. fold (fragment_end cs) in Hb.
  pose proof (up8_bounds (p + written_size c)). lia.
Qed.

Lemma next_offset_ok n c p back : cs !! n = Some c -> places cs (first_place cs) !! n = Some p -> last (kinds cs) = Some back ->
  (if kind_index (creation_kind c) =? back then Ok (fragment_end cs)
   else match kinds (drop (S n) cs) with next :: _ => index_impl 64 (fr_arr f) next | [] => Throw Undefined end) =
  Ok (next_place n c p).
Proof.
  intros Hn Hp Hback. pose proof (places_next cs _ n c p Hn Hp) as Hnext. unfold next_place.
  rewrite last_lookup in Hback. unfold kinds in Hback. rewrite length_fmap, list_lookup_fmap in Hback.
  destruct (cs !! pred (length cs)) as [cb|] eqn:Hcb; [|done]. injection Hback as <-.
  pose proof (length_drop cs (S n)) as Hlen. pose proof (lookup_lt_Some _ _ _ Hn).
  destruct (drop (S n) cs) as [|c2 post] eqn:Hd; cbn [length compose] in *.
  - replace (pred (length cs)) with n in Hcb by lia. rewrite Hn in Hcb. injection Hcb as ->. by rewrite Z.eqb_refl.
  - assert (kind_index (creation_kind c) < kind_index (creation_kind cb)) as Hlt.
    { apply (sorted_lookup_lt (kinds cs) n (pred (length cs))); [apply Hok|..|lia];
        unfold kinds; rewrite list_lookup_fmap; [by rewrite Hn|by rewrite Hcb]. }
    rewrite (proj2 (Z.eqb_neq _ _)) by lia. cbn [kinds fmap list_fmap compose].
    destruct (place_ok (S n) c2) as (q & Hq & Hqi & _).
    { rewrite <- (Nat.add_0_r (S n)), <- lookup_drop, Hd. done. }
    rewrite Hnext in Hq. injection Hq as <-. exact Hqi.
Qed.

Lemma offset_valid_ok n c p fext offset : cs !! n = Some c -> places cs (first_place cs) !! n = Some p ->
  ex_addr fext mod 8 = 0 -> 0 <= ex_addr fext -> ex_addr fext + fragment_end cs < 2 ^ 64 -> ex_size fext = fragment_end cs ->
  0 <= offset <= p ->
  has_section f (creation_kind c) = true /\ p < next_place n c p /\
  section_offset_is_valid (enum_to_section (creation_kind c)) f fext offset p (next_place n c p - p) = Ok (next_place n c p).
Proof.
  intros Hn Hp Ha Ha0 Hlim Hsz Hoff. pose proof (sk_end _ Hok) as Hend. pose proof (next_place_bounds n c p Hn Hp) as Hnx.
  destruct (places_bounds cs _ n p Hp) as [Hb Hm].
  assert (creation_ok c) as Hc by (by eapply Forall_lookup_1; [apply Hok|]).
  assert (written_size c <> 0) as Hz by (by eapply Forall_lookup_1 in Hn; [|apply (sk_sizes _ Hok)]).
  pose proof (written_size_nonneg c). pose proof (sizeof_section_le c Hc Hz) as Hle.
  destruct (section_reads_place n c Hn) as (p' & _ & Ho & [Hr _]). destruct (place_ok n c Hn) as (p2 & Hp2 & Hi & _).
  assert (has_section f (creation_kind c) = true) as Hh by (unfold section_offset in Ho; by destruct (has_section f _)).
  assert (p' = p) as -> by (unfold section_offset in Ho; rewrite Hh in Ho; cbn [oassert obind] in Ho; congruence).
  split_and!; [done|lia|].
  unfold section_offset_is_valid. rewrite wrap_small, Z.add_mod, Ha, Hm by lia.
  rewrite (proj2 (Z.eqb_eq _ _)) by done. rewrite (proj2 (Z.ltb_ge _ _)), (proj2 (Z.ltb_ge _ _)) by lia. cbn [negb orb].
  rewrite !Z.gtb_ltb, (proj2 (Z.ltb_ge _ _)), (proj2 (Z.ltb_ge _ _)) by lia. cbn [orb]. rewrite Hr. cbn [obind].
  rewrite Z.gtb_ltb, (proj2 (Z.ltb_ge _ _)) by lia. rewrite wrap_small by lia. f_equal. lia.
Qed.

(** A fragment that was populated passes the checks of [load] over its own extent. *)
Lemma sections_valid_ok fext back : ex_addr fext mod 8 = 0 -> 0 <= ex_addr fext -> ex_addr fext + fragment_end cs < 2 ^ 64 ->
  ex_size fext = fragment_end cs -> last (kinds cs) = Some back ->
  forall post n offset, drop n cs = post -> (forall p, places cs (first_place cs) !! n = Some p -> offset <= p) -> 24 <= offset ->
    sections_valid f fext back (kinds post) offset = Ok true.
Proof.
  intros Ha Ha0 Hlim Hsz Hback. induction post as [|c post IH]; intros n offset Hd Hoff H24; [done|].
  assert (cs !! n = Some c) as Hn.
  { rewrite <- (Nat.add_0_r n), <- lookup_drop, Hd. done. }
  assert (drop (S n) cs = post) as Hd' by (rewrite <- Nat.add_1_r, <- drop_drop, Hd; done).
  destruct (place_ok n c Hn) as (p & Hp & Hi & Hat). specialize (Hoff p Hp).
  destruct (offset_valid_ok n c p fext offset Hn Hp Ha Ha0 Hlim Hsz ltac:(lia)) as (Hh & Hlt & Hv).
  pose proof (next_offset_ok n c p back Hn Hp Hback) as Hno. rewrite Hd' in Hno.
  assert (creation_ok c) as Hc by (by eapply Forall_lookup_1; [apply Hok|]).
  destruct (creation_kind_range c Hc) as [Hl _].
  cbn [kinds fmap list_fmap sections_valid]. fold (kinds post). cbn [compose]. rewrite Hi, Hsz, Hno. cbn [obind].
  rewrite (proj2 (Z.ltb_ge _ _)), (proj2 (Z.leb_gt _ _)) by lia. cbn [orb].
  rewrite kind_of_index, Hh by done. cbn [oassert obind]. rewrite Hv. cbn [obind]. rewrite (proj2 (Z.eqb_neq _ 0)) by lia.
  rewrite (IH (S n) (next_place n c p)); [by destruct (creation_kind c)|done| |lia].
  intros q Hq. pose proof (places_next cs _ n c p Hn Hp) as Hnext. unfold next_place. rewrite Hd' in *.
  destruct post; [|by rewrite Hnext in Hq; injection Hq as <-].
  apply lookup_lt_Some in Hq. rewrite length_places in Hq. apply (f_equal length) in Hd'. rewrite length_drop in Hd'. cbn in Hd'. lia.
Qed.

Lemma last_kind : exists c, cs !! pred (length cs) = Some c /\ last (kinds cs) = Some (kind_index (creation_kind c)).
Proof.
  destruct (cs !! pred (length cs)) as [c|] eqn:E.
  - exists c. split; [done|]. rewrite last_lookup. unfold kinds. by rewrite length_fmap, list_lookup_fmap, E.
  - apply lookup_ge_None_1 in E. pose proof (sk_nonempty _ Hok). destruct cs; [done|cbn in E; lia].
Qed.

Lemma bitmap_nonzero : bitmap_ (fr_arr f) <> 0.
Proof.
  intros E. destruct last_kind as (c & _ & Hl). rewrite <- (pf_kinds _ _ Hf), E in Hl. by vm_compute in Hl.
Qed.

Lemma appears_valid_ok fext : ex_addr fext mod 8 = 0 -> 0 <= ex_addr fext -> ex_addr fext + fragment_end cs < 2 ^ 64 ->
  ex_size fext = fragment_end cs -> fragment_appears_valid f fext = Ok true.
Proof.
  intros Ha Ha0 Hlim Hsz. destruct last_kind as (c & Hc & Hl). unfold fragment_appears_valid.
  rewrite (pf_signature _ _ Hf), bool_decide_true by done. cbn [negb]. rewrite (proj2 (Z.eqb_neq _ _) bitmap_nonzero).
  rewrite (back_bits 64 ltac:(lia) (fr_arr f) (pf_bitmap _ _ Hf) (kind_index (creation_kind c))) by (by rewrite (pf_kinds _ _ Hf)).
  cbn [obind]. assert (creation_ok c) as Hok' by (by eapply Forall_lookup_1; [apply Hok|]).
  destruct (creation_kind_range c Hok') as [_ Hr]. rewrite Z.geb_leb, (proj2 (Z.leb_gt _ _)) by (cbn; lia).
  pose proof (iterate_ok 64 ltac:(lia) _ (pf_bitmap _ _ Hf)) as Hit. rewrite (pf_kinds _ _ Hf) in Hit.
  destruct (indices_begin 64 _) as [it|]; [|done]. cbn [obind] in *. change (Z.to_nat 64) with 64%nat in Hit. rewrite Hit. cbn [obind].
  eapply (sections_valid_ok fext _ Ha Ha0 Hlim Hsz Hl cs 0); [done| |done].
  intros p Hp. destruct (places_bounds cs _ _ _ Hp). pose proof (first_place_ge cs (sk_nonempty _ Hok)). change sizeof_fragment with 24. lia.
Qed.

(** The size that is computed from the fragment is that of its sections. *)
Lemma fragment_size_ok : fragment_size_bytes f = Ok (fragment_end cs).
Proof.
  destruct last_kind as (c & Hc & Hl). unfold fragment_size_bytes. rewrite (size_bits 64 _ (pf_bitmap _ _ Hf)), (pf_kinds _ _ Hf).
  unfold kinds at 1. rewrite length_fmap. pose proof (lookup_lt_Some _ _ _ Hc). rewrite (proj2 (Z.eqb_neq _ 0)) by lia.
  destruct (place_ok _ c Hc) as (p & Hp & Hi & _). destruct (section_reads_place _ c Hc) as (p' & Hm & Ho & [Hr _]).
  pose proof (places_next cs _ _ c p Hc Hp) as Hn. rewrite drop_ge in Hn by lia. fold (fragment_end cs) in Hn.
  assert (creation_ok c) as Hok' by (by eapply Forall_lookup_1; [apply Hok|]).
  assert (indices_back 64 (bitmap_ (fr_arr f)) = Ok (kind_index (creation_kind c))) as Hb
    by (apply (back_bits 64 ltac:(lia) (fr_arr f) (pf_bitmap _ _ Hf)); by rewrite (pf_kinds _ _ Hf)).
  unfold back, empty. rewrite (proj2 (Z.eqb_neq _ _) bitmap_nonzero). cbn [negb oassert obind]. rewrite Hb. cbn [obind].
  rewrite Hi. cbn [obind]. rewrite kind_of_index by apply (creation_kind_range c Hok'). rewrite Hm. cbn [obind fst snd]. rewrite Hr. cbn [obind].
  pose proof (sk_end _ Hok). pose proof (first_place_ge cs (sk_nonempty _ Hok)). pose proof (place_end_ge cs (first_place cs)).
  rewrite <- Hn, wrap_small; [done|]. fold (fragment_end cs) in *. lia.
Qed.
End populated.

(** ** Creating and loading fragments *)

Lemma populate_ok cs : sections_ok cs -> exists f, populate cs = Ok f /\ populated cs f.
Proof.
  intros Hok. pose proof (sk_end _ Hok). pose proof (first_place_ge cs (sk_nonempty _ Hok)).
  pose proof (place_end_ge cs (first_place cs)). fold (fragment_end cs) in *.
  destruct (kinds_range cs (sk_sections _ Hok)) as [Hin _].
  destruct (ctor_ok 64 0 0 ltac:(lia) (kinds cs) [] Hin (sorted_nodup _ (sk_sorted _ Hok))) as (bm & es & E & Eb & _ & Hlen).
  destruct (bitmap_sorted 64 ltac:(lia) (kinds cs) (sk_sorted _ Hok) Hin) as (bm' & Eb' & Hbm & Hbits).
  rewrite Eb in Eb'. injection Eb' as <-.
  assert (SparseArray.size (mk_sparse_array bm es) = Z.of_nat (length cs)) as Hsize.
  { rewrite (size_bits 64 (mk_sparse_array bm es) Hbm). cbn [bitmap_]. rewrite Hbits. unfold kinds. by rewrite length_fmap. }
  unfold populate. fold (kinds cs). rewrite E. cbn [obind]. rewrite Hsize. fold (first_place cs).
  destruct (copy_sections_ok cs fragment_signature bm (sk_sections _ Hok) Hbm (first_place cs) ∅ [] es) as (m & Ec & _ & Hf); try done; [lia| |].
  { rewrite Hlen. unfold kinds. rewrite length_fmap. pose proof (sk_nonempty _ Hok). destruct cs; [done|]. cbn [length]. lia. }
  cbn [app] in Ec. rewrite Ec. cbn [obind]. fold (fragment_end cs).
  unfold sections_size_bytes. rewrite is_sorted_ok by apply Hok. cbn [oassert obind]. fold (first_place cs).
  rewrite contents_size_ok by (try apply Hok; lia). fold (fragment_end cs). cbn [obind].
  rewrite Z.geb_leb, (proj2 (Z.leb_le _ _)), Z.eqb_refl by lia. cbn [andb oassert obind].
  set (f := Fragment _ _ _). assert (populated cs f) as Hp by (by split).
  rewrite (fragment_size_ok cs f Hok Hp). cbn [obind]. rewrite Z.eqb_refl. cbn [oassert obind]. by exists f.
Qed.

Section store.
Context {St O : Type} `{TL : TransactionStoreLaws St O} `{FS : FragmentStore O}.

(** What [alloc] does: the fragment is the object at the address it returns, which is aligned. *)
Record fragment_stored (s : St) (cs : list creation_dispatcher) (x : extent) (s' : St) (f : fragment) : Prop := {
  fs_inv : ts_inv s';
  fs_addr : ts_size s <= ex_addr x < ts_size s + 8;
  fs_aligned : ex_addr x mod 8 = 0;
  fs_size : ex_size x = fragment_end cs;
  fs_end : ts_size s' = ex_addr x + ex_size x;
  fs_objects : ts_objects s' = <[ex_addr x := of_fragment f]> (ts_objects s);
  fs_populated : populated cs f
}.

Lemma fragment_alloc_ok cs s : sections_ok cs -> ts_inv s -> ts_size s + 8 + fragment_end cs <= ts_limit ->
  exists x s' f, fragment_alloc cs s = (Ok x, s') /\ fragment_stored s cs x s' f.
Proof.
  intros Hok Hs Hroom. destruct (populate_ok cs Hok) as (f & Hf & Hp). pose proof (sk_end _ Hok).
  pose proof (first_place_ge cs (sk_nonempty _ Hok)). pose proof (place_end_ge cs (first_place cs)). fold (fragment_end cs) in *.
  destruct (ts_alloc_rw_ok s (fragment_end cs) 3 (of_fragment f) Hs ltac:(lia) ltac:(lia) Hroom) as (s' & a & E & Ha & Hinv & Hsz & Hob & _).
  change (2 ^ 3) with 8 in *. pose proof (Z.mod_pos_bound (- ts_size s) 8 ltac:(lia)).
  exists (Extent a (fragment_end cs)), s', f. split.
  - unfold fragment_alloc, sections_size_bytes, massert, bind, lift. rewrite is_sorted_ok by apply Hok. cbn [oassert obind].
    fold (first_place cs). rewrite contents_size_ok by (try apply Hok; lia). fold (fragment_end cs). change alignof_fragment with 8. by rewrite Hf, E.
  - split; cbn [ex_addr ex_size]; try done; [lia|]. rewrite Ha. apply up8_mod.
Qed.

(** A stored fragment is loaded from any later state of the store. *)
Lemma fragment_load_ok s cs x s' f t : sections_ok cs -> ts_inv s -> fragment_stored s cs x s' f ->
  ts_readable t -> ts_size s' <= ts_size t -> ts_objects t !! ex_addr x = Some (of_fragment f) ->
  fragment_load t x = Ok f.
Proof.
  intros Hok Hs Hst Ht Hsz Hob. pose proof (first_place_ge cs (sk_nonempty _ Hok)). pose proof (place_end_ge cs (first_place cs)).
  pose proof (sk_end _ Hok). fold (fragment_end cs) in *. pose proof (fs_size _ _ _ _ _ Hst) as Hx. pose proof (fs_end _ _ _ _ _ Hst).
  pose proof (ts_size_range _ Ht). pose proof (ts_size_range _ (ts_inv_readable _ Hs)). pose proof (ts_limit_bound (S := St) (O := O)).
  pose proof (fs_addr _ _ _ _ _ Hst). unfold fragment_load. rewrite (proj2 (Z.ltb_ge _ _)) by (change sizeof_fragment with 24; lia).
  change alignof_fragment with 8. rewrite (fs_aligned _ _ _ _ _ Hst). cbn [Z.eqb negb].
  rewrite (ts_getro_ok t _ _ _ Ht Hob) by lia. cbn [obind]. rewrite to_of_fragment.
  rewrite (appears_valid_ok cs f Hok (fs_populated _ _ _ _ _ Hst)); [done|apply Hst|lia|lia|done].
Qed.
End store.

(** ** What the checks of [load] guarantee, whatever the bytes of the fragment are *)

Section validated.
Context (f : fragment) (fext : extent).
Hypothesis Hsize : 0 <= ex_size fext < 2 ^ 64.
Hypothesis Helements : Forall (fun p => 0 <= p < 2 ^ 64) (elements_ (fr_arr f)).

(** The room that the checks give to the section at [p] *)
Definition section_room (kind : section_kind) (s : Z) : Z := Z.max s (sizeof_section (enum_to_section kind)).

Record section_placed (index lo p s hi : Z) : Prop := {
  sp_index : index_impl 64 (fr_arr f) index = Ok p;
  sp_kind : kind_of index <> sk_last;
  sp_low : lo <= p;
  sp_aligned : wrap64 (ex_addr fext + p) mod 8 = 0;
  sp_size : dispatch_size_bytes (enum_to_section (kind_of index)) p (fr_mem f) = Ok s;
  sp_high : p + section_room (kind_of index) s <= hi;
  sp_inside : hi <= ex_size fext
}.

Lemma index_impl_range i p : index_impl 64 (fr_arr f) i = Ok p -> 0 <= p < 2 ^ 64.
Proof.
  unfold index_impl. destruct (oassert _); [|done]. cbn [obind]. destruct (oassert _); [|done]. cbn [obind].
  destruct (elements_ _ !! _) as [q|] eqn:E; [|done]. intros [= <-]. exact (Forall_lookup_1 _ _ _ _ Helements E).
Qed.

Lemma section_offset_is_valid_inv t lo p size r :
  0 <= p < 2 ^ 64 -> 0 <= size -> section_offset_is_valid t f fext lo p size = Ok r -> r <> 0 ->
  exists s, dispatch_size_bytes t p (fr_mem f) = Ok s /\ wrap64 (ex_addr fext + p) mod 8 = 0 /\ lo <= p /\
    Z.max s (sizeof_section t) <= size /\ p + size <= ex_size fext /\ r = p + size.
Proof.
  intros Hp Hs. unfold section_offset_is_valid. destruct (_ || _) eqn:E; [by intros [= <-]|].
  rewrite !orb_false_iff, negb_false_iff, Z.eqb_eq, !Z.gtb_ltb, !Z.ltb_ge in E.
  destruct E as [[[[Ha H1] H2] H3] H4].
  destruct (dispatch_size_bytes t p (fr_mem f)) as [s|]; [|done]. cbn [obind]. rewrite Z.gtb_ltb.
  destruct (Z.ltb_spec size s); [by intros [= <-]|]. intros [= <-] _. exists s. rewrite (wrap_small 64 (p + size)) by lia. split_and!; done || lia.
Qed.

(** One turn of the loop *)
Lemma sections_valid_cons back index indices lo :
  sections_valid f fext back (index :: indices) lo = Ok true -> 0 <= lo ->
  exists p s hi, section_placed index lo p s hi /\ sections_valid f fext back indices hi = Ok true.
Proof.
  cbn [sections_valid]. destruct (index_impl 64 (fr_arr f) index) as [p|] eqn:Ei; [|done]. cbn [obind].
  destruct (if index =? back then _ else _) as [hi|]; [|done]. cbn [obind]. pose proof (index_impl_range _ _ Ei) as Hp.
  destruct (_ || _) eqn:E; [done|]. rewrite orb_false_iff, Z.ltb_ge, Z.leb_gt in E. destruct E as [Hlo Hhi].
  destruct (oassert _) as [|]; [|done]. cbn [obind]. intros Hv Hlo0.
  assert (kind_of index <> sk_last) as Hk by (intros Hk; rewrite Hk in Hv; done).
  assert ((o <-? section_offset_is_valid (enum_to_section (kind_of index)) f fext lo p (hi - p) ;;
    if o =? 0 then Ok false else sections_valid f fext back indices o) = Ok true) as Hv' by (by destruct (kind_of index)).
  destruct (section_offset_is_valid _ _ _ _ _ _) as [r|] eqn:Er; [|done]. cbn [obind] in Hv'.
  destruct (Z.eqb_spec r 0); [done|].
  destruct (section_offset_is_valid_inv _ lo p (hi - p) r Hp ltac:(lia) Er) as (s & Hs & Ha & _ & Hroom & Hin & ->); [done|].
  exists p, s, hi. replace (p + (hi - p)) with hi in * by lia. split; [|done]. split; try done. unfold section_room. lia.
Qed.

Lemma sections_valid_inv back indices lo :
  sections_valid f fext back indices lo = Ok true -> 0 <= lo ->
  forall k index, indices !! k = Some index -> exists p s hi, section_placed index lo p s hi /\
    forall k' index' p', (k < k')%nat -> indices !! k' = Some index' -> index_impl 64 (fr_arr f) index' = Ok p' -> hi <= p'.
Proof.
  revert lo. induction indices as [|i indices IH]; intros lo Hv Hlo k index Hk; [done|].
  destruct (sections_valid_cons _ _ _ _ Hv Hlo) as (p & s & hi & Hpl & Hv'). pose proof (sp_high _ _ _ _ _ Hpl) as Hhi.
  pose proof (sp_low _ _ _ _ _ Hpl). assert (0 < section_room (kind_of i) s) by (unfold section_room; destruct (kind_of i); cbn; lia).
  destruct k as [|k]; cbn in Hk.
  - injection Hk as <-. exists p, s, hi. split; [done|]. intros [|k'] index' p' Hk' Hi' Hp'; [lia|]. cbn in Hi'.
    destruct (IH hi Hv' ltac:(lia) k' index' Hi') as (q & t & hi' & Hq & _). pose proof (sp_index _ _ _ _ _ Hq).
    pose proof (sp_low _ _ _ _ _ Hq). congruence.
  - destruct (IH hi Hv' ltac:(lia) k index Hk) as (q & t & hi' & [] & Hlater). exists q, t, hi'. split; [split; done || lia|].
    intros [|k'] index' p' Hk' Hi' Hp'; [lia|]. by apply (Hlater k' index'); [lia| |].
Qed.

Lemma validated_indices : 0 <= bitmap_ (fr_arr f) < 2 ^ 64 -> fragment_appears_valid f fext = Ok true ->
  fr_signature f = fragment_signature /\ set_bits 64 (bitmap_ (fr_arr f)) <> [] /\
  exists back, sections_valid f fext back (set_bits 64 (bitmap_ (fr_arr f))) sizeof_fragment = Ok true.
Proof.
  intros Hbm. unfold fragment_appears_valid. case_bool_decide as Hs; [|done]. cbn [negb].
  destruct (Z.eqb_spec (bitmap_ (fr_arr f)) 0) as [|Hz]; [done|]. destruct (indices_back 64 _) as [back|]; [|done]. cbn [obind].
  destruct (_ >=? _); [done|]. pose proof (iterate_ok 64 ltac:(lia) _ Hbm) as Hit.
  destruct (indices_begin 64 _) as [it|]; [|done]. cbn [obind] in *. change (Z.to_nat 64) with 64%nat in Hit. rewrite Hit. cbn [obind].
  intros Hv. split_and!; [done| |by exists back]. intros E. apply Hz. apply Z.bits_inj_0. intros i.
  destruct (Z.lt_ge_cases i 0); [by apply Z.testbit_neg_r|]. destruct (Z.lt_ge_cases i 64).
  - apply not_true_is_false. intros Hb. assert (i ∈ set_bits 64 (bitmap_ (fr_arr f))) as Hin by (by apply elem_of_set_bits). by rewrite E in Hin; apply elem_of_nil in Hin.
  - destruct (decide (bitmap_ (fr_arr f) = 0)) as [->|]; [apply Z.bits_0|]. apply Z.bits_above_log2; [lia|]. apply Z.log2_lt_pow2; [lia|].
    eapply Z.lt_le_trans; [apply Hbm|]. apply Z.pow_le_mono_r; lia.
Qed.
End validated.
