(* ===== verification/HamtTypes.v ===== *)
(** * Index pointers and trie nodes

    Models include/pstore/core/hamt_map_types.hpp, lib/core/hamt_map_types.cpp and
    include/pstore/core/array_stack.hpp: the tagged [index_pointer], the linear and
    internal nodes with their in-memory and in-store forms, and the parent stack. *)

From S2P Require Import Prelude BitCount StoreIntf.

(** ** Constants *)

Definition hash_index_bits : Z := 6. (* pop_count (sizeof (hash_type) * 8 - 1) *)
Definition hash_size : Z := 64.
Definition max_hash_bits : Z := (hash_size + 7) / hash_index_bits * hash_index_bits.
Definition hash_index_mask : Z := 2 ^ hash_index_bits - 1.
Definition max_internal_depth : Z := max_hash_bits / hash_index_bits.
Definition max_tree_depth : Z := max_internal_depth + 2.
Definition internal_node_bit : Z := 1.
Definition heap_node_bit : Z := 2.
Definition not_found : Z := uint64_max.

Definition depth_is_internal_node (shift : Z) : bool := shift <? max_hash_bits.

(** ** Index pointers

    The union of a store address and of pointers to heap nodes, told apart by the two
    low bits of the word. *)

Definition is_internal (p : Z) : bool := negb (Z.land p internal_node_bit =? 0).
Definition is_linear (p : Z) : bool := is_internal p.
Definition is_leaf (p : Z) : bool := negb (is_internal p).
Definition is_heap (p : Z) : bool := negb (Z.land p heap_node_bit =? 0).
Definition is_address (p : Z) : bool := negb (is_heap p).
Definition is_empty (p : Z) : bool := p =? 0.

Definition tag_node (p : Z) : Z := Z.lor (Z.lor p internal_node_bit) heap_node_bit.
Definition untag_node (p : Z) : Z :=
  Z.land (Z.land p (Z.lnot internal_node_bit)) (Z.lnot heap_node_bit).
Definition untag_address (p : Z) : Z := Z.land p (Z.lnot internal_node_bit).

(** ** Nodes *)

(** The children of an internal node are those of its bitmap's one bits, in order; a
    linear node is the array of the addresses of its leaves. *)
Inductive node :=
  | Internal (bitmap : Z) (children : list Z)
  | Linear (leaves : list Z).

(** What the index stores: nodes, leaves (a serialized key/value pair) and the header block. *)
Inductive obj (K V : Type) :=
  | OInternal (bitmap : Z) (children : list Z)
  | OLinear (leaves : list Z)
  | OLeaf (key : K) (value : V)
  | OHeaderBlock (size : Z) (root : Z).
Arguments OInternal {K V} _ _.
Arguments OLinear {K V} _.
Arguments OLeaf {K V} _ _.
Arguments OHeaderBlock {K V} _ _.

(** ** The parent stack *)

(** A [parent_type] is a node and the position of a child; the stack is an
    [array_stack] of [max_tree_depth] of them, its top first. *)
Abbreviation parent_type := (Z * Z)%type.
Definition parent_stack : Type := list parent_type.

Definition stack_push (x : parent_type) (st : parent_stack) : outcome parent_stack :=
  _ <-? oassert (Z.of_nat (length st) <? max_tree_depth) ;; Ok (x :: st).

Definition stack_pop (st : parent_stack) : outcome parent_stack :=
  match st with
  | [] => Throw Assert
  | _ :: st => Ok st
  end.

Definition stack_top (st : parent_stack) : outcome parent_type :=
  match st with
  | [] => Throw Assert
  | x :: _ => Ok x
  end.

Section nodes.
Context {K V St : Type} `{TS : TransactionStore St (obj K V)} `{HA : HeapAllocator node}.

(** The state that the index code runs in: the heap nodes and the store. *)
Record world := World { heap : gmap Z node; store : St }.

Definition with_world {A} (f : world -> outcome A) : M world A := fun w => (f w, w).

(** Code that runs on the transaction. *)
Definition in_store {A} (m : M St A) : M world A :=
  fun w => let '(r, s) := m (store w) in (r, World (heap w) s).

(** *** Heap memory *)

Definition heap_deref (w : world) (l : Z) : outcome node :=
  match heap w !! l with
  | Some n => Ok n
  | None => Throw Dangling
  end.

(** [new (nchildren{...}) T (...)]: the address of a block that holds the node. *)
Definition heap_new (n : node) : M world Z :=
  fun w => let l := new_addr (heap w) in (Ok l, World (<[l := n]> (heap w)) (store w)).

(** Assignment through a pointer to a heap node. *)
Definition heap_assign (l : Z) (n : node) : M world unit :=
  _ <- with_world (fun w => heap_deref w l) ;;
  modify (fun w => World (<[l := n]> (heap w)) (store w)).

(** [delete p] *)
Definition heap_delete (l : Z) : M world unit :=
  _ <- with_world (fun w => heap_deref w l) ;;
  modify (fun w => World (delete l (heap w)) (store w)).

(** A [std::unique_ptr] that owns a block until the end of its scope: the block is
    released when the scope is left by an exception. *)
Definition unique_scope {A} (owned : option Z) (m : M world A) : M world A :=
  fun w =>
    match m w, owned with
    | (Throw e, w'), Some l => (Throw e, World (delete l (heap w')) (store w'))
    | r, _ => r
    end.

(** *** Linear nodes *)

Definition linear_size_bytes (n : Z) : Z := 24 - 8 + 8 * n.

(** [linear_node::allocate (num_children, from_node)]: the new node's leaves. *)
Definition linear_allocate (num_children : nat) (from_node : list Z) : list Z :=
  let num_to_copy := Nat.min num_children (length from_node) in
  take num_to_copy from_node ++ replicate (num_children - num_to_copy) 0.

(** [linear_node::allocate_from (orig_node, extra_children)] *)
Definition linear_allocate_from (orig_node : list Z) (extra_children : nat) : list Z :=
  linear_allocate (length orig_node + extra_children) orig_node.

(** [linear_node::get_node] *)
Definition linear_get_node (w : world) (p : Z) : outcome (list Z) :=
  if is_heap p then
    n <-? heap_deref w (untag_node p) ;;
    match n with
    | Linear leaves => Ok leaves
    | Internal _ _ => Throw Assert
    end
  else
    let addr := untag_address p in
    _ <-? (if addr mod 8 =? 0 then Ok tt else Throw (Raise bad_alignment)) ;;
    o <-? ts_getro (store w) addr 24 ;;
    match o with
    | OLinear leaves =>
        _ <-? ts_getro (store w) addr (linear_size_bytes (Z.of_nat (length leaves))) ;;
        Ok leaves
    | _ => Throw (Raise index_corrupt)
    end.

(** [linear_node::flush] *)
Definition linear_flush (leaves : list Z) : M world Z :=
  in_store (ts_alloc_rw (linear_size_bytes (Z.of_nat (length leaves))) 8 (OLinear leaves)).

(** *** Internal nodes *)

Definition internal_size_bytes (num_children : Z) : outcome Z :=
  _ <-? oassert ((num_children >? 0) && (num_children <? max_hash_bits)) ;;
  Ok (24 - 8 + 8 * num_children).

(** [internal_node::size] *)
Definition internal_size (bitmap : Z) : outcome Z :=
  _ <-? oassert (negb (bitmap =? 0)) ;; Ok (pop_count bitmap).

(** [internal_node::get_new_index] *)
Definition get_new_index (new_hash existing_hash : Z) : Z :=
  if new_hash >=? existing_hash then 1 else 0.

(** The constructor with one child. *)
Definition internal_one (leaf hash : Z) : node := Internal (wrap64 (Z.shiftl 1 hash)) [leaf].

(** The constructor with two children. *)
Definition internal_two (existing_leaf new_leaf existing_hash new_hash : Z) : node :=
  let index_a := get_new_index new_hash existing_hash in
  Internal (Z.lor (wrap64 (Z.shiftl 1 existing_hash)) (wrap64 (Z.shiftl 1 new_hash)))
           (if index_a =? 0 then [new_leaf; existing_leaf] else [existing_leaf; new_leaf]).

(** [operator[]] *)
Definition child_at (children : list Z) (i : Z) : outcome Z :=
  match children !! Z.to_nat i with
  | Some p => Ok p
  | None => Throw Assert
  end.

(** [internal_node::lookup] *)
Definition internal_lookup (bitmap : Z) (children : list Z) (hash_index : Z) : outcome (Z * Z) :=
  _ <-? oassert (hash_index <? 2 ^ hash_index_bits) ;;
  let bit_pos := wrap64 (Z.shiftl 1 hash_index) in
  if negb (Z.land bitmap bit_pos =? 0) then
    let index := pop_count (Z.land bitmap (bit_pos - 1)) in
    child <-? child_at children index ;;
    Ok (child, index)
  else Ok (0, not_found).

(** [internal_node::validate_after_load] *)
Fixpoint validate_children (children : list Z) (addr : Z) : bool :=
  match children with
  | [] => true
  | child :: rest =>
      negb (is_heap child || (untag_address child >=? addr)) &&
      negb (existsb (fun other => child =? other) rest) &&
      validate_children rest addr
  end.

(** [internal_node::read_node] *)
Definition read_node (w : world) (addr : Z) : outcome (Z * list Z) :=
  base <-? ts_getro (store w) addr (24 - 8) ;;
  match base with
  | OInternal bitmap children =>
      if bitmap =? 0 then Throw (Raise index_corrupt)
      else
        size <-? internal_size bitmap ;;
        actual_size <-? internal_size_bytes size ;;
        _ <-? oassert (actual_size >? 24 - 8) ;;
        _ <-? ts_getro (store w) addr actual_size ;;
        if validate_children children addr then Ok (bitmap, children)
        else Throw (Raise index_corrupt)
  | _ => Throw (Raise index_corrupt)
  end.

(** [internal_node::get_node] *)
Definition internal_get_node (w : world) (p : Z) : outcome (Z * list Z) :=
  if is_heap p then
    n <-? heap_deref w (untag_node p) ;;
    match n with
    | Internal bitmap children => Ok (bitmap, children)
    | Linear _ => Throw Assert
    end
  else read_node w (untag_address p).

(** [internal_node::make_writable]: the block that the caller owns, when one had to be
    allocated, and the address of the heap node. *)
Definition make_writable (p : Z) (internal : Z * list Z) : M world (option Z * Z) :=
  if is_heap p then
    let inode := untag_node p in
    n <- with_world (fun w => heap_deref w inode) ;;
    match n with
    | Internal _ _ => ret (None, inode)
    | Linear _ => throw Assert
    end
  else
    inode <- heap_new (Internal internal.1 internal.2) ;;
    ret (Some inode, inode).

(** [internal_node::insert_child] on the node at address [inode]. *)
Definition insert_child (inode hash leaf : Z) (parents : parent_stack) : M world parent_stack :=
  n <- with_world (fun w => heap_deref w inode) ;;
  match n with
  | Linear _ => throw Assert
  | Internal bitmap children =>
      let hash_index := Z.land hash hash_index_mask in
      let bit_pos := wrap64 (Z.shiftl 1 hash_index) in
      massert (negb (bit_pos =? 0)) ;;;
      massert (Z.land bitmap bit_pos =? 0) ;;;
      let index := pop_count (Z.land bitmap (bit_pos - 1)) in
      let old_size := pop_count bitmap in
      massert (old_size <? hash_size) ;;;
      massert (index <=? old_size) ;;;
      let children := take (Z.to_nat index) children ++ leaf :: drop (Z.to_nat index) children in
      let bitmap := Z.lor bitmap bit_pos in
      heap_assign inode (Internal bitmap children) ;;;
      massert (pop_count bitmap =? old_size + 1) ;;;
      lift (stack_push (tag_node inode, index) parents)
  end.

(** [internal_node::store_node] *)
Definition store_node (bitmap : Z) (children : list Z) : M world Z :=
  size <- lift (internal_size bitmap) ;;
  num_bytes <- lift (internal_size_bytes size) ;;
  in_store (ts_alloc_rw num_bytes 8 (OInternal bitmap children)).

(** The loop of [internal_node::flush] over the children of the heap node at [inode];
    [flush_child] flushes the internal node at a heap address. *)
Fixpoint flush_children (flush_child : Z -> M world Z) (is_internal_level : bool)
    (inode : Z) (n i : nat) : M world unit :=
  match n with
  | O => ret tt
  | S n =>
      nd <- with_world (fun w => heap_deref w inode) ;;
      match nd with
      | Linear _ => throw Assert
      | Internal bitmap children =>
          p <- lift (child_at children (Z.of_nat i)) ;;
          (if is_heap p then
             p' <- (if is_internal_level then
                      massert (is_internal p) ;;;
                      r <- flush_child (untag_node p) ;;
                      heap_delete (untag_node p) ;;;
                      ret r
                    else
                      massert (is_linear p) ;;;
                      leaves <- with_world (fun w => linear_get_node w p) ;;
                      r <- linear_flush leaves ;;
                      heap_delete (untag_node p) ;;;
                      ret (Z.lor r internal_node_bit)) ;;
             nd' <- with_world (fun w => heap_deref w inode) ;;
             match nd' with
             | Linear _ => throw Assert
             | Internal bitmap' children' => heap_assign inode (Internal bitmap' (<[i := p']> children'))
             end
           else ret tt) ;;;
          flush_children flush_child is_internal_level inode n (i + 1)%nat
      end
  end.

(** [internal_node::flush] on the heap node at [inode]. *)
Fixpoint internal_flush (fuel : nat) (inode : Z) (shifts : Z) : M world Z :=
  match fuel with
  | O => throw OutOfFuel
  | S fuel =>
      let shifts := shifts + hash_index_bits in
      nd <- with_world (fun w => heap_deref w inode) ;;
      match nd with
      | Linear _ => throw Assert
      | Internal bitmap children =>
          size <- lift (internal_size bitmap) ;;
          flush_children (fun l => internal_flush fuel l shifts) (shifts <? max_hash_bits)
            inode (Z.to_nat size) 0 ;;;
          (* Flush itself. *)
          nd <- with_world (fun w => heap_deref w inode) ;;
          match nd with
          | Linear _ => throw Assert
          | Internal bitmap children =>
              r <- store_node bitmap children ;;
              ret (Z.lor r internal_node_bit)
          end
      end
  end.

End nodes.
Arguments world : clear implicits.
