(* ===== verification/HamtMap.v ===== *)
(** * The hash array mapped trie

    Models the class [hamt_map] of include/pstore/core/hamt_map.hpp: construction from a
    header block, insertion, look-up, flushing, clearing and iteration. *)

From S2P Require Import Prelude BitCount StoreIntf HamtTypes.

(** The data members of [hamt_map]. *)
Record hamt_map := HamtMap { revision : Z; root : Z; size : Z }.

(** An iterator is the stack of the nodes visited to reach a leaf, the leaf on top;
    the stack of the end iterator is empty. *)
Definition iterator : Type := parent_stack.

Section hamt_map.
Context {K V St : Type} `{KT : KeyTraits K V} `{TS : TransactionStore St (obj K V)}
  `{HA : HeapAllocator node}.
Local Abbreviation World := (world St).

(** ** Construction and capacity *)

(** [hamt_map (db, pos)] *)
Definition hamt_ctor (s : St) (pos : Z) : outcome hamt_map :=
  rev <-? ts_revision s ;;
  if pos =? 0 then Ok (HamtMap rev 0 0)
  else
    _ <-? (if pos mod 8 =? 0 then Ok tt else Throw (Raise bad_alignment)) ;;
    hb <-? ts_getro s pos 24 ;;
    match hb with
    | OHeaderBlock sz rt =>
        if is_heap rt || ((sz =? 0) && negb (is_empty rt)) || ((sz >? 0) && is_empty rt) ||
           ((sz =? 1) && negb (is_leaf rt)) || ((sz >? 1) && negb (is_internal rt))
        then Throw (Raise index_corrupt)
        else Ok (HamtMap rev rt sz)
    | _ => Throw (Raise index_corrupt)
    end.

(** [hamt_map::empty] *)
Definition hamt_empty (m : hamt_map) : outcome bool :=
  _ <-? oassert (eqb (is_empty (root m)) (size m =? 0)) ;; Ok (size m =? 0).

(** ** Leaves *)

(** One past the pair of [k] and [v] at [addr]: the key, then, suitably aligned, the value. *)
Definition pair_end (addr : Z) (k : K) (v : V) : Z :=
  let p := addr + key_size k in p + (- p) mod 2 ^ value_align + value_size v.

(** [get_key]: the key at a store address. The deserializer learns from the octets how
    many belong to the key. *)
Definition get_key (w : World) (addr : Z) : outcome K :=
  o <-? ts_getro (store w) addr 0 ;;
  match o with
  | OLeaf k _ => _ <-? ts_getro (store w) addr (key_size k) ;; Ok k
  | _ => Throw Dangling
  end.

(** [load_leaf_node]: the serialized pair at a store address *)
Definition load_leaf_node (w : World) (addr : Z) : outcome (K * V) :=
  k <-? get_key w addr ;;
  o <-? ts_getro (store w) addr 0 ;;
  match o with
  | OLeaf _ v => _ <-? ts_getro (store w) addr (pair_end addr k v - addr) ;; Ok (k, v)
  | _ => Throw Dangling
  end.

(** [serialize::write] of a key/value pair: the key, then the value. The pair is
    found at the address of its first element. *)
Definition write_pair (kv : K * V) : M St Z :=
  result <- ts_alloc_rw (key_size kv.1) (2 ^ key_align) (OLeaf kv.1 kv.2) ;;
  ts_allocate (value_size kv.2) (2 ^ value_align) ;;;
  ret result.

(** [store_leaf_node] *)
Definition store_leaf_node (kv : K * V) (parents : parent_stack) : M World (Z * parent_stack) :=
  let aligned_to := 4 in
  in_store (ts_allocate 0 aligned_to) ;;;
  result <- in_store (write_pair kv) ;;
  massert (Z.land result (aligned_to - 1) =? 0) ;;;
  parents <- lift (stack_push (result, not_found) parents) ;;
  ret (result, parents).

(** [linear_node::lookup] *)
Fixpoint linear_lookup (w : World) (leaves : list Z) (key : K) (cnum : Z) : outcome (Z * Z) :=
  match leaves with
  | [] => Ok (0, not_found)
  | child :: leaves =>
      existing_key <-? get_key w child ;;
      if kt_equal existing_key key then Ok (child, cnum)
      else linear_lookup w leaves key (cnum + 1)
  end.

(** ** Deletion of heap nodes *)

(** [delete_node] *)
Definition delete_node (p shifts : Z) : M World unit :=
  if is_heap p then
    massert (negb (is_leaf p)) ;;;
    n <- with_world (fun w => heap_deref w (untag_node p)) ;;
    (* the static type of the deleted object is the one that the depth implies *)
    massert (match n with
             | Internal _ _ => depth_is_internal_node shifts
             | Linear _ => negb (depth_is_internal_node shifts)
             end) ;;;
    heap_delete (untag_node p)
  else ret tt.

(** [clear (node, shifts)] *)
Fixpoint clear_node (fuel : nat) (p shifts : Z) : M World unit :=
  match fuel with
  | O => throw OutOfFuel
  | S fuel =>
      massert (is_heap p && negb (is_leaf p)) ;;;
      (if depth_is_internal_node shifts then
         n <- with_world (fun w => internal_get_node w p) ;;
         foldr (fun c k =>
                  (if is_heap c then clear_node fuel c (shifts + hash_index_bits) else ret tt) ;;; k)
               (ret tt) n.2
       else ret tt) ;;;
      delete_node p shifts
  end.

(** [clear ()], also what the destructor does. *)
Definition hamt_clear (m : hamt_map) : M World hamt_map :=
  if is_heap (root m) then
    clear_node (Z.to_nat max_tree_depth) (root m) 0 ;;;
    ret (HamtMap (revision m) 0 (size m))
  else ret m.

(** ** Insertion *)

(** [insert_into_leaf] *)
Fixpoint insert_into_leaf (fuel : nat) (existing_leaf : Z) (new_leaf : K * V)
    (existing_hash hash shifts : Z) (parents : parent_stack) : M World (Z * parent_stack) :=
  match fuel with
  | O => throw OutOfFuel
  | S fuel =>
      if depth_is_internal_node shifts then
        let new_hash := Z.land hash hash_index_mask in
        let old_hash := Z.land existing_hash hash_index_mask in
        if negb (new_hash =? old_hash) then
          '(leaf_addr, parents) <- store_leaf_node new_leaf parents ;;
          l <- heap_new (internal_two existing_leaf leaf_addr old_hash new_hash) ;;
          let internal_ptr := tag_node l in
          parents <- lift (stack_push (internal_ptr, get_new_index new_hash old_hash) parents) ;;
          ret (internal_ptr, parents)
        else
          (* a (partial) hash collision *)
          let shifts := shifts + hash_index_bits in
          let hash := Z.shiftr hash hash_index_bits in
          let existing_hash := Z.shiftr existing_hash hash_index_bits in
          '(leaf_ptr, parents) <-
            insert_into_leaf fuel existing_leaf new_leaf existing_hash hash shifts parents ;;
          l <- heap_new (internal_one leaf_ptr old_hash) ;;
          let internal_ptr := tag_node l in
          parents <- lift (stack_push (internal_ptr, 0) parents) ;;
          ret (internal_ptr, parents)
      else
        (* We ran out of hash bits: create a new linear node. *)
        '(leaf_addr, parents) <- store_leaf_node new_leaf parents ;;
        l <- heap_new (Linear [existing_leaf; leaf_addr]) ;;
        let linear_ptr := tag_node l in
        parents <- lift (stack_push (linear_ptr, 1) parents) ;;
        ret (linear_ptr, parents)
  end.

(** What the insertion functions return: the node's (possibly new) pointer, whether
    the key was present, and the parents pushed on the way. *)
Definition insert_result : Type := Z * bool * parent_stack.

(** [insert_into_internal]; [insert_node] is the function it calls back for the child. *)
Definition insert_into_internal
    (insert_node : Z -> Z -> Z -> parent_stack -> M World insert_result)
    (p : Z) (value : K * V) (hash shifts : Z) (parents : parent_stack) : M World insert_result :=
  internal <- with_world (fun w => internal_get_node w p) ;;
  '(child_slot, index) <- lift (internal_lookup internal.1 internal.2 (Z.land hash hash_index_mask)) ;;
  if index =? not_found then
    '(new_node, inode) <- make_writable p internal ;;
    unique_scope new_node
      ('(leaf, parents) <- store_leaf_node value parents ;;
       parents <- insert_child inode hash leaf parents ;;
       ret (tag_node inode, false, parents))
  else
    let shifts := shifts + hash_index_bits in
    let hash := Z.shiftr hash hash_index_bits in
    '(new_child, key_exists, parents) <- insert_node child_slot hash shifts parents ;;
    if negb (new_child =? child_slot) then
      '(new_node, inode) <- make_writable p internal ;;
      unique_scope new_node
        (nd <- with_world (fun w => heap_deref w inode) ;;
         match nd with
         | Linear _ => throw Assert
         | Internal bitmap children =>
             child <- lift (child_at children index) ;;
             (* Release a previous heap-allocated instance. *)
             delete_node child shifts ;;;
             heap_assign inode (Internal bitmap (<[Z.to_nat index := new_child]> children)) ;;;
             let p := tag_node inode in
             parents <- lift (stack_push (p, index) parents) ;;
             ret (p, key_exists, parents)
         end)
    else
      parents <- lift (stack_push (p, index) parents) ;;
      ret (p, key_exists, parents).

(** [insert_into_linear] *)
Definition insert_into_linear (p : Z) (value : K * V) (parents : parent_stack) (is_upsert : bool)
    : M World insert_result :=
  orig_node <- with_world (fun w => linear_get_node w p) ;;
  '(_, index) <- with_world (fun w => linear_lookup w orig_node value.1 0) ;;
  if index =? not_found then
    (* Load into memory with space for 1 new child node. *)
    l <- heap_new (Linear (linear_allocate_from orig_node 1)) ;;
    unique_scope (Some l)
      (let index := Z.of_nat (length orig_node) in
       '(leaf, parents) <- store_leaf_node value parents ;;
       nd <- with_world (fun w => heap_deref w l) ;;
       match nd with
       | Internal _ _ => throw Assert
       | Linear leaves =>
           massert (index <? Z.of_nat (length leaves)) ;;;
           heap_assign l (Linear (<[Z.to_nat index := leaf]> leaves)) ;;;
           parents <- lift (stack_push (tag_node l, index) parents) ;;
           ret (tag_node l, false, parents)
       end)
  else if is_upsert then
    '(new_node, lnode) <-
      (if is_heap p then ret (None, untag_node p)
       else
         (* Load into memory but no extra space. *)
         l <- heap_new (Linear (linear_allocate_from orig_node 0)) ;;
         ret (Some l, l)) ;;
    let result := if is_heap p then p else tag_node lnode in
    unique_scope new_node
      ('(leaf, parents) <- store_leaf_node value parents ;;
       nd <- with_world (fun w => heap_deref w lnode) ;;
       match nd with
       | Internal _ _ => throw Assert
       | Linear leaves =>
           massert (index <? Z.of_nat (length leaves)) ;;;
           heap_assign lnode (Linear (<[Z.to_nat index := leaf]> leaves)) ;;;
           parents <- lift (stack_push (result, index) parents) ;;
           ret (result, true, parents)
       end)
  else
    leaf <- lift (child_at orig_node index) ;;
    parents <- lift (stack_push (leaf, not_found) parents) ;;
    parents <- lift (stack_push (p, index) parents) ;;
    ret (p, true, parents).

(** The value of [hash_ (existing_key) >> shifts]; a shift by 64 bits or more, which
    happens at the depth of the linear nodes, has no defined value and none is used. *)
Definition shifted_hash (k : K) (shifts : Z) : Z := Z.shiftr (kt_hash k) shifts.

(** [insert_node] *)
Fixpoint insert_node (fuel : nat) (value : K * V) (is_upsert : bool)
    (p hash shifts : Z) (parents : parent_stack) : M World insert_result :=
  match fuel with
  | O => throw OutOfFuel
  | S fuel =>
      if is_leaf p then
        existing_key <- with_world (fun w => get_key w p) ;;
        if kt_equal value.1 existing_key then
          if is_upsert then
            '(leaf, parents) <- store_leaf_node value parents ;;
            ret (leaf, true, parents)
          else
            parents <- lift (stack_push (p, not_found) parents) ;;
            ret (p, true, parents)
        else
          let existing_hash := shifted_hash existing_key shifts in
          '(result, parents) <-
            insert_into_leaf (S fuel) p value existing_hash hash shifts parents ;;
          ret (result, false, parents)
      else if depth_is_internal_node shifts then
        insert_into_internal (insert_node fuel value is_upsert) p value hash shifts parents
      else insert_into_linear p value parents is_upsert
  end.

(** The recursion of [insert_node] descends one level of the trie at a time. *)
Definition insert_fuel : nat := Z.to_nat (max_internal_depth + 1).

(** [insert_or_upsert] *)
Definition insert_or_upsert (m : hamt_map) (value : K * V) (is_upsert : bool)
    : M World (hamt_map * iterator * bool) :=
  rev <- with_world (fun w => ts_revision (store w)) ;;
  if negb (revision m =? rev) then throw (Raise index_not_latest_revision)
  else
    e <- lift (hamt_empty m) ;;
    if e then
      '(leaf, parents) <- store_leaf_node value [] ;;
      ret (HamtMap (revision m) leaf 1, parents, true)
    else
      let hash := kt_hash value.1 in
      '(root', key_exists, reverse_parents) <-
        insert_node insert_fuel value is_upsert (root m) hash 0 [] ;;
      let parents := reverse reverse_parents in
      let size' := if key_exists then size m else wrap64 (size m + 1) in
      ret (HamtMap (revision m) root' size', parents, negb key_exists).

(** [insert] *)
Definition insert (m : hamt_map) (value : K * V) : M World (hamt_map * iterator * bool) :=
  insert_or_upsert m value false.

(** [insert_or_assign] *)
Definition insert_or_assign (m : hamt_map) (value : K * V) : M World (hamt_map * iterator * bool) :=
  insert_or_upsert m value true.

(** ** Flushing *)

(** [flush] *)
Definition hamt_flush (m : hamt_map) (generation : Z) : M World (hamt_map * Z) :=
  rev <- with_world (fun w => ts_revision (store w)) ;;
  if negb (revision m =? rev) then throw (Raise index_not_latest_revision)
  else
    root' <- (if negb (is_address (root m)) then
                massert (is_internal (root m)) ;;;
                r <- internal_flush (Z.to_nat max_internal_depth) (untag_node (root m)) 0 ;;
                heap_delete (untag_node (root m)) ;;;
                ret r
              else ret (root m)) ;;
    pos <- in_store (ts_alloc_rw 24 8 (OHeaderBlock (size m) root')) ;;
    ret (HamtMap generation root' (size m), pos).

(** ** Look-up *)

(** The loop of [find]; the stack is pushed as the trie is descended. *)
Fixpoint find_loop (fuel : nat) (w : World) (key : K) (p hash bit_shifts : Z)
    (parents : parent_stack) : outcome iterator :=
  match fuel with
  | O => Throw OutOfFuel
  | S fuel =>
      if is_leaf p then
        existing_key <-? get_key w p ;;
        if kt_equal existing_key key then stack_push (p, not_found) parents
        else Ok []
      else
        r <-? (if depth_is_internal_node bit_shifts then
                 internal <-? internal_get_node w p ;;
                 internal_lookup internal.1 internal.2 (Z.land hash hash_index_mask)
               else
                 linear <-? linear_get_node w p ;;
                 linear_lookup w linear key 0) ;;
        let '(child_node, index) := r in
        if index =? not_found then Ok []
        else
          parents <-? stack_push (p, index) parents ;;
          find_loop fuel w key child_node (Z.shiftr hash hash_index_bits)
            (bit_shifts + hash_index_bits) parents
  end.

(** [find] *)
Definition find (w : World) (m : hamt_map) (key : K) : outcome iterator :=
  e <-? hamt_empty m ;;
  if e then Ok []
  else find_loop (Z.to_nat max_tree_depth) w key (root m) (kt_hash key) 0 [].

(** ** Iteration *)

(** [iterator_base::get_address] *)
Definition iterator_address (it : iterator) : outcome Z :=
  parent <-? stack_top it ;;
  _ <-? oassert (is_leaf parent.1 && (parent.2 =? not_found)) ;;
  Ok parent.1.

(** [iterator_base::operator*] *)
Definition iterator_deref (w : World) (it : iterator) : outcome (K * V) :=
  addr <-? iterator_address it ;; load_leaf_node w addr.

(** [iterator_base::move_to_left_most_child] *)
Fixpoint move_to_left_most_child (fuel : nat) (w : World) (p : Z) (st : iterator) : outcome iterator :=
  match fuel with
  | O => Throw OutOfFuel
  | S fuel =>
      if is_leaf p then stack_push (p, not_found) st
      else
        st <-? stack_push (p, 0) st ;;
        p' <-? (if Z.of_nat (length st) <=? max_internal_depth then
                  internal <-? internal_get_node w p ;; child_at internal.2 0
                else
                  linear <-? linear_get_node w p ;; child_at linear 0) ;;
        move_to_left_most_child fuel w p' st
  end.

(** [iterator_base::increment_internal_node] *)
Fixpoint increment_internal_node (fuel : nat) (w : World) (st : iterator) : outcome iterator :=
  match fuel with
  | O => Throw OutOfFuel
  | S fuel =>
      st <-? stack_pop st ;;
      match st with
      | [] => Ok []
      | (pnode, position) :: below =>
          let shifts := (Z.of_nat (length st) - 1) * hash_index_bits in
          let is_internal_node := depth_is_internal_node shifts in
          node <-? (if is_internal_node then
                      internal <-? internal_get_node w pnode ;;
                      size <-? internal_size internal.1 ;;
                      Ok (internal.2, size)
                    else
                      linear <-? linear_get_node w pnode ;;
                      Ok (linear, Z.of_nat (length linear))) ;;
          let '(children, size) := node in
          _ <-? oassert (negb (is_leaf pnode) && (position <? size)) ;;
          let position := position + 1 in
          if position >=? size then increment_internal_node fuel w st
          else
            let st := (pnode, position) :: below in
            child <-? child_at children position ;;
            if is_internal_node && is_internal child then
              move_to_left_most_child (Z.to_nat max_tree_depth) w child st
            else stack_push (child, not_found) st
      end
  end.

(** [iterator_base::operator++] *)
Definition iterator_incr (w : World) (it : iterator) : outcome iterator :=
  _ <-? oassert (negb (bool_decide (it = []))) ;;
  increment_internal_node (length it) w it.

(** [make_begin_iterator] *)
Definition hamt_begin (w : World) (m : hamt_map) : outcome iterator :=
  if negb (root m =? 0) then
    move_to_left_most_child (Z.to_nat max_tree_depth) w (root m) []
  else Ok [].

(** [make_end_iterator] *)
Definition hamt_end : iterator := [].

(** A range-based [for] over the map that collects the elements. *)
Fixpoint collect (fuel : nat) (w : World) (it : iterator) : outcome (list (K * V)) :=
  match fuel with
  | O => Throw OutOfFuel
  | S fuel =>
      if bool_decide (it = hamt_end) then Ok []
      else
        kv <-? iterator_deref w it ;;
        it' <-? iterator_incr w it ;;
        rest <-? collect fuel w it' ;;
        Ok (kv :: rest)
  end.

End hamt_map.
