(* ===== verification/HamtSpec.v ===== *)
(** * What a trie in memory represents

    The nodes of an index are scattered over the heap and the store. [tree] is the shape
    that a root pointer designates, [rep] says that the memory holds that shape, and
    [wf] that the shape is a hash trie: every child is found under the bit of its
    hash's chunk. [entries] are its leaves in iteration order. *)

From S2P Require Import Prelude BitCount StoreIntf HamtTypes HamtMap.

(** ** Tagged pointers *)

Lemma testbit_quad q r i : 0 <= r < 4 -> 0 <= i ->
  Z.testbit (4 * q + r) i = if i <? 2 then Z.testbit r i else Z.testbit q (i - 2).
Proof.
  intros Hr Hi. destruct (Z.ltb_spec i 2).
  - rewrite <- (Z.mod_pow2_bits_low _ 2), <- (Z.mod_pow2_bits_low r 2) by lia.
    by rewrite Z.add_comm, (Z.mul_comm 4), Z.mod_add.
  - replace i with ((i - 2) + 2) at 1 by lia.
    rewrite <- Z.div_pow2_bits by lia.
    by rewrite Z.mul_comm, Z.div_add_l, (Z.div_small r), Z.add_0_r by lia.
Qed.

Ltac is_const_Z a := match isZcst a with true => idtac end.

(** Evaluates the bit operations on the two tag bits. *)
Ltac tag_bits :=
  repeat match goal with
  | |- context [Z.land ?a (Z.lnot ?b)] =>
      is_const_Z a; let v := eval vm_compute in (Z.land a (Z.lnot b)) in change (Z.land a (Z.lnot b)) with v
  | |- context [Z.lor ?a ?b] => is_const_Z a; let v := eval vm_compute in (Z.lor a b) in change (Z.lor a b) with v
  end.

Lemma land_quad q r c : 0 <= r < 4 -> 0 <= c < 4 -> Z.land (4 * q + r) c = Z.land r c.
Proof.
  intros Hr Hc. apply Z.bits_inj'. intros i Hi. rewrite !Z.land_spec, testbit_quad by lia.
  destruct (Z.ltb_spec i 2); [done|].
  by rewrite (testbit_ge 2 c), !andb_false_r by lia.
Qed.

Lemma land_lnot_quad q r c : 0 <= r < 4 -> 0 <= c < 4 ->
  Z.land (4 * q + r) (Z.lnot c) = 4 * q + Z.land r (Z.lnot c).
Proof.
  intros Hr Hc.
  assert (0 <= Z.land r (Z.lnot c) < 4).
  { rewrite Z.land_comm. pose proof (Z.land_nonneg (Z.lnot c) r).
    split; [lia|]. rewrite <- (Z.mod_small r (2 ^ 2)), <- Z.land_ones, Z.land_assoc, Z.land_ones by lia.
    apply Z.mod_pos_bound. lia. }
  apply Z.bits_inj'. intros i Hi. rewrite Z.land_spec, !testbit_quad, Z.lnot_spec, Z.land_spec, Z.lnot_spec by lia.
  destruct (Z.ltb_spec i 2); [done|].
  by rewrite (testbit_ge 2 c), andb_true_r by lia.
Qed.

Lemma lor_quad q r c : 0 <= r < 4 -> 0 <= c < 4 -> Z.lor (4 * q + r) c = 4 * q + Z.lor r c.
Proof.
  intros Hr Hc. pose proof (lor_range 2 r c ltac:(lia) ltac:(lia) ltac:(lia)).
  apply Z.bits_inj'. intros i Hi. rewrite Z.lor_spec, !testbit_quad, Z.lor_spec by lia.
  destruct (Z.ltb_spec i 2); [done|].
  by rewrite (testbit_ge 2 c), orb_false_r by lia.
Qed.

(** The three kinds of pointers: to a leaf, to a node in the store, to a node on the heap. *)
Definition leaf_ptr (a : Z) : Z := a.
Definition store_ptr (a : Z) : Z := a + 1.
Definition heap_ptr (l : Z) : Z := l + 3.

Section pointers.
Context (x : Z) (Hx : x mod 4 = 0).

Local Lemma quad : x = 4 * (x / 4).
Proof. pose proof (Z.div_mod x 4). lia. Qed.

Lemma leaf_ptr_kind : is_leaf (leaf_ptr x) = true /\ is_heap (leaf_ptr x) = false.
Proof.
  unfold is_leaf, is_internal, is_heap, leaf_ptr, internal_node_bit, heap_node_bit.
  rewrite quad, <- (Z.add_0_r (4 * _)), !land_quad by lia. done.
Qed.

Lemma store_ptr_kind : is_leaf (store_ptr x) = false /\ is_heap (store_ptr x) = false.
Proof.
  unfold is_leaf, is_internal, is_heap, store_ptr, internal_node_bit, heap_node_bit.
  rewrite quad, !land_quad by lia. done.
Qed.

Lemma heap_ptr_kind : is_leaf (heap_ptr x) = false /\ is_heap (heap_ptr x) = true.
Proof.
  unfold is_leaf, is_internal, is_heap, heap_ptr, internal_node_bit, heap_node_bit.
  rewrite quad, !land_quad by lia. done.
Qed.

Lemma untag_address_leaf : untag_address (leaf_ptr x) = x.
Proof.
  unfold untag_address, leaf_ptr, internal_node_bit.
  rewrite quad, <- (Z.add_0_r (4 * _)), land_lnot_quad by lia. tag_bits. lia.
Qed.

Lemma untag_address_store : untag_address (store_ptr x) = x.
Proof.
  unfold untag_address, store_ptr, internal_node_bit.
  rewrite quad, land_lnot_quad by lia. tag_bits. lia.
Qed.

Lemma untag_node_heap : untag_node (heap_ptr x) = x.
Proof.
  unfold untag_node, heap_ptr, internal_node_bit, heap_node_bit.
  rewrite quad, land_lnot_quad by lia. tag_bits. rewrite land_lnot_quad by lia. tag_bits. lia.
Qed.

Lemma tag_node_heap : tag_node x = heap_ptr x.
Proof.
  unfold tag_node, heap_ptr, internal_node_bit, heap_node_bit.
  rewrite quad, <- (Z.add_0_r (4 * _)), lor_quad by lia. tag_bits. rewrite lor_quad by lia. tag_bits. lia.
Qed.

Lemma lor_internal_store : Z.lor x internal_node_bit = store_ptr x.
Proof.
  unfold store_ptr, internal_node_bit.
  rewrite quad, <- (Z.add_0_r (4 * _)), lor_quad by lia. tag_bits. lia.
Qed.
End pointers.

Lemma is_internal_leaf p : is_internal p = negb (is_leaf p).
Proof. unfold is_leaf. by rewrite negb_involutive. Qed.

(** ** Trees *)

Inductive tree (K V : Type) :=
  | TLeaf (a : Z) (k : K) (v : V)
  | TNode (p bitmap : Z) (children : list (tree K V))
  | TLinear (p : Z) (leaves : list (Z * (K * V))).
Arguments TLeaf {K V} _ _ _.
Arguments TNode {K V} _ _ _.
Arguments TLinear {K V} _ _.

(** A leaf: its address and the pair it holds. *)
Abbreviation entry K V := (Z * (K * V))%type.

Section trees.
Context {K V : Type}.
Implicit Types t : tree K V.

Fixpoint tree_ind' (P : tree K V -> Prop)
    (Hleaf : forall a k v, P (TLeaf a k v))
    (Hnode : forall p bm ts, Forall P ts -> P (TNode p bm ts))
    (Hlinear : forall p ls, P (TLinear p ls)) t : P t :=
  match t with
  | TLeaf a k v => Hleaf a k v
  | TNode p bm ts =>
      Hnode p bm ts
        ((fix go (ts : list (tree K V)) : Forall P ts :=
            match ts with
            | [] => Forall_nil_2 P
            | t :: ts => Forall_cons_2 P t ts (tree_ind' P Hleaf Hnode Hlinear t) (go ts)
            end) ts)
  | TLinear p ls => Hlinear p ls
  end.

Definition root_ptr t : Z :=
  match t with
  | TLeaf a _ _ => leaf_ptr a
  | TNode p _ _ => p
  | TLinear p _ => p
  end.

Fixpoint entries t : list (entry K V) :=
  match t with
  | TLeaf a k v => [(a, (k, v))]
  | TNode _ _ ts => concat (entries <$> ts)
  | TLinear _ ls => ls
  end.

Definition keys (l : list (entry K V)) : list K := (fun e => e.2.1) <$> l.

(** The heap block that the root pointer designates, if any, and all those of a tree. *)
Definition own (p : Z) : list Z := if is_heap p then [untag_node p] else [].

Fixpoint footprint t : list Z :=
  match t with
  | TLeaf _ _ _ => []
  | TNode p _ ts => own p ++ concat (footprint <$> ts)
  | TLinear p _ => own p
  end.

Fixpoint tsize t : nat :=
  match t with
  | TNode _ _ ts => S (sum_list (tsize <$> ts))
  | _ => 1%nat
  end.

(** The nodes from the root to a leaf, as the parent stack holds them (root first). *)
Inductive path : tree K V -> parent_stack -> entry K V -> Prop :=
  | path_leaf a k v : path (TLeaf a k v) [(leaf_ptr a, not_found)] (a, (k, v))
  | path_node p bm ts i t l e :
      ts !! i = Some t -> path t l e -> path (TNode p bm ts) ((p, Z.of_nat i) :: l) e
  | path_linear p ls i e :
      ls !! i = Some e ->
      path (TLinear p ls) [(p, Z.of_nat i); (e.1, not_found)] e.

Lemma tsize_child ts t : t ∈ ts -> (tsize t <= sum_list (tsize <$> ts))%nat.
Proof.
  induction 1 as [|x ts Hin IH]; rewrite fmap_cons; simpl; lia.
Qed.

Lemma elem_of_concat {A} (x : A) (ls : list (list A)) :
  x ∈ concat ls <-> exists l, l ∈ ls /\ x ∈ l.
Proof.
  induction ls as [|l ls IH]; simpl; [set_solver|].
  rewrite elem_of_app, IH. set_solver.
Qed.

Lemma elem_of_entries_node e p bm ts :
  e ∈ entries (TNode p bm ts) <-> exists t, t ∈ ts /\ e ∈ entries t.
Proof.
  simpl. rewrite elem_of_concat. setoid_rewrite list_elem_of_fmap. naive_solver.
Qed.

Lemma elem_of_footprint_node l p bm ts :
  l ∈ footprint (TNode p bm ts) <-> l ∈ own p \/ exists t, t ∈ ts /\ l ∈ footprint t.
Proof.
  simpl. rewrite elem_of_app, elem_of_concat. setoid_rewrite list_elem_of_fmap. naive_solver.
Qed.

Lemma elem_of_keys k (l : list (entry K V)) : k ∈ keys l <-> exists a v, (a, (k, v)) ∈ l.
Proof.
  unfold keys. rewrite list_elem_of_fmap. split.
  - intros ([a [k' v]] & -> & H). by exists a, v.
  - intros (a & v & H). by exists (a, (k, v)).
Qed.

Lemma keys_app (l1 l2 : list (entry K V)) : keys (l1 ++ l2) = keys l1 ++ keys l2.
Proof. apply fmap_app. Qed.

Lemma path_elem t l e : path t l e -> e ∈ entries t.
Proof.
  induction 1; simpl; [set_solver| |by eapply list_elem_of_lookup_2].
  apply (elem_of_entries_node _ p bm). eauto using list_elem_of_lookup_2.
Qed.

Lemma path_cons t l e : path t l e -> exists x l', l = (root_ptr t, x) :: l'.
Proof. destruct 1; simpl; eauto. Qed.

End trees.

(** ** Representation *)

Section rep.
Context {K V : Type} `{KT : KeyTraits K V}.
Implicit Types t : tree K V.
Implicit Types e : entry K V.

Definition leaf_at (ob : gmap Z (obj K V)) (sz : Z) e : Prop :=
  e.1 mod 4 = 0 /\ 0 < e.1 /\ ob !! e.1 = Some (OLeaf e.2.1 e.2.2) /\ pair_end e.1 e.2.1 e.2.2 <= sz.

Lemma pair_end_ge `{!KeyTraitsLaws K V} a k v : a + key_size k <= pair_end a k v.
Proof.
  unfold pair_end. pose proof (@value_align_range K V _ _). pose proof (value_size_nonneg v).
  assert (0 < 2 ^ @value_align K V _) as Hp by (apply Z.pow_pos_nonneg; lia).
  pose proof (Z.mod_pos_bound (- (a + key_size k)) _ Hp). lia.
Qed.

Lemma leaf_at_below `{!KeyTraitsLaws K V} ob sz e : leaf_at ob sz e -> e.1 < sz.
Proof.
  intros (_ & _ & _ & Hend). pose proof (pair_end_ge e.1 e.2.1 e.2.2). pose proof (key_size_pos e.2.1). lia.
Qed.

(** What a stored node looks like to the code that loads it. *)
Definition stored_ok (sz a : Z) (n : node) : Prop :=
  match n with
  | Internal bm cs =>
      a + 16 + 8 * pop_count bm <= sz /\
      Forall (fun c => is_heap c = false /\ untag_address c < a) cs
  | Linear ls => a + 16 + 8 * Z.of_nat (length ls) <= sz /\ Forall (fun c => c < a) ls
  end.

Definition obj_of_node (n : node) : obj K V :=
  match n with
  | Internal bm cs => OInternal bm cs
  | Linear ls => OLinear ls
  end.

Inductive node_at (h : gmap Z node) (ob : gmap Z (obj K V)) (sz : Z) (n : node) : Z -> Prop :=
  | node_at_heap l :
      l mod 4 = 0 -> 0 < l -> h !! l = Some n -> node_at h ob sz n (heap_ptr l)
  | node_at_store a :
      a mod 8 = 0 -> 0 < a -> ob !! a = Some (obj_of_node n) -> stored_ok sz a n ->
      node_at h ob sz n (store_ptr a).

Inductive rep (h : gmap Z node) (ob : gmap Z (obj K V)) (sz : Z) : tree K V -> Prop :=
  | rep_leaf a k v : leaf_at ob sz (a, (k, v)) -> rep h ob sz (TLeaf a k v)
  | rep_node p bm ts :
      node_at h ob sz (Internal bm (root_ptr <$> ts)) p ->
      Forall (rep h ob sz) ts ->
      rep h ob sz (TNode p bm ts)
  | rep_linear p ls :
      node_at h ob sz (Linear (fst <$> ls)) p ->
      Forall (leaf_at ob sz) ls ->
      rep h ob sz (TLinear p ls).

(** The chunk of the hash that selects a child at depth [d]. *)
Definition chunk (d : Z) (k : K) : Z :=
  Z.land (Z.shiftr (kt_hash k) (d * hash_index_bits)) hash_index_mask.

Inductive wf : Z -> tree K V -> Prop :=
  | wf_leaf d a k v : wf d (TLeaf a k v)
  | wf_node d p bm ts :
      0 <= d < max_internal_depth ->
      0 < bm < 2 ^ 64 ->
      Forall2 (fun b t => Forall (fun e => chunk d e.2.1 = b) (entries t)) (set_bits 64 bm) ts ->
      Forall (wf (d + 1)) ts ->
      (2 <= length (entries (TNode p bm ts)))%nat ->
      wf d (TNode p bm ts)
  | wf_linear p ls :
      (2 <= length ls)%nat ->
      NoDup (keys ls) ->
      wf max_internal_depth (TLinear p ls).

(** *** Memory may grow *)

Lemma leaf_at_ext ob ob' sz sz' e :
  ob ⊆ ob' -> sz <= sz' -> leaf_at ob sz e -> leaf_at ob' sz' e.
Proof.
  intros Hob Hsz (? & ? & ? & ?). repeat split; [done..| |lia]. by eapply lookup_weaken.
Qed.

Lemma stored_ok_ext sz sz' a n : sz <= sz' -> stored_ok sz a n -> stored_ok sz' a n.
Proof. destruct n; simpl; (intros ? []; split; [lia|done]). Qed.

Lemma node_at_ext h h' ob ob' sz sz' n p :
  (forall l, l ∈ own p -> h' !! l = h !! l) -> ob ⊆ ob' -> sz <= sz' ->
  node_at h ob sz n p -> node_at h' ob' sz' n p.
Proof.
  intros Hh Hob Hsz. destruct 1 as [l Hl ? Hn|a Ha ? Hn Hok].
  - constructor; [done..|]. rewrite Hh; [done|]. unfold own.
    rewrite (proj2 (heap_ptr_kind l Hl)), untag_node_heap by done. set_solver.
  - constructor; [done..| |by eapply stored_ok_ext]. by eapply lookup_weaken.
Qed.

Lemma rep_ext h h' ob ob' sz sz' t :
  (forall l, l ∈ footprint t -> h' !! l = h !! l) -> ob ⊆ ob' -> sz <= sz' ->
  rep h ob sz t -> rep h' ob' sz' t.
Proof.
  intros Hh Hob Hsz Hrep. revert Hh. induction t as [a k v|p bm ts IH|p ls] using tree_ind';
    intros Hh; inversion Hrep as [? ? ? Hl|? ? ? Hn Hts|? ? Hn Hls]; subst; constructor.
  - by eapply leaf_at_ext.
  - eapply node_at_ext; [|done..|exact Hn]. intros l Hl. apply Hh, elem_of_footprint_node. by left.
  - rewrite Forall_forall in *. intros t Ht. apply IH; [done|by apply Hts|].
    intros l Hl. apply Hh, elem_of_footprint_node. eauto.
  - by eapply node_at_ext.
  - eapply Forall_impl; [exact Hls|]. intros. by eapply leaf_at_ext.
Qed.

(** *** Pointers to represented trees *)

Lemma mod8_mod4 a : a mod 8 = 0 -> a mod 4 = 0.
Proof. intros. Z.div_mod_to_equations. lia. Qed.

Lemma node_at_not_leaf h ob sz n p : node_at h ob sz n p -> is_leaf p = false.
Proof.
  destruct 1; [by apply heap_ptr_kind|by apply store_ptr_kind, mod8_mod4].
Qed.

Lemma node_at_pos h ob sz n p : node_at h ob sz n p -> 0 < p.
Proof. unfold heap_ptr, store_ptr. destruct 1; unfold heap_ptr, store_ptr; lia. Qed.

Lemma rep_pos h ob sz t : rep h ob sz t -> 0 < root_ptr t.
Proof. destruct 1 as [a k v (_ & ? & _)| |]; [done|by eapply node_at_pos..]. Qed.

Lemma rep_is_leaf h ob sz t : rep h ob sz t ->
  is_leaf (root_ptr t) = match t with TLeaf _ _ _ => true | _ => false end.
Proof.
  destruct 1 as [a k v (H & _)| |]; [by apply leaf_ptr_kind|by eapply node_at_not_leaf..].
Qed.

(** A block that belongs to a tree is live. *)
Lemma node_at_own h ob sz n p l :
  node_at h ob sz n p -> l ∈ own p -> h !! l = Some n /\ p = heap_ptr l /\ l mod 4 = 0.
Proof.
  unfold own. destruct 1 as [l' Hl ? Hn|a Ha ? Hn Hok].
  - rewrite (proj2 (heap_ptr_kind l' Hl)), untag_node_heap by done.
    by intros ->%list_elem_of_singleton.
  - rewrite (proj2 (store_ptr_kind a (mod8_mod4 _ Ha))). set_solver.
Qed.

Lemma rep_footprint_live h ob sz t l : rep h ob sz t -> l ∈ footprint t -> is_Some (h !! l).
Proof.
  intros Hrep. induction t as [a k v|p bm ts IH|p ls] using tree_ind';
    inversion Hrep as [? ? ? Hl|? ? ? Hn Hts|? ? Hn Hls]; subst.
  - set_solver.
  - rewrite Forall_forall in *.
    intros [Hl|(t & Ht & Hl)]%elem_of_footprint_node; [|by eauto].
    by destruct (node_at_own _ _ _ _ _ _ Hn Hl) as [-> _].
  - intros Hl. by destruct (node_at_own _ _ _ _ _ _ Hn Hl) as [-> _].
Qed.

(** The content of memory determines the tree that a pointer designates. *)
Lemma node_at_fun h ob sz n1 n2 p : node_at h ob sz n1 p -> node_at h ob sz n2 p -> n1 = n2.
Proof.
  destruct 1 as [l Hl ? Hn|a Ha ? Hn Hok]; intros H2;
    inversion H2 as [l' Hl' ? Hn' Heq|a' Ha' ? Hn' Hok' Heq].
  - unfold heap_ptr in *. assert (l' = l) as -> by lia. congruence.
  - pose proof (heap_ptr_kind l Hl) as [_ Hk1].
    pose proof (store_ptr_kind a' (mod8_mod4 _ Ha')) as [_ Hk2]. congruence.
  - pose proof (heap_ptr_kind l' Hl') as [_ Hk1].
    pose proof (store_ptr_kind a (mod8_mod4 _ Ha)) as [_ Hk2]. congruence.
  - unfold store_ptr in *. assert (a' = a) as -> by lia.
    destruct n1, n2; simpl in *; congruence.
Qed.

Lemma leaf_at_fun ob sz (l1 l2 : list (entry K V)) :
  Forall (leaf_at ob sz) l1 -> Forall (leaf_at ob sz) l2 -> l1.*1 = l2.*1 -> l1 = l2.
Proof.
  intros H1. revert l2. induction H1 as [|[a [k v]] l1 (_ & _ & Ha & _) _ IH];
    intros [|[a2 [k2 v2]] l2] H2; simpl; try done.
  apply Forall_cons in H2 as [(_ & _ & Ha2 & _) H2]. simpl in *.
  intros [= -> Heq]. rewrite (IH l2) by done. congruence.
Qed.

Lemma rep_fun h ob sz t1 t2 :
  rep h ob sz t1 -> rep h ob sz t2 -> root_ptr t1 = root_ptr t2 -> t1 = t2.
Proof.
  intros H1. revert t2. induction t1 as [a k v|p bm ts IH|p ls] using tree_ind'; intros t2 H2 Heq;
    pose proof (rep_is_leaf _ _ _ _ H1) as Hk1; pose proof (rep_is_leaf _ _ _ _ H2) as Hk2;
    rewrite Heq in Hk1; rewrite Hk1 in Hk2;
    inversion H1 as [? ? ? Hl|? ? ? Hn Hts|? ? Hn Hls]; subst; try done;
    destruct H2 as [a2 k2 v2 Hl2|p2 bm2 ts2 Hn2 Hts2|p2 ls2 Hn2 Hls2]; simpl in Heq; try done;
    unfold leaf_ptr in *; subst.
  - destruct Hl as (_ & _ & Ha & _), Hl2 as (_ & _ & Ha2 & _). simpl in *. congruence.
  - pose proof (node_at_fun _ _ _ _ _ _ Hn Hn2) as [= -> Hroots]. f_equal.
    clear Hn Hn2 H1 Hk1 Hk2. revert ts2 Hts2 Hroots.
    induction ts as [|t ts IHts]; intros [|t2 ts2] Hts2 Hroots; try done.
    simpl in Hroots. injection Hroots as Hr Hroots.
    apply Forall_cons in IH as [IHt IH]. apply Forall_cons in Hts as [Ht Hts].
    apply Forall_cons in Hts2 as [Ht2 Hts2]. f_equal; auto.
  - by pose proof (node_at_fun _ _ _ _ _ _ Hn Hn2).
  - by pose proof (node_at_fun _ _ _ _ _ _ Hn Hn2).
  - pose proof (node_at_fun _ _ _ _ _ _ Hn Hn2) as [= Heq]. f_equal. by eapply leaf_at_fun.
Qed.

(** *** Well-formed tries *)

Lemma wf_entries_nonempty d t : wf d t -> exists e, e ∈ entries t.
Proof.
  assert (forall l : list (entry K V), (2 <= length l)%nat -> exists e, e ∈ l) as H.
  { intros [|e l]; simpl; [lia|]. intros _. exists e. set_solver. }
  destruct 1; [|by apply H..]. simpl. eexists. by apply list_elem_of_singleton.
Qed.

Lemma wf_length_pos d t : wf d t -> (0 < length (entries t))%nat.
Proof. intros [e He]%wf_entries_nonempty. destruct (entries t); [by apply elem_of_nil in He|simpl; lia]. Qed.

(** A child's position is determined by the keys under it. *)
Lemma wf_route d p bm ts i t :
  wf d (TNode p bm ts) -> ts !! i = Some t ->
  exists b, set_bits 64 bm !! i = Some b /\ wf (d + 1) t /\
    forall e, e ∈ entries t -> chunk d e.2.1 = b.
Proof.
  intros Hwf Ht. inversion Hwf as [|? ? ? ? ? ? Hr Hc|]; subst.
  eapply Forall2_lookup_r in Hr as (b & Hb & Hr); [|done].
  exists b. rewrite Forall_forall in Hr. rewrite Forall_lookup in Hc. eauto.
Qed.

Lemma wf_route_inj d p bm ts i j ti tj ei ej :
  wf d (TNode p bm ts) -> ts !! i = Some ti -> ts !! j = Some tj ->
  ei ∈ entries ti -> ej ∈ entries tj -> chunk d ei.2.1 = chunk d ej.2.1 -> i = j.
Proof.
  intros Hwf Hi Hj Hei Hej Heq.
  destruct (wf_route _ _ _ _ _ _ Hwf Hi) as (bi & Hbi & _ & Hri).
  destruct (wf_route _ _ _ _ _ _ Hwf Hj) as (bj & Hbj & _ & Hrj).
  eapply NoDup_lookup; [apply (NoDup_set_bits 64 bm)|exact Hbi|].
  rewrite Hbj, <- (Hri ei), <- (Hrj ej), Heq by done. done.
Qed.

Lemma wf_child d p bm ts t : wf d (TNode p bm ts) -> t ∈ ts -> wf (d + 1) t.
Proof. intros Hwf (i & Hi)%list_elem_of_lookup_1. by destruct (wf_route _ _ _ _ _ _ Hwf Hi) as (? & _ & ? & _). Qed.

Lemma wf_keys_nodup d t : wf d t -> NoDup (keys (entries t)).
Proof.
  revert d. induction t as [a k v|p bm ts IH|p ls] using tree_ind'; intros d Hwf.
  - simpl. apply NoDup_singleton.
  - assert (forall i ti, ts !! i = Some ti -> NoDup (keys (entries ti))) as Hnd.
    { intros i ti Hi. rewrite Forall_lookup in IH. eapply IH; [done|].
      by destruct (wf_route _ _ _ _ _ _ Hwf Hi) as (? & _ & ? & _). }
    assert (forall i j ti tj k, ts !! i = Some ti -> ts !! j = Some tj ->
              k ∈ keys (entries ti) -> k ∈ keys (entries tj) -> i = j) as Hdj.
    { intros i j ti tj k Hi Hj (ai & vi & Hki)%elem_of_keys (aj & vj & Hkj)%elem_of_keys.
      by eapply (wf_route_inj _ _ _ _ _ _ _ _ _ _ Hwf Hi Hj Hki Hkj). }
    clear IH Hwf. simpl. induction ts as [|t ts IH]; [constructor|].
    rewrite fmap_cons. simpl. rewrite keys_app. apply NoDup_app. split_and!.
    + by apply (Hnd 0%nat t).
    + intros k Hk (a & v & Hin)%elem_of_keys.
      apply (elem_of_entries_node _ p bm) in Hin as (tj & (j & Hj)%list_elem_of_lookup_1 & Hin).
      assert (0%nat = S j); [|done]. apply (Hdj 0%nat (S j) t tj k); try done.
      apply elem_of_keys. eauto.
    + apply IH.
      * intros i ti Hi. by apply (Hnd (S i)).
      * intros i j ti tj k Hi Hj Hki Hkj. apply (inj S). by apply (Hdj _ _ ti tj k).
  - by inversion Hwf.
Qed.

(** The node that owns a block of a tree's footprint. *)
Lemma footprint_subtree h ob sz d t l :
  wf d t -> rep h ob sz t -> l ∈ footprint t ->
  exists u d', rep h ob sz u /\ wf d' u /\ root_ptr u = heap_ptr l /\
    (tsize u <= tsize t)%nat /\ (forall e, e ∈ entries u -> e ∈ entries t).
Proof.
  revert d. induction t as [a k v|p bm ts IH|p ls] using tree_ind'; intros d Hwf Hrep Hl.
  - set_solver.
  - inversion Hrep as [|? ? ? Hn Hts|]; subst.
    apply elem_of_footprint_node in Hl as [Hl|(t & Ht & Hl)].
    + exists (TNode p bm ts), d. split_and!; auto. simpl.
      by destruct (node_at_own _ _ _ _ _ _ Hn Hl) as (_ & -> & _).
    + rewrite Forall_forall in IH. rewrite Forall_forall in Hts.
      destruct (IH t Ht (d + 1)) as (u & d' & Hu & Hwu & Hru & Hsu & Heu); auto.
      { by eapply wf_child. }
      exists u, d'. split_and!; auto.
      * simpl. pose proof (tsize_child _ _ Ht). lia.
      * intros e He. apply (elem_of_entries_node _ p bm). eauto.
  - inversion Hrep as [| |? ? Hn Hls]; subst.
    exists (TLinear p ls), d. split_and!; auto. simpl.
    by destruct (node_at_own _ _ _ _ _ _ Hn Hl) as (_ & -> & _).
Qed.

(** Siblings share no block, and a node is not below itself. *)
Lemma footprint_siblings h ob sz d p bm ts i j ti tj l :
  wf d (TNode p bm ts) -> rep h ob sz (TNode p bm ts) ->
  ts !! i = Some ti -> ts !! j = Some tj -> l ∈ footprint ti -> l ∈ footprint tj -> i = j.
Proof.
  intros Hwf Hrep Hi Hj Hli Hlj. inversion Hrep as [|? ? ? Hn Hts|]; subst.
  rewrite Forall_lookup in Hts.
  destruct (wf_route _ _ _ _ _ _ Hwf Hi) as (_ & _ & Hwi & _).
  destruct (wf_route _ _ _ _ _ _ Hwf Hj) as (_ & _ & Hwj & _).
  destruct (footprint_subtree _ _ _ _ _ _ Hwi (Hts _ _ Hi) Hli) as (ui & di & Hri & Hwui & Hpi & _ & Hei).
  destruct (footprint_subtree _ _ _ _ _ _ Hwj (Hts _ _ Hj) Hlj) as (uj & dj & Hrj & Hwuj & Hpj & _ & Hej).
  assert (ui = uj) as -> by (eapply rep_fun; [done..|congruence]).
  destruct (wf_entries_nonempty _ _ Hwuj) as [e He].
  eapply (wf_route_inj _ _ _ _ _ _ _ _ e e Hwf Hi Hj); auto.
Qed.

Lemma footprint_own h ob sz d p bm ts t l :
  wf d (TNode p bm ts) -> rep h ob sz (TNode p bm ts) ->
  l ∈ own p -> t ∈ ts -> l ∉ footprint t.
Proof.
  intros Hwf Hrep Hl Ht Hlt. inversion Hrep as [|? ? ? Hn Hts|]; subst.
  rewrite Forall_forall in Hts.
  destruct (footprint_subtree _ _ _ _ _ _ (wf_child _ _ _ _ _ Hwf Ht) (Hts _ Ht) Hlt)
    as (u & d' & Hu & _ & Hpu & Hsu & _).
  destruct (node_at_own _ _ _ _ _ _ Hn Hl) as (_ & -> & _).
  assert (u = TNode (heap_ptr l) bm ts) as -> by (by eapply rep_fun).
  pose proof (tsize_child _ _ Ht). simpl in Hsu. lia.
Qed.

(** Distinct children have distinct pointers. *)
Lemma child_roots_nodup h ob sz d p bm ts :
  wf d (TNode p bm ts) -> rep h ob sz (TNode p bm ts) -> NoDup (root_ptr <$> ts).
Proof.
  intros Hwf Hrep. inversion Hrep as [|? ? ? Hn Hts|]; subst. rewrite Forall_lookup in Hts.
  apply NoDup_alt. intros i j r. rewrite !list_lookup_fmap.
  intros (ti & Hi & ->)%fmap_Some (tj & Hj & Hr)%fmap_Some.
  assert (ti = tj) as -> by (by eapply rep_fun; eauto).
  destruct (wf_route _ _ _ _ _ _ Hwf Hi) as (_ & _ & Hw & _).
  destruct (wf_entries_nonempty _ _ Hw) as [e He].
  by eapply (wf_route_inj _ _ _ _ _ _ _ _ e e Hwf Hi Hj).
Qed.

(** A node in the store has no block on the heap below it. *)
Lemma footprint_store h ob sz t :
  rep h ob sz t -> is_heap (root_ptr t) = false -> footprint t = [].
Proof.
  intros Hrep Hp. induction t as [a k v|p bm ts IH|p ls] using tree_ind'; simpl in *.
  - done.
  - inversion Hrep as [|? ? ? Hn Hts|]; subst. unfold own. rewrite Hp. simpl.
    destruct Hn as [l Hl ? _|a Ha ? _ [_ Hcs]].
    { by rewrite (proj2 (heap_ptr_kind l Hl)) in Hp. }
    clear Hrep Hp. induction ts as [|t ts IHts]; [done|].
    apply Forall_cons in IH as [IHt IH]. apply Forall_cons in Hts as [Ht Hts].
    rewrite fmap_cons in *. apply Forall_cons in Hcs as [[Hc _] Hcs].
    simpl. rewrite IHt, IHts by done. done.
  - unfold own. by rewrite Hp.
Qed.

(** An address below a represented tree's end. *)
Lemma rep_root_bound `{!KeyTraitsLaws K V} h ob sz d t :
  wf d t -> rep h ob sz t -> is_heap (root_ptr t) = false ->
  untag_address (root_ptr t) < sz.
Proof.
  intros Hwf Hrep Hp. destruct Hrep as [a k v (Ha & _ & _ & Hsz)|p bm ts Hn _|p ls Hn _];
    simpl in *.
  - rewrite untag_address_leaf by done. pose proof (key_size_pos k). pose proof (pair_end_ge a k v). lia.
  - destruct Hn as [l Hl ? _|a Ha ? _ [Hsz _]]; [by rewrite (proj2 (heap_ptr_kind l Hl)) in Hp|].
    rewrite untag_address_store by (by apply mod8_mod4).
    pose proof (pop_count_nonneg bm). lia.
  - destruct Hn as [l Hl ? _|a Ha ? _ Hsz]; [by rewrite (proj2 (heap_ptr_kind l Hl)) in Hp|].
    rewrite untag_address_store by (by apply mod8_mod4). simpl in Hsz. lia.
Qed.

(** The depth bound of the parent stack. *)
Lemma path_length d t l e :
  wf d t -> path t l e -> Z.of_nat (length l) <= max_tree_depth - Z.min d max_internal_depth.
Proof.
  intros Hwf Hp. revert d Hwf. induction Hp as [a k v|p bm ts i t l e Hi Hp IH|p ls i e Hi]; intros d Hwf.
  - unfold max_tree_depth. simpl. lia.
  - destruct (wf_route _ _ _ _ _ _ Hwf Hi) as (_ & _ & Hw & _).
    specialize (IH _ Hw). inversion Hwf; subst. simpl length. lia.
  - inversion Hwf; subst. unfold max_tree_depth. simpl. lia.
Qed.

Lemma path_push d t l e :
  0 <= d -> wf (d + 1) t -> path t l e -> Z.of_nat (length l) < max_tree_depth.
Proof.
  intros Hd Hwf Hp. pose proof (path_length _ _ _ _ Hwf Hp).
  change max_tree_depth with 13 in *. change max_internal_depth with 11 in *. lia.
Qed.

End rep.
