(* ===== verification/HamtOps.v ===== *)
(** * Specifications of the index's primitive operations

    Reading nodes and leaves, writing leaves, and the bookkeeping of heap blocks. *)

From S2P Require Import Prelude BitCount StoreIntf HamtTypes HamtMap HamtSpec.

Lemma NoDup_length_bound (l : list Z) n :
  NoDup l -> Forall (fun x => 0 <= x < n) l -> Z.of_nat (length l) <= Z.max 0 n.
Proof.
  intros Hnd Hr. assert (l ⊆+ seqZ 0 n) as Hsub%submseteq_length.
  { apply NoDup_submseteq; [done|]. intros x Hx. rewrite Forall_forall in Hr.
    apply elem_of_seqZ. specialize (Hr x Hx). lia. }
  rewrite length_seqZ in Hsub. lia.
Qed.

Lemma pop_count_low_lt x i : 0 <= x < 2 ^ 64 -> 0 <= i < 64 ->
  0 <= pop_count (Z.land x (2 ^ i - 1)) < 64.
Proof.
  intros Hx Hi. rewrite pop_count_below by lia. unfold set_bits.
  pose proof (length_filter (fun j => Z.testbit x j = true) (seqZ 0 i)) as Hl.
  rewrite length_seqZ in Hl. lia.
Qed.

Lemma pop_count_le_64 x : 0 <= x < 2 ^ 64 -> pop_count x <= 64.
Proof.
  intros Hx. rewrite <- (length_set_bits 64) by done. unfold set_bits.
  pose proof (length_filter (fun j => Z.testbit x j = true) (seqZ 0 64)) as Hl.
  rewrite length_seqZ in Hl. lia.
Qed.

(** The objects of a world's store, its end, and representation in a world. *)
Abbreviation objects w := (ts_objects (store w)).
Abbreviation end_of w := (ts_size (store w)).
Abbreviation Rep w t := (rep (heap w) (ts_objects (store w)) (ts_size (store w)) t).

Section ops.
Context {K V St : Type} {KT : KeyTraits K V} {KL : KeyTraitsLaws K V}
  {TS : TransactionStore St (obj K V)} {TL : TransactionStoreLaws St (obj K V)}
  {HA : HeapAllocator node} {HL : HeapAllocatorLaws node}.
Local Abbreviation W := (world St).
Implicit Types w : W.

(** [KeyEqual] decides the equality of keys. *)
#[local] Instance key_eq_dec : EqDecision K.
Proof.
  intros k1 k2. destruct (kt_equal k1 k2) eqn:E; [left|right].
  - by apply kt_equal_spec.
  - intros Heq%kt_equal_spec. congruence.
Defined.

(** *** The world's primitives *)

Lemma wp_with_world {A} (f : W -> outcome A) Q w :
  owp (f w) (fun a => Q a w) -> wp (with_world f) Q w.
Proof. unfold wp, with_world. by destruct (f w). Qed.

Lemma wp_heap_new n (Q : Z -> W -> Prop) w :
  (forall l, heap w !! l = None -> 0 < l -> l mod 4 = 0 ->
     Q l (World (<[l := n]> (heap w)) (store w))) ->
  wp (heap_new n) Q w.
Proof. intros H. apply H; [apply new_addr_fresh|apply new_addr_pos|apply new_addr_aligned]. Qed.

Lemma owp_heap_deref w l n (Q : node -> Prop) :
  heap w !! l = Some n -> Q n -> owp (heap_deref w l) Q.
Proof. unfold heap_deref. by intros ->. Qed.

Lemma wp_heap_assign l n n0 (Q : unit -> W -> Prop) w :
  heap w !! l = Some n0 -> Q tt (World (<[l := n]> (heap w)) (store w)) ->
  wp (heap_assign l n) Q w.
Proof.
  intros. unfold heap_assign. wp_head. apply wp_with_world. by eapply owp_heap_deref.
Qed.

Lemma wp_heap_delete l n0 (Q : unit -> W -> Prop) w :
  heap w !! l = Some n0 -> Q tt (World (delete l (heap w)) (store w)) ->
  wp (heap_delete l) Q w.
Proof.
  intros. unfold heap_delete. wp_head. apply wp_with_world. by eapply owp_heap_deref.
Qed.

Lemma wp_unique_scope {A} o (m : M W A) Q w : wp m Q w -> wp (unique_scope o m) Q w.
Proof. unfold wp, unique_scope. by destruct (m w) as [[a|e] w']. Qed.

Lemma owp_stack_push x st (Q : parent_stack -> Prop) :
  Z.of_nat (length st) < max_tree_depth -> Q (x :: st) -> owp (stack_push x st) Q.
Proof. intros H HQ. apply owp_bind, owp_assert; [by apply Z.ltb_lt|done]. Qed.

(** *** The store grows *)

Definition ext (s s' : St) : Prop :=
  ts_inv s' /\ ts_objects s ⊆ ts_objects s' /\ ts_size s <= ts_size s' /\
  ts_revision s' = ts_revision s /\ ts_keep s' = ts_keep s.

Lemma ext_refl s : ts_inv s -> ext s s.
Proof. done. Qed.

Lemma ext_trans s1 s2 s3 : ext s1 s2 -> ext s2 s3 -> ext s1 s3.
Proof.
  intros (? & ? & ? & ? & ?) (? & ? & ? & ? & ?). split_and!; [done|by etrans|lia|congruence..].
Qed.

Lemma objects_above s a : ts_readable s -> ts_size s <= a -> ts_objects s !! a = None.
Proof.
  intros Hs Ha. destruct (ts_objects s !! a) eqn:E; [|done].
  apply ts_objects_range in E; [lia|done].
Qed.

Lemma pad_range x k : 0 <= k -> 0 <= (- x) mod 2 ^ k < 2 ^ k.
Proof. intros. apply Z.mod_pos_bound. lia. Qed.

(** An object placed in the store by [alloc_rw]. *)
Lemma wp_alloc_rw h s n k o (Q : Z -> W -> Prop) :
  ts_inv s -> 0 < n -> 0 <= k <= 12 -> ts_size s + 2 ^ k + n <= ts_limit ->
  (forall a s', ext s s' -> ts_size s <= a < ts_size s + 2 ^ k -> (2 ^ k | a) ->
     ts_objects s' = <[a := o]> (ts_objects s) -> ts_size s' = a + n -> Q a (World h s')) ->
  wp (in_store (ts_alloc_rw n (2 ^ k) o)) Q (World h s).
Proof.
  intros Hs Hn Hk Hroom HQ.
  destruct (ts_alloc_rw_ok s n k o) as (s' & a & Heq & Ha & Hs' & Hsz & Hob & Hrev); [done..|].
  eapply (wp_eq _ a _ (World h s')); [unfold in_store; simpl; by rewrite Heq|].
  pose proof (pad_range (ts_size s) k ltac:(lia)).
  apply HQ; [|lia| |done|done].
  - split_and!; [done| |lia|apply Hrev..]. rewrite Hob. apply insert_subseteq, objects_above; [done|lia].
  - rewrite Ha. apply pad_divide. lia.
Qed.

(** *** Leaves *)

(** The bytes that a leaf may take, padding included. *)
Definition leaf_room (s : St) (kv : K * V) : Prop :=
  ts_size s + 4 + 2 ^ key_align + key_size kv.1 + 2 ^ value_align + value_size kv.2 <= ts_limit.

Lemma aligned_again a k : 0 <= k -> a mod 4 = 0 -> (a + (- a) mod 2 ^ k) mod 4 = 0.
Proof.
  intros Hk Ha. destruct (decide (2 <= k)).
  - pose proof (pad_divide a (2 ^ k) ltac:(lia)) as Hd.
    apply Z.mod_divide; [done|]. etrans; [|exact Hd].
    exists (2 ^ (k - 2)). change 4 with (2 ^ 2). rewrite <- (Z.pow_add_r 2 (k - 2) 2) by lia. f_equal. lia.
  - rewrite (Z_mod_zero_opp_full a); [by rewrite Z.add_0_r|].
    assert (k = 0 \/ k = 1) as [-> | ->] by lia; Z.div_mod_to_equations; lia.
Qed.

Ltac leaf_sizes kv :=
  pose proof (@key_align_range K V _ _) as Hka; pose proof (@value_align_range K V _ _) as Hva;
  pose proof (key_size_pos kv.1) as Hks; pose proof (value_size_nonneg kv.2) as Hvs;
  assert (0 < 2 ^ @key_align K V _) as Hpk by (apply Z.pow_pos_nonneg; lia);
  assert (0 < 2 ^ @value_align K V _) as Hpv by (apply Z.pow_pos_nonneg; lia).

Lemma write_pair_ok s kv :
  ts_inv s -> ts_size s mod 4 = 0 ->
  ts_size s + 2 ^ key_align + key_size kv.1 + 2 ^ value_align + value_size kv.2 <= ts_limit ->
  exists a s', write_pair kv s = (Ok a, s') /\ ext s s' /\ ts_size s <= a < ts_size s' /\
    leaf_at (ts_objects s') (ts_size s') (a, kv).
Proof.
  intros Hs H4 Hroom. leaf_sizes kv.
  pose proof (ts_size_range s (ts_inv_readable _ Hs)) as Hsz.
  destruct (ts_alloc_rw_ok s (key_size kv.1) (@key_align K V KT) (OLeaf kv.1 kv.2))
    as (s1 & a & E1 & Ha & Hs1 & Hsz1 & Hob1 & Hrev1); [done|done|done|lia|].
  pose proof (pad_range (ts_size s) (@key_align K V KT) ltac:(lia)).
  destruct (ts_allocate_ok s1 (value_size kv.2) (@value_align K V KT))
    as (s2 & a2 & E2 & Ha2 & Hs2 & Hsz2 & Hob2 & Hrev2); [done|done|done|lia|].
  pose proof (pad_range (ts_size s1) (@value_align K V KT) ltac:(lia)).
  exists a, s2. unfold write_pair. rewrite (bind_ok _ _ _ _ _ E1), (bind_ok _ _ _ _ _ E2).
  assert (ts_objects s !! a = None) by (apply objects_above; [done|lia]).
  split_and!; [done| |lia|lia|].
  - destruct Hrev1, Hrev2. split_and!; [done| |lia|congruence..]. rewrite Hob2, Hob1. by apply insert_subseteq.
  - split_and!; simpl; [rewrite Ha; apply aligned_again; [lia|done]|lia| |].
    + by rewrite Hob2, Hob1, lookup_insert_eq.
    + unfold pair_end. rewrite Hsz2, Ha2, Hsz1. lia.
Qed.

Lemma wp_store_leaf_node kv parents (Q : Z * parent_stack -> W -> Prop) w :
  ts_inv (store w) -> leaf_room (store w) kv -> Z.of_nat (length parents) < max_tree_depth ->
  (forall a s', ext (store w) s' -> leaf_at (ts_objects s') (ts_size s') (a, kv) ->
     end_of w <= a < ts_size s' -> Q (leaf_ptr a, (leaf_ptr a, not_found) :: parents) (World (heap w) s')) ->
  wp (store_leaf_node kv parents) Q w.
Proof.
  intros Hs Hroom Hlen HQ. unfold store_leaf_node, leaf_room in *.
  leaf_sizes kv.
  destruct (ts_allocate_ok (store w) 0 2) as (s1 & a1 & E1 & Ha1 & Hs1 & Hsz1 & Hob1 & Hrev1);
    [done|lia|lia|lia|]. change (2 ^ 2) with 4 in *.
  pose proof (pad_range (ts_size (store w)) 2 ltac:(lia)). change (2 ^ 2) with 4 in *.
  assert (ts_size s1 mod 4 = 0) as H4.
  { apply Z.mod_divide; [done|]. rewrite Hsz1, Z.add_0_r, Ha1. by apply pad_divide. }
  destruct (write_pair_ok s1 kv) as (a & s2 & E2 & Hext & Hfresh & Hleaf); [done|done|lia|].
  apply wp_bind. eapply (wp_eq _ a1 _ (World (heap w) s1)); [unfold in_store; by rewrite E1|].
  apply wp_bind. eapply (wp_eq _ a _ (World (heap w) s2)); [unfold in_store; simpl; by rewrite E2|].
  wp_head. wp_head.
  { change (4 - 1) with (Z.ones 2). rewrite Z.land_ones by lia. apply Z.eqb_eq. apply Hleaf. }
  wp_head. wp_head. apply owp_stack_push; [done|]. wp_head.
  apply HQ; [|done|lia].
  eapply ext_trans; [|exact Hext]. split_and!; [done|by rewrite Hob1|lia|apply Hrev1..].
Qed.

Lemma get_key_ok w e :
  ts_readable (store w) -> leaf_at (objects w) (end_of w) e -> get_key w e.1 = Ok e.2.1.
Proof.
  intros Hs (_ & Hpos & Hob & Hsz). unfold get_key.
  pose proof (key_size_pos e.2.1). pose proof (pair_end_ge e.1 e.2.1 e.2.2).
  rewrite (ts_getro_ok _ _ _ _ Hs Hob) by lia. simpl. by rewrite (ts_getro_ok _ _ _ _ Hs Hob) by lia.
Qed.

Lemma load_leaf_node_ok w e :
  ts_readable (store w) -> leaf_at (objects w) (end_of w) e -> load_leaf_node w e.1 = Ok e.2.
Proof.
  intros Hs He. unfold load_leaf_node. rewrite get_key_ok by done. destruct He as (_ & Hpos & Hob & Hsz).
  pose proof (key_size_pos e.2.1). pose proof (pair_end_ge e.1 e.2.1 e.2.2). simpl.
  rewrite (ts_getro_ok _ _ _ _ Hs Hob) by lia. simpl.
  rewrite (ts_getro_ok _ _ _ _ Hs Hob) by lia. by destruct e as [? []].
Qed.

(** *** Nodes *)

Lemma validate_children_ok cs a :
  NoDup cs -> Forall (fun c => is_heap c = false /\ untag_address c < a) cs ->
  validate_children cs a = true.
Proof.
  induction cs as [|c cs IH]; [done|]. intros [Hc Hnd]%NoDup_cons [[Hh Ha] Hcs]%Forall_cons.
  simpl. rewrite Hh, IH by done. simpl. rewrite andb_true_r. apply andb_true_iff. split.
  - apply negb_true_iff. rewrite Z.geb_leb. apply Z.leb_gt. lia.
  - apply negb_true_iff, not_true_iff_false. intros (x & Hx & ->%Z.eqb_eq)%existsb_exists.
    by apply Hc, list_elem_of_In.
Qed.

Lemma internal_size_bytes_ok bm : 0 < bm < 2 ^ 64 ->
  internal_size_bytes (pop_count bm) = Ok (16 + 8 * pop_count bm).
Proof.
  intros Hbm. pose proof (pop_count_pos bm). pose proof (pop_count_le_64 bm).
  unfold internal_size_bytes. change max_hash_bits with 66.
  rewrite Z.gtb_ltb. rewrite !(proj2 (Z.ltb_lt _ _)) by lia. done.
Qed.

Lemma internal_get_node_ok w p bm cs :
  ts_readable (store w) -> 0 < bm < 2 ^ 64 -> NoDup cs ->
  node_at (heap w) (objects w) (end_of w) (Internal bm cs) p ->
  internal_get_node w p = Ok (bm, cs).
Proof.
  intros Hs Hbm Hnd. unfold internal_get_node. destruct 1 as [l Hl ? Hn|a Ha ? Hn [Hsz Hcs]].
  - rewrite (proj2 (heap_ptr_kind l Hl)), untag_node_heap by done. unfold heap_deref. by rewrite Hn.
  - apply mod8_mod4 in Ha. rewrite (proj2 (store_ptr_kind a Ha)), untag_address_store by done.
    pose proof (pop_count_pos bm ltac:(lia)). unfold read_node.
    rewrite (ts_getro_ok _ _ _ _ Hs Hn) by lia. simpl.
    unfold internal_size. rewrite (proj2 (Z.eqb_neq bm 0)) by lia. simpl.
    rewrite internal_size_bytes_ok by done. simpl.
    rewrite Z.gtb_ltb, (proj2 (Z.ltb_lt _ _)) by lia. simpl.
    rewrite (ts_getro_ok _ _ _ _ Hs Hn) by lia. simpl. by rewrite validate_children_ok.
Qed.

Lemma linear_get_node_ok w p ls :
  ts_readable (store w) -> (1 <= length ls)%nat ->
  node_at (heap w) (objects w) (end_of w) (Linear ls) p ->
  linear_get_node w p = Ok ls.
Proof.
  intros Hs Hlen. unfold linear_get_node. destruct 1 as [l Hl ? Hn|a Ha ? Hn Hsz]; simpl in *.
  - rewrite (proj2 (heap_ptr_kind l Hl)), untag_node_heap by done. unfold heap_deref. by rewrite Hn.
  - rewrite (proj2 (store_ptr_kind a (mod8_mod4 _ Ha))), untag_address_store by (by apply mod8_mod4).
    rewrite Ha. simpl. rewrite (ts_getro_ok _ _ _ _ Hs Hn) by lia. simpl.
    by rewrite (ts_getro_ok _ _ _ _ Hs Hn) by (unfold linear_size_bytes; lia).
Qed.

Lemma linear_lookup_missing w (ls : list (entry K V)) k n :
  ts_readable (store w) -> Forall (leaf_at (objects w) (end_of w)) ls -> k ∉ keys ls ->
  linear_lookup w ls.*1 k n = Ok (0, not_found).
Proof.
  intros Hs Hls. revert n. induction Hls as [|e ls He _ IH]; intros n Hk; [done|].
  simpl. rewrite (get_key_ok w e) by done. simpl.
  apply not_elem_of_cons in Hk as [Hk Hks].
  destruct (kt_equal e.2.1 k) eqn:E; [by apply kt_equal_spec in E|]. by apply IH.
Qed.

Lemma linear_lookup_found w (ls : list (entry K V)) i e n :
  ts_readable (store w) -> Forall (leaf_at (objects w) (end_of w)) ls -> NoDup (keys ls) ->
  ls !! i = Some e -> linear_lookup w ls.*1 e.2.1 n = Ok (e.1, n + Z.of_nat i).
Proof.
  intros Hs Hls. revert n i. induction Hls as [|e' ls He _ IH]; intros n i; [done|].
  simpl. rewrite (get_key_ok w e') by done. simpl.
  intros [Hk Hks]%NoDup_cons Hi. destruct i as [|i]; simpl in Hi.
  - injection Hi as ->. rewrite (proj2 (kt_equal_spec _ _)) by done. do 2 f_equal. lia.
  - destruct (kt_equal e'.2.1 e.2.1) eqn:E.
    + apply kt_equal_spec in E. rewrite E in Hk. destruct Hk.
      apply (list_elem_of_lookup_2 _ i). unfold keys. by rewrite list_lookup_fmap, Hi.
    + rewrite (IH _ i) by done. do 2 f_equal. lia.
Qed.

Lemma linear_length_bound w (ls : list (entry K V)) :
  ts_readable (store w) -> Forall (leaf_at (objects w) (end_of w)) ls -> NoDup (keys ls) ->
  Z.of_nat (length ls) < not_found.
Proof.
  intros Hs Hls Hnd. pose proof (ts_size_range _ Hs). pose proof ts_limit_bound.
  assert (NoDup ls.*1) as Hnd1.
  { apply NoDup_alt. intros i j a. rewrite !list_lookup_fmap.
    intros (ei & Hi & ->)%fmap_Some (ej & Hj & Heq)%fmap_Some. rewrite Forall_lookup in Hls.
    destruct (Hls _ _ Hi) as (_ & _ & Hei & _), (Hls _ _ Hj) as (_ & _ & Hej & _).
    rewrite Heq, Hej in Hei. injection Hei as Hk _.
    eapply (NoDup_lookup _ i j ei.2.1 Hnd); unfold keys; rewrite list_lookup_fmap.
    - by rewrite Hi.
    - rewrite Hj. simpl. congruence. }
  pose proof (NoDup_length_bound ls.*1 (end_of w) Hnd1) as Hlen.
  rewrite length_fmap in Hlen. enough (Z.of_nat (length ls) <= Z.max 0 (end_of w))
    by (unfold not_found, uint64_max; lia).
  apply Hlen, Forall_fmap. eapply Forall_impl; [exact Hls|].
  intros e (_ & ? & _ & ?). pose proof (key_size_pos e.2.1). pose proof (pair_end_ge e.1 e.2.1 e.2.2). simpl. lia.
Qed.

Lemma bit_pos_ok i : 0 <= i < 64 -> wrap64 (Z.shiftl 1 i) = 2 ^ i.
Proof.
  intros Hi. rewrite Z.shiftl_1_l. apply wrap_small. split; [lia|]. apply Z.pow_lt_mono_r; lia.
Qed.

Lemma internal_lookup_found bm cs i c :
  0 <= bm < 2 ^ 64 -> 0 <= i < 64 -> Z.testbit bm i = true ->
  let idx := pop_count (Z.land bm (2 ^ i - 1)) in
  cs !! Z.to_nat idx = Some c -> internal_lookup bm cs i = Ok (c, idx).
Proof.
  intros Hbm Hi Hb idx Hc. unfold internal_lookup. change (2 ^ hash_index_bits) with 64.
  rewrite (proj2 (Z.ltb_lt _ _)) by lia. simpl.
  rewrite bit_pos_ok, land_pow2_zero, Hb by lia. simpl. unfold child_at.
  fold idx. by rewrite Hc.
Qed.

Lemma internal_lookup_missing bm cs i :
  0 <= i < 64 -> Z.testbit bm i = false -> internal_lookup bm cs i = Ok (0, not_found).
Proof.
  intros Hi Hb. unfold internal_lookup. change (2 ^ hash_index_bits) with 64.
  rewrite (proj2 (Z.ltb_lt _ _)) by lia. simpl.
  by rewrite bit_pos_ok, land_pow2_zero, Hb by lia.
Qed.

End ops.
