(* ===== verification/HamtInsert.v ===== *)
(** * Insertion

    Correctness of [insert_node] and of the functions it calls: from a well-formed
    trie they build a well-formed trie that differs by one entry, keep the blocks of
    the heap that are not theirs, lose none, and return the path to the entry. *)

From S2P Require Import Prelude BitCount StoreIntf HamtTypes HamtMap HamtSpec HamtOps.

Section insert.
Context {K V St : Type} {KT : KeyTraits K V} {KL : KeyTraitsLaws K V}
  {TS : TransactionStore St (obj K V)} {TL : TransactionStoreLaws St (obj K V)}
  {HA : HeapAllocator node} {HL : HeapAllocatorLaws node}.
Local Abbreviation W := (world St).
Implicit Types w : W.
Implicit Types t : tree K V.
Implicit Types e : entry K V.
#[local] Existing Instance key_eq_dec.

(** ** Memory after a tree has been replaced *)

(** The block of a replaced root, which the caller must release. *)
Definition stale t t' : list Z := if decide (root_ptr t = root_ptr t') then [] else own (root_ptr t).

(** From [w] to [w'] the blocks [X] became the blocks [X'] and those of [st] are to be
    released; all other blocks are untouched. *)
Record grown w w' (X X' st : list Z) : Prop := {
  g_ext : ext (store w) (store w');
  g_frame l : l ∉ X -> is_Some (heap w !! l) -> heap w' !! l = heap w !! l;
  g_stale l : l ∈ st ->
    heap w' !! l = heap w !! l /\ l ∈ X /\ l ∉ X' /\ is_Some (heap w !! l);
  g_live l : l ∈ X' -> is_Some (heap w' !! l);
  g_dom l : is_Some (heap w' !! l) -> (is_Some (heap w !! l) /\ l ∉ X) \/ l ∈ X' \/ l ∈ st;
  g_new l : l ∈ X' -> l ∈ X \/ heap w !! l = None
}.

Lemma grown_refl w X : ts_inv (store w) -> (forall l, l ∈ X -> is_Some (heap w !! l)) -> grown w w X X [].
Proof.
  intros Hs HX. split; auto using ext_refl; [set_solver|].
  intros l Hl. destruct (decide (l ∈ X)); auto.
Qed.

Lemma grown_store w s' : ext (store w) s' -> grown w (World (heap w) s') [] [] [].
Proof. intros He. split; simpl; auto; set_solver. Qed.

(** Dropping blocks, adding a block, writing to one. *)
Lemma grown_drop w X :
  ts_inv (store w) -> (forall l, l ∈ X -> is_Some (heap w !! l)) -> grown w w X [] X.
Proof.
  intros Hs HX. split; [by apply ext_refl|done| | | |].
  - intros l Hl. split_and!; auto using not_elem_of_nil.
  - by intros l ?%elem_of_nil.
  - intros l Hl. destruct (decide (l ∈ X)); auto.
  - by intros l ?%elem_of_nil.
Qed.

Lemma grown_new w w1 X X' st l n s' :
  grown w w1 X X' st -> heap w1 !! l = None -> ext (store w1) s' ->
  grown w (World (<[l := n]> (heap w1)) s') X (l :: X') st.
Proof.
  intros [Hext Hframe Hst Hlive Hdom Hnew] Hl He. split; simpl.
  - by eapply ext_trans.
  - intros x Hx Hs. rewrite lookup_insert_ne; [by apply Hframe|].
    intros ->. rewrite <- Hframe in Hs by done. by rewrite Hl in Hs; destruct Hs.
  - intros x Hx. destruct (Hst x Hx) as (Heq & ? & ? & Hs).
    assert (x <> l) by (intros ->; rewrite <- Heq, Hl in Hs; by destruct Hs).
    rewrite lookup_insert_ne by done. set_solver.
  - intros x [-> |Hx]%elem_of_cons; [by rewrite lookup_insert_eq|].
    destruct (decide (x = l)) as [->|]; [by rewrite lookup_insert_eq|].
    rewrite lookup_insert_ne by done. auto.
  - intros x. destruct (decide (x = l)) as [->|]; [set_solver|].
    rewrite lookup_insert_ne by done. intros [?|[?|?]]%Hdom; set_solver.
  - intros x [-> |Hx]%elem_of_cons; [|by apply Hnew].
    destruct (decide (l ∈ X)) as [|HlX]; [by auto|]. right.
    destruct (heap w !! l) eqn:E; [|done]. rewrite Hframe in Hl by (done || by eexists). congruence.
Qed.

Lemma grown_assign w l n s' :
  is_Some (heap w !! l) -> ext (store w) s' ->
  grown w (World (<[l := n]> (heap w)) s') [l] [l] [].
Proof.
  intros Hl He. split; simpl; [done| |set_solver|..].
  - intros x Hx _. rewrite lookup_insert_ne; set_solver.
  - intros x ->%list_elem_of_singleton. by rewrite lookup_insert_eq.
  - intros x. destruct (decide (x = l)) as [->|]; [set_solver|].
    rewrite lookup_insert_ne by done. set_solver.
  - set_solver.
Qed.

(** One entry of a list is inserted or replaced. *)
Definition edit e (old l l' : list (entry K V)) : Prop :=
  exists l1 l2, l = l1 ++ old ++ l2 /\ l' = l1 ++ [e] ++ l2.

Lemma edit_ctx e old l l' a b : edit e old l l' -> edit e old (a ++ l ++ b) (a ++ l' ++ b).
Proof.
  intros (l1 & l2 & -> & ->). exists (a ++ l1), (l2 ++ b). by rewrite <- !(assoc_L (++)).
Qed.

Lemma edit_elem e old l l' x : edit e old l l' -> x ∈ l' -> x = e \/ x ∈ l.
Proof. intros (l1 & l2 & -> & ->). set_solver. Qed.

Lemma edit_self e old l l' : edit e old l l' -> e ∈ l'.
Proof. intros (l1 & l2 & -> & ->). set_solver. Qed.

Lemma edit_length e old l l' : edit e old l l' -> (length l' + length old = S (length l))%nat.
Proof. intros (l1 & l2 & -> & ->). rewrite !length_app. simpl. lia. Qed.

(** What the insertion of [kv] did to the entries, given the flag it returned. *)
Definition edit_kind (is_upsert : bool) (kv : K * V) (key_exists : bool) e (old : list (entry K V))
    (ks : list K) : Prop :=
  match key_exists, is_upsert with
  | true, true => e.2 = kv /\ exists a v, old = [(a, (kv.1, v))]
  | true, false => e.2.1 = kv.1 /\ old = [e]
  | false, _ => e.2 = kv /\ old = [] /\ kv.1 ∉ ks
  end.

Lemma edit_kind_key u kv ex e old ks : edit_kind u kv ex e old ks -> e.2.1 = kv.1.
Proof. destruct ex, u; naive_solver. Qed.

Lemma edit_kind_old u kv ex e old ks : edit_kind u kv ex e old ks -> (length old <= 1)%nat.
Proof. destruct ex, u; simpl; [intros (_ & a & v & ->)|intros (_ & ->)|intros (_ & -> & _)..]; simpl; lia. Qed.

Lemma edit_kind_old_key u kv ex e old ks x :
  edit_kind u kv ex e old ks -> x ∈ old -> x.2.1 = e.2.1.
Proof.
  destruct ex, u; simpl; [intros (-> & a & v & ->)|intros (_ & ->)|intros (_ & -> & _)..];
    by try intros ->%list_elem_of_singleton; try intros ?%elem_of_nil.
Qed.

Lemma edit_kind_keys u kv ex e old ks ks' :
  (kv.1 ∈ ks' -> kv.1 ∈ ks) -> edit_kind u kv ex e old ks -> edit_kind u kv ex e old ks'.
Proof. destruct ex, u; naive_solver. Qed.

(** The whole postcondition of an insertion under [t] at depth [d]. *)
Definition insert_post (d : Z) (u : bool) (kv : K * V) w t (r : insert_result) w' : Prop :=
  exists t' e old,
    r.1.1 = root_ptr t' /\ Rep w' t' /\ grown w w' (footprint t) (footprint t') (stale t t') /\
    wf d t' /\ path t' r.2 e /\
    edit e old (entries t) (entries t') /\ edit_kind u kv r.1.2 e old (keys (entries t)) /\
    (r.1.2 = true -> u = false -> t' = t /\ w' = w) /\
    (d < max_internal_depth -> stale t t' = []) /\
    (negb r.1.2 || u = true -> end_of w <= e.1 < end_of w').

(** ** Building blocks *)

Lemma own_heap_ptr l : l mod 4 = 0 -> own (heap_ptr l) = [l].
Proof. intros Hl. unfold own. by rewrite (proj2 (heap_ptr_kind l Hl)), untag_node_heap. Qed.

Lemma own_footprint h ob sz t l : rep h ob sz t -> l ∈ own (root_ptr t) -> l ∈ footprint t.
Proof.
  destruct 1 as [a k v (Ha & _)| |]; simpl; [|set_solver..].
  unfold own. rewrite (proj2 (leaf_ptr_kind a Ha)). set_solver.
Qed.

Lemma stale_footprint h ob sz t t' l : rep h ob sz t -> l ∈ stale t t' -> l ∈ footprint t.
Proof. unfold stale. case_decide; [set_solver|apply own_footprint]. Qed.

(** A node is rebuilt over a list of children of which some are new (their blocks are
    among [X']) and the others survive (they have no block in [X]). *)
Section rebuild.
Context (d p bm p' bm' : Z) (ts ts' : list (tree K V)) w w1 w3 (X X' st : list Z).
Context (Hwf : wf d (TNode p bm ts)) (Hrep : Rep w (TNode p bm ts)).
Context (Hg : grown w w1 X X' st).
Context (HX : forall l, l ∈ X -> exists t, t ∈ ts /\ l ∈ footprint t).
Context (Hnode : node_at (heap w3) (objects w3) (end_of w3) (Internal bm' (root_ptr <$> ts')) p').
Context (Hown' : forall l, l ∈ own p' -> l ∈ own p \/ (own p = [] /\ heap w1 !! l = None)).
Context (Hown : forall l, l ∈ own p -> l ∈ own p').
Context (Hstore : store w3 = store w1).
Context (Hheap : forall l, l ∉ own p' -> heap w3 !! l = if decide (l ∈ st) then None else heap w1 !! l).
Context (Hts' : forall t, t ∈ ts' ->
  (t ∈ ts /\ forall l, l ∈ footprint t -> l ∉ X) \/ (Rep w1 t /\ forall l, l ∈ footprint t -> l ∈ X')).
Context (HX' : forall l, l ∈ X' -> exists t, t ∈ ts' /\ l ∈ footprint t).
Context (Hts : forall t l, t ∈ ts -> l ∈ footprint t -> l ∈ X \/ exists t', t' ∈ ts' /\ l ∈ footprint t').

Local Lemma own_not_X l : l ∈ own p -> l ∉ X.
Proof. intros Hl (t & Ht & Hlt)%HX. by eapply footprint_own. Qed.

Local Lemma own_live l : l ∈ own p -> is_Some (heap w !! l).
Proof.
  intros Hl. eapply rep_footprint_live; [exact Hrep|]. apply elem_of_footprint_node. by left.
Qed.

Local Lemma own'_not_X' l : l ∈ own p' -> l ∉ X'.
Proof.
  intros [Hl|[_ Hl]]%Hown' Hl'.
  - destruct (g_new _ _ _ _ _ Hg _ Hl') as [HlX|HlN]; [by eapply own_not_X|].
    by destruct (own_live l Hl) as [? ?]; simplify_eq.
  - destruct (g_live _ _ _ _ _ Hg _ Hl'). congruence.
Qed.

Local Lemma own'_not_live l : l ∈ own p' -> l ∉ own p -> l ∉ X -> heap w !! l = None.
Proof.
  intros [Hl|[_ Hl]]%Hown' Hno HlX; [done|].
  destruct (heap w !! l) eqn:E; [|done].
  rewrite (g_frame _ _ _ _ _ Hg l) in Hl by (done || by eexists). congruence.
Qed.

Local Lemma kept_child_frame t l :
  t ∈ ts -> (forall l, l ∈ footprint t -> l ∉ X) -> l ∈ footprint t -> heap w3 !! l = heap w !! l.
Proof.
  intros Ht HtX Hl. inversion Hrep as [|? ? ? Hn Hc|]; subst. rewrite Forall_forall in Hc.
  pose proof (rep_footprint_live _ _ _ _ _ (Hc _ Ht) Hl) as Hlive.
  assert (l ∉ own p) by (intros ?; by eapply footprint_own).
  destruct (decide (l ∈ own p')) as [Ho|Ho].
  { rewrite own'_not_live in Hlive by auto. by destruct Hlive. }
  rewrite Hheap by done. rewrite decide_False; [by apply (g_frame _ _ _ _ _ Hg); auto|].
  intros Hst. destruct (g_stale _ _ _ _ _ Hg _ Hst) as (_ & ? & _ & _). by eapply HtX.
Qed.

Lemma rebuild_rep : Rep w3 (TNode p' bm' ts').
Proof.
  constructor; [done|]. apply Forall_forall. intros t Ht.
  inversion Hrep as [|? ? ? Hn Hc|]; subst. rewrite Forall_forall in Hc. rewrite Hstore.
  destruct (Hts' t Ht) as [[Hold HtX]|[Hnew HtX']].
  - pose proof (g_ext _ _ _ _ _ Hg) as (_ & ? & ? & _).
    eapply rep_ext; [|done|done|by apply Hc]. intros l Hl. by eapply kept_child_frame.
  - eapply rep_ext; [|done|done|exact Hnew]. intros l Hl.
    assert (l ∉ own p') by (intros ?; eapply own'_not_X'; eauto).
    rewrite Hheap, decide_False; [done| |done].
    intros Hst. destruct (g_stale _ _ _ _ _ Hg _ Hst) as (_ & _ & Hno & _). eauto.
Qed.

Lemma rebuild_grown :
  grown w w3 (footprint (TNode p bm ts)) (footprint (TNode p' bm' ts')) [].
Proof.
  pose proof rebuild_rep as Hrep3. split.
  - rewrite Hstore. apply (g_ext _ _ _ _ _ Hg).
  - intros l Hl Hlive. rewrite elem_of_footprint_node in Hl.
    assert (l ∉ X) as HlX by (intros (t & Ht & Hlt)%HX; naive_solver).
    destruct (decide (l ∈ own p')) as [Ho|Ho].
    { rewrite own'_not_live in Hlive by auto. by destruct Hlive. }
    rewrite Hheap, decide_False; [by apply (g_frame _ _ _ _ _ Hg)| |done].
    intros Hst. by destruct (g_stale _ _ _ _ _ Hg _ Hst) as (_ & ? & _ & _).
  - set_solver.
  - intros l Hl. by eapply rep_footprint_live.
  - intros l Hl. rewrite !elem_of_footprint_node.
    destruct (decide (l ∈ own p')) as [Ho|Ho]; [by auto|].
    rewrite Hheap in Hl by done. case_decide as Hst; [by destruct Hl|].
    destruct (g_dom _ _ _ _ _ Hg _ Hl) as [[Hlive HlX]|[HlX'|?]]; [|by auto|done].
    destruct (decide (l ∈ footprint (TNode p bm ts))) as [Hin|Hout];
      [|rewrite elem_of_footprint_node in Hout; by auto].
    apply elem_of_footprint_node in Hin as [Hin|(t & Ht & Hlt)]; [naive_solver|].
    destruct (Hts t l Ht Hlt); naive_solver.
  - intros l [Hl|(t & Ht & Hlt)]%elem_of_footprint_node; rewrite elem_of_footprint_node.
    + destruct (decide (l ∈ own p)); [by auto|].
      destruct (decide (l ∈ X)) as [HlX|HlX]; [left; right; by apply HX|].
      right. by apply own'_not_live.
    + destruct (Hts' t Ht) as [[Hold _]|[_ HtX']]; [naive_solver|].
      destruct (g_new _ _ _ _ _ Hg l (HtX' l Hlt)) as [HlX|]; [left; right; by apply HX|by auto].
Qed.

Lemma rebuild_stale : stale (TNode p bm ts) (TNode p' bm' ts') = [].
Proof.
  unfold stale. simpl. case_decide as Hne; [done|].
  destruct (own p) as [|l o] eqn:Hop; [done|]. destruct Hne.
  inversion Hrep as [|? ? ? Hn Hc|]; subst.
  assert (l ∈ own p) as Hl by (rewrite Hop; set_solver).
  destruct (node_at_own _ _ _ _ _ _ Hn Hl) as (_ & -> & _).
  by destruct (node_at_own _ _ _ _ _ _ Hnode (Hown l ltac:(rewrite <- Hop; done))) as (_ & -> & _).
Qed.

Lemma rebuild :
  Rep w3 (TNode p' bm' ts') /\
  grown w w3 (footprint (TNode p bm ts)) (footprint (TNode p' bm' ts'))
    (stale (TNode p bm ts) (TNode p' bm' ts')) /\
  stale (TNode p bm ts) (TNode p' bm' ts') = [].
Proof. rewrite rebuild_stale. split_and!; [apply rebuild_rep|apply rebuild_grown|done]. Qed.
End rebuild.

(** ** Routing *)

Lemma chunk_range d (k : K) : 0 <= chunk d k < 64.
Proof.
  unfold chunk, hash_index_mask. change 64 with (2 ^ hash_index_bits). change (2 ^ hash_index_bits - 1) with (Z.ones 6).
  rewrite Z.land_ones by lia. apply Z.mod_pos_bound. done.
Qed.

Lemma depth_internal d : depth_is_internal_node (d * hash_index_bits) = (d <? max_internal_depth).
Proof.
  unfold depth_is_internal_node. change max_hash_bits with (max_internal_depth * hash_index_bits).
  unfold hash_index_bits. destruct (Z.ltb_spec (d * 6) (max_internal_depth * 6)), (Z.ltb_spec d max_internal_depth); lia.
Qed.

Lemma next_shift d : d * hash_index_bits + hash_index_bits = (d + 1) * hash_index_bits.
Proof. lia. Qed.

Lemma next_hash d (k : K) : 0 <= d ->
  Z.shiftr (Z.shiftr (kt_hash k) (d * hash_index_bits)) hash_index_bits =
  Z.shiftr (kt_hash k) ((d + 1) * hash_index_bits).
Proof. intros Hd. rewrite Z.shiftr_shiftr by done. f_equal. lia. Qed.

(** The position of a bit's child. *)
Definition index_of (bm b : Z) : nat := Z.to_nat (pop_count (Z.land bm (2 ^ b - 1))).

Lemma wf_lookup_found d p bm ts k :
  wf d (TNode p bm ts) -> Z.testbit bm (chunk d k) = true ->
  exists t, ts !! index_of bm (chunk d k) = Some t /\ wf (d + 1) t /\
    (forall e, e ∈ entries t -> chunk d e.2.1 = chunk d k) /\
    (k ∈ keys (entries (TNode p bm ts)) -> k ∈ keys (entries t)).
Proof.
  intros Hwf Hb. pose proof (chunk_range d k) as Hr.
  pose proof (set_bits_lookup 64 bm _ Hr Hb) as Hbit. fold (index_of bm (chunk d k)) in Hbit.
  inversion Hwf as [|? ? ? ? ? ? Hroute Hc|]; subst.
  destruct (Forall2_lookup_l _ _ _ _ _ Hroute Hbit) as (t & Ht & Hrt).
  rewrite Forall_forall in Hrt. exists t.
  destruct (wf_route _ _ _ _ _ _ Hwf Ht) as (_ & _ & Hw & _).
  split_and!; [done..|].
  intros (a & v & (u & (j & Hu)%list_elem_of_lookup_1 & Hin)%elem_of_entries_node)%elem_of_keys.
  destruct (wf_entries_nonempty _ _ Hw) as [e He].
  assert (j = index_of bm (chunk d k)) as ->.
  { eapply (wf_route_inj _ _ _ _ _ _ _ _ _ _ Hwf Hu Ht Hin He). by rewrite (Hrt e He). }
  apply elem_of_keys. exists a, v. by simplify_eq.
Qed.

Lemma wf_lookup_missing d p bm ts k :
  wf d (TNode p bm ts) -> Z.testbit bm (chunk d k) = false ->
  k ∉ keys (entries (TNode p bm ts)).
Proof.
  intros Hwf Hb (a & v & (u & (j & Hu)%list_elem_of_lookup_1 & Hin)%elem_of_entries_node)%elem_of_keys.
  destruct (wf_route _ _ _ _ _ _ Hwf Hu) as (b & Hbit%list_elem_of_lookup_2%elem_of_set_bits & _ & Hr).
  rewrite <- (Hr _ Hin) in Hbit. simpl in Hbit. destruct Hbit. congruence.
Qed.

Lemma entries_split p bm ts i t : ts !! i = Some t ->
  entries (TNode p bm ts) =
    concat (entries <$> take i ts) ++ entries t ++ concat (entries <$> drop (S i) ts).
Proof.
  intros Hi. simpl. rewrite <- (take_drop_middle ts i t Hi) at 1.
  by rewrite fmap_app, concat_app, fmap_cons.
Qed.

Lemma edit_replace p p' bm ts i t t' e old :
  ts !! i = Some t -> edit e old (entries t) (entries t') ->
  edit e old (entries (TNode p bm ts)) (entries (TNode p' bm (<[i := t']> ts))).
Proof.
  intros Hi He. rewrite (entries_split p bm ts i t) by done.
  rewrite (entries_split p' bm (<[i := t']> ts) i t')
    by (apply list_lookup_insert_eq; by eapply lookup_lt_Some).
  rewrite take_insert_ge, drop_insert_lt by lia. by apply edit_ctx.
Qed.

Lemma wf_replace d p p' bm ts i t t' k e old :
  wf d (TNode p bm ts) -> ts !! i = Some t -> wf (d + 1) t' ->
  (forall x, x ∈ entries t -> chunk d x.2.1 = chunk d k) ->
  edit e old (entries t) (entries t') -> e.2.1 = k -> (length old <= 1)%nat ->
  wf d (TNode p' bm (<[i := t']> ts)).
Proof.
  intros Hwf Hi Ht' Hr He Hk Hold.
  pose proof (edit_replace p p' bm ts i t t' e old Hi He) as HeT.
  destruct (wf_route _ _ _ _ _ _ Hwf Hi) as (b & Hb & Hw & Hrb).
  inversion Hwf as [|? ? ? ? Hd Hbm Hroute Hc Hlen|]; subst.
  constructor; [done|done| | |].
  - rewrite <- (list_insert_id _ _ _ Hb). apply Forall2_insert; [done|].
    apply Forall_forall. intros x Hx. destruct (wf_entries_nonempty _ _ Hw) as [y Hy].
    rewrite <- (Hrb y Hy), (Hr y Hy).
    destruct (edit_elem _ _ _ _ _ He Hx) as [-> |Hx']; [done|by apply Hr].
  - by apply Forall_insert.
  - pose proof (edit_length _ _ _ _ HeT). lia.
Qed.

Lemma edit_insert p p' bm bm' ts i (a : Z) (k : K) (v : V) :
  edit (a, (k, v)) [] (entries (TNode p bm ts))
    (entries (TNode p' bm' (take i ts ++ TLeaf a k v :: drop i ts))).
Proof.
  exists (concat (entries <$> take i ts)), (concat (entries <$> drop i ts)). simpl.
  rewrite <- (take_drop i ts) at 1. by rewrite !fmap_app, !concat_app, fmap_cons.
Qed.

Lemma wf_insert d p p' bm ts a k v :
  wf d (TNode p bm ts) -> Z.testbit bm (chunk d k) = false ->
  let i := index_of bm (chunk d k) in
  wf d (TNode p' (Z.lor bm (2 ^ chunk d k)) (take i ts ++ TLeaf a k v :: drop i ts)).
Proof.
  intros Hwf Hb i. pose proof (chunk_range d k) as Hr.
  pose proof (edit_insert p p' bm (Z.lor bm (2 ^ chunk d k)) ts i a k v) as HeT.
  inversion Hwf as [|? ? ? ? Hd Hbm Hroute Hc Hlen|]; subst.
  pose proof (Z.pow_pos_nonneg 2 (chunk d k)).
  pose proof (Z.pow_lt_mono_r 2 (chunk d k) 64).
  constructor; [done| | | |].
  - pose proof (lor_range 64 bm (2 ^ chunk d k)). 
    assert (Z.lor bm (2 ^ chunk d k) <> 0) by (intros [? _]%Z.lor_eq_0_iff; lia). lia.
  - rewrite set_bits_insert by done. fold (index_of bm (chunk d k)). fold i.
    apply Forall2_app; [by apply Forall2_take|]. constructor; [|by apply Forall2_drop].
    apply Forall_singleton. done.
  - apply Forall_app; split; [by apply Forall_take|]. constructor; [constructor|by apply Forall_drop].
  - pose proof (edit_length _ _ _ _ HeT). simpl in *. lia.
Qed.

(** ** Splitting a leaf *)

Lemma pop_count_pow2_below i j : 0 <= i < 64 -> 0 <= j < 64 -> i <> j ->
  pop_count (Z.land (2 ^ i) (2 ^ j - 1)) = if i <? j then 1 else 0.
Proof.
  intros Hi Hj Hne. rewrite land_below by lia. destruct (Z.ltb_spec i j).
  - rewrite Z.mod_small by (pose proof (Z.pow_lt_mono_r 2 i j); lia).
    rewrite <- (length_set_bits 64), set_bits_pow2; [done|done|].
    pose proof (Z.pow_lt_mono_r 2 i 64); lia.
  - replace i with ((i - j) + j) by lia. rewrite Z.pow_add_r, Z.mod_mul by lia. done.
Qed.

Lemma set_bits_two i j : 0 <= i < 64 -> 0 <= j < 64 -> i <> j ->
  set_bits 64 (Z.lor (2 ^ i) (2 ^ j)) = if i <? j then [i; j] else [j; i].
Proof.
  intros Hi Hj Hne. rewrite set_bits_insert; [|done|by apply Z.pow2_bits_false].
  rewrite pop_count_pow2_below, set_bits_pow2 by done. by destruct (i <? j).
Qed.

Lemma pow2_range i : 0 <= i < 64 -> 0 < 2 ^ i < 2 ^ 64.
Proof. intros. split; [lia|]. apply Z.pow_lt_mono_r; lia. Qed.

(** The new node over two leaves whose chunks differ. *)
Lemma wf_two d p a0 k0 (v0 : V) a k v :
  0 <= d < max_internal_depth -> chunk d k0 <> chunk d k ->
  wf d (TNode p (Z.lor (2 ^ chunk d k0) (2 ^ chunk d k))
          (if chunk d k0 <? chunk d k then [TLeaf a0 k0 v0; TLeaf a k v]
           else [TLeaf a k v; TLeaf a0 k0 v0])).
Proof.
  intros Hd Hne. pose proof (chunk_range d k0). pose proof (chunk_range d k).
  pose proof (pow2_range (chunk d k0)). pose proof (pow2_range (chunk d k)).
  constructor; [done| | | |].
  - pose proof (lor_range 64 (2 ^ chunk d k0) (2 ^ chunk d k)).
    assert (Z.lor (2 ^ chunk d k0) (2 ^ chunk d k) <> 0) by (intros [? _]%Z.lor_eq_0_iff; lia). lia.
  - rewrite set_bits_two by done. by destruct (_ <? _); repeat constructor.
  - destruct (_ <? _); repeat constructor.
  - destruct (_ <? _); simpl; lia.
Qed.

(** The new node over one child. *)
Lemma wf_one d p t b :
  0 <= d < max_internal_depth -> 0 <= b < 64 -> wf (d + 1) t ->
  (forall e, e ∈ entries t -> chunk d e.2.1 = b) -> (2 <= length (entries t))%nat ->
  wf d (TNode p (2 ^ b) [t]).
Proof.
  intros Hd Hb Ht Hr Hlen. constructor; [done|by apply pow2_range| |by constructor|].
  - rewrite set_bits_pow2 by done. constructor; [|done]. by apply Forall_forall.
  - simpl. by rewrite app_nil_r.
Qed.

Lemma edit_pair (x y : entry K V) (b : bool) : edit y [] [x] (if b then [x; y] else [y; x]).
Proof. destruct b; [by exists [x], []|by exists [], [x]]. Qed.

Lemma stale_leaf w a k v t' : Rep w (TLeaf a k v) -> stale (TLeaf a k v) t' = [].
Proof.
  inversion 1 as [? ? ? (Ha & _)| |]; subst. unfold stale, own. simpl.
  rewrite (proj2 (leaf_ptr_kind a Ha)). by case_decide.
Qed.

(** Assembles the postcondition when a new key joins an existing leaf. *)
Lemma insert_post_leaf d u kv w a0 k0 v0 t' a r ps w' :
  r = root_ptr t' ->
  Rep w (TLeaf a0 k0 v0) -> kv.1 <> k0 -> Rep w' t' -> grown w w' [] (footprint t') [] ->
  wf d t' -> path t' ps (a, kv) -> edit (a, kv) [] [(a0, (k0, v0))] (entries t') ->
  end_of w <= a < end_of w' -> insert_post d u kv w (TLeaf a0 k0 v0) (r, false, ps) w'.
Proof.
  intros -> Hrep Hne Hrep' Hg Hwf Hp He Hsz. exists t', (a, kv), []. simpl.
  rewrite (stale_leaf w) by done. split_and!; try done.
  by intros ?%list_elem_of_singleton.
Qed.

Lemma path_two p bm (b : bool) (a0 : Z) (k0 : K) (v0 : V) a k v :
  path (TNode p bm (if b then [TLeaf a0 k0 v0; TLeaf a k v] else [TLeaf a k v; TLeaf a0 k0 v0]))
    [(p, if b then 1 else 0); (leaf_ptr a, not_found)] (a, (k, v)).
Proof.
  destruct b; [change 1 with (Z.of_nat 1)|change 0 with (Z.of_nat 0)];
    eapply path_node; [done|constructor|done|constructor].
Qed.

Lemma insert_into_leaf_spec fuel d u kv w a0 k0 v0 :
  ts_inv (store w) -> leaf_room (store w) kv -> Rep w (TLeaf a0 k0 v0) -> kv.1 <> k0 ->
  0 <= d <= max_internal_depth -> max_internal_depth + 1 - d <= Z.of_nat fuel ->
  wp (insert_into_leaf fuel (leaf_ptr a0) kv (Z.shiftr (kt_hash k0) (d * hash_index_bits))
        (Z.shiftr (kt_hash kv.1) (d * hash_index_bits)) (d * hash_index_bits) [])
     (fun r w' => insert_post d u kv w (TLeaf a0 k0 v0) (r.1, false, r.2) w') w.
Proof.
  intros Hs Hroom Hrep Hne. revert d. induction fuel as [|fuel IH]; intros d Hd Hfuel; [lia|].
  destruct kv as [k v]. simpl in Hne. simpl.
  inversion Hrep as [? ? ? Hleaf0| |]; subst.
  rewrite depth_internal. destruct (Z.ltb_spec d max_internal_depth) as [Hdi|Hdi].
  - fold (chunk d k) (chunk d k0). destruct (Z.eqb_spec (chunk d k) (chunk d k0)) as [Hc|Hc]; simpl.
    + (* the chunks collide *)
      apply wp_bind. rewrite next_shift, !next_hash by lia.
      eapply wp_mono; [apply IH; lia|].
      intros [r ps] w1 (t1 & e & old & Hr & Hrep1 & Hg & Hwf1 & Hp & He & (Hek & -> & _) & _ & _ & Hsz).
      simpl in Hr, Hp, Hek, Hsz. specialize (Hsz eq_refl). subst r. rewrite (stale_leaf w) in Hg by done.
      pose proof (edit_length _ _ _ _ He) as Hlen. simpl in Hlen.
      wp_head. apply wp_heap_new. intros l Hl Hlpos Hl4. rewrite tag_node_heap by done.
      do 2 wp_head. apply owp_stack_push; [by eapply (path_push d); [lia|..]|]. wp_head.
      pose (t' := TNode (heap_ptr l) (2 ^ chunk d k0) [t1]).
      apply (insert_post_leaf _ _ _ _ _ _ _ t' e.1); try done.
      * unfold internal_one. rewrite bit_pos_ok by apply chunk_range. subst t'. constructor.
        { constructor; [done|done|]. simpl. by rewrite lookup_insert_eq. }
        constructor; [|done]. eapply rep_ext; [|done|done|exact Hrep1]. simpl. intros x Hx.
        rewrite lookup_insert_ne; [done|]. intros ->.
        destruct (rep_footprint_live _ _ _ _ _ Hrep1 Hx). congruence.
      * subst t'. simpl. rewrite own_heap_ptr, app_nil_r by done. simpl.
        eapply grown_new; [exact Hg|done|]. apply ext_refl, (g_ext _ _ _ _ _ Hg).
      * subst t'. apply wf_one; [lia|apply chunk_range|done| |lia].
        intros x Hx. destruct (edit_elem _ _ _ _ _ He Hx) as [-> | ->%list_elem_of_singleton]; [|done].
        by rewrite Hek.
      * subst t'. change 0 with (Z.of_nat 0). eapply path_node; [done|].
        rewrite <- Hek. by destruct e.
      * subst t'. simpl. rewrite app_nil_r. rewrite <- Hek. by destruct e.
    + (* the chunks differ *)
      apply wp_bind. apply wp_store_leaf_node; [done|done|done|]. intros a s' Hext Hleaf Hfresh.
      wp_head. apply wp_heap_new. simpl. intros l Hl Hlpos Hl4. rewrite tag_node_heap by done.
      do 2 wp_head. apply owp_stack_push; [done|]. wp_head.
      unfold internal_two, get_new_index. rewrite !bit_pos_ok by apply chunk_range.
      pose (t' := TNode (heap_ptr l) (Z.lor (2 ^ chunk d k0) (2 ^ chunk d k))
               (if chunk d k0 <? chunk d k then [TLeaf a0 k0 v0; TLeaf a k v]
                else [TLeaf a k v; TLeaf a0 k0 v0])).
      assert ((chunk d k >=? chunk d k0) = (chunk d k0 <? chunk d k)) as ->.
      { rewrite Z.geb_leb. destruct (Z.leb_spec (chunk d k0) (chunk d k)),
          (Z.ltb_spec (chunk d k0) (chunk d k)); lia. }
      apply (insert_post_leaf _ _ _ _ _ _ _ t' a); try done.
      * subst t'. constructor.
        { constructor; [done|done|]. simpl. rewrite lookup_insert_eq. by destruct (_ <? _). }
        pose proof Hext as (_ & ? & ? & _).
        assert (leaf_at (ts_objects s') (ts_size s') (a0, (k0, v0))) by (by eapply leaf_at_ext).
        destruct (_ <? _); (constructor; [by constructor|]); (constructor; [by constructor|done]).
      * replace (footprint t') with [l].
        { apply (grown_new w w []); [|done|done]. by apply (grown_drop w []); [|set_solver]. }
        subst t'. simpl. rewrite own_heap_ptr by done. by destruct (_ <? _).
      * subst t'. apply wf_two; [lia|done].
      * subst t'. simpl. pose proof (path_two (heap_ptr l) (Z.lor (2 ^ chunk d k0) (2 ^ chunk d k))
          (chunk d k0 <? chunk d k) a0 k0 v0 a k v). by destruct (_ <? _).
      * subst t'. simpl. pose proof (edit_pair (a0, (k0, v0)) (a, (k, v)) (chunk d k0 <? chunk d k)).
        by destruct (_ <? _).
  - (* a linear node *)
    assert (d = max_internal_depth) as -> by lia.
    apply wp_bind. apply wp_store_leaf_node; [done|done|done|]. intros a s' Hext Hleaf Hfresh.
    wp_head. apply wp_heap_new. simpl. intros l Hl Hlpos Hl4. rewrite tag_node_heap by done.
    do 2 wp_head. apply owp_stack_push; [done|]. wp_head.
    pose (t' := TLinear (heap_ptr l) [(a0, (k0, v0)); (a, (k, v))]).
    apply (insert_post_leaf _ _ _ _ _ _ _ t' a); try done.
    + subst t'. constructor.
      { constructor; [done|done|]. simpl. by rewrite lookup_insert_eq. }
      pose proof Hext as (_ & ? & ? & _).
      constructor; [by eapply leaf_at_ext|]. by constructor.
    + subst t'. simpl. rewrite own_heap_ptr by done.
      apply (grown_new w w []); [|done|done]. by apply (grown_drop w []); [|set_solver].
    + subst t'. constructor; [done|]. simpl.
      apply NoDup_cons. split; [|apply NoDup_singleton]. intros ?%list_elem_of_singleton. done.
    + subst t'. change 1 with (Z.of_nat 1). by apply (path_linear _ _ _ (a, (k, v))).
    + subst t'. simpl. apply (edit_pair _ _ true).
Qed.

(** ** Inserting below an internal node *)

(** The nodes of depth [d] are the ones whose static type [delete_node] derives from it. *)
Lemma wp_delete_node d t w0 w (Q : unit -> W -> Prop) :
  wf d t -> Rep w0 t -> (forall l, l ∈ own (root_ptr t) -> heap w !! l = heap w0 !! l) ->
  (forall h, (forall l, h !! l = if decide (l ∈ own (root_ptr t)) then None else heap w !! l) ->
     Q tt (World h (store w))) ->
  wp (delete_node (root_ptr t) (d * hash_index_bits)) Q w.
Proof.
  intros Hwf Hrep Heq HQ. unfold delete_node.
  destruct (is_heap (root_ptr t)) eqn:Hh.
  - set (l := untag_node (root_ptr t)).
    assert (own (root_ptr t) = [l]) as Hown by (unfold own; by rewrite Hh).
    assert (exists n, heap w0 !! l = Some n /\ is_leaf (root_ptr t) = false /\
              match n with Internal _ _ => depth_is_internal_node (d * hash_index_bits)
              | Linear _ => negb (depth_is_internal_node (d * hash_index_bits)) end = true)
      as (n & Hn & Hlf & Hdepth).
    { rewrite depth_internal.
      destruct Hrep as [a k v (Ha & _)|p bm ts Hnode _|p ls Hnode _]; simpl in *.
      - by rewrite (proj2 (leaf_ptr_kind a Ha)) in Hh.
      - destruct (node_at_own _ _ _ _ _ l Hnode) as (Hn & _); [rewrite Hown; set_solver|].
        eexists; split_and!; [done|by eapply node_at_not_leaf|].
        inversion Hwf; subst. apply Z.ltb_lt. lia.
      - destruct (node_at_own _ _ _ _ _ l Hnode) as (Hn & _); [rewrite Hown; set_solver|].
        eexists; split_and!; [done|by eapply node_at_not_leaf|].
        inversion Hwf; subst. by rewrite Z.ltb_irrefl. }
    assert (heap w !! l = Some n) by (rewrite Heq; [done|rewrite Hown; set_solver]).
    wp_head. wp_head; [by rewrite Hlf|]. wp_head. apply wp_with_world.
    eapply owp_heap_deref; [done|]. wp_head. wp_head; [done|].
    eapply wp_heap_delete; [done|]. apply HQ. intros x. rewrite Hown.
    destruct (decide (x = l)) as [->|].
    + rewrite lookup_delete_eq, decide_True; [done|set_solver].
    + rewrite lookup_delete_ne, decide_False; [done|set_solver|done].
  - wp_head. replace w with (World (heap w) (store w)) by (by destruct w).
    apply HQ. intros l. unfold own. by rewrite Hh.
Qed.

Lemma wp_make_writable p bm cs w (Q : option Z * Z -> W -> Prop) :
  node_at (heap w) (objects w) (end_of w) (Internal bm cs) p ->
  (forall o l h2, l mod 4 = 0 -> 0 < l -> h2 !! l = Some (Internal bm cs) ->
     (forall x, x <> l -> h2 !! x = heap w !! x) ->
     (own p = [l] \/ (own p = [] /\ heap w !! l = None)) ->
     Q (o, l) (World h2 (store w))) ->
  wp (make_writable p (bm, cs)) Q w.
Proof.
  intros Hn HQ. unfold make_writable. destruct Hn as [l Hl Hpos Hn|a Ha Hpos Hn Hok].
  - rewrite (proj2 (heap_ptr_kind l Hl)), untag_node_heap by done.
    wp_head. apply wp_with_world. eapply owp_heap_deref; [done|]. wp_head.
    replace w with (World (heap w) (store w)) by (by destruct w).
    apply HQ; auto. left. by apply own_heap_ptr.
  - apply mod8_mod4 in Ha. rewrite (proj2 (store_ptr_kind a Ha)).
    wp_head. apply wp_heap_new. intros l Hl Hlpos Hl4. wp_head. apply HQ; auto.
    + by rewrite lookup_insert_eq.
    + intros x Hx. by rewrite lookup_insert_ne.
    + right. unfold own. by rewrite (proj2 (store_ptr_kind a Ha)).
Qed.

(** What the rebuilding lemmas ask of the block that [make_writable] returns. *)
Lemma writable_own w1 p l :
  l mod 4 = 0 -> (own p = [l] \/ (own p = [] /\ heap w1 !! l = None)) ->
  (forall x, x ∈ own (heap_ptr l) -> x ∈ own p \/ (own p = [] /\ heap w1 !! x = None)) /\
  (forall x, x ∈ own p -> x ∈ own (heap_ptr l)).
Proof.
  intros Hl Hc. rewrite own_heap_ptr by done. split; intros x.
  - intros ->%list_elem_of_singleton. destruct Hc as [-> |?]; [left; set_solver|by right].
  - destruct Hc as [-> |[-> _]]; set_solver.
Qed.

Lemma node_live h ob sz p bm ts l : rep h ob sz (TNode (K:=K) (V:=V) p bm ts) -> own p = [l] ->
  h !! l = Some (Internal bm (root_ptr <$> ts)) .
Proof.
  inversion 1 as [|? ? ? Hn _|]; subst. intros Ho.
  eapply (node_at_own _ _ _ _ _ l Hn). rewrite Ho. set_solver.
Qed.

Lemma internal_bounds d p bm ts : wf d (TNode (K:=K) (V:=V) p bm ts) ->
  0 <= d < max_internal_depth /\ 0 < bm < 2 ^ 64 /\ length ts = length (set_bits 64 bm).
Proof.
  inversion 1 as [|? ? ? ? ? ? Hr|]; subst. split_and!; try done; try lia.
  symmetry. by eapply Forall2_length.
Qed.

Lemma index_of_id bm b : 0 <= bm < 2 ^ 64 -> 0 <= b < 64 ->
  Z.of_nat (index_of bm b) = pop_count (Z.land bm (2 ^ b - 1)) /\
  pop_count (Z.land bm (2 ^ b - 1)) <> not_found.
Proof.
  intros Hbm Hb. pose proof (pop_count_low_lt bm b Hbm Hb). unfold index_of.
  split; [lia|]. unfold not_found, uint64_max. lia.
Qed.

Lemma index_of_le d p bm ts k :
  wf d (TNode (K:=K) (V:=V) p bm ts) -> (index_of bm (chunk d k) <= length ts)%nat.
Proof.
  intros Hwf. destruct (internal_bounds _ _ _ _ Hwf) as (_ & Hbm & ->).
  pose proof (chunk_range d k) as Hr. unfold index_of. rewrite pop_count_below, Nat2Z.id by lia.
  rewrite (set_bits_split 64 bm (chunk d k)), length_app by done. apply Nat.le_add_r.
Qed.

(** [insert_child]: the new leaf takes the position of its bit. *)
Lemma wp_insert_child d p bm ts k l leaf parents w (Q : parent_stack -> W -> Prop) :
  wf d (TNode (K:=K) (V:=V) p bm ts) -> Z.testbit bm (chunk d k) = false -> l mod 4 = 0 ->
  heap w !! l = Some (Internal bm (root_ptr <$> ts)) ->
  Z.of_nat (length parents) < max_tree_depth ->
  (let i := index_of bm (chunk d k) in
   Q ((heap_ptr l, Z.of_nat i) :: parents)
     (World (<[l := Internal (Z.lor bm (2 ^ chunk d k))
                      (take i (root_ptr <$> ts) ++ leaf :: drop i (root_ptr <$> ts))]> (heap w))
            (store w))) ->
  wp (insert_child l (Z.shiftr (kt_hash k) (d * hash_index_bits)) leaf parents) Q w.
Proof.
  intros Hwf Hb Hl4 Hl Hlen HQ. destruct (internal_bounds _ _ _ _ Hwf) as (Hd & Hbm & Hts).
  pose proof (chunk_range d k) as Hr.
  destruct (index_of_id bm (chunk d k)) as [Hidx _]; [lia|done|].
  assert (pop_count (Z.lor bm (2 ^ chunk d k)) = pop_count bm + 1) as Hpop.
  { pose proof (pow2_range _ Hr). rewrite <- !(length_set_bits 64) by (apply lor_range || idtac; lia).
    rewrite set_bits_insert, length_app by done. simpl. rewrite Nat.add_succ_r, <- length_app, take_drop. lia. }
  unfold insert_child. wp_head. apply wp_with_world. eapply owp_heap_deref; [done|].
  cbn zeta. fold (chunk d k). rewrite bit_pos_ok by done.
  wp_head. wp_head; [pose proof (pow2_range _ Hr); apply negb_true_iff, Z.eqb_neq; lia|].
  wp_head. wp_head; [by rewrite land_pow2_zero, Hb by lia|].
  pose proof (pop_count_le_64 (Z.lor bm (2 ^ chunk d k))) as H64.
  pose proof (lor_range 64 bm (2 ^ chunk d k)). pose proof (pow2_range _ Hr).
  wp_head. wp_head; [unfold hash_size; apply Z.ltb_lt; lia|].
  wp_head. wp_head.
  { apply Z.leb_le. rewrite pop_count_below, <- (length_set_bits 64) by lia.
    rewrite (set_bits_split 64 bm (chunk d k)), length_app by done. lia. }
  wp_head. eapply wp_heap_assign; [done|]. wp_head.
  wp_head; [rewrite Hpop; by apply Z.eqb_refl|].
  wp_head. rewrite tag_node_heap by done. apply owp_stack_push; [done|].
  by rewrite <- Hidx, Nat2Z.id.
Qed.

Lemma lookup_of_node d p bm ts w :
  ts_readable (store w) -> wf d (TNode p bm ts) -> Rep w (TNode p bm ts) ->
  internal_get_node w p = Ok (bm, root_ptr <$> ts).
Proof.
  intros Hs Hwf Hrep. pose proof (child_roots_nodup _ _ _ _ _ _ _ Hwf Hrep) as Hnd.
  inversion Hrep as [|? ? ? Hn _|]; subst.
  destruct (internal_bounds _ _ _ _ Hwf) as (_ & Hbm & _). by apply internal_get_node_ok.
Qed.

(** A leaf joins the node. *)
Lemma insert_internal_missing d u p bm ts kv f w :
  ts_inv (store w) -> leaf_room (store w) kv ->
  wf d (TNode p bm ts) -> Rep w (TNode p bm ts) -> Z.testbit bm (chunk d kv.1) = false ->
  wp (insert_into_internal f p kv (Z.shiftr (kt_hash kv.1) (d * hash_index_bits)) (d * hash_index_bits) [])
     (insert_post d u kv w (TNode p bm ts)) w.
Proof.
  intros Hs Hroom Hwf Hrep Hb. unfold insert_into_internal. destruct kv as [k v]. simpl in Hb.
  wp_head. apply wp_with_world. eapply owp_eq; [by eapply lookup_of_node|].
  wp_head. wp_head. fold (chunk d k). eapply owp_eq; [apply internal_lookup_missing; [apply chunk_range|done]|].
  cbn beta iota. rewrite Z.eqb_refl. wp_head.
  inversion Hrep as [|? ? ? Hn _|]; subst. apply wp_make_writable; [done|].
  intros o l h2 Hl4 Hlpos Hl Hh2 Hown. apply wp_unique_scope. wp_head.
  apply wp_store_leaf_node; [done|done|done|]. intros a s' Hext Hleaf Hfresh. wp_head.
  eapply wp_insert_child; [done|done|done|done|done|]. intros i. wp_head. rewrite tag_node_heap by done.
  simpl store. simpl heap.
  pose (t' := TNode (heap_ptr l) (Z.lor bm (2 ^ chunk d k)) (take i ts ++ TLeaf a k v :: drop i ts)).
  pose (w1 := World (heap w) s').
  match goal with |- insert_post _ _ _ _ _ _ ?w' => pose (w3 := w'); fold w3 end.
  destruct (writable_own w1 p l Hl4 Hown) as [Ho1 Ho2].
  assert (node_at (heap w3) (objects w3) (end_of w3)
            (Internal (Z.lor bm (2 ^ chunk d k)) (root_ptr <$> (take i ts ++ TLeaf a k v :: drop i ts)))
            (heap_ptr l)) as Hn3.
  { constructor; [done|done|]. simpl. by rewrite lookup_insert_eq, fmap_app, fmap_cons, fmap_take, fmap_drop. }
  assert (forall x, x ∉ own (heap_ptr l) ->
            heap w3 !! x = if decide (x ∈ ([] : list Z)) then None else heap w1 !! x) as Hh3.
  { intros x. rewrite own_heap_ptr by done. intros Hx. simpl.
    rewrite lookup_insert_ne by set_solver. rewrite Hh2 by set_solver. done. }
  assert (grown w w1 [] [] []) as Hg by (by apply grown_store).
  assert (forall t, t ∈ take i ts ++ TLeaf a k v :: drop i ts ->
            (t ∈ ts /\ forall x, x ∈ footprint t -> x ∉ ([] : list Z)) \/
            (Rep w1 t /\ forall x, x ∈ footprint t -> x ∈ ([] : list Z))) as Hts'.
  { intros t. rewrite elem_of_app, elem_of_cons.
    intros [Ht|[-> |Ht]]; [left|right|left].
    - split; [|set_solver]. rewrite <- (take_drop i ts). set_solver.
    - split; [by constructor|set_solver].
    - split; [|set_solver]. rewrite <- (take_drop i ts). set_solver. }
  assert (forall t x, t ∈ ts -> x ∈ footprint t -> x ∈ ([] : list Z) \/
            exists t', t' ∈ take i ts ++ TLeaf a k v :: drop i ts /\ x ∈ footprint t') as Hts.
  { intros t x Ht Hx. right. exists t. split; [|done]. rewrite <- (take_drop i ts) in Ht. set_solver. }
  assert (Rep w3 t' /\ grown w w3 (footprint (TNode p bm ts)) (footprint t') (stale (TNode p bm ts) t') /\
      stale (TNode p bm ts) t' = [])
    as Hre by (eapply rebuild with (w1 := w1) (X := []) (X' := []) (st := []); try done; set_solver).
  exists t', (a, (k, v)), []. split_and!.
  - done.
  - apply Hre.
  - apply Hre.
  - by apply wf_insert with (p := p).
  - subst t'. simpl. eapply path_node; [|constructor].
    pose proof (index_of_le _ _ _ _ k Hwf) as Hi. fold i in Hi.
    rewrite lookup_app_r; rewrite length_take; [|lia].
    by rewrite Nat.min_l, Nat.sub_diag by done.
  - apply edit_insert.
  - split_and!; [done|done|by eapply wf_lookup_missing].
  - done.
  - intros _. apply Hre.
  - intros _. exact Hfresh.
Qed.

(** The node over a child that an insertion has replaced. *)
Lemma insert_post_child d u p bm ts kv i ti w ti' e old (ex : bool) ps p' w3 :
  wf d (TNode p bm ts) -> ts !! i = Some ti ->
  (forall x, x ∈ entries ti -> chunk d x.2.1 = chunk d kv.1) ->
  (kv.1 ∈ keys (entries (TNode p bm ts)) -> kv.1 ∈ keys (entries ti)) ->
  wf (d + 1) ti' -> path ti' ps e -> edit e old (entries ti) (entries ti') ->
  edit_kind u kv ex e old (keys (entries ti)) ->
  Rep w3 (TNode p' bm (<[i := ti']> ts)) ->
  grown w w3 (footprint (TNode p bm ts)) (footprint (TNode p' bm (<[i := ti']> ts)))
    (stale (TNode p bm ts) (TNode p' bm (<[i := ti']> ts))) ->
  stale (TNode p bm ts) (TNode p' bm (<[i := ti']> ts)) = [] ->
  (ex = true -> u = false -> ti' = ti /\ p' = p /\ w3 = w) ->
  (negb ex || u = true -> end_of w <= e.1 < end_of w3) ->
  insert_post d u kv w (TNode p bm ts) (p', ex, (p', Z.of_nat i) :: ps) w3.
Proof.
  intros Hwf Hi Hr Hk Hwf' Hp He Hkind Hrep3 Hg Hst Hsame Hsz.
  exists (TNode p' bm (<[i := ti']> ts)), e, old. split_and!; try done.
  - eapply wf_replace; [exact Hwf|done..|by eapply edit_kind_key|by eapply edit_kind_old].
  - simpl. eapply path_node; [|exact Hp]. apply list_lookup_insert_eq. by eapply lookup_lt_Some.
  - by eapply edit_replace.
  - by eapply edit_kind_keys.
  - simpl. intros Hex Hu. destruct (Hsame Hex Hu) as (-> & -> & ->).
    by rewrite list_insert_id.
Qed.

(** Children other than the replaced one survive. *)
Lemma replaced_children d p bm ts i ti ti' w w1 :
  wf d (TNode p bm ts) -> Rep w (TNode p bm ts) -> ts !! i = Some ti -> Rep w1 ti' ->
  (forall t, t ∈ <[i := ti']> ts ->
    (t ∈ ts /\ forall x, x ∈ footprint t -> x ∉ footprint ti) \/
    (Rep w1 t /\ forall x, x ∈ footprint t -> x ∈ footprint ti')) /\
  (forall t x, t ∈ ts -> x ∈ footprint t ->
    x ∈ footprint ti \/ exists t', t' ∈ <[i := ti']> ts /\ x ∈ footprint t').
Proof.
  intros Hwf Hrep Hi Hrep'. split.
  - intros t (j & Hj)%list_elem_of_lookup_1. destruct (decide (i = j)) as [<-|Hne].
    + rewrite list_lookup_insert_eq in Hj by (by eapply lookup_lt_Some). simplify_eq. by right.
    + rewrite list_lookup_insert_ne in Hj by done. left. split; [by eapply list_elem_of_lookup_2|].
      intros x Hx Hx'. apply Hne. by eapply footprint_siblings.
  - intros t x (j & Hj)%list_elem_of_lookup_1 Hx. destruct (decide (i = j)) as [<-|Hne].
    + simplify_eq. by left.
    + right. exists t. split; [|done]. apply (list_elem_of_lookup_2 _ j).
      by rewrite list_lookup_insert_ne.
Qed.

Lemma insert_internal_found d u p bm ts kv f w :
  ts_inv (store w) -> wf d (TNode p bm ts) -> Rep w (TNode p bm ts) ->
  Z.testbit bm (chunk d kv.1) = true ->
  (forall t, t ∈ ts -> wf (d + 1) t -> Rep w t ->
     wp (f (root_ptr t) (Z.shiftr (kt_hash kv.1) ((d + 1) * hash_index_bits))
           ((d + 1) * hash_index_bits) []) (insert_post (d + 1) u kv w t) w) ->
  wp (insert_into_internal f p kv (Z.shiftr (kt_hash kv.1) (d * hash_index_bits)) (d * hash_index_bits) [])
     (insert_post d u kv w (TNode p bm ts)) w.
Proof.
  intros Hs Hwf Hrep Hb IH. unfold insert_into_internal.
  destruct (internal_bounds _ _ _ _ Hwf) as (Hd & Hbm & _).
  destruct (index_of_id bm (chunk d kv.1)) as [Hidx Hnf]; [lia|apply chunk_range|].
  destruct (wf_lookup_found _ _ _ _ _ Hwf Hb) as (ti & Hi & Hwi & Hri & Hki).
  wp_head. apply wp_with_world. eapply owp_eq; [by eapply lookup_of_node|].
  wp_head. wp_head. cbn [fst snd]. fold (chunk d kv.1). eapply owp_eq.
  { apply internal_lookup_found; [lia|apply chunk_range|done|].
    fold (index_of bm (chunk d kv.1)). by rewrite list_lookup_fmap, Hi. }
  cbn beta iota. rewrite (proj2 (Z.eqb_neq _ _)) by done. rewrite <- Hidx.
  set (i := index_of bm (chunk d kv.1)) in *. rewrite next_shift, next_hash by lia.
  inversion Hrep as [|? ? ? Hn Hc|]; subst. rewrite Forall_forall in Hc.
  assert (ti ∈ ts) as Hin by (by eapply list_elem_of_lookup_2).
  wp_head. eapply wp_mono; [by apply IH; auto|].
  intros [[r ex] ps] w1 (ti' & e & old & Hr & Hrep1 & Hg & Hwf1 & Hp & He & Hkind & Hsame & _ & Hsz).
  simpl in Hr, Hp, Hkind, Hsame, Hsz. subst r. cbn beta iota.
  pose proof (path_push d _ _ _ ltac:(lia) Hwf1 Hp) as Hlen.
  destruct (replaced_children d p bm ts i ti ti' w w1) as [Hts' Hts]; [done..|].
  assert (i < length ts)%nat as Hilt by (by eapply lookup_lt_Some).
  assert (forall x, x ∈ footprint ti -> exists t, t ∈ ts /\ x ∈ footprint t) as HX by eauto.
  assert (ti' ∈ <[i := ti']> ts) as Hin'
    by (apply (list_elem_of_lookup_2 _ i); by apply list_lookup_insert_eq).
  assert (node_at (heap w1) (objects w1) (end_of w1) (Internal bm (root_ptr <$> ts)) p) as Hn1.
  { destruct (g_ext _ _ _ _ _ Hg) as (_ & ? & ? & _). eapply node_at_ext; [|done|done|exact Hn].
    intros x Hx. apply (g_frame _ _ _ _ _ Hg); [by eapply footprint_own|].
    by destruct (node_at_own _ _ _ _ _ _ Hn Hx) as [-> _]. }
  destruct (Z.eqb_spec (root_ptr ti') (root_ptr ti)) as [Heq|Hne]; simpl negb; cbn iota.
  - (* the child kept its pointer *)
    wp_head. wp_head. apply owp_stack_push; [done|]. wp_head.
    assert (stale ti ti' = []) as Hst by (unfold stale; by rewrite decide_True).
    rewrite Hst in Hg.
    destruct (rebuild d p bm p bm ts (<[i := ti']> ts) w w1 w1 (footprint ti) (footprint ti') [])
      as (HrepT & HgT & HstT); try done; eauto.
    { rewrite list_fmap_insert, Heq, list_insert_id; [done|]. by rewrite list_lookup_fmap, Hi. }
    eapply insert_post_child; try done. naive_solver.
  - (* the child's pointer changed *)
    wp_head. apply wp_make_writable; [done|]. intros o l h2 Hl4 Hlpos Hl Hh2 Hown.
    apply wp_unique_scope. wp_head. apply wp_with_world. eapply owp_heap_deref; [done|]. cbn iota.
    wp_head. wp_head. unfold child_at. rewrite Nat2Z.id, list_lookup_fmap, Hi. simpl. wp_head.
    assert (stale ti ti' = own (root_ptr ti)) as Hst by (unfold stale; by rewrite decide_False).
    assert (forall x, x ∈ own (root_ptr ti) -> x <> l) as Hxl.
    { intros x Hx ->. rewrite <- Hst in Hx. destruct (g_stale _ _ _ _ _ Hg _ Hx) as (Hs1 & Hs2 & _ & Hs4).
      destruct Hown as [Hown|[_ Hown]]; [|rewrite Hown in Hs1; rewrite <- Hs1 in Hs4; by destruct Hs4].
      eapply (footprint_own _ _ _ _ _ _ _ ti l Hwf Hrep); [rewrite Hown; set_solver|done|done]. }
    apply (wp_delete_node (d + 1) ti w); [done|by auto| |].
    { intros x Hx. simpl. rewrite Hh2 by auto. apply (g_stale _ _ _ _ _ Hg). by rewrite Hst. }
    simpl. intros h3 Hh3. wp_head. eapply wp_heap_assign.
    { simpl. rewrite Hh3, decide_False; [done|]. intros Hx. by apply (Hxl l). }
    rewrite tag_node_heap by done. wp_head. wp_head. apply owp_stack_push; [done|]. wp_head.
    simpl. rewrite <- list_fmap_insert.
    match goal with |- insert_post _ _ _ _ _ _ ?w' => set (w3 := w') end.
    destruct (writable_own w1 p l Hl4 Hown) as [Ho1 Ho2].
    destruct (rebuild d p bm (heap_ptr l) bm ts (<[i := ti']> ts) w w1 w3 (footprint ti) (footprint ti') (stale ti ti'))
      as (HrepT & HgT & HstT); try done; eauto.
    { constructor; [done|done|]. simpl. by rewrite lookup_insert_eq. }
    { intros x. rewrite own_heap_ptr, Hst by done. intros Hx. simpl.
      rewrite lookup_insert_ne by set_solver. rewrite Hh3. case_decide; [done|]. apply Hh2. set_solver. }
    eapply insert_post_child; try done.
    simpl. intros Hex Hu. destruct (Hsame Hex Hu) as [-> _]. done.
Qed.

(** ** Inserting into a linear node *)

Lemma linear_allocate_from_eq (ls : list Z) n : linear_allocate_from ls n = ls ++ replicate n 0.
Proof.
  unfold linear_allocate_from, linear_allocate.
  rewrite Nat.min_r by lia. rewrite firstn_all. f_equal. f_equal. lia.
Qed.

Lemma linear_stale p (ls ls' : list (entry K V)) l w :
  Rep w (TLinear p ls) -> heap w !! l = None -> l mod 4 = 0 ->
  stale (TLinear p ls) (TLinear (heap_ptr l) ls') = own p.
Proof.
  intros Hrep Hl Hl4. unfold stale. simpl. case_decide as Heq; [|done]. subst p.
  inversion Hrep as [| |? ? Hn _]; subst. rewrite own_heap_ptr by done.
  destruct (node_at_own _ _ _ _ _ l Hn) as (Hx & _); [rewrite own_heap_ptr by done; set_solver|congruence].
Qed.

(** A linear node that has been written to the heap with the entry [e] at position [i]. *)
Lemma insert_post_linear u kv w p ls l ls' i e old ex n s' ps :
  Rep w (TLinear p ls) -> wf max_internal_depth (TLinear p ls) -> ts_inv (store w) -> ext (store w) s' ->
  l mod 4 = 0 -> 0 < l -> heap w !! l = None ->
  leaf_at (ts_objects s') (ts_size s') e -> ls' !! i = Some e ->
  n = Linear (ls'.*1) -> ps = [(heap_ptr l, Z.of_nat i); (e.1, not_found)] ->
  NoDup (keys ls') -> edit e old ls ls' -> edit_kind u kv ex e old (keys ls) ->
  (ex = true -> u = true) -> end_of w <= e.1 < ts_size s' ->
  insert_post max_internal_depth u kv w (TLinear p ls) (heap_ptr l, ex, ps)
    (World (<[l := n]> (heap w)) s').
Proof.
  intros Hrep Hwf Hs Hext Hl4 Hlpos Hl He Hi -> -> Hnd Hedit Hkind Hex Hgrow.
  inversion Hrep as [| |? ? Hn Hls]; subst. pose proof Hext as (_ & ? & ? & _).
  exists (TLinear (heap_ptr l) ls'), e, old. erewrite linear_stale by done. split_and!; try done.
  - constructor.
    + constructor; [done|done|]. simpl. by rewrite lookup_insert_eq.
    + apply Forall_forall. intros x Hx. destruct (edit_elem _ _ _ _ _ Hedit Hx) as [-> |Hx']; [done|].
      rewrite Forall_forall in Hls. eapply leaf_at_ext; [done|done|by apply Hls].
  - simpl. rewrite own_heap_ptr by done. apply (grown_new w w (own p) []); [|done|done].
    apply grown_drop; [done|]. intros x Hx. by destruct (node_at_own _ _ _ _ _ _ Hn Hx) as [-> _].
  - inversion Hwf; subst. constructor; [|done].
    pose proof (edit_length _ _ _ _ Hedit). pose proof (edit_kind_old _ _ _ _ _ _ Hkind). lia.
  - by apply path_linear.
  - simpl. intros Hex1 Hu. by rewrite Hex in Hu.
Qed.

Lemma keys_insert (ls : list (entry K V)) i a0 k v0 a v :
  ls !! i = Some (a0, (k, v0)) -> keys (<[i := (a, (k, v))]> ls) = keys ls.
Proof.
  intros Hi. unfold keys. rewrite list_fmap_insert. apply list_insert_id.
  by rewrite list_lookup_fmap, Hi.
Qed.

Lemma edit_list_insert (ls : list (entry K V)) i e0 e :
  ls !! i = Some e0 -> edit e [e0] ls (<[i := e]> ls).
Proof.
  intros Hi. exists (take i ls), (drop (S i) ls). split; simpl.
  - by rewrite take_drop_middle.
  - rewrite insert_take_drop; [done|by eapply lookup_lt_Some].
Qed.

(** An element of the heap node itself is overwritten. *)
Lemma insert_post_linear_assign kv w l ls i a0 v0 a s' ps n :
  Rep w (TLinear (heap_ptr l) ls) -> wf max_internal_depth (TLinear (heap_ptr l) ls) ->
  ext (store w) s' -> l mod 4 = 0 -> 0 < l ->
  leaf_at (ts_objects s') (ts_size s') (a, kv) -> ls !! i = Some (a0, (kv.1, v0)) ->
  n = Linear ((<[i := (a, kv)]> ls).*1) -> ps = [(heap_ptr l, Z.of_nat i); (a, not_found)] ->
  end_of w <= a < ts_size s' -> insert_post max_internal_depth true kv w (TLinear (heap_ptr l) ls) (heap_ptr l, true, ps)
    (World (<[l := n]> (heap w)) s').
Proof.
  intros Hrep Hwf Hext Hl4 Hlpos He Hi -> -> Hgrow.
  inversion Hrep as [| |? ? Hn Hls]; subst. pose proof Hext as (_ & ? & ? & _).
  assert (i < length ls)%nat by (by eapply lookup_lt_Some).
  exists (TLinear (heap_ptr l) (<[i := (a, kv)]> ls)), (a, kv), [(a0, (kv.1, v0))].
  unfold stale. simpl. rewrite decide_True, own_heap_ptr by done. split_and!; try done; eauto.
  - constructor.
    + constructor; [done|done|]. simpl. by rewrite lookup_insert_eq.
    + apply Forall_insert; [|done]. eapply Forall_impl; [exact Hls|]. intros. by eapply leaf_at_ext.
  - apply grown_assign; [|done]. destruct (node_at_own _ _ _ _ _ l Hn) as [-> _]; [|done].
    rewrite own_heap_ptr by done. set_solver.
  - inversion Hwf; subst. destruct kv as [k v]. constructor; [by rewrite length_insert|].
    by erewrite keys_insert.
  - apply (path_linear _ _ _ (a, kv)). by apply list_lookup_insert_eq.
  - by apply edit_list_insert.
Qed.

Lemma insert_into_linear_spec u p ls kv w :
  ts_inv (store w) -> leaf_room (store w) kv ->
  wf max_internal_depth (TLinear p ls) -> Rep w (TLinear p ls) ->
  wp (insert_into_linear p kv [] u) (insert_post max_internal_depth u kv w (TLinear p ls)) w.
Proof.
  intros Hs Hroom Hwf Hrep. unfold insert_into_linear.
  inversion Hrep as [| |? ? Hn Hls]; subst. inversion Hwf as [| |? ? Hlen Hnd]; subst.
  pose proof (linear_length_bound _ _ (ts_inv_readable _ Hs) Hls Hnd) as Hbound.
  wp_head. apply wp_with_world. eapply owp_eq.
  { apply linear_get_node_ok; [done| |exact Hn]. rewrite length_fmap. lia. }
  rewrite !linear_allocate_from_eq. simpl replicate. rewrite app_nil_r, length_fmap.
  wp_head. apply wp_with_world.
  destruct (decide (kv.1 ∈ keys ls)) as [(a0 & v0 & (i & Hi)%list_elem_of_lookup_1)%elem_of_keys|Hk].
  - pose proof (lookup_lt_Some _ _ _ Hi) as Hilt.
    eapply owp_eq; [by apply (linear_lookup_found w ls i (a0, (kv.1, v0)))|]. cbn beta iota.
    rewrite Z.add_0_l, (proj2 (Z.eqb_neq (Z.of_nat i) not_found)) by lia. destruct u.
    + destruct Hn as [l Hl4 Hlpos Hl|a Ha Hapos Hob Hok].
      * rewrite (proj2 (heap_ptr_kind l Hl4)), untag_node_heap by done. wp_head. wp_head.
        apply wp_unique_scope. wp_head.
        apply wp_store_leaf_node; [done..|]. intros a s' Hext Hleaf Hfresh. wp_head.
        apply wp_with_world. eapply owp_heap_deref; [done|]. wp_head. wp_head.
        { rewrite length_fmap. apply Z.ltb_lt. lia. }
        wp_head. eapply wp_heap_assign; [done|]. wp_head. wp_head. apply owp_stack_push; [done|]. wp_head.
        rewrite Nat2Z.id. cbn [heap store]. eapply insert_post_linear_assign; try done.
        by rewrite list_fmap_insert.
      * pose proof (mod8_mod4 _ Ha) as Ha4. rewrite (proj2 (store_ptr_kind a Ha4)).
        wp_head. wp_head. apply wp_heap_new. intros l Hl Hlpos Hl4. wp_head.
        apply wp_unique_scope. wp_head.
        apply wp_store_leaf_node; [done..|]. intros a' s' Hext Hleaf Hfresh. wp_head. simpl heap.
        apply wp_with_world. eapply owp_heap_deref; [by apply lookup_insert_eq|]. wp_head. wp_head.
        { rewrite length_fmap. apply Z.ltb_lt. lia. }
        wp_head. eapply wp_heap_assign; [by apply lookup_insert_eq|]. simpl heap. rewrite insert_insert_eq.
        wp_head. wp_head. apply owp_stack_push; [done|]. wp_head.
        rewrite tag_node_heap, Nat2Z.id by done.
        cbn [heap store]. eapply (insert_post_linear _ _ _ _ _ _ (<[i := (a', kv)]> ls) i (a', kv) [(a0, (kv.1, v0))]); try done.
        -- by apply list_lookup_insert_eq.
        -- by rewrite list_fmap_insert.
        -- destruct kv. by erewrite keys_insert.
        -- by apply edit_list_insert.
        -- split; [done|eauto].
    + wp_head. wp_head. unfold child_at. rewrite Nat2Z.id, list_lookup_fmap, Hi. simpl. wp_head.
      wp_head. apply owp_stack_push; [done|]. wp_head. wp_head. apply owp_stack_push; [done|]. wp_head.
      exists (TLinear p ls), (a0, (kv.1, v0)), [(a0, (kv.1, v0))].
      unfold stale. rewrite decide_True by done. split_and!; try done.
      * apply grown_refl; [done|]. intros x Hx. by eapply rep_footprint_live.
      * by apply (path_linear _ _ _ (a0, (kv.1, v0))).
      * exists (take i ls), (drop (S i) ls). simpl. by rewrite take_drop_middle.
  - eapply owp_eq; [by apply linear_lookup_missing|]. cbn beta iota. rewrite Z.eqb_refl.
    wp_head. apply wp_heap_new. intros l Hl Hlpos Hl4. apply wp_unique_scope. cbn zeta. wp_head.
    apply wp_store_leaf_node; [done..|]. intros a s' Hext Hleaf Hfresh. wp_head. simpl heap.
    apply wp_with_world. eapply owp_heap_deref; [by apply lookup_insert_eq|]. wp_head. wp_head.
    { rewrite length_app, length_fmap. simpl. apply Z.ltb_lt. lia. }
    wp_head. eapply wp_heap_assign; [by apply lookup_insert_eq|]. simpl heap. rewrite insert_insert_eq.
    wp_head. wp_head. apply owp_stack_push; [done|]. wp_head. rewrite tag_node_heap, Nat2Z.id by done.
    cbn [heap store]. eapply (insert_post_linear _ _ _ _ _ _ (ls ++ [(a, kv)]) (length ls) (a, kv) []); try done.
    + by apply list_lookup_middle.
    + rewrite insert_app_r_alt by (by rewrite length_fmap).
      by rewrite length_fmap, Nat.sub_diag, fmap_app.
    + rewrite keys_app. apply NoDup_app. split_and!; [done| |apply NoDup_singleton].
      intros x Hx ->%list_elem_of_singleton. done.
    + exists ls, []. by rewrite app_nil_r.
Qed.

(** ** [insert_node] *)

Lemma insert_node_spec fuel d u kv t w :
  ts_inv (store w) -> leaf_room (store w) kv ->
  wf d t -> Rep w t -> 0 <= d <= max_internal_depth -> max_internal_depth + 1 - d <= Z.of_nat fuel ->
  wp (insert_node fuel kv u (root_ptr t) (Z.shiftr (kt_hash kv.1) (d * hash_index_bits))
        (d * hash_index_bits) [])
     (insert_post d u kv w t) w.
Proof.
  revert d t. induction fuel as [|fuel IH]; intros d t Hs Hroom Hwf Hrep Hd Hfuel; [lia|].
  cbn [insert_node]. rewrite (rep_is_leaf _ _ _ _ Hrep).
  destruct t as [a k v|p bm ts|p ls].
  - wp_head. apply wp_with_world. inversion Hrep as [? ? ? Hleaf| |]; subst.
    eapply owp_eq; [by apply (get_key_ok w (a, (k, v)))|]. cbn beta iota. cbn [fst snd root_ptr].
    destruct (kt_equal kv.1 k) eqn:E.
    + apply kt_equal_spec in E. destruct kv as [k' v']. simpl in E. subst k'. destruct u; wp_head.
      * apply wp_store_leaf_node; [done..|]. intros a' s' Hext Hleaf' Hfresh. wp_head.
        exists (TLeaf a' k v'), (a', (k, v')), [(a, (k, v))]. rewrite (stale_leaf w) by done.
        split_and!; try done.
        -- by constructor.
        -- by apply grown_store.
        -- constructor.
        -- constructor.
        -- by exists [], [].
        -- split; [done|eauto].
      * wp_head. apply owp_stack_push; [done|]. wp_head.
        exists (TLeaf a k v), (a, (k, v)), [(a, (k, v))]. rewrite (stale_leaf w) by done.
        split_and!; try done.
        -- apply grown_refl; [done|set_solver].
        -- constructor.
        -- by exists [], [].
    + wp_head. unfold shifted_hash. eapply wp_mono; [apply (insert_into_leaf_spec _ d u); try done|].
      * intros Heq%kt_equal_spec. congruence.
      * intros [r ps] w' Hpost. by wp_head.
  - rewrite depth_internal. destruct (internal_bounds _ _ _ _ Hwf) as (Hdi & _ & _).
    rewrite (proj2 (Z.ltb_lt _ _)) by lia. simpl root_ptr.
    destruct (Z.testbit bm (chunk d kv.1)) eqn:Hb.
    + apply insert_internal_found; try done. intros t Ht Hwft Hrept. apply IH; try done; lia.
    + by apply insert_internal_missing.
  - inversion Hwf; subst. rewrite depth_internal, Z.ltb_irrefl. by apply insert_into_linear_spec.
Qed.

End insert.
