(* ===== verification/HamtRefine.v ===== *)
(** * The index as a finite map

    [hamt_rep] relates a [hamt_map] object and the memory it lives in to the list of
    its entries in iteration order, and through [to_map] to a finite map. The
    operations of the class refine those of the finite map. *)

From S2P Require Import Prelude BitCount StoreIntf HamtTypes HamtMap HamtSpec HamtOps HamtInsert.

Section refine.
Context {K V St : Type} `{Countable K} {KT : KeyTraits K V} {KL : KeyTraitsLaws K V}
  {TS : TransactionStore St (obj K V)} {TL : TransactionStoreLaws St (obj K V)}
  {HA : HeapAllocator node} {HL : HeapAllocatorLaws node}.
Local Abbreviation W := (world St).
Implicit Types w : W.
Implicit Types t : tree K V.
Implicit Types e : entry K V.
Implicit Types m : hamt_map.

(** [m], in the memory [w], holds the entries [l] and owns the heap blocks [bl]. *)
Inductive hamt_rep w m : list (entry K V) -> list Z -> Prop :=
  | hamt_rep_empty : root m = 0 -> size m = 0 -> hamt_rep w m [] []
  | hamt_rep_tree t :
      Rep w t -> wf 0 t -> root m = root_ptr t -> size m = Z.of_nat (length (entries t)) ->
      hamt_rep w m (entries t) (footprint t).

Definition to_map (l : list (entry K V)) : gmap K V := list_to_map (snd <$> l).

(** ** Entries *)

Lemma rep_entries h ob sz t : rep h ob sz t -> Forall (leaf_at ob sz) (entries t).
Proof.
  intros Hrep. induction t as [a k v|p bm ts IH|p ls] using tree_ind';
    inversion Hrep as [? ? ? Hl|? ? ? Hn Hts|? ? Hn Hls]; subst.
  - by constructor.
  - apply Forall_forall. intros e (t & Ht & He)%elem_of_entries_node.
    rewrite Forall_forall in IH. rewrite Forall_forall in Hts.
    specialize (IH t Ht (Hts t Ht)). rewrite Forall_forall in IH. auto.
  - done.
Qed.

Lemma keys_snd (l : list (entry K V)) : keys l = (snd <$> l).*1.
Proof. unfold keys. rewrite <- list_fmap_compose. done. Qed.

Lemma to_map_lookup (l : list (entry K V)) a k v :
  NoDup (keys l) -> (a, (k, v)) ∈ l -> to_map l !! k = Some v.
Proof.
  rewrite keys_snd. intros Hnd Hin. apply elem_of_list_to_map_1; [done|].
  apply list_elem_of_fmap. by exists (a, (k, v)).
Qed.

Lemma to_map_none (l : list (entry K V)) k : k ∉ keys l <-> to_map l !! k = None.
Proof. rewrite keys_snd. apply not_elem_of_list_to_map. Qed.

Lemma elem_of_keys_map (l : list (entry K V)) k : k ∈ keys l <-> is_Some (to_map l !! k).
Proof.
  pose proof (to_map_none l k) as Hn. rewrite <- not_eq_None_Some, <- Hn. destruct (decide (k ∈ keys l)); naive_solver.
Qed.

Lemma to_map_app (l1 l2 : list (entry K V)) : to_map (l1 ++ l2) = to_map l1 ∪ to_map l2.
Proof. unfold to_map. by rewrite fmap_app, list_to_map_app. Qed.

(** An edit of the entries is an insertion into the map. *)
Lemma to_map_edit e old (l l' : list (entry K V)) :
  edit e old l l' -> (forall x, x ∈ old -> x.2.1 = e.2.1) -> NoDup (keys l') ->
  to_map l' = <[e.2.1 := e.2.2]> (to_map l).
Proof.
  intros (l1 & l2 & -> & ->) Hold Hnd. destruct e as [a [k v]]. simpl in *.
  assert (to_map l1 !! k = None) as H1.
  { apply to_map_none. rewrite keys_app in Hnd. apply NoDup_app in Hnd as (_ & Hd & _).
    intros Hk. apply (Hd k Hk). simpl. set_solver. }
  assert (to_map (l1 ++ (a, (k, v)) :: l2) = <[k := v]> (to_map (l1 ++ l2))) as ->.
  { rewrite !to_map_app. unfold to_map at 2. simpl. by rewrite <- insert_union_r. }
  apply map_eq. intros j. destruct (decide (j = k)) as [->|Hne].
  { by rewrite !lookup_insert_eq. }
  rewrite !lookup_insert_ne by done. rewrite !to_map_app, !lookup_union.
  assert (to_map old !! j = None) as ->; [|by destruct (to_map l1 !! j), (to_map l2 !! j)].
  apply to_map_none. intros (a' & v' & Hin)%elem_of_keys. apply Hne. by rewrite <- (Hold _ Hin).
Qed.

Lemma path_last t l e : path t l e -> exists l', reverse l = (leaf_ptr e.1, not_found) :: l'.
Proof.
  induction 1 as [a k v|p bm ts i t l e Hi Hp [l' IH]|p ls i e Hi].
  - by exists [].
  - exists (l' ++ [(p, Z.of_nat i)]). by rewrite reverse_cons, IH.
  - by exists [(p, Z.of_nat i)].
Qed.

(** An iterator made of a path designates the entry the path leads to. *)
Lemma path_deref w t l e :
  ts_readable (store w) -> Rep w t -> path t l e -> iterator_deref w (reverse l) = Ok e.2.
Proof.
  intros Hs Hrep Hp. destruct (path_last _ _ _ Hp) as [l' ->].
  pose proof (rep_entries _ _ _ _ Hrep) as Hls. rewrite Forall_forall in Hls.
  specialize (Hls e (path_elem _ _ _ Hp)).
  unfold iterator_deref, iterator_address. simpl.
  rewrite (proj1 (leaf_ptr_kind e.1 (proj1 Hls))). simpl. by apply load_leaf_node_ok.
Qed.

(** ** Look-up *)

Lemma find_loop_spec fuel d w t k parents :
  ts_readable (store w) -> Rep w t -> wf d t -> 0 <= d <= max_internal_depth ->
  max_tree_depth - d <= Z.of_nat fuel -> Z.of_nat (length parents) <= d ->
  owp (find_loop fuel w k (root_ptr t) (Z.shiftr (kt_hash k) (d * hash_index_bits)) (d * hash_index_bits) parents)
    (fun it =>
       (it = [] /\ k ∉ keys (entries t)) \/
       (exists l e, it = reverse l ++ parents /\ path t l e /\ e.2.1 = k)).
Proof.
  revert d t parents. induction fuel as [|fuel IH]; intros d t parents Hs Hrep Hwf Hd Hfuel Hlen.
  { change max_tree_depth with 13 in *. change max_internal_depth with 11 in *. lia. }
  assert (Z.of_nat (length parents) < max_tree_depth) as Hpush.
  { change max_tree_depth with 13 in *. change max_internal_depth with 11 in *. lia. }
  cbn [find_loop]. rewrite (rep_is_leaf _ _ _ _ Hrep). destruct t as [a k0 v0|p bm ts|p ls].
  - inversion Hrep as [? ? ? Hleaf| |]; subst. wp_head.
    eapply owp_eq; [by apply (get_key_ok w (a, (k0, v0)))|]. cbn [fst snd root_ptr].
    destruct (kt_equal k0 k) eqn:E.
    + apply kt_equal_spec in E as ->. apply owp_stack_push; [done|]. right.
      exists [(leaf_ptr a, not_found)], (a, (k, v0)). split_and!; [done|constructor|done].
    + wp_head. left. split; [done|]. intros ->%list_elem_of_singleton.
      by rewrite (proj2 (kt_equal_spec _ _)) in E.
  - destruct (internal_bounds _ _ _ _ Hwf) as (Hdi & Hbm & _).
    rewrite depth_internal, (proj2 (Z.ltb_lt _ _)) by lia. cbn [root_ptr].
    rewrite (lookup_of_node d p bm ts w) by done. cbn [obind fst snd]. fold (chunk d k).
    destruct (Z.testbit bm (chunk d k)) eqn:Hb.
    + destruct (wf_lookup_found _ _ _ _ _ Hwf Hb) as (ti & Hi & Hwi & Hri & Hki).
      destruct (index_of_id bm (chunk d k)) as [Hidx Hnf]; [lia|apply chunk_range|].
      erewrite internal_lookup_found; [|lia|apply chunk_range|done|].
      2:{ fold (index_of bm (chunk d k)). by rewrite list_lookup_fmap, Hi. }
      cbn [obind]. rewrite (proj2 (Z.eqb_neq _ _)) by done. rewrite <- Hidx.
      wp_head. apply owp_stack_push; [done|]. rewrite next_hash, next_shift by lia.
      inversion Hrep as [|? ? ? Hn Hc|]; subst. rewrite Forall_lookup in Hc.
      eapply owp_mono; [apply IH; [done|by eapply Hc|done|lia| |]|].
      { change max_tree_depth with 13 in *. lia. }
      { simpl length. lia. }
      intros it [[-> Hk]|(l & e & -> & Hp & He)]; [left; naive_solver|right].
      exists ((p, Z.of_nat (index_of bm (chunk d k))) :: l), e. split_and!; [|by econstructor|done].
      by rewrite reverse_cons, <- (assoc_L (++)).
    + rewrite internal_lookup_missing by (apply chunk_range || done). cbn [obind].
      rewrite Z.eqb_refl. wp_head. left. split; [done|]. by eapply wf_lookup_missing.
  - inversion Hwf as [| |? ? Hl2 Hnd]; subst. inversion Hrep as [| |? ? Hn Hls]; subst.
    rewrite depth_internal, Z.ltb_irrefl. cbn [root_ptr].
    rewrite (linear_get_node_ok w p ls.*1); [|done|rewrite length_fmap; lia|done]. cbn [obind].
    destruct (decide (k ∈ keys ls)) as [(a & v & (i & Hi)%list_elem_of_lookup_1)%elem_of_keys|Hk].
    + pose proof (linear_length_bound _ _ Hs Hls Hnd) as Hbound. pose proof (lookup_lt_Some _ _ _ Hi).
      rewrite (linear_lookup_found w ls i (a, (k, v)) 0) by done. cbn [obind fst].
      rewrite Z.add_0_l, (proj2 (Z.eqb_neq _ _)) by lia.
      wp_head. apply owp_stack_push; [done|].
      destruct fuel as [|fuel]; [change max_tree_depth with 13 in *; change max_internal_depth with 11 in *; lia|].
      cbn [find_loop]. rewrite Forall_lookup in Hls. pose proof (Hls _ _ Hi) as Hleaf.
      change (is_leaf a) with (is_leaf (leaf_ptr a)). rewrite (proj1 (leaf_ptr_kind a (proj1 Hleaf))).
      rewrite (get_key_ok w (a, (k, v))) by done. cbn [obind fst snd].
      rewrite (proj2 (kt_equal_spec _ _)) by done. apply owp_stack_push.
      { simpl length. change max_tree_depth with 13 in *. change max_internal_depth with 11 in *. lia. }
      right. exists [(p, Z.of_nat i); (a, not_found)], (a, (k, v)).
      split_and!; [done|by apply (path_linear _ _ _ (a, (k, v)))|done].
    + rewrite linear_lookup_missing by done. cbn [obind]. rewrite Z.eqb_refl. wp_head. by left.
Qed.

(** [find] and the map's look-up: the end iterator when the key is absent, an iterator
    to its entry otherwise. *)
Lemma find_spec w m l bl k :
  ts_readable (store w) -> hamt_rep w m l bl ->
  owp (find w m k) (fun it =>
    match to_map l !! k with
    | None => it = hamt_end
    | Some v => it <> hamt_end /\ iterator_deref w it = Ok (k, v)
    end).
Proof.
  intros Hs Hrep. unfold find, hamt_empty. destruct Hrep as [Hr0 Hs0|t Hrep Hwf Hroot Hsize].
  - rewrite Hr0, Hs0. done.
  - pose proof (wf_length_pos _ _ Hwf) as Hlen.
    pose proof (rep_pos _ _ _ _ Hrep) as Hpos. rewrite Hroot, Hsize. unfold is_empty.
    rewrite (proj2 (Z.eqb_neq (root_ptr t) 0)) by lia.
    rewrite (proj2 (Z.eqb_neq (Z.of_nat _) 0)) by lia. cbn [obind oassert eqb].
    pose proof (find_loop_spec (Z.to_nat max_tree_depth) 0 w t k [] Hs Hrep Hwf) as Hf.
    rewrite Z.mul_0_l, Z.shiftr_0_r in Hf.
    eapply owp_mono; [apply Hf; [done|by rewrite Z2Nat.id by done|done]|].
    intros it [[-> Hk]|(p & e & -> & Hp & <-)].
    + by rewrite (proj1 (to_map_none _ _) Hk).
    + destruct (path_last _ _ _ Hp) as [l' Hl']. rewrite app_nil_r.
      destruct e as [a [k v]]. cbn [fst snd].
      rewrite (to_map_lookup _ a k v (wf_keys_nodup _ _ Hwf) (path_elem _ _ _ Hp)).
      split; [by rewrite Hl'|]. by rewrite (path_deref w t p (a, (k, v))).
Qed.

(** ** Insertion *)

(** The heap blocks that are not the map's are the same before and after: nothing else
    was written to or released, and no block was leaked. *)
Definition same_others w (bl : list Z) w' (bl' : list Z) : Prop :=
  forall x, (if decide (x ∈ bl') then None else heap w' !! x) =
            (if decide (x ∈ bl) then None else heap w !! x).

Lemma grown_same_others w w' bl bl' : grown w w' bl bl' [] -> same_others w bl w' bl'.
Proof.
  intros Hg x. destruct (heap w' !! x) eqn:E.
  - destruct (g_dom _ _ _ _ _ Hg x) as [[Hs Hx]|[Hx|?%elem_of_nil]]; [by eexists| | |done].
    + rewrite (g_frame _ _ _ _ _ Hg x Hx Hs) in E. rewrite (decide_False (P := x ∈ bl)) by done.
      case_decide as Hx'; [|done]. destruct (g_new _ _ _ _ _ Hg x Hx'); [done|congruence].
    + rewrite decide_True by done. case_decide as Hn; [done|].
      by destruct (g_new _ _ _ _ _ Hg x Hx) as [?| ->].
  - assert (x ∉ bl') by (intros Hx; by destruct (g_live _ _ _ _ _ Hg x Hx); simplify_eq).
    rewrite decide_False by done. case_decide; [done|].
    destruct (heap w !! x) eqn:E2; [|done].
    rewrite (g_frame _ _ _ _ _ Hg x) in E by (done || by eexists). congruence.
Qed.

Lemma entries_length_bound w t :
  ts_readable (store w) -> Rep w t -> wf 0 t -> Z.of_nat (length (entries t)) < 2 ^ 64 - 1.
Proof.
  intros Hs Hrep Hwf. apply (linear_length_bound w); [done|by eapply rep_entries|by eapply wf_keys_nodup].
Qed.

Lemma hamt_rep_nodup w m l bl : hamt_rep w m l bl -> NoDup (keys l).
Proof. destruct 1; [constructor|by eapply wf_keys_nodup]. Qed.

(** What an insertion of [kv] into the map of entries [l] leaves behind. *)
Definition inserted (u : bool) (kv : K * V) w m l bl (r : hamt_map * iterator * bool) w' : Prop :=
  exists l' bl', let '(m', it, ins) := r in
    hamt_rep w' m' l' bl' /\ revision m' = revision m /\ ext (store w) (store w') /\
    same_others w bl w' bl' /\
    ins = bool_decide (to_map l !! kv.1 = None) /\
    to_map l' = (if ins || u then <[kv.1 := kv.2]> (to_map l) else to_map l) /\
    (exists v, to_map l' !! kv.1 = Some v /\ iterator_deref w' it = Ok (kv.1, v)) /\
    (ins || u = false -> w' = w /\ m' = m) /\
    (ins || u = true -> end_of w < end_of w') /\
    (forall e, e ∈ l' -> e ∈ l \/ end_of w <= e.1).

Lemma insert_first u kv w m :
  ts_inv (store w) -> leaf_room (store w) kv ->
  wp (store_leaf_node kv [])
    (fun r w' => inserted u kv w m [] [] (HamtMap (revision m) r.1 1, r.2, true) w') w.
Proof.
  intros Hs Hroom. apply wp_store_leaf_node; [done..|]. intros a s' Hext Hleaf Hfresh.
  destruct kv as [k v]. exists [(a, (k, v))], []. cbn [fst snd]. split_and!; try done.
  - apply (hamt_rep_tree (World (heap w) s') _ (TLeaf a k v)); [by constructor|constructor|done|done].
  - exists v. split; [by apply (lookup_insert_eq ∅)|].
    apply (path_deref (World (heap w) s') (TLeaf a k v) [(leaf_ptr a, not_found)] (a, (k, v)));
      [apply ts_inv_readable, Hext|by constructor|constructor].
  - intros _. cbn. lia.
  - intros e ->%list_elem_of_singleton. right. apply Hfresh.
Qed.

Lemma insert_post_inserted u kv w m t p ex ps w' :
  ts_inv (store w) -> Rep w t -> wf 0 t -> root m = root_ptr t ->
  size m = Z.of_nat (length (entries t)) ->
  insert_post 0 u kv w t (p, ex, ps) w' ->
  inserted u kv w m (entries t) (footprint t)
    (HamtMap (revision m) p (if ex then size m else wrap64 (size m + 1)), reverse ps, negb ex) w'.
Proof.
  intros Hs Hrep Hwf Hroot Hsize (t' & e & old & Hr & Hrep' & Hg & Hwf' & Hp & He & Hkind & Hsame & Hst & Hgrow).
  simpl in Hr, Hp, Hkind, Hsame, Hgrow. subst p. rewrite Hst in Hg by done.
  assert (ts_inv (store w')) as Hs' by apply (g_ext _ _ _ _ _ Hg).
  pose proof (edit_length _ _ _ _ He) as Hlen.
  pose proof (entries_length_bound w t (ts_inv_readable _ Hs) Hrep Hwf) as Hb.
  pose proof (wf_keys_nodup _ _ Hwf') as Hnd'. pose proof (edit_self _ _ _ _ He) as Hin.
  assert (to_map (entries t') = <[e.2.1 := e.2.2]> (to_map (entries t))) as Hmap.
  { eapply to_map_edit; [done| |done]. intros x Hx. by eapply edit_kind_old_key. }
  exists (entries t'), (footprint t'). cbn [fst snd]. split_and!.
  - apply hamt_rep_tree; [done|done|done|]. simpl.
    destruct ex; [|destruct Hkind as (_ & -> & _); simpl in Hlen; rewrite Hsize, wrap_small; lia].
    destruct u; simpl in Hkind; [destruct Hkind as (_ & a & v & ->)|destruct Hkind as (_ & ->)];
      simpl in Hlen; lia.
  - done.
  - apply (g_ext _ _ _ _ _ Hg).
  - by apply grown_same_others.
  - symmetry. destruct ex; simpl.
    + apply bool_decide_eq_false. intros Hk%to_map_none. apply Hk.
      destruct He as (l1 & l2 & -> & _). rewrite !keys_app.
      destruct u; simpl in Hkind; [destruct Hkind as (_ & a & v & ->)|destruct Hkind as (<- & ->)]; simpl; set_solver.
    + apply bool_decide_eq_true, to_map_none. by destruct Hkind as (_ & _ & ?).
  - destruct ex, u; simpl in *; destruct Hkind as [Hkv Hold]; try (by rewrite Hmap, Hkv).
    by destruct (Hsame eq_refl eq_refl) as [-> _].
  - exists e.2.2. rewrite Hmap. pose proof (edit_kind_key _ _ _ _ _ _ Hkind) as Hk. split.
    + by rewrite <- Hk, lookup_insert_eq.
    + rewrite (path_deref w' t' ps e) by done. rewrite <- Hk. by destruct e as [? []].
  - intros [Hex Hu]%orb_false_iff. apply negb_false_iff in Hex. subst.
    destruct (Hsame eq_refl eq_refl) as [-> ->]. split; [done|]. destruct m. simpl in *. by subst.
  - intros Hnew. specialize (Hgrow Hnew). lia.
  - intros x Hx. destruct (negb ex || u) eqn:E.
    + destruct (edit_elem _ _ _ _ _ He Hx) as [-> |]; [right; by apply Hgrow|by left].
    + left. apply orb_false_iff in E as [Hex%negb_false_iff Hu]. by destruct (Hsame Hex Hu) as [-> _].
Qed.

Lemma insert_or_upsert_spec u kv w m l bl :
  ts_inv (store w) -> leaf_room (store w) kv -> hamt_rep w m l bl ->
  ts_revision (store w) = Ok (revision m) ->
  wp (insert_or_upsert m kv u) (inserted u kv w m l bl) w.
Proof.
  intros Hs Hroom Hrep Hrev. unfold insert_or_upsert. wp_head.
  apply wp_with_world. eapply owp_eq; [exact Hrev|]. cbn beta. rewrite Z.eqb_refl. cbn [negb]. wp_head. wp_head. unfold hamt_empty.
  destruct Hrep as [Hr0 Hs0|t Hrep Hwf Hroot Hsize].
  - rewrite Hr0, Hs0. simpl. wp_head.
    eapply wp_mono; [by apply (insert_first u)|]. intros [a ps] w' Hi. by wp_head.
  - pose proof (rep_pos _ _ _ _ Hrep) as Hpos. pose proof (wf_length_pos _ _ Hwf) as Hlen.
    rewrite Hroot, Hsize. unfold is_empty.
    rewrite (proj2 (Z.eqb_neq (root_ptr t) 0)), (proj2 (Z.eqb_neq (Z.of_nat _) 0)) by lia.
    cbn [obind oassert eqb owp]. rewrite <- Hsize.
    pose proof (insert_node_spec insert_fuel 0 u kv t w Hs Hroom Hwf Hrep) as Hins.
    rewrite Z.mul_0_l, Z.shiftr_0_r in Hins.
    wp_head. eapply wp_mono; [by apply Hins|]. intros [[p ex] ps] w' Hpost. wp_head.
    by apply insert_post_inserted.
Qed.

End refine.
