(* ===== verification/HamtIter.v ===== *)
(** * Iteration

    A traversal from [begin] to [end] visits every entry once, in the order of
    [entries]; neither the parent stack nor the recursion runs out. *)

From S2P Require Import Prelude BitCount StoreIntf HamtTypes HamtMap HamtSpec HamtOps HamtInsert HamtRefine.

Section iter.
Context {K V St : Type} {KT : KeyTraits K V} {KL : KeyTraitsLaws K V}
  {TS : TransactionStore St (obj K V)} {TL : TransactionStoreLaws St (obj K V)}
  {HA : HeapAllocator node} {HL : HeapAllocatorLaws node}.
Local Abbreviation W := (world St).
Implicit Types w : W.
Implicit Types t : tree K V.

(** The iterator to the first entry of a tree below the parents [st]. *)
Fixpoint left_most t (st : parent_stack) : parent_stack :=
  match t with
  | TLeaf a _ _ => (leaf_ptr a, not_found) :: st
  | TNode p _ ts =>
      match ts with
      | [] => st
      | t :: _ => left_most t ((p, 0) :: st)
      end
  | TLinear p ls =>
      match ls with
      | [] => st
      | e :: _ => (leaf_ptr e.1, not_found) :: (p, 0) :: st
      end
  end.

Lemma child_at_fmap {A} (f : A -> Z) (l : list A) i x :
  l !! i = Some x -> child_at (f <$> l) (Z.of_nat i) = Ok (f x).
Proof. intros Hi. unfold child_at. by rewrite Nat2Z.id, list_lookup_fmap, Hi. Qed.

Lemma stack_push_ok x st :
  Z.of_nat (length st) <= max_internal_depth + 1 -> stack_push x st = Ok (x :: st).
Proof.
  intros Hl. unfold stack_push.
  rewrite (proj2 (Z.ltb_lt _ _)); [done|]. unfold max_tree_depth. lia.
Qed.

Lemma wf_children_cons d p bm ts : wf d (TNode (K:=K) (V:=V) p bm ts) -> exists t ts', ts = t :: ts'.
Proof.
  inversion 1 as [|? ? ? ? ? ? ? ? Hlen|]; subst. destruct ts; [simpl in Hlen; lia|eauto].
Qed.

Lemma move_to_left_most_child_spec fuel d w t st :
  ts_readable (store w) -> Rep w t -> wf d t -> Z.of_nat (length st) = d -> d <= max_internal_depth ->
  max_tree_depth - d <= Z.of_nat fuel ->
  move_to_left_most_child fuel w (root_ptr t) st = Ok (left_most t st).
Proof.
  intros Hs. revert d t st. induction fuel as [|fuel IH]; intros d t st Hrep Hwf Hlen Hd Hfuel;
    [unfold max_tree_depth in *; lia|].
  cbn [move_to_left_most_child]. rewrite (rep_is_leaf _ _ _ _ Hrep).
  destruct t as [a k v|p bm ts|p ls].
  - apply stack_push_ok. lia.
  - destruct (wf_children_cons _ _ _ _ Hwf) as (t & ts' & ->).
    destruct (internal_bounds _ _ _ _ Hwf) as (Hdi & _ & _).
    rewrite stack_push_ok by lia. cbn [obind root_ptr length].
    rewrite (proj2 (Z.leb_le _ _)) by lia. rewrite (lookup_of_node d p bm _ w) by done.
    cbn [obind snd]. rewrite (child_at_fmap _ _ 0%nat t) by done. cbn [obind].
    inversion Hrep as [|? ? ? Hn Hc|]; subst. apply Forall_cons in Hc as [Hc _].
    apply (IH (Z.of_nat (length st) + 1) t ((p, 0) :: st)); [done|eapply wf_child; [done|set_solver]|simpl; lia|lia|lia].
  - inversion Hwf as [| |? ? Hl2 Hnd]; subst. inversion Hrep as [| |? ? Hn Hls]; subst.
    destruct ls as [|e ls]; [simpl in Hl2; lia|].
    rewrite stack_push_ok by lia. cbn [obind root_ptr length].
    rewrite (proj2 (Z.leb_gt _ _)) by lia.
    rewrite (linear_get_node_ok w p (e :: ls).*1) by (done || (simpl; lia)). cbn [obind].
    rewrite (child_at_fmap _ _ 0%nat e) by done. cbn [obind].
    destruct fuel as [|fuel]; [unfold max_tree_depth in *; lia|]. cbn [move_to_left_most_child].
    apply Forall_cons in Hls as [Hleaf _].
    change (is_leaf e.1) with (is_leaf (leaf_ptr e.1)). rewrite (proj1 (leaf_ptr_kind _ (proj1 Hleaf))).
    apply stack_push_ok. simpl length. lia.
Qed.

Lemma iterator_incr_step w x p i below :
  let internal_level := depth_is_internal_node ((Z.of_nat (S (length below)) - 1) * hash_index_bits) in
  iterator_incr w (x :: (p, i) :: below) =
    (node <-? (if internal_level then
                 internal <-? internal_get_node w p ;; size <-? internal_size internal.1 ;; Ok (internal.2, size)
               else linear <-? linear_get_node w p ;; Ok (linear, Z.of_nat (length linear))) ;;
     let '(children, size) := node in
     _ <-? oassert (negb (is_leaf p) && (i <? size)) ;;
     if i + 1 >=? size then iterator_incr w ((p, i) :: below)
     else
       child <-? child_at children (i + 1) ;;
       if internal_level && is_internal child then
         move_to_left_most_child (Z.to_nat max_tree_depth) w child ((p, i + 1) :: below)
       else stack_push (child, not_found) ((p, i + 1) :: below)).
Proof. reflexivity. Qed.

(** The bitmap of a node has a bit for each of its children. *)
Lemma internal_size_length d p bm (ts : list (tree K V)) : wf d (TNode p bm ts) -> internal_size bm = Ok (Z.of_nat (length ts)).
Proof.
  intros Hwf. destruct (internal_bounds _ _ _ _ Hwf) as (_ & Hbm & Hlen). unfold internal_size.
  rewrite (proj2 (Z.eqb_neq bm 0)) by lia. cbn [negb oassert obind]. by rewrite Hlen, length_set_bits by lia.
Qed.

(** Incrementing past a child of the node at depth [d]. *)
Lemma incr_child d w x p i below (children : list Z) :
  Z.of_nat (length below) = d ->
  (if d <? max_internal_depth
   then internal <-? internal_get_node w p ;; size <-? internal_size internal.1 ;; Ok (internal.2, size)
   else linear <-? linear_get_node w p ;; Ok (linear, Z.of_nat (length linear))) = Ok (children, Z.of_nat (length children)) ->
  is_leaf p = false -> (i < length children)%nat ->
  iterator_incr w (x :: (p, Z.of_nat i) :: below) =
    match children !! S i with
    | None => iterator_incr w ((p, Z.of_nat i) :: below)
    | Some c =>
        if (d <? max_internal_depth) && is_internal c then
          move_to_left_most_child (Z.to_nat max_tree_depth) w c ((p, Z.of_nat (S i)) :: below)
        else stack_push (c, not_found) ((p, Z.of_nat (S i)) :: below)
    end.
Proof.
  intros Hd Hch Hp Hi. rewrite iterator_incr_step.
  replace (Z.of_nat (S (length below)) - 1) with d by lia. rewrite depth_internal, Hch. cbn [obind].
  rewrite Hp, (proj2 (Z.ltb_lt _ _)) by lia. cbn [negb andb oassert obind].
  replace (Z.of_nat i + 1) with (Z.of_nat (S i)) by lia. rewrite Z.geb_leb. unfold child_at. rewrite Nat2Z.id.
  destruct (children !! S i) as [c|] eqn:E.
  - apply lookup_lt_Some in E. rewrite (proj2 (Z.leb_gt _ _)) by lia. done.
  - apply lookup_ge_None in E. rewrite (proj2 (Z.leb_le _ _)) by lia. done.
Qed.

Definition kvs (l : list (entry K V)) : list (K * V) := snd <$> l.

(** The traversal of what is left of a stack collects [rest]. *)
Definition continues w (st : parent_stack) n (rest : list (K * V)) : Prop :=
  forall x, owp (iterator_incr w (x :: st)) (fun it => collect n w it = Ok rest).

Lemma collect_leaf w e st n rest :
  ts_readable (store w) -> leaf_at (objects w) (end_of w) e -> continues w st n rest ->
  collect (S n) w ((leaf_ptr e.1, not_found) :: st) = Ok (e.2 :: rest).
Proof.
  intros Hs He Hc. cbn [collect]. rewrite bool_decide_eq_false_2 by done.
  unfold iterator_deref, iterator_address. cbn [stack_top obind fst snd].
  rewrite (proj1 (leaf_ptr_kind _ (proj1 He))), Z.eqb_refl. cbn [andb oassert obind].
  change (load_leaf_node w (leaf_ptr e.1)) with (load_leaf_node w e.1).
  rewrite load_leaf_node_ok by done. cbn [obind].
  destruct (owp_elim _ _ (Hc (leaf_ptr e.1, not_found))) as (it & -> & Hit). cbn [obind].
  by rewrite Hit.
Qed.

(** Visiting the children of a linear node from position [i] on. *)
Lemma collect_linear w p ls st n rest i :
  ts_readable (store w) -> Rep w (TLinear p ls) -> wf max_internal_depth (TLinear p ls) ->
  Z.of_nat (length st) = max_internal_depth -> continues w st n rest ->
  forall e, ls !! i = Some e ->
  collect (length ls - i + n) w ((leaf_ptr e.1, not_found) :: (p, Z.of_nat i) :: st) =
    Ok (kvs (drop i ls) ++ rest).
Proof.
  intros Hs Hrep Hwf Hst Hc. inversion Hwf as [| |? ? Hl2 Hnd]; subst.
  inversion Hrep as [| |? ? Hn Hls]; subst.
  remember (length ls - i)%nat as k eqn:Hk. revert i Hk.
  induction k as [|k IH]; intros i Hk e Hi.
  { apply lookup_lt_Some in Hi. lia. }
  pose proof (lookup_lt_Some _ _ _ Hi). rewrite <- (take_drop_middle ls i e Hi) at 1.
  rewrite drop_app_ge by (rewrite length_take; lia). rewrite length_take, Nat.min_l, Nat.sub_diag by lia.
  simpl. rewrite Forall_lookup in Hls. apply collect_leaf; [done|by eapply Hls|]. intros x.
  rewrite (incr_child max_internal_depth w x p i st (ls.*1)).
  2:{ done. }
  2:{ rewrite Z.ltb_irrefl. by rewrite (linear_get_node_ok w p ls.*1) by (done || (rewrite length_fmap; lia)). }
  2:{ by eapply node_at_not_leaf. }
  2:{ by rewrite length_fmap. }
  rewrite Z.ltb_irrefl, list_lookup_fmap. cbn [andb].
  destruct (ls !! S i) as [e'|] eqn:Hi'; simpl.
  - rewrite stack_push_ok by (simpl; lia). simpl. apply IH; [|done]. lia.
  - apply lookup_ge_None in Hi'. assert (k = 0)%nat as -> by lia.
    rewrite drop_ge by lia. simpl. apply Hc.
Qed.

Lemma collect_tree w t : forall d st n rest,
  ts_readable (store w) -> Rep w t -> wf d t -> Z.of_nat (length st) = d -> d <= max_internal_depth ->
  continues w st n rest ->
  collect (length (entries t) + n) w (left_most t st) = Ok (kvs (entries t) ++ rest).
Proof.
  induction t as [a k v|p bm ts IH|p ls] using tree_ind'; intros d st n rest Hs Hrep Hwf Hst Hd Hc.
  - inversion Hrep as [? ? ? Hleaf| |]; subst.
    apply (collect_leaf w (a, (k, v))); [done|done|done].
  - destruct (internal_bounds _ _ _ _ Hwf) as (Hdi & _ & _).
    pose proof (lookup_of_node d p bm ts w Hs Hwf Hrep) as Hget.
    inversion Hrep as [|? ? ? Hn Hch|]; subst.
    assert (forall j ti, ts !! j = Some ti ->
      collect (length (concat (entries <$> drop j ts)) + n) w (left_most ti ((p, Z.of_nat j) :: st)) =
        Ok (kvs (concat (entries <$> drop j ts)) ++ rest)) as Hall.
    { intros j. remember (length ts - j)%nat as q eqn:Hq. revert j Hq.
      induction q as [|q IHq]; intros j Hq ti Hj; [apply lookup_lt_Some in Hj; lia|].
      pose proof (lookup_lt_Some _ _ _ Hj) as Hjlt.
      rewrite (drop_S _ _ _ Hj), fmap_cons. simpl concat. rewrite length_app.
      unfold kvs. rewrite fmap_app, <- (assoc_L (++)), <- Nat.add_assoc.
      rewrite Forall_lookup in IH, Hch.
      eapply (IH _ _ Hj (Z.of_nat (length st) + 1)); [done|by eapply Hch| |simpl; lia|lia|].
      { eapply wf_child; [done|]. by eapply list_elem_of_lookup_2. }
      intros x. rewrite (incr_child (Z.of_nat (length st)) w x p j st (root_ptr <$> ts)).
      2:{ done. }
      2:{ rewrite (proj2 (Z.ltb_lt _ _)) by lia. rewrite Hget. cbn [obind fst snd]. by rewrite (internal_size_length _ p bm ts Hwf), length_fmap. }
      2:{ by eapply node_at_not_leaf. }
      2:{ by rewrite length_fmap. }
      rewrite (proj2 (Z.ltb_lt _ _)), list_lookup_fmap by lia. cbn [andb].
      destruct (ts !! S j) as [tj|] eqn:Hj'; simpl fmap; cbn iota.
      - assert (Rep w tj) as Hrj by (by eapply Hch).
        assert (wf (Z.of_nat (length st) + 1) tj) as Hwj.
        { eapply wf_child; [done|]. by eapply list_elem_of_lookup_2. }
        assert ((if is_internal (root_ptr tj)
                 then move_to_left_most_child (Z.to_nat max_tree_depth) w (root_ptr tj) ((p, Z.of_nat (S j)) :: st)
                 else stack_push (root_ptr tj, not_found) ((p, Z.of_nat (S j)) :: st)) =
                Ok (left_most tj ((p, Z.of_nat (S j)) :: st))) as ->.
        { rewrite is_internal_leaf, (rep_is_leaf _ _ _ _ Hrj). destruct tj as [a k v| |]; cbn [negb].
          - apply stack_push_ok. simpl length. lia.
          - eapply move_to_left_most_child_spec; [done|done|exact Hwj|simpl; lia|lia|].
            rewrite Z2Nat.id by done. lia.
          - eapply move_to_left_most_child_spec; [done|done|exact Hwj|simpl; lia|lia|].
            rewrite Z2Nat.id by done. lia. }
        cbn [owp]. apply IHq; [lia|done].
      - apply lookup_ge_None in Hj'. rewrite (drop_ge ts (S j)) by lia. simpl. apply Hc. }
    destruct (wf_children_cons _ _ _ _ Hwf) as (t0 & ts' & ->).
    apply (Hall 0%nat t0). done.
  - assert (d = max_internal_depth) as -> by (by inversion Hwf).
    inversion Hwf as [| |? ? Hl2 Hnd]; subst. destruct ls as [|e ls]; [simpl in Hl2; lia|].
    pose proof (collect_linear w p (e :: ls) st n rest 0 Hs Hrep Hwf ltac:(lia) Hc e eq_refl) as Hcol.
    rewrite Nat.sub_0_r in Hcol. exact Hcol.
Qed.

(** The traversal of a whole map. *)
Lemma iteration_spec w m l bl :
  ts_readable (store w) -> hamt_rep w m l bl ->
  owp (hamt_begin w m) (fun it => collect (S (length l)) w it = Ok (kvs l)).
Proof.
  intros Hs Hrep. unfold hamt_begin. destruct Hrep as [Hr0 Hs0|t Hrep Hwf Hroot Hsize].
  - rewrite Hr0. done.
  - pose proof (rep_pos _ _ _ _ Hrep). rewrite Hroot, (proj2 (Z.eqb_neq _ _)) by lia. cbn [negb].
    eapply owp_eq; [by eapply move_to_left_most_child_spec|].
    rewrite <- Nat.add_1_r, <- (app_nil_r (kvs _)). by eapply collect_tree.
Qed.

End iter.
