(* ===== verification/HamtFlush.v ===== *)
(** * Writing an index to the store, and discarding it

    [flush] moves every heap node of an index to the store without changing its
    entries, releases all of the index's heap blocks, and writes a header block from
    which the constructor recovers the index. [clear] releases the same blocks. *)

From S2P Require Import Prelude BitCount StoreIntf HamtTypes HamtMap HamtSpec HamtOps HamtInsert HamtRefine.

Section flush.
Context {K V St : Type} {KT : KeyTraits K V} {KL : KeyTraitsLaws K V}
  {TS : TransactionStore St (obj K V)} {TL : TransactionStoreLaws St (obj K V)}
  {HA : HeapAllocator node} {HL : HeapAllocatorLaws node}.
Local Abbreviation W := (world St).
Implicit Types w : W.
Implicit Types t : tree K V.

(** ** Releasing blocks *)

Lemma grown_trans w1 w2 w3 X1 X2 X3 :
  grown w1 w2 X1 X2 [] -> grown w2 w3 X2 X3 [] -> grown w1 w3 X1 X3 [].
Proof.
  intros H12 H23.
  assert (forall l, l ∉ X1 -> is_Some (heap w1 !! l) -> l ∉ X2 /\ is_Some (heap w2 !! l)) as Hkeep.
  { intros l Hl Hs. split; [|by rewrite (g_frame _ _ _ _ _ H12)].
    intros Hl2. destruct (g_new _ _ _ _ _ H12 l Hl2) as [|HN]; [done|]. rewrite HN in Hs. by destruct Hs. }
  split.
  - eapply ext_trans; [apply (g_ext _ _ _ _ _ H12)|apply (g_ext _ _ _ _ _ H23)].
  - intros l Hl Hs. destruct (Hkeep l Hl Hs) as [Hl2 Hs2].
    by rewrite (g_frame _ _ _ _ _ H23), (g_frame _ _ _ _ _ H12).
  - by intros l ?%elem_of_nil.
  - apply (g_live _ _ _ _ _ H23).
  - intros l [[Hs2 Hl2]|[?|?%elem_of_nil]]%(g_dom _ _ _ _ _ H23); [|by auto|done].
    destruct (g_dom _ _ _ _ _ H12 l Hs2) as [|[|?%elem_of_nil]]; [by auto|done|done].
  - intros l [Hl2|HN]%(g_new _ _ _ _ _ H23); [by apply (g_new _ _ _ _ _ H12)|].
    destruct (decide (l ∈ X1)) as [|Hl1]; [by auto|]. right.
    destruct (heap w1 !! l) eqn:E; [|done].
    destruct (Hkeep l Hl1) as [_ Hs]; [by eexists|]. rewrite HN in Hs. by destruct Hs.
Qed.

(** A block is deleted. *)
Lemma grown_delete w l :
  ts_inv (store w) -> is_Some (heap w !! l) ->
  grown w (World (delete l (heap w)) (store w)) [l] [] [].
Proof.
  intros Hs Hl. split; simpl; [by apply ext_refl| |set_solver|set_solver| |set_solver].
  - intros x Hx _. rewrite lookup_delete_ne; set_solver.
  - intros x. destruct (decide (x = l)) as [->|Hne].
    + rewrite lookup_delete_eq. by intros [].
    + rewrite lookup_delete_ne by done. set_solver.
Qed.

(** ** [clear] *)

(** Trees that share no block. *)
Definition disjoint_trees (ts : list (tree K V)) : Prop :=
  forall i j ti tj l, ts !! i = Some ti -> ts !! j = Some tj ->
    l ∈ footprint ti -> l ∈ footprint tj -> i = j.

Lemma disjoint_cons t ts :
  disjoint_trees (t :: ts) ->
  disjoint_trees ts /\ (forall t' l, t' ∈ ts -> l ∈ footprint t' -> l ∉ footprint t).
Proof.
  intros Hd. split.
  - intros i j ti tj l Hi Hj Hli Hlj. apply (inj S). by eapply Hd.
  - intros t' l (j & Hj)%list_elem_of_lookup_1 Hl Hlt.
    by pose proof (Hd 0%nat (S j) t t' l eq_refl Hj Hlt Hl).
Qed.

Definition clear_post w t (_ : unit) w' : Prop := grown w w' (footprint t) [] [].

Lemma clear_children_spec d fuel w (ts : list (tree K V)) :
  (forall t w, t ∈ ts -> ts_inv (store w) -> Rep w t -> wf (d + 1) t -> is_heap (root_ptr t) = true ->
     wp (clear_node fuel (root_ptr t) ((d + 1) * hash_index_bits)) (clear_post w t) w) ->
  ts_inv (store w) -> Forall (fun t => Rep w t) ts -> Forall (wf (d + 1)) ts -> disjoint_trees ts ->
  wp (foldr (fun c k => (if is_heap c then clear_node fuel c ((d + 1) * hash_index_bits) else ret tt) ;;; k)
        (ret tt) (root_ptr <$> ts))
     (fun _ w' => grown w w' (concat (footprint <$> ts)) [] []) w.
Proof.
  revert w. induction ts as [|t ts IH]; intros w Hclear Hs Hrep Hwf Hdis.
  { apply wp_ret. apply grown_refl; [done|set_solver]. }
  apply Forall_cons in Hrep as [Hrt Hrts]. apply Forall_cons in Hwf as [Hwt Hwts].
  apply disjoint_cons in Hdis as [Hdis Hd1]. rewrite fmap_cons. simpl foldr.
  assert (wp (if is_heap (root_ptr t) then clear_node fuel (root_ptr t) ((d + 1) * hash_index_bits) else ret tt)
             (clear_post w t) w) as Hfirst.
  { destruct (is_heap (root_ptr t)) eqn:Hh; [apply Hclear; try done; set_solver|].
    wp_head. unfold clear_post. rewrite (footprint_store _ _ _ _ Hrt Hh). apply grown_refl; [done|set_solver]. }
  wp_head. eapply wp_mono; [exact Hfirst|]. intros [] w1 Hg1.
  destruct (g_ext _ _ _ _ _ Hg1) as (Hs1 & ? & ? & _).
  eapply wp_mono; [apply IH; try done|].
  { intros t' w' Ht'. apply Hclear. set_solver. }
  { rewrite Forall_forall in *. intros t' Ht'. eapply rep_ext; [|done|done|by apply Hrts].
    intros l Hl. apply (g_frame _ _ _ _ _ Hg1); [by eapply Hd1|]. eapply rep_footprint_live; [|done]. by apply Hrts. }
  intros [] w2 Hg2. simpl.
  assert (grown w w1 (footprint t ++ concat (footprint <$> ts)) (concat (footprint <$> ts)) []) as Hg1'.
  { destruct Hg1 as [He Hf _ Hl Hdm Hn]. split; auto.
    - intros l Hl' Hlive. apply Hf; [|done]. set_solver.
    - by intros l ?%elem_of_nil.
    - intros l (ft & (t' & -> & Ht')%list_elem_of_fmap & Hlt)%elem_of_concat.
      rewrite Forall_forall in Hrts. rewrite Hf; [eapply rep_footprint_live; [by apply Hrts|done]|by eapply Hd1|].
      eapply rep_footprint_live; [by apply Hrts|done].
    - intros l [[Hlive Hlt]|[?%elem_of_nil|?%elem_of_nil]]%Hdm; [|done|done].
      destruct (decide (l ∈ concat (footprint <$> ts))); [by auto|]. left. set_solver.
    - intros l Hl'. left. set_solver. }
  by eapply grown_trans.
Qed.

Lemma footprint_node_siblings w d p bm (ts : list (tree K V)) :
  wf d (TNode p bm ts) -> Rep w (TNode p bm ts) -> disjoint_trees ts.
Proof. intros Hwf Hrep i j ti tj l Hi Hj Hli Hlj. by eapply footprint_siblings. Qed.

Lemma clear_node_spec fuel d w t :
  ts_inv (store w) -> Rep w t -> wf d t -> is_heap (root_ptr t) = true ->
  0 <= d <= max_internal_depth -> max_internal_depth + 1 - d <= Z.of_nat fuel ->
  wp (clear_node fuel (root_ptr t) (d * hash_index_bits)) (clear_post w t) w.
Proof.
  revert d w t. induction fuel as [|fuel IH]; intros d w t Hs Hrep Hwf Hh Hd Hfuel; [lia|].
  cbn [clear_node]. wp_head. wp_head.
  { rewrite Hh, (rep_is_leaf _ _ _ _ Hrep). destruct t as [a k v| |]; [|done..].
    inversion Hrep as [? ? ? Hl| |]; subst. simpl in Hh. by rewrite (proj2 (leaf_ptr_kind a (proj1 Hl))) in Hh. }
  set (l := untag_node (root_ptr t)).
  assert (own (root_ptr t) = [l]) as Hown by (unfold own; by rewrite Hh).
  wp_head. rewrite depth_internal.
  assert (wp (if d <? max_internal_depth
              then n <- with_world (fun w => internal_get_node w (root_ptr t)) ;;
                   foldr (fun c k => (if is_heap c then clear_node fuel c (d * hash_index_bits + hash_index_bits)
                                      else ret tt) ;;; k) (ret tt) n.2
              else ret tt)
             (fun _ w1 => grown w w1 (footprint t) [l] [] /\ heap w1 !! l = heap w !! l) w) as Hch.
  { destruct t as [a k v|p bm ts|p ls].
    - inversion Hrep as [? ? ? Hl| |]; subst. simpl in Hh. by rewrite (proj2 (leaf_ptr_kind a (proj1 Hl))) in Hh.
    - destruct (internal_bounds _ _ _ _ Hwf) as (Hdi & _ & _).
      rewrite (proj2 (Z.ltb_lt _ _)) by lia. wp_head. apply wp_with_world.
      eapply owp_eq; [by eapply lookup_of_node|]. cbn [snd]. rewrite next_shift.
      pose proof (fun t => wf_child d p bm ts t Hwf) as Hwc.
      inversion Hrep as [|? ? ? Hn Hc|]; subst. simpl in Hown, Hh.
      assert (forall x, x ∈ concat (footprint <$> ts) -> x <> l) as Hxl.
      { intros x (ft & (t' & -> & Ht')%list_elem_of_fmap & Hlt)%elem_of_concat ->.
        eapply (footprint_own _ _ _ _ _ _ _ t' l Hwf Hrep); [rewrite Hown; set_solver|done|done]. }
      destruct (node_at_own _ _ _ _ _ l Hn) as (Hl & _ & _); [rewrite Hown; set_solver|].
      eapply wp_mono; [apply clear_children_spec; [|done|done| |by eapply footprint_node_siblings]|].
      + intros t w' Ht Hs' Hr' Hw' Hh'. apply IH; try done; lia.
      + apply Forall_forall. auto.
      + intros [] w1 Hg. assert (heap w1 !! l = heap w !! l) as Hll.
        { apply (g_frame _ _ _ _ _ Hg); [|by rewrite Hl]. intros Hx. by eapply Hxl. }
        split; [|done]. destruct Hg as [He Hf _ Hlv Hdm Hn']. cbn [footprint]. rewrite Hown. split; auto.
        * intros x Hx. apply Hf. set_solver.
        * by intros x ?%elem_of_nil.
        * intros x ->%list_elem_of_singleton. by rewrite Hll, Hl.
        * intros x [[Hs1 Hx]|[?%elem_of_nil|?%elem_of_nil]]%Hdm; [|done|done].
          destruct (decide (x = l)) as [->|]; [right; left; set_solver|]. left. set_solver.
        * intros x ->%list_elem_of_singleton. left. set_solver.
    - inversion Hwf; subst. rewrite Z.ltb_irrefl. wp_head. split; [|done].
      cbn [footprint]. simpl in Hown. rewrite Hown. apply grown_refl; [done|].
      intros x Hx. eapply rep_footprint_live; [done|]. cbn [footprint]. by rewrite Hown. }
  eapply wp_mono; [exact Hch|]. intros [] w1 [Hg Hl1].
  apply (wp_delete_node d t w); [done|done| |].
  { rewrite Hown. by intros x ->%list_elem_of_singleton. }
  intros h Hh'. unfold clear_post. eapply grown_trans; [exact Hg|].
  destruct (g_ext _ _ _ _ _ Hg) as (Hs1 & _).
  assert (grown w1 (World h (store w1)) [l] [] []); [|done].
  assert (h = delete l (heap w1)) as ->; [|apply grown_delete; [done|]].
  { apply map_eq. intros x. rewrite Hh', Hown. destruct (decide (x = l)) as [->|].
    - rewrite lookup_delete_eq, decide_True; [done|set_solver].
    - rewrite lookup_delete_ne, decide_False; [done|set_solver|done]. }
  apply (g_live _ _ _ _ _ Hg). set_solver.
Qed.

(** ** [flush] *)

(** The bytes that the nodes of a tree may take in the store, padding included. *)
Fixpoint flush_cost t : Z :=
  match t with
  | TLeaf _ _ _ => 0
  | TNode p bm ts =>
      if is_heap p then foldr (fun t n => flush_cost t + n) 0 ts + (8 + 16 + 8 * pop_count bm) else 0
  | TLinear p ls => if is_heap p then 8 + 16 + 8 * Z.of_nat (length ls) else 0
  end.

Definition flush_costs (ts : list (tree K V)) : Z := foldr (fun t n => flush_cost t + n) 0 ts.

Lemma flush_cost_nonneg t : 0 <= flush_cost t.
Proof.
  induction t as [a k v|p bm ts IH|p ls] using tree_ind'; simpl; [lia| |destruct (is_heap p); lia].
  destruct (is_heap p); [|lia]. pose proof (pop_count_nonneg bm).
  assert (0 <= flush_costs ts); [|unfold flush_costs in *; lia].
  induction IH; simpl; unfold flush_costs in *; lia.
Qed.

Lemma flush_costs_nonneg ts : 0 <= flush_costs ts.
Proof. induction ts as [|t ts IH]; simpl; [done|]. pose proof (flush_cost_nonneg t). unfold flush_costs in *. lia. Qed.

(** [t'] is [t] moved to the store. *)
Definition stored_as t t' : Prop := entries t' = entries t /\ is_heap (root_ptr t') = false.

(** The flush of the tree [t] at depth [d], with at most [c] bytes; [keep] are the
    blocks that are left to the caller. *)
Definition flush_post d w t (c : Z) (keep : list Z) (r : Z) w' : Prop :=
  exists t', r = root_ptr t' /\ stored_as t t' /\ Rep w' t' /\ wf d t' /\
    grown w w' (footprint t) keep [] /\ end_of w' <= end_of w + c.

Lemma wf_replace_stored d p p' bm ts i t t' :
  wf d (TNode p bm ts) -> ts !! i = Some t -> wf (d + 1) t' -> entries t' = entries t ->
  wf d (TNode p' bm (<[i := t']> ts)) /\
  entries (TNode p' bm (<[i := t']> ts)) = entries (TNode p bm ts).
Proof.
  intros Hwf Hi Ht' He.
  assert (entries <$> <[i := t']> ts = entries <$> ts) as Heq.
  { rewrite list_fmap_insert, He, list_insert_id; [done|]. by rewrite list_lookup_fmap, Hi. }
  assert (entries (TNode p' bm (<[i := t']> ts)) = entries (TNode p bm ts)) as HE by (simpl; by rewrite Heq).
  split; [|done]. destruct (wf_route _ _ _ _ _ _ Hwf Hi) as (b & Hb & Hw & Hr).
  inversion Hwf as [|? ? ? ? Hd Hbm Hroute Hc Hlen|]; subst. constructor; [done|done| | |by rewrite HE].
  - rewrite <- (list_insert_id _ _ _ Hb). apply Forall2_insert; [done|]. rewrite He. by apply Forall_forall.
  - by apply Forall_insert.
Qed.

(** The children of a node on the heap, as the loop replaces them one by one. *)
Record flushing d (l : Z) bm w (ts0 ts : list (tree K V)) (i : nat) : Prop := {
  fl_inv : ts_inv (store w);
  fl_rep : Rep w (TNode (heap_ptr l) bm ts);
  fl_wf : wf d (TNode (heap_ptr l) bm ts);
  fl_entries : entries (TNode (heap_ptr l) bm ts) = entries (TNode (heap_ptr l) bm ts0);
  fl_done j t : (j < i)%nat -> ts !! j = Some t -> is_heap (root_ptr t) = false;
  fl_rest : drop i ts = drop i ts0;
  fl_align : l mod 4 = 0
}.

Lemma flushing_node d l bm w ts0 ts i :
  flushing d l bm w ts0 ts i -> heap w !! l = Some (Internal bm (root_ptr <$> ts)) /\ 0 < l.
Proof.
  intros Hf. pose proof (fl_rep _ _ _ _ _ _ _ Hf) as Hrep. inversion Hrep as [|? ? ? Hn _|]; subst.
  destruct (node_at_own _ _ _ _ _ l Hn) as (Hl & _ & _).
  { rewrite own_heap_ptr by apply (fl_align _ _ _ _ _ _ _ Hf). set_solver. }
  split; [done|]. inversion Hn as [l' ? ? ? Heq|a Ha ? ? ? Heq].
  - unfold heap_ptr in Heq. lia.
  - pose proof (store_ptr_kind a (mod8_mod4 _ Ha)) as [_ Hk].
    rewrite Heq, (proj2 (heap_ptr_kind l (fl_align _ _ _ _ _ _ _ Hf))) in Hk. done.
Qed.

(** One child has been moved to the store and its slot overwritten. *)
Lemma flushing_step d l bm w w1 ts0 ts i ti ti' :
  flushing d l bm w ts0 ts i -> ts !! i = Some ti ->
  stored_as ti ti' -> Rep w1 ti' -> wf (d + 1) ti' -> grown w w1 (footprint ti) [] [] ->
  let w2 := World (<[l := Internal bm (<[i := root_ptr ti']> (root_ptr <$> ts))]> (heap w1)) (store w1) in
  flushing d l bm w2 ts0 (<[i := ti']> ts) (S i) /\
  grown w w2 (footprint (TNode (heap_ptr l) bm ts)) (footprint (TNode (heap_ptr l) bm (<[i := ti']> ts))) [].
Proof.
  intros Hf Hi [He Hh] Hrep1 Hwf1 Hg w2. pose proof Hf as [Hs Hrep Hwf Hent Hdone Hrest Hl4].
  destruct (flushing_node _ _ _ _ _ _ _ Hf) as [_ Hlpos].
  pose proof (footprint_store _ _ _ _ Hrep1 Hh) as Hfp.
  destruct (replaced_children d (heap_ptr l) bm ts i ti ti' w w1) as [Hts' Hts]; [done..|].
  destruct (rebuild d (heap_ptr l) bm (heap_ptr l) bm ts (<[i := ti']> ts) w w1 w2 (footprint ti) [] [])
    as (HrepT & HgT & HstT); try done; eauto.
  { intros x Hx. exists ti. split; [by eapply list_elem_of_lookup_2|done]. }
  { constructor; [done|done|]. simpl. by rewrite lookup_insert_eq, list_fmap_insert. }
  { intros x. rewrite own_heap_ptr by done. intros Hx. simpl. rewrite lookup_insert_ne by set_solver. done. }
  { rewrite Hfp in Hts'. done. }
  { set_solver. }
  rewrite HstT in HgT. split; [|done].
  destruct (wf_replace_stored d (heap_ptr l) (heap_ptr l) bm ts i ti ti' Hwf Hi Hwf1 He) as [HwT HeT].
  split; try done.
  - apply (g_ext _ _ _ _ _ Hg).
  - by rewrite HeT.
  - intros j t Hj Ht. destruct (decide (i = j)) as [<-|Hne].
    + rewrite list_lookup_insert_eq in Ht by (by eapply lookup_lt_Some). by simplify_eq.
    + rewrite list_lookup_insert_ne in Ht by done. eapply (Hdone j); [lia|done].
  - rewrite drop_insert_lt by lia. rewrite <- (Nat.add_1_r i), <- !drop_drop, Hrest. done.
Qed.

Lemma flush_post_delete d w t c l r w1 :
  flush_post d w t c [l] r w1 -> flush_post d w t c [] r (World (delete l (heap w1)) (store w1)).
Proof.
  intros (t' & Hr & Hst & Hrep & Hwf & Hg & Hsz). exists t'. split_and!; try done.
  - eapply rep_ext; [|done|done|exact Hrep]. rewrite (footprint_store _ _ _ _ Hrep (proj2 Hst)). set_solver.
  - eapply grown_trans; [exact Hg|]. apply grown_delete; [apply (g_ext _ _ _ _ _ Hg)|].
    apply (g_live _ _ _ _ _ Hg). set_solver.
Qed.

(** [linear_node::flush] *)
Lemma linear_flush_spec w l (ls : list (entry K V)) :
  ts_inv (store w) -> Rep w (TLinear (heap_ptr l) ls) -> wf max_internal_depth (TLinear (heap_ptr l) ls) ->
  l mod 4 = 0 -> end_of w + flush_cost (TLinear (heap_ptr l) ls) <= ts_limit ->
  wp (linear_flush ls.*1)
    (fun r => flush_post max_internal_depth w (TLinear (heap_ptr l) ls)
                (flush_cost (TLinear (heap_ptr l) ls)) [l] (Z.lor r internal_node_bit)) w.
Proof.
  intros Hs Hrep Hwf Hl4. cbn [flush_cost]. rewrite (proj2 (heap_ptr_kind l Hl4)). intros Hroom.
  inversion Hrep as [| |? ? Hn Hls]; subst. unfold linear_flush, linear_size_bytes. rewrite length_fmap.
  destruct w as [h s]. simpl in *. apply (wp_alloc_rw h s _ 3); [done|lia|lia|simpl; lia|].
  intros a s' Hext Ha Hdiv Hob Hsz. change (2 ^ 3) with 8 in *.
  assert (a mod 8 = 0) as Ha8 by (by apply Z.mod_divide).
  pose proof (ts_size_range _ (ts_inv_readable _ Hs)). pose proof Hext as (_ & ? & ? & _).
  rewrite lor_internal_store by (by apply mod8_mod4).
  exists (TLinear (store_ptr a) ls). split_and!; try done; [| | | |simpl; lia].
  - split; [done|]. by apply (store_ptr_kind a), mod8_mod4.
  - constructor.
    + constructor; [done|lia| |]; simpl; [by rewrite Hob, lookup_insert_eq|rewrite length_fmap; split; [lia|]].
      apply Forall_fmap. eapply Forall_impl; [exact Hls|]. intros e He. pose proof (leaf_at_below _ _ _ He). cbn in *. lia.
    + eapply Forall_impl; [exact Hls|]. intros. by eapply leaf_at_ext.
  - inversion Hwf; subst. by constructor.
  - simpl. rewrite own_heap_ptr by done. split; simpl; try done; [set_solver| | |set_solver].
    + intros x Hx. eapply (rep_footprint_live _ _ _ _ _ Hrep). simpl. by rewrite own_heap_ptr.
    + intros x Hx. destruct (decide (x ∈ [l])); auto.
Qed.

(** A child that is on the heap is flushed and its block released. *)
Lemma flush_child_spec (fc : Z -> M W Z) d t w :
  (forall li, root_ptr t = heap_ptr li -> li mod 4 = 0 -> d + 1 < max_internal_depth ->
     wp (fc li) (flush_post (d + 1) w t (flush_cost t) [li]) w) ->
  ts_inv (store w) -> Rep w t -> wf (d + 1) t -> is_heap (root_ptr t) = true ->
  end_of w + flush_cost t <= ts_limit ->
  wp (if d + 1 <? max_internal_depth then
        massert (is_internal (root_ptr t)) ;;;
        r <- fc (untag_node (root_ptr t)) ;;
        heap_delete (untag_node (root_ptr t)) ;;;
        ret r
      else
        massert (is_linear (root_ptr t)) ;;;
        leaves <- with_world (fun w => linear_get_node w (root_ptr t)) ;;
        r <- linear_flush leaves ;;
        heap_delete (untag_node (root_ptr t)) ;;;
        ret (Z.lor r internal_node_bit))
     (flush_post (d + 1) w t (flush_cost t) []) w.
Proof.
  intros Hfc Hs Hrep Hwf Hh Hroom.
  assert (is_internal (root_ptr t) = true) as Hint.
  { pose proof (rep_is_leaf _ _ _ _ Hrep) as Hlf. unfold is_leaf in Hlf.
    destruct t as [a k v| |]; [|by destruct (is_internal _)..].
    inversion Hrep as [? ? ? Hl| |]; subst. simpl in Hh. by rewrite (proj2 (leaf_ptr_kind a (proj1 Hl))) in Hh. }
  assert (exists li, root_ptr t = heap_ptr li /\ li mod 4 = 0) as (li & Hli & Hl4).
  { destruct Hrep as [a k v Hl|p bm ts Hn _|p ls Hn _]; simpl in *.
    - by rewrite (proj2 (leaf_ptr_kind a (proj1 Hl))) in Hh.
    - destruct Hn as [li|a Ha]; [eauto|]. by rewrite (proj2 (store_ptr_kind a (mod8_mod4 _ Ha))) in Hh.
    - destruct Hn as [li|a Ha]; [eauto|]. by rewrite (proj2 (store_ptr_kind a (mod8_mod4 _ Ha))) in Hh. }
  unfold is_linear. rewrite Hint, Hli, untag_node_heap by done.
  destruct (Z.ltb_spec (d + 1) max_internal_depth) as [Hdi|Hdi].
  - wp_head. wp_head; [done|]. wp_head. eapply wp_mono; [by apply Hfc|]. intros r w1 Hpost. wp_head.
    assert (is_Some (heap w1 !! li)) as [n Hn].
    { destruct Hpost as (t' & _ & _ & _ & _ & Hg & _). apply (g_live _ _ _ _ _ Hg). set_solver. }
    eapply wp_heap_delete; [done|]. wp_head. by apply flush_post_delete.
  - destruct t as [a k v|p bm ts|p ls]; simpl root_ptr in *.
    + inversion Hrep as [? ? ? Hl| |]; subst. by rewrite (proj2 (leaf_ptr_kind a (proj1 Hl))) in Hh.
    + destruct (internal_bounds _ _ _ _ Hwf). lia.
    + assert (d + 1 = max_internal_depth) as Hd by (by inversion Hwf). rewrite Hd in *. subst p.
      wp_head. wp_head; [done|]. wp_head. apply wp_with_world. inversion Hwf as [| |? ? Hl2 Hnd]; subst.
      inversion Hrep as [| |? ? Hn Hls]; subst.
      eapply owp_eq; [apply (linear_get_node_ok w _ ls.*1); [done|rewrite length_fmap; lia|done]|].
      wp_head. eapply wp_mono; [by apply linear_flush_spec|]. intros r w1 Hpost. wp_head.
      assert (is_Some (heap w1 !! li)) as [n Hn1].
      { destruct Hpost as (t' & _ & _ & _ & _ & Hg & _). apply (g_live _ _ _ _ _ Hg). set_solver. }
      eapply wp_heap_delete; [done|]. wp_head. by apply flush_post_delete.
Qed.

Lemma flush_children_spec (fc : Z -> M W Z) d l bm w ts0 ts i n :
  (forall t li w, t ∈ drop i ts0 -> ts_inv (store w) -> Rep w t -> wf (d + 1) t -> root_ptr t = heap_ptr li -> li mod 4 = 0 ->
     d + 1 < max_internal_depth -> end_of w + flush_cost t <= ts_limit ->
     wp (fc li) (flush_post (d + 1) w t (flush_cost t) [li]) w) ->
  flushing d l bm w ts0 ts i -> (i + n = length ts0)%nat -> length ts = length ts0 ->
  end_of w + flush_costs (drop i ts0) <= ts_limit ->
  wp (flush_children fc (d + 1 <? max_internal_depth) l n i)
    (fun _ w' => exists ts', flushing d l bm w' ts0 ts' (length ts0) /\ length ts' = length ts0 /\
       grown w w' (footprint (TNode (heap_ptr l) bm ts)) (footprint (TNode (heap_ptr l) bm ts')) [] /\
       end_of w' <= end_of w + flush_costs (drop i ts0)) w.
Proof.
  revert w ts i. induction n as [|n IH]; intros w ts i Hfc Hf Hn Hlen Hroom.
  { assert (i = length ts0) as -> by lia. cbn [flush_children]. wp_head. exists ts. split_and!; try done.
    - apply grown_refl; [apply (fl_inv _ _ _ _ _ _ _ Hf)|]. intros x Hx.
      eapply rep_footprint_live; [apply (fl_rep _ _ _ _ _ _ _ Hf)|done].
    - pose proof (flush_costs_nonneg (drop (length ts0) ts0)). lia. }
  cbn [flush_children]. wp_head. apply wp_with_world.
  pose proof Hf as [Hs Hrep Hwf Hent Hdone Hrest Hl4].
  destruct (flushing_node _ _ _ _ _ _ _ Hf) as [Hl _]. eapply owp_heap_deref; [done|]. cbn iota.
  destruct (lookup_lt_is_Some_2 ts0 i) as [t0 Ht0]; [lia|].
  assert (ts !! i = Some t0) as Hi.
  { rewrite <- (Nat.add_0_r i), <- lookup_drop, Hrest, lookup_drop, Nat.add_0_r. done. }
  pose proof (drop_S _ _ _ Ht0) as HdS. rewrite HdS in Hroom, Hfc |- *. simpl flush_costs in *.
  fold (flush_costs (drop (S i) ts0)) in *.
  pose proof (flush_cost_nonneg t0). pose proof (flush_costs_nonneg (drop (S i) ts0)).
  destruct (wf_route _ _ _ _ _ _ Hwf Hi) as (_ & _ & Hw0 & _).
  inversion Hrep as [|? ? ? Hnode Hc|]; subst. rewrite Forall_lookup in Hc. pose proof (Hc _ _ Hi) as Hr0.
  wp_head. wp_head. unfold child_at. rewrite Nat2Z.id, list_lookup_fmap, Hi. cbn [fmap option_fmap option_map owp].
  wp_head. eapply (wp_mono _ (fun _ w2 => exists ti', flushing d l bm w2 ts0 (<[i := ti']> ts) (S i) /\
       grown w w2 (footprint (TNode (heap_ptr l) bm ts)) (footprint (TNode (heap_ptr l) bm (<[i := ti']> ts))) [] /\
       end_of w2 <= end_of w + flush_cost t0)).
  - destruct (is_heap (root_ptr t0)) eqn:Hh.
    + wp_head. eapply wp_mono; [eapply (flush_child_spec fc d t0 w); try done; [|lia]|].
      { intros li Hli Hli4 Hdi. apply Hfc; try done; [set_solver|lia]. }
      intros r w1 (ti' & -> & Hst & Hr1 & Hw1 & Hg1 & Hsz1).
      destruct (flushing_step _ _ _ _ _ _ _ _ _ _ Hf Hi Hst Hr1 Hw1 Hg1) as [Hf2 Hg2].
      assert (heap w1 !! l = Some (Internal bm (root_ptr <$> ts))) as Hl1.
      { rewrite (g_frame _ _ _ _ _ Hg1); [done| |by rewrite Hl].
        eapply (footprint_own _ _ _ _ _ _ _ t0 l Hwf Hrep); [rewrite own_heap_ptr by done; set_solver|].
        by eapply list_elem_of_lookup_2. }
      wp_head. apply wp_with_world. eapply owp_heap_deref; [done|]. cbn iota.
      eapply wp_heap_assign; [done|]. exists ti'. split_and!; [exact Hf2|exact Hg2|simpl; lia].
    + wp_head. exists t0. rewrite list_insert_id by done. split_and!.
      * split; try done.
        -- intros j t Hj Ht. destruct (decide (j = i)) as [->|]; [by simplify_eq|]. eapply (Hdone j); [lia|done].
        -- rewrite <- (Nat.add_1_r i), <- !drop_drop, Hrest. done.
      * apply grown_refl; [done|]. intros x Hx. exact (rep_footprint_live _ _ _ _ _ Hrep Hx).
      * lia.
  - intros [] w2 (ti' & Hf2 & Hg2 & Hsz).
    rewrite Nat.add_1_r. eapply wp_mono; [apply IH; [|exact Hf2|lia|by rewrite length_insert|lia]|].
    { intros t li w' Ht. apply Hfc. set_solver. }
    intros [] w3 (ts' & Hf3 & Hlen3 & Hg3 & Hsz3). exists ts'. split_and!; [done|done| |lia].
    by eapply grown_trans.
Qed.

(** [internal_node::store_node] on a node whose children are all in the store. *)
Lemma store_node_spec d w l bm ts0 ts :
  flushing d l bm w ts0 ts (length ts) -> end_of w + 8 + 16 + 8 * pop_count bm <= ts_limit ->
  wp (r <- store_node bm (root_ptr <$> ts) ;; ret (Z.lor r internal_node_bit))
    (fun r w' => exists a, r = store_ptr a /\ a mod 8 = 0 /\ Rep w' (TNode (store_ptr a) bm ts) /\
       wf d (TNode (store_ptr a) bm ts) /\ heap w' = heap w /\ ext (store w) (store w') /\
       end_of w' <= end_of w + 8 + 16 + 8 * pop_count bm) w.
Proof.
  intros Hf Hroom. pose proof Hf as [Hs Hrep Hwf Hent Hdone Hrest Hl4].
  destruct (internal_bounds _ _ _ _ Hwf) as (Hd & Hbm & Hlen).
  pose proof (pop_count_pos bm ltac:(lia)). unfold store_node. wp_head. wp_head. wp_head. unfold internal_size.
  rewrite (proj2 (Z.eqb_neq bm 0)) by lia. cbn [negb oassert obind owp].
  wp_head. wp_head. rewrite internal_size_bytes_ok by done. cbn [owp].
  destruct w as [h s]. simpl in *.
  apply (wp_alloc_rw h s _ 3); [done|lia|lia|change (2 ^ 3) with 8; lia|].
  intros a s' Hext Ha Hdiv Hob Hsz. change (2 ^ 3) with 8 in *.
  assert (a mod 8 = 0) as Ha8 by (by apply Z.mod_divide).
  pose proof (ts_size_range _ (ts_inv_readable _ Hs)). pose proof Hext as (_ & ? & ? & _).
  wp_head. rewrite lor_internal_store by (by apply mod8_mod4).
  exists a. split_and!; try done; [| |simpl; lia].
  - inversion Hrep as [|? ? ? Hn Hc|]; subst. rewrite Forall_lookup in Hc. constructor.
    + constructor; [done|lia| |]; simpl; [by rewrite Hob, lookup_insert_eq|]. split; [lia|].
      apply Forall_fmap, Forall_lookup. intros i t Hi. simpl.
      assert (is_heap (root_ptr t) = false) as Hh.
      { eapply Hdone; [|done]. by eapply lookup_lt_Some. }
      split; [done|]. apply Z.lt_le_trans with (ts_size s); [|lia].
      destruct (wf_route _ _ _ _ _ _ Hwf Hi) as (_ & _ & Hw & _).
      eapply rep_root_bound; [exact Hw|by eapply Hc|done].
    + apply Forall_lookup. intros i t Hi. eapply rep_ext; [|done|done|by eapply Hc]. done.
  - inversion Hwf; subst. by constructor.
Qed.

Lemma stored_footprint w p bm ts : is_heap p = false -> Rep w (TNode p bm ts) ->
  concat (footprint <$> ts) = [].
Proof.
  intros Hp Hrep. pose proof (footprint_store _ _ _ _ Hrep Hp) as Hf. simpl in Hf.
  by apply app_eq_nil in Hf as [_ ?].
Qed.

Lemma internal_flush_spec fuel d w l bm ts :
  ts_inv (store w) -> Rep w (TNode (heap_ptr l) bm ts) -> wf d (TNode (heap_ptr l) bm ts) -> l mod 4 = 0 ->
  max_internal_depth - d <= Z.of_nat fuel ->
  end_of w + flush_cost (TNode (heap_ptr l) bm ts) <= ts_limit ->
  wp (internal_flush fuel l (d * hash_index_bits))
    (flush_post d w (TNode (heap_ptr l) bm ts) (flush_cost (TNode (heap_ptr l) bm ts)) [l]) w.
Proof.
  revert d w l bm ts. induction fuel as [|fuel IH]; intros d w l bm ts Hs Hrep Hwf Hl4 Hfuel Hroom.
  { destruct (internal_bounds _ _ _ _ Hwf). lia. }
  assert (flushing d l bm w ts ts 0) as Hf by (split; try done; lia).
  destruct (flushing_node _ _ _ _ _ _ _ Hf) as [Hl Hlpos].
  destruct (internal_bounds _ _ _ _ Hwf) as (Hd & Hbm & Hlen).
  assert (flush_cost (TNode (heap_ptr l) bm ts) = flush_costs ts + (8 + 16 + 8 * pop_count bm)) as Hcost.
  { cbn [flush_cost]. by rewrite (proj2 (heap_ptr_kind l Hl4)). }
  rewrite Hcost in *. pose proof (flush_costs_nonneg ts). pose proof (pop_count_nonneg bm).
  cbn [internal_flush]. wp_head. apply wp_with_world. eapply owp_heap_deref; [done|]. cbn iota.
  wp_head. wp_head. unfold internal_size. rewrite (proj2 (Z.eqb_neq bm 0)) by lia. cbn [negb oassert obind owp].
  rewrite next_shift. fold (depth_is_internal_node ((d + 1) * hash_index_bits)). rewrite depth_internal.
  assert (Z.of_nat (length ts) = pop_count bm) as Hpop by (rewrite Hlen; apply length_set_bits; lia).
  rewrite <- Hpop, Nat2Z.id.
  wp_head. eapply wp_mono; [apply (flush_children_spec _ d l bm w ts ts 0); try done; [|rewrite drop_0; lia]|].
  { intros t li w' Ht Hs' Hr' Hw' Hli Hli4 Hd1 Hroom'. destruct t as [a k v|p bm' ts'|p ls].
    - pose proof (rep_is_leaf _ _ _ _ Hr') as Hlf. rewrite Hli in Hlf.
      by rewrite (proj1 (heap_ptr_kind li Hli4)) in Hlf.
    - simpl in Hli. subst p. apply IH; try done. lia.
    - assert (d + 1 = max_internal_depth) by (by inversion Hw'). lia. }
  intros [] w1 (ts' & Hf1 & Hlen1 & Hg1 & Hsz1). rewrite drop_0 in Hsz1.
  rewrite <- Hlen1 in Hf1.
  destruct (flushing_node _ _ _ _ _ _ _ Hf1) as [Hl1 _]. pose proof Hf1 as [Hs1 Hrep1 Hwf1 Hent1 _ _ _].
  wp_head. apply wp_with_world. eapply owp_heap_deref; [done|]. cbn iota.
  eapply wp_mono; [eapply store_node_spec; [done|lia]|].
  intros r w2 (a & -> & Ha8 & Hrep2 & Hwf2 & Hheap & Hext & Hsz2).
  pose proof (store_ptr_kind a (mod8_mod4 _ Ha8)) as [_ Hk].
  pose proof (stored_footprint _ _ _ _ Hk Hrep2) as Hfp.
  exists (TNode (store_ptr a) bm ts'). split_and!; try done; [|lia].
  eapply grown_trans; [exact Hg1|]. cbn [footprint]. rewrite own_heap_ptr, Hfp by done. simpl.
  destruct w2 as [h2 s2]. simpl in Hheap. subst h2. split; simpl; try done; [set_solver| | |set_solver].
  - intros x ->%list_elem_of_singleton. by rewrite Hl1.
  - intros x Hx. destruct (decide (x ∈ [l])); auto.
Qed.

(** ** The operations of the map *)

Lemma flush_cost_bound d t : wf d t ->
  flush_cost t <= 536 * Z.of_nat (length (footprint t)) + 8 * Z.of_nat (length (entries t)).
Proof.
  revert d. induction t as [a k v|p bm ts IH|p ls] using tree_ind'; intros d Hwf.
  - simpl. lia.
  - cbn [flush_cost]. destruct (internal_bounds _ _ _ _ Hwf) as (_ & Hbm & _).
    pose proof (pop_count_le_64 bm). unfold own. cbn [footprint]. unfold own.
    destruct (is_heap p); [|lia]. rewrite length_app. simpl length.
    assert (flush_costs ts <= 536 * Z.of_nat (length (concat (footprint <$> ts))) +
              8 * Z.of_nat (length (concat (entries <$> ts)))) as Hc; [|unfold flush_costs in Hc; lia].
    assert (Forall (wf (d + 1)) ts) as Hws by (by inversion Hwf). clear Hwf.
    induction ts as [|t ts IHts]; [simpl; lia|].
    apply Forall_cons in IH as [IHt IH]. apply Forall_cons in Hws as [Hwt Hws].
    specialize (IHts IH Hws). specialize (IHt _ Hwt).
    rewrite !fmap_cons. simpl. rewrite !length_app. unfold flush_costs in *. lia.
  - simpl. unfold own. destruct (is_heap p); simpl; lia.
Qed.

(** A tree has at most one node per level above each of its entries. *)
Lemma footprint_length d t : wf d t -> d <= max_internal_depth ->
  Z.of_nat (length (footprint t)) <= (max_internal_depth + 1 - d) * Z.of_nat (length (entries t)).
Proof.
  revert d. induction t as [a k v|p bm ts IH|p ls] using tree_ind'; intros d Hwf Hd; cbn [footprint].
  - simpl. lia.
  - pose proof (wf_length_pos _ _ Hwf) as Hpos. rewrite length_app.
    assert (Z.of_nat (length (own p)) <= 1) as Hown by (unfold own; destruct (is_heap p); simpl; lia).
    assert (Z.of_nat (length (concat (footprint <$> ts))) <=
            (max_internal_depth - d) * Z.of_nat (length (concat (entries <$> ts)))) as Hc; [|cbn [entries] in *; nia].
    assert (Forall (wf (d + 1)) ts /\ d < max_internal_depth) as [Hws Hlt] by (inversion Hwf; split; [done|lia]). clear Hwf Hpos Hown.
    induction ts as [|t ts IHts]; [simpl; lia|].
    apply Forall_cons in IH as [IHt IH]. apply Forall_cons in Hws as [Hwt Hws].
    specialize (IHts IH Hws). specialize (IHt _ Hwt). rewrite !fmap_cons. simpl. rewrite !length_app. nia.
  - pose proof (wf_length_pos _ _ Hwf). cbn [entries] in *. unfold own. destruct (is_heap p); simpl; nia.
Qed.

Lemma hamt_rep_footprint w m l bl :
  hamt_rep w m l bl -> Z.of_nat (length bl) <= (max_internal_depth + 1) * Z.of_nat (length l).
Proof.
  destruct 1 as [|t _ Hwf _ _]; [simpl; lia|]. pose proof (footprint_length 0 t Hwf) as Hl.
  change max_internal_depth with 11 in *. lia.
Qed.

Lemma grown_nil_same_others w w' bl : grown w w' bl [] [] -> same_others w bl w' [].
Proof. apply grown_same_others. Qed.

Lemma hamt_rep_heap_root w m l bl :
  hamt_rep w m l bl -> is_heap (root m) = true ->
  exists t li, l = entries t /\ bl = footprint t /\ Rep w t /\ wf 0 t /\ root m = root_ptr t /\
    root_ptr t = heap_ptr li /\ li mod 4 = 0 /\ size m = Z.of_nat (length l) /\
    exists bm ts, t = TNode (heap_ptr li) bm ts.
Proof.
  destruct 1 as [Hr0 _|t Hrep Hwf Hroot Hsize]; [by rewrite Hr0|]. rewrite Hroot. intros Hh.
  destruct Hrep as [a k v Hl|p bm ts Hn Hc|p ls Hn Hls]; simpl in Hh.
  - by rewrite (proj2 (leaf_ptr_kind a (proj1 Hl))) in Hh.
  - destruct Hn as [li Hl4 Hpos Hn|a Ha Hpos Hn Hok].
    + exists (TNode (heap_ptr li) bm ts), li. split_and!; try done; [|by eauto].
      constructor; [by constructor|done].
    + by rewrite (proj2 (store_ptr_kind a (mod8_mod4 _ Ha))) in Hh.
  - inversion Hwf.
Qed.

Lemma hamt_rep_store_root w m l bl :
  hamt_rep w m l bl -> is_heap (root m) = false -> bl = [].
Proof.
  destruct 1 as [Hr0 _|t Hrep Hwf Hroot Hsize]; [done|]. rewrite Hroot. by eapply footprint_store.
Qed.

Lemma hamt_rep_ext w w' m m' l bl :
  hamt_rep w m l bl -> (forall x, x ∈ bl -> heap w' !! x = heap w !! x) ->
  objects w ⊆ objects w' -> end_of w <= end_of w' -> root m' = root m -> size m' = size m ->
  hamt_rep w' m' l bl.
Proof.
  intros [Hr0 Hs0|t Ht Hwf Hroot Hsize] Hh Hob Hsz Hr' Hs'; rewrite <- Hr' in *; rewrite <- Hs' in *.
  - by constructor.
  - apply hamt_rep_tree; try done. by eapply rep_ext.
Qed.

Lemma hamt_clear_spec w m l bl :
  ts_inv (store w) -> hamt_rep w m l bl ->
  wp (hamt_clear m) (fun m' w' => same_others w bl w' [] /\ ts_inv (store w') /\
    root m' = (if is_heap (root m) then 0 else root m)) w.
Proof.
  intros Hs Hrep. unfold hamt_clear. destruct (is_heap (root m)) eqn:Hh.
  - destruct (hamt_rep_heap_root _ _ _ _ Hrep Hh) as (t & li & -> & -> & Ht & Hwf & Hroot & _).
    rewrite Hroot in *. wp_head.
    eapply wp_mono; [apply (clear_node_spec _ 0); try done; by rewrite Z2Nat.id|].
    intros [] w' Hg. wp_head. split_and!; [by apply grown_nil_same_others|apply (g_ext _ _ _ _ _ Hg)|done].
  - wp_head. rewrite (hamt_rep_store_root _ _ _ _ Hrep Hh). split_and!; done.
Qed.

(** ** Persistent maps *)

(** The store holds, under the header block at [pos], a map of the entries [l]; no index
    has been written when [pos] is null. *)
Inductive persisted (s : St) : Z -> list (entry K V) -> Prop :=
  | persisted_none : persisted s 0 []
  | persisted_at pos m l :
      0 < pos -> pos mod 8 = 0 -> pos + 24 <= ts_size s ->
      ts_objects s !! pos = Some (OHeaderBlock (size m) (root m)) -> is_heap (root m) = false ->
      hamt_rep (World ∅ s) m l [] -> persisted s pos l.

(** A persistent map stays where it is as the store grows. *)
Lemma persisted_mono s s' pos l :
  ts_objects s ⊆ ts_objects s' -> ts_size s <= ts_size s' -> persisted s pos l -> persisted s' pos l.
Proof.
  intros Hob Hsz [|p m l' Hpos H8 Hend Ho Hh Hrep]; [constructor|].
  eapply (persisted_at _ _ m); try done; [lia|by eapply lookup_weaken|].
  eapply hamt_rep_ext; done.
Qed.

(** The constructor accepts the header block of a persistent map. *)
Lemma persisted_ctor s pos l rev h :
  ts_readable s -> ts_revision s = Ok rev -> persisted s pos l ->
  exists m, hamt_ctor s pos = Ok m /\ revision m = rev /\ is_heap (root m) = false /\
    hamt_rep (World h s) m l [].
Proof.
  intros Hs Hrev [|p m l' Hpos H8 Hend Ho Hh Hrep]; unfold hamt_ctor; rewrite Hrev; cbn [obind].
  { eexists. split; [done|]. split_and!; try done. by constructor. }
  exists (HamtMap rev (root m) (size m)). split_and!; [|done|done|].
  2:{ eapply hamt_rep_ext; try done. by intros x ?%elem_of_nil. }
  rewrite (proj2 (Z.eqb_neq p 0)), H8 by lia. cbn [Z.eqb obind].
  rewrite (ts_getro_ok _ _ _ _ Hs Ho) by lia. cbn [obind]. rewrite Hh.
  inversion Hrep as [Hr0 Hs0|t Ht Hwf Hroot Hsize Hl Hbl].
  - rewrite Hr0, Hs0. done.
  - pose proof (rep_pos _ _ _ _ Ht). pose proof (wf_length_pos _ _ Hwf). unfold is_empty.
    rewrite Hroot, Hsize in *. rewrite (proj2 (Z.eqb_neq (root_ptr t) 0)), is_internal_leaf by lia.
    rewrite (rep_is_leaf _ _ _ _ Ht), (proj2 (Z.eqb_neq (Z.of_nat _) 0)) by lia.
    rewrite andb_false_r. cbn [orb andb].
    destruct t as [a k v|q bm ts|q ls]; cbn [negb]; [done| |inversion Hwf].
    assert (2 <= length (entries (TNode q bm ts)))%nat by (by inversion Hwf).
    rewrite (proj2 (Z.eqb_neq (Z.of_nat _) 1)) by lia. by rewrite !andb_false_r.
Qed.

(** The number of bytes that a flush may need. *)
Definition flush_room (l : list (entry K V)) (bl : list Z) : Z :=
  536 * Z.of_nat (length bl) + 8 * Z.of_nat (length l) + 32.

(** The nodes are written first. *)
Lemma flush_root_spec w m l bl generation :
  ts_inv (store w) -> hamt_rep w m l bl -> end_of w + flush_room l bl <= ts_limit ->
  wp (if negb (is_address (root m)) then
        massert (is_internal (root m)) ;;;
        r <- internal_flush (Z.to_nat max_internal_depth) (untag_node (root m)) 0 ;;
        heap_delete (untag_node (root m)) ;;;
        ret r
      else ret (root m))
    (fun root' w1 => is_heap root' = false /\
       hamt_rep w1 (HamtMap generation root' (size m)) l [] /\ grown w w1 bl [] [] /\
       end_of w1 + 32 <= end_of w + flush_room l bl) w.
Proof.
  intros Hs Hrep Hroom. unfold flush_room in *. unfold is_address.
  destruct (is_heap (root m)) eqn:Hh; cbn [negb].
  - destruct (hamt_rep_heap_root _ _ _ _ Hrep Hh)
      as (t & li & -> & -> & Ht & Hwf & Hroot & Hli & Hl4 & Hsize & bm & ts & ->).
    pose proof (flush_cost_bound _ _ Hwf). rewrite Hroot. simpl root_ptr. rewrite untag_node_heap by done.
    wp_head. wp_head.
    { pose proof (proj1 (heap_ptr_kind li Hl4)) as Hlf. unfold is_leaf in Hlf. by apply negb_false_iff. }
    wp_head. eapply wp_mono; [apply (internal_flush_spec _ 0); try done; lia|].
    intros r w1 Hpost. wp_head.
    assert (is_Some (heap w1 !! li)) as [n Hn].
    { destruct Hpost as (t' & _ & _ & _ & _ & Hg & _). apply (g_live _ _ _ _ _ Hg). set_solver. }
    eapply wp_heap_delete; [done|]. wp_head. apply flush_post_delete in Hpost.
    destruct Hpost as (t' & -> & [He Hh'] & Hr' & Hw' & Hg & Hsz). split_and!; [done| |done|lia].
    rewrite <- He, <- (footprint_store _ _ _ _ Hr' Hh'). apply hamt_rep_tree; try done. by rewrite He.
  - wp_head. pose proof (hamt_rep_store_root _ _ _ _ Hrep Hh) as ->. split_and!; [done| | |lia].
    + by eapply hamt_rep_ext.
    + by apply grown_refl; [|set_solver].
Qed.

(** [flush] moves the map to the store: every heap block of the map is released, other
    blocks and all objects of the store are kept, and the header block that it writes
    designates a map of the same entries. *)
Definition flushed w l bl (m : hamt_map) generation (r : hamt_map * Z) w' : Prop :=
  let '(m', pos) := r in
  hamt_rep w' m' l [] /\ revision m' = generation /\ size m' = size m /\
  same_others w bl w' [] /\ ext (store w) (store w') /\ persisted (store w') pos l /\
  end_of w' <= end_of w + flush_room l bl.

Lemma hamt_flush_spec w m l bl generation :
  ts_inv (store w) -> hamt_rep w m l bl -> ts_revision (store w) = Ok (revision m) ->
  end_of w + flush_room l bl <= ts_limit ->
  wp (hamt_flush m generation) (flushed w l bl m generation) w.
Proof.
  intros Hs Hrep Hrev Hroom. unfold hamt_flush. wp_head.
  apply wp_with_world. eapply owp_eq; [exact Hrev|]. cbn beta. rewrite Z.eqb_refl. cbn [negb]. wp_head.
  eapply wp_mono; [by apply (flush_root_spec w m l bl generation)|].
  intros root' [h1 s1] (Hh & Hrep1 & Hg & Hroom1). wp_head.
  pose proof (g_ext _ _ _ _ _ Hg) as Hext1. pose proof Hext1 as (Hs1 & _).
  apply (wp_alloc_rw h1 s1 24 3); [done|lia|lia|simpl in *; lia|].
  intros pos s2 Hext2 Hpos Hdiv Hob Hsz. wp_head. pose proof Hext2 as (Hs2 & Hob2 & Hsz2 & _).
  pose proof (ts_size_range _ (ts_inv_readable _ Hs1)). simpl in *.
  assert (forall h, hamt_rep (World h s2) (HamtMap generation root' (size m)) l []) as Hrep2.
  { intros h. eapply hamt_rep_ext; try done. by intros x ?%elem_of_nil. }
  unfold flushed. split_and!; try done.
  - intros x. rewrite <- (grown_nil_same_others _ _ _ Hg x). done.
  - by eapply ext_trans.
  - apply (persisted_at _ _ (HamtMap generation root' (size m))); try done; simpl; try lia.
    + by apply Z.mod_divide.
    + by rewrite Hob, lookup_insert_eq.
  - lia.
Qed.

End flush.
