(* ===== verification/HamtSet.v ===== *)
(** * Sets

    Models include/pstore/core/hamt_set.hpp: a set is a map (HamtMap.v) from its elements to an
    empty class, which is serialized in no bytes; the theorems show that it stands for a finite
    set. *)

From S2P Require Import Prelude StoreIntf HamtTypes HamtMap HamtSpec HamtOps HamtInsert HamtRefine HamtIter HamtFlush.

(** [details::empty_class] *)
Inductive empty_class := mk_empty_class.

(** What the members of a set need: a hash and an equality, and the size of a serialized member;
    [serializer<empty_class>] writes an array without elements *)
Class MemberTraits (K : Type) := {
  mt_hash : K -> Z;
  mt_equal : K -> K -> bool;
  mt_size : K -> Z;
  mt_align : Z
}.

#[export] Instance set_traits {K} `{MemberTraits K} : KeyTraits K empty_class := {|
  kt_hash := mt_hash;
  kt_equal := mt_equal;
  key_size := mt_size;
  key_align := mt_align;
  value_size := fun _ => 0;
  value_align := 0
|}.

Class MemberTraitsLaws (K : Type) `{MemberTraits K} : Prop := {
  mt_hash_range k : 0 <= mt_hash k < 2 ^ 64;
  mt_equal_spec k1 k2 : mt_equal k1 k2 = true <-> k1 = k2;
  mt_size_pos k : 0 < mt_size k;
  mt_align_range : 0 <= mt_align <= 12
}.

#[export] Instance set_traits_laws {K} `{MemberTraitsLaws K} : KeyTraitsLaws K empty_class.
Proof. split; cbn; [apply mt_hash_range|apply mt_equal_spec|apply mt_size_pos|done|apply mt_align_range|done]. Qed.

Section hamt_set.
Context {K St : Type} `{Countable K} `{MT : MemberTraits K}
  {TS : TransactionStore St (obj K empty_class)} {HA : HeapAllocator node}.
Implicit Types w : world St.

(** The iterators of a set are those of the map; [operator*] and [operator++] *)
Definition set_iterator_deref w (it : iterator) : outcome K :=
  kv <-? iterator_deref w it ;; Ok kv.1.
Definition set_iterator_incr w (it : iterator) : outcome iterator := iterator_incr w it.

(** The constructor, [begin], [end], [empty] and [size] *)
Definition set_ctor (s : St) (ip : Z) : outcome hamt_map := hamt_ctor s ip.
Definition set_begin w (m : hamt_map) : outcome iterator := hamt_begin w m.
Definition set_end : iterator := hamt_end.
Definition set_empty (m : hamt_map) : outcome bool := hamt_empty m.

(** [insert], [find], [flush] and [load_leaf_node] *)
Definition set_insert (m : hamt_map) (key : K) : M (world St) (hamt_map * iterator * bool) :=
  insert m (key, mk_empty_class).
Definition set_find w (m : hamt_map) (key : K) : outcome iterator := find w m key.
Definition set_flush (m : hamt_map) (generation : Z) : M (world St) (hamt_map * Z) := hamt_flush m generation.
Definition set_load_leaf_node w (addr : Z) : outcome K :=
  kv <-? load_leaf_node w addr ;; Ok kv.1.

(** A range-based [for] over the set that collects the members *)
Fixpoint set_collect (fuel : nat) w (it : iterator) : outcome (list K) :=
  match fuel with
  | O => Throw OutOfFuel
  | S fuel =>
      if bool_decide (it = set_end) then Ok []
      else
        k <-? set_iterator_deref w it ;;
        it' <-? set_iterator_incr w it ;;
        rest <-? set_collect fuel w it' ;;
        Ok (k :: rest)
  end.

Lemma set_collect_ok fuel w it l : collect fuel w it = Ok l -> set_collect fuel w it = Ok l.*1.
Proof.
  revert it l. induction fuel as [|fuel IH]; intros it l; [done|]. cbn [collect set_collect]. unfold set_end.
  case_bool_decide; [by intros [= <-]|]. unfold set_iterator_deref, set_iterator_incr.
  destruct (iterator_deref w it) as [kv|]; [|done]. cbn [obind].
  destruct (iterator_incr w it) as [it'|]; [|done]. cbn [obind].
  destruct (collect fuel w it') as [rest|] eqn:E; [|done]. cbn [obind]. intros [= <-]. by rewrite (IH it' rest E).
Qed.

(** ** Refinement of finite sets *)

Context {ML : MemberTraitsLaws K} {TL : TransactionStoreLaws St (obj K empty_class)} {HL : HeapAllocatorLaws node}.

Definition to_set (l : list (entry K empty_class)) : gset K := dom (to_map l).

Lemma set_find_ok w m l bl k : ts_readable (store w) -> hamt_rep w m l bl ->
  owp (set_find w m k) (fun it => if bool_decide (k ∈ to_set l) then it <> set_end /\ set_iterator_deref w it = Ok k else it = set_end).
Proof.
  intros Hs Hrep. eapply owp_mono; [apply (find_spec w m l bl k Hs Hrep)|]. cbn beta. intros it Hit. unfold to_set, set_iterator_deref.
  destruct (to_map l !! k) as [v|] eqn:E.
  - rewrite bool_decide_true by (by apply elem_of_dom). destruct Hit as [? ->]. done.
  - rewrite bool_decide_false by (by apply not_elem_of_dom). done.
Qed.

Lemma set_insert_ok k w m l bl : ts_inv (store w) -> leaf_room (store w) (k, mk_empty_class) -> hamt_rep w m l bl ->
  ts_revision (store w) = Ok (revision m) ->
  wp (set_insert m k) (fun r w' => exists l' bl', let '(m', it, ins) := r in
    hamt_rep w' m' l' bl' /\ to_set l' = {[k]} ∪ to_set l /\ ins = negb (bool_decide (k ∈ to_set l)) /\
    set_iterator_deref w' it = Ok k) w.
Proof.
  intros Hs Hroom Hrep Hrev. eapply wp_mono; [apply (insert_or_upsert_spec false _ w m l bl Hs Hroom Hrep Hrev)|]. cbn beta.
  intros [[m' it] ins] w' (l' & bl' & Hrep' & _ & _ & _ & Hins & Hmap & (v & _ & Hit) & _). exists l', bl'.
  rewrite orb_false_r in Hmap. cbn [fst snd] in *.
  assert (ins = negb (bool_decide (k ∈ to_set l))) as Hk.
  { rewrite Hins. unfold to_set. destruct (to_map l !! k) as [x|] eqn:E.
    - rewrite bool_decide_false, bool_decide_true by (done || by apply elem_of_dom). done.
    - rewrite bool_decide_true, bool_decide_false by (done || by apply not_elem_of_dom). done. }
  split_and!; [done| |done|unfold set_iterator_deref; by rewrite Hit].
  unfold to_set in *. rewrite Hmap. destruct ins; [by rewrite dom_insert_L|]. symmetry in Hk. rewrite negb_false_iff, bool_decide_eq_true in Hk. set_solver.
Qed.

(** Iteration visits each member once. *)
Lemma set_iterates w m l bl : ts_readable (store w) -> hamt_rep w m l bl ->
  owp (set_begin w m) (fun it => exists ks, set_collect (S (length l)) w it = Ok ks /\ NoDup ks /\ list_to_set ks = to_set l).
Proof.
  intros Hs Hrep. eapply owp_mono; [apply (iteration_spec w m l bl Hs Hrep)|]. cbn beta. intros it E. apply set_collect_ok in E.
  exists (kvs l).*1. assert ((kvs l).*1 = keys l) as Hk by (unfold kvs, keys; by rewrite <- list_fmap_compose).
  split; [done|]. rewrite Hk. split; [by eapply hamt_rep_nodup|]. unfold to_set, to_map. rewrite dom_list_to_map_L. fold (kvs l). by rewrite Hk.
Qed.
End hamt_set.
