(* ===== verification/Database.v ===== *)
(** * The database

    Models include/pstore/core/database.hpp, lib/core/database.cpp, the parts of
    lib/core/file_header.cpp that read the database, and
    lib/core/generation_iterator.cpp: access to and allocation of store memory, the
    linked list of revisions, synchronisation with the head revision, and opening a
    file. The memory is modelled at the granularity of the objects placed in it; space
    that has been allocated holds no object until one is constructed there. *)

From S2P Require Import Prelude BitCount Checksum Address Region Storage FileHeader StoreIntf HamtTypes HamtMap.

(** [head_revision] *)
Definition head_revision : Z := 2 ^ 32 - 1.

(** What lives in the store: transaction trailers and the objects of clients. *)
Inductive dobj (O : Type) :=
  | DTrailer (t : trailer)
  | DObj (o : O).
Arguments DTrailer {O} _.
Arguments DObj {O} _.

(** ** [database::sizes] *)

Record sizes := Sizes { footer_pos : Z; logical_size : Z }.

Definition sizes_ctor (pos : Z) : sizes := Sizes pos (pos + sizeof_trailer).

Definition update_footer_pos (new_footer_pos : Z) (s : sizes) : outcome sizes :=
  _ <-? oassert (new_footer_pos >=? leader_size) ;;
  Ok (Sizes new_footer_pos (Z.max (logical_size s) (new_footer_pos + sizeof_trailer))).

Definition update_logical_size (new_logical_size : Z) (s : sizes) : outcome sizes :=
  _ <-? oassert (new_logical_size >=? footer_pos s + sizeof_trailer) ;;
  Ok (Sizes (footer_pos s) (Z.max (logical_size s) new_logical_size)).

Definition truncate_logical_size (new_logical_size : Z) (s : sizes) : outcome sizes :=
  _ <-? oassert (new_logical_size >=? footer_pos s + sizeof_trailer) ;;
  Ok (Sizes (footer_pos s) new_logical_size).

(** ** The state *)

(** [db_header] and [db_mem] are the file's contents; the other members are this
    process's view of it. [db_indices] is the cache of open indices. *)
Record database (O : Type) := Database {
  db_storage : storage;
  db_header : header;
  db_mem : gmap Z (dobj O);
  db_size : sizes;
  db_modified : bool;
  db_closed : bool;
  db_indices : list (option hamt_map)
}.
Arguments Database {O} _ _ _ _ _ _ _.
Arguments db_storage {O} _.
Arguments db_header {O} _.
Arguments db_mem {O} _.
Arguments db_size {O} _.
Arguments db_modified {O} _.
Arguments db_closed {O} _.
Arguments db_indices {O} _.

Section database.
Context {O : Type}.
Local Abbreviation DB := (database O).
Implicit Types db : DB.

Definition set_storage (st : storage) db : DB :=
  Database st (db_header db) (db_mem db) (db_size db) (db_modified db) (db_closed db) (db_indices db).
Definition set_header (h : header) db : DB :=
  Database (db_storage db) h (db_mem db) (db_size db) (db_modified db) (db_closed db) (db_indices db).
Definition set_mem (m : gmap Z (dobj O)) db : DB :=
  Database (db_storage db) (db_header db) m (db_size db) (db_modified db) (db_closed db) (db_indices db).
Definition set_size (s : sizes) db : DB :=
  Database (db_storage db) (db_header db) (db_mem db) s (db_modified db) (db_closed db) (db_indices db).
Definition set_modified db : DB :=
  Database (db_storage db) (db_header db) (db_mem db) (db_size db) true (db_closed db) (db_indices db).
Definition set_closed db : DB :=
  Database (db_storage db) (db_header db) (db_mem db) (db_size db) (db_modified db) true (db_indices db).
Definition set_indices (ix : list (option hamt_map)) db : DB :=
  Database (db_storage db) (db_header db) (db_mem db) (db_size db) (db_modified db) (db_closed db) ix.

(** ** Access *)

(** [first_writable_address] *)
Definition first_writable_address db : Z := typed_add sizeof_trailer (h_footer_pos (db_header db)) 1.

(** A pointer into a mapping, or a temporary block with the copies that fill it. *)
Inductive block :=
  | Direct (p : pointer)
  | Spanning (calls : list copy_call).

(** [get_spanning] *)
Definition get_spanning db (addr size : Z) (initialized : bool) : outcome block :=
  if initialized then calls <-? copy (db_storage db) addr size ;; Ok (Spanning calls)
  else Ok (Spanning []).

(** The deleter of a spanning block: copies a writable block back to the store. *)
Definition release_spanning db (addr size : Z) (writable : bool) : outcome (list copy_call) :=
  if writable then
    _ <-? oassert (addr >=? first_writable_address db) ;; copy (db_storage db) addr size
  else Ok [].

(** [get] *)
Definition db_get db (addr size : Z) (initialized writable : bool) : outcome block :=
  if db_closed db then Throw (Raise store_closed)
  else if writable && (addr <? first_writable_address db) then Throw (Raise read_only_address)
  else
    let logical := logical_size (db_size db) in
    if (addr >? logical) || (size >? logical - addr) then Throw (Raise bad_address)
    else if request_spans_regions (db_storage db) addr size then get_spanning db addr size initialized
    else p <-? address_to_pointer (db_storage db) addr ;; Ok (Direct p).

(** [getro]: the object at [addr] *)
Definition db_getro db (addr size : Z) : outcome (dobj O) :=
  _ <-? db_get db addr size true false ;;
  match db_mem db !! addr with
  | Some o => Ok o
  | None => Throw Dangling
  end.

(** [getro (typed_address<trailer>)] *)
Definition getro_trailer db (addr : Z) : outcome trailer :=
  if negb (addr mod 8 =? 0) then Throw (Raise bad_alignment)
  else
    o <-? db_getro db addr sizeof_trailer ;;
    match o with
    | DTrailer t => Ok t
    | DObj _ => Throw Dangling
    end.

(** [get_footer] and [get_current_revision] *)
Definition get_footer db : outcome trailer := getro_trailer db (footer_pos (db_size db)).
Definition get_current_revision db : outcome Z := t <-? get_footer db ;; Ok (generation t).

(** ** Allocation *)

(** Newly allocated space holds no object. *)
Definition forget_from (a : Z) (m : gmap Z (dobj O)) : gmap Z (dobj O) := filter (fun p => p.1 < a) m.

(** [allocate] *)
Definition db_allocate (bytes align : Z) : M DB Z :=
  massert (is_power_of_two align) ;;;
  closed <- gets db_closed ;;
  if closed then throw (Raise store_closed)
  else
    modify set_modified ;;;
    result <- gets (fun db => logical_size (db_size db)) ;;
    pos <- gets (fun db => footer_pos (db_size db)) ;;
    massert (result >=? pos + sizeof_trailer) ;;;
    extra_for_alignment <- lift (calc_alignment result align) ;;
    massert (extra_for_alignment <? align) ;;;
    let new_logical_size := wrap64 (result + bytes + extra_for_alignment) in
    st <- gets db_storage ;;
    st <- lift (map_bytes new_logical_size st) ;;
    modify (set_storage st) ;;;
    sz <- gets db_size ;;
    sz <- lift (update_logical_size new_logical_size sz) ;;
    modify (fun db => set_mem (forget_from result (db_mem db)) (set_size sz db)) ;;;
    ret (result + extra_for_alignment).

(** [truncate] *)
Definition db_truncate (size : Z) : M DB unit :=
  closed <- gets db_closed ;;
  if closed then throw (Raise store_closed)
  else
    modify set_modified ;;;
    st <- gets db_storage ;;
    st <- lift (map_bytes size st) ;;
    modify (set_storage st) ;;;
    sz <- gets db_size ;;
    sz <- lift (truncate_logical_size size sz) ;;
    modify (set_size sz).

(** [set_new_footer] *)
Definition set_new_footer (new_footer_pos : Z) : M DB unit :=
  sz <- gets db_size ;;
  sz <- lift (update_footer_pos new_footer_pos sz) ;;
  modify (set_size sz) ;;;
  modify (fun db => set_header (with_footer_pos new_footer_pos (db_header db)) db).

(** ** Revisions *)

(** [trailer::validate] *)
Definition trailer_validate db (pos : Z) : outcome unit :=
  if pos =? null_address then Ok tt
  else
    ok <-?
      (if (pos <? leader_size) || negb (pos mod 8 =? 0) then Ok false
       else
         footer <-? getro_trailer db pos ;;
         let prev_pos := prev_generation footer in
         if negb (crc_is_valid footer) || negb (signature_is_valid footer) then Ok false
         else
           prev_too_late <-? (if pos >=? sizeof_trailer then
                                before <-? typed_sub sizeof_trailer pos 1 ;; Ok (prev_pos >? before)
                              else Ok false) ;;
           if prev_too_late then Ok false
           else if pos <? tr_size footer then Ok false
           else
             let transaction_first_byte :=
               if prev_pos =? null_address then leader_size else typed_add sizeof_trailer prev_pos 1 in
             start <-? addr_sub pos (tr_size footer) ;;
             Ok (start =? transaction_first_byte)) ;;
    if ok then Ok tt else Throw (Raise footer_corrupt).

(** The loop of [older_revision_footer_pos] *)
Fixpoint revision_loop (fuel : nat) db (revision pos : Z) : outcome Z :=
  match fuel with
  | 0%nat => Throw OutOfFuel
  | S fuel =>
      tail <-? getro_trailer db pos ;;
      if revision >? generation tail then Throw (Raise unknown_revision)
      else if generation tail =? revision then Ok pos
      else
        _ <-? trailer_validate db (prev_generation tail) ;;
        revision_loop fuel db revision (prev_generation tail)
  end.

(** [older_revision_footer_pos]; each iteration moves to an older generation *)
Definition older_revision_footer_pos db (revision : Z) : outcome Z :=
  current <-? get_current_revision db ;;
  if (revision =? head_revision) || (revision >? current) then Throw (Raise unknown_revision)
  else revision_loop (Z.to_nat (current + 1)) db revision (footer_pos (db_size db)).

(** [clear_index_cache]. The cache gives up its references; an index that no client holds any more
    is destroyed with it, and its destructor is [hamt_clear] of HamtMap.v, which frees the nodes it
    still has on the heap. The heap is not part of this state. *)
Definition clear_index_cache db : DB := set_indices (replicate num_indices None) db.

(** The part of [sync] that moves to the head revision *)
Definition sync_head (new_footer_pos : Z) : M DB unit :=
  st <- gets db_storage ;;
  let file_size := file_size (maps st) in
  if new_footer_pos + sizeof_trailer >? file_size then throw (Raise footer_corrupt)
  else
    st <- lift (map_bytes (new_footer_pos + sizeof_trailer) st) ;;
    modify (set_storage st) ;;;
    sz <- gets db_size ;;
    sz <- lift (update_footer_pos new_footer_pos sz) ;;
    modify (set_size sz) ;;;
    db <- get ;;
    lift (trailer_validate db new_footer_pos).

(** The end of [sync] *)
Definition sync_finish (revision pos : Z) : M DB unit :=
  pos <- (if negb (revision =? head_revision) then
            db <- get ;; lift (older_revision_footer_pos db revision)
          else ret pos) ;;
  modify clear_index_cache ;;;
  sz <- gets db_size ;;
  sz <- lift (update_footer_pos pos sz) ;;
  modify (set_size sz).

(** [sync] *)
Definition sync (revision : Z) : M DB unit :=
  pos <- gets (fun db => footer_pos (db_size db)) ;;
  db <- get ;;
  current <- (if revision =? head_revision then ret 0 else lift (get_current_revision db)) ;;
  if negb (revision =? head_revision) && (revision =? current) then ret tt
  else
    let is_newer := (revision =? head_revision) || (revision >? current) in
    massert (is_newer || negb (pos =? null_address)) ;;;
    if is_newer then
      _ <- lift (db_get db 0 sizeof_header true false) ;;
      let new_footer_pos := h_footer_pos (db_header db) in
      if (revision =? head_revision) && (new_footer_pos =? pos) then ret tt
      else
        sync_head new_footer_pos ;;;
        sync_finish revision new_footer_pos
    else sync_finish revision pos.

(** ** Iteration over the revisions *)

(** [generation_iterator::operator++] *)
Definition generation_incr db (pos : Z) : outcome Z :=
  t <-? getro_trailer db pos ;;
  _ <-? trailer_validate db (prev_generation t) ;;
  Ok (prev_generation t).

(** A range-based [for] over a [generation_container] *)
Fixpoint collect_generations (fuel : nat) db (pos : Z) : outcome (list Z) :=
  if pos =? null_address then Ok []
  else
    match fuel with
    | 0%nat => Throw OutOfFuel
    | S fuel =>
        next <-? generation_incr db pos ;;
        rest <-? collect_generations fuel db next ;;
        Ok (pos :: rest)
    end.

(** [generation_container::begin]: the iterator's constructor validates its position *)
Definition generations_begin db : outcome Z :=
  let pos := footer_pos (db_size db) in
  _ <-? trailer_validate db pos ;; Ok pos.

(** ** Opening *)

(** [get_footer_pos]: the checks of a file's header *)
Definition get_footer_pos (h : header) (file_size : Z) : outcome Z :=
  if negb (bool_decide (h_signature1 h = file_signature1)) || negb (h_signature2 h =? file_signature2)
  then Throw (Raise header_corrupt)
  else if negb (h_header_size h =? sizeof_header) || negb ((h_version h).1 =? major_version) ||
          negb ((h_version h).2 =? minor_version)
  then Throw (Raise header_version_mismatch)
  else if negb (header_is_valid h) then Throw (Raise header_corrupt)
  else
    let footer_offset := h_footer_pos h in
    if (footer_offset <? leader_size) || (file_size <? leader_size + sizeof_trailer) ||
       (footer_offset >? file_size - sizeof_trailer)
    then Throw (Raise header_corrupt)
    else Ok footer_offset.

(** [build_new_store]: header, trailer and file size of an empty store *)
Definition build_new_store (uuid : list Z) (now : Z) : header * gmap Z (dobj O) * Z :=
  let h := with_footer_pos leader_size (header_ctor uuid) in
  let t := make_trailer 0 0 now null_address (replicate num_indices null_address) in
  (h, {[leader_size := DTrailer t]}, Z.max (leader_size + sizeof_trailer) min_region_size).

(** The constructor and [finish_init], on a file with the given contents *)
Definition database_open (page_size : Z) (h : header) (m : gmap Z (dobj O)) (file_size : Z) : outcome DB :=
  pos <-? get_footer_pos h file_size ;;
  st <-? storage_ctor file_size ;;
  st <-? update_master_pointers 0 st ;;
  let db := Database st h m (sizes_ctor pos) false false (replicate num_indices None) in
  _ <-? trailer_validate db pos ;;
  st <-? protect page_size sizeof_header (logical_size (db_size db)) st ;;
  Ok (set_storage st db).

(** [close]; the vacuum process is not started in its default mode *)
Definition db_close db : DB := if db_closed db then db else set_closed db.

End database.
