(* ===== verification/DatabaseSpec.v ===== *)
(** * Properties of the database

    [db_ok] is the invariant of an open database: its view lies in the mapped part of the
    file and the segment address table describes the mapping. [chain] says that the
    trailers form the linked list of the revisions, each one accepted by
    [trailer::validate]. Both are kept by the operations of Database.v, every access
    inside the view succeeds, and the revisions are found by walking the list. *)

From S2P Require Import Prelude BitCount Checksum Address Region Storage FileHeader StoreIntf HamtTypes HamtMap Database.

(** The end of the view, the position of its trailer and the end of the mapping *)
Abbreviation view_end db := (logical_size (db_size db)).
Abbreviation view_pos db := (footer_pos (db_size db)).
Abbreviation mapped_end db := (total_size (regions (maps (db_storage db)))).

(** The file covers the mapping and is made of whole regions. *)
Definition file_fits (m : mapped) : Prop :=
  total_size (regions m) <= file_size m <= address_limit /\ (min_region_size | file_size m).

Section database_spec.
Context {O : Type}.
Local Abbreviation DB := (database O).
Implicit Types db : DB.

Record db_ok db : Prop := {
  dk_storage : storage_ok (db_storage db);
  dk_open : db_closed db = false;
  dk_footer : leader_size <= view_pos db;
  dk_logical : view_pos db + sizeof_trailer <= view_end db;
  dk_mapped : view_end db <= mapped_end db;
  dk_file : file_fits (maps (db_storage db));
  dk_last r : last (regions (maps (db_storage db))) = Some r -> rg_offset r <= view_end db;
  dk_mem : map_Forall (fun a _ => leader_size <= a) (db_mem db)
}.

Lemma db_limit db : db_ok db -> view_end db <= address_limit.
Proof. intros Hok. pose proof (so_limit _ (dk_storage _ Hok)). pose proof (dk_mapped _ Hok). lia. Qed.

Lemma db_ok_storage db st' :
  maps st' = maps (db_storage db) -> sat st' = sat (db_storage db) -> db_ok db -> db_ok (set_storage st' db).
Proof.
  intros Hmaps Hsat [Hst ? ? ? ? ? ? ?]. split; cbn in *; rewrite ?Hmaps; try done.
  destruct Hst. split; rewrite ?Hmaps, ?Hsat; done.
Qed.

(** ** Access *)

(** Every block of the view can be read, and written when it is not committed. *)
Lemma db_get_ok db addr size initialized writable :
  db_ok db -> 0 <= addr < view_end db -> 0 <= size -> addr + size <= view_end db ->
  (writable = true -> first_writable_address db <= addr) ->
  exists b, db_get db addr size initialized writable = Ok b.
Proof.
  intros Hok Ha Hs Hend Hw. pose proof (dk_mapped _ Hok). unfold db_get. rewrite (dk_open _ Hok).
  assert (writable && (addr <? first_writable_address db) = false) as ->.
  { destruct writable; [|done]. apply Z.ltb_ge. by apply Hw. }
  rewrite !Z.gtb_ltb, !(proj2 (Z.ltb_ge _ _)) by lia. cbn [orb].
  destruct (request_spans_regions _ _ _) eqn:E.
  - unfold get_spanning. destruct initialized; [|by eexists].
    assert (0 < size). { unfold request_spans_regions in E. destruct (Z.eqb_spec size 0); [done|lia]. }
    destruct (owp_elim _ _ (copy_ok _ addr size (dk_storage _ Hok) ltac:(lia) ltac:(lia) ltac:(lia)))
      as (calls & -> & _). by eexists.
  - destruct (address_to_pointer_ok _ addr (dk_storage _ Hok)) as (r & _ & _ & ->); [lia|]. by eexists.
Qed.

Lemma db_getro_ok db addr size o :
  db_ok db -> db_mem db !! addr = Some o -> addr < view_end db -> 0 <= size -> addr + size <= view_end db ->
  db_getro db addr size = Ok o.
Proof.
  intros Hok Ho Ha Hs Hend. pose proof (dk_mem _ Hok _ _ Ho) as Hl. unfold leader_size in Hl.
  unfold db_getro. destruct (db_get_ok db addr size true false Hok) as [b ->]; [lia|lia|lia|done|].
  cbn [obind]. by rewrite Ho.
Qed.

(** A request that leaves the view is refused. *)
Lemma db_get_outside db addr size initialized :
  db_closed db = false -> 0 <= addr -> 0 <= size -> view_end db < addr + size ->
  db_get db addr size initialized false = Throw (Raise bad_address).
Proof.
  intros Hc Ha Hs Hend. unfold db_get. rewrite Hc. cbn [andb].
  rewrite !Z.gtb_ltb. destruct (Z.ltb_spec (view_end db) addr); [done|].
  by rewrite (proj2 (Z.ltb_lt _ _)) by lia.
Qed.

Lemma getro_trailer_ok db pos t :
  db_ok db -> db_mem db !! pos = Some (DTrailer t) -> pos mod 8 = 0 -> pos + sizeof_trailer <= view_end db ->
  getro_trailer db pos = Ok t.
Proof.
  intros Hok Ht H8 Hend. unfold getro_trailer. rewrite H8. cbn [Z.eqb negb].
  unfold sizeof_trailer in *. rewrite (db_getro_ok db pos 104 (DTrailer t)) by (done || lia). done.
Qed.

(** ** The list of revisions *)

(** Where the transaction that follows the trailer at [prev] starts. *)
Definition next_start (prev : Z) : Z := if prev =? null_address then leader_size else prev + sizeof_trailer.

Record trailer_ok (pos : Z) (t : trailer) (gen : Z) : Prop := {
  tk_aligned : pos mod 8 = 0;
  tk_crc : crc_is_valid t = true;
  tk_signature : signature_is_valid t = true;
  tk_generation : generation t = gen;
  tk_size : 0 <= tr_size t;
  tk_start : pos - tr_size t = next_start (prev_generation t)
}.

(** The trailers from [pos] back to the first one, with generations that count down to zero. *)
Inductive chain (m : gmap Z (dobj O)) : Z -> list (Z * trailer) -> Prop :=
  | chain_nil : chain m null_address []
  | chain_cons pos t l :
      leader_size <= pos -> m !! pos = Some (DTrailer t) -> trailer_ok pos t (Z.of_nat (length l)) ->
      chain m (prev_generation t) l ->
      chain m pos ((pos, t) :: l).

Lemma chain_nonnull m pos l : chain m pos l -> l <> [] -> leader_size <= pos.
Proof. by destruct 1. Qed.

Lemma chain_null m pos : chain m pos [] -> pos = null_address.
Proof. by inversion 1. Qed.

(** Each trailer lies below its successor. *)
Lemma chain_prev m pos t l :
  chain m pos ((pos, t) :: l) -> (l = [] /\ prev_generation t = null_address) \/
  (leader_size <= prev_generation t /\ prev_generation t + sizeof_trailer <= pos).
Proof.
  inversion 1 as [|? ? ? Hl Hm Ht Hc]; subst. destruct l as [|x l].
  - left. split; [done|]. by apply chain_null in Hc.
  - right. pose proof (chain_nonnull _ _ _ Hc ltac:(done)) as Hp. split; [done|].
    pose proof (tk_start _ _ _ Ht) as Hs. pose proof (tk_size _ _ _ Ht). unfold next_start in Hs.
    rewrite (proj2 (Z.eqb_neq _ _)) in Hs by (unfold leader_size, null_address in *; lia). lia.
Qed.

Lemma chain_bound m pos l p t : chain m pos l -> (p, t) ∈ l -> leader_size <= p <= pos.
Proof.
  intros Hc. revert p t. induction Hc as [|pos t l Hl Hm Ht Hc IH]; intros p t' Hin; [by apply elem_of_nil in Hin|].
  apply elem_of_cons in Hin as [[= -> ->]|Hin]; [lia|]. specialize (IH _ _ Hin).
  destruct (chain_prev m pos t l ltac:(by constructor)) as [[-> _]|[? ?]]; [by apply elem_of_nil in Hin|].
  unfold sizeof_trailer in *. lia.
Qed.

(** The list depends on the committed trailers only. *)
Lemma chain_agree m m' pos l :
  chain m pos l ->
  (forall a t, leader_size <= a <= pos -> m !! a = Some (DTrailer t) -> m' !! a = Some (DTrailer t)) ->
  chain m' pos l.
Proof.
  induction 1 as [|pos t l Hl Hm Ht Hc IH]; intros Hag; [constructor|].
  constructor; [done|apply Hag; [lia|done]|done|]. apply IH. intros a t' Ha. apply Hag.
  destruct (chain_prev m pos t l ltac:(by constructor)) as [[_ Hp]|[? ?]]; unfold null_address, leader_size, sizeof_trailer in *; lia.
Qed.

Lemma chain_fun m pos l l' : chain m pos l -> chain m pos l' -> l = l'.
Proof.
  intros Hc. revert l'. induction Hc as [|pos t l Hl Hm Ht Hc IH]; intros l' Hc'.
  - inversion Hc' as [|? ? ? Hl']; [done|]. unfold leader_size, null_address in *. lia.
  - inversion Hc' as [|? t' l0 Hl' Hm' Ht' Hc0]; subst; [unfold leader_size, null_address in *; lia|].
    rewrite Hm in Hm'. injection Hm' as <-. f_equal. by apply IH.
Qed.

(** [trailer::validate] accepts every trailer of the list. *)
Lemma trailer_validate_ok db pos l :
  db_ok db -> chain (db_mem db) pos l -> pos + sizeof_trailer <= view_end db ->
  trailer_validate db pos = Ok tt.
Proof.
  intros Hok Hc Hend. unfold trailer_validate. destruct Hc as [|pos t l Hl Hm Ht Hc].
  { by rewrite Z.eqb_refl. }
  pose proof (db_limit _ Hok) as Hlim. change address_limit with (2 ^ 38) in Hlim.
  pose proof (chain_prev (db_mem db) pos t l ltac:(by constructor)) as Hprev.
  pose proof (tk_start _ _ _ Ht) as Hs. pose proof (tk_size _ _ _ Ht) as Hz.
  unfold null_address, leader_size, sizeof_trailer in *.
  rewrite (proj2 (Z.eqb_neq pos 0)), (proj2 (Z.ltb_ge pos _)), (tk_aligned _ _ _ Ht) by lia. cbn [orb negb Z.eqb].
  rewrite (getro_trailer_ok db pos t) by (done || apply (tk_aligned _ _ _ Ht)). cbn [obind].
  rewrite (tk_crc _ _ _ Ht), (tk_signature _ _ _ Ht). cbn [negb orb].
  assert ((if pos >=? 104 then before <-? typed_sub 104 pos 1 ;; Ok (prev_generation t >? before) else Ok false) = Ok false) as ->.
  { rewrite Z.geb_leb. destruct (Z.leb_spec 104 pos); [|done]. unfold typed_sub, addr_sub.
    change (wrap64 (1 * 104)) with 104. rewrite Z.geb_leb, (proj2 (Z.leb_le 104 pos)) by lia. cbn [oassert obind].
    rewrite Z.gtb_ltb, (proj2 (Z.ltb_ge _ _)); [done|]. lia. }
  cbn [obind]. unfold next_start, null_address, sizeof_trailer in Hs.
  assert ((if prev_generation t =? 0 then 48 + 16 else typed_add 104 (prev_generation t) 1) = pos - tr_size t) as ->.
  { rewrite Hs. destruct (Z.eqb_spec (prev_generation t) 0); [done|]. unfold typed_add.
    change (wrap64 (1 * 104)) with 104. apply wrap_small. lia. }
  assert (pos <? tr_size t = false) as ->.
  { apply Z.ltb_ge. destruct (Z.eqb_spec (prev_generation t) 0); unfold leader_size in Hs; lia. }
  unfold addr_sub. rewrite Z.geb_leb, (proj2 (Z.leb_le _ _)).
  - cbn [oassert obind]. by rewrite Z.eqb_refl.
  - destruct (Z.eqb_spec (prev_generation t) 0); unfold leader_size in Hs; lia.
Qed.

(** *** Walking the list *)

Lemma chain_lookup_gen m pos l i p t :
  chain m pos l -> l !! i = Some (p, t) -> generation t = Z.of_nat (length l) - 1 - Z.of_nat i.
Proof.
  intros Hc. revert i. induction Hc as [|pos t0 l Hl Hm Ht Hc IH]; intros i Hi; [done|].
  destruct i as [|i]; simpl in *.
  - injection Hi as -> ->. rewrite (tk_generation _ _ _ Ht). lia.
  - rewrite (IH _ Hi). lia.
Qed.

Lemma chain_lookup_chain m pos l i p t :
  chain m pos l -> l !! i = Some (p, t) -> chain m p (drop i l).
Proof.
  intros Hc. revert i. induction Hc as [|pos t0 l Hl Hm Ht Hc IH]; intros i Hi; [done|].
  destruct i as [|i]; simpl in *; [injection Hi as -> ->; by constructor|by apply IH].
Qed.

Lemma revision_loop_found fuel db pos l revision :
  db_ok db -> chain (db_mem db) pos l -> pos + sizeof_trailer <= view_end db ->
  (length l <= fuel)%nat -> 0 <= revision < Z.of_nat (length l) ->
  exists p t, l !! Z.to_nat (Z.of_nat (length l) - 1 - revision) = Some (p, t) /\
    generation t = revision /\ revision_loop fuel db revision pos = Ok p.
Proof.
  intros Hok Hc. revert fuel. induction Hc as [|pos t l Hl Hm Ht Hc IH]; intros fuel Hend Hf Hr; [simpl in Hr; lia|].
  destruct fuel as [|fuel]; [simpl in Hf; lia|]. cbn [revision_loop].
  rewrite (getro_trailer_ok db pos t) by (done || apply (tk_aligned _ _ _ Ht)). cbn [obind].
  rewrite (tk_generation _ _ _ Ht), Z.gtb_ltb. simpl length in *.
  rewrite (proj2 (Z.ltb_ge _ _)) by lia.
  destruct (Z.eqb_spec (Z.of_nat (length l)) revision) as [Heq|Hne].
  { exists pos, t. split_and!; [|by rewrite (tk_generation _ _ _ Ht)|done].
    replace (Z.to_nat _) with 0%nat by lia. done. }
  assert (prev_generation t + sizeof_trailer <= view_end db) as Hend'.
  { destruct (chain_prev (db_mem db) pos t l ltac:(by constructor)) as [[-> _]|[? ?]]; [simpl in *; lia|].
    unfold leader_size, sizeof_trailer in *. lia. }
  rewrite (trailer_validate_ok db _ l Hok Hc) by done. cbn [obind].
  destruct (IH fuel) as (p & t' & Hi & Hg & Hrun); [done|lia|lia|]. exists p, t'. split_and!; [|done|done].
  replace (Z.to_nat (Z.of_nat (S (length l)) - 1 - revision))
    with (S (Z.to_nat (Z.of_nat (length l) - 1 - revision))) by lia. done.
Qed.

Lemma get_footer_ok db t l :
  db_ok db -> chain (db_mem db) (view_pos db) ((view_pos db, t) :: l) -> get_footer db = Ok t.
Proof.
  intros Hok Hc. inversion Hc as [|? ? ? Hl Hm Ht _]; subst.
  apply getro_trailer_ok; [done|done|apply (tk_aligned _ _ _ Ht)|apply (dk_logical _ Hok)].
Qed.

Lemma get_current_revision_ok db l :
  db_ok db -> chain (db_mem db) (view_pos db) l ->
  get_current_revision db = Ok (Z.of_nat (length l) - 1) /\ (0 < length l)%nat.
Proof.
  intros Hok Hc. inversion Hc as [Hp|pos t l' Hl Hm Ht Hc' Hp]; subst.
  { pose proof (dk_footer _ Hok) as Hf. rewrite <- Hp in Hf. unfold leader_size, null_address in Hf. lia. }
  unfold get_current_revision. rewrite (get_footer_ok db t l') by done. cbn [obind].
  rewrite (tk_generation _ _ _ Ht). split; [f_equal|]; simpl; lia.
Qed.

(** Every revision up to the current one is found, and no other. *)
Lemma older_revision_spec db l revision :
  db_ok db -> chain (db_mem db) (view_pos db) l -> Z.of_nat (length l) <= head_revision -> 0 <= revision ->
  if decide (revision < Z.of_nat (length l)) then
    exists p t, l !! Z.to_nat (Z.of_nat (length l) - 1 - revision) = Some (p, t) /\
      generation t = revision /\ older_revision_footer_pos db revision = Ok p
  else older_revision_footer_pos db revision = Throw (Raise unknown_revision).
Proof.
  intros Hok Hc Hlen Hr. destruct (get_current_revision_ok db l Hok Hc) as [Hcur Hpos].
  unfold older_revision_footer_pos. rewrite Hcur. cbn [obind]. case_decide as Hlt.
  - rewrite (proj2 (Z.eqb_neq revision head_revision)), Z.gtb_ltb, (proj2 (Z.ltb_ge _ _)) by lia. cbn [orb].
    apply revision_loop_found; [done|done|apply (dk_logical _ Hok)|lia|lia].
  - rewrite (proj2 (Z.gtb_lt _ _)), orb_true_r by lia. done.
Qed.

(** A generation iterator visits every revision, newest first. *)
Lemma collect_generations_ok fuel db pos l :
  db_ok db -> chain (db_mem db) pos l -> (pos = null_address \/ pos + sizeof_trailer <= view_end db) ->
  (length l <= fuel)%nat -> collect_generations fuel db pos = Ok l.*1.
Proof.
  intros Hok Hc. revert fuel. induction Hc as [|pos t l Hl Hm Ht Hc IH]; intros fuel Hend Hf.
  { by destruct fuel. }
  destruct fuel as [|fuel]; [simpl in Hf; lia|]. cbn [collect_generations].
  unfold leader_size, null_address in *. rewrite (proj2 (Z.eqb_neq pos 0)) by lia.
  destruct Hend as [?|Hend]; [lia|]. unfold generation_incr.
  rewrite (getro_trailer_ok db pos t) by (done || apply (tk_aligned _ _ _ Ht)). cbn [obind].
  assert (prev_generation t + sizeof_trailer <= view_end db) as Hend'.
  { destruct (chain_prev (db_mem db) pos t l ltac:(by constructor)) as [[-> Hp]|[? ?]];
      unfold null_address, leader_size, sizeof_trailer in *; lia. }
  rewrite (trailer_validate_ok db _ l Hok Hc) by done. cbn [obind].
  rewrite IH by (auto || simpl in Hf; lia). done.
Qed.

Lemma generations_ok db l :
  db_ok db -> chain (db_mem db) (view_pos db) l ->
  (pos <-? generations_begin db ;; collect_generations (length l) db pos) = Ok l.*1.
Proof.
  intros Hok Hc. unfold generations_begin. pose proof (dk_logical _ Hok).
  rewrite (trailer_validate_ok db _ l) by done. cbn [obind]. apply collect_generations_ok; auto.
Qed.

(** ** Allocation *)

Lemma lookup_forget_from a m i : forget_from (O := O) a m !! i = if decide (i < a) then m !! i else None.
Proof.
  unfold forget_from. rewrite map_lookup_filter. destruct (m !! i) as [o|]; simpl.
  - case_decide as H1; case_guard as H2; simpl in *; done || lia.
  - by case_decide.
Qed.

Lemma forget_from_subseteq a m : forget_from (O := O) a m ⊆ m.
Proof. apply map_filter_subseteq. Qed.

(** Mapping a view that does not end before the last region keeps every region. *)
Lemma map_bytes_ok st new_size :
  storage_ok st -> new_size <= address_limit -> file_fits (maps st) ->
  (forall r, last (regions (maps st)) = Some r -> rg_offset r <= new_size) ->
  exists st', map_bytes new_size st = Ok st' /\ storage_ok st' /\
    new_size <= total_size (regions (maps st')) /\ total_size (regions (maps st)) <= total_size (regions (maps st')) /\
    file_fits (maps st') /\
    protected st' = protected st /\ (forall r, last (regions (maps st')) = Some r -> rg_offset r <= new_size).
Proof.
  intros Hok Hlim Hfile Hlast. destruct (decide (total_size (regions (maps st)) < new_size)) as [Hgrow|Hsame].
  - destruct (map_bytes_grow st new_size Hok) as (st' & E & Hok' & Ht & Hp & _ & Hl & Hf); [lia|].
    assert (Forall (fun r => 0 < rg_size r) (regions (maps st))) as Hpos by (by apply sizes_pos, so_regions).
    pose proof (total_size_nonneg _ Hpos). change address_limit with (2 ^ 38) in *.
    destruct (round_up_ok new_size min_region_size) as [Hr Hd]; [done|lia|change min_region_size with (2 ^ 22); lia|].
    pose proof (so_limit _ Hok') as Hlim'. rewrite <- Hf in Ht, Hd.
    exists st'. split_and!; try done; try lia. split; [lia|done].
  - exists st. split_and!; try done; try lia. by apply map_bytes_same; [|lia|].
Qed.

(** What an allocation leaves: the view ends with the new block and the memory below the
    old end of the view is kept. *)
Record allocated db (bytes k addr : Z) db' : Prop := {
  al_addr : addr = view_end db + (- view_end db) mod 2 ^ k;
  al_ok : db_ok db';
  al_pos : view_pos db' = view_pos db;
  al_end : view_end db' = addr + bytes;
  al_header : db_header db' = db_header db;
  al_mem : db_mem db' = forget_from (view_end db) (db_mem db);
  al_indices : db_indices db' = db_indices db;
  al_protected : protected (db_storage db') = protected (db_storage db)
}.

Lemma db_allocate_spec db bytes k :
  db_ok db -> 0 <= bytes -> 0 <= k <= 12 -> view_end db + 2 ^ k + bytes <= address_limit ->
  wp (db_allocate bytes (2 ^ k)) (allocated db bytes k) db.
Proof.
  intros Hok Hb Hk Hroom. unfold db_allocate. pose proof (dk_logical _ Hok) as Hlog.
  pose proof (dk_footer _ Hok) as Hfoot. unfold sizeof_trailer, leader_size in Hlog, Hfoot.
  assert (0 < 2 ^ k) by (apply Z.pow_pos_nonneg; lia).
  assert (2 ^ k <= 2 ^ 12) by (apply Z.pow_le_mono_r; lia). change (2 ^ 12) with 4096 in *.
  pose proof (Z.mod_pos_bound (- view_end db) (2 ^ k) ltac:(lia)) as Hpad.
  change address_limit with 274877906944 in Hroom.
  wp_head. wp_head; [by apply is_power_of_two_spec; exists k; lia|]. wp_head. wp_head. rewrite (dk_open _ Hok).
  wp_head. wp_head. wp_head. wp_head. wp_head. wp_head. wp_head. wp_head.
  { cbn. unfold sizeof_trailer. rewrite Z.geb_leb. apply Z.leb_le. lia. }
  cbn [set_modified db_size]. wp_head. wp_head. eapply owp_eq; [apply calc_alignment_ok; lia|].
  wp_head. wp_head; [apply Z.ltb_lt; lia|]. wp_head. wp_head. wp_head. wp_head. cbn [set_modified db_storage].
  rewrite wrap_small by lia. set (n := view_end db + bytes + (- view_end db) mod 2 ^ k).
  destruct (map_bytes_ok (db_storage db) n (dk_storage _ Hok)) as (st' & E & Hok' & Hn & Hm & Hfile & Hp & Hl).
  { change address_limit with 274877906944. lia. }
  { apply (dk_file _ Hok). }
  { intros r Hr. pose proof (dk_last _ Hok r Hr). lia. }
  eapply owp_eq; [exact E|]. wp_head. wp_head. wp_head. wp_head. wp_head. wp_head. unfold update_logical_size.
  wp_head. wp_head; [cbn; unfold sizeof_trailer; rewrite Z.geb_leb; apply Z.leb_le; lia|].
  wp_head. wp_head. wp_head. wp_head. cbn. rewrite Z.max_r by lia.
  split; try done; cbn; [|unfold n; lia]. split; cbn; try done.
  - apply (dk_open _ Hok).
  - unfold sizeof_trailer. lia.
  - intros a o Ho. eapply (dk_mem _ Hok). by eapply lookup_weaken; [|apply forget_from_subseteq].
Qed.

(** A closed database allocates nothing. *)
Lemma db_allocate_closed db bytes align :
  is_power_of_two align = true -> db_closed db = true ->
  db_allocate bytes align db = (Throw (Raise store_closed), db).
Proof. intros Hp Hc. unfold db_allocate. rewrite bind_massert_true by done. rewrite bind_gets, Hc. done. Qed.

(** Truncation, as far as no region has to be given up. *)
Lemma db_truncate_spec db n :
  db_ok db -> view_pos db + sizeof_trailer <= n <= view_end db ->
  (forall r, last (regions (maps (db_storage db))) = Some r -> rg_offset r <= n) ->
  wp (db_truncate n) (fun _ db' => db' = set_size (Sizes (view_pos db) n) (set_modified db) /\ db_ok db') db.
Proof.
  intros Hok Hn Hlast. unfold db_truncate. wp_head. wp_head. rewrite (dk_open _ Hok).
  wp_head. wp_head. wp_head. wp_head. wp_head. wp_head. pose proof (dk_mapped _ Hok).
  eapply owp_eq; [apply map_bytes_same; [apply Hok|cbn; lia|done]|].
  wp_head. wp_head. wp_head. wp_head. wp_head. wp_head. unfold truncate_logical_size.
  wp_head. wp_head; [cbn; rewrite Z.geb_leb; apply Z.leb_le; lia|]. wp_head. wp_head. cbn.
  destruct Hok. split; [by destruct db|]. split; cbn; try done; lia.
Qed.

(** What truncation does to the storage: the regions that begin beyond the new size are unmapped, the table keeps their entries. *)
Record storage_shrunk (n : Z) (st st' : storage) : Prop := {
  ss_discarded : exists discarded, regions (maps st) = regions (maps st') ++ discarded /\
    Forall (fun r => n < rg_offset r) discarded;
  ss_last r : last (regions (maps st')) = Some r -> rg_offset r <= n;
  ss_mapped : n <= total_size (regions (maps st'));
  ss_file : file_size (maps st') = file_size (maps st);
  ss_next : next_data (maps st') = next_data (maps st);
  ss_table : sat st' = sat st;
  ss_protected : protected st' = protected st
}.

Lemma storage_shrunk_same n st : n <= total_size (regions (maps st)) ->
  (forall r, last (regions (maps st)) = Some r -> rg_offset r <= n) -> storage_shrunk n st st.
Proof. intros Hn Hl. split; try done. exists []. by rewrite app_nil_r. Qed.

Lemma map_bytes_shrinks st n : storage_ok st -> n <= total_size (regions (maps st)) ->
  exists st', map_bytes n st = Ok st' /\ storage_shrunk n st st'.
Proof.
  intros Hok Hn. unfold map_bytes. rewrite (old_size_eq st Hok). rewrite Z.gtb_ltb, (proj2 (Z.ltb_ge _ _)) by lia.
  destruct (Z.ltb_spec n (total_size (regions (maps st)))) as [Hlt|Hge].
  - eexists. split; [done|]. destruct (shrink_regions_spec (regions (maps st)) n) as (d & E & Hd & Hl).
    split; try done; cbn; [by exists d|]. eapply shrink_mapped; [apply (so_regions _ Hok)|exact E|done|lia].
  - exists st. split; [done|]. apply storage_shrunk_same; [done|]. intros r Hr.
    pose proof (storage_offset_lt st r Hok Hr). change min_region_size with (2 ^ 22) in *. lia.
Qed.

Lemma db_truncate_any db n :
  db_ok db -> view_pos db + sizeof_trailer <= n <= view_end db ->
  wp (db_truncate n) (fun _ db' => exists st', storage_shrunk n (db_storage db) st' /\
    db' = set_size (Sizes (view_pos db) n) (set_storage st' (set_modified db))) db.
Proof.
  intros Hok Hn. unfold db_truncate. wp_head. wp_head. rewrite (dk_open _ Hok).
  wp_head. wp_head. wp_head. wp_head. wp_head. wp_head. pose proof (dk_mapped _ Hok) as Hm. cbn in Hm.
  destruct (map_bytes_shrinks (db_storage db) n (dk_storage _ Hok)) as (st' & E & Hs); [cbn in *; lia|]. eapply owp_eq; [exact E|].
  wp_head. wp_head. wp_head. wp_head. wp_head. wp_head. unfold truncate_logical_size.
  wp_head. wp_head; [cbn; rewrite Z.geb_leb; apply Z.leb_le; lia|]. wp_head. wp_head. cbn. exists st'. split; [done|]. by destruct db.
Qed.

Lemma set_new_footer_spec db p :
  db_ok db -> leader_size <= p -> p + sizeof_trailer <= view_end db ->
  wp (set_new_footer p) (fun _ db' => db_ok db' /\
    db' = set_header (with_footer_pos p (db_header db)) (set_size (Sizes p (view_end db)) db)) db.
Proof.
  intros Hok Hl Hp. unfold set_new_footer, update_footer_pos. wp_head. wp_head. wp_head. wp_head.
  wp_head. wp_head; [rewrite Z.geb_leb; by apply Z.leb_le|]. wp_head. wp_head. wp_head. wp_head.
  cbn [db_size set_size]. rewrite Z.max_l by lia. split; [|by destruct db]. destruct Hok. split; cbn; try done; lia.
Qed.

(** ** Synchronisation *)

(** The view has moved to the trailer at [p] of the same file. *)
Record synced db (p : Z) db' : Prop := {
  sy_ok : db_ok db';
  sy_pos : view_pos db' = p;
  sy_end : view_end db <= view_end db' <= Z.max (view_end db) (h_footer_pos (db_header db) + sizeof_trailer);
  sy_header : db_header db' = db_header db;
  sy_mem : db_mem db' = db_mem db;
  sy_indices : db_indices db' = if decide (p = view_pos db) then db_indices db else replicate num_indices None;
  sy_protected : protected (db_storage db') = protected (db_storage db)
}.

Lemma sync_head_spec db l p :
  db_ok db -> chain (db_mem db) p l -> leader_size <= p -> view_end db <= p + sizeof_trailer ->
  p + sizeof_trailer <= address_limit -> p + sizeof_trailer <= file_size (maps (db_storage db)) ->
  wp (sync_head p) (fun _ db' => db_ok db' /\ view_pos db' = p /\ view_end db' = p + sizeof_trailer /\
    db_header db' = db_header db /\ db_mem db' = db_mem db /\ protected (db_storage db') = protected (db_storage db)) db.
Proof.
  intros Hok Hc Hl Hend Hlim Hfs. unfold sync_head. wp_head. wp_head.
  rewrite Z.gtb_ltb, (proj2 (Z.ltb_ge _ _)) by lia.
  destruct (map_bytes_ok (db_storage db) (p + sizeof_trailer) (dk_storage _ Hok)) as (st' & E & Hok' & Hn & Hm & Hfile & Hp & Hlast).
  { done. }
  { apply (dk_file _ Hok). }
  { intros r Hr. pose proof (dk_last _ Hok r Hr). lia. }
  wp_head. wp_head. eapply owp_eq; [exact E|]. wp_head. wp_head. wp_head. wp_head. wp_head. wp_head.
  unfold update_footer_pos. wp_head. wp_head; [rewrite Z.geb_leb; by apply Z.leb_le|]. wp_head.
  wp_head. wp_head. wp_head. unfold get. eapply wp_eq; [reflexivity|]. wp_head. cbn [db_size set_storage].
  rewrite Z.max_r by lia.
  assert (db_ok (set_size (Sizes p (p + sizeof_trailer)) (set_storage st' db))) as Hok2.
  { destruct Hok. split; cbn; try done; lia. }
  eapply owp_eq; [by apply (trailer_validate_ok _ p l Hok2); cbn; [|lia]|]. cbn. split_and!; done.
Qed.

Lemma sync_finish_spec db l revision :
  db_ok db -> chain (db_mem db) (view_pos db) l -> Z.of_nat (length l) <= head_revision ->
  0 <= revision < Z.of_nat (length l) ->
  exists p t, l !! Z.to_nat (Z.of_nat (length l) - 1 - revision) = Some (p, t) /\
  forall pos, wp (sync_finish revision pos) (fun _ db' =>
    db' = set_size (Sizes p (view_end db)) (clear_index_cache db) /\ db_ok db') db.
Proof.
  intros Hok Hc Hlen Hr. pose proof (older_revision_spec db l revision Hok Hc Hlen ltac:(lia)) as Hspec.
  rewrite decide_True in Hspec by lia. destruct Hspec as (p & t & Hi & Hg & Hrun).
  exists p, t. split; [done|]. intros pos. unfold sync_finish. wp_head.
  rewrite (proj2 (Z.eqb_neq revision head_revision)) by lia. cbn [negb].
  wp_head. unfold get. eapply wp_eq; [reflexivity|]. wp_head. eapply owp_eq; [exact Hrun|].
  pose proof (chain_bound _ _ _ _ _ Hc (list_elem_of_lookup_2 _ _ _ Hi)) as Hb.
  pose proof (dk_logical _ Hok). unfold sizeof_trailer in *.
  wp_head. wp_head. wp_head. wp_head. wp_head. wp_head. unfold update_footer_pos. wp_head.
  wp_head; [rewrite Z.geb_leb; apply Z.leb_le; lia|]. wp_head. wp_head.
  cbn [db_size clear_index_cache set_indices]. unfold sizeof_trailer. rewrite Z.max_l by lia. split; [done|].
  destruct Hok. split; cbn; try done; unfold sizeof_trailer; lia.
Qed.

(** A view of a file: the view's trailer is one of the file's revisions [l], and nothing is
    allocated past the newest. *)
Record view_ok db (l : list (Z * trailer)) : Prop := {
  vk_ok : db_ok db;
  vk_chain : chain (db_mem db) (h_footer_pos (db_header db)) l;
  vk_length : Z.of_nat (length l) <= head_revision;
  vk_pos : exists i t, l !! i = Some (view_pos db, t);
  vk_end : view_end db <= h_footer_pos (db_header db) + sizeof_trailer;
  vk_limit : h_footer_pos (db_header db) + sizeof_trailer <= address_limit;
  vk_file : h_footer_pos (db_header db) + sizeof_trailer <= file_size (maps (db_storage db))
}.

(** The number of the revision that a call of [sync] asks for. *)
Definition revision_of (l : list (Z * trailer)) (revision : Z) : Z :=
  if revision =? head_revision then Z.of_nat (length l) - 1 else revision.

Lemma chain_positions_inj m pos l i j p ti tj :
  chain m pos l -> l !! i = Some (p, ti) -> l !! j = Some (p, tj) -> i = j.
Proof.
  intros Hc Hi Hj. pose proof (chain_lookup_chain _ _ _ _ _ _ Hc Hi) as Hci.
  pose proof (chain_lookup_chain _ _ _ _ _ _ Hc Hj) as Hcj.
  pose proof (f_equal length (chain_fun _ _ _ _ Hci Hcj)) as Hlen. rewrite !length_drop in Hlen.
  apply lookup_lt_Some in Hi, Hj. lia.
Qed.

Section sync.
Context db (l : list (Z * trailer)) (Hv : view_ok db l).
Local Abbreviation head_pos := (h_footer_pos (db_header db)).

Local Lemma view_chain : exists i t, l !! i = Some (view_pos db, t) /\
  chain (db_mem db) (view_pos db) (drop i l) /\ (i < length l)%nat /\
  get_current_revision db = Ok (Z.of_nat (length l) - 1 - Z.of_nat i).
Proof.
  destruct (vk_pos _ _ Hv) as (i & t & Hi). pose proof (lookup_lt_Some _ _ _ Hi) as Hlt.
  pose proof (chain_lookup_chain _ _ _ _ _ _ (vk_chain _ _ Hv) Hi) as Hc. exists i, t. split_and!; try done.
  destruct (get_current_revision_ok db _ (vk_ok _ _ Hv) Hc) as [-> _]. rewrite length_drop. f_equal. lia.
Qed.

Local Lemma head_entry : exists t, l !! 0%nat = Some (head_pos, t) /\ leader_size <= head_pos.
Proof.
  destruct view_chain as (i & ti & _ & _ & Hlt & _). pose proof (vk_chain _ _ Hv) as Hc.
  inversion Hc as [Hp|pos t l' Hl Hm Ht Hc' Hp]; subst; [simpl in Hlt; lia|]. by exists t.
Qed.

Local Lemma read_header : exists b, db_get db 0 sizeof_header true false = Ok b.
Proof.
  pose proof (vk_ok _ _ Hv) as Hok. pose proof (dk_logical _ Hok). pose proof (dk_footer _ Hok).
  unfold sizeof_trailer, leader_size, sizeof_header in *. apply db_get_ok; [done|lia|lia|lia|done].
Qed.

Local Lemma move_to_head :
  wp (sync_head head_pos) (fun _ db' => db_ok db' /\ view_pos db' = head_pos /\
    view_end db' = head_pos + sizeof_trailer /\ db_header db' = db_header db /\ db_mem db' = db_mem db /\
    protected (db_storage db') = protected (db_storage db)) db.
Proof.
  destruct head_entry as (t & _ & Hl). destruct Hv. by eapply sync_head_spec.
Qed.

Local Lemma sync_head_revision : wp (sync head_revision) (fun _ => synced db head_pos) db.
Proof.
  pose proof (vk_ok _ _ Hv) as Hok. destruct head_entry as (t & _ & Hl). destruct read_header as [b Hb].
  unfold sync. wp_head. wp_head. wp_head. unfold get. eapply wp_eq; [reflexivity|]. wp_head.
  rewrite Z.eqb_refl. wp_head. cbn [negb andb orb]. wp_head. wp_head; [done|].
  wp_head. wp_head. eapply owp_eq; [exact Hb|]. cbn beta.
  destruct (Z.eqb_spec head_pos (view_pos db)) as [Heq|Hne].
  - wp_head. rewrite Heq. split; try done; [lia|]. by rewrite decide_True.
  - wp_head. eapply wp_mono; [apply move_to_head|]. intros [] db1 (Hok1 & Hp & He & Hh & Hm & Hpr).
    unfold sync_finish. rewrite Z.eqb_refl. cbn [negb]. wp_head. wp_head. wp_head. wp_head. wp_head. wp_head.
    wp_head. wp_head. unfold update_footer_pos. wp_head. wp_head; [rewrite Z.geb_leb; by apply Z.leb_le|].
    wp_head. wp_head. cbn. pose proof (vk_end _ _ Hv). rewrite He, Z.max_id.
    split; cbn; try done; [|lia|by rewrite decide_False].
    destruct Hok1. split; cbn; try done; try lia; rewrite <- He; done.
Qed.

(** The steps of [sync] for a numbered revision other than the current one. *)
Local Lemma sync_numbered revision current Q :
  revision <> head_revision -> get_current_revision db = Ok current -> revision <> current ->
  wp (if revision >? current then sync_head head_pos ;;; sync_finish revision head_pos
      else sync_finish revision (view_pos db)) Q db ->
  wp (sync revision) Q db.
Proof.
  intros Hne Hcur Hmove Hwp. destruct read_header as [b Hb]. pose proof (dk_footer _ (vk_ok _ _ Hv)).
  unfold sync. wp_head. wp_head. wp_head. unfold get. eapply wp_eq; [reflexivity|]. wp_head.
  rewrite (proj2 (Z.eqb_neq revision head_revision)) by done. wp_head. eapply owp_eq; [exact Hcur|].
  cbn beta. rewrite (proj2 (Z.eqb_neq _ _) Hmove). cbn [negb andb orb]. unfold leader_size in *.
  wp_head. wp_head; [by rewrite (proj2 (Z.eqb_neq (view_pos db) null_address)), orb_true_r by (unfold null_address; lia)|].
  cbn beta. destruct (revision >? current); [|done].
  wp_head. wp_head. eapply owp_eq; [exact Hb|]. done.
Qed.

(** Every revision of the file can be reached from every other. *)
Lemma sync_spec revision :
  revision = head_revision \/ 0 <= revision < Z.of_nat (length l) ->
  exists p t, l !! Z.to_nat (Z.of_nat (length l) - 1 - revision_of l revision) = Some (p, t) /\
    wp (sync revision) (fun _ => synced db p) db.
Proof.
  intros Hrev. pose proof (vk_ok _ _ Hv) as Hok. pose proof (vk_length _ _ Hv) as Hlen. unfold revision_of.
  destruct (Z.eqb_spec revision head_revision) as [->|Hne].
  { destruct head_entry as (t & Ht & _). exists head_pos, t. split; [|apply sync_head_revision].
    by replace (Z.to_nat _) with 0%nat by lia. }
  destruct Hrev as [|Hrev]; [done|]. destruct view_chain as (i & ti & Hi & Hci & Hlt & Hcur).
  destruct (Z.eqb_spec revision (Z.of_nat (length l) - 1 - Z.of_nat i)) as [Heq|Hmove].
  { exists (view_pos db), ti. split; [by replace (Z.to_nat _) with i by lia|].
    unfold sync. wp_head. wp_head. wp_head. unfold get. eapply wp_eq; [reflexivity|]. wp_head.
    rewrite (proj2 (Z.eqb_neq revision head_revision)) by done. wp_head. eapply owp_eq; [exact Hcur|].
    cbn beta. rewrite (proj2 (Z.eqb_eq _ _) Heq). cbn [negb andb]. wp_head. split; try done; [lia|]. by rewrite decide_True. }
  assert (forall p t, l !! Z.to_nat (Z.of_nat (length l) - 1 - revision) = Some (p, t) -> p <> view_pos db) as Hpne.
  { intros p t Hp ->. pose proof (chain_positions_inj _ _ _ _ _ _ _ _ (vk_chain _ _ Hv) Hi Hp). lia. }
  destruct (Z.ltb_spec (Z.of_nat (length l) - 1 - Z.of_nat i) revision) as [Hnew|Hold].
  - destruct (wp_elim _ _ _ move_to_head) as ([] & db1 & Hrun & Hok1 & Hp & He & Hh & Hm & Hpr).
    destruct (sync_finish_spec db1 l revision Hok1) as (p & t & Hl & Hfin); [rewrite Hm, Hp; apply Hv|done|done|].
    exists p, t. split; [done|]. eapply sync_numbered; [done..|].
    rewrite (proj2 (Z.gtb_lt _ _)) by lia. wp_head.
    eapply wp_eq; [exact Hrun|]. cbn beta. eapply wp_mono; [apply Hfin|]. intros [] db' [-> Hok'].
    pose proof (vk_end _ _ Hv). split; cbn; try done; [lia|]. rewrite decide_False; [done|]. by eapply Hpne.
  - destruct (sync_finish_spec db (drop i l) revision Hok) as (p & t & Hl & Hfin); [done|rewrite length_drop; lia..|].
    rewrite length_drop, lookup_drop in Hl.
    replace (i + _)%nat with (Z.to_nat (Z.of_nat (length l) - 1 - revision)) in Hl by lia.
    exists p, t. split; [done|]. eapply sync_numbered; [done..|].
    rewrite Z.gtb_ltb, (proj2 (Z.ltb_ge _ _)) by lia.
    eapply wp_mono; [apply Hfin|]. intros [] db' [-> Hok'].
    split; cbn; try done; [lia|]. rewrite decide_False; [done|]. by eapply Hpne.
Qed.

(** A revision that does not exist is refused. *)
Lemma sync_unknown revision :
  Z.of_nat (length l) <= revision < head_revision ->
  (sync revision db).1 = Throw (Raise unknown_revision).
Proof.
  intros Hrev. destruct view_chain as (i & ti & Hi & Hci & Hlt & Hcur). destruct read_header as [b Hb].
  destruct (wp_elim _ _ _ move_to_head) as ([] & db1 & Hrun & Hok1 & Hp & He & Hh & Hm & Hpr).
  unfold sync. rewrite bind_gets. erewrite bind_ok by done.
  rewrite (proj2 (Z.eqb_neq revision head_revision)) by lia. rewrite (bind_lift_ok _ _ _ _ Hcur).
  rewrite (proj2 (Z.eqb_neq revision _)), (proj2 (Z.gtb_lt revision _)) by lia. cbn [negb andb orb].
  rewrite bind_massert_true, (bind_lift_ok _ _ _ _ Hb) by done.
  rewrite (bind_ok _ _ _ _ _ Hrun). unfold sync_finish.
  pose proof (older_revision_spec db1 l revision Hok1) as Hspec. rewrite Hm, Hp in Hspec.
  specialize (Hspec (vk_chain _ _ Hv) (vk_length _ _ Hv) ltac:(lia)). rewrite decide_False in Hspec by lia.
  rewrite (proj2 (Z.eqb_neq revision head_revision)) by lia. cbn [negb].
  unfold bind, get, lift. by rewrite Hspec.
Qed.

End sync.

(** ** Opening a file *)

(** A file whose header designates a list of revisions. *)
Record file_ok (h : header) (m : gmap Z (dobj O)) (fs : Z) (l : list (Z * trailer)) : Prop := {
  fk_header : exists uuid, h = with_footer_pos (h_footer_pos h) (header_ctor uuid);
  fk_chain : chain m (h_footer_pos h) l;
  fk_nonempty : l <> [];
  fk_length : Z.of_nat (length l) <= head_revision;
  fk_mem : map_Forall (fun a _ => leader_size <= a) m;
  fk_end : h_footer_pos h + sizeof_trailer <= fs;
  fk_limit : fs <= address_limit;
  (** the file is made of whole segments, and no region begins behind the newest trailer *)
  fk_size : (min_region_size | fs);
  fk_last : last_region_offset fs <= h_footer_pos h + sizeof_trailer
}.

Lemma get_footer_pos_ok h m fs l : file_ok h m fs l -> get_footer_pos h fs = Ok (h_footer_pos h).
Proof.
  intros Hf. destruct (fk_header _ _ _ _ Hf) as [uuid Hh].
  pose proof (chain_nonnull _ _ _ (fk_chain _ _ _ _ Hf) (fk_nonempty _ _ _ _ Hf)) as Hl.
  pose proof (fk_end _ _ _ _ Hf) as He. unfold get_footer_pos.
  assert (header_is_valid h = true) as ->.
  { rewrite Hh, with_footer_pos_valid. apply header_ctor_valid. }
  assert (h_signature1 h = file_signature1 /\ h_signature2 h = file_signature2 /\
    h_header_size h = sizeof_header /\ h_version h = (major_version, minor_version)) as (-> & -> & -> & ->)
    by (by rewrite Hh).
  cbn. unfold leader_size, sizeof_trailer in *.
  rewrite !Z.gtb_ltb, !(proj2 (Z.ltb_ge _ _)) by lia. done.
Qed.

Lemma database_open_spec h m fs l k :
  file_ok h m fs l -> 0 <= k <= 22 ->
  exists db, database_open (2 ^ k) h m fs = Ok db /\ view_ok db l /\
    view_pos db = h_footer_pos h /\ view_end db = h_footer_pos h + sizeof_trailer /\
    db_mem db = m /\ db_header db = h /\ db_indices db = replicate num_indices None /\
    file_size (maps (db_storage db)) = fs.
Proof.
  intros Hf Hk. unfold database_open. rewrite (get_footer_pos_ok _ _ _ _ Hf). cbn [obind].
  pose proof (chain_nonnull _ _ _ (fk_chain _ _ _ _ Hf) (fk_nonempty _ _ _ _ Hf)) as Hl.
  pose proof (fk_end _ _ _ _ Hf) as He. pose proof (fk_limit _ _ _ _ Hf) as Hlim.
  unfold leader_size, sizeof_trailer in Hl, He.
  destruct (storage_init_ok fs) as (st & E & Hok & Ht & Hp & Hfs & Hfull); [lia|].
  rewrite round_up_multiple in Ht; [|done|lia|change address_limit with (2 ^ 38) in *; change min_region_size with (2 ^ 22); lia|apply Hf].
  destruct (storage_ctor fs) as [st0|] eqn:E0; [|done]. cbn [obind] in E |- *. rewrite E. cbn [obind].
  set (db := Database _ _ _ _ _ _ _).
  assert (db_ok db) as Hdb.
  { split; cbn; try done; [unfold sizeof_trailer; lia|split; [lia|rewrite Hfs; apply Hf]| |apply Hf].
    intros r Hr. pose proof (last_region_below st r fs Hok Hfull Ht Hr). pose proof (fk_last _ _ _ _ Hf). cbn. lia. }
  rewrite (trailer_validate_ok db _ l Hdb (fk_chain _ _ _ _ Hf)) by done. cbn [obind].
  destruct (owp_elim _ _ (protect_ok st k sizeof_header (h_footer_pos h + sizeof_trailer) Hok Hk ltac:(done) ltac:(unfold sizeof_trailer; lia)))
    as (st' & E' & Hmaps & Hsat & _).
  cbn [db db_size sizes_ctor logical_size]. rewrite E'. cbn [obind]. eexists. split; [done|].
  assert (db_ok (set_storage st' db)) as Hdb' by (by apply db_ok_storage).
  split_and!; try done; [|cbn; by rewrite Hmaps]. split; cbn; try done; try apply Hf; [|rewrite ?Hmaps; unfold sizeof_trailer; lia..].
  pose proof (fk_chain _ _ _ _ Hf) as Hc. pose proof (fk_nonempty _ _ _ _ Hf) as Hne.
  destruct Hc as [|pos t l' ? ? ?]; [done|]. by exists 0%nat, t.
Qed.

(** A new store is a file of one revision. *)
Lemma build_new_store_ok uuid now :
  let '(h, m, fs) := build_new_store (O := O) uuid now in
  file_ok h m fs [(leader_size, make_trailer 0 0 now null_address (replicate num_indices null_address))].
Proof.
  cbn [build_new_store]. split; try done.
  - by exists uuid.
  - apply chain_cons; [done|apply lookup_singleton_eq| |constructor].
    destruct (make_trailer_valid 0 0 now null_address (replicate num_indices null_address)) as [Hc Hs].
    split; [done|exact Hc|exact Hs|reflexivity..].
  - intros a o. rewrite lookup_singleton_Some. by intros [<- _].
Qed.

(** ** Damage *)

(** The checks of the header, as one condition *)
Lemma get_footer_pos_crc h fs :
  h_signature1 h = file_signature1 -> h_signature2 h = file_signature2 -> h_header_size h = sizeof_header ->
  h_version h = (major_version, minor_version) -> header_is_valid h = false ->
  get_footer_pos h fs = Throw (Raise header_corrupt).
Proof.
  intros H1 H2 H3 H4 Hv. unfold get_footer_pos. rewrite H1, H2, H3, H4, Hv, bool_decide_eq_true_2 by done. done.
Qed.

Lemma header_uuid_damage uuid i b :
  Forall octet uuid -> octet b -> (i < length uuid)%nat -> <[i := b]> uuid <> uuid ->
  let h := header_ctor uuid in
  header_is_valid (Header (h_signature1 h) (h_signature2 h) (h_version h) (h_header_size h)
                     (<[i := b]> uuid) (h_crc h) (h_footer_pos h)) = false.
Proof.
  intros Hu Hb Hi Hne h. unfold header_is_valid. apply Z.eqb_neq. intros Hcrc. apply Hne.
  set (pre := h_signature1 h ++ le_bytes 4 (h_signature2 h) ++ le_bytes 2 (h_version h).1 ++
    le_bytes 2 (h_version h).2 ++ le_bytes 4 (h_header_size h)).
  assert (forall u, crc32 (pre ++ u) = header_get_crc
    (Header (h_signature1 h) (h_signature2 h) (h_version h) (h_header_size h) u (h_crc h) (h_footer_pos h))) as Hg.
  { intros u. unfold header_get_crc, header_body_bytes, pre. cbn [h_uuid h_signature1 h_signature2 h_version h_header_size].
    by rewrite <- !app_assoc. }
  assert (Forall octet pre) as Hpre.
  { unfold pre. repeat apply Forall_app_2; try apply le_bytes_octets.
    change (Forall octet file_signature1). unfold file_signature1, octet. repeat constructor; lia. }
  rewrite <- Hg in Hcrc. assert (h_crc h = crc32 (pre ++ uuid)) as Hh.
  { rewrite Hg. unfold h, header_ctor. cbn [h_crc]. reflexivity. }
  pose proof (crc32_one_octet (pre ++ uuid) (length pre + i) b) as Hone.
  rewrite insert_app_r, length_app in Hone. specialize (Hone ltac:(by apply Forall_app_2) Hb ltac:(lia)).
  apply (app_inv_head pre), Hone. by rewrite <- Hcrc, Hh.
Qed.

Lemma trailer_body_octets t : Forall octet (signature1 t) -> Forall octet (trailer_body_bytes t).
Proof.
  intros Hs. unfold trailer_body_bytes. repeat apply Forall_app_2; try apply le_bytes_octets; [done|].
  apply Forall_concat. apply Forall_fmap, Forall_forall. intros x _. apply le_bytes_octets.
Qed.

(** A trailer one octet of whose body differs from what was written, the checksum kept. *)
Lemma trailer_damage t t' i b :
  Forall octet (signature1 t) -> crc_is_valid t = true -> octet b -> tr_crc t' = tr_crc t ->
  (i < length (trailer_body_bytes t))%nat -> trailer_body_bytes t' = <[i := b]> (trailer_body_bytes t) ->
  trailer_body_bytes t' <> trailer_body_bytes t -> crc_is_valid t' = false.
Proof.
  intros Hs Hv%Z.eqb_eq Hb Hcrc Hi Heq Hne. apply Z.eqb_neq. intros Hv'. apply Hne. rewrite Heq.
  apply (crc32_one_octet _ _ _ (trailer_body_octets t Hs) Hb Hi). rewrite <- Heq.
  change (trailer_get_crc t' = trailer_get_crc t). congruence.
Qed.

Lemma trailer_validate_damaged db pos t :
  leader_size <= pos -> pos mod 8 = 0 -> getro_trailer db pos = Ok t -> crc_is_valid t = false ->
  trailer_validate db pos = Throw (Raise footer_corrupt).
Proof.
  intros Hl Hm Hg Hc. unfold trailer_validate. unfold leader_size in *.
  rewrite (proj2 (Z.eqb_neq pos null_address)) by (unfold null_address; lia).
  rewrite (proj2 (Z.ltb_ge _ _)), Hm by lia. cbn [Z.eqb negb orb]. rewrite Hg. cbn [obind]. by rewrite Hc.
Qed.

End database_spec.
