(* ===== verification/Transaction.v ===== *)
(** * Transactions and the indices of the store

    Models include/pstore/core/transaction.hpp, lib/core/transaction.cpp,
    include/pstore/core/index_types.hpp and lib/core/index_types.cpp: the life of a
    transaction (begin, allocate, commit, roll back) and the cache of the indices that
    a commit writes out. *)

From S2P Require Import Prelude BitCount Checksum Address Region Storage FileHeader StoreIntf HamtTypes HamtMap Database.

(** The data members of [transaction_base] *)
Record transaction := Tx { tx_size : Z; tx_dbsize : Z; tx_first : Z }.

(** [transaction_base::is_open] *)
Definition is_open (tx : transaction) : bool := negb (tx_first tx =? null_address).

(** A transaction and the database that it refers to *)
Record tstate (O : Type) := TState { t_db : database O; t_tx : transaction }.
Arguments TState {O} _ _.
Arguments t_db {O} _.
Arguments t_tx {O} _.

Section transaction.
Context {O : Type}.
Local Abbreviation S := (tstate O).

Definition set_tx (tx : transaction) (s : S) : S := TState (t_db s) tx.

(** Code that runs on the database *)
Definition in_db {A} (m : M (database O) A) : M S A :=
  fun s => let '(r, db) := m (t_db s) in (r, TState db (t_tx s)).

(** The constructor of [transaction_base] *)
Definition transaction_ctor : M (database O) transaction :=
  sync head_revision ;;;
  dbsize <- gets (fun db => logical_size (db_size db)) ;;
  ret (Tx 0 dbsize null_address).

(** [allocate] *)
Definition tx_allocate (size align : Z) : M S Z :=
  old_size <- gets (fun s => logical_size (db_size (t_db s))) ;;
  result <- in_db (db_allocate size align) ;;
  tx <- gets t_tx ;;
  (if tx_first tx =? null_address then
     if negb (tx_size tx =? 0) then throw (Raise cannot_allocate_after_commit)
     else modify (set_tx (Tx (tx_size tx) (tx_dbsize tx) result))
   else ret tt) ;;;
  new_size <- gets (fun s => logical_size (db_size (t_db s))) ;;
  let bytes_allocated := wrap64 (new_size - old_size) in
  massert (bytes_allocated >=? size) ;;;
  modify (fun s => set_tx (Tx (wrap64 (tx_size (t_tx s) + bytes_allocated)) (tx_dbsize (t_tx s)) (tx_first (t_tx s))) s) ;;;
  ret result.

(** [alloc_rw] *)
Definition alloc_rw (size align : Z) : M S (block * Z) :=
  addr <- tx_allocate size align ;;
  db <- gets t_db ;;
  ptr <- lift (db_get db addr size false true) ;;
  ret (ptr, addr).

(** The construction of an object at an address of the store *)
Definition construct (addr : Z) (o : dobj O) : M S unit :=
  modify (fun s => TState (set_mem (<[addr := o]> (db_mem (t_db s))) (t_db s)) (t_tx s)).

Definition alloc_object (size align : Z) (o : O) : M S Z :=
  '(_, addr) <- alloc_rw size align ;;
  construct addr (DObj o) ;;;
  ret addr.

(** [getro] of the database, for an object of a client *)
Definition getro_object (s : S) (addr size : Z) : outcome O :=
  o <-? db_getro (t_db s) addr size ;;
  match o with
  | DObj o => Ok o
  | DTrailer _ => Throw Dangling
  end.

(** [transaction_base::getro] and [getrw]: the assertion keeps them inside the transaction *)
Definition tx_getro (s : S) (addr size : Z) : outcome O :=
  _ <-? oassert ((addr >=? tx_first (t_tx s)) &&
                 (addr_add addr size <=? addr_add (tx_first (t_tx s)) (tx_size (t_tx s)))) ;;
  getro_object s addr size.

Definition tx_getrw (s : S) (addr size : Z) : outcome block :=
  _ <-? oassert ((addr >=? tx_first (t_tx s)) &&
                 (addr_add addr size <=? addr_add (tx_first (t_tx s)) (tx_size (t_tx s)))) ;;
  db_get (t_db s) addr size true true.

(** [rollback], also what the destructor of [transaction] does *)
Definition rollback : M S unit :=
  tx <- gets t_tx ;;
  if is_open tx then
    modify (set_tx (Tx (tx_size tx) (tx_dbsize tx) null_address)) ;;;
    size <- gets (fun s => logical_size (db_size (t_db s))) ;;
    if size >? tx_dbsize tx then
      in_db (db_truncate (tx_dbsize tx)) ;;;
      size <- gets (fun s => logical_size (db_size (t_db s))) ;;
      massert (size =? tx_dbsize tx)
    else ret tt
  else ret tt.

#[export] Instance tx_store : TransactionStore S O := {|
  ts_allocate := tx_allocate;
  ts_alloc_rw := alloc_object;
  ts_getro := getro_object;
  ts_revision := fun s => get_current_revision (t_db s)
|}.

End transaction.
Arguments tstate : clear implicits.

(** ** The indices *)

Section indices.
Context {K V : Type} `{HA : HeapAllocator node}.
Local Abbreviation W := (world (tstate (obj K V))).

Definition set_index (i : nat) (m : hamt_map) : M W unit :=
  modify (fun w => World (heap w)
    (TState (set_indices (<[i := Some m]> (db_indices (t_db (store w)))) (t_db (store w))) (t_tx (store w)))).

(** [get_index] *)
Definition get_index (i : nat) (create : bool) : M W (option hamt_map) :=
  w <- get ;;
  match db_indices (t_db (store w)) !! i with
  | None => throw Dangling
  | Some (Some m) => ret (Some m)
  | Some None =>
      footer <- lift (get_footer (t_db (store w))) ;;
      match index_records footer !! i with
      | None => throw Dangling
      | Some location =>
          if location =? null_address then
            if create then
              m <- lift (hamt_ctor (store w) null_address) ;; set_index i m ;;; ret (Some m)
            else ret None
          else
            m <- lift (hamt_ctor (store w) location) ;; set_index i m ;;; ret (Some m)
      end
  end.

(** [flush_index] *)
Definition flush_index (i : nat) (locations : list Z) (generation : Z) : M W (list Z) :=
  index <- get_index i false ;;
  match index with
  | None => ret locations
  | Some m =>
      '(m', pos) <- hamt_flush m generation ;;
      set_index i m' ;;;
      ret (<[i := pos]> locations)
  end.

(** [flush_indices] *)
Fixpoint flush_indices_from (idxs : list nat) (locations : list Z) (generation : Z) : M W (list Z) :=
  match idxs with
  | [] => ret locations
  | i :: idxs =>
      locations <- flush_index i locations generation ;;
      flush_indices_from idxs locations generation
  end.

Definition flush_indices (locations : list Z) (generation : Z) : M W (list Z) :=
  locations <- flush_indices_from (seq 0 num_indices) locations generation ;;
  massert (length locations =? num_indices)%nat ;;;
  ret locations.

(** ** Commit *)

(** Writes the trailer and returns its position *)
Definition write_trailer (now prev gen : Z) (locations : list Z) : M (tstate (obj K V)) Z :=
  '(_, new_footer_pos) <- alloc_rw sizeof_trailer 8 ;;
  size <- gets (fun s => tx_size (t_tx s)) ;;
  construct new_footer_pos
    (DTrailer (make_trailer gen (wrap64 (size - sizeof_trailer)) now prev locations)) ;;;
  ret new_footer_pos.

(** [commit], at the time [now] *)
Definition commit (page_size now : Z) : M W unit :=
  tx <- gets (fun w => t_tx (store w)) ;;
  if negb (is_open tx) then ret tt
  else
    db <- gets (fun w => t_db (store w)) ;;
    let footer_pos := h_footer_pos (db_header db) in
    prev_footer <- lift (getro_trailer db footer_pos) ;;
    let generation := wrap32 (generation prev_footer + 1) in
    locations <- flush_indices (index_records prev_footer) generation ;;
    new_footer_pos <- in_store (write_trailer now footer_pos generation locations) ;;
    (* The last step makes the transaction visible to other clients. *)
    in_store (in_db (set_new_footer new_footer_pos)) ;;;
    (* Mark the transaction's contents and its trailer as read-only. *)
    s <- gets store ;;
    st <- lift (protect page_size (tx_first (t_tx s)) (typed_add sizeof_trailer new_footer_pos 1)
                  (db_storage (t_db s))) ;;
    in_store (modify (fun s => TState (set_storage st (t_db s))
                                 (Tx (tx_size (t_tx s)) (tx_dbsize (t_tx s)) null_address))).

End indices.
