(* ===== verification/TransactionSpec.v ===== *)
(** * Properties of transactions

    [tx_ok] is the invariant of a transaction that has not been committed: the database
    is synchronised to the head revision and everything past its trailer was allocated
    by the transaction. It makes the transaction an instance of the interface that the
    index code is verified against. *)

From S2P Require Import Prelude BitCount Checksum Address Region Storage FileHeader StoreIntf HamtTypes HamtMap.
From S2P Require Import Database DatabaseSpec Transaction.

Section transaction_spec.
Context {O : Type}.
Local Abbreviation S := (tstate O).
Implicit Types s : S.

Record tx_ok s : Prop := {
  xk_db : db_ok (t_db s);
  xk_head : h_footer_pos (db_header (t_db s)) = view_pos (t_db s);
  xk_dbsize : tx_dbsize (t_tx s) = view_pos (t_db s) + sizeof_trailer;
  xk_size : tx_size (t_tx s) = view_end (t_db s) - tx_dbsize (t_tx s);
  xk_first : (tx_first (t_tx s) = null_address /\ tx_size (t_tx s) = 0) \/
             (tx_dbsize (t_tx s) <= tx_first (t_tx s) <= view_end (t_db s))
}.

(** The objects of clients that lie in the view *)
Definition live_objects s : gmap Z O :=
  omap (fun d => match d with DObj o => Some o | DTrailer _ => None end)
    (forget_from (view_end (t_db s)) (db_mem (t_db s))).

Lemma lookup_live_objects s a o :
  live_objects s !! a = Some o <-> a < view_end (t_db s) /\ db_mem (t_db s) !! a = Some (DObj o).
Proof.
  unfold live_objects. rewrite lookup_omap, lookup_forget_from. case_decide; simpl.
  - destruct (_ !! a) as [[t|o']|]; simpl; naive_solver.
  - naive_solver.
Qed.

Lemma live_objects_agree s s' :
  (forall a, db_mem (t_db s') !! a = if decide (a < view_end (t_db s)) then db_mem (t_db s) !! a else None) ->
  view_end (t_db s) <= view_end (t_db s') -> live_objects s' = live_objects s.
Proof.
  intros Hm He. apply map_eq. intros a. apply option_eq. intros o.
  rewrite !lookup_live_objects, Hm. case_decide; naive_solver lia.
Qed.

(** The trailers that lie in the view *)
Definition live_trailers s : gmap Z trailer :=
  omap (fun d => match d with DTrailer t => Some t | DObj _ => None end)
    (forget_from (view_end (t_db s)) (db_mem (t_db s))).

Lemma lookup_live_trailers s a t :
  live_trailers s !! a = Some t <-> a < view_end (t_db s) /\ db_mem (t_db s) !! a = Some (DTrailer t).
Proof.
  unfold live_trailers. rewrite lookup_omap, lookup_forget_from. case_decide; simpl.
  - destruct (_ !! a) as [[t'|o]|]; simpl; naive_solver.
  - naive_solver.
Qed.

Lemma live_trailers_agree s s' :
  (forall a t, db_mem (t_db s') !! a = Some (DTrailer t) <->
     a < view_end (t_db s) /\ db_mem (t_db s) !! a = Some (DTrailer t)) ->
  view_end (t_db s) <= view_end (t_db s') -> live_trailers s' = live_trailers s.
Proof.
  intros Hm He. apply map_eq. intros a. apply option_eq. intros t.
  rewrite !lookup_live_trailers, Hm. naive_solver lia.
Qed.

(** What the allocation of objects leaves as it is *)
Record kept := Kept {
  k_indices : list (option hamt_map);
  k_header : header;
  k_pos : Z;
  k_dbsize : Z;
  k_trailers : gmap Z trailer;
  k_protected : list (Z * Z)
}.

Definition keep s : kept :=
  Kept (db_indices (t_db s)) (db_header (t_db s)) (view_pos (t_db s)) (tx_dbsize (t_tx s))
    (live_trailers s) (protected (db_storage (t_db s))).

Lemma writable_from s : tx_ok s -> first_writable_address (t_db s) = tx_dbsize (t_tx s).
Proof.
  intros Hs. rewrite (xk_dbsize _ Hs), <- (xk_head _ Hs). unfold first_writable_address, typed_add, sizeof_trailer.
  pose proof (db_limit _ (xk_db _ Hs)) as Hl. pose proof (dk_logical _ (xk_db _ Hs)).
  pose proof (dk_footer _ (xk_db _ Hs)). rewrite <- (xk_head _ Hs) in *.
  change address_limit with 274877906944 in Hl. unfold leader_size, sizeof_trailer in *.
  rewrite (wrap_small 64 (1 * 104)), wrap_small by lia. lia.
Qed.

Lemma wp_in_db {A} (m : M (database O) A) (Q : A -> S -> Prop) s :
  wp m (fun a db' => Q a (TState db' (t_tx s))) (t_db s) -> wp (in_db m) Q s.
Proof. unfold wp, in_db. by destruct (m (t_db s)) as [[a|e] db']. Qed.

(** ** Allocation *)

Record tx_allocated s (size k addr : Z) s' : Prop := {
  ta_db : allocated (t_db s) size k addr (t_db s');
  ta_ok : tx_ok s';
  ta_open : is_open (t_tx s') = true;
  ta_dbsize : tx_dbsize (t_tx s') = tx_dbsize (t_tx s);
  ta_first : tx_first (t_tx s') = if is_open (t_tx s) then tx_first (t_tx s) else addr
}.

Lemma tx_allocate_spec s size k :
  tx_ok s -> 0 <= size -> 0 <= k <= 12 -> view_end (t_db s) + 2 ^ k + size <= address_limit ->
  wp (tx_allocate size (2 ^ k)) (tx_allocated s size k) s.
Proof.
  intros Hs Hsize Hk Hroom. unfold tx_allocate. wp_head. wp_head.
  destruct (wp_elim _ _ _ (db_allocate_spec (t_db s) size k (xk_db _ Hs) Hsize Hk Hroom)) as (a & db' & E & Hal).
  wp_head. eapply (wp_eq _ a _ (TState db' (t_tx s))); [unfold in_db; by rewrite E|].
  pose proof (al_addr _ _ _ _ _ Hal) as Ha. pose proof (al_end _ _ _ _ _ Hal) as He.
  pose proof (Z.mod_pos_bound (- view_end (t_db s)) (2 ^ k) ltac:(lia)) as Hpad.
  pose proof (dk_logical _ (xk_db _ Hs)) as Hlog. pose proof (dk_footer _ (xk_db _ Hs)) as Hfoot.
  pose proof (xk_size _ Hs) as Hsz. pose proof (xk_dbsize _ Hs) as Hdbs.
  pose proof (db_limit _ (al_ok _ _ _ _ _ Hal)) as Hlim. change address_limit with 274877906944 in *.
  unfold leader_size, sizeof_trailer in *.
  assert (0 < a) as Hapos by lia. set (tx' := Tx (tx_size (t_tx s)) (tx_dbsize (t_tx s))
    (if is_open (t_tx s) then tx_first (t_tx s) else a)).
  wp_head. wp_head. wp_head. cbn [t_tx].
  apply (wp_mono _ (fun _ s1 => s1 = TState db' tx')).
  { unfold tx', is_open. destruct (Z.eqb_spec (tx_first (t_tx s)) null_address) as [Hf|Hf]; cbn [negb].
    - destruct (xk_first _ Hs) as [[_ Hz]|Hf']; [|unfold null_address in *; lia].
      rewrite Hz. cbn [Z.eqb negb]. by wp_head.
    - wp_head. by destruct (t_tx s). }
  intros [] s1 ->. wp_head. wp_head. wp_head. wp_head; [|wp_head; wp_head; wp_head].
  - cbn. rewrite wrap_small, Z.geb_leb by lia. apply Z.leb_le. lia.
  - cbn. assert (is_open (Tx (wrap64 (tx_size tx' + wrap64 (view_end db' - view_end (t_db s)))) (tx_dbsize tx') (tx_first tx')) = true) as Hopen.
    { unfold is_open. cbn. unfold is_open. destruct (Z.eqb_spec (tx_first (t_tx s)) null_address); cbn [negb].
      - rewrite (proj2 (Z.eqb_neq a null_address)) by (unfold null_address; lia). done.
      - by rewrite (proj2 (Z.eqb_neq _ _)). }
    split; cbn; try done. split; cbn; try done.
    + apply (al_ok _ _ _ _ _ Hal).
    + rewrite (al_header _ _ _ _ _ Hal), (al_pos _ _ _ _ _ Hal). apply (xk_head _ Hs).
    + rewrite (al_pos _ _ _ _ _ Hal). done.
    + rewrite !wrap_small by (rewrite ?wrap_small; lia). lia.
    + right. unfold is_open. destruct (Z.eqb_spec (tx_first (t_tx s)) null_address) as [Hf|Hf]; cbn [negb].
      * lia.
      * destruct (xk_first _ Hs) as [[? _]|]; [done|]. lia.
Qed.

Lemma allocated_mem db bytes k addr db' a :
  allocated (O := O) db bytes k addr db' ->
  db_mem db' !! a = if decide (a < view_end db) then db_mem db !! a else None.
Proof. intros Hal. rewrite (al_mem _ _ _ _ _ Hal). apply lookup_forget_from. Qed.

(** ** Objects *)

(** An object, constructed in a block that has just been allocated. *)
Definition with_object (addr : Z) (d : dobj O) s : S :=
  TState (set_mem (<[addr := d]> (db_mem (t_db s))) (t_db s)) (t_tx s).

Lemma with_object_ok addr d s : tx_ok s -> leader_size <= addr -> tx_ok (with_object addr d s).
Proof.
  intros [Hdb ? ? ? ?] Ha. split; try done. destruct Hdb. split; try done.
  cbn. by apply map_Forall_insert_2.
Qed.

Lemma alloc_rw_spec s size k :
  tx_ok s -> 0 < size -> 0 <= k <= 12 -> view_end (t_db s) + 2 ^ k + size <= address_limit ->
  wp (alloc_rw size (2 ^ k)) (fun r s' => tx_allocated s size k r.2 s') s.
Proof.
  intros Hs Hsize Hk Hroom. unfold alloc_rw. wp_head.
  eapply wp_mono; [apply tx_allocate_spec; [done|lia|done|done]|]. intros a s' Hta. wp_head. wp_head. wp_head.
  pose proof (ta_db _ _ _ _ _ Hta) as Hal. pose proof (xk_db _ (ta_ok _ _ _ _ _ Hta)) as Hdb'.
  pose proof (al_end _ _ _ _ _ Hal) as He. pose proof (al_addr _ _ _ _ _ Hal) as Ha.
  pose proof (Z.mod_pos_bound (- view_end (t_db s)) (2 ^ k) ltac:(lia)) as Hpad.
  pose proof (dk_logical _ (xk_db _ Hs)). pose proof (dk_footer _ (xk_db _ Hs)).
  unfold leader_size, sizeof_trailer in *.
  destruct (db_get_ok (t_db s') a size false true Hdb') as [b Hb]; [lia|lia|lia| |].
  { intros _. rewrite (writable_from _ (ta_ok _ _ _ _ _ Hta)), (xk_dbsize _ (ta_ok _ _ _ _ _ Hta)).
    rewrite (al_pos _ _ _ _ _ Hal). unfold sizeof_trailer. lia. }
  wp_head. eapply owp_eq; [exact Hb|]. by wp_head.
Qed.

(** The current revision does not depend on what lies past the view's trailer. *)
Lemma get_current_revision_agree db db' :
  db_ok db -> db_ok db' -> view_pos db' = view_pos db ->
  db_mem (O := O) db' !! view_pos db = db_mem db !! view_pos db ->
  get_current_revision db' = get_current_revision db.
Proof.
  intros Hok Hok' Hp Hm. unfold get_current_revision, get_footer, getro_trailer, db_getro. rewrite Hp.
  destruct (view_pos db mod 8 =? 0); [|done]. cbn [negb].
  pose proof (dk_logical _ Hok). pose proof (dk_logical _ Hok'). pose proof (dk_footer _ Hok).
  unfold leader_size, sizeof_trailer in *.
  destruct (db_get_ok db (view_pos db) 104 true false Hok) as [b ->]; [lia|lia|lia|done|].
  destruct (db_get_ok db' (view_pos db) 104 true false Hok') as [b' ->]; [lia|lia|lia|done|].
  cbn [obind]. by rewrite Hm.
Qed.

Lemma allocated_revision db bytes k addr db' :
  db_ok db -> allocated (O := O) db bytes k addr db' -> get_current_revision db' = get_current_revision db.
Proof.
  intros Hok Hal. apply get_current_revision_agree; [done|apply Hal|apply Hal|].
  rewrite (allocated_mem _ _ _ _ _ _ Hal), decide_True; [done|].
  pose proof (dk_logical _ Hok). unfold sizeof_trailer in *. lia.
Qed.

Lemma tx_allocated_keep s size k addr s' :
  tx_ok s -> 0 <= k -> 0 <= size -> tx_allocated s size k addr s' -> keep s' = keep s.
Proof.
  intros Hs Hk Hsize Hta. pose proof (ta_db _ _ _ _ _ Hta) as Hal. unfold keep. f_equal; try apply Hal; try apply Hta.
  apply live_trailers_agree.
  - intros a t. rewrite (allocated_mem _ _ _ _ _ _ Hal). case_decide; naive_solver.
  - rewrite (al_end _ _ _ _ _ Hal), (al_addr _ _ _ _ _ Hal).
    pose proof (Z.mod_pos_bound (- view_end (t_db s)) (2 ^ k) ltac:(lia)). lia.
Qed.

Lemma with_object_keep addr o s :
  (forall t, db_mem (t_db s) !! addr <> Some (DTrailer t)) -> keep (with_object addr (DObj o) s) = keep s.
Proof.
  intros Hn. unfold keep. f_equal. apply map_eq. intros a. apply option_eq. intros t.
  rewrite !lookup_live_trailers. cbn. rewrite lookup_insert_Some. naive_solver.
Qed.

(** ** Rolling back *)

(** The view after a rollback is that of the committed revision: what the transaction had
    allocated is outside of it, and the regions that began there are unmapped. As long as
    there was none of them the database is as good as before; otherwise the segment address
    table still has their entries. *)
Record rolled_back s s' : Prop := {
  rb_closed : is_open (t_tx s') = false;
  rb_pos : view_pos (t_db s') = view_pos (t_db s);
  rb_end : view_end (t_db s') = tx_dbsize (t_tx s);
  rb_header : db_header (t_db s') = db_header (t_db s);
  rb_mem : db_mem (t_db s') = db_mem (t_db s);
  rb_indices : db_indices (t_db s') = db_indices (t_db s);
  rb_storage : is_open (t_tx s) = true -> tx_dbsize (t_tx s) < view_end (t_db s) ->
    storage_shrunk (tx_dbsize (t_tx s)) (db_storage (t_db s)) (db_storage (t_db s'));
  rb_db : (forall r, last (regions (maps (db_storage (t_db s)))) = Some r -> rg_offset r <= tx_dbsize (t_tx s)) ->
    db_ok (t_db s')
}.

Lemma storage_shrunk_nothing n st st' : storage_shrunk n st st' ->
  (forall r, last (regions (maps st)) = Some r -> rg_offset r <= n) -> regions (maps st') = regions (maps st).
Proof.
  intros [(d & E & Hd) _ _ _ _ _ _] Hl. destruct d as [|r d _] using rev_ind; [by rewrite app_nil_r in E|].
  rewrite app_assoc in E. rewrite E, last_snoc in Hl. specialize (Hl r eq_refl). apply Forall_app in Hd as [_ Hd].
  apply Forall_cons in Hd as [Hd _]. lia.
Qed.

Lemma db_ok_shrunk (db : database O) n st' : db_ok db -> view_pos db + sizeof_trailer <= n <= view_end db ->
  storage_shrunk n (db_storage db) st' -> (forall r, last (regions (maps (db_storage db))) = Some r -> rg_offset r <= n) ->
  db_ok (set_size (Sizes (view_pos db) n) (set_storage st' (set_modified db))).
Proof.
  intros [Hst ? ? ? ? [Hf Hd] ? ?] Hn Hs Hl. pose proof (storage_shrunk_nothing _ _ _ Hs Hl) as Er. destruct Hst as [Hr Hlim Hsat].
  assert (storage_ok st') as Hst'.
  { split; rewrite ?Er, ?(ss_table _ _ _ Hs); try done. destruct Hr. by split; rewrite ?Er, ?(ss_next _ _ _ Hs). }
  split; cbn; rewrite ?Er; try done; try lia. unfold file_fits. by rewrite Er, (ss_file _ _ _ Hs).
Qed.

Lemma rollback_spec s : tx_ok s -> wp rollback (fun _ => rolled_back s) s.
Proof.
  intros Hs. pose proof (xk_db _ Hs) as Hdb. pose proof (xk_dbsize _ Hs) as Hd. pose proof (xk_size _ Hs) as Hz.
  pose proof (dk_logical _ Hdb) as Hlog. unfold rollback. wp_head. wp_head. destruct (is_open (t_tx s)) eqn:Ho.
  - do 4 wp_head. rewrite Z.gtb_ltb. cbn [set_tx t_tx tx_dbsize t_db].
    destruct (Z.ltb_spec (tx_dbsize (t_tx s)) (view_end (t_db s))) as [Hlt|Hge].
    + wp_head. eapply wp_in_db, wp_mono; [apply (db_truncate_any (t_db s) (tx_dbsize (t_tx s))); try done; lia|].
      intros [] db' (st' & Hst & ->). wp_head. wp_head. wp_head; [apply Z.eqb_refl|]. split; try done.
      intros Hlast. apply db_ok_shrunk; try done. lia.
    + wp_head. split; try done; cbn; lia.
  - wp_head. split; try done; [|by rewrite Ho]. destruct (xk_first _ Hs) as [[_ H0]|Hf]; [lia|].
    unfold is_open in Ho. apply negb_false_iff, Z.eqb_eq in Ho. pose proof (dk_footer _ Hdb).
    unfold null_address, leader_size, sizeof_trailer in *. lia.
Qed.

(** ** Allocating after a commit *)

(** The request is refused, but only once the database has been extended. *)
Lemma allocate_after_commit_spec s size k :
  db_ok (t_db s) -> is_open (t_tx s) = false -> tx_size (t_tx s) <> 0 ->
  0 <= size -> 0 <= k <= 12 -> view_end (t_db s) + 2 ^ k + size <= address_limit ->
  exists addr db', tx_allocate size (2 ^ k) s = (Throw (Raise cannot_allocate_after_commit), TState db' (t_tx s)) /\
    allocated (t_db s) size k addr db'.
Proof.
  intros Hdb Ho Hz Hsize Hk Hroom.
  destruct (wp_elim _ _ _ (db_allocate_spec (t_db s) size k Hdb Hsize Hk Hroom)) as (a & db' & E & Hal).
  exists a, db'. split; [|done]. unfold tx_allocate. rewrite bind_gets.
  rewrite (bind_ok _ _ _ a (TState db' (t_tx s))) by (unfold in_db; by rewrite E). rewrite bind_gets. cbn [t_tx].
  apply bind_throw. unfold is_open in Ho. apply negb_false_iff in Ho. rewrite Ho.
  by rewrite (proj2 (Z.eqb_neq _ _) Hz).
Qed.

(** ** The first transaction *)

Lemma transaction_ctor_head (db : database O) :
  db_ok db -> h_footer_pos (db_header db) = view_pos db ->
  transaction_ctor db = (Ok (Tx 0 (view_end db) null_address), db).
Proof.
  intros Hok Hh. pose proof (dk_logical _ Hok). pose proof (dk_footer _ Hok).
  unfold leader_size, sizeof_trailer in *.
  destruct (db_get_ok db 0 sizeof_header true false Hok) as [b Hb]; [lia|done|unfold sizeof_header; lia|done|].
  unfold transaction_ctor. erewrite bind_ok; [rewrite bind_gets; reflexivity|].
  unfold sync. rewrite bind_gets. erewrite bind_ok by done. rewrite Z.eqb_refl, bind_ret. cbn [negb andb orb].
  rewrite bind_massert_true, (bind_lift_ok _ _ _ _ Hb) by done. by rewrite Hh, Z.eqb_refl.
Qed.

(** A transaction on a new store is ready for data. *)
Lemma new_store_ready k uuid now : 0 <= k <= 22 ->
  exists db tx, (let '(h, m, fs) := build_new_store uuid now in database_open (2 ^ k) h m fs) = Ok db /\
    transaction_ctor db = (Ok tx, db) /\ tx_ok (TState db tx) /\ view_end db = leader_size + sizeof_trailer.
Proof.
  intros Hk. pose proof (build_new_store_ok (O := O) uuid now) as Hf.
  destruct (build_new_store uuid now) as [[h m] fs] eqn:E. set (t := make_trailer _ _ _ _ _) in Hf.
  destruct (database_open_spec h m fs _ k Hf Hk) as (db & Hopen & Hv & Hp & He & Hm & Hh & _).
  assert (h_footer_pos h = leader_size) as Hl by (pose proof (fk_chain _ _ _ _ Hf) as Hc; by inversion Hc).
  exists db, (Tx 0 (view_end db) null_address). split_and!; [done| | |by rewrite He, Hl].
  - apply transaction_ctor_head; [apply Hv|by rewrite Hh, Hp].
  - split; cbn; try done; [apply Hv|by rewrite Hh, Hp|by rewrite Hp|lia|by left].
Qed.

(** ** The interface of the index code *)

#[export] Instance tx_store_laws : TransactionStoreLaws S O.
Proof.
  refine {| ts_inv := tx_ok; ts_readable := fun s => db_ok (t_db s); ts_size := fun s => view_end (t_db s); ts_limit := address_limit;
            ts_objects := live_objects; ts_kept := kept; ts_keep := keep |}.
  - intros s Hs. apply Hs.
  - intros s Hs. pose proof (dk_logical _ Hs). pose proof (dk_footer _ Hs).
    pose proof (db_limit _ Hs). unfold leader_size, sizeof_trailer in *. lia.
  - done.
  - intros s a o Hs [Hlt Ho]%lookup_live_objects. pose proof (dk_mem _ Hs _ _ Ho) as Hl.
    unfold leader_size in *. lia.
  - intros s n k Hs Hn Hk Hroom.
    destruct (wp_elim _ _ _ (tx_allocate_spec s n k Hs Hn Hk Hroom)) as (a & s' & E & Hta).
    pose proof (ta_db _ _ _ _ _ Hta) as Hal. exists s', a. split_and!; try apply Hal; try apply Hta; try done.
    + apply live_objects_agree; [intros b; by eapply allocated_mem|].
      rewrite (al_end _ _ _ _ _ Hal), (al_addr _ _ _ _ _ Hal).
      pose proof (Z.mod_pos_bound (- view_end (t_db s)) (2 ^ k) ltac:(lia)). lia.
    + by eapply allocated_revision; [apply Hs|].
    + apply (tx_allocated_keep s n k a); done || lia.
  - intros s n k o Hs Hn Hk Hroom.
    destruct (wp_elim _ _ _ (alloc_rw_spec s n k Hs Hn Hk Hroom)) as ([b a] & s' & E & Hta). cbn in Hta.
    pose proof (ta_db _ _ _ _ _ Hta) as Hal.
    pose proof (Z.mod_pos_bound (- view_end (t_db s)) (2 ^ k) ltac:(lia)) as Hpad.
    pose proof (al_end _ _ _ _ _ Hal) as He. pose proof (al_addr _ _ _ _ _ Hal) as Ha.
    pose proof (dk_logical _ (xk_db _ Hs)). pose proof (dk_footer _ (xk_db _ Hs)).
    unfold leader_size, sizeof_trailer in *.
    assert (tx_ok (with_object a (DObj o) s')) as Hok'.
    { apply with_object_ok; [apply Hta|]. unfold leader_size. lia. }
    exists (with_object a (DObj o) s'), a. split_and!; try done; try apply Hal.
    + cbn. unfold alloc_object. by rewrite (bind_ok _ _ _ _ _ E).
    + apply map_eq. intros i. apply option_eq. intros x.
      rewrite lookup_insert_Some, !lookup_live_objects. cbn [with_object t_db set_mem db_mem db_size].
      rewrite lookup_insert_Some, (allocated_mem _ _ _ _ _ _ Hal). case_decide; naive_solver lia.
    + cbn. rewrite <- (allocated_revision _ _ _ _ _ (xk_db _ Hs) Hal).
      apply get_current_revision_agree; [apply Hta|apply Hok'|done|]. cbn.
      rewrite lookup_insert_ne; [done|]. rewrite (al_pos _ _ _ _ _ Hal). lia.
    + rewrite with_object_keep; [apply (tx_allocated_keep s n k a); done || lia|]. intros t.
      rewrite (allocated_mem _ _ _ _ _ _ Hal), decide_False by lia. done.
  - intros s a n o Hs [Hlt Ho]%lookup_live_objects Hn Hend. cbn. unfold getro_object.
    by rewrite (db_getro_ok _ a n (DObj o) Hs).
Defined.

End transaction_spec.
