(* ===== verification/Archive.v ===== *)
(** * Archives on a store

    Models include/pstore/core/db_archive.hpp and sstring_view_archive.hpp: values are written to a
    transaction and read from its database one octet at a time, so the store that they see is one
    whose objects are octets. *)

From S2P Require Import Prelude BitCount Varint Checksum Address Region Storage FileHeader Memory StoreIntf.
From S2P Require Import HamtTypes HamtMap Database DatabaseSpec Transaction TransactionSpec.

Abbreviation bytes_state := (tstate Z).
Abbreviation octet_map := (gmap Z (dobj Z)).
Implicit Types s : bytes_state.
Implicit Types m : octet_map.

Fixpoint write_octets (a : Z) (bs : list Z) m : octet_map :=
  match bs with
  | [] => m
  | b :: bs => <[a := DObj b]> (write_octets (a + 1) bs m)
  end.

Fixpoint read_octets (n : nat) (a : Z) m : outcome (list Z) :=
  match n with
  | 0%nat => Ok []
  | S n =>
      match m !! a with
      | Some (DObj b) => bs <-? read_octets n (a + 1) m ;; Ok (b :: bs)
      | _ => Throw Dangling
      end
  end.

(** Writing through a pointer to the store *)
Definition poke (addr : Z) (bs : list Z) : M bytes_state unit :=
  modify (fun s => TState (set_mem (write_octets addr bs (db_mem (t_db s))) (t_db s)) (t_tx s)).

(** The octets of a block that [database::getro] returns *)
Definition getro_octets s (addr size : Z) : outcome (list Z) :=
  _ <-? db_get (t_db s) addr size true false ;;
  read_octets (Z.to_nat size) addr (db_mem (t_db s)).

(** ** [database_writer_policy] *)

(** [put], for a type of [size] octets with the alignment [align] *)
Definition put (size align : Z) (bs : list Z) : M bytes_state Z :=
  '(_, addr) <- alloc_rw size align ;;
  poke addr bs ;;;
  ret addr.

(** [putn], for a span of characters *)
Definition putn (bs : list Z) : M bytes_state Z :=
  '(_, addr) <- alloc_rw (Z.of_nat (length bs)) 1 ;;
  poke addr bs ;;;
  ret addr.

(** ** [database_reader]: the address from which it reads next *)

(** [skip] *)
Definition skip (addr distance : Z) : Z := addr_add addr distance.

(** [get], for a type of [size] octets with the alignment [align] *)
Definition reader_get s (addr size align : Z) : outcome (list Z * Z) :=
  extra <-? calc_alignment addr align ;;
  _ <-? oassert (extra <? size) ;;
  let addr := addr_add addr extra in
  result <-? (if negb (addr mod align =? 0) then Throw (Raise bad_alignment) else getro_octets s addr size) ;;
  Ok (result, addr_add addr size).

(** [getn], for a span of octets *)
Definition reader_getn s (addr size : Z) : outcome (list Z * Z) :=
  extra <-? calc_alignment addr 1 ;;
  _ <-? oassert (extra <? 1) ;;
  let addr := addr_add addr extra in
  src <-? getro_octets s addr size ;;
  Ok (src, addr_add addr size).

(** ** Strings *)

(** [string_helper::write] *)
Definition sstring_write (str : list Z) : M bytes_state Z :=
  enc <- lift (Varint.encode (Z.of_nat (length str))) ;;
  let length_bytes := Z.of_nat (List.length enc) in
  massert ((length_bytes >? 0) && (length_bytes <=? max_output_length)) ;;;
  let enc := if length_bytes =? 1 then enc ++ [0] else enc in
  resl <- putn enc ;;
  _ <- putn str ;;
  ret resl.

(** [string_helper::read_length] *)
Definition sstring_length s (addr : Z) : outcome (Z * Z) :=
  r <-? reader_getn s addr 2 ;;
  let '(encoded_length, addr) := r in
  varint_length <-? decode_size encoded_length ;;
  _ <-? oassert (varint_length >? 0) ;;
  r <-? (if varint_length >? 2 then
           _ <-? oassert (varint_length <=? max_output_length) ;;
           r <-? reader_getn s addr (varint_length - 2) ;;
           Ok (encoded_length ++ r.1, r.2)
         else Ok (encoded_length, addr)) ;;
  let '(encoded_length, addr) := r in
  length <-? decode_n encoded_length varint_length ;;
  Ok (length, addr).

(** [readsv]: the view and the address behind it *)
Definition sstring_read s (addr : Z) : outcome (list Z * Z) :=
  r <-? sstring_length s addr ;;
  let '(length, addr) := r in
  str <-? getro_octets s addr length ;;
  Ok (str, skip addr length).

(** ** Properties *)

Definition octets_at m (a : Z) (bs : list Z) : Prop :=
  forall k b, bs !! k = Some b -> m !! (a + Z.of_nat k) = Some (DObj b).

Lemma lookup_write_octets a bs m i :
  write_octets a bs m !! i =
    if decide (a <= i < a + Z.of_nat (length bs)) then DObj <$> bs !! Z.to_nat (i - a) else m !! i.
Proof.
  revert a. induction bs as [|b bs IH]; intros a; cbn [write_octets length].
  { rewrite decide_False by lia. done. }
  destruct (decide (i = a)) as [->|Hne].
  - rewrite lookup_insert_eq, decide_True by lia. by rewrite Z.sub_diag.
  - rewrite lookup_insert_ne, IH by done. destruct (decide (a + 1 <= i < _)).
    + rewrite decide_True by lia. by replace (Z.to_nat (i - a)) with (S (Z.to_nat (i - (a + 1)))) by lia.
    + rewrite decide_False by lia. done.
Qed.

Lemma octets_at_write a bs m : octets_at (write_octets a bs m) a bs.
Proof.
  intros k b Hk. apply lookup_lt_Some in Hk as Hl. rewrite lookup_write_octets, decide_True by lia.
  by replace (Z.to_nat (a + Z.of_nat k - a)) with k by lia; rewrite Hk.
Qed.

Lemma octets_at_app m a bs1 bs2 :
  octets_at m a (bs1 ++ bs2) <-> octets_at m a bs1 /\ octets_at m (a + Z.of_nat (length bs1)) bs2.
Proof.
  split.
  - intros H. split; intros k b Hk.
    + apply H. by apply lookup_app_l_Some.
    + rewrite <- Z.add_assoc, <- Nat2Z.inj_add. apply H. rewrite lookup_app_r by lia. by replace (_ + k - _)%nat with k by lia.
  - intros [H1 H2] k b [Hk|[Hl Hk]]%lookup_app_Some; [by apply H1|].
    replace (a + Z.of_nat k) with (a + Z.of_nat (length bs1) + Z.of_nat (k - length bs1)) by lia. by apply H2.
Qed.

Lemma octets_at_frame m m' a bs :
  octets_at m a bs -> (forall i, a <= i < a + Z.of_nat (length bs) -> m' !! i = m !! i) -> octets_at m' a bs.
Proof. intros H Hm k b Hk. rewrite Hm; [by apply H|]. apply lookup_lt_Some in Hk. lia. Qed.

Lemma read_octets_ok bs a m : octets_at m a bs -> read_octets (length bs) a m = Ok bs.
Proof.
  revert a. induction bs as [|b bs IH]; intros a H; [done|]. cbn [length read_octets].
  pose proof (H 0%nat b eq_refl) as H0. change (Z.of_nat 0) with 0 in H0. rewrite Z.add_0_r in H0. rewrite H0, IH; [done|].
  intros k b' Hk. replace (a + 1 + Z.of_nat k) with (a + Z.of_nat (S k)) by lia. by apply H.
Qed.

Lemma getro_octets_ok s addr bs n :
  db_ok (t_db s) -> octets_at (db_mem (t_db s)) addr bs -> n = Z.of_nat (length bs) ->
  0 <= addr < view_end (t_db s) -> addr + n <= view_end (t_db s) -> getro_octets s addr n = Ok bs.
Proof.
  intros Hs Hb -> Ha He. unfold getro_octets. destruct (db_get_ok (t_db s) addr (Z.of_nat (length bs)) true false Hs) as [b ->]; [lia|lia|lia|done|].
  cbn [obind]. rewrite Nat2Z.id. by apply read_octets_ok.
Qed.

Lemma reader_getn_ok s addr bs n :
  db_ok (t_db s) -> octets_at (db_mem (t_db s)) addr bs -> n = Z.of_nat (length bs) ->
  0 <= addr < view_end (t_db s) -> addr + n <= view_end (t_db s) -> reader_getn s addr n = Ok (bs, addr + n).
Proof.
  intros Hs Hb Hn Ha He. pose proof (db_limit _ Hs) as Hl. change address_limit with 274877906944 in Hl. unfold reader_getn.
  pose proof (calc_alignment_ok addr 0 ltac:(lia) ltac:(lia) ltac:(lia)) as Hc. change (2 ^ 0) with 1 in Hc. rewrite Hc, Z.mod_1_r. cbn [obind oassert Z.ltb Z.compare].
  unfold addr_add. rewrite (wrap_small 64 (addr + 0)) by lia. rewrite Z.add_0_r.
  rewrite (getro_octets_ok s addr bs n) by done. cbn [obind]. by rewrite wrap_small by lia.
Qed.

(** What [alloc_rw] and the writes through its pointer leave *)
Record octets_put s (k : Z) (bs : list Z) (addr : Z) s' : Prop := {
  op_ok : tx_ok s';
  op_addr : addr = view_end (t_db s) + (- view_end (t_db s)) mod 2 ^ k;
  op_end : view_end (t_db s') = addr + Z.of_nat (length bs);
  op_octets : octets_at (db_mem (t_db s')) addr bs;
  op_mem : forall i, i < view_end (t_db s) -> db_mem (t_db s') !! i = db_mem (t_db s) !! i;
  op_open : is_open (t_tx s') = true;
  op_first : tx_first (t_tx s') = if is_open (t_tx s) then tx_first (t_tx s) else addr;
  op_base : tx_dbsize (t_tx s') = tx_dbsize (t_tx s)
}.

Lemma with_octets_ok addr bs s : tx_ok s -> leader_size <= addr ->
  tx_ok (TState (set_mem (write_octets addr bs (db_mem (t_db s))) (t_db s)) (t_tx s)).
Proof.
  intros [Hdb ? ? ? ?] Ha. split; try done. destruct Hdb. split; try done. cbn. revert addr Ha.
  induction bs as [|b bs IH]; intros addr Ha; [done|]. cbn [write_octets].
  apply map_Forall_insert_2; [done|]. apply IH. lia.
Qed.

Lemma put_spec size k bs s :
  tx_ok s -> 0 < size -> size = Z.of_nat (length bs) -> 0 <= k <= 12 -> view_end (t_db s) + 2 ^ k + size <= address_limit ->
  wp (put size (2 ^ k) bs) (octets_put s k bs) s.
Proof.
  intros Hs Hpos Hn Hk Hroom. unfold put. wp_head. eapply wp_mono; [by apply alloc_rw_spec|]. intros [b a] s' Hta. cbn in Hta.
  pose proof (ta_db _ _ _ _ _ Hta) as Hal. unfold poke. wp_head. wp_head. wp_head.
  pose proof (Z.mod_pos_bound (- view_end (t_db s)) (2 ^ k) ltac:(lia)) as Hpad. pose proof (al_addr _ _ _ _ _ Hal) as Ha.
  pose proof (dk_logical _ (xk_db _ Hs)). pose proof (dk_footer _ (xk_db _ Hs)). unfold leader_size, sizeof_trailer in *.
  split; cbn [t_db t_tx set_mem db_mem db_size]; try apply Hta.
  - apply with_octets_ok; [apply Hta|unfold leader_size; lia].
  - rewrite <- Hn. apply Hal.
  - apply octets_at_write.
  - intros i Hi. rewrite lookup_write_octets, decide_False by lia. rewrite (allocated_mem _ _ _ _ _ _ Hal). by rewrite decide_True.
Qed.

Lemma putn_spec bs s :
  tx_ok s -> bs <> [] -> view_end (t_db s) + 1 + Z.of_nat (length bs) <= address_limit ->
  wp (putn bs) (octets_put s 0 bs) s.
Proof. intros Hs Hne Hroom. apply (put_spec (Z.of_nat (length bs)) 0); [done|destruct bs; [done|cbn; lia]|done|lia|exact Hroom]. Qed.

(** A string in the store *)
Definition string_at m (addr : Z) (str : list Z) : Prop :=
  exists enc, length_octets (Z.of_nat (length str)) = Ok enc /\ octets_at m addr (enc ++ str).

Lemma sstring_read_ok s addr str enc :
  db_ok (t_db s) -> str <> [] -> length_octets (Z.of_nat (length str)) = Ok enc -> octets_at (db_mem (t_db s)) addr (enc ++ str) ->
  0 <= addr -> addr + Z.of_nat (length (enc ++ str)) <= view_end (t_db s) ->
  sstring_read s addr = Ok (str, addr + Z.of_nat (length (enc ++ str))).
Proof.
  intros Hs Hne He Hat Ha Hend. pose proof (db_limit _ Hs) as Hl. change address_limit with 274877906944 in Hl.
  rewrite length_app in *. assert (0 < Z.of_nat (length str)) as Hpos by (destruct str; [done|cbn; lia]).
  destruct (length_octets_ok (Z.of_nat (length str)) ltac:(lia)) as (enc' & He' & Hlen & n & Hn & Hmax & Hds & Hdn).
  rewrite He in He'. injection He' as <-. apply octets_at_app in Hat as [Henc Hstr].
  rewrite <- (take_drop 2 enc) in Henc. apply octets_at_app in Henc as [H1 H2].
  assert (length (take 2 enc) = 2%nat) as Ht by (rewrite length_take; lia). rewrite Ht in H2.
  assert (sstring_length s addr = Ok (Z.of_nat (length str), addr + Z.of_nat (length enc))) as E.
  { unfold sstring_length. rewrite (reader_getn_ok s addr (take 2 enc) 2) by (done || rewrite ?Ht; lia). cbn [obind].
    rewrite Hds. cbn [obind]. rewrite Z.gtb_ltb, (proj2 (Z.ltb_lt 0 n)) by lia. cbn [oassert obind].
    destruct (Z.gtb_spec n 2).
    - rewrite (proj2 (Z.leb_le _ _)) by (unfold max_output_length; lia). cbn [oassert obind].
      rewrite (reader_getn_ok s (addr + 2) (drop 2 enc)) by (done || rewrite ?length_drop; lia). cbn [obind fst snd].
      rewrite take_drop, Hdn. cbn [obind]. f_equal. f_equal. lia.
    - cbn [obind]. rewrite take_ge by lia. rewrite Hdn. cbn [obind]. f_equal. f_equal. lia. }
  unfold sstring_read. rewrite E. cbn [obind]. rewrite (getro_octets_ok s _ str) by (done || lia). cbn [obind].
  unfold skip, addr_add. rewrite wrap_small by lia. f_equal. f_equal. lia.
Qed.

(** A string is written behind the end of the store. *)
Record string_put s (str : list Z) (addr : Z) s' : Prop := {
  st_ok : tx_ok s';
  st_addr : addr = view_end (t_db s);
  st_end : addr + Z.of_nat (length str) < view_end (t_db s') <= addr + Z.of_nat (length str) + 9;
  st_octets : exists enc, length_octets (Z.of_nat (length str)) = Ok enc /\
    octets_at (db_mem (t_db s')) addr (enc ++ str) /\ view_end (t_db s') = addr + Z.of_nat (length (enc ++ str));
  st_mem : forall i, i < view_end (t_db s) -> db_mem (t_db s') !! i = db_mem (t_db s) !! i;
  st_first : is_open (t_tx s) = true -> tx_first (t_tx s') = tx_first (t_tx s) /\ is_open (t_tx s') = true
}.

Lemma sstring_write_spec str s :
  tx_ok s -> str <> [] -> view_end (t_db s) + Z.of_nat (length str) + 11 <= address_limit ->
  wp (sstring_write str) (string_put s str) s.
Proof.
  intros Hs Hne Hroom. pose proof (db_limit _ (xk_db _ Hs)) as Hl. pose proof (dk_logical _ (xk_db _ Hs)).
  pose proof (dk_footer _ (xk_db _ Hs)). unfold leader_size, sizeof_trailer in *.
  assert (Z.of_nat (length str) < 2 ^ 38) as Hsmall by (change address_limit with (2 ^ 38) in *; lia).
  destruct (length_octets_ok (Z.of_nat (length str)) ltac:(lia)) as (enc & He & Hlen & _).
  destruct (encode_spec (Z.of_nat (length str)) ltac:(lia)) as (e & n & E & _ & Hn & Hm & _). pose proof He as He'.
  unfold length_octets in He. rewrite E in He. cbn [obind] in He. injection He as He.
  unfold sstring_write. wp_head. wp_head. rewrite E. wp_head. wp_head. wp_head.
  { rewrite Hn, Z.gtb_ltb, (proj2 (Z.ltb_lt _ _)), (proj2 (Z.leb_le _ _)) by lia. done. }
  rewrite He. wp_head. eapply wp_mono; [apply putn_spec; [done|destruct enc; [cbn in *; lia|done]|lia]|]. intros a s1 H1.
  pose proof (op_addr _ _ _ _ _ H1) as Ha. rewrite Z.mod_1_r, Z.add_0_r in Ha. pose proof (op_end _ _ _ _ _ H1) as He1.
  wp_head. eapply wp_mono; [apply putn_spec; [apply H1|done|lia]|]. intros a2 s2 H2. wp_head.
  pose proof (op_addr _ _ _ _ _ H2) as Ha2. rewrite Z.mod_1_r, Z.add_0_r in Ha2. pose proof (op_end _ _ _ _ _ H2) as He2.
  split; [apply H2|done|lia| | |].
  - exists enc. split; [done|]. split; [|rewrite length_app; lia]. apply octets_at_app. split.
    + eapply octets_at_frame; [apply H1|]. intros i Hi. apply H2. lia.
    + replace (a + Z.of_nat (length enc)) with a2 by lia. apply H2.
  - intros i Hi. rewrite (op_mem _ _ _ _ _ H2) by lia. by apply H1.
  - intros Ho. rewrite (op_first _ _ _ _ _ H2), (op_open _ _ _ _ _ H1), (op_first _ _ _ _ _ H1), Ho. split; [done|apply H2].
Qed.
