(* ===== verification/IndirectString.v ===== *)
(** * Indirect strings

    Models include/pstore/core/indirect_string.hpp and lib/core/indirect_string.cpp: strings that
    the store refers to through a word. The word is the address of the string's body or, before
    the body has been written, the address of a string view on the heap with its lowest bit set.
    Strings are added in two phases, so that the words are close to each other: first all words
    are written, then all bodies, and the words are patched. *)

From stdpp Require Import sorting.
From S2P Require Import Prelude BitCount Varint Checksum Address Region Storage FileHeader Memory StoreIntf.
From S2P Require Import HamtTypes HamtMap Database DatabaseSpec Transaction TransactionSpec Archive.

(** The string views on the heap, by their addresses *)
Abbreviation views_heap := (gmap Z (list Z)).
Implicit Types h : views_heap.
Implicit Types s : bytes_state.

Definition in_heap_mask : Z := 1.

(** The data members of [indirect_string]; [is_word] is the union of [address_] and [str_] *)
Record indirect_string := IndirectString { is_pointer : bool; is_word : Z }.

(** The constructors *)
Definition of_address (addr : Z) : indirect_string := IndirectString false addr.
Definition of_pointer (str : Z) : outcome indirect_string :=
  _ <-? oassert (Z.land str in_heap_mask =? 0) ;; Ok (IndirectString true str).

(** [is_in_store] *)
Definition is_in_store (i : indirect_string) : bool :=
  negb (is_pointer i) && (Z.land (is_word i) in_heap_mask =? 0).

Definition deref h (p : Z) : outcome (list Z) :=
  match h !! p with
  | Some str => Ok str
  | None => Throw Undefined
  end.

(** [as_string_view] *)
Definition as_string_view h s (i : indirect_string) : outcome (list Z) :=
  if is_pointer i then deref h (is_word i)
  else if negb (Z.land (is_word i) in_heap_mask =? 0) then deref h (Z.land (is_word i) (Z.lnot in_heap_mask))
  else
    _ <-? oassert (is_in_store i) ;;
    owner <-? sstring_read s (is_word i) ;;
    Ok owner.1.

(** [as_db_string_view] *)
Definition as_db_string_view h s (i : indirect_string) : outcome (list Z) :=
  if negb (is_in_store i) then Throw (Raise bad_address) else as_string_view h s i.

(** [sstring_view::compare], for characters that are compared as octets *)
Fixpoint traits_compare (l1 l2 : list Z) : Z :=
  match l1, l2 with
  | a :: l1, b :: l2 => if a <? b then -1 else if b <? a then 1 else traits_compare l1 l2
  | _, _ => 0
  end.
Definition sstring_compare (l1 l2 : list Z) : Z :=
  let slen := length l2 in
  let common_len := min (length l1) slen in
  let result := traits_compare (take common_len l1) (take common_len l2) in
  if result =? 0 then (if (length l1 =? slen)%nat then 0 else if (length l1 <? slen)%nat then -1 else 1) else result.
Definition sstring_eqb (l1 l2 : list Z) : bool :=
  if negb (length l1 =? length l2)%nat then false else sstring_compare l1 l2 =? 0.
Definition sstring_ltb (l1 l2 : list Z) : bool := sstring_compare l1 l2 <? 0.

(** [operator==] and [operator<] *)
Definition indirect_eqb h s (lhs rhs : indirect_string) : outcome bool :=
  l <-? as_string_view h s lhs ;; r <-? as_string_view h s rhs ;; Ok (sstring_eqb l r).
Definition indirect_ltb h s (lhs rhs : indirect_string) : outcome bool :=
  l <-? as_string_view h s lhs ;; r <-? as_string_view h s rhs ;; Ok (sstring_ltb l r).

(** [write_string_address] *)
Definition write_string_address (i : indirect_string) : M bytes_state Z :=
  massert (is_pointer i) ;;;
  massert (Z.land (is_word i) in_heap_mask =? 0) ;;;
  put 8 8 (le_bytes 8 (Z.lor (is_word i) in_heap_mask)).

(** [read_string_address], and [read] *)
Definition indirect_read s (addr : Z) : outcome indirect_string :=
  w <-? (if negb (addr mod 8 =? 0) then Throw (Raise bad_alignment) else getro_octets s addr 8) ;;
  Ok (of_address (of_le w)).

(** [transaction_base::getrw], for an instance of a type *)
Definition typed_getrw s (addr size align : Z) : outcome block :=
  _ <-? oassert ((addr >=? tx_first (t_tx s)) &&
                 (addr_add addr size <=? addr_add (tx_first (t_tx s)) (tx_size (t_tx s)))) ;;
  if negb (addr mod align =? 0) then Throw (Raise bad_alignment) else db_get (t_db s) addr size true true.

(** [write_body_and_patch_address] *)
Definition write_body_and_patch_address (str : list Z) (address_to_patch : Z) : M bytes_state Z :=
  massert (negb (address_to_patch =? null_address)) ;;;
  let aligned_to := Z.shiftl 1 in_heap_mask in
  _ <- tx_allocate 0 aligned_to ;;
  body_address <- sstring_write str ;;
  s <- get ;;
  _ <- lift (typed_getrw s address_to_patch 8 8) ;;
  poke address_to_patch (le_bytes 8 body_address) ;;;
  ret body_address.

(** ** [indirect_string_adder]: the strings whose bodies have to be written, and their words *)

(** [add], when the index has returned the address of the string's leaf and whether it is new *)
Definition adder_add (str : Z) (res : Z * bool) (views : list (Z * Z)) : list (Z * Z) :=
  if res.2 then views ++ [(str, res.1)] else views.

(** [flush] *)
Fixpoint adder_flush h (views : list (Z * Z)) : M bytes_state (list (Z * Z)) :=
  match views with
  | [] => ret []
  | v :: views =>
      massert (negb (v.2 =? null_address)) ;;;
      str <- lift (deref h v.1) ;;
      _ <- write_body_and_patch_address str v.2 ;;
      adder_flush h views
  end.

(** [get_sstring_view] *)
Definition get_sstring_view h s (addr : Z) : outcome (list Z) :=
  str <-? indirect_read s addr ;;
  as_db_string_view h s str.

(** Strings that are new to the index: each leaf is the word that the serializer writes *)
Fixpoint add_strings (ptrs : list Z) (views : list (Z * Z)) : M bytes_state (list (Z * Z)) :=
  match ptrs with
  | [] => ret views
  | p :: ptrs =>
      i <- lift (of_pointer p) ;;
      addr <- write_string_address i ;;
      add_strings ptrs (adder_add p (addr, true) views)
  end.

(** ** Comparison *)

Lemma traits_compare_refl l : traits_compare l l = 0.
Proof. induction l as [|a l IH]; [done|]. cbn [traits_compare]. by rewrite Z.ltb_irrefl. Qed.

Lemma traits_compare_eq l1 l2 : length l1 = length l2 -> traits_compare l1 l2 = 0 -> l1 = l2.
Proof.
  revert l2. induction l1 as [|a l1 IH]; intros [|b l2] Hl H; try done. cbn [traits_compare] in H.
  destruct (Z.ltb_spec a b); [done|]. destruct (Z.ltb_spec b a); [done|]. f_equal; [lia|]. apply IH; [by injection Hl|done].
Qed.

(** Two views are equal when they have the same characters. *)
Lemma sstring_eqb_ok l1 l2 : sstring_eqb l1 l2 = bool_decide (l1 = l2).
Proof.
  unfold sstring_eqb, sstring_compare. destruct (Nat.eqb_spec (length l1) (length l2)) as [Hl|Hl]; cbn [negb].
  - rewrite Hl, Nat.min_id, <- Hl at 1. rewrite !take_ge by lia. case_bool_decide as E; [by subst; rewrite traits_compare_refl|].
    destruct (Z.eqb_spec (traits_compare l1 l2) 0) as [Hc|Hc]; [|by apply Z.eqb_neq]. destruct E. by apply traits_compare_eq.
  - symmetry. apply bool_decide_eq_false_2. by intros ->.
Qed.

(** ** Words *)

Definition word_at (m : octet_map) (a w : Z) : Prop := octets_at m a (le_bytes 8 w).

Lemma indirect_read_ok s a w : db_ok (t_db s) -> a mod 8 = 0 -> 0 <= a -> a + 8 <= view_end (t_db s) -> 0 <= w < 2 ^ 64 ->
  word_at (db_mem (t_db s)) a w -> indirect_read s a = Ok (of_address w).
Proof.
  intros Hs Ha Ha0 He Hw Hat. unfold indirect_read. rewrite Ha. cbn [Z.eqb negb].
  rewrite (getro_octets_ok s a (le_bytes 8 w)) by (done || rewrite ?length_le_bytes; lia). cbn [obind].
  by rewrite of_le_bytes.
Qed.

Lemma land_one_mod x : Z.land x 1 = x mod 2.
Proof. change 1 with (Z.ones 1). by rewrite Z.land_ones. Qed.

(** The word of an even pointer *)
Lemma heap_word p : p mod 2 = 0 -> Z.lor p in_heap_mask = p + 1 /\ Z.land (p + 1) (Z.lnot in_heap_mask) = p.
Proof.
  intros Hp. unfold in_heap_mask. assert (Z.land p 1 = 0) as Hl by (by rewrite land_one_mod).
  assert (Z.lor p 1 = p + 1) as Ho by (rewrite <- Z.lxor_lor, <- Z.add_nocarry_lxor by done; done). split; [done|].
  rewrite <- Ho, <- Z.ldiff_land. apply Z.bits_inj'. intros n Hn. rewrite Z.ldiff_spec, Z.lor_spec.
  apply (f_equal (fun x => Z.testbit x n)) in Hl. rewrite Z.land_spec, Z.bits_0 in Hl.
  by destruct (Z.testbit p n), (Z.testbit 1 n).
Qed.

(** A word that is not patched yet leads to the view on the heap, and is refused where the body is needed. *)
Lemma view_on_heap h s p str : p mod 2 = 0 -> h !! p = Some str ->
  as_string_view h s (of_address (p + 1)) = Ok str /\ as_db_string_view h s (of_address (p + 1)) = Throw (Raise bad_address).
Proof.
  intros Hp Hh. destruct (heap_word p Hp) as [_ E]. assert (Z.land (p + 1) in_heap_mask =? 0 = false) as Hz.
  { apply Z.eqb_neq. unfold in_heap_mask. rewrite land_one_mod, Z.add_mod, Hp by lia. done. }
  unfold as_db_string_view, as_string_view, is_in_store, deref. cbn [of_address is_pointer is_word negb andb]. rewrite Hz, E, Hh. done.
Qed.

Lemma view_in_store h s body str enc : db_ok (t_db s) -> str <> [] -> body mod 2 = 0 -> 0 <= body ->
  length_octets (Z.of_nat (length str)) = Ok enc -> octets_at (db_mem (t_db s)) body (enc ++ str) ->
  body + Z.of_nat (length (enc ++ str)) <= view_end (t_db s) -> as_db_string_view h s (of_address body) = Ok str.
Proof.
  intros Hs Hne Hb Hb0 He Hat Hend. assert (Z.land body in_heap_mask =? 0 = true) as Hz.
  { apply Z.eqb_eq. unfold in_heap_mask. by rewrite land_one_mod. }
  unfold as_db_string_view, as_string_view, is_in_store. cbn [of_address is_pointer is_word negb andb]. rewrite Hz. cbn [negb oassert obind].
  by rewrite (sstring_read_ok s body str enc).
Qed.

(** ** The first phase *)

(** A string view that can be added *)
Record heap_view_ok h (p : Z) : Prop := {
  vw_even : p mod 2 = 0;
  vw_range : 0 <= p < 2 ^ 64;
  vw_string : exists str, h !! p = Some str /\ str <> []
}.

Lemma write_string_address_spec h p s : heap_view_ok h p -> tx_ok s -> view_end (t_db s) + 16 <= address_limit ->
  wp (write_string_address (IndirectString true p)) (octets_put s 3 (le_bytes 8 (p + 1))) s.
Proof.
  intros Hv Hs Hroom. unfold write_string_address. cbn [is_pointer is_word]. wp_head. wp_head; [done|]. wp_head. wp_head.
  { apply Z.eqb_eq. unfold in_heap_mask. rewrite land_one_mod. apply Hv. }
  destruct (heap_word p (vw_even _ _ Hv)) as [-> _]. apply (put_spec 8 3); [done|lia|by rewrite length_le_bytes|lia|].
  change (2 ^ 3) with 8. lia.
Qed.

(** The words that have been written since the store ended at [lo]: aligned, in order, and apart *)
Record words s (lo : Z) (views : list (Z * Z)) : Prop := {
  wd_sorted : StronglySorted (fun v w => v.2 + 8 <= w.2) views;
  wd_place : Forall (fun v => lo <= v.2 /\ v.2 mod 8 = 0 /\ v.2 + 8 <= view_end (t_db s) /\ tx_first (t_tx s) <= v.2) views;
  wd_open : views <> [] -> is_open (t_tx s) = true
}.

Definition pending s (v : Z * Z) : Prop := word_at (db_mem (t_db s)) v.2 (v.1 + 1).

Lemma sorted_snoc {A} (R : A -> A -> Prop) l x : StronglySorted R l -> Forall (fun y => R y x) l -> StronglySorted R (l ++ [x]).
Proof.
  induction 1 as [|y l Hl IH Hy]; intros Hx; [by repeat constructor|]. apply Forall_cons in Hx as [Hyx Hx]. cbn. constructor; [by apply IH|].
  apply Forall_app. split; [done|by repeat constructor].
Qed.

Lemma words_snoc s lo views p a s' : tx_ok s -> lo <= view_end (t_db s) ->
  words s lo views -> Forall (pending s) views -> octets_put s 3 (le_bytes 8 (p + 1)) a s' ->
  words s' lo (views ++ [(p, a)]) /\ Forall (pending s') (views ++ [(p, a)]).
Proof.
  intros Hs Hlo [Hst Hpl Hop] Hpd Hput. pose proof (op_addr _ _ _ _ _ Hput) as Ha. pose proof (op_end _ _ _ _ _ Hput) as He.
  rewrite length_le_bytes in He. change (2 ^ 3) with 8 in Ha. pose proof (Z.mod_pos_bound (- view_end (t_db s)) 8 ltac:(lia)).
  assert (a mod 8 = 0) as Ham by (rewrite Ha, Z.add_mod_idemp_r, Z.add_opp_diag_r by lia; done).
  rewrite Forall_forall in Hpl. split; [split|].
  - apply sorted_snoc; [done|]. apply Forall_forall. intros v Hv. specialize (Hpl v Hv). cbn. lia.
  - apply Forall_app. split.
    + apply Forall_forall. intros v Hv. pose proof (Hpl v Hv) as (? & ? & ? & Hf). split_and!; [lia|done|lia|].
      rewrite (op_first _ _ _ _ _ Hput), Hop; [done|]. intros ->. by apply elem_of_nil in Hv.
    + repeat constructor; cbn [snd]; [lia|done|lia|]. rewrite (op_first _ _ _ _ _ Hput).
      destruct (is_open (t_tx s)) eqn:E; [|lia]. destruct (xk_first _ Hs) as [[Hn _]|Hf]; [|lia].
      unfold is_open in E. by rewrite Hn in E.
  - intros _. apply Hput.
  - apply Forall_app. split; [|repeat constructor; apply Hput]. rewrite Forall_forall in *. intros v Hv. specialize (Hpl v Hv).
    unfold pending, word_at in *. eapply octets_at_frame; [by apply Hpd|]. rewrite length_le_bytes. intros i Hi. apply Hput. lia.
Qed.

Lemma add_strings_spec h lo ptrs : forall views s,
  Forall (heap_view_ok h) ptrs -> tx_ok s -> lo <= view_end (t_db s) ->
  view_end (t_db s) + 16 * (1 + Z.of_nat (length ptrs)) <= address_limit -> words s lo views -> Forall (pending s) views ->
  wp (add_strings ptrs views) (fun r s' => tx_ok s' /\ words s' lo r /\ Forall (pending s') r /\ r.*1 = views.*1 ++ ptrs /\
    view_end (t_db s) <= view_end (t_db s') <= view_end (t_db s) + 16 * Z.of_nat (length ptrs) /\
    forall i, i < view_end (t_db s) -> db_mem (t_db s') !! i = db_mem (t_db s) !! i) s.
Proof.
  induction ptrs as [|p ptrs IH]; intros views s Hv Hs Hlo Hroom Hw Hp; cbn [add_strings].
  { wp_head. split_and!; try done; [by rewrite app_nil_r|cbn; lia..]. }
  apply Forall_cons in Hv as [Hvp Hv]. wp_head. wp_head. unfold of_pointer.
  rewrite (proj2 (Z.eqb_eq (Z.land p in_heap_mask) 0)) by (unfold in_heap_mask; rewrite land_one_mod; apply Hvp). cbn [oassert obind]. wp_head.
  cbn [length] in Hroom. wp_head. eapply wp_mono; [apply (write_string_address_spec h); [done|done|lia]|]. intros a s1 Hput. cbn beta.
  destruct (words_snoc s lo views p a s1 Hs Hlo Hw Hp Hput) as [Hw1 Hp1]. unfold adder_add. cbn [fst snd].
  pose proof (op_addr _ _ _ _ _ Hput) as Ha. pose proof (op_end _ _ _ _ _ Hput) as He. rewrite length_le_bytes in He.
  change (2 ^ 3) with 8 in Ha. pose proof (Z.mod_pos_bound (- view_end (t_db s)) 8 ltac:(lia)).
  eapply wp_mono; [apply (IH _ s1 Hv); [apply Hput|lia|lia|done|done]|]. cbn beta.
  intros r s2 (Hs2 & Hw2 & Hp2 & Hr & He2 & Hm2). split_and!; try done; [|lia|cbn [length]; lia|].
  - rewrite Hr, fmap_app, <- app_assoc. done.
  - intros i Hi. rewrite Hm2 by lia. by apply Hput.
Qed.

(** ** The second phase *)

Record patched s (str : list Z) (a body : Z) s' : Prop := {
  pt_ok : tx_ok s';
  pt_body : view_end (t_db s) <= body /\ body mod 2 = 0;
  pt_end : view_end (t_db s) < view_end (t_db s') <= view_end (t_db s) + Z.of_nat (length str) + 10;
  pt_string : exists enc, length_octets (Z.of_nat (length str)) = Ok enc /\
    octets_at (db_mem (t_db s')) body (enc ++ str) /\ view_end (t_db s') = body + Z.of_nat (length (enc ++ str));
  pt_word : word_at (db_mem (t_db s')) a body;
  pt_mem : forall i, i < view_end (t_db s) -> ~ (a <= i < a + 8) -> db_mem (t_db s') !! i = db_mem (t_db s) !! i;
  pt_first : tx_first (t_tx s') = tx_first (t_tx s) /\ is_open (t_tx s') = true
}.

Lemma typed_getrw_ok s a : tx_ok s -> is_open (t_tx s) = true -> tx_first (t_tx s) <= a -> a mod 8 = 0 -> a + 8 <= view_end (t_db s) ->
  exists b, typed_getrw s a 8 8 = Ok b.
Proof.
  intros Hs Ho Hf Ha He. pose proof (xk_size _ Hs) as Hsz. pose proof (xk_dbsize _ Hs) as Hds. pose proof (db_limit _ (xk_db _ Hs)) as Hlim.
  change address_limit with 274877906944 in Hlim. pose proof (dk_logical _ (xk_db _ Hs)). pose proof (dk_footer _ (xk_db _ Hs)).
  unfold leader_size, sizeof_trailer in *.
  destruct (xk_first _ Hs) as [[Hn _]|Hr]; [unfold is_open in Ho; by rewrite Hn in Ho|].
  unfold typed_getrw, addr_add. rewrite Z.geb_leb, (proj2 (Z.leb_le _ _)), !wrap_small by lia.
  rewrite (proj2 (Z.leb_le _ _)) by lia. cbn [andb oassert obind]. rewrite Ha. cbn [Z.eqb negb].
  apply db_get_ok; [apply Hs|lia|lia|lia|]. intros _. rewrite (writable_from _ Hs). lia.
Qed.

Lemma write_body_spec str a s :
  tx_ok s -> is_open (t_tx s) = true -> str <> [] -> tx_first (t_tx s) <= a -> a mod 8 = 0 -> leader_size <= a ->
  a + 8 <= view_end (t_db s) -> view_end (t_db s) + Z.of_nat (length str) + 14 <= address_limit ->
  wp (write_body_and_patch_address str a) (patched s str a) s.
Proof.
  intros Hs Ho Hne Hf Ha Hl He Hroom. unfold leader_size in Hl. unfold write_body_and_patch_address. wp_head. wp_head.
  { unfold null_address. by rewrite (proj2 (Z.eqb_neq _ _)) by lia. }
  change (Z.shiftl 1 in_heap_mask) with (2 ^ 1). wp_head. eapply wp_mono; [apply tx_allocate_spec; [done|lia|lia|change (2 ^ 1) with 2; lia]|].
  intros a0 s0 Hta. cbn beta. pose proof (ta_db _ _ _ _ _ Hta) as Hal. pose proof (al_addr _ _ _ _ _ Hal) as Ha0.
  pose proof (al_end _ _ _ _ _ Hal) as He0. pose proof (Z.mod_pos_bound (- view_end (t_db s)) (2 ^ 1) ltac:(lia)) as Hpad.
  change (2 ^ 1) with 2 in Ha0, Hpad. pose proof (ta_first _ _ _ _ _ Hta) as Hf0. rewrite Ho in Hf0.
  wp_head. eapply wp_mono; [apply sstring_write_spec; [apply Hta|done|lia]|]. intros body s1 Hst. cbn beta.
  pose proof (st_addr _ _ _ _ Hst) as Hb. pose proof (st_end _ _ _ _ Hst) as He1.
  destruct (st_first _ _ _ _ Hst (ta_open _ _ _ _ _ Hta)) as [Hf1 Ho1].
  destruct (typed_getrw_ok s1 a (st_ok _ _ _ _ Hst) Ho1 ltac:(lia) Ha ltac:(lia)) as [b Eb].
  apply (wp_eq _ body _ (TState (set_mem (write_octets a (le_bytes 8 body) (db_mem (t_db s1))) (t_db s1)) (t_tx s1))).
  { unfold bind at 1, get. by rewrite (bind_lift_ok _ _ _ _ Eb). }
  destruct (st_octets _ _ _ _ Hst) as (enc & Eenc & Hoct & Hend).
  split; cbn [t_db t_tx set_mem db_mem db_size]; [apply with_octets_ok; [apply Hst|unfold leader_size; lia]| |lia| | | |by rewrite Hf1, Hf0].
  - split; [lia|]. rewrite Hb, He0, Z.add_0_r, Ha0, Z.add_mod_idemp_r, Z.add_opp_diag_r by lia. done.
  - exists enc. split_and!; [done| |done]. eapply octets_at_frame; [exact Hoct|]. intros i Hi.
    rewrite lookup_write_octets, decide_False by (rewrite length_le_bytes; lia). done.
  - apply octets_at_write.
  - intros i Hi Hni. rewrite lookup_write_octets, decide_False by (rewrite length_le_bytes; lia).
    rewrite (st_mem _ _ _ _ Hst) by lia. by rewrite (allocated_mem _ _ _ _ _ _ Hal), decide_True.
Qed.

(** The word of a string leads to its body, which lies between [lo] and the end. *)
Definition in_store s (lo : Z) h (v : Z * Z) : Prop :=
  exists str enc body, h !! v.1 = Some str /\ str <> [] /\ length_octets (Z.of_nat (length str)) = Ok enc /\
    word_at (db_mem (t_db s)) v.2 body /\ octets_at (db_mem (t_db s)) body (enc ++ str) /\
    lo <= body /\ body mod 2 = 0 /\ body + Z.of_nat (length (enc ++ str)) <= view_end (t_db s).

Definition body_room h (p : Z) : Z := match h !! p with Some str => Z.of_nat (length str) + 14 | None => 14 end.
Definition bodies_room h (ptrs : list Z) : Z := foldr (fun p n => body_room h p + n) 0 ptrs.

Lemma bodies_room_nonneg h ptrs : 0 <= bodies_room h ptrs.
Proof. induction ptrs as [|p ptrs IH]; [done|]. cbn [bodies_room foldr]. fold (bodies_room h ptrs). unfold body_room. destruct (h !! p); lia. Qed.

Lemma flush_spec h lo views : forall s,
  Forall (heap_view_ok h) views.*1 -> tx_ok s -> words s lo views -> leader_size <= lo ->
  view_end (t_db s) + 14 + bodies_room h views.*1 <= address_limit ->
  wp (adder_flush h views) (fun r s' => r = [] /\ tx_ok s' /\ Forall (in_store s' (view_end (t_db s)) h) views /\
    view_end (t_db s) <= view_end (t_db s') /\
    forall i, i < view_end (t_db s) -> (forall v, v ∈ views -> ~ (v.2 <= i < v.2 + 8)) -> db_mem (t_db s') !! i = db_mem (t_db s) !! i) s.
Proof.
  induction views as [|[p a] views IH]; intros s Hv Hs Hw Hlo Hroom; cbn [adder_flush].
  { wp_head. split_and!; done || lia. }
  destruct Hw as [Hst Hpl Hop]. apply StronglySorted_inv in Hst as [Hst Hap]. apply Forall_cons in Hpl as [(Hlo' & Ham & Hae & Hfa) Hpl].
  specialize (Hop ltac:(done)). cbn [fmap list_fmap fst snd] in *. apply Forall_cons in Hv as [Hvp Hv].
  destruct (vw_string _ _ Hvp) as (str & Hstr & Hne). cbn [bodies_room foldr] in Hroom. fold (bodies_room h views.*1) in Hroom.
  unfold body_room in Hroom. rewrite Hstr in Hroom. pose proof (bodies_room_nonneg h views.*1).
  unfold leader_size in Hlo. wp_head. wp_head. { unfold null_address. by rewrite (proj2 (Z.eqb_neq _ _)) by lia. }
  wp_head. wp_head. unfold deref. rewrite Hstr. wp_head. wp_head.
  eapply wp_mono; [apply write_body_spec; try done; unfold leader_size; lia|]. intros body s1 Hpt. cbn beta.
  pose proof (pt_end _ _ _ _ _ Hpt) as He1. destruct (pt_first _ _ _ _ _ Hpt) as [Hf1 Ho1]. pose proof (pt_body _ _ _ _ _ Hpt) as [Hb1 Hb2].
  destruct (pt_string _ _ _ _ _ Hpt) as (enc & Ee & Hoct & Hend1). rewrite Forall_forall in Hap, Hpl.
  assert (words s1 lo views) as Hw1.
  { split; [done| |by intros _]. apply Forall_forall. intros v Hin. rewrite Hf1. destruct (Hpl v Hin) as (? & ? & ? & ?). split_and!; done || lia. }
  eapply wp_mono; [apply (IH s1 Hv (pt_ok _ _ _ _ _ Hpt) Hw1); [unfold leader_size; lia|lia]|]. cbn beta.
  intros r s2 (-> & Hs2 & Hin2 & He2 & Hm2). split_and!; [done|done| |lia|].
  - constructor.
    + exists str, enc, body. cbn [fst snd]. split_and!; [done|done|done| | |done|done|lia].
      * eapply octets_at_frame; [apply Hpt|]. rewrite length_le_bytes. intros i Hi. apply Hm2; [lia|].
        intros v Hvin. specialize (Hap v Hvin). cbn in Hap. lia.
      * eapply octets_at_frame; [exact Hoct|]. intros i Hi. apply Hm2; [lia|].
        intros v Hvin. destruct (Hpl v Hvin) as (? & ? & ? & ?). lia.
    + eapply Forall_impl; [exact Hin2|]. intros v (str' & enc' & body' & H1 & H2 & H3 & H4 & H5 & H6 & H7 & H8).
      exists str', enc', body'. split_and!; try done. lia.
  - intros i Hi Hni. rewrite Hm2; [|lia|].
    + apply Hpt; [lia|]. apply (Hni (p, a)). by left.
    + intros v Hvin. apply Hni. by right.
Qed.

(** A word that leads to a body is read as that body in any state that has the same octets. *)
Lemma in_store_reads s lo h p a str t :
  in_store s lo h (p, a) -> h !! p = Some str -> a mod 8 = 0 -> lo <= a -> 0 <= lo -> a + 8 <= view_end (t_db s) ->
  db_ok (t_db t) -> view_end (t_db s) <= view_end (t_db t) ->
  (forall i, lo <= i < view_end (t_db s) -> db_mem (t_db t) !! i = db_mem (t_db s) !! i) ->
  exists w, indirect_read t a = Ok (of_address w) /\ as_string_view ∅ t (of_address w) = Ok str /\
    as_db_string_view ∅ t (of_address w) = Ok str.
Proof.
  intros (str' & enc & body & Hs' & Hne & Ee & Hwa & Hoct & Hb1 & Hb2 & Hb3) Hstr Ham Hla Hlo Hae Ht Het Hmt. cbn [fst snd] in *.
  assert (str' = str) as -> by congruence. pose proof (db_limit _ Ht) as Hlim. change address_limit with 274877906944 in Hlim.
  assert (0 <= body) by lia. exists body. assert (as_db_string_view ∅ t (of_address body) = Ok str) as Hdb.
  { apply (view_in_store _ _ _ _ enc); try done; [|lia]. eapply octets_at_frame; [exact Hoct|]. intros i Hi. apply Hmt. lia. }
  split_and!; [|by unfold as_db_string_view in Hdb; destruct (negb _)|done].
  apply indirect_read_ok; try done; try lia. eapply octets_at_frame; [exact Hwa|]. rewrite length_le_bytes. intros i Hi. apply Hmt. lia.
Qed.

(** ** Claims *)

(** C20: strings that are not empty, added to the store in two phases. After the first phase every word leads to its view
    on the heap, and a reader that needs the body is told so by an exception. The second phase
    succeeds; then, and in any later state in which what was written is unchanged, every word
    leads to the body of its string in the store, without the heap. What the store held before
    is untouched, and two indirect strings are equal exactly when their characters are. *)
Theorem strings_stored h (ptrs : list Z) s :
  tx_ok s -> Forall (heap_view_ok h) ptrs ->
  view_end (t_db s) + 16 * (2 + Z.of_nat (length ptrs)) + bodies_room h ptrs <= address_limit ->
  exists views s1 s2, add_strings ptrs [] s = (Ok views, s1) /\ adder_flush h views s1 = (Ok [], s2) /\
    views.*1 = ptrs /\ tx_ok s1 /\ tx_ok s2 /\
    (forall i, i < view_end (t_db s) -> db_mem (t_db s2) !! i = db_mem (t_db s) !! i) /\
    forall p a str, (p, a) ∈ views -> h !! p = Some str ->
      (i <-? indirect_read s1 a ;; as_string_view h s1 i) = Ok str /\
      get_sstring_view h s1 a = Throw (Raise bad_address) /\
      forall t, db_ok (t_db t) -> view_end (t_db s2) <= view_end (t_db t) ->
        (forall i, view_end (t_db s) <= i < view_end (t_db s2) -> db_mem (t_db t) !! i = db_mem (t_db s2) !! i) ->
        get_sstring_view ∅ t a = Ok str /\
        forall p' a' str', (p', a') ∈ views -> h !! p' = Some str' ->
          (i <-? indirect_read t a ;; j <-? indirect_read t a' ;; indirect_eqb ∅ t i j) = Ok (bool_decide (str = str')).
Proof.
  intros Hs Hv Hroom. pose proof (bodies_room_nonneg h ptrs). set (lo := view_end (t_db s)) in *.
  assert (words s lo []) as Hw by (by repeat constructor).
  assert (leader_size <= lo) as Hlo.
  { pose proof (dk_logical _ (xk_db _ Hs)). pose proof (dk_footer _ (xk_db _ Hs)). unfold leader_size, sizeof_trailer in *. lia. }
  destruct (wp_elim _ _ _ (add_strings_spec h lo ptrs [] s Hv Hs ltac:(lia) ltac:(lia) Hw ltac:(constructor)))
    as (views & s1 & E1 & Hs1 & Hw1 & Hp1 & Hfst & He1 & Hm1). cbn in Hfst.
  destruct (wp_elim _ _ _ (flush_spec h lo views s1 ltac:(by rewrite Hfst) Hs1 Hw1 Hlo ltac:(rewrite Hfst; lia)))
    as (r & s2 & E2 & -> & Hs2 & Hin & He2 & Hm2).
  exists views, s1, s2. pose proof (wd_place _ _ _ Hw1) as Hpl. rewrite Forall_forall in Hpl, Hp1, Hin. rewrite <- Hfst in Hv.
  rewrite Forall_fmap, Forall_forall in Hv. split_and!; try done.
  { intros i Hi. rewrite Hm2; [by apply Hm1|lia|]. intros v Hvin. destruct (Hpl v Hvin) as (? & _). lia. }
  assert (forall p a str t, (p, a) ∈ views -> h !! p = Some str -> db_ok (t_db t) -> view_end (t_db s2) <= view_end (t_db t) ->
    (forall i, lo <= i < view_end (t_db s2) -> db_mem (t_db t) !! i = db_mem (t_db s2) !! i) ->
    exists w, indirect_read t a = Ok (of_address w) /\ as_string_view ∅ t (of_address w) = Ok str /\
      as_db_string_view ∅ t (of_address w) = Ok str) as Hafter.
  { intros p a str t Hva Hstr Ht Het Hmt. destruct (Hpl _ Hva) as (? & ? & ? & _). unfold leader_size in Hlo.
    apply (in_store_reads s2 lo h p a str t); try done; cbn [snd] in *; try lia.
    destruct (Hin _ Hva) as (str' & enc & body & ? & ? & ? & ? & ? & ? & ? & ?). exists str', enc, body. split_and!; done || lia. }
  intros p a str Hva Hstr. destruct (Hpl _ Hva) as (Hla & Ham & Hae & _). pose proof (Hv _ Hva) as Hvp. cbn [fst snd compose] in *.
  assert (indirect_read s1 a = Ok (of_address (p + 1))) as Hr1.
  { unfold leader_size in Hlo. apply indirect_read_ok; try done; try apply Hs1; try lia; [|exact (Hp1 _ Hva)].
    pose proof (vw_range _ _ Hvp). pose proof (vw_even _ _ Hvp) as Hev. rewrite Z.mod_eq in Hev by lia. lia. }
  destruct (view_on_heap h s1 p str (vw_even _ _ Hvp) Hstr) as [Hr2 Hr3].
  unfold get_sstring_view. rewrite Hr1. cbn [obind]. split; [done|]. split; [done|]. intros t Ht Het Hmt.
  destruct (Hafter p a str t Hva Hstr Ht Het Hmt) as (w & -> & Hw1' & Hw2'). cbn [obind]. split; [done|].
  intros p' a' str' Hva' Hstr'. destruct (Hafter p' a' str' t Hva' Hstr' Ht Het Hmt) as (w' & -> & Hw3 & _). cbn [obind].
  unfold indirect_eqb. rewrite Hw1', Hw3. cbn [obind]. by rewrite sstring_eqb_ok.
Qed.

(** Two names on the heap *)
Definition example_heap : views_heap := {[ 4096 := [102; 111; 111]; 4112 := [98; 97; 114] ]}.

Lemma strings_stored_witness : exists s s1 s2 a b, add_strings [4096; 4112] [] s = (Ok [(4096, a); (4112, b)], s1) /\
  adder_flush example_heap [(4096, a); (4112, b)] s1 = (Ok [], s2) /\
  get_sstring_view example_heap s1 b = Throw (Raise bad_address) /\ get_sstring_view ∅ s2 b = Ok [98; 97; 114].
Proof.
  destruct (new_store_ready (O := Z) 12 (replicate 16 0) 0 ltac:(lia)) as (db & tx & _ & _ & Hok & He).
  assert (forall p str, example_heap !! p = Some str -> p mod 2 = 0 -> 0 <= p < 2 ^ 64 -> str <> [] -> heap_view_ok example_heap p) as Hview.
  { intros p str Hp H1 H2 H3. split; [done|done|by exists str]. }
  destruct (strings_stored example_heap [4096; 4112] (TState db tx) Hok) as (views & s1 & s2 & E1 & E2 & Hf & _ & Hs2 & _ & H).
  { repeat constructor; eapply Hview; done. }
  { cbn [t_db]. rewrite He. vm_compute. done. }
  exists (TState db tx), s1, s2. destruct views as [|[p a] [|[q b] [|]]]; try done. injection Hf as -> ->.
  exists a, b. split; [exact E1|]. split; [exact E2|].
  destruct (H 4112 b [98; 97; 114]) as (_ & Hb & Ht); [by right; left|reflexivity|]. split; [exact Hb|].
  apply Ht; [apply Hs2|lia|done].
Defined.
