(* ===== verification/Compilation.v ===== *)
(** * Compilations

    Models include/pstore/mcrepo/compilation.hpp and lib/mcrepo/compilation.cpp: the record of the
    result of a compiler, which names a fragment for each symbol. A compilation is allocated in a
    transaction (Transaction.v) and read from its database. Signature checks are enabled. *)

From S2P Require Import Prelude BitCount BitField Checksum Address Region Storage FileHeader Memory StoreIntf RepoSection.
From S2P Require Import HamtTypes HamtMap Database DatabaseSpec Transaction TransactionSpec.

(** [linkage] and [visibility] *)
Inductive linkage :=
  | append | common | external | internal_no_symbol | internal | link_once_any | link_once_odr | weak_any | weak_odr.
Inductive visibility := default_vis | hidden_vis | protected_vis.

#[global] Instance linkage_eq_dec : EqDecision linkage.
Proof. solve_decision. Defined.
#[global] Instance visibility_eq_dec : EqDecision visibility.
Proof. solve_decision. Defined.

Definition linkages : list linkage :=
  [append; common; external; internal_no_symbol; internal; link_once_any; link_once_odr; weak_any; weak_odr].
Definition visibilities : list visibility := [default_vis; hidden_vis; protected_vis].

(** The values of the enumerators *)
Definition linkage_value (l : linkage) : Z :=
  match l with
  | append => 0 | common => 1 | external => 2 | internal_no_symbol => 3 | internal => 4
  | link_once_any => 5 | link_once_odr => 6 | weak_any => 7 | weak_odr => 8
  end.
Definition visibility_value (v : visibility) : Z :=
  match v with default_vis => 0 | hidden_vis => 1 | protected_vis => 2 end.

(** [operator<<] of a value of the type [linkage], which need not be that of an enumerator *)
Definition linkage_name (v : Z) : list Z :=
  match linkages !! Z.to_nat v with
  | Some append => [97; 112; 112; 101; 110; 100] (* append *)
  | Some common => [99; 111; 109; 109; 111; 110] (* common *)
  | Some external => [101; 120; 116; 101; 114; 110; 97; 108] (* external *)
  | Some internal_no_symbol => [105; 110; 116; 101; 114; 110; 97; 108; 95; 110; 111; 95; 115; 121; 109; 98; 111; 108] (* internal_no_symbol *)
  | Some internal => [105; 110; 116; 101; 114; 110; 97; 108] (* internal *)
  | Some link_once_any => [108; 105; 110; 107; 95; 111; 110; 99; 101; 95; 97; 110; 121] (* link_once_any *)
  | Some link_once_odr => [108; 105; 110; 107; 95; 111; 110; 99; 101; 95; 111; 100; 114] (* link_once_odr *)
  | Some weak_any => [119; 101; 97; 107; 95; 97; 110; 121] (* weak_any *)
  | Some weak_odr => [119; 101; 97; 107; 95; 111; 100; 114] (* weak_odr *)
  | None => [117; 110; 107; 110; 111; 119; 110] (* unknown *)
  end.

(** [compilation_member]; [cm_bf] is the byte that the two bit fields share *)
Record compilation_member := CompilationMember {
  cm_digest : Z;
  cm_fext : extent;
  cm_name : Z;
  cm_bf : Z
}.

(** The member functions [linkage] and [visibility] *)
Definition member_linkage (m : compilation_member) : Z := bit_field_value 0 4 (cm_bf m).
Definition member_visibility (m : compilation_member) : Z := bit_field_value 4 2 (cm_bf m).

(** [assert_enum_field_width], for a field of [bits] bits *)
Definition assert_enum_field_width (init : list Z) (bits : Z) : outcome unit :=
  oassert (round_to_power_of_2_u32 (wrap32 (foldr Z.max 0 init + 1)) =? wrap32 ((2 ^ bits - 1) + 1)).

(** The constructor *)
Definition compilation_member_ctor (d : Z) (x : extent) (n : Z) (l : linkage) (v : visibility) : outcome compilation_member :=
  _ <-? assert_enum_field_width (linkage_value <$> linkages) 4 ;;
  _ <-? assert_enum_field_width (visibility_value <$> visibilities) 2 ;;
  let bf := bit_field_assign 8 0 4 0 (linkage_value l) in
  let bf := bit_field_assign 8 4 2 bf (visibility_value v) in
  Ok (CompilationMember d x n bf).

(** [compilation] *)
Record compilation := mk_compilation {
  c_signature : list Z;
  c_path : Z;
  c_triple : Z;
  c_size : Z;
  c_members : list compilation_member
}.

Definition compilation_signature : list Z := [67; 109; 112; 108; 56; 105; 111; 110]. (* Cmpl8ion *)
Definition sizeof_member : Z := 48.
Definition alignof_compilation : Z := 16.
Definition sizeof_compilation : Z := 32 + sizeof_member.

(** [operator[]], [empty], [size] *)
Definition member_at (c : compilation) (i : Z) : outcome compilation_member :=
  _ <-? oassert (i <? c_size c) ;;
  match c_members c !! Z.to_nat i with
  | Some m => Ok m
  | None => Throw Undefined
  end.
Definition compilation_empty (c : compilation) : bool := c_size c =? 0.

(** [size_bytes], static and of an object *)
Definition members_size_bytes (size : Z) : Z :=
  let size := Z.max size 1 in
  wrap64 (sizeof_compilation - sizeof_member + wrap64 (sizeof_member * size)).
Definition compilation_size_bytes (c : compilation) : Z := members_size_bytes (c_size c).

(** The constructor, whose members are copied into the storage behind the object *)
Definition compilation_ctor (path triple size : Z) (members : list compilation_member) : outcome compilation :=
  _ <-? oassert (Z.of_nat (length members) =? size) ;;
  Ok (mk_compilation compilation_signature path triple size members).

(** Compilations among the objects of a store *)
Class CompilationStore (O : Type) := {
  of_compilation : compilation -> O;
  to_compilation : O -> option compilation;
  to_of_compilation : forall c, to_compilation (of_compilation c) = Some c
}.

Section store.
Context {O : Type} `{CS : CompilationStore O}.
Local Abbreviation S := (tstate O).

(** [alloc] *)
Definition compilation_alloc (path triple : Z) (members : list compilation_member) : M S extent :=
  let dist := Z.of_nat (length members) in
  massert (dist >=? 0) ;;;
  if dist >? 2 ^ 32 - 1 then throw (RaiseRepo too_many_members_in_compilation)
  else
    let num_members := wrap32 dist in
    let size := members_size_bytes num_members in
    addr <- tx_allocate size alignof_compilation ;;
    s <- get ;;
    _ <- lift (tx_getrw s addr size) ;;
    c <- lift (compilation_ctor path triple num_members members) ;;
    Transaction.construct addr (DObj (of_compilation c)) ;;;
    ret (Extent addr size).

(** [load] *)
Definition compilation_load (s : S) (location : extent) : outcome compilation :=
  o <-? (if negb (ex_addr location mod alignof_compilation =? 0) then Throw (Raise bad_alignment)
         else getro_object s (ex_addr location) (ex_size location)) ;;
  match to_compilation o with
  | None => Throw Dangling
  | Some t =>
      if negb (bool_decide (c_signature t = compilation_signature)) then Throw (RaiseRepo bad_compilation_record)
      else if negb (compilation_size_bytes t =? ex_size location) then Throw (RaiseRepo bad_compilation_record)
      else Ok t
  end.
End store.

(** ** Members *)

Lemma bf_values l v : exists bf, forall d x n,
  compilation_member_ctor d x n l v = Ok (CompilationMember d x n bf) /\
  bit_field_value 0 4 bf = linkage_value l /\ bit_field_value 4 2 bf = visibility_value v.
Proof. destruct l, v; eexists; intros; (split; [vm_compute; reflexivity|split; reflexivity]). Qed.

Lemma linkage_of_value l : linkages !! Z.to_nat (linkage_value l) = Some l.
Proof. by destruct l. Qed.

Lemma members_size_ok n : 0 <= n < 2 ^ 32 -> members_size_bytes n = 32 + 48 * Z.max n 1.
Proof.
  intros Hn. unfold members_size_bytes, sizeof_compilation, sizeof_member.
  rewrite (wrap_small 64 (48 * _)), wrap_small by lia. lia.
Qed.

(** ** Creating and loading compilations *)

Section store_spec.
Context {O : Type} `{CS : CompilationStore O}.
Local Abbreviation S := (tstate O).
Implicit Types s : S.

(** The size of a compilation of some members *)
Definition compilation_end (members : list compilation_member) : Z := 32 + 48 * Z.max (Z.of_nat (length members)) 1.

Record compilation_stored s (path triple : Z) (members : list compilation_member) (x : extent) (s' : S) (c : compilation) : Prop := {
  cs_ok : tx_ok s';
  cs_addr : view_end (t_db s) <= ex_addr x < view_end (t_db s) + 16;
  cs_aligned : ex_addr x mod 16 = 0;
  cs_size : ex_size x = compilation_end members;
  cs_end : view_end (t_db s') = ex_addr x + ex_size x;
  cs_objects : live_objects s' = <[ex_addr x := of_compilation c]> (live_objects s);
  cs_value : c = mk_compilation compilation_signature path triple (Z.of_nat (length members)) members
}.

(** Memory that has been allocated in a transaction can be written in it. *)
Lemma tx_getrw_ok s size k addr s' :
  tx_ok s -> 0 < size -> 0 <= k <= 12 -> tx_allocated s size k addr s' -> exists b, tx_getrw s' addr size = Ok b.
Proof.
  intros Hs Hsize Hk Hta. pose proof (ta_db _ _ _ _ _ Hta) as Hal. pose proof (ta_ok _ _ _ _ _ Hta) as Hok'.
  pose proof (al_end _ _ _ _ _ Hal) as He. pose proof (al_addr _ _ _ _ _ Hal) as Ha.
  pose proof (Z.mod_pos_bound (- view_end (t_db s)) (2 ^ k) ltac:(lia)) as Hpad.
  pose proof (dk_logical _ (xk_db _ Hs)). pose proof (dk_footer _ (xk_db _ Hs)).
  pose proof (xk_dbsize _ Hs) as Hds. pose proof (xk_size _ Hok') as Hsz. rewrite (ta_dbsize _ _ _ _ _ Hta) in Hsz.
  pose proof (db_limit _ (xk_db _ Hok')) as Hlim. change address_limit with 274877906944 in Hlim.
  unfold leader_size, sizeof_trailer in *.
  assert (tx_first (t_tx s') <= addr /\ view_end (t_db s') <= tx_first (t_tx s') + tx_size (t_tx s') /\
    0 <= tx_first (t_tx s') + tx_size (t_tx s') < 2 ^ 64) as (Hf & Hf2 & Hf3).
  { rewrite (ta_first _ _ _ _ _ Hta). unfold is_open. destruct (Z.eqb_spec (tx_first (t_tx s)) null_address) as [E|E]; cbn [negb].
    - lia.
    - destruct (xk_first _ Hs) as [[? _]|]; [done|]. lia. }
  unfold tx_getrw, addr_add. rewrite Z.geb_leb, (proj2 (Z.leb_le _ _)) by lia.
  rewrite !wrap_small by lia. rewrite (proj2 (Z.leb_le _ _)) by lia. cbn [andb oassert obind].
  apply db_get_ok; [apply Hok'|lia|lia|lia|]. intros _. rewrite (writable_from _ Hok'), (ta_dbsize _ _ _ _ _ Hta). lia.
Qed.

Lemma compilation_alloc_ok s path triple members :
  tx_ok s -> Z.of_nat (length members) < 2 ^ 32 ->
  view_end (t_db s) + 16 + compilation_end members <= address_limit ->
  exists x s' c, compilation_alloc path triple members s = (Ok x, s') /\ compilation_stored s path triple members x s' c.
Proof.
  intros Hs Hn Hroom. set (c := mk_compilation compilation_signature path triple (Z.of_nat (length members)) members).
  assert (0 < compilation_end members) as Hpos by (unfold compilation_end; lia).
  destruct (wp_elim _ _ _ (tx_allocate_spec s (compilation_end members) 4 Hs ltac:(lia) ltac:(lia) Hroom)) as (a & s' & E & Hta).
  destruct (tx_getrw_ok s _ 4 a s' Hs Hpos ltac:(lia) Hta) as [b Hb]. pose proof (ta_db _ _ _ _ _ Hta) as Hal.
  pose proof (Z.mod_pos_bound (- view_end (t_db s)) (2 ^ 4) ltac:(lia)) as Hpad.
  pose proof (al_end _ _ _ _ _ Hal) as He. pose proof (al_addr _ _ _ _ _ Hal) as Ha.
  pose proof (dk_logical _ (xk_db _ Hs)). pose proof (dk_footer _ (xk_db _ Hs)). unfold leader_size, sizeof_trailer in *.
  exists (Extent a (compilation_end members)), (with_object a (DObj (of_compilation c)) s'), c. split.
  - unfold compilation_alloc. change alignof_compilation with (2 ^ 4). rewrite bind_massert_true by (rewrite Z.geb_leb; apply Z.leb_le; lia).
    rewrite Z.gtb_ltb, (proj2 (Z.ltb_ge _ _)), wrap_small, members_size_ok by lia. fold (compilation_end members).
    rewrite (bind_ok _ _ _ _ _ E). unfold bind at 1, get. rewrite (bind_lift_ok _ _ _ _ Hb).
    unfold compilation_ctor. rewrite Z.eqb_refl. cbn [oassert obind]. by erewrite bind_lift_ok by done.
  - split; cbn [ex_addr ex_size]; try done.
    + apply with_object_ok; [apply Hta|unfold leader_size; lia].
    + lia.
    + rewrite Ha. change (2 ^ 4) with 16. rewrite Z.add_mod_idemp_r, Z.add_opp_diag_r by lia. done.
    + apply map_eq. intros i. apply option_eq. intros y.
      rewrite lookup_insert_Some, !lookup_live_objects. cbn [with_object t_db set_mem db_mem db_size].
      rewrite lookup_insert_Some, (allocated_mem _ _ _ _ _ _ Hal). case_decide; naive_solver lia.
Qed.

Lemma compilation_load_ok s path triple members x s' c t :
  Z.of_nat (length members) < 2 ^ 32 -> compilation_stored s path triple members x s' c ->
  db_ok (t_db t) -> view_end (t_db s') <= view_end (t_db t) -> live_objects t !! ex_addr x = Some (of_compilation c) ->
  compilation_load t x = Ok c.
Proof.
  intros Hn Hst Ht Hend Hob. pose proof (cs_size _ _ _ _ _ _ _ Hst) as Hx. pose proof (cs_end _ _ _ _ _ _ _ Hst) as He.
  apply lookup_live_objects in Hob as [Hlt Hm]. unfold compilation_load, getro_object.
  change alignof_compilation with 16. rewrite (cs_aligned _ _ _ _ _ _ _ Hst). cbn [Z.eqb negb].
  rewrite (db_getro_ok _ _ (ex_size x) _ Ht Hm Hlt) by (unfold compilation_end in *; lia). cbn [obind].
  rewrite to_of_compilation, (cs_value _ _ _ _ _ _ _ Hst). cbn [c_signature c_size]. rewrite bool_decide_true by done. cbn [negb].
  unfold compilation_size_bytes. cbn [c_size]. rewrite members_size_ok, Hx by lia. by rewrite Z.eqb_refl.
Qed.

(** An extent of another size is refused. *)
Lemma compilation_load_size s path triple members x s' c t n :
  Z.of_nat (length members) < 2 ^ 32 -> compilation_stored s path triple members x s' c ->
  db_ok (t_db t) -> live_objects t !! ex_addr x = Some (of_compilation c) -> n <> ex_size x ->
  0 <= n -> ex_addr x + n <= view_end (t_db t) ->
  compilation_load t (Extent (ex_addr x) n) = Throw (RaiseRepo bad_compilation_record).
Proof.
  intros Hn Hst Ht Hob Hne Hn0 Hle. pose proof (cs_size _ _ _ _ _ _ _ Hst) as Hx.
  apply lookup_live_objects in Hob as [Hlt Hm]. unfold compilation_load, getro_object. cbn [ex_addr ex_size].
  change alignof_compilation with 16. rewrite (cs_aligned _ _ _ _ _ _ _ Hst). cbn [Z.eqb negb].
  rewrite (db_getro_ok _ _ n _ Ht Hm Hlt Hn0 Hle). cbn [obind].
  rewrite to_of_compilation, (cs_value _ _ _ _ _ _ _ Hst). cbn [c_signature c_size]. rewrite bool_decide_true by done. cbn [negb].
  unfold compilation_size_bytes. cbn [c_size]. rewrite members_size_ok by lia.
  unfold compilation_end in Hx. by rewrite (proj2 (Z.eqb_neq _ _)) by lia.
Qed.

Lemma compilation_too_large s path triple members :
  2 ^ 32 <= Z.of_nat (length members) ->
  compilation_alloc path triple members s = (Throw (RaiseRepo too_many_members_in_compilation), s).
Proof.
  intros Hn. unfold compilation_alloc. rewrite bind_massert_true by (rewrite Z.geb_leb; apply Z.leb_le; lia).
  by rewrite Z.gtb_ltb, (proj2 (Z.ltb_lt _ _)) by lia.
Qed.
End store_spec.
