(* ===== verification/Repository.v ===== *)
(** * Claims: the program repository

    Fragments (Fragment.v) and compilations (Compilation.v) in a store, with witnesses on a
    transaction of a new database. *)

From stdpp Require Import sorting.
From S2P Require Import Prelude BitCount BitField Checksum Address Region Storage FileHeader Memory SparseArray StoreIntf.
From S2P Require Import RepoSection RepoSectionSpec Fragment.
From S2P Require Import HamtTypes HamtMap Database DatabaseSpec Transaction TransactionSpec Compilation.

(** The objects of a repository *)
Inductive repo_object :=
  | RFragment (f : fragment)
  | RCompilation (c : compilation).

#[export] Instance repo_fragments : FragmentStore repo_object := {|
  of_fragment := RFragment;
  to_fragment := fun o => match o with RFragment f => Some f | _ => None end;
  to_of_fragment := fun f => eq_refl
|}.
#[export] Instance repo_compilations : CompilationStore repo_object := {|
  of_compilation := RCompilation;
  to_compilation := fun o => match o with RCompilation c => Some c | _ => None end;
  to_of_compilation := fun f => eq_refl
|}.

(** What a fragment yields for a section is what the section was made from. *)
Definition section_restored (f : fragment) (c : creation_dispatcher) : Prop :=
  let kind := creation_kind c in
  match c with
  | GenericCreation _ sec | DebugLineCreation _ sec =>
      section_align f kind = Ok (sc_align sec) /\ section_size f kind = Ok (Z.of_nat (length (sc_data sec))) /\
      section_value f kind = Ok (sc_data sec) /\ section_ifixups f kind = Ok (sc_ifixups sec) /\
      section_xfixups f kind = Ok (sc_xfixups sec)
  | BssCreation sec =>
      section_align f kind = Ok (sc_align sec) /\ section_size f kind = Ok (Z.of_nat (length (sc_data sec))) /\
      section_value f kind = Ok [] /\ section_ifixups f kind = Ok [] /\ section_xfixups f kind = Ok []
  | DependentsCreation members => (p <-? section_offset f kind ;; dependents_elements p (fr_mem f)) = Ok members
  end /\
  match c with
  | DebugLineCreation header _ => (p <-? section_offset f kind ;; header_extent p (fr_mem f)) = Ok header
  | _ => True
  end.

Lemma section_restored_ok cs f c : sections_ok cs -> populated cs f -> c ∈ cs -> section_restored f c.
Proof.
  intros Hok Hp [k Hk]%list_elem_of_lookup_1. destruct (section_reads_place cs f Hok Hp k c Hk) as (p & Hm & Ho & _ & Hr & Hh).
  unfold section_restored, section_align, section_size, section_value, section_ifixups, section_xfixups.
  rewrite Hm, Ho. cbn [obind fst snd]. destruct c; split; done || apply Hr.
Qed.

Lemma has_section_kinds cs f kind : populated cs f -> has_section f kind = bool_decide (kind ∈ creation_kind <$> cs).
Proof.
  intros Hp. rewrite (has_section_ok cs f Hp). unfold kinds. rewrite list_fmap_compose. apply bool_decide_ext.
  rewrite list_elem_of_fmap. split; [|naive_solver]. intros (k & Hk & Hin). assert (kind = k) as -> by (by destruct kind, k). done.
Qed.

(** ** Fragments *)

Section fragments.
Context {St O : Type} `{TL : TransactionStoreLaws St O} `{FS : FragmentStore O}.

(** C17: a fragment made from sections of distinct kinds in order is appended to the store, at an
    aligned address and in exactly the bytes of the extent that is returned, leaving every other
    object as it is. In any later state of the store the extent loads as a fragment that has
    exactly the given sections, with their alignments, data and fixups. *)
Theorem fragment_roundtrip (cs : list creation_dispatcher) (s : St) :
  sections_ok cs -> ts_inv s -> ts_size s + 8 + fragment_end cs <= ts_limit ->
  exists x s' f, fragment_alloc cs s = (Ok x, s') /\ ts_inv s' /\
    ex_addr x mod 8 = 0 /\ ts_size s <= ex_addr x < ts_size s + 8 /\ ts_size s' = ex_addr x + ex_size x /\
    ts_objects s' = <[ex_addr x := of_fragment f]> (ts_objects s) /\
    (forall t, ts_readable t -> ts_size s' <= ts_size t -> ts_objects t !! ex_addr x = ts_objects s' !! ex_addr x ->
      fragment_load t x = Ok f) /\
    fragment_size_bytes f = Ok (ex_size x) /\
    (forall kind, has_section f kind = bool_decide (kind ∈ creation_kind <$> cs)) /\
    (forall c, c ∈ cs -> section_restored f c).
Proof.
  intros Hok Hs Hroom. destruct (fragment_alloc_ok cs s Hok Hs Hroom) as (x & s' & f & E & Hst). pose proof (fs_populated _ _ _ _ _ Hst) as Hp.
  exists x, s', f. split; [exact E|]. split_and!; try apply Hst.
  - intros t Ht Hsz Hob. apply (fragment_load_ok s cs x s' f t); try done.
    by rewrite Hob, (fs_objects _ _ _ _ _ Hst), lookup_insert_eq.
  - rewrite (fs_size _ _ _ _ _ Hst). by apply fragment_size_ok.
  - intros kind. by apply has_section_kinds.
  - intros c. by apply section_restored_ok.
Qed.
End fragments.

Lemma lookup_kind f kind : 0 <= bitmap_ (fr_arr f) < 2 ^ 64 -> has_section f kind = true ->
  exists k, set_bits 64 (bitmap_ (fr_arr f)) !! k = Some (kind_index kind).
Proof.
  intros Hbm Hh. unfold has_section in Hh. rewrite has_index_bits in Hh by (destruct kind; cbn; lia).
  apply bool_decide_eq_true_1 in Hh. by apply list_elem_of_lookup_1 in Hh.
Qed.

(** C18: whatever the bytes of a fragment are, when the checks of [load] accept it then each of its
    sections lies inside the extent, aligned, with room for its type and for the bytes that it
    claims to have, and below every section of a greater kind. *)
Theorem fragment_validated (f : fragment) (fext : extent) :
  0 <= ex_size fext < 2 ^ 64 -> Forall (fun p => 0 <= p < 2 ^ 64) (elements_ (fr_arr f)) ->
  0 <= bitmap_ (fr_arr f) < 2 ^ 64 -> fragment_appears_valid f fext = Ok true ->
  fr_signature f = fragment_signature /\
  forall kind, has_section f kind = true -> kind <> sk_last /\
    exists p s, make_dispatcher f kind = Ok (enum_to_section kind, p) /\
      dispatch_size_bytes (enum_to_section kind) p (fr_mem f) = Ok s /\
      sizeof_fragment <= p /\ wrap64 (ex_addr fext + p) mod 8 = 0 /\ p + section_room kind s <= ex_size fext /\
      forall kind' p', kind_index kind < kind_index kind' -> section_offset f kind' = Ok p' -> p + section_room kind s <= p'.
Proof.
  intros Hsz Hel Hbm Hv. destruct (validated_indices f fext Hbm Hv) as (Hsig & _ & back & Hsv). split; [done|].
  intros kind Hh. destruct (lookup_kind f kind Hbm Hh) as [k Hk].
  destruct (sections_valid_inv f fext Hsz Hel back _ _ Hsv ltac:(done) k _ Hk) as (p & s & hi & Hpl & Hlater).
  assert (kind <> sk_last) as Hl by (intros ->; by apply (sp_kind _ _ _ _ _ _ _ Hpl)). split; [done|].
  destruct Hpl as [Hi _ Hlo Ha Hs Hhi Hin]. rewrite kind_of_index in * by done.
  exists p, s. assert (section_offset f kind = Ok p) as Ho by (unfold section_offset; rewrite Hh; exact Hi).
  split_and!; try done; [|lia|].
  - unfold make_dispatcher. rewrite Hh, Ho. cbn [oassert obind]. by destruct kind.
  - intros kind' p' Hlt Ho'. unfold section_offset in Ho'. destruct (has_section f kind') eqn:Hh'; [|done]. cbn [oassert obind] in Ho'.
    destruct (lookup_kind f kind' Hbm Hh') as [k' Hk']. assert (k < k')%nat as Hkk.
    { destruct (Nat.lt_total k k') as [|[->|Hgt]]; [done|rewrite Hk in Hk'; injection Hk'; lia|].
      pose proof (sorted_lookup_lt _ _ _ _ _ (set_bits_sorted 64 (bitmap_ (fr_arr f))) Hk' Hk Hgt). lia. }
    pose proof (Hlater k' _ p' Hkk Hk' Ho'). lia.
Qed.

(** C19: a compilation of fewer than 2^32 members is appended to the store in one transaction, aligned,
    leaving every other object as it is; in any later state its extent loads as a compilation with
    the same path, triple and members, and one of another size is refused. With more members the
    transaction is left as it was and an error is raised. The linkage and the visibility of a member
    are those it was constructed with. *)
Theorem compilation_roundtrip {O} `{CS : CompilationStore O} (s : tstate O) (path triple : Z) (members : list compilation_member) :
  tx_ok s -> view_end (t_db s) + 16 + compilation_end members <= address_limit ->
  (Z.of_nat (length members) < 2 ^ 32 -> exists x s' c,
    compilation_alloc path triple members s = (Ok x, s') /\ tx_ok s' /\
    ex_addr x mod 16 = 0 /\ view_end (t_db s) <= ex_addr x /\ view_end (t_db s') = ex_addr x + ex_size x /\
    live_objects s' = <[ex_addr x := of_compilation c]> (live_objects s) /\
    (forall t, db_ok (t_db t) -> view_end (t_db s') <= view_end (t_db t) ->
      live_objects t !! ex_addr x = live_objects s' !! ex_addr x ->
      compilation_load t x = Ok c /\
      forall n, n <> ex_size x -> 0 <= n -> ex_addr x + n <= view_end (t_db t) ->
        compilation_load t (Extent (ex_addr x) n) = Throw (RaiseRepo bad_compilation_record)) /\
    c_path c = path /\ c_triple c = triple /\ c_size c = Z.of_nat (length members) /\
    (forall i m, members !! i = Some m -> member_at c (Z.of_nat i) = Ok m)) /\
  (2 ^ 32 <= Z.of_nat (length members) ->
    compilation_alloc path triple members s = (Throw (RaiseRepo too_many_members_in_compilation), s)) /\
  (forall d x n l v, exists m, compilation_member_ctor d x n l v = Ok m /\
    cm_digest m = d /\ cm_fext m = x /\ cm_name m = n /\
    linkages !! Z.to_nat (member_linkage m) = Some l /\ member_visibility m = visibility_value v).
Proof.
  intros Hs Hroom. split; [|split].
  - intros Hn. destruct (compilation_alloc_ok s path triple members Hs Hn Hroom) as (x & s' & c & E & Hst).
    exists x, s', c. split; [exact E|]. pose proof (cs_value _ _ _ _ _ _ _ Hst) as Hc. split_and!; try apply Hst; try (by rewrite Hc).
    + intros t Ht Hend Hob. rewrite (cs_objects _ _ _ _ _ _ _ Hst), lookup_insert_eq in Hob. split; [by eapply compilation_load_ok|].
      intros n Hne Hn0 Hle. by eapply compilation_load_size.
    + intros i m Hi. rewrite Hc. unfold member_at. cbn [c_size c_members]. apply lookup_lt_Some in Hi as Hlt.
      rewrite (proj2 (Z.ltb_lt _ _)) by lia. cbn [oassert obind]. by rewrite Nat2Z.id, Hi.
  - apply compilation_too_large.
  - intros d x n l v. destruct (bf_values l v) as [bf H]. destruct (H d x n) as (E & Hl & Hv). eexists. split; [exact E|].
    unfold member_linkage, member_visibility. cbn [cm_bf]. rewrite Hl, Hv. split_and!; try done. apply linkage_of_value.
Qed.

(** ** An example *)

Definition example_text : section_content :=
  SectionContent sk_text 16 [85; 72; 137; 229; 195] [InternalFixup sk_data 1 2 0] [ExternalFixup 4096 2 1 (2 ^ 64 - 4)].
Definition example_bss : section_content := SectionContent sk_bss 8 (replicate 20 0) [] [].
Definition example_line : section_content := SectionContent sk_debug_line 1 [1; 2; 3] [] [].

Definition example_sections : list creation_dispatcher :=
  [GenericCreation sk_text example_text; BssCreation example_bss;
   DebugLineCreation (Extent 512 40) example_line; DependentsCreation [1024; 2048]].

(** A transaction on a new store *)
Lemma new_repository : exists s : tstate repo_object, tx_ok s /\ view_end (t_db s) = leader_size + sizeof_trailer.
Proof.
  destruct (new_store_ready (O := repo_object) 12 (replicate 16 0) 0 ltac:(lia)) as (db & tx & _ & _ & Hok & He). by exists (TState db tx).
Qed.

Lemma example_content (k : Z) c : 0 <= k <= 7 -> sc_align c = 2 ^ k -> Forall (fun b => 0 <= b < 256) (sc_data c) ->
  Forall representable (sc_ifixups c) -> Forall representable (sc_xfixups c) ->
  count_ifixups c < 2 ^ 24 -> count_xfixups c < 2 ^ 32 -> section_end c < 2 ^ 61 -> content_ok c.
Proof. intros. split; [by exists k|done..]. Qed.

Lemma example_sections_ok : sections_ok example_sections.
Proof.
  split; [| |done|by repeat constructor|done].
  - apply Forall_cons_2; [|apply Forall_cons_2; [|apply Forall_cons_2; [|apply Forall_cons_2; [|constructor]]]].
    + split; [|done]. split_and!; [done|done|]. by apply (example_content 4); try done; repeat constructor.
    + split; [|done]. split; [|done]. by apply (example_content 3); try done; repeat constructor.
    + split; [|done]. split; [done|]. by apply (example_content 0); try done; repeat constructor.
    + split; [|done]. by repeat constructor.
  - repeat constructor.
Qed.

Lemma fragment_roundtrip_witness : exists (s : tstate repo_object) x s' f,
  fragment_alloc example_sections s = (Ok x, s') /\ fragment_load s' x = Ok f /\
  section_value f sk_text = Ok [85; 72; 137; 229; 195] /\ section_size f sk_bss = Ok 20 /\ has_section f sk_data = false.
Proof.
  destruct new_repository as (s & Hs & He). exists s.
  destruct (fragment_roundtrip (O := repo_object) (TL := tx_store_laws) example_sections s example_sections_ok Hs) as (x & s' & f & E & Hs' & _ & _ & _ & _ & Hload & _ & Hk & Hr).
  { cbn [ts_size ts_limit tx_store_laws]. rewrite He. vm_compute. done. }
  exists x, s', f. split; [exact E|]. split; [apply Hload; [by apply ts_inv_readable|lia|done]|].
  split; [|split; [|by rewrite Hk]].
  - apply (Hr (GenericCreation sk_text example_text)). by left.
  - apply (Hr (BssCreation example_bss)). by right; left.
Defined.

Definition example_fragment : fragment := Eval vm_compute in
  match populate example_sections with Ok f => f | Throw _ => Fragment [] (mk_sparse_array 0 []) ∅ end.

Lemma fragment_validated_witness : exists p s,
  make_dispatcher example_fragment sk_debug_line = Ok (debug_line_type, p) /\ p + section_room sk_debug_line s <= 200.
Proof.
  destruct (fragment_validated example_fragment (Extent 4096 200)) as [_ H].
  - cbn; lia.
  - repeat (constructor; [lia|]). constructor.
  - cbn; lia.
  - vm_compute. reflexivity.
  - destruct (H sk_debug_line) as (_ & p & s & Hm & _ & _ & _ & Hle & _); [reflexivity|]. by exists p, s.
Defined.

Lemma compilation_roundtrip_witness : exists (s : tstate repo_object) m x s' c,
  compilation_member_ctor 77 (Extent 4096 200) 512 weak_odr hidden_vis = Ok m /\
  compilation_alloc 512 520 [m] s = (Ok x, s') /\ compilation_load s' x = Ok c /\ member_at c 0 = Ok m /\
  member_visibility m = 1.
Proof.
  destruct new_repository as (s & Hs & He). exists s.
  destruct (compilation_roundtrip s 512 520 [] Hs) as (_ & _ & Hm).
  { rewrite He. vm_compute. done. }
  destruct (Hm 77 (Extent 4096 200) 512 weak_odr hidden_vis) as (m & Em & _ & _ & _ & _ & Hv).
  destruct (compilation_roundtrip s 512 520 [m] Hs) as ((x & s' & c & E & Hs' & _ & _ & _ & _ & Hload & _ & _ & _ & Hi) & _ & _).
  { rewrite He. vm_compute. done. }
  { done. }
  exists m, x, s', c. split; [exact Em|]. split; [exact E|]. split; [apply Hload; [apply Hs'|lia|done]|].
  split; [by apply (Hi 0%nat)|exact Hv].
Defined.

(** ** What the checks do not cover *)

(** The bytes from 16 on are the array of offsets, but the checks let the first section begin at 24
    when there are two offsets. *)
Definition overlapping_fragment : fragment :=
  Fragment fragment_signature (mk_sparse_array 5 [24; 40]) (store_u64 40 0 (store_u64 32 0 (store_u64 24 40 ∅))).

Example sections_may_overlap_the_offsets : fragment_appears_valid overlapping_fragment (Extent 4096 48) = Ok true.
Proof. vm_compute. reflexivity. Qed.

(** A section without dependents occupies no bytes; the constructor of the fragment then reads the size of
    the section behind the end of the block. *)
Example empty_dependents_are_read : populate [BssCreation example_bss; DependentsCreation []] = Throw Undefined.
Proof. vm_compute. reflexivity. Qed.
