(* ===== verification/Commit.v ===== *)
(** * Committing a transaction

    What a commit does to the whole system: the indices are written to the store, the new
    trailer continues the list of revisions, and every index is recovered from it. *)

From S2P Require Import Prelude BitCount Checksum Address Region Storage FileHeader StoreIntf HamtTypes HamtMap.
From S2P Require Import Database DatabaseSpec Transaction TransactionSpec.
From S2P Require Import HamtSpec HamtOps HamtInsert HamtRefine HamtFlush.

Abbreviation db_of w := (t_db (store w)).
Abbreviation tx_of w := (t_tx (store w)).

Section commit.
Context {K V : Type} {KT : KeyTraits K V} {KL : KeyTraitsLaws K V}
  {HA : HeapAllocator node} {HL : HeapAllocatorLaws node}.
Local Abbreviation S := (tstate (obj K V)).
Local Abbreviation W := (world S).
Implicit Types w : W.
Implicit Types s : S.

(** ** The cache of indices *)

(** The index [i] holds the entries [l]; it owns the heap blocks [bl] when it is loaded. *)
Definition index_state w (i : nat) (l : list (entry K V)) (bl : list Z) : Prop :=
  match db_indices (db_of w) !! i with
  | Some (Some m) => hamt_rep w m l bl /\ ts_revision (store w) = Ok (revision m)
  | Some None => bl = [] /\ exists footer loc, get_footer (db_of w) = Ok footer /\
      index_records footer !! i = Some loc /\ persisted (store w) loc l
  | None => False
  end.

Definition set_cache (i : nat) (m : hamt_map) s : S :=
  TState (set_indices (<[i := Some m]> (db_indices (t_db s))) (t_db s)) (t_tx s).

Lemma set_cache_ok i m s : tx_ok s -> tx_ok (set_cache i m s).
Proof. intros [Hdb ? ? ? ?]. split; try done. by destruct Hdb. Qed.

(** What an index operation leaves as it is *)
Definition rest s : header * Z * Z * gmap Z trailer * list (Z * Z) :=
  (k_header (keep s), k_pos (keep s), k_dbsize (keep s), k_trailers (keep s), k_protected (keep s)).

(** The store has grown; of the cache, only the entries of [P] may have changed. *)
Record grows (P : nat -> Prop) s s' : Prop := {
  gr_ok : tx_ok s';
  gr_objects : live_objects s ⊆ live_objects s';
  gr_size : view_end (t_db s) <= view_end (t_db s');
  gr_revision : get_current_revision (t_db s') = get_current_revision (t_db s);
  gr_indices j : ~ P j -> db_indices (t_db s') !! j = db_indices (t_db s) !! j;
  gr_length : length (db_indices (t_db s')) = length (db_indices (t_db s));
  gr_rest : rest s' = rest s
}.

Lemma grows_cache i m s : tx_ok s -> grows (eq i) s (set_cache i m s).
Proof.
  intros Hs. split; try done; [by apply set_cache_ok| |apply length_insert].
  intros j Hj. cbn. by rewrite list_lookup_insert_ne.
Qed.

Lemma grows_refl P s : tx_ok s -> grows P s s.
Proof. done. Qed.

Lemma grows_ext P s1 s2 s3 : grows P s1 s2 -> ext s2 s3 -> grows P s1 s3.
Proof.
  intros [H1 H2 H3 H4 H5 H6 H7] (E1 & E2 & E3 & E4 & E5). cbn in *.
  assert (db_indices (t_db s3) = db_indices (t_db s2)) as Hix by apply (f_equal k_indices E5).
  split; [done|by etrans|lia|congruence|by rewrite Hix|by rewrite Hix|].
  unfold rest. by rewrite E5.
Qed.

Lemma grows_trans P Q s1 s2 s3 :
  grows P s1 s2 -> grows Q s2 s3 -> grows (fun i => P i \/ Q i) s1 s3.
Proof.
  intros [] []. split; [done|by etrans|lia|congruence| |congruence|congruence].
  intros j Hj. rewrite gr_indices1, gr_indices0; tauto.
Qed.

Lemma grows_weaken (P Q : nat -> Prop) s1 s2 : (forall i, P i -> Q i) -> grows P s1 s2 -> grows Q s1 s2.
Proof. intros Hpq []. split; auto. Qed.

(** The trailer of the view is kept. *)
Lemma getro_trailer_inv (db : database (obj K V)) pos t :
  getro_trailer db pos = Ok t -> pos mod 8 = 0 /\ db_mem db !! pos = Some (DTrailer t).
Proof.
  unfold getro_trailer, db_getro. destruct (Z.eqb_spec (pos mod 8) 0); [|done]. cbn [negb].
  destruct (db_get _ _ _ _ _); [|done]. cbn [obind]. destruct (db_mem db !! pos) as [[]|]; naive_solver.
Qed.

Lemma get_footer_kept s s' t :
  tx_ok s -> tx_ok s' -> rest s' = rest s -> get_footer (t_db s) = Ok t -> get_footer (t_db s') = Ok t.
Proof.
  unfold rest. cbn. intros Hs Hs' [= _ Hp _ Ht _] [H8 Hm]%getro_trailer_inv. pose proof (dk_logical _ (xk_db _ Hs)).
  assert (live_trailers s' !! view_pos (t_db s) = Some t) as [_ Hm']%lookup_live_trailers.
  { rewrite Ht. apply lookup_live_trailers. split; [unfold sizeof_trailer in *; lia|done]. }
  unfold get_footer. rewrite Hp. apply getro_trailer_ok; [apply Hs'|done|done|].
  rewrite <- Hp. apply (dk_logical _ (xk_db _ Hs')).
Qed.

(** An index other than [i] is not affected. *)
Lemma index_state_grows (P : nat -> Prop) w w' j bl bl' :
  tx_ok (store w) -> grows P (store w) (store w') -> same_others w bl w' bl' -> ~ P j ->
  forall lj blj, (forall x, x ∈ blj -> x ∉ bl) -> index_state w j lj blj -> index_state w' j lj blj.
Proof.
  intros Hs [Hs' Hob Hsz Hrev Hix _ Hrest] Hsame Hij lj blj Hdis Hj. unfold index_state in *.
  rewrite (Hix j Hij).
  destruct (db_indices (db_of w) !! j) as [[m|]|] eqn:Ej; [| |done].
  - destruct Hj as [Hrep Hr]. split; [|cbn in *; congruence]. eapply hamt_rep_ext; try done.
    intros x Hx. specialize (Hsame x). rewrite (decide_False (P := x ∈ bl)) in Hsame by auto.
    case_decide; [|done]. exfalso. assert (is_Some (heap w !! x)) as [n Hn]; [|congruence].
    inversion Hrep as [|t Ht]; subst; [by apply elem_of_nil in Hx|]. by eapply rep_footprint_live.
  - destruct Hj as (-> & footer & loc & Hf & Hl & Hp). split; [done|]. exists footer, loc. split_and!; [|done|].
    + eapply get_footer_kept; [exact Hs|exact Hs'|exact Hrest|exact Hf].
    + by eapply persisted_mono.
Qed.

Lemma list_lookup_Some_insert {A} (l : list A) i x y : l !! i = Some y -> <[i := x]> l !! i = Some x.
Proof. intros H. apply list_lookup_insert_eq. by eapply lookup_lt_Some. Qed.

(** [get_index] makes an index that exists, or must be created, available; reading the
    database is all that it needs. *)
Lemma get_index_loads w i create l bl :
  db_ok (db_of w) -> index_state w i l bl ->
  wp (get_index i create) (fun r w' =>
    match r with
    | Some m => (w' = w \/ w' = World (heap w) (set_cache i m (store w))) /\ hamt_rep w' m l bl /\
                ts_revision (store w') = Ok (revision m) /\ db_indices (db_of w') !! i = Some (Some m)
    | None => create = false /\ l = [] /\ bl = [] /\ w' = w /\ db_indices (db_of w) !! i = Some None /\
              exists footer, get_footer (db_of w) = Ok footer /\ index_records footer !! i = Some 0
    end) w.
Proof.
  intros Hs Hi. unfold get_index. wp_head. unfold get. eapply wp_eq; [reflexivity|]. cbn beta.
  unfold index_state in Hi. destruct (db_indices (db_of w) !! i) as [[m|]|] eqn:Ei; [| |done].
  { wp_head. destruct Hi as [Hrep Hr]. split_and!; auto. }
  destruct Hi as (-> & footer & loc & Hf & Hl & Hp). wp_head. wp_head. eapply owp_eq; [exact Hf|].
  cbn beta. rewrite Hl.
  assert (exists rev, ts_revision (store w) = Ok rev) as [rev Hrev].
  { cbn. unfold get_current_revision. rewrite Hf. by eexists. }
  assert (ts_readable (store w)) as Hinv by exact Hs.
  destruct (persisted_ctor (store w) _ _ _ (heap w) Hinv Hrev Hp) as (m & Hc & Hrm & _ & Hrep).
  assert (forall Q : option hamt_map -> W -> Prop, Q (Some m) (World (heap w) (set_cache i m (store w))) ->
    wp (m <- lift (hamt_ctor (store w) loc) ;; set_index i m ;;; ret (Some m)) Q w) as Hload.
  { intros Q HQ. wp_head. wp_head. eapply owp_eq; [exact Hc|]. cbn beta. unfold set_index. wp_head. wp_head. wp_head. exact HQ. }
  assert (hamt_rep (World (heap w) (set_cache i m (store w))) m l [] /\
    ts_revision (set_cache i m (store w)) = Ok (revision m) /\
    db_indices (t_db (set_cache i m (store w))) !! i = Some (Some m)) as Hset.
  { split_and!; [by eapply hamt_rep_ext|by rewrite Hrm|]. by eapply list_lookup_Some_insert. }
  unfold null_address in *. destruct (Z.eqb_spec loc 0) as [->|Hne].
  - destruct create; [by apply Hload; auto|].
    wp_head. inversion Hp; [|lia]. split_and!; try done. by exists footer.
  - apply Hload. auto.
Qed.

Lemma get_index_spec w i create l bl :
  tx_ok (store w) -> index_state w i l bl ->
  wp (get_index i create) (fun r w' => heap w' = heap w /\ grows (eq i) (store w) (store w') /\
    view_end (db_of w') = view_end (db_of w) /\ tx_of w' = tx_of w /\
    match r with
    | Some m => hamt_rep w' m l bl /\ ts_revision (store w') = Ok (revision m) /\
                db_indices (db_of w') !! i = Some (Some m)
    | None => create = false /\ l = [] /\ bl = [] /\ w' = w /\ db_indices (db_of w) !! i = Some None /\
              exists footer, get_footer (db_of w) = Ok footer /\ index_records footer !! i = Some 0
    end) w.
Proof.
  intros Hs Hi. eapply wp_mono; [apply get_index_loads; [apply Hs|done]|]. intros [m|] w' Hw'.
  - destruct Hw' as [[->| ->] Hm]; split_and!; try done; try apply Hm. by apply grows_cache.
  - destruct Hw' as (-> & -> & -> & -> & Hn). split_and!; try done; apply Hn.
Qed.

(** ** Writing the indices *)

(** The index [i] has been written to the location [locs !! i] of the new revision. *)
Definition written w (i : nat) (l : list (entry K V)) (gen : Z) (locs : list Z) : Prop :=
  exists pos, locs !! i = Some pos /\ persisted (store w) pos l /\
    match db_indices (db_of w) !! i with
    | Some (Some m) => hamt_rep w m l [] /\ revision m = gen
    | Some None => True
    | None => False
    end.

Lemma written_grows (P : nat -> Prop) w w' bl i j pos l gen locs :
  grows P (store w) (store w') -> same_others w bl w' [] -> ~ P j -> i <> j ->
  written w j l gen locs -> written w' j l gen (<[i := pos]> locs).
Proof.
  intros Hg Hsame Hj Hij (p & Hp & Hper & Hm). exists p.
  rewrite list_lookup_insert_ne by done. split_and!; [done|by eapply persisted_mono; [apply Hg|apply Hg|]|].
  rewrite (gr_indices _ _ _ Hg) by done. destruct (db_indices (db_of w) !! j) as [[m|]|]; [|done|done].
  destruct Hm as [Hrep Hr]. split; [|done].
  eapply hamt_rep_ext; [exact Hrep|by intros x ?%elem_of_nil|apply Hg|apply Hg|done|done].
Qed.

Lemma same_others_trans w1 w2 w3 (bl : list Z) :
  same_others w1 bl w2 bl -> same_others w2 bl w3 [] -> same_others w1 bl w3 [].
Proof. intros H12 H23 x. by rewrite H23, H12. Qed.

Lemma flush_index_spec w i l bl locs gen footer :
  tx_ok (store w) -> index_state w i l bl -> get_footer (db_of w) = Ok footer ->
  (i < length locs)%nat -> locs !! i = index_records footer !! i ->
  view_end (db_of w) + flush_room l bl <= address_limit ->
  wp (flush_index i locs gen) (fun locs' w' =>
    grows (eq i) (store w) (store w') /\ same_others w bl w' [] /\
    view_end (db_of w') <= view_end (db_of w) + flush_room l bl /\
    (exists pos, locs' = <[i := pos]> locs) /\ written w' i l gen locs') w.
Proof.
  intros Hs Hi Hf Hlen Hloc Hroom. unfold flush_index. wp_head.
  eapply wp_mono; [by apply get_index_spec|]. intros [m|] w1 (Hh & Hg1 & He1 & _ & Hr).
  - destruct Hr as (Hrep & Hrev & Hix). pose proof (gr_ok _ _ _ Hg1) as Hs1.
    assert (ts_inv (store w1)) as Hinv by exact Hs1. wp_head.
    eapply wp_mono; [apply (hamt_flush_spec w1 m l bl gen Hinv Hrep Hrev); cbn; lia|].
    intros [m' pos] w2 (Hrep2 & Hrm & _ & Hsame & Hext & Hper & Hsz). cbn in Hsz.
    unfold set_index. wp_head. wp_head. wp_head. cbn [heap store].
    pose proof (grows_ext _ _ _ _ Hg1 Hext) as Hg2. pose proof (grows_cache i m' _ (gr_ok _ _ _ Hg2)) as Hg3.
    split_and!.
    + eapply grows_weaken; [|eapply grows_trans; [exact Hg2|exact Hg3]]. by intros ? [].
    + intros x. rewrite <- Hh. apply Hsame.
    + cbn in *. lia.
    + by exists pos.
    + exists pos. split_and!; [by apply list_lookup_insert_eq|by apply (persisted_mono (store w2))|]. cbn.
      assert (i < length (db_indices (db_of w2)))%nat as Hlt.
      { pose proof (gr_length _ _ _ Hg2) as ->. rewrite <- (gr_length _ _ _ Hg1). by eapply lookup_lt_Some. }
      rewrite list_lookup_insert_eq by done. split; [by eapply hamt_rep_ext|done].
  - destruct Hr as (_ & -> & -> & -> & Hnone & footer' & Hf' & Hz). rewrite Hf in Hf'. injection Hf' as <-.
    wp_head. rewrite Hz in Hloc. split_and!.
    + done.
    + by intros x.
    + unfold flush_room. simpl. lia.
    + exists 0. by rewrite list_insert_id.
    + exists 0. split_and!; [done|constructor|]. by rewrite Hnone.
Qed.

(** The entries of the indices and the heap blocks that they own *)
Abbreviation contents := (nat -> list (entry K V) * list Z).
Implicit Types c : contents.

Definition blocks_disjoint c (idxs : list nat) : Prop :=
  forall i j x, i ∈ idxs -> j ∈ idxs -> i <> j -> x ∈ (c i).2 -> x ∉ (c j).2.

Fixpoint total_room c (idxs : list nat) : Z :=
  match idxs with
  | [] => 0
  | i :: idxs => flush_room (c i).1 (c i).2 + total_room c idxs
  end.

Definition all_blocks c (idxs : list nat) : list Z := concat ((fun i => (c i).2) <$> idxs).

Lemma same_others_cons w w1 w2 bl bl' :
  same_others w bl w1 [] -> same_others w1 bl' w2 [] -> same_others w (bl ++ bl') w2 [].
Proof.
  intros H1 H2 x. specialize (H1 x). specialize (H2 x).
  rewrite (decide_False (P := x ∈ [])) in * by (by intros ?%elem_of_nil).
  rewrite H2. rewrite H1. destruct (decide (x ∈ bl)), (decide (x ∈ bl')); case_decide; set_solver.
Qed.

Lemma total_room_nonneg c idxs : 0 <= total_room c idxs.
Proof. induction idxs; simpl; unfold flush_room in *; lia. Qed.

Lemma flush_indices_from_spec c gen footer (ready idxs : list nat) locs w :
  tx_ok (store w) -> get_footer (db_of w) = Ok footer -> NoDup idxs ->
  (forall i, i ∈ ready -> i ∉ idxs) -> blocks_disjoint c idxs ->
  (forall i, i ∈ idxs -> index_state w i (c i).1 (c i).2 /\ (i < length locs)%nat /\
     locs !! i = index_records footer !! i) ->
  (forall i, i ∈ ready -> written w i (c i).1 gen locs) ->
  view_end (db_of w) + total_room c idxs <= address_limit ->
  wp (flush_indices_from idxs locs gen) (fun locs' w' =>
    grows (fun i => i ∈ idxs) (store w) (store w') /\ length locs' = length locs /\
    (forall i, i ∈ ready \/ i ∈ idxs -> written w' i (c i).1 gen locs') /\
    same_others w (all_blocks c idxs) w' [] /\
    view_end (db_of w') <= view_end (db_of w) + total_room c idxs) w.
Proof.
  intros Hs Hf Hnd. revert ready locs w Hs Hf Hnd. induction idxs as [|i idxs IH]; intros ready locs w Hs Hf Hnd Hdis Hbl Hix Hready Hroom.
  { simpl. wp_head. split_and!; try done; [|simpl; lia]. intros i [Hi|Hi%elem_of_nil]; [by apply Hready|done]. }
  apply NoDup_cons in Hnd as [Hni Hnd]. pose proof (total_room_nonneg c idxs). cbn [total_room] in Hroom.
  destruct (Hix i ltac:(set_solver)) as (Hi & Hlen & Hloc). cbn [flush_indices_from].
  wp_head. eapply wp_mono; [apply (flush_index_spec w i (c i).1 (c i).2 locs gen footer); try done; lia|].
  intros locs1 w1 (Hg & Hsame & He & [pos ->] & Hw). cbn beta.
  assert (forall j, j ∈ ready -> j <> i) as Hne by (intros j Hj ->; by apply (Hdis i Hj), elem_of_cons; left).
  eapply wp_mono; [apply (IH (i :: ready) (<[i := pos]> locs) w1)|].
  - apply Hg.
  - eapply get_footer_kept; [exact Hs|apply Hg|apply Hg|exact Hf].
  - done.
  - intros j [->|Hj]%elem_of_cons; [done|]. pose proof (Hdis j Hj). set_solver.
  - intros j1 j2 x H1 H2. apply Hbl; by right.
  - intros j Hj. assert (i <> j) by (by intros ->).
    destruct (Hix j ltac:(set_solver)) as (Hjs & Hjl & Hjloc). split_and!.
    + eapply (index_state_grows (eq i)); [exact Hs|exact Hg|exact Hsame|done| |exact Hjs].
      intros x Hx. eapply (Hbl j i); [by right|by left|done..].
    + by rewrite length_insert.
    + by rewrite list_lookup_insert_ne.
  - intros j [->|Hj]%elem_of_cons; [done|]. pose proof (Hne j Hj).
    by eapply (written_grows (eq i)); [exact Hg|exact Hsame|intros ->|intros ->|apply Hready].
  - lia.
  - intros locs2 w2 (Hg2 & Hl2 & Hw2 & Hsame2 & He2). split_and!.
    + eapply grows_weaken; [|eapply grows_trans; [exact Hg|exact Hg2]]. simpl. set_solver.
    + by rewrite Hl2, length_insert.
    + intros j Hj. apply Hw2. set_solver.
    + by eapply same_others_cons.
    + cbn [total_room]. lia.
Qed.

(** Every index of the store, loaded or not *)
Record indices_ok w c : Prop := {
  ik_state i : (i < num_indices)%nat -> index_state w i (c i).1 (c i).2;
  ik_disjoint : blocks_disjoint c (seq 0 num_indices)
}.

Lemma flush_indices_spec c gen footer w :
  tx_ok (store w) -> get_footer (db_of w) = Ok footer -> length (index_records footer) = num_indices ->
  indices_ok w c -> view_end (db_of w) + total_room c (seq 0 num_indices) <= address_limit ->
  wp (flush_indices (index_records footer) gen) (fun locs w' =>
    grows (fun i => (i < num_indices)%nat) (store w) (store w') /\ length locs = num_indices /\
    (forall i, (i < num_indices)%nat -> written w' i (c i).1 gen locs) /\
    same_others w (all_blocks c (seq 0 num_indices)) w' [] /\
    view_end (db_of w') <= view_end (db_of w) + total_room c (seq 0 num_indices)) w.
Proof.
  intros Hs Hf Hlen [Hst Hdis] Hroom. unfold flush_indices. wp_head.
  eapply wp_mono; [apply (flush_indices_from_spec c gen footer [] _ _ w Hs Hf (NoDup_seq 0 num_indices))|].
  - by intros i ?%elem_of_nil.
  - done.
  - intros i [_ Hi]%elem_of_seq. split_and!; [by apply Hst|by rewrite Hlen|done].
  - by intros i ?%elem_of_nil.
  - done.
  - intros locs w' (Hg & Hl & Hw & Hsame & He). wp_head. wp_head; [apply Nat.eqb_eq; congruence|]. wp_head.
    split_and!; try done; [|congruence|].
    + eapply grows_weaken; [|exact Hg]. intros i [_ Hi]%elem_of_seq. done.
    + intros i Hi. apply Hw. right. apply elem_of_seq. lia.
Qed.

(** ** The trailer *)

Record trailer_written s now prev gen locs (pos : Z) s' : Prop := {
  tw_ok : tx_ok s';
  tw_open : is_open (t_tx s') = true;
  tw_aligned : pos mod 8 = 0;
  tw_pos : view_end (t_db s) <= pos < view_end (t_db s) + 8;
  tw_end : view_end (t_db s') = pos + sizeof_trailer;
  tw_view : view_pos (t_db s') = view_pos (t_db s);
  tw_header : db_header (t_db s') = db_header (t_db s);
  tw_indices : db_indices (t_db s') = db_indices (t_db s);
  tw_protected : protected (db_storage (t_db s')) = protected (db_storage (t_db s));
  tw_mem : db_mem (t_db s') =
    <[pos := DTrailer (make_trailer gen (pos - tx_dbsize (t_tx s)) now prev locs)]>
      (forget_from (view_end (t_db s)) (db_mem (t_db s)))
}.

Lemma write_trailer_spec s now prev gen locs :
  tx_ok s -> view_end (t_db s) + 8 + sizeof_trailer <= address_limit ->
  wp (write_trailer now prev gen locs) (trailer_written s now prev gen locs) s.
Proof.
  intros Hs Hroom. unfold write_trailer. wp_head.
  eapply wp_mono; [apply (alloc_rw_spec s sizeof_trailer 3 Hs); done|].
  intros [b pos] s1 Hta. cbn in Hta. pose proof (ta_db _ _ _ _ _ Hta) as Hal. pose proof (ta_ok _ _ _ _ _ Hta) as Hs1.
  wp_head. wp_head. wp_head. unfold construct. wp_head. wp_head.
  fold (with_object (O := obj K V) pos
    (DTrailer (make_trailer gen (wrap64 (tx_size (t_tx s1) - sizeof_trailer)) now prev locs)) s1).
  pose proof (al_addr _ _ _ _ _ Hal) as Ha. change (2 ^ 3) with 8 in Ha.
  pose proof (Z.mod_pos_bound (- view_end (t_db s)) 8 ltac:(lia)) as Hpad.
  pose proof (dk_logical _ (xk_db _ Hs)). pose proof (dk_footer _ (xk_db _ Hs)).
  pose proof (db_limit _ (xk_db _ Hs1)) as Hlim. change address_limit with 274877906944 in *.
  pose proof (al_end _ _ _ _ _ Hal) as He. unfold leader_size, sizeof_trailer in *.
  assert (wrap64 (tx_size (t_tx s1) - 104) = pos - tx_dbsize (t_tx s)) as ->.
  { pose proof (xk_dbsize _ Hs) as Hd. unfold sizeof_trailer in Hd.
    rewrite (xk_size _ Hs1), (ta_dbsize _ _ _ _ _ Hta), He, wrap_small; lia. }
  split; cbn; try apply Hal; try apply Hta; try done.
  - apply with_object_ok; [done|unfold leader_size; lia].
  - apply Z.mod_divide; [done|]. rewrite Ha. by apply pad_divide.
  - lia.
  - by rewrite (al_mem _ _ _ _ _ Hal).
Qed.

(** ** Commit *)

Lemma wp_in_store {A} (m : M S A) (Q : A -> W -> Prop) w :
  wp m (fun a s' => Q a (World (heap w) s')) (store w) -> wp (in_store m) Q w.
Proof. unfold wp, in_store. by destruct (m (store w)) as [[a|e] s']. Qed.

(** What the view of [w] contains is found unchanged in [w']. *)
Definition memory_kept w w' : Prop :=
  forall a o, a < view_end (db_of w) -> db_mem (db_of w) !! a = Some o -> db_mem (db_of w') !! a = Some o.

Lemma grows_memory_kept P w w' : grows P (store w) (store w') -> memory_kept w w'.
Proof.
  intros Hg a [t|o] Ha Ho.
  - pose proof (gr_rest _ _ _ Hg) as Hr. unfold rest in Hr. cbn in Hr. injection Hr as _ _ _ Ht _.
    assert (live_trailers (store w') !! a = Some t) as [_ ?]%lookup_live_trailers; [|done].
    rewrite Ht. by apply lookup_live_trailers.
  - assert (live_objects (store w') !! a = Some o) as [_ ?]%lookup_live_objects; [|done].
    eapply lookup_weaken; [by apply lookup_live_objects|apply Hg].
Qed.

(** A commit has added the revision of the trailer [t] at [pos] to those of [l]: the list
    of revisions continues, the view is that of the new revision, all that was in the store
    is still there, and every index is in the store under its location in the trailer. *)
Record committed w c (l : list (Z * trailer)) (pos : Z) (t : trailer) w' : Prop := {
  cm_db : db_ok (db_of w');
  cm_pos : view_pos (db_of w') = pos;
  cm_end : view_end (db_of w') = pos + sizeof_trailer;
  cm_header : db_header (db_of w') = with_footer_pos pos (db_header (db_of w));
  cm_chain : chain (db_mem (db_of w')) pos ((pos, t) :: l);
  cm_memory : memory_kept w w';
  cm_closed : is_open (tx_of w') = false;
  cm_indices i : (i < num_indices)%nat -> written w' i (c i).1 (generation t) (index_records t);
  cm_records : length (index_records t) = num_indices;
  cm_cache : length (db_indices (db_of w')) = length (db_indices (db_of w));
  cm_heap : same_others w (all_blocks c (seq 0 num_indices)) w' []
}.

(** The new trailer continues the list. *)
Lemma trailer_written_chain s now gen locs pos s' l :
  tx_ok s -> trailer_written s now (view_pos (t_db s)) gen locs pos s' ->
  chain (db_mem (t_db s)) (view_pos (t_db s)) l -> gen = Z.of_nat (length l) ->
  chain (db_mem (t_db s')) pos
    ((pos, make_trailer gen (pos - tx_dbsize (t_tx s)) now (view_pos (t_db s)) locs) :: l).
Proof.
  intros Hs Htw Hc Hgen. pose proof (tw_pos _ _ _ _ _ _ _ Htw) as Hp. pose proof (dk_logical _ (xk_db _ Hs)).
  pose proof (dk_footer _ (xk_db _ Hs)). pose proof (xk_dbsize _ Hs) as Hd.
  rewrite (tw_mem _ _ _ _ _ _ _ Htw). unfold leader_size, sizeof_trailer in *. apply chain_cons.
  - unfold leader_size. lia.
  - apply lookup_insert_eq.
  - destruct (make_trailer_valid gen (pos - tx_dbsize (t_tx s)) now (view_pos (t_db s)) locs) as [Hcrc Hsig].
    split; [apply Htw|exact Hcrc|exact Hsig|exact Hgen|cbn; lia|]. cbn. unfold next_start, null_address, sizeof_trailer.
    rewrite (proj2 (Z.eqb_neq _ 0)) by lia. lia.
  - eapply chain_agree; [exact Hc|]. intros a t Ha Ht. cbn [prev_generation make_trailer] in Ha.
    rewrite lookup_insert_ne, lookup_forget_from, decide_True by lia. done.
Qed.

Lemma trailer_written_objects s now prev gen locs pos s' :
  trailer_written s now prev gen locs pos s' -> live_objects s' = live_objects s.
Proof.
  intros Htw. pose proof (tw_pos _ _ _ _ _ _ _ Htw). pose proof (tw_end _ _ _ _ _ _ _ Htw). unfold sizeof_trailer in *.
  apply map_eq. intros a. apply option_eq. intros o. rewrite !lookup_live_objects, (tw_mem _ _ _ _ _ _ _ Htw).
  rewrite lookup_insert_Some, lookup_forget_from. case_decide; naive_solver lia.
Qed.

(** The state after the trailer has been made the head and the pages have been protected *)
Definition finish (pos : Z) st s : S :=
  TState (set_storage st (set_header (with_footer_pos pos (db_header (t_db s)))
            (set_size (Sizes pos (view_end (t_db s))) (t_db s))))
    (Tx (tx_size (t_tx s)) (tx_dbsize (t_tx s)) null_address).

Lemma finish_committed P w w1 c l now gen locs pos s2 st :
  tx_ok (store w) -> grows P (store w) (store w1) ->
  same_others w (all_blocks c (seq 0 num_indices)) w1 [] ->
  (forall i, (i < num_indices)%nat -> written w1 i (c i).1 gen locs) -> length locs = num_indices ->
  trailer_written (store w1) now (view_pos (db_of w1)) gen locs pos s2 ->
  chain (db_mem (db_of w1)) (view_pos (db_of w1)) l -> gen = Z.of_nat (length l) ->
  maps st = maps (db_storage (t_db s2)) -> sat st = sat (db_storage (t_db s2)) ->
  db_ok (set_header (with_footer_pos pos (db_header (t_db s2))) (set_size (Sizes pos (view_end (t_db s2))) (t_db s2))) ->
  committed w c l pos (make_trailer gen (pos - tx_dbsize (tx_of w1)) now (view_pos (db_of w1)) locs)
    (World (heap w1) (finish pos st s2)).
Proof.
  intros Hs Hg Hsame Hw Hll Htw Hc Hgen Hmaps Hsat Hok. pose proof (gr_ok _ _ _ Hg) as Hs1.
  pose proof (tw_pos _ _ _ _ _ _ _ Htw) as Hp. pose proof (gr_size _ _ _ Hg) as Hsz.
  pose proof (tw_end _ _ _ _ _ _ _ Htw) as He. unfold sizeof_trailer in He.
  pose proof (gr_rest _ _ _ Hg) as Hrest. unfold rest in Hrest. cbn in Hrest. injection Hrest as Hhdr _ _ _ _.
  split; cbn [store heap]; try done.
  - by apply db_ok_storage.
  - cbn. by rewrite (tw_header _ _ _ _ _ _ _ Htw), Hhdr.
  - by apply (trailer_written_chain _ _ _ _ _ s2).
  - intros a o Ha Ho. cbn [db_mem t_db finish set_storage set_header set_size store]. rewrite (tw_mem _ _ _ _ _ _ _ Htw).
    rewrite lookup_insert_ne, lookup_forget_from, decide_True by lia.
    by apply (grows_memory_kept _ w w1 Hg).
  - intros i Hi. destruct (Hw i Hi) as (p & Hloc & Hper & Hm). exists p.
    assert (ts_objects (store w1) ⊆ ts_objects (finish pos st s2)) as Hob.
    { change (live_objects (store w1) ⊆ live_objects s2). by rewrite (trailer_written_objects _ _ _ _ _ _ _ Htw). }
    assert (ts_size (store w1) <= ts_size (finish pos st s2)) as Hsz2 by (cbn; lia).
    split_and!; [done|by eapply persisted_mono|]. cbn. rewrite (tw_indices _ _ _ _ _ _ _ Htw).
    destruct (db_indices (db_of w1) !! i) as [[m|]|]; [|done|done]. destruct Hm as [Hrep Hrev].
    split; [by eapply hamt_rep_ext|done].
  - cbn. rewrite (tw_indices _ _ _ _ _ _ _ Htw). apply Hg.
Qed.

Lemma commit_spec w c l k now :
  tx_ok (store w) -> is_open (tx_of w) = true -> 0 <= k <= 22 ->
  chain (db_mem (db_of w)) (view_pos (db_of w)) l -> Z.of_nat (length l) < 2 ^ 32 ->
  Forall (fun x => length (index_records x.2) = num_indices) l -> indices_ok w c ->
  view_end (db_of w) + total_room c (seq 0 num_indices) + 8 + sizeof_trailer <= address_limit ->
  wp (commit (2 ^ k) now) (fun _ w' => exists pos t, committed w c l pos t w') w.
Proof.
  intros Hs Hopen Hk Hc Hlen Hrec Hix Hroom. unfold commit. wp_head. wp_head. rewrite Hopen. cbn [negb].
  wp_head. wp_head. cbn beta zeta. rewrite (xk_head _ Hs).
  inversion Hc as [Hp|pos0 t0 l0 Hl0 Hm0 Ht0 Hc0 Hp El]; subst.
  { pose proof (dk_footer _ (xk_db _ Hs)) as Hf. rewrite <- Hp in Hf. unfold leader_size, null_address in Hf. lia. }
  pose proof (get_footer_ok _ _ _ (xk_db _ Hs) Hc) as Hf. apply Forall_cons in Hrec as [Hrec0 _]. cbn in Hrec0.
  wp_head. wp_head. eapply owp_eq; [exact Hf|]. rewrite (tk_generation _ _ _ Ht0).
  set (gen := wrap32 _). assert (gen = Z.of_nat (length ((view_pos (db_of w), t0) :: l0))) as Hgen.
  { unfold gen. simpl length in *. rewrite wrap_small; lia. }
  wp_head. eapply wp_mono; [apply (flush_indices_spec c gen t0 w); try done; unfold sizeof_trailer in *; lia|].
  intros locs w1 (Hg & Hll & Hw & Hsame & He). pose proof (gr_ok _ _ _ Hg) as Hs1.
  pose proof (gr_rest _ _ _ Hg) as Hrest. unfold rest in Hrest. cbn in Hrest. injection Hrest as Hhdr Hpos Hdbs Htr Hpr.
  assert (chain (db_mem (db_of w1)) (view_pos (db_of w1)) ((view_pos (db_of w), t0) :: l0)) as Hc1.
  { rewrite Hpos. eapply chain_agree; [exact Hc|]. intros a t Ha Ht. eapply (grows_memory_kept _ w w1 Hg); [|done].
    pose proof (dk_logical _ (xk_db _ Hs)). unfold sizeof_trailer in *. lia. }
  rewrite <- Hpos. wp_head. apply wp_in_store. eapply wp_mono; [apply write_trailer_spec; [done|lia]|].
  intros pos s2 Htw. pose proof (tw_ok _ _ _ _ _ _ _ Htw) as Hs2.
  pose proof (tw_pos _ _ _ _ _ _ _ Htw) as Hp2. pose proof (tw_end _ _ _ _ _ _ _ Htw) as He2.
  pose proof (chain_nonnull _ _ _ (trailer_written_chain _ _ _ _ _ _ _ Hs1 Htw Hc1 Hgen) ltac:(done)) as Hlead.
  wp_head. apply wp_in_store, wp_in_db. eapply wp_mono; [by apply set_new_footer_spec; [apply Hs2| |cbn; lia]|].
  intros [] db3 [Hok3 ->]. cbn [t_db t_tx store heap] in *. wp_head. wp_head. wp_head. wp_head. cbn [store t_db t_tx].
  pose proof (db_limit _ Hok3) as Hlim. pose proof (dk_mapped _ Hok3) as Hmap. cbn in Hlim, Hmap.
  change address_limit with 274877906944 in *.
  assert (0 <= tx_first (t_tx s2)) as Hfirst.
  { pose proof (dk_footer _ (xk_db _ Hs2)). pose proof (xk_dbsize _ Hs2). unfold leader_size, sizeof_trailer, null_address in *.
    destruct (xk_first _ Hs2) as [[-> _]|]; unfold null_address; lia. }
  assert (typed_add sizeof_trailer pos 1 = pos + sizeof_trailer) as ->.
  { unfold typed_add, sizeof_trailer, leader_size in *. rewrite (wrap_small 64 (1 * 104)), wrap_small by lia. lia. }
  eapply owp_mono; [apply (protect_ok _ k _ _ (dk_storage _ Hok3) Hk Hfirst); cbn; unfold leader_size, sizeof_trailer in *; lia|].
  intros st (Hmaps & Hsat & _). apply wp_in_store. wp_head.
  eexists pos, _. rewrite Hpos. exact (finish_committed _ w w1 c _ now gen locs pos s2 st Hs Hg Hsame Hw Hll Htw Hc1 Hgen Hmaps Hsat Hok3).
Qed.

End commit.
