(* ===== verification/Session.v ===== *)
(** * The store as a versioned collection of maps

    The abstract store is a collection of finite maps, one per index, together with the
    collections of all the revisions that have been committed. [refines] relates it to the
    whole system (file, mapping, trailers, tries on the heap and in the store); the
    operations of a client, a commit, a look-up, reopening the file and checking out an
    older revision are refinements of the obvious operations on the maps. *)

From S2P Require Import Prelude BitCount Checksum Address Region Storage FileHeader StoreIntf HamtTypes HamtMap.
From S2P Require Import Database DatabaseSpec Transaction TransactionSpec.
From S2P Require Import HamtSpec HamtOps HamtInsert HamtRefine HamtFlush Commit.

(** ** The abstract store *)

Section abstract.
Context {K V : Type} `{Countable K}.

Definition maps_of : Type := nat -> gmap K V.

(** The maps of the open transaction, whether it has data, and the committed revisions, newest first *)
Record astore := AStore { a_current : maps_of; a_dirty : bool; a_history : list maps_of }.

Definition a_insert (i : nat) (kv : K * V) (u : bool) (a : astore) : astore :=
  if bool_decide (a_current a i !! kv.1 = None) || u then
    AStore (fun j => if decide (j = i) then <[kv.1 := kv.2]> (a_current a i) else a_current a j)
      true (a_history a)
  else a.

Definition a_commit (a : astore) : astore :=
  if a_dirty a then AStore (a_current a) false (a_current a :: a_history a) else a.

(** Reopening forgets what was not committed. *)
Definition a_reopen (a : astore) : astore :=
  AStore (default (fun _ => ∅) (head (a_history a))) false (a_history a).

End abstract.

(** ** Client operations *)

Section operations.
Context {K V : Type} {KT : KeyTraits K V} {HA : HeapAllocator node}.
Local Abbreviation W := (world (tstate (obj K V))).

(** [get_index<i> (db)->insert (transaction, kv)], or [insert_or_assign] *)
Definition index_insert (i : nat) (kv : K * V) (is_upsert : bool) : M W bool :=
  m <- get_index i true ;;
  match m with
  | None => throw Dangling
  | Some m =>
      '(m', _, inserted) <- insert_or_upsert m kv is_upsert ;;
      set_index i m' ;;;
      ret inserted
  end.

(** [get_index<i> (db, false)->find (db, key)] and the value it designates *)
Definition index_find (i : nat) (key : K) : M W (option V) :=
  m <- get_index i false ;;
  match m with
  | None => ret None
  | Some m =>
      it <- with_world (fun w => find w m key) ;;
      if bool_decide (it = hamt_end) then ret None
      else kv <- with_world (fun w => iterator_deref w it) ;; ret (Some kv.2)
  end.

(** [begin (db)]: a new transaction on the same database *)
Definition begin_transaction : M W unit :=
  fun w =>
    let '(r, db) := transaction_ctor (t_db (store w)) in
    match r with
    | Ok tx => (Ok tt, World (heap w) (TState db tx))
    | Throw e => (Throw e, World (heap w) (TState db (t_tx (store w))))
    end.

(** A new process opens the file and begins a transaction. *)
Definition reopen (page_size : Z) (w : W) : outcome W :=
  let db := t_db (store w) in
  db' <-? database_open page_size (db_header db) (db_mem db) (file_size (maps (db_storage db))) ;;
  match transaction_ctor db' with
  | (Ok tx, db'') => Ok (World ∅ (TState db'' tx))
  | (Throw e, _) => Throw e
  end.

End operations.

(** ** The refinement *)

Section session.
Context {K V : Type} `{Countable K} {KT : KeyTraits K V} {KL : KeyTraitsLaws K V}
  {HA : HeapAllocator node} {HL : HeapAllocatorLaws node}.
Local Abbreviation S := (tstate (obj K V)).
Local Abbreviation W := (world S).
Implicit Types w : W.
Implicit Types s : S.
Implicit Types a : astore (K := K) (V := V).

(** The store as a reader sees it whose view ends at [e] *)
Definition at_end (e : Z) s : S := TState (set_size (Sizes (view_pos (t_db s)) e) (t_db s)) (t_tx s).

Lemma lookup_at_end e s i (o : obj K V) :
  live_objects (at_end e s) !! i = Some o <-> i < e /\ db_mem (t_db s) !! i = Some (DObj o).
Proof. apply (lookup_live_objects (at_end e s)). Qed.

(** The indices of the revision of the trailer [t] at [pos] hold the entries [es]. *)
Definition revision_holds s (pos : Z) (t : trailer) (es : nat -> list (entry K V)) : Prop :=
  length (index_records t) = num_indices /\
  forall i, (i < num_indices)%nat ->
    exists loc, index_records t !! i = Some loc /\ persisted (at_end (pos + sizeof_trailer) s) loc (es i).

(** Revisions are immutable: they only depend on the memory below their end. *)
Lemma revision_holds_kept s s' pos t es :
  (forall (x : Z) o, x < pos + sizeof_trailer -> db_mem (t_db s) !! x = Some o -> db_mem (t_db s') !! x = Some o) ->
  revision_holds s pos t es -> revision_holds s' pos t es.
Proof.
  intros Hk [Hlen Hh]. split; [done|]. intros i Hi. destruct (Hh i Hi) as (loc & Hl & Hp).
  exists loc. split; [done|]. apply (persisted_mono (at_end (pos + sizeof_trailer) s)); [|done|done].
  cbn. apply map_subseteq_spec. intros j o [Hj Ho]%lookup_at_end. apply lookup_at_end. auto.
Qed.

(** The entries of an index now, and when the revision of the trailer at [pos] was
    committed: entries have been added past the trailer, none has been removed other than
    by a new entry with its key. *)
Definition since (pos : Z) (cur old : list (entry K V)) : Prop :=
  (forall e, e ∈ cur -> e.1 < pos + sizeof_trailer -> e ∈ old) /\ (forall k, k ∈ keys old -> k ∈ keys cur).

Lemma since_refl pos l : since pos l l.
Proof. by split. Qed.

Lemma since_trans pos pos' l1 l2 l3 : pos' <= pos -> since pos l1 l2 -> since pos' l2 l3 -> since pos' l1 l3.
Proof.
  intros Hpos [H1 H1'] [H2 H2']. split; [|auto]. intros e He Hlt. apply H2; [|done]. apply H1; [done|lia].
Qed.

(** The revisions that the current entries [cur] descend from, newest first, and their maps *)
Inductive history_ok s : (nat -> list (entry K V)) -> list (Z * trailer) -> list (maps_of (K := K) (V := V)) -> Prop :=
  | history_nil cur : history_ok s cur [] []
  | history_cons cur pos t es m l ms :
      revision_holds s pos t es -> (forall i, (i < num_indices)%nat -> to_map (es i) = m i) ->
      (forall i, (i < num_indices)%nat -> since pos (cur i) (es i)) ->
      history_ok s es l ms -> history_ok s cur ((pos, t) :: l) (m :: ms).

Record refines w a (l : list (Z * trailer)) (c : nat -> list (entry K V) * list Z) : Prop := {
  rf_tx : tx_ok (store w);
  rf_header : exists uuid, db_header (db_of w) = with_footer_pos (view_pos (db_of w)) (header_ctor uuid);
  rf_open : is_open (tx_of w) = a_dirty a;
  rf_chain : chain (db_mem (db_of w)) (view_pos (db_of w)) l;
  rf_length : Z.of_nat (length l) < head_revision;
  rf_indices : indices_ok w c;
  rf_cache : length (db_indices (db_of w)) = num_indices;
  rf_current i : (i < num_indices)%nat -> to_map (c i).1 = a_current a i;
  rf_history : history_ok (store w) (fun i => (c i).1) l (a_history a)
}.

Lemma history_length s cur l ms : history_ok s cur l ms -> length l = length ms.
Proof. induction 1; simpl; congruence. Qed.

Lemma refines_records w a l c : refines w a l c -> Forall (fun x => length (index_records x.2) = num_indices) l.
Proof.
  intros Hr. pose proof (rf_history _ _ _ _ Hr) as Hh. clear Hr.
  induction Hh as [|? ? ? ? ? ? ? [Hx _]]; by constructor.
Qed.

(** The history is kept by everything that keeps the committed memory. *)
Lemma history_kept s s' cur pos l ms :
  chain (db_mem (t_db s)) pos l ->
  (forall (x : Z) o, x < pos + sizeof_trailer -> db_mem (t_db s) !! x = Some o -> db_mem (t_db s') !! x = Some o) ->
  history_ok s cur l ms -> history_ok s' cur l ms.
Proof.
  intros Hc Hk Hh. assert (forall x, x ∈ l -> x.1 <= pos) as Hb.
  { intros [p t] Hx. by eapply (chain_bound _ _ _ _ _ Hc). }
  clear Hc. induction Hh as [|cur p t es m l ms Hrev Hm Hs _ IH]; [constructor|].
  pose proof (Hb (p, t) ltac:(left)) as Hp. cbn in Hp. econstructor; [|done|done|].
  - eapply revision_holds_kept; [|exact Hrev]. intros x o Hx. apply Hk. lia.
  - apply IH. intros x Hx. apply Hb. by right.
Qed.

(** The current entries may grow. *)
Lemma history_grow s cur cur' pos l ms :
  chain (db_mem (t_db s)) pos l ->
  (forall i e, (i < num_indices)%nat -> e ∈ cur' i -> e ∈ cur i \/ pos + sizeof_trailer <= e.1) ->
  (forall i k, (i < num_indices)%nat -> k ∈ keys (cur i) -> k ∈ keys (cur' i)) ->
  history_ok s cur l ms -> history_ok s cur' l ms.
Proof.
  intros Hc Hnew Hkeys Hh. destruct Hh as [|cur p t es m l ms Hrev Hm Hs Hh]; [constructor|].
  econstructor; [done|done| |done]. intros i Hi. destruct (Hs i Hi) as [H1 H2].
  pose proof (chain_bound _ _ _ p t Hc ltac:(left)) as Hp. split; [|auto].
  intros e [He|He]%Hnew Hlt; [by apply H1|lia|done].
Qed.

(** Every revision of the history, and how the current entries descend from it *)
Lemma history_lookup s cur pos l ms n p t :
  chain (db_mem (t_db s)) pos l -> history_ok s cur l ms -> l !! n = Some (p, t) ->
  exists es m, ms !! n = Some m /\ revision_holds s p t es /\
    (forall i, (i < num_indices)%nat -> to_map (es i) = m i /\ since p (cur i) (es i)) /\
    history_ok s es (drop (Datatypes.S n) l) (drop (Datatypes.S n) ms).
Proof.
  intros Hc Hh. revert pos n Hc. induction Hh as [|cur p0 t0 es m l ms Hrev Hm Hs Hh IH]; intros pos n Hc; [done|].
  destruct n as [|n]; cbn [lookup list_lookup].
  - intros [= <- <-]. exists es, m. split_and!; [done|done|auto|done].
  - intros Hl. inversion Hc as [|? ? ? _ _ _ Hprev]; subst. destruct (IH _ n Hprev Hl) as (es' & m' & Hm' & Hrev' & Hs' & Hh').
    exists es', m'. split_and!; [done|done| |done]. intros i Hi. destruct (Hs' i Hi) as [? Hs2]. split; [done|].
    eapply since_trans; [|by apply Hs|exact Hs2].
    pose proof (chain_bound _ _ _ p t Hc ltac:(right; by eapply list_elem_of_lookup_2)). lia.
Qed.

(** *** Changing one index *)

Definition set_contents (i : nat) (x : list (entry K V) * list Z) (c : nat -> list (entry K V) * list Z) :=
  fun j => if decide (j = i) then x else c j.

Lemma index_state_live w i l bl x : index_state w i l bl -> x ∈ bl -> is_Some (heap w !! x).
Proof.
  unfold index_state. intros Hi Hx. destruct (db_indices _ !! i) as [[m|]|]; [| |done].
  - destruct Hi as [Hrep _]. inversion Hrep as [|t Ht]; subst; [by apply elem_of_nil in Hx|].
    by eapply rep_footprint_live.
  - destruct Hi as [-> _]. by apply elem_of_nil in Hx.
Qed.

(** The blocks of the other indices are untouched by an operation on the index [i]. *)
Lemma indices_ok_update w w' c i l' bl' :
  tx_ok (store w) -> (i < num_indices)%nat -> indices_ok w c -> grows (eq i) (store w) (store w') ->
  same_others w (c i).2 w' bl' -> index_state w' i l' bl' ->
  indices_ok w' (set_contents i (l', bl') c).
Proof.
  intros Hs Hi [Hst Hdis'] Hg Hsame Hi'.
  assert (forall j1 j2 x, (j1 < num_indices)%nat -> (j2 < num_indices)%nat -> j1 <> j2 ->
    x ∈ (c j1).2 -> x ∉ (c j2).2) as Hdis.
  { intros j1 j2 x H1 H2. apply Hdis'; apply elem_of_seq; lia. }
  assert (forall j x, (j < num_indices)%nat -> j <> i -> x ∈ (c j).2 -> x ∉ bl') as Hnew.
  { intros j x Hj Hne Hx Hx'. destruct (index_state_live _ _ _ _ _ (Hst j Hj) Hx) as [n Hn].
    specialize (Hsame x). rewrite decide_True in Hsame by done.
    rewrite decide_False in Hsame by (by eapply (Hdis j i)). congruence. }
  split.
  - intros j Hj. unfold set_contents. case_decide as Hji; [by subst|].
    eapply (index_state_grows (eq i)); [exact Hs|exact Hg|exact Hsame|by intros ->| |by apply Hst].
    intros x Hx. by eapply (Hdis j i).
  - intros j1 j2 x [_ H1]%elem_of_seq [_ H2]%elem_of_seq Hne. unfold set_contents.
    do 2 case_decide; subst; simpl; [done| |by eapply Hnew|by apply Hdis].
    intros Hx Hx'. by eapply (Hnew j2).
Qed.

Lemma view_below w : tx_ok (store w) -> view_pos (db_of w) + sizeof_trailer <= view_end (db_of w).
Proof. intros Hs. apply (dk_logical _ (xk_db _ Hs)). Qed.

Lemma refines_update w w' a a' l c i l' bl' :
  refines w a l c -> (i < num_indices)%nat -> grows (eq i) (store w) (store w') ->
  same_others w (c i).2 w' bl' -> index_state w' i l' bl' ->
  is_open (tx_of w') = a_dirty a' -> a_history a' = a_history a ->
  to_map l' = a_current a' i -> (forall j, j <> i -> a_current a' j = a_current a j) ->
  (forall e, e ∈ l' -> e ∈ (c i).1 \/ view_end (db_of w) <= e.1) ->
  (forall k, k ∈ keys (c i).1 -> k ∈ keys l') ->
  refines w' a' l (set_contents i (l', bl') c).
Proof.
  intros Hr Hi Hg Hsame Hi' Hopen Hhist Hcur Hother Hnew Hkeys. pose proof (rf_tx _ _ _ _ Hr) as Hs.
  pose proof (grows_memory_kept _ _ _ Hg) as Hk. pose proof (view_below w Hs) as Hv.
  pose proof (gr_rest _ _ _ Hg) as Hrest. unfold rest in Hrest. cbn in Hrest. injection Hrest as Hhd Hpos _ _ _.
  split.
  - apply Hg.
  - rewrite Hhd, Hpos. apply Hr.
  - done.
  - rewrite Hpos. eapply chain_agree; [apply Hr|]. intros x t Hx. apply Hk. unfold sizeof_trailer in *. lia.
  - apply Hr.
  - eapply indices_ok_update; try done; apply Hr.
  - rewrite (gr_length _ _ _ Hg). apply Hr.
  - intros j Hj. unfold set_contents. case_decide; [by subst|]. rewrite Hother by done. by apply Hr.
  - rewrite Hhist. eapply history_kept; [apply Hr|intros x o Hx; apply Hk; lia|].
    eapply history_grow; [apply Hr| | |apply Hr]; intros j e _; unfold set_contents;
      (case_decide; [subst; cbn|by auto]); [|apply Hkeys].
    intros [?|?]%Hnew; [by left|right; lia].
Qed.

(** A transaction that has allocated is open. *)
Lemma allocated_open s : tx_ok s -> tx_dbsize (t_tx s) < view_end (t_db s) -> is_open (t_tx s) = true.
Proof.
  intros Hs Hlt. unfold is_open. pose proof (xk_dbsize _ Hs). pose proof (dk_footer _ (xk_db _ Hs)).
  pose proof (xk_size _ Hs). unfold leader_size, sizeof_trailer, null_address in *.
  rewrite (proj2 (Z.eqb_neq _ _)); [done|]. destruct (xk_first _ Hs) as [[_ ?]|]; unfold null_address in *; lia.
Qed.

Lemma index_insert_refines w a l c i kv u :
  refines w a l c -> (i < num_indices)%nat -> leaf_room (store w) kv ->
  wp (index_insert i kv u) (fun ins w' => ins = bool_decide (a_current a i !! kv.1 = None) /\
    exists c', refines w' (a_insert i kv u a) l c') w.
Proof.
  intros Hr Hi Hroom. pose proof (rf_tx _ _ _ _ Hr) as Hs. unfold index_insert. wp_head.
  eapply wp_mono; [apply (get_index_spec w i true); [done|by apply Hr]|].
  intros [m|] w1 (Hh & Hg1 & He1 & Htx1 & Hm); [|by destruct Hm].
  destruct Hm as (Hrep & Hrev & Hix). pose proof (gr_ok _ _ _ Hg1) as Hs1.
  assert (ts_inv (store w1)) as Hinv by exact Hs1.
  assert (leaf_room (store w1) kv) as Hroom1 by (unfold leaf_room in *; cbn in *; lia).
  wp_head. eapply wp_mono; [by apply (insert_or_upsert_spec u kv w1 m)|].
  intros [[m' it] ins] w2 (l' & bl' & Hrep2 & Hrev2 & Hext & Hsame & Hins & Hmap & _ & Hnot & Hgrow & Hnew).
  unfold set_index. wp_head. wp_head. wp_head. fold (set_cache i m' (store w2)).
  rewrite (rf_current _ _ _ _ Hr i Hi) in *. split; [done|].
  pose proof (grows_ext _ _ _ _ Hg1 Hext) as Hg2. pose proof (grows_cache i m' _ (gr_ok _ _ _ Hg2)) as Hg3.
  assert (grows (eq i) (store w) (set_cache i m' (store w2))) as Hg.
  { eapply grows_weaken; [|eapply grows_trans; [exact Hg2|exact Hg3]]. by intros ? []. }
  exists (set_contents i (l', bl') c). eapply refines_update; try done.
  - intros x. specialize (Hsame x). rewrite Hh in Hsame. exact Hsame.
  - unfold index_state. cbn. rewrite list_lookup_insert_eq.
    + split; [by eapply hamt_rep_ext|]. destruct Hext as (_ & _ & _ & Hrv & _).
      change (get_current_revision (db_of w2) = Ok (revision m')). rewrite Hrev2, <- Hrev. exact Hrv.
    + rewrite (gr_length _ _ _ Hg2), <- (gr_length _ _ _ Hg1). by eapply lookup_lt_Some.
  - cbn. unfold a_insert. rewrite <- Hins. destruct (ins || u) eqn:E.
    + cbn. apply allocated_open; [apply Hg2|]. cbn in Hgrow. specialize (Hgrow eq_refl).
      pose proof (gr_rest _ _ _ Hg2) as Hrest. unfold rest in Hrest. cbn in Hrest. injection Hrest as _ _ -> _ _.
      rewrite (xk_dbsize _ Hs). pose proof (view_below w Hs). lia.
    + destruct (Hnot eq_refl) as [-> ->]. rewrite Htx1. apply Hr.
  - unfold a_insert. rewrite <- Hins. by destruct (ins || u).
  - unfold a_insert. rewrite <- Hins, Hmap. destruct (ins || u); [|done]. cbn. by rewrite decide_True.
  - intros j Hj. unfold a_insert. rewrite <- Hins. destruct (ins || u); [|done]. cbn. by rewrite decide_False.
  - intros e He. cbn in He1, Hnew. rewrite <- He1. by apply Hnew.
  - intros key. rewrite !elem_of_keys_map, Hmap, <- (rf_current _ _ _ _ Hr i Hi). destruct (ins || u); [|done].
    intros Hk. by apply lookup_insert_is_Some'; right.
Qed.

(** A look-up finds what the map holds; at most it loads the index into the cache. *)
Lemma index_find_reads w i l bl k :
  db_ok (db_of w) -> index_state w i l bl ->
  wp (index_find i k) (fun v w' => v = to_map l !! k /\
    (w' = w \/ exists m, w' = World (heap w) (set_cache i m (store w)) /\
       hamt_rep w' m l bl /\ ts_revision (store w') = Ok (revision m))) w.
Proof.
  intros Hs Hi. unfold index_find. wp_head. eapply wp_mono; [by apply get_index_loads|].
  intros [m|] w1 Hm; cbn beta iota.
  - destruct Hm as (Hw1 & Hrep & Hrev & Hix).
    assert (ts_readable (store w1)) as Hinv by (destruct Hw1 as [->| ->]; by destruct Hs).
    wp_head. apply wp_with_world. eapply owp_mono; [by apply (find_spec w1 m l bl k)|].
    intros it Hit. cbn beta in Hit |- *.
    assert (w1 = w \/ exists m, w1 = World (heap w) (set_cache i m (store w)) /\
       hamt_rep w1 m l bl /\ ts_revision (store w1) = Ok (revision m)) as Hpost by (destruct Hw1; [by left|right; eauto]).
    destruct (to_map l !! k) as [v|].
    + destruct Hit as [Hne Hd]. rewrite bool_decide_eq_false_2 by done. wp_head. apply wp_with_world.
      eapply owp_eq; [exact Hd|]. by wp_head.
    + rewrite bool_decide_eq_true_2 by done. by wp_head.
  - destruct Hm as (_ & -> & _ & -> & _). wp_head. split; [done|by left].
Qed.

Lemma index_find_refines w a l c i k :
  refines w a l c -> (i < num_indices)%nat ->
  wp (index_find i k) (fun v w' => v = a_current a i !! k /\ exists c', refines w' a l c') w.
Proof.
  intros Hr Hi. pose proof (rf_tx _ _ _ _ Hr) as Hs.
  pose proof (ik_state _ _ (rf_indices _ _ _ _ Hr) i Hi) as Hst.
  eapply wp_mono; [apply (index_find_reads w i (c i).1 (c i).2); [apply Hs|done]|].
  intros v w' [-> Hw']. rewrite <- (rf_current _ _ _ _ Hr i Hi). split; [done|].
  destruct Hw' as [->|(m & -> & Hrep & Hrev)]; [by exists c|].
  exists (set_contents i ((c i).1, (c i).2) c). eapply refines_update; try done.
  - by apply grows_cache.
  - unfold index_state. cbn. rewrite list_lookup_insert_eq; [done|]. rewrite (rf_cache _ _ _ _ Hr). done.
  - apply Hr.
  - by apply Hr.
  - by left.
Qed.

(** *** Beginning a transaction *)

(** A database that no transaction is using *)
Record ready w a (l : list (Z * trailer)) (c : nat -> list (entry K V) * list Z) : Prop := {
  rd_db : db_ok (db_of w);
  rd_header : exists uuid, db_header (db_of w) = with_footer_pos (view_pos (db_of w)) (header_ctor uuid);
  rd_head : h_footer_pos (db_header (db_of w)) = view_pos (db_of w);
  rd_end : view_end (db_of w) = view_pos (db_of w) + sizeof_trailer;
  rd_clean : a_dirty a = false;
  rd_chain : chain (db_mem (db_of w)) (view_pos (db_of w)) l;
  rd_length : Z.of_nat (length l) < head_revision;
  rd_indices : indices_ok w c;
  rd_cache : length (db_indices (db_of w)) = num_indices;
  rd_current i : (i < num_indices)%nat -> to_map (c i).1 = a_current a i;
  rd_history : history_ok (store w) (fun i => (c i).1) l (a_history a)
}.

Lemma begin_refines w a l c :
  ready w a l c -> wp begin_transaction (fun _ w' => refines w' a l c) w.
Proof.
  intros Hr. unfold wp, begin_transaction.
  rewrite (transaction_ctor_head _ (rd_db _ _ _ _ Hr) (rd_head _ _ _ _ Hr)).
  destruct Hr as [Hdb Huuid Hhd He Hcl Hch Hlen [Hst Hdis] Hca Hcur Hh]. split; try done.
  - split; try done; cbn; [lia|by left].
  - split; [|done]. intros i Hi. specialize (Hst i Hi). unfold index_state in *. cbn.
    destruct (db_indices (db_of w) !! i) as [[m|]|]; [| |done].
    + destruct Hst as [Hrep Hrev]. split; [by eapply hamt_rep_ext|done].
    + destruct Hst as (-> & footer & loc & Hf & Hl & Hp). split; [done|]. exists footer, loc.
      split_and!; [done|done|]. by apply (persisted_mono (store w)).
  - by apply (history_kept (store w) _ _ (view_pos (db_of w))).
Qed.

(** A transaction without data leaves the database ready for the next. *)
Lemma refines_ready w a l c : refines w a l c -> a_dirty a = false -> ready w a l c.
Proof.
  intros Hr Hd. pose proof (rf_tx _ _ _ _ Hr) as Hs. destruct Hr. split; try done; try apply Hs.
  rewrite <- rf_open0 in Hd. unfold is_open in Hd. apply negb_false_iff, Z.eqb_eq in Hd.
  pose proof (xk_size _ Hs). pose proof (xk_dbsize _ Hs). pose proof (dk_footer _ (xk_db _ Hs)).
  unfold leader_size, sizeof_trailer, null_address in *. destruct (xk_first _ Hs) as [[_ ?]|]; lia.
Qed.

(** *** Commit *)

Lemma committed_index w c l pos t w' i :
  committed w c l pos t w' -> (i < num_indices)%nat -> index_state w' i (c i).1 [].
Proof.
  intros Hcm Hi. destruct (cm_indices _ _ _ _ _ _ Hcm i Hi) as (loc & Hloc & Hp & Hm).
  pose proof (cm_chain _ _ _ _ _ _ Hcm) as Hc. rewrite <- (cm_pos _ _ _ _ _ _ Hcm) in Hc.
  pose proof (get_footer_ok _ _ _ (cm_db _ _ _ _ _ _ Hcm) Hc) as Hf.
  unfold index_state. destruct (db_indices (db_of w') !! i) as [[m|]|]; [| |done].
  - destruct Hm as [Hrep Hrev]. split; [done|]. cbn. unfold get_current_revision. rewrite Hf. cbn. by rewrite Hrev.
  - split; [done|]. by exists t, loc.
Qed.

Lemma committed_holds w c l pos t w' :
  committed w c l pos t w' -> revision_holds (store w') pos t (fun i => (c i).1).
Proof.
  intros Hcm. split; [apply Hcm|]. intros i Hi.
  destruct (cm_indices _ _ _ _ _ _ Hcm i Hi) as (loc & Hloc & Hp & _). exists loc.
  split; [done|]. pose proof (cm_end _ _ _ _ _ _ Hcm) as He.
  apply (persisted_mono (store w')); [|cbn; lia|done]. cbn.
  apply map_subseteq_spec. intros x o [Hx Ho]%lookup_live_objects. apply lookup_at_end. split; [lia|done].
Qed.

Lemma commit_refines w a l c k now :
  refines w a l c -> 0 <= k <= 22 -> Z.of_nat (length l) + 1 < head_revision ->
  view_end (db_of w) + total_room c (seq 0 num_indices) + 8 + sizeof_trailer <= address_limit ->
  wp (commit (2 ^ k) now ;;; begin_transaction) (fun _ w' => exists l' c', refines w' (a_commit a) l' c') w.
Proof.
  intros Hr Hk Hlen Hroom. unfold a_commit. pose proof (rf_open _ _ _ _ Hr) as Hopen. wp_head.
  destruct (a_dirty a) eqn:Hd.
  - eapply wp_mono; [apply (commit_spec w c l k now); try done; try apply Hr|].
    { unfold head_revision in *. lia. }
    { by eapply refines_records. }
    intros [] w' (pos & t & Hcm). cbn beta. pose proof (view_below w (rf_tx _ _ _ _ Hr)).
    eapply wp_mono; [apply (begin_refines w' (AStore (a_current a) false (a_current a :: a_history a)) ((pos, t) :: l) (fun i => ((c i).1, [])))|intros [] w2 Hw2; by eexists _, _].
    split; cbn [a_dirty a_current a_history]; try done; try apply Hcm.
    + destruct (rf_header _ _ _ _ Hr) as [uuid Hu]. exists uuid.
      by rewrite (cm_header _ _ _ _ _ _ Hcm), (cm_pos _ _ _ _ _ _ Hcm), Hu.
    + rewrite (cm_header _ _ _ _ _ _ Hcm), (cm_pos _ _ _ _ _ _ Hcm). done.
    + by rewrite (cm_end _ _ _ _ _ _ Hcm), (cm_pos _ _ _ _ _ _ Hcm).
    + rewrite (cm_pos _ _ _ _ _ _ Hcm). apply Hcm.
    + simpl length. lia.
    + split; [intros i Hi; by eapply committed_index|]. by intros i j x _ _ _ ?%elem_of_nil.
    + rewrite (cm_cache _ _ _ _ _ _ Hcm). apply Hr.
    + apply Hr.
    + econstructor; [by eapply committed_holds|apply Hr|intros i _; apply since_refl|].
      eapply history_kept; [apply Hr| |apply Hr]. intros x o Hx. apply (cm_memory _ _ _ _ _ _ Hcm). lia.
  - unfold commit. wp_head. wp_head. rewrite Hopen. cbn [negb]. wp_head.
    eapply wp_mono; [by apply (begin_refines w a l c), refines_ready|intros [] w2 Hw2; by eexists _, _].
Qed.

(** *** Reading a revision *)

(** An index that is not in the cache is that of the view's revision. *)
Lemma revision_state w s pos t es i :
  revision_holds s pos t es -> pos + sizeof_trailer <= view_end (db_of w) ->
  (forall (x : Z) o, x < pos + sizeof_trailer -> db_mem (t_db s) !! x = Some o -> db_mem (db_of w) !! x = Some o) ->
  get_footer (db_of w) = Ok t -> (i < num_indices)%nat -> db_indices (db_of w) !! i = Some None ->
  index_state w i (es i) [].
Proof.
  intros [_ Hh] He Hk Hf Hi Hn. destruct (Hh i Hi) as (loc & Hloc & Hp).
  unfold index_state. rewrite Hn. split; [done|]. exists t, loc. split_and!; [done|done|].
  apply (persisted_mono (at_end (pos + sizeof_trailer) s)); [|done|done]. cbn.
  apply map_subseteq_spec. intros x o [Hx Ho]%lookup_at_end. apply lookup_live_objects. split; [lia|auto].
Qed.

Lemma ready_view_ok w a l c : ready w a l c -> view_ok (db_of w) l.
Proof.
  intros Hr. pose proof (rd_db _ _ _ _ Hr) as Hok. pose proof (rd_head _ _ _ _ Hr) as Hh.
  pose proof (rd_end _ _ _ _ Hr) as He. pose proof (db_limit _ Hok). pose proof (dk_mapped _ Hok).
  pose proof (dk_file _ Hok) as [? _]. pose proof (rd_length _ _ _ _ Hr). pose proof (dk_footer _ Hok) as Hl.
  pose proof (rd_chain _ _ _ _ Hr) as Hc. split; rewrite ?Hh; try done; try lia.
  destruct Hc as [|pos t l' ? ? ? ?]; [unfold leader_size, null_address in *; lia|]. by exists 0%nat, t.
Qed.

(** A revision that was committed earlier can be checked out: the indices are then those
    that were committed, and they descend from those of the revisions before. *)
Record checked_out w (l : list (Z * trailer)) (ms : list (maps_of (K := K) (V := V))) (r : Z)
    (es : nat -> list (entry K V)) w' : Prop := {
  co_view : view_ok (db_of w') l;
  co_end : view_pos (db_of w') + sizeof_trailer <= view_end (db_of w');
  co_heap : heap w' = heap w;
  co_mem : db_mem (db_of w') = db_mem (db_of w);
  co_header : db_header (db_of w') = db_header (db_of w);
  co_chain : chain (db_mem (db_of w')) (view_pos (db_of w')) (drop (Z.to_nat (Z.of_nat (length l) - 1 - r)) l);
  co_cache i : (i < num_indices)%nat -> db_indices (db_of w') !! i = Some None;
  co_indices i : (i < num_indices)%nat -> index_state w' i (es i) [];
  co_holds : exists t, revision_holds (store w') (view_pos (db_of w')) t es;
  co_history : history_ok (store w') es (drop (Z.to_nat (Z.of_nat (length l) - 1 - r)) l)
                 (drop (Z.to_nat (Z.of_nat (length l) - 1 - r)) ms)
}.

Lemma checkout_spec w a l c r :
  ready w a l c -> 0 <= r < Z.of_nat (length l) - 1 ->
  exists m es, a_history a !! Z.to_nat (Z.of_nat (length l) - 1 - r) = Some m /\
    (forall i, (i < num_indices)%nat -> to_map (es i) = m i) /\
    wp (in_store (in_db (sync r))) (fun _ => checked_out w l (a_history a) r es) w.
Proof.
  intros Hr Hrev. pose proof (ready_view_ok _ _ _ _ Hr) as Hv. pose proof (rd_length _ _ _ _ Hr) as Hlen.
  pose proof (rd_chain _ _ _ _ Hr) as Hc. pose proof (rd_end _ _ _ _ Hr) as He. pose proof (rd_head _ _ _ _ Hr) as Hhd.
  destruct (sync_spec _ l Hv r) as (p & t & Hl & Hsync); [lia|].
  unfold revision_of in Hl. rewrite (proj2 (Z.eqb_neq r head_revision)) in Hl by lia.
  set (n := Z.to_nat _) in *.
  destruct (history_lookup _ _ _ _ _ _ _ _ Hc (rd_history _ _ _ _ Hr) Hl) as (es & m & Hm & Hhold & Hes & Hh).
  exists m, es. split; [done|]. split; [intros i Hi; by apply Hes|].
  apply wp_in_store, wp_in_db. eapply wp_mono; [exact Hsync|]. intros [] db' Hsy. cbn beta.
  pose proof (chain_bound _ _ _ _ _ Hc (list_elem_of_lookup_2 _ _ _ Hl)) as Hb. pose proof (sy_end _ _ _ Hsy) as He'.
  assert (p <> view_pos (db_of w)) as Hne.
  { intros ->. destruct (l) as [|[p0 t0] l0] eqn:El; [done|]. inversion Hc; subst.
    pose proof (chain_positions_inj _ _ _ 0%nat _ _ t0 t Hc eq_refl Hl). lia. }
  pose proof (chain_lookup_chain _ _ _ _ _ _ Hc Hl) as Hcp.
  assert (forall i, (i < num_indices)%nat -> db_indices db' !! i = Some None) as Hix.
  { intros i Hi. rewrite (sy_indices _ _ _ Hsy), decide_False by done. by apply lookup_replicate_2. }
  assert (get_footer db' = Ok t) as Hft.
  { apply (get_footer_ok db' _ (drop (Datatypes.S n) l)); [apply Hsy|].
    by rewrite (sy_mem _ _ _ Hsy), (sy_pos _ _ _ Hsy), <- (drop_S _ _ _ Hl). }
  assert (revision_holds (TState db' (tx_of w)) p t es) as Hhold'.
  { eapply revision_holds_kept; [|exact Hhold]. intros x o _. cbn. by rewrite (sy_mem _ _ _ Hsy). }
  pose proof (sy_ok _ _ _ Hsy) as Hok'. pose proof (db_limit _ Hok'). pose proof (dk_mapped _ Hok').
  pose proof (dk_file _ Hok') as [? _]. pose proof (sy_header _ _ _ Hsy) as Hh'.
  split; cbn [db_of store t_db heap]; rewrite ?(sy_mem _ _ _ Hsy), ?(sy_pos _ _ _ Hsy); fold n; try done; [|lia|..].
  - split; rewrite ?Hh', ?(sy_mem _ _ _ Hsy); try done; try (apply Hv); [|lia..].
    exists n, t. by rewrite (sy_pos _ _ _ Hsy).
  - intros i Hi. apply (revision_state _ (store w) p t es); try done; cbn; [lia| |by apply Hix].
    intros x o _. by rewrite (sy_mem _ _ _ Hsy).
  - by exists t.
  - rewrite (drop_S _ _ _ Hl), (drop_S (A := maps_of) _ _ _ Hm). econstructor; [done|intros i Hi; by apply Hes|intros i _; apply since_refl|].
    eapply history_kept; [|intros x o _; cbn; by rewrite (sy_mem _ _ _ Hsy)|exact Hh].
      rewrite (drop_S _ _ _ Hl) in Hcp. inversion Hcp; subst. eassumption.
Qed.

Lemma checkout_reads w a l c r i k :
  ready w a l c -> 0 <= r < Z.of_nat (length l) - 1 -> (i < num_indices)%nat ->
  exists m, a_history a !! Z.to_nat (Z.of_nat (length l) - 1 - r) = Some m /\
    wp (in_store (in_db (sync r)) ;;; index_find i k) (fun v _ => v = m i !! k) w.
Proof.
  intros Hr Hrev Hi. destruct (checkout_spec w a l c r Hr Hrev) as (m & es & Hm & Hes & Hwp).
  exists m. split; [done|]. wp_head. eapply wp_mono; [exact Hwp|]. intros [] w' Hco. cbn beta.
  rewrite <- Hes by done. eapply wp_mono.
  - apply (index_find_reads w' i (es i) []); [apply (vk_ok _ _ (co_view _ _ _ _ _ _ Hco))|by eapply co_indices].
  - by intros v w2 [-> _].
Qed.

(** *** Opening the file again *)

Lemma reopen_refines w a l c k :
  refines w a l c -> 0 <= k <= 22 ->
  let fs := file_size (maps (db_storage (db_of w))) in
  last_region_offset fs <= view_pos (db_of w) + sizeof_trailer ->
  exists w' c', reopen (2 ^ k) w = Ok w' /\ refines w' (a_reopen a) l c'.
Proof.
  intros Hr Hk fs Hlast. destruct (rf_header _ _ _ _ Hr) as [uuid Hhd]. pose proof (rf_tx _ _ _ _ Hr) as Hs.
  pose proof (rf_chain _ _ _ _ Hr) as Hc. pose proof (xk_head _ Hs) as Hh. pose proof (xk_db _ Hs) as Hok.
  pose proof (view_below w Hs) as Hvb. pose proof (dk_mapped _ Hok). pose proof (dk_file _ Hok) as [Hlim Hdiv].
  pose proof (rf_length _ _ _ _ Hr) as Hlen. pose proof (rf_history _ _ _ _ Hr) as Hhist.
  assert (file_ok (db_header (db_of w)) (db_mem (db_of w)) fs l) as Hf.
  { split; rewrite ?Hh; try done; try (subst fs; lia); try apply Hok; [by exists uuid|].
    intros ->. apply chain_null in Hc. pose proof (dk_footer _ Hok). unfold leader_size, null_address in *. lia. }
  destruct (database_open_spec _ _ _ _ k Hf Hk) as (db' & Hopen & Hv & Hp & He & Hm & Hhd' & Hix & _).
  unfold reopen. fold fs. rewrite Hopen. cbn [obind].
  rewrite transaction_ctor_head by (apply Hv || by rewrite Hhd', Hp). rewrite Hh in Hp, He.
  set (tx := Tx 0 (view_end db') null_address). set (w0 := World ∅ (TState db' tx) : W).
  inversion Hc as [Hp0|pos t l' Hl0 Hm0 Ht0 Hc0 Hp0 El]; subst.
  { pose proof (dk_footer _ Hok) as Hfo. rewrite <- Hp0 in Hfo. unfold leader_size, null_address in Hfo. lia. }
  inversion Hhist as [|? ? ? es m ? ms Hhold Hmap Hsince Hrest Ec El Eh]; subst.
  assert (get_footer db' = Ok t) as Hft.
  { apply (get_footer_ok db' t l'); [apply Hv|]. by rewrite Hm, Hp. }
  exists w0, (fun i => (es i, [])). split; [done|]. unfold a_reopen. rewrite <- Eh.
  assert (is_open tx = false) as Htx by done.
  split; try done.
  - split; try done; cbn; [apply Hv|by rewrite Hhd', Hp|by rewrite He, Hp|lia|by left].
  - exists uuid. cbn. by rewrite Hhd', Hp.
  - cbn. by rewrite Hm, Hp.
  - split; [|by intros i j x _ _ _ ?%elem_of_nil]. intros i Hi.
    apply (revision_state w0 (store w) (view_pos (db_of w)) t); try done; cbn; [by rewrite He|by rewrite Hm|].
    rewrite Hix. by apply lookup_replicate_2.
  - cbn. by rewrite Hix.
  - cbn [a_history]. rewrite Eh. eapply (history_kept (store w)); [exact Hc|intros x o _; cbn; by rewrite Hm|].
    rewrite <- Eh. econstructor; [done|done|intros i _; apply since_refl|done].
Qed.

(** *** A new store *)

Definition open_new (page_size : Z) (uuid : list Z) (now : Z) : outcome W :=
  let '(h, m, fs) := build_new_store uuid now in
  db <-? database_open page_size h m fs ;;
  match transaction_ctor db with
  | (Ok tx, db') => Ok (World ∅ (TState db' tx))
  | (Throw e, _) => Throw e
  end.

Definition a_new : astore (K := K) (V := V) := AStore (fun _ => ∅) false [fun _ => ∅].

Lemma open_new_refines k uuid now :
  0 <= k <= 22 -> exists w t, open_new (2 ^ k) uuid now = Ok w /\
    refines w a_new [(leader_size, t)] (fun _ => ([], [])) /\
    view_pos (db_of w) = leader_size /\ view_end (db_of w) = leader_size + sizeof_trailer /\
    heap w = ∅ /\ last_region_offset (file_size (maps (db_storage (db_of w)))) <= leader_size + sizeof_trailer.
Proof.
  intros Hk. pose proof (build_new_store_ok (O := obj K V) uuid now) as Hf. unfold open_new.
  destruct (build_new_store uuid now) as [[h m] fs] eqn:E.
  set (t := make_trailer _ _ _ _ _) in Hf.
  destruct (database_open_spec h m fs _ k Hf Hk) as (db & Hopen & Hv & Hp & He & Hm & Hh & Hix & Hfs).
  rewrite Hopen. cbn [obind]. rewrite transaction_ctor_head by (apply Hv || by rewrite Hh, Hp).
  assert (h_footer_pos h = leader_size) as Hl by (pose proof (fk_chain _ _ _ _ Hf) as Hc; by inversion Hc).
  eexists _, t. split; [done|].
  split; [|cbn [store heap t_db]; rewrite Hp, He, Hl; split_and!; [done..|rewrite Hfs, <- Hl; apply Hf]].
  assert (get_footer db = Ok t) as Hft.
  { apply (get_footer_ok db t []); [apply Hv|]. rewrite Hm, Hp. pose proof (fk_chain _ _ _ _ Hf) as Hc. by rewrite Hl in *. }
  assert (forall i, (i < num_indices)%nat -> index_records t !! i = Some 0) as Hrec.
  { intros i Hi. by apply lookup_replicate_2. }
  split; try done; cbn.
  - split; cbn; try done; [apply Hv|by rewrite Hh, Hp|by rewrite Hp|lia|by left].
  - destruct (fk_header _ _ _ _ Hf) as [u Hu]. exists u. rewrite Hh, Hp. exact Hu.
  - rewrite Hm, Hp. apply Hf.
  - split; [|by intros i j x _ _ _ ?%elem_of_nil]. intros i Hi. unfold index_state. cbn.
    rewrite Hix, lookup_replicate_2 by done. split; [done|]. exists t, 0. split_and!; [done|by apply Hrec|constructor].
  - by rewrite Hix.
  - eapply (history_cons _ _ _ _ (fun _ => [])); [|done|intros i _; apply since_refl|constructor].
    split; [done|]. intros i Hi. exists 0. split; [by apply Hrec|constructor].
Qed.

(** *** How much room a commit needs *)

(** The bytes that the indices of the maps [m] may take when they are written *)
Definition indices_room (m : maps_of (K := K) (V := V)) : Z :=
  foldr (fun i n => 6440 * Z.of_nat (base.size (m i)) + 32 + n) 0 (seq 0 num_indices).

Lemma to_map_size (l : list (entry K V)) : NoDup (keys l) -> length l = base.size (to_map l).
Proof.
  intros Hn. unfold to_map. rewrite <- (length_fmap snd l). rewrite keys_snd in Hn.
  rewrite <- (Permutation_length (map_to_list_to_map _ Hn)). by rewrite length_map_to_list.
Qed.

Lemma index_state_room w i l bl : index_state w i l bl ->
  flush_room l bl <= 6440 * Z.of_nat (base.size (to_map l)) + 32.
Proof.
  intros Hi. assert (exists w m, hamt_rep w m l bl \/ (bl = [] /\ l = [])) as (w1 & m & Hrep).
  { unfold index_state in Hi. destruct (db_indices _ !! i) as [[m|]|]; [by destruct Hi; eauto| |done].
    destruct Hi as (-> & footer & loc & _ & _ & Hp). destruct Hp; [exists w, (HamtMap 0 0 0); by right|eauto]. }
  destruct Hrep as [Hrep|[-> ->]]; [|done]. pose proof (hamt_rep_footprint _ _ _ _ Hrep) as Hf.
  rewrite <- to_map_size by (by eapply hamt_rep_nodup). change max_internal_depth with 11 in Hf.
  unfold flush_room. lia.
Qed.

Lemma refines_room w a l c : refines w a l c -> total_room c (seq 0 num_indices) <= indices_room (a_current a).
Proof.
  intros Hr. assert (forall i, i ∈ seq 0 num_indices -> (i < num_indices)%nat) as Hin by (intros i ?%elem_of_seq; lia).
  unfold indices_room. induction (seq 0 num_indices) as [|i ix IH]; [simpl; lia|].
  cbn [total_room foldr]. assert (i < num_indices)%nat as Hi by (apply Hin; left).
  pose proof (index_state_room _ _ _ _ (ik_state _ _ (rf_indices _ _ _ _ Hr) i Hi)) as Hi'.
  rewrite (rf_current _ _ _ _ Hr i Hi) in Hi'. assert (forall j, j ∈ ix -> (j < num_indices)%nat) as Hin' by (intros; apply Hin; by right).
  specialize (IH Hin'). lia.
Qed.

(** The number of revisions and the size of the file leave room for a commit. *)
Definition commit_room w a : Prop :=
  Z.of_nat (length (a_history a)) + 1 < head_revision /\
  view_end (db_of w) + indices_room (a_current a) + 8 + sizeof_trailer <= address_limit.

Lemma commit_room_refines w a l c : refines w a l c -> commit_room w a ->
  Z.of_nat (length l) + 1 < head_revision /\
  view_end (db_of w) + total_room c (seq 0 num_indices) + 8 + sizeof_trailer <= address_limit.
Proof.
  intros Hr [Hl Hroom]. rewrite (history_length _ _ _ _ (rf_history _ _ _ _ Hr)).
  pose proof (refines_room _ _ _ _ Hr). split; lia.
Qed.

(** What a commit does to a store that stands for [a] *)
Lemma refines_commit w a l c k now :
  refines w a l c -> a_dirty a = true -> 0 <= k <= 22 -> commit_room w a ->
  wp (commit (2 ^ k) now) (fun _ w' => exists pos t, committed w c l pos t w') w.
Proof.
  intros Hr Hd Hk Hroom. destruct (commit_room_refines _ _ _ _ Hr Hroom) as [Hl Hc].
  apply commit_spec; try done; try apply Hr; [by rewrite (rf_open _ _ _ _ Hr)|unfold head_revision in Hl; lia|].
  by eapply refines_records.
Qed.

(** The uncommitted data that a session leaves does not reach beyond the end of the region, of 4 gigabytes, in which the newest
    trailer ends: the process that opens the file next would otherwise map a region for data that it is about to overwrite, and
    its first allocation would unmap that region and leave the segment address table pointing into it. *)
Definition reopen_room w : Prop :=
  last_region_offset (file_size (maps (db_storage (db_of w)))) <= view_pos (db_of w) + sizeof_trailer.

(** ** Sessions

    The states that a new store reaches by look-ups, insertions, commits and by being
    opened again by another process, with the abstract store that each one stands for. *)
Inductive reachable (k : Z) : W -> astore -> Prop :=
  | reach_new uuid now w : open_new (2 ^ k) uuid now = Ok w -> reachable k w a_new
  | reach_insert w a i kv u ins w' :
      reachable k w a -> (i < num_indices)%nat -> leaf_room (store w) kv ->
      index_insert i kv u w = (Ok ins, w') -> reachable k w' (a_insert i kv u a)
  | reach_find w a i key v w' :
      reachable k w a -> (i < num_indices)%nat -> index_find i key w = (Ok v, w') -> reachable k w' a
  | reach_commit w a now w' :
      reachable k w a -> commit_room w a ->
      (commit (2 ^ k) now ;;; begin_transaction) w = (Ok tt, w') -> reachable k w' (a_commit a)
  | reach_reopen w a w' :
      reachable k w a -> reopen_room w -> reopen (2 ^ k) w = Ok w' -> reachable k w' (a_reopen a).

Lemma reachable_refines k w a : 0 <= k <= 22 -> reachable k w a -> exists l c, refines w a l c.
Proof.
  intros Hk. induction 1 as [uuid now w Hw|w a i kv u ins w' _ (l & c & IH) Hi Hroom Hrun
    |w a i key v w' _ (l & c & IH) Hi Hrun|w a now w' _ (l & c & IH) Hroom Hrun|w a w' _ (l & c & IH) Hfs Hrun].
  - destruct (open_new_refines k uuid now Hk) as (w0 & t & Hw0 & Hr & _). rewrite Hw in Hw0. injection Hw0 as <-. eauto.
  - destruct (wp_run _ _ _ _ _ (index_insert_refines w a l c i kv u IH Hi Hroom) Hrun) as [_ [c' ?]]. eauto.
  - destruct (wp_run _ _ _ _ _ (index_find_refines w a l c i key IH Hi) Hrun) as [_ [c' ?]]. eauto.
  - destruct (commit_room_refines _ _ _ _ IH Hroom) as [Hl Hr].
    exact (wp_run _ _ _ _ _ (commit_refines w a l c k now IH Hk Hl Hr) Hrun).
  - destruct (reopen_refines w a l c k IH Hk Hfs) as (w0 & c' & Hw0 & Hr). rewrite Hrun in Hw0. injection Hw0 as <-. eauto.
Qed.

End session.
