(* ===== verification/Vacuum.v ===== *)
(** * Vacuuming a store

    Models lib/vacuum/copy.cpp, watch.cpp and quit.cpp: one thread copies the newest revision of a
    store to a new file and then tries to rename it to the store, another watches whether the store
    is touched meanwhile, a third ends the work when a signal arrives. The threads interleave; each step is
    what a thread does between two accesses to what they share. A store is the abstract store of
    Session.v, which the database implements; an entry of an index is here a key and the octets of
    the extent that the index gives for it, so that allocating a block, copying the octets and
    entering the extent in an index is one operation. *)

From S2P Require Import Prelude FileHeader StoreIntf Session.

Abbreviation path := (list Z).
Abbreviation maps := (maps_of (K := list Z) (V := list Z)).
Abbreviation adb := (astore (K := list Z) (V := list Z)).

(** [trailer::indices::write] *)
Definition write_index : nat := 4.

(** A file: the store in it and the time of its last modification *)
Record file := mk_file { f_store : adb; f_time : Z }.

Definition no_maps : maps := fun _ => ∅.
Definition newest (a : adb) : maps := default no_maps (head (a_history a)).

(** The store in a file that was just created: its first revision is empty. *)
Definition fresh : adb := AStore no_maps false [no_maps].

(** Where the threads stand. The copying thread holds the maps of the revision that its source
    was synced to, what remains of the range of the loop, and its destination. *)
Inductive copy_point :=
| C_test | C_delay | C_check | C_start
| C_open (source : maps)
| C_check_done (source : maps) (source_names : gmap (list Z) (list Z)) (destination : adb)
| C_copy (source : maps) (range : list (list Z * list Z)) (destination : adb)
| C_finish (source : maps) | C_wait (source : maps) | C_rename (source : maps)
| C_exit.
Inductive watch_point := W_start | W_test | W_wait (start_time : Z) | W_watch (start_time : Z) | W_exit.

(** [status], the flag [start_watch] of [watch_state], the files, and the threads; and two facts
    on what happened: a signal arrived, another process wrote to the store since it was synced. *)
Record vstate := mk_v {
  files : gmap path file;
  modified : bool; done_ : bool; watch_running : bool; start_watch : bool;
  copy_at : copy_point; watch_at : watch_point;
  signalled : bool; touched : bool }.

Definition set_copy p v := mk_v (files v) (modified v) (done_ v) (watch_running v) (start_watch v) p (watch_at v) (signalled v) (touched v).
Definition set_watch p v := mk_v (files v) (modified v) (done_ v) (watch_running v) (start_watch v) (copy_at v) p (signalled v) (touched v).
Definition set_files f v := mk_v f (modified v) (done_ v) (watch_running v) (start_watch v) (copy_at v) (watch_at v) (signalled v) (touched v).
Definition set_modified b v := mk_v (files v) b (done_ v) (watch_running v) (start_watch v) (copy_at v) (watch_at v) (signalled v) (touched v).
Definition set_done b v := mk_v (files v) (modified v) b (watch_running v) (start_watch v) (copy_at v) (watch_at v) (signalled v) (touched v).
Definition set_running b v := mk_v (files v) (modified v) (done_ v) b (start_watch v) (copy_at v) (watch_at v) (signalled v) (touched v).
Definition set_start b v := mk_v (files v) (modified v) (done_ v) (watch_running v) b (copy_at v) (watch_at v) (signalled v) (touched v).
Definition set_signalled b v := mk_v (files v) (modified v) (done_ v) (watch_running v) (start_watch v) (copy_at v) (watch_at v) b (touched v).
Definition set_touched b v := mk_v (files v) (modified v) (done_ v) (watch_running v) (start_watch v) (copy_at v) (watch_at v) (signalled v) b.

Section vacuum.
Context (src_path : path) (daemon_mode : bool).

(** [source->path () + ".gc"] *)
Definition gc_path : path := src_path ++ [46; 103; 99].

Definition source_file (v : vstate) : adb :=
  match files v !! src_path with Some f => f_store f | None => fresh end.
Definition latest_time (v : vstate) : Z :=
  match files v !! src_path with Some f => f_time f | None => 0 end.

(** [stop] *)
Definition stop (v : vstate) : vstate := set_done true v.

(** [start_watching]: the source is synced to its newest revision. *)
Definition start_watching (v : vstate) : vstate :=
  set_touched false (set_modified false (set_start true (set_copy (C_open (newest (source_file v))) v))).

(** The constructor of the destination, which creates its file if need be *)
Definition open_destination (v : vstate) : adb * gmap path file :=
  match files v !! gc_path with
  | Some f => (a_reopen (f_store f), files v)
  | None => (a_reopen fresh, <[gc_path := mk_file fresh 0]> (files v))
  end.

(** [precopy_delay] ends after its time or when the job is done; that it is called at all depends
    on the options. *)
Definition precopy_delay (v : vstate) : vstate := set_copy C_check v.

(** A turn of the loop over the entries: the entry is copied to the destination; where the watch
    has asked for it the copy is abandoned. *)
Definition copy_entry (kvp : list Z * list Z) (destination : adb) : adb :=
  a_insert write_index kvp true destination.
Definition copy_turn (source : maps) (range : list (list Z * list Z)) (destination : adb) (v : vstate) : vstate :=
  match range with
  | [] => (* transaction.commit (); destination->close () *)
      set_copy (C_finish source) (set_files (<[gc_path := mk_file (a_commit destination) 0]> (files v)) v)
  | kvp :: range =>
      let destination := copy_entry kvp destination in
      if modified v then (* transaction.rollback (); destination->close () *)
        set_copy C_test (set_files (<[gc_path := mk_file (a_reopen destination) 0]> (files v)) v)
      else set_copy (C_copy source range destination) v
  end.

(** [get_index<trailer::indices::write> (source)]: with its default argument [create] it makes an index
    where the store has none, so that there always is one. *)
Definition get_write_index (source : maps) : option (gmap (list Z) (list Z)) := Some (source write_index).

(** [destination_file.rename (source_path)], with [file_handle::rename]: it does not replace a file that
    exists, in which case its result, that [copy] ignores, is false; if there is nothing to rename
    an exception leaves the loop. *)
Definition rename_destination (v : vstate) : vstate :=
  match files v !! gc_path, files v !! src_path with
  | Some f, None => set_copy C_test (set_files (<[src_path := f]> (delete gc_path (files v))) v)
  | Some _, Some _ => set_copy C_test v
  | None, _ => set_copy C_exit v
  end.

(** [copy] *)
Definition copy_step (v : vstate) : vstate :=
  match copy_at v with
  | C_test => set_copy (if done_ v then C_exit else if daemon_mode then C_delay else C_check) v
  | C_delay => precopy_delay v
  | C_check => set_copy (if done_ v then C_exit else C_start) v
  | C_start => start_watching v
  | C_open source =>
      let '(destination, fs) := open_destination v in
      let v := set_files fs v in
      match get_write_index source with
      | None => set_copy C_exit (stop v)
      | Some source_names => set_copy (C_check_done source source_names destination) v
      end
  | C_check_done source source_names destination =>
      set_copy (if done_ v then C_finish source else C_copy source (map_to_list source_names) destination) v
  | C_copy source range destination => copy_turn source range destination v
  | C_finish source => set_copy (C_wait source) (stop v)
  | C_wait source => set_copy (if watch_running v then C_wait source else C_rename source) v
  | C_rename source => rename_destination v
  | C_exit => v
  end.

(** [watch]; [can_lock] tells whether no other process has the file open. *)
Definition watch_step (can_lock : bool) (v : vstate) : vstate :=
  match watch_at v with
  | W_start => set_watch W_test (set_running true v)
  | W_test => if done_ v then set_watch W_exit (set_running false v) else set_watch (W_wait (latest_time v)) v
  | W_wait start_time =>
      if start_watch v || done_ v then set_watch (W_watch start_time) (set_start false v) else v
  | W_watch start_time =>
      if done_ v || modified v then set_watch W_test v
      else
        let current_time := latest_time v in
        let file_modified := current_time >? start_time in
        let v := if file_modified || negb can_lock then set_modified true v else v in
        set_watch (W_watch current_time) v
  | W_exit => v
  end.

(** [quit_thread], when a signal arrives *)
Definition quit_step (v : vstate) : vstate := set_signalled true (set_done true v).

(** Another process commits to the store. *)
Definition other_commits (m : maps) (time : Z) (v : vstate) : vstate :=
  set_touched true
    (set_files (<[src_path := mk_file (AStore m false (m :: a_history (source_file v))) time]> (files v)) v).

(** An exception that leaves [copy]: the transaction is rolled back. *)
Definition copy_throws (v : vstate) : vstate := set_copy C_exit v.

Inductive vstep (v : vstate) : vstate -> Prop :=
| v_copy : vstep v (copy_step v)
| v_watch can_lock : vstep v (watch_step can_lock v)
| v_quit : vstep v (quit_step v)
| v_other m time : vstep v (other_commits m time v)
| v_throw : vstep v (copy_throws v).

(** The process starts on a store. *)
Definition starts (fs : gmap path file) (v : vstate) : Prop :=
  is_Some (fs !! src_path) /\
  v = mk_v fs false false false false C_test W_start false false.

Inductive vreachable (fs : gmap path file) : vstate -> Prop :=
| vr_start v : starts fs v -> vreachable fs v
| vr_step v v' : vreachable fs v -> vstep v v' -> vreachable fs v'.
End vacuum.

(** ** What holds while the threads run *)

Section invariant.
Context (src_path : path) (daemon_mode : bool).
Local Abbreviation gc := (gc_path src_path).



Context (before : list maps).
Local Abbreviation left_over := (default no_maps (head before)).






















End invariant.


(** ** Runs *)

Section runs.
Definition store_path : path := [47; 97].
(** A store with an entry in its write index, and one among its names *)
Definition some_maps : maps := fun i => if decide (i = write_index) then {[ [107] := [1; 2; 3] ]} else
  if decide (i = 3%nat) then {[ [110] := [9] ]} else ∅.
Definition some_files : gmap path file := {[ store_path := mk_file (AStore some_maps false [some_maps; no_maps]) 5 ]}.
Definition first_state : vstate := mk_v some_files false false false false C_test W_start false false.

(** The copying thread alone *)
Definition run (n : nat) (v : vstate) : vstate := Nat.iter n (copy_step store_path false) v.

Lemma first_reached : vreachable store_path false some_files first_state.
Proof. apply vr_start. split; [by eexists|done]. Qed.
Lemma run_reached n v : vreachable store_path false some_files v -> vreachable store_path false some_files (run n v).
Proof. intros Hv. induction n as [|n IH]; [done|]. eapply vr_step; [exact IH|apply v_copy]. Qed.

(** An index of the store, and of the new file *)
Definition of_store (i : nat) (v : vstate) : gmap (list Z) (list Z) := newest (source_file store_path v) i.
Definition of_copy (i : nat) (v : vstate) : gmap (list Z) (list Z) :=
  match files v !! gc_path store_path with Some f => newest (f_store f) i | None => ∅ end.

(** The vacuum ends with both files: nothing has been replaced. The copy has no names. *)
Lemma store_not_replaced :
  copy_at (run 11 first_state) = C_exit /\ files (run 11 first_state) !! store_path = some_files !! store_path /\
  of_copy write_index (run 11 first_state) = {[ [107] := [1; 2; 3] ]} /\
  of_store 3 (run 11 first_state) = {[ [110] := [9] ]} /\ of_copy 3 (run 11 first_state) = ∅.
Proof. by vm_compute. Qed.

(** A vacuum of a store with another entry, which begins where that one ended: the old entry is still in
    the new file. *)
Definition later_files : gmap path file :=
  <[store_path := mk_file (AStore (fun _ => {[ [108] := [4] ]}) false [fun _ => {[ [108] := [4] ]}]) 7]> (files (run 11 first_state)).
Lemma left_over_stays :
  of_copy write_index (run 11 (mk_v later_files false false false false C_test W_start false false)) =
    {[ [107] := [1; 2; 3]; [108] := [4] ]}.
Proof. by vm_compute. Qed.

(** A signal that arrives while the destination is being opened: the copy is skipped, but its end is
    that of a complete one. *)
Lemma signal_skips_copy :
  exists v, vreachable store_path false some_files v /\ copy_at v = C_rename some_maps /\ of_copy write_index v = ∅.
Proof.
  exists (run 3 (quit_step (run 4 first_state))). split_and!; [|by vm_compute..].
  apply run_reached. eapply vr_step; [|apply v_quit]. apply run_reached, first_reached.
Qed.

(** So is it when another process commits after the last entry was copied. *)
Lemma late_commit_missed :
  exists v, vreachable store_path false some_files v /\ copy_at v = C_rename some_maps /\
    of_store write_index v = {[ [107] := [4] ]} /\ of_copy write_index v = {[ [107] := [1; 2; 3] ]}.
Proof.
  exists (run 3 (other_commits store_path (fun _ => {[ [107] := [4] ]}) 6 (run 6 first_state))). split_and!; [|by vm_compute..].
  apply run_reached. eapply vr_step; [|apply v_other]. apply run_reached, first_reached.
Qed.
End runs.

