(* ===== verification/Examples.v ===== *)
(** * A concrete store

    An instance of the system with 64-bit integers for keys and values, on which the
    definitions of the development are run. *)

From S2P Require Import Prelude BitCount Checksum Address Region Storage FileHeader StoreIntf HamtTypes HamtMap.
From S2P Require Import Database DatabaseSpec Transaction TransactionSpec.
From S2P Require Import HamtSpec HamtOps HamtInsert HamtRefine HamtIter HamtFlush Commit Session.

#[export] Instance int_traits : KeyTraits Z Z := {|
  kt_hash := fun k => wrap64 k;
  kt_equal := Z.eqb;
  key_size := fun _ => 8;
  key_align := 3;
  value_size := fun _ => 8;
  value_align := 3
|}.

#[export] Instance int_traits_laws : KeyTraitsLaws Z Z.
Proof.
  split; cbn; [intros; by apply wrap_range|intros; apply Z.eqb_eq|intros; lia..].
Qed.

Abbreviation IntWorld := (world (tstate (obj Z Z))).

(** The run of a client on a new store *)
Definition on_new_store {A} (m : M IntWorld A) : outcome A :=
  w <-? open_new (2 ^ 12) (replicate 16 0) 0 ;; (m w).1.

Definition insert_all (i : nat) (l : list (Z * Z)) : M IntWorld unit :=
  foldr (fun kv k => index_insert i kv true ;;; k) (ret tt) l.

(** ** The states of a session

    A new store, the same store after an insertion, after the commit of it, and after a
    second insertion and commit. *)

Ltac ok_of o := let r := eval vm_compute in o in match r with Ok ?w => exact w end.

Definition new_world : IntWorld := ltac:(ok_of (open_new (2 ^ 12) (replicate 16 0) 0 : outcome IntWorld)).
Definition inserted_world : IntWorld := Eval vm_compute in (index_insert 0 (1, 10) false new_world).2.
Definition committed_world : IntWorld :=
  Eval vm_compute in ((commit (2 ^ 12) 5 ;;; begin_transaction) inserted_world).2.
Definition second_world : IntWorld := Eval vm_compute in (index_insert 0 (1, 11) true committed_world).2.
Definition third_world : IntWorld :=
  Eval vm_compute in ((commit (2 ^ 12) 6 ;;; begin_transaction) second_world).2.

Abbreviation a_one := (a_insert 0 (1, 10) false a_new).
Abbreviation a_two := (a_insert 0 (1, 11) true (a_commit a_one)).

Lemma new_reachable : reachable 12 new_world a_new.
Proof. apply (reach_new _ (replicate 16 0) 0). vm_compute. reflexivity. Qed.

Lemma inserted_reachable : reachable 12 inserted_world a_one.
Proof.
  apply (reach_insert _ new_world a_new 0 (1, 10) false true); [apply new_reachable|vm_compute; lia|vm_compute; done|].
  vm_compute. reflexivity.
Qed.

Lemma committed_reachable : reachable 12 committed_world (a_commit a_one).
Proof.
  apply (reach_commit _ inserted_world _ 5); [apply inserted_reachable|split; vm_compute; done|].
  vm_compute. reflexivity.
Qed.

Lemma second_reachable : reachable 12 second_world a_two.
Proof.
  apply (reach_insert _ committed_world _ 0 (1, 11) true false); [apply committed_reachable|vm_compute; lia|vm_compute; done|].
  vm_compute. reflexivity.
Qed.

Lemma third_reachable : reachable 12 third_world (a_commit a_two).
Proof.
  apply (reach_commit _ second_world _ 6); [apply second_reachable|split; vm_compute; done|].
  vm_compute. reflexivity.
Qed.

(** The revisions of the last state *)
Lemma third_view : exists l c, refines third_world (a_commit a_two) l c /\ length l = 3%nat /\
  view_ok (t_db (store third_world)) l.
Proof.
  destruct (reachable_refines 12 third_world _ ltac:(lia) third_reachable) as (l & c & Hr).
  exists l, c. split_and!; [done|by rewrite (history_length _ _ _ _ (rf_history _ _ _ _ Hr))|].
  by eapply ready_view_ok, refines_ready.
Qed.

(** The second state, whose transaction has allocated but not committed *)
Lemma second_view : exists l c, refines second_world a_two l c /\ length l = 2%nat /\ a_dirty a_two = true.
Proof.
  destruct (reachable_refines 12 second_world _ ltac:(lia) second_reachable) as (l & c & Hr).
  exists l, c. split_and!; [done|by rewrite (history_length _ _ _ _ (rf_history _ _ _ _ Hr))|done].
Qed.

(** The state between a commit and the next transaction *)
Definition closed_world : IntWorld := Eval vm_compute in (commit (2 ^ 12) 5 inserted_world).2.

Lemma closed_db_ok : db_ok (t_db (store closed_world)).
Proof.
  destruct (reachable_refines 12 inserted_world _ ltac:(lia) inserted_reachable) as (l & c & Hr).
  assert (commit_room inserted_world a_one) as Hroom by (split; vm_compute; done).
  destruct (wp_run _ _ _ tt closed_world (refines_commit _ _ _ _ 12 5 Hr eq_refl ltac:(lia) Hroom))
    as (pos & t & Hc); [vm_compute; reflexivity|]. apply Hc.
Qed.

(** An index whose trie has two levels: the keys 1 and 65 share the first six bits of
    their hashes. *)
Definition two_world : IntWorld := Eval vm_compute in (index_insert 0 (65, 20) false inserted_world).2.
Definition trie_world : IntWorld := Eval vm_compute in (index_insert 0 (2, 30) false two_world).2.

Abbreviation a_trie := (a_insert 0 (2, 30) false (a_insert 0 (65, 20) false a_one)).

Lemma trie_reachable : reachable 12 trie_world a_trie.
Proof.
  apply (reach_insert _ two_world _ 0 (2, 30) false true); [|vm_compute; lia|vm_compute; done|vm_compute; reflexivity].
  apply (reach_insert _ inserted_world _ 0 (65, 20) false true); [|vm_compute; lia|vm_compute; done|vm_compute; reflexivity].
  apply inserted_reachable.
Qed.

Definition trie_map : hamt_map := Eval vm_compute in
  match db_indices (t_db (store trie_world)) !! 0%nat with Some (Some m) => m | _ => HamtMap 0 0 0 end.

Lemma trie_index : ts_inv (store trie_world) /\ ts_revision (store trie_world) = Ok (revision trie_map) /\
  exists l bl, hamt_rep trie_world trie_map l bl /\ to_map l = a_current a_trie 0%nat /\
    end_of trie_world + flush_room l bl <= address_limit.
Proof.
  destruct (reachable_refines 12 trie_world _ ltac:(lia) trie_reachable) as (l & c & Hr).
  assert (0 < num_indices)%nat as Hi by (unfold num_indices; lia).
  split; [exact (rf_tx _ _ _ _ Hr)|]. split; [vm_compute; reflexivity|].
  pose proof (ik_state _ _ (rf_indices _ _ _ _ Hr) 0%nat Hi) as [Hrep _].
  pose proof (rf_current _ _ _ _ Hr 0%nat Hi) as Hm.
  exists (c 0%nat).1, (c 0%nat).2. split_and!; [exact Hrep|exact Hm|].
  pose proof (index_state_room _ _ _ _ (ik_state _ _ (rf_indices _ _ _ _ Hr) 0%nat Hi)) as Hroom.
  rewrite Hm in Hroom. change (base.size (a_current a_trie 0%nat)) with 3%nat in Hroom.
  change (end_of trie_world) with 216. change address_limit with 274877906944. lia.
Qed.

(** A storage of two regions: a full one and one of a single segment *)
Lemma two_regions : exists st r1 r2, (st <-? storage_ctor (2 ^ 32 + 5) ;; update_master_pointers 0 st) = Ok st /\
  storage_ok st /\ regions (maps st) = [r1] ++ [r2] /\ rg_offset r1 = 0 /\ rg_offset r2 = 2 ^ 32 /\
  total_size (regions (maps st)) = 2 ^ 32 + 2 ^ 22.
Proof.
  destruct (storage_init_ok (2 ^ 32 + 5)) as (st & E & Hok & Ht & _); [vm_compute; split; [reflexivity|discriminate]|].
  assert (regions <$> (match storage_ctor (2 ^ 32 + 5) with Ok st => Some (maps st) | Throw _ => None end) =
    Some ([Region 1 0 (2 ^ 32)] ++ [Region 2 (2 ^ 32) (2 ^ 22)])) as Hm by (vm_compute; reflexivity).
  exists st, (Region 1 0 (2 ^ 32)), (Region 2 (2 ^ 32) (2 ^ 22)).
  split; [exact E|]. split; [exact Hok|]. split; [|split; [reflexivity|split; [reflexivity|rewrite Ht; reflexivity]]].
  destruct (storage_ctor (2 ^ 32 + 5)) as [st0|]; [|discriminate]. cbn in Hm. injection Hm as Hm.
  cbn [obind] in E. by rewrite (update_master_pointers_maps _ _ _ E).
Qed.

(** ** Runs that show what the code does at its edges *)

(** The cache of indices is not part of what a rollback undoes: the index still holds the
    leaf of the insertion, which lies outside of the view. *)
Example rollback_keeps_cache :
  on_new_store (index_insert 0 (1, 10) false ;;; in_store rollback ;;; begin_transaction ;;; index_find 0 1) =
    Throw (Raise bad_address).
Proof. vm_compute. reflexivity. Qed.

(** The state that an operation leaves when its exception is caught *)
Definition catch_all {A} (m : M IntWorld A) : M IntWorld unit := fun w => (Ok tt, (m w).2).

(** The space that a refused allocation took is not part of the next transaction's trailer,
    which the checks of the store then reject. *)
Example allocate_after_commit_corrupts :
  on_new_store (in_store (tx_allocate 8 8) ;;; commit (2 ^ 12) 5 ;;;
    catch_all (in_store (tx_allocate 8 8)) ;;;
    begin_transaction ;;; in_store (tx_allocate 8 8) ;;; commit (2 ^ 12) 6 ;;;
    with_world (fun w => trailer_validate (t_db (store w)) (footer_pos (db_size (t_db (store w)))))) =
    Throw (Raise footer_corrupt).
Proof. vm_compute. reflexivity. Qed.

(** One of the two signatures of a trailer is enough. *)
Example one_signature_suffices :
  signature_is_valid (Trailer (replicate 8 0) 0 0 0 0 [0; 0; 0; 0; 0] 0 default_signature2) = true.
Proof. reflexivity. Qed.

(** [clear] resets the root of a map but not its size. *)
Example clear_keeps_size :
  match hamt_clear trie_map trie_world with
  | (Ok m, _) => root m = 0 /\ size m = 3
  | _ => False
  end.
Proof. vm_compute. split; reflexivity. Qed.
