(* ===== verification/Properties.v ===== *)
(** * The properties of the store

    The guarantees that the library gives, each with an instance on the stores of
    Examples.v: first those of the store as a whole, then those of the database, the
    index, the memory mapping and the encodings. *)

From S2P Require Import Prelude BitCount Varint Checksum Address Region Storage FileHeader StoreIntf HamtTypes HamtMap.
From S2P Require Import Database DatabaseSpec Transaction TransactionSpec.
From S2P Require Import HamtSpec HamtOps HamtInsert HamtRefine HamtIter HamtFlush Commit Session Examples.

(** ** The store *)

Section store.
Context {K V : Type} `{Countable K} {KT : KeyTraits K V} {KL : KeyTraitsLaws K V}
  {HA : HeapAllocator node} {HL : HeapAllocatorLaws node}.
Implicit Types w : world (tstate (obj K V)).
Implicit Types a : astore (K := K) (V := V).

(** C1: in every state that a session reaches, a look-up in an index returns (without an
    exception or a failed assertion) exactly what the map that the state stands for holds
    under the key, and the session goes on with the same maps. *)
Theorem session_find k w a i key :
  0 <= k <= 22 -> reachable k w a -> (i < num_indices)%nat ->
  exists w', index_find i key w = (Ok (a_current a i !! key), w') /\ reachable k w' a.
Proof.
  intros Hk Hw Hi. destruct (reachable_refines k w a Hk Hw) as (l & c & Hr).
  destruct (wp_elim _ _ _ (index_find_refines w a l c i key Hr Hi)) as (v & w' & E & -> & _).
  exists w'. split; [done|]. by eapply reach_find.
Qed.

(** C2: an insertion into an index, or an insertion-or-assignment, succeeds in every state
    that a session reaches with room for the pair; it reports whether the key was absent,
    and the new state stands for the updated maps. *)
Theorem session_insert k w a i kv u :
  0 <= k <= 22 -> reachable k w a -> (i < num_indices)%nat -> leaf_room (store w) kv ->
  exists w', index_insert i kv u w = (Ok (bool_decide (a_current a i !! kv.1 = None)), w') /\
    reachable k w' (a_insert i kv u a).
Proof.
  intros Hk Hw Hi Hroom. destruct (reachable_refines k w a Hk Hw) as (l & c & Hr).
  destruct (wp_elim _ _ _ (index_insert_refines w a l c i kv u Hr Hi Hroom)) as (v & w' & E & -> & _).
  exists w'. split; [done|]. by eapply reach_insert.
Qed.

(** C3: committing succeeds in every state that a session reaches with room for the
    indices; the new state stands for the same maps, which have become a revision of the
    history if the transaction had written anything. *)
Theorem session_commit k w a now :
  0 <= k <= 22 -> reachable k w a -> commit_room w a ->
  exists w', (commit (2 ^ k) now ;;; begin_transaction) w = (Ok tt, w') /\ reachable k w' (a_commit a).
Proof.
  intros Hk Hw Hroom. destruct (reachable_refines k w a Hk Hw) as (l & c & Hr).
  destruct (commit_room_refines _ _ _ _ Hr Hroom) as [Hl Hc].
  destruct (wp_elim _ _ _ (commit_refines w a l c k now Hr Hk Hl Hc)) as ([] & w' & E & _).
  exists w'. split; [done|]. by eapply reach_commit.
Qed.

(** C4: durability: another process can open the file that a session leaves, finds the maps of the newest committed revision,
    and can go on; what was not committed is not there. The file must not reach, with what was not committed, into another of its
    regions of 4 gigabytes than the one where the newest trailer ends ([reopen_room]). *)
Theorem session_reopen k w a :
  0 <= k <= 22 -> reachable k w a -> reopen_room w ->
  exists w', reopen (2 ^ k) w = Ok w' /\ reachable k w' (a_reopen a).
Proof.
  intros Hk Hw Hroom. destruct (reachable_refines k w a Hk Hw) as (l & c & Hr).
  destruct (reopen_refines w a l c k Hr Hk Hroom) as (w' & c' & E & _).
  exists w'. split; [done|]. by eapply reach_reopen.
Qed.

(** C5: history is immutable: in any state of a session without uncommitted data, syncing
    to an older revision and looking a key up returns what the maps held when that
    revision was committed. *)
Theorem session_checkout k w a r i key :
  0 <= k <= 22 -> reachable k w a -> a_dirty a = false -> (i < num_indices)%nat ->
  0 <= r < Z.of_nat (length (a_history a)) - 1 ->
  exists m w', a_history a !! Z.to_nat (Z.of_nat (length (a_history a)) - 1 - r) = Some m /\
    (in_store (in_db (sync r)) ;;; index_find i key) w = (Ok (m i !! key), w').
Proof.
  intros Hk Hw Hd Hi Hrev. destruct (reachable_refines k w a Hk Hw) as (l & c & Hr).
  rewrite <- (history_length _ _ _ _ (rf_history _ _ _ _ Hr)) in *.
  destruct (checkout_reads w a l c r i key (refines_ready _ _ _ _ Hr Hd) Hrev Hi) as (m & Hm & Hwp).
  destruct (wp_elim _ _ _ Hwp) as (v & w' & E & ->). by exists m, w'.
Qed.

End store.

Lemma session_find_witness :
  a_current a_one 0%nat !! 1 = Some 10 /\
  exists w', index_find 0 1 inserted_world = (Ok (a_current a_one 0%nat !! 1), w') /\ reachable 12 w' a_one.
Proof.
  split; [reflexivity|]. apply session_find; [lia|apply inserted_reachable|unfold num_indices; lia].
Defined.

Lemma session_insert_witness :
  exists w', index_insert 0 (1, 11) true committed_world =
      (Ok (bool_decide (a_current (a_commit a_one) 0%nat !! 1 = None)), w') /\ reachable 12 w' a_two.
Proof.
  apply (session_insert 12 committed_world (a_commit a_one) 0 (1, 11) true);
    [lia|apply committed_reachable|unfold num_indices; lia|vm_compute; discriminate].
Defined.

Lemma session_commit_witness :
  exists w', (commit (2 ^ 12) 6 ;;; begin_transaction) second_world = (Ok tt, w') /\
    reachable 12 w' (a_commit a_two).
Proof.
  apply (session_commit 12 second_world a_two 6);
    [lia|apply second_reachable|split; vm_compute; [reflexivity|discriminate]].
Defined.

(** The insertion that was not committed is lost. *)
Lemma session_reopen_witness :
  a_current (a_reopen a_two) 0%nat !! 1 = Some 10 /\
  exists w', reopen (2 ^ 12) second_world = Ok w' /\ reachable 12 w' (a_reopen a_two).
Proof.
  split; [reflexivity|]. apply session_reopen; [lia|apply second_reachable|vm_compute; discriminate].
Defined.

(** The value that the second commit replaced is found in the revision of the first. *)
Lemma session_checkout_witness :
  exists m w', a_history (a_commit a_two) !! 1%nat = Some m /\
    (in_store (in_db (sync 1)) ;;; index_find 0 1) third_world = (Ok (m 0%nat !! 1), w').
Proof.
  destruct (session_checkout 12 third_world (a_commit a_two) 1 0 1) as (m & w' & Hm & E);
    [lia|apply third_reachable|reflexivity|unfold num_indices; lia|vm_compute; split; [discriminate|reflexivity]|].
  exists m, w'. split; [exact Hm|exact E].
Defined.

(** ** Transactions *)

Section transactions.
Context {K V : Type} `{Countable K} {KT : KeyTraits K V} {KL : KeyTraitsLaws K V}
  {HA : HeapAllocator node} {HL : HeapAllocatorLaws node}.
Implicit Types w : world (tstate (obj K V)).
Implicit Types s : tstate (obj K V).

(** C6: a commit of a transaction with data is atomic and append-only: nothing that the
    store held is changed, a trailer that continues the list of revisions is written past
    it and becomes the head, every index is in the store under the location that the
    trailer records, no heap block of an index is leaked and no other is touched. *)
Theorem commit_appends w a l c k now :
  refines w a l c -> a_dirty a = true -> 0 <= k <= 22 -> commit_room w a ->
  exists pos t w', commit (2 ^ k) now w = (Ok tt, w') /\ committed w c l pos t w'.
Proof.
  intros Hr Hd Hk Hroom. pose proof (refines_commit w a l c k now Hr Hd Hk Hroom) as Hwp.
  destruct (wp_elim _ _ _ Hwp) as ([] & w' & E & pos & t & Hcm). by exists pos, t, w'.
Qed.

(** C7: a transaction allocates a block of the requested size and alignment at the end of
    the store; it is open from then on, and the store below the block is unchanged. *)
Theorem transaction_allocates s size k :
  tx_ok s -> 0 <= size -> 0 <= k <= 12 -> view_end (t_db s) + 2 ^ k + size <= address_limit ->
  exists addr s', tx_allocate size (2 ^ k) s = (Ok addr, s') /\ tx_allocated s size k addr s' /\ (2 ^ k | addr).
Proof.
  intros Hs Hsize Hk Hroom.
  destruct (wp_elim _ _ _ (tx_allocate_spec s size k Hs Hsize Hk Hroom)) as (addr & s' & E & Hal).
  exists addr, s'. split_and!; [done|done|]. rewrite (al_addr _ _ _ _ _ (ta_db _ _ _ _ _ Hal)).
  apply pad_divide. lia.
Qed.


(** an allocation through a transaction that has been committed raises
    [cannot_allocate_after_commit], but not before the database has been extended: the
    view then ends past the newest trailer. *)
Lemma allocate_after_commit_extends s size k :
  db_ok (t_db s) -> is_open (t_tx s) = false -> tx_size (t_tx s) <> 0 ->
  0 <= size -> 0 <= k <= 12 -> view_end (t_db s) + 2 ^ k + size <= address_limit ->
  exists addr db', tx_allocate size (2 ^ k) s =
      (Throw (Raise cannot_allocate_after_commit), TState db' (t_tx s)) /\
    view_end db' = addr + size /\ view_end (t_db s) <= addr.
Proof.
  intros Hdb Ho Hz Hsize Hk Hroom.
  destruct (allocate_after_commit_spec s size k) as (addr & db' & E & Hal); try done.
  exists addr, db'. split_and!; [done|apply Hal|]. rewrite (al_addr _ _ _ _ _ Hal).
  pose proof (Z.mod_pos_bound (- view_end (t_db s)) (2 ^ k) ltac:(lia)). lia.
Qed.

End transactions.

Lemma commit_appends_witness :
  exists l c pos t w', commit (2 ^ 12) 6 second_world = (Ok tt, w') /\ committed second_world c l pos t w' /\
    length l = 2%nat.
Proof.
  destruct second_view as (l & c & Hr & Hl & Hd).
  destruct (commit_appends second_world a_two l c 12 6) as (pos & t & w' & E & Hc);
    [exact Hr|exact Hd|lia|split; vm_compute; [reflexivity|discriminate]|].
  exists l, c, pos, t, w'. split; [exact E|]. split; [exact Hc|exact Hl].
Defined.

Lemma transaction_allocates_witness :
  exists addr s', tx_allocate 100 (2 ^ 4) (store second_world) = (Ok addr, s') /\
    tx_allocated (store second_world) 100 4 addr s' /\ (2 ^ 4 | addr).
Proof.
  destruct second_view as (l & c & Hr & _).
  apply transaction_allocates; [exact (rf_tx _ _ _ _ Hr)|lia|lia|vm_compute; discriminate].
Defined.



(** ** The database *)

Section database.
Context {O : Type}.
Implicit Types db : database O.

(** C9: the outcome of a request for a block, on every branch: a closed store, an
    attempt to write committed data and a request that leaves the view are refused with
    their error codes, and every block inside the view can be obtained. *)
Theorem get_outcome db addr size initialized writable :
  db_ok db -> 0 <= addr -> 0 <= size ->
  db_get (db_close db) addr size initialized writable = Throw (Raise store_closed) /\
  if decide (writable = true /\ addr < first_writable_address db) then
    db_get db addr size initialized writable = Throw (Raise read_only_address)
  else if decide (view_end db < addr + size) then
    db_get db addr size initialized writable = Throw (Raise bad_address)
  else addr < view_end db -> exists b, db_get db addr size initialized writable = Ok b.
Proof.
  intros Hok Ha Hs. split.
  { unfold db_close, db_get. destruct (db_closed db) eqn:E; [by rewrite E|done]. }
  case_decide as Hw; [|case_decide as He].
  - destruct Hw as [-> Hlt]. unfold db_get. rewrite (dk_open _ Hok). by rewrite (proj2 (Z.ltb_lt _ _) Hlt).
  - assert (writable && (addr <? first_writable_address db) = false) as Hw'.
    { destruct writable; [|done]. apply Z.ltb_ge. apply Z.nlt_ge. intros ?. by apply Hw. }
    rewrite <- (db_get_outside db addr size initialized (dk_open _ Hok) Ha Hs He).
    unfold db_get. by rewrite Hw'.
  - intros Hv. apply db_get_ok; try done; [lia|]. intros ->. apply Z.nlt_ge. intros ?. by apply Hw.
Qed.

(** C11: the list of trailers is walked to its end: the generation container visits every
    revision once, newest first, and stops; [older_revision_footer_pos] finds the trailer
    of every revision up to the current one and reports a number beyond it as unknown. *)
Theorem revisions_found db l revision :
  db_ok db -> chain (db_mem db) (view_pos db) l -> Z.of_nat (length l) <= head_revision -> 0 <= revision ->
  (pos <-? generations_begin db ;; collect_generations (length l) db pos) = Ok l.*1 /\
  if decide (revision < Z.of_nat (length l)) then
    exists p t, l !! Z.to_nat (Z.of_nat (length l) - 1 - revision) = Some (p, t) /\
      generation t = revision /\ older_revision_footer_pos db revision = Ok p
  else older_revision_footer_pos db revision = Throw (Raise unknown_revision).
Proof. intros Hok Hc Hl Hr. split; [by apply generations_ok|by apply older_revision_spec]. Qed.

(** every revision of the file, newer or older than the one that is being viewed, can
    be synced to: the view moves to its trailer, nothing of the store changes, and the
    cached indices are dropped when the revision is another one. A revision that the file
    does not have is refused as unknown. *)
Lemma sync_outcome db l revision :
  view_ok db l -> 0 <= revision <= head_revision ->
  if decide (revision = head_revision \/ revision < Z.of_nat (length l)) then
    exists p t db', l !! Z.to_nat (Z.of_nat (length l) - 1 - revision_of l revision) = Some (p, t) /\
      sync revision db = (Ok tt, db') /\ synced db p db'
  else (sync revision db).1 = Throw (Raise unknown_revision).
Proof.
  intros Hv Hr. destruct (decide _) as [Hd|Hd].
  - destruct (sync_spec db l Hv revision ltac:(lia)) as (p & t & Hl & Hwp).
    destruct (wp_elim _ _ _ Hwp) as ([] & db' & E & Hsy). by exists p, t, db'.
  - apply (sync_unknown db l); [done|lia].
Qed.

(** A file with a valid header and list of revisions is opened on its newest revision,
    and the contents of the file are unchanged. *)
Lemma open_valid_file h (m : gmap Z (dobj O)) fs l k :
  file_ok h m fs l -> 0 <= k <= 22 ->
  exists db, database_open (2 ^ k) h m fs = Ok db /\ view_ok db l /\
    view_pos db = h_footer_pos h /\ view_end db = h_footer_pos h + sizeof_trailer /\
    db_mem db = m /\ db_header db = h.
Proof.
  intros Hf Hk. destruct (database_open_spec h m fs l k Hf Hk) as (db & E & Hv & Hp & He & Hm & Hh & _).
  exists db. by split_and!.
Qed.

(** C12: damage to one octet is noticed: a changed identifier in the file header makes the
    opening fail with [header_corrupt], whatever the rest of the file holds, and a trailer
    whose body has a changed octet is rejected with [footer_corrupt]. *)
Theorem damage_detected uuid i b fp (m : gmap Z (dobj O)) fs k db pos t t' j c :
  Forall octet uuid -> octet b -> (i < length uuid)%nat -> <[i := b]> uuid <> uuid ->
  leader_size <= pos -> pos mod 8 = 0 -> getro_trailer db pos = Ok t' ->
  signature1 t = default_signature1 -> crc_is_valid t = true -> octet c -> tr_crc t' = tr_crc t ->
  (j < length (trailer_body_bytes t))%nat -> trailer_body_bytes t' = <[j := c]> (trailer_body_bytes t) ->
  trailer_body_bytes t' <> trailer_body_bytes t ->
  let h := header_ctor uuid in
  database_open (2 ^ k) (Header (h_signature1 h) (h_signature2 h) (h_version h) (h_header_size h)
    (<[i := b]> uuid) (h_crc h) fp) m fs = Throw (Raise header_corrupt) /\
  trailer_validate db pos = Throw (Raise footer_corrupt).
Proof.
  intros Hu Hb Hi Hne Hl Hm Hg Hs Hv Hc Hcrc Hj Heq Hne' h. split.
  - unfold database_open. rewrite get_footer_pos_crc; try done.
    rewrite <- (with_footer_pos_valid 0). by apply (header_uuid_damage uuid i b).
  - apply (trailer_validate_damaged db pos t'); try done.
    apply (trailer_damage t t' j c); try done. rewrite Hs. unfold default_signature1, octet. repeat constructor; lia.
Qed.

End database.

Abbreviation third_db := (t_db (store third_world)).

Lemma get_outcome_witness :
  db_get (db_close third_db) 64 48 true false = Throw (Raise store_closed) /\
  exists b, db_get third_db 64 48 true false = Ok b.
Proof.
  destruct third_view as (l & c & _ & _ & Hv).
  destruct (get_outcome third_db 64 48 true false (vk_ok _ _ Hv) ltac:(lia) ltac:(lia)) as [H1 H2].
  split; [exact H1|]. rewrite !decide_False in H2.
  - apply H2. reflexivity.
  - vm_compute. discriminate.
  - intros [? _]. discriminate.
Defined.

Lemma revisions_found_witness :
  exists l p t, chain (db_mem third_db) (view_pos third_db) l /\
    (pos <-? generations_begin third_db ;; collect_generations (length l) third_db pos) = Ok l.*1 /\
    l !! 1%nat = Some (p, t) /\ generation t = 1 /\ older_revision_footer_pos third_db 1 = Ok p.
Proof.
  destruct third_view as (l & c & Hr & Hlen & Hv). exists l.
  destruct (revisions_found third_db l 1 (vk_ok _ _ Hv) (rf_chain _ _ _ _ Hr) (vk_length _ _ Hv) ltac:(lia)) as [Hg Ho].
  rewrite Hlen, decide_True in Ho by lia. destruct Ho as (p & t & Hl & Ht & Ho).
  exists p, t. split; [exact (rf_chain _ _ _ _ Hr)|]. split; [exact Hg|].
  split; [exact Hl|]. split; [exact Ht|exact Ho].
Defined.


(** An octet of the identifier and a generation number have been changed in place. *)
Lemma damage_detected_witness :
  let h := header_ctor (replicate 16 7) in
  let t := make_trailer 1 0 5 leader_size [0; 0; 0; 0; 0] in
  let t' := Trailer (signature1 t) 2 (tr_size t) (time t) (prev_generation t) (index_records t) (tr_crc t) (signature2 t) in
  database_open (O := obj Z Z) (2 ^ 12) (Header (h_signature1 h) (h_signature2 h) (h_version h) (h_header_size h)
    (<[3%nat := 8]> (replicate 16 7)) (h_crc h) leader_size) ∅ (2 ^ 22) = Throw (Raise header_corrupt) /\
  trailer_validate (set_mem {[168 := DTrailer t']} third_db) 168 = Throw (Raise footer_corrupt).
Proof.
  intros h t t'.
  apply (damage_detected (replicate 16 7) 3 8 leader_size ∅ (2 ^ 22) 12
    (set_mem {[168 := DTrailer t']} third_db) 168 t t' 8 2);
    [apply Forall_replicate; unfold octet; lia|unfold octet; lia|vm_compute; lia|vm_compute; discriminate
    |unfold leader_size; lia|reflexivity|vm_compute; reflexivity|reflexivity|vm_compute; reflexivity
    |unfold octet; lia|reflexivity|vm_compute; lia|reflexivity|vm_compute; discriminate].
Defined.

(** ** The index *)

Section index.
Context {K V St : Type} `{Countable K} {KT : KeyTraits K V} {KL : KeyTraitsLaws K V}
  {TS : TransactionStore St (obj K V)} {TL : TransactionStoreLaws St (obj K V)}
  {HA : HeapAllocator node} {HL : HeapAllocatorLaws node}.
Implicit Types w : world St.

(** C13: [find] refines the look-up of a finite map: it returns the end iterator when the
    key is absent and an iterator to the key's entry otherwise, in any memory that holds
    the map. *)
Theorem index_find_correct w m l bl k :
  ts_readable (store w) -> hamt_rep w m l bl ->
  exists it, find w m k = Ok it /\
    match to_map l !! k with
    | None => it = hamt_end
    | Some v => it <> hamt_end /\ iterator_deref w it = Ok (k, v)
    end.
Proof. intros Hs Hrep. exact (owp_elim _ _ (find_spec w m l bl k Hs Hrep)). Qed.

(** C14: [insert] and [insert_or_assign] refine the insertion into a finite map; the
    iterator that they return designates the key's entry, the result says whether the key
    was new, heap blocks of others are untouched and none is leaked, and nothing is
    written when the key is present and must not be replaced. *)
Theorem index_insert_correct (u : bool) kv w m l bl :
  ts_inv (store w) -> leaf_room (store w) kv -> hamt_rep w m l bl ->
  ts_revision (store w) = Ok (revision m) ->
  exists r w', (if u then insert_or_assign m kv else insert m kv) w = (Ok r, w') /\ inserted u kv w m l bl r w'.
Proof.
  intros Hs Hroom Hrep Hrev.
  destruct (wp_elim _ _ _ (insert_or_upsert_spec u kv w m l bl Hs Hroom Hrep Hrev)) as (r & w' & E & Hins).
  exists r, w'. split; [|done]. by destruct u.
Qed.

(** An index that was loaded from an older revision cannot be modified: both the
    insertion and the flush raise [index_not_latest_revision] and change nothing. *)
Lemma index_stale m kv (u : bool) gen w rev :
  ts_revision (store w) = Ok rev -> revision m <> rev ->
  (if u then insert_or_assign m kv else insert m kv) w = (Throw (Raise index_not_latest_revision), w) /\
  hamt_flush m gen w = (Throw (Raise index_not_latest_revision), w).
Proof.
  intros Hrev Hne. split.
  - assert (insert_or_upsert m kv u w = (Throw (Raise index_not_latest_revision), w)) as E; [|by destruct u].
    unfold insert_or_upsert. erewrite bind_ok by (unfold with_world; by rewrite Hrev).
    by rewrite (proj2 (Z.eqb_neq _ _) Hne).
  - unfold hamt_flush. erewrite bind_ok by (unfold with_world; by rewrite Hrev).
    by rewrite (proj2 (Z.eqb_neq _ _) Hne).
Qed.

(** C15: iterating from [begin] reaches [end] after visiting the entries of the map, each
    exactly once. *)
Theorem index_iterates w m l bl :
  ts_readable (store w) -> hamt_rep w m l bl ->
  exists it kvs, hamt_begin w m = Ok it /\ collect (S (length l)) w it = Ok kvs /\
    kvs ≡ₚ map_to_list (to_map l).
Proof.
  intros Hs Hrep. destruct (owp_elim _ _ (iteration_spec w m l bl Hs Hrep)) as (it & E & Hc).
  exists it, (snd <$> l). split_and!; [done|exact Hc|]. symmetry. apply map_to_list_to_map.
  rewrite <- keys_snd. by eapply hamt_rep_nodup.
Qed.

(** C16: round trip: flushing a map and constructing a map from the header block that was
    written, in the store as any later transaction finds it, gives a map with the same
    entries; every heap block of the flushed map has been released. *)
Theorem index_flush_roundtrip w m l bl gen :
  ts_inv (store w) -> hamt_rep w m l bl -> ts_revision (store w) = Ok (revision m) ->
  end_of w + flush_room l bl <= ts_limit ->
  exists m1 pos w1, hamt_flush m gen w = (Ok (m1, pos), w1) /\ same_others w bl w1 [] /\
    forall s' rev, ts_readable s' -> ts_revision s' = Ok rev -> ts_objects (store w1) ⊆ ts_objects s' ->
      ts_size (store w1) <= ts_size s' ->
      exists m2, hamt_ctor s' pos = Ok m2 /\ hamt_rep (World ∅ s') m2 l [].
Proof.
  intros Hs Hrep Hrev Hroom.
  destruct (wp_elim _ _ _ (hamt_flush_spec w m l bl gen Hs Hrep Hrev Hroom))
    as ([m1 pos] & w1 & E & _ & _ & _ & Hsame & _ & Hp & _).
  exists m1, pos, w1. split_and!; [done|done|]. intros s' rev Hs' Hrev' Hob Hsz.
  destruct (persisted_ctor s' pos l rev ∅ Hs' Hrev' (persisted_mono _ _ _ _ Hob Hsz Hp)) as (m2 & E2 & _ & _ & Hrep2).
  by exists m2.
Qed.

(** Clearing a map releases exactly its heap blocks. *)
Lemma index_clear_releases w m l bl :
  ts_inv (store w) -> hamt_rep w m l bl ->
  exists m' w', hamt_clear m w = (Ok m', w') /\ same_others w bl w' [] /\ is_heap (root m') = false.
Proof.
  intros Hs Hrep. destruct (wp_elim _ _ _ (hamt_clear_spec w m l bl Hs Hrep)) as (m' & w' & E & Hsame & _ & Hr).
  exists m', w'. split_and!; [done|done|]. rewrite Hr. by destruct (is_heap (root m)) eqn:Eh.
Qed.

End index.

Lemma index_find_correct_witness :
  exists it, find trie_world trie_map 65 = Ok it /\ it <> hamt_end /\ iterator_deref trie_world it = Ok (65, 20).
Proof.
  destruct trie_index as (Hinv & _ & l & bl & Hrep & Hm & _).
  destruct (index_find_correct trie_world trie_map l bl 65 (ts_inv_readable _ Hinv) Hrep) as (it & E & Hit).
  rewrite Hm in Hit. change (a_current a_trie 0%nat !! 65) with (Some 20) in Hit. exists it. split; [exact E|exact Hit].
Defined.

Lemma index_insert_correct_witness :
  exists l bl r w', insert trie_map (129, 40) trie_world = (Ok r, w') /\
    inserted false (129, 40) trie_world trie_map l bl r w'.
Proof.
  destruct trie_index as (Hinv & Hrev & l & bl & Hrep & _ & _). exists l, bl.
  assert (leaf_room (store trie_world) (129, 40)) as Hroom by (vm_compute; discriminate).
  destruct (index_insert_correct false (129, 40) trie_world trie_map l bl Hinv Hroom Hrep Hrev) as (r & w' & E & Hins).
  cbn iota in E. exists r, w'. split; [exact E|exact Hins].
Defined.

Lemma index_iterates_witness :
  exists l it kvs, hamt_begin trie_world trie_map = Ok it /\ collect (S (length l)) trie_world it = Ok kvs /\
    kvs ≡ₚ map_to_list (to_map l) /\ to_map l = a_current a_trie 0%nat.
Proof.
  destruct trie_index as (Hinv & _ & l & bl & Hrep & Hm & _). exists l.
  destruct (index_iterates trie_world trie_map l bl (ts_inv_readable _ Hinv) Hrep) as (it & kvs & E & Hc & Hp).
  exists it, kvs. split; [exact E|]. split; [exact Hc|]. split; [exact Hp|exact Hm].
Defined.

Lemma index_flush_roundtrip_witness :
  exists l bl m1 pos w1, hamt_flush trie_map 1 trie_world = (Ok (m1, pos), w1) /\ same_others trie_world bl w1 [] /\
    to_map l = a_current a_trie 0%nat /\
    forall s' rev, ts_readable s' -> ts_revision s' = Ok rev -> ts_objects (store w1) ⊆ ts_objects s' ->
      ts_size (store w1) <= ts_size s' ->
      exists m2, hamt_ctor s' pos = Ok m2 /\ hamt_rep (World ∅ s') m2 l [].
Proof.
  destruct trie_index as (Hinv & Hrev & l & bl & Hrep & Hm & Hroom). exists l, bl.
  destruct (index_flush_roundtrip trie_world trie_map l bl 1 Hinv Hrep Hrev Hroom) as (m1 & pos & w1 & E & Hs & Hc).
  exists m1, pos, w1. split; [exact E|]. split; [exact Hs|]. split; [exact Hm|exact Hc].
Defined.

(** ** Memory mapping *)

(** C21: extending the storage maps every byte up to the new size, keeps the regions and
    the protection that were there, and fills the segment address table so that its
    invariant holds again. *)
Theorem storage_grows st new_size :
  storage_ok st -> total_size (regions (maps st)) < new_size <= address_limit ->
  exists st', map_bytes new_size st = Ok st' /\ storage_ok st' /\
    new_size <= total_size (regions (maps st')) < new_size + min_region_size /\
    protected st' = protected st /\ exists l, regions (maps st') = regions (maps st) ++ l.
Proof.
  intros Hok Hn. destruct (map_bytes_grow st new_size Hok Hn) as (st' & E & Hok' & Ht & Hp & Hl & _).
  pose proof (so_regions _ Hok) as Hro. pose proof (total_size_nonneg _ (sizes_pos _ Hro)).
  destruct (round_up_ok new_size min_region_size) as [Hr _]; [done|lia|change address_limit with (2 ^ 38) in *; change min_region_size with (2 ^ 22); lia|].
  exists st'. split_and!; try done; lia.
Qed.

(** C22: the segment address table takes an address to the byte of the one region that holds
    it, and a block that spans regions is copied as a sequence of pieces that cover it
    exactly, in order, each inside one mapping. *)
Theorem storage_access st addr size :
  storage_ok st -> 0 <= addr -> 0 < size -> addr + size <= total_size (regions (maps st)) ->
  (exists r, r ∈ regions (maps st) /\ rg_offset r <= addr < rg_end r /\
    address_to_pointer st addr = Ok (rg_data r, addr - rg_offset r)) /\
  exists calls, copy st addr size = Ok calls /\ covers (regions (maps st)) calls addr 0 size.
Proof.
  intros Hok Ha Hs He. split; [apply address_to_pointer_ok; [done|lia]|].
  exact (owp_elim _ _ (copy_ok st addr size Hok Ha Hs He)).
Qed.

(** Protecting a range makes read-only exactly its whole pages, the pages of the file
    header and of the lock block excepted, whichever regions they are in. *)
Lemma storage_protects st k first last :
  storage_ok st -> 0 <= k <= 22 -> 0 <= first -> 0 <= last <= total_size (regions (maps st)) ->
  let down x := x - x mod 2 ^ k in
  exists st' ranges, protect (2 ^ k) first last st = Ok st' /\
    maps st' = maps st /\ sat st' = sat st /\ protected st' = protected st ++ ranges /\
    forall a, in_ranges a ranges <->
      Z.max (down first) (down (leader_size + 2 ^ k - 1)) <= a < down last.
Proof.
  intros Hok Hk Hf Hl down.
  destruct (owp_elim _ _ (protect_ok st k first last Hok Hk Hf Hl)) as (st' & E & Hm & Hs & ranges & Hp & Hr).
  by exists st', ranges.
Qed.

(** The loop that clears the table when regions are given up works on copies of the
    entries: after the storage has shrunk by a region the table still has the entries of
    that region, and growing again fails an assertion. *)
Lemma storage_shrink_leaves_table st rs r new_size again :
  storage_ok st -> regions (maps st) = rs ++ [r] -> rs <> [] ->
  0 <= new_size < rg_offset r -> (forall r', last rs = Some r' -> rg_offset r' <= new_size) ->
  rg_offset r < again <= address_limit ->
  exists st', map_bytes new_size st = Ok st' /\ regions (maps st') = rs /\ sat st' = sat st /\
    map_bytes again st' = Throw Assert.
Proof. apply shrink_then_grow. Qed.

(** The region factory extends its regions to cover a file's new size, rounded up;
    regions are contiguous, of whole segments and with distinct mappings, and those that
    existed are kept. *)
Lemma factory_extends full min new_size m :
  0 < min -> (min | full) -> min <= full ->
  regions_ok full min m -> (min | total_size (regions m)) -> 0 <= total_size (regions m) <= new_size ->
  new_size + 2 * min <= 2 ^ 64 ->
  exists m' l, factory_append full min (total_size (regions m)) new_size m = Ok m' /\
    regions_ok full min m' /\ regions m' = regions m ++ l /\
    total_size (regions m') = round_up new_size min /\ file_size m' = round_up new_size min.
Proof.
  intros H1 H2 H3 Hro Hd Ht Hn.
  destruct (factory_append_ok full min H1 H2 H3 new_size m Hro Hd Ht Hn) as (m' & E & Hro' & Ht' & Hf & l & Hl).
  by exists m', l.
Qed.

Lemma storage_grows_witness :
  exists st st', storage_ok st /\ map_bytes (2 ^ 33) st = Ok st' /\ storage_ok st' /\
    2 ^ 33 <= total_size (regions (maps st')).
Proof.
  destruct two_regions as (st & r1 & r2 & _ & Hok & _ & _ & _ & Ht). exists st.
  destruct (storage_grows st (2 ^ 33) Hok) as (st' & E & Hok' & Hn & _);
    [rewrite Ht; vm_compute; split; [reflexivity|discriminate]|].
  exists st'. split; [exact Hok|]. split; [exact E|]. split; [exact Hok'|exact (proj1 Hn)].
Defined.

(** The last byte of the first region and the first byte of the second *)
Lemma storage_access_witness :
  exists st r calls, storage_ok st /\ rg_offset r <= 2 ^ 32 - 1 < rg_end r /\
    address_to_pointer st (2 ^ 32 - 1) = Ok (rg_data r, 2 ^ 32 - 1 - rg_offset r) /\
    copy st (2 ^ 32 - 1) 2 = Ok calls /\ covers (regions (maps st)) calls (2 ^ 32 - 1) 0 2.
Proof.
  destruct two_regions as (st & r1 & r2 & _ & Hok & _ & _ & _ & Ht). exists st.
  destruct (storage_access st (2 ^ 32 - 1) 2 Hok) as [(r & _ & Hin & Ep) (calls & E & Hc)]; [lia|lia|rewrite Ht; lia|].
  exists r, calls. split; [exact Hok|]. split; [exact Hin|]. split; [exact Ep|]. split; [exact E|exact Hc].
Defined.

Lemma storage_shrink_leaves_table_witness :
  exists st st', storage_ok st /\ map_bytes 1000 st = Ok st' /\ sat st' = sat st /\
    map_bytes (2 ^ 32 + 1) st' = Throw Assert.
Proof.
  destruct two_regions as (st & r1 & r2 & _ & Hok & Hr & H1 & H2 & _). exists st.
  destruct (storage_shrink_leaves_table st [r1] r2 1000 (2 ^ 32 + 1) Hok Hr) as (st' & E & _ & Hs & Ea).
  - discriminate.
  - rewrite H2. lia.
  - intros r' [= <-]. rewrite H1. lia.
  - rewrite H2. vm_compute. split; [reflexivity|discriminate].
  - exists st'. split; [exact Hok|]. split; [exact E|]. split; [exact Hs|exact Ea].
Defined.

(** ** Encodings and checksums *)

(** C23: the table-driven CRC is the CRC-32 of the reflected polynomial 0xEDB88320, computed
    a bit at a time (without the customary initial inversion of the register), and no change
    of a single octet of a message goes unnoticed by it. *)
Theorem crc32_guards buf :
  Forall octet buf ->
  crc32 buf = crc_reference buf /\
  forall i b, octet b -> (i < length buf)%nat -> buf !! i <> Some b -> crc32 (<[i := b]> buf) <> crc32 buf.
Proof.
  intros Hbuf. split; [by apply crc32_correct|].
  intros i b Hb Hi Hne Heq. apply Hne. rewrite <- (crc32_one_octet buf i b Hbuf Hb Hi Heq) at 1.
  by apply list_lookup_insert_eq.
Qed.

Lemma crc32_guards_witness :
  crc32 [1; 2; 255] = crc_reference [1; 2; 255] /\ crc32 (<[1%nat := 7]> [1; 2; 255]) <> crc32 [1; 2; 255].
Proof.
  destruct (crc32_guards [1; 2; 255]) as [He Hd]; [unfold octet; repeat constructor; lia|].
  split; [exact He|]. apply Hd; [unfold octet; lia|simpl; lia|discriminate].
Defined.

(** The shift-and-add hash of the string indices is the FNV-1a recurrence modulo 2^64:
    the result is always a 64-bit value. *)
Lemma fnv_is_fnv1a buf :
  fnv_64a_hash buf = foldl (fun h b => (Z.lxor h b * fnv_64_prime) mod 2 ^ 64) fnv1a_64_init buf /\
  0 <= fnv_64a_hash buf < 2 ^ 64.
Proof. apply fnv_64a_correct. Qed.
