(* ===== verification/Diff.v ===== *)
(** * Differences between revisions

    Models include/pstore/diff/diff.hpp, include/pstore/diff/diff_value.hpp and
    lib/diff/revision.cpp: the traversal of an index that only visits what was written
    after an older revision, the keys that it reports, and the revisions that are compared.
    The values of the dump library that the keys are wrapped in are left out. *)

From S2P Require Import Prelude BitCount Checksum Address Region Storage FileHeader StoreIntf HamtTypes HamtMap.
From S2P Require Import Database DatabaseSpec Transaction TransactionSpec.
From S2P Require Import HamtSpec HamtOps HamtInsert HamtRefine HamtIter HamtFlush Commit Session Examples.

(** ** The code *)

(** [update_revisions] *)
Definition update_revisions (revisions : Z * option Z) (actual_head : Z) : Z * Z :=
  let r1 := if revisions.1 =? head_revision then actual_head else revisions.1 in
  let r2 :=
    match revisions.2 with
    | Some r2 => if r2 =? head_revision then actual_head else r2
    | None => if r1 >? 0 then r1 - 1 else 0
    end in
  if r1 <? r2 then (r2, r1) else (r1, r2).

Section traverser.
Context {K V St : Type} `{KT : KeyTraits K V} `{TS : TransactionStore St (obj K V)}.
Local Abbreviation World := (world St).

(** [traverser::is_new] *)
Definition is_new (threshold node : Z) : bool := is_heap node || (untag_address node >=? threshold).

(** The loop of [traverser::visit_intermediate] over the children of [node] *)
Fixpoint visit_children (visit : Z -> list Z -> outcome (list Z)) (threshold node : Z)
    (children : list Z) (result : list Z) : outcome (list Z) :=
  match children with
  | [] => Ok result
  | child :: children =>
      result <-? (if is_new threshold node then visit child result else Ok result) ;;
      visit_children visit threshold node children result
  end.

(** [traverser::visit_node], with [visit_intermediate] for both kinds of node *)
Fixpoint visit_node (fuel : nat) (w : World) (threshold node shifts : Z) (result : list Z) : outcome (list Z) :=
  match fuel with
  | 0%nat => Throw OutOfFuel
  | S fuel =>
      let visit child result := visit_node fuel w threshold child (shifts + hash_index_bits) result in
      if is_leaf node then
        _ <-? oassert (is_address node) ;;
        Ok (if is_new threshold node then result ++ [node] else result)
      else if depth_is_internal_node shifts then
        internal <-? internal_get_node w node ;;
        visit_children visit threshold node internal.2 result
      else
        leaves <-? linear_get_node w node ;;
        visit_children visit threshold node leaves result
  end.

(** [traverser::operator()]; an index has at most [max_tree_depth] levels *)
Definition traverse (w : World) (index : hamt_map) (threshold : Z) : outcome (list Z) :=
  if is_empty (root index) then Ok []
  else visit_node (Z.to_nat max_tree_depth) w threshold (root index) 0 [].

(** The transformation of the addresses of leaves to keys in [make_diff] *)
Fixpoint load_keys (w : World) (addrs : list Z) : outcome (list K) :=
  match addrs with
  | [] => Ok []
  | addr :: addrs =>
      kv <-? load_leaf_node w addr ;;
      ks <-? load_keys w addrs ;;
      Ok (kv.1 :: ks)
  end.
End traverser.

Section diff.
Context {K V : Type} {KT : KeyTraits K V} {HA : HeapAllocator node}.
Local Abbreviation W := (world (tstate (obj K V))).

(** [diff] *)
Definition diff (w : W) (index : hamt_map) (old : Z) : outcome (list Z) :=
  let db := t_db (store w) in
  if old =? head_revision then Ok []
  else
    current <-? get_current_revision db ;;
    if old >? current then Ok []
    else
      pos <-? older_revision_footer_pos db old ;;
      traverse w index (typed_add sizeof_trailer pos 1).

(** [make_diff], for the index [i] *)
Definition make_diff (i : nat) (old_revision : Z) : M W (list K) :=
  index <- get_index i true ;;
  match index with
  | None => throw Dangling
  | Some index =>
      differences <- with_world (fun w => diff w index old_revision) ;;
      with_world (fun w => load_keys w differences)
  end.

(** The scope of a [revision_restorer]: what follows in the block, and then the destructor,
    from which no exception escapes *)
Definition revision_restorer {A} (block : M W A) : M W A :=
  fun w =>
    match get_current_revision (t_db (store w)) with
    | Throw e => (Throw e, w)
    | Ok old_revision =>
        let '(r, w1) := block w in
        let '(_, w2) := in_store (in_db (sync old_revision)) w1 in
        (r, w2)
    end.

(** [make_index_diff] *)
Definition make_index_diff (i : nat) (new_revision old_revision : Z) : M W (list K) :=
  massert (new_revision >=? old_revision) ;;;
  revision_restorer (in_store (in_db (sync new_revision)) ;;; make_diff i old_revision).

End diff.

(** ** Traversal *)

Section traversal.
Context {K V St : Type} {KT : KeyTraits K V} {KL : KeyTraitsLaws K V}
  {TS : TransactionStore St (obj K V)} {TL : TransactionStoreLaws St (obj K V)}
  {HA : HeapAllocator node} {HL : HeapAllocatorLaws node}.
Implicit Types w : world St.
Implicit Types t : tree K V.

(** The entries at or past the threshold *)
Definition fresh_entries (threshold : Z) (l : list (entry K V)) : list (entry K V) :=
  filter (fun e => threshold <= e.1) l.

Lemma fresh_none threshold (l : list (entry K V)) :
  (forall e, e ∈ l -> e.1 < threshold) -> fresh_entries threshold l = [].
Proof.
  intros Hl. unfold fresh_entries. induction l as [|e l IH]; [done|].
  pose proof (Hl e ltac:(left)). rewrite filter_cons_False by lia. apply IH. intros x Hx. apply Hl. by right.
Qed.

Lemma fresh_concat threshold (ls : list (list (entry K V))) :
  fresh_entries threshold (concat ls) = concat (fresh_entries threshold <$> ls).
Proof. induction ls as [|l ls IH]; [done|]. cbn [concat fmap list_fmap]. unfold fresh_entries at 1. by rewrite filter_app, <- IH. Qed.

(** What a node in the store refers to was written before it. *)
Lemma stored_entries_below h ob sz t e :
  rep h ob sz t -> is_heap (root_ptr t) = false -> e ∈ entries t -> e.1 <= untag_address (root_ptr t).
Proof.
  revert e. induction t as [a k v|p bm ts IH|p ls] using tree_ind'; intros e Hrep Hheap.
  - intros ->%list_elem_of_singleton. inversion Hrep as [? ? ? (Ha & _)| |]; subst. cbn [root_ptr fst].
    by rewrite untag_address_leaf.
  - intros (t & Ht & He)%elem_of_entries_node. inversion Hrep as [|? ? ? Hn Hc|]; subst.
    rewrite Forall_forall in IH, Hc. cbn [root_ptr] in *.
    destruct Hn as [l Hl|a Ha _ _ [_ Hcs]]; [by rewrite (proj2 (heap_ptr_kind l Hl)) in Hheap|].
    rewrite untag_address_store by (by apply mod8_mod4). rewrite Forall_fmap, Forall_forall in Hcs.
    destruct (Hcs t Ht) as [Hh Hlt]. pose proof (IH t Ht e (Hc t Ht) Hh He). lia.
  - intros He. inversion Hrep as [| |? ? Hn _]; subst. cbn [root_ptr] in *.
    destruct Hn as [l Hl|a Ha _ _ [_ Hcs]]; [by rewrite (proj2 (heap_ptr_kind l Hl)) in Hheap|].
    rewrite untag_address_store by (by apply mod8_mod4). rewrite Forall_fmap, Forall_forall in Hcs.
    pose proof (Hcs e He). cbn in *. lia.
Qed.

Lemma old_node_no_fresh h ob sz t threshold :
  rep h ob sz t -> is_new threshold (root_ptr t) = false -> fresh_entries threshold (entries t) = [].
Proof.
  intros Hrep [Hheap Hold]%orb_false_iff. rewrite Z.geb_leb in Hold. apply Z.leb_gt in Hold.
  apply fresh_none. intros e He.
  pose proof (stored_entries_below _ _ _ _ _ Hrep Hheap He). lia.
Qed.

Lemma is_new_leaf threshold (e : entry K V) :
  e.1 mod 4 = 0 -> is_new threshold (leaf_ptr e.1) = bool_decide (threshold <= e.1).
Proof.
  intros Ha. unfold is_new. rewrite (proj2 (leaf_ptr_kind _ Ha)), untag_address_leaf, Z.geb_leb by done.
  cbn [orb]. destruct (Z.leb_spec threshold e.1); [by rewrite bool_decide_true|by rewrite bool_decide_false by lia].
Qed.

(** The addresses of the leaves of a tree that are reported *)
Abbreviation reported threshold l := ((fresh_entries threshold l).*1).

Lemma reported_leaf threshold (e : entry K V) result :
  e.1 mod 4 = 0 ->
  (if is_new threshold (leaf_ptr e.1) then result ++ [leaf_ptr e.1] else result) = result ++ reported threshold [e].
Proof.
  intros Ha. rewrite is_new_leaf by done. unfold fresh_entries. case_bool_decide.
  - by rewrite filter_cons_True.
  - rewrite filter_cons_False by done. by rewrite app_nil_r.
Qed.

Lemma visit_children_spec {A} visit threshold node (f : A -> Z) (ents : A -> list (entry K V)) (xs : list A) result :
  is_new threshold node = true ->
  (forall x result, x ∈ xs -> visit (f x) result = Ok (result ++ reported threshold (ents x))) ->
  visit_children visit threshold node (f <$> xs) result = Ok (result ++ reported threshold (concat (ents <$> xs))).
Proof.
  intros Hnew. revert result. induction xs as [|x xs IH]; intros result Hv; cbn [fmap list_fmap visit_children concat].
  - by rewrite app_nil_r.
  - rewrite Hnew, Hv by left. cbn [obind]. rewrite IH by (intros; apply Hv; by right).
    unfold fresh_entries. by rewrite filter_app, fmap_app, (assoc_L (++)).
Qed.

Lemma visit_children_old visit threshold node (children result : list Z) :
  is_new threshold node = false -> visit_children visit threshold node children result = Ok result.
Proof. intros Hold. induction children as [|c cs IH]; [done|]. cbn [visit_children]. by rewrite Hold. Qed.

(** The traversal reports the leaves past the threshold, in the order of iteration. *)
Lemma visit_node_spec fuel d w threshold t result :
  ts_readable (store w) -> Rep w t -> wf d t -> 0 <= d <= max_internal_depth ->
  max_tree_depth - d <= Z.of_nat fuel ->
  visit_node fuel w threshold (root_ptr t) (d * hash_index_bits) result =
    Ok (result ++ reported threshold (entries t)).
Proof.
  intros Hs. revert d t result. induction fuel as [|fuel IH]; intros d t result Hrep Hwf Hd Hfuel;
    [unfold max_tree_depth in *; lia|].
  cbn [visit_node]. rewrite (rep_is_leaf _ _ _ _ Hrep), depth_internal, next_shift.
  destruct t as [a k v|p bm ts|p ls].
  - inversion Hrep as [? ? ? (Ha & _)| |]; subst. cbn [root_ptr fst] in *. unfold is_address.
    rewrite (proj2 (leaf_ptr_kind a Ha)). cbn [negb oassert obind]. f_equal.
    by apply (reported_leaf threshold (a, (k, v))).
  - destruct (internal_bounds _ _ _ _ Hwf) as (Hdi & _ & _). rewrite (proj2 (Z.ltb_lt _ _)) by lia.
    rewrite (lookup_of_node d p bm ts w) by done. cbn [obind snd root_ptr].
    destruct (is_new threshold p) eqn:Hnew.
    + apply (visit_children_spec _ _ _ root_ptr entries); [done|]. intros t res Ht.
      inversion Hrep as [|? ? ? _ Hc|]; subst. rewrite Forall_forall in Hc.
      apply IH; [by apply Hc|by eapply wf_child|lia|lia].
    + rewrite visit_children_old by done. rewrite (old_node_no_fresh _ _ _ _ _ Hrep Hnew). by rewrite app_nil_r.
  - inversion Hwf as [| |? ? Hlen Hnd]; subst. inversion Hrep as [| |? ? Hn Hls]; subst.
    rewrite Z.ltb_irrefl. rewrite (linear_get_node_ok w p ls.*1) by (done || (rewrite length_fmap; lia)).
    cbn [obind root_ptr]. destruct (is_new threshold p) eqn:Hnew.
    + rewrite (visit_children_spec _ _ _ fst (fun e => [e])); [|done|].
      { do 4 f_equal. clear. induction ls; [done|]. simpl. by f_equal. }
      intros e res He. rewrite Forall_forall in Hls. destruct (Hls e He) as (Ha & _).
      destruct fuel as [|fuel]; [unfold max_tree_depth in *; lia|]. cbn [visit_node].
      destruct (leaf_ptr_kind e.1 Ha) as [Hl Hh]. change e.1 with (leaf_ptr e.1) at 1 2 3 4.
      unfold is_address. rewrite Hl, Hh. cbn [negb oassert obind]. f_equal. by apply reported_leaf.
    + rewrite visit_children_old by done. rewrite (old_node_no_fresh _ _ _ _ _ Hrep Hnew). by rewrite app_nil_r.
Qed.

Lemma traverse_spec w m l bl threshold :
  ts_readable (store w) -> hamt_rep w m l bl -> traverse w m threshold = Ok (reported threshold l).
Proof.
  intros Hs Hrep. unfold traverse, is_empty. destruct Hrep as [-> _|t Hrep Hwf -> _]; [done|].
  pose proof (rep_pos _ _ _ _ Hrep). rewrite (proj2 (Z.eqb_neq _ 0)) by lia.
  by apply (visit_node_spec _ 0).
Qed.

Lemma load_keys_spec w (l : list (entry K V)) :
  ts_readable (store w) -> Forall (leaf_at (objects w) (end_of w)) l -> load_keys w l.*1 = Ok (keys l).
Proof.
  intros Hs. induction 1 as [|e l He _ IH]; [done|]. cbn [fmap list_fmap load_keys].
  rewrite (load_leaf_node_ok w e) by done. cbn [obind]. by rewrite IH.
Qed.
End traversal.

(** ** Differences in a session *)

Section session_diff.
Context {K V : Type} `{Countable K} {KT : KeyTraits K V} {KL : KeyTraitsLaws K V}
  {HA : HeapAllocator node} {HL : HeapAllocatorLaws node}.
Local Abbreviation W := (world (tstate (obj K V))).
Implicit Types w : W.
Implicit Types a : astore (K := K) (V := V).

Lemma hamt_rep_below w m l bl e : hamt_rep w m l bl -> e ∈ l -> e.1 < end_of w.
Proof.
  destruct 1 as [|t Hrep]; [by intros ?%elem_of_nil|]. pose proof (rep_entries _ _ _ _ Hrep) as Hall.
  rewrite Forall_forall in Hall. intros He. by eapply leaf_at_below, Hall.
Qed.

Lemma persisted_below (s : tstate (obj K V)) pos l e : persisted s pos l -> e ∈ l -> e.1 < ts_size s.
Proof. destruct 1; [by intros ?%elem_of_nil|by eapply (hamt_rep_below (World ∅ s))]. Qed.

Lemma index_state_below w i l bl e : index_state w i l bl -> e ∈ l -> e.1 < end_of w.
Proof.
  unfold index_state. destruct (db_indices _ !! i) as [[m|]|]; [| |done].
  - intros [Hrep _]. by eapply hamt_rep_below.
  - intros (_ & f & loc & _ & _ & Hp). by eapply persisted_below.
Qed.

Lemma persisted_nodup (s : tstate (obj K V)) pos l : persisted s pos l -> NoDup (keys l).
Proof. destruct 1; [constructor|by eapply hamt_rep_nodup]. Qed.

Lemma index_state_nodup w i l bl : index_state w i l bl -> NoDup (keys l).
Proof.
  unfold index_state. destruct (db_indices _ !! i) as [[m|]|]; [|  |done].
  - intros [Hrep _]. by eapply hamt_rep_nodup.
  - intros (_ & f & loc & _ & _ & Hp). by eapply persisted_nodup.
Qed.

Lemma elem_of_fresh threshold (l : list (entry K V)) e : e ∈ fresh_entries threshold l <-> threshold <= e.1 /\ e ∈ l.
Proof. unfold fresh_entries. by rewrite list_elem_of_filter. Qed.

(** A key that is not reported holds what it held. *)
Lemma since_unreported p (cur old : list (entry K V)) k :
  since p cur old -> NoDup (keys cur) -> NoDup (keys old) ->
  k ∉ keys (fresh_entries (p + sizeof_trailer) cur) -> to_map cur !! k = to_map old !! k.
Proof.
  intros [Hold Hkeys] Hnc Hno Hk. destruct (decide (k ∈ keys cur)) as [(a & v & Hin)%elem_of_keys|Hout].
  - rewrite (to_map_lookup cur a k v) by done. symmetry. eapply to_map_lookup; [done|]. apply Hold; [exact Hin|].
    destruct (Z.lt_ge_cases a (p + sizeof_trailer)) as [|Hge]; [done|]. destruct Hk. apply elem_of_keys.
    exists a, v. by apply elem_of_fresh.
  - rewrite !(proj1 (to_map_none _ _)); [done|auto|done].
Qed.

Lemma fresh_nodup threshold (l : list (entry K V)) : NoDup (keys l) -> NoDup (keys (fresh_entries threshold l)).
Proof.
  unfold fresh_entries, keys. induction l as [|e l IH]; [done|].
  intros [He Hl]%NoDup_cons. rewrite filter_cons. case_decide; [|by apply IH]. apply NoDup_cons. split; [|by apply IH].
  intros (x & Hx & [_ Hin]%list_elem_of_filter)%list_elem_of_fmap. apply He, list_elem_of_fmap. eauto.
Qed.

(** The state of a view for a traversal: the index [i] holds the entries [l]. *)
Lemma diff_spec w m l bl lv old p t :
  db_ok (db_of w) -> hamt_rep w m l bl -> chain (db_mem (db_of w)) (view_pos (db_of w)) lv ->
  Z.of_nat (length lv) < head_revision -> 0 <= old < Z.of_nat (length lv) ->
  lv !! Z.to_nat (Z.of_nat (length lv) - 1 - old) = Some (p, t) ->
  diff w m old = Ok ((fresh_entries (p + sizeof_trailer) l).*1).
Proof.
  intros Hok Hrep Hc Hlen Hold Hp. unfold diff.
  rewrite (proj2 (Z.eqb_neq old head_revision)) by lia.
  rewrite (proj1 (get_current_revision_ok _ _ Hok Hc)). cbn [obind].
  rewrite Z.gtb_ltb, (proj2 (Z.ltb_ge _ _)) by lia.
  pose proof (older_revision_spec _ _ old Hok Hc ltac:(lia) ltac:(lia)) as Hspec. rewrite decide_True in Hspec by lia.
  destruct Hspec as (p' & t' & Hp' & _ & ->). rewrite Hp in Hp'. injection Hp' as <- <-. cbn [obind].
  pose proof (chain_bound _ _ _ _ _ Hc (list_elem_of_lookup_2 _ _ _ Hp)) as Hb.
  pose proof (db_limit _ Hok) as Hlim. pose proof (dk_logical _ Hok). change address_limit with 274877906944 in Hlim.
  unfold leader_size, sizeof_trailer in *.
  assert (typed_add 104 p 1 = p + 104) as ->.
  { unfold typed_add. change (wrap64 (1 * 104)) with 104. rewrite wrap_small; lia. }
  by eapply traverse_spec.
Qed.

Lemma make_diff_spec w i l bl lv old p t :
  db_ok (db_of w) -> index_state w i l bl -> chain (db_mem (db_of w)) (view_pos (db_of w)) lv ->
  Z.of_nat (length lv) < head_revision -> 0 <= old < Z.of_nat (length lv) ->
  lv !! Z.to_nat (Z.of_nat (length lv) - 1 - old) = Some (p, t) ->
  wp (make_diff i old) (fun ks w' => ks = keys (fresh_entries (p + sizeof_trailer) l) /\
    (w' = w \/ exists m, w' = World (heap w) (set_cache i m (store w)))) w.
Proof.
  intros Hok Hi Hc Hlen Hold Hp. unfold make_diff. wp_head.
  eapply wp_mono; [by apply (get_index_loads w i true)|]. intros [m|] w1 Hm; [|by destruct Hm].
  destruct Hm as (Hw1 & Hrep & _ & _). cbn beta iota.
  assert (db_ok (db_of w1) /\ db_mem (db_of w1) = db_mem (db_of w) /\ view_pos (db_of w1) = view_pos (db_of w)) as (Hok1 & Hm1 & Hp1).
  { destruct Hw1 as [->| ->]; [done|]. split; [|done]. by destruct Hok. }
  wp_head. apply wp_with_world. eapply owp_eq.
  { eapply (diff_spec w1 m l bl lv old p t); try done. by rewrite Hm1, Hp1. }
  cbn beta. apply wp_with_world. eapply owp_eq.
  { apply load_keys_spec; [exact Hok1|]. apply Forall_forall. intros e [_ He]%elem_of_fresh.
    destruct Hrep as [|t0 Hrep0]; [by apply elem_of_nil in He|]. pose proof (rep_entries _ _ _ _ Hrep0) as Hall.
    rewrite Forall_forall in Hall. by apply Hall. }
  cbn beta. split; [done|]. destruct Hw1 as [->| ->]; eauto.
Qed.

(** A state whose view is the revision [r] of the file [l], with the entries [es] *)
Record viewing w (l : list (Z * trailer)) (ms : list (maps_of (K := K) (V := V))) (r : Z)
    (es : nat -> list (entry K V)) w' : Prop := {
  vw_view : view_ok (db_of w') l;
  vw_mem : db_mem (db_of w') = db_mem (db_of w);
  vw_header : db_header (db_of w') = db_header (db_of w);
  vw_chain : chain (db_mem (db_of w')) (view_pos (db_of w')) (drop (Z.to_nat (Z.of_nat (length l) - 1 - r)) l);
  vw_indices i : (i < num_indices)%nat -> exists bl, index_state w' i (es i) bl;
  vw_below i e : (i < num_indices)%nat -> e ∈ es i -> e.1 < view_pos (db_of w') + sizeof_trailer;
  vw_history : history_ok (store w') es (drop (Z.to_nat (Z.of_nat (length l) - 1 - r)) l)
                 (drop (Z.to_nat (Z.of_nat (length l) - 1 - r)) ms)
}.

Lemma sync_current (db : database (obj K V)) r :
  get_current_revision db = Ok r -> r <> head_revision -> sync r db = (Ok tt, db).
Proof.
  intros Hr Hne. unfold sync. rewrite bind_gets. erewrite bind_ok by done.
  rewrite (proj2 (Z.eqb_neq r head_revision)) by done. rewrite (bind_lift_ok _ _ _ _ Hr). by rewrite Z.eqb_refl.
Qed.

Lemma sync_views w a l c r :
  ready w a l c -> head (a_history a) = Some (a_current a) -> 0 <= r < Z.of_nat (length l) ->
  exists m es, a_history a !! Z.to_nat (Z.of_nat (length l) - 1 - r) = Some m /\
    (forall i, (i < num_indices)%nat -> to_map (es i) = m i) /\
    wp (in_store (in_db (sync r))) (fun _ => viewing w l (a_history a) r es) w.
Proof.
  intros Hr Hhd Hrev. pose proof (rd_length _ _ _ _ Hr) as Hlen.
  destruct (decide (r = Z.of_nat (length l) - 1)) as [->|Hne].
  - rewrite Z.sub_diag. cbn [Z.to_nat]. exists (a_current a), (fun i => (c i).1).
    rewrite <- head_lookup. split; [done|]. split; [by apply Hr|].
    apply wp_in_store, wp_in_db. eapply wp_eq.
    { apply sync_current; [|lia]. apply (get_current_revision_ok _ l); apply Hr. }
    pose proof (ready_view_ok _ _ _ _ Hr). destruct w as [h [db tx]].
    split; try done; rewrite ?Z.sub_diag; cbn [Z.to_nat drop]; try apply Hr.
    + intros i Hi. exists (c i).2. by apply (ik_state _ _ (rd_indices _ _ _ _ Hr)).
    + intros i e Hi He. pose proof (rd_end _ _ _ _ Hr) as Hend.
      pose proof (index_state_below _ _ _ _ _ (ik_state _ _ (rd_indices _ _ _ _ Hr) i Hi) He) as Hlt. cbn in *. lia.
  - destruct (checkout_spec w a l c r Hr ltac:(lia)) as (m & es & Hm & Hes & Hwp). exists m, es.
    split; [done|]. split; [done|]. eapply wp_mono; [exact Hwp|]. intros [] w' [? ? ? ? ? ? ? ? [t [_ Hh]] ?].
    split; try done; [by eauto|]. intros i e Hi He. destruct (Hh i Hi) as (loc & _ & Hp).
    exact (persisted_below _ _ _ _ Hp He).
Qed.

(** The end of the scope restores the view of the newest revision. *)
Lemma restored w l ms r es w1 i w2 :
  view_ok (db_of w) l -> view_pos (db_of w) = h_footer_pos (db_header (db_of w)) -> viewing w l ms r es w1 ->
  (w2 = w1 \/ exists m, w2 = World (heap w1) (set_cache i m (store w1))) -> Z.of_nat (length l) < head_revision ->
  exists w3, in_store (in_db (sync (Z.of_nat (length l) - 1))) w2 = (Ok tt, w3) /\ db_ok (db_of w3) /\
    view_pos (db_of w3) = view_pos (db_of w) /\ db_mem (db_of w3) = db_mem (db_of w) /\
    db_header (db_of w3) = db_header (db_of w).
Proof.
  intros Hv Hp [Hv1 Hm1 Hh1 _ _ _] Hw2 Hlen.
  assert (view_ok (db_of w2) l /\ db_mem (db_of w2) = db_mem (db_of w1) /\ db_header (db_of w2) = db_header (db_of w1))
    as (Hv2 & Hm2 & Hh2).
  { destruct Hw2 as [->|[m ->]]; [done|]. split; [|done]. destruct Hv1 as [[]]. by split. }
  destruct (vk_pos _ _ Hv) as (j & t & Hj). apply lookup_lt_Some in Hj.
  destruct (sync_spec _ l Hv2 (Z.of_nat (length l) - 1)) as (p & t' & Hl & Hwp); [lia|].
  unfold revision_of in Hl. rewrite (proj2 (Z.eqb_neq _ head_revision)), Z.sub_diag in Hl by lia.
  assert (wp (in_store (in_db (sync (Z.of_nat (length l) - 1)))) (fun _ w' => synced (db_of w2) p (db_of w')) w2)
    as ([] & w3 & E & Hsy)%wp_elim by (by apply wp_in_store, wp_in_db).
  exists w3. split; [exact E|].
  pose proof (vk_chain _ _ Hv) as Hc. inversion Hc as [|? t0 l0]; subst; [done|]. cbn in Hl. injection Hl as <- <-.
  rewrite (sy_pos _ _ _ Hsy), (sy_mem _ _ _ Hsy), (sy_header _ _ _ Hsy), Hm2, Hh2, Hm1, Hh1. split_and!; try done; apply Hsy.
Qed.

Lemma chain_head (m : gmap Z (dobj (obj K V))) pos l p t : chain m pos l -> l !! 0%nat = Some (p, t) -> p = pos.
Proof. destruct 1; [done|]. by intros [= <- <-]. Qed.

(** A session without uncommitted data shows its newest revision. *)
Lemma reachable_clean k w a : reachable k w a ->
  a_history a <> [] /\ (a_dirty a = false -> head (a_history a) = Some (a_current a)).
Proof.
  induction 1 as [| w a i kv u ins w' _ [Hn Hc] _ _ _|w a i key v w' _ IH|w a now w' _ [Hn Hc] _ _|w a w' _ [Hn Hc] _ _].
  - by split.
  - unfold a_insert. destruct (_ || _); by split.
  - exact IH.
  - unfold a_commit. destruct (a_dirty a) eqn:E; split; try done. rewrite E. intros _. by apply Hc.
  - split; [done|]. intros _. cbn. by destruct (a_history a).
Qed.

(** C10: the report of the differences between two revisions, in any state of a session
    without uncommitted data: it is made without an error, names no key twice and only keys
    of the newer revision; a key that it does not name has the same value in both
    revisions (or is in neither), and nothing is reported for equal revisions. Afterwards
    the revision that was current before is current again, and the store is unchanged. *)
Theorem session_diff k w a i new old :
  0 <= k <= 22 -> reachable k w a -> a_dirty a = false -> (i < num_indices)%nat ->
  0 <= old <= new -> new < Z.of_nat (length (a_history a)) ->
  exists m_new m_old ks w',
    a_history a !! Z.to_nat (Z.of_nat (length (a_history a)) - 1 - new) = Some m_new /\
    a_history a !! Z.to_nat (Z.of_nat (length (a_history a)) - 1 - old) = Some m_old /\
    make_index_diff i new old w = (Ok ks, w') /\ NoDup ks /\ (old = new -> ks = []) /\
    (forall key, key ∈ ks -> is_Some (m_new i !! key)) /\
    (forall key, key ∉ ks -> m_new i !! key = m_old i !! key) /\
    get_current_revision (db_of w') = get_current_revision (db_of w) /\
    db_mem (db_of w') = db_mem (db_of w) /\ db_header (db_of w') = db_header (db_of w).
Proof.
  intros Hk Hw Hd Hi Hold Hnew. destruct (reachable_refines k w a Hk Hw) as (l & c & Hrf).
  pose proof (refines_ready _ _ _ _ Hrf Hd) as Hr. pose proof (rd_length _ _ _ _ Hr) as Hlen.
  rewrite <- (history_length _ _ _ _ (rf_history _ _ _ _ Hrf)) in *.
  destruct (sync_views w a l c new Hr (proj2 (reachable_clean _ _ _ Hw) Hd) ltac:(lia)) as (m_new & es & Hm & Hes & Hwp).
  destruct (wp_elim _ _ _ Hwp) as ([] & w1 & Hsync & Hvw). pose proof (vw_view _ _ _ _ _ _ Hvw) as Hv1.
  set (n := Z.to_nat (Z.of_nat (length l) - 1 - new)) in *. set (lv := drop n l).
  assert (length lv = Z.to_nat (new + 1)) as Hlv by (unfold lv; rewrite length_drop; lia).
  destruct (lookup_lt_is_Some_2 lv (Z.to_nat (Z.of_nat (length lv) - 1 - old))) as [[p t] Hp]; [lia|].
  destruct (vw_indices _ _ _ _ _ _ Hvw i Hi) as [bl Hst].
  destruct (history_lookup _ _ _ _ _ _ _ _ (vw_chain _ _ _ _ _ _ Hvw) (vw_history _ _ _ _ _ _ Hvw) Hp)
    as (eo & m_old & Hmo & Hho & Heo & _). destruct (Heo i Hi) as [Hto Hsince].
  destruct (wp_elim _ _ _ (make_diff_spec w1 i (es i) bl lv old p t (vk_ok _ _ Hv1) Hst (vw_chain _ _ _ _ _ _ Hvw)
    ltac:(lia) ltac:(lia) Hp)) as (ks & w2 & Hdiff & -> & Hw2).
  destruct (restored w l _ _ _ w1 i w2 (ready_view_ok _ _ _ _ Hr) (eq_sym (rd_head _ _ _ _ Hr)) Hvw Hw2 Hlen)
    as (w3 & Hback & Hok3 & Hp3 & Hm3 & Hh3).
  pose proof (rd_chain _ _ _ _ Hr) as Hc. pose proof (rd_db _ _ _ _ Hr) as Hdb.
  pose proof (index_state_nodup _ _ _ _ Hst) as Hnd.
  eexists m_new, m_old, _, w3. split; [done|]. split.
  { rewrite lookup_drop in Hmo. rewrite <- Hmo. f_equal. unfold n. lia. }
  split.
  { unfold make_index_diff. rewrite bind_massert_true by (rewrite Z.geb_leb; apply Z.leb_le; lia).
    unfold revision_restorer. rewrite (proj1 (get_current_revision_ok _ _ Hdb Hc)).
    rewrite (bind_ok _ _ _ _ _ Hsync), Hdiff, Hback. reflexivity. }
  split; [by apply fresh_nodup|]. split.
  { intros ->. rewrite fresh_none; [done|]. intros e He. pose proof (vw_below _ _ _ _ _ _ Hvw i e Hi He) as Hlt.
    pose proof (vw_chain _ _ _ _ _ _ Hvw) as Hcv. replace (Z.to_nat _) with 0%nat in Hp by lia.
    by rewrite (chain_head _ _ _ _ _ Hcv Hp). }
  split.
  { intros key (ad & v & [_ Hin]%elem_of_fresh)%elem_of_keys. rewrite <- Hes by done.
    apply elem_of_keys_map, elem_of_keys. eauto. }
  split.
  { intros key Hkey. rewrite <- Hes, <- Hto by done. eapply since_unreported; try done.
    destruct Hho as [_ Hh]. destruct (Hh i Hi) as (loc & _ & Hper). by eapply persisted_nodup. }
  split; [|done]. rewrite (proj1 (get_current_revision_ok _ l Hdb Hc)).
  apply get_current_revision_ok; [done|]. by rewrite Hm3, Hp3.
Qed.

End session_diff.

(** Key 1 was assigned anew in the second revision. *)
Lemma session_diff_witness :
  exists m_new m_old w', a_history (a_commit a_two) !! 0%nat = Some m_new /\
    a_history (a_commit a_two) !! 1%nat = Some m_old /\ make_index_diff 0 2 1 third_world = (Ok [1], w') /\
    (forall key, key ∉ [1] -> m_new 0%nat !! key = m_old 0%nat !! key).
Proof.
  destruct (session_diff 12 third_world (a_commit a_two) 0 2 1) as (mn & mo & ks & w' & Hn & Ho & Hrun & _ & _ & _ & Hks & _);
    [lia|apply third_reachable|reflexivity|unfold num_indices; lia|lia|vm_compute; reflexivity|].
  assert ((make_index_diff 0 2 1 third_world).1 = Ok [1]) as E by (vm_compute; reflexivity).
  rewrite Hrun in E. injection E as ->.
  exists mn, mo, w'. split; [exact Hn|]. split; [exact Ho|]. split; [exact Hrun|exact Hks].
Defined.

(** The keys of two revisions of the example, and revisions in the wrong order *)
Example diff_runs :
  (make_index_diff 0 2 1 third_world).1 = Ok [1] /\ (make_index_diff 0 2 2 third_world).1 = Ok [] /\
  (make_index_diff 0 2 0 third_world).1 = Ok [1] /\ (make_diff 0 head_revision third_world).1 = Ok [].
Proof. vm_compute. split_and!; reflexivity. Qed.
